(* ===== verification/_CoqProject ===== *)
-Q . S2P
Prelude.v
JsLib.v
PaymentRecords.v
EscrowLock.v
ChainClient.v
EscrowCoordinator.v
EscrowLedger.v
EscrowCorrect.v
EscrowExamples.v
DisputeMachine.v
DisputeStore.v
Mediation.v
AutoMediation.v
MediationCorrect.v
Multisig.v
MultisigCorrect.v
Saga.v
SagaCorrect.v
Calendar.v
SpendLimits.v
SpendCorrect.v
Purchase.v
PurchaseCorrect.v
DualControl.v
Recovery.v
RecoveryCorrect.v
BillingCycle.v
Subscriptions.v
SubscriptionsCorrect.v
Inventory.v
InventoryCorrect.v
EscrowService.v
EscrowServiceCorrect.v
Settlement.v
SettlementCorrect.v
BatchSettlement.v
Payouts.v
PayoutsCorrect.v
Checkout.v
Compensation.v
CompensationCorrect.v
Timeouts.v
JsCollections.v
Disbursement.v
Locks.v
LocksCorrect.v
AutoRelease.v
AutoReleaseCorrect.v
Fingerprint.v
Idempotency.v
IdempotencyCorrect.v
Permissions.v
PermissionsCorrect.v
Tasks.v
TasksCorrect.v
Services.v
SessionKeys.v
SessionKeysCorrect.v
KillSwitch.v
Outbox.v
OutboxCorrect.v
OutboxDrain.v
PurchaseOrders.v
PurchaseOrdersCorrect.v
Ingestion.v
IngestionCorrect.v
IngestionRuns.v
IngestionSync.v
Tokens.v
TokensCorrect.v
TokenKeys.v
CoSigning.v
CoSigningCorrect.v
Negotiation.v
Sequences.v
SequencesCorrect.v
TxQueue.v
TxQueueCorrect.v
DeadLetters.v
Sponsorship.v
