(* ===== verification/Prelude.v ===== *)
(** * Delego backend: a verified model of its payment, wallet and order core

    Delego is a commerce backend of TypeScript services (apps/backend/).  A buyer's
    money is held in an escrow contract on the Stellar network; the payments service
    keeps one payment record per order, calls the wallet service to submit the
    contract invocations, and settles disputes between buyer and seller out of the
    same record; it also bills recurring subscriptions.  The wallet service keeps
    multi-signature wallets, spending limits and the recovery of wallets by guardians.
    The orchestrator runs multi-step purchases as sagas, follows each purchase with an
    event-sourced state machine, reserves inventory, and asks for a second signature
    where an order needs one.  This library models those cores and proves what makes
    them correct.  Around them: delegated keys and permissions of the wallet, locks,
    idempotency and human tasks, the outbox through which the orchestrator announces
    what happened, the ingestion of the events of the contracts, the tokens of the
    gateway, co-signing sessions, and the price negotiation of the buyer agent.

    ** How the code is modelled

    An async function is a computation of the monad [M S A] of this file: it reads and
    writes an explicit state [S] (database rows, module variables, the messages sent,
    the clock) and returns a value or throws; writes made before a throw stay.  Calls
    of one modelled function from another are calls of the model.  Code outside the
    repository (Stellar, Redis, PostgreSQL drivers, SHA-256, the fraud and evidence
    services) is a parameter: a type class of functions of the request and of
    everything sent before, that may answer anything or throw.  Database tables are
    lists of rows with the uniqueness constraints of the migrations.  Amounts are
    [bigint]s in the source and [Z] here; dates are milliseconds.  The functions run
    one after the other, except where a theorem says that two of them interleave.

    ** Files

    - Prelude.v: exceptions, the monad, [evolves R c] (every run of [c] moves the
      state along the preorder [R]) with its tactic, tables as lists.
    - JsLib.v: the JavaScript values used: [BigInt], integer [Number]s, trimming,
      [Map].
    - PaymentRecords.v: escrowCoordinator/paymentRecordStore.ts and the records of
      types.ts: lookups, insertion, updates, the delta update with its guard.
    - EscrowLock.v: escrowFundingLock.ts: striped and optimistic locks, lock selection,
      polling acquisition.
    - ChainClient.v: contractClient.ts, contractInvocationRetry.ts and
      autoRelease/retry.ts.
    - EscrowCoordinator.v: index.ts: fund, release, refund, dispute, partial refund,
      partial release, balance and status.
    - EscrowLedger.v: the specification of the coordinator as a ledger (a step relation
      on records) and the refinement lemmas; EscrowCorrect.v: the theorems;
      EscrowExamples.v: a concrete environment, witnesses, and behaviours that
      contradict the comments of the code.
    - DisputeMachine.v: disputes/stateMachine.ts and types.ts.
    - DisputeStore.v: the class [DisputeStore] with the laws a client may use and its
      in-memory instance (disputeStore.ts), auditLog.ts, reputationStore.ts,
      accessControl.ts.
    - Mediation.v: mediation.ts, partialRefund.ts, notifications.ts, slaEscalation.ts
      and escalationWorker.ts, over the modelled coordinator; AutoMediation.v:
      mediator.ts.
    - MediationCorrect.v: theorems and witnesses about disputes.
    - Multisig.v, MultisigCorrect.v: wallet/src/multisig/service.ts and types.ts.
    - Saga.v, SagaCorrect.v: orchestrator/src/saga/coordinator.ts,
      memory-store.ts and types.ts.
    - Calendar.v: the UTC calendar of JavaScript's [Date], a shared model of the
      language's library.
    - SpendLimits.v, SpendCorrect.v: wallet/src/spendLimits.ts and the
      limit guard and the recording of spends of queue/txQueue.ts.
    - Purchase.v, PurchaseCorrect.v: orchestrator/state/machine.ts,
      types.ts, snapshot-validator.ts and src/events/eventStore.ts.
    - DualControl.v: orchestrator/src/dualControl/service.ts and its theorems.
    - Recovery.v, RecoveryCorrect.v: wallet/src/recovery/guardianRecovery.ts, types.ts.
    - BillingCycle.v: payments/src/subscriptions/billingCycle.ts and its theorem;
      Subscriptions.v, SubscriptionsCorrect.v: the stores,
      billing.ts, service.ts and billingScheduler.ts of the same directory, over
      ChainClient.v.
    - Inventory.v, InventoryCorrect.v: orchestrator/src/inventory/reservation.ts and
      lowStockAlerts.ts.
    - EscrowService.v, EscrowServiceCorrect.v: payments/escrow/: deposits, the circuit
      breaker, fee estimates and the classification of contract errors; Settlement.v,
      SettlementCorrect.v: the settlement of orders; BatchSettlement.v: settlements of
      merchants by period and their CSV; Payouts.v, PayoutsCorrect.v: merchant payouts.
    - Checkout.v: orchestrator/workflows/checkout/ over Saga.v,
      Inventory.v and EscrowService.v; Compensation.v, CompensationCorrect.v:
      workflows/purchase/compensation.ts; Timeouts.v: stuck workflows and dead letters.
    - JsCollections.v: deletion from maps, sets of strings, prefixes.
    - Disbursement.v: payments/src/disbursementApproval.ts; Locks.v, LocksCorrect.v: the
      distributed lock of packages/cache and the lock manager of the orchestrator;
      AutoRelease.v, AutoReleaseCorrect.v:
      payments/src/autoRelease/.
    - Fingerprint.v, Idempotency.v, IdempotencyCorrect.v:
      orchestrator/src/idempotency/; Permissions.v, PermissionsCorrect.v:
      wallet/permissions/index.ts with the fees and key versions it uses; Tasks.v,
      TasksCorrect.v: orchestrator/src/tasks/.
    - Services.v: calls that happen, fail, or lose their answer ([Services]) and
      transactions ([Database]), for the files below.
    - SessionKeys.v, SessionKeysCorrect.v: wallet/src/sessionKeys/; KillSwitch.v:
      wallet/src/killswitch/service.ts over SessionKeys.v and Permissions.v.
    - Outbox.v, OutboxCorrect.v, OutboxDrain.v: orchestrator/src/events/ (the two outbox
      stores and the relay) and src/pubsub/publisher.ts; [OutboxLaws] is what the relay
      needs of a store.  PurchaseOrders.v, PurchaseOrdersCorrect.v:
      workflows/purchase/index.ts and order-lookup.ts over the outbox.
    - Ingestion.v: cdc/src/sorobanEvents/ingestionCheckpointStore.ts (the PostgreSQL
      store) and resumableIngestion.ts (RPC client and worker); IngestionCorrect.v: what
      the worker relies on of the node ([ChainLaws]) and the lemmas of a page;
      IngestionRuns.v: any number of workers, interleaved page by page;
      IngestionSync.v: whole cycles.
    - Tokens.v, TokensCorrect.v: gateway/src/auth/tokenManager.ts, tokenBlacklist.ts,
      tokenTypes.ts and models/RefreshToken.ts, over an interface [Signer] with
      [SignerLaws]; TokenKeys.v: auth/tokenKeys.ts, which discharges the interface.
    - CoSigning.v, CoSigningCorrect.v: wallet/src/multisig/coSigningService.ts and
      coSigningTypes.ts.
    - Negotiation.v: agents/buyer-agent/src/negotiation/.
    - Sequences.v, SequencesCorrect.v: the sequence numbers of
      wallet/src/queue/txQueue.ts and sequenceMonitoring.ts; TxQueue.v, TxQueueCorrect.v:
      its job and submissionFailure.ts, over Sequences.v and SpendLimits.v;
      DeadLetters.v: queue/transactionDLQ.ts.
    - Sponsorship.v: wallet/src/sponsorship/.

    ** What the theorems show

    - Escrow.  Every sequence of coordinator calls, under every behaviour of the
      external services, moves the payment records only along the steps of the ledger
      specification ([coordinator_refines]); so one record per order, and booked partial
      payouts that never exceed the amount escrowed and never shrink
      ([booked_payouts_bounded]; full releases and refunds book no amount), funding and
      release that act once ([fund_once], [release_once]); what a partial refund rejects
      and does on each branch.
    - Disputes.  A dispute moves only forward along legal transitions, keeps its
      identity and its evidence, has a mediator and a resolution exactly in the statuses
      that say so, and the audit trail is append-only ([dispute_lifecycle]); the bounds on
      booked payouts hold of disputes mixed with coordinator calls;
      a decision that resolves pays exactly the decided amounts and empties the escrow
      ([decision_settles]); the amounts check is exact; the escalation scans are
      idempotent; the verdicts of the automatic engine conserve the balance.
    - Multi-signature wallets.  What [executeProposal] answers and changes on every
      branch ([execute_exact]); at most once per proposal ([execute_once]); the
      lifecycle of proposals and the invariant of wallets over any history.
    - Sagas.  [run] and [resume] implement a reference semantics: steps in order with
      bounded retries, roll-back in reverse order ([saga_effects],
      [resume_continues], for a saga stored as running); a claimed step is not performed
      by another runner while the lease lives, up to the deadline of the saga
      ([claim_exclusive]); ended sagas rest; versions and logs are
      monotone.
    - Spend limits.  The counter keys identify exactly a day or an ISO week
      ([spend_keys_exact]); the spends the queue records of transactions that
      follow one another never exceed a limit ([limits_respected]); a confirmation found
      after a time-out of the gateway is not recorded and not counted.
    - Subscriptions.  Billing periods end on the intended calendar day
      ([billing_period_exact]); a paid period is never charged again
      ([period_paid_once]); every period after the first is backed by a successful
      charge, cancelled subscriptions rest, and a billing cycle completes and cancels
      what was flagged.
    - Purchases.  A workflow accepts a bounded number of events, its history is a chain
      of legal transitions with the context each produced ([workflow_history]), and snapshots and the event store reconstruct it
      ([snapshot_roundtrip], [replay_roundtrip]).
    - Dual control and recovery.  Distinct signers or guardians, completion exactly at
      the quorum, in one step ([sign_exact], [approve_recovery_exact]) and over any
      history; recovery attempts thirty days apart.
    - Inventory.  A reservation or release is exact or has no effect, while locks and
      connections work ([reservation_exact]); stock
      is conserved over any history ([stock_conserved]).
    - Settlement, payouts, checkout.  After a confirmed payout of an escrow no other is
      posted ([settled_once]; one whose answer is lost is posted again); batches
      and payouts record exactly what they pay; a checkout ends with everything done or
      everything undone ([checkout_exact]), a compensation undoes the completed steps in
      reverse ([compensation_exact]), stuck workflows are accounted for.
    - Automatic release and disbursement.  A delivery is released once, never against an
      open dispute, and its instalments add up to the escrow ([installments_conserve]); a
      broadcast has its quorum of distinct officers when the quorum is a number.
    - Locks and idempotency.  Two instances never rely on one lock, where relying ends the
      time-out of a renewal before the noted expiry, and waiting for it ends when the
      commands do ([lock_exclusive], [acquire_ends]).  Commands and answers take time in
      the model; acquisitions of one key use one TTL, the operations of one instance on
      one key follow one another, and a renewal given up is not executed later; a checkout runs once per key, requests
      interleaved at their Redis commands ([checkout_idempotent]), and the fingerprint
      identifies a checkout up to the order of its items, for addresses without a bar.
    - Permissions, session keys, kill switch.  A grant or a revocation that returns has
      taken effect on the chain, for a contract whose reads are answered
      ([permissions_take_effect]); the amounts declared for what is signed with a session
      key stay within its budget ([session_budget]); the kill switch leaves no open
      proposal, no key that signs and, when the reads are answered, no permission
      ([kill_switch_effective]).
    - Outbox and orders.  No event is lost or invented ([outbox_safe]) and each is
      delivered once the services answer ([outbox_drains]); the events of an order tell
      how it came to its state ([order_history]).
    - Ingestion.  However many workers, restarts and failures, the table holds exactly
      the events of the chain up to the watermark, each processed once
      ([ingestion_exact]); a whole cycle is a sequence of these steps
      ([syncOnce_history]), and it reaches the tip once the services answer,
      unless the node has dropped ledgers that are missing ([sync_catches_up]).
    - Tokens.  A family has at most one refresh token that can be exchanged
      ([one_live_token]), the reuse of a token ends its family ([reuse_kills_family], with rotation
      enabled), a
      revoked access token is refused everywhere ([revoked_everywhere]), an issued one
      gives its claims back ([issued_token_verifies]), and rotating usable keys does not
      invalidate tokens ([rotation_keeps_tokens]).
    - Co-signing and negotiation.  An envelope that reaches the network carries the
      required number of valid signatures ([envelope_has_threshold]); a negotiation stays
      within the rounds and the budget ([offers_within_budget]).
    - Transaction queue.  A job reports the truth about the ledger
      ([job_reports_truth]) and makes at most five transactions ([queue_bounded]); the
      blocks of sequence numbers never overlap ([reservations_disjoint]); a pass of
      the automatic replays selects and marks the dead letters exactly
      ([auto_replay_pass]).
    - Fee sponsorship.  The declared fees of submissions one after the other stay within
      the caps of the policy ([sponsorship_caps]).
    - Tasks.  The life of a human task over any history ([tasks_lifecycle]).
    - Theorems without a number, at the end of the Correct and Examples files, prove
      where the code departs from its intent on concrete runs: double refund on a retried
      decision, interleaved partial refunds, a full release that leaves a balance, a
      saga undone after completion, concurrent spends above a limit, a replay that
      cannot be repeated, a wallet recovered by one caller, a period deposited twice, a
      release of stock that another order holds, two relays that claim one event, two
      transitions that both win, a kill switch that cannot be retried, a revoked token that
      is accepted again, a session submitted but never sent, a transfer executed twice
      after a broken connection, a release posted again after a lost answer, an instance
      that believes too long in its lock, a broadcast without signatures, two checkouts
      with one fingerprint.

    ** Fuel and bounds

    Most loops are structural.  The polling loop of [acquireLock] has one round
    of fuel per millisecond of its time-out plus one; every poll takes at least a
    millisecond, so the fuel never runs out (lemma [acquire_loop_fuel] of
    EscrowLock.v).  The waiting loop of the lock manager has one round per millisecond of
    its time-out plus two ([acquire_ends] of LocksCorrect.v), the retries within a lease
    budget end as [budgeted_retry_ends] of CompensationCorrect.v shows, and the batches of
    the kill switch take one round per key at most ([batches_concat] of KillSwitch.v).
    The ingestion has a round per window and a page of fuel per call; more rounds than
    ledgers and more pages than events are enough ([sync_catches_up]), and a cycle that
    runs out of fuel is told apart by its result [None].
    The retry loops recurse on the number of attempts left.  Dates are
    exact integers; the results of [Date] arithmetic out of its range are invalid dates
    ([TimeClip] of Calendar.v).  Redis counters overflow at 64 bits and stock columns at
    32 bits, as in the databases.

    ** What is not modelled, and the plan

    Not modelled: HTTP routing, key custody and Stellar transport, notifications,
    analytics and the operations services, the prompts of the agents (I/O around
    third-party services); metrics and tuning of the lock manager; the configuration,
    registration and login code of the gateway; the polling loop and the in-memory store
    of the ingestion; BullMQ around the transaction queue.  Left of the plan, in this
    order: the PostgreSQL implementations of the dispute, saga, task and subscription
    stores as further instances of their interfaces; the triage worker of the dead
    letters; webhooks, ratings and exchange rates of the payments service. *)
From Stdlib Require Export ZArith Lia Ascii String.
From stdpp Require Export base list strings gmap relations.

(** * JavaScript exceptions

    An [Error] object is its class name and its message; [new Error(m)] has the
    class name ["Error"]. *)
Record exn := Exn { exn_name : string; exn_message : string }.

#[export] Instance exn_eq_dec : EqDecision exn.
Proof. solve_decision. Defined.

Definition Error (m : string) : exn := Exn "Error" m.

(** * The state-and-exception monad

    An async function of the services is a computation that reads and writes the
    state it shares with the other functions (database rows, module variables,
    the log of messages it sent) and ends in a value or in a thrown error.
    [throw] keeps the writes made before it, as JavaScript does. *)
Definition M (S A : Type) : Type := S → (exn + A) * S.

Section monad.
Context {S : Type}.

#[export] Instance M_ret : MRet (M S) := λ A a s, (inr a, s).
#[export] Instance M_bind : MBind (M S) := λ A B k c s,
  match c s with
  | (inl e, s') => (inl e, s')
  | (inr a, s') => k a s'
  end.

Definition throw {A} (e : exn) : M S A := λ s, (inl e, s).
Definition gets {A} (f : S → A) : M S A := λ s, (inr (f s), s).
Definition modify (f : S → S) : M S () := λ s, (inr (), f s).
(** [try { c } catch (e) { h e }] *)
Definition try_catch {A} (c : M S A) (h : exn → M S A) : M S A := λ s,
  match c s with
  | (inl e, s') => h e s'
  | (inr a, s') => (inr a, s')
  end.
(** [try { c } finally { f }] *)
Definition try_finally {A} (c : M S A) (f : M S ()) : M S A := λ s,
  match c s with
  | (r, s') =>
      match f s' with
      | (inl e, s'') => (inl e, s'')
      | (inr _, s'') => (r, s'')
      end
  end.
(** [if (b) throw e] *)
Definition throw_if (b : bool) (e : exn) : M S () :=
  if b then throw e else mret ().
(** [const x = o; if (!x) throw e] *)
Definition some_or_throw {A} (o : option A) (e : exn) : M S A :=
  match o with Some a => mret a | None => throw e end.
(** The value an external call answers with: a result or a thrown error. *)
Definition answer {A} (r : exn + A) : M S A := λ s, (r, s).

(** [for (const x of xs) body(x)] *)
Fixpoint for_each {A} (xs : list A) (body : A → M S ()) : M S () :=
  match xs with
  | [] => mret ()
  | x :: xs' => body x ;; for_each xs' body
  end.
End monad.

(** Running a computation of a component inside a larger state. *)
Definition zoom {S T A} (get : T → S) (put : S → T → T) (c : M S A) : M T A := λ t,
  match c (get t) with
  | (r, s) => (r, put s t)
  end.

(** * Computations that only move the state along a preorder

    [evolves R c] states that every run of [c], returning or throwing, takes the
    state to one related by [R].  With [R s s' := I s → I s'] it is the
    preservation of the invariant [I]; with [R] a prefix order on a log it is
    append-only behaviour. *)
Definition evolves {S A} (R : relation S) (c : M S A) : Prop := ∀ s, R s (c s).2.

Definition keeps {S} (I : S → Prop) : relation S := λ s s', I s → I s'.

#[export] Instance keeps_preorder {S} (I : S → Prop) : PreOrder (keeps I).
Proof. split; unfold keeps; intros ?; auto. Qed.

Create HintDb evolve discriminated.

Section evolves.
Context {S : Type} (R : relation S) `{!PreOrder R}.

Lemma evolves_ret {A} (a : A) : evolves R (mret a : M S A).
Proof. intros s. done. Qed.

Lemma evolves_throw {A} e : evolves R (throw e : M S A).
Proof. intros s. done. Qed.

Lemma evolves_gets {A} (f : S → A) : evolves R (gets f).
Proof. intros s. done. Qed.

Lemma evolves_answer {A} (r : exn + A) : evolves R (answer r).
Proof. intros s. done. Qed.

Lemma evolves_modify f : (∀ s, R s (f s)) → evolves R (modify f).
Proof. intros H s. apply H. Qed.

Lemma evolves_bind {A B} (c : M S A) (k : A → M S B) :
  evolves R c → (∀ a, evolves R (k a)) → evolves R (c ≫= k).
Proof.
  intros Hc Hk s. specialize (Hc s). unfold mbind, M_bind.
  destruct (c s) as [[e | a] s']; simpl in *; [done |].
  etrans; [exact Hc | apply Hk].
Qed.

(** The same for a run that starts in a known state. *)
Lemma evolves_from {A B} (c : M S A) (k : A → M S B) s :
  R s (c s).2 → (∀ a, evolves R (k a)) → R s ((c ≫= k) s).2.
Proof.
  intros Hc Hk. unfold mbind, M_bind. destruct (c s) as [[e | a] s']; simpl in *; [done |].
  etrans; [exact Hc | apply Hk].
Qed.

Lemma evolves_try {A} (c : M S A) h :
  evolves R c → (∀ e, evolves R (h e)) → evolves R (try_catch c h).
Proof.
  intros Hc Hh s. specialize (Hc s). unfold try_catch.
  destruct (c s) as [[e | a] s']; simpl in *; [| done].
  etrans; [exact Hc | apply Hh].
Qed.

Lemma evolves_finally {A} (c : M S A) f :
  evolves R c → evolves R f → evolves R (try_finally c f).
Proof.
  intros Hc Hf s. specialize (Hc s). unfold try_finally.
  destruct (c s) as [r s']; simpl in *. specialize (Hf s').
  destruct (f s') as [[e | a] s'']; simpl in *; etrans; eauto.
Qed.

Lemma evolves_throw_if b e : evolves R (throw_if b e).
Proof. intros s. by destruct b. Qed.

Lemma evolves_some_or_throw {A} (o : option A) e : evolves R (some_or_throw o e).
Proof. intros s. by destruct o. Qed.

Lemma evolves_for_each {A} (xs : list A) body :
  (∀ x, evolves R (body x)) → evolves R (for_each xs body).
Proof.
  intros H. induction xs as [| x xs IH]; simpl; [apply evolves_ret |].
  apply evolves_bind; auto.
Qed.
End evolves.

Lemma evolves_zoom {S T A} (RS : relation S) (RT : relation T)
    (get : T → S) (put : S → T → T) (c : M S A) :
  (∀ t s, RS (get t) s → RT t (put s t)) → evolves RS c → evolves RT (zoom get put c).
Proof.
  intros H Hc t. specialize (Hc (get t)). unfold zoom.
  destruct (c (get t)) as [r s]. simpl in *. auto.
Qed.

(** Walks a monadic program with the closure rules of [evolves]; the leaves are
    left to the hint database. *)
Ltac evolve_step :=
  match goal with
  | |- PreOrder _ => apply _
  | |- evolves _ (mret _) => apply evolves_ret
  | |- evolves _ (throw _) => apply evolves_throw
  | |- evolves _ (gets _) => apply evolves_gets
  | |- evolves _ (answer _) => apply evolves_answer
  | |- evolves _ (throw_if _ _) => apply evolves_throw_if
  | |- evolves _ (some_or_throw _ _) => apply evolves_some_or_throw
  | |- evolves _ (mbind _ _) => apply evolves_bind; [try apply _ | | intros ?]
  | |- evolves _ (try_catch _ _) => apply evolves_try; [try apply _ | | intros ?]
  | |- evolves _ (try_finally _ _) => apply evolves_finally
  | |- evolves _ (for_each _ _) => apply evolves_for_each; [try apply _ | intros ?]
  | |- evolves _ (match ?x with _ => _ end) => destruct x
  | |- evolves _ (let _ := _ in _) => cbv zeta
  | |- evolves _ _ => solve [auto with evolve]
  end.
Ltac evolve := repeat (first [evolve_step | progress simpl]).

(** Proves [R s (c s).2] by [evolves R c]. *)
Ltac by_evolve :=
  match goal with
  | |- ?R ?s (?c ?s).2 => let H := fresh in assert (evolves R c) as H; [evolve | exact (H s)]
  end.

(** * Reasoning on single runs *)

Lemma evolves_run {S A} (R : relation S) (c : M S A) s r s' : evolves R c → c s = (r, s') → R s s'.
Proof. intros Hc Hrun. specialize (Hc s). by rewrite Hrun in Hc. Qed.

Lemma bind_inr {S A B} (c : M S A) (k : A → M S B) s b s' :
  (c ≫= k) s = (inr b, s') ↔ ∃ a s1, c s = (inr a, s1) ∧ k a s1 = (inr b, s').
Proof.
  unfold mbind, M_bind. destruct (c s) as [[e | a] s1]; naive_solver.
Qed.

Lemma bind_run {S A B} (c : M S A) (k : A → M S B) s a s1 :
  c s = (inr a, s1) → (c ≫= k) s = k a s1.
Proof. unfold mbind, M_bind. by intros ->. Qed.

Lemma bind_run_err {S A B} (c : M S A) (k : A → M S B) s e s1 :
  c s = (inl e, s1) → (c ≫= k) s = (inl e, s1).
Proof. unfold mbind, M_bind. by intros ->. Qed.

Lemma finally_run {S A} (c : M S A) (f : M S ()) s r s1 :
  c s = (r, s1) → try_finally c f s = match f s1 with (inl e, s2) => (inl e, s2) | (inr _, s2) => (r, s2) end.
Proof. unfold try_finally. by intros ->. Qed.

Lemma bind_run_as {S A B} (c c' : M S A) (k : A → M S B) s :
  c s = c' s → (c ≫= k) s = (c' ≫= k) s.
Proof. unfold mbind, M_bind. by intros ->. Qed.

Lemma bind_assoc_run {S A B C} (c : M S A) (k : A → M S B) (h : B → M S C) s :
  ((c ≫= k) ≫= h) s = (c ≫= λ a, k a ≫= h) s.
Proof. unfold mbind, M_bind. by destruct (c s) as [[]]. Qed.

Lemma bind_cases {S A B} (c : M S A) (k : A → M S B) s r s' :
  (c ≫= k) s = (r, s') →
  (∃ e, c s = (inl e, s') ∧ r = inl e) ∨ (∃ a s1, c s = (inr a, s1) ∧ k a s1 = (r, s')).
Proof. unfold mbind, M_bind. destruct (c s) as [[e | a] s1]; naive_solver. Qed.

(** The ways a guarded block returns. *)
Lemma try_bind_inr {S A B} (c : M S A) (k : A → M S B) h s r s' :
  try_catch (c ≫= k) h s = (inr r, s') →
  (∃ e s1, c s = (inl e, s1) ∧ h e s1 = (inr r, s')) ∨
  (∃ a s1, c s = (inr a, s1) ∧
     (k a s1 = (inr r, s') ∨ ∃ e s2, k a s1 = (inl e, s2) ∧ h e s2 = (inr r, s'))).
Proof.
  unfold try_catch, mbind, M_bind. destruct (c s) as [[e | a] s1]; [eauto |].
  destruct (k a s1) as [[e | b] s2] eqn:Hk; intros; simplify_eq; naive_solver.
Qed.

Lemma throw_if_run {S} b e (s s1 : S) a : throw_if b e s = (inr a, s1) → b = false ∧ s1 = s.
Proof. destruct b; [done |]. by intros [= <-]. Qed.

Lemma some_or_throw_run {S A} (o : option A) e (s s1 : S) a :
  some_or_throw o e s = (inr a, s1) → o = Some a ∧ s1 = s.
Proof. destruct o; [| done]. by intros [= <- <-]. Qed.

(** Stepping over a check that writes nothing. *)
Lemma pure_then {S A B} (R : relation S) `{!Reflexive R} (c : M S A) (k : A → M S B) s :
  (c s).2 = s → (∀ a, c s = (inr a, s) → R s (k a s).2) → R s ((c ≫= k) s).2.
Proof.
  intros Hc Hk. unfold mbind, M_bind. destruct (c s) as [[e | a] s1]; simpl in *; subst; auto.
Qed.

Lemma pure_keeps {S A B} (P : S → Prop) (c : M S A) (k : A → M S B) s :
  (c s).2 = s → P s → (∀ a, c s = (inr a, s) → P (k a s).2) → P ((c ≫= k) s).2.
Proof. intros Hc Hs Hk. unfold mbind, M_bind. destruct (c s) as [[e | a] s1]; simpl in *; subst; auto. Qed.

(** The same for the two kinds of guards. *)
Lemma throw_if_keeps {S B} (P : S → Prop) b e (k : () → M S B) s :
  P s → (b = false → P (k () s).2) → P ((throw_if b e ≫= k) s).2.
Proof. intros Hs Hk. destruct b; [done |]. by apply Hk. Qed.

Lemma some_or_throw_keeps {S A B} (P : S → Prop) (o : option A) e (k : A → M S B) s :
  P s → (∀ a, o = Some a → P (k a s).2) → P ((some_or_throw o e ≫= k) s).2.
Proof. intros Hs Hk. destruct o; [| done]. by apply Hk. Qed.

Lemma throw_if_pure {S} b e (s : S) : (throw_if b e s).2 = s.
Proof. by destruct b. Qed.

Lemma for_each_pure {S A} (xs : list A) (body : A → M S ()) s :
  (∀ x, (body x s).2 = s) → (for_each xs body s).2 = s.
Proof.
  intros H. induction xs as [| x xs IH]; [done |]. simpl. unfold mbind, M_bind. specialize (H x).
  destruct (body x s) as [[e | u] s1]; simpl in *; by subst.
Qed.

(** Unfolds the combinators of the monad so that a run computes. *)
Ltac run_unfold :=
  unfold throw_if, some_or_throw, try_catch, try_finally, answer, gets, modify,
    throw, mret, M_ret, mbind, M_bind in *; simpl in *.

(** Splits the run of a sequence of binds that returned. *)
Ltac bind_all H := repeat (apply bind_inr in H as (? & ? & _ & H)).

(** Case analysis on every scrutinee of a run hypothesis. *)
Ltac run_inv H :=
  repeat (match type of H with
          | context [match ?x with _ => _ end] =>
              let E := fresh "E" in destruct x eqn:E; simpl in H; simplify_eq
          end).

(** * Lists used as tables *)

(** Updating the rows with a given key in a table with unique keys changes one row. *)
Lemma fmap_update_unique {A K} (key : A → K) (p : A → bool) (f : A → A) (l : list A) i x :
  NoDup (key <$> l) → l !! i = Some x →
  (∀ y, p y = true ↔ key y = key x) →
  (λ y, if p y then f y else y) <$> l = <[i := f x]> l.
Proof.
  intros Hnd Hi Hp. apply list_eq. intros j. rewrite list_lookup_fmap.
  destruct (decide (i = j)) as [<- |].
  - rewrite list_lookup_insert_eq by (by eapply lookup_lt_Some). rewrite Hi. simpl.
    by rewrite (proj2 (Hp x)).
  - rewrite list_lookup_insert_ne by done. destruct (l !! j) as [y |] eqn:Hj; [| done]. simpl.
    destruct (p y) eqn:E; [| done]. apply Hp in E. exfalso.
    assert (i = j) as ->; [| done].
    eapply (NoDup_lookup (key <$> l)); [done | rewrite list_lookup_fmap, Hi; done |].
    rewrite list_lookup_fmap, Hj. simpl. by rewrite E.
Qed.

Lemma find_unique {A K} (key : A → K) (p : A → bool) (l : list A) i x :
  NoDup (key <$> l) → l !! i = Some x → (∀ y, p y = true ↔ key y = key x) →
  List.find p l = Some x.
Proof.
  intros Hnd Hi Hp. revert i Hi. induction l as [| y l IH]; intros i Hi; [done |]. simpl.
  rewrite fmap_cons, NoDup_cons in Hnd. destruct Hnd as [Hy Hnd].
  destruct i as [| i]; simpl in Hi.
  - simplify_eq. by rewrite (proj2 (Hp x)).
  - destruct (p y) eqn:E; [| by eapply IH]. apply Hp in E. exfalso. apply Hy.
    rewrite E. apply list_elem_of_fmap_2. by eapply list_elem_of_lookup_2.
Qed.

Lemma find_Some_lookup {A} (p : A → bool) (l : list A) x :
  List.find p l = Some x → p x = true ∧ ∃ i, l !! i = Some x.
Proof.
  intros H. apply List.find_some in H as [Hin Hp]. split; [done |].
  by apply list_elem_of_lookup, list_elem_of_In.
Qed.

Lemma find_None {A} (p : A → bool) (l : list A) x :
  List.find p l = None → x ∈ l → p x = false.
Proof. intros H Hx. eapply List.find_none; [exact H |]. by apply list_elem_of_In. Qed.

Lemma find_fmap {A} (p : A → bool) (g : A → A) (l : list A) :
  (∀ x, p (g x) = p x) → List.find p (g <$> l) = g <$> List.find p l.
Proof.
  intros Hg. induction l as [| x l IH]; [done |]. simpl. rewrite Hg. by destruct (p x).
Qed.

(** [find] answers with the first element that satisfies the predicate. *)
Lemma find_first {A} (p : A → bool) (l : list A) x :
  List.find p l = Some x →
  ∃ i, l !! i = Some x ∧ p x = true ∧ ∀ j y, (j < i)%nat → l !! j = Some y → p y = false.
Proof.
  induction l as [| y l IH]; simpl; [done |]. destruct (p y) eqn:Hy.
  - intros [= ->]. exists 0%nat. split; [done |]. split; [done |]. intros; lia.
  - intros H. destruct (IH H) as (i & Hi & Hx & Hf). exists (S i). split; [done |]. split; [done |].
    intros [| j] z Hj Hz; simpl in Hz; [by simplify_eq |]. eapply Hf; [| done]. lia.
Qed.

(** The position of the first row that satisfies [p], and the row: what an ORM
    instance returned by a lookup stands for. *)
Fixpoint find_row {A} (p : A → bool) (l : list A) : option (nat * A) :=
  match l with
  | [] => None
  | x :: l' => if p x then Some (0%nat, x) else prod_map S id <$> find_row p l'
  end.

Lemma find_row_lookup {A} (p : A → bool) (l : list A) i x :
  find_row p l = Some (i, x) → l !! i = Some x ∧ p x = true.
Proof.
  revert i. induction l as [| y l IH]; intros i; simpl; [done |].
  destruct (p y) eqn:Hy; [by intros [= <- <-] |].
  destruct (find_row p l) as [[j z] |]; simpl; [| done]. intros [= <- <-]. by apply IH.
Qed.

Lemma find_row_insert {A} (p : A → bool) (l : list A) i x y :
  find_row p l = Some (i, x) → p y = p x → p x = true → find_row p (<[i := y]> l) = Some (i, y).
Proof.
  revert i. induction l as [| z l IH]; intros i; simpl; [done |]. destruct (p z) eqn:Hz.
  - intros [= <- <-] Hy Hx. simpl. by rewrite Hy, Hx.
  - destruct (find_row p l) as [[j u] |] eqn:Hj; simpl; [| done]. intros [= <- <-] Hy Hx. simpl. rewrite Hz.
    by rewrite (IH j).
Qed.

(** A table whose rows each evolve along [R], and which only gains rows. *)
Definition rows_evolve {A} (R : relation A) (l l' : list A) : Prop :=
  ∀ i x, l !! i = Some x → ∃ x', l' !! i = Some x' ∧ R x x'.

#[export] Instance rows_evolve_preorder {A} (R : relation A) `{!PreOrder R} : PreOrder (rows_evolve R).
Proof.
  split; [intros l i x H; by exists x |]. intros l1 l2 l3 H1 H2 i x Hi.
  destruct (H1 _ _ Hi) as (y & Hy & Hxy). destruct (H2 _ _ Hy) as (z & Hz & Hyz).
  exists z. split; [done | by etrans].
Qed.

Lemma rows_evolve_insert {A} (R : relation A) `{!Reflexive R} l i x y :
  l !! i = Some x → R x y → rows_evolve R l (<[i := y]> l).
Proof.
  intros Hi Hxy j z Hj. destruct (decide (i = j)) as [<- | Hne].
  - exists y. rewrite list_lookup_insert_eq by (by eapply lookup_lt_Some). by simplify_eq.
  - exists z. by rewrite list_lookup_insert_ne.
Qed.

Lemma rows_evolve_app {A} (R : relation A) `{!Reflexive R} l k : rows_evolve R l (l ++ k).
Proof. intros i x Hi. exists x. split; [by apply lookup_app_l_Some | done]. Qed.

(** The first row with a given key stays the first one while rows keep their keys
    and new rows are appended. *)
Lemma find_row_evolve {A} (R : relation A) (p : A → bool) l l' i x :
  (∀ y z, R y z → p z = p y) → rows_evolve R l l' → find_row p l = Some (i, x) →
  ∃ x', find_row p l' = Some (i, x') ∧ R x x'.
Proof.
  intros Hp. revert l' i. induction l as [| y l IH]; intros l' i He Hf; simpl in Hf; [done |].
  destruct (He 0%nat y eq_refl) as (y' & Hy' & Hyy'). destruct l' as [| z l']; [done |]. simpl in Hy'.
  injection Hy' as ->. simpl. rewrite (Hp _ _ Hyy'). destruct (p y).
  - injection Hf as <- <-. by exists y'.
  - destruct (find_row p l) as [[j x0] |] eqn:Hj; simpl in Hf; [| done]. injection Hf as <- <-.
    destruct (IH l' j) as (x' & Hx' & Hr); [| done |].
    + intros k u Hu. apply (He (S k) u Hu).
    + exists x'. by rewrite Hx'.
Qed.

Lemma existsb_false {A} (f : A → bool) l : (∀ x, x ∈ l → f x = false) → existsb f l = false.
Proof.
  intros H. destruct (existsb f l) eqn:E; [| done]. apply existsb_exists in E as (x & Hx & Hf). apply list_elem_of_In in Hx.
  rewrite (H x Hx) in Hf. done.
Qed.

(** Splits a run on everything it branches on. *)
Ltac run_cases := repeat (case_match; simpl in *; simplify_eq; try done).
