(* ===== verification/JsLib.v ===== *)
(** * The JavaScript values the services compute with

    Strings, [BigInt] and [Number] conversions, the few [String.prototype]
    methods the sources call, and the insertion-ordered [Map].  A string is a
    sequence of 8-bit characters; white space and letter case are those of
    ASCII.  A [Date] is its time value in milliseconds, and an ISO-8601 string
    produced by [toISOString] is identified with the instant it denotes. *)
From Stdlib Require Import DecimalString DecimalZ DecimalPos DecimalFacts.
From S2P Require Import Prelude.
Local Open Scope Z_scope.

(** ** Characters *)

Definition is_ws (c : ascii) : bool :=
  let n := Ascii.N_of_ascii c in
  ((9 <=? n) && (n <=? 13) || (n =? 32))%N.

Definition digit_val (c : ascii) : option Z :=
  let n := Z.of_N (Ascii.N_of_ascii c) in
  if (48 <=? n) && (n <=? 57) then Some (n - 48)
  else if (97 <=? n) && (n <=? 122) then Some (n - 87)
  else if (65 <=? n) && (n <=? 90) then Some (n - 55)
  else None.

Definition is_digit (c : ascii) : bool :=
  let n := Ascii.N_of_ascii c in ((48 <=? n) && (n <=? 57))%N.

Definition lower (c : ascii) : ascii :=
  let n := Ascii.N_of_ascii c in
  if ((65 <=? n) && (n <=? 90))%N then Ascii.ascii_of_N (n + 32) else c.

Definition upper (c : ascii) : ascii :=
  let n := Ascii.N_of_ascii c in
  if ((97 <=? n) && (n <=? 122))%N then Ascii.ascii_of_N (n - 32) else c.

(** ** Strings *)

Definition chars (s : string) : list ascii := list_ascii_of_string s.
Definition of_chars (l : list ascii) : string := string_of_list_ascii l.

Fixpoint drop_while {A} (p : A → bool) (l : list A) : list A :=
  match l with
  | x :: l' => if p x then drop_while p l' else l
  | [] => []
  end.

Definition trim_chars (l : list ascii) : list ascii :=
  rev (drop_while is_ws (rev (drop_while is_ws l))).

(** A text between double quotes, as the error messages print it. *)
Definition quoted (s : string) : string :=
  let q := String (Ascii.ascii_of_nat 34) EmptyString in q +:+ s +:+ q.

(** [l.join(sep)] *)
Fixpoint join (sep : string) (l : list string) : string :=
  match l with [] => "" | [x] => x | x :: l' => x +:+ sep +:+ join sep l' end.

(** [s.trim()] *)
Definition trim (s : string) : string := of_chars (trim_chars (chars s)).
Definition toLowerCase (s : string) : string := of_chars (lower <$> chars s).
Definition toUpperCase (s : string) : string := of_chars (upper <$> chars s).
(** [s.includes(p)] *)
Definition includes (s p : string) : bool :=
  match String.index 0 p s with Some _ => true | None => false end.
(** [Boolean(s)] of a nullable string: neither [null] nor [""]. *)
Definition truthy (o : option string) : bool :=
  match o with Some s => negb (String.eqb s "") | None => false end.
(** [/^[0-9]+$/.test(s)] *)
Definition all_digits (s : string) : bool :=
  match chars s with [] => false | l => forallb is_digit l end.

(** ** Decimal notation and [BigInt] *)

(** [n.toString()] of a [bigint], and how a PostgreSQL driver hands over an
    [int8] column. *)
Definition dec (z : Z) : string := NilZero.string_of_int (Z.to_int z).

(** The value of a digit sequence in base [b], most significant digit first. *)
Fixpoint digits_in (b acc : Z) (l : list ascii) : option Z :=
  match l with
  | [] => Some acc
  | c :: l' =>
      d ← digit_val c;
      if d <? b then digits_in b (acc * b + d) l' else None
  end.

Definition nonempty_digits_in (b : Z) (l : list ascii) : option Z :=
  match l with [] => None | _ => digits_in b 0 l end.

Definition prefixed_int (l : list ascii) : option Z :=
  match l with
  | z :: x :: l' =>
      if Ascii.eqb z "0"%char then
        if Ascii.eqb (lower x) "x"%char then nonempty_digits_in 16 l'
        else if Ascii.eqb (lower x) "o"%char then nonempty_digits_in 8 l'
        else if Ascii.eqb (lower x) "b"%char then nonempty_digits_in 2 l'
        else None
      else None
  | _ => None
  end.

Definition signed_decimal (s : string) : option Z :=
  match s with
  | String "+" (String c s' as t) =>
      if Ascii.eqb c "-"%char then None else Z.of_int <$> NilZero.int_of_string t
  | _ => Z.of_int <$> NilZero.int_of_string s
  end.

(** [BigInt(s)]; [None] is the [SyntaxError].  White space around the literal is
    skipped, the empty literal is [0n], and [0x], [0o], [0b] select the base. *)
Definition BigInt (s : string) : option Z :=
  let t := trim s in
  if String.eqb t "" then Some 0
  else match signed_decimal t with
       | Some z => Some z
       | None => prefixed_int (chars t)
       end.

Definition SyntaxError : exn := Exn "SyntaxError" "Cannot convert to a BigInt".

Definition BigInt_throw {S} (s : string) : M S Z := some_or_throw (BigInt s) SyntaxError.

(** ** [Number(s)] where the source asks for an integer

    [Number_integer s] is the integer denoted by the double [Number(s)] when that
    double is an integer ([Number.isInteger]); [NaN], the infinities and the
    fractional values give [None]. *)

(** The nearest integer to [n / d], ties to even. *)
Definition round_half_even (n d : Z) : Z :=
  let q := n / d in
  let r := n mod d in
  if 2 * r <? d then q else if d <? 2 * r then q + 1 else if Z.even q then q else q + 1.

(** The double nearest to [n / d] (with [0 ≤ n] and [0 < d]) when it is an integer. *)
Definition nearest_double_integer (n d : Z) : option Z :=
  if n =? 0 then Some 0
  else if n <? d then
    if (2 ^ 54 - 1) * d <=? n * 2 ^ 54 then Some 1
    else if n * 2 ^ 1075 <=? d then Some 0 else None
  else
    let l := Z.log2 (n / d) in
    if l <=? 52 then
      let f := 2 ^ (52 - l) in
      let r := round_half_even (n * f) d in
      if r mod f =? 0 then Some (r / f) else None
    else
      let g := 2 ^ (l - 52) in
      let r := round_half_even n (d * g) * g in
      if r <? 2 ^ 1024 then Some r else None.

Fixpoint span_digits (l : list ascii) : list ascii * list ascii :=
  match l with
  | c :: l' => if is_digit c then let '(a, b) := span_digits l' in (c :: a, b) else ([], l)
  | [] => ([], [])
  end.

Definition exponent_part (l : list ascii) : option Z :=
  match l with
  | [] => Some 0
  | e :: l' =>
      if Ascii.eqb (lower e) "e"%char then
        match l' with
        | c :: l'' =>
            if Ascii.eqb c "-"%char then Z.opp <$> nonempty_digits_in 10 l''
            else if Ascii.eqb c "+"%char then nonempty_digits_in 10 l''
            else nonempty_digits_in 10 l'
        | [] => None
        end
      else None
  end.

Definition unsigned_decimal_number (l : list ascii) : option Z :=
  let '(ip, l1) := span_digits l in
  let '(fp, l2) := match l1 with
                   | c :: l' => if Ascii.eqb c "."%char then span_digits l' else ([], l1)
                   | [] => ([], [])
                   end in
  match ip ++ fp with
  | [] => None
  | ds =>
      m ← digits_in 10 0 ds;
      e ← exponent_part l2;
      let x := e - Z.of_nat (length fp) in
      if 0 <=? x then nearest_double_integer (m * 10 ^ x) 1
      else nearest_double_integer m (10 ^ (- x))
  end.

Definition Number_integer (s : string) : option Z :=
  match trim_chars (chars s) with
  | [] => Some 0
  | (c :: l') as l =>
      match prefixed_int l with
      | Some n => nearest_double_integer n 1
      | None =>
          if Ascii.eqb c "-"%char then Z.opp <$> unsigned_decimal_number l'
          else if Ascii.eqb c "+"%char then unsigned_decimal_number l'
          else unsigned_decimal_number l
      end
  end.

(** A [number] argument of which the source only asks whether it is an integer
    and how it compares with one: an integer, or a fraction, [NaN] or an infinity. *)
Inductive number := Int (z : Z) | NonInteger.

Definition isInteger (n : number) : bool := match n with Int _ => true | NonInteger => false end.

(** ** [Map]: insertion-ordered, [set] on a present key keeps its place *)

Section jsmap.
Context {V : Type}.
Definition jsmap := list (string * V).

Fixpoint jget (k : string) (m : jsmap) : option V :=
  match m with
  | [] => None
  | (k', v) :: m' => if String.eqb k k' then Some v else jget k m'
  end.

Fixpoint jset (k : string) (v : V) (m : jsmap) : jsmap :=
  match m with
  | [] => [(k, v)]
  | (k', v') :: m' => if String.eqb k k' then (k', v) :: m' else (k', v') :: jset k v m'
  end.

Definition jvalues (m : jsmap) : list V := m.*2.
Definition jkeys (m : jsmap) : list string := m.*1.

Lemma jget_jset_eq k v m : jget k (jset k v m) = Some v.
Proof.
  induction m as [| [k' v'] m IH]; simpl; [by rewrite String.eqb_refl |].
  destruct (String.eqb k k') eqn:E; simpl; by rewrite E.
Qed.

Lemma jget_jset_ne k k' v m : k ≠ k' → jget k' (jset k v m) = jget k' m.
Proof.
  intros Hne. induction m as [| [k0 v0] m IH]; simpl.
  - destruct (String.eqb_spec k' k); congruence.
  - destruct (String.eqb_spec k k0) as [-> |]; simpl; [| by rewrite IH].
    destruct (String.eqb_spec k' k0); congruence.
Qed.

Lemma jget_jset k k' v m :
  jget k' (jset k v m) = if decide (k = k') then Some v else jget k' m.
Proof. case_decide; subst; [apply jget_jset_eq | by apply jget_jset_ne]. Qed.

Lemma jkeys_jset k v m :
  jkeys (jset k v m) = match jget k m with Some _ => jkeys m | None => jkeys m ++ [k] end.
Proof.
  induction m as [| [k0 v0] m IH]; simpl; [done |].
  destruct (String.eqb k k0) eqn:E; simpl; [done |].
  change (k0 :: jkeys (jset k v m) = match jget k m with
    | Some _ => k0 :: jkeys m | None => (k0 :: jkeys m) ++ [k] end).
  rewrite IH. by destruct (jget k m).
Qed.

Lemma jget_elem k v m : jget k m = Some v → (k, v) ∈ m.
Proof.
  induction m as [| [k0 v0] m IH]; simpl; [done |].
  destruct (String.eqb_spec k k0) as [-> |]; intros H; [simplify_eq; left | right; auto].
Qed.

Lemma elem_jget k v m : NoDup (jkeys m) → (k, v) ∈ m → jget k m = Some v.
Proof.
  unfold jkeys. induction m as [| [k0 v0] m IH]; simpl; intros Hnd Hin; [by apply elem_of_nil in Hin |].
  apply NoDup_cons in Hnd as [Hk0 Hnd]. apply elem_of_cons in Hin as [? | Hin].
  - simplify_eq. by rewrite String.eqb_refl.
  - destruct (String.eqb_spec k k0) as [-> |]; [| auto].
    exfalso. apply Hk0. apply list_elem_of_fmap. by exists (k0, v).
Qed.

Lemma jget_None_keys k m : jget k m = None ↔ k ∉ jkeys m.
Proof.
  unfold jkeys. induction m as [| [k0 v0] m IH]; simpl; [split; [by intros _ ?%elem_of_nil | done] |].
  rewrite not_elem_of_cons. destruct (String.eqb_spec k k0) as [-> |]; [naive_solver |].
  rewrite IH. naive_solver.
Qed.

Lemma NoDup_jset k v m : NoDup (jkeys m) → NoDup (jkeys (jset k v m)).
Proof.
  intros H. rewrite jkeys_jset. destruct (jget k m) eqn:E; [done |].
  apply NoDup_app. split; [done |]. split; [| apply NoDup_singleton].
  intros x Hx ->%list_elem_of_singleton. by apply jget_None_keys in E.
Qed.
End jsmap.
Arguments jsmap : clear implicits.

(** ** Properties of the conversions *)

Lemma chars_of_chars l : chars (of_chars l) = l.
Proof. apply String.list_ascii_of_string_of_list_ascii. Qed.

Lemma of_chars_chars s : of_chars (chars s) = s.
Proof. apply String.string_of_list_ascii_of_string. Qed.

Lemma chars_app s t : chars (s +:+ t) = chars s ++ chars t.
Proof. unfold chars. induction s as [| c s IH]; simpl; [done | by rewrite IH]. Qed.

Lemma chars_inj s t : chars s = chars t → s = t.
Proof. intros H. apply (f_equal of_chars) in H. by rewrite !of_chars_chars in H. Qed.

(** A text is split in one way at the first occurrence of a separator. *)
Lemma split_at_sep (c : ascii) a b x y :
  c ∉ chars a → c ∉ chars b → a +:+ String c x = b +:+ String c y → a = b ∧ x = y.
Proof.
  revert b. induction a as [| d a IH]; intros [| e b] Ha Hb H; simpl in *.
  - by simplify_eq.
  - injection H as <- _. exfalso. apply Hb. by left.
  - injection H as -> _. exfalso. apply Ha. by left.
  - injection H as <- H. apply not_elem_of_cons in Ha as [_ Ha]. apply not_elem_of_cons in Hb as [_ Hb].
    destruct (IH b Ha Hb H) as [-> ->]. done.
Qed.

Lemma drop_while_none {A} (p : A → bool) l : forallb (λ x, negb (p x)) l = true → drop_while p l = l.
Proof. destruct l as [| x l]; simpl; [done |]. by destruct (p x). Qed.

Lemma trim_id s : forallb (λ c, negb (is_ws c)) (chars s) = true → trim s = s.
Proof.
  intros H. unfold trim, trim_chars. rewrite (drop_while_none is_ws (chars s)) by done.
  rewrite drop_while_none; [by rewrite rev_involutive, of_chars_chars |].
  apply forallb_forall. intros x Hx. apply in_rev in Hx. by apply (proj1 (forallb_forall _ _) H).
Qed.

Lemma string_of_uint_not_ws d :
  forallb (λ c, negb (is_ws c)) (chars (NilEmpty.string_of_uint d)) = true.
Proof. induction d; simpl; done. Qed.

Lemma dec_not_ws z : forallb (λ c, negb (is_ws c)) (chars (dec z)) = true.
Proof.
  unfold dec, NilZero.string_of_int, NilZero.string_of_uint.
  destruct (Z.to_int z) as [[] | []]; simpl; try apply string_of_uint_not_ws; done.
Qed.

Lemma dec_nonempty z : dec z ≠ "".
Proof.
  unfold dec, NilZero.string_of_int, NilZero.string_of_uint.
  by destruct (Z.to_int z) as [[] | []].
Qed.

Lemma int_of_string_dec z : NilZero.int_of_string (dec z) = Some (Z.to_int z).
Proof.
  unfold dec. apply NilZero.isi.
  - destruct z as [| p | p]; simpl; [done | | done].
    intros [= H]. by apply (DecimalPos.Unsigned.to_uint_nonnil p).
  - destruct z as [| p | p]; simpl; [done | done |].
    intros [= H]. by apply (DecimalPos.Unsigned.to_uint_nonnil p).
Qed.

Lemma dec_head_not_plus z s : dec z ≠ String "+" s.
Proof.
  unfold dec, NilZero.string_of_int, NilZero.string_of_uint.
  by destruct (Z.to_int z) as [[] | []].
Qed.

(** [BigInt] reads back what [toString] prints. *)
Lemma BigInt_dec z : BigInt (dec z) = Some z.
Proof.
  unfold BigInt. rewrite trim_id by apply dec_not_ws.
  destruct (String.eqb_spec (dec z) "") as [H |]; [by apply dec_nonempty in H |].
  assert (signed_decimal (dec z) = Some z) as ->; [| done].
  assert (signed_decimal (dec z) = Z.of_int <$> NilZero.int_of_string (dec z)) as ->.
  { unfold signed_decimal. pose proof (dec_head_not_plus z) as Hp.
    destruct (dec z) as [| [[] [] [] [] [] [] [] []] [| c s]]; try done.
    all: by specialize (Hp (String c s)). }
  rewrite int_of_string_dec. simpl. by rewrite DecimalZ.of_to.
Qed.

#[export] Instance dec_inj : Inj (=) (=) dec.
Proof. intros a b H. apply (f_equal BigInt) in H. rewrite !BigInt_dec in H. congruence. Qed.

Lemma dec_eq_0 z : String.eqb (dec z) "0" = (z =? 0).
Proof.
  destruct (Z.eqb_spec z 0) as [-> | Hne]; [done |].
  destruct (String.eqb_spec (dec z) "0") as [H |]; [| done].
  change "0" with (dec 0) in H. by apply dec_inj in H.
Qed.

Lemma BigInt_0 : BigInt "0" = Some 0.
Proof. reflexivity. Qed.

(** ** Sequences of digits *)

Lemma is_digit_cases c : is_digit c = true → c ∈ ["0"; "1"; "2"; "3"; "4"; "5"; "6"; "7"; "8"; "9"]%char.
Proof. destruct c as [[] [] [] [] [] [] [] []]; intros H; first [discriminate H | clear H; apply (bool_decide_unpack _); vm_compute; exact I]. Qed.

Ltac digit_cases H := apply is_digit_cases in H; repeat (apply elem_of_cons in H as [-> | H]); [.. | by apply elem_of_nil in H].

(** The two ways to read a sequence of digits agree. *)
Lemma digits_in_uint s : forallb is_digit (chars s) = true →
  ∃ d, NilEmpty.uint_of_string s = Some d ∧ (∀ p, digits_in 10 (Z.pos p) (chars s) = Some (Z.pos (Pos.of_uint_acc d p))) ∧
    digits_in 10 0 (chars s) = Some (Z.of_uint d).
Proof.
  induction s as [| c s IH]; simpl forallb; [by exists Decimal.Nil |]. intros [Hc Hs]%andb_prop. destruct (IH Hs) as (d & Hd & Hp & H0).
  digit_cases Hc; (eexists; split; [simpl; rewrite Hd; reflexivity | split; [intros p | try exact H0; exact (Hp _)]]).
  all: etrans; [| exact (Hp _)]; change (digits_in 10 ?a (chars (String ?c s))) with (digits_in 10 (a * 10 + default 0 (digit_val c)) (chars s)); f_equal; simpl; lia.
Qed.

Lemma digit_not_ws c : is_digit c = true → is_ws c = false.
Proof. intros H. by digit_cases H. Qed.

Lemma digits_trim s : forallb is_digit (chars s) = true → forallb (λ c, negb (is_ws c)) (chars s) = true.
Proof. induction (chars s) as [| c l IH]; simpl; [done |]. intros [Hc Hl]%andb_prop. by rewrite (digit_not_ws c Hc), IH. Qed.

Lemma span_digits_all l : forallb is_digit l = true → span_digits l = (l, []).
Proof. induction l as [| c l IH]; simpl; [done |]. intros [-> Hl]%andb_prop. by rewrite IH. Qed.

Lemma BigInt_digits s : all_digits s = true → ∃ n, BigInt s = Some n ∧ digits_in 10 0 (chars s) = Some n ∧ 0 ≤ n.
Proof.
  unfold all_digits. destruct s as [| c s]; [done |]. change (match chars (String c s) with [] => false | l => forallb is_digit l end) with (forallb is_digit (chars (String c s))).
  intros H. destruct (digits_in_uint _ H) as (d & Hd & _ & H0). exists (Z.of_uint d). split; [| split; [done | unfold Z.of_uint; lia]].
  unfold BigInt. rewrite trim_id by (by apply digits_trim). assert (is_digit c = true) as Hc by (by apply andb_prop in H as [? _]).
  assert (signed_decimal (String c s) = Some (Z.of_uint d)) as ->; [| by digit_cases Hc].
  assert (NilZero.int_of_string (String c s) = Some (Decimal.Pos d)) as Hi; [| unfold signed_decimal; clear Hd; digit_cases Hc; by rewrite Hi].
  unfold NilZero.int_of_string, NilZero.uint_of_string. rewrite Hd. by digit_cases Hc.
Qed.

Lemma nearest_double_safe n : 0 ≤ n < 2 ^ 53 → nearest_double_integer n 1 = Some n.
Proof.
  intros Hn. unfold nearest_double_integer. destruct (Z.eqb_spec n 0) as [-> | H0]; [done |]. destruct (Z.ltb_spec n 1); [lia |]. rewrite Z.div_1_r.
  assert (Z.log2 n ≤ 52). { apply Z.lt_succ_r, Z.log2_lt_pow2; lia. }
  destruct (Z.leb_spec (Z.log2 n) 52); [| lia]. assert (0 < 2 ^ (52 - Z.log2 n)) by (apply Z.pow_pos_nonneg; lia).
  unfold round_half_even. rewrite Z.div_1_r, Z.mod_1_r. simpl. by rewrite Z.mod_mul, Z.div_mul by lia.
Qed.

(** [Number(s)] is exact for the decimal numbers a double can hold. *)
Lemma Number_digits s n : all_digits s = true → BigInt s = Some n → n < 2 ^ 53 → Number_integer s = Some n.
Proof.
  intros Hs Hb Hn. destruct (BigInt_digits s Hs) as (n' & Hb' & Hd & H0). assert (n' = n) as -> by congruence. clear Hb Hb'.
  assert (forallb is_digit (chars s) = true ∧ chars s ≠ []) as [Hall Hne] by (unfold all_digits in Hs; by destruct (chars s)).
  assert (trim_chars (chars s) = chars s) as Ht.
  { rewrite <-(trim_id s (digits_trim s Hall)) at 2. unfold trim. by rewrite chars_of_chars. }
  unfold Number_integer. rewrite Ht. destruct (chars s) as [| c l] eqn:E; [done |].
  assert (prefixed_int (c :: l) = None) as ->.
  { destruct l as [| x l]; [done |]. simpl in Hall. apply andb_prop in Hall as [_ [Hx _]%andb_prop]. simpl. digit_cases Hx; by destruct (Ascii.eqb c _). }
  assert (unsigned_decimal_number (c :: l) = Some n) as Hu.
  { unfold unsigned_decimal_number. rewrite span_digits_all by done. rewrite app_nil_r, Hd. simpl. rewrite Z.mul_1_r. apply nearest_double_safe. lia. }
  simpl in Hall. apply andb_prop in Hall as [Hc _]. digit_cases Hc; exact Hu.
Qed.

Arguments BigInt : simpl never.
Arguments dec : simpl never.
Arguments Number_integer : simpl never.

Create HintDb js discriminated.
#[export] Hint Rewrite @jget_jset_eq BigInt_dec dec_eq_0 : js.
