(* ===== verification/PaymentRecords.v ===== *)
(** * Payment records (apps/backend/payments/src/escrowCoordinator/paymentRecordStore.ts)

    The [payment_records] table and the SQL statements the escrow coordinator
    issues against it.  [PaymentRecordRow] is a row with its column types,
    [PaymentRecord] the JavaScript object [mapRow] makes of it (the driver hands
    [BIGINT] and [NUMERIC] columns over as decimal strings).  Casting a text
    parameter to a column type is PostgreSQL's, and a parameter of the model. *)
From S2P Require Import Prelude JsLib.
Local Open Scope Z_scope.

(** ** Types *)

Inductive PaymentRecordStatus := pending | funded | released | refunded | disputed | failed.

#[export] Instance PaymentRecordStatus_eq_dec : EqDecision PaymentRecordStatus.
Proof. solve_decision. Defined.

Record PaymentRecordRow := Row {
  row_id : string;
  order_id : string;
  escrow_id : option string;
  escrow_contract_id : string;
  buyer_address : string;
  seller_address : string;
  token_contract_id : string;
  amount_stroops : Z;
  row_status : PaymentRecordStatus;
  fund_tx_hash : option string;
  release_tx_hash : option string;
  refund_tx_hash : option string;
  dispute_tx_hash : option string;
  released_amount_stroops : Z;
  refunded_amount_stroops : Z;
  failure_reason : option string;
  subtotal_stroops : option Z;
  tax_amount_stroops : option Z;
  tax_rate_basis_points : option Z;
  tax_jurisdiction : option string;
  created_at : Z;
  updated_at : Z
}.

Record PaymentRecord := MkPaymentRecord {
  pr_id : string;
  pr_orderId : string;
  pr_escrowId : option string;
  pr_escrowContractId : string;
  pr_buyerAddress : string;
  pr_sellerAddress : string;
  pr_tokenContractId : string;
  pr_amountStroops : string;
  pr_status : PaymentRecordStatus;
  pr_fundTxHash : option string;
  pr_releaseTxHash : option string;
  pr_refundTxHash : option string;
  pr_disputeTxHash : option string;
  pr_releasedAmountStroops : string;
  pr_refundedAmountStroops : string;
  pr_failureReason : option string;
  pr_subtotalStroops : string;
  pr_taxAmountStroops : string;
  pr_taxRateBasisPoints : Z;
  pr_taxJurisdiction : option string;
  pr_createdAt : Z;
  pr_updatedAt : Z
}.

Record CreatePaymentRecordInput := {
  in_orderId : string;
  in_escrowContractId : string;
  in_buyerAddress : string;
  in_sellerAddress : string;
  in_tokenContractId : string;
  in_amountStroops : string;
  in_subtotalStroops : option string;
  in_taxAmountStroops : option string;
  in_taxRateBasisPoints : option number;
  in_taxJurisdiction : option string
}.

(** An optional field of an update object is [None] when it is [undefined]; a
    nullable one is then [Some None] when it is [null]. *)
Record PaymentRecordUpdate := {
  up_escrowId : option string;
  up_status : option PaymentRecordStatus;
  up_fundTxHash : option (option string);
  up_releaseTxHash : option (option string);
  up_refundTxHash : option (option string);
  up_disputeTxHash : option (option string);
  up_failureReason : option (option string)
}.

Record PaymentRecordTaxUpdate := {
  tu_subtotalStroops : string;
  tu_taxAmountStroops : string;
  tu_taxRateBasisPoints : number;
  tu_taxJurisdiction : option string
}.

Record PaymentRecordAmountDelta := {
  releasedDelta : option string;
  refundedDelta : option string;
  delta_status : option PaymentRecordStatus
}.

(** ** PostgreSQL *)

(** What the statements ask of the database server: the input functions of the
    column types, the foreign key from [order_id] to [orders], and the generated
    primary keys. *)
Class Pg := {
  pg_int8 : string → option Z;
  pg_numeric : string → option Z;
  pg_order : string → bool;
  pg_uuid : nat → string
}.

Definition int8_ok (z : Z) : Prop := - 2 ^ 63 ≤ z < 2 ^ 63.
Definition int8_okb (z : Z) : bool := (- 2 ^ 63 <=? z) && (z <? 2 ^ 63).

(** Documented behaviour of the server: [int8] values fit in 64 bits, a text both
    JavaScript and PostgreSQL read as an integer is read as the same integer, and
    generated keys are fresh. *)
Class PgLaws (P : Pg) := {
  pg_int8_range s z : pg_int8 s = Some z → int8_ok z;
  pg_int8_agree s z z' : pg_int8 s = Some z → BigInt s = Some z' → z = z';
  pg_int8_dec z : int8_ok z → pg_int8 (dec z) = Some z;
  pg_uuid_inj : Inj (=) (=) pg_uuid
}.

(** The table, the server's clock and the number of keys generated so far. *)
Record db := Db { payment_records : list PaymentRecordRow; now_ms : Z; uuids : nat }.

Definition DatabaseError (m : string) : exn := Exn "error" m.

(** ** Rows to objects *)

Definition mapRow (row : PaymentRecordRow) : PaymentRecord := {|
  pr_id := row_id row;
  pr_orderId := order_id row;
  pr_escrowId := escrow_id row;
  pr_escrowContractId := escrow_contract_id row;
  pr_buyerAddress := buyer_address row;
  pr_sellerAddress := seller_address row;
  pr_tokenContractId := token_contract_id row;
  pr_amountStroops := dec (amount_stroops row);
  pr_status := row_status row;
  pr_fundTxHash := fund_tx_hash row;
  pr_releaseTxHash := release_tx_hash row;
  pr_refundTxHash := refund_tx_hash row;
  pr_disputeTxHash := dispute_tx_hash row;
  pr_releasedAmountStroops := dec (released_amount_stroops row);
  pr_refundedAmountStroops := dec (refunded_amount_stroops row);
  pr_failureReason := failure_reason row;
  pr_subtotalStroops := default (dec (amount_stroops row)) (dec <$> subtotal_stroops row);
  pr_taxAmountStroops := default "0" (dec <$> tax_amount_stroops row);
  pr_taxRateBasisPoints := default 0 (tax_rate_basis_points row);
  pr_taxJurisdiction := tax_jurisdiction row;
  pr_createdAt := created_at row;
  pr_updatedAt := updated_at row
|}.

(** ** Statements *)

(** [SELECT * FROM payment_records WHERE p LIMIT 1] *)
Definition select1 (p : PaymentRecordRow → bool) (d : db) : option PaymentRecordRow :=
  List.find p (payment_records d).

(** [UPDATE payment_records SET f WHERE p] *)
Definition update_where (p : PaymentRecordRow → bool) (f : PaymentRecordRow → PaymentRecordRow)
    (d : db) : db :=
  Db ((λ r, if p r then f r else r) <$> payment_records d) (now_ms d) (uuids d).

Definition by_id (id : string) (r : PaymentRecordRow) : bool := String.eqb (row_id r) id.
Definition by_order (oid : string) (r : PaymentRecordRow) : bool := String.eqb (order_id r) oid.
Definition by_escrow (eid : string) (r : PaymentRecordRow) : bool :=
  match escrow_id r with Some e => String.eqb e eid | None => false end.

Definition findPaymentRecordByOrderId (orderId : string) : M db (option PaymentRecord) :=
  gets (λ d, mapRow <$> select1 (by_order orderId) d).

Definition findPaymentRecordByEscrowId (escrowId : string) : M db (option PaymentRecord) :=
  gets (λ d, mapRow <$> select1 (by_escrow escrowId) d).

Definition set_opt {A} (u : option A) (old : A) : A := default old u.

Definition apply_update (u : PaymentRecordUpdate) (now : Z) (r : PaymentRecordRow) : PaymentRecordRow := {|
  row_id := row_id r;
  order_id := order_id r;
  escrow_id := match up_escrowId u with Some e => Some e | None => escrow_id r end;
  escrow_contract_id := escrow_contract_id r;
  buyer_address := buyer_address r;
  seller_address := seller_address r;
  token_contract_id := token_contract_id r;
  amount_stroops := amount_stroops r;
  row_status := set_opt (up_status u) (row_status r);
  fund_tx_hash := set_opt (up_fundTxHash u) (fund_tx_hash r);
  release_tx_hash := set_opt (up_releaseTxHash u) (release_tx_hash r);
  refund_tx_hash := set_opt (up_refundTxHash u) (refund_tx_hash r);
  dispute_tx_hash := set_opt (up_disputeTxHash u) (dispute_tx_hash r);
  released_amount_stroops := released_amount_stroops r;
  refunded_amount_stroops := refunded_amount_stroops r;
  failure_reason := set_opt (up_failureReason u) (failure_reason r);
  subtotal_stroops := subtotal_stroops r;
  tax_amount_stroops := tax_amount_stroops r;
  tax_rate_basis_points := tax_rate_basis_points r;
  tax_jurisdiction := tax_jurisdiction r;
  created_at := created_at r;
  updated_at := now
|}.

Definition update_fields (u : PaymentRecordUpdate) : bool :=
  bool_decide (is_Some (up_escrowId u)) || bool_decide (is_Some (up_status u)) ||
  bool_decide (is_Some (up_fundTxHash u)) || bool_decide (is_Some (up_releaseTxHash u)) ||
  bool_decide (is_Some (up_refundTxHash u)) || bool_decide (is_Some (up_disputeTxHash u)) ||
  bool_decide (is_Some (up_failureReason u)).

Definition not_found (id : string) : exn := Error ("Payment record not found: " +:+ id).

Definition updatePaymentRecord (id : string) (u : PaymentRecordUpdate) : M db PaymentRecord :=
  if update_fields u then
    now ← gets now_ms;
    modify (update_where (by_id id) (apply_update u now));;
    r ← gets (select1 (by_id id));
    r' ← some_or_throw r (not_found id);
    mret (mapRow r')
  else
    r ← gets (select1 (by_id id));
    r' ← some_or_throw r (not_found id);
    mret (mapRow r').

Definition apply_delta (rel ref : Z) (st : option PaymentRecordStatus) (now : Z)
    (r : PaymentRecordRow) : PaymentRecordRow := {|
  row_id := row_id r;
  order_id := order_id r;
  escrow_id := escrow_id r;
  escrow_contract_id := escrow_contract_id r;
  buyer_address := buyer_address r;
  seller_address := seller_address r;
  token_contract_id := token_contract_id r;
  amount_stroops := amount_stroops r;
  row_status := set_opt st (row_status r);
  fund_tx_hash := fund_tx_hash r;
  release_tx_hash := release_tx_hash r;
  refund_tx_hash := refund_tx_hash r;
  dispute_tx_hash := dispute_tx_hash r;
  released_amount_stroops := released_amount_stroops r + rel;
  refunded_amount_stroops := refunded_amount_stroops r + ref;
  failure_reason := failure_reason r;
  subtotal_stroops := subtotal_stroops r;
  tax_amount_stroops := tax_amount_stroops r;
  tax_rate_basis_points := tax_rate_basis_points r;
  tax_jurisdiction := tax_jurisdiction r;
  created_at := created_at r;
  updated_at := now
|}.

Definition apply_tax (sub tax rate : Z) (jur : option string) (now : Z)
    (r : PaymentRecordRow) : PaymentRecordRow := {|
  row_id := row_id r;
  order_id := order_id r;
  escrow_id := escrow_id r;
  escrow_contract_id := escrow_contract_id r;
  buyer_address := buyer_address r;
  seller_address := seller_address r;
  token_contract_id := token_contract_id r;
  amount_stroops := amount_stroops r;
  row_status := row_status r;
  fund_tx_hash := fund_tx_hash r;
  release_tx_hash := release_tx_hash r;
  refund_tx_hash := refund_tx_hash r;
  dispute_tx_hash := dispute_tx_hash r;
  released_amount_stroops := released_amount_stroops r;
  refunded_amount_stroops := refunded_amount_stroops r;
  failure_reason := failure_reason r;
  subtotal_stroops := Some sub;
  tax_amount_stroops := Some tax;
  tax_rate_basis_points := Some rate;
  tax_jurisdiction := jur;
  created_at := created_at r;
  updated_at := now
|}.

Section statements.
Context `{P : Pg}.

(** A text parameter bound to an [int8] (or [numeric]) column or expression. *)
Definition cast_int8 (s : string) : M db Z :=
  some_or_throw (pg_int8 s) (DatabaseError ("invalid input syntax for type bigint: " +:+ s)).
Definition cast_numeric (s : string) : M db Z :=
  some_or_throw (pg_numeric s) (DatabaseError ("invalid input syntax for type numeric: " +:+ s)).
Definition cast_delta (o : option string) : M db Z :=
  match o with Some s => cast_int8 s | None => mret 0 end.

(** The checks of [createPaymentRecord] and [updatePaymentTaxBreakdown]. *)
Definition check_tax_breakdown (subtotal tax : string) : M db () :=
  sub ← BigInt_throw subtotal;
  t ← BigInt_throw tax;
  throw_if (sub <? 0) (Error "subtotalStroops must be non-negative");;
  throw_if (t <? 0) (Error "taxAmountStroops must be non-negative");;
  throw_if (sub <? t) (Error "taxAmountStroops must not exceed subtotalStroops").

(** The integer behind a valid rate: [!Number.isInteger(r) || r < 0] throws. *)
Definition check_tax_rate (rate : number) : M db Z :=
  match rate with
  | Int z =>
      if z <? 0 then throw (Error "taxRateBasisPoints must be a non-negative integer") else mret z
  | NonInteger => throw (Error "taxRateBasisPoints must be a non-negative integer")
  end.

(** [INSERT ... RETURNING *]: the casts, then the foreign key, the unique index
    on [order_id], the [INTEGER] range of the rate and the [CHECK] on the tax. *)
Definition insert_row (i : CreatePaymentRecordInput) (subtotal tax : string) (rate : Z)
    (jur : option string) : M db PaymentRecordRow :=
  amount ← cast_int8 (in_amountStroops i);
  sub ← cast_numeric subtotal;
  t ← cast_numeric tax;
  throw_if (2 ^ 31 - 1 <? rate) (DatabaseError "integer out of range");;
  throw_if (sub <? t) (DatabaseError "chk_tax_amount_lte_subtotal");;
  throw_if (negb (pg_order (in_orderId i))) (DatabaseError "violates foreign key constraint");;
  dup ← gets (select1 (by_order (in_orderId i)));
  throw_if (bool_decide (is_Some dup)) (DatabaseError "duplicate key value violates unique constraint");;
  now ← gets now_ms;
  n ← gets uuids;
  let row := {|
    row_id := pg_uuid n;
    order_id := in_orderId i;
    escrow_id := None;
    escrow_contract_id := in_escrowContractId i;
    buyer_address := in_buyerAddress i;
    seller_address := in_sellerAddress i;
    token_contract_id := in_tokenContractId i;
    amount_stroops := amount;
    row_status := pending;
    fund_tx_hash := None;
    release_tx_hash := None;
    refund_tx_hash := None;
    dispute_tx_hash := None;
    released_amount_stroops := 0;
    refunded_amount_stroops := 0;
    failure_reason := None;
    subtotal_stroops := Some sub;
    tax_amount_stroops := Some t;
    tax_rate_basis_points := Some rate;
    tax_jurisdiction := jur;
    created_at := now;
    updated_at := now |} in
  modify (λ d, Db (payment_records d ++ [row]) (now_ms d) (S (uuids d)));;
  mret row.

Definition createPaymentRecord (i : CreatePaymentRecordInput) : M db PaymentRecord :=
  let subtotalStroops := default (in_amountStroops i) (in_subtotalStroops i) in
  let taxAmountStroops := default "0" (in_taxAmountStroops i) in
  let taxRateBasisPoints := default (Int 0) (in_taxRateBasisPoints i) in
  let taxJurisdiction := in_taxJurisdiction i in
  try_catch (check_tax_breakdown subtotalStroops taxAmountStroops)
    (λ e, throw (Error ("Invalid tax breakdown values: " +:+ exn_message e)));;
  rate ← check_tax_rate taxRateBasisPoints;
  row ← insert_row i subtotalStroops taxAmountStroops rate taxJurisdiction;
  mret (mapRow row).

Definition updatePaymentTaxBreakdown (id : string) (tax : PaymentRecordTaxUpdate) : M db PaymentRecord :=
  check_tax_breakdown (tu_subtotalStroops tax) (tu_taxAmountStroops tax);;
  rate ← check_tax_rate (tu_taxRateBasisPoints tax);
  sub ← cast_numeric (tu_subtotalStroops tax);
  t ← cast_numeric (tu_taxAmountStroops tax);
  throw_if (2 ^ 31 - 1 <? rate) (DatabaseError "integer out of range");;
  throw_if (sub <? t) (DatabaseError "chk_tax_amount_lte_subtotal");;
  now ← gets now_ms;
  modify (update_where (by_id id) (apply_tax sub t rate (tu_taxJurisdiction tax) now));;
  r ← gets (select1 (by_id id));
  r' ← some_or_throw r (not_found id);
  mret (mapRow r').

Definition delta_fields (delta : PaymentRecordAmountDelta) : bool :=
  bool_decide (is_Some (releasedDelta delta)) || bool_decide (is_Some (refundedDelta delta)) ||
  bool_decide (is_Some (delta_status delta)).

(** [SET col = col + $delta::bigint], evaluated by the server on the row it
    finds; a sum outside [int8] aborts the statement. *)
Definition incrementPaymentRecordAmounts (id : string) (delta : PaymentRecordAmountDelta)
    : M db PaymentRecord :=
  if delta_fields delta then
    rel ← cast_delta (releasedDelta delta);
    ref ← cast_delta (refundedDelta delta);
    old ← gets (select1 (by_id id));
    match old with
    | None => throw (not_found id)
    | Some r =>
        throw_if (negb (int8_okb (released_amount_stroops r + rel)) ||
                  negb (int8_okb (refunded_amount_stroops r + ref)))
          (DatabaseError "bigint out of range");;
        now ← gets now_ms;
        modify (update_where (by_id id) (apply_delta rel ref (delta_status delta) now));;
        r' ← gets (select1 (by_id id));
        r'' ← some_or_throw r' (not_found id);
        mret (mapRow r'')
    end
  else
    r ← gets (select1 (by_id id));
    r' ← some_or_throw r (not_found id);
    mret (mapRow r').
End statements.
