(* ===== verification/EscrowLock.v ===== *)
(** * Escrow funding locks (apps/backend/payments/src/escrowCoordinator/escrowFundingLock.ts)

    The striped lock pool, the contention tracker, the optimistic version map and
    the manager that chooses between them.  The state of one
    [EscrowFundingLockManager] is [LockManager]; the clock is part of it and is
    advanced by the sleeps of the waiting loop.  A contention ratio is a quotient
    of two counters compared with the configured threshold, a decimal fraction
    [threshold_num / threshold_den]; the comparison is done on the exact
    quotients. *)
From S2P Require Import Prelude JsLib.
Local Open Scope Z_scope.

Inductive LockType := pessimistic | optimistic | adaptive.

#[export] Instance LockType_eq_dec : EqDecision LockType.
Proof. solve_decision. Defined.

Record EscrowLockConfig := {
  lockType : LockType;
  stripingFactor : nat;
  optimisticRetryLimit : Z;
  lockTimeoutMs : Z;
  waitTimeoutMs : Z;
  threshold_num : Z;
  threshold_den : Z
}.

Definition DEFAULT_LOCK_CONFIG : EscrowLockConfig := {|
  lockType := adaptive;
  stripingFactor := 16;
  optimisticRetryLimit := 3;
  lockTimeoutMs := 5000;
  waitTimeoutMs := 10000;
  threshold_num := 3;
  threshold_den := 10
|}.

Record LockAcquisition := {
  lockId : string;
  stripeIndex : Z;
  acq_lockType : LockType;
  acq_acquiredAt : Z;
  acq_expiresAt : Z;
  acq_holderId : string
}.

(** ** Lock stripes *)

Record LockStripe := { holderId : option string; acquiredAt : Z; expiresAt : Z }.

Definition free_stripe : LockStripe := {| holderId := None; acquiredAt := 0; expiresAt := 0 |}.

(** [x | 0]: the signed 32-bit integer congruent to [x]. *)
Definition to_int32 (x : Z) : Z := (x + 2 ^ 31) mod 2 ^ 32 - 2 ^ 31.

Definition stripe_hash (escrowId : string) : Z :=
  foldl (λ hash c, to_int32 (hash * 31 + Z.of_N (Ascii.N_of_ascii c))) 0 (chars escrowId).

Definition getStripeIndex (factor : nat) (escrowId : string) : nat :=
  Z.to_nat (Z.abs (stripe_hash escrowId) mod Z.of_nat factor).

Definition held (s : LockStripe) (now : Z) : bool :=
  match holderId s with Some _ => now <? expiresAt s | None => false end.

(** [tryAcquire]: the acquisition and the new stripes, or [None]. *)
Definition tryAcquire (stripes : list LockStripe) (escrowId holder : string) (timeoutMs now : Z)
    : option (LockAcquisition * list LockStripe) :=
  let i := getStripeIndex (length stripes) escrowId in
  stripe ← stripes !! i;
  if held stripe now then None
  else Some
    ({| lockId := escrowId +:+ ":" +:+ dec (Z.of_nat i);
        stripeIndex := Z.of_nat i;
        acq_lockType := pessimistic;
        acq_acquiredAt := now;
        acq_expiresAt := now + timeoutMs;
        acq_holderId := holder |},
     <[i := {| holderId := Some holder; acquiredAt := now; expiresAt := now + timeoutMs |}]> stripes).

(** [release]: whether the caller held the stripe, and the new stripes.  An index
    outside the pool reads [undefined] and throws in the source; the manager only
    passes indices [tryAcquire] produced. *)
Definition release (stripes : list LockStripe) (i : nat) (holder : string) : bool * list LockStripe :=
  match stripes !! i with
  | Some stripe =>
      if bool_decide (holderId stripe = Some holder) then (true, <[i := free_stripe]> stripes)
      else (false, stripes)
  | None => (false, stripes)
  end.

Definition isAcquired (stripes : list LockStripe) (i : nat) (now : Z) : bool :=
  match stripes !! i with Some s => held s now | None => false end.

(** ** Contention tracker *)

Record Counters := {
  acquisitions : Z;
  waits : Z;
  waitTimes : list Z;
  contentions : Z;
  timeouts : Z;
  stolenLocks : Z
}.

Definition zero_counters : Counters := Build_Counters 0 0 [] 0 0 0.

Definition getOrCreate (m : jsmap Counters) (k : string) : Counters := default zero_counters (jget k m).

Definition recordAcquisition (m : jsmap Counters) (k : string) (waitMs : Z) : jsmap Counters :=
  let c := getOrCreate m k in
  jset k (if 0 <? waitMs
          then Build_Counters (acquisitions c + 1) (waits c + 1) (waitTimes c ++ [waitMs])
                 (contentions c) (timeouts c) (stolenLocks c)
          else Build_Counters (acquisitions c + 1) (waits c) (waitTimes c)
                 (contentions c) (timeouts c) (stolenLocks c)) m.

Definition recordContention (m : jsmap Counters) (k : string) : jsmap Counters :=
  let c := getOrCreate m k in
  jset k (Build_Counters (acquisitions c) (waits c) (waitTimes c)
            (contentions c + 1) (timeouts c) (stolenLocks c)) m.

Definition recordTimeout (m : jsmap Counters) (k : string) : jsmap Counters :=
  let c := getOrCreate m k in
  jset k (Build_Counters (acquisitions c) (waits c) (waitTimes c)
            (contentions c) (timeouts c + 1) (stolenLocks c)) m.

Definition recordStolenLock (m : jsmap Counters) (k : string) : jsmap Counters :=
  let c := getOrCreate m k in
  jset k (Build_Counters (acquisitions c) (waits c) (waitTimes c)
            (contentions c) (timeouts c) (stolenLocks c + 1)) m.

(** [getContentionRatio(k) >= num/den]: the ratio is [0] before any acquisition. *)
Definition contention_at_least (m : jsmap Counters) (k : string) (num den : Z) : bool :=
  match jget k m with
  | Some c => if acquisitions c =? 0 then num <=? 0 else num * acquisitions c <=? contentions c * den
  | None => num <=? 0
  end.

Definition selectLockType (k : string) (m : jsmap Counters) (cfg : EscrowLockConfig) : LockType :=
  match lockType cfg with
  | adaptive =>
      if contention_at_least m k (threshold_num cfg) (threshold_den cfg) then pessimistic else optimistic
  | t => t
  end.

(** ** Optimistic versions *)

Definition tryOptimistic (v : jsmap Z) (k : string) : option Z := Some (default 0 (jget k v)).

Definition commitOptimistic (v : jsmap Z) (k : string) (expected : Z) : bool * jsmap Z :=
  let current := default 0 (jget k v) in
  if current =? expected then (true, jset k (current + 1) v) else (false, v).

(** ** Manager *)

Record LockManager := {
  stripePool : list LockStripe;
  tracker : jsmap Counters;
  versions : jsmap Z;
  config : EscrowLockConfig;
  clock : Z
}.

Definition newManager (cfg : EscrowLockConfig) (now : Z) : LockManager := {|
  stripePool := replicate (stripingFactor cfg) free_stripe;
  tracker := [];
  versions := [];
  config := cfg;
  clock := now
|}.

Definition set_tracker (f : jsmap Counters → jsmap Counters) (l : LockManager) : LockManager :=
  Build_LockManager (stripePool l) (f (tracker l)) (versions l) (config l) (clock l).
Definition set_stripes (s : list LockStripe) (l : LockManager) : LockManager :=
  Build_LockManager s (tracker l) (versions l) (config l) (clock l).
Definition set_versions (v : jsmap Z) (l : LockManager) : LockManager :=
  Build_LockManager (stripePool l) (tracker l) v (config l) (clock l).
Definition sleep_ms (d : Z) (l : LockManager) : LockManager :=
  Build_LockManager (stripePool l) (tracker l) (versions l) (config l) (clock l + d).

(** [Math.min(50, timeout / 10)] as [setTimeout] rounds it: whole milliseconds, at
    least one. *)
Definition poll_delay (timeoutMs : Z) : Z := Z.max 1 (Z.min 50 (timeoutMs / 10)).

(** The waiting loop of the pessimistic path.  Every round advances the clock by at
    least one millisecond, so [waitTimeoutMs] rounds reach the deadline. *)
Fixpoint acquire_loop (fuel : nat) (escrowId holder : string) (timeoutMs startMs deadline : Z)
    (l : LockManager) : option LockAcquisition * LockManager :=
  match fuel with
  | O => (None, set_tracker (λ m, recordTimeout m escrowId) l)
  | S fuel' =>
      if clock l <? deadline then
        match tryAcquire (stripePool l) escrowId holder timeoutMs (clock l) with
        | Some (acq, stripes) =>
            (Some acq,
             set_tracker (λ m, recordAcquisition m escrowId (clock l - startMs)) (set_stripes stripes l))
        | None =>
            acquire_loop fuel' escrowId holder timeoutMs startMs deadline
              (sleep_ms (poll_delay timeoutMs) (set_tracker (λ m, recordContention m escrowId) l))
        end
      else (None, set_tracker (λ m, recordTimeout m escrowId) l)
  end.

Definition acquireLock (escrowId holder : string) (timeoutMs : option Z) (l : LockManager)
    : option LockAcquisition * LockManager :=
  let effectiveTimeout := default (lockTimeoutMs (config l)) timeoutMs in
  let startMs := clock l in
  let pessimistic_path :=
    acquire_loop (S (Z.to_nat (waitTimeoutMs (config l)))) escrowId holder effectiveTimeout startMs
      (startMs + waitTimeoutMs (config l)) l in
  match selectLockType escrowId (tracker l) (config l) with
  | optimistic =>
      match tryOptimistic (versions l) escrowId with
      | Some _ =>
          (Some {| lockId := "opt:" +:+ escrowId;
                   stripeIndex := -1;
                   acq_lockType := optimistic;
                   acq_acquiredAt := startMs;
                   acq_expiresAt := startMs + effectiveTimeout;
                   acq_holderId := holder |},
           set_tracker (λ m, recordAcquisition m escrowId 0) l)
      | None => pessimistic_path
      end
  | _ => pessimistic_path
  end.

(** [id.replace("opt:", "")]: the first occurrence of the prefix. *)
Definition strip_opt (id : string) : string :=
  match String.index 0 "opt:" id with
  | Some i => String.substring 0 i id +:+ String.substring (i + 4) (String.length id) id
  | None => id
  end.

Definition releaseLock (a : LockAcquisition) (holder : string) (l : LockManager) : bool * LockManager :=
  if negb (String.eqb (acq_holderId a) holder) then
    (false, set_tracker (λ m, recordStolenLock m (lockId a)) l)
  else
    match acq_lockType a with
    | optimistic =>
        let '(ok, v) := commitOptimistic (versions l) (strip_opt (lockId a)) 0 in (ok, set_versions v l)
    | _ =>
        let '(ok, s) := release (stripePool l) (Z.to_nat (stripeIndex a)) holder in (ok, set_stripes s l)
    end.

Definition extendLock (a : LockAcquisition) (holder : string) (additionalMs : Z) : bool * LockAcquisition :=
  if negb (String.eqb (acq_holderId a) holder) then (false, a)
  else (true, {| lockId := lockId a; stripeIndex := stripeIndex a; acq_lockType := acq_lockType a;
                 acq_acquiredAt := acq_acquiredAt a; acq_expiresAt := acq_expiresAt a + additionalMs;
                 acq_holderId := acq_holderId a |}).

(** ** Runs of the manager *)

Inductive lock_call :=
  | CallAcquire (escrowId holder : string) (timeoutMs : option Z)
  | CallRelease (a : LockAcquisition) (holder : string)
  | CallWait (d : Z).

Definition lock_step (c : lock_call) (l : LockManager) : LockManager :=
  match c with
  | CallAcquire e h t => (acquireLock e h t l).2
  | CallRelease a h => (releaseLock a h l).2
  | CallWait d => sleep_ms d l
  end.

Definition lock_run (cs : list lock_call) (l : LockManager) : LockManager := foldl (flip lock_step) l cs.

(** ** Proofs *)

Lemma length_tryAcquire st e h t now a st' :
  tryAcquire st e h t now = Some (a, st') → length st' = length st.
Proof.
  unfold tryAcquire. simpl. intros H.
  destruct (st !! _) as [s |]; simpl in H; [| done].
  destruct (held s now); simplify_eq. apply length_insert.
Qed.

Lemma getStripeIndex_lt (st : list LockStripe) e : st ≠ [] → (getStripeIndex (length st) e < length st)%nat.
Proof.
  intros Hst. unfold getStripeIndex.
  assert (0 < Z.of_nat (length st)) by (destruct st; simpl in *; [done | lia]).
  pose proof (Z.mod_pos_bound (Z.abs (stripe_hash e)) (Z.of_nat (length st))). lia.
Qed.

(** The pessimistic lock excludes: until it expires, nobody acquires the stripe
    again, whichever escrow the request is for. *)
Lemma tryAcquire_excludes st e h t now a st' e' h' t' now' :
  tryAcquire st e h t now = Some (a, st') →
  getStripeIndex (length st) e' = getStripeIndex (length st) e →
  now' < acq_expiresAt a →
  tryAcquire st' e' h' t' now' = None.
Proof.
  intros H Hi Hlt. pose proof (length_tryAcquire _ _ _ _ _ _ _ H) as Hlen.
  unfold tryAcquire in H. simpl in H.
  destruct (st !! getStripeIndex (length st) e) as [s |] eqn:Hs; simpl in H; [| done].
  destruct (held s now) eqn:Hh; simplify_eq. simpl in *.
  unfold tryAcquire. rewrite length_insert, Hi, list_lookup_insert_eq by (by eapply lookup_lt_Some).
  simpl. unfold held. simpl. by replace (now' <? now + t) with true by lia.
Qed.

(** Mutual exclusion of the pessimistic path: after [tryAcquire] granted a
    stripe, every later request that hashes to that stripe is refused until the
    granted expiry, and a release by anybody but the holder changes nothing. *)
Theorem pessimistic_exclusion st e h t now a st' :
  tryAcquire st e h t now = Some (a, st') →
  (∀ e' h' t' now', getStripeIndex (length st) e' = getStripeIndex (length st) e →
     now' < acq_expiresAt a → tryAcquire st' e' h' t' now' = None) ∧
  (∀ h', h' ≠ h → release st' (Z.to_nat (stripeIndex a)) h' = (false, st')) ∧
  (release st' (Z.to_nat (stripeIndex a)) h).1 = true.
Proof.
  intros H. split; [| split].
  - intros; by eapply tryAcquire_excludes.
  - intros h' Hne. unfold tryAcquire in H. simpl in H.
    destruct (st !! getStripeIndex (length st) e) as [s |] eqn:Hs; simpl in H; [| done].
    destruct (held s now); simplify_eq. simpl. unfold release. rewrite Nat2Z.id.
    rewrite list_lookup_insert_eq by (by eapply lookup_lt_Some). simpl.
    rewrite bool_decide_eq_false_2; [done |]. congruence.
  - unfold tryAcquire in H. simpl in H.
    destruct (st !! getStripeIndex (length st) e) as [s |] eqn:Hs; simpl in H; [| done].
    destruct (held s now); simplify_eq. simpl. unfold release. rewrite Nat2Z.id.
    rewrite list_lookup_insert_eq by (by eapply lookup_lt_Some). simpl.
    by rewrite bool_decide_eq_true_2.
Qed.

(** The waiting loop reaches its deadline: more fuel than the milliseconds left
    does not change the outcome. *)
Lemma acquire_loop_fuel f1 f2 e h t st dl l :
  dl - clock l < Z.of_nat f1 → dl - clock l < Z.of_nat f2 →
  acquire_loop f1 e h t st dl l = acquire_loop f2 e h t st dl l.
Proof.
  revert f2 l. induction f1 as [| f1 IH]; intros [| f2] l H1 H2; simpl.
  - done.
  - by replace (clock l <? dl) with false by lia.
  - by replace (clock l <? dl) with false by lia.
  - destruct (clock l <? dl) eqn:Hc; [| done].
    destruct (tryAcquire _ _ _ _ _) as [[]|]; [done |].
    apply IH; simpl; unfold poll_delay; lia.
Qed.

(** *** The adaptive strategy *)

(** No contention was ever recorded. *)
Definition no_contention (m : jsmap Counters) : Prop :=
  ∀ k c, jget k m = Some c → contentions c = 0 ∧ 0 ≤ acquisitions c.

Lemma no_contention_jset m k c :
  no_contention m → contentions c = 0 → 0 ≤ acquisitions c → no_contention (jset k c m).
Proof.
  intros H ?? k' c'. rewrite jget_jset. case_decide; [naive_solver | apply H].
Qed.

Lemma no_contention_getOrCreate m k :
  no_contention m → contentions (getOrCreate m k) = 0 ∧ 0 ≤ acquisitions (getOrCreate m k).
Proof. intros H. unfold getOrCreate. destruct (jget k m) eqn:E; simpl; [by apply H in E | done]. Qed.

Lemma no_contention_select m k cfg :
  no_contention m → lockType cfg = adaptive → 0 < threshold_num cfg → 0 < threshold_den cfg →
  selectLockType k m cfg = optimistic.
Proof.
  intros Hm Ht Hn Hd. unfold selectLockType, contention_at_least. rewrite Ht.
  destruct (jget k m) as [c |] eqn:E; [| by replace (threshold_num cfg <=? 0) with false by lia].
  apply Hm in E as [-> Ha].
  destruct (Z.eqb_spec (acquisitions c) 0); [by replace (threshold_num cfg <=? 0) with false by lia |].
  replace (threshold_num cfg * acquisitions c <=? 0 * threshold_den cfg) with false by nia. done.
Qed.

Definition adaptive_mgr (l : LockManager) : Prop :=
  lockType (config l) = adaptive ∧ 0 < threshold_num (config l) ∧ 0 < threshold_den (config l) ∧
  no_contention (tracker l).

Lemma acquireLock_adaptive e h t l :
  adaptive_mgr l →
  acquireLock e h t l =
    (Some {| lockId := "opt:" +:+ e; stripeIndex := -1; acq_lockType := optimistic;
             acq_acquiredAt := clock l; acq_expiresAt := clock l + default (lockTimeoutMs (config l)) t;
             acq_holderId := h |},
     set_tracker (λ m, recordAcquisition m e 0) l).
Proof.
  intros (Ht & Hn & Hd & Hc). unfold acquireLock.
  by rewrite (no_contention_select _ _ _ Hc Ht Hn Hd).
Qed.

Lemma adaptive_mgr_record f l k c :
  adaptive_mgr l → f (tracker l) = jset k c (tracker l) → contentions c = 0 → 0 ≤ acquisitions c →
  adaptive_mgr (set_tracker f l).
Proof.
  intros (Ht & Hn & Hd & Hc) Hf ??. unfold adaptive_mgr. simpl. rewrite Hf.
  auto using no_contention_jset.
Qed.

Lemma adaptive_mgr_step c l : adaptive_mgr l → adaptive_mgr (lock_step c l).
Proof.
  intros Hl. pose proof Hl as (_ & _ & _ & Hc).
  destruct c as [e h t | a h | d]; simpl; [| | done].
  - rewrite acquireLock_adaptive by done.
    pose proof (no_contention_getOrCreate _ e Hc).
    eapply adaptive_mgr_record; [done | done | simpl; lia | simpl; lia].
  - unfold releaseLock. destruct (negb _); simpl.
    + pose proof (no_contention_getOrCreate _ (lockId a) Hc).
      eapply adaptive_mgr_record; [done | done | simpl; lia | simpl; lia].
    + destruct (acq_lockType a); simpl; try (by destruct (release _ _ _)).
      by destruct (commitOptimistic _ _ _).
Qed.

Lemma adaptive_mgr_run cs l : adaptive_mgr l → adaptive_mgr (lock_run cs l).
Proof. revert l. induction cs as [| c cs IH]; intros l H; simpl; [done |]. by apply IH, adaptive_mgr_step. Qed.

Lemma adaptive_mgr_new cfg now :
  lockType cfg = adaptive → 0 < threshold_num cfg → 0 < threshold_den cfg →
  adaptive_mgr (newManager cfg now).
Proof. intros. repeat split; done. Qed.

(** With the default (adaptive) configuration the manager never locks: in every
    state reachable from a fresh manager, every request at once gets an optimistic
    acquisition and no stripe is taken, because contention is only counted on the
    pessimistic path, which the zero contention count keeps unreachable.  Two
    holders of the same escrow are therefore granted together. *)
Theorem adaptive_never_pessimistic cs now e h1 h2 t1 t2 :
  let l := lock_run cs (newManager DEFAULT_LOCK_CONFIG now) in
  let '(r1, l1) := acquireLock e h1 t1 l in
  let '(r2, l2) := acquireLock e h2 t2 l1 in
  (acq_lockType <$> r1 = Some optimistic ∧ acq_holderId <$> r1 = Some h1) ∧
  (acq_lockType <$> r2 = Some optimistic ∧ acq_holderId <$> r2 = Some h2) ∧
  stripePool l2 = stripePool l.
Proof.
  intros l. assert (adaptive_mgr l) as Hl by (apply adaptive_mgr_run, adaptive_mgr_new; done).
  rewrite (acquireLock_adaptive _ _ _ _ Hl).
  assert (adaptive_mgr (set_tracker (λ m, recordAcquisition m e 0) l)) as Hl1.
  { pose proof (adaptive_mgr_step (CallAcquire e h1 t1) l Hl) as H. simpl in H.
    by rewrite acquireLock_adaptive in H. }
  by rewrite (acquireLock_adaptive _ _ _ _ Hl1).
Qed.

(** The version an optimistic release commits against is always [0], so only the
    first release of an escrow succeeds. *)
Lemma optimistic_release_once e h h' t t' l :
  adaptive_mgr l → strip_opt ("opt:" +:+ e) = e → jget e (versions l) = None →
  let '(r1, l1) := acquireLock e h t l in
  let '(r2, l2) := acquireLock e h' t' l1 in
  ∃ a1 a2 l3, r1 = Some a1 ∧ r2 = Some a2 ∧
    releaseLock a1 h l2 = (true, l3) ∧ (releaseLock a2 h' l3).1 = false.
Proof.
  intros Hl Hs Hv. pose proof (adaptive_mgr_step (CallAcquire e h t) l Hl) as Hl1. simpl in Hl1.
  rewrite acquireLock_adaptive in Hl1 |- * by done. simpl in Hl1.
  rewrite acquireLock_adaptive by done.
  eexists _, _, _. split; [done |]. split; [done |].
  unfold releaseLock. simpl. rewrite !String.eqb_refl. simpl. rewrite Hs.
  unfold commitOptimistic. simpl. rewrite Hv. simpl. split; [done |].
  simpl. by rewrite jget_jset_eq.
Qed.

Lemma pessimistic_exclusion_witness :
  ∃ a st', tryAcquire (replicate 16 free_stripe) "order-1" "fund:order-1" 5000 100 = Some (a, st') ∧
    tryAcquire st' "order-1" "fund:order-2" 5000 4000 = None.
Proof.
  eexists _, _. split; [vm_compute; reflexivity |].
  eapply (pessimistic_exclusion (replicate 16 free_stripe) "order-1" "fund:order-1" 5000 100);
    vm_compute; reflexivity.
Defined.
