(* ===== verification/ChainClient.v ===== *)
(** * Contract invocations

    - [retryWithBackoff] (apps/backend/payments/src/autoRelease/retry.ts);
    - [submitContractInvocation], [extractEscrowIdFromTx], [orderIdToContractBytes]
      and [mapChainEscrowStatus] (.../escrowCoordinator/contractClient.ts);
    - [submitContractInvocationWithRetry] (.../contractInvocationRetry.ts).

    The wallet service, the Soroban RPC node and SHA-256 are outside the
    repository's payments service and are parameters: the answer of the wallet
    service to a request is an arbitrary function of all the requests posted
    before, which are logged in the state. *)
From S2P Require Import Prelude JsLib.
Local Open Scope Z_scope.

(** ** Requests and answers *)

Inductive arg := ArgStr (s : string) | ArgNum (n : Z) | ArgBytes (b : list Z).

Record TransactionRequest := {
  sourceAddress : string;
  contractId : string;
  method : string;
  args : list arg;
  memo : string;
  req_amountStroops : option string
}.

Record TransactionResult := { hash : string; ledger : Z; success : bool }.

(** The JSON body of an answer of the wallet service: [error] is [Some m] when the
    field is present, [m] its optional message. *)
Record ApiResponse := { api_data : option TransactionResult; api_error : option (option string) }.

(** The outcome of the HTTP exchange: the connection fails with a message, or a
    status arrives with a body that is or is not JSON. *)
Inductive http_reply := Unreachable (m : string) | Reply (status : Z) (body : option ApiResponse).

(** What [getTransaction] of the RPC node answers about a hash. *)
Record rpc_transaction := { rpc_success : bool; rpc_returnValue : option string }.

Class ChainEnv := {
  service_token : option string;
  wallet_http : list TransactionRequest → TransactionRequest → http_reply;
  rpc_getTransaction : string → exn + rpc_transaction;
  sha256 : string → list Z
}.

(** The requests posted so far, oldest first, and the clock. *)
Record chain := Chain { posted : list TransactionRequest; chain_now : Z }.

(** ** retry.ts *)

Record RetryResult (T : Type) := {
  retry_success : bool;
  retry_value : option T;
  retry_error : option exn;
  retryCount : Z
}.
Arguments Build_RetryResult {T}.
Arguments retry_success {T}.
Arguments retry_value {T}.
Arguments retry_error {T}.
Arguments retryCount {T}.

(** [try { v = await c } catch (e) { ... }] with both outcomes as a value. *)
Definition outcome {S A} (c : M S A) : M S (exn + A) := λ s, let '(r, s') := c s in (inr r, s').

Section retry.
Context {S T : Type} (fn : Z → M S T) (baseDelayMs : Z) (sleep : Z → M S ())
  (onRetry : Z → exn → Z → M S ()) (shouldRetry : exn → Z → bool).

(** The loop body at attempt number [attempt] with [left] retries left. *)
Fixpoint retry_loop (left : nat) (attempt retries : Z) : M S (RetryResult T) :=
  r ← outcome (fn attempt);
  match r with
  | inr value => mret (Build_RetryResult true (Some value) None attempt)
  | inl err =>
      match left with
      | O => mret (Build_RetryResult false None (Some err) retries)
      | Datatypes.S left' =>
          if shouldRetry err attempt then
            let delayMs := baseDelayMs * 2 ^ attempt in
            onRetry (attempt + 1) err delayMs;;
            sleep delayMs;;
            retry_loop left' (attempt + 1) (attempt + 1)
          else mret (Build_RetryResult false None (Some err) retries)
      end
  end.

Definition retryWithBackoff (maxRetries : nat) : M S (RetryResult T) := retry_loop maxRetries 0 0.
End retry.

(** ** contractClient.ts *)

Definition is_hex (c : ascii) : bool :=
  match digit_val c with Some d => d <? 16 | None => false end.

Fixpoint hex_bytes (l : list ascii) : list Z :=
  match l with
  | a :: b :: l' => (16 * default 0 (digit_val a) + default 0 (digit_val b)) :: hex_bytes l'
  | _ => []
  end.

Section client.
Context `{E : ChainEnv}.

Definition orderIdToContractBytes (orderId : string) : list Z :=
  let trimmed := trim orderId in
  let uuidHex := List.filter (λ c, negb (Ascii.eqb c "-"%char)) (chars trimmed) in
  if (length uuidHex =? 32)%nat && forallb is_hex uuidHex
  then hex_bytes uuidHex ++ replicate 16 0
  else sha256 trimmed.

Definition submitContractInvocation (request : TransactionRequest) : M chain TransactionResult :=
  throw_if (negb (truthy (trim <$> service_token)))
    (Error "PAYMENTS_WALLET_SERVICE_TOKEN is not configured");;
  before ← gets posted;
  modify (λ c, Chain (posted c ++ [request]) (chain_now c));;
  match wallet_http before request with
  | Unreachable m => throw (Error ("Wallet service unavailable: " +:+ m))
  | Reply status None =>
      throw (Error ("Wallet service returned invalid response (status " +:+ dec status +:+ ")"))
  | Reply status (Some body) =>
      let ok := (200 <=? status) && (status <=? 299) in
      if negb ok || bool_decide (is_Some (api_error body)) then
        throw (Error (default ("Wallet service returned status " +:+ dec status)
                        (mjoin (api_error body))))
      else some_or_throw (api_data body) (Error "Wallet service returned empty transaction result")
  end.

Definition extractEscrowIdFromTx (txHash : string) : M chain string :=
  tx ← answer (rpc_getTransaction txHash);
  throw_if (negb (rpc_success tx)) (Error ("Transaction " +:+ txHash +:+ " did not succeed on-chain"));;
  some_or_throw (rpc_returnValue tx) (Error ("Transaction " +:+ txHash +:+ " did not return an escrow ID")).

(** ** contractInvocationRetry.ts *)

Definition TRANSIENT_NETWORK_PATTERNS : list string := [
  "timeout"; "timed out"; "network"; "econnrefused"; "econnreset"; "econnaborted"; "epipe";
  "enotfound"; "eai_again"; "socket hang up"; "socket closed"; "connection reset";
  "connection refused"; "fetch failed"; "failed to fetch"; "rate limit"; "too many requests";
  "429"; "500"; "502"; "503"; "504"; "temporarily unavailable"; "service unavailable";
  "wallet service unavailable" ].

Definition isTransientNetworkError (err : exn) : bool :=
  let message := toLowerCase (exn_message err) in
  existsb (includes message) TRANSIENT_NETWORK_PATTERNS.

Definition DEFAULT_MAX_RETRIES : nat := 3.
Definition DEFAULT_BASE_DELAY_MS : Z := 2000.

Definition sleep_chain (ms : Z) : M chain () := modify (λ c, Chain (posted c) (chain_now c + ms)).

(** Every caller of the coordinator passes no options. *)
Definition submitContractInvocationWithRetry (request : TransactionRequest) : M chain TransactionResult :=
  result ← retryWithBackoff (λ _, submitContractInvocation request) DEFAULT_BASE_DELAY_MS
             sleep_chain (λ _ _ _, mret ()) (λ e _, isTransientNetworkError e) DEFAULT_MAX_RETRIES;
  if retry_success result
  then some_or_throw (retry_value result) (Error "undefined")
  else throw (default (Error "undefined") (retry_error result)).
End client.

Inductive chain_status := ch_funded | ch_released | ch_refunded | ch_disputed.

Definition mapChainEscrowStatus (status : string) : chain_status :=
  let raw := toLowerCase status in
  if includes raw "release" then ch_released
  else if includes raw "refund" then ch_refunded
  else if includes raw "disput" then ch_disputed
  else ch_funded.

(** ** Proofs *)

(** Every post of a submission repeats the same request, and only grows the log. *)
Definition posts_only (req : TransactionRequest) (n : nat) (c c' : chain) : Prop :=
  ∃ k, (k ≤ n)%nat ∧ posted c' = posted c ++ replicate k req.

Section proofs.
Context `{E : ChainEnv}.

Lemma submit_posts req c : posts_only req 1 c (submitContractInvocation req c).2.
Proof.
  unfold submitContractInvocation. run_unfold.
  destruct (negb _); simpl; [exists 0%nat; split; [lia | by rewrite app_nil_r] |].
  exists 1%nat. split; [lia |].
  destruct (wallet_http _ _) as [| ? [b |]]; simpl; [done | | done].
  destruct (_ || _); simpl; [done |]. by destruct (api_data b).
Qed.

Lemma retry_loop_posts req left a k c :
  posts_only req (S left) c
    (retry_loop (λ _, submitContractInvocation req) DEFAULT_BASE_DELAY_MS sleep_chain
       (λ _ _ _, mret ()) (λ e _, isTransientNetworkError e) left a k c).2.
Proof.
  revert a k c. induction left as [| left IH]; intros a k c; simpl.
  - pose proof (submit_posts req c) as Hp. unfold outcome. run_unfold.
    destruct (submitContractInvocation req c) as [[e | v] c1]; done.
  - pose proof (submit_posts req c) as (n & Hn & Hp). unfold outcome. run_unfold.
    destruct (submitContractInvocation req c) as [[e | v] c1]; simpl in *; [| exists n; split; [lia | done]].
    destruct (isTransientNetworkError e); simpl; [| exists n; split; [lia | done]].
    destruct (IH (a + 1) (a + 1) (Chain (posted c1) (chain_now c1 + DEFAULT_BASE_DELAY_MS * 2 ^ a)))
      as (m & Hm & Hpm).
    exists (n + m)%nat. split; [lia |]. rewrite Hpm. simpl. by rewrite Hp, <- app_assoc, replicate_add.
Qed.

Lemma submit_retry_posts req c : posts_only req 4 c (submitContractInvocationWithRetry req c).2.
Proof.
  pose proof (retry_loop_posts req 3 0 0 c) as H.
  unfold submitContractInvocationWithRetry, retryWithBackoff, DEFAULT_MAX_RETRIES.
  unfold mbind at 1, M_bind at 1.
  destruct (retry_loop _ _ _ _ _ 3 0 0 c) as [[e | r] c1]; [done |].
  destruct (retry_success r); [by destruct (retry_value r) | done].
Qed.

(** A submission with retries posts the same request at most four times
    (one attempt and [DEFAULT_MAX_RETRIES] retries) and nothing else; a failure
    the classifier does not call transient is never retried: exactly one post,
    and the original error is thrown. *)
Theorem retry_bounded req c :
  posts_only req 4 c (submitContractInvocationWithRetry req c).2 ∧
  (∀ e c1, submitContractInvocation req c = (inl e, c1) → isTransientNetworkError e = false →
     submitContractInvocationWithRetry req c = (inl e, c1)).
Proof.
  split; [apply submit_retry_posts |].
  intros e c1 H Hn. unfold submitContractInvocationWithRetry, retryWithBackoff, DEFAULT_MAX_RETRIES.
  simpl. unfold outcome. run_unfold. rewrite H, Hn. done.
Qed.
End proofs.

Definition refusing_env : ChainEnv := {|
  service_token := Some "token";
  wallet_http := λ _ _, Reply 400 (Some {| api_data := None; api_error := Some (Some "contract reverted") |});
  rpc_getTransaction := λ _, inl (Error "not found");
  sha256 := λ _, []
|}.

Definition sample_request : TransactionRequest := {|
  sourceAddress := "GBUYER"; contractId := "CESCROW"; method := "release";
  args := [ArgNum 7]; memo := "Release escrow 7"; req_amountStroops := None |}.

Lemma retry_bounded_witness :
  @submitContractInvocationWithRetry refusing_env sample_request (Chain [] 0) =
    (inl (Error "contract reverted"), Chain [sample_request] 0).
Proof.
  apply (proj2 (@retry_bounded refusing_env sample_request (Chain [] 0)));
    vm_compute; reflexivity.
Defined.
