(* ===== verification/EscrowCoordinator.v ===== *)
(** * Escrow coordinator (apps/backend/payments/src/escrowCoordinator/index.ts)

    The operations of [escrowCoordinator] over the payments state [pworld]: the
    payment records, the requests posted to the wallet service, the status events
    published on Redis (redisEvents.ts), the funding locks and the accounts
    reported to the fraud service (fraudGuard.ts).  An operation runs without
    interleaving; the partial payouts are split in a [_check] and an [_execute] half,
    between which the interleaving of two payouts is studied.  Logging is left out. *)
From S2P Require Import Prelude JsLib PaymentRecords EscrowLock ChainClient.
Local Open Scope Z_scope.

(** ** Parameters and results (types.ts) *)

Record FundEscrowParams := {
  fp_orderId : string;
  fp_buyerAddress : string;
  fp_sellerAddress : string;
  fp_tokenContractId : string;
  fp_amountStroops : string;
  fp_escrowContractId : string;
  fp_timeoutLedgers : Z
}.

Record FundEscrowResult := {
  fr_escrowId : string; fr_txHash : string; fr_ledger : Z; fr_status : string
}.

(** [ReleaseEscrowParams], [DisputeEscrowParams] *)
Record EscrowCallParams := {
  ep_escrowId : string; ep_escrowContractId : string; ep_callerAddress : string
}.

Record RefundEscrowParams := {
  rp_escrowId : string; rp_escrowContractId : string; rp_callerAddress : string; rp_reason : string
}.

(** [ReleaseResult], [RefundResult]: [xr_party] is the seller or buyer address. *)
Record TransferResult := {
  xr_txHash : string; xr_ledger : Z; xr_status : string; xr_party : string; xr_amount : string
}.

Record DisputeResult := {
  dr_txHash : string; dr_ledger : Z; dr_status : string; dr_disputedBy : string
}.

(** [PartialRefundEscrowParams], [PartialReleaseEscrowParams]: the last field is the
    refund's [reason], resp. the release's optional [memo]. *)
Record PartialRefundEscrowParams := {
  pf_escrowId : string; pf_escrowContractId : string; pf_callerAddress : string;
  pf_amountStroops : string; pf_reason : string
}.

Record PartialReleaseEscrowParams := {
  pl_escrowId : string; pl_escrowContractId : string; pl_callerAddress : string;
  pl_amountStroops : string; pl_memo : option string
}.

(** [PartialRefundResult], [PartialReleaseResult]: [px_moved] is [refundedAmount],
    resp. [releasedAmount]. *)
Record PartialResult := {
  px_txHash : string; px_ledger : Z; px_status : string; px_party : string;
  px_moved : string; px_remaining : string
}.

Record RemainingBalance := {
  rb_escrowId : string; rb_orderId : string; rb_buyerAddress : string; rb_sellerAddress : string;
  rb_totalAmount : string; rb_releasedAmount : string; rb_refundedAmount : string;
  rb_remainingAmount : string
}.

Record EscrowStatusResult := {
  es_escrowId : string; es_buyer : string; es_seller : string; es_amount : string;
  es_status : chain_status; es_createdAt : Z
}.

Definition InsufficientEscrowBalanceError (escrowId remaining requested : string) : exn :=
  Exn "InsufficientEscrowBalanceError"
    ("Escrow " +:+ escrowId +:+ " has " +:+ remaining +:+ " stroops remaining; requested " +:+
     requested +:+ " exceeds the available balance").

(** ** State and environment *)

Record PaymentStatusEvent := {
  ev_channel : string;
  ev_orderId : string;
  ev_escrowId : option string;
  ev_txHash : option string;
  ev_status : PaymentRecordStatus;
  ev_reason : option string;
  ev_occurredAt : Z
}.

Record pworld := PWorld {
  w_rows : list PaymentRecordRow;
  w_uuids : nat;
  w_posted : list TransactionRequest;
  w_events : list PaymentStatusEvent;
  w_locks : LockManager;
  w_velocity : list string;
  w_now : Z
}.

(** The answer of the fraud service: unreachable, or a status with the [paused]
    flag of its [data], if any. *)
Inductive fraud_reply := FraudDown | FraudReply (status : Z) (paused : option bool).

Record OnChainEscrowRecord := {
  oc_escrow_id : string; oc_buyer : string; oc_seller : string; oc_amount : string;
  oc_status : string; oc_created_at : Z
}.

Class PayEnv := {
  pay_pg :: Pg;
  pay_chain :: ChainEnv;
  redis_publish : list PaymentStatusEvent → PaymentStatusEvent → option exn;
  fraud_http : list string → string → fraud_reply;
  ESCROW_CONTRACT_ID : option string;
  read_source_address : option string;
  readEscrowFromChain : string → string → string → exn + OnChainEscrowRecord
}.

Definition get_db (w : pworld) : db := Db (w_rows w) (w_now w) (w_uuids w).
Definition put_db (d : db) (w : pworld) : pworld :=
  PWorld (payment_records d) (uuids d) (w_posted w) (w_events w) (w_locks w) (w_velocity w) (w_now w).
Definition on_db {A} (c : M db A) : M pworld A := zoom get_db put_db c.

Definition get_chain (w : pworld) : chain := Chain (w_posted w) (w_now w).
Definition put_chain (c : chain) (w : pworld) : pworld :=
  PWorld (w_rows w) (w_uuids w) (posted c) (w_events w) (w_locks w) (w_velocity w) (chain_now c).
Definition on_chain {A} (c : M chain A) : M pworld A := zoom get_chain put_chain c.

(** The lock manager reads the same clock. *)
Definition at_clock (now : Z) (l : LockManager) : LockManager :=
  Build_LockManager (stripePool l) (tracker l) (versions l) (config l) now.
Definition on_locks {A} (f : LockManager → A * LockManager) : M pworld A := λ w,
  let '(a, l) := f (at_clock (w_now w) (w_locks w)) in
  (inr a, PWorld (w_rows w) (w_uuids w) (w_posted w) (w_events w) l (w_velocity w) (clock l)).

Definition set_events (f : list PaymentStatusEvent → list PaymentStatusEvent) (w : pworld) : pworld :=
  PWorld (w_rows w) (w_uuids w) (w_posted w) (f (w_events w)) (w_locks w) (w_velocity w) (w_now w).
Definition set_velocity (f : list string → list string) (w : pworld) : pworld :=
  PWorld (w_rows w) (w_uuids w) (w_posted w) (w_events w) (w_locks w) (f (w_velocity w)) (w_now w).

(** ** Helpers *)

Definition parseEscrowId {S} (escrowId : string) : M S Z :=
  match Number_integer escrowId with
  | Some id => if id <? 0 then throw (Error ("Invalid escrow ID: " +:+ escrowId)) else mret id
  | None => throw (Error ("Invalid escrow ID: " +:+ escrowId))
  end.

Definition toFundResult (record : PaymentRecord) (ledger : Z) : FundEscrowResult :=
  let isFunded :=
    bool_decide (pr_status record = funded) || bool_decide (pr_status record = released) ||
    bool_decide (pr_status record = refunded) || truthy (pr_fundTxHash record) in
  {| fr_escrowId := default "" (pr_escrowId record);
     fr_txHash := default "" (pr_fundTxHash record);
     fr_ledger := ledger;
     fr_status := if isFunded then "funded" else "failed" |}.

Definition mapRecordStatusToEscrowStatus (status : PaymentRecordStatus) : option chain_status :=
  match status with
  | funded => Some ch_funded
  | released => Some ch_released
  | refunded => Some ch_refunded
  | disputed => Some ch_disputed
  | _ => None
  end.

(** [total - released - refunded]; the three strings come out of [mapRow]. *)
Definition computeRemaining {S} (record : PaymentRecord) : M S Z :=
  amount ← BigInt_throw (pr_amountStroops record);
  rel ← BigInt_throw (pr_releasedAmountStroops record);
  ref ← BigInt_throw (pr_refundedAmountStroops record);
  mret (amount - rel - ref).

Definition upd_none : PaymentRecordUpdate := Build_PaymentRecordUpdate None None None None None None None.
(** [{ failureReason: null }] *)
Definition upd_clear : PaymentRecordUpdate :=
  Build_PaymentRecordUpdate None None None None None None (Some None).
(** [{ status: "failed", failureReason: m }] *)
Definition upd_failed (m : string) : PaymentRecordUpdate :=
  Build_PaymentRecordUpdate None (Some failed) None None None None (Some (Some m)).
Definition upd_funded (escrowId txHash : string) : PaymentRecordUpdate :=
  Build_PaymentRecordUpdate (Some escrowId) (Some funded) (Some (Some txHash)) None None None (Some None).
Definition upd_released (txHash : string) : PaymentRecordUpdate :=
  Build_PaymentRecordUpdate None (Some released) None (Some (Some txHash)) None None (Some None).
Definition upd_refunded (txHash : string) : PaymentRecordUpdate :=
  Build_PaymentRecordUpdate None (Some refunded) None None (Some (Some txHash)) None (Some None).
Definition upd_disputed (txHash : string) : PaymentRecordUpdate :=
  Build_PaymentRecordUpdate None (Some disputed) None None None (Some (Some txHash)) (Some None).

Section coordinator.
Context `{E : PayEnv}.

(** redisEvents.ts: the error of a failed publication is rethrown. *)
Definition publishPaymentStatusEvent (e : PaymentStatusEvent) : M pworld () :=
  before ← gets w_events;
  match redis_publish before e with
  | None => modify (set_events (λ l, l ++ [e]))
  | Some err => throw err
  end.

Definition emitStatusEvent (channel : string) (record : PaymentRecord) (txHash reason : option string)
    : M pworld () :=
  now ← gets w_now;
  publishPaymentStatusEvent {|
    ev_channel := channel;
    ev_orderId := pr_orderId record;
    ev_escrowId := pr_escrowId record;
    ev_txHash := txHash;
    ev_status := pr_status record;
    ev_reason := reason;
    ev_occurredAt := now |}.

(** fraudGuard.ts: anything but a successful answer with data lets the buyer through. *)
Definition checkEscrowVelocity (accountAddress : string) : M pworld bool :=
  before ← gets w_velocity;
  modify (set_velocity (λ l, l ++ [accountAddress]));;
  match fraud_http before accountAddress with
  | FraudDown => mret false
  | FraudReply status paused =>
      if (200 <=? status) && (status <=? 299) then mret (default false paused) else mret false
  end.

Definition mark_failed (id m : string) : M pworld PaymentRecord := on_db (updatePaymentRecord id (upd_failed m)).

Definition unlock (acquisition : option LockAcquisition) (holder : string) : M pworld () :=
  match acquisition with
  | Some a => on_locks (releaseLock a holder);; mret ()
  | None => mret ()
  end.

Definition fundEscrow (params : FundEscrowParams) : M pworld FundEscrowResult :=
  existing ← on_db (findPaymentRecordByOrderId (fp_orderId params));
  match existing with
  | Some r => mret (toFundResult r 0)
  | None =>
      paused ← checkEscrowVelocity (fp_buyerAddress params);
      if paused : bool then mret {| fr_escrowId := ""; fr_txHash := ""; fr_ledger := 0; fr_status := "failed" |}
      else
        let lockHolderId := "fund:" +:+ fp_orderId params in
        acquisition ← on_locks (acquireLock (fp_orderId params) lockHolderId None);
        record ← on_db (createPaymentRecord {|
          in_orderId := fp_orderId params;
          in_escrowContractId := fp_escrowContractId params;
          in_buyerAddress := fp_buyerAddress params;
          in_sellerAddress := fp_sellerAddress params;
          in_tokenContractId := fp_tokenContractId params;
          in_amountStroops := fp_amountStroops params;
          in_subtotalStroops := None;
          in_taxAmountStroops := None;
          in_taxRateBasisPoints := None;
          in_taxJurisdiction := None |});
        try_catch
          (tx ← on_chain (submitContractInvocationWithRetry {|
             sourceAddress := fp_buyerAddress params;
             contractId := fp_escrowContractId params;
             method := "deposit";
             args := [ ArgStr (fp_buyerAddress params); ArgStr (fp_sellerAddress params);
                       ArgStr (fp_tokenContractId params); ArgStr (fp_amountStroops params);
                       ArgBytes (orderIdToContractBytes (fp_orderId params));
                       ArgNum (fp_timeoutLedgers params) ];
             memo := "Fund escrow for order " +:+ fp_orderId params;
             req_amountStroops := Some (fp_amountStroops params) |});
           if negb (success tx) then
             r ← mark_failed (pr_id record) "Fund transaction failed on-chain";
             emitStatusEvent "payment:failed" r (Some (hash tx)) (Some "Fund transaction failed on-chain");;
             mret {| fr_escrowId := ""; fr_txHash := hash tx; fr_ledger := ledger tx; fr_status := "failed" |}
           else
             escrowId ← on_chain (extractEscrowIdFromTx (hash tx));
             r ← on_db (updatePaymentRecord (pr_id record) (upd_funded escrowId (hash tx)));
             emitStatusEvent "payment:funded" r (Some (hash tx)) None;;
             unlock acquisition lockHolderId;;
             mret {| fr_escrowId := escrowId; fr_txHash := hash tx; fr_ledger := ledger tx; fr_status := "funded" |})
          (λ err,
           r ← mark_failed (pr_id record) (exn_message err);
           emitStatusEvent "payment:failed" r None (Some (exn_message err));;
           unlock acquisition lockHolderId;;
           mret {| fr_escrowId := default "" (pr_escrowId r); fr_txHash := default "" (pr_fundTxHash r);
                   fr_ledger := 0; fr_status := "failed" |})
  end.

Definition find_or_throw (escrowId : string) : M pworld PaymentRecord :=
  r ← on_db (findPaymentRecordByEscrowId escrowId);
  some_or_throw r (Error ("Payment record not found for escrow " +:+ escrowId)).

Definition invoke (caller contract m : string) (escrowId : string) (more : list arg) (mem : string)
    : M pworld TransactionResult :=
  id ← parseEscrowId escrowId;
  on_chain (submitContractInvocationWithRetry {|
    sourceAddress := caller; contractId := contract; method := m;
    args := ArgNum id :: ArgStr caller :: more; memo := mem; req_amountStroops := None |}).

Definition releaseEscrow (params : EscrowCallParams) : M pworld TransferResult :=
  record ← find_or_throw (ep_escrowId params);
  if bool_decide (pr_status record = released) && truthy (pr_releaseTxHash record) then
    mret {| xr_txHash := default "" (pr_releaseTxHash record); xr_ledger := 0; xr_status := "released";
            xr_party := pr_sellerAddress record; xr_amount := pr_amountStroops record |}
  else
    on_db (updatePaymentRecord (pr_id record) upd_clear);;
    try_catch
      (tx ← invoke (ep_callerAddress params) (ep_escrowContractId params) "release" (ep_escrowId params) []
             ("Release escrow " +:+ ep_escrowId params);
       if negb (success tx) then
         updated ← mark_failed (pr_id record) "Release transaction failed on-chain";
         emitStatusEvent "payment:failed" updated (Some (hash tx)) (Some "Release transaction failed on-chain");;
         mret {| xr_txHash := hash tx; xr_ledger := ledger tx; xr_status := "failed";
                 xr_party := pr_sellerAddress record; xr_amount := pr_amountStroops record |}
       else
         updated ← on_db (updatePaymentRecord (pr_id record) (upd_released (hash tx)));
         emitStatusEvent "payment:released" updated (Some (hash tx)) None;;
         mret {| xr_txHash := hash tx; xr_ledger := ledger tx; xr_status := "released";
                 xr_party := pr_sellerAddress record; xr_amount := pr_amountStroops record |})
      (λ err,
       updated ← mark_failed (pr_id record) (exn_message err);
       emitStatusEvent "payment:failed" updated None (Some (exn_message err));;
       mret {| xr_txHash := default "" (pr_releaseTxHash record); xr_ledger := 0; xr_status := "failed";
               xr_party := pr_sellerAddress record; xr_amount := pr_amountStroops record |}).

Definition refundEscrow (params : RefundEscrowParams) : M pworld TransferResult :=
  record ← find_or_throw (rp_escrowId params);
  if bool_decide (pr_status record = refunded) && truthy (pr_refundTxHash record) then
    mret {| xr_txHash := default "" (pr_refundTxHash record); xr_ledger := 0; xr_status := "refunded";
            xr_party := pr_buyerAddress record; xr_amount := pr_amountStroops record |}
  else
    on_db (updatePaymentRecord (pr_id record) upd_clear);;
    try_catch
      (tx ← invoke (rp_callerAddress params) (rp_escrowContractId params) "refund" (rp_escrowId params) []
             ("Refund escrow " +:+ rp_escrowId params +:+ " (" +:+ rp_reason params +:+ ")");
       if negb (success tx) then
         updated ← mark_failed (pr_id record) "Refund transaction failed on-chain";
         emitStatusEvent "payment:failed" updated (Some (hash tx))
           (Some ("Refund transaction failed on-chain (" +:+ rp_reason params +:+ ")"));;
         mret {| xr_txHash := hash tx; xr_ledger := ledger tx; xr_status := "failed";
                 xr_party := pr_buyerAddress record; xr_amount := pr_amountStroops record |}
       else
         updated ← on_db (updatePaymentRecord (pr_id record) (upd_refunded (hash tx)));
         emitStatusEvent "payment:refunded" updated (Some (hash tx)) None;;
         mret {| xr_txHash := hash tx; xr_ledger := ledger tx; xr_status := "refunded";
                 xr_party := pr_buyerAddress record; xr_amount := pr_amountStroops record |})
      (λ err,
       updated ← mark_failed (pr_id record) (exn_message err);
       emitStatusEvent "payment:failed" updated None (Some (exn_message err));;
       mret {| xr_txHash := default "" (pr_refundTxHash record); xr_ledger := 0; xr_status := "failed";
               xr_party := pr_buyerAddress record; xr_amount := pr_amountStroops record |}).

Definition disputeEscrow (params : EscrowCallParams) : M pworld DisputeResult :=
  record ← find_or_throw (ep_escrowId params);
  if bool_decide (pr_status record = disputed) && truthy (pr_disputeTxHash record) then
    mret {| dr_txHash := default "" (pr_disputeTxHash record); dr_ledger := 0; dr_status := "disputed";
            dr_disputedBy := ep_callerAddress params |}
  else
    on_db (updatePaymentRecord (pr_id record) upd_clear);;
    try_catch
      (tx ← invoke (ep_callerAddress params) (ep_escrowContractId params) "dispute" (ep_escrowId params) []
             ("Dispute escrow " +:+ ep_escrowId params);
       if negb (success tx) then
         updated ← mark_failed (pr_id record) "Dispute transaction failed on-chain";
         emitStatusEvent "payment:failed" updated (Some (hash tx)) (Some "Dispute transaction failed on-chain");;
         mret {| dr_txHash := hash tx; dr_ledger := ledger tx; dr_status := "failed";
                 dr_disputedBy := ep_callerAddress params |}
       else
         updated ← on_db (updatePaymentRecord (pr_id record) (upd_disputed (hash tx)));
         emitStatusEvent "payment:disputed" updated (Some (hash tx)) None;;
         mret {| dr_txHash := hash tx; dr_ledger := ledger tx; dr_status := "disputed";
                 dr_disputedBy := ep_callerAddress params |})
      (λ err,
       updated ← mark_failed (pr_id record) (exn_message err);
       emitStatusEvent "payment:failed" updated None (Some (exn_message err));;
       mret {| dr_txHash := default "" (pr_disputeTxHash record); dr_ledger := 0; dr_status := "failed";
               dr_disputedBy := ep_callerAddress params |}).

(** [partialRefundEscrow], up to its first on-chain effect: the record it read,
    the remaining balance it computed and the amount requested. *)
Definition partialRefund_check (params : PartialRefundEscrowParams) : M pworld (PaymentRecord * Z * Z) :=
  record ← find_or_throw (pf_escrowId params);
  remaining ← computeRemaining record;
  requested ← BigInt_throw (pf_amountStroops params);
  throw_if ((requested <=? 0) || (remaining <? requested))
    (InsufficientEscrowBalanceError (pf_escrowId params) (dec remaining) (pf_amountStroops params));;
  on_db (updatePaymentRecord (pr_id record) upd_clear);;
  mret (record, remaining, requested).

(** The rest of [partialRefundEscrow].  Nothing inside its [try] throws
    [InsufficientEscrowBalanceError], the class the handler lets through. *)
Definition partialRefund_execute (params : PartialRefundEscrowParams) (record : PaymentRecord)
    (remaining requested : Z) : M pworld PartialResult :=
  try_catch
    (tx ← invoke (pf_callerAddress params) (pf_escrowContractId params) "partial_refund"
           (pf_escrowId params) [ArgStr (pf_amountStroops params)]
           ("Partial refund escrow " +:+ pf_escrowId params +:+ " (" +:+ pf_reason params +:+ ")");
     if negb (success tx) then
       updated ← mark_failed (pr_id record) "Partial refund transaction failed on-chain";
       emitStatusEvent "payment:failed" updated (Some (hash tx))
         (Some ("Partial refund transaction failed on-chain (" +:+ pf_reason params +:+ ")"));;
       mret {| px_txHash := hash tx; px_ledger := ledger tx; px_status := "failed";
               px_party := pr_buyerAddress record; px_moved := "0"; px_remaining := dec remaining |}
     else
       let newRemaining := remaining - requested in
       updated ← on_db (incrementPaymentRecordAmounts (pr_id record) {|
         releasedDelta := None;
         refundedDelta := Some (pf_amountStroops params);
         delta_status := if (newRemaining =? 0) && String.eqb (pr_releasedAmountStroops record) "0"
                         then Some refunded else None |});
       emitStatusEvent "payment:partial_refunded" updated (Some (hash tx)) (Some (pf_reason params));;
       mret {| px_txHash := hash tx; px_ledger := ledger tx; px_status := "partial_refunded";
               px_party := pr_buyerAddress record; px_moved := pf_amountStroops params;
               px_remaining := dec newRemaining |})
    (λ err,
     if String.eqb (exn_name err) "InsufficientEscrowBalanceError" then throw err else
     updated ← mark_failed (pr_id record) (exn_message err);
     emitStatusEvent "payment:failed" updated None (Some (exn_message err));;
     mret {| px_txHash := ""; px_ledger := 0; px_status := "failed";
             px_party := pr_buyerAddress record; px_moved := "0"; px_remaining := dec remaining |}).

Definition partialRefundEscrow (params : PartialRefundEscrowParams) : M pworld PartialResult :=
  c ← partialRefund_check params;
  let '(record, remaining, requested) := c in
  partialRefund_execute params record remaining requested.

(** [partialReleaseEscrow], split in the same way. *)
Definition partialRelease_check (params : PartialReleaseEscrowParams) : M pworld (PaymentRecord * Z * Z) :=
  record ← find_or_throw (pl_escrowId params);
  remaining ← computeRemaining record;
  requested ← BigInt_throw (pl_amountStroops params);
  throw_if ((requested <=? 0) || (remaining <? requested))
    (InsufficientEscrowBalanceError (pl_escrowId params) (dec remaining) (pl_amountStroops params));;
  on_db (updatePaymentRecord (pr_id record) upd_clear);;
  mret (record, remaining, requested).

Definition partialRelease_execute (params : PartialReleaseEscrowParams) (record : PaymentRecord)
    (remaining requested : Z) : M pworld PartialResult :=
  try_catch
    (tx ← invoke (pl_callerAddress params) (pl_escrowContractId params) "partial_release"
           (pl_escrowId params) [ArgStr (pl_amountStroops params)]
           (default ("Partial release escrow " +:+ pl_escrowId params) (pl_memo params));
     if negb (success tx) then
       updated ← mark_failed (pr_id record) "Partial release transaction failed on-chain";
       emitStatusEvent "payment:failed" updated (Some (hash tx))
         (Some "Partial release transaction failed on-chain");;
       mret {| px_txHash := hash tx; px_ledger := ledger tx; px_status := "failed";
               px_party := pr_sellerAddress record; px_moved := "0"; px_remaining := dec remaining |}
     else
       let newRemaining := remaining - requested in
       updated ← on_db (incrementPaymentRecordAmounts (pr_id record) {|
         releasedDelta := Some (pl_amountStroops params);
         refundedDelta := None;
         delta_status := if (newRemaining =? 0) && String.eqb (pr_refundedAmountStroops record) "0"
                         then Some released else None |});
       emitStatusEvent "payment:partial_released" updated (Some (hash tx)) None;;
       mret {| px_txHash := hash tx; px_ledger := ledger tx; px_status := "partial_released";
               px_party := pr_sellerAddress record; px_moved := pl_amountStroops params;
               px_remaining := dec newRemaining |})
    (λ err,
     if String.eqb (exn_name err) "InsufficientEscrowBalanceError" then throw err else
     updated ← mark_failed (pr_id record) (exn_message err);
     emitStatusEvent "payment:failed" updated None (Some (exn_message err));;
     mret {| px_txHash := ""; px_ledger := 0; px_status := "failed";
             px_party := pr_sellerAddress record; px_moved := "0"; px_remaining := dec remaining |}).

Definition partialReleaseEscrow (params : PartialReleaseEscrowParams) : M pworld PartialResult :=
  c ← partialRelease_check params;
  let '(record, remaining, requested) := c in
  partialRelease_execute params record remaining requested.

Definition getRemainingBalance (escrowId : string) : M pworld RemainingBalance :=
  record ← find_or_throw escrowId;
  remaining ← computeRemaining record;
  mret {| rb_escrowId := escrowId;
          rb_orderId := pr_orderId record;
          rb_buyerAddress := pr_buyerAddress record;
          rb_sellerAddress := pr_sellerAddress record;
          rb_totalAmount := pr_amountStroops record;
          rb_releasedAmount := pr_releasedAmountStroops record;
          rb_refundedAmount := pr_refundedAmountStroops record;
          rb_remainingAmount := dec remaining |}.

Definition getContractReadSourceAddress (fallback : option string) : M pworld string :=
  match read_source_address with
  | Some a => if String.eqb a "" then throw (Error "ESCROW_READ_SOURCE_ADDRESS or SETTLEMENT_SOURCE_ADDRESS must be configured for on-chain reads") else mret a
  | None =>
      match fallback with
      | Some a => if String.eqb a "" then throw (Error "ESCROW_READ_SOURCE_ADDRESS or SETTLEMENT_SOURCE_ADDRESS must be configured for on-chain reads") else mret a
      | None => throw (Error "ESCROW_READ_SOURCE_ADDRESS or SETTLEMENT_SOURCE_ADDRESS must be configured for on-chain reads")
      end
  end.

Definition getEscrowStatus (escrowId : string) : M pworld EscrowStatusResult :=
  record ← on_db (findPaymentRecordByEscrowId escrowId);
  match record, mapRecordStatusToEscrowStatus <$> (pr_status <$> record) with
  | Some r, Some (Some mapped) =>
      mret {| es_escrowId := escrowId; es_buyer := pr_buyerAddress r; es_seller := pr_sellerAddress r;
              es_amount := pr_amountStroops r; es_status := mapped; es_createdAt := pr_createdAt r / 1000 |}
  | _, _ =>
      let contract := match record with Some r => Some (pr_escrowContractId r) | None => ESCROW_CONTRACT_ID end in
      throw_if (negb (truthy contract)) (Error "ESCROW_CONTRACT_ID is not configured");;
      source ← getContractReadSourceAddress (pr_buyerAddress <$> record);
      onChain ← answer (readEscrowFromChain (default "" contract) escrowId source);
      mret {| es_escrowId := oc_escrow_id onChain; es_buyer := oc_buyer onChain; es_seller := oc_seller onChain;
              es_amount := oc_amount onChain; es_status := mapChainEscrowStatus (oc_status onChain);
              es_createdAt := oc_created_at onChain |}
  end.
End coordinator.
