(* ===== verification/EscrowLedger.v ===== *)
(** * The escrow ledger: specification of the coordinator and refinement

    The abstract state of the payments service is a list of balances, one per
    payment record.  It may only change by opening a balance for a new order and
    by paying out of the remaining amount of one balance ([ledger_step]).  Every
    operation of the coordinator refines a sequence of such steps, for every
    behaviour of the wallet service, the RPC node, Redis and the fraud service. *)
From S2P Require Import Prelude JsLib PaymentRecords EscrowLock ChainClient EscrowCoordinator.
Local Open Scope Z_scope.

(** ** Specification *)

Record balance := Balance {
  b_id : string; b_order : string; b_amount : Z; b_released : Z; b_refunded : Z
}.

Definition b_remaining (b : balance) : Z := b_amount b - b_released b - b_refunded b.
Definition pay_refund (x : Z) (b : balance) : balance :=
  Balance (b_id b) (b_order b) (b_amount b) (b_released b) (b_refunded b + x).
Definition pay_release (x : Z) (b : balance) : balance :=
  Balance (b_id b) (b_order b) (b_amount b) (b_released b + x) (b_refunded b).

Inductive ledger_step : list balance → list balance → Prop :=
  | step_open l id oid amount :
      id ∉ (b_id <$> l) → oid ∉ (b_order <$> l) → 0 ≤ amount < 2 ^ 63 →
      ledger_step l (l ++ [Balance id oid amount 0 0])
  | step_refund l i b x :
      l !! i = Some b → 0 < x ≤ b_remaining b → ledger_step l (<[i := pay_refund x b]> l)
  | step_release l i b x :
      l !! i = Some b → 0 < x ≤ b_remaining b → ledger_step l (<[i := pay_release x b]> l).

(** A balance never pays out more than was escrowed. *)
Definition balance_ok (b : balance) : Prop :=
  0 ≤ b_released b ∧ 0 ≤ b_refunded b ∧ b_released b + b_refunded b ≤ b_amount b < 2 ^ 63.

Definition ledger_ok (l : list balance) : Prop :=
  NoDup (b_id <$> l) ∧ NoDup (b_order <$> l) ∧ Forall balance_ok l.

(** ** Abstraction *)

Definition balance_of (r : PaymentRecordRow) : balance :=
  Balance (row_id r) (order_id r) (amount_stroops r) (released_amount_stroops r) (refunded_amount_stroops r).

Definition book (w : pworld) : list balance := balance_of <$> w_rows w.

Section refinement.
Context `{E : PayEnv} `{!PgLaws pay_pg}.

(** The invariant of the table: a well-formed book whose keys were generated. *)
Definition pay_wf (w : pworld) : Prop :=
  ledger_ok (book w) ∧
  ∀ r, r ∈ w_rows w → ∃ k, (k < w_uuids w)%nat ∧ row_id r = pg_uuid k.

(** What an operation may do to the state. *)
Definition refines (w w' : pworld) : Prop :=
  pay_wf w → pay_wf w' ∧ rtc ledger_step (book w) (book w').

#[global] Instance refines_preorder : PreOrder refines.
Proof.
  split.
  - intros w H. split; [done | apply rtc_refl].
  - intros w1 w2 w3 H12 H23 H1. destruct (H12 H1) as [H2 S12]. destruct (H23 H2) as [H3 S23].
    split; [done |]. by etrans.
Qed.

(** Steps that touch neither a balance nor a key. *)
Definition quiet (w w' : pworld) : Prop :=
  book w' = book w ∧ w_uuids w' = w_uuids w.

#[global] Instance quiet_preorder : PreOrder quiet.
Proof. split; [done |]. intros w1 w2 w3 [] []. split; congruence. Qed.

Lemma ledger_ids w : row_id <$> w_rows w = b_id <$> book w.
Proof. unfold book. by rewrite <- list_fmap_compose. Qed.

Lemma quiet_wf w w' : quiet w w' → pay_wf w → pay_wf w'.
Proof.
  intros [Hl Hu] [Hok Hk]. split; [by rewrite Hl |].
  intros r Hr. apply (list_elem_of_fmap_2 row_id) in Hr. rewrite ledger_ids, Hl, <- ledger_ids in Hr.
  apply list_elem_of_fmap in Hr as (r' & -> & Hr'). rewrite Hu. auto.
Qed.

Lemma quiet_refines w w' : quiet w w' → refines w w'.
Proof. intros Hq Hw. split; [by eapply quiet_wf |]. destruct Hq as [-> _]. apply rtc_refl. Qed.

Lemma evolves_quiet_refines {A} (c : M pworld A) : evolves quiet c → evolves refines c.
Proof. intros H w. apply quiet_refines, H. Qed.

(** ** Operations that leave the balances alone *)

Lemma balance_of_update u now r : balance_of (apply_update u now r) = balance_of r.
Proof. done. Qed.

Lemma updatePaymentRecord_quiet id u : evolves quiet (on_db (updatePaymentRecord id u)).
Proof.
  intros w. unfold on_db, zoom, updatePaymentRecord. run_unfold.
  destruct (update_fields u); simpl.
  - destruct (select1 _ _); simpl; (split; [| done]).
    all: unfold book, put_db, update_where; simpl; rewrite <- list_fmap_compose;
      apply list_fmap_ext; intros i r _; simpl; destruct (by_id id r); done.
  - destruct (select1 _ _); done.
Qed.

Lemma find_or_throw_quiet id : evolves quiet (find_or_throw id).
Proof. intros w. unfold find_or_throw, on_db, zoom. run_unfold. destruct (mapRow <$> _); done. Qed.

Lemma on_db_gets_quiet {A} (f : db → A) : evolves quiet (on_db (gets f)).
Proof. intros w. done. Qed.

Lemma on_chain_quiet {A} (c : M chain A) : evolves quiet (on_chain c).
Proof. intros w. unfold on_chain, zoom. by destruct (c (get_chain w)). Qed.

Lemma on_locks_quiet {A} (f : LockManager → A * LockManager) : evolves quiet (on_locks f).
Proof. intros w. unfold on_locks. by destruct (f _). Qed.

Lemma emitStatusEvent_quiet ch r t m : evolves quiet (emitStatusEvent ch r t m).
Proof.
  intros w. unfold emitStatusEvent, publishPaymentStatusEvent. run_unfold.
  by destruct (redis_publish _ _).
Qed.

Lemma checkEscrowVelocity_quiet a : evolves quiet (checkEscrowVelocity a).
Proof.
  intros w. unfold checkEscrowVelocity. run_unfold.
  destruct (fraud_http _ _); [done |]. by destruct (_ && _).
Qed.

Lemma parseEscrowId_quiet id : evolves quiet (parseEscrowId id).
Proof. unfold parseEscrowId. evolve. Qed.

Lemma computeRemaining_quiet r : evolves quiet (computeRemaining r).
Proof. unfold computeRemaining, BigInt_throw. evolve. Qed.

Hint Resolve updatePaymentRecord_quiet find_or_throw_quiet on_db_gets_quiet on_chain_quiet
  on_locks_quiet emitStatusEvent_quiet checkEscrowVelocity_quiet parseEscrowId_quiet
  computeRemaining_quiet : evolve.

Lemma invoke_quiet c k m e l mem : evolves quiet (invoke c k m e l mem).
Proof. unfold invoke. evolve. Qed.
Hint Resolve invoke_quiet : evolve.

Lemma mark_failed_quiet id m : evolves quiet (mark_failed id m).
Proof. unfold mark_failed. evolve. Qed.
Hint Resolve mark_failed_quiet : evolve.

Lemma unlock_quiet a h : evolves quiet (unlock a h).
Proof. unfold unlock. evolve. Qed.
Hint Resolve unlock_quiet : evolve.

Lemma releaseEscrow_quiet p : evolves quiet (releaseEscrow p).
Proof. unfold releaseEscrow. evolve. Qed.

Lemma refundEscrow_quiet p : evolves quiet (refundEscrow p).
Proof. unfold refundEscrow. evolve. Qed.

Lemma disputeEscrow_quiet p : evolves quiet (disputeEscrow p).
Proof. unfold disputeEscrow. evolve. Qed.

Lemma getRemainingBalance_quiet e : evolves quiet (getRemainingBalance e).
Proof. unfold getRemainingBalance. evolve. Qed.

Lemma getEscrowStatus_quiet e : evolves quiet (getEscrowStatus e).
Proof. unfold getEscrowStatus, getContractReadSourceAddress, findPaymentRecordByEscrowId. evolve. Qed.

(** ** Opening a balance *)

Lemma createPaymentRecord_open i w :
  in_subtotalStroops i = None → in_taxAmountStroops i = None →
  pay_wf w →
  let '(r, w') := on_db (createPaymentRecord i) w in
  (w' = w ∧ ∃ e, r = inl e) ∨
  ∃ row, r = inr (mapRow row) ∧ w_rows w' = w_rows w ++ [row] ∧ w_uuids w' = S (w_uuids w) ∧
    row_id row = pg_uuid (w_uuids w) ∧ order_id row = in_orderId i ∧
    0 ≤ amount_stroops row < 2 ^ 63 ∧ released_amount_stroops row = 0 ∧ refunded_amount_stroops row = 0 ∧
    select1 (by_order (in_orderId i)) (get_db w) = None.
Proof.
  intros Hs Ht Hw. unfold on_db, zoom, createPaymentRecord. rewrite Hs, Ht. simpl.
  unfold check_tax_breakdown, check_tax_rate, insert_row, cast_int8, cast_numeric, BigInt_throw.
  run_unfold.
  destruct (BigInt (in_amountStroops i)) as [z |] eqn:Hz; simpl; [| left; destruct w; eauto].
  change (Z.of_uint (Decimal.D0 Decimal.Nil)) with 0.
  destruct (z <? 0) eqn:Hneg; simpl; [left; destruct w; eauto |]. rewrite ?Hneg. simpl.
  destruct (default (Int 0) (in_taxRateBasisPoints i)) as [rate |]; simpl; [| left; destruct w; eauto].
  destruct (rate <? 0); simpl; [left; destruct w; eauto |].
  destruct (pg_int8 (in_amountStroops i)) as [a |] eqn:Ha; simpl; [| left; destruct w; eauto].
  destruct (pg_numeric (in_amountStroops i)) as [sub |]; simpl; [| left; destruct w; eauto].
  destruct (pg_numeric "0") as [tx |]; simpl; [| left; destruct w; eauto].
  destruct (2 ^ 31 - 1 <? rate); simpl; [left; destruct w; eauto |].
  destruct (sub <? tx); simpl; [left; destruct w; eauto |].
  destruct (negb _); simpl; [left; destruct w; eauto |].
  destruct (select1 _ _) eqn:Hsel; simpl; [left; destruct w; eauto |].
  right. eexists. split; [done |]. simpl.
  pose proof (pg_int8_range _ _ Ha) as Hr. pose proof (pg_int8_agree _ _ _ Ha Hz) as ->.
  unfold int8_ok in Hr. repeat split; try done; lia.
Qed.

Lemma createPaymentRecord_refines i :
  in_subtotalStroops i = None → in_taxAmountStroops i = None →
  evolves refines (on_db (createPaymentRecord i)).
Proof.
  intros Hs Ht w Hw. pose proof (createPaymentRecord_open i w Hs Ht Hw) as H.
  destruct (on_db (createPaymentRecord i) w) as [r w']. simpl.
  destruct H as [[-> _] | (row & _ & Hrows & Hu & Hid & Hoid & Ha & Hrel & Href & Hnone)].
  { split; [done | apply rtc_refl]. }
  assert (book w' = book w ++ [Balance (pg_uuid (w_uuids w)) (in_orderId i) (amount_stroops row) 0 0])
    as Hl.
  { unfold book. rewrite Hrows, fmap_app. simpl. unfold balance_of. by rewrite Hid, Hoid, Hrel, Href. }
  destruct Hw as [(Hid' & Ho' & Hb) Hk].
  assert (pg_uuid (w_uuids w) ∉ (b_id <$> book w)) as Hfresh.
  { rewrite <- ledger_ids. intros (r' & He & Hr')%list_elem_of_fmap.
    destruct (Hk _ Hr') as (k & Hlt & Hrk). rewrite Hrk in He. apply pg_uuid_inj in He. lia. }
  assert (in_orderId i ∉ (b_order <$> book w)) as Hofresh.
  { unfold book. rewrite <- list_fmap_compose. intros (r' & He & Hr')%list_elem_of_fmap. simpl in He.
    eapply find_None in Hnone; [| exact Hr']. unfold by_order in Hnone.
    apply String.eqb_neq in Hnone. congruence. }
  split; [| rewrite Hl; by apply rtc_once, step_open].
  split.
  - rewrite Hl. split; [| split]; rewrite ?fmap_app; simpl.
    + apply NoDup_app. split; [done |]. split; [| apply NoDup_singleton].
      intros x Hx ->%list_elem_of_singleton. done.
    + apply NoDup_app. split; [done |]. split; [| apply NoDup_singleton].
      intros x Hx ->%list_elem_of_singleton. done.
    + apply Forall_app. split; [done |]. apply Forall_singleton. unfold balance_ok. simpl. lia.
  - intros r' Hr'. rewrite Hrows in Hr'. rewrite Hu. apply elem_of_app in Hr' as [Hr' | Hr'].
    + destruct (Hk _ Hr') as (k & ? & ?). exists k. split; [lia | done].
    + apply list_elem_of_singleton in Hr' as ->. exists (w_uuids w). split; [lia | done].
Qed.

Lemma fundEscrow_refines p : evolves refines (fundEscrow p).
Proof.
  unfold fundEscrow, findPaymentRecordByOrderId. apply evolves_bind; [apply _ | |].
  { apply evolves_quiet_refines. evolve. }
  intros [r |]; [evolve |]. apply evolves_bind; [apply _ | |].
  { apply evolves_quiet_refines. evolve. }
  intros []; [evolve |]. cbv zeta. apply evolves_bind; [apply _ | |].
  { apply evolves_quiet_refines. evolve. }
  intros acq. apply evolves_bind; [apply _ | |].
  { by apply createPaymentRecord_refines. }
  intros record. apply evolves_quiet_refines. evolve.
Qed.

(** ** Paying out of a balance *)

(** The balance of record [id] became [f] of it, the others are unchanged. *)
Definition paid (id : string) (f : balance → balance) (w w' : pworld) : Prop :=
  ∃ i b, book w !! i = Some b ∧ b_id b = id ∧ book w' = <[i := f b]> (book w) ∧
         w_uuids w' = w_uuids w.

Lemma paid_quiet_r id f w1 w2 w3 : paid id f w1 w2 → quiet w2 w3 → paid id f w1 w3.
Proof.
  intros (i & b & Hi & Hb & Hl & Hu) [Hq1 Hq2]. exists i, b. repeat split; [done | done | |]; congruence.
Qed.

Lemma paid_quiet_l id f w1 w2 w3 : quiet w1 w2 → paid id f w2 w3 → paid id f w1 w3.
Proof.
  intros [Hq1 Hq2] (i & b & Hi & Hb & Hl & Hu). exists i, b. rewrite Hq1 in Hi, Hl.
  repeat split; [done | done | done |]; congruence.
Qed.

Lemma ledger_lookup_row w i b :
  book w !! i = Some b → ∃ row, w_rows w !! i = Some row ∧ balance_of row = b.
Proof. unfold book. rewrite list_lookup_fmap. destruct (w_rows w !! i); naive_solver. Qed.

Lemma rows_unique w : pay_wf w → NoDup (row_id <$> w_rows w).
Proof. intros [[H _] _]. by rewrite ledger_ids. Qed.

Lemma by_id_spec row y : by_id (row_id row) y = true ↔ row_id y = row_id row.
Proof. unfold by_id. by rewrite String.eqb_eq. Qed.

Lemma select_by_id w i row :
  pay_wf w → w_rows w !! i = Some row → select1 (by_id (row_id row)) (get_db w) = Some row.
Proof. intros Hw Hi. eapply find_unique; [by apply rows_unique | done | apply by_id_spec]. Qed.

(** A delta the coordinator passes: absent, or the text of an integer. *)
Definition delta_reads (o : option string) (x : Z) : Prop :=
  match o with Some s => BigInt s = Some x | None => x = 0 end.

Lemma cast_delta_reads o x d :
  delta_reads o x → cast_delta o d = (inr x, d) ∨ ∃ e, cast_delta o d = (inl e, d).
Proof.
  unfold delta_reads, cast_delta, cast_int8. run_unfold. destruct o as [s |]; [| naive_solver].
  intros Hs. destruct (pg_int8 s) as [z |] eqn:Hz; [| eauto].
  left. by rewrite (pg_int8_agree _ _ _ Hz Hs).
Qed.

Lemma increment_run w i row delta rel ref :
  pay_wf w → w_rows w !! i = Some row → delta_fields delta = true →
  delta_reads (releasedDelta delta) rel → delta_reads (refundedDelta delta) ref →
  let '(r, w') := on_db (incrementPaymentRecordAmounts (row_id row) delta) w in
  (w' = w ∧ ∃ e, r = inl e) ∨
  (let row' := apply_delta rel ref (delta_status delta) (w_now w) row in
   r = inr (mapRow row') ∧ w_rows w' = <[i := row']> (w_rows w) ∧ w_uuids w' = w_uuids w).
Proof.
  intros Hw Hi Hf Hrel Href. unfold on_db, zoom, incrementPaymentRecordAmounts. rewrite Hf.
  destruct (cast_delta_reads _ _ (get_db w) Hrel) as [Hc1 | [e He]].
  2: { rewrite (bind_run_err _ _ _ _ _ He). left. destruct w; eauto. }
  rewrite (bind_run _ _ _ _ _ Hc1).
  destruct (cast_delta_reads _ _ (get_db w) Href) as [Hc2 | [e He]].
  2: { rewrite (bind_run_err _ _ _ _ _ He). left. destruct w; eauto. }
  rewrite (bind_run _ _ _ _ _ Hc2). run_unfold. rewrite (select_by_id w i row Hw Hi).
  destruct (_ || _); simpl; [left; destruct w; eauto |].
  assert (NoDup (row_id <$> <[i := apply_delta rel ref (delta_status delta) (w_now w) row]> (w_rows w))) as Hnd.
  { rewrite list_fmap_insert. simpl. rewrite list_insert_id; [by apply rows_unique |].
    by rewrite list_lookup_fmap, Hi. }
  unfold select1, update_where. simpl.
  rewrite (fmap_update_unique row_id (by_id (row_id row)) _ _ i row (rows_unique w Hw) Hi (by_id_spec row)).
  rewrite (find_unique row_id _ _ i (apply_delta rel ref (delta_status delta) (w_now w) row) Hnd).
  - simpl. right. done.
  - apply list_lookup_insert_eq. by eapply lookup_lt_Some.
  - intros y. simpl. apply by_id_spec.
Qed.

Lemma increment_paid w i row delta rel ref :
  pay_wf w → w_rows w !! i = Some row → delta_fields delta = true →
  delta_reads (releasedDelta delta) rel → delta_reads (refundedDelta delta) ref →
  let '(r, w') := on_db (incrementPaymentRecordAmounts (row_id row) delta) w in
  (w' = w ∧ ∃ e, r = inl e) ∨
  (paid (row_id row) (λ b, pay_release rel (pay_refund ref b)) w w' ∧ ∃ v, r = inr v).
Proof.
  intros Hw Hi Hf Hrel Href. pose proof (increment_run w i row delta rel ref Hw Hi Hf Hrel Href) as H.
  destruct (on_db _ w) as [r w']. destruct H as [H | (-> & Hr & Hu)]; [by left |]. right.
  split; [| eauto]. exists i, (balance_of row).
  split; [unfold book; by rewrite list_lookup_fmap, Hi |]. split; [done |].
  split; [| done]. unfold book. by rewrite Hr, list_fmap_insert.
Qed.

(** The shape shared by the partial refund and release: a quiet on-chain call, a
    continuation that may pay out once, and a quiet handler. *)
Lemma try_payout {A B} (c : M pworld B) (k : B → M pworld A) h id f w :
  evolves quiet c → (∀ e, evolves quiet (h e)) →
  (∀ b w1, quiet w w1 → quiet w1 (k b w1).2 ∨ paid id f w1 (k b w1).2) →
  let w' := (try_catch (c ≫= k) h w).2 in quiet w w' ∨ paid id f w w'.
Proof.
  intros Hc Hh Hk. specialize (Hc w). simpl. unfold try_catch, mbind, M_bind.
  destruct (c w) as [[e | b] w1]; simpl in *.
  - left. etrans; [exact Hc | apply Hh].
  - specialize (Hk b w1 Hc). destruct (k b w1) as [[e | a] w2]; simpl in *.
    + destruct Hk as [Hk | Hk].
      * left. etrans; [exact Hc |]. etrans; [exact Hk | apply Hh].
      * right. eapply paid_quiet_l; [exact Hc |]. eapply paid_quiet_r; [exact Hk | apply Hh].
    + destruct Hk; [left; by etrans | right; by eapply paid_quiet_l].
Qed.

Lemma payout_then_quiet {A B} (c : M pworld B) (k : B → M pworld A) id f w1 :
  (let '(r, w2) := c w1 in (w2 = w1 ∧ ∃ e, r = inl e) ∨ (paid id f w1 w2 ∧ ∃ v, r = inr v)) →
  (∀ b, evolves quiet (k b)) →
  quiet w1 ((c ≫= k) w1).2 ∨ paid id f w1 ((c ≫= k) w1).2.
Proof.
  intros Hc Hk. unfold mbind, M_bind. destruct (c w1) as [r w2].
  destruct Hc as [[-> [e ->]] | [Hp [v ->]]]; [by left |].
  right. eapply paid_quiet_r; [exact Hp | apply Hk].
Qed.

Lemma lookup_after_quiet w w1 i b :
  quiet w w1 → book w !! i = Some b → ∃ row1, w_rows w1 !! i = Some row1 ∧ balance_of row1 = b.
Proof. intros [Hl _] Hi. apply ledger_lookup_row. by rewrite Hl. Qed.

Lemma book_lookup w i row : w_rows w !! i = Some row → book w !! i = Some (balance_of row).
Proof. intros H. unfold book. by rewrite list_lookup_fmap, H. Qed.

Lemma partialRefund_execute_paid p w i row remaining x :
  pay_wf w → book w !! i = Some (balance_of row) → BigInt (pf_amountStroops p) = Some x →
  let w' := (partialRefund_execute p (mapRow row) remaining x w).2 in
  quiet w w' ∨ paid (row_id row) (pay_refund x) w w'.
Proof.
  intros Hw Hi Hx. unfold partialRefund_execute. apply try_payout.
  - evolve.
  - intros e. evolve.
  - intros tx w1 Hq. destruct (negb (success tx)).
    + left. by_evolve.
    + apply payout_then_quiet; [| intros; evolve].
      destruct (lookup_after_quiet _ _ _ _ Hq Hi) as (row1 & Hi1 & Hb).
      assert (row_id row1 = row_id row) as Hid by (apply (f_equal b_id) in Hb; done).
      simpl. rewrite <- Hid.
      pose proof (increment_paid w1 i row1
        {| releasedDelta := None; refundedDelta := Some (pf_amountStroops p);
           delta_status := if (remaining - x =? 0) && String.eqb (dec (released_amount_stroops row)) "0"
                           then Some refunded else None |} 0 x
        (quiet_wf _ _ Hq Hw) Hi1 eq_refl eq_refl Hx) as H.
      destruct (on_db _ w1) as [r w2]. destruct H as [H | [(j & b & ? & ? & ? & ?) ?]]; [by left | right].
      split; [| done]. exists j, b. repeat split; [done | done | | done].
      unfold pay_release, pay_refund in *. simpl in *. by rewrite Z.add_0_r in *.
Qed.

Lemma partialRelease_execute_paid p w i row remaining x :
  pay_wf w → book w !! i = Some (balance_of row) → BigInt (pl_amountStroops p) = Some x →
  let w' := (partialRelease_execute p (mapRow row) remaining x w).2 in
  quiet w w' ∨ paid (row_id row) (pay_release x) w w'.
Proof.
  intros Hw Hi Hx. unfold partialRelease_execute. apply try_payout.
  - evolve.
  - intros e. evolve.
  - intros tx w1 Hq. destruct (negb (success tx)).
    + left. by_evolve.
    + apply payout_then_quiet; [| intros; evolve].
      destruct (lookup_after_quiet _ _ _ _ Hq Hi) as (row1 & Hi1 & Hb).
      assert (row_id row1 = row_id row) as Hid by (apply (f_equal b_id) in Hb; done).
      simpl. rewrite <- Hid.
      pose proof (increment_paid w1 i row1
        {| releasedDelta := Some (pl_amountStroops p); refundedDelta := None;
           delta_status := if (remaining - x =? 0) && String.eqb (dec (refunded_amount_stroops row)) "0"
                           then Some released else None |} x 0
        (quiet_wf _ _ Hq Hw) Hi1 eq_refl Hx eq_refl) as H.
      destruct (on_db _ w1) as [r w2]. destruct H as [H | [(j & b & ? & ? & ? & ?) ?]]; [by left | right].
      split; [| done]. exists j, b. repeat split; [done | done | | done].
      unfold pay_release, pay_refund in *. simpl in *. by rewrite Z.add_0_r in *.
Qed.

(** Paying at most the remaining amount is a step of the specification. *)
Lemma paid_refines id f x w w' :
  (f = pay_refund x ∨ f = pay_release x) →
  (∀ b, b ∈ book w → b_id b = id → 0 < x ≤ b_remaining b) →
  paid id f w w' → refines w w'.
Proof.
  intros Hf Hx (i & b & Hi & Hb & Hl & Hu) [(Hnd & Hno & Hok) Hk].
  assert (b ∈ book w) as Hin by (by eapply list_elem_of_lookup_2). specialize (Hx b Hin Hb).
  assert (b_id (f b) = b_id b ∧ b_order (f b) = b_order b ∧ (balance_ok b → balance_ok (f b))) as (Hfi & Hfo & Hfk).
  { unfold balance_ok, b_remaining in *. destruct Hf as [-> | ->]; simpl; repeat split; lia. }
  assert (∀ A (g : balance → A), g (f b) = g b → g <$> book w' = g <$> book w) as Hsame.
  { intros A g Hg. rewrite Hl, list_fmap_insert, Hg. apply list_insert_id.
    by rewrite list_lookup_fmap, Hi. }
  split.
  - split; [split; [| split] |].
    + by rewrite (Hsame _ b_id Hfi).
    + by rewrite (Hsame _ b_order Hfo).
    + rewrite Hl. apply Forall_insert; [done |]. apply Hfk. rewrite Forall_forall in Hok. auto.
    + intros r Hr. apply (list_elem_of_fmap_2 row_id) in Hr.
      rewrite ledger_ids, (Hsame _ b_id Hfi), <- ledger_ids in Hr.
      apply list_elem_of_fmap in Hr as (r' & -> & Hr'). rewrite Hu. auto.
  - rewrite Hl. apply rtc_once. destruct Hf as [-> | ->]; by econstructor.
Qed.

(** The record the lookups by escrow id answer with: [row], at position [i]. *)
Definition first_escrow (e : string) (w : pworld) (i : nat) (row : PaymentRecordRow) : Prop :=
  w_rows w !! i = Some row ∧ by_escrow e row = true ∧
  ∀ j y, (j < i)%nat → w_rows w !! j = Some y → by_escrow e y = false.

Lemma find_or_throw_run e w :
  (∃ i row, first_escrow e w i row ∧ find_or_throw e w = (inr (mapRow row), w)) ∨
  (select1 (by_escrow e) (get_db w) = None ∧
   find_or_throw e w = (inl (Error ("Payment record not found for escrow " +:+ e)), w)).
Proof.
  unfold find_or_throw, on_db, zoom, findPaymentRecordByEscrowId. run_unfold.
  destruct (select1 _ _) as [row |] eqn:H; simpl; [left | right; by destruct w].
  apply find_first in H as [i Hi]. exists i, row. split; [exact Hi |]. by destruct w.
Qed.

Lemma computeRemaining_run {S} row (s : S) :
  computeRemaining (mapRow row) s = (inr (b_remaining (balance_of row)), s).
Proof.
  unfold computeRemaining, BigInt_throw. run_unfold. by rewrite !BigInt_dec.
Qed.

(** The guard of the partial operations: what a caller that passed it knows. *)
Definition guarded (e amount : string) (w : pworld) (i : nat) (row : PaymentRecordRow) (x : Z) : Prop :=
  w_rows w !! i = Some row ∧ first_escrow e w i row ∧ BigInt amount = Some x ∧
  0 < x ≤ b_remaining (balance_of row).

(** The common prefix of [partialRefundEscrow] and [partialReleaseEscrow]. *)
Lemma partial_guard_run {A} e amount (k : PaymentRecord → Z → Z → M pworld A) w :
  let c := (record ← find_or_throw e;
            remaining ← computeRemaining record;
            requested ← BigInt_throw amount;
            throw_if ((requested <=? 0) || (remaining <? requested))
              (InsufficientEscrowBalanceError e (dec remaining) amount);;
            k record remaining requested) in
  (∃ i row x, guarded e amount w i row x ∧
     c w = k (mapRow row) (b_remaining (balance_of row)) x w) ∨
  (∃ err, c w = (inl err, w)).
Proof.
  cbv zeta. destruct (find_or_throw_run e w) as [(i & row & He & Hf) | [_ Hf]].
  2: { right. eexists. by apply bind_run_err. }
  rewrite (bind_run _ _ _ _ _ Hf), (bind_run _ _ _ _ _ (computeRemaining_run row w)).
  unfold BigInt_throw. run_unfold. destruct (BigInt amount) as [x |] eqn:Hx; simpl; [| eauto].
  destruct (_ || _) eqn:Hg; simpl; [eauto |]. left. exists i, row, x. split; [| done].
  apply orb_false_iff in Hg as [H1 H2]. split; [apply He |]. split; [done |]. split; [done | lia].
Qed.

Lemma guarded_only e amount w i row x b :
  pay_wf w → guarded e amount w i row x → b ∈ book w → b_id b = row_id row →
  0 < x ≤ b_remaining b.
Proof.
  intros [(Hnd & _) _] (Hi & _ & _ & Hx) Hb Hid.
  apply list_elem_of_lookup in Hb as [j Hj].
  assert (i = j) as <-.
  { eapply (NoDup_lookup _ i j (row_id row) Hnd); rewrite list_lookup_fmap.
    - by rewrite (book_lookup _ _ _ Hi).
    - rewrite Hj. simpl. by rewrite Hid. }
  rewrite (book_lookup _ _ _ Hi) in Hj. by simplify_eq.
Qed.

(** [partialRefund_check] passes its guard or throws without touching the state. *)
Lemma partialRefund_check_run p w :
  (∃ i row x, guarded (pf_escrowId p) (pf_amountStroops p) w i row x ∧
     partialRefund_check p w =
       (on_db (updatePaymentRecord (row_id row) upd_clear);;
        mret (mapRow row, b_remaining (balance_of row), x)) w) ∨
  (∃ err, partialRefund_check p w = (inl err, w)).
Proof.
  apply (partial_guard_run _ _ (λ record remaining requested,
    on_db (updatePaymentRecord (pr_id record) upd_clear);; mret (record, remaining, requested))).
Qed.

(** [partialRelease_check] passes its guard or throws without touching the state. *)
Lemma partialRelease_check_run p w :
  (∃ i row x, guarded (pl_escrowId p) (pl_amountStroops p) w i row x ∧
     partialRelease_check p w =
       (on_db (updatePaymentRecord (row_id row) upd_clear);;
        mret (mapRow row, b_remaining (balance_of row), x)) w) ∨
  (∃ err, partialRelease_check p w = (inl err, w)).
Proof.
  apply (partial_guard_run _ _ (λ record remaining requested,
    on_db (updatePaymentRecord (pr_id record) upd_clear);; mret (record, remaining, requested))).
Qed.

(** Clearing the failure reason and then paying at most once. *)
Lemma clear_then_pay {A} id id' (k : () → M pworld A) i row x f e amount w :
  pay_wf w → guarded e amount w i row x → (f = pay_refund x ∨ f = pay_release x) → id = row_id row →
  (∀ w1, quiet w w1 → quiet w1 (k () w1).2 ∨ paid id f w1 (k () w1).2) →
  refines w ((on_db (updatePaymentRecord id' upd_clear);; k ()) w).2.
Proof.
  intros Hw Hg Hf -> Hk. pose proof (updatePaymentRecord_quiet id' upd_clear w) as Hq.
  unfold mbind, M_bind. destruct (on_db _ w) as [[err | v] w1]; simpl in *; [by apply quiet_refines |].
  etrans; [by apply quiet_refines |].
  destruct (Hk w1 Hq) as [H | H]; [by apply quiet_refines |].
  eapply paid_refines; [exact Hf | | exact H].
  intros b Hb Hid. destruct Hq as [Hbk _]. rewrite Hbk in Hb. by eapply guarded_only.
Qed.

Lemma partialRefundEscrow_refines p : evolves refines (partialRefundEscrow p).
Proof.
  intros w Hw. unfold partialRefundEscrow.
  destruct (partialRefund_check_run p w) as [(i & row & x & Hg & Hrun) | [err Hrun]].
  2: { rewrite (bind_run_err _ _ _ _ _ Hrun). split; [done | apply rtc_refl]. }
  rewrite (bind_run_as _ _ _ _ Hrun), bind_assoc_run.
  pose proof Hg as (Hi & He & Hx & Hb).
  apply (clear_then_pay (row_id row) (row_id row) (λ _, partialRefund_execute p (mapRow row) (b_remaining (balance_of row)) x)
    i row x (pay_refund x) (pf_escrowId p) (pf_amountStroops p) w); [done | done | by left | done | | done].
  intros w1 Hq. apply (partialRefund_execute_paid p w1 i); [by apply (quiet_wf w) | | done].
  destruct Hq as [-> _]. by apply book_lookup.
Qed.
Lemma partialReleaseEscrow_refines p : evolves refines (partialReleaseEscrow p).
Proof.
  intros w Hw. unfold partialReleaseEscrow.
  destruct (partialRelease_check_run p w) as [(i & row & x & Hg & Hrun) | [err Hrun]].
  2: { rewrite (bind_run_err _ _ _ _ _ Hrun). split; [done | apply rtc_refl]. }
  rewrite (bind_run_as _ _ _ _ Hrun), bind_assoc_run.
  pose proof Hg as (Hi & He & Hx & Hb).
  apply (clear_then_pay (row_id row) (row_id row) (λ _, partialRelease_execute p (mapRow row) (b_remaining (balance_of row)) x)
    i row x (pay_release x) (pl_escrowId p) (pl_amountStroops p) w); [done | done | by right | done | | done].
  intros w1 Hq. apply (partialRelease_execute_paid p w1 i); [by apply (quiet_wf w) | | done].
  destruct Hq as [-> _]. by apply book_lookup.
Qed.
(** ** Runs of the steps the operations are made of *)

Lemma updatePaymentRecord_run w i row u :
  pay_wf w → w_rows w !! i = Some row → update_fields u = true →
  let row' := apply_update u (w_now w) row in
  on_db (updatePaymentRecord (row_id row) u) w =
    (inr (mapRow row'), put_db (Db (<[i := row']> (w_rows w)) (w_now w) (w_uuids w)) w).
Proof.
  intros Hw Hi Hu. unfold on_db, zoom, updatePaymentRecord. rewrite Hu. run_unfold.
  unfold select1, update_where. simpl.
  rewrite (fmap_update_unique row_id (by_id (row_id row)) _ _ i row (rows_unique w Hw) Hi (by_id_spec row)).
  rewrite (find_unique row_id _ _ i (apply_update u (w_now w) row)); [done | | | intros y; apply (by_id_spec row)].
  - rewrite list_fmap_insert. simpl. rewrite list_insert_id; [by apply rows_unique |].
    by rewrite list_lookup_fmap, Hi.
  - apply list_lookup_insert_eq. by eapply lookup_lt_Some.
Qed.

(** An invocation moves the clock and the log of posts, nothing else. *)
Definition chain_only (w w' : pworld) : Prop :=
  w_rows w' = w_rows w ∧ w_uuids w' = w_uuids w ∧ w_events w' = w_events w.

#[global] Instance chain_only_preorder : PreOrder chain_only.
Proof. split; [done |]. intros ? ? ? (? & ? & ?) (? & ? & ?). repeat split; congruence. Qed.

Lemma on_chain_only {A} (c : M chain A) : evolves chain_only (on_chain c).
Proof. intros w. unfold on_chain, zoom. by destruct (c (get_chain w)). Qed.
Hint Resolve on_chain_only : evolve.

Lemma invoke_chain_only c k m e l mem : evolves chain_only (invoke c k m e l mem).
Proof. unfold invoke, parseEscrowId. evolve. Qed.

Lemma emitStatusEvent_run ch r t m w :
  emitStatusEvent ch r t m w =
    (inr (), set_events (λ l, l ++ [{| ev_channel := ch; ev_orderId := pr_orderId r;
       ev_escrowId := pr_escrowId r; ev_txHash := t; ev_status := pr_status r;
       ev_reason := m; ev_occurredAt := w_now w |}]) w) ∨
  ∃ e, emitStatusEvent ch r t m w = (inl e, w).
Proof.
  unfold emitStatusEvent, publishPaymentStatusEvent. run_unfold.
  destruct (redis_publish _ _); simpl; eauto.
Qed.

(** The common end of every failure path: the record is marked [failed] and the
    event is published, or the publication throws. *)
Lemma fail_run {A} w i row m t reason (a : PaymentRecord → A) r w' :
  pay_wf w → w_rows w !! i = Some row →
  (updated ← mark_failed (row_id row) m;
   emitStatusEvent "payment:failed" updated t reason;; mret (a updated)) w = (inr r, w') →
  ∃ row', w_rows w' = <[i := row']> (w_rows w) ∧ r = a (mapRow row') ∧
    balance_of row' = balance_of row ∧ row_status row' = failed ∧ w_uuids w' = w_uuids w.
Proof.
  intros Hw Hi. unfold mark_failed.
  rewrite (bind_run _ _ _ _ _ (updatePaymentRecord_run w i row (upd_failed m) Hw Hi eq_refl)).
  match goal with |- context [(emitStatusEvent ?ch ?u ?t ?m ≫= ?k) ?s] =>
    destruct (emitStatusEvent_run ch u t m s) as [H | [e H]] end.
  - rewrite (bind_run _ _ _ _ _ H). intros [= <- <-]. eexists. by repeat split.
  - by rewrite (bind_run_err _ _ _ _ _ H).
Qed.
End refinement.

#[export] Hint Resolve updatePaymentRecord_quiet find_or_throw_quiet on_db_gets_quiet on_chain_quiet
  on_locks_quiet emitStatusEvent_quiet checkEscrowVelocity_quiet parseEscrowId_quiet
  computeRemaining_quiet invoke_quiet mark_failed_quiet unlock_quiet : evolve.

(** ** Facts about the specification, by induction on its steps *)

(** How one balance may change: it keeps its identity and its total, and what
    was paid out of it is never taken back. *)
Definition balance_grows (b b' : balance) : Prop :=
  b_id b' = b_id b ∧ b_order b' = b_order b ∧ b_amount b' = b_amount b ∧
  b_released b ≤ b_released b' ∧ b_refunded b ≤ b_refunded b'.

#[export] Instance balance_grows_preorder : PreOrder balance_grows.
Proof.
  split; [by repeat split |]. unfold balance_grows. intros b1 b2 b3 H1 H2.
  decompose [and] H1. decompose [and] H2. repeat split; try congruence; lia.
Qed.

Definition ledger_grows (l l' : list balance) : Prop :=
  ∀ i b, l !! i = Some b → ∃ b', l' !! i = Some b' ∧ balance_grows b b'.

#[export] Instance ledger_grows_preorder : PreOrder ledger_grows.
Proof.
  split; [intros l i b H; by exists b |]. intros l1 l2 l3 H1 H2 i b Hi.
  destruct (H1 _ _ Hi) as (b2 & Hi2 & Hb2). destruct (H2 _ _ Hi2) as (b3 & Hi3 & Hb3).
  exists b3. split; [done | by etrans].
Qed.

Lemma ledger_grows_insert l i b b' :
  l !! i = Some b → balance_grows b b' → ledger_grows l (<[i := b']> l).
Proof.
  intros Hi Hb j c Hj. destruct (decide (i = j)) as [<- |].
  - exists b'. rewrite list_lookup_insert_eq by (by eapply lookup_lt_Some). by simplify_eq.
  - exists c. by rewrite list_lookup_insert_ne.
Qed.

Lemma ledger_step_grows l l' : ledger_step l l' → ledger_grows l l'.
Proof.
  destruct 1 as [l id oid a | l i b x Hi Hx | l i b x Hi Hx].
  - intros i b Hi. exists b. split; [by apply lookup_app_l_Some | done].
  - eapply ledger_grows_insert; [done |]. unfold pay_refund. repeat split; simpl; lia.
  - eapply ledger_grows_insert; [done |]. unfold pay_release. repeat split; simpl; lia.
Qed.

Lemma ledger_steps_grow l l' : rtc ledger_step l l' → ledger_grows l l'.
Proof. induction 1; [done |]. etrans; [by apply ledger_step_grows | done]. Qed.

Lemma ledger_step_ok l l' : ledger_step l l' → ledger_ok l → ledger_ok l'.
Proof.
  assert (∀ l i b b', l !! i = Some b → ledger_ok l → balance_grows b b' → balance_ok b' →
    ledger_ok (<[i := b']> l)) as Hins.
  { intros k i b b' Hi (H1 & H2 & H3) (Hid & Ho & _) Hok. split; [| split].
    - rewrite list_fmap_insert, list_insert_id; [done |]. by rewrite list_lookup_fmap, Hi, Hid.
    - rewrite list_fmap_insert, list_insert_id; [done |]. by rewrite list_lookup_fmap, Hi, Ho.
    - by apply Forall_insert. }
  intros Hs Hok. destruct Hs as [l id oid a Hid Ho Ha | l i b x Hi Hx | l i b x Hi Hx].
  - destruct Hok as (H1 & H2 & H3). unfold ledger_ok. rewrite !fmap_app. split; [| split].
    + apply NoDup_app. repeat split; [done | | apply NoDup_singleton].
      by intros y Hy ->%list_elem_of_singleton.
    + apply NoDup_app. repeat split; [done | | apply NoDup_singleton].
      by intros y Hy ->%list_elem_of_singleton.
    + apply Forall_app. split; [done |]. apply Forall_singleton. unfold balance_ok. simpl. lia.
  - pose proof Hok as (_ & _ & Hf). rewrite Forall_lookup in Hf. specialize (Hf _ _ Hi).
    unfold balance_ok, b_remaining in *.
    eapply Hins; [done | done | |]; unfold balance_grows, pay_refund, balance_ok; simpl; repeat split; lia.
  - pose proof Hok as (_ & _ & Hf). rewrite Forall_lookup in Hf. specialize (Hf _ _ Hi).
    unfold balance_ok, b_remaining in *.
    eapply Hins; [done | done | |]; unfold balance_grows, pay_release, balance_ok; simpl; repeat split; lia.
Qed.

Lemma ledger_steps_ok l l' : rtc ledger_step l l' → ledger_ok l → ledger_ok l'.
Proof. induction 1; eauto using ledger_step_ok. Qed.
