(* ===== verification/EscrowCorrect.v ===== *)
(** * Correctness of the escrow coordinator

    Histories of coordinator calls and the properties that hold of all of them:
    refinement of the ledger specification, the balance invariant, idempotence of
    funding and of the full release, and the behaviour of a partial refund on
    every branch.  The last section runs concrete histories, among them the
    interleaving of two partial refunds. *)
From S2P Require Import Prelude JsLib PaymentRecords EscrowLock ChainClient EscrowCoordinator EscrowLedger.
Local Open Scope Z_scope.

(** ** Histories *)

Inductive coord_op :=
  | OpFund (p : FundEscrowParams)
  | OpRelease (p : EscrowCallParams)
  | OpRefund (p : RefundEscrowParams)
  | OpDispute (p : EscrowCallParams)
  | OpPartialRefund (p : PartialRefundEscrowParams)
  | OpPartialRelease (p : PartialReleaseEscrowParams)
  | OpBalance (escrowId : string)
  | OpStatus (escrowId : string).

Section histories.
Context `{E : PayEnv}.

Definition ignore {S A} (c : M S A) : M S () := _ ← c; mret ().

Definition run_op (o : coord_op) : M pworld () :=
  match o with
  | OpFund p => ignore (fundEscrow p)
  | OpRelease p => ignore (releaseEscrow p)
  | OpRefund p => ignore (refundEscrow p)
  | OpDispute p => ignore (disputeEscrow p)
  | OpPartialRefund p => ignore (partialRefundEscrow p)
  | OpPartialRelease p => ignore (partialReleaseEscrow p)
  | OpBalance e => ignore (getRemainingBalance e)
  | OpStatus e => ignore (getEscrowStatus e)
  end.

(** The state after a sequence of calls; a call that throws ends with an error
    for its caller and the next one starts from the state it left. *)
Definition calls (ops : list coord_op) (w : pworld) : pworld :=
  foldl (λ w o, (run_op o w).2) w ops.
End histories.

(** The service before its first call. *)
Definition fresh_pworld (now : Z) (locks : LockManager) : pworld := PWorld [] 0 [] [] locks [] now.

Section correctness.
Context `{E : PayEnv} `{L : !PgLaws pay_pg}.

Lemma ignore_evolves {A} (c : M pworld A) : evolves refines c → evolves refines (ignore c).
Proof. intros H. unfold ignore. apply evolves_bind; [apply _ | done | intros; apply evolves_ret; apply _]. Qed.

Lemma run_op_refines o : evolves refines (run_op o).
Proof.
  destruct o; simpl; apply ignore_evolves.
  - apply fundEscrow_refines.
  - apply evolves_quiet_refines, releaseEscrow_quiet.
  - apply evolves_quiet_refines, refundEscrow_quiet.
  - apply evolves_quiet_refines, disputeEscrow_quiet.
  - apply partialRefundEscrow_refines.
  - apply partialReleaseEscrow_refines.
  - apply evolves_quiet_refines, getRemainingBalance_quiet.
  - apply evolves_quiet_refines, getEscrowStatus_quiet.
Qed.

Lemma calls_refines ops w : refines w (calls ops w).
Proof.
  revert w. induction ops as [| o ops IH]; intros w; [done |].
  etrans; [apply (run_op_refines o) | apply IH].
Qed.

Lemma fresh_wf now locks : pay_wf (fresh_pworld now locks).
Proof. split; [| by intros r ?%not_elem_of_nil]. split; [| split]; constructor. Qed.

(** C1. Refinement: whatever the wallet service, the RPC node, Redis, the fraud
    service and the locks answer, any sequence of coordinator calls moves the
    payment records only along steps of the ledger specification: new orders are
    opened with an unused key and an unused order id, and every payout is positive
    and at most what remains of the one balance it changes. *)
Theorem coordinator_refines ops w :
  pay_wf w → pay_wf (calls ops w) ∧ rtc ledger_step (book w) (book (calls ops w)).
Proof. apply calls_refines. Qed.

(** Whatever calls follow, a record keeps its key, order and amount, and its released
    and refunded totals never decrease. *)
Lemma payouts_grow ops w i r :
  pay_wf w → w_rows w !! i = Some r →
  ∃ r', w_rows (calls ops w) !! i = Some r' ∧ row_id r' = row_id r ∧ order_id r' = order_id r ∧
    amount_stroops r' = amount_stroops r ∧
    released_amount_stroops r ≤ released_amount_stroops r' ∧
    refunded_amount_stroops r ≤ refunded_amount_stroops r'.
Proof.
  intros Hw Hi. destruct (calls_refines ops w Hw) as [_ Hs].
  destruct (ledger_steps_grow _ _ Hs i _ (book_lookup _ _ _ Hi)) as (b' & Hb' & Hg).
  apply ledger_lookup_row in Hb' as (r' & Hr' & <-). exists r'. destruct Hg as (? & ? & ? & ? & ?).
  by repeat split.
Qed.

(** C2. What is booked.  Starting from an empty table, after any sequence of coordinator
    calls each order has one record, and the partial releases and refunds booked on a
    record are not negative and together at most the amount escrowed; whatever calls
    follow, the record keeps its place, key, order and amount, and neither total goes
    down.  Full releases and refunds book no amount and are not counted. *)
Theorem booked_payouts_bounded ops ops' now locks :
  let w := calls ops (fresh_pworld now locks) in
  NoDup (order_id <$> w_rows w) ∧
  ∀ i r, w_rows w !! i = Some r →
    0 ≤ released_amount_stroops r ∧ 0 ≤ refunded_amount_stroops r ∧
    released_amount_stroops r + refunded_amount_stroops r ≤ amount_stroops r < 2 ^ 63 ∧
    ∃ r', w_rows (calls ops' w) !! i = Some r' ∧ row_id r' = row_id r ∧ order_id r' = order_id r ∧
      amount_stroops r' = amount_stroops r ∧
      released_amount_stroops r ≤ released_amount_stroops r' ∧ refunded_amount_stroops r ≤ refunded_amount_stroops r'.
Proof.
  intros w. destruct (calls_refines ops _ (fresh_wf now locks)) as [Hw Hs]. fold w in Hw, Hs.
  apply ledger_steps_ok in Hs; [| apply (fresh_wf now locks)]. destruct Hs as (_ & Ho & Hb).
  unfold book in Ho, Hb. rewrite <- list_fmap_compose in Ho. split; [done |].
  intros i r Hi. rewrite Forall_fmap, Forall_forall in Hb.
  destruct (Hb r ltac:(by eapply list_elem_of_lookup_2)) as (H1 & H2 & H3).
  split; [exact H1 |]. split; [exact H2 |]. split; [exact H3 |]. by apply payouts_grow.
Qed.
(** ** Partial refunds *)

(** C37. A partial refund that is not positive or exceeds what remains is rejected
    with [InsufficientEscrowBalanceError] before anything happens: no record is
    written, nothing is posted to the wallet service and no event is published. *)
Theorem partialRefund_rejects p w row x :
  select1 (by_escrow (pf_escrowId p)) (get_db w) = Some row →
  BigInt (pf_amountStroops p) = Some x →
  x ≤ 0 ∨ b_remaining (balance_of row) < x →
  partialRefundEscrow p w =
    (inl (InsufficientEscrowBalanceError (pf_escrowId p)
            (dec (b_remaining (balance_of row))) (pf_amountStroops p)), w).
Proof.
  intros Hsel Hx Hbad. unfold partialRefundEscrow, partialRefund_check.
  assert (find_or_throw (pf_escrowId p) w = (inr (mapRow row), w)) as Hf.
  { unfold find_or_throw, on_db, zoom, findPaymentRecordByEscrowId. run_unfold.
    rewrite Hsel. by destruct w. }
  apply bind_run_err. rewrite (bind_run _ _ _ _ _ Hf), (bind_run _ _ _ _ _ (computeRemaining_run row w)).
  unfold BigInt_throw. rewrite Hx. run_unfold.
  assert ((x <=? 0) || (b_remaining (balance_of row) <? x) = true) as ->; [| done].
  apply orb_true_iff. lia.
Qed.

(** What [partialRefundEscrow] reports and leaves behind for the record [row] at
    position [i] of [w]: the refund happened and is recorded, or the record is
    marked [failed]. *)
Definition refund_recorded (p : PartialRefundEscrowParams) (w : pworld) i row x r w' : Prop :=
  let rest := b_remaining (balance_of row) - x in
  px_status r = "partial_refunded" ∧ px_moved r = pf_amountStroops p ∧ px_remaining r = dec rest ∧
  book w' = <[i := pay_refund x (balance_of row)]> (book w) ∧
  (row_status <$> w_rows w' !! i =
     Some (if (rest =? 0) && (released_amount_stroops row =? 0) then refunded else row_status row)) ∧
  ∃ ev, w_events w' = w_events w ++ [ev] ∧ ev_channel ev = "payment:partial_refunded".

Definition refund_failed (w : pworld) i row x r w' : Prop :=
  px_status r = "failed" ∧ px_moved r = "0" ∧
  px_remaining r = dec (b_remaining (balance_of row)) ∧
  (row_status <$> w_rows w' !! i = Some failed) ∧
  (book w' = book w ∨ book w' = <[i := pay_refund x (balance_of row)]> (book w)).

Lemma row_failed (w w' : pworld) i row row0 :
  w_rows w !! i = Some row0 → w_rows w' = <[i := row]> (w_rows w) → row_status row = failed →
  row_status <$> w_rows w' !! i = Some failed.
Proof.
  intros Hi -> Hs. rewrite list_lookup_insert_eq by (by eapply lookup_lt_Some). simpl. by rewrite Hs.
Qed.

Lemma book_same (w w' : pworld) i row row0 :
  w_rows w !! i = Some row0 → w_rows w' = <[i := row]> (w_rows w) → balance_of row = balance_of row0 →
  book w' = book w.
Proof.
  intros Hi Hr Hb. unfold book. rewrite Hr, list_fmap_insert, Hb. apply list_insert_id.
  by rewrite list_lookup_fmap, Hi.
Qed.
Lemma on_db_events {A} (c : M db A) w r w' : on_db c w = (r, w') → w_events w' = w_events w.
Proof. unfold on_db, zoom. destruct (c (get_db w)). by intros [= <- <-]. Qed.

(** [w1] is [w] up to columns of [row], at position [i], that carry neither money
    nor status; [row1] is the row there now. *)
Record same_row (w : pworld) (i : nat) (row : PaymentRecordRow) (w1 : pworld) (row1 : PaymentRecordRow) : Prop := {
  sr_lookup : w_rows w1 !! i = Some row1;
  sr_balance : balance_of row1 = balance_of row;
  sr_status : row_status row1 = row_status row;
  sr_book : book w1 = book w;
  sr_events : w_events w1 = w_events w;
  sr_uuids : w_uuids w1 = w_uuids w
}.

Lemma same_row_wf w i row w1 row1 : same_row w i row w1 row1 → pay_wf w → pay_wf w1.
Proof. intros []. apply quiet_wf. by split. Qed.

Lemma same_row_id w i row w1 row1 : same_row w i row w1 row1 → row_id row1 = row_id row.
Proof. intros [_ H _ _ _ _]. by apply (f_equal b_id) in H. Qed.

Lemma same_row_clear w i row :
  pay_wf w → w_rows w !! i = Some row →
  ∃ v w1 row1, on_db (updatePaymentRecord (row_id row) upd_clear) w = (inr v, w1) ∧ same_row w i row w1 row1.
Proof.
  intros Hw Hi. eexists _, _, (apply_update upd_clear (w_now w) row).
  split; [by apply updatePaymentRecord_run |].
  assert (i < length (w_rows w))%nat by (by eapply lookup_lt_Some).
  split; try done; [by apply list_lookup_insert_eq |]. by eapply book_same.
Qed.

Lemma same_row_invoke w i row w1 row1 c k m e l mem o w2 :
  same_row w i row w1 row1 → invoke c k m e l mem w1 = (o, w2) → same_row w i row w2 row1.
Proof.
  intros [] Hinv. pose proof (invoke_chain_only c k m e l mem w1) as (Hr & Hu & He).
  rewrite Hinv in Hr, Hu, He. simpl in *.
  split; unfold book in *; rewrite ?Hr; congruence.
Qed.

(** The two endings of a failure: the record is marked [failed]. *)
Lemma refund_fail_run w i row w1 row1 x (a : PartialResult) m t reason r w' :
  pay_wf w1 → w_rows w1 !! i = Some row1 → row_id row1 = row_id row →
  (book w1 = book w ∨ book w1 = <[i := pay_refund x (balance_of row)]> (book w)) →
  px_status a = "failed" → px_moved a = "0" → px_remaining a = dec (b_remaining (balance_of row)) →
  (updated ← mark_failed (row_id row) m;
   emitStatusEvent "payment:failed" updated t reason;; mret a) w1 = (inr r, w') →
  refund_failed w i row x r w'.
Proof.
  intros Hw Hi Hid Hbk H1 H2 H3. rewrite <- Hid. intros Hrun.
  apply (fail_run w1 i row1 m t reason (λ _, a)) in Hrun as (row' & Hr & -> & Hb & Hs & _); [| done | done].
  repeat split; [done | done | done | by eapply row_failed |]. by rewrite (book_same _ _ _ _ _ Hi Hr Hb).
Qed.

(** The increment of the refunded amount and the publication that follows it. *)
Lemma refund_payout_run p w i row w2 row2 x tx o w' :
  pay_wf w2 → same_row w i row w2 row2 → BigInt (pf_amountStroops p) = Some x →
  let remaining := b_remaining (balance_of row) in
  (updated ← on_db (incrementPaymentRecordAmounts (row_id row) {|
     releasedDelta := None; refundedDelta := Some (pf_amountStroops p);
     delta_status := if (remaining - x =? 0) && String.eqb (dec (released_amount_stroops row)) "0"
                     then Some refunded else None |});
   emitStatusEvent "payment:partial_refunded" updated (Some (hash tx)) (Some (pf_reason p));;
   mret {| px_txHash := hash tx; px_ledger := ledger tx; px_status := "partial_refunded";
           px_party := buyer_address row; px_moved := pf_amountStroops p;
           px_remaining := dec (remaining - x) |}) w2 = (o, w') →
  (∃ r, o = inr r ∧ refund_recorded p w i row x r w') ∨
  (∃ e row', o = inl e ∧ w_rows w' !! i = Some row' ∧ row_id row' = row_id row ∧
     (book w' = book w ∨ book w' = <[i := pay_refund x (balance_of row)]> (book w)) ∧
     w_uuids w' = w_uuids w2).
Proof.
  intros Hw2 Hsr Hx. pose proof (same_row_id _ _ _ _ _ Hsr) as Hid. destruct Hsr as [Hi2 Hb Hs Hbk Hev Hu2].
  cbv zeta. rewrite <- Hid, dec_eq_0.
  set (st := if (b_remaining (balance_of row) - x =? 0) && (released_amount_stroops row =? 0)
             then Some refunded else None). intros Hrun.
  pose proof (increment_run w2 i row2
    {| releasedDelta := None; refundedDelta := Some (pf_amountStroops p); delta_status := st |}
    0 x Hw2 Hi2 eq_refl eq_refl Hx) as H.
  apply bind_cases in Hrun as [(e & Hrun & ->) | (upd & w3 & Hinc & Hrun)].
  { rewrite Hrun in H. destruct H as [[-> _] | [? _]]; [| done]. right. exists e, row2. by auto 10. }
  rewrite Hinc in H. destruct H as [[_ [? ?]] | (Hupd & Hr3 & Hu3)]; [done |]. injection Hupd as ->. simpl in Hr3.
  assert (i < length (w_rows w2))%nat as Hlt by (by eapply lookup_lt_Some).
  set (row3 := apply_delta 0 x st (w_now w2) row2) in *.
  assert (balance_of row3 = pay_refund x (balance_of row)) as Hb3.
  { rewrite <- Hb. unfold balance_of, pay_refund. simpl. by rewrite Z.add_0_r. }
  assert (∀ v, w_rows v = w_rows w3 → book v = <[i := pay_refund x (balance_of row)]> (book w)) as Hbk3.
  { intros v Hv. rewrite <- Hbk, <- Hb3. unfold book. by rewrite Hv, Hr3, list_fmap_insert. }
  destruct (emitStatusEvent_run "payment:partial_refunded" (mapRow row3) (Some (hash tx)) (Some (pf_reason p)) w3)
    as [He | [e He]].
  - rewrite (bind_run _ _ _ _ _ He) in Hrun. injection Hrun as <- <-. left. eexists. split; [done |].
    repeat split; [by apply Hbk3 | |].
    + simpl. rewrite Hr3, list_lookup_insert_eq by done. simpl. subst st. destruct (_ && _); [done |]. simpl. by rewrite Hs.
    + simpl. rewrite (on_db_events _ _ _ _ Hinc), Hev. eauto.
  - rewrite (bind_run_err _ _ _ _ _ He) in Hrun. injection Hrun as <- <-. right. exists e, row3.
    rewrite Hr3, list_lookup_insert_eq by done. by auto 10.
Qed.

Lemma refund_wf e amount w w' i row x :
  pay_wf w → guarded e amount w i row x → w_uuids w' = w_uuids w →
  (book w' = book w ∨ book w' = <[i := pay_refund x (balance_of row)]> (book w)) → pay_wf w'.
Proof.
  intros Hw Hg Hu [Hb | Hb]; [by apply (quiet_wf w) |]. pose proof Hg as (Hi & _).
  assert (paid (row_id row) (pay_refund x) w w') as Hp by (exists i, (balance_of row); eauto using book_lookup).
  apply (paid_refines _ _ x) in Hp; [by apply Hp | by left |].
  intros b Hin Hid. by eapply guarded_only.
Qed.

Lemma partialRefund_outcome p w r w' :
  pay_wf w → partialRefundEscrow p w = (inr r, w') →
  ∃ i row x, guarded (pf_escrowId p) (pf_amountStroops p) w i row x ∧
    (refund_recorded p w i row x r w' ∨ refund_failed w i row x r w').
Proof.
  intros Hw Hrun. unfold partialRefundEscrow in Hrun.
  destruct (partialRefund_check_run p w) as [(i & row & x & Hg & Hc) | [err Hc]].
  2: { by rewrite (bind_run_err _ _ _ _ _ Hc) in Hrun. }
  exists i, row, x. split; [done |]. pose proof Hg as (Hi & _ & Hx & Hrem).
  rewrite (bind_run_as _ _ _ _ Hc), bind_assoc_run in Hrun.
  destruct (same_row_clear w i row Hw Hi) as (v & w1 & row1 & Hclear & Hsr).
  rewrite (bind_run _ _ _ _ _ Hclear) in Hrun.
  change (partialRefund_execute p (mapRow row) (b_remaining (balance_of row)) x w1 = (inr r, w')) in Hrun.
  unfold partialRefund_execute in Hrun.
  apply try_bind_inr in Hrun as [(e & w2 & Hinv & Hh) | (tx & w2 & Hinv & Hk)];
    apply (same_row_invoke _ _ _ _ _ _ _ _ _ _ _ _ _ Hsr) in Hinv as Hsr2;
    pose proof (same_row_wf _ _ _ _ _ Hsr2 Hw) as Hw2; pose proof (same_row_id _ _ _ _ _ Hsr2) as Hid2.
  { right. destruct (String.eqb _ _); [done |].
    eapply refund_fail_run; [.. | exact Hh]; eauto using sr_lookup; by left; apply Hsr2. }
  destruct (negb (success tx)).
  - right. destruct Hk as [Hk | (e & w3 & Hk & Hh)].
    + eapply refund_fail_run; [.. | exact Hk]; eauto using sr_lookup; by left; apply Hsr2.
    + destruct (String.eqb _ _); [done |].
      assert (quiet w2 w3) as Hq.
      { apply (f_equal snd) in Hk. simpl in Hk. rewrite <- Hk. by_evolve. }
      destruct (lookup_after_quiet _ _ _ _ Hq (book_lookup _ _ _ (sr_lookup _ _ _ _ _ Hsr2)))
        as (row3 & Hi3 & Hb3). apply (f_equal b_id) in Hb3. simpl in Hb3.
      eapply (refund_fail_run w i row w3 row3); [.. | exact Hh]; try done; [by eapply quiet_wf | congruence |].
      left. destruct Hq as [-> _]. apply Hsr2.
  - destruct Hk as [Hk | (e & w3 & Hk & Hh)];
      apply (refund_payout_run p w i row w2 row1 x tx) in Hk; try done.
    + left. destruct Hk as [(r' & [= ->] & H) | (? & ? & ? & _)]; done.
    + right. destruct Hk as [(r' & ? & _) | (e' & row3 & [= <-] & Hi3 & Hid3 & Hb3 & Hu3)]; [done |].
      destruct (String.eqb _ _); [done |].
      eapply refund_fail_run; [| | | | | | | exact Hh]; eauto.
      eapply refund_wf; [exact Hw | exact Hg | | exact Hb3]. rewrite Hu3. apply Hsr2.
Qed.

(** A partial refund that returns passed the guard, and either reports success
    - then the record's refunded amount grew by exactly the amount requested, the
    reported remainder is what is left, the status becomes [refunded] exactly when
    nothing is left and nothing was ever released, and one event was published -
    or reports failure and leaves the record marked [failed]. *)
Theorem partialRefund_effect p w r w' :
  pay_wf w → partialRefundEscrow p w = (inr r, w') →
  ∃ i row x, guarded (pf_escrowId p) (pf_amountStroops p) w i row x ∧
    (refund_recorded p w i row x r w' ∨ refund_failed w i row x r w').
Proof. apply partialRefund_outcome. Qed.

(** ** Idempotence *)

Lemma on_db_find_run p w :
  on_db (gets (λ d, mapRow <$> select1 p d)) w = (inr (mapRow <$> select1 p (get_db w)), w).
Proof. unfold on_db, zoom, gets. by destruct w. Qed.

Lemma fundEscrow_again p w row :
  select1 (by_order (fp_orderId p)) (get_db w) = Some row →
  fundEscrow p w = (inr (toFundResult (mapRow row) 0), w).
Proof.
  intros H. unfold fundEscrow, findPaymentRecordByOrderId.
  rewrite (bind_run _ _ _ _ _ (on_db_find_run _ w)), H. done.
Qed.

Lemma select_by_order o w :
  o ∈ (b_order <$> book w) ↔ ∃ row, select1 (by_order o) (get_db w) = Some row.
Proof.
  unfold book. rewrite <- list_fmap_compose. split.
  - intros (row & -> & Hr)%list_elem_of_fmap.
    destruct (select1 _ _) as [row' |] eqn:Hs; [eauto |].
    eapply find_None in Hs; [| exact Hr]. unfold by_order in Hs. simpl in Hs. by rewrite String.eqb_refl in Hs.
  - intros [row Hs]. apply find_Some_lookup in Hs as [Hp [i Hi]].
    unfold by_order in Hp. apply String.eqb_eq in Hp as <-.
    apply (list_elem_of_fmap_2 (b_order ∘ balance_of)). by eapply list_elem_of_lookup_2.
Qed.

Lemma orders_persist w w' o :
  refines w w' → pay_wf w → o ∈ (b_order <$> book w) → o ∈ (b_order <$> book w').
Proof.
  intros Hr Hw. destruct (Hr Hw) as [_ Hg%ledger_steps_grow].
  intros (b & -> & Hb)%list_elem_of_fmap. apply list_elem_of_lookup in Hb as [i Hi].
  destruct (Hg _ _ Hi) as (b' & Hi' & _ & <- & _). apply list_elem_of_fmap_2. by eapply list_elem_of_lookup_2.
Qed.

(** A call that reports [funded] has a record for its order. *)
Lemma fundEscrow_has_order p w r w' :
  pay_wf w → fundEscrow p w = (inr r, w') → fr_status r = "funded" →
  fp_orderId p ∈ (b_order <$> book w').
Proof.
  intros Hw Hrun Hst. unfold fundEscrow, findPaymentRecordByOrderId in Hrun.
  rewrite (bind_run _ _ _ _ _ (on_db_find_run _ w)) in Hrun.
  destruct (select1 _ _) as [row |] eqn:Hsel; simpl in Hrun.
  { injection Hrun as _ <-. apply select_by_order. eauto. }
  apply bind_inr in Hrun as (paused & w1 & Hv & Hrun). pose proof (checkEscrowVelocity_quiet (fp_buyerAddress p) w) as Hq1.
  rewrite Hv in Hq1. simpl in Hq1. destruct paused; [injection Hrun as <- _; done |].
  apply bind_inr in Hrun as (acq & w2 & Hl & Hrun).
  pose proof (on_locks_quiet (acquireLock (fp_orderId p) ("fund:" +:+ fp_orderId p) None) w1) as Hq2.
  rewrite Hl in Hq2. simpl in Hq2. apply bind_inr in Hrun as (record & w3 & Hc & Hrun).
  assert (quiet w3 w') as [Hq3 _].
  { apply (f_equal snd) in Hrun. simpl in Hrun. rewrite <- Hrun. by_evolve. }
  match type of Hc with on_db (createPaymentRecord ?inp) _ = _ =>
    pose proof (createPaymentRecord_open inp w2 eq_refl eq_refl) as Ho end.
  rewrite Hc in Ho. destruct Ho as [[_ [? ?]] | (row & _ & Hrows & _ & _ & Hord & _)]; [| done |].
  { eapply quiet_wf; [| exact Hw]. by etrans. }
  rewrite Hq3. unfold book. rewrite Hrows, !fmap_app. apply elem_of_app. right. simpl.
  apply list_elem_of_singleton. by rewrite Hord.
Qed.

(** An order is funded once: after a funding call that reported [funded], and
    whatever calls follow, every later funding call for the same order returns the
    stored record and changes nothing - no second deposit is posted, no lock is
    taken, no event is published. *)
Theorem fund_once p w r w1 ops p' :
  pay_wf w → fundEscrow p w = (inr r, w1) → fr_status r = "funded" → fp_orderId p' = fp_orderId p →
  let w2 := calls ops w1 in
  ∃ row, order_id row = fp_orderId p ∧ fundEscrow p' w2 = (inr (toFundResult (mapRow row) 0), w2).
Proof.
  intros Hw Hrun Hst Hp. pose proof (fundEscrow_has_order p w r w1 Hw Hrun Hst) as Ho.
  pose proof (fundEscrow_refines p w Hw) as [Hw1 _]. rewrite Hrun in Hw1. simpl in Hw1.
  apply (orders_persist w1 (calls ops w1)) in Ho; [| apply calls_refines | done].
  apply select_by_order in Ho as [row Hsel]. exists row. rewrite <- Hp in *.
  split; [| by apply fundEscrow_again].
  apply find_Some_lookup in Hsel as [Hb _]. by apply String.eqb_eq.
Qed.

Lemma update_selects id u e w v w' :
  up_escrowId u = None → update_fields u = true → on_db (updatePaymentRecord id u) w = (inr v, w') →
  select1 (by_escrow e) (get_db w') =
    (λ r, if by_id id r then apply_update u (w_now w) r else r) <$> select1 (by_escrow e) (get_db w).
Proof.
  intros Hu Hf. unfold on_db, zoom, updatePaymentRecord. rewrite Hf. run_unfold.
  destruct (select1 (by_id id) _); simpl; intros [= _ <-]. unfold select1. simpl. apply find_fmap.
  intros x. destruct (by_id id x); [| done]. unfold by_escrow, apply_update. simpl. by rewrite Hu.
Qed.

Lemma find_or_throw_select e w row :
  select1 (by_escrow e) (get_db w) = Some row → find_or_throw e w = (inr (mapRow row), w).
Proof.
  intros H. unfold find_or_throw, findPaymentRecordByEscrowId.
  by rewrite (bind_run _ _ _ _ _ (on_db_find_run _ w)), H.
Qed.

Lemma select_chain_only e w w' :
  chain_only w w' → select1 (by_escrow e) (get_db w') = select1 (by_escrow e) (get_db w).
Proof. intros (Hr & _). unfold select1, get_db. simpl. by rewrite Hr. Qed.

(** The answer of [releaseEscrow] for a record that is already released. *)
Lemma releaseEscrow_again p w row h :
  select1 (by_escrow (ep_escrowId p)) (get_db w) = Some row →
  row_status row = released → release_tx_hash row = Some h → h ≠ "" →
  releaseEscrow p w = (inr {| xr_txHash := h; xr_ledger := 0; xr_status := "released";
    xr_party := seller_address row; xr_amount := dec (amount_stroops row) |}, w).
Proof.
  intros Hs Hst Hh Hne. unfold releaseEscrow. rewrite (bind_run _ _ _ _ _ (find_or_throw_select _ _ _ Hs)).
  simpl. rewrite Hst, Hh, bool_decide_true by done. simpl.
  by destruct h.
Qed.

(** A release that reports success leaves the record released, with the reported hash. *)
Lemma releaseEscrow_row p w r w1 :
  releaseEscrow p w = (inr r, w1) → xr_status r = "released" →
  ∃ row, select1 (by_escrow (ep_escrowId p)) (get_db w1) = Some row ∧ row_status row = released ∧
    release_tx_hash row = Some (xr_txHash r) ∧ xr_party r = seller_address row ∧ xr_amount r = dec (amount_stroops row).
Proof.
  intros Hrun Hst. unfold releaseEscrow in Hrun.
  apply bind_inr in Hrun as (record & w0 & Hf & Hrun).
  destruct (select1 (by_escrow (ep_escrowId p)) (get_db w)) as [row0 |] eqn:Hsel.
  2: { unfold find_or_throw, findPaymentRecordByEscrowId in Hf.
       by rewrite (bind_run _ _ _ _ _ (on_db_find_run _ w)), Hsel in Hf. }
  rewrite (find_or_throw_select _ _ _ Hsel) in Hf. injection Hf as <- <-. simpl in Hrun.
  destruct (bool_decide (row_status row0 = released) && truthy (release_tx_hash row0)) eqn:Hdone.
  { injection Hrun as <- <-. apply andb_prop in Hdone as [Hd Ht]. apply bool_decide_eq_true in Hd.
    exists row0. destruct (release_tx_hash row0); done. }
  clear Hdone. apply bind_inr in Hrun as (v & w2 & Hclear & Hrun).
  apply (update_selects _ _ (ep_escrowId p)) in Hclear; [| done | done]. rewrite Hsel in Hclear. simpl in Hclear.
  unfold by_id in Hclear. rewrite String.eqb_refl in Hclear.
  apply try_bind_inr in Hrun as [(e & w3 & _ & Hrun) | (tx & w3 & Hinv & Hrun)].
  { bind_all Hrun. by injection Hrun as <- _. }
  assert (chain_only w2 w3) as Hc.
  { apply (f_equal snd) in Hinv. simpl in Hinv. rewrite <- Hinv. apply invoke_chain_only. }
  destruct (negb (success tx)).
  { destruct Hrun as [Hrun | (e & w4 & _ & Hrun)]; bind_all Hrun; by injection Hrun as <- _. }
  destruct Hrun as [Hrun | (e & w4 & _ & Hrun)].
  2: { bind_all Hrun. by injection Hrun as <- _. }
  apply bind_inr in Hrun as (upd & w4 & Hupd & Hrun). apply bind_inr in Hrun as (u & w5 & Hem & Hrun).
  injection Hrun as <- <-.
  apply (update_selects _ _ (ep_escrowId p)) in Hupd; [| done | done].
  rewrite (select_chain_only _ _ _ Hc), Hclear in Hupd. simpl in Hupd.
  unfold by_id in Hupd. simpl in Hupd. rewrite String.eqb_refl in Hupd.
  assert (get_db w5 = get_db w4) as ->.
  { destruct (emitStatusEvent_run "payment:released" upd (Some (hash tx)) None w4) as [He | [e He]]; rewrite He in Hem;
      [by injection Hem as _ <- | done]. }
  eexists. split; [exact Hupd |]. done.
Qed.

(** A full release happens once: after a call that reported [released] with
    a transaction hash, the same call again returns the same hash, seller and
    amount and changes nothing, so no second [release] is posted. *)
Theorem release_once p w r w1 :
  releaseEscrow p w = (inr r, w1) → xr_status r = "released" → xr_txHash r ≠ "" →
  ∃ r', releaseEscrow p w1 = (inr r', w1) ∧ xr_status r' = "released" ∧ xr_txHash r' = xr_txHash r ∧
    xr_party r' = xr_party r ∧ xr_amount r' = xr_amount r.
Proof.
  intros Hrun Hst Hh. destruct (releaseEscrow_row _ _ _ _ Hrun Hst) as (row & Hsel & Hrow & Ht & Hp & Ha).
  eexists. split; [by eapply releaseEscrow_again |]. done.
Qed.

(** ** Successful payouts *)

(** A partial release that reports success paid the requested amount. *)
Lemma partialRelease_success p w r w' :
  pay_wf w → partialReleaseEscrow p w = (inr r, w') → px_status r = "partial_released" →
  ∃ i row x, guarded (pl_escrowId p) (pl_amountStroops p) w i row x ∧
    book w' = <[i := pay_release x (balance_of row)]> (book w).
Proof.
  intros Hw Hrun Hst. unfold partialReleaseEscrow in Hrun.
  destruct (partialRelease_check_run p w) as [(i & row & x & Hg & Hc) | [err Hc]].
  2: { by rewrite (bind_run_err _ _ _ _ _ Hc) in Hrun. }
  exists i, row, x. split; [done |]. pose proof Hg as (Hi & _ & Hx & Hrem).
  rewrite (bind_run_as _ _ _ _ Hc), bind_assoc_run in Hrun.
  destruct (same_row_clear w i row Hw Hi) as (v & w1 & row1 & Hclear & Hsr).
  rewrite (bind_run _ _ _ _ _ Hclear) in Hrun.
  change (partialRelease_execute p (mapRow row) (b_remaining (balance_of row)) x w1 = (inr r, w')) in Hrun.
  unfold partialRelease_execute in Hrun.
  apply try_bind_inr in Hrun as [(e & w2 & _ & Hh) | (tx & w2 & Hinv & Hk)].
  { destruct (String.eqb _ _); [done |]. bind_all Hh. by injection Hh as <- _. }
  apply (same_row_invoke _ _ _ _ _ _ _ _ _ _ _ _ _ Hsr) in Hinv as Hsr2.
  destruct (negb (success tx)).
  { destruct Hk as [Hk | (e & w3 & _ & Hk)]; [| destruct (String.eqb _ _); [done |]]; bind_all Hk; by injection Hk as <- _. }
  destruct Hk as [Hk | (e & w3 & _ & Hk)].
  2: { destruct (String.eqb _ _); [done |]. bind_all Hk. by injection Hk as <- _. }
  apply bind_inr in Hk as (upd & w3 & Hinc & Hk). apply bind_inr in Hk as (u & w4 & Hem & Hk).
  injection Hk as _ <-. simpl in Hinc. rewrite <- (same_row_id _ _ _ _ _ Hsr2) in Hinc.
  match type of Hinc with on_db (incrementPaymentRecordAmounts _ ?delta) _ = _ =>
    pose proof (increment_run w2 i row1 delta x 0 (same_row_wf _ _ _ _ _ Hsr2 Hw) (sr_lookup _ _ _ _ _ Hsr2)
      eq_refl Hx eq_refl) as H end.
  rewrite Hinc in H. destruct H as [[_ [? ?]] | (_ & Hr3 & _)]; [done |].
  assert (book w4 = book w3) as ->.
  { apply (f_equal snd) in Hem. simpl in Hem. rewrite <- Hem. apply emitStatusEvent_quiet. }
  unfold book at 1. rewrite Hr3, list_fmap_insert. fold (book w2). rewrite (sr_book _ _ _ _ _ Hsr2). f_equal.
  rewrite <- (sr_balance _ _ _ _ _ Hsr2). unfold balance_of, pay_release. simpl. by rewrite Z.add_0_r.
Qed.

Lemma partialRefund_success p w r w' :
  pay_wf w → partialRefundEscrow p w = (inr r, w') → px_status r = "partial_refunded" →
  ∃ i row x, guarded (pf_escrowId p) (pf_amountStroops p) w i row x ∧
    book w' = <[i := pay_refund x (balance_of row)]> (book w).
Proof.
  intros Hw Hrun Hst. destruct (partialRefund_outcome p w r w' Hw Hrun) as (i & row & x & Hg & [H | H]).
  - exists i, row, x. split; [done |]. by destruct H as (_ & _ & _ & H & _).
  - destruct H as [H _]. congruence.
Qed.

(** ** The escrow a record belongs to *)

(** The column of escrow ids, which only funding writes. *)
Definition same_escrows (w w' : pworld) : Prop := escrow_id <$> w_rows w' = escrow_id <$> w_rows w.

#[global] Instance same_escrows_preorder : PreOrder same_escrows.
Proof. split; [done |]. intros w1 w2 w3 H1 H2. unfold same_escrows in *. congruence. Qed.

Lemma same_escrows_rows w w' : w_rows w' = w_rows w → same_escrows w w'.
Proof. intros H. unfold same_escrows. by rewrite H. Qed.

Lemma update_same_escrows id u : up_escrowId u = None → evolves same_escrows (on_db (updatePaymentRecord id u)).
Proof.
  intros Hu w. unfold on_db, zoom, updatePaymentRecord. run_unfold. destruct (update_fields u); simpl.
  - assert (∀ d : db, same_escrows w (put_db d w) ↔ escrow_id <$> payment_records d = escrow_id <$> w_rows w) by done.
    destruct (select1 _ _); simpl; unfold same_escrows; simpl; rewrite <- list_fmap_compose;
      apply list_fmap_ext; intros j r _; simpl; destruct (by_id id r); simpl; by rewrite ?Hu.
  - by destruct (select1 _ _).
Qed.

Lemma increment_same_escrows id d : evolves same_escrows (on_db (incrementPaymentRecordAmounts id d)).
Proof.
  intros w. unfold on_db, zoom, incrementPaymentRecordAmounts, cast_delta, cast_int8. run_unfold.
  repeat (case_match; simpl in *; simplify_eq; try done);
    unfold same_escrows, update_where; simpl; rewrite <- list_fmap_compose;
    apply list_fmap_ext; intros j r _; simpl; destruct (by_id id r); done.
Qed.

Lemma invoke_same_escrows c k m e l mem : evolves same_escrows (invoke c k m e l mem).
Proof. intros w. apply same_escrows_rows. by destruct (invoke_chain_only c k m e l mem w) as [H _]. Qed.

Lemma emit_same_escrows ch r t m : evolves same_escrows (emitStatusEvent ch r t m).
Proof.
  intros w. apply same_escrows_rows. destruct (emitStatusEvent_run ch r t m w) as [-> | [e ->]]; done.
Qed.

Lemma find_or_throw_same_escrows e : evolves same_escrows (find_or_throw e).
Proof. intros w. apply same_escrows_rows. by destruct (find_or_throw_run e w) as [(? & ? & _ & ->) | [_ ->]]. Qed.

Lemma computeRemaining_same_escrows r : evolves same_escrows (computeRemaining r).
Proof. unfold computeRemaining, BigInt_throw. evolve. Qed.

Hint Resolve update_same_escrows increment_same_escrows invoke_same_escrows emit_same_escrows
  find_or_throw_same_escrows computeRemaining_same_escrows : evolve.

Lemma partialRefund_same_escrows p : evolves same_escrows (partialRefundEscrow p).
Proof.
  unfold partialRefundEscrow, partialRefund_check, partialRefund_execute, mark_failed, BigInt_throw. evolve.
Qed.

Lemma first_escrow_unique e w i j r r' : first_escrow e w i r → first_escrow e w j r' → i = j.
Proof.
  intros (Hi & Hr & Hf) (Hj & Hr' & Hf'). destruct (lt_eq_lt_dec i j) as [[Hlt | ->] | Hlt]; [| done |].
  - pose proof (Hf' _ _ Hlt Hi). congruence.
  - pose proof (Hf _ _ Hlt Hj). congruence.
Qed.

Lemma first_escrow_transfer e w w' i r :
  same_escrows w w' → first_escrow e w i r → ∃ r', first_escrow e w' i r'.
Proof.
  intros Hs (Hi & Hr & Hf).
  assert (∀ j, escrow_id <$> w_rows w' !! j = escrow_id <$> w_rows w !! j) as Hj.
  { intros j. rewrite <- !list_lookup_fmap. by rewrite Hs. }
  pose proof (Hj i) as Hji. rewrite Hi in Hji. simpl in Hji. destruct (w_rows w' !! i) as [r' |] eqn:Hi'; [| done].
  injection Hji as Hji. exists r'. split; [done |]. split; [unfold by_escrow in *; by rewrite Hji |].
  intros j y Hlt Hy. pose proof (Hj j) as Hjj. rewrite Hy in Hjj. simpl in Hjj.
  destruct (w_rows w !! j) as [y0 |] eqn:Hy0; [| done]. injection Hjj as Hjj.
  pose proof (Hf _ _ Hlt Hy0). unfold by_escrow in *. by rewrite Hjj.
Qed.
End correctness.
