(* ===== verification/EscrowExamples.v ===== *)
(** * Concrete runs of the escrow coordinator

    An environment in which every service answers (and variants in which Redis or
    a step of the interleaving fails), histories that satisfy the hypotheses of the
    theorems of [EscrowCorrect], and three behaviours of the code that its comments
    do not describe: the overdraw of two interleaved partial refunds, the balance
    left by a full release, and the report of a refund whose event could not be
    published. *)
From S2P Require Import Prelude JsLib PaymentRecords EscrowLock ChainClient EscrowCoordinator.
From S2P Require Import EscrowLedger EscrowCorrect.
Local Open Scope Z_scope.

Definition demo_pg : Pg := {|
  pg_int8 s := z ← BigInt s; if int8_okb z then Some z else None;
  pg_numeric := BigInt;
  pg_order := λ _, true;
  pg_uuid n := dec (Z.of_nat n)
|}.

#[export] Instance demo_pg_laws : PgLaws demo_pg.
Proof.
  split; simpl.
  - intros s z H. destruct (BigInt s) as [y |]; simpl in H; [| done].
    destruct (int8_okb y) eqn:Hy; simplify_eq. unfold int8_okb in Hy. unfold int8_ok. lia.
  - intros s z z' H Hz'. rewrite Hz' in H. simpl in H. destruct (int8_okb z'); by simplify_eq.
  - intros z Hz. rewrite BigInt_dec. simpl. unfold int8_ok, int8_okb in *.
    assert ((- 2 ^ 63 <=? z) && (z <? 2 ^ 63) = true) as -> by lia. done.
  - intros n m H. apply (inj dec) in H. lia.
Qed.

(** The wallet service executes every request; hashes number the requests. *)
Definition demo_chain : ChainEnv := {|
  service_token := Some "token";
  wallet_http before _ :=
    Reply 200 (Some {| api_data := Some {| hash := "tx" +:+ dec (Z.of_nat (length before)); ledger := 1; success := true |};
                       api_error := None |});
  rpc_getTransaction := λ _, inr {| rpc_success := true; rpc_returnValue := Some "7" |};
  sha256 := λ _, []
|}.

(** Redis refuses the events of the channel [down], if any. *)
Definition demo_env (down : option string) : PayEnv := {|
  pay_pg := demo_pg;
  pay_chain := demo_chain;
  redis_publish := λ _ ev,
    if bool_decide (down = Some (ev_channel ev)) then Some (Error "redis is down") else None;
  fraud_http := λ _ _, FraudReply 200 (Some false);
  ESCROW_CONTRACT_ID := None;
  read_source_address := None;
  readEscrowFromChain := λ _ _ _, inl (Error "not found")
|}.

Definition demo_start : pworld := fresh_pworld 1000 (newManager DEFAULT_LOCK_CONFIG 1000).

Definition demo_fund : FundEscrowParams := {|
  fp_orderId := "order-1"; fp_buyerAddress := "GBUYER"; fp_sellerAddress := "GSELLER";
  fp_tokenContractId := "CTOKEN"; fp_amountStroops := "100"; fp_escrowContractId := "CESCROW";
  fp_timeoutLedgers := 500 |}.

Definition demo_refund (amount : string) : PartialRefundEscrowParams := {|
  pf_escrowId := "7"; pf_escrowContractId := "CESCROW"; pf_callerAddress := "GADMIN";
  pf_amountStroops := amount; pf_reason := "damaged" |}.

Definition demo_partial_release (amount : string) : PartialReleaseEscrowParams := {|
  pl_escrowId := "7"; pl_escrowContractId := "CESCROW"; pl_callerAddress := "GADMIN";
  pl_amountStroops := amount; pl_memo := None |}.

Definition demo_release : EscrowCallParams := {|
  ep_escrowId := "7"; ep_escrowContractId := "CESCROW"; ep_callerAddress := "GADMIN" |}.

(** The state after funding one order with 100 stroops. *)
Definition demo_funded : pworld := @calls (demo_env None) [OpFund demo_fund] demo_start.

Lemma demo_funded_wf : @pay_wf (demo_env None) demo_funded.
Proof. apply (@calls_refines (demo_env None) demo_pg_laws), fresh_wf. Qed.

Definition demo_row : PaymentRecordRow :=
  Row "0" "order-1" (Some "7") "CESCROW" "GBUYER" "GSELLER" "CTOKEN" 100 funded (Some "tx0")
    None None None 0 0 None (Some 100) (Some 0) (Some 0) None 1000 1000.

(** ** Witnesses *)

Lemma coordinator_refines_witness :
  @pay_wf (demo_env None) demo_start ∧
  rtc ledger_step (book demo_start)
    (book (@calls (demo_env None)
       [OpFund demo_fund; OpPartialRefund (demo_refund "30"); OpPartialRelease (demo_partial_release "70")] demo_start)) ∧
  (b_refunded <$> book (@calls (demo_env None)
       [OpFund demo_fund; OpPartialRefund (demo_refund "30"); OpPartialRelease (demo_partial_release "70")] demo_start)) = [30].
Proof.
  split; [apply fresh_wf |]. split; [| vm_compute; reflexivity].
  apply (@coordinator_refines (demo_env None) demo_pg_laws), fresh_wf.
Defined.

Lemma partialRefund_rejects_witness :
  @partialRefundEscrow (demo_env None) (demo_refund "101") demo_funded =
    (inl (InsufficientEscrowBalanceError "7" "100" "101"), demo_funded).
Proof.
  apply (@partialRefund_rejects (demo_env None) (demo_refund "101") demo_funded demo_row 101);
    [vm_compute; reflexivity | vm_compute; reflexivity | right; vm_compute; reflexivity].
Defined.

Lemma booked_payouts_bounded_witness :
  let w := @calls (demo_env None) [OpFund demo_fund; OpPartialRefund (demo_refund "30")] demo_start in
  ∃ r, w_rows w !! 0%nat = Some r ∧ refunded_amount_stroops r = 30 ∧ released_amount_stroops r + 30 ≤ amount_stroops r.
Proof.
  intros w. destruct (w_rows w !! 0%nat) as [r |] eqn:Hr; [| by vm_compute in Hr]. exists r. split; [done |].
  assert (refunded_amount_stroops r = 30) as H30 by (vm_compute in Hr; by injection Hr as <-). split; [done |].
  destruct (@booked_payouts_bounded (demo_env None) demo_pg_laws [OpFund demo_fund; OpPartialRefund (demo_refund "30")] []
    1000 (newManager DEFAULT_LOCK_CONFIG 1000)) as [_ H].
  destruct (H 0%nat r Hr) as (_ & _ & H3 & _). rewrite H30 in H3. apply H3.
Defined.

(** A partial refund of 100 out of 100: the status becomes [refunded]. *)
Lemma partialRefund_effect_witness :
  ∃ i row x r w', @partialRefundEscrow (demo_env None) (demo_refund "100") demo_funded = (inr r, w') ∧
    x = 100 ∧ refund_recorded (demo_refund "100") demo_funded i row x r w' ∧
    row_status <$> w_rows w' !! i = Some refunded.
Proof.
  destruct (@partialRefundEscrow (demo_env None) (demo_refund "100") demo_funded) as [o w'] eqn:Hrun.
  destruct o as [e | r]; [vm_compute in Hrun; discriminate |].
  destruct (@partialRefund_effect (demo_env None) demo_pg_laws _ _ _ _ demo_funded_wf Hrun)
    as (i & row & x & (Hi & _ & Hx & _) & [H | H]).
  - exists i, row, x, r, w'. vm_compute in Hx. injection Hx as <-. split; [reflexivity |]. split; [reflexivity |].
    split; [exact H |].
    destruct i as [| i]; [| destruct i; vm_compute in Hi; discriminate].
    vm_compute in Hrun. injection Hrun as _ <-. reflexivity.
  - exfalso. destruct H as (Hf & _). vm_compute in Hrun. injection Hrun as <- _. discriminate.
Defined.

Lemma fund_once_witness :
  ∃ row, order_id row = "order-1" ∧
    @fundEscrow (demo_env None) demo_fund (@calls (demo_env None) [OpRelease demo_release] demo_funded) =
      (inr (toFundResult (mapRow row) 0), @calls (demo_env None) [OpRelease demo_release] demo_funded).
Proof.
  destruct (@fundEscrow (demo_env None) demo_fund demo_start) as [o w1] eqn:Hrun.
  assert (w1 = demo_funded) as ->.
  { change w1 with ((o, w1).2). rewrite <- Hrun. vm_compute. reflexivity. }
  destruct o as [e | r]; [vm_compute in Hrun; discriminate |].
  apply (@fund_once (demo_env None) demo_pg_laws demo_fund demo_start r demo_funded [OpRelease demo_release] demo_fund).
  - apply fresh_wf.
  - exact Hrun.
  - vm_compute in Hrun. injection Hrun as <-. reflexivity.
  - reflexivity.
Defined.

Lemma release_once_witness :
  ∃ r r' w1, @releaseEscrow (demo_env None) demo_release demo_funded = (inr r, w1) ∧
    @releaseEscrow (demo_env None) demo_release w1 = (inr r', w1) ∧ xr_txHash r' = "tx1".
Proof.
  destruct (@releaseEscrow (demo_env None) demo_release demo_funded) as [o w1] eqn:Hrun.
  destruct o as [e | r]; [vm_compute in Hrun; discriminate |].
  assert (xr_status r = "released" ∧ xr_txHash r = "tx1") as [Hs Hh].
  { vm_compute in Hrun. injection Hrun as <- _. split; reflexivity. }
  destruct (@release_once (demo_env None) demo_release demo_funded r w1 Hrun Hs
    ltac:(rewrite Hh; discriminate)) as (r' & Hr' & _ & Hh' & _).
  exists r, r', w1. split; [reflexivity |]. split; [exact Hr' |]. by rewrite Hh'.
Defined.

(** ** Interleaving *)

(** Two partial refunds whose guards both run before either pays out: the calls
    await the database and the wallet service in between. *)
Definition interleaved `{PayEnv} (p q : PartialRefundEscrowParams) : M pworld () :=
  c1 ← partialRefund_check p;
  c2 ← partialRefund_check q;
  (let '(record, remaining, requested) := c1 in partialRefund_execute p record remaining requested);;
  (let '(record, remaining, requested) := c2 in partialRefund_execute q record remaining requested);;
  mret ().

(** The guard and the increment are not atomic: run one after the other, the
    second of two refunds of 60 out of 100 is rejected, but interleaved both pass
    the guard, both are posted to the wallet service, and the record ends with 120
    refunded out of 100. *)
Theorem payout_race :
  (let w := @calls (demo_env None) [OpPartialRefund (demo_refund "60"); OpPartialRefund (demo_refund "60")] demo_funded in
   b_refunded <$> book w = [60] ∧ length (w_posted w) = 2%nat) ∧
  (let w := (@interleaved (demo_env None) (demo_refund "60") (demo_refund "60") demo_funded).2 in
   b_refunded <$> book w = [120] ∧ b_amount <$> book w = [100] ∧ length (w_posted w) = 3%nat).
Proof. vm_compute. repeat split. Qed.

(** ** Reports and balances that disagree with what happened *)

(** A full release posts the release but leaves the released amount at 0, so the
    whole amount still counts as remaining and a partial refund of all of it passes
    the guard and is posted. *)
Theorem full_release_leaves_balance :
  let w := @calls (demo_env None) [OpRelease demo_release] demo_funded in
  row_status <$> w_rows w = [released] ∧ b_remaining <$> book w = [100] ∧
  let w' := @calls (demo_env None) [OpPartialRefund (demo_refund "100")] w in
  method <$> w_posted w' = ["deposit"; "release"; "partial_refund"] ∧
  row_status <$> w_rows w' = [refunded].
Proof. vm_compute. repeat split. Qed.

(** When Redis refuses the event of an executed refund, the call reports [failed] and a
    refunded amount of 0 and marks the record [failed], although the refund was
    executed and is in the ledger. *)
Theorem unpublished_refund_reported_failed :
  let o := @partialRefundEscrow (demo_env (Some "payment:partial_refunded")) (demo_refund "30") demo_funded in
  match o.1 with inr r => px_status r = "failed" ∧ px_moved r = "0" | inl _ => False end ∧ b_refunded <$> book o.2 = [30] ∧ row_status <$> w_rows o.2 = [failed] ∧
  method <$> w_posted o.2 = ["deposit"; "partial_refund"].
Proof. vm_compute. repeat split. Qed.
