(* ===== verification/DisputeMachine.v ===== *)
(** * The dispute state machine

    apps/backend/payments/src/disputes/stateMachine.ts and the domain types and
    errors of types.ts.  Time stamps, ISO strings in the code, are milliseconds
    since the epoch. *)
From S2P Require Import Prelude JsLib.
Local Open Scope Z_scope.

(** ** types.ts *)

Inductive DisputeStatus := open | evidence_collection | negotiation | merchant_responded | decided | resolved.

#[export] Instance DisputeStatus_eq_dec : EqDecision DisputeStatus.
Proof. solve_decision. Defined.

Definition status_name (s : DisputeStatus) : string :=
  match s with
  | open => "open"
  | evidence_collection => "evidence_collection"
  | negotiation => "negotiation"
  | merchant_responded => "merchant_responded"
  | decided => "decided"
  | resolved => "resolved"
  end.

Inductive DisputeTier := tier1 | senior.

#[export] Instance DisputeTier_eq_dec : EqDecision DisputeTier.
Proof. solve_decision. Defined.

Inductive ResolutionType := full_refund | partial_refund | release_to_seller | split.

#[export] Instance ResolutionType_eq_dec : EqDecision ResolutionType.
Proof. solve_decision. Defined.

Record DisputeEvidenceEntry := {
  ee_party : string; ee_description : string; ee_files : list string; ee_submittedAt : Z
}.

Record DisputeEvidenceInput := { ei_party : string; ei_description : string; ei_files : list string }.

Record DisputeResolution := {
  rs_type : ResolutionType; rs_buyerAmount : string; rs_sellerAmount : string;
  rs_decidedBy : string; rs_decidedAt : Z
}.

Record Dispute := {
  d_id : string;
  d_escrowId : string;
  d_initiatedBy : string;
  d_reason : string;
  d_evidence : list DisputeEvidenceEntry;
  d_mediator : option string;
  d_status : DisputeStatus;
  d_createdAt : Z;
  d_updatedAt : Z;
  d_slaDeadline : Z;
  d_escalationTier : option DisputeTier;
  d_escalationEscalatedAt : option Z;
  d_resolution : option DisputeResolution
}.

Record MediationDecision := {
  md_disputeId : string; md_decision : ResolutionType; md_buyerAmount : string;
  md_sellerAmount : string; md_reasoning : string; md_mediator : string
}.

Record PartialRefundRequest := {
  rq_escrowId : string; rq_amount : string; rq_reason : string; rq_requestedBy : string;
  rq_evidence : option (list string)
}.

Definition DisputeNotFoundError (id : string) : exn :=
  Exn "DisputeNotFoundError" ("Dispute " +:+ id +:+ " not found").
Definition DisputeAlreadyResolvedError (id : string) : exn :=
  Exn "DisputeAlreadyResolvedError" ("Dispute " +:+ id +:+ " is already resolved").
Definition InvalidStateTransitionError (from to : DisputeStatus) : exn :=
  Exn "InvalidStateTransitionError"
    ("Cannot transition dispute from " +:+ quoted (status_name from) +:+ " to " +:+ quoted (status_name to)).
Definition InvalidResolutionAmountsError (m : string) : exn := Exn "InvalidResolutionAmountsError" m.

(** ** stateMachine.ts *)

Definition ORDER : list DisputeStatus :=
  [open; evidence_collection; negotiation; merchant_responded; decided; resolved].

Definition ALLOWED_TRANSITIONS (from : DisputeStatus) : list DisputeStatus :=
  match from with
  | open => [open; evidence_collection]
  | evidence_collection => [evidence_collection; negotiation]
  | negotiation => [negotiation; merchant_responded; decided]
  | merchant_responded => [merchant_responded; decided]
  | decided => [decided; resolved]
  | resolved => [resolved]
  end.

Definition isNoOpTransition (from to : DisputeStatus) : bool := bool_decide (from = to).

Definition canTransition (from to : DisputeStatus) : bool := bool_decide (to ∈ ALLOWED_TRANSITIONS from).

Definition assertTransition {S} (from to : DisputeStatus) : M S () :=
  throw_if (negb (canTransition from to)) (InvalidStateTransitionError from to).

Definition isTerminal (s : DisputeStatus) : bool := bool_decide (s = resolved).

Fixpoint indexOf (s : DisputeStatus) (l : list DisputeStatus) : Z :=
  match l with
  | [] => -1
  | x :: l' => if bool_decide (x = s) then 0
               else let i := indexOf s l' in if i <? 0 then i else i + 1
  end.

Definition stageIndex (s : DisputeStatus) : Z := indexOf s ORDER.

Record TransitionStep := { step_from : DisputeStatus; step_to : DisputeStatus }.

(** [{ from: ORDER[i], to: ORDER[i + 1] }] *)
Definition step_at (i : nat) : option TransitionStep :=
  match ORDER !! i, ORDER !! S i with
  | Some f, Some t => Some {| step_from := f; step_to := t |}
  | _, _ => None
  end.

(** The loop [for (let i = fromIndex; i < toIndex; i++)] with [n] rounds left. *)
Fixpoint plan_loop {S} (n i : nat) : M S (list TransitionStep) :=
  match n with
  | O => mret []
  | Datatypes.S n' =>
      step ← some_or_throw (step_at i) (Error "undefined stage");
      assertTransition (step_from step) (step_to step);;
      rest ← plan_loop n' (Datatypes.S i);
      mret (step :: rest)
  end.

Definition planAdvance {S} (from to : DisputeStatus) : M S (list TransitionStep) :=
  let fromIndex := stageIndex from in
  let toIndex := stageIndex to in
  if toIndex <? fromIndex then throw (InvalidStateTransitionError from to)
  else plan_loop (Z.to_nat (toIndex - fromIndex)) (Z.to_nat fromIndex).

(** ** Properties *)

(** A sequence of hops leads from [a] to [b]. *)
Fixpoint hops (a : DisputeStatus) (steps : list TransitionStep) (b : DisputeStatus) : Prop :=
  match steps with
  | [] => a = b
  | s :: steps' => step_from s = a ∧ hops (step_to s) steps' b
  end.

Definition legal_hop (s : TransitionStep) : Prop :=
  canTransition (step_from s) (step_to s) = true ∧ step_from s ≠ step_to s.

(** The states a dispute may move to, in any number of moves. *)
Definition reaches : relation DisputeStatus := rtc (λ a b, canTransition a b = true).

Lemma canTransition_stage a b : canTransition a b = true → stageIndex a ≤ stageIndex b.
Proof. destruct a, b; vm_compute; congruence. Qed.

Lemma reaches_stage a b : reaches a b → stageIndex a ≤ stageIndex b.
Proof. induction 1 as [| a b c H _ IH]; [done |]. apply canTransition_stage in H. lia. Qed.

Lemma stageIndex_inj a b : stageIndex a = stageIndex b → a = b.
Proof. destruct a, b; vm_compute; congruence. Qed.

Lemma reaches_one a b : canTransition a b = true → reaches a b.
Proof. apply (rtc_once (R := λ a b, canTransition a b = true)). Qed.

(** The lifecycle only moves forward: a dispute that can reach a status and come
    back has not moved, and [resolved] is the only status that can be reached from
    [resolved]. *)
Theorem lifecycle_forward a b :
  reaches a b → (reaches b a → a = b) ∧ (isTerminal a = true → b = a).
Proof.
  intros H. pose proof (reaches_stage _ _ H). split.
  - intros H'. apply reaches_stage in H'. apply stageIndex_inj. lia.
  - intros Ht. unfold isTerminal in Ht. apply bool_decide_eq_true in Ht. subst a.
    destruct b; vm_compute in *; congruence.
Qed.

Lemma planAdvance_run {S} from to (s : S) :
  if stageIndex to <? stageIndex from
  then planAdvance from to s = (inl (InvalidStateTransitionError from to), s)
  else ∃ steps, planAdvance from to s = (inr steps, s) ∧ hops from steps to ∧ Forall legal_hop steps ∧
         Z.of_nat (length steps) = stageIndex to - stageIndex from.
Proof.
  destruct from, to; cbv -[legal_hop]; try reflexivity;
    (eexists; split; [reflexivity |]; split; [by repeat split |]; split; [| reflexivity]);
    repeat constructor; vm_compute; congruence.
Qed.

Lemma hops_reaches a steps b : hops a steps b → Forall legal_hop steps → reaches a b.
Proof.
  revert a. induction steps as [| s steps IH]; intros a; simpl; [intros -> _; apply rtc_refl |].
  intros [<- Hh] [[Hl _] Hf]%Forall_cons. eapply rtc_l; [exact Hl | by apply IH].
Qed.

Lemma planAdvance_reaches {S} a b (s s' : S) steps : planAdvance a b s = (inr steps, s') → reaches a b.
Proof.
  intros H. pose proof (planAdvance_run a b s) as Hr. rewrite H in Hr.
  destruct (_ <? _); [done |]. destruct Hr as (steps' & _ & Hh & Hf & _). by eapply hops_reaches.
Qed.

(** [planAdvance] plans exactly the forward moves: a target behind the current
    stage is refused, any other target gets a path of legal hops, none of them
    idle, that leads from the one to the other and visits each stage between. *)
Theorem planAdvance_spec {S} from to (s : S) :
  if stageIndex to <? stageIndex from
  then planAdvance from to s = (inl (InvalidStateTransitionError from to), s)
  else ∃ steps, planAdvance from to s = (inr steps, s) ∧ hops from steps to ∧ Forall legal_hop steps ∧
         Z.of_nat (length steps) = stageIndex to - stageIndex from.
Proof. apply planAdvance_run. Qed.

Lemma lifecycle_forward_witness : reaches open negotiation ∧ (reaches negotiation open → open = negotiation).
Proof.
  assert (reaches open negotiation) as H.
  { eapply rtc_l with evidence_collection; [vm_compute; reflexivity |].
    apply rtc_once. vm_compute. reflexivity. }
  split; [exact H |]. exact (proj1 (lifecycle_forward open negotiation H)).
Defined.
