(* ===== verification/DisputeStore.v ===== *)
(** * Dispute persistence, audit log, reputation and access control

    - the [DisputeStore] interface of disputeStore.ts as a class of operations with
      its laws, and [InMemoryDisputeStore] as its instance;
    - the append-only audit log (auditLog.ts);
    - the per-address reputation (reputationStore.ts);
    - the ownership check of accessControl.ts.
    (all under apps/backend/payments/src/disputes/) *)
From S2P Require Import Prelude JsLib PaymentRecords DisputeMachine.
Local Open Scope Z_scope.

(** ** The store interface *)

Record CreateDisputeInput := {
  ci_escrowId : string; ci_orderId : option string; ci_initiatedBy : string; ci_reason : string;
  ci_slaDeadline : Z
}.

Record DisputeUpdate := {
  du_status : option DisputeStatus;
  du_mediator : option string;
  du_resolution : option DisputeResolution;
  du_resolutionError : option (option string);
  du_escalatedAt : option Z;
  du_escalationTier : option DisputeTier;
  du_escalationEscalatedAt : option Z
}.

Definition no_update : DisputeUpdate := Build_DisputeUpdate None None None None None None None.

Definition new_dispute (id : string) (i : CreateDisputeInput) (now : Z) : Dispute := {|
  d_id := id; d_escrowId := ci_escrowId i; d_initiatedBy := ci_initiatedBy i; d_reason := ci_reason i;
  d_evidence := []; d_mediator := None; d_status := open; d_createdAt := now; d_updatedAt := now;
  d_slaDeadline := ci_slaDeadline i; d_escalationTier := None; d_escalationEscalatedAt := None;
  d_resolution := None |}.

(** [update.x ?? existing.x] *)
Definition orElse {A} (u old : option A) : option A := match u with Some _ => u | None => old end.

Definition merge_update (u : DisputeUpdate) (now : Z) (d : Dispute) : Dispute := {|
  d_id := d_id d; d_escrowId := d_escrowId d; d_initiatedBy := d_initiatedBy d; d_reason := d_reason d;
  d_evidence := d_evidence d;
  d_mediator := orElse (du_mediator u) (d_mediator d);
  d_status := default (d_status d) (du_status u);
  d_createdAt := d_createdAt d; d_updatedAt := now; d_slaDeadline := d_slaDeadline d;
  d_escalationTier := orElse (du_escalationTier u) (d_escalationTier d);
  d_escalationEscalatedAt := orElse (du_escalationEscalatedAt u) (d_escalationEscalatedAt d);
  d_resolution := orElse (du_resolution u) (d_resolution d) |}.

Definition with_evidence (e : DisputeEvidenceEntry) (now : Z) (d : Dispute) : Dispute := {|
  d_id := d_id d; d_escrowId := d_escrowId d; d_initiatedBy := d_initiatedBy d; d_reason := d_reason d;
  d_evidence := d_evidence d ++ [e];
  d_mediator := d_mediator d; d_status := d_status d; d_createdAt := d_createdAt d; d_updatedAt := now;
  d_slaDeadline := d_slaDeadline d; d_escalationTier := d_escalationTier d;
  d_escalationEscalatedAt := d_escalationEscalatedAt d; d_resolution := d_resolution d |}.

(** Neither [decided] nor [resolved]. *)
Definition active (d : Dispute) : bool :=
  negb (bool_decide (d_status d = decided)) && negb (bool_decide (d_status d = resolved)).

Definition stalled_before (cutoff : Z) (d : Dispute) : bool :=
  active d && (d_createdAt d <=? cutoff) &&
  (bool_decide (d_escalationTier d = None) || bool_decide (d_escalationTier d = Some tier1)).

(** The operations every backend offers; [None] is the thrown "not found". *)
Class DisputeStore (St : Type) := {
  ds_create : CreateDisputeInput → Z → St → Dispute * St;
  ds_findById : string → St → option Dispute;
  ds_findByEscrowId : string → St → list Dispute;
  ds_update : string → DisputeUpdate → Z → St → option (Dispute * St);
  ds_addEvidence : string → DisputeEvidenceEntry → Z → St → option (Dispute * St);
  ds_findBreached : Z → St → list Dispute;
  ds_findStalled : Z → Z → St → list Dispute
}.

(** What the mediation workflow relies on. *)
Class DisputeStoreLaws (St : Type) `{DisputeStore St} := {
  ds_ok : St → Prop;
  ds_escalated : string → St → bool;
  ds_find_id id d st : ds_ok st → ds_findById id st = Some d → d_id d = id;
  ds_create_law i now st :
    ds_ok st →
    let '(d, st') := ds_create i now st in
    ds_ok st' ∧ ds_findById (d_id d) st = None ∧ d = new_dispute (d_id d) i now ∧
    (∀ id, ds_findById id st' = if decide (id = d_id d) then Some d else ds_findById id st);
  ds_update_law id u now st :
    ds_ok st →
    match ds_findById id st with
    | None => ds_update id u now st = None
    | Some d => ∃ st', ds_update id u now st = Some (merge_update u now d, st') ∧ ds_ok st' ∧
        (∀ id', ds_findById id' st' = if decide (id' = id) then Some (merge_update u now d) else ds_findById id' st) ∧
        (∀ id', ds_escalated id' st' = ds_escalated id' st || (bool_decide (id' = id) && bool_decide (is_Some (du_escalatedAt u))))
    end;
  ds_evidence_law id e now st :
    ds_ok st →
    match ds_findById id st with
    | None => ds_addEvidence id e now st = None
    | Some d => ∃ st', ds_addEvidence id e now st = Some (with_evidence e now d, st') ∧ ds_ok st' ∧
        (∀ id', ds_findById id' st' = if decide (id' = id) then Some (with_evidence e now d) else ds_findById id' st)
    end;
  ds_breached_law now st d :
    ds_ok st →
    d ∈ ds_findBreached now st ↔
      ds_findById (d_id d) st = Some d ∧ active d = true ∧ d_slaDeadline d ≤ now ∧ ds_escalated (d_id d) st = false;
  ds_stalled_law now hours st d :
    ds_ok st →
    d ∈ ds_findStalled now hours st ↔
      ds_findById (d_id d) st = Some d ∧ stalled_before (now - hours * 60 * 60 * 1000) d = true
}.

(** ** The in-memory backend *)

(** The two collections of the object; [mem_uuids] counts the identifiers drawn. *)
Record InMemoryDisputeStore := InMemory {
  mem_disputes : jsmap Dispute;
  mem_escalated : list string;
  mem_uuids : nat
}.

Section in_memory.
Context (randomUUID : nat → string).

Definition mem_create (i : CreateDisputeInput) (now : Z) (st : InMemoryDisputeStore) : Dispute * InMemoryDisputeStore :=
  let dispute := new_dispute (randomUUID (mem_uuids st)) i now in
  (dispute, InMemory (jset (d_id dispute) dispute (mem_disputes st)) (mem_escalated st) (S (mem_uuids st))).

Definition mem_findById (id : string) (st : InMemoryDisputeStore) : option Dispute := jget id (mem_disputes st).

Definition mem_findByEscrowId (escrowId : string) (st : InMemoryDisputeStore) : list Dispute :=
  List.filter (λ d, String.eqb (d_escrowId d) escrowId) (jvalues (mem_disputes st)).

Definition mem_update (id : string) (u : DisputeUpdate) (now : Z) (st : InMemoryDisputeStore)
    : option (Dispute * InMemoryDisputeStore) :=
  match jget id (mem_disputes st) with
  | None => None
  | Some existing =>
      let updated := merge_update u now existing in
      Some (updated,
            InMemory (jset id updated (mem_disputes st))
              (if bool_decide (is_Some (du_escalatedAt u)) then id :: mem_escalated st else mem_escalated st)
              (mem_uuids st))
  end.

Definition mem_addEvidence (id : string) (e : DisputeEvidenceEntry) (now : Z) (st : InMemoryDisputeStore)
    : option (Dispute * InMemoryDisputeStore) :=
  match jget id (mem_disputes st) with
  | None => None
  | Some existing =>
      let updated := with_evidence e now existing in
      Some (updated, InMemory (jset id updated (mem_disputes st)) (mem_escalated st) (mem_uuids st))
  end.

Definition mem_findBreached (now : Z) (st : InMemoryDisputeStore) : list Dispute :=
  List.filter (λ d, active d && (d_slaDeadline d <=? now) && negb (bool_decide (d_id d ∈ mem_escalated st)))
    (jvalues (mem_disputes st)).

Definition mem_findStalled (now stalledHours : Z) (st : InMemoryDisputeStore) : list Dispute :=
  let cutoff := now - stalledHours * 60 * 60 * 1000 in
  List.filter (stalled_before cutoff) (jvalues (mem_disputes st)).

Definition in_memory_store : DisputeStore InMemoryDisputeStore := {|
  ds_create := mem_create;
  ds_findById := mem_findById;
  ds_findByEscrowId := mem_findByEscrowId;
  ds_update := mem_update;
  ds_addEvidence := mem_addEvidence;
  ds_findBreached := mem_findBreached;
  ds_findStalled := mem_findStalled
|}.

(** Keys are the disputes' own ids and were drawn before. *)
Definition mem_ok (st : InMemoryDisputeStore) : Prop :=
  NoDup (jkeys (mem_disputes st)) ∧
  (∀ id d, jget id (mem_disputes st) = Some d → d_id d = id ∧ ∃ k, (k < mem_uuids st)%nat ∧ id = randomUUID k).

Context `{!Inj (=) (=) randomUUID}.

Lemma mem_values st d : mem_ok st → d ∈ jvalues (mem_disputes st) ↔ jget (d_id d) (mem_disputes st) = Some d.
Proof.
  intros [Hnd Hok]. unfold jvalues. split.
  - intros ([k d'] & -> & Hin)%list_elem_of_fmap. simpl. apply elem_jget in Hin; [| done].
    by destruct (Hok _ _ Hin) as [-> _].
  - intros H. apply jget_elem in H. apply list_elem_of_fmap. by exists (d_id d, d).
Qed.

Lemma mem_ok_set id d st e :
  mem_ok st → is_Some (jget id (mem_disputes st)) → d_id d = id →
  mem_ok (InMemory (jset id d (mem_disputes st)) e (mem_uuids st)).
Proof.
  intros [Hnd Hok] [old Hold] Hid. split; simpl; [by apply NoDup_jset |].
  intros id' d' H. rewrite jget_jset in H. case_decide as Heq; [| by apply Hok].
  subst id'. injection H as <-. split; [done |]. by destruct (Hok _ _ Hold) as [_ Hk].
Qed.

Lemma mem_ok_create i now st : mem_ok st → mem_ok (mem_create i now st).2.
Proof.
  intros [Hnd Hok]. split; simpl; [by apply NoDup_jset |].
  intros id d H. rewrite jget_jset in H. case_decide as Heq.
  - subst id. injection H as <-. split; [done |]. exists (mem_uuids st). split; [lia | done].
  - destruct (Hok _ _ H) as (? & k & ? & ?). split; [done |]. exists k. split; [lia | done].
Qed.

Lemma mem_fresh st : mem_ok st → jget (randomUUID (mem_uuids st)) (mem_disputes st) = None.
Proof.
  intros [_ Hok]. destruct (jget _ _) as [d |] eqn:H; [| done].
  destruct (Hok _ _ H) as (_ & k & Hk & Heq). apply (inj randomUUID) in Heq. lia.
Qed.

Lemma mem_filter_law p st d :
  mem_ok st → d ∈ List.filter p (jvalues (mem_disputes st)) ↔
    jget (d_id d) (mem_disputes st) = Some d ∧ p d = true.
Proof.
  intros Hok. rewrite list_elem_of_In, List.filter_In, <- list_elem_of_In, mem_values by done. done.
Qed.

#[global, program] Instance in_memory_laws : @DisputeStoreLaws InMemoryDisputeStore in_memory_store := {|
  ds_ok := mem_ok;
  ds_escalated id st := bool_decide (id ∈ mem_escalated st)
|}.
Next Obligation. intros id d st [_ Hok] H. by apply Hok in H as [? _]. Qed.
Next Obligation.
  intros i now st Hok. simpl. split; [by apply (mem_ok_create i now) |]. split; [by apply mem_fresh |].
  split; [done |]. intros id. unfold mem_findById. simpl. rewrite jget_jset. repeat case_decide; congruence.
Qed.
Next Obligation.
  intros id u now st Hok. simpl. unfold mem_findById, mem_update. destruct (jget id _) as [d |] eqn:Hd; [| done].
  eexists. split; [done |]. split; [| split].
  - apply (mem_ok_set id _ st); [done | by eexists |]. simpl. by apply Hok in Hd as [? _].
  - intros id'. simpl. rewrite jget_jset. repeat case_decide; congruence.
  - intros id'. simpl. destruct (bool_decide (is_Some _)); [| by rewrite andb_false_r, orb_false_r].
    rewrite andb_true_r. apply eq_bool_prop_intro. rewrite orb_True, !bool_decide_spec, elem_of_cons. tauto.
Qed.
Next Obligation.
  intros id e now st Hok. simpl. unfold mem_findById, mem_addEvidence. destruct (jget id _) as [d |] eqn:Hd; [| done].
  eexists. split; [done |]. split.
  - apply (mem_ok_set id _ st); [done | by eexists |]. simpl. by apply Hok in Hd as [? _].
  - intros id'. simpl. rewrite jget_jset. repeat case_decide; congruence.
Qed.
Next Obligation.
  intros now st d Hok. simpl. unfold mem_findBreached, mem_findById. rewrite mem_filter_law by done.
  rewrite !andb_true_iff, negb_true_iff, Z.leb_le. tauto.
Qed.
Next Obligation. intros now hours st d Hok. simpl. unfold mem_findStalled, mem_findById. by apply mem_filter_law. Qed.
End in_memory.

(** ** Audit log *)

(** The values the workflow puts in the free-form [details] of an entry. *)
Inductive detail := DStr (s : string) | DNum (z : Z) | DList (l : list string) | DUndefined.

Definition detail_opt (o : option string) : detail := match o with Some s => DStr s | None => DUndefined end.

Record AuditLogEntry := {
  au_disputeId : option string;
  au_escrowId : string;
  au_eventType : string;
  au_actor : option string;
  au_details : list (string * detail);
  au_createdAt : Z
}.

(** [InMemoryAuditLogStore.append]: [recordAuditEvent] swallows the errors of other
    backends, this one has none. *)
Definition audit_append (disputeId : option string) (escrowId eventType : string) (actor : option string)
    (details : list (string * detail)) (now : Z) (entries : list AuditLogEntry) : list AuditLogEntry :=
  entries ++ [{| au_disputeId := disputeId; au_escrowId := escrowId; au_eventType := eventType;
                 au_actor := actor; au_details := details; au_createdAt := now |}].

Definition listForDispute (disputeId : string) (entries : list AuditLogEntry) : list AuditLogEntry :=
  List.filter (λ e, bool_decide (au_disputeId e = Some disputeId)) entries.

(** ** Reputation *)

Record DisputeReputationRecord := {
  rp_address : string;
  disputesInitiated : Z;
  disputesInvolved : Z;
  disputesResolvedFavorably : Z;
  disputesResolvedUnfavorably : Z;
  lastDisputeAt : option Z
}.

Inductive ResolutionOutcome := favorable | unfavorable | neutral.

#[export] Instance ResolutionOutcome_eq_dec : EqDecision ResolutionOutcome.
Proof. solve_decision. Defined.

Definition emptyRecord (address : string) : DisputeReputationRecord := Build_DisputeReputationRecord address 0 0 0 0 None.

(** [getOrCreate] followed by a write through the shared record. *)
Definition on_record (address : string) (f : DisputeReputationRecord → DisputeReputationRecord)
    (m : jsmap DisputeReputationRecord) : jsmap DisputeReputationRecord :=
  jset address (f (default (emptyRecord address) (jget address m))) m.

Definition recordInitiated (address : string) (now : Z) : jsmap DisputeReputationRecord → jsmap DisputeReputationRecord :=
  on_record address (λ r, Build_DisputeReputationRecord (rp_address r) (disputesInitiated r + 1) (disputesInvolved r)
    (disputesResolvedFavorably r) (disputesResolvedUnfavorably r) (Some now)).

Definition recordInvolved (address : string) (now : Z) : jsmap DisputeReputationRecord → jsmap DisputeReputationRecord :=
  on_record address (λ r, Build_DisputeReputationRecord (rp_address r) (disputesInitiated r) (disputesInvolved r + 1)
    (disputesResolvedFavorably r) (disputesResolvedUnfavorably r) (Some now)).

Definition recordOutcome (address : string) (o : ResolutionOutcome) : jsmap DisputeReputationRecord → jsmap DisputeReputationRecord :=
  on_record address (λ r, Build_DisputeReputationRecord (rp_address r) (disputesInitiated r) (disputesInvolved r)
    (match o with favorable => disputesResolvedFavorably r + 1 | _ => disputesResolvedFavorably r end)
    (match o with unfavorable => disputesResolvedUnfavorably r + 1 | _ => disputesResolvedUnfavorably r end)
    (lastDisputeAt r)).

Definition classifyOutcome {S} (awardedToParty awardedToOther : string) : M S ResolutionOutcome :=
  mine ← BigInt_throw awardedToParty;
  other ← BigInt_throw awardedToOther;
  mret (if other <? mine then favorable else if mine <? other then unfavorable else neutral).

Definition recordDisputeOutcome (buyerAddress sellerAddress buyerAmount sellerAmount : string)
    : M (jsmap DisputeReputationRecord) () :=
  buyerOutcome ← classifyOutcome buyerAmount sellerAmount;
  sellerOutcome ← classifyOutcome sellerAmount buyerAmount;
  modify (recordOutcome buyerAddress buyerOutcome);;
  modify (recordOutcome sellerAddress sellerOutcome).

(** Resolutions counted for and against one address. *)
Definition wins (a : string) (m : jsmap DisputeReputationRecord) : Z :=
  from_option disputesResolvedFavorably 0 (jget a m).
Definition losses (a : string) (m : jsmap DisputeReputationRecord) : Z :=
  from_option disputesResolvedUnfavorably 0 (jget a m).

Lemma recordOutcome_counts a b o m :
  wins b (recordOutcome a o m) = wins b m + (if bool_decide (b = a ∧ o = favorable) then 1 else 0) ∧
  losses b (recordOutcome a o m) = losses b m + (if bool_decide (b = a ∧ o = unfavorable) then 1 else 0).
Proof.
  unfold wins, losses, recordOutcome, on_record. rewrite jget_jset.
  case_decide as Heq; [subst b |]; destruct o; simpl; destruct (jget _ m); simpl;
    repeat case_bool_decide; simpl; destruct_and?; simplify_eq; try lia; naive_solver lia.
Qed.

(** A resolution is zero-sum for the reputation of two distinct parties: exactly
    when the amounts differ, the party awarded more wins one and the other loses
    one; nobody else's record changes its counts. *)
Theorem outcome_zero_sum b s x y m m' :
  b ≠ s → recordDisputeOutcome b s (dec x) (dec y) m = (inr (), m') →
  wins b m' = wins b m + (if y <? x then 1 else 0) ∧ losses b m' = losses b m + (if x <? y then 1 else 0) ∧
  wins s m' = wins s m + (if x <? y then 1 else 0) ∧ losses s m' = losses s m + (if y <? x then 1 else 0) ∧
  ∀ a, a ≠ b → a ≠ s → wins a m' = wins a m ∧ losses a m' = losses a m.
Proof.
  intros Hne. unfold recordDisputeOutcome, classifyOutcome, BigInt_throw. rewrite !BigInt_dec. run_unfold.
  intros [= <-].
  assert (∀ a o1 o2, wins a (recordOutcome s o2 (recordOutcome b o1 m)) =
      wins a m + (if bool_decide (a = b ∧ o1 = favorable) then 1 else 0) + (if bool_decide (a = s ∧ o2 = favorable) then 1 else 0) ∧
    losses a (recordOutcome s o2 (recordOutcome b o1 m)) =
      losses a m + (if bool_decide (a = b ∧ o1 = unfavorable) then 1 else 0) + (if bool_decide (a = s ∧ o2 = unfavorable) then 1 else 0)) as H.
  { intros a o1 o2. destruct (recordOutcome_counts s a o2 (recordOutcome b o1 m)) as [-> ->].
    destruct (recordOutcome_counts b a o1 m) as [-> ->]. lia. }
  destruct (Z.ltb_spec y x), (Z.ltb_spec x y); try lia; repeat split; intros;
    rewrite ?(proj1 (H _ _ _)), ?(proj2 (H _ _ _)); repeat case_bool_decide; destruct_and?; simplify_eq; try lia; naive_solver lia.
Qed.

Lemma outcome_zero_sum_witness :
  ∃ m', recordDisputeOutcome "GBUYER" "GSELLER" "70" "30" [] = (inr (), m') ∧ wins "GBUYER" m' = 1 ∧ losses "GSELLER" m' = 1.
Proof.
  eexists. split; [vm_compute; reflexivity |].
  destruct (outcome_zero_sum "GBUYER" "GSELLER" 70 30 [] _ ltac:(discriminate)
    ltac:(vm_compute; reflexivity)) as (Hw & _ & _ & Hl & _).
  split; [exact Hw | exact Hl].
Defined.

(** ** Access control *)

Inductive OrderAccessRole := buyer_role | merchant_role | admin_role.

#[export] Instance OrderAccessRole_eq_dec : EqDecision OrderAccessRole.
Proof. solve_decision. Defined.

Inductive OrderAccessDenialReason := NOT_A_PARTY | RECORD_NOT_FOUND.

(** A header value as the HTTP server delivers it. *)
Inductive header := HOne (s : string) | HMany (l : list string).

Definition firstHeaderValue (v : option header) : option string :=
  match v with
  | Some (HMany l) => head l
  | Some (HOne s) => Some s
  | None => None
  end.

Definition extractRequesterAddress (headers : string → option header) : option string :=
  let value := firstHeaderValue (headers "x-requester-address") in
  if truthy value then value else None.

Definition extractRequesterRole (headers : string → option header) : option OrderAccessRole :=
  match firstHeaderValue (headers "x-requester-role") with
  | Some raw =>
      if String.eqb raw "buyer" then Some buyer_role
      else if String.eqb raw "merchant" then Some merchant_role
      else if String.eqb raw "admin" then Some admin_role
      else None
  | None => None
  end.

Definition isPartyToOrder (paymentRecord : option PaymentRecord) (requesterAddress : string)
    (requesterRole : option OrderAccessRole) : bool :=
  if bool_decide (requesterRole = Some admin_role) then true
  else
    match paymentRecord with
    | None => false
    | Some r => String.eqb requesterAddress (pr_buyerAddress r) || String.eqb requesterAddress (pr_sellerAddress r)
    end.

(** [{ ok: true }] is [None], [{ ok: false, reason }] is [Some reason]. *)
Definition checkOrderAccess (paymentRecord : option PaymentRecord) (requesterAddress : string)
    (requesterRole : option OrderAccessRole) : option OrderAccessDenialReason :=
  match paymentRecord with
  | None => Some RECORD_NOT_FOUND
  | Some r => if isPartyToOrder (Some r) requesterAddress requesterRole then None else Some NOT_A_PARTY
  end.

(** Access is granted exactly when the order's record exists and the requester
    is its buyer, its seller or an administrator; without a record nobody, not even
    an administrator, is let in. *)
Theorem order_access_exact record a role :
  checkOrderAccess record a role = None ↔
    ∃ r, record = Some r ∧ (role = Some admin_role ∨ a = pr_buyerAddress r ∨ a = pr_sellerAddress r).
Proof.
  unfold checkOrderAccess, isPartyToOrder. destruct record as [r |]; [| naive_solver].
  case_bool_decide as Hr; [naive_solver |].
  destruct (String.eqb_spec a (pr_buyerAddress r)), (String.eqb_spec a (pr_sellerAddress r)); naive_solver.
Qed.
