(* ===== verification/Mediation.v ===== *)
(** * Dispute mediation

    apps/backend/payments/src/disputes/: the workflow of mediation.ts
    ([openDispute], [submitEvidence], [assignMediator], [autoAssignMediator],
    [submitMerchantResponse], [submitMediationDecision], [executeDecision]), the
    partial-refund request of partialRefund.ts, the scans of slaEscalation.ts and
    escalationWorker.ts and the events of notifications.ts.  The state [dworld]
    extends the payments state with a dispute store (any instance of
    [DisputeStore]), the audit log, the reputation map, the published events and
    the round-robin cursor. *)
From S2P Require Import Prelude JsLib PaymentRecords EscrowLock ChainClient EscrowCoordinator.
From S2P Require Import DisputeMachine DisputeStore.
Local Open Scope Z_scope.

(** A dispute event on the [payments:events] stream (notifications.ts). *)
Record DisputeEvent := {
  de_type : string; de_orderId : string; de_disputeId : string; de_escrowId : string;
  de_status : option DisputeStatus; de_mediator : option string;
  de_extra : list (string * detail); de_occurredAt : Z
}.

Record dworld (St : Type) := DWorld {
  dw_pay : pworld;
  dw_store : St;
  dw_audit : list AuditLogEntry;
  dw_reputation : jsmap DisputeReputationRecord;
  dw_events : list DisputeEvent;
  dw_cursor : Z
}.
Arguments DWorld {St}.
Arguments dw_pay {St}.
Arguments dw_store {St}.
Arguments dw_audit {St}.
Arguments dw_reputation {St}.
Arguments dw_events {St}.
Arguments dw_cursor {St}.

(** The event stream accepts an event or not; the mediator pool of the environment. *)
Class MediationEnv := {
  event_accepted : list DisputeEvent → DisputeEvent → bool;
  DISPUTE_MEDIATOR_POOL : option string
}.

(** [s.split(",")] *)
Fixpoint split_chars (cur : list ascii) (l : list ascii) : list (list ascii) :=
  match l with
  | [] => [cur]
  | c :: l' => if Ascii.eqb c ","%char then cur :: split_chars [] l' else split_chars (cur ++ [c]) l'
  end.
Definition split_comma (s : string) : list string := of_chars <$> split_chars [] (chars s).

Definition DEFAULT_SLA_DAYS : Z := 14.
Definition DEFAULT_STALLED_HOURS : Z := 72.
Definition DAY_MS : Z := 24 * 60 * 60 * 1000.
(** The largest time value a [Date] can hold. *)
Definition MAX_TIME : Z := 8640000000000000.

Record OpenDisputeParams := {
  op_escrowId : string; op_initiatedBy : string; op_reason : string; op_slaDays : option Z
}.

Definition upd_status (s : DisputeStatus) : DisputeUpdate := Build_DisputeUpdate (Some s) None None None None None None.

(** ** Validation *)

Definition validateResolutionAmounts {S} (decision : MediationDecision) (remainingAmount : string) : M S () :=
  match BigInt (md_buyerAmount decision), BigInt (md_sellerAmount decision) with
  | Some buyerAmount, Some sellerAmount =>
      throw_if ((buyerAmount <? 0) || (sellerAmount <? 0))
        (InvalidResolutionAmountsError "buyerAmount and sellerAmount must not be negative");;
      remaining ← BigInt_throw remainingAmount;
      throw_if (negb (buyerAmount + sellerAmount =? remaining))
        (InvalidResolutionAmountsError
           ("buyerAmount + sellerAmount (" +:+ dec (buyerAmount + sellerAmount) +:+
            ") must equal the remaining escrow balance (" +:+ dec remaining +:+ ")"));;
      throw_if (bool_decide (md_decision decision = full_refund) && negb (sellerAmount =? 0))
        (InvalidResolutionAmountsError ("full_refund resolutions must set sellerAmount to " +:+ quoted "0"));;
      throw_if (bool_decide (md_decision decision = release_to_seller) && negb (buyerAmount =? 0))
        (InvalidResolutionAmountsError ("release_to_seller resolutions must set buyerAmount to " +:+ quoted "0"))
  | _, _ => throw (InvalidResolutionAmountsError "buyerAmount and sellerAmount must be integer stroops strings")
  end.

(** [/^[0-9]+$/.test(amount)] and a positive value. *)
Definition parsePositive {S} (bad_format not_positive : exn) (amount : string) : M S Z :=
  if negb (all_digits amount) then throw bad_format
  else
    value ← BigInt_throw amount;
    throw_if (value <=? 0) not_positive;;
    mret value.

Definition parseRefundAmount {S} (amount : string) : M S Z :=
  parsePositive (Error ("Invalid amount format: " +:+ amount)) (Error ("Amount must be positive: " +:+ amount)) amount.

Definition InvalidPartialRefundAmountError (amount : string) : exn :=
  Exn "InvalidPartialRefundAmountError"
    ("Partial refund amount must be a positive integer (stroops); received " +:+ quoted amount).

Definition parseAmount {S} (amount : string) : M S Z :=
  parsePositive (InvalidPartialRefundAmountError amount) (InvalidPartialRefundAmountError amount) amount.

Section mediation.
Context `{E : PayEnv} `{ME : MediationEnv} {St : Type} `{DS : DisputeStore St}.
Implicit Types w : dworld St.

(** ** Access to the parts of the state *)

Definition on_pay {A} (c : M pworld A) : M (dworld St) A :=
  zoom dw_pay (λ p w, DWorld p (dw_store w) (dw_audit w) (dw_reputation w) (dw_events w) (dw_cursor w)) c.

Definition on_reputation {A} (c : M (jsmap DisputeReputationRecord) A) : M (dworld St) A :=
  zoom dw_reputation (λ r w, DWorld (dw_pay w) (dw_store w) (dw_audit w) r (dw_events w) (dw_cursor w)) c.

Definition set_store (st : St) w : dworld St :=
  DWorld (dw_pay w) st (dw_audit w) (dw_reputation w) (dw_events w) (dw_cursor w).

Definition now_of w : Z := w_now (dw_pay w).

Definition create_dispute (i : CreateDisputeInput) : M (dworld St) Dispute := λ w,
  let '(d, st) := ds_create i (now_of w) (dw_store w) in (inr d, set_store st w).

Definition find_dispute (id : string) : M (dworld St) (option Dispute) := gets (λ w, ds_findById id (dw_store w)).

(** [findById] and the check that follows it everywhere. *)
Definition get_dispute (id : string) : M (dworld St) Dispute :=
  d ← find_dispute id; some_or_throw d (DisputeNotFoundError id).

Definition update_dispute (id : string) (u : DisputeUpdate) : M (dworld St) Dispute := λ w,
  match ds_update id u (now_of w) (dw_store w) with
  | Some (d, st) => (inr d, set_store st w)
  | None => (inl (Error ("Dispute not found: " +:+ id)), w)
  end.

Definition add_evidence (id : string) (e : DisputeEvidenceEntry) : M (dworld St) Dispute := λ w,
  match ds_addEvidence id e (now_of w) (dw_store w) with
  | Some (d, st) => (inr d, set_store st w)
  | None => (inl (Error ("Dispute not found: " +:+ id)), w)
  end.

Definition recordAuditEvent (disputeId : option string) (escrowId eventType : string) (actor : option string)
    (details : list (string * detail)) : M (dworld St) () :=
  modify (λ w, DWorld (dw_pay w) (dw_store w)
    (audit_append disputeId escrowId eventType actor details (now_of w) (dw_audit w))
    (dw_reputation w) (dw_events w) (dw_cursor w)).

(** [emit]: a refused event is logged and forgotten. *)
Definition emit (type orderId disputeId escrowId : string) (status : option DisputeStatus)
    (mediator : option string) (extra : list (string * detail)) : M (dworld St) () :=
  now ← gets now_of;
  before ← gets dw_events;
  let ev := {| de_type := type; de_orderId := orderId; de_disputeId := disputeId; de_escrowId := escrowId;
               de_status := status; de_mediator := mediator; de_extra := extra; de_occurredAt := now |} in
  if event_accepted before ev
  then modify (λ w, DWorld (dw_pay w) (dw_store w) (dw_audit w) (dw_reputation w) (before ++ [ev]) (dw_cursor w))
  else mret ().

Definition notifyDisputeParties (type orderId : string) (d : Dispute) (extra : list (string * detail)) : M (dworld St) () :=
  emit type orderId (d_id d) (d_escrowId d) (Some (d_status d)) (d_mediator d) extra.

Definition notifyPartialRefundExecuted (orderId escrowId : string) (payload : list (string * detail)) : M (dworld St) () :=
  emit "partial_refund_executed" orderId "" escrowId None None payload.

(** escrow/config.ts *)
Definition getEscrowContractId : M (dworld St) string :=
  if truthy ESCROW_CONTRACT_ID then mret (default "" ESCROW_CONTRACT_ID)
  else throw (Error "ESCROW_CONTRACT_ID environment variable is not configured").

Definition safeGetBalance (escrowId : string) : M (dworld St) (option RemainingBalance) :=
  try_catch (b ← on_pay (getRemainingBalance escrowId); mret (Some b)) (λ _, mret None).

Definition notify_if_balance (escrowId type : string) (d : Dispute) (extra : list (string * detail)) : M (dworld St) () :=
  balance ← safeGetBalance escrowId;
  match balance with
  | Some b => notifyDisputeParties type (rb_orderId b) d extra
  | None => mret ()
  end.

(** ** mediation.ts *)

Definition openDispute (params : OpenDisputeParams) : M (dworld St) Dispute :=
  balance ← on_pay (getRemainingBalance (op_escrowId params));
  let slaDays := default DEFAULT_SLA_DAYS (op_slaDays params) in
  now ← gets now_of;
  let slaDeadline := now + slaDays * DAY_MS in
  throw_if (MAX_TIME <? Z.abs slaDeadline) (Exn "RangeError" "Invalid time value");;
  dispute ← create_dispute {|
    ci_escrowId := op_escrowId params; ci_orderId := Some (rb_orderId balance);
    ci_initiatedBy := op_initiatedBy params; ci_reason := op_reason params; ci_slaDeadline := slaDeadline |};
  try_catch
    (contract ← getEscrowContractId;
     on_pay (disputeEscrow {| ep_escrowId := op_escrowId params; ep_escrowContractId := contract;
                              ep_callerAddress := op_initiatedBy params |});;
     mret ())
    (λ err, recordAuditEvent (Some (d_id dispute)) (op_escrowId params) "dispute_onchain_flag_failed"
              (Some (op_initiatedBy params)) [("error", DStr (exn_message err))]);;
  let other := if String.eqb (op_initiatedBy params) (rb_buyerAddress balance)
               then rb_sellerAddress balance else rb_buyerAddress balance in
  now' ← gets now_of;
  on_reputation (modify (recordInitiated (op_initiatedBy params) now'));;
  on_reputation (modify (recordInvolved other now'));;
  recordAuditEvent (Some (d_id dispute)) (op_escrowId params) "dispute_opened" (Some (op_initiatedBy params))
    [("reason", DStr (op_reason params)); ("slaDeadline", DNum slaDeadline)];;
  notifyDisputeParties "dispute_opened" (rb_orderId balance) dispute [];;
  mret dispute.

Definition submitEvidence (disputeId : string) (input : DisputeEvidenceInput) : M (dworld St) Dispute :=
  dispute ← get_dispute disputeId;
  throw_if (negb (bool_decide (d_status dispute = open)) && negb (bool_decide (d_status dispute = evidence_collection)))
    (InvalidStateTransitionError (d_status dispute) evidence_collection);;
  now ← gets now_of;
  updated ← add_evidence disputeId {|
    ee_party := ei_party input; ee_description := ei_description input; ee_files := ei_files input;
    ee_submittedAt := now |};
  updated' ← (if bool_decide (d_status updated = open) then
                assertTransition open evidence_collection;;
                update_dispute disputeId (upd_status evidence_collection)
              else mret updated);
  recordAuditEvent (Some disputeId) (d_escrowId dispute) "dispute_evidence_submitted" (Some (ei_party input))
    [("description", DStr (ei_description input)); ("files", DList (ei_files input))];;
  notify_if_balance (d_escrowId dispute) "dispute_evidence_submitted" updated' [("party", DStr (ei_party input))];;
  mret updated'.

Definition assignMediator (disputeId mediator : string) (assignedBy : option string) : M (dworld St) Dispute :=
  dispute ← get_dispute disputeId;
  throw_if (bool_decide (d_status dispute = decided) || bool_decide (d_status dispute = resolved))
    (InvalidStateTransitionError (d_status dispute) negotiation);;
  planAdvance (d_status dispute) negotiation;;
  updated ← update_dispute disputeId (Build_DisputeUpdate (Some negotiation) (Some mediator) None None None None None);
  recordAuditEvent (Some disputeId) (d_escrowId dispute) "dispute_mediator_assigned"
    (Some (default mediator assignedBy)) [("mediator", DStr mediator)];;
  notify_if_balance (d_escrowId dispute) "dispute_mediator_assigned" updated [];;
  mret updated.

Definition mediator_pool : list string :=
  List.filter (λ s, negb (String.eqb s "")) (trim <$> split_comma (default "" DISPUTE_MEDIATOR_POOL)).

Definition autoAssignMediator (disputeId : string) : M (dworld St) Dispute :=
  let pool := mediator_pool in
  cursor ← gets dw_cursor;
  mediator ← some_or_throw (pool !! Z.to_nat (cursor mod Z.of_nat (length pool)))
    (Error "DISPUTE_MEDIATOR_POOL is not configured; assign a mediator explicitly");
  modify (λ w, DWorld (dw_pay w) (dw_store w) (dw_audit w) (dw_reputation w) (dw_events w) (cursor + 1));;
  assignMediator disputeId mediator (Some "auto-assignment").

Definition submitMerchantResponse (disputeId party responseStatement : string)
    (evidenceFiles : option (list string)) (partialRefundAmountStroops : option string) : M (dworld St) Dispute :=
  dispute ← get_dispute disputeId;
  throw_if (negb (bool_decide (d_status dispute = negotiation)))
    (InvalidStateTransitionError (d_status dispute) merchant_responded);;
  found ← safeGetBalance (d_escrowId dispute);
  balance ← some_or_throw found (Error "Unable to retrieve escrow balance");
  throw_if (negb (String.eqb party (rb_sellerAddress balance)))
    (Error "Only the merchant can submit a merchant response");;
  (if truthy partialRefundAmountStroops then
     let amount := default "" partialRefundAmountStroops in
     requested ← parseRefundAmount amount;
     remaining ← BigInt_throw (rb_remainingAmount balance);
     throw_if (remaining <? requested)
       (Error ("Partial refund amount " +:+ amount +:+ " exceeds remaining balance " +:+ rb_remainingAmount balance))
   else mret ());;
  now ← gets now_of;
  updated ← add_evidence disputeId {|
    ee_party := party; ee_description := responseStatement; ee_files := default [] evidenceFiles;
    ee_submittedAt := now |};
  updated' ← (if bool_decide (d_status updated = negotiation) then
                assertTransition negotiation merchant_responded;;
                update_dispute disputeId (upd_status merchant_responded)
              else mret updated);
  let details := [("responseStatement", DStr responseStatement);
                  ("evidenceFiles", from_option DList DUndefined evidenceFiles);
                  ("partialRefundAmountStroops", detail_opt partialRefundAmountStroops)] in
  recordAuditEvent (Some disputeId) (d_escrowId dispute) "dispute_merchant_response_submitted" (Some party) details;;
  notifyDisputeParties "dispute_merchant_response_submitted" (rb_orderId balance) updated'
    (("party", DStr party) :: details);;
  mret updated'.

(** The two on-chain legs of a resolution; a leg is skipped for a zero amount. *)
Definition buyer_leg (contractId : string) (d : Dispute) (rs : DisputeResolution) (buyerAmount : Z)
    : M (dworld St) (option string) :=
  if 0 <? buyerAmount then
    refund ← on_pay (partialRefundEscrow {|
      pf_escrowId := d_escrowId d; pf_escrowContractId := contractId; pf_callerAddress := rs_decidedBy rs;
      pf_amountStroops := rs_buyerAmount rs; pf_reason := "dispute_resolution:" +:+ d_id d |});
    throw_if (negb (String.eqb (px_status refund) "partial_refunded"))
      (Error "Buyer-side dispute resolution transfer failed on-chain");;
    mret (Some (px_txHash refund))
  else mret None.

Definition seller_leg (contractId : string) (d : Dispute) (rs : DisputeResolution) (sellerAmount : Z)
    : M (dworld St) (option string) :=
  if 0 <? sellerAmount then
    rel ← on_pay (partialReleaseEscrow {|
      pl_escrowId := d_escrowId d; pl_escrowContractId := contractId; pl_callerAddress := rs_decidedBy rs;
      pl_amountStroops := rs_sellerAmount rs;
      pl_memo := Some ("Dispute " +:+ d_id d +:+ " resolution: release to seller") |});
    throw_if (negb (String.eqb (px_status rel) "partial_released"))
      (Error "Seller-side dispute resolution transfer failed on-chain");;
    mret (Some (px_txHash rel))
  else mret None.

(** The [catch] block of [executeDecision]. *)
Definition resolution_failed (d : Dispute) (balance : RemainingBalance) (err : exn) (buyerTx : option string)
    : M (dworld St) Dispute :=
  update_dispute (d_id d) (Build_DisputeUpdate None None None (Some (Some (exn_message err))) None None None);;
  recordAuditEvent (Some (d_id d)) (d_escrowId d) "dispute_resolution_failed" None
    [("error", DStr (exn_message err)); ("buyerTx", detail_opt buyerTx); ("sellerTx", DUndefined)];;
  notifyDisputeParties "dispute_status_changed" (rb_orderId balance) d [("error", DStr (exn_message err))];;
  mret d.

Definition resolution_done (d : Dispute) (balance : RemainingBalance) (rs : DisputeResolution)
    (buyerTx sellerTx : option string) : M (dworld St) Dispute :=
  upd ← update_dispute (d_id d) (Build_DisputeUpdate (Some resolved) None None (Some None) None None None);
  recordAuditEvent (Some (d_id d)) (d_escrowId d) "dispute_resolved" None
    [("buyerTx", detail_opt buyerTx); ("sellerTx", detail_opt sellerTx);
     ("buyerAmount", DStr (rs_buyerAmount rs)); ("sellerAmount", DStr (rs_sellerAmount rs))];;
  notifyDisputeParties "dispute_resolved" (rb_orderId balance) upd
    [("buyerTx", detail_opt buyerTx); ("sellerTx", detail_opt sellerTx)];;
  on_reputation (recordDisputeOutcome (rb_buyerAddress balance) (rb_sellerAddress balance)
    (rs_buyerAmount rs) (rs_sellerAmount rs));;
  mret upd.

Definition executeDecision (disputeId : string) : M (dworld St) Dispute :=
  dispute ← get_dispute disputeId;
  if bool_decide (d_status dispute = resolved) then mret dispute
  else
    rs ← some_or_throw (if bool_decide (d_status dispute = decided) then d_resolution dispute else None)
      (InvalidStateTransitionError (d_status dispute) resolved);
    balance ← on_pay (getRemainingBalance (d_escrowId dispute));
    contractId ← getEscrowContractId;
    buyerAmount ← BigInt_throw (rs_buyerAmount rs);
    sellerAmount ← BigInt_throw (rs_sellerAmount rs);
    buyer ← outcome (buyer_leg contractId dispute rs buyerAmount);
    match buyer with
    | inl err => resolution_failed dispute balance err None
    | inr buyerTx =>
        seller ← outcome (seller_leg contractId dispute rs sellerAmount);
        match seller with
        | inl err => resolution_failed dispute balance err buyerTx
        | inr sellerTx => resolution_done dispute balance rs buyerTx sellerTx
        end
    end.

Definition submitMediationDecision (decision : MediationDecision) : M (dworld St) Dispute :=
  dispute ← get_dispute (md_disputeId decision);
  throw_if (bool_decide (d_status dispute = resolved)) (DisputeAlreadyResolvedError (d_id dispute));;
  assertTransition (d_status dispute) decided;;
  balance ← on_pay (getRemainingBalance (d_escrowId dispute));
  validateResolutionAmounts decision (rb_remainingAmount balance);;
  now ← gets now_of;
  let rs := {| rs_type := md_decision decision; rs_buyerAmount := md_buyerAmount decision;
               rs_sellerAmount := md_sellerAmount decision; rs_decidedBy := md_mediator decision;
               rs_decidedAt := now |} in
  updated ← update_dispute (d_id dispute) (Build_DisputeUpdate (Some decided) None (Some rs) None None None None);
  recordAuditEvent (Some (d_id dispute)) (d_escrowId dispute) "dispute_decided" (Some (md_mediator decision))
    [("buyerAmount", DStr (md_buyerAmount decision)); ("sellerAmount", DStr (md_sellerAmount decision));
     ("decidedBy", DStr (md_mediator decision)); ("decidedAt", DNum now); ("reasoning", DStr (md_reasoning decision))];;
  notifyDisputeParties "dispute_decided" (rb_orderId balance) updated [("reasoning", DStr (md_reasoning decision))];;
  executeDecision (d_id updated).

(** ** partialRefund.ts *)

Record PartialRefundOutcome := {
  po_escrowId : string; po_success : bool; po_transactionHash : option string;
  po_refundedAmount : string; po_remainingAmount : string; po_error : option string
}.

Definition outcome_details (o : PartialRefundOutcome) : list (string * detail) :=
  [("escrowId", DStr (po_escrowId o)); ("success", DStr (if po_success o then "true" else "false"));
   ("transactionHash", detail_opt (po_transactionHash o)); ("refundedAmount", DStr (po_refundedAmount o));
   ("remainingAmount", DStr (po_remainingAmount o)); ("error", detail_opt (po_error o))].

Definition executePartialRefund (request : PartialRefundRequest) : M (dworld St) PartialRefundOutcome :=
  requested ← parseAmount (rq_amount request);
  balance ← on_pay (getRemainingBalance (rq_escrowId request));
  contractId ← getEscrowContractId;
  remaining ← BigInt_throw (rb_remainingAmount balance);
  throw_if (remaining <? requested)
    (InsufficientEscrowBalanceError (rq_escrowId request) (rb_remainingAmount balance) (rq_amount request));;
  recordAuditEvent None (rq_escrowId request) "partial_refund_requested" (Some (rq_requestedBy request))
    [("amount", DStr (rq_amount request)); ("reason", DStr (rq_reason request));
     ("evidence", DList (default [] (rq_evidence request)))];;
  result ← on_pay (partialRefundEscrow {|
    pf_escrowId := rq_escrowId request; pf_escrowContractId := contractId;
    pf_callerAddress := rq_requestedBy request; pf_amountStroops := rq_amount request;
    pf_reason := rq_reason request |});
  let ok := String.eqb (px_status result) "partial_refunded" in
  let out := {|
    po_escrowId := rq_escrowId request; po_success := ok;
    po_transactionHash := if ok then Some (px_txHash result) else None;
    po_refundedAmount := px_moved result; po_remainingAmount := px_remaining result;
    po_error := if String.eqb (px_status result) "failed"
                then Some "Partial refund transaction failed on-chain" else None |} in
  recordAuditEvent None (rq_escrowId request) (if ok then "partial_refund_executed" else "partial_refund_failed")
    (Some (rq_requestedBy request)) (outcome_details out);;
  notifyPartialRefundExecuted (rb_orderId balance) (rq_escrowId request)
    (("requestedBy", DStr (rq_requestedBy request)) :: ("reason", DStr (rq_reason request)) :: outcome_details out);;
  mret out.

(** ** slaEscalation.ts and escalationWorker.ts *)

(** One element of a scan: a failure is logged and skipped. *)
Fixpoint scan {A} (body : Dispute → M (dworld St) A) (ds : list Dispute) : M (dworld St) (list A) :=
  match ds with
  | [] => mret []
  | d :: ds' =>
      r ← outcome (body d);
      rest ← scan body ds';
      mret (match r with inr a => a :: rest | inl _ => rest end)
  end.

Definition escalate_breached (now : Z) (dispute : Dispute) : M (dworld St) Dispute :=
  updated ← update_dispute (d_id dispute) (Build_DisputeUpdate None None None None (Some now) None None);
  recordAuditEvent (Some (d_id dispute)) (d_escrowId dispute) "dispute_sla_breached" None
    [("slaDeadline", DNum (d_slaDeadline dispute)); ("escalatedAt", DNum now); ("mediator", detail_opt (d_mediator dispute))];;
  balance ← safeGetBalance (d_escrowId dispute);
  (if truthy (rb_orderId <$> balance) then
     notifyDisputeParties "dispute_sla_breached" (default "" (rb_orderId <$> balance)) updated
       [("slaDeadline", DNum (d_slaDeadline dispute))]
   else mret ());;
  mret updated.

Definition findAndEscalateBreachedDisputes (now : Z) : M (dworld St) (nat * list Dispute) :=
  breached ← gets (λ w, ds_findBreached now (dw_store w));
  escalated ← scan (escalate_breached now) breached;
  mret (length breached, escalated).

Definition tier_name (t : DisputeTier) : string := match t with tier1 => "tier1" | senior => "senior" end.

Definition escalate_stalled (now stalledHours : Z) (dispute : Dispute) : M (dworld St) string :=
  updated ← update_dispute (d_id dispute) (Build_DisputeUpdate None None None None None (Some senior) (Some now));
  recordAuditEvent (Some (d_id dispute)) (d_escrowId dispute) "dispute_escalated" None
    [("stalledHours", DNum stalledHours); ("assignedTier", DStr "senior");
     ("previousTier", DStr (tier_name (default tier1 (d_escalationTier dispute)))); ("escalatedAt", DNum now)];;
  balance ← safeGetBalance (d_escrowId updated);
  (if truthy (rb_orderId <$> balance) then
     notifyDisputeParties "dispute_escalated" (default "" (rb_orderId <$> balance)) updated
       [("assignedTier", DStr "senior"); ("stalledHours", DNum stalledHours)]
   else mret ());;
  mret (d_id dispute).

(** The rules returned all assign [senior] after [stalledHours]: their dispute ids. *)
Definition findAndEscalateStalledDisputes (now stalledHours : Z) : M (dworld St) (nat * list string) :=
  stalled ← gets (λ w, ds_findStalled now stalledHours (dw_store w));
  escalated ← scan (escalate_stalled now stalledHours) stalled;
  mret (length stalled, escalated).
End mediation.
