(* ===== verification/AutoMediation.v ===== *)
(** * The rule-based arbitration engine

    apps/backend/payments/src/disputes/mediator.ts: the rules, the execution of a
    verdict through the mediation pipeline and the sweep over breached disputes.
    Confidences are hundredths; [AUTO_EXECUTE_CONFIDENCE_THRESHOLD] is read from the
    environment at start-up and is a parameter. *)
From S2P Require Import Prelude JsLib PaymentRecords EscrowLock ChainClient EscrowCoordinator.
From S2P Require Import DisputeMachine DisputeStore Mediation.
Local Open Scope Z_scope.

Inductive verdict := refund_buyer | payout_merchant | escalate_human.

#[export] Instance verdict_eq_dec : EqDecision verdict.
Proof. solve_decision. Defined.

Record DisputeMediationDecision := {
  dm_disputeId : string; dm_verdict : verdict; dm_confidence : Z; dm_reasoning : string
}.

Inductive carrier_status := delivered | return_to_sender | in_transit | out_for_delivery | failed_delivery | unknown.

#[export] Instance carrier_status_eq_dec : EqDecision carrier_status.
Proof. solve_decision. Defined.

Definition carrier_name (c : carrier_status) : string :=
  match c with
  | delivered => "delivered" | return_to_sender => "return_to_sender" | in_transit => "in_transit"
  | out_for_delivery => "out_for_delivery" | failed_delivery => "failed_delivery" | unknown => "unknown"
  end.

(** Of [CarrierTrackingInfo] the rules read [carrierStatus], of [PartialRefundOffer]
    the amount. *)
Record PartialRefundOffer := { of_amountStroops : string; of_acceptedBy : string; of_acceptedAt : Z }.

Record AutoMediationInput := {
  am_disputeId : string; am_tracking : option carrier_status; am_offer : option PartialRefundOffer
}.

Definition analyzeEvidence (evidence : list DisputeEvidenceEntry) : option (verdict * Z * string) :=
  let allText := join " " ((λ e, toLowerCase (ee_description e)) <$> evidence) in
  if includes allText "returned to sender" || includes allText "return to sender" ||
     includes allText "not received" || includes allText "package lost"
  then Some (refund_buyer, 75,
    "Evidence descriptions contain clear indicators that goods were not received or were returned. Refunding buyer based on evidence analysis.")
  else if includes allText "proof of delivery" || includes allText "signed for" ||
          includes allText "delivered successfully" || includes allText "confirmed delivery"
  then Some (payout_merchant, 75,
    "Evidence contains proof-of-delivery indicators. Releasing funds to merchant based on evidence analysis.")
  else None.

Definition evaluateDisputeRules (dispute : Dispute) (tracking : option carrier_status)
    (offer : option PartialRefundOffer) : DisputeMediationDecision :=
  let answer v c m := {| dm_disputeId := d_id dispute; dm_verdict := v; dm_confidence := c; dm_reasoning := m |} in
  if bool_decide (tracking = Some return_to_sender) then
    answer refund_buyer 95
      "Carrier tracking confirms the package was returned to sender. Buyer is entitled to a full refund per return-to-sender policy."
  else if bool_decide (tracking = Some delivered) then
    answer payout_merchant 90
      "Carrier tracking confirms the package was delivered successfully. Funds will be released to the merchant."
  else
    match offer with
    | Some o =>
        answer refund_buyer 85
          ("Merchant accepted a partial refund offer of " +:+ of_amountStroops o +:+
           " stroops. The agreed partial refund will be executed and remaining funds released to the merchant.")
    | None =>
        if bool_decide (tracking = Some failed_delivery) then
          answer refund_buyer 80
            "Carrier tracking indicates a failed delivery attempt. Buyer will be refunded as the item was not delivered."
        else
          match analyzeEvidence (d_evidence dispute) with
          | Some (v, c, m) => answer v c m
          | None =>
              answer escalate_human 100
                (match tracking with
                 | Some t => "Carrier status is " +:+ quoted (carrier_name t) +:+
                             " — insufficient evidence for automated resolution."
                 | None => "No carrier tracking data available and evidence is ambiguous."
                 end)
          end
    end.

Definition decision_details (d : DisputeMediationDecision) : list (string * detail) :=
  [("verdict", DStr (match dm_verdict d with refund_buyer => "refund_buyer" | payout_merchant => "payout_merchant"
                     | escalate_human => "escalate_human" end));
   ("confidence", DNum (dm_confidence d)); ("reasoning", DStr (dm_reasoning d))].

Section auto.
Context `{E : PayEnv} `{ME : MediationEnv} {St : Type} `{DS : DisputeStore St} (threshold : Z).

(** The [MediationDecision] a verdict translates to, given the remaining balance. *)
Definition verdict_decision {S} (dispute : Dispute) (decision : DisputeMediationDecision)
    (offer : option PartialRefundOffer) (remaining : string) : M S MediationDecision :=
  match dm_verdict decision with
  | refund_buyer =>
      match offer with
      | Some o =>
          refundBig ← BigInt_throw (of_amountStroops o);
          remainingBig ← BigInt_throw remaining;
          mret {| md_disputeId := d_id dispute; md_decision := partial_refund;
                  md_buyerAmount := of_amountStroops o; md_sellerAmount := dec (remainingBig - refundBig);
                  md_reasoning := dm_reasoning decision; md_mediator := "auto-mediator" |}
      | None =>
          mret {| md_disputeId := d_id dispute; md_decision := full_refund;
                  md_buyerAmount := remaining; md_sellerAmount := "0";
                  md_reasoning := dm_reasoning decision; md_mediator := "auto-mediator" |}
      end
  | _ =>
      mret {| md_disputeId := d_id dispute; md_decision := release_to_seller;
              md_buyerAmount := "0"; md_sellerAmount := remaining;
              md_reasoning := dm_reasoning decision; md_mediator := "auto-mediator" |}
  end.

Definition executeAutomatedVerdict (dispute : Dispute) (decision : DisputeMediationDecision)
    (offer : option PartialRefundOffer) : M (dworld St) () :=
  balance ← on_pay (getRemainingBalance (d_escrowId dispute));
  getEscrowContractId;;
  mediationDecision ← verdict_decision dispute decision offer (rb_remainingAmount balance);
  try_catch (submitMediationDecision mediationDecision;; mret ())
    (λ err,
     recordAuditEvent (Some (d_id dispute)) (d_escrowId dispute) "dispute_auto_mediation_failed" None
       (("error", DStr (exn_message err)) :: decision_details decision);;
     throw err).

Definition runAutoMediation (input : AutoMediationInput) : M (dworld St) DisputeMediationDecision :=
  dispute ← get_dispute (am_disputeId input);
  if bool_decide (d_status dispute = resolved) || bool_decide (d_status dispute = decided) then
    mret {| dm_disputeId := am_disputeId input; dm_verdict := escalate_human; dm_confidence := 100;
            dm_reasoning := "Dispute is already in status " +:+ quoted (status_name (d_status dispute)) +:+
                            "; no auto-mediation needed." |}
  else
    let decision := evaluateDisputeRules dispute (am_tracking input) (am_offer input) in
    recordAuditEvent (Some (d_id dispute)) (d_escrowId dispute) "dispute_auto_mediation_evaluated" None
      (decision_details decision);;
    if bool_decide (dm_verdict decision = escalate_human) || (dm_confidence decision <? threshold) then
      try_catch (autoAssignMediator (d_id dispute);; mret ()) (λ _, mret ());;
      recordAuditEvent (Some (d_id dispute)) (d_escrowId dispute) "dispute_escalated_to_human" None
        [("reasoning", DStr (dm_reasoning decision)); ("confidence", DNum (dm_confidence decision))];;
      mret decision
    else
      executeAutomatedVerdict dispute decision (am_offer input);;
      mret decision.

(** The sweep; [fetchTracking] answers with a status, nothing, or an error. *)
Definition sweepAutoMediation (fetchTracking : option (string → exn + option carrier_status))
    : M (dworld St) (nat * nat * nat) :=
  breached ← gets (λ w, ds_findBreached (now_of w) (dw_store w));
  results ← scan (λ dispute,
    tracking ← match fetchTracking with
               | Some f => answer (f (d_escrowId dispute))
               | None => mret None
               end;
    runAutoMediation {| am_disputeId := d_id dispute; am_tracking := tracking; am_offer := None |}) breached;
  let escalated := List.filter (λ r, bool_decide (dm_verdict r = escalate_human)) results in
  mret (length results, length escalated, (length results - length escalated)%nat).
End auto.
