(* ===== verification/MediationCorrect.v ===== *)
(** * Correctness of the dispute workflow

    The lifecycle of disputes over all histories of workflow calls, the exactness of
    the amounts check, the settlement of an executed decision, the idempotence of
    the escalation scans, and what the arbitration engine may decide; last, concrete runs
    over the environment of [EscrowExamples]. *)
From S2P Require Import Prelude JsLib PaymentRecords EscrowLock ChainClient EscrowCoordinator EscrowLedger.
From S2P Require Import EscrowCorrect EscrowExamples DisputeMachine DisputeStore Mediation AutoMediation.
Local Open Scope Z_scope.

(** ** The lifecycle relation *)

(** What a dispute carries in each status: a mediator from the negotiation on, and a
    resolution once it is decided. *)
Definition dispute_sound (d : Dispute) : Prop :=
  match d_status d with
  | open | evidence_collection => d_mediator d = None ∧ d_resolution d = None
  | negotiation | merchant_responded => is_Some (d_mediator d) ∧ d_resolution d = None
  | decided | resolved => is_Some (d_mediator d) ∧ is_Some (d_resolution d)
  end.

(** A dispute keeps who opened it, on what and when, moves along legal transitions
    and only gains evidence. *)
Record dispute_grows (d d' : Dispute) : Prop := {
  dg_id : d_id d' = d_id d;
  dg_escrow : d_escrowId d' = d_escrowId d;
  dg_by : d_initiatedBy d' = d_initiatedBy d;
  dg_reason : d_reason d' = d_reason d;
  dg_created : d_createdAt d' = d_createdAt d;
  dg_sla : d_slaDeadline d' = d_slaDeadline d;
  dg_status : reaches (d_status d) (d_status d');
  dg_evidence : d_evidence d `prefix_of` d_evidence d';
  dg_sound : dispute_sound d → dispute_sound d'
}.

#[export] Instance dispute_grows_preorder : PreOrder dispute_grows.
Proof.
  split.
  - intros d. by split.
  - intros d1 d2 d3 [] []. split; try congruence; [by etrans | by etrans | auto].
Qed.

(** An update that moves along the state machine and keeps a dispute sound. *)
Definition update_legal (u : DisputeUpdate) (now : Z) (d : Dispute) : Prop :=
  reaches (d_status d) (default (d_status d) (du_status u)) ∧ (dispute_sound d → dispute_sound (merge_update u now d)).

Lemma merge_grows u now d : update_legal u now d → dispute_grows d (merge_update u now d).
Proof. intros [H1 H2]. by split. Qed.

Lemma with_evidence_grows e now d : dispute_grows d (with_evidence e now d).
Proof. split; try done. by apply prefix_app_r. Qed.

Section lifecycle.
Context `{E : PayEnv} `{ME : MediationEnv} {St : Type} `{DS : DisputeStore St} `{DL : !DisputeStoreLaws St}.
Implicit Types w : dworld St.

Definition find_in (id : string) w : option Dispute := ds_findById id (dw_store w).

(** What a workflow call may do. *)
Definition disputes_grow w w' : Prop :=
  ds_ok (dw_store w) →
  ds_ok (dw_store w') ∧
  (∀ id d, find_in id w = Some d → ∃ d', find_in id w' = Some d' ∧ dispute_grows d d') ∧
  dw_audit w `prefix_of` dw_audit w' ∧
  (∀ id d', find_in id w' = Some d' → find_in id w = None → dispute_sound d').

#[global] Instance disputes_grow_preorder : PreOrder disputes_grow.
Proof.
  split.
  - intros w H. split; [done |]. split; [intros id d Hd; by exists d |]. split; [done |]. intros id d' H1 H2. congruence.
  - intros w1 w2 w3 H12 H23 H1. destruct (H12 H1) as (H2 & Hd12 & Ha12 & Hn12). destruct (H23 H2) as (H3 & Hd23 & Ha23 & Hn23).
    split; [done |]. split; [| split; [by etrans |]].
    + intros id d Hd. destruct (Hd12 _ _ Hd) as (d2 & Hd2 & Hg2). destruct (Hd23 _ _ Hd2) as (d3 & Hd3 & Hg3).
      exists d3. split; [done | by etrans].
    + intros id d3 Hd3 Hnone. destruct (find_in id w2) as [d2 |] eqn:Hd2; [| by eapply Hn23].
      destruct (Hd23 _ _ Hd2) as (d3' & Hd3' & Hg). rewrite Hd3 in Hd3'. injection Hd3' as <-. by eapply dg_sound, Hn12.
Qed.

(** Steps that leave the store alone. *)
Definition still w w' : Prop := dw_store w' = dw_store w ∧ dw_audit w `prefix_of` dw_audit w'.

#[global] Instance still_preorder : PreOrder still.
Proof. split; [done |]. intros w1 w2 w3 [] []. split; [congruence | by etrans]. Qed.

Lemma still_grow w w' : still w w' → disputes_grow w w'.
Proof.
  intros [Hs Ha] H. rewrite Hs. split; [done |]. unfold find_in. rewrite Hs. split; [| split; [done |]].
  - intros id d Hd. by exists d.
  - intros id d' H1 H2. congruence.
Qed.

Lemma on_pay_still {A} (c : M pworld A) : evolves still (on_pay c).
Proof. intros w. unfold on_pay, zoom. by destruct (c _). Qed.

Lemma on_reputation_still {A} (c : M _ A) : evolves still (on_reputation c).
Proof. intros w. unfold on_reputation, zoom. by destruct (c _). Qed.

Lemma recordAuditEvent_still i e t a d : evolves still (recordAuditEvent i e t a d).
Proof. intros w. split; [done |]. simpl. by apply prefix_app_r. Qed.

Lemma emit_still t o i e s m x : evolves still (emit t o i e s m x).
Proof. intros w. unfold emit. run_unfold. by destruct (event_accepted _ _). Qed.

Lemma outcome_evolves {A} (R : relation (dworld St)) (c : M (dworld St) A) : evolves R c → evolves R (outcome c).
Proof. intros H w. specialize (H w). unfold outcome. by destruct (c w). Qed.

Lemma assertTransition_still a b : evolves still (assertTransition a b).
Proof. unfold assertTransition. evolve. Qed.

Lemma plan_loop_still n i : evolves still (plan_loop n i).
Proof. revert i. induction n; intros i; simpl; evolve; auto using assertTransition_still. Qed.

Lemma planAdvance_still a b : evolves still (planAdvance a b).
Proof. unfold planAdvance. evolve. apply plan_loop_still. Qed.

Lemma validate_still d r : evolves still (validateResolutionAmounts d r).
Proof. unfold validateResolutionAmounts, BigInt_throw. evolve. Qed.

Lemma parsePositive_still b n a : evolves still (parsePositive b n a).
Proof. unfold parsePositive, BigInt_throw. evolve. Qed.

Lemma BigInt_throw_still s : evolves still (BigInt_throw s).
Proof. unfold BigInt_throw. evolve. Qed.

Lemma getEscrowContractId_still : evolves still getEscrowContractId.
Proof. unfold getEscrowContractId. evolve. Qed.

Hint Resolve on_pay_still on_reputation_still recordAuditEvent_still emit_still assertTransition_still
  planAdvance_still validate_still parsePositive_still BigInt_throw_still getEscrowContractId_still : evolve.

Lemma safeGetBalance_still e : evolves still (safeGetBalance e).
Proof. unfold safeGetBalance. evolve. Qed.
Hint Resolve safeGetBalance_still : evolve.

Lemma notify_still t o d x : evolves still (notifyDisputeParties t o d x).
Proof. unfold notifyDisputeParties. evolve. Qed.
Hint Resolve notify_still : evolve.

Lemma notify_if_balance_still e t d x : evolves still (notify_if_balance e t d x).
Proof. unfold notify_if_balance. evolve. Qed.
Hint Resolve notify_if_balance_still : evolve.

Lemma evolves_still_grow {A} (c : M (dworld St) A) : evolves still c → evolves disputes_grow c.
Proof. intros H w. apply still_grow, H. Qed.
(** ** Writes to the store *)

Lemma update_run id u w d :
  ds_ok (dw_store w) → find_in id w = Some d →
  ∃ st', update_dispute id u w = (inr (merge_update u (now_of w) d), set_store st' w) ∧
    ds_ok st' ∧ (∀ id', ds_findById id' st' = if decide (id' = id) then Some (merge_update u (now_of w) d) else find_in id' w) ∧
    (∀ id', ds_escalated id' st' = ds_escalated id' (dw_store w) || (bool_decide (id' = id) && bool_decide (is_Some (du_escalatedAt u)))).
Proof.
  intros Hok Hd. pose proof (ds_update_law id u (now_of w) (dw_store w) Hok) as H.
  unfold find_in in *. rewrite Hd in H. destruct H as (st' & Hu & H). exists st'. split; [| done].
  unfold update_dispute. by rewrite Hu.
Qed.

Lemma update_grow id u w :
  (∀ d, find_in id w = Some d → update_legal u (now_of w) d) → disputes_grow w (update_dispute id u w).2.
Proof.
  intros Hr Hok. destruct (find_in id w) as [d |] eqn:Hd.
  - destruct (update_run id u w d Hok Hd) as (st' & -> & Hok' & Hf & _). simpl. split; [done |]. split; [| split; [done |]].
    + intros id' d' Hd'. unfold find_in. simpl. rewrite Hf. case_decide as Heq; [| by exists d'].
      subst id'. rewrite Hd in Hd'. injection Hd' as <-. eexists. split; [done |]. by apply merge_grows, Hr.
    + intros id' d'. unfold find_in at 1. simpl. rewrite Hf. case_decide; [subst; congruence | congruence].
  - pose proof (ds_update_law id u (now_of w) (dw_store w) Hok) as H. unfold find_in in Hd. rewrite Hd in H.
    unfold update_dispute. rewrite H. simpl. split; [done |]. split; [intros id' d' Hd'; by exists d' |]. split; [done | congruence].
Qed.

Lemma update_no_status_grow id u :
  du_status u = None → du_mediator u = None → du_resolution u = None → evolves disputes_grow (update_dispute id u).
Proof.
  intros Hu Hm Hrs w. apply update_grow. intros d _. split; [by rewrite Hu |]. unfold dispute_sound, merge_update. simpl. by rewrite Hu, Hm, Hrs.
Qed.

Lemma add_evidence_run id e w d :
  ds_ok (dw_store w) → find_in id w = Some d →
  ∃ w', add_evidence id e w = (inr (with_evidence e (now_of w) d), w') ∧
    disputes_grow w w' ∧ find_in id w' = Some (with_evidence e (now_of w) d).
Proof.
  intros Hok Hd. pose proof (ds_evidence_law id e (now_of w) (dw_store w) Hok) as H.
  pose proof Hd as Hd0. unfold find_in in Hd0. rewrite Hd0 in H. destruct H as (st' & Hu & Hok' & Hf).
  exists (set_store st' w). unfold add_evidence. rewrite Hu. split; [done |].
  assert (find_in id (set_store st' w) = Some (with_evidence e (now_of w) d)) as Hid.
  { unfold find_in. simpl. rewrite Hf. by case_decide. }
  split; [| done]. intros _. split; [done |]. split; [| split; [done |]].
  - intros id' d' Hd'. destruct (decide (id' = id)) as [-> | Hne].
    + rewrite Hd in Hd'. injection Hd' as <-. eexists. split; [exact Hid |]. apply with_evidence_grows.
    + exists d'. unfold find_in. simpl. rewrite Hf. by case_decide.
  - intros id' d'. unfold find_in at 1. simpl. rewrite Hf. case_decide; [subst; congruence | unfold find_in; congruence].
Qed.

Lemma create_grow i : evolves disputes_grow (create_dispute i).
Proof.
  intros w Hok. unfold create_dispute. pose proof (ds_create_law i (now_of w) (dw_store w) Hok) as H.
  destruct (ds_create _ _ _) as [d st']. destruct H as (Hok' & Hnone & Hd & Hf). simpl.
  split; [done |]. unfold find_in in *. simpl. split; [| split; [done |]].
  - intros id' d' Hd'. exists d'. rewrite Hf. case_decide; [congruence | done].
  - intros id' d'. rewrite Hf. case_decide; [| congruence]. intros [= <-] _. by rewrite Hd.
Qed.

(** ** Stepping through a call *)

(** Where a computation read a dispute, the rest runs with it in the store. *)
Lemma get_dispute_grow {A} id (k : Dispute → M (dworld St) A) :
  (∀ w d, ds_ok (dw_store w) → find_in id w = Some d → disputes_grow w (k d w).2) →
  evolves disputes_grow (get_dispute id ≫= k).
Proof.
  intros Hk w Hok. unfold get_dispute, find_dispute. fold (find_in id w). run_unfold.
  fold (find_in id w). destruct (find_in id w) as [d |] eqn:Hd; simpl; [by apply Hk |].
  split; [done |]. split; [intros id' d' Hd'; by exists d' |]. split; [done | congruence].
Qed.

Lemma still_then {A B} (c : M (dworld St) A) (k : A → M (dworld St) B) w :
  evolves still c → (∀ a w1, c w = (inr a, w1) → still w w1 → disputes_grow w1 (k a w1).2) →
  disputes_grow w ((c ≫= k) w).2.
Proof.
  intros Hc Hk. specialize (Hc w). unfold mbind, M_bind. destruct (c w) as [[e | a] w1]; simpl in *;
    [by apply still_grow |].
  etrans; [by apply still_grow | by apply Hk].
Qed.

Lemma grow_then {A B} (c : M (dworld St) A) (k : A → M (dworld St) B) w :
  disputes_grow w (c w).2 → (∀ a, evolves disputes_grow (k a)) → disputes_grow w ((c ≫= k) w).2.
Proof.
  intros Hc Hk. unfold mbind, M_bind. destruct (c w) as [[e | a] w1]; simpl in *; [done |].
  etrans; [done | apply Hk].
Qed.

Lemma still_find w w1 id : still w w1 → find_in id w1 = find_in id w.
Proof. intros [Hs _]. unfold find_in. by rewrite Hs. Qed.

Lemma still_ok w w1 : still w w1 → ds_ok (dw_store w) → ds_ok (dw_store w1).
Proof. intros [Hs _]. by rewrite Hs. Qed.

(** The end of most calls: nothing but audit entries and events. *)
Ltac tail_still := intros; apply evolves_still_grow; evolve.

(** One legal transition, of a dispute that has what its next status needs. *)
Lemma move_legal from u now d to :
  d_status d = from → du_status u = Some to → canTransition from to = true →
  (dispute_sound d → dispute_sound (merge_update u now d)) → update_legal u now d.
Proof. intros Hs Hu Ht Hd. split; [| done]. rewrite Hu, Hs. by apply reaches_one. Qed.

Ltac sound_move := unfold dispute_sound, merge_update; simpl;
  repeat match goal with H : d_status _ = _ |- _ => rewrite H end; naive_solver.

(** Adding a statement and moving on when the status is still [from]. *)
Lemma evidence_then_move_grow {A} id e from to (k : Dispute → M (dworld St) A) w d :
  ds_ok (dw_store w) → find_in id w = Some d → (∀ now d, d_status d = from → update_legal (upd_status to) now d) →
  (∀ a, evolves disputes_grow (k a)) →
  disputes_grow w ((updated ← add_evidence id e;
    updated' ← (if bool_decide (d_status updated = from) then
                  assertTransition from to;; update_dispute id (upd_status to)
                else mret updated);
    k updated') w).2.
Proof.
  intros Hok Hd Ht Hk. destruct (add_evidence_run id e w d Hok Hd) as (w1 & Hrun & Hg & Hf).
  rewrite (bind_run _ _ _ _ _ Hrun). etrans; [exact Hg |].
  apply grow_then; [| done]. case_bool_decide as Hs; [| done].
  apply still_then; [evolve |]. intros a w2 _ Hst. apply update_grow. intros d' Hd'.
  rewrite (still_find _ _ _ Hst), Hf in Hd'. injection Hd' as <-. by apply Ht.
Qed.

Lemma submitEvidence_grow id i : evolves disputes_grow (submitEvidence id i).
Proof.
  unfold submitEvidence. apply get_dispute_grow. intros w d Hok Hd.
  apply still_then; [evolve |]. intros _ w1 _ Hs1. apply still_then; [evolve |]. intros now w2 _ Hs2.
  pose proof (transitivity Hs1 Hs2) as Hs. rewrite <- (still_find _ _ id Hs) in Hd.
  eapply evidence_then_move_grow; [by eapply still_ok | exact Hd | | tail_still].
  intros n d' Hd'. eapply move_legal; [exact Hd' | done | done | sound_move].
Qed.

Lemma submitMerchantResponse_grow id p r f a : evolves disputes_grow (submitMerchantResponse id p r f a).
Proof.
  unfold submitMerchantResponse. apply get_dispute_grow. intros w d Hok Hd.
  apply still_then; [evolve |]. intros _ w1 _ Hs1. apply still_then; [evolve |]. intros fb w2 _ Hs2.
  apply still_then; [evolve |]. intros b w3 _ Hs3. apply still_then; [evolve |]. intros _ w4 _ Hs4.
  apply still_then; [unfold parseRefundAmount; evolve |]. intros _ w5 _ Hs5.
  apply still_then; [evolve |]. intros now w6 _ Hs6.
  assert (still w w6) as Hs by (repeat (etrans; [eassumption |]); done).
  rewrite <- (still_find _ _ id Hs) in Hd.
  eapply evidence_then_move_grow; [by eapply still_ok | exact Hd | | tail_still].
  intros n d' Hd'. eapply move_legal; [exact Hd' | done | done | sound_move].
Qed.
Lemma assignMediator_grow id m by' : evolves disputes_grow (assignMediator id m by').
Proof.
  unfold assignMediator. apply get_dispute_grow. intros w d Hok Hd.
  apply still_then; [evolve |]. intros _ w1 _ Hs1. apply still_then; [evolve |]. intros steps w2 Hp Hs2.
  apply planAdvance_reaches in Hp. apply grow_then; [| tail_still].
  apply update_grow. intros d' Hd'. rewrite (still_find _ _ _ Hs2), (still_find _ _ _ Hs1), Hd in Hd'.
  injection Hd' as <-. split; [done |]. pose proof (reaches_stage _ _ Hp) as Hstage.
  unfold dispute_sound, merge_update. simpl. destruct (d_status d); vm_compute in Hstage; naive_solver.
Qed.

Lemma cursor_still f : evolves still (modify (λ w : dworld St, DWorld (dw_pay w) (dw_store w) (dw_audit w)
  (dw_reputation w) (dw_events w) (f w))).
Proof. by intros w. Qed.

Lemma autoAssignMediator_grow id : evolves disputes_grow (autoAssignMediator id).
Proof.
  unfold autoAssignMediator. apply evolves_bind; [apply _ | evolve |]. intros cursor.
  apply evolves_bind; [apply _ | evolve |]. intros mediator.
  apply evolves_bind; [apply _ | apply evolves_still_grow; by intros w |]. intros _. apply assignMediator_grow.
Qed.

Lemma openDispute_grow p : evolves disputes_grow (openDispute p).
Proof.
  unfold openDispute.
  apply evolves_bind; [apply _ | apply evolves_still_grow; evolve |]. intros balance.
  apply evolves_bind; [apply _ | evolve |]. intros now.
  apply evolves_bind; [apply _ | evolve |]. intros _.
  apply evolves_bind; [apply _ | apply create_grow |]. tail_still.
Qed.

Lemma buyer_leg_still c d rs x : evolves still (buyer_leg c d rs x).
Proof. unfold buyer_leg. evolve. Qed.

Lemma seller_leg_still c d rs x : evolves still (seller_leg c d rs x).
Proof. unfold seller_leg. evolve. Qed.

Lemma resolution_failed_grow d b e t : evolves disputes_grow (resolution_failed d b e t).
Proof.
  unfold resolution_failed. apply evolves_bind; [apply _ | by apply update_no_status_grow |]. tail_still.
Qed.

Lemma resolution_done_grow d b rs t1 t2 w :
  find_in (d_id d) w = Some d → d_status d = decided →
  disputes_grow w (resolution_done d b rs t1 t2 w).2.
Proof.
  intros Hd Hs. unfold resolution_done. apply grow_then; [| tail_still].
  apply update_grow. intros d' Hd'. rewrite Hd in Hd'. injection Hd' as <-. eapply move_legal; [exact Hs | done | done | sound_move].
Qed.

Lemma executeDecision_grow id : evolves disputes_grow (executeDecision id).
Proof.
  unfold executeDecision. apply get_dispute_grow. intros w d Hok Hd.
  case_bool_decide as Hres; [done |].
  apply still_then; [evolve |]. intros rs w1 Hrs Hs1.
  assert (d_status d = decided) as Hdec by (case_bool_decide; [done | by destruct (d_resolution d)]).
  apply still_then; [evolve |]. intros b w2 _ Hs2. apply still_then; [evolve |]. intros c w3 _ Hs3.
  apply still_then; [evolve |]. intros x w4 _ Hs4. apply still_then; [evolve |]. intros y w5 _ Hs5.
  apply still_then; [apply outcome_evolves, buyer_leg_still |]. intros [e | t1] w6 _ Hs6; [apply resolution_failed_grow |].
  apply still_then; [apply outcome_evolves, seller_leg_still |]. intros [e | t2] w7 _ Hs7; [apply resolution_failed_grow |].
  assert (still w w7) as Hs by (repeat (etrans; [eassumption |]); done).
  apply resolution_done_grow; [| done]. rewrite (still_find _ _ _ Hs).
  by rewrite (ds_find_id _ _ _ Hok Hd).
Qed.

Lemma submitMediationDecision_grow dec : evolves disputes_grow (submitMediationDecision dec).
Proof.
  unfold submitMediationDecision. apply get_dispute_grow. intros w d Hok Hd.
  apply still_then; [evolve |]. intros _ w1 _ Hs1. apply still_then; [evolve |]. intros u w2 Ht Hs2.
  assert (canTransition (d_status d) decided = true) as Hc.
  { unfold assertTransition in Ht. apply throw_if_run in Ht as [Ht _]. by apply negb_false_iff. }
  apply still_then; [evolve |]. intros b w3 _ Hs3. apply still_then; [evolve |]. intros _ w4 _ Hs4.
  apply still_then; [evolve |]. intros now w5 _ Hs5.
  assert (still w w5) as Hs by (repeat (etrans; [eassumption |]); done).
  apply grow_then.
  - apply update_grow. intros d' Hd'. rewrite (still_find _ _ _ Hs) in Hd'.
    rewrite (ds_find_id _ _ _ Hok Hd), Hd in Hd'. injection Hd' as <-. eapply move_legal; [done | done | exact Hc |].
    unfold dispute_sound, merge_update. simpl. destruct (d_status d); try (by vm_compute in Hc); naive_solver.
  - intros upd. apply evolves_bind; [apply _ | apply evolves_still_grow; evolve |]. intros _.
    apply evolves_bind; [apply _ | apply evolves_still_grow; evolve |]. intros _. apply executeDecision_grow.
Qed.

Lemma executePartialRefund_grow r : evolves disputes_grow (executePartialRefund r).
Proof.
  apply evolves_still_grow. unfold executePartialRefund, parseAmount, notifyPartialRefundExecuted. evolve.
Qed.

Lemma scan_grow {A} (body : Dispute → M (dworld St) A) ds :
  (∀ d, evolves disputes_grow (body d)) → evolves disputes_grow (scan body ds).
Proof.
  intros Hb. induction ds as [| d ds IH]; simpl; [evolve |].
  apply evolves_bind; [apply _ | by apply outcome_evolves |]. intros r.
  apply evolves_bind; [apply _ | done |]. intros. evolve.
Qed.

Lemma escalateBreached_grow now : evolves disputes_grow (findAndEscalateBreachedDisputes now).
Proof.
  unfold findAndEscalateBreachedDisputes. apply evolves_bind; [apply _ | evolve |]. intros ds.
  apply evolves_bind; [apply _ | | intros; evolve]. apply scan_grow. intros d. unfold escalate_breached.
  apply evolves_bind; [apply _ | by apply update_no_status_grow |]. tail_still.
Qed.

Lemma escalateStalled_grow now h : evolves disputes_grow (findAndEscalateStalledDisputes now h).
Proof.
  unfold findAndEscalateStalledDisputes. apply evolves_bind; [apply _ | evolve |]. intros ds.
  apply evolves_bind; [apply _ | | intros; evolve]. apply scan_grow. intros d. unfold escalate_stalled.
  apply evolves_bind; [apply _ | by apply update_no_status_grow |]. tail_still.
Qed.

Lemma verdict_decision_still d dec o r : evolves still (verdict_decision d dec o r).
Proof. unfold verdict_decision. evolve. Qed.

Lemma executeAutomatedVerdict_grow d dec o : evolves disputes_grow (executeAutomatedVerdict d dec o).
Proof.
  unfold executeAutomatedVerdict. apply evolves_bind; [apply _ | apply evolves_still_grow; evolve |]. intros b.
  apply evolves_bind; [apply _ | apply evolves_still_grow; evolve |]. intros _.
  apply evolves_bind; [apply _ | apply evolves_still_grow, verdict_decision_still |]. intros md.
  apply evolves_try; [apply _ | | tail_still].
  apply evolves_bind; [apply _ | apply submitMediationDecision_grow | intros; evolve].
Qed.

Lemma runAutoMediation_grow th i : evolves disputes_grow (runAutoMediation th i).
Proof.
  unfold runAutoMediation. apply get_dispute_grow. intros w d Hok Hd.
  destruct (_ || _); [done |]. cbv zeta. apply still_then; [evolve |]. intros _ w1 _ _.
  destruct (_ || _); apply grow_then.
  - apply (evolves_try disputes_grow); [| intros; evolve].
    apply evolves_bind; [apply _ | apply autoAssignMediator_grow | intros; evolve].
  - tail_still.
  - apply executeAutomatedVerdict_grow.
  - intros; evolve.
Qed.

Lemma sweep_grow th f : evolves disputes_grow (sweepAutoMediation th f).
Proof.
  unfold sweepAutoMediation. apply evolves_bind; [apply _ | evolve |]. intros ds.
  apply evolves_bind; [apply _ | | intros; evolve]. apply scan_grow. intros d.
  apply evolves_bind; [apply _ | destruct f; evolve |]. intros t. apply runAutoMediation_grow.
Qed.
(** ** Histories of the workflow *)

Inductive dispute_op :=
  | DOpen (p : OpenDisputeParams)
  | DEvidence (id : string) (i : DisputeEvidenceInput)
  | DAssign (id mediator : string) (by' : option string)
  | DAutoAssign (id : string)
  | DMerchant (id party statement : string) (files : option (list string)) (amount : option string)
  | DDecide (d : MediationDecision)
  | DExecute (id : string)
  | DPartialRefund (r : PartialRefundRequest)
  | DSla (now : Z)
  | DStalled (now hours : Z)
  | DAuto (threshold : Z) (i : AutoMediationInput)
  | DSweep (threshold : Z) (fetch : option (string → exn + option carrier_status))
  | DCoordinator (o : coord_op).

Definition run_dispute_op (o : dispute_op) : M (dworld St) () :=
  match o with
  | DOpen p => ignore (openDispute p)
  | DEvidence id i => ignore (submitEvidence id i)
  | DAssign id m b => ignore (assignMediator id m b)
  | DAutoAssign id => ignore (autoAssignMediator id)
  | DMerchant id p s f a => ignore (submitMerchantResponse id p s f a)
  | DDecide d => ignore (submitMediationDecision d)
  | DExecute id => ignore (executeDecision id)
  | DPartialRefund r => ignore (executePartialRefund r)
  | DSla now => ignore (findAndEscalateBreachedDisputes now)
  | DStalled now h => ignore (findAndEscalateStalledDisputes now h)
  | DAuto t i => ignore (runAutoMediation t i)
  | DSweep t f => ignore (sweepAutoMediation t f)
  | DCoordinator o => on_pay (run_op o)
  end.

Definition dispute_calls (ops : list dispute_op) w : dworld St :=
  foldl (λ w o, (run_dispute_op o w).2) w ops.

Lemma ignore_grow {A} (c : M (dworld St) A) : evolves disputes_grow c → evolves disputes_grow (ignore c).
Proof. intros H. unfold ignore. apply evolves_bind; [apply _ | done | intros; evolve]. Qed.

Lemma run_dispute_op_grow o : evolves disputes_grow (run_dispute_op o).
Proof.
  destruct o; simpl; try apply ignore_grow;
    [apply openDispute_grow | apply submitEvidence_grow | apply assignMediator_grow | apply autoAssignMediator_grow
    | apply submitMerchantResponse_grow | apply submitMediationDecision_grow | apply executeDecision_grow
    | apply executePartialRefund_grow | apply escalateBreached_grow | apply escalateStalled_grow
    | apply runAutoMediation_grow | apply sweep_grow | apply evolves_still_grow, on_pay_still].
Qed.

Lemma dispute_calls_grow ops w : disputes_grow w (dispute_calls ops w).
Proof.
  revert w. induction ops as [| o ops IH]; intros w; [done |].
  etrans; [apply (run_dispute_op_grow o) | apply IH].
Qed.

(** C8. Over any history of workflow calls - whatever the wallet service, Redis and
    the event stream answer, and whichever calls throw - a dispute never disappears,
    keeps its parties, escrow, opening time and deadline, moves only forward along the
    transitions of the state machine, only gains evidence, and the audit log only grows at
    its end.  Every dispute, those opened meanwhile included, is what its status says: it
    has a mediator exactly from the negotiation on, and a resolution exactly when it is
    decided or resolved; so no dispute is decided before a mediator was assigned. *)
Theorem dispute_lifecycle ops w :
  ds_ok (dw_store w) → (∀ id d, find_in id w = Some d → dispute_sound d) →
  let w' := dispute_calls ops w in
  (∀ id d, find_in id w = Some d → ∃ d', find_in id w' = Some d' ∧ dispute_grows d d') ∧
  (∀ id d, find_in id w' = Some d → dispute_sound d) ∧
  dw_audit w `prefix_of` dw_audit w'.
Proof.
  intros Hok Hsound w'. destruct (dispute_calls_grow ops w Hok) as (_ & Hg & Ha & Hn). fold w' in Hg, Ha, Hn. split; [done |]. split; [| done].
  intros id d Hd. destruct (find_in id w) as [d0 |] eqn:Hd0; [| by eapply Hn].
  destruct (Hg id d0 Hd0) as (d1 & Hd1 & Hgrow). rewrite Hd in Hd1. injection Hd1 as <-. by eapply dg_sound, Hsound.
Qed.
End lifecycle.

#[export] Hint Resolve on_pay_still on_reputation_still recordAuditEvent_still emit_still assertTransition_still
  planAdvance_still validate_still parsePositive_still BigInt_throw_still getEscrowContractId_still
  safeGetBalance_still notify_still notify_if_balance_still : evolve.

(** ** Money *)

Section money.
Context `{E : PayEnv} `{L : !PgLaws pay_pg} `{ME : MediationEnv} {St : Type} `{DS : DisputeStore St}.
Implicit Types w : dworld St.

Definition pay_refines w w' : Prop := refines (dw_pay w) (dw_pay w').

#[global] Instance pay_refines_preorder : PreOrder pay_refines.
Proof. split; [intros w; unfold pay_refines; done |]. intros w1 w2 w3 H1 H2. unfold pay_refines in *. by etrans. Qed.

Lemma on_pay_refines {A} (c : M pworld A) : evolves refines c → evolves pay_refines (on_pay c).
Proof. intros H. apply (evolves_zoom refines); [| done]. by intros w p. Qed.

Lemma pay_same {A} (c : M (dworld St) A) : (∀ w, dw_pay (c w).2 = dw_pay w) → evolves pay_refines c.
Proof. intros H w. unfold pay_refines. by rewrite H. Qed.

Lemma update_dispute_pay id u : evolves pay_refines (update_dispute id u).
Proof. apply pay_same. intros w. unfold update_dispute. by destruct (ds_update _ _ _ _) as [[]|]. Qed.

Lemma add_evidence_pay id e : evolves pay_refines (add_evidence id e).
Proof. apply pay_same. intros w. unfold add_evidence. by destruct (ds_addEvidence _ _ _ _) as [[]|]. Qed.

Lemma create_dispute_pay i : evolves pay_refines (create_dispute i).
Proof. apply pay_same. intros w. unfold create_dispute. by destruct (ds_create _ _ _). Qed.

Lemma on_reputation_pay {A} (c : M _ A) : evolves pay_refines (on_reputation c).
Proof. apply pay_same. intros w. unfold on_reputation, zoom. by destruct (c _). Qed.

Lemma emit_pay t o i e s m x : evolves pay_refines (emit t o i e s m x).
Proof. apply pay_same. intros w. unfold emit. run_unfold. by destruct (event_accepted _ _). Qed.

Lemma audit_pay i e t a d : evolves pay_refines (recordAuditEvent i e t a d).
Proof. by apply pay_same. Qed.

Lemma pay_outcome {A} (c : M (dworld St) A) : evolves pay_refines c → evolves pay_refines (outcome c).
Proof. intros H w. specialize (H w). unfold outcome. by destruct (c w). Qed.

Lemma on_pay_balance e : evolves pay_refines (on_pay (getRemainingBalance e)).
Proof. apply on_pay_refines, evolves_quiet_refines, getRemainingBalance_quiet. Qed.

Lemma on_pay_dispute p : evolves pay_refines (on_pay (disputeEscrow p)).
Proof. apply on_pay_refines, evolves_quiet_refines, disputeEscrow_quiet. Qed.

Lemma on_pay_partialRefund p : evolves pay_refines (on_pay (partialRefundEscrow p)).
Proof. apply on_pay_refines, partialRefundEscrow_refines. Qed.

Lemma on_pay_partialRelease p : evolves pay_refines (on_pay (partialReleaseEscrow p)).
Proof. apply on_pay_refines, partialReleaseEscrow_refines. Qed.

Lemma plan_loop_pay n i : evolves pay_refines (plan_loop n i).
Proof. revert i. induction n; intros i; simpl; unfold assertTransition; evolve; auto. Qed.

Hint Resolve update_dispute_pay add_evidence_pay create_dispute_pay on_reputation_pay emit_pay audit_pay
  pay_outcome on_pay_balance on_pay_dispute on_pay_partialRefund on_pay_partialRelease plan_loop_pay : evolve.

Ltac pay_ops := unfold notify_if_balance, get_dispute, find_dispute, safeGetBalance, notifyDisputeParties,
  notifyPartialRefundExecuted, getEscrowContractId, assertTransition, planAdvance, validateResolutionAmounts,
  parseRefundAmount, parseAmount, parsePositive, BigInt_throw.

Lemma openDispute_pay p : evolves pay_refines (openDispute p).
Proof. unfold openDispute. pay_ops. evolve. Qed.

Lemma submitEvidence_pay id i : evolves pay_refines (submitEvidence id i).
Proof. unfold submitEvidence. pay_ops. evolve. Qed.

Lemma assignMediator_pay id m b : evolves pay_refines (assignMediator id m b).
Proof. unfold assignMediator. pay_ops. evolve. Qed.

Lemma autoAssignMediator_pay id : evolves pay_refines (autoAssignMediator id).
Proof.
  unfold autoAssignMediator. apply evolves_bind; [apply _ | evolve |]. intros.
  apply evolves_bind; [apply _ | evolve |]. intros.
  apply evolves_bind; [apply _ | by apply pay_same |]. intros. apply assignMediator_pay.
Qed.

Lemma submitMerchantResponse_pay id p r f a : evolves pay_refines (submitMerchantResponse id p r f a).
Proof. unfold submitMerchantResponse. pay_ops. evolve. Qed.

Lemma executeDecision_pay id : evolves pay_refines (executeDecision id).
Proof.
  unfold executeDecision, resolution_failed, resolution_done. pay_ops.
  assert (∀ c d rs x, evolves pay_refines (buyer_leg c d rs x)) by (intros; unfold buyer_leg; evolve).
  assert (∀ c d rs x, evolves pay_refines (seller_leg c d rs x)) by (intros; unfold seller_leg; evolve).
  evolve.
Qed.
Hint Resolve executeDecision_pay autoAssignMediator_pay : evolve.

Lemma submitMediationDecision_pay d : evolves pay_refines (submitMediationDecision d).
Proof. unfold submitMediationDecision. pay_ops. evolve. Qed.
Hint Resolve submitMediationDecision_pay : evolve.

Lemma executePartialRefund_pay r : evolves pay_refines (executePartialRefund r).
Proof. unfold executePartialRefund. pay_ops. evolve. Qed.

Lemma scan_pay {A} (body : Dispute → M (dworld St) A) ds :
  (∀ d, evolves pay_refines (body d)) → evolves pay_refines (scan body ds).
Proof. intros Hb. induction ds as [| d ds IH]; simpl; evolve. Qed.

Lemma escalateBreached_pay now : evolves pay_refines (findAndEscalateBreachedDisputes now).
Proof.
  unfold findAndEscalateBreachedDisputes. evolve. apply scan_pay. intros d. unfold escalate_breached. pay_ops. evolve.
Qed.

Lemma escalateStalled_pay now h : evolves pay_refines (findAndEscalateStalledDisputes now h).
Proof.
  unfold findAndEscalateStalledDisputes. evolve. apply scan_pay. intros d. unfold escalate_stalled. pay_ops. evolve.
Qed.

Lemma runAutoMediation_pay th i : evolves pay_refines (runAutoMediation th i).
Proof. unfold runAutoMediation, executeAutomatedVerdict, verdict_decision. pay_ops. evolve. Qed.

Lemma sweep_pay th f : evolves pay_refines (sweepAutoMediation th f).
Proof.
  unfold sweepAutoMediation. evolve. apply scan_pay. intros d. evolve; apply runAutoMediation_pay.
Qed.

Lemma run_dispute_op_pay o : evolves pay_refines (run_dispute_op o).
Proof.
  destruct o; simpl; unfold ignore; try (apply evolves_bind; [apply _ | | intros; evolve]);
    [apply openDispute_pay | apply submitEvidence_pay | apply assignMediator_pay | apply autoAssignMediator_pay
    | apply submitMerchantResponse_pay | apply submitMediationDecision_pay | apply executeDecision_pay
    | apply executePartialRefund_pay | apply escalateBreached_pay | apply escalateStalled_pay
    | apply runAutoMediation_pay | apply sweep_pay | apply on_pay_refines, run_op_refines].
Qed.

Lemma dispute_calls_pay ops w : pay_refines w (dispute_calls ops w).
Proof.
  revert w. induction ops as [| o ops IH]; intros w; [done |].
  etrans; [apply (run_dispute_op_pay o) | apply IH].
Qed.

(** The money invariant of the coordinator extends to the dispute workflow: over any
    mix of coordinator calls, mediated decisions, partial-refund requests and automated
    verdicts the payment records move only along the ledger specification, and the
    partial payouts booked on a record never exceed what was escrowed. *)
Theorem disputes_follow_ledger ops w :
  pay_wf (dw_pay w) →
  let p := dw_pay (dispute_calls ops w) in
  rtc ledger_step (book (dw_pay w)) (book p) ∧
  ∀ r, r ∈ w_rows p →
    0 ≤ released_amount_stroops r ∧ 0 ≤ refunded_amount_stroops r ∧
    released_amount_stroops r + refunded_amount_stroops r ≤ amount_stroops r.
Proof.
  intros Hw. destruct (dispute_calls_pay ops w Hw) as [[(_ & _ & Hb) _] Hs]. split; [done |].
  intros r Hr. unfold book in Hb. rewrite Forall_fmap, Forall_forall in Hb.
  destruct (Hb r Hr) as (? & ? & ? & _). done.
Qed.
End money.

(** ** Settlement *)

Lemma validate_state {S} decision r (s : S) : (validateResolutionAmounts decision r s).2 = s.
Proof.
  unfold validateResolutionAmounts, BigInt_throw. run_unfold.
  repeat (case_match; simpl in *; simplify_eq; try done).
Qed.

Lemma validate_amounts {S} decision remaining (s s' : S) :
  validateResolutionAmounts decision (dec remaining) s = (inr (), s') →
  ∃ b c, BigInt (md_buyerAmount decision) = Some b ∧ BigInt (md_sellerAmount decision) = Some c ∧
    0 ≤ b ∧ 0 ≤ c ∧ b + c = remaining ∧
    (md_decision decision = full_refund → c = 0) ∧ (md_decision decision = release_to_seller → b = 0).
Proof.
  unfold validateResolutionAmounts, BigInt_throw. rewrite BigInt_dec.
  destruct (BigInt (md_buyerAmount decision)) as [b |]; [| done].
  destruct (BigInt (md_sellerAmount decision)) as [c |]; [| done].
  run_unfold. destruct (Z.ltb_spec b 0); simpl; [done |]. destruct (Z.ltb_spec c 0); simpl; [done |].
  destruct (Z.eqb_spec (b + c) remaining) as [Hs |]; simpl; [| done].
  case_bool_decide; case_bool_decide; simpl; destruct (Z.eqb_spec b 0), (Z.eqb_spec c 0); simpl; intros; try done;
    exists b, c; naive_solver lia.
Qed.

(** The amounts check accepts exactly the splits of the remaining balance: both
    amounts are non-negative integers that add up to it, a full refund leaves the
    seller nothing and a release leaves the buyer nothing.  Anything else is rejected
    with [InvalidResolutionAmountsError]. *)
Theorem resolution_amounts_exact {S} decision remaining (s : S) :
  (validateResolutionAmounts decision (dec remaining) s = (inr (), s) ↔
     ∃ b c, BigInt (md_buyerAmount decision) = Some b ∧ BigInt (md_sellerAmount decision) = Some c ∧
       0 ≤ b ∧ 0 ≤ c ∧ b + c = remaining ∧
       (md_decision decision = full_refund → c = 0) ∧ (md_decision decision = release_to_seller → b = 0)) ∧
  (validateResolutionAmounts decision (dec remaining) s = (inr (), s) ∨
   ∃ m, validateResolutionAmounts decision (dec remaining) s = (inl (InvalidResolutionAmountsError m), s)).
Proof.
  unfold validateResolutionAmounts, BigInt_throw. rewrite BigInt_dec.
  destruct (BigInt (md_buyerAmount decision)) as [b |]; [| run_unfold; naive_solver].
  destruct (BigInt (md_sellerAmount decision)) as [c |]; [| run_unfold; naive_solver].
  run_unfold. destruct (Z.ltb_spec b 0); simpl; [split; [split; [done | naive_solver lia] | eauto] |].
  destruct (Z.ltb_spec c 0); simpl; [split; [split; [done | naive_solver lia] | eauto] |].
  destruct (Z.eqb_spec (b + c) remaining) as [Hs |]; simpl; [| split; [split; [done | naive_solver lia] | eauto]].
  case_bool_decide; case_bool_decide; simpl; destruct (Z.eqb_spec b 0), (Z.eqb_spec c 0); simpl;
    (split; [split; [try done | naive_solver lia] | eauto]); intros _; exists b, c; naive_solver lia.
Qed.

Section settlement.
Context `{E : PayEnv} `{L : !PgLaws pay_pg} `{ME : MediationEnv} {St : Type} `{DS : DisputeStore St} `{DL : !DisputeStoreLaws St}.
Implicit Types w : dworld St.

Lemma on_pay_run {A} (c : M pworld A) w r w1 : on_pay c w = (r, w1) → c (dw_pay w) = (r, dw_pay w1).
Proof. unfold on_pay, zoom. destruct (c (dw_pay w)) as [r' p]. by intros [= <- <-]. Qed.

Lemma getRemainingBalance_run e p r p' :
  getRemainingBalance e p = (inr r, p') →
  p' = p ∧ ∃ i row, first_escrow e p i row ∧ rb_remainingAmount r = dec (b_remaining (balance_of row)).
Proof.
  unfold getRemainingBalance. intros (record & p1 & Hf & H)%bind_inr.
  destruct (find_or_throw_run e p) as [(i & row & Hfirst & Hf') | [_ Hf']]; [| congruence].
  rewrite Hf in Hf'. injection Hf' as -> ->.
  rewrite (bind_run _ _ _ _ _ (computeRemaining_run row p)) in H. injection H as <- <-.
  split; [done |]. by exists i, row.
Qed.

Lemma pay_refund_0 b : pay_refund 0 b = b.
Proof. destruct b. unfold pay_refund. simpl. by rewrite Z.add_0_r. Qed.

Lemma pay_release_0 b : pay_release 0 b = b.
Proof. destruct b. unfold pay_release. simpl. by rewrite Z.add_0_r. Qed.

(** What a successful leg did to the payments state. *)
Lemma buyer_leg_run c d rs b w t w1 i row :
  pay_wf (dw_pay w) → buyer_leg c d rs b w = (inr t, w1) → 0 ≤ b → BigInt (rs_buyerAmount rs) = Some b →
  first_escrow (d_escrowId d) (dw_pay w) i row →
  pay_wf (dw_pay w1) ∧ book (dw_pay w1) = <[i := pay_refund b (balance_of row)]> (book (dw_pay w)) ∧
  same_escrows (dw_pay w) (dw_pay w1).
Proof.
  intros Hw Hrun Hb Hx Hfirst. unfold buyer_leg in Hrun. destruct (Z.ltb_spec 0 b).
  - apply bind_inr in Hrun as (r & w2 & Hr & Hrun). apply bind_inr in Hrun as (u & w3 & Ht & Hrun).
    injection Hrun as _ <-. apply throw_if_run in Ht as [Ht ->]. apply on_pay_run in Hr.
    apply negb_false_iff, String.eqb_eq in Ht.
    destruct (partialRefund_success _ _ _ _ Hw Hr Ht) as (j & row' & x & (Hj & Hfj & Hx' & _) & Hbk). simpl in *.
    pose proof (first_escrow_unique _ _ _ _ _ _ Hfirst Hfj) as <-.
    destruct Hfirst as (Hi & _). rewrite Hi in Hj. injection Hj as <-. rewrite Hx in Hx'. injection Hx' as <-.
    match type of Hr with partialRefundEscrow ?p _ = _ =>
      pose proof (partialRefundEscrow_refines p (dw_pay w) Hw) as [Hw' _];
      pose proof (partialRefund_same_escrows p (dw_pay w)) as Hse end.
    by rewrite Hr in Hw', Hse.
  - injection Hrun as _ <-. replace b with 0 by lia. rewrite pay_refund_0. split; [done |]. split; [| done].
    symmetry. apply list_insert_id. by apply book_lookup, Hfirst.
Qed.

Lemma seller_leg_run c d rs b w t w1 i row :
  pay_wf (dw_pay w) → seller_leg c d rs b w = (inr t, w1) → 0 ≤ b → BigInt (rs_sellerAmount rs) = Some b →
  first_escrow (d_escrowId d) (dw_pay w) i row →
  book (dw_pay w1) = <[i := pay_release b (balance_of row)]> (book (dw_pay w)).
Proof.
  intros Hw Hrun Hb Hx Hfirst. unfold seller_leg in Hrun. destruct (Z.ltb_spec 0 b).
  - apply bind_inr in Hrun as (r & w2 & Hr & Hrun). apply bind_inr in Hrun as (u & w3 & Ht & Hrun).
    injection Hrun as _ <-. apply throw_if_run in Ht as [Ht ->]. apply on_pay_run in Hr.
    apply negb_false_iff, String.eqb_eq in Ht.
    destruct (partialRelease_success _ _ _ _ Hw Hr Ht) as (j & row' & x & (Hj & Hfj & Hx' & _) & Hbk). simpl in *.
    pose proof (first_escrow_unique _ _ _ _ _ _ Hfirst Hfj) as <-.
    destruct Hfirst as (Hi & _). rewrite Hi in Hj. injection Hj as <-. rewrite Hx in Hx'. by injection Hx' as <-.
  - injection Hrun as _ <-. replace b with 0 by lia. rewrite pay_release_0.
    symmetry. apply list_insert_id. by apply book_lookup, Hfirst.
Qed.

(** Steps outside the payments state. *)
Definition same_pay w w' : Prop := dw_pay w' = dw_pay w.

#[global] Instance same_pay_preorder : PreOrder same_pay.
Proof. split; [done |]. intros w1 w2 w3 H1 H2. unfold same_pay in *. congruence. Qed.

Lemma update_same_pay id u : evolves same_pay (update_dispute id u).
Proof. intros w. unfold update_dispute, same_pay. by destruct (ds_update _ _ _ _) as [[]|]. Qed.

Lemma on_reputation_same_pay {A} (c : M _ A) : evolves same_pay (on_reputation c).
Proof. intros w. unfold on_reputation, zoom, same_pay. by destruct (c _). Qed.

Lemma notify_same_pay t o d x : evolves same_pay (notifyDisputeParties t o d x).
Proof. intros w. unfold notifyDisputeParties, emit, same_pay. run_unfold. by destruct (event_accepted _ _). Qed.

Lemma audit_same_pay i e t a d : evolves same_pay (recordAuditEvent i e t a d).
Proof. by intros w. Qed.

Hint Resolve update_same_pay on_reputation_same_pay notify_same_pay audit_same_pay : evolve.

Lemma resolution_done_same_pay d b rs t1 t2 : evolves same_pay (resolution_done d b rs t1 t2).
Proof. unfold resolution_done. evolve. Qed.

(** The status of a failed execution is still [decided]. *)
Lemma resolution_failed_result d b e t w r w' : resolution_failed d b e t w = (inr r, w') → r = d.
Proof. unfold resolution_failed. intros H. bind_all H. by injection H as <- _. Qed.

Lemma executeDecision_settles id w d rs r w' x y :
  pay_wf (dw_pay w) → find_in id w = Some d → d_status d = decided → d_resolution d = Some rs →
  BigInt (rs_buyerAmount rs) = Some x → BigInt (rs_sellerAmount rs) = Some y → 0 ≤ x → 0 ≤ y →
  executeDecision id w = (inr r, w') → d_status r = resolved →
  ∃ i row, first_escrow (d_escrowId d) (dw_pay w) i row ∧
    book (dw_pay w') = <[i := pay_release y (pay_refund x (balance_of row))]> (book (dw_pay w)).
Proof.
  intros Hw Hd Hst Hrs Hx Hy Hx0 Hy0 Hrun Hres. unfold executeDecision in Hrun.
  apply bind_inr in Hrun as (d0 & w0 & Hg & Hrun).
  assert (d0 = d ∧ w0 = w) as [-> ->].
  { unfold get_dispute, find_dispute in Hg. run_unfold. unfold find_in in Hd. rewrite Hd in Hg. by injection Hg as <- <-. }
  rewrite Hst, bool_decide_false, bool_decide_true, Hrs in Hrun by done.
  apply bind_inr in Hrun as (rs' & w0 & [= <- <-] & Hrun).
  apply bind_inr in Hrun as (bal & w1 & Hbal & Hrun). apply on_pay_run in Hbal.
  apply getRemainingBalance_run in Hbal as (Hp1 & i & row & Hfirst & _).
  apply bind_inr in Hrun as (c & w2 & Hc & Hrun).
  assert (w2 = w1) as ->.
  { unfold getEscrowContractId in Hc. destruct (truthy _); [by injection Hc as _ -> | discriminate Hc]. }
  unfold BigInt_throw in Hrun. rewrite Hx, Hy in Hrun.
  apply bind_inr in Hrun as (x' & w2 & [= <- <-] & Hrun). apply bind_inr in Hrun as (y' & w2 & [= <- <-] & Hrun).
  apply bind_inr in Hrun as (o1 & w2 & Hb & Hrun). unfold outcome in Hb.
  destruct (buyer_leg c d rs x w1) as [o1' w2'] eqn:Hbl. injection Hb as <- <-. destruct o1' as [e | t1].
  { apply resolution_failed_result in Hrun. congruence. }
  apply bind_inr in Hrun as (o2 & w3 & Hs & Hrun). unfold outcome in Hs.
  destruct (seller_leg c d rs y w2') as [o2' w3'] eqn:Hsl. injection Hs as <- <-. destruct o2' as [e | t2].
  { apply resolution_failed_result in Hrun. congruence. }
  rewrite <- Hp1 in Hw, Hfirst. exists i, row. rewrite <- Hp1. split; [done |].
  destruct (buyer_leg_run _ _ _ _ _ _ _ _ _ Hw Hbl Hx0 Hx Hfirst) as (Hw2 & Hbk2 & Hse).
  destruct (first_escrow_transfer _ _ _ _ _ Hse Hfirst) as (row2 & Hfirst2).
  pose proof (seller_leg_run _ _ _ _ _ _ _ _ _ Hw2 Hsl Hy0 Hy Hfirst2) as Hbk3.
  pose proof (evolves_run _ _ _ _ _ (resolution_done_same_pay d bal rs t1 t2) Hrun) as ->.
  rewrite Hbk3, Hbk2, list_insert_insert_eq. do 2 f_equal.
  destruct Hfirst2 as (Hi2 & _). apply book_lookup in Hi2. rewrite Hbk2 in Hi2.
  rewrite list_lookup_insert_eq in Hi2 by (eapply lookup_lt_Some, book_lookup, Hfirst). congruence.
Qed.
Lemma get_dispute_run id w d w' : get_dispute id w = (inr d, w') → w' = w ∧ find_in id w = Some d.
Proof.
  unfold get_dispute, find_dispute, find_in. run_unfold. destruct (ds_findById _ _); intros; by simplify_eq.
Qed.

Lemma update_result id u w r w' :
  ds_ok (dw_store w) → update_dispute id u w = (inr r, w') →
  ∃ d, find_in id w = Some d ∧ r = merge_update u (now_of w) d.
Proof.
  intros Hok Hrun. destruct (find_in id w) as [d |] eqn:Hd.
  - destruct (update_run id u w d Hok Hd) as (st' & Hu & _). rewrite Hu in Hrun. injection Hrun as <- _. by exists d.
  - pose proof (ds_update_law id u (now_of w) (dw_store w) Hok) as H. unfold find_in in Hd. rewrite Hd in H.
    unfold update_dispute in Hrun. by rewrite H in Hrun.
Qed.

Lemma executeDecision_status id w r w' :
  ds_ok (dw_store w) → executeDecision id w = (inr r, w') → d_status r = resolved ∨ d_status r = decided.
Proof.
  unfold executeDecision. intros Hok (d & w0 & Hg & Hrun)%bind_inr. apply get_dispute_run in Hg as [-> Hd].
  case_bool_decide as Hs; [injection Hrun as <- _; by left |].
  apply bind_inr in Hrun as (rs & w1 & Hrs & Hrun).
  assert (d_status d = decided ∧ w1 = w) as [Hdec ->].
  { case_bool_decide; [| done]. destruct (d_resolution d); [| done]. by injection Hrs as _ ->. }
  apply bind_inr in Hrun as (b & w2 & H2 & Hrun). apply bind_inr in Hrun as (c & w3 & H3 & Hrun).
  apply bind_inr in Hrun as (x & w4 & H4 & Hrun). apply bind_inr in Hrun as (y & w5 & H5 & Hrun).
  apply bind_inr in Hrun as ([e | t1] & w6 & H6 & Hrun).
  { apply resolution_failed_result in Hrun as ->. by right. }
  apply bind_inr in Hrun as ([e | t2] & w7 & H7 & Hrun).
  { apply resolution_failed_result in Hrun as ->. by right. }
  assert (still w w7) as Hst.
  { apply (evolves_run still) in H2, H3, H4, H5, H6, H7; try evolve;
      [| apply outcome_evolves; auto using buyer_leg_still, seller_leg_still ..].
    repeat (etrans; [eassumption |]); done. }
  unfold resolution_done in Hrun. apply bind_inr in Hrun as (upd & w8 & Hu & Hrun). bind_all Hrun.
  injection Hrun as <- _. left. apply update_result in Hu as (d' & _ & ->); [done |]. by eapply still_ok.
Qed.

(** C3. A decision call that returns leaves the dispute [decided], for a later retry,
    or [resolved]; and when it is [resolved] the escrow is settled: the record the
    escrow id denotes was refunded exactly the buyer's amount and released exactly
    the seller's amount, every other record is unchanged, and nothing remains. *)
Theorem decision_settles decision w d w' r :
  pay_wf (dw_pay w) → ds_ok (dw_store w) → find_in (md_disputeId decision) w = Some d →
  submitMediationDecision decision w = (inr r, w') →
  d_status r = decided ∨
  d_status r = resolved ∧
    ∃ i row x y, first_escrow (d_escrowId d) (dw_pay w) i row ∧
      BigInt (md_buyerAmount decision) = Some x ∧ BigInt (md_sellerAmount decision) = Some y ∧
      book (dw_pay w') = <[i := pay_release y (pay_refund x (balance_of row))]> (book (dw_pay w)) ∧
      b_remaining (pay_release y (pay_refund x (balance_of row))) = 0.
Proof.
  intros Hw Hok Hd Hrun. unfold submitMediationDecision in Hrun.
  apply bind_inr in Hrun as (d0 & w0 & Hg & Hrun). apply get_dispute_run in Hg as [-> Hd0].
  rewrite Hd in Hd0. injection Hd0 as <-. pose proof (ds_find_id _ _ _ Hok Hd) as Hid.
  apply bind_inr in Hrun as (u & w1 & H1 & Hrun). apply throw_if_run in H1 as [_ ->].
  apply bind_inr in Hrun as (u1 & w1 & H1 & Hrun). apply throw_if_run in H1 as [_ ->].
  apply bind_inr in Hrun as (bal & w1 & Hbal & Hrun).
  pose proof (evolves_run still _ _ _ _ (on_pay_still _) Hbal) as Hst1.
  apply on_pay_run, getRemainingBalance_run in Hbal as (Hp1 & i & row & Hfirst & Hrem).
  apply bind_inr in Hrun as (u2 & w2 & Hv & Hrun). rewrite Hrem in Hv.
  pose proof (validate_state decision (dec (b_remaining (balance_of row))) w1) as Hvs. rewrite Hv in Hvs. simpl in Hvs. subst w2.
  destruct u2. apply validate_amounts in Hv as (x & y & Hx & Hy & Hx0 & Hy0 & Hsum & _).
  apply bind_inr in Hrun as (now & w2 & [= <- <-] & Hrun).
  apply bind_inr in Hrun as (upd & w3 & Hu & Hrun).
  rewrite <- (still_find _ _ _ Hst1) in Hd. rewrite <- Hid in Hd.
  match type of Hu with update_dispute _ ?u _ = _ => destruct (update_run _ u _ _ (still_ok _ _ Hst1 Hok) Hd)
    as (st' & Hu' & Hok' & Hf & _) end. rewrite Hu in Hu'. injection Hu' as -> ->.
  apply bind_inr in Hrun as (u3 & w4 & H4 & Hrun). apply bind_inr in Hrun as (u4 & w5 & H5 & Hrun).
  assert (still (set_store st' w1) w5 ∧ same_pay (set_store st' w1) w5) as [Hst5 Hp5].
  { split; etrans.
    - eapply evolves_run; [| exact H4]. apply recordAuditEvent_still.
    - eapply evolves_run; [| exact H5]. apply notify_still.
    - eapply evolves_run; [| exact H4]. apply audit_same_pay.
    - eapply evolves_run; [| exact H5]. apply notify_same_pay. }
  assert (dw_pay w5 = dw_pay w) as Hpay by (rewrite Hp5; exact Hp1).
  destruct (executeDecision_status _ _ _ _ (still_ok _ _ Hst5 Hok') Hrun) as [Hres | Hdec]; [right | by left].
  split; [done |]. simpl in Hrun.
  match type of Hf with context [merge_update ?u ?n ?dd] =>
    destruct (executeDecision_settles (d_id d) w5 (merge_update u n dd)
      (Build_DisputeResolution (md_decision decision) (md_buyerAmount decision) (md_sellerAmount decision)
         (md_mediator decision) n) r w' x y) as (j & row' & Hfj & Hbk) end; try done.
  - by rewrite Hpay.
  - rewrite (still_find _ _ _ Hst5). unfold find_in. simpl. rewrite Hf. by case_decide.
  - rewrite Hpay in Hfj, Hbk. simpl in Hfj. pose proof (first_escrow_unique _ _ _ _ _ _ Hfirst Hfj) as <-.
    destruct Hfj as (Hj & _). pose proof Hfirst as (Hi & _). rewrite Hi in Hj. injection Hj as <-.
    exists i, row, x, y. split; [done |]. split; [done |]. split; [done |]. split; [done |].
    unfold b_remaining in Hsum |- *. simpl in Hsum |- *. lia.
Qed.
End settlement.

(** ** Escalation scans *)

Section scans.
Context `{E : PayEnv} `{ME : MediationEnv} {St : Type} `{DS : DisputeStore St} `{DL : !DisputeStoreLaws St}.
Implicit Types w : dworld St.

(** What escalating disputes may do: nothing but raise flags and tiers. *)
Definition escalates w w' : Prop :=
  ds_ok (dw_store w) →
  ds_ok (dw_store w') ∧
  (∀ id, is_Some (find_in id w) → is_Some (find_in id w')) ∧
  (∀ id d', find_in id w' = Some d' → ∃ d, find_in id w = Some d ∧ d_id d' = d_id d ∧ d_status d' = d_status d ∧
     d_slaDeadline d' = d_slaDeadline d ∧ d_createdAt d' = d_createdAt d ∧
     (d_escalationTier d = Some senior → d_escalationTier d' = Some senior) ∧
     (d_escalationTier d' ≠ Some senior → d_escalationTier d' = d_escalationTier d)) ∧
  (∀ id, ds_escalated id (dw_store w) = true → ds_escalated id (dw_store w') = true).

#[global] Instance escalates_preorder : PreOrder escalates.
Proof.
  split.
  - intros w H. split; [done |]. split; [done |]. split; [| done]. intros id d Hd. exists d. by repeat split.
  - intros w1 w2 w3 H12 H23 H1. destruct (H12 H1) as (H2 & Ha & Hb & Hc). destruct (H23 H2) as (H3 & Ha' & Hb' & Hc').
    split; [done |]. split; [auto |]. split; [| auto]. intros id d3 Hd3.
    destruct (Hb' _ _ Hd3) as (d2 & Hd2 & ? & ? & ? & ? & Ht2 & Hn2).
    destruct (Hb _ _ Hd2) as (d1 & Hd1 & ? & ? & ? & ? & Ht1 & Hn1).
    exists d1. split; [done |]. repeat split; try congruence; [auto |].
    intros Hs. rewrite Hn2 by done. apply Hn1. rewrite Hn2 in Hs; done.
Qed.

Lemma still_escalates w w' : still w w' → escalates w w'.
Proof.
  intros Hs Hok. split; [by eapply still_ok |]. split; [intros id; by rewrite (still_find _ _ _ Hs) |].
  destruct Hs as [Hs _]. unfold find_in. rewrite Hs. split; [| done]. intros id d Hd. exists d. by repeat split.
Qed.

(** An update that sets neither the status nor a tier below [senior]. *)
Lemma update_escalates id u :
  du_status u = None → du_escalationTier u ≠ Some tier1 → evolves escalates (update_dispute id u).
Proof.
  intros Hu Ht w Hok. destruct (find_in id w) as [d |] eqn:Hd.
  - destruct (update_run id u w d Hok Hd) as (st' & -> & Hok' & Hf & He). simpl. split; [done |].
    split; [| split].
    + intros id' Hs. unfold find_in. simpl. rewrite Hf. by case_decide.
    + intros id' d' Hd'. unfold find_in in Hd'. simpl in Hd'. rewrite Hf in Hd'. case_decide as Heq.
      * subst id'. injection Hd' as <-. exists d. unfold merge_update, orElse. simpl. rewrite Hu. simpl.
        repeat split; try done; destruct (du_escalationTier u) as [[] |]; done.
      * exists d'. by repeat split.
    + intros id' Hs. simpl. rewrite He, Hs. done.
  - pose proof (ds_update_law id u (now_of w) (dw_store w) Hok) as H. unfold find_in in Hd. rewrite Hd in H.
    unfold update_dispute. rewrite H. simpl. by apply (reflexivity (R := escalates)).
Qed.

(** A body that writes the dispute it is given and then only reports. *)
Lemma escalate_body_run {A} u (k : Dispute → M (dworld St) A) d w :
  du_status u = None → du_escalationTier u ≠ Some tier1 → (∀ a, evolves still (k a)) →
  ds_ok (dw_store w) → is_Some (find_in (d_id d) w) →
  let w' := ((updated ← update_dispute (d_id d) u; k updated) w).2 in
  escalates w w' ∧
  (is_Some (du_escalatedAt u) → ds_escalated (d_id d) (dw_store w') = true) ∧
  (du_escalationTier u = Some senior → ∃ d', find_in (d_id d) w' = Some d' ∧ d_escalationTier d' = Some senior).
Proof.
  intros Hu Ht Hk Hok [d0 Hd0]. destruct (update_run (d_id d) u w d0 Hok Hd0) as (st' & Hrun & Hok' & Hf & He).
  rewrite (bind_run _ _ _ _ _ Hrun). set (w1 := set_store st' w) in *.
  pose proof (Hk (merge_update u (now_of w) d0) w1) as Hst.
  pose proof (update_escalates (d_id d) u Hu Ht w) as He1. rewrite Hrun in He1. simpl in He1.
  split; [etrans; [exact He1 | by apply still_escalates] |]. pose proof Hst as [Hs _]. rewrite Hs. simpl.
  split.
  - intros Hsome. rewrite He, !bool_decide_true by done. by rewrite orb_true_r.
  - intros Hsen. exists (merge_update u (now_of w) d0). rewrite (still_find _ _ _ Hst).
    unfold find_in. simpl. rewrite Hf. rewrite decide_True by done. split; [done |]. simpl. by rewrite Hsen.
Qed.

(** A scan escalates every dispute it was given: [P] holds of each at the end. *)
Lemma scan_run {A} (body : Dispute → M (dworld St) A) (P : string → dworld St → Prop) ds w :
  (∀ w1 w2 id, ds_ok (dw_store w1) → escalates w1 w2 → P id w1 → P id w2) →
  (∀ d w1, ds_ok (dw_store w1) → is_Some (find_in (d_id d) w1) →
     escalates w1 (body d w1).2 ∧ P (d_id d) (body d w1).2) →
  ds_ok (dw_store w) → (∀ d, d ∈ ds → is_Some (find_in (d_id d) w)) →
  escalates w (scan body ds w).2 ∧ ∀ d, d ∈ ds → P (d_id d) (scan body ds w).2.
Proof.
  intros Hmono Hbody. revert w. induction ds as [| d ds IH]; intros w Hok Hds; simpl.
  { split; [done |]. by intros d ?%not_elem_of_nil. }
  unfold outcome. unfold mbind at 1 3, M_bind at 1 3.
  destruct (Hbody d w Hok (Hds d (list_elem_of_here _ _))) as [He Hp].
  destruct (body d w) as [r w1]. simpl in *. destruct (He Hok) as (Hok1 & Hsome & _ & _).
  destruct (IH w1 Hok1) as [He2 Hp2].
  { intros d' Hd'. apply Hsome, Hds. by right. }
  run_unfold. destruct (scan body ds w1) as [[e | rest] w2]; simpl in *.
  - split; [by etrans |]. intros d' [-> | Hd']%elem_of_cons; [by eapply Hmono | auto].
  - split; [by etrans |]. intros d' [-> | Hd']%elem_of_cons; [by eapply Hmono | auto].
Qed.

Lemma scan_nil {A} (body : Dispute → M (dworld St) A) w : scan body [] w = (inr [], w).
Proof. done. Qed.
Lemma breached_state now w :
  (findAndEscalateBreachedDisputes now w).2 =
    (scan (escalate_breached now) (ds_findBreached now (dw_store w)) w).2.
Proof. unfold findAndEscalateBreachedDisputes. run_unfold. by destruct (scan _ _ _) as [[]]. Qed.

Lemma stalled_state now h w :
  (findAndEscalateStalledDisputes now h w).2 =
    (scan (escalate_stalled now h) (ds_findStalled now h (dw_store w)) w).2.
Proof. unfold findAndEscalateStalledDisputes. run_unfold. by destruct (scan _ _ _) as [[]]. Qed.

Lemma escalate_breached_run now d w :
  ds_ok (dw_store w) → is_Some (find_in (d_id d) w) →
  escalates w (escalate_breached now d w).2 ∧ ds_escalated (d_id d) (dw_store (escalate_breached now d w).2) = true.
Proof.
  intros Hok Hd. unfold escalate_breached.
  match goal with |- context [update_dispute _ ?u ≫= ?k] =>
    destruct (escalate_body_run u k d w) as (H1 & H2 & _); try done; [intros; evolve |] end.
  split; [exact H1 | apply H2; by eexists].
Qed.

Lemma escalate_stalled_run now h d w :
  ds_ok (dw_store w) → is_Some (find_in (d_id d) w) →
  escalates w (escalate_stalled now h d w).2 ∧
  ∃ d', find_in (d_id d) (escalate_stalled now h d w).2 = Some d' ∧ d_escalationTier d' = Some senior.
Proof.
  intros Hok Hd. unfold escalate_stalled.
  match goal with |- context [update_dispute _ ?u ≫= ?k] =>
    destruct (escalate_body_run u k d w) as (H1 & _ & H3); try done; [intros; evolve |] end.
  split; [exact H1 | by apply H3].
Qed.

(** The SLA scan is idempotent: after a scan at time [now] a second scan at the
    same time finds no breached dispute and changes nothing. *)
Theorem sla_scan_idempotent now w :
  ds_ok (dw_store w) →
  let w' := (findAndEscalateBreachedDisputes now w).2 in
  findAndEscalateBreachedDisputes now w' = (inr (0%nat, []), w').
Proof.
  intros Hok w'. subst w'. rewrite breached_state. set (w' := (scan _ _ w).2).
  destruct (scan_run (escalate_breached now) (λ id v, ds_escalated id (dw_store v) = true)
    (ds_findBreached now (dw_store w)) w) as [He Hp]; [| | done | |].
  - intros w1 w2 id Hok1 He. by apply He.
  - apply escalate_breached_run.
  - intros d Hd. apply ds_breached_law in Hd as [Hd _]; [by eexists | done].
  - destruct (He Hok) as (Hok' & _ & Hback & Hmono).
    assert (ds_findBreached now (dw_store w') = []) as Hnil; [| unfold findAndEscalateBreachedDisputes; run_unfold; by rewrite Hnil].
    apply elem_of_nil_inv. intros d' Hd'. apply ds_breached_law in Hd' as (Hf & Ha & Hsla & Hesc); [| done].
    destruct (Hback _ _ Hf) as (d & Hd & Hid & Hst & Hsl & _).
    assert (d ∈ ds_findBreached now (dw_store w)) as Hin.
    { apply ds_breached_law; [done |]. rewrite <- Hid. split; [done |]. unfold active in *. rewrite <- Hst, <- Hsl.
      split; [done |]. split; [done |]. destruct (ds_escalated (d_id d') (dw_store w)) eqn:Hx; [| done].
      apply Hmono in Hx. fold w' in Hx. congruence. }
    apply Hp in Hin. fold w' in Hin. rewrite <- Hid in Hin. congruence.
Qed.

(** The stalled-dispute worker is idempotent: a dispute it moved to the [senior]
    tier is never picked up again, so a second cycle at the same time escalates
    nothing. *)
Theorem stalled_scan_idempotent now h w :
  ds_ok (dw_store w) →
  let w' := (findAndEscalateStalledDisputes now h w).2 in
  findAndEscalateStalledDisputes now h w' = (inr (0%nat, []), w').
Proof.
  intros Hok w'. subst w'. rewrite stalled_state. set (w' := (scan _ _ w).2).
  destruct (scan_run (escalate_stalled now h) (λ id v, ∃ d', find_in id v = Some d' ∧ d_escalationTier d' = Some senior)
    (ds_findStalled now h (dw_store w)) w) as [He Hp]; [| | done | |].
  - intros w1 w2 id Hok1 He (d1 & Hd1 & Ht1). destruct (He Hok1) as (_ & Hsome & Hback & _).
    destruct (Hsome id ltac:(by eexists)) as [d2 Hd2]. destruct (Hback _ _ Hd2) as (d1' & Hd1' & _ & _ & _ & _ & Ht & _).
    exists d2. split; [done |]. apply Ht. congruence.
  - apply escalate_stalled_run.
  - intros d Hd. apply ds_stalled_law in Hd as [Hd _]; [by eexists | done].
  - destruct (He Hok) as (Hok' & _ & Hback & _).
    assert (ds_findStalled now h (dw_store w') = []) as Hnil; [| unfold findAndEscalateStalledDisputes; run_unfold; by rewrite Hnil].
    apply elem_of_nil_inv. intros d' Hd'. apply ds_stalled_law in Hd' as (Hf & Hst); [| done].
    assert (d_escalationTier d' ≠ Some senior) as Hns.
    { intros Hs. unfold stalled_before in Hst. rewrite Hs in Hst. simpl in Hst. by rewrite andb_false_r in Hst. }
    destruct (Hback _ _ Hf) as (d & Hd & Hid & Hs & _ & Hc & _ & Ht).
    assert (d ∈ ds_findStalled now h (dw_store w)) as Hin.
    { apply ds_stalled_law; [done |]. rewrite <- Hid. split; [done |].
      unfold stalled_before, active in *. by rewrite <- Hs, <- Hc, <- (Ht Hns). }
    apply Hp in Hin as (d2 & Hd2 & Ht2). rewrite <- Hid in Hd2. fold w' in Hd2. unfold find_in in Hd2. congruence.
Qed.
End scans.

(** ** The arbitration engine *)

(** The engine's decisions split the whole remaining balance: a verdict without a
    merchant offer always passes the amounts check, and one with an offer passes it
    exactly when the offer is between zero and the remaining balance. *)
Theorem auto_verdict_conserves {S} dispute decision offer remaining (s : S) md :
  0 ≤ remaining → verdict_decision dispute decision offer (dec remaining) s = (inr md, s) →
  validateResolutionAmounts md (dec remaining) s = (inr (), s) ↔
    match dm_verdict decision, offer with
    | refund_buyer, Some o => ∃ x, BigInt (of_amountStroops o) = Some x ∧ 0 ≤ x ≤ remaining
    | _, _ => True
    end.
Proof.
  intros Hr. unfold verdict_decision, BigInt_throw. rewrite BigInt_dec.
  assert (∀ dd t b c m v, 0 ≤ b → 0 ≤ c → b + c = remaining → t ≠ full_refund ∨ c = 0 → t ≠ release_to_seller ∨ b = 0 →
    validateResolutionAmounts {| md_disputeId := dd; md_decision := t; md_buyerAmount := dec b;
      md_sellerAmount := dec c; md_reasoning := m; md_mediator := v |} (dec remaining) s = (inr (), s)) as Hok.
  { intros. unfold validateResolutionAmounts, BigInt_throw. simpl. rewrite !BigInt_dec. run_unfold.
    assert ((b <? 0) || (c <? 0) = false) as -> by lia. assert (b + c =? remaining = true) as -> by lia. simpl.
    case_bool_decide; case_bool_decide; simpl; destruct (Z.eqb_spec b 0), (Z.eqb_spec c 0); simpl; naive_solver. }
  destruct (dm_verdict decision); [destruct offer as [o |] | |].
  - destruct (BigInt (of_amountStroops o)) as [x |] eqn:Hx; [| done]. run_unfold. intros [= <-]. split.
    + intros (b & c & Hb & Hc & ? & ? & ? & _)%validate_amounts. simpl in *. exists x. split; [done |].
      rewrite Hx in Hb. rewrite BigInt_dec in Hc. simplify_eq. lia.
    + intros (x' & [= <-] & Hx'). unfold validateResolutionAmounts, BigInt_throw. simpl. rewrite Hx, !BigInt_dec. run_unfold.
      assert ((x <? 0) || (remaining - x <? 0) = false) as -> by lia.
      by assert (x + (remaining - x) =? remaining = true) as -> by lia.
  - run_unfold. intros [= <-]. split; [done |]. intros _. apply (Hok _ _ remaining 0); try lia; naive_solver.
  - run_unfold. intros [= <-]. split; [done |]. intros _. apply (Hok _ _ 0 remaining); try lia; naive_solver.
  - run_unfold. intros [= <-]. split; [done |]. intros _. apply (Hok _ _ 0 remaining); try lia; naive_solver.
Qed.

(** A package returned to its sender is refunded in full only when the merchant made
    no offer: an offer turns the verdict into a split. *)
Lemma return_to_sender_with_offer {S} d o remaining (s : S) x :
  BigInt (of_amountStroops o) = Some x →
  ∃ md, verdict_decision d (evaluateDisputeRules d (Some return_to_sender) (Some o)) (Some o) (dec remaining) s = (inr md, s) ∧
    md_decision md = partial_refund ∧ md_sellerAmount md = dec (remaining - x).
Proof.
  intros Hx. unfold verdict_decision, evaluateDisputeRules. simpl. unfold BigInt_throw. rewrite Hx, BigInt_dec.
  run_unfold. eexists. by split.
Qed.

Section engine.
Context `{E : PayEnv} `{ME : MediationEnv} {St : Type} `{DS : DisputeStore St} `{DL : !DisputeStoreLaws St} (threshold : Z).
Implicit Types w : dworld St.

Lemma verdict_decision_id d dec o r w md w' :
  verdict_decision d dec o r w = (inr md, w') → md_disputeId md = d_id d.
Proof.
  unfold verdict_decision, BigInt_throw. run_unfold.
  repeat (case_match; simpl in *; simplify_eq; try done); intros; by simplify_eq.
Qed.

(** A verdict is only executed where the state machine lets the dispute be decided. *)
Lemma executeAutomatedVerdict_legal d dec o w u w' :
  find_in (d_id d) w = Some d → executeAutomatedVerdict d dec o w = (inr u, w') →
  canTransition (d_status d) decided = true.
Proof.
  intros Hd Hrun. unfold executeAutomatedVerdict in Hrun.
  apply bind_inr in Hrun as (bal & w1 & H1 & Hrun). apply bind_inr in Hrun as (c & w2 & H2 & Hrun).
  apply bind_inr in Hrun as (md & w3 & H3 & Hrun). pose proof (verdict_decision_id _ _ _ _ _ _ _ H3) as Hid.
  assert (still w w3) as Hst.
  { apply (evolves_run still) in H1, H2, H3; try evolve; [| apply verdict_decision_still].
    repeat (etrans; [eassumption |]); done. }
  apply try_bind_inr in Hrun as [(e & w4 & _ & Hrun) | (r & w4 & Hsub & _)].
  { apply bind_inr in Hrun as (? & ? & _ & Hrun). done. }
  unfold submitMediationDecision in Hsub. apply bind_inr in Hsub as (d0 & w5 & Hg & Hsub).
  apply get_dispute_run in Hg as [-> Hd0]. rewrite Hid, (still_find _ _ _ Hst), Hd in Hd0. injection Hd0 as <-.
  apply bind_inr in Hsub as (? & ? & H5 & Hsub). apply throw_if_run in H5 as [_ ->].
  apply bind_inr in Hsub as (? & ? & H6 & _). apply throw_if_run in H6 as [H6 _]. by apply negb_false_iff.
Qed.

(** The engine only settles disputes in negotiation: when [runAutoMediation]
    returns a verdict that it executed, the dispute was in [negotiation] or
    [merchant_responded]; on an earlier stage the state machine refuses the decision
    and the call throws. *)
Theorem engine_needs_negotiation i w r w' :
  ds_ok (dw_store w) →
  runAutoMediation threshold i w = (inr r, w') → dm_verdict r ≠ escalate_human → threshold ≤ dm_confidence r →
  ∃ d, find_in (am_disputeId i) w = Some d ∧ (d_status d = negotiation ∨ d_status d = merchant_responded).
Proof.
  intros Hok Hrun Hv Hc. unfold runAutoMediation in Hrun.
  apply bind_inr in Hrun as (d & w0 & Hg & Hrun). apply get_dispute_run in Hg as [-> Hd]. exists d. split; [done |].
  destruct (_ || _) eqn:Hdone; [by injection Hrun as <- _ |]. cbv zeta in Hrun.
  apply orb_false_iff in Hdone as [Hnr%bool_decide_eq_false Hnd%bool_decide_eq_false].
  apply bind_inr in Hrun as (u & w1 & Ha & Hrun).
  pose proof (evolves_run still _ _ _ _ (recordAuditEvent_still _ _ _ _ _) Ha) as Hst.
  set (dec := evaluateDisputeRules d (am_tracking i) (am_offer i)) in *.
  destruct (bool_decide (dm_verdict dec = escalate_human) || (dm_confidence dec <? threshold)) eqn:Hesc.
  { bind_all Hrun. injection Hrun as <- _.
    apply orb_true_iff in Hesc as [H | H]; [by apply bool_decide_eq_true in H | lia]. }
  apply bind_inr in Hrun as (u2 & w2 & He & _). apply executeAutomatedVerdict_legal in He.
  - destruct (d_status d); vm_compute in He; try discriminate; naive_solver.
  - rewrite (still_find _ _ _ Hst). by rewrite (ds_find_id _ _ _ Hok Hd).
Qed.
End engine.

(** ** Concrete runs

    The in-memory store over the environment of [EscrowExamples]: histories that satisfy
    the hypotheses of the theorems above, and the retry of a decision whose seller leg
    failed. *)
Module mediation_example.

Definition demo_uuid (n : nat) : string := "dispute-" +:+ dec (Z.of_nat n).

#[export] Instance demo_uuid_inj : Inj (=) (=) demo_uuid.
Proof. intros n m H. unfold demo_uuid in H. apply (inj (String.append _)) in H. apply (inj dec) in H. lia. Qed.

#[export] Instance demo_store : DisputeStore InMemoryDisputeStore := in_memory_store demo_uuid.

#[export] Instance demo_store_laws : DisputeStoreLaws InMemoryDisputeStore := in_memory_laws demo_uuid.

Definition demo_mediation : MediationEnv := {|
  event_accepted := λ _ _, true; DISPUTE_MEDIATOR_POOL := Some "GMEDIATOR, GSECOND"
|}.
#[export] Existing Instance demo_mediation.

(** [demo_env] with the escrow contract configured; the wallet service fails the
    transactions of the method [bad], if any. *)
Definition mediation_chain (bad : option string) : ChainEnv := {|
  service_token := Some "token";
  wallet_http before req :=
    Reply 200 (Some {| api_data := Some {| hash := "tx" +:+ dec (Z.of_nat (length before)); ledger := 1;
                                           success := negb (bool_decide (bad = Some (method req))) |};
                       api_error := None |});
  rpc_getTransaction := λ _, inr {| rpc_success := true; rpc_returnValue := Some "7" |};
  sha256 := λ _, []
|}.

Definition mediation_env (bad : option string) : PayEnv := {|
  pay_pg := demo_pg;
  pay_chain := mediation_chain bad;
  redis_publish := λ _ _, None;
  fraud_http := λ _ _, FraudReply 200 (Some false);
  ESCROW_CONTRACT_ID := Some "CESCROW";
  read_source_address := None;
  readEscrowFromChain := λ _ _ _, inl (Error "not found")
|}.

Definition demo_empty : dworld InMemoryDisputeStore := DWorld demo_start (InMemory [] [] 0) [] [] [] 0.

Lemma demo_empty_ok : ds_ok (dw_store demo_empty).
Proof. split; [constructor | done]. Qed.

Definition demo_open : OpenDisputeParams := {|
  op_escrowId := "7"; op_initiatedBy := "GBUYER"; op_reason := "broken"; op_slaDays := None |}.

(** One funded order and an open dispute about it. *)
Definition demo_opened : dworld InMemoryDisputeStore :=
  @dispute_calls (mediation_env None) _ _ _ [DCoordinator (OpFund demo_fund); DOpen demo_open] demo_empty.

(** ... which then has a mediator. *)
Definition demo_negotiating : dworld InMemoryDisputeStore :=
  @dispute_calls (mediation_env None) _ _ _ [DAutoAssign "dispute-0"] demo_opened.

Definition demo_decision : MediationDecision := {|
  md_disputeId := "dispute-0"; md_decision := split; md_buyerAmount := "40"; md_sellerAmount := "60";
  md_reasoning := "partly damaged"; md_mediator := "GMEDIATOR" |}.

Lemma demo_opened_ok : ds_ok (dw_store demo_opened).
Proof. apply (@dispute_calls_grow (mediation_env None) _ _ _ _ _ demo_empty demo_empty_ok). Qed.

Lemma demo_negotiating_ok : ds_ok (dw_store demo_negotiating).
Proof. apply (@dispute_calls_grow (mediation_env None) _ _ _ _ _ demo_opened demo_opened_ok). Qed.

Lemma demo_empty_wf : @pay_wf (mediation_env None) (dw_pay demo_empty).
Proof. apply (@fresh_wf (mediation_env None)). Qed.

Lemma demo_negotiating_wf : @pay_wf (mediation_env None) (dw_pay demo_negotiating).
Proof.
  apply (@dispute_calls_pay (mediation_env None) demo_pg_laws _ _ _ _ demo_opened).
  apply (@dispute_calls_pay (mediation_env None) demo_pg_laws _ _ _ _ demo_empty), demo_empty_wf.
Qed.

(** ** Witnesses *)

Lemma demo_opened_sound id d : find_in id demo_opened = Some d → dispute_sound d.
Proof.
  unfold find_in. set (st := dw_store demo_opened). vm_compute in st. subst st. cbn. destruct (String.eqb id "dispute-0"); [| done].
  intros [= <-]. by split.
Qed.

Lemma dispute_lifecycle_witness :
  ∃ d d', find_in "dispute-0" demo_opened = Some d ∧ d_status d = open ∧
    find_in "dispute-0" (@dispute_calls (mediation_env None) _ _ _ [DAutoAssign "dispute-0"; DDecide demo_decision] demo_opened) = Some d' ∧
    d_status d' = resolved ∧ dispute_grows d d' ∧ dispute_sound d'.
Proof.
  destruct (find_in "dispute-0" demo_opened) as [d |] eqn:Hd; [| vm_compute in Hd; discriminate].
  destruct (@dispute_lifecycle (mediation_env None) _ _ _ _ [DAutoAssign "dispute-0"; DDecide demo_decision]
    demo_opened demo_opened_ok) as (H & Hs & _).
  { exact demo_opened_sound. }
  destruct (H _ _ Hd) as (d' & Hd' & Hg). exists d, d'. split; [reflexivity |].
  split; [vm_compute in Hd; injection Hd as <-; reflexivity |].
  split; [exact Hd' |]. split; [vm_compute in Hd'; injection Hd' as <-; reflexivity |]. split; [exact Hg |]. eapply Hs, Hd'.
Defined.

Lemma disputes_follow_ledger_witness :
  rtc ledger_step (book (dw_pay demo_empty))
    (book (dw_pay (@dispute_calls (mediation_env None) _ _ _
       [DCoordinator (OpFund demo_fund); DOpen demo_open; DAutoAssign "dispute-0"; DDecide demo_decision] demo_empty))).
Proof.
  apply (@disputes_follow_ledger (mediation_env None) demo_pg_laws _ _ _ _ demo_empty demo_empty_wf).
Defined.

Lemma decision_settles_witness :
  ∃ r w', @submitMediationDecision (mediation_env None) _ _ _ demo_decision demo_negotiating = (inr r, w') ∧
    d_status r = resolved ∧
    ∃ i row, first_escrow "7" (dw_pay demo_negotiating) i row ∧
      book (dw_pay w') = <[i := pay_release 60 (pay_refund 40 (balance_of row))]> (book (dw_pay demo_negotiating)).
Proof.
  destruct (@submitMediationDecision (mediation_env None) _ _ _ demo_decision demo_negotiating) as [o w'] eqn:Hrun.
  destruct o as [e | r]; [vm_compute in Hrun; discriminate |].
  destruct (find_in "dispute-0" demo_negotiating) as [d |] eqn:Hd; [| vm_compute in Hd; discriminate].
  assert (d_escrowId d = "7") as He by (vm_compute in Hd; injection Hd as <-; reflexivity).
  destruct (@decision_settles (mediation_env None) demo_pg_laws _ _ _ _ demo_decision demo_negotiating d w' r
    demo_negotiating_wf demo_negotiating_ok Hd Hrun) as [H | (Hs & i & row & x & y & Hf & Hx & Hy & Hb & _)].
  - exfalso. vm_compute in Hrun. injection Hrun as <- _. discriminate.
  - exists r, w'. split; [reflexivity |]. split; [exact Hs |]. exists i, row. rewrite <- He. split; [exact Hf |].
    vm_compute in Hx, Hy. injection Hx as <-. injection Hy as <-. exact Hb.
Defined.

Lemma sla_scan_idempotent_witness :
  ∃ n w', findAndEscalateBreachedDisputes (1000 + 15 * DAY_MS) demo_opened = (inr n, w') ∧ n.1 = 1%nat ∧
    findAndEscalateBreachedDisputes (1000 + 15 * DAY_MS) w' = (inr (0%nat, []), w').
Proof.
  destruct (findAndEscalateBreachedDisputes (1000 + 15 * DAY_MS) demo_opened) as [o w'] eqn:Hrun.
  destruct o as [e | n]; [vm_compute in Hrun; discriminate |]. exists n, w'. split; [reflexivity |].
  split; [vm_compute in Hrun; injection Hrun as <- _; reflexivity |].
  change w' with ((inr n : exn + _, w').2). rewrite <- Hrun.
  apply (sla_scan_idempotent (1000 + 15 * DAY_MS) demo_opened demo_opened_ok).
Defined.

Lemma stalled_scan_idempotent_witness :
  ∃ n w', findAndEscalateStalledDisputes (1000 + 4 * DAY_MS) 72 demo_opened = (inr n, w') ∧ n.1 = 1%nat ∧
    findAndEscalateStalledDisputes (1000 + 4 * DAY_MS) 72 w' = (inr (0%nat, []), w').
Proof.
  destruct (findAndEscalateStalledDisputes (1000 + 4 * DAY_MS) 72 demo_opened) as [o w'] eqn:Hrun.
  destruct o as [e | n]; [vm_compute in Hrun; discriminate |]. exists n, w'. split; [reflexivity |].
  split; [vm_compute in Hrun; injection Hrun as <- _; reflexivity |].
  change w' with ((inr n : exn + _, w').2). rewrite <- Hrun.
  apply (stalled_scan_idempotent (1000 + 4 * DAY_MS) 72 demo_opened demo_opened_ok).
Defined.

Definition demo_offer : PartialRefundOffer := {| of_amountStroops := "30"; of_acceptedBy := "GSELLER"; of_acceptedAt := 0 |}.

Lemma auto_verdict_conserves_witness :
  ∃ d md, find_in "dispute-0" demo_negotiating = Some d ∧
    verdict_decision d (evaluateDisputeRules d None (Some demo_offer)) (Some demo_offer) (dec 100) demo_negotiating = (inr md, demo_negotiating) ∧
    validateResolutionAmounts md (dec 100) demo_negotiating = (inr (), demo_negotiating).
Proof.
  destruct (find_in "dispute-0" demo_negotiating) as [d |] eqn:Hd; [| vm_compute in Hd; discriminate].
  eexists d, _. split; [reflexivity |]. split; [reflexivity |].
  apply (auto_verdict_conserves d (evaluateDisputeRules d None (Some demo_offer)) (Some demo_offer) 100 demo_negotiating);
    [discriminate | reflexivity |].
  exists 30. split; [reflexivity | lia].
Defined.

Definition demo_auto : AutoMediationInput := {| am_disputeId := "dispute-0"; am_tracking := Some delivered; am_offer := None |}.

Lemma engine_needs_negotiation_witness :
  ∃ d, find_in "dispute-0" demo_negotiating = Some d ∧ (d_status d = negotiation ∨ d_status d = merchant_responded).
Proof.
  destruct (@runAutoMediation (mediation_env None) _ _ _ 80 demo_auto demo_negotiating) as [o w'] eqn:Hrun.
  destruct o as [e | r]; [vm_compute in Hrun; discriminate |].
  assert (dm_verdict r = payout_merchant ∧ dm_confidence r = 90) as [Hv Hc].
  { vm_compute in Hrun. injection Hrun as <- _. split; reflexivity. }
  apply (@engine_needs_negotiation (mediation_env None) _ _ _ _ 80 demo_auto demo_negotiating r w' demo_negotiating_ok Hrun);
    [rewrite Hv; discriminate | rewrite Hc; discriminate].
Defined.

(** ** Retrying a decision *)

(** A decision whose seller leg failed on-chain can be executed again as the code
    invites to, but the buyer's leg is not skipped: with a split of 40 and 60 whose
    release fails, the retry refunds the buyer another 40 out of the seller's 60. *)
Theorem retry_refunds_buyer_twice :
  let w1 := (@submitMediationDecision (mediation_env (Some "partial_release")) _ _ _ demo_decision demo_negotiating).2 in
  let w2 := (@executeDecision (mediation_env (Some "partial_release")) _ _ _ "dispute-0" w1).2 in
  b_refunded <$> book (dw_pay w1) = [40] ∧ d_status <$> find_in "dispute-0" w1 = Some decided ∧
  b_refunded <$> book (dw_pay w2) = [80] ∧ b_released <$> book (dw_pay w2) = [0] ∧
  d_status <$> find_in "dispute-0" w2 = Some decided.
Proof. vm_compute. repeat split. Qed.
End mediation_example.
