(* ===== verification/Multisig.v ===== *)
(** * Multi-signature wallets (apps/backend/wallet/src/multisig/service.ts, types.ts)

    The tables behind the Sequelize models are lists of rows; an instance returned by
    a lookup is the position of its row, and [instance.update(fields)] writes those
    columns of the row.  Weights, thresholds and nonces are
    integers.  The SHA-256 digests that make up addresses and execution hashes, and
    generated primary keys, are parameters. *)
From S2P Require Import Prelude JsLib.
Local Open Scope Z_scope.

(** ** Data (types.ts) *)

Record MultiSigSigner := { sg_address : string; sg_weight : Z; sg_addedAt : Z }.

Record MultiSigWallet := {
  mw_id : string; mw_address : string; mw_signers : list MultiSigSigner; mw_threshold : Z;
  mw_nonce : Z; mw_createdAt : Z; mw_paused : bool
}.

Record ProposalTransaction := {
  tx_contractId : string; tx_method : string; tx_args : list string; tx_memo : string
}.

Record ProposalSignature := { ps_signer : string; ps_signature : string; ps_signedAt : Z }.

Inductive ProposalStatus := pending | signed | executed | expired | cancelled.

#[export] Instance ProposalStatus_eq_dec : EqDecision ProposalStatus.
Proof. solve_decision. Defined.

Definition proposal_status_name (s : ProposalStatus) : string :=
  match s with
  | pending => "pending" | signed => "signed" | executed => "executed"
  | expired => "expired" | cancelled => "cancelled"
  end.

Record MultiSigProposal := {
  mp_id : string; mp_walletId : string; mp_proposer : string; mp_transaction : ProposalTransaction;
  mp_signatures : list ProposalSignature; mp_status : ProposalStatus; mp_createdAt : Z; mp_expiresAt : Z;
  mp_executedAt : option Z; mp_executionHash : option string
}.

Inductive SignerUpdateAction := add | remove | update_weight.

Record CreateMultiSigWalletRequest := { cw_signers : list (string * Z); cw_threshold : Z }.
(** [expiresAt] is absent or a date. *)
Record CreateProposalRequest := { cp_proposer : string; cp_transaction : ProposalTransaction; cp_expiresAt : option Z }.
Record SubmitSignatureRequest := { sr_signer : string; sr_signature : string }.
Record UpdateSignerRequest := {
  us_action : SignerUpdateAction; us_address : string; us_weight : Z; us_proposedBy : string
}.

(** A row of the audit table, with its event type and who performed it. *)
Record MultiSigAuditEntry := { ma_walletId : string; ma_eventType : string; ma_performedBy : string; ma_at : Z }.

(** ** State and environment *)

Record msdb := MsDb {
  ms_wallets : list MultiSigWallet;
  ms_proposals : list MultiSigProposal;
  ms_audit : list MultiSigAuditEntry;
  ms_now : Z;
  ms_uuids : nat
}.

Class MultisigEnv := {
  ms_uuid : nat → string;
  (** hex digest of the sorted [address:weight] pairs and the threshold *)
  address_digest : list (string * Z) → Z → string;
  (** hex digest of the transaction and the time *)
  execution_digest : ProposalTransaction → Z → string
}.

Definition DEFAULT_EXPIRY_DAYS : Z := 7.
Definition MIN_SIGNERS : nat := 2.
Definition MAX_SIGNERS : nat := 10.
Arguments MIN_SIGNERS : simpl never.
Arguments MAX_SIGNERS : simpl never.

Definition set_wallet (i : nat) (w : MultiSigWallet) (d : msdb) : msdb :=
  MsDb (<[i := w]> (ms_wallets d)) (ms_proposals d) (ms_audit d) (ms_now d) (ms_uuids d).
Definition set_proposal (i : nat) (p : MultiSigProposal) (d : msdb) : msdb :=
  MsDb (ms_wallets d) (<[i := p]> (ms_proposals d)) (ms_audit d) (ms_now d) (ms_uuids d).

Definition addAuditLog (walletId eventType performedBy : string) : M msdb () :=
  modify (λ d, MsDb (ms_wallets d) (ms_proposals d)
    (ms_audit d ++ [{| ma_walletId := walletId; ma_eventType := eventType; ma_performedBy := performedBy; ma_at := ms_now d |}])
    (ms_now d) (ms_uuids d)).

(** [MultiSigWalletModel.findByPk], and the check that follows it. *)
Definition find_wallet (walletId : string) : M msdb (nat * MultiSigWallet) :=
  r ← gets (λ d, find_row (λ w, String.eqb (mw_id w) walletId) (ms_wallets d));
  some_or_throw r (Error ("MultiSig wallet not found: " +:+ walletId)).

Definition find_proposal (walletId proposalId : string) : M msdb (nat * MultiSigProposal) :=
  r ← gets (λ d, find_row (λ p, String.eqb (mp_id p) proposalId && String.eqb (mp_walletId p) walletId) (ms_proposals d));
  some_or_throw r (Error ("Proposal not found: " +:+ proposalId)).

Definition find_signer (address : string) (signers : list MultiSigSigner) : option MultiSigSigner :=
  List.find (λ s, String.eqb (sg_address s) address) signers.

Definition totalWeight (signers : list MultiSigSigner) : Z := foldl (λ sum s, sum + sg_weight s) 0 signers.

(** The weight of the signatures whose signer is still a signer of the wallet. *)
Definition accumulatedWeight (w : MultiSigWallet) (sigs : list ProposalSignature) : Z :=
  foldl (λ sum sig, sum + from_option sg_weight 0 (find_signer (ps_signer sig) (mw_signers w))) 0 sigs.

Definition with_status (s : ProposalStatus) (p : MultiSigProposal) : MultiSigProposal := {|
  mp_id := mp_id p; mp_walletId := mp_walletId p; mp_proposer := mp_proposer p; mp_transaction := mp_transaction p;
  mp_signatures := mp_signatures p; mp_status := s; mp_createdAt := mp_createdAt p; mp_expiresAt := mp_expiresAt p;
  mp_executedAt := mp_executedAt p; mp_executionHash := mp_executionHash p |}.

Definition with_signatures (sigs : list ProposalSignature) (s : ProposalStatus) (p : MultiSigProposal) : MultiSigProposal := {|
  mp_id := mp_id p; mp_walletId := mp_walletId p; mp_proposer := mp_proposer p; mp_transaction := mp_transaction p;
  mp_signatures := sigs; mp_status := s; mp_createdAt := mp_createdAt p; mp_expiresAt := mp_expiresAt p;
  mp_executedAt := mp_executedAt p; mp_executionHash := mp_executionHash p |}.

Definition with_execution (now : Z) (hash : string) (p : MultiSigProposal) : MultiSigProposal := {|
  mp_id := mp_id p; mp_walletId := mp_walletId p; mp_proposer := mp_proposer p; mp_transaction := mp_transaction p;
  mp_signatures := mp_signatures p; mp_status := executed; mp_createdAt := mp_createdAt p; mp_expiresAt := mp_expiresAt p;
  mp_executedAt := Some now; mp_executionHash := Some hash |}.

Definition with_nonce (n : Z) (w : MultiSigWallet) : MultiSigWallet := {|
  mw_id := mw_id w; mw_address := mw_address w; mw_signers := mw_signers w; mw_threshold := mw_threshold w;
  mw_nonce := n; mw_createdAt := mw_createdAt w; mw_paused := mw_paused w |}.
Definition with_signers (s : list MultiSigSigner) (w : MultiSigWallet) : MultiSigWallet := {|
  mw_id := mw_id w; mw_address := mw_address w; mw_signers := s; mw_threshold := mw_threshold w;
  mw_nonce := mw_nonce w; mw_createdAt := mw_createdAt w; mw_paused := mw_paused w |}.
Definition with_paused (b : bool) (w : MultiSigWallet) : MultiSigWallet := {|
  mw_id := mw_id w; mw_address := mw_address w; mw_signers := mw_signers w; mw_threshold := mw_threshold w;
  mw_nonce := mw_nonce w; mw_createdAt := mw_createdAt w; mw_paused := b |}.

Section service.
Context `{ME : MultisigEnv}.

(** ** Wallet creation *)

Definition createMultiSigWallet (req : CreateMultiSigWalletRequest) : M msdb MultiSigWallet :=
  let signers := cw_signers req in
  let threshold := cw_threshold req in
  throw_if ((length signers <? MIN_SIGNERS)%nat || (MAX_SIGNERS <? length signers)%nat)
    (Error ("MultiSig wallets require 2–10 signers, got " +:+ dec (Z.of_nat (length signers))));;
  for_each signers (λ s,
    throw_if (String.eqb s.1 "") (Error "Each signer must have a valid address");;
    throw_if (s.2 <? 1) (Error "Each signer weight must be a positive integer"));;
  now ← gets ms_now;
  let signerData := (λ s, {| sg_address := s.1; sg_weight := s.2; sg_addedAt := now |}) <$> signers in
  let total := totalWeight signerData in
  throw_if ((threshold <? 1) || (total <? threshold))
    (Error ("Threshold must be between 1 and total weight (" +:+ dec total +:+ "), got " +:+ dec threshold));;
  n ← gets ms_uuids;
  let wallet := {|
    mw_id := ms_uuid n; mw_address := "MULTISIG_" +:+ toUpperCase (String.substring 0 40 (address_digest signers threshold));
    mw_signers := signerData; mw_threshold := threshold; mw_nonce := 0; mw_createdAt := now; mw_paused := false |} in
  modify (λ d, MsDb (ms_wallets d ++ [wallet]) (ms_proposals d) (ms_audit d) (ms_now d) (S (ms_uuids d)));;
  addAuditLog (mw_id wallet) "WALLET_CREATED" (from_option fst "" (head signers));;
  mret wallet.

(** ** Proposals *)

Definition createProposal (walletId : string) (req : CreateProposalRequest) : M msdb MultiSigProposal :=
  r ← find_wallet walletId;
  throw_if (mw_paused r.2) (Error "Wallet is paused; no new proposals may be created");;
  some_or_throw (find_signer (cp_proposer req) (mw_signers r.2))
    (Error ("Proposer " +:+ cp_proposer req +:+ " is not a signer of wallet " +:+ walletId));;
  now ← gets ms_now;
  let expiresAt := default (now + DEFAULT_EXPIRY_DAYS * 24 * 60 * 60 * 1000) (cp_expiresAt req) in
  throw_if (expiresAt <=? now) (Error "expiresAt must be in the future");;
  n ← gets ms_uuids;
  let proposal := {|
    mp_id := ms_uuid n; mp_walletId := walletId; mp_proposer := cp_proposer req; mp_transaction := cp_transaction req;
    mp_signatures := []; mp_status := pending; mp_createdAt := now; mp_expiresAt := expiresAt;
    mp_executedAt := None; mp_executionHash := None |} in
  modify (λ d, MsDb (ms_wallets d) (ms_proposals d ++ [proposal]) (ms_audit d) (ms_now d) (S (ms_uuids d)));;
  addAuditLog walletId "PROPOSAL_CREATED" (cp_proposer req);;
  mret proposal.

Definition submitSignature (walletId proposalId : string) (req : SubmitSignatureRequest) : M msdb MultiSigProposal :=
  rw ← find_wallet walletId;
  rp ← find_proposal walletId proposalId;
  let wallet := rw.2 in
  let '(i, proposal) := rp in
  now ← gets ms_now;
  (if mp_expiresAt proposal <=? now then
     modify (set_proposal i (with_status expired proposal));;
     addAuditLog walletId "PROPOSAL_EXPIRED" "system";;
     throw (Error "Proposal has expired")
   else mret ());;
  throw_if (negb (bool_decide (mp_status proposal = pending)))
    (Error ("Proposal status is '" +:+ proposal_status_name (mp_status proposal) +:+ "'; cannot add signatures"));;
  some_or_throw (find_signer (sr_signer req) (mw_signers wallet))
    (Error (sr_signer req +:+ " is not a signer of wallet " +:+ walletId));;
  throw_if (existsb (λ s, String.eqb (ps_signer s) (sr_signer req)) (mp_signatures proposal))
    (Error ("Signer " +:+ sr_signer req +:+ " has already signed proposal " +:+ proposalId));;
  let updatedSignatures := mp_signatures proposal ++
    [{| ps_signer := sr_signer req; ps_signature := sr_signature req; ps_signedAt := now |}] in
  let newStatus := if mw_threshold wallet <=? accumulatedWeight wallet updatedSignatures then signed else pending in
  let updated := with_signatures updatedSignatures newStatus proposal in
  modify (set_proposal i updated);;
  addAuditLog walletId "SIGNATURE_SUBMITTED" (sr_signer req);;
  mret updated.

Definition executeProposal (walletId proposalId executorAddress : string) : M msdb MultiSigProposal :=
  rw ← find_wallet walletId;
  let '(wi, wallet) := rw in
  throw_if (mw_paused wallet) (Error "Wallet is paused; execution is blocked");;
  rp ← find_proposal walletId proposalId;
  let '(i, proposal) := rp in
  now ← gets ms_now;
  (if mp_expiresAt proposal <=? now then
     modify (set_proposal i (with_status expired proposal));;
     throw (Error "Proposal has expired")
   else mret ());;
  throw_if (negb (bool_decide (mp_status proposal = signed)))
    (Error ("Proposal must be in 'signed' status to execute; current: '" +:+
            proposal_status_name (mp_status proposal) +:+ "'"));;
  let weight := accumulatedWeight wallet (mp_signatures proposal) in
  throw_if (weight <? mw_threshold wallet)
    (Error ("Insufficient signature weight: " +:+ dec weight +:+ "/" +:+ dec (mw_threshold wallet)));;
  let updated := with_execution now ("exec_" +:+ execution_digest (mp_transaction proposal) now) proposal in
  modify (set_proposal i updated);;
  modify (set_wallet wi (with_nonce (mw_nonce wallet + 1) wallet));;
  addAuditLog walletId "PROPOSAL_EXECUTED" executorAddress;;
  mret updated.

(** ** Signers *)

(** [signer.weight = w] on the first signer with the address. *)
Fixpoint set_weight (address : string) (w : Z) (signers : list MultiSigSigner) : list MultiSigSigner :=
  match signers with
  | [] => []
  | s :: l => if String.eqb (sg_address s) address
              then {| sg_address := sg_address s; sg_weight := w; sg_addedAt := sg_addedAt s |} :: l
              else s :: set_weight address w l
  end.

Definition new_signers (req : UpdateSignerRequest) (now : Z) (signers : list MultiSigSigner)
    : M msdb (list MultiSigSigner) :=
  let not_found := Error ("Signer " +:+ us_address req +:+ " not found") in
  match us_action req with
  | add =>
      throw_if (MAX_SIGNERS <=? length signers)%nat (Error "Cannot add more than 10 signers");;
      throw_if (existsb (λ s, String.eqb (sg_address s) (us_address req)) signers)
        (Error ("Signer " +:+ us_address req +:+ " already exists"));;
      mret (signers ++ [{| sg_address := us_address req; sg_weight := us_weight req; sg_addedAt := now |}])
  | remove =>
      some_or_throw (find_signer (us_address req) signers) not_found;;
      let left := List.filter (λ s, negb (String.eqb (sg_address s) (us_address req))) signers in
      throw_if (length left <? MIN_SIGNERS)%nat (Error "MultiSig wallets require at least 2 signers");;
      mret left
  | update_weight =>
      some_or_throw (find_signer (us_address req) signers) not_found;;
      mret (set_weight (us_address req) (us_weight req) signers)
  end.

Definition updateSigner (walletId : string) (req : UpdateSignerRequest) : M msdb MultiSigWallet :=
  rw ← find_wallet walletId;
  let '(wi, wallet) := rw in
  now ← gets ms_now;
  signers ← new_signers req now (mw_signers wallet);
  let total := totalWeight signers in
  throw_if (total <? mw_threshold wallet)
    (Error ("Updated signers cannot satisfy existing threshold (" +:+ dec (mw_threshold wallet) +:+
            "); total weight is now " +:+ dec total));;
  modify (set_wallet wi (with_signers signers wallet));;
  addAuditLog walletId "SIGNER_UPDATED" (us_proposedBy req);;
  mret (with_signers signers wallet).

(** ** Pause, expiry and reads *)

Definition pauseWallet (walletId performedBy : string) : M msdb MultiSigWallet :=
  rw ← find_wallet walletId;
  throw_if (mw_paused rw.2) (Error "Wallet is already paused");;
  modify (set_wallet rw.1 (with_paused true rw.2));;
  addAuditLog walletId "WALLET_PAUSED" performedBy;;
  mret (with_paused true rw.2).

Definition unpauseWallet (walletId performedBy : string) : M msdb MultiSigWallet :=
  rw ← find_wallet walletId;
  throw_if (negb (mw_paused rw.2)) (Error "Wallet is not paused");;
  modify (set_wallet rw.1 (with_paused false rw.2));;
  addAuditLog walletId "WALLET_UNPAUSED" performedBy;;
  mret (with_paused false rw.2).

(** The pending rows with their positions, read before the loop. *)
Definition stale_rows (d : msdb) : list (nat * MultiSigProposal) :=
  List.filter (λ r, bool_decide (mp_status r.2 = pending)) (imap pair (ms_proposals d)).

Definition expireStaleProposals : M msdb Z :=
  stale ← gets stale_rows;
  now ← gets ms_now;
  for_each stale (λ r,
    if mp_expiresAt r.2 <=? now then
      modify (set_proposal r.1 (with_status expired r.2));;
      addAuditLog (mp_walletId r.2) "PROPOSAL_EXPIRED" "system"
    else mret ());;
  mret (Z.of_nat (length (List.filter (λ r, mp_expiresAt r.2 <=? now) stale))).

Definition getWallet (walletId : string) : M msdb MultiSigWallet := r ← find_wallet walletId; mret r.2.

Definition getProposal (walletId proposalId : string) : M msdb MultiSigProposal :=
  r ← find_proposal walletId proposalId; mret r.2.

(** [order: created_at DESC]: newest first. *)
Fixpoint insert_desc (p : MultiSigProposal) (l : list MultiSigProposal) : list MultiSigProposal :=
  match l with
  | [] => [p]
  | q :: l' => if mp_createdAt q <=? mp_createdAt p then p :: q :: l' else q :: insert_desc p l'
  end.
Definition listProposals (walletId : string) : M msdb (list MultiSigProposal) :=
  gets (λ d, foldl (flip insert_desc) [] (List.filter (λ p, String.eqb (mp_walletId p) walletId) (ms_proposals d))).
End service.
