(* ===== verification/MultisigCorrect.v ===== *)
(** * Correctness of the multi-signature service

    The invariants of wallets and proposals over all histories, the exact conditions
    and effect of an execution, and that a proposal is executed at most once. *)
From S2P Require Import Prelude JsLib Multisig.
Local Open Scope Z_scope.

(** ** Histories *)

Inductive ms_op :=
  | MsCreateWallet (r : CreateMultiSigWalletRequest)
  | MsCreateProposal (w : string) (r : CreateProposalRequest)
  | MsSign (w p : string) (r : SubmitSignatureRequest)
  | MsExecute (w p executor : string)
  | MsUpdateSigner (w : string) (r : UpdateSignerRequest)
  | MsPause (w by' : string)
  | MsUnpause (w by' : string)
  | MsExpire
  | MsTick (ms : Z).

Section correctness.
Context `{ME : MultisigEnv}.

Definition ms_ignore {A} (c : M msdb A) : M msdb () := _ ← c; mret ().

Definition ms_run (o : ms_op) : M msdb () :=
  match o with
  | MsCreateWallet r => ms_ignore (createMultiSigWallet r)
  | MsCreateProposal w r => ms_ignore (createProposal w r)
  | MsSign w p r => ms_ignore (submitSignature w p r)
  | MsExecute w p x => ms_ignore (executeProposal w p x)
  | MsUpdateSigner w r => ms_ignore (updateSigner w r)
  | MsPause w b => ms_ignore (pauseWallet w b)
  | MsUnpause w b => ms_ignore (unpauseWallet w b)
  | MsExpire => ms_ignore expireStaleProposals
  | MsTick t => modify (λ d, MsDb (ms_wallets d) (ms_proposals d) (ms_audit d) (ms_now d + t) (ms_uuids d))
  end.

Definition ms_calls (ops : list ms_op) (d : msdb) : msdb := foldl (λ d o, (ms_run o d).2) d ops.

(** ** How a proposal evolves *)

Inductive status_step : relation ProposalStatus :=
  | step_sign : status_step pending signed
  | step_execute : status_step signed executed
  | step_expire s : status_step s expired.

Record prop_evolves (p p' : MultiSigProposal) : Prop := {
  pe_id : mp_id p' = mp_id p;
  pe_wallet : mp_walletId p' = mp_walletId p;
  pe_proposer : mp_proposer p' = mp_proposer p;
  pe_transaction : mp_transaction p' = mp_transaction p;
  pe_expires : mp_expiresAt p' = mp_expiresAt p;
  pe_signatures : mp_signatures p `prefix_of` mp_signatures p';
  pe_status : rtc status_step (mp_status p) (mp_status p')
}.

#[global] Instance prop_evolves_preorder : PreOrder prop_evolves.
Proof.
  split; [intros p; split; done || apply rtc_refl |].
  intros p1 p2 p3 [] []. split; try congruence; by etrans.
Qed.

Definition proposals_evolve (d d' : msdb) : Prop := rows_evolve prop_evolves (ms_proposals d) (ms_proposals d').

#[global] Instance proposals_evolve_preorder : PreOrder proposals_evolve.
Proof.
  split; [intros d; unfold proposals_evolve; done |].
  intros d1 d2 d3 H1 H2. unfold proposals_evolve in *. by etrans.
Qed.

Lemma expire_evolves p : prop_evolves p (with_status expired p).
Proof. split; try done. apply rtc_once, step_expire. Qed.

Lemma sign_evolves p sigs b :
  mp_status p = pending → prop_evolves p (with_signatures (mp_signatures p ++ sigs) (if b : bool then signed else pending) p).
Proof.
  intros Hs. split; try done; simpl; [by apply prefix_app_r |]. rewrite Hs.
  destruct b; [apply rtc_once, step_sign | apply rtc_refl].
Qed.

Lemma execute_evolves p now h : mp_status p = signed → prop_evolves p (with_execution now h p).
Proof. intros Hs. split; try done. simpl. rewrite Hs. apply rtc_once, step_execute. Qed.

Lemma set_proposal_evolves d i p p' :
  ms_proposals d !! i = Some p → prop_evolves p p' → proposals_evolve d (set_proposal i p' d).
Proof. intros Hi Hp. by apply (rows_evolve_insert _ _ _ p). Qed.

(** The rows the lookups return. *)
Lemma find_wallet_run w d :
  (∃ i r, find_wallet w d = (inr (i, r), d) ∧ ms_wallets d !! i = Some r) ∨ ∃ e, find_wallet w d = (inl e, d).
Proof.
  unfold find_wallet. run_unfold. destruct (find_row _ _) as [[i r] |] eqn:H; simpl; [left | eauto].
  apply find_row_lookup in H as [H _]. eauto.
Qed.

Lemma find_proposal_run w p d :
  (∃ i r, find_proposal w p d = (inr (i, r), d) ∧ ms_proposals d !! i = Some r) ∨ ∃ e, find_proposal w p d = (inl e, d).
Proof.
  unfold find_proposal. run_unfold. destruct (find_row _ _) as [[i r] |] eqn:H; simpl; [left | eauto].
  apply find_row_lookup in H as [H _]. eauto.
Qed.

Ltac with_wallet d i r Hr :=
  match goal with |- context [(find_wallet ?w ≫= ?k) d] =>
    let e := fresh "e" in let H := fresh "H" in
    destruct (find_wallet_run w d) as [(i & r & H & Hr) | [e H]];
    [rewrite (bind_run _ _ _ _ _ H) | rewrite (bind_run_err _ _ _ _ _ H)] end.
Ltac with_proposal d i r Hr :=
  match goal with |- context [(find_proposal ?w ?p ≫= ?k) d] =>
    let e := fresh "e" in let H := fresh "H" in
    destruct (find_proposal_run w p d) as [(i & r & H & Hr) | [e H]];
    [rewrite (bind_run _ _ _ _ _ H) | rewrite (bind_run_err _ _ _ _ _ H)] end.

Lemma submitSignature_evolves w p r : evolves proposals_evolve (submitSignature w p r).
Proof.
  intros d. unfold submitSignature. with_wallet d wi wr Hw; [| done]. with_proposal d i pr Hp; [| done].
  run_unfold. destruct (_ <=? _); simpl; [by eapply set_proposal_evolves, expire_evolves |].
  case_bool_decide as Hs; simpl; [| done]. destruct (find_signer _ _); simpl; [| done].
  destruct (existsb _ _); simpl; [done |]. eapply set_proposal_evolves; [done |]. by apply sign_evolves.
Qed.
Lemma executeProposal_evolves w p x : evolves proposals_evolve (executeProposal w p x).
Proof.
  intros d. unfold executeProposal. with_wallet d wi wr Hw; [| done].
  run_unfold. destruct (mw_paused wr); simpl; [done |].
  destruct (find_proposal_run w p d) as [(i & pr & Hf & Hp) | [e Hf]]; rewrite Hf; [| done].
  destruct (_ <=? _); simpl; [by eapply set_proposal_evolves, expire_evolves |].
  case_bool_decide as Hs; simpl; [| done]. destruct (_ <? _); simpl; [done |].
  apply (set_proposal_evolves d i pr); [done |]. by apply execute_evolves.
Qed.

Lemma same_proposals_evolve d d' : ms_proposals d' = ms_proposals d → proposals_evolve d d'.
Proof. intros H. unfold proposals_evolve. by rewrite H. Qed.

Lemma createProposal_evolves w r : evolves proposals_evolve (createProposal w r).
Proof.
  intros d. unfold createProposal. with_wallet d wi wr Hw; [| done]. run_unfold.
  destruct (mw_paused wr); simpl; [done |]. destruct (find_signer _ _); simpl; [| done].
  destruct (_ <=? _); simpl; [done |]. by apply rows_evolve_app.
Qed.

(** Everything but the three writers above leaves the proposals alone. *)
Lemma modify_same_evolves f : (∀ d, ms_proposals (f d) = ms_proposals d) → evolves proposals_evolve (modify f).
Proof. intros H d. apply same_proposals_evolve, H. Qed.

Lemma addAuditLog_evolves w e b : evolves proposals_evolve (addAuditLog w e b).
Proof. by apply modify_same_evolves. Qed.

Lemma find_wallet_evolves w : evolves proposals_evolve (find_wallet w).
Proof. unfold find_wallet. evolve. Qed.

Hint Resolve addAuditLog_evolves find_wallet_evolves : evolve.

Lemma createWallet_evolves r : evolves proposals_evolve (createMultiSigWallet r).
Proof. unfold createMultiSigWallet. evolve. by apply modify_same_evolves. Qed.

Lemma updateSigner_evolves w r : evolves proposals_evolve (updateSigner w r).
Proof. unfold updateSigner, new_signers. evolve; by apply modify_same_evolves. Qed.

Lemma pauseWallet_evolves w b : evolves proposals_evolve (pauseWallet w b).
Proof. unfold pauseWallet. evolve. by apply modify_same_evolves. Qed.

Lemma unpauseWallet_evolves w b : evolves proposals_evolve (unpauseWallet w b).
Proof. unfold unpauseWallet. evolve. by apply modify_same_evolves. Qed.

(** ** Positions of the stale rows *)

Lemma stale_rows_lookup d r : r ∈ stale_rows d → ms_proposals d !! r.1 = Some r.2.
Proof.
  unfold stale_rows. rewrite list_elem_of_In, List.filter_In, <- list_elem_of_In.
  intros [(i & y & -> & Hy)%elem_of_lookup_imap _]. done.
Qed.

Lemma stale_rows_nodup d : NoDup (stale_rows d).
Proof.
  unfold stale_rows. apply NoDup_ListNoDup, List.NoDup_filter, NoDup_ListNoDup.
  apply NoDup_alt. intros i j x. rewrite !list_lookup_imap.
  destruct (ms_proposals d !! i), (ms_proposals d !! j); simpl; intros; by simplify_eq.
Qed.

Lemma expire_loop_evolves now rows d :
  NoDup rows → (∀ r, r ∈ rows → ms_proposals d !! r.1 = Some r.2) →
  proposals_evolve d (for_each rows (λ r, if mp_expiresAt r.2 <=? now then
      modify (set_proposal r.1 (with_status expired r.2));;
      addAuditLog (mp_walletId r.2) "PROPOSAL_EXPIRED" "system"
    else mret ()) d).2.
Proof.
  revert d. induction rows as [| r rows IH]; intros d Hnd Hl; [done |]. apply NoDup_cons in Hnd as [Hr Hnd].
  pose proof (Hl r ltac:(left)) as Hhead. simpl. run_unfold.
  destruct (_ <=? now); simpl.
  - match goal with |- proposals_evolve _ (for_each rows _ ?d1).2 => assert (proposals_evolve d d1) as H1; [| specialize (IH d1)] end.
    { apply (rows_evolve_insert _ _ _ r.2); [done |]. apply expire_evolves. }
    etrans; [exact H1 |]. apply IH; [done |]. intros r' Hr'. simpl.
    assert (r'.1 ≠ r.1) as Hne.
    { intros Heq. apply Hr. pose proof (Hl r' ltac:(by right)) as Hl'. rewrite Heq, Hhead in Hl'.
      destruct r, r'; simpl in *; by simplify_eq. }
    rewrite list_lookup_insert_ne by done. apply Hl. by right.
  - apply IH; [done |]. intros r' Hr'. apply Hl. by right.
Qed.

Lemma expireStale_evolves : evolves proposals_evolve expireStaleProposals.
Proof.
  intros d. pose proof (expire_loop_evolves (ms_now d) (stale_rows d) d (stale_rows_nodup d) (stale_rows_lookup d)) as H.
  unfold expireStaleProposals. run_unfold. destruct (for_each _ _ d) as [[e | u] d']; done.
Qed.

Lemma ms_run_evolves o : evolves proposals_evolve (ms_run o).
Proof.
  destruct o; simpl; try (unfold ms_ignore; apply evolves_bind; [apply _ | | intros; evolve]);
    [apply createWallet_evolves | apply createProposal_evolves | apply submitSignature_evolves
    | apply executeProposal_evolves | apply updateSigner_evolves | apply pauseWallet_evolves
    | apply unpauseWallet_evolves | apply expireStale_evolves | by apply modify_same_evolves].
Qed.

Lemma ms_calls_evolves ops d : proposals_evolve d (ms_calls ops d).
Proof.
  revert d. induction ops as [| o ops IH]; intros d; [done |].
  etrans; [apply (ms_run_evolves o) | apply IH].
Qed.

(** Over any history a proposal keeps its transaction, wallet and expiry, its
    signatures are only added to, and its status moves only from [pending] to
    [signed], from [signed] to [executed], or to [expired]. *)
Theorem proposal_lifecycle ops d i p :
  ms_proposals d !! i = Some p →
  ∃ p', ms_proposals (ms_calls ops d) !! i = Some p' ∧ prop_evolves p p'.
Proof. apply ms_calls_evolves. Qed.

(** ** Execution *)

(** The conditions under which [executeProposal] goes through. *)
Definition executable (w p : string) (d : msdb) (wi : nat) (wallet : MultiSigWallet) (i : nat) (proposal : MultiSigProposal) : Prop :=
  find_wallet w d = (inr (wi, wallet), d) ∧ mw_paused wallet = false ∧
  find_proposal w p d = (inr (i, proposal), d) ∧ ms_now d < mp_expiresAt proposal ∧
  mp_status proposal = signed ∧ mw_threshold wallet ≤ accumulatedWeight wallet (mp_signatures proposal).

Definition executed_row (d : msdb) (p : MultiSigProposal) : MultiSigProposal :=
  with_execution (ms_now d) ("exec_" +:+ execution_digest (mp_transaction p) (ms_now d)) p.

(** The two ways an execution ends. *)
Lemma execute_cases w p x d :
  (∃ e, (executeProposal w p x d).1 = inl e ∧ ms_wallets (executeProposal w p x d).2 = ms_wallets d) ∨
  ∃ wi wallet i proposal, executable w p d wi wallet i proposal ∧
    (executeProposal w p x d).1 = inr (executed_row d proposal) ∧
    ms_proposals (executeProposal w p x d).2 = <[i := executed_row d proposal]> (ms_proposals d) ∧
    ms_wallets (executeProposal w p x d).2 = <[wi := with_nonce (mw_nonce wallet + 1) wallet]> (ms_wallets d).
Proof.
  unfold executable, executeProposal.
  destruct (find_wallet_run w d) as [(wi & wr & Hf & Hw) | [e Hf]].
  2: { rewrite (bind_run_err _ _ _ _ _ Hf). left. by exists e. }
  rewrite (bind_run _ _ _ _ _ Hf), Hf. cbv beta iota. run_unfold.
  destruct (mw_paused wr) eqn:Hpa; simpl; [by left; eauto |].
  destruct (find_proposal_run w p d) as [(i & pr & Hg & Hp) | [e Hg]]; rewrite Hg; [| by left; eauto].
  destruct (Z.leb_spec (mp_expiresAt pr) (ms_now d)); simpl; [by left; eauto |].
  case_bool_decide; simpl; [| by left; eauto].
  destruct (Z.ltb_spec (accumulatedWeight wr (mp_signatures pr)) (mw_threshold wr)); simpl; [by left; eauto |].
  right. exists wi, wr, i, pr. done.
Qed.

(** A refused execution writes at most the expiry. *)
Lemma refused_proposals w p x d :
  (∃ e, (executeProposal w p x d).1 = inl e) →
  ms_proposals (executeProposal w p x d).2 = ms_proposals d ∨
  ∃ i q, find_proposal w p d = (inr (i, q), d) ∧ mp_expiresAt q ≤ ms_now d ∧
    ms_proposals (executeProposal w p x d).2 = <[i := with_status expired q]> (ms_proposals d).
Proof.
  unfold executeProposal. destruct (find_wallet_run w d) as [(wi & wr & Hf & Hw) | [e Hf]]; [| rewrite (bind_run_err _ _ _ _ _ Hf); by left].
  rewrite (bind_run _ _ _ _ _ Hf). cbv beta iota. run_unfold. destruct (mw_paused wr); simpl; [by left |].
  destruct (find_proposal_run w p d) as [(i & pr & Hg & Hp) | [e Hg]]; rewrite Hg; [| by left].
  destruct (Z.leb_spec (mp_expiresAt pr) (ms_now d)); simpl; [intros _; right; by exists i, pr |].
  case_bool_decide; simpl; [| by left]. destruct (Z.ltb_spec (accumulatedWeight wr (mp_signatures pr)) (mw_threshold wr)); simpl; [by left |]. by intros [e ?].
Qed.

(** C4. [executeProposal], on every branch.  When the wallet exists and is not paused, the
    proposal exists, has not expired and is [signed], and its signatures still reach the
    threshold with the wallet's current signers, it returns the proposal as [executed]
    with a hash and a time, and changes this row and the wallet's nonce and no other row.
    In every other case it throws and changes no wallet, and no proposal but one past its
    expiry, which it marks [expired]. *)
Theorem execute_exact w p x d :
  let out := executeProposal w p x d in
  (∀ wi wallet i proposal, executable w p d wi wallet i proposal →
     out.1 = inr (executed_row d proposal) ∧
     ms_proposals out.2 = <[i := executed_row d proposal]> (ms_proposals d) ∧
     ms_wallets out.2 = <[wi := with_nonce (mw_nonce wallet + 1) wallet]> (ms_wallets d)) ∧
  ((∀ wi wallet i proposal, ¬ executable w p d wi wallet i proposal) →
     (∃ e, out.1 = inl e) ∧ ms_wallets out.2 = ms_wallets d ∧
     (ms_proposals out.2 = ms_proposals d ∨
      ∃ i q, find_proposal w p d = (inr (i, q), d) ∧ mp_expiresAt q ≤ ms_now d ∧
        ms_proposals out.2 = <[i := with_status expired q]> (ms_proposals d))).
Proof.
  split.
  - intros wi wallet i q (Hf & Hpa & Hg & Hexp & Hst & Hth). unfold executeProposal. rewrite (bind_run _ _ _ _ _ Hf). cbv beta iota. run_unfold.
    rewrite Hpa. simpl. rewrite Hg. destruct (Z.leb_spec (mp_expiresAt q) (ms_now d)); [lia |]. simpl. rewrite bool_decide_eq_true_2 by done. simpl.
    destruct (Z.ltb_spec (accumulatedWeight wallet (mp_signatures q)) (mw_threshold wallet)); [lia | done].
  - intros Hno. destruct (execute_cases w p x d) as [(e & He & Hw) | (wi & wallet & i & q & Hex & _)]; [| by destruct (Hno wi wallet i q)].
    split; [by exists e |]. split; [done |]. apply refused_proposals. by exists e.
Qed.

(** Neither [executed] nor [expired] leads back to [signed]. *)
Lemma executed_final s : rtc status_step executed s → s ≠ signed.
Proof.
  assert (∀ a b, rtc status_step a b → a = executed ∨ a = expired → b ≠ signed) as Hr; [| by eauto].
  induction 1 as [| a b c Hab _ IH]; [naive_solver |]. intros Ha. apply IH. inversion Hab; subst; naive_solver.
Qed.

Lemma find_proposal_row w p d i q :
  find_proposal w p d = (inr (i, q), d) ↔
  find_row (λ q, String.eqb (mp_id q) p && String.eqb (mp_walletId q) w) (ms_proposals d) = Some (i, q).
Proof. unfold find_proposal. run_unfold. destruct (find_row _ _) as [[]|]; simpl; naive_solver. Qed.

Lemma prop_evolves_key w p y z :
  prop_evolves y z → String.eqb (mp_id z) p && String.eqb (mp_walletId z) w = String.eqb (mp_id y) p && String.eqb (mp_walletId y) w.
Proof. intros [-> -> _ _ _ _ _]. done. Qed.

(** C10. A proposal is executed at most once: after an execution that succeeded, and
    whatever calls and delays follow, executing it again always throws and leaves
    every wallet, nonces included, as it was. *)
Theorem execute_once w p x x' d ops :
  (∃ r, (executeProposal w p x d).1 = inr r) →
  let d2 := ms_calls ops (executeProposal w p x d).2 in
  (∃ e, (executeProposal w p x' d2).1 = inl e) ∧ ms_wallets (executeProposal w p x' d2).2 = ms_wallets d2.
Proof.
  intros [r Hr] d2. destruct (execute_cases w p x d) as [(e & He & _) | (wi & wallet & i & q & Hex & _ & Hps & _)]; [congruence |].
  destruct (execute_cases w p x' d2) as [(e & He & Hw) | (wi2 & wl2 & j & q2 & Hex2 & _)]; [eauto |]. exfalso.
  destruct Hex as (_ & _ & Hf%find_proposal_row & _). destruct Hex2 as (_ & _ & Hf2%find_proposal_row & _ & Hs2 & _).
  assert (find_row (λ q, String.eqb (mp_id q) p && String.eqb (mp_walletId q) w)
    (ms_proposals (executeProposal w p x d).2) = Some (i, executed_row d q)) as Hf1.
  { rewrite Hps. apply (find_row_insert _ _ i q); [done | done |]. by apply find_row_lookup in Hf as [_ H]. }
  destruct (find_row_evolve prop_evolves (λ q, String.eqb (mp_id q) p && String.eqb (mp_walletId q) w) _ _ _ _
    (prop_evolves_key w p) (ms_calls_evolves ops _) Hf1) as (q' & Hq' & Hev).
  fold d2 in Hq'. rewrite Hf2 in Hq'. injection Hq' as -> ->. destruct Hev as [_ _ _ _ _ _ Hst]. by apply executed_final in Hst.
Qed.

(** ** Invariants *)

Definition wallet_ok (w : MultiSigWallet) : Prop :=
  1 ≤ mw_threshold w ≤ totalWeight (mw_signers w) ∧ (MIN_SIGNERS ≤ length (mw_signers w) ≤ MAX_SIGNERS)%nat ∧ 0 ≤ mw_nonce w.

Definition proposal_ok (p : MultiSigProposal) : Prop :=
  NoDup (ps_signer <$> mp_signatures p) ∧
  (mp_status p = executed → is_Some (mp_executedAt p) ∧ is_Some (mp_executionHash p)).

Definition ms_ok (d : msdb) : Prop := Forall wallet_ok (ms_wallets d) ∧ Forall proposal_ok (ms_proposals d).

Lemma ms_ok_set_proposal i p d : ms_ok d → proposal_ok p → ms_ok (set_proposal i p d).
Proof. intros [Hw Hp] H. split; [done |]. simpl. by apply Forall_insert. Qed.

Lemma ms_ok_set_wallet i w d : ms_ok d → wallet_ok w → ms_ok (set_wallet i w d).
Proof. intros [Hw Hp] H. split; [| done]. simpl. by apply Forall_insert. Qed.

Lemma ms_ok_wallet d i w : ms_ok d → ms_wallets d !! i = Some w → wallet_ok w.
Proof. intros [Hw _] Hi. by eapply Forall_lookup_1. Qed.

Lemma ms_ok_proposal d i p : ms_ok d → ms_proposals d !! i = Some p → proposal_ok p.
Proof. intros [_ Hp] Hi. by eapply Forall_lookup_1. Qed.

Lemma proposal_ok_expired p : proposal_ok p → proposal_ok (with_status expired p).
Proof. intros [H _]. split; [done |]. done. Qed.

Lemma addAuditLog_ok w e b : evolves (keeps ms_ok) (addAuditLog w e b).
Proof. by intros d H. Qed.

Lemma submitSignature_ok w p r : evolves (keeps ms_ok) (submitSignature w p r).
Proof.
  intros d Hok. unfold submitSignature. with_wallet d wi wr Hw; [| done]. with_proposal d i pr Hp; [| done].
  pose proof (ms_ok_proposal _ _ _ Hok Hp) as Hpr.
  run_unfold. destruct (_ <=? _); simpl; [by apply (ms_ok_set_proposal _ _ d), proposal_ok_expired |].
  case_bool_decide as Hs; simpl; [| done]. destruct (find_signer _ _); simpl; [| done].
  destruct (existsb _ _) eqn:Hex; simpl; [done |]. apply (ms_ok_set_proposal i _ d); [done |].
  destruct Hpr as [Hnd _]. split; simpl; [| by destruct (_ <=? _)].
  rewrite fmap_app. apply NoDup_app. split; [done |]. split; [| apply NoDup_singleton].
  intros y Hy ->%list_elem_of_singleton. apply list_elem_of_fmap in Hy as (sig & Hsig & Hin). simpl in Hsig.
  assert (existsb (λ s, String.eqb (ps_signer s) (sr_signer r)) (mp_signatures pr) = true); [| congruence].
  apply existsb_exists. exists sig. split; [by apply list_elem_of_In |]. by apply String.eqb_eq.
Qed.

Lemma executeProposal_ok w p x : evolves (keeps ms_ok) (executeProposal w p x).
Proof.
  intros d Hok. unfold executeProposal. with_wallet d wi wr Hw; [| done].
  run_unfold. destruct (mw_paused wr); simpl; [done |].
  destruct (find_proposal_run w p d) as [(i & pr & Hf & Hp) | [e Hf]]; rewrite Hf; [| done].
  pose proof (ms_ok_proposal _ _ _ Hok Hp) as Hpr. pose proof (ms_ok_wallet _ _ _ Hok Hw) as Hwr.
  destruct (_ <=? _); simpl; [by apply (ms_ok_set_proposal _ _ d), proposal_ok_expired |].
  case_bool_decide as Hs; simpl; [| done]. destruct (_ <? _); simpl; [done |].
  apply (ms_ok_set_wallet wi _ (set_proposal i _ d)).
  - apply ms_ok_set_proposal; [done |]. destruct Hpr as [Hnd _]. split; [done |]. intros _. simpl. eauto.
  - destruct Hwr as (? & ? & ?). split; [done |]. split; [done |]. simpl. lia.
Qed.

Lemma createProposal_ok w r : evolves (keeps ms_ok) (createProposal w r).
Proof.
  intros d Hok. unfold createProposal. with_wallet d wi wr Hw; [| done]. run_unfold.
  destruct (mw_paused wr); simpl; [done |]. destruct (find_signer _ _); simpl; [| done].
  destruct (_ <=? _); simpl; [done |]. destruct Hok as [H1 H2]. split; [done |]. simpl.
  apply Forall_app. split; [done |]. apply Forall_singleton. split; [constructor | done].
Qed.

Lemma pause_ok b w by' : evolves (keeps ms_ok) (if b : bool then pauseWallet w by' else unpauseWallet w by').
Proof.
  intros d Hok. destruct b; unfold pauseWallet, unpauseWallet; (with_wallet d wi wr Hw; [| done]); run_unfold;
    destruct (mw_paused wr); simpl; try done;
    apply (ms_ok_set_wallet wi _ d); try done; by apply (ms_ok_wallet _ _ _ Hok Hw).
Qed.

Lemma set_weight_length a w l : length (set_weight a w l) = length l.
Proof. induction l as [| s l IH]; simpl; [done |]. destruct (String.eqb _ _); simpl; by rewrite ?IH. Qed.

(** The signer list an update leads to has a legal size. *)
Lemma new_signers_length r now l d l' d' :
  (MIN_SIGNERS ≤ length l ≤ MAX_SIGNERS)%nat → new_signers r now l d = (inr l', d') →
  d' = d ∧ (MIN_SIGNERS ≤ length l' ≤ MAX_SIGNERS)%nat.
Proof.
  intros Hl. unfold new_signers. destruct (us_action r).
  - intros (? & ? & [H1 ->]%throw_if_run & (? & ? & [_ ->]%throw_if_run & [= <- <-])%bind_inr)%bind_inr.
    apply Nat.leb_gt in H1. rewrite length_app. simpl. split; [done | lia].
  - intros (? & ? & [_ ->]%some_or_throw_run & (? & ? & [H1 ->]%throw_if_run & [= <- <-])%bind_inr)%bind_inr.
    apply Nat.ltb_ge in H1. split; [done |].
    pose proof (List.filter_length_le (λ s, negb (String.eqb (sg_address s) (us_address r))) l). lia.
  - intros (? & ? & [_ ->]%some_or_throw_run & [= <- <-])%bind_inr. rewrite set_weight_length. done.
Qed.

Lemma new_signers_state r now l d : (new_signers r now l d).2 = d.
Proof.
  unfold new_signers. destruct (us_action r).
  - unfold mbind, M_bind, throw_if. destruct (_ <=? _)%nat; [done |]. simpl. by destruct (existsb _ _).
  - unfold mbind, M_bind, throw_if. destruct (find_signer _ _); [| done]. simpl. by destruct (_ <? _)%nat.
  - unfold mbind, M_bind. by destruct (find_signer _ _).
Qed.

Lemma updateSigner_ok w r : evolves (keeps ms_ok) (updateSigner w r).
Proof.
  intros d Hok. unfold updateSigner. with_wallet d wi wr Hw; [| done].
  pose proof (ms_ok_wallet _ _ _ Hok Hw) as (Ht & Hl & Hn). cbv beta iota.
  rewrite (bind_run (gets ms_now) _ d (ms_now d) d eq_refl).
  pose proof (new_signers_state r (ms_now d) (mw_signers wr) d) as Hs.
  unfold mbind at 1, M_bind at 1. destruct (new_signers _ _ _ d) as [[e | l] d1] eqn:Hnew; simpl in Hs; subst d1; [done |].
  apply new_signers_length in Hnew as [_ Hlen]; [| done]. run_unfold.
  destruct (Z.ltb_spec (totalWeight l) (mw_threshold wr)); simpl; [done |].
  apply (ms_ok_set_wallet wi _ d); [done |]. split; [| done]. simpl. lia.
Qed.

Lemma createWallet_ok r : evolves (keeps ms_ok) (createMultiSigWallet r).
Proof.
  intros d. unfold createMultiSigWallet.
  apply pure_then; [apply _ | apply throw_if_pure |]. intros u [Hlen _]%throw_if_run.
  apply pure_then; [apply _ | |]. { apply for_each_pure. intros s. run_unfold. run_cases. }
  intros u' _. apply pure_then; [apply _ | done |]. intros now [= <-].
  apply pure_then; [apply _ | apply throw_if_pure |]. intros u'' [Ht _]%throw_if_run.
  intros [Hw Hp]. run_unfold. split; [| done]. simpl. apply Forall_app. split; [done |]. apply Forall_singleton.
  unfold wallet_ok. simpl. apply orb_false_iff in Hlen as [H1%Nat.ltb_ge H2%Nat.ltb_ge]. rewrite length_fmap.
  split; [lia | split; [done | lia]].
Qed.

(** The positions written by the sweep hold the rows it read. *)
Lemma expire_loop_ok now rows d :
  ms_ok d → Forall (λ r, proposal_ok r.2) rows →
  ms_ok (for_each rows (λ r, if mp_expiresAt r.2 <=? now then
      modify (set_proposal r.1 (with_status expired r.2));;
      addAuditLog (mp_walletId r.2) "PROPOSAL_EXPIRED" "system"
    else mret ()) d).2.
Proof.
  revert d. induction rows as [| r rows IH]; intros d Hok Hf; [done |]. apply Forall_cons in Hf as [Hr Hf].
  simpl. run_unfold. destruct (_ <=? now); simpl; [| by apply IH].
  apply IH; [| done]. by apply (ms_ok_set_proposal _ _ d), proposal_ok_expired.
Qed.

Lemma expireStale_ok : evolves (keeps ms_ok) expireStaleProposals.
Proof.
  intros d Hok. assert (Forall (λ r, proposal_ok r.2) (stale_rows d)) as Hf.
  { apply Forall_forall. intros r Hr. eapply ms_ok_proposal; [done | by apply stale_rows_lookup]. }
  pose proof (expire_loop_ok (ms_now d) (stale_rows d) d Hok Hf) as H.
  unfold expireStaleProposals. run_unfold. destruct (for_each _ _ d) as [[e | u] d']; done.
Qed.

Lemma ms_run_ok o : evolves (keeps ms_ok) (ms_run o).
Proof.
  destruct o; simpl; try (unfold ms_ignore; apply evolves_bind; [apply _ | | intros; evolve]);
    [apply createWallet_ok | apply createProposal_ok | apply submitSignature_ok
    | apply executeProposal_ok | apply updateSigner_ok | apply (pause_ok true)
    | apply (pause_ok false) | apply expireStale_ok | by intros d H].
Qed.

(** From an empty database, after any history every wallet has between two and
    ten signers whose weights reach its threshold, which is at least one, and a
    non-negative nonce; no signer signed a proposal twice; and every executed
    proposal carries its execution time and hash. *)
Theorem multisig_invariant ops now : ms_ok (ms_calls ops (MsDb [] [] [] now 0)).
Proof.
  assert (∀ d, ms_ok d → ms_ok (ms_calls ops d)) as H.
  { induction ops as [| o ops IH]; intros d Hd; [done |]. apply IH, ms_run_ok, Hd. }
  apply H. split; constructor.
Qed.
End correctness.

(** ** Concrete runs *)

Definition demo_multisig : MultisigEnv := {|
  ms_uuid n := "id-" +:+ dec (Z.of_nat n); address_digest := λ _ _, "digest"; execution_digest := λ _ _, "hash"
|}.
#[export] Existing Instance demo_multisig.

Definition demo_tx : ProposalTransaction := {| tx_contractId := "C1"; tx_method := "pay"; tx_args := []; tx_memo := "" |}.

(** Two signers of three sign; the wallet is [id-0], the proposal [id-1]. *)
Definition demo_signed : msdb :=
  ms_calls [MsCreateWallet {| cw_signers := [("A", 1); ("B", 1); ("C", 1)]; cw_threshold := 2 |};
            MsCreateProposal "id-0" {| cp_proposer := "A"; cp_transaction := demo_tx; cp_expiresAt := Some 1000 |};
            MsSign "id-0" "id-1" {| sr_signer := "A"; sr_signature := "sigA" |};
            MsSign "id-0" "id-1" {| sr_signer := "B"; sr_signature := "sigB" |}] (MsDb [] [] [] 0 0).

Lemma proposal_lifecycle_witness :
  ∃ p p', ms_proposals demo_signed !! 0%nat = Some p ∧ mp_status p = signed ∧
    ms_proposals (ms_calls [MsExecute "id-0" "id-1" "A"] demo_signed) !! 0%nat = Some p' ∧ prop_evolves p p'.
Proof.
  destruct (ms_proposals demo_signed !! 0%nat) as [p |] eqn:Hp; [| vm_compute in Hp; discriminate].
  destruct (proposal_lifecycle [MsExecute "id-0" "id-1" "A"] demo_signed 0 p Hp) as (p' & Hp' & He).
  exists p, p'. split; [reflexivity |]. split; [vm_compute in Hp; injection Hp as <-; reflexivity |].
  split; [exact Hp' | exact He].
Defined.

Lemma execute_exact_witness :
  (∃ wi wallet i q, executable "id-0" "id-1" demo_signed wi wallet i q ∧
     (executeProposal "id-0" "id-1" "A" demo_signed).1 = inr (executed_row demo_signed q)) ∧
  let late := ms_calls [MsTick 2000] demo_signed in
  (∃ e, (executeProposal "id-0" "id-1" "A" late).1 = inl e) ∧ mp_status <$> ms_proposals (executeProposal "id-0" "id-1" "A" late).2 = [expired].
Proof.
  split.
  - destruct (find_wallet "id-0" demo_signed) as [[e | [wi wallet]] d1] eqn:Hw; [by vm_compute in Hw |].
    destruct (find_proposal "id-0" "id-1" demo_signed) as [[e | [i q]] d2] eqn:Hp; [by vm_compute in Hp |].
    assert (executable "id-0" "id-1" demo_signed wi wallet i q) as Hex.
    { unfold executable. rewrite Hw, Hp. vm_compute in Hw, Hp. simplify_eq. repeat split; vm_compute; congruence. }
    exists wi, wallet, i, q. split; [done |]. by apply (execute_exact "id-0" "id-1" "A" demo_signed) in Hex as [? _].
  - intros late. split; [| vm_compute; reflexivity]. destruct (execute_exact "id-0" "id-1" "A" late) as [_ H]. apply H.
    intros wi wallet i q (_ & _ & Hp & Hexp & _). vm_compute in Hp. simplify_eq. by vm_compute in Hexp.
Defined.

Lemma execute_once_witness :
  let d2 := ms_calls [MsTick 10] (executeProposal "id-0" "id-1" "A" demo_signed).2 in
  (∃ e, (executeProposal "id-0" "id-1" "B" d2).1 = inl e) ∧
  ms_wallets (executeProposal "id-0" "id-1" "B" d2).2 = ms_wallets d2.
Proof.
  apply (execute_once "id-0" "id-1" "A" "B" demo_signed [MsTick 10]). eexists. vm_compute. reflexivity.
Defined.

(** A signature submitted to an executed proposal after its expiry date rewrites
    its status to [expired], although the execution time and hash remain: the expiry
    is checked before the status. *)
Theorem executed_becomes_expired :
  let d1 := (executeProposal "id-0" "id-1" "A" demo_signed).2 in
  let d2 := ms_calls [MsTick 2000; MsSign "id-0" "id-1" {| sr_signer := "C"; sr_signature := "sigC" |}] d1 in
  mp_status <$> ms_proposals d1 = [executed] ∧ mp_status <$> ms_proposals d2 = [expired] ∧
  mp_executedAt <$> ms_proposals d2 = [Some 0].
Proof. vm_compute. repeat split. Qed.
