(* ===== verification/Saga.v ===== *)
(** * Saga coordinator (apps/backend/orchestrator/src/saga/)

    [SagaCoordinator] of coordinator.ts over [InMemorySagaStore] of memory-store.ts,
    with the types of types.ts.  The actions and compensations of the steps are
    arbitrary functions of the context and of all the actions performed before,
    which the state logs; each answers with the milliseconds it took and with a
    new context or the error it threw.  The coordinator is modelled without the
    optional Redis lock manager.  Sleeping advances the clock; a [setTimeout]
    that will call [recoverOne] again is an entry of the list of timers. *)
From S2P Require Import Prelude JsLib.
Local Open Scope Z_scope.

(** ** types.ts *)

Inductive SagaWorkflowType := checkout | purchase | refund | dispute.
Inductive SagaStatus := running | completed | compensating | compensated | failed | timed_out.
Inductive CompletedStepStatus := step_completed | step_failed | step_compensated.

#[export] Instance SagaStatus_eq_dec : EqDecision SagaStatus.
Proof. solve_decision. Defined.
#[export] Instance CompletedStepStatus_eq_dec : EqDecision CompletedStepStatus.
Proof. solve_decision. Defined.

Record CompletedStep (C : Type) := {
  cs_stepName : string; cs_status : CompletedStepStatus; cs_output : C; cs_completedAt : Z;
  cs_compensationAction : option string
}.
Arguments Build_CompletedStep {C}.
Arguments cs_stepName {C}.
Arguments cs_status {C}.
Arguments cs_output {C}.
Arguments cs_completedAt {C}.
Arguments cs_compensationAction {C}.

Record SagaRetryPolicy := { maxAttempts : Z; backoffMs : Z; retryableErrors : list string }.

(** The side effects of a saga: actions and compensations, by step. *)
Inductive effect := Executed (step : string) | Compensated (step : string).

#[export] Instance effect_eq_dec : EqDecision effect.
Proof. solve_decision. Defined.

Record SagaStep (C : Type) := {
  st_name : string;
  st_execute : list effect → C → N * (exn + C);
  st_compensate : list effect → C → C → N * (exn + C);
  st_retryPolicy : option SagaRetryPolicy
}.
Arguments st_name {C}.
Arguments st_execute {C}.
Arguments st_compensate {C}.
Arguments st_retryPolicy {C}.

Record SagaRecord (C : Type) := {
  sr_sagaId : string; sr_orderId : string; sr_workflowType : SagaWorkflowType; sr_status : SagaStatus;
  sr_currentStep : option string; sr_completedSteps : list (CompletedStep C); sr_context : C;
  sr_version : Z; sr_correlationId : string; sr_error : option string; sr_expiresAt : option Z;
  sr_claimExpiresAt : option Z; sr_createdAt : Z; sr_updatedAt : Z
}.
Arguments Build_SagaRecord {C}.
Arguments sr_sagaId {C}.
Arguments sr_orderId {C}.
Arguments sr_workflowType {C}.
Arguments sr_status {C}.
Arguments sr_currentStep {C}.
Arguments sr_completedSteps {C}.
Arguments sr_context {C}.
Arguments sr_version {C}.
Arguments sr_correlationId {C}.
Arguments sr_error {C}.
Arguments sr_expiresAt {C}.
Arguments sr_claimExpiresAt {C}.
Arguments sr_createdAt {C}.
Arguments sr_updatedAt {C}.

Definition SagaConcurrencyError (sagaId : string) : exn :=
  Exn "SagaConcurrencyError"
    ("Saga " +:+ sagaId +:+ " was modified by another runner — aborting to avoid duplicate step execution").

Record SagaEvent := {
  se_sagaId : string; se_correlationId : string; se_eventType : string;
  se_fromStatus : option SagaStatus; se_toStatus : option SagaStatus;
  se_payload : list (string * string); se_createdAt : Z
}.

Inductive SagaRecoveryAction := resumed | recovery_compensated | marked_failed.
Record SagaRecoveryDetail := { rd_sagaId : string; rd_action : SagaRecoveryAction; rd_reason : string }.
Record SagaRecoveryResult := { rr_recovered : Z; rr_failed : Z; rr_details : list SagaRecoveryDetail }.

#[export] Instance SagaRecoveryAction_eq_dec : EqDecision SagaRecoveryAction.
Proof. solve_decision. Defined.

(** ** The store and the world *)

Record sagas (C : Type) := Sagas {
  sg_records : jsmap (SagaRecord C);
  sg_events : list SagaEvent;
  sg_effects : list effect;
  sg_timers : list (string * Z);
  sg_now : Z
}.
Arguments Sagas {C}.
Arguments sg_records {C}.
Arguments sg_events {C}.
Arguments sg_effects {C}.
Arguments sg_timers {C}.
Arguments sg_now {C}.

(** The first name that is also an earlier one. *)
Fixpoint find_dup (seen names : list string) : option string :=
  match names with
  | [] => None
  | n :: names' => if bool_decide (n ∈ seen) then Some n else find_dup (n :: seen) names'
  end.

Definition status_name (s : SagaStatus) : string :=
  match s with
  | running => "running" | completed => "completed" | compensating => "compensating"
  | compensated => "compensated" | failed => "failed" | timed_out => "timed_out"
  end.

(** The delay a Node timer waits: out of the range of a 32-bit integer it is 1 ms. *)
Definition timer_delay (ms : Z) : Z := if (ms <? 1) || (2147483647 <? ms) then 1 else ms.

Section saga.
Context {C : Type}.
Implicit Types r : SagaRecord C.

(** ** memory-store.ts; [clone] copies a record, which has no identity here *)

Definition with_version (v : Z) r : SagaRecord C :=
  Build_SagaRecord (sr_sagaId r) (sr_orderId r) (sr_workflowType r) (sr_status r) (sr_currentStep r)
    (sr_completedSteps r) (sr_context r) v (sr_correlationId r) (sr_error r) (sr_expiresAt r)
    (sr_claimExpiresAt r) (sr_createdAt r) (sr_updatedAt r).

Definition put_record (id : string) r (w : sagas C) : sagas C :=
  Sagas (jset id r (sg_records w)) (sg_events w) (sg_effects w) (sg_timers w) (sg_now w).

Definition store_create r : M (sagas C) (SagaRecord C) :=
  existing ← gets (λ w, jget (sr_sagaId r) (sg_records w));
  match existing with
  | Some e => mret e
  | None => modify (put_record (sr_sagaId r) (with_version 0 r));; mret (with_version 0 r)
  end.

Definition store_get (sagaId : string) : M (sagas C) (option (SagaRecord C)) :=
  gets (λ w, jget sagaId (sg_records w)).

Definition store_save r : M (sagas C) (SagaRecord C) :=
  existing ← gets (λ w, jget (sr_sagaId r) (sg_records w));
  match existing with
  | Some e =>
      if sr_version e =? sr_version r then
        let updated := with_version (sr_version r + 1) r in
        modify (put_record (sr_sagaId r) updated);; mret updated
      else throw (SagaConcurrencyError (sr_sagaId r))
  | None => throw (SagaConcurrencyError (sr_sagaId r))
  end.

Definition incomplete r : bool := bool_decide (sr_status r = running) || bool_decide (sr_status r = compensating).

Definition listIncomplete : M (sagas C) (list (SagaRecord C)) :=
  gets (λ w, List.filter incomplete (jvalues (sg_records w))).

Definition listTimedOut : M (sagas C) (list (SagaRecord C)) :=
  gets (λ w, List.filter (λ r, incomplete r && match sr_expiresAt r with Some t => t <=? sg_now w | None => false end)
               (jvalues (sg_records w))).

Definition appendEvent (e : SagaEvent) : M (sagas C) () :=
  modify (λ w, Sagas (sg_records w) (sg_events w ++ [e]) (sg_effects w) (sg_timers w) (sg_now w)).

(** ** coordinator.ts *)

Definition DEFAULT_CLAIM_LEASE_MS : Z := 30000.
Definition DEFAULT_SAGA_TIMEOUT_MS : Z := 5 * 60000.

(** The options of the coordinator. *)
Record SagaCoordinator := { co_steps : list (SagaStep C); co_claimLeaseMs : Z; co_sagaTimeoutMs : Z }.

Definition newCoordinator (steps : list (SagaStep C)) (claimLeaseMs : option number) (sagaTimeoutMs : option Z)
    : exn + SagaCoordinator :=
  if bool_decide (steps = []) then inl (Error "SagaCoordinator requires at least one step")
  else
    match find_dup [] (st_name <$> steps) with
    | Some n => inl (Error ("Duplicate saga step name: " +:+ n))
    | None =>
        match default (Int DEFAULT_CLAIM_LEASE_MS) claimLeaseMs with
        | Int lease =>
            if (lease <=? 0) || (2 ^ 53 - 1 <? lease) then inl (Error "claimLeaseMs must be a positive safe integer")
            else inr {| co_steps := steps; co_claimLeaseMs := lease;
                        co_sagaTimeoutMs := default DEFAULT_SAGA_TIMEOUT_MS sagaTimeoutMs |}
        | NonInteger => inl (Error "claimLeaseMs must be a positive safe integer")
        end
    end.

(** [this.steps.get(name)] and [this.stepOrder] *)
Definition steps_get (co : SagaCoordinator) (name : string) : option (SagaStep C) :=
  List.find (λ s, String.eqb (st_name s) name) (co_steps co).
Definition stepOrder (co : SagaCoordinator) : list string := st_name <$> co_steps co.

(** [stepOrder[stepOrder.indexOf(name) + 1] ?? null] *)
Fixpoint next_step (name : string) (order : list string) : option string :=
  match order with
  | [] => None
  | n :: order' => if String.eqb n name then head order' else next_step name order'
  end.

(** The fields the coordinator replaces with the spread syntax. *)
Definition set_status (s : SagaStatus) r : SagaRecord C :=
  Build_SagaRecord (sr_sagaId r) (sr_orderId r) (sr_workflowType r) s (sr_currentStep r)
    (sr_completedSteps r) (sr_context r) (sr_version r) (sr_correlationId r) (sr_error r) (sr_expiresAt r)
    (sr_claimExpiresAt r) (sr_createdAt r) (sr_updatedAt r).
Definition set_currentStep (s : option string) r : SagaRecord C :=
  Build_SagaRecord (sr_sagaId r) (sr_orderId r) (sr_workflowType r) (sr_status r) s
    (sr_completedSteps r) (sr_context r) (sr_version r) (sr_correlationId r) (sr_error r) (sr_expiresAt r)
    (sr_claimExpiresAt r) (sr_createdAt r) (sr_updatedAt r).
Definition set_progress (l : list (CompletedStep C)) (c : C) r : SagaRecord C :=
  Build_SagaRecord (sr_sagaId r) (sr_orderId r) (sr_workflowType r) (sr_status r) (sr_currentStep r)
    l c (sr_version r) (sr_correlationId r) (sr_error r) (sr_expiresAt r)
    (sr_claimExpiresAt r) (sr_createdAt r) (sr_updatedAt r).
Definition set_error (e : option string) r : SagaRecord C :=
  Build_SagaRecord (sr_sagaId r) (sr_orderId r) (sr_workflowType r) (sr_status r) (sr_currentStep r)
    (sr_completedSteps r) (sr_context r) (sr_version r) (sr_correlationId r) e (sr_expiresAt r)
    (sr_claimExpiresAt r) (sr_createdAt r) (sr_updatedAt r).
(** [claimExpiresAt: t, updatedAt: now] *)
Definition set_claim (t : option Z) (now : Z) r : SagaRecord C :=
  Build_SagaRecord (sr_sagaId r) (sr_orderId r) (sr_workflowType r) (sr_status r) (sr_currentStep r)
    (sr_completedSteps r) (sr_context r) (sr_version r) (sr_correlationId r) (sr_error r) (sr_expiresAt r)
    t (sr_createdAt r) now.

Definition recordEvent r (eventType : string) (fromStatus toStatus : option SagaStatus)
    (payload : list (string * string)) : M (sagas C) () :=
  now ← gets sg_now;
  appendEvent {| se_sagaId := sr_sagaId r; se_correlationId := sr_correlationId r; se_eventType := eventType;
                 se_fromStatus := fromStatus; se_toStatus := toStatus; se_payload := payload;
                 se_createdAt := now |}.

Definition save r : M (sagas C) (SagaRecord C) := store_save r.

(** Performing an action: it is logged, takes its time and answers. *)
Definition perform (e : effect) (action : list effect → N * (exn + C)) : M (sagas C) C := λ w,
  let '(took, answer) := action (sg_effects w) in
  (answer, Sagas (sg_records w) (sg_events w) (sg_effects w ++ [e]) (sg_timers w) (sg_now w + Z.of_N took)).

Definition sleep (ms : Z) : M (sagas C) () :=
  modify (λ w, Sagas (sg_records w) (sg_events w) (sg_effects w) (sg_timers w) (sg_now w + timer_delay ms)).

Definition lease_active r (stepName : string) (now : Z) : bool :=
  bool_decide (sr_currentStep r = Some stepName) &&
  match sr_claimExpiresAt r with Some t => now <? t | None => false end.

Definition claimStep (co : SagaCoordinator) r (stepName : string) : M (sagas C) (option (SagaRecord C)) :=
  now ← gets sg_now;
  if lease_active r stepName now then mret None
  else
    try_catch
      (claimed ← save (set_claim (Some (now + co_claimLeaseMs co)) now (set_currentStep (Some stepName) r));
       mret (Some claimed))
      (λ e, if String.eqb (exn_name e) "SagaConcurrencyError" then mret None else throw e).

(** The attempts left of the loop of [executeWithRetry]. *)
Fixpoint attempts (step : SagaStep C) (context : C) (lastError : option exn) (left : nat) : M (sagas C) C :=
  match left with
  | O => throw (default (Error ("Saga step " +:+ st_name step +:+ " failed")) lastError)
  | S left' =>
      try_catch (perform (Executed (st_name step)) (λ log, st_execute step log context))
        (λ error,
          let retryable := match st_retryPolicy step with
                           | Some p => existsb (λ pattern, includes (exn_message error) pattern) (retryableErrors p)
                           | None => false
                           end in
          if negb retryable || bool_decide (left' = O) then throw error
          else
            sleep (match st_retryPolicy step with Some p => backoffMs p | None => 0 end);;
            attempts step context (Some error) left')
  end.

Definition executeWithRetry (step : SagaStep C) (context : C) : M (sagas C) C :=
  attempts step context None
    (Z.to_nat (match st_retryPolicy step with Some p => maxAttempts p | None => 1 end)).

Definition mark_compensated (cs : CompletedStep C) : CompletedStep C :=
  Build_CompletedStep (cs_stepName cs) step_compensated (cs_output cs) (cs_completedAt cs) (cs_compensationAction cs).

(** The guarded block of [compensate] for one claimed step. *)
Definition roll_back (cs : CompletedStep C) (step : SagaStep C) claimed : M (sagas C) (SagaRecord C) :=
  try_catch
    (context ← perform (Compensated (st_name step))
                 (λ log, st_compensate step log (sr_context claimed) (cs_output cs));
     now ← gets sg_now;
     saved ← save (set_claim None now
               (set_progress
                  ((λ entry, if String.eqb (cs_stepName entry) (cs_stepName cs)
                             then mark_compensated cs else entry) <$> sr_completedSteps claimed)
                  context claimed));
     recordEvent saved "step_compensated" (Some compensating) (Some compensating) [("step", cs_stepName cs)];;
     mret saved)
    (λ error,
       now ← gets sg_now;
       save (set_claim None now claimed);;
       throw error).

(** The loop of [compensate] over the steps still to roll back. *)
Fixpoint compensate_from (co : SagaCoordinator) (toCompensate : list (CompletedStep C)) current
    : M (sagas C) (SagaRecord C) :=
  match toCompensate with
  | [] =>
      now ← gets sg_now;
      done ← save (set_claim None now (set_currentStep None (set_status compensated current)));
      recordEvent done "saga_compensated" (Some compensating) (Some compensated) [];;
      mret done
  | cs :: todo =>
      match steps_get co (cs_stepName cs) with
      | None =>
          let message := "Unknown saga step during compensation: " +:+ cs_stepName cs in
          now ← gets sg_now;
          save (set_claim (sr_claimExpiresAt current) now (set_error (Some message) current));;
          throw (Error message)
      | Some step =>
          claim ← claimStep co current (cs_stepName cs);
          match claim with
          | None => mret current
          | Some claimed =>
              rolled ← roll_back cs step claimed;
              compensate_from co todo rolled
          end
      end
  end.

Definition compensate (co : SagaCoordinator) r : M (sagas C) (SagaRecord C) :=
  compensate_from co (rev (sr_completedSteps r)) r.

(** The loop of [advance] over the steps not completed yet. *)
Fixpoint advance_from (co : SagaCoordinator) (remaining : list string) current : M (sagas C) (SagaRecord C) :=
  match remaining with
  | [] =>
      now ← gets sg_now;
      done ← save (set_claim None now (set_currentStep None (set_status completed current)));
      recordEvent done "saga_completed" (Some running) (Some completed) [];;
      mret done
  | stepName :: rest =>
      step ← some_or_throw (steps_get co stepName) (Error ("Unknown saga step: " +:+ stepName));
      claim ← claimStep co current stepName;
      match claim with
      | None => mret current
      | Some claimed =>
          outcome ← try_catch (c ← executeWithRetry step (sr_context claimed); mret (inr c)) (λ e, mret (inl e));
          now ← gets sg_now;
          match outcome with
          | inl error =>
              failing ← save (set_claim None now
                          (set_error (Some (exn_message error)) (set_status compensating claimed)));
              recordEvent failing "step_failed" (Some running) (Some compensating)
                [("step", stepName); ("error", exn_message error)];;
              compensate co failing
          | inr context =>
              let entry := Build_CompletedStep stepName step_completed context now (Some (st_name step)) in
              saved ← save (set_claim None now
                        (set_currentStep (next_step stepName (stepOrder co))
                           (set_progress (sr_completedSteps claimed ++ [entry]) context claimed)));
              recordEvent saved "step_completed" (Some running) (Some running) [("step", stepName)];;
              advance_from co rest saved
          end
      end
  end.

Definition remaining_steps (co : SagaCoordinator) r : list string :=
  List.filter (λ name, negb (bool_decide (name ∈ cs_stepName <$> sr_completedSteps r))) (stepOrder co).

Definition advance (co : SagaCoordinator) r : M (sagas C) (SagaRecord C) :=
  if bool_decide (sr_status r = compensating) || bool_decide (sr_status r = timed_out) then compensate co r
  else advance_from co (remaining_steps co r) r.

Definition terminal r : bool :=
  bool_decide (sr_status r = completed) || bool_decide (sr_status r = compensated) ||
  bool_decide (sr_status r = failed).

(** [freshId] is the identifier [generateId()] makes when no correlation id is given. *)
Definition run (co : SagaCoordinator) (sagaId orderId : string) (initialContext : C)
    (workflowType : option SagaWorkflowType) (correlationId : option string) (freshId : string)
    : M (sagas C) (SagaRecord C) :=
  now ← gets sg_now;
  record ← store_create
    (Build_SagaRecord sagaId orderId (default checkout workflowType) running (head (stepOrder co)) []
       initialContext 0 (default freshId correlationId) None
       (if 0 <? co_sagaTimeoutMs co then Some (now + co_sagaTimeoutMs co) else None) None now now);
  recordEvent record "saga_started" None (Some running) [("orderId", orderId)];;
  if terminal record then mret record else advance co record.

Definition resume (co : SagaCoordinator) (sagaId : string) : M (sagas C) (SagaRecord C) :=
  found ← store_get sagaId;
  record ← some_or_throw found (Error ("Saga not found: " +:+ sagaId));
  if terminal record then mret record else advance co record.

Definition scheduleRetryIfLeased r : M (sagas C) () :=
  if incomplete r then
    match sr_claimExpiresAt r with
    | None => mret ()
    | Some t =>
        modify (λ w, if t - sg_now w <=? 0 then w
                     else Sagas (sg_records w) (sg_events w) (sg_effects w)
                            (sg_timers w ++ [(sr_sagaId r, sg_now w + timer_delay (t - sg_now w + 50))]) (sg_now w))
    end
  else mret ().

Definition deadline_passed r (now : Z) : bool :=
  match sr_expiresAt r with Some t => t <=? now | None => false end.

Definition recoverOne (co : SagaCoordinator) (sagaId : string) : M (sagas C) (option SagaRecoveryDetail) :=
  let detail a reason := Some {| rd_sagaId := sagaId; rd_action := a; rd_reason := reason |} in
  try_catch
    (fetched ← store_get sagaId;
     match fetched with
     | None => mret None
     | Some latest =>
         now ← gets sg_now;
         if deadline_passed latest now then
           recordEvent latest "saga_timed_out" (Some (sr_status latest)) (Some timed_out) [];;
           now ← gets sg_now;
           timedOut ← save (set_claim None now
                        (set_error (Some (default "Saga exceeded its deadline" (sr_error latest)))
                           (set_status timed_out latest)));
           try_catch
             (c ← compensate co timedOut;
              mret (detail (if bool_decide (sr_status c = compensated) then recovery_compensated else marked_failed)
                      "Saga exceeded its timeout deadline and was auto-compensated"))
             (λ _, mret (detail marked_failed "Saga timed out and compensation failed"))
         else
           result ← resume co sagaId;
           scheduleRetryIfLeased result;;
           (if incomplete result && negb (bool_decide (is_Some (sr_claimExpiresAt result))) then
              fresh ← store_get sagaId;
              match fresh with Some f => scheduleRetryIfLeased f | None => mret () end
            else mret ());;
           mret (detail resumed ("Recovered in status " +:+ status_name (sr_status result)))
     end)
    (λ err, mret (detail marked_failed (exn_message err))).

Fixpoint recover_each (co : SagaCoordinator) (ids : list string) (acc : SagaRecoveryResult)
    : M (sagas C) SagaRecoveryResult :=
  match ids with
  | [] => mret acc
  | id :: ids' =>
      result ← recoverOne co id;
      recover_each co ids'
        match result with
        | None => acc
        | Some d =>
            if bool_decide (rd_action d = marked_failed)
            then {| rr_recovered := rr_recovered acc; rr_failed := rr_failed acc + 1; rr_details := rr_details acc ++ [d] |}
            else {| rr_recovered := rr_recovered acc + 1; rr_failed := rr_failed acc; rr_details := rr_details acc ++ [d] |}
        end
  end.

Definition recoverAll (co : SagaCoordinator) : M (sagas C) SagaRecoveryResult :=
  rows ← listIncomplete;
  recover_each co (sr_sagaId <$> rows) {| rr_recovered := 0; rr_failed := 0; rr_details := [] |}.

(** One tick of the interval timer of [startTimeoutSweeper]. *)
Definition timeoutSweep (co : SagaCoordinator) : M (sagas C) () :=
  rows ← listTimedOut;
  for_each rows (λ r, recoverOne co (sr_sagaId r);; mret ()).
End saga.
Arguments SagaCoordinator : clear implicits.
