(* ===== verification/SagaCorrect.v ===== *)
(** * What the saga coordinator guarantees

    A reference semantics of a saga (forward steps with retries, then roll-back in
    reverse order), the refinement of [run] and [resume] against it, and the
    properties of the optimistic versions and of the leases that keep two runners
    from performing one step twice. *)
From S2P Require Import Prelude JsLib Saga.
Local Open Scope Z_scope.

(** ** Reference semantics *)

Section spec.
Context {C : Type}.

(** The attempts at one step: the log they leave and the answer of the last one. *)
Fixpoint attempt_spec (step : SagaStep C) (c : C) (last : option exn) (left : nat) (log : list effect)
    : list effect * (exn + C) :=
  match left with
  | O => (log, inl (default (Error ("Saga step " +:+ st_name step +:+ " failed")) last))
  | S left' =>
      let log' := log ++ [Executed (st_name step)] in
      match (st_execute step log c).2 with
      | inr c' => (log', inr c')
      | inl e =>
          let again := match st_retryPolicy step with
                       | Some p => existsb (includes (exn_message e)) (retryableErrors p)
                       | None => false
                       end in
          if again && negb (bool_decide (left' = O)) then attempt_spec step c (Some e) left' log' else (log', inl e)
      end
  end.

Definition step_spec (step : SagaStep C) (c : C) (log : list effect) : list effect * (exn + C) :=
  attempt_spec step c None (Z.to_nat (match st_retryPolicy step with Some p => maxAttempts p | None => 1 end)) log.

Record outcome := Outcome {
  oc_log : list effect; oc_status : SagaStatus; oc_context : C;
  (** the error that made the saga fail, and the error the caller sees *)
  oc_error : option string; oc_thrown : option exn
}.

(** Rolling back the given steps, in the given order; [st] is the status meanwhile. *)
Fixpoint backward (todo : list (SagaStep C * C)) (st : SagaStatus) (error : option string) (c : C)
    (log : list effect) : outcome :=
  match todo with
  | [] => Outcome log compensated c error None
  | (s, out) :: todo' =>
      let log' := log ++ [Compensated (st_name s)] in
      match (st_compensate s log c out).2 with
      | inr c' => backward todo' st error c' log'
      | inl e => Outcome log' st c error (Some e)
      end
  end.

(** Executing the given steps after [fin] was completed. *)
Fixpoint forward (steps : list (SagaStep C)) (fin : list (SagaStep C * C)) (error : option string) (c : C)
    (log : list effect) : outcome :=
  match steps with
  | [] => Outcome log completed c error None
  | s :: steps' =>
      let '(log', r) := step_spec s c log in
      match r with
      | inr c' => forward steps' (fin ++ [(s, c')]) error c' log'
      | inl e => backward (rev fin) compensating (Some (exn_message e)) c log'
      end
  end.

(** A run left the saga [id] as the outcome says. *)
Definition realises (id : string) (o : outcome) (res : exn + SagaRecord C) (w : sagas C) : Prop :=
  ∃ r, jget id (sg_records w) = Some r ∧ sg_effects w = oc_log o ∧ sr_status r = oc_status o ∧
       sr_context r = oc_context o ∧ sr_error r = oc_error o ∧
       res = match oc_thrown o with None => inr r | Some e => inl e end.

(** The recorded completed steps are those steps with those outputs. *)
Definition recorded (l : list (CompletedStep C)) (fin : list (SagaStep C * C)) : Prop :=
  Forall2 (λ cs p, cs_stepName cs = st_name p.1 ∧ cs_output cs = p.2) l fin.
End spec.
Arguments outcome : clear implicits.

(** ** Single operations *)

Section ops.
Context {C : Type}.
Implicit Types (r : SagaRecord C) (w : sagas C) (co : SagaCoordinator C).

(** The copy the runner holds is the stored one. *)
Definition current_in w r : Prop := jget (sr_sagaId r) (sg_records w) = Some r.

Lemma save_run w r e :
  jget (sr_sagaId r) (sg_records w) = Some e → sr_version e = sr_version r →
  save r w = (inr (with_version (sr_version r + 1) r),
              put_record (sr_sagaId r) (with_version (sr_version r + 1) r) w).
Proof.
  intros He Hv. unfold save, store_save. run_unfold. rewrite He, Hv, Z.eqb_refl. done.
Qed.

Lemma save_stale w r :
  (∀ e, jget (sr_sagaId r) (sg_records w) = Some e → sr_version e ≠ sr_version r) →
  save r w = (inl (SagaConcurrencyError (sr_sagaId r)), w).
Proof.
  intros H. unfold save, store_save. run_unfold. destruct (jget _ _) as [e |]; [| done].
  destruct (Z.eqb_spec (sr_version e) (sr_version r)); [| done]. by destruct (H e).
Qed.

Lemma current_put id r w : sr_sagaId r = id → current_in (put_record id r w) r.
Proof. intros <-. apply jget_jset_eq. Qed.

Lemma claim_run co w r s :
  current_in w r → lease_active r s (sg_now w) = false →
  ∃ r', claimStep co r s w = (inr (Some r'), put_record (sr_sagaId r) r' w) ∧
        sr_sagaId r' = sr_sagaId r ∧ sr_context r' = sr_context r ∧ sr_status r' = sr_status r ∧
        sr_completedSteps r' = sr_completedSteps r ∧ sr_error r' = sr_error r ∧
        sr_version r' = sr_version r + 1 ∧ sr_currentStep r' = Some s ∧
        sr_claimExpiresAt r' = Some (sg_now w + co_claimLeaseMs co).
Proof.
  intros Hc Hl. unfold claimStep. erewrite bind_run by done. rewrite Hl.
  unfold try_catch. erewrite bind_run by (by apply (save_run w _ r)). eexists. split; [done |]. by simpl.
Qed.

Lemma claim_leased co w r s : lease_active r s (sg_now w) = true → claimStep co r s w = (inr None, w).
Proof. intros Hl. unfold claimStep. erewrite bind_run by done. by rewrite Hl. Qed.

Lemma claim_stale co w r s :
  (∀ e, jget (sr_sagaId r) (sg_records w) = Some e → sr_version e ≠ sr_version r) →
  claimStep co r s w = (inr None, w).
Proof.
  intros Hs. unfold claimStep. erewrite bind_run by done. destruct (lease_active r s (sg_now w)); [done |].
  unfold try_catch. erewrite bind_run_err; [| by apply save_stale]. done.
Qed.

Lemma steps_get_member co s : NoDup (stepOrder co) → s ∈ co_steps co → steps_get co (st_name s) = Some s.
Proof.
  intros Hnd [i Hi]%list_elem_of_lookup. eapply (find_unique st_name); [exact Hnd | exact Hi |].
  intros y. by rewrite String.eqb_eq.
Qed.

(** What the attempts leave: the records untouched, the log and the answer of the reference. *)
Lemma attempts_run step c last left w :
  ∃ w', attempts step c last left w = ((attempt_spec step c last left (sg_effects w)).2, w') ∧
        sg_effects w' = (attempt_spec step c last left (sg_effects w)).1 ∧ sg_records w' = sg_records w.
Proof.
  revert last w. induction left as [| n IH]; intros last w; simpl; [by eexists |].
  unfold try_catch, perform. destruct (st_execute step (sg_effects w) c) as [took [e | c']]; simpl; [| by eexists].
  change (λ pattern, includes (exn_message e) pattern) with (includes (exn_message e)).
  destruct (match st_retryPolicy step with Some _ => _ | None => false end); simpl; [| by eexists].
  destruct (bool_decide (n = 0%nat)); simpl; [by eexists |].
  destruct (IH (Some e) (Sagas (sg_records w) (sg_events w) (sg_effects w ++ [Executed (st_name step)]) (sg_timers w)
    (sg_now w + Z.of_N took + timer_delay (match st_retryPolicy step with Some p => backoffMs p | None => 0 end))))
    as (w' & Hrun & Hlog & Hrec).
  exists w'. split; [| done]. erewrite bind_run by done. exact Hrun.
Qed.
End ops.

(** ** Refinement of the two loops *)

Section refine.
Context {C : Type} (co : SagaCoordinator C).
Hypothesis names_unique : NoDup (stepOrder co).
Implicit Types (r : SagaRecord C) (w : sagas C).

(** The next step to claim is not under a live lease. *)
Definition claimable r (next : option string) (now : Z) : Prop :=
  match next with Some n => lease_active r n now = false | None => True end.

Lemma claimable_no_claim r next now : sr_claimExpiresAt r = None → claimable r next now.
Proof.
  intros H. destruct next as [n |]; [| done]. simpl. unfold lease_active. rewrite H. by rewrite andb_false_r.
Qed.

(** Rolling back one claimed step: the answer of the compensation, and the record
    with its lease released. *)
Lemma roll_back_run cs s r w :
  current_in w r →
  ∃ r' w', roll_back cs s r w =
             (match (st_compensate s (sg_effects w) (sr_context r) (cs_output cs)).2 with
              | inl e => inl e | inr _ => inr r' end, w') ∧
    current_in w' r' ∧ sg_effects w' = sg_effects w ++ [Compensated (st_name s)] ∧
    sr_sagaId r' = sr_sagaId r ∧ sr_status r' = sr_status r ∧ sr_error r' = sr_error r ∧
    sr_context r' = match (st_compensate s (sg_effects w) (sr_context r) (cs_output cs)).2 with
                    | inl _ => sr_context r | inr c => c end ∧
    sr_claimExpiresAt r' = None.
Proof.
  intros Hcur. unfold roll_back, try_catch, perform. unfold mbind at 1, M_bind at 1.
  destruct (st_compensate s (sg_effects w) (sr_context r) (cs_output cs)) as [took [e | c']]; simpl.
  - erewrite bind_run by done. erewrite bind_run by (by apply (save_run _ _ r)).
    eexists _, _. split; [done |]. split; [by apply current_put | done].
  - erewrite bind_run by done. erewrite bind_run by (by apply (save_run _ _ r)).
    erewrite bind_run by done. eexists _, _. split; [done |]. split; [by apply current_put | done].
Qed.

Lemma compensate_from_refines todo fin r w :
  recorded todo fin → Forall (λ p, p.1 ∈ co_steps co) fin → current_in w r →
  claimable r (cs_stepName <$> head todo) (sg_now w) →
  realises (sr_sagaId r) (backward fin (sr_status r) (sr_error r) (sr_context r) (sg_effects w))
    (compensate_from co todo r w).1 (compensate_from co todo r w).2.
Proof.
  intros Hrec. revert r w. induction Hrec as [| cs [s out] todo fin [Hn Ho] _ IH]; intros r w Hfin Hcur Hcl; simpl.
  - erewrite bind_run by done. erewrite bind_run by (by apply (save_run w _ r)).
    eexists. split; [apply jget_jset_eq | done].
  - apply Forall_cons in Hfin as [Hs Hfin]. simpl in Hs, Hcl, Hn, Ho. subst out.
    rewrite Hn, steps_get_member by done. rewrite Hn in Hcl.
    destruct (claim_run co w r (st_name s) Hcur Hcl) as (r1 & Hclaim & Hid & Hctx & Hst & _ & Herr & Hv & _ & _).
    erewrite bind_run by exact Hclaim. rewrite <-Hctx, <-Hst, <-Herr, <-Hid.
    destruct (roll_back_run cs s r1 (put_record (sr_sagaId r1) r1 w)) as (r2 & w2 & Hroll & Hc2 & Hlog2 & Hid2 & Hst2 & Herr2 & Hctx2 & Hcl2);
      [by apply current_put |]. simpl in Hroll, Hlog2, Hctx2.
    destruct (st_compensate s (sg_effects w) (sr_context r1) (cs_output cs)).2 as [e | c'].
    + erewrite bind_run_err by exact Hroll. exists r2. simpl. by rewrite <-Hid2.
    + erewrite bind_run by exact Hroll. rewrite <-Hid2, <-Hst2, <-Herr2, <-Hctx2, <-Hlog2.
      apply IH; [done | done |]. by apply claimable_no_claim.
Qed.

Lemma recorded_rev (l : list (CompletedStep C)) fin : recorded l fin → recorded (rev l) (rev fin).
Proof.
  intros H. unfold recorded in *. induction H as [| x y l k Hxy _ IH]; simpl; [done |].
  apply Forall2_app; [done |]. by constructor.
Qed.

Lemma advance_from_refines steps fin r w :
  recorded (sr_completedSteps r) fin → Forall (λ p, p.1 ∈ co_steps co) fin → Forall (.∈ co_steps co) steps →
  sr_status r = running → current_in w r → claimable r (st_name <$> head steps) (sg_now w) →
  realises (sr_sagaId r) (forward steps fin (sr_error r) (sr_context r) (sg_effects w))
    (advance_from co (st_name <$> steps) r w).1 (advance_from co (st_name <$> steps) r w).2.
Proof.
  revert fin r w. induction steps as [| s steps IH]; intros fin r w Hrec Hfin Hsteps Hrun Hcur Hcl; simpl.
  - erewrite bind_run by done. erewrite bind_run by (by apply (save_run w _ r)).
    eexists. split; [apply jget_jset_eq | done].
  - apply Forall_cons in Hsteps as [Hs Hsteps]. rewrite steps_get_member by done. erewrite bind_run by done.
    destruct (claim_run co w r (st_name s) Hcur Hcl) as (r1 & Hclaim & Hid & Hctx & Hst & Hcs & Herr & Hv & _ & _).
    erewrite bind_run by exact Hclaim. rewrite <-Hctx, <-Herr, <-Hid. rewrite <-Hcs in Hrec. rewrite <-Hst in Hrun.
    destruct (attempts_run s (sr_context r1) None
      (Z.to_nat (match st_retryPolicy s with Some p => maxAttempts p | None => 1 end))
      (put_record (sr_sagaId r1) r1 w)) as (w1 & Hatt & Hlog & Hrecs).
    change (attempts s (sr_context r1) None _) with (executeWithRetry s (sr_context r1)) in Hatt.
    unfold step_spec. change (sg_effects (put_record (sr_sagaId r1) r1 w)) with (sg_effects w) in *.
    destruct (attempt_spec s (sr_context r1) None _ (sg_effects w)) as [log' res]. simpl in Hatt, Hlog, Hrecs. subst log'.
    assert (Hcur1 : jget (sr_sagaId r1) (sg_records w1) = Some r1) by (rewrite Hrecs; apply jget_jset_eq).
    destruct res as [e | c'].
    + erewrite bind_run; [| unfold try_catch; erewrite bind_run_err by exact Hatt; done].
      erewrite bind_run by done. erewrite bind_run by (apply (save_run _ _ r1); done).
      erewrite bind_run by done. unfold compensate. simpl.
      match goal with |- realises _ _ (compensate_from co _ ?r2 ?w2).1 _ =>
        apply (compensate_from_refines _ _ r2 w2) end.
      * by apply recorded_rev.
      * apply Forall_rev in Hfin. done.
      * by apply current_put.
      * by apply claimable_no_claim.
    + erewrite bind_run; [| unfold try_catch; erewrite bind_run by exact Hatt; done].
      erewrite bind_run by done. erewrite bind_run by (apply (save_run _ _ r1); done).
      erewrite bind_run by done. simpl.
      match goal with |- realises _ _ (advance_from co _ ?r2 ?w2).1 _ =>
        apply (IH (fin ++ [(s, c')]) r2 w2) end; try done.
      * simpl. apply Forall2_app; [done |]. by constructor.
      * apply Forall_app. split; [done |]. by constructor.
      * by apply current_put.
      * by apply claimable_no_claim.
Qed.
End refine.

(** ** The two entry points *)

Section entry.
Context {C : Type} (co : SagaCoordinator C).
Implicit Types (r : SagaRecord C) (w : sagas C).

Lemma remaining_after (pre post : list (SagaStep C)) r fin :
  NoDup (stepOrder co) → co_steps co = pre ++ post → recorded (sr_completedSteps r) fin → fin.*1 = pre →
  remaining_steps co r = st_name <$> post.
Proof.
  unfold remaining_steps, stepOrder. intros Hnd Hco Hrec Hpre.
  assert (cs_stepName <$> sr_completedSteps r = st_name <$> pre) as ->.
  { rewrite <-Hpre. clear Hpre. induction Hrec as [| cs p l k [Hn _] _ IH]; [done |]. rewrite !fmap_cons. by f_equal. }
  rewrite Hco, fmap_app in *. apply NoDup_app in Hnd as (_ & Hdis & _). rewrite List.filter_app.
  rewrite (proj2 (List.filter_ext_in_iff _ (λ _, false) (st_name <$> pre))).
  2:{ intros n Hn. apply list_elem_of_In in Hn. by rewrite bool_decide_eq_true_2. }
  rewrite (proj2 (List.filter_ext_in_iff _ (λ _, true) (st_name <$> post))).
  2:{ intros n Hn. apply list_elem_of_In in Hn. rewrite bool_decide_eq_false_2; [done |]. intros H. by eapply Hdis. }
  by rewrite List.filter_false, List.filter_true.
Qed.

Lemma fresh_run_refines w sagaId orderId c wt corr gen :
  NoDup (stepOrder co) → jget sagaId (sg_records w) = None →
  let out := run co sagaId orderId c wt corr gen w in
  realises sagaId (forward (co_steps co) [] None c (sg_effects w)) out.1 out.2.
Proof.
  intros Hnd Hnone. unfold run. erewrite bind_run by done.
  erewrite bind_run; [| unfold store_create; erewrite bind_run by done; simpl; rewrite Hnone; erewrite bind_run by done; done].
  erewrite bind_run by done. unfold terminal, advance. simpl. rewrite (remaining_after [] (co_steps co) _ []); try done; [| by constructor].
  match goal with |- realises _ _ (advance_from co _ ?r2 ?w2).1 _ =>
    apply (advance_from_refines co Hnd (co_steps co) [] r2 w2) end; try done.
  - by constructor.
  - by apply Forall_forall.
  - apply jget_jset_eq.
  - by apply claimable_no_claim.
Qed.

(** C6. Crash recovery: [resume] of a saga that is stored as running, whose recorded steps
    are the first steps [pre] of the plan, and that has no live lease on the step after
    them, continues exactly as the reference semantics does from there; the recorded steps
    are not executed again, their recorded outputs are what a roll-back compensates with.
    (A saga stored as compensating is resumed by compensating from the start: see
    [resume_compensates_twice].) *)
Theorem resume_continues (pre post : list (SagaStep C)) fin r w :
  NoDup (stepOrder co) → co_steps co = pre ++ post →
  current_in w r → sr_status r = running →
  recorded (sr_completedSteps r) fin → fin.*1 = pre →
  claimable r (st_name <$> head post) (sg_now w) →
  let out := resume co (sr_sagaId r) w in
  realises (sr_sagaId r) (forward post fin (sr_error r) (sr_context r) (sg_effects w)) out.1 out.2.
Proof.
  intros Hnd Hco Hcur Hrun Hrec Hpre Hcl. unfold resume. erewrite bind_run by done.
  unfold some_or_throw. rewrite Hcur. erewrite bind_run by done.
  unfold terminal, advance. rewrite Hrun. simpl. rewrite (remaining_after pre post r fin) by done.
  apply advance_from_refines; try done.
  - apply Forall_forall. intros p Hp. rewrite Hco. apply elem_of_app. left. rewrite <-Hpre. by apply list_elem_of_fmap_2.
  - apply Forall_forall. intros s Hs. rewrite Hco. apply elem_of_app. by right.
Qed.
End entry.

(** ** The side effects of a saga *)

Section trace.
Context {C : Type}.
Implicit Types (s : SagaStep C).

(** The number of attempts the retry policy of a step allows. *)
Definition allowed s : nat := Z.to_nat (match st_retryPolicy s with Some p => maxAttempts p | None => 1 end).

Definition retryable s (e : exn) : bool :=
  match st_retryPolicy s with Some p => existsb (includes (exn_message e)) (retryableErrors p) | None => false end.

(** The log after [n] more executions of a step. *)
Definition repeated (log : list effect) s (n : nat) : list effect := log ++ replicate n (Executed (st_name s)).

(** [n] attempts of a step, each made on the log the earlier ones left: all but the last
    failed with an error the policy retries, and the last one answered [res], an error
    only if the attempts are used up or the policy does not retry it. *)
Record tried s (c : C) (log : list effect) (n : nat) (res : exn + C) : Prop := {
  td_allowed : (n ≤ allowed s)%nat;
  td_retried k : (S k < n)%nat → ∃ e, (st_execute s (repeated log s k) c).2 = inl e ∧ retryable s e = true;
  td_last : match n with
            | O => allowed s = O ∧ ∃ e, res = inl e
            | S k => (st_execute s (repeated log s k) c).2 = res
            end;
  td_given_up e : res = inl e → n = allowed s ∨ retryable s e = false
}.

(** Steps that succeed one after the other, with their outputs. *)
Inductive succeeded : list (SagaStep C) → C → list effect → list (SagaStep C * C) → C → list effect → Prop :=
| succeeded_nil c log : succeeded [] c log [] c log
| succeeded_cons s steps c log n c1 outs c' log' :
    tried s c log n (inr c1) → succeeded steps c1 (repeated log s n) outs c' log' →
    succeeded (s :: steps) c log ((s, c1) :: outs) c' log'.

(** Compensations that succeed one after the other, each given the output of its step. *)
Inductive undone : list (SagaStep C * C) → C → list effect → C → list effect → Prop :=
| undone_nil c log : undone [] c log c log
| undone_cons s out todo c log c1 c' log' :
    (st_compensate s log c out).2 = inr c1 → undone todo c1 (log ++ [Compensated (st_name s)]) c' log' →
    undone ((s, out) :: todo) c log c' log'.

(** How a saga may end: its status, the error on record, the error thrown, the context
    and the log. *)
Inductive saga_ends (steps : list (SagaStep C)) (c : C) (log : list effect)
    : SagaStatus → option string → option exn → C → list effect → Prop :=
| ends_completed outs c' log' :
    succeeded steps c log outs c' log' → saga_ends steps c log completed None None c' log'
| ends_compensated ok bad rest outs c1 log1 n e c' log' :
    steps = ok ++ bad :: rest → succeeded ok c log outs c1 log1 → tried bad c1 log1 n (inl e) →
    undone (rev outs) c1 (repeated log1 bad n) c' log' →
    saga_ends steps c log compensated (Some (exn_message e)) None c' log'
| ends_stuck ok bad rest outs c1 log1 n e todo1 s out todo2 c2 log2 e2 :
    steps = ok ++ bad :: rest → succeeded ok c log outs c1 log1 → tried bad c1 log1 n (inl e) →
    rev outs = todo1 ++ (s, out) :: todo2 → undone todo1 c1 (repeated log1 bad n) c2 log2 →
    (st_compensate s log2 c2 out).2 = inl e2 →
    saga_ends steps c log compensating (Some (exn_message e)) (Some e2) c2 (log2 ++ [Compensated (st_name s)]).

Lemma repeated_S log s k : repeated log s k ++ [Executed (st_name s)] = repeated log s (S k).
Proof. unfold repeated. by rewrite <-app_assoc, <-replicate_S_end. Qed.

Lemma attempt_more s c log k left last :
  (k + S left = allowed s)%nat → (∀ j, (j < k)%nat → ∃ e, (st_execute s (repeated log s j) c).2 = inl e ∧ retryable s e = true) →
  ∃ n, (attempt_spec s c last (S left) (repeated log s k)).1 = repeated log s n ∧
       tried s c log n (attempt_spec s c last (S left) (repeated log s k)).2.
Proof.
  revert k last. induction left as [| left IH]; intros k last Hk Hprev; cbn [attempt_spec]; cbv zeta; rewrite repeated_S;
    destruct (st_execute s (repeated log s k) c).2 as [e | c1] eqn:Hx.
  - rewrite bool_decide_eq_true_2, andb_false_r by done. exists (S k). split; [done |]. split; simpl; [lia | intros j Hj; apply Hprev; lia | done | intros ? _; left; lia].
  - exists (S k). split; [done |]. split; simpl; [lia | intros j Hj; apply Hprev; lia | done | done].
  - fold (retryable s e). rewrite bool_decide_eq_false_2, andb_true_r by done. destruct (retryable s e) eqn:Hr.
    + apply (IH (S k) (Some e)); [lia |]. intros j Hj. destruct (decide (j = k)) as [-> |]; [by exists e | apply Hprev; lia].
    + exists (S k). split; [done |]. split; simpl; [lia | intros j Hj; apply Hprev; lia | done | intros e' [= <-]; by right].
  - exists (S k). split; [done |]. split; simpl; [lia | intros j Hj; apply Hprev; lia | done | done].
Qed.

Lemma step_tried s c log : ∃ n, (step_spec s c log).1 = repeated log s n ∧ tried s c log n (step_spec s c log).2.
Proof.
  unfold step_spec. fold (allowed s). destruct (allowed s) as [| left] eqn:Ha.
  - exists 0%nat. split; [unfold repeated; simpl; by rewrite app_nil_r |]. split; simpl; [lia | lia | by eauto | intros ? _; by left].
  - destruct (attempt_more s c log 0 left None) as (n & H1 & H2); [done | lia |].
    unfold repeated in H1 at 1, H2 at 1. simpl replicate in H1, H2. rewrite app_nil_r in H1, H2. by exists n.
Qed.

Lemma backward_ends todo st error c log :
  (∃ c' log', undone todo c log c' log' ∧ backward todo st error c log = Outcome log' compensated c' error None) ∨
  ∃ todo1 s out todo2 c2 log2 e, todo = todo1 ++ (s, out) :: todo2 ∧ undone todo1 c log c2 log2 ∧
    (st_compensate s log2 c2 out).2 = inl e ∧
    backward todo st error c log = Outcome (log2 ++ [Compensated (st_name s)]) st c2 error (Some e).
Proof.
  revert c log. induction todo as [| [s out] todo IH]; intros c log; simpl.
  - left. eexists _, _. split; [constructor | done].
  - destruct (st_compensate s log c out).2 as [e | c1] eqn:Hx.
    + right. exists [], s, out, todo, c, log, e. split; [done |]. split; [constructor | done].
    + destruct (IH c1 (log ++ [Compensated (st_name s)])) as [(c' & log' & H1 & ->) | (t1 & s' & o' & t2 & c2 & l2 & e & -> & H1 & H2 & ->)].
      * left. eexists _, _. split; [by econstructor | done].
      * right. exists ((s, out) :: t1), s', o', t2, c2, l2, e. split; [done |]. split; [by econstructor | done].
Qed.

Lemma forward_ends steps fin error c log :
  (∃ outs c' log', succeeded steps c log outs c' log' ∧ forward steps fin error c log = Outcome log' completed c' error None) ∨
  ∃ ok bad rest outs c1 log1 n e, steps = ok ++ bad :: rest ∧ succeeded ok c log outs c1 log1 ∧ tried bad c1 log1 n (inl e) ∧
    forward steps fin error c log = backward (rev (fin ++ outs)) compensating (Some (exn_message e)) c1 (repeated log1 bad n).
Proof.
  revert fin c log. induction steps as [| s steps IH]; intros fin c log; simpl.
  - left. eexists _, _, _. split; [constructor | done].
  - destruct (step_tried s c log) as (n & Hn & Ht). destruct (step_spec s c log) as [log' [e | c1]]; simpl in Hn, Ht; subst log'.
    + right. exists [], s, steps, [], c, log, n, e. rewrite app_nil_r. split; [done |]. split; [constructor | done].
    + destruct (IH (fin ++ [(s, c1)]) c1 (repeated log s n)) as [(outs & c' & l' & H1 & ->) | (ok & bad & rest & outs & c2 & l2 & m & e & -> & H1 & H2 & ->)].
      * left. eexists _, _, _. split; [by econstructor | done].
      * right. exists (s :: ok), bad, rest, ((s, c1) :: outs), c2, l2, m, e. rewrite <-app_assoc. split; [done |]. split; [by econstructor | done].
Qed.

Lemma forward_saga_ends steps c log :
  let o := forward steps [] None c log in saga_ends steps c log (oc_status o) (oc_error o) (oc_thrown o) (oc_context o) (oc_log o).
Proof.
  simpl. destruct (forward_ends steps [] None c log) as [(outs & c' & l' & H & ->) | (ok & bad & rest & outs & c1 & l1 & n & e & Hs & H1 & H2 & ->)].
  - by econstructor.
  - simpl app. destruct (backward_ends (rev outs) compensating (Some (exn_message e)) c1 (repeated l1 bad n)) as
      [(c' & l' & H & ->) | (t1 & s & out & t2 & c2 & l2 & e2 & Ht & H & Hx & ->)].
    + by eapply ends_compensated.
    + by eapply ends_stuck.
Qed.
End trace.

(** C5. A saga run from scratch performs its steps in order, each as often as its retry
    policy makes of the answers.  It is [completed] when every step succeeded.  When a
    step fails, for good or in all its attempts, the steps before it, which all succeeded,
    are compensated in reverse order, each once and with its recorded output: the saga is
    then [compensated]; if a compensation fails, the roll-back stops there, the saga stays
    [compensating] and the error of the compensation is thrown.  The stored record carries
    the context and the message of the failed step. *)
Theorem saga_effects {C} (co : SagaCoordinator C) w sagaId orderId c wt corr gen :
  NoDup (stepOrder co) → jget sagaId (sg_records w) = None →
  let out := run co sagaId orderId c wt corr gen w in
  ∃ r thrown, jget sagaId (sg_records out.2) = Some r ∧
    saga_ends (co_steps co) c (sg_effects w) (sr_status r) (sr_error r) thrown (sr_context r) (sg_effects out.2) ∧
    out.1 = match thrown with None => inr r | Some e => inl e end.
Proof.
  intros Hnd Hnone. simpl.
  destruct (fresh_run_refines co w sagaId orderId c wt corr gen Hnd Hnone) as (r & Hr & Heff & Hst & Hctx & Herr & Hres).
  eexists r, _. split; [done |]. split; [| exact Hres]. rewrite Heff, Hst, Hctx, Herr. apply forward_saga_ends.
Qed.

(** ** Runners that must back off *)

Section fencing.
Context {C : Type} (co : SagaCoordinator C).
Implicit Types (r : SagaRecord C) (w : sagas C).

(** The step a runner that advances [r] claims first. *)
Definition next_claim r : option string :=
  if bool_decide (sr_status r = compensating) || bool_decide (sr_status r = timed_out)
  then cs_stepName <$> head (rev (sr_completedSteps r))
  else head (remaining_steps co r).

Lemma advance_stale r w :
  (∀ e, jget (sr_sagaId r) (sg_records w) = Some e → sr_version e ≠ sr_version r) → (advance co r w).2 = w.
Proof.
  intros Hs. unfold advance, compensate. destruct (_ || _).
  - destruct (rev (sr_completedSteps r)) as [| cs todo]; simpl.
    + erewrite bind_run by done. erewrite bind_run_err; [| by apply save_stale]. done.
    + destruct (steps_get co _).
      * erewrite bind_run; [| by apply claim_stale]. done.
      * erewrite bind_run by done. erewrite bind_run_err; [| by apply save_stale]. done.
  - destruct (remaining_steps co r) as [| n rest]; simpl.
    + erewrite bind_run by done. erewrite bind_run_err; [| by apply save_stale]. done.
    + unfold some_or_throw. destruct (steps_get co n); [| done]. erewrite bind_run by done.
      erewrite bind_run; [| by apply claim_stale]. done.
Qed.

Lemma advance_leased r w n :
  next_claim r = Some n → is_Some (steps_get co n) → lease_active r n (sg_now w) = true →
  advance co r w = (inr r, w).
Proof.
  unfold next_claim, advance, compensate. intros Hn [s Hs] Hl. destruct (_ || _).
  - destruct (rev (sr_completedSteps r)) as [| cs todo]; simpl in *; [done |]. simplify_eq. rewrite Hs.
    erewrite bind_run; [| by apply claim_leased]. done.
  - destruct (remaining_steps co r) as [| m rest]; simpl in *; [done |]. simplify_eq. rewrite Hs.
    erewrite bind_run by done. erewrite bind_run; [| by apply claim_leased]. done.
Qed.

Lemma claim_inv r s w r' w' :
  claimStep co r s w = (inr (Some r'), w') →
  w' = put_record (sr_sagaId r) r' w ∧
  r' = with_version (sr_version r + 1) (set_claim (Some (sg_now w + co_claimLeaseMs co)) (sg_now w)
         (set_currentStep (Some s) r)).
Proof.
  unfold claimStep. erewrite bind_run by done. destruct (lease_active r s (sg_now w)); [done |].
  unfold try_catch, save, store_save. run_unfold. intros H. by run_cases.
Qed.

(** A runner that finds the claimed record. *)
Lemma resume_leased r s w r' w' w2 :
  claimStep co r s w = (inr (Some r'), w') → sg_records w2 = sg_records w' → next_claim r = Some s → is_Some (steps_get co s) →
  sg_now w2 < sg_now w + co_claimLeaseMs co →
  jget (sr_sagaId r) (sg_records w2) = Some r' ∧ sr_claimExpiresAt r' = Some (sg_now w + co_claimLeaseMs co) ∧
  (∀ w3, sg_now w3 = sg_now w2 → advance co r' w3 = (inr r', w3)) ∧ resume co (sr_sagaId r) w2 = (inr r', w2).
Proof.
  intros H Hrec Hn Hs Hnow. apply claim_inv in H as [-> Hr'].
  assert (jget (sr_sagaId r) (sg_records w2) = Some r') as Hget by (rewrite Hrec; simpl; apply jget_jset_eq).
  assert (∀ w3, sg_now w3 = sg_now w2 → advance co r' w3 = (inr r', w3)) as Hadv.
  { intros w3 H3. rewrite <-H3 in Hnow. eapply advance_leased; [by rewrite Hr' | exact Hs |]. unfold lease_active. rewrite Hr'. simpl. rewrite bool_decide_eq_true_2 by done. by apply Z.ltb_lt. }
  split; [done |]. split; [by rewrite Hr' |]. split; [done |].
  unfold resume. erewrite bind_run by done. rewrite Hget. erewrite bind_run by done. destruct (terminal r'); [done | by apply Hadv].
Qed.

(** C9. A claim of the next step is exclusive.  A runner that holds a copy read before the
    claim changes nothing, whatever it tries.  Until the lease expires, those that read the
    claimed record write no record and perform no action: [resume] and [run] answer with
    it, and so does the recovery as long as the deadline of the saga has not passed.  (After
    the deadline the recovery rolls the saga back whether the lease is alive or not.) *)
Theorem claim_exclusive r s w r' w' :
  claimStep co r s w = (inr (Some r'), w') →
  (∀ k, sr_sagaId k = sr_sagaId r → sr_version k ≤ sr_version r → (advance co k w').2 = w') ∧
  ∀ w2, sg_records w2 = sg_records w' → next_claim r = Some s → is_Some (steps_get co s) → sg_now w2 < sg_now w + co_claimLeaseMs co →
    resume co (sr_sagaId r) w2 = (inr r', w2) ∧
    (∀ orderId c wt corr gen, let out := run co (sr_sagaId r) orderId c wt corr gen w2 in
       out.1 = inr r' ∧ sg_records out.2 = sg_records w2 ∧ sg_effects out.2 = sg_effects w2) ∧
    (deadline_passed r' (sg_now w2) = false → let out := recoverOne co (sr_sagaId r) w2 in
       sg_records out.2 = sg_records w2 ∧ sg_effects out.2 = sg_effects w2).
Proof.
  intros H. split.
  - intros k Hid Hv. apply claim_inv in H as [-> Hr']. apply advance_stale. rewrite Hid. simpl. rewrite jget_jset_eq. intros e [= <-].
    rewrite Hr'. simpl. lia.
  - intros w2 Hrec Hn Hs Hnow. destruct (resume_leased _ _ _ _ _ w2 H Hrec Hn Hs Hnow) as (Hget & Hcl & Hadv & Hres).
    split; [done |]. split.
    + intros orderId c wt corr gen. unfold run. erewrite bind_run by done.
      erewrite bind_run; [| unfold store_create; erewrite bind_run by done; simpl; rewrite Hget; done].
      unfold recordEvent. erewrite bind_run by done. destruct (terminal r'); [done |]. rewrite Hadv by done. done.
    + intros Hdead. unfold recoverOne, try_catch. erewrite bind_run by done. simpl. rewrite Hget. erewrite bind_run by done. rewrite Hdead.
      erewrite bind_run by exact Hres. unfold scheduleRetryIfLeased. rewrite Hcl.
      destruct (incomplete r'); [| by rewrite andb_false_l]. erewrite bind_run by done. rewrite bool_decide_eq_true_2 by (by eexists). simpl.
      by destruct (_ <=? 0).
Qed.

(** A saga that ended rests: [run] and [resume] of a saga that is completed,
    compensated or failed answer with the stored record, perform no action and write
    no record. *)
Theorem terminal_sagas_rest r w orderId c wt corr gen :
  current_in w r → terminal r = true →
  resume co (sr_sagaId r) w = (inr r, w) ∧
  let out := run co (sr_sagaId r) orderId c wt corr gen w in
  out.1 = inr r ∧ sg_records out.2 = sg_records w ∧ sg_effects out.2 = sg_effects w.
Proof.
  intros Hcur Ht. split.
  - unfold resume. erewrite bind_run by done. rewrite Hcur. erewrite bind_run by done. by rewrite Ht.
  - unfold run. erewrite bind_run by done.
    erewrite bind_run; [| unfold store_create; erewrite bind_run by done; simpl; rewrite Hcur; done].
    erewrite bind_run by done. by rewrite Ht.
Qed.
End fencing.

(** ** Versions, logs and the clock *)

Section history.
Context {C : Type} (co : SagaCoordinator C).
Implicit Types (r : SagaRecord C) (w : sagas C).

(** Records are kept and replaced only under a higher version, the log of actions
    and the event trail are append-only, and the clock does not go back. *)
Definition saga_history w w' : Prop :=
  (∀ id e, jget id (sg_records w) = Some e →
     ∃ e', jget id (sg_records w') = Some e' ∧ sr_version e ≤ sr_version e' ∧ (sr_version e = sr_version e' → e = e')) ∧
  sg_effects w `prefix_of` sg_effects w' ∧ sg_events w `prefix_of` sg_events w' ∧ sg_now w ≤ sg_now w'.

#[local] Instance saga_history_preorder : PreOrder saga_history.
Proof.
  split.
  - intros w. split; [intros id e He; exists e; by split |]. split; [done |]. split; [done | lia].
  - intros w1 w2 w3 (H1 & E1 & V1 & T1) (H2 & E2 & V2 & T2). split; [| split; [by etrans |]; split; [by etrans | lia]].
    intros id e He. destruct (H1 id e He) as (e2 & He2 & Hv & Heq). destruct (H2 id e2 He2) as (e3 & He3 & Hv' & Heq').
    exists e3. split; [done |]. split; [lia |]. intros Hver. rewrite (Heq ltac:(lia)). apply Heq'. lia.
Qed.

Lemma history_same w w' :
  sg_records w' = sg_records w → sg_effects w `prefix_of` sg_effects w' → sg_events w `prefix_of` sg_events w' →
  sg_now w ≤ sg_now w' → saga_history w w'.
Proof. intros Hr He Hv Hn. split; [| done]. intros id e Hid. exists e. by rewrite Hr. Qed.

Lemma timer_delay_pos ms : 0 < timer_delay ms.
Proof. unfold timer_delay. destruct (_ || _) eqn:E; [lia |]. apply orb_false_iff in E as [E _]. lia. Qed.

Lemma save_history r : evolves saga_history (save r).
Proof.
  intros w. unfold save, store_save. run_unfold. destruct (jget (sr_sagaId r) (sg_records w)) as [e |] eqn:He; [| done].
  destruct (Z.eqb_spec (sr_version e) (sr_version r)); [| done]. simpl. split; [| done].
  intros id x Hx. simpl. rewrite jget_jset. case_decide as Hid; [| by exists x].
  eexists. split; [done |]. rewrite <-Hid, He in Hx. simplify_eq. simpl. split; [lia |]. intros; lia.
Qed.

Lemma create_history r : evolves saga_history (store_create r).
Proof.
  intros w. unfold store_create. run_unfold. destruct (jget (sr_sagaId r) (sg_records w)) as [e |] eqn:He; [done |].
  simpl. split; [| done]. intros id x Hx. simpl. rewrite jget_jset. case_decide as Hid; [congruence | by exists x].
Qed.

Lemma event_history r ty f t p : evolves saga_history (recordEvent r ty f t p).
Proof.
  intros w. apply history_same; simpl; [done | done | by apply prefix_app_r | lia].
Qed.

Lemma perform_history e (a : list effect → N * (exn + C)) : evolves saga_history (perform e a).
Proof.
  intros w. unfold perform. destruct (a (sg_effects w)) as [took ans].
  apply history_same; simpl; [done | by apply prefix_app_r | done | lia].
Qed.

Lemma sleep_history ms : evolves saga_history (sleep ms : M (sagas C) ()).
Proof.
  intros w. pose proof (timer_delay_pos ms). apply history_same; simpl; [done | done | done | lia].
Qed.

#[local] Hint Resolve save_history create_history event_history perform_history sleep_history : evolve.

Lemma claim_history r s : evolves saga_history (claimStep co r s).
Proof. unfold claimStep. evolve. Qed.
#[local] Hint Resolve claim_history : evolve.

Lemma attempts_history s c last n : evolves saga_history (attempts s c last n).
Proof. revert last. induction n as [| n IH]; intros last; simpl; evolve. Qed.

Lemma roll_back_history cs s r : evolves saga_history (roll_back cs s r).
Proof. unfold roll_back. evolve. Qed.
#[local] Hint Resolve attempts_history roll_back_history : evolve.

Lemma compensate_history todo r : evolves saga_history (compensate_from co todo r).
Proof. revert r. induction todo as [| cs todo IH]; intros r; simpl; evolve. Qed.
#[local] Hint Resolve compensate_history : evolve.

Lemma advance_history names r : evolves saga_history (advance_from co names r).
Proof.
  revert r. induction names as [| n names IH]; intros r; simpl; unfold executeWithRetry, compensate; evolve.
Qed.
#[local] Hint Resolve advance_history : evolve.

Lemma resume_history id : evolves saga_history (resume co id).
Proof. unfold resume, store_get, advance, compensate. evolve. Qed.

Lemma schedule_history r : evolves saga_history (scheduleRetryIfLeased r).
Proof.
  intros w. unfold scheduleRetryIfLeased. destruct (incomplete r); [| done].
  destruct (sr_claimExpiresAt r) as [t |]; [| done]. simpl. destruct (_ <=? 0); [done |].
  by apply history_same.
Qed.
#[local] Hint Resolve resume_history schedule_history : evolve.

Lemma recoverOne_history id : evolves saga_history (recoverOne co id).
Proof. unfold recoverOne, store_get, compensate. evolve. Qed.
#[local] Hint Resolve recoverOne_history : evolve.

Lemma recover_each_history ids acc : evolves saga_history (recover_each co ids acc).
Proof. revert acc. induction ids as [| id ids IH]; intros acc; simpl; evolve. Qed.
#[local] Hint Resolve recover_each_history : evolve.

(** The history of sagas is monotone under every entry point, returning or
    throwing: no record disappears, a record is replaced only under a strictly higher
    version (two copies with one version are the same copy), the log of performed
    actions and the event trail only grow. *)
Theorem saga_history_monotone :
  (∀ id orderId c wt corr gen, evolves saga_history (run co id orderId c wt corr gen)) ∧
  (∀ id, evolves saga_history (resume co id)) ∧
  evolves saga_history (recoverAll co) ∧ evolves saga_history (timeoutSweep co).
Proof.
  split; [| split; [| split]].
  - intros. unfold run, advance, compensate. evolve.
  - auto with evolve.
  - unfold recoverAll, listIncomplete. evolve.
  - unfold timeoutSweep, listTimedOut. evolve.
Qed.
End history.

(** ** Concrete sagas

    A three-step checkout whose context is a counter: witnesses of the theorems of
    SagaCorrect.v, and three runs in which compensation does not do what its comments
    say. *)

(** An action that adds 1 to the context and takes 5 ms, its compensation subtracts 1. *)
Definition counter_step (name : string) : SagaStep Z :=
  {| st_name := name; st_execute := λ _ c, (5%N, inr (c + 1)); st_compensate := λ _ c _, (5%N, inr (c - 1));
     st_retryPolicy := None |}.

(** A step that always fails with a network timeout, and is tried three times. *)
Definition failing_step (name : string) : SagaStep Z :=
  {| st_name := name; st_execute := λ _ _, (5%N, inl (Error "network timeout"));
     st_compensate := λ _ c _, (5%N, inr c);
     st_retryPolicy := Some {| maxAttempts := 3; backoffMs := 100; retryableErrors := ["timeout"] |} |}.

(** A step whose compensation fails the first time. *)
Definition stubborn_step (name : string) : SagaStep Z :=
  {| st_name := name; st_execute := λ _ c, (5%N, inr (c + 1));
     st_compensate := λ log c _, (5%N, if bool_decide (Compensated name ∈ log) then inr (c - 1)
                                       else inl (Error "provider unavailable"));
     st_retryPolicy := None |}.

Definition with_steps (l : list (SagaStep Z)) : SagaCoordinator Z :=
  {| co_steps := l; co_claimLeaseMs := DEFAULT_CLAIM_LEASE_MS; co_sagaTimeoutMs := DEFAULT_SAGA_TIMEOUT_MS |}.

Definition no_sagas (now : Z) : sagas Z := Sagas [] [] [] [] now.
Definition at_time (t : Z) (w : sagas Z) : sagas Z :=
  Sagas (sg_records w) (sg_events w) (sg_effects w) (sg_timers w) t.

Definition checkout_saga : SagaCoordinator Z :=
  with_steps [counter_step "reserve"; counter_step "escrow"; counter_step "ship"].
Definition start (co : SagaCoordinator Z) (w : sagas Z) := run co "s1" "o1" 0 None None "corr" w.

(** The third step fails in its three attempts. *)
Definition failing_saga : SagaCoordinator Z := with_steps [counter_step "reserve"; counter_step "escrow"; failing_step "ship"].

Lemma saga_effects_witness :
  NoDup (stepOrder failing_saga) ∧
  ∃ r, jget "s1" (sg_records (start failing_saga (no_sagas 0)).2) = Some r ∧ sr_status r = compensated ∧
    saga_ends (co_steps failing_saga) 0 [] compensated (Some "network timeout") None 0
      [Executed "reserve"; Executed "escrow"; Executed "ship"; Executed "ship"; Executed "ship"; Compensated "escrow"; Compensated "reserve"].
Proof.
  assert (Hnd : NoDup (stepOrder failing_saga)) by (by apply (bool_decide_unpack _)).
  split; [done |].
  destruct (saga_effects failing_saga (no_sagas 0) "s1" "o1" 0 None None "corr" Hnd eq_refl) as (r & thrown & Hr & He & Hres).
  exists r. split; [exact Hr |]. vm_compute in Hr, Hres. injection Hr as <-. split; [reflexivity |].
  destruct thrown; [discriminate Hres |]. exact He.
Defined.

(** The record of a runner that crashed after "reserve". *)
Definition crashed_record : SagaRecord Z :=
  Build_SagaRecord "s1" "o1" checkout running (Some "escrow")
    [Build_CompletedStep "reserve" step_completed 1 5 (Some "reserve")] 1 2 "corr" None (Some 300000) (Some 30005) 0 5.
Definition crashed_world (now : Z) : sagas Z :=
  Sagas [("s1", crashed_record)] [] [Executed "reserve"] [] now.

Lemma resume_continues_witness :
  current_in (crashed_world 40000) crashed_record ∧
  realises "s1"
    (forward [counter_step "escrow"; counter_step "ship"] [(counter_step "reserve", 1)] None 1 [Executed "reserve"])
    (resume checkout_saga "s1" (crashed_world 40000)).1 (resume checkout_saga "s1" (crashed_world 40000)).2.
Proof.
  split; [done |].
  apply (resume_continues checkout_saga [counter_step "reserve"] [counter_step "escrow"; counter_step "ship"]
           [(counter_step "reserve", 1)] crashed_record (crashed_world 40000)); try done.
  - by apply (bool_decide_unpack _).
  - by repeat constructor.
Defined.

Lemma claim_exclusive_witness :
  ∃ r' w', claimStep checkout_saga crashed_record "escrow" (crashed_world 40000) = (inr (Some r'), w') ∧
    (advance checkout_saga crashed_record w').2 = w' ∧
    resume checkout_saga "s1" (at_time 69999 w') = (inr r', at_time 69999 w').
Proof.
  destruct (claimStep checkout_saga crashed_record "escrow" (crashed_world 40000)) as [[e | [r' |]] w'] eqn:H;
    [by vm_compute in H | | by vm_compute in H].
  destruct (claim_exclusive checkout_saga crashed_record "escrow" (crashed_world 40000) r' w' H) as [Hstale Hlease].
  exists r', w'. split; [done |]. split; [apply Hstale; simpl; [done | lia] |].
  apply Hlease; [done | done | by eexists |]. vm_compute. reflexivity.
Defined.

Lemma terminal_sagas_rest_witness :
  let w := (start checkout_saga (no_sagas 0)).2 in
  ∃ r, current_in w r ∧ resume checkout_saga "s1" w = (inr r, w).
Proof.
  intros w. destruct (jget "s1" (sg_records w)) as [r |] eqn:Hr; [| by vm_compute in Hr].
  assert (Hid : sr_sagaId r = "s1") by (vm_compute in Hr; by simplify_eq).
  assert (Ht : terminal r = true) by (vm_compute in Hr; by simplify_eq).
  exists r. unfold current_in. rewrite Hid. split; [done |].
  assert (Hc : current_in w r) by (unfold current_in; by rewrite Hid).
  pose proof (terminal_sagas_rest checkout_saga r w "o1" 0 None None "corr" Hc Ht) as [H _]. by rewrite Hid in H.
Defined.

(** ** Runs in which compensation misbehaves *)

Definition stubborn_saga : SagaCoordinator Z :=
  with_steps [stubborn_step "reserve"; counter_step "escrow"; failing_step "ship"].

(** When a compensation fails half-way, [resume] starts the roll-back from the
    last completed step again: steps already marked as compensated are compensated a
    second time.  Here the escrow is rolled back twice (and the context ends at -1). *)
Theorem resume_compensates_twice :
  let w1 := (start stubborn_saga (no_sagas 0)).2 in
  let out := resume stubborn_saga "s1" w1 in
  sg_effects w1 = [Executed "reserve"; Executed "escrow"; Executed "ship"; Executed "ship"; Executed "ship";
                   Compensated "escrow"; Compensated "reserve"] ∧
  (cs_status <$> (default [] (sr_completedSteps <$> jget "s1" (sg_records w1)))) = [step_completed; step_compensated] ∧
  sg_effects out.2 = sg_effects w1 ++ [Compensated "escrow"; Compensated "reserve"] ∧
  ∃ r, out.1 = inr r ∧ sr_status r = compensated ∧ sr_context r = -1.
Proof. vm_compute. split; [done |]. split; [done |]. split; [done |]. by eexists. Qed.

(** A retry that recovery scheduled for a leased step does not look at the status
    when it fires: once the deadline has passed it rolls back a saga that has been
    completed meanwhile.  A runner claims "escrow" at 4:35 and crashes, recovery at
    4:40 finds the lease and sets the timer, an operator resumes the saga, which
    completes, and the timer then undoes it. *)
Theorem scheduled_retry_undoes_completed :
  let claimed := (claimStep checkout_saga crashed_record "escrow" (crashed_world 275000)).2 in
  let recovered := (recoverAll checkout_saga (at_time 280000 claimed)).2 in
  let finished := resume checkout_saga "s1" (at_time 305001 recovered) in
  let fired := recoverOne checkout_saga "s1" (at_time 305050 finished.2) in
  sg_timers recovered = [("s1", 305050)] ∧
  (∃ r, finished.1 = inr r ∧ sr_status r = completed) ∧
  sg_effects finished.2 = [Executed "reserve"; Executed "escrow"; Executed "ship"] ∧
  sg_effects fired.2 = sg_effects finished.2 ++ [Compensated "ship"; Compensated "escrow"; Compensated "reserve"] ∧
  sr_status <$> jget "s1" (sg_records fired.2) = Some compensated.
Proof. vm_compute. split; [done |]. split; [by eexists |]. done. Qed.

(** A saga past its deadline whose compensation fails the first time. *)
Definition late_world : sagas Z :=
  at_time 300000
    (Sagas [("s1", set_claim None 0 crashed_record)] [] [Executed "reserve"] [] 0).

(** The roll-back of a timed-out saga is not retried: when a compensation fails
    the record keeps the status [timed_out], which neither [recoverAll] nor the
    sweeper select, although the compensation would succeed the next time. *)
Theorem timed_out_rollback_abandoned :
  let w1 := (timeoutSweep stubborn_saga late_world).2 in
  sr_status <$> jget "s1" (sg_records w1) = Some timed_out ∧
  sg_effects w1 = [Executed "reserve"; Compensated "reserve"] ∧
  recoverAll stubborn_saga w1 = (inr {| rr_recovered := 0; rr_failed := 0; rr_details := [] |}, w1) ∧
  timeoutSweep stubborn_saga w1 = (inr (), w1) ∧
  sr_status <$> jget "s1" (sg_records (resume stubborn_saga "s1" w1).2) = Some compensated.
Proof. vm_compute. done. Qed.
