(* ===== verification/Calendar.v ===== *)
(** * The UTC calendar of JavaScript's [Date]

    The functions of the ECMAScript specification that map a time value in
    milliseconds to year, month, day of the month and day of the week, and back
    ([getUTCFullYear], [getUTCMonth], [getUTCDate], [getUTCDay], [Date.UTC],
    [setUTCDate], [toISOString]).  Time values are integers. *)
From S2P Require Import Prelude JsLib.
Local Open Scope Z_scope.

Definition msPerDay : Z := 86400000.

Definition Day (t : Z) : Z := t / msPerDay.
Definition TimeWithinDay (t : Z) : Z := t mod msPerDay.

(** The number of the first day of a year. *)
Definition DayFromYear (y : Z) : Z :=
  365 * (y - 1970) + (y - 1969) / 4 - (y - 1901) / 100 + (y - 1601) / 400.

Definition leap (y : Z) : bool := (y mod 4 =? 0) && (negb (y mod 100 =? 0) || (y mod 400 =? 0)).

(** The year of a day: the mean length of a year gives it up to one. *)
Definition year_of_day (d : Z) : Z :=
  let y := 1970 + (400 * d) / 146097 in
  if d <? DayFromYear y then y - 1 else if d <? DayFromYear (y + 1) then y else y + 1.

(** The days before each month of a common year. *)
Definition days_before (m : Z) : Z :=
  match m with
  | 0 => 0 | 1 => 31 | 2 => 59 | 3 => 90 | 4 => 120 | 5 => 151
  | 6 => 181 | 7 => 212 | 8 => 243 | 9 => 273 | 10 => 304 | 11 => 334 | _ => 365
  end.
Definition month_start (lp : bool) (m : Z) : Z := days_before m + (if lp && (2 <=? m) then 1 else 0).

(** The month, from 0, of the [n]-th day of a year. *)
Definition month_of (lp : bool) (n : Z) : Z :=
  if n <? month_start lp 1 then 0 else if n <? month_start lp 2 then 1 else
  if n <? month_start lp 3 then 2 else if n <? month_start lp 4 then 3 else
  if n <? month_start lp 5 then 4 else if n <? month_start lp 6 then 5 else
  if n <? month_start lp 7 then 6 else if n <? month_start lp 8 then 7 else
  if n <? month_start lp 9 then 8 else if n <? month_start lp 10 then 9 else
  if n <? month_start lp 11 then 10 else 11.

Definition getUTCFullYear (t : Z) : Z := year_of_day (Day t).
Definition day_in_year (t : Z) : Z := Day t - DayFromYear (getUTCFullYear t).
Definition getUTCMonth (t : Z) : Z := month_of (leap (getUTCFullYear t)) (day_in_year t).
Definition getUTCDate (t : Z) : Z := day_in_year t - month_start (leap (getUTCFullYear t)) (getUTCMonth t) + 1.
(** The epoch was a Thursday. *)
Definition getUTCDay (t : Z) : Z := (Day t + 4) mod 7.

(** A month outside 0..11 carries into the year. *)
Definition MakeDay (y m date : Z) : Z :=
  let ym := y + m / 12 in
  DayFromYear ym + month_start (leap ym) (m mod 12) + date - 1.

(** [Date.UTC(y, m, date)]: years 0 to 99 are those of the twentieth century. *)
Definition Date_UTC (y m date : Z) : Z :=
  let yr := if (0 <=? y) && (y <=? 99) then 1900 + y else y in
  MakeDay yr m date * msPerDay.

(** [d.setUTCDate(date)] *)
Definition setUTCDate (t date : Z) : Z :=
  MakeDay (getUTCFullYear t) (getUTCMonth t) date * msPerDay + TimeWithinDay t.

(** [d.setUTCMonth(m)], [d.setUTCFullYear(y)] *)
Definition setUTCMonth (t m : Z) : Z :=
  MakeDay (getUTCFullYear t) m (getUTCDate t) * msPerDay + TimeWithinDay t.
Definition setUTCFullYear (t y : Z) : Z :=
  MakeDay y (getUTCMonth t) (getUTCDate t) * msPerDay + TimeWithinDay t.

(** Time values further than 10^8 days from the epoch are no dates ([NaN]). *)
Definition TimeClip (t : Z) : option Z := if Z.abs t <=? 8640000000000000 then Some t else None.

(** [String(n).padStart(w, "0")] of a number that is not negative *)
Fixpoint zeros (n : nat) : string := match n with O => "" | S n' => String "0" (zeros n') end.
Definition padStart (w : nat) (s : string) : string := zeros (w - String.length s) +:+ s.

(** [d.toISOString()]: years outside 0..9999 have a sign and six digits. *)
Definition iso_year (y : Z) : string :=
  if (0 <=? y) && (y <=? 9999) then padStart 4 (dec y)
  else (if y <? 0 then "-" else "+") +:+ padStart 6 (dec (Z.abs y)).
Definition toISOString (t : Z) : string :=
  let ms := TimeWithinDay t in
  iso_year (getUTCFullYear t) +:+ "-" +:+ padStart 2 (dec (getUTCMonth t + 1)) +:+ "-" +:+
  padStart 2 (dec (getUTCDate t)) +:+ "T" +:+ padStart 2 (dec (ms / 3600000)) +:+ ":" +:+
  padStart 2 (dec (ms / 60000 mod 60)) +:+ ":" +:+ padStart 2 (dec (ms / 1000 mod 60)) +:+ "." +:+
  padStart 3 (dec (ms mod 1000)) +:+ "Z".

Example iso_epoch : toISOString 0 = "1970-01-01T00:00:00.000Z".
Proof. reflexivity. Qed.
Example iso_leap : toISOString 1709210096789 = "2024-02-29T12:34:56.789Z".
Proof. reflexivity. Qed.
Example iso_far : toISOString 253402300800000 = "+010000-01-01T00:00:00.000Z".
Proof. reflexivity. Qed.
Example iso_century : toISOString (951782400000 - 1) = "2000-02-28T23:59:59.999Z".
Proof. reflexivity. Qed.

(** ** Years and days *)

Ltac div_lia := Z.div_mod_to_equations; lia.

Lemma DayFromYear_succ y : DayFromYear (y + 1) = DayFromYear y + 365 + Z.b2z (leap y).
Proof.
  unfold DayFromYear, leap.
  destruct (Z.eqb_spec (y mod 4) 0), (Z.eqb_spec (y mod 100) 0), (Z.eqb_spec (y mod 400) 0); simpl; div_lia.
Qed.

Lemma DayFromYear_lt y y' : y < y' → DayFromYear y < DayFromYear y'.
Proof. unfold DayFromYear. intros H. div_lia. Qed.

(** The year found is the one the day lies in. *)
Lemma year_of_day_spec d : DayFromYear (year_of_day d) ≤ d < DayFromYear (year_of_day d + 1).
Proof.
  unfold year_of_day. set (y := 1970 + 400 * d / 146097).
  assert (DayFromYear (y - 1) ≤ d < DayFromYear (y + 2)).
  { unfold y, DayFromYear. div_lia. }
  destruct (Z.ltb_spec d (DayFromYear y)); [replace (y - 1 + 1) with y by lia; lia |].
  destruct (Z.ltb_spec d (DayFromYear (y + 1))); [lia |].
  replace (y + 1 + 1) with (y + 2) by lia. lia.
Qed.

Lemma year_unique d y : DayFromYear y ≤ d < DayFromYear (y + 1) → y = year_of_day d.
Proof.
  intros H. pose proof (year_of_day_spec d) as H'.
  destruct (Z.lt_trichotomy y (year_of_day d)) as [Hlt | [-> | Hgt]]; [| done |].
  - destruct (decide (y + 1 = year_of_day d)) as [E | Hne]; [rewrite E in H; lia |].
    pose proof (DayFromYear_lt (y + 1) (year_of_day d)). lia.
  - destruct (decide (year_of_day d + 1 = y)) as [E | Hne]; [rewrite E in H'; lia |].
    pose proof (DayFromYear_lt (year_of_day d + 1) y). lia.
Qed.

(** ** Months *)

Lemma month_of_spec lp n :
  0 ≤ n < 365 + Z.b2z lp →
  0 ≤ month_of lp n ≤ 11 ∧ month_start lp (month_of lp n) ≤ n < month_start lp (month_of lp n) + 31.
Proof.
  intros H. unfold month_of, month_start.
  destruct lp; simpl in *; repeat (case_match; simpl; try lia).
Qed.

Lemma day_in_year_bounds t : 0 ≤ day_in_year t < 365 + Z.b2z (leap (getUTCFullYear t)).
Proof.
  unfold day_in_year, getUTCFullYear. pose proof (year_of_day_spec (Day t)) as H.
  rewrite DayFromYear_succ in H. lia.
Qed.

Lemma month_bounds t : 0 ≤ getUTCMonth t ≤ 11.
Proof. apply month_of_spec, day_in_year_bounds. Qed.

Lemma date_bounds t : 1 ≤ getUTCDate t ≤ 31.
Proof.
  unfold getUTCDate, getUTCMonth. pose proof (month_of_spec _ _ (day_in_year_bounds t)). lia.
Qed.

(** Reading a date and building it again. *)
Lemma MakeDay_fields t k : MakeDay (getUTCFullYear t) (getUTCMonth t) (getUTCDate t + k) = Day t + k.
Proof.
  unfold MakeDay. pose proof (month_bounds t).
  rewrite (Z.div_small (getUTCMonth t) 12), (Z.mod_small (getUTCMonth t) 12), Z.add_0_r by lia.
  unfold getUTCDate, day_in_year. lia.
Qed.

Lemma Day_times d : Day (d * msPerDay) = d.
Proof. apply Z.div_mul. done. Qed.

Lemma Day_shift t k : Day (t + k * msPerDay) = Day t + k.
Proof. unfold Day. by rewrite Z.div_add. Qed.

(** [d.setUTCDate(d.getUTCDate() + k)] moves the date by [k] days. *)
Lemma setUTCDate_shift t k : setUTCDate t (getUTCDate t + k) = t + k * msPerDay.
Proof.
  unfold setUTCDate. rewrite MakeDay_fields. unfold Day, TimeWithinDay.
  pose proof (Z.div_mod t msPerDay ltac:(done)). lia.
Qed.

Lemma getUTCFullYear_ge t : 0 ≤ t → 1970 ≤ getUTCFullYear t.
Proof.
  intros Ht. unfold getUTCFullYear. pose proof (year_of_day_spec (Day t)).
  assert (0 ≤ Day t) by (by apply Z.div_pos).
  destruct (Z.le_gt_cases 1970 (year_of_day (Day t))) as [| Hlt]; [done |].
  destruct (decide (year_of_day (Day t) + 1 = 1970)) as [E | ?].
  - rewrite E in H. change (DayFromYear 1970) with 0 in H. lia.
  - pose proof (DayFromYear_lt (year_of_day (Day t) + 1) 1970). change (DayFromYear 1970) with 0 in *. lia.
Qed.

(** [Date.UTC] of the fields of an instant is the start of its day. *)
Lemma Date_UTC_fields t :
  0 ≤ t → Date_UTC (getUTCFullYear t) (getUTCMonth t) (getUTCDate t) = Day t * msPerDay.
Proof.
  intros Ht. unfold Date_UTC.
  pose proof (getUTCFullYear_ge t Ht).
  destruct (Z.leb_spec (getUTCFullYear t) 99); [lia |]. rewrite andb_false_r.
  rewrite <-(Z.add_0_r (getUTCDate t)), MakeDay_fields. lia.
Qed.

(** ** Padded decimal numbers *)

Definition pad2 (n : Z) : string := padStart 2 (dec n).

Lemma below_100 (P : Z → bool) :
  forallb (λ n, P (Z.of_nat n)) (seq 0 100) = true → ∀ a, 0 ≤ a < 100 → P a = true.
Proof.
  intros H a Ha. rewrite <-(Z2Nat.id a) by lia. apply (proj1 (forallb_forall _ _) H).
  apply in_seq. lia.
Qed.

Lemma pad2_inj a b : 0 ≤ a < 100 → 0 ≤ b < 100 → pad2 a = pad2 b → a = b.
Proof.
  intros Ha Hb H. assert (Hread : ∀ n, 0 ≤ n < 100 → BigInt (pad2 n) = Some n).
  { set (reads n := bool_decide (BigInt (pad2 n) = Some n)).
    assert (Hall : forallb (λ n, reads (Z.of_nat n)) (seq 0 100) = true) by (by vm_compute).
    intros n Hn. apply (below_100 reads Hall) in Hn. by apply bool_decide_eq_true in Hn. }
  apply (f_equal BigInt) in H. rewrite !Hread in H by done. congruence.
Qed.

Lemma pad2_digits n : 0 ≤ n < 100 → forallb is_digit (chars (pad2 n)) = true.
Proof. apply (below_100 (λ n, forallb is_digit (chars (pad2 n)))). by vm_compute. Qed.

Lemma dec_digits z : 0 ≤ z → forallb is_digit (chars (dec z)) = true.
Proof.
  intros Hz. unfold dec, DecimalString.NilZero.string_of_int, DecimalString.NilZero.string_of_uint.
  assert (H : ∀ d, forallb is_digit (chars (DecimalString.NilEmpty.string_of_uint d)) = true).
  { intros d. induction d; done. }
  destruct z as [| p | p]; [done | | lia]. simpl. destruct (Pos.to_uint p); try apply H; done.
Qed.

Lemma digits_no_char c s : is_digit c = false → forallb is_digit (chars s) = true → c ∉ chars s.
Proof.
  intros Hc Hs Hin. apply list_elem_of_In in Hin. apply (proj1 (forallb_forall _ _) Hs) in Hin. congruence.
Qed.
