(* ===== verification/SpendLimits.v ===== *)
(** * Spending limits (apps/backend/wallet/src/spendLimits.ts, models/SpendLimit.ts)

    The limits are rows of PostgreSQL; the cumulative spend of a user's wallet is
    kept in Redis counters whose keys name the day, the ISO week or nothing.  The
    guard and the recording of the transaction queue (queue/txQueue.ts) are modelled
    around them.  Redis keeps a signed 64-bit integer with an optional expiry per
    key; a query may fail, as the environment says. *)
From S2P Require Import Prelude JsLib Calendar.
Local Open Scope Z_scope.

(** ** Keys *)

Definition getDailyKey (userId walletId : string) (date : Z) : string :=
  "spend:daily:" +:+ userId +:+ ":" +:+ walletId +:+ ":" +:+
  dec (getUTCFullYear date) +:+ "-" +:+ pad2 (getUTCMonth date + 1) +:+ "-" +:+ pad2 (getUTCDate date).

(** The Thursday of the week, which lies in the year the week belongs to. *)
Definition week_thursday (date : Z) : Z :=
  let d := Date_UTC (getUTCFullYear date) (getUTCMonth date) (getUTCDate date) in
  let dayNum := if getUTCDay d =? 0 then 7 else getUTCDay d in
  setUTCDate d (getUTCDate d + 4 - dayNum).

(** [Math.ceil(n / 7)] *)
Definition ceil7 (n : Z) : Z := (n + 6) / 7.

Definition week_number (date : Z) : Z :=
  let d := week_thursday date in
  let yearStart := Date_UTC (getUTCFullYear d) 0 1 in
  ceil7 ((d - yearStart) / msPerDay + 1).

Definition getWeeklyKey (userId walletId : string) (date : Z) : string :=
  "spend:weekly:" +:+ userId +:+ ":" +:+ walletId +:+ ":" +:+
  dec (getUTCFullYear (week_thursday date)) +:+ "-W" +:+ pad2 (week_number date).

Definition getLifetimeKey (userId walletId : string) : string :=
  "spend:lifetime:" +:+ userId +:+ ":" +:+ walletId.

Example weekly_key_2021 : getWeeklyKey "u" "w" 1609632000000 = "spend:weekly:u:w:2020-W53".
Proof. reflexivity. Qed.

(** ** Data *)

(** A row of spend_limits; a BIGINT column is an integer or absent. *)
Record SpendLimit := {
  sl_userId : string; sl_walletId : option string; sl_delegationId : option string;
  limitPerTransaction : option Z; limitDaily : option Z; limitWeekly : option Z; limitLifetime : option Z
}.

Record SpendCheckResult := {
  allowed : bool; reason : option string; limit : option string; currentSpend : option string;
  requestedAmount : option string
}.

Record SpendSummary := { daily : string; weekly : string; lifetime : string }.

(** What the queue knows of a transaction. *)
Record TransactionRequest := {
  rq_sourceAddress : string; rq_userId : option string; rq_walletId : option string;
  rq_delegationId : option string; rq_amountStroops : option string
}.

Record WalletRow := { wr_stellarAddress : string; wr_userId : string; wr_id : string }.

(** A counter and when it expires. *)
Record counter := { ct_value : Z; ct_expiry : option Z }.

Record spdb := SpDb {
  sp_limits : list SpendLimit; sp_wallets : list WalletRow; sp_redis : gmap string counter; sp_now : Z
}.

(** Whether PostgreSQL and Redis answer at a given time. *)
Class SpendEnv := { db_error : Z → option exn; redis_error : Z → option exn }.

Definition set_redis (m : gmap string counter) (d : spdb) : spdb :=
  SpDb (sp_limits d) (sp_wallets d) m (sp_now d).

(** ** Redis *)

Definition int64_ok (z : Z) : bool := (- 2 ^ 63 <=? z) && (z <=? 2 ^ 63 - 1).

Definition live (c : counter) (now : Z) : bool :=
  match ct_expiry c with None => true | Some e => now <? e end.

(** [GET] of a key *)
Definition redis_get (k : string) (d : spdb) : option Z :=
  c ← sp_redis d !! k;
  if live c (sp_now d) then Some (ct_value c) else None.

Definition ReplyError (m : string) : exn := Exn "ReplyError" m.

(** [INCRBY]: an expired counter is a new one, and a new one has no expiry. *)
Definition incrby (k : string) (amount : Z) : M spdb Z :=
  throw_if (negb (int64_ok amount)) (ReplyError "ERR value is not an integer or out of range");;
  now ← gets sp_now;
  old ← gets (λ d, sp_redis d !! k);
  let '(v, e) := match old with
                 | Some c => if live c now then (ct_value c, ct_expiry c) else (0, None)
                 | None => (0, None)
                 end in
  throw_if (negb (int64_ok (v + amount))) (ReplyError "ERR increment or decrement would overflow");;
  modify (λ d, set_redis (<[k := {| ct_value := v + amount; ct_expiry := e |}]> (sp_redis d)) d);;
  mret (v + amount).

(** [EXPIRE], in seconds *)
Definition expire (k : string) (seconds : Z) : M spdb () :=
  modify (λ d, set_redis
    (alter (λ c, {| ct_value := ct_value c; ct_expiry := Some (sp_now d + seconds * 1000) |}) k (sp_redis d)) d).

(** Lua numbers are doubles: [tonumber(a) == tonumber(b)] for integers. *)
Definition lua_number (z : Z) : Z := Z.sgn z * default 0 (nearest_double_integer (Z.abs z) 1).
Definition lua_eq (a b : Z) : bool := lua_number a =? lua_number b.

Section service.
Context `{SE : SpendEnv}.

Definition ask_db : M spdb () := e ← gets (λ d, db_error (sp_now d)); match e with Some x => throw x | None => mret () end.
Definition ask_redis : M spdb () := e ← gets (λ d, redis_error (sp_now d)); match e with Some x => throw x | None => mret () end.

(** ** spendLimits.ts *)

(** [delegationId || null] *)
Definition or_null (s : option string) : option string := if truthy s then s else None.

(** The limits that apply, most specific first. *)
Definition find_config (userId walletId : string) (delegationId : option string) (rows : list SpendLimit)
    : option SpendLimit :=
  let find p := List.find p rows in
  let first := find (λ r, String.eqb (sl_userId r) userId &&
                          bool_decide (sl_delegationId r = or_null delegationId) &&
                          bool_decide (sl_walletId r = or_null (Some walletId))) in
  let second := match first with
                | Some c => Some c
                | None => if truthy delegationId then find (λ r, bool_decide (sl_delegationId r = delegationId)) else None
                end in
  let third := match second with
               | Some c => Some c
               | None => if truthy (Some walletId)
                         then find (λ r, bool_decide (sl_walletId r = Some walletId) && bool_decide (sl_delegationId r = None))
                         else None
               end in
  match third with
  | Some c => Some c
  | None => find (λ r, String.eqb (sl_userId r) userId && bool_decide (sl_delegationId r = None) &&
                       bool_decide (sl_walletId r = None))
  end.

Definition allow : SpendCheckResult :=
  {| allowed := true; reason := None; limit := None; currentSpend := None; requestedAmount := None |}.

Definition refuse (why : string) (lim : Z) (current : option Z) (amount : Z) : SpendCheckResult :=
  {| allowed := false; reason := Some why; limit := Some (dec lim); currentSpend := dec <$> current;
     requestedAmount := Some (dec amount) |}.

(** One cumulative check, followed by the rest. *)
Definition check_total (why : string) (lim : option Z) (spent amount : Z) (k : SpendCheckResult) : SpendCheckResult :=
  match lim with
  | Some l => if l <? spent + amount then refuse why l (Some spent) amount else k
  | None => k
  end.

Definition checkSpendLimit (userId walletId : string) (delegationId : option string) (amountStroops : Z)
    : M spdb SpendCheckResult :=
  ask_db;;
  config ← gets (λ d, find_config userId walletId delegationId (sp_limits d));
  match config with
  | None => mret allow
  | Some c =>
      let over := match limitPerTransaction c with Some l => l <? amountStroops | None => false end in
      if over then
        mret (refuse "Per-transaction limit exceeded" (default 0 (limitPerTransaction c)) None amountStroops)
      else
        ask_redis;;
        now ← gets sp_now;
        dailySpend ← gets (λ d, default 0 (redis_get (getDailyKey userId walletId now) d));
        weeklySpend ← gets (λ d, default 0 (redis_get (getWeeklyKey userId walletId now) d));
        lifetimeSpend ← gets (λ d, default 0 (redis_get (getLifetimeKey userId walletId) d));
        mret (check_total "Daily limit exceeded" (limitDaily c) dailySpend amountStroops
             (check_total "Weekly limit exceeded" (limitWeekly c) weeklySpend amountStroops
             (check_total "Lifetime limit exceeded" (limitLifetime c) lifetimeSpend amountStroops allow)))
  end.

Definition dailyTtl : Z := 172800.
Definition weeklyTtl : Z := 691200.

(** One counter of the Lua script: incremented, and given its time to live when it
    looks new. *)
Definition count (k : string) (amount : Z) (ttl : option Z) : M spdb () :=
  v ← incrby k amount;
  match ttl with
  | Some seconds => if lua_eq v amount then expire k seconds else mret ()
  | None => mret ()
  end.

Definition recordSpend (userId walletId : string) (amountStroops : Z) : M spdb () :=
  ask_redis;;
  now ← gets sp_now;
  count (getDailyKey userId walletId now) amountStroops (Some dailyTtl);;
  count (getWeeklyKey userId walletId now) amountStroops (Some weeklyTtl);;
  count (getLifetimeKey userId walletId) amountStroops None.

Definition getSpendSummary (userId walletId : string) : M spdb SpendSummary :=
  ask_redis;;
  now ← gets sp_now;
  let show k d := from_option dec "0" (redis_get k d) in
  a ← gets (show (getDailyKey userId walletId now));
  b ← gets (show (getWeeklyKey userId walletId now));
  c ← gets (show (getLifetimeKey userId walletId));
  mret {| daily := a; weekly := b; lifetime := c |}.

(** ** queue/txQueue.ts *)

(** [request.amountStroops ? BigInt(request.amountStroops) : 0n] *)
Definition request_amount (request : TransactionRequest) : M spdb Z :=
  match rq_amountStroops request with
  | Some s => if String.eqb s "" then mret 0 else BigInt_throw s
  | None => mret 0
  end.

(** The user and the wallet of a request: its own, or those of its source address. *)
Definition request_ids (request : TransactionRequest) : M spdb (option string * option string) :=
  let given := (rq_userId request, rq_walletId request) in
  if truthy (rq_userId request) && truthy (rq_walletId request) then mret given
  else
    try_catch
      (ask_db;;
       wallet ← gets (λ d, List.find (λ w, String.eqb (wr_stellarAddress w) (rq_sourceAddress request)) (sp_wallets d));
       mret match wallet with
            | Some w => (if truthy (rq_userId request) then rq_userId request else Some (wr_userId w),
                         if truthy (rq_walletId request) then rq_walletId request else Some (wr_id w))
            | None => given
            end)
      (λ _, mret given).

(** The limit check of [addTransactionToQueue]: the request with the identifiers it
    was checked for. *)
Definition limit_guard (request : TransactionRequest) : M spdb TransactionRequest :=
  let delegationId := rq_delegationId request in
  amountStroops ← request_amount request;
  ids ← request_ids request;
  match ids with
  | (Some userId, Some walletId) =>
      if truthy (Some userId) && truthy (Some walletId) then
        try_catch
          (r ← checkSpendLimit userId walletId delegationId amountStroops;
           throw_if (negb (allowed r))
             (Error ("Spending limit exceeded: " +:+
                     (if truthy (reason r) then default "" (reason r) else "limit exceeded")));;
           mret {| rq_sourceAddress := rq_sourceAddress request; rq_userId := Some userId; rq_walletId := Some walletId;
                   rq_delegationId := delegationId; rq_amountStroops := Some (dec amountStroops) |})
          (λ err, if includes (exn_message err) "Spending limit exceeded" then throw err else mret request)
      else mret request
  | _ => mret request
  end.

(** The recording of [executeTxJob] once the transaction is confirmed. *)
Definition record_confirmed (request : TransactionRequest) : M spdb () :=
  match rq_userId request, rq_walletId request, rq_amountStroops request with
  | Some userId, Some walletId, Some s =>
      if truthy (Some userId) && truthy (Some walletId) && truthy (Some s) then
        try_catch
          (amount ← BigInt_throw s;
           if 0 <? amount then recordSpend userId walletId amount else mret ())
          (λ _, mret ())
      else mret ()
  | _, _, _ => mret ()
  end.
End service.
