(* ===== verification/SpendCorrect.v ===== *)
(** * What the spending limits guarantee

    The keys of the counters identify days and ISO weeks; with them, what is
    recorded of transactions that follow one another never exceeds a configured
    limit, however long each takes from its check to its confirmation. *)
From S2P Require Import Prelude JsLib Calendar SpendLimits.
Local Open Scope Z_scope.

(** ** Days and weeks *)

(** Weeks run from Monday to Sunday; the week of the epoch is number 0. *)
Definition week_index (t : Z) : Z := (Day t + 3) / 7.
(** Identifiers (UUIDs) contain no colon. *)
Definition plain_id (s : string) : Prop := (":"%char ∉ chars s)%stdpp.

Lemma daily_suffix_inj t t' :
  0 ≤ t → 0 ≤ t' →
  dec (getUTCFullYear t) +:+ "-" +:+ pad2 (getUTCMonth t + 1) +:+ "-" +:+ pad2 (getUTCDate t) =
  dec (getUTCFullYear t') +:+ "-" +:+ pad2 (getUTCMonth t' + 1) +:+ "-" +:+ pad2 (getUTCDate t') →
  Day t = Day t'.
Proof.
  intros Ht Ht' H. pose proof (getUTCFullYear_ge t Ht). pose proof (getUTCFullYear_ge t' Ht').
  pose proof (month_bounds t). pose proof (month_bounds t'). pose proof (date_bounds t). pose proof (date_bounds t').
  apply split_at_sep in H as [Hy H]; [| apply digits_no_char; [done | apply dec_digits; lia] ..].
  apply split_at_sep in H as [Hm H]; [| apply digits_no_char; [done | apply pad2_digits; lia] ..].
  apply dec_inj in Hy. apply pad2_inj in Hm; [| lia ..]. apply pad2_inj in H; [| lia ..].
  rewrite <-(Z.add_0_r (Day t)), <-(Z.add_0_r (Day t')), <-!MakeDay_fields. rewrite Hy, H. f_equal. lia.
Qed.

Lemma day_fields t t' :
  Day t = Day t' → getUTCFullYear t = getUTCFullYear t' ∧ getUTCMonth t = getUTCMonth t' ∧ getUTCDate t = getUTCDate t'.
Proof.
  intros H. unfold getUTCDate, getUTCMonth, day_in_year, getUTCFullYear. by rewrite H.
Qed.

Lemma thursday_day t : 0 ≤ t → week_thursday t = 7 * week_index t * msPerDay.
Proof.
  intros Ht. unfold week_thursday. rewrite Date_UTC_fields by done. set (d := Day t * msPerDay).
  set (n := if getUTCDay d =? 0 then 7 else getUTCDay d).
  replace (getUTCDate d + 4 - n) with (getUTCDate d + (4 - n)) by lia. rewrite setUTCDate_shift.
  unfold week_index. subst n. unfold getUTCDay. subst d. rewrite Day_times.
  destruct (Z.eqb_spec ((Day t + 4) mod 7) 0); unfold msPerDay; div_lia.
Qed.

Lemma year_start y : 1970 ≤ y → Date_UTC y 0 1 = DayFromYear y * msPerDay.
Proof.
  intros Hy. unfold Date_UTC, MakeDay, month_start. destruct (Z.leb_spec y 99); [lia |]. rewrite andb_false_r.
  simpl. rewrite andb_false_r. change (0 / 12) with 0. rewrite !Z.add_0_r. f_equal. lia.
Qed.

Lemma week_number_eq t :
  0 ≤ t → let y := getUTCFullYear (week_thursday t) in
  1970 ≤ y ∧ week_number t = (7 * week_index t - DayFromYear y + 7) / 7 ∧ 1 ≤ week_number t ≤ 53.
Proof.
  intros Ht y. assert (0 ≤ week_index t).
  { unfold week_index. apply Z.div_pos; [| lia]. assert (0 ≤ Day t) by (by apply Z.div_pos). lia. }
  assert (0 ≤ week_thursday t) by (rewrite thursday_day by done; unfold msPerDay; lia).
  pose proof (getUTCFullYear_ge _ H0) as Hy. fold y in Hy. split; [done |].
  assert (E : week_number t = (7 * week_index t - DayFromYear y + 7) / 7).
  { unfold week_number. fold y. rewrite year_start by done. rewrite thursday_day by done.
    rewrite <-Z.mul_sub_distr_r, Z.div_mul by done. unfold ceil7. f_equal. lia. }
  split; [done |]. rewrite E. pose proof (year_of_day_spec (Day (week_thursday t))) as Hs.
  rewrite (thursday_day t Ht), Day_times in Hs. assert (Hyy : y = year_of_day (7 * week_index t)).
  { unfold y, getUTCFullYear. by rewrite thursday_day, Day_times. }
  rewrite <-Hyy, DayFromYear_succ in Hs. assert (Z.b2z (leap y) ≤ 1) by (by destruct (leap y)).
  clear E Hyy Hy. generalize dependent (Z.b2z (leap y)). generalize dependent (DayFromYear y).
  generalize dependent (week_index t). intros k Hk D z Hs Hz. div_lia.
Qed.

Lemma string_cons c x y : String c x = String c y → x = y.
Proof. by intros [= H]. Qed.

Lemma string_tail c x y : String c EmptyString +:+ x = String c EmptyString +:+ y → x = y.
Proof. simpl. by intros [= H]. Qed.

Lemma weekly_suffix_inj t t' :
  0 ≤ t → 0 ≤ t' →
  dec (getUTCFullYear (week_thursday t)) +:+ "-W" +:+ pad2 (week_number t) =
  dec (getUTCFullYear (week_thursday t')) +:+ "-W" +:+ pad2 (week_number t') →
  week_index t = week_index t'.
Proof.
  intros Ht Ht' H. destruct (week_number_eq t Ht) as (Hy & Hw & Hb). destruct (week_number_eq t' Ht') as (Hy' & Hw' & Hb').
  change ("-W" +:+ pad2 (week_number t)) with (String "-" ("W" +:+ pad2 (week_number t))) in H.
  change ("-W" +:+ pad2 (week_number t')) with (String "-" ("W" +:+ pad2 (week_number t'))) in H.
  apply split_at_sep in H as [Hd H]; [| apply digits_no_char; [done | apply dec_digits; lia] ..].
  apply string_tail in H. apply dec_inj in Hd. apply pad2_inj in H; [| lia ..].
  rewrite Hw, Hw', Hd in H. div_lia.
Qed.

(** Splitting a key into its prefix, the two identifiers and the rest. *)
Lemma key_ids_inj p u w s u' w' s' :
  plain_id u → plain_id w → plain_id u' → plain_id w' →
  p +:+ u +:+ ":" +:+ w +:+ ":" +:+ s = p +:+ u' +:+ ":" +:+ w' +:+ ":" +:+ s' → u = u' ∧ w = w' ∧ s = s'.
Proof.
  intros Hu Hw Hu' Hw' H. induction p as [| c p IH]; simpl in H; [| injection H as H; auto].
  apply split_at_sep in H as [-> H]; [| done ..]. by apply split_at_sep in H as [-> ->].
Qed.

Lemma spend_keys u w t u' w' t' :
  plain_id u → plain_id w → plain_id u' → plain_id w' → 0 ≤ t → 0 ≤ t' →
  (getDailyKey u w t = getDailyKey u' w' t' ↔ u = u' ∧ w = w' ∧ Day t = Day t') ∧
  (getWeeklyKey u w t = getWeeklyKey u' w' t' ↔ u = u' ∧ w = w' ∧ week_index t = week_index t').
Proof.
  intros Hu Hw Hu' Hw' Ht Ht'. split; split.
  - intros H. apply key_ids_inj in H as (-> & -> & H); [| done ..]. auto using daily_suffix_inj.
  - intros (-> & -> & H). destruct (day_fields _ _ H) as (Hy & Hm & Hd). unfold getDailyKey. by rewrite Hy, Hm, Hd.
  - intros H. apply key_ids_inj in H as (-> & -> & H); [| done ..]. auto using weekly_suffix_inj.
  - intros (-> & -> & H). unfold getWeeklyKey, week_number. by rewrite !thursday_day, H.
Qed.

(** The keys of the spend counters identify exactly a user, a wallet and a
    calendar day, or an ISO week from Monday to Sunday, across the ends of years and
    leap years. *)
Theorem spend_keys_exact u w t u' w' t' :
  plain_id u → plain_id w → plain_id u' → plain_id w' → 0 ≤ t → 0 ≤ t' →
  (getDailyKey u w t = getDailyKey u' w' t' ↔ u = u' ∧ w = w' ∧ Day t = Day t') ∧
  (getWeeklyKey u w t = getWeeklyKey u' w' t' ↔ u = u' ∧ w = w' ∧ week_index t = week_index t').
Proof. apply spend_keys. Qed.

(** ** One counter *)

Section counters.
Context `{SE : SpendEnv}.
Implicit Types d : spdb.

(** What an increment starts from. *)
Definition base (m : gmap string counter) (k : string) (now : Z) : Z * option Z :=
  match m !! k with
  | Some c => if live c now then (ct_value c, ct_expiry c) else (0, None)
  | None => (0, None)
  end.

Definition bump (m : gmap string counter) (k : string) (amount now : Z) (ttl : option Z) : counter :=
  let '(v, e) := base m k now in
  {| ct_value := v + amount;
     ct_expiry := match ttl with
                  | Some s => if lua_eq (v + amount) amount then Some (now + s * 1000) else e
                  | None => e
                  end |}.

Lemma base_get k d : (base (sp_redis d) k (sp_now d)).1 = default 0 (redis_get k d).
Proof.
  unfold base, redis_get. destruct (sp_redis d !! k) as [c |]; simpl; [| done]. by destruct (live c (sp_now d)).
Qed.

Lemma count_run k a ttl d :
  int64_ok a = true → int64_ok ((base (sp_redis d) k (sp_now d)).1 + a) = true →
  count k a ttl d = (inr (), set_redis (<[k := bump (sp_redis d) k a (sp_now d) ttl]> (sp_redis d)) d).
Proof.
  intros Ha Hv. unfold count, incrby, bump, base in *. run_unfold. rewrite Ha. simpl.
  destruct (match sp_redis d !! k with Some c => _ | None => _ end) as [v e]. simpl in *. rewrite Hv. simpl.
  destruct ttl as [s |]; [| done]. destruct (lua_eq (v + a) a); [| done]. unfold expire, modify. simpl.
  unfold set_redis. simpl. by rewrite alter_insert_eq.
Qed.

(** Whatever happens, only the counter itself changes. *)
Lemma count_frame k a ttl d :
  let d' := (count k a ttl d).2 in
  (∀ k', k' ≠ k → sp_redis d' !! k' = sp_redis d !! k') ∧
  sp_now d' = sp_now d ∧ sp_limits d' = sp_limits d ∧ sp_wallets d' = sp_wallets d.
Proof.
  unfold count, incrby. run_unfold. destruct (negb (int64_ok a)); simpl; [done |].
  destruct (match sp_redis d !! k with Some c => _ | None => _ end) as [v e]. simpl.
  destruct (negb (int64_ok (v + a))); simpl; [done |]. unfold expire, modify.
  assert (∀ c k', k' ≠ k → <[k := c]> (sp_redis d) !! k' = sp_redis d !! k') by (intros; by rewrite lookup_insert_ne).
  destruct ttl as [s |]; simpl; [| by split; auto]. destruct (lua_eq (v + a) a); simpl; [| by split; auto].
  split; [| done]. intros k' Hk. rewrite lookup_alter_ne by done. auto.
Qed.

(** ** The counters of a wallet and what was spent *)

(** A confirmed transaction: user, wallet, time and amount. *)
Record charge := { ch_user : string; ch_wallet : string; ch_time : Z; ch_amount : Z }.

(** One of the three counters: its key, its period, and its time to live. *)
Record kind := { kd_key : string → string → Z → string; kd_period : Z → Z; kd_ttl : option Z }.
Definition per_day : kind := {| kd_key := getDailyKey; kd_period := Day; kd_ttl := Some dailyTtl |}.
Definition per_week : kind := {| kd_key := getWeeklyKey; kd_period := week_index; kd_ttl := Some weeklyTtl |}.
Definition ever : kind := {| kd_key := λ u w _, getLifetimeKey u w; kd_period := λ _, 0; kd_ttl := None |}.

Definition total (k : kind) (u w : string) (p : Z) (log : list charge) : Z :=
  foldr Z.add 0 (ch_amount <$> List.filter (λ c,
    String.eqb (ch_user c) u && String.eqb (ch_wallet c) w && (kd_period k (ch_time c) =? p)) log).

(** The counter does not expire within its period. *)
Definition outlives (k : kind) (c : counter) (p : Z) : Prop :=
  ∀ t, 0 ≤ t → kd_period k t = p → live c t = true.

(** The counters of the wallet cover what was spent, which respects the limit. *)
Definition covered (k : kind) (u w : string) (lim : Z) (log : list charge) (m : gmap string counter) : Prop :=
  ∀ t, 0 ≤ t →
    total k u w (kd_period k t) log ≤ lim ∧
    match m !! kd_key k u w t with
    | Some c => total k u w (kd_period k t) log ≤ ct_value c ∧ outlives k c (kd_period k t)
    | None => total k u w (kd_period k t) log ≤ 0
    end.

(** What is used of the keys and times to live. *)
Record kind_ok (k : kind) (u w : string) : Prop := {
  same_period : ∀ t t', 0 ≤ t → 0 ≤ t' → kd_key k u w t = kd_key k u w t' ↔ kd_period k t = kd_period k t';
  fresh_outlives : ∀ t v s, 0 ≤ t → kd_ttl k = Some s →
    outlives k {| ct_value := v; ct_expiry := Some (t + s * 1000) |} (kd_period k t)
}.

Lemma total_cons k u w p c log :
  total k u w p (c :: log) =
  (if String.eqb (ch_user c) u && String.eqb (ch_wallet c) w && (kd_period k (ch_time c) =? p) then ch_amount c else 0)
  + total k u w p log.
Proof. unfold total. simpl. by destruct (_ && _ && _). Qed.

Lemma bump_outlives k u w m t a :
  kind_ok k u w → 0 ≤ t →
  match m !! kd_key k u w t with Some c => outlives k c (kd_period k t) | None => True end →
  outlives k (bump m (kd_key k u w t) a t (kd_ttl k)) (kd_period k t).
Proof.
  intros [_ Hf] Ht Hm. unfold bump, base.
  assert (He : ∀ e v, match e with None => True | Some x => outlives k {| ct_value := v; ct_expiry := e |} (kd_period k t) end →
    outlives k {| ct_value := v; ct_expiry := match kd_ttl k with
      | Some s => if lua_eq v a then Some (t + s * 1000) else e | None => e end |} (kd_period k t)).
  { intros e v Hold. destruct (kd_ttl k) as [s |] eqn:Httl; [destruct (lua_eq v a); [by apply Hf |] |];
      destruct e; try done; by intros ???. }
  destruct (m !! kd_key k u w t) as [c |]; [| by apply He].
  rewrite (Hm t) by done. apply He. destruct (ct_expiry c) eqn:E; [| done].
  intros t' Ht' Hp. specialize (Hm t' Ht' Hp). unfold live in *. simpl. by rewrite E in Hm.
Qed.

(** Charging within the limit keeps the counter covering. *)
Lemma covered_charge k u w lim log m t a :
  kind_ok k u w → 0 ≤ t → 0 < a → covered k u w lim log m →
  (base m (kd_key k u w t) t).1 + a ≤ lim →
  covered k u w lim ({| ch_user := u; ch_wallet := w; ch_time := t; ch_amount := a |} :: log)
    (<[kd_key k u w t := bump m (kd_key k u w t) a t (kd_ttl k)]> m).
Proof.
  intros Hk Ht Ha Hcov Hlim. destruct (Hcov t Ht) as [_ Hhere].
  assert (Hbase : total k u w (kd_period k t) log ≤ (base m (kd_key k u w t) t).1).
  { unfold base. destruct (m !! kd_key k u w t) as [c |]; [| done]. destruct Hhere as [Hv Ho]. by rewrite Ho. }
  intros t' Ht'. rewrite total_cons. simpl. rewrite !String.eqb_refl. simpl. destruct (Hcov t' Ht') as [Hl Hthere].
  destruct (decide (kd_key k u w t = kd_key k u w t')) as [Hkey | Hkey].
  - pose proof (proj1 (same_period _ _ _ Hk t t' Ht Ht') Hkey) as Hp. rewrite <-Hkey, lookup_insert_eq, <-Hp, Z.eqb_refl.
    split; [lia |]. split.
    + unfold bump. destruct (base m _ t) as [v e]. simpl in *. lia.
    + apply (bump_outlives k u w m t a Hk Ht). by destruct (m !! _) as [c |]; [destruct Hhere |].
  - rewrite lookup_insert_ne by done. destruct (Z.eqb_spec (kd_period k t) (kd_period k t')) as [Hp |]; [| done].
    by apply (same_period _ _ _ Hk) in Hp.
Qed.

(** Changes elsewhere do not matter. *)
Lemma covered_frame k u w lim log m m' c :
  covered k u w lim log m → (∀ t, 0 ≤ t → m' !! kd_key k u w t = m !! kd_key k u w t) →
  String.eqb (ch_user c) u && String.eqb (ch_wallet c) w = false → covered k u w lim (c :: log) m'.
Proof.
  intros Hcov Hm Hc t Ht. rewrite total_cons, Hc, Hm by done. simpl. by apply Hcov.
Qed.

(** ** The three kinds *)

Lemma per_day_ok u w : plain_id u → plain_id w → kind_ok per_day u w.
Proof.
  intros Hu Hw. split; simpl.
  - intros t t' Ht Ht'. destruct (spend_keys u w t u w t') as [H _]; [done .. |]. rewrite H. naive_solver.
  - intros t v s Ht [= <-] t' Ht' Hp. unfold live. simpl in *. apply Z.ltb_lt. unfold dailyTtl, Day, msPerDay in *. div_lia.
Qed.

Lemma per_week_ok u w : plain_id u → plain_id w → kind_ok per_week u w.
Proof.
  intros Hu Hw. split; simpl.
  - intros t t' Ht Ht'. destruct (spend_keys u w t u w t') as [_ H]; [done .. |]. rewrite H. naive_solver.
  - intros t v s Ht [= <-] t' Ht' Hp. unfold live. simpl in *. apply Z.ltb_lt.
    unfold weeklyTtl, week_index, Day, msPerDay in *. div_lia.
Qed.

Lemma ever_ok u w : kind_ok ever u w.
Proof. by split. Qed.
End counters.

(** ** Transactions one after the other *)

Section history.
Context `{SE : SpendEnv}.
(** PostgreSQL and Redis answer. *)
Hypothesis db_up : ∀ t, db_error t = None.
Hypothesis redis_up : ∀ t, redis_error t = None.
Implicit Types d : spdb.

(** How a transaction that was let through ends: confirmed while it is polled, which
    records it, or otherwise (failed, given up, or reconciled after a time-out of the
    gateway), which records nothing. *)
Inductive outcome := Polled | Unrecorded.

(** A request is checked, its job takes some time, and it ends; the next request
    comes after that.  Time passes in between. *)
Inductive spend_op := Transact (r : TransactionRequest) (ms : N) (o : outcome) | Wait (ms : N).

Definition later (ms : N) (d : spdb) : spdb := SpDb (sp_limits d) (sp_wallets d) (sp_redis d) (sp_now d + Z.of_N ms).

(** What a confirmed request charges. *)
Definition charge_of (now : Z) (r : TransactionRequest) : list charge :=
  match rq_userId r, rq_walletId r, rq_amountStroops r with
  | Some u, Some w, Some s =>
      if truthy (Some u) && truthy (Some w) && truthy (Some s) then
        match BigInt s with
        | Some a => if 0 <? a then [{| ch_user := u; ch_wallet := w; ch_time := now; ch_amount := a |}] else []
        | None => []
        end
      else []
  | _, _, _ => []
  end.

Definition spend_step (st : list charge * spdb) (o : spend_op) : list charge * spdb :=
  let '(log, d) := st in
  match o with
  | Transact r ms o =>
      match limit_guard r d, o with
      | (inr r', d'), Polled =>
          let d1 := later ms d' in (charge_of (sp_now d1) r' ++ log, (record_confirmed r' d1).2)
      | (_, d'), _ => (log, later ms d')
      end
  | Wait ms => (log, later ms d)
  end.
Definition spend_steps (st : list charge * spdb) (ops : list spend_op) : list charge * spdb := foldl spend_step st ops.

Lemma ask_db_run d : ask_db d = (inr (), d).
Proof. unfold ask_db. run_unfold. by rewrite db_up. Qed.
Lemma ask_redis_run d : ask_redis d = (inr (), d).
Proof. unfold ask_redis. run_unfold. by rewrite redis_up. Qed.

(** The check reads and does not write. *)
Lemma check_run u w del a d :
  checkSpendLimit u w del a d =
  (inr match find_config u w del (sp_limits d) with
       | None => allow
       | Some c =>
           if match limitPerTransaction c with Some l => l <? a | None => false end
           then refuse "Per-transaction limit exceeded" (default 0 (limitPerTransaction c)) None a
           else
             check_total "Daily limit exceeded" (limitDaily c) (default 0 (redis_get (getDailyKey u w (sp_now d)) d)) a
            (check_total "Weekly limit exceeded" (limitWeekly c) (default 0 (redis_get (getWeeklyKey u w (sp_now d)) d)) a
            (check_total "Lifetime limit exceeded" (limitLifetime c) (default 0 (redis_get (getLifetimeKey u w) d)) a allow))
       end, d).
Proof.
  unfold checkSpendLimit. erewrite bind_run by apply ask_db_run. erewrite bind_run by done.
  destruct (find_config u w del (sp_limits d)) as [c |]; [| done].
  destruct (match limitPerTransaction c with Some l => l <? a | None => false end); [done |].
  erewrite bind_run by apply ask_redis_run. done.
Qed.

(** An allowed amount fits under every cumulative limit. *)
Lemma check_allowed u w del a d c r :
  checkSpendLimit u w del a d = (inr r, d) → allowed r = true → find_config u w del (sp_limits d) = Some c →
  (∀ l, limitDaily c = Some l → default 0 (redis_get (getDailyKey u w (sp_now d)) d) + a ≤ l) ∧
  (∀ l, limitWeekly c = Some l → default 0 (redis_get (getWeeklyKey u w (sp_now d)) d) + a ≤ l) ∧
  (∀ l, limitLifetime c = Some l → default 0 (redis_get (getLifetimeKey u w) d) + a ≤ l).
Proof.
  rewrite check_run. intros [= <-] Ha Hc. rewrite Hc in Ha.
  destruct (match limitPerTransaction c with Some l => l <? a | None => false end); [done |].
  unfold check_total in Ha.
  destruct (limitDaily c) as [l1 |]; destruct (limitWeekly c) as [l2 |]; destruct (limitLifetime c) as [l3 |];
    repeat (match goal with H : context [if ?b then _ else _] |- _ => destruct b eqn:? end); try done;
    (split; [| split]); intros l [= <-]; lia.
Qed.

Lemma amount_pure req d : (request_amount req d).2 = d.
Proof.
  unfold request_amount. destruct (rq_amountStroops req) as [s |]; [| done]. destruct (String.eqb s ""); [done |].
  unfold BigInt_throw. by destruct (BigInt s).
Qed.

Lemma ids_run req d :
  ∃ ids, request_ids req d = (inr ids, d) ∧
    (truthy (rq_userId req) && truthy (rq_walletId req) = true → ids = (rq_userId req, rq_walletId req)).
Proof.
  unfold request_ids. destruct (truthy (rq_userId req) && truthy (rq_walletId req)); [by eexists |].
  unfold try_catch. erewrite bind_run by apply ask_db_run. erewrite bind_run by done. by eexists.
Qed.

Lemma charge_of_ids t req :
  truthy (rq_userId req) && truthy (rq_walletId req) = false → charge_of t req = [].
Proof.
  intros H. unfold charge_of. destruct (rq_userId req), (rq_walletId req), (rq_amountStroops req); try done.
  by rewrite H.
Qed.

Lemma limit_message x : includes ("Spending limit exceeded: " +:+ x) "Spending limit exceeded" = true.
Proof. reflexivity. Qed.

(** The guard writes nothing, and a request it lets through and that charges a
    wallet has passed the check for it. *)
Lemma guard_inv req d res d1 :
  limit_guard req d = (res, d1) →
  d1 = d ∧ ∀ r u w t a, res = inr r →
    charge_of t r = [{| ch_user := u; ch_wallet := w; ch_time := t; ch_amount := a |}] →
    0 < a ∧ request_ids req d = (inr (Some u, Some w), d) ∧
    ∃ chk, checkSpendLimit u w (rq_delegationId req) a d = (inr chk, d) ∧ allowed chk = true.
Proof.
  unfold limit_guard. intros H. apply bind_cases in H as [(e & Ha & ->) | (amt & d0 & Ha & H)].
  { pose proof (amount_pure req d). rewrite Ha in *. by split. }
  pose proof (amount_pure req d) as Hp. rewrite Ha in Hp. simpl in Hp. subst d0.
  destruct (ids_run req d) as (ids & Hids & Hown). erewrite bind_run in H by exact Hids.
  assert (Hun : (inr req, d) = (res, d1) → truthy ids.1 && truthy ids.2 = false → d1 = d ∧ ∀ r u w t a, res = inr r →
    charge_of t r = [{| ch_user := u; ch_wallet := w; ch_time := t; ch_amount := a |}] →
    0 < a ∧ request_ids req d = (inr (Some u, Some w), d) ∧
    ∃ chk, checkSpendLimit u w (rq_delegationId req) a d = (inr chk, d) ∧ allowed chk = true).
  { intros [= <- <-] Hf. split; [done |]. intros r u w t a [= <-] Hch. exfalso.
    destruct (truthy (rq_userId req) && truthy (rq_walletId req)) eqn:E.
    - rewrite Hown in Hf by done. simpl in Hf. congruence.
    - by rewrite charge_of_ids in Hch. }
  destruct ids as [[u0 |] [w0 |]]; [| apply Hun; [done | simpl; by rewrite ?andb_false_r] ..].
  destruct (truthy (Some u0) && truthy (Some w0)) eqn:Et; [| by apply Hun]. clear Hun Hown.
  set (del := rq_delegationId req) in *.
  assert (∃ chk, checkSpendLimit u0 w0 del amt d = (inr chk, d)) as [chk Hchk] by (rewrite check_run; by eexists).
  unfold try_catch in H. erewrite bind_run in H by exact Hchk. destruct (allowed chk) eqn:Hall; cbn [negb throw_if] in H.
  - erewrite bind_run in H by done. injection H as <- <-. split; [done |]. intros r u w t a [= <-] Hch. unfold charge_of in Hch. simpl in Hch, Et.
    rewrite Et in Hch. rewrite BigInt_dec in Hch.
    destruct (String.eqb (dec amt) ""); simpl in Hch; [done |].
    destruct (Z.ltb_spec 0 amt); [| done]. injection Hch as <- <- <-. eauto.
  - erewrite bind_run_err in H by done. cbn [exn_message Error] in H. rewrite limit_message in H. injection H as <- <-. split; [done |]. by intros ????? [=].
Qed.

(** Requests and wallets with plain identifiers. *)
Definition plain_opt (o : option string) : Prop := match o with Some s => plain_id s | None => True end.
Definition plain_op (o : spend_op) : Prop :=
  match o with Transact r _ _ => plain_opt (rq_userId r) ∧ plain_opt (rq_walletId r) | Wait _ => True end.
Definition plain_wallet (w : WalletRow) : Prop := plain_id (wr_userId w) ∧ plain_id (wr_id w).

Lemma ids_plain req d u w :
  plain_opt (rq_userId req) ∧ plain_opt (rq_walletId req) → Forall plain_wallet (sp_wallets d) → request_ids req d = (inr (Some u, Some w), d) →
  plain_id u ∧ plain_id w.
Proof.
  intros [Hu Hw] Hwal. unfold request_ids. destruct (_ && _).
  - intros [= E1 E2]. rewrite E1 in Hu. by rewrite E2 in Hw.
  - unfold try_catch. erewrite bind_run by apply ask_db_run. erewrite bind_run by done. simpl.
    destruct (List.find _ (sp_wallets d)) as [r |] eqn:Hf; simpl.
    + assert (plain_wallet r) as [Hru Hrw].
      { apply find_Some_lookup in Hf as [_ [i Hi]]. by eapply Forall_lookup. }
      intros [= E1 E2].
      destruct (truthy (rq_userId req)); [rewrite E1 in Hu | injection E1 as <-];
        (destruct (truthy (rq_walletId req)); [rewrite E2 in Hw | injection E2 as <-]); done.
    + intros [= E1 E2]. rewrite E1 in Hu. by rewrite E2 in Hw.
Qed.

Lemma record_run r d :
  match charge_of (sp_now d) r with
  | c :: _ => record_confirmed r d = (inr (), (recordSpend (ch_user c) (ch_wallet c) (ch_amount c) d).2)
  | [] => record_confirmed r d = (inr (), d)
  end.
Proof.
  unfold charge_of, record_confirmed. destruct (rq_userId r) as [u |], (rq_walletId r) as [w |],
    (rq_amountStroops r) as [s |]; try done.
  destruct (truthy (Some u) && truthy (Some w) && truthy (Some s)); [| done].
  unfold try_catch, BigInt_throw, some_or_throw. destruct (BigInt s) as [a |]; [| done].
  destruct (0 <? a) eqn:E; (erewrite bind_run by done); rewrite E; [| done].
  simpl. by destruct (recordSpend u w a d) as [[e | []] d'].
Qed.

(** Keys of different counters differ. *)
Lemma kinds_disjoint (x y : string) :
  "spend:daily:" +:+ x ≠ "spend:weekly:" +:+ y ∧ "spend:daily:" +:+ x ≠ "spend:lifetime:" +:+ y ∧
  "spend:weekly:" +:+ x ≠ "spend:lifetime:" +:+ y.
Proof. done. Qed.

Lemma lifetime_key_inj u w u' w' :
  plain_id u → plain_id u' → getLifetimeKey u w = getLifetimeKey u' w' → u = u' ∧ w = w'.
Proof.
  intros Hu Hu' H. unfold getLifetimeKey in H. simpl in H. repeat (apply string_cons in H).
  by apply split_at_sep in H.
Qed.

(** ** Recording *)

Lemma covered_insert k u w lim log m K c :
  (∀ t, 0 ≤ t → kd_key k u w t ≠ K) → covered k u w lim log m → covered k u w lim log (<[K := c]> m).
Proof.
  intros HK Hcov t Ht. rewrite lookup_insert_ne; [by apply Hcov |]. intros E. by apply (HK t).
Qed.

Lemma base_insert m k k' c now : k ≠ k' → base (<[k' := c]> m) k now = base m k now.
Proof. intros H. unfold base. by rewrite lookup_insert_ne. Qed.

Lemma bump_insert m k k' c a now ttl : k ≠ k' → bump (<[k' := c]> m) k a now ttl = bump m k a now ttl.
Proof. intros H. unfold bump. by rewrite base_insert. Qed.

(** The limits of one wallet respected, with positive charges. *)
Definition within (u w : string) (ld lw ll : Z) (log : list charge) (m : gmap string counter) : Prop :=
  covered per_day u w ld log m ∧ covered per_week u w lw log m ∧ covered ever u w ll log m ∧
  Forall (λ c, 0 < ch_amount c) log.

Lemma total_nonneg k u w p log : Forall (λ c, 0 < ch_amount c) log → 0 ≤ total k u w p log.
Proof.
  intros H. induction H as [| c log Hc _ IH]; [done |]. rewrite total_cons. destruct (_ && _ && _); lia.
Qed.

Lemma base_covered k u w lim log m t :
  0 ≤ t → Forall (λ c, 0 < ch_amount c) log → covered k u w lim log m → 0 ≤ (base m (kd_key k u w t) t).1.
Proof.
  intros Ht Hpos Hcov. destruct (Hcov t Ht) as [_ H]. unfold base.
  pose proof (total_nonneg k u w (kd_period k t) log Hpos).
  destruct (m !! kd_key k u w t) as [c |]; [| done]. destruct H as [Hv Ho]. rewrite Ho by done. simpl. lia.
Qed.

(** No period after the current one has a counter. *)
Definition unborn (k : kind) (u w : string) (now : Z) (m : gmap string counter) : Prop :=
  ∀ t, 0 ≤ t → kd_period k now < kd_period k t → m !! kd_key k u w t = None.

Lemma day_le t t' : t ≤ t' → Day t ≤ Day t'.
Proof. intros. unfold Day. apply Z.div_le_mono; [done | lia]. Qed.

Lemma week_le t t' : t ≤ t' → week_index t ≤ week_index t'.
Proof. intros H. apply day_le in H. unfold week_index. apply Z.div_le_mono; lia. Qed.

Lemma unborn_later k u w now now' m :
  kd_period k now ≤ kd_period k now' → unborn k u w now m → unborn k u w now' m.
Proof. intros H Hm t Ht Hp. apply Hm; [done | lia]. Qed.

(** An amount that fits when it is checked still fits when it is confirmed: within
    the period the counter is the same, and a later period has none yet. *)
Lemma fits_later k u w lim log m now now' a :
  kind_ok k u w → 0 ≤ now → 0 ≤ now' → kd_period k now ≤ kd_period k now' →
  Forall (λ c, 0 < ch_amount c) log → covered k u w lim log m → unborn k u w now m →
  (base m (kd_key k u w now) now).1 + a ≤ lim → (base m (kd_key k u w now') now').1 + a ≤ lim.
Proof.
  intros Hk H0 H0' Hle Hpos Hcov Hun Hfit. destruct (Z.eq_dec (kd_period k now) (kd_period k now')) as [E | E].
  - rewrite <-(proj2 (same_period _ _ _ Hk now now' H0 H0') E). destruct (Hcov now H0) as [_ Hm].
    unfold base in *. destruct (m !! kd_key k u w now) as [c |]; [| done].
    destruct Hm as [_ Ho]. by rewrite Ho in *.
  - pose proof (base_covered k u w lim log m now H0 Hpos Hcov). unfold base at 1. rewrite (Hun now') by lia. simpl. lia.
Qed.

Lemma int64_between z l : 0 ≤ z ≤ l → l < 2 ^ 63 → int64_ok z = true.
Proof. intros. unfold int64_ok. apply andb_true_iff. split; apply Z.leb_le; lia. Qed.

(** Recording a checked charge of the wallet succeeds and keeps the limits. *)
Lemma record_within u w ld lw ll log d a :
  plain_id u → plain_id w → ld < 2 ^ 63 → lw < 2 ^ 63 → ll < 2 ^ 63 → 0 ≤ sp_now d → 0 < a →
  within u w ld lw ll log (sp_redis d) →
  (base (sp_redis d) (getDailyKey u w (sp_now d)) (sp_now d)).1 + a ≤ ld →
  (base (sp_redis d) (getWeeklyKey u w (sp_now d)) (sp_now d)).1 + a ≤ lw →
  (base (sp_redis d) (getLifetimeKey u w) (sp_now d)).1 + a ≤ ll →
  within u w ld lw ll ({| ch_user := u; ch_wallet := w; ch_time := sp_now d; ch_amount := a |} :: log)
    (sp_redis (recordSpend u w a d).2).
Proof.
  intros Hu Hw Hld Hlw Hll Hnow Ha (Cd & Cw & Cl & Hpos) Bd Bw Bl.
  set (now := sp_now d) in *. set (m := sp_redis d) in *.
  pose proof (base_covered _ _ _ _ _ _ now Hnow Hpos Cd) as Pd. pose proof (base_covered _ _ _ _ _ _ now Hnow Hpos Cw) as Pw.
  pose proof (base_covered _ _ _ _ _ _ now Hnow Hpos Cl) as Pl. cbn [kd_key per_day per_week ever] in Pd, Pw, Pl.
  assert (Ndw : getWeeklyKey u w now ≠ getDailyKey u w now) by (intros E; symmetry in E; by apply kinds_disjoint in E).
  assert (Nld : getLifetimeKey u w ≠ getDailyKey u w now) by (intros E; symmetry in E; by apply kinds_disjoint in E).
  assert (Nlw : getLifetimeKey u w ≠ getWeeklyKey u w now) by (intros E; symmetry in E; by apply kinds_disjoint in E).
  assert (Ha64 : int64_ok a = true) by (apply (int64_between _ ld); lia).
  unfold recordSpend. erewrite bind_run by apply ask_redis_run. erewrite bind_run by done.
  fold now. erewrite bind_run by (apply count_run; [done |]; apply (int64_between _ ld); fold m now; lia).
  erewrite bind_run by (apply count_run; [done |]; cbn [sp_redis sp_now set_redis]; rewrite base_insert by done;
    apply (int64_between _ lw); fold m now; lia).
  rewrite count_run; [| done | cbn [sp_redis sp_now set_redis]; rewrite !base_insert by done;
    apply (int64_between _ ll); fold m now; lia].
  cbn [snd sp_redis sp_now set_redis]. fold m now.
  rewrite !bump_insert by done.
  split; [| split; [| split]].
  - apply covered_insert; [intros t _ E; by apply kinds_disjoint in E |].
    apply covered_insert; [intros t _ E; by apply kinds_disjoint in E |].
    by apply (covered_charge per_day u w ld log m now a (per_day_ok u w Hu Hw)).
  - apply covered_insert; [intros t _ E; by apply kinds_disjoint in E |]. rewrite insert_insert_ne by done.
    apply covered_insert; [intros t _ E; symmetry in E; by apply kinds_disjoint in E |].
    by apply (covered_charge per_week u w lw log m now a (per_week_ok u w Hu Hw)).
  - rewrite (insert_insert_ne _ (getLifetimeKey u w) (getWeeklyKey u w now)) by done.
    apply covered_insert; [intros t _ E; symmetry in E; by apply kinds_disjoint in E |].
    rewrite (insert_insert_ne _ (getLifetimeKey u w) (getDailyKey u w now)) by done.
    apply covered_insert; [intros t _ E; symmetry in E; by apply kinds_disjoint in E |].
    by apply (covered_charge ever u w ll log m now a (ever_ok u w)).
  - by constructor.
Qed.

(** Recording touches the three counters of the wallet and the moment only. *)
Lemma record_keys u w a d K :
  K ≠ getDailyKey u w (sp_now d) → K ≠ getWeeklyKey u w (sp_now d) → K ≠ getLifetimeKey u w →
  sp_redis (recordSpend u w a d).2 !! K = sp_redis d !! K.
Proof.
  intros Kd Kw Kl. unfold recordSpend. erewrite bind_run by apply ask_redis_run. erewrite bind_run by done.
  pose proof (count_frame (getDailyKey u w (sp_now d)) a (Some dailyTtl) d) as [F1 _].
  unfold mbind at 1, M_bind at 1. destruct (count (getDailyKey _ _ _) a _ d) as [[e | []] d1]; simpl in *; [by apply F1 |].
  pose proof (count_frame (getWeeklyKey u w (sp_now d)) a (Some weeklyTtl) d1) as [F2 _].
  unfold mbind at 1, M_bind at 1. destruct (count (getWeeklyKey _ _ _) a _ d1) as [[e | []] d2]; simpl in *.
  - by rewrite F2, F1.
  - destruct (count_frame (getLifetimeKey u w) a None d2) as [F3 _]. by rewrite F3, F2, F1.
Qed.

(** Recording for another wallet leaves the counters of this one alone. *)
Lemma record_frame u w u' w' a d :
  plain_id u → plain_id w → plain_id u' → plain_id w' → ¬ (u' = u ∧ w' = w) → 0 ≤ sp_now d →
  let d' := (recordSpend u' w' a d).2 in
  (∀ t, 0 ≤ t → sp_redis d' !! getDailyKey u w t = sp_redis d !! getDailyKey u w t ∧
                sp_redis d' !! getWeeklyKey u w t = sp_redis d !! getWeeklyKey u w t ∧
                sp_redis d' !! getLifetimeKey u w = sp_redis d !! getLifetimeKey u w).
Proof.
  intros Hu Hw Hu' Hw' Hne Hnow d' t Ht.
  destruct (spend_keys u w t u' w' (sp_now d)) as [Dd Dw]; [done .. |].
  split; [| split]; apply record_keys; first [intros E; by apply kinds_disjoint in E
    | intros E; symmetry in E; by apply kinds_disjoint in E | idtac].
  - rewrite Dd. naive_solver.
  - rewrite Dw. naive_solver.
  - intros E. apply lifetime_key_inj in E; [naive_solver | done ..].
Qed.

(** Recording leaves the clock and the tables alone. *)
Definition same_rest : relation spdb := λ d d',
  sp_now d' = sp_now d ∧ sp_limits d' = sp_limits d ∧ sp_wallets d' = sp_wallets d.

#[local] Instance same_rest_preorder : PreOrder same_rest.
Proof. split; [by intros d |]. intros d1 d2 d3 (A1 & B1 & C1) (A2 & B2 & C2). unfold same_rest. by rewrite A2, B2, C2. Qed.

Lemma record_same u w a : evolves same_rest (recordSpend u w a).
Proof.
  assert (∀ k ttl, evolves same_rest (count k a ttl)) by (intros k ttl d; apply count_frame).
  unfold recordSpend, ask_redis. evolve.
Qed.

(** ** Histories *)

(** Every configuration that can apply to the wallet sets the three limits, within
    the given bounds. *)
Definition limited (u w : string) (ld lw ll : Z) (rows : list SpendLimit) : Prop :=
  ∀ del, ∃ c a b e, find_config u w del rows = Some c ∧
    limitDaily c = Some a ∧ a ≤ ld ∧ limitWeekly c = Some b ∧ b ≤ lw ∧ limitLifetime c = Some e ∧ e ≤ ll.

(** No counter of the wallet is ahead of the clock. *)
Definition none_ahead (u w : string) (d : spdb) : Prop :=
  unborn per_day u w (sp_now d) (sp_redis d) ∧ unborn per_week u w (sp_now d) (sp_redis d).

Definition history_ok (u w : string) (ld lw ll : Z) (st : list charge * spdb) : Prop :=
  within u w ld lw ll st.1 (sp_redis st.2) ∧ none_ahead u w st.2 ∧ 0 ≤ sp_now st.2 ∧
  limited u w ld lw ll (sp_limits st.2) ∧ Forall plain_wallet (sp_wallets st.2).

Lemma charge_shape t r : charge_of t r = [] ∨ ∃ u w a, charge_of t r = [{| ch_user := u; ch_wallet := w; ch_time := t; ch_amount := a |}].
Proof. unfold charge_of. repeat case_match; eauto 6. Qed.

Lemma later_ok u w ld lw ll log d ms :
  history_ok u w ld lw ll (log, d) → history_ok u w ld lw ll (log, later ms d).
Proof.
  intros (Hin & [Hd Hw] & Hnow & H). split; [done |]. split; [| split; [simpl in *; lia | done]].
  split; (eapply unborn_later; [| done]); [apply day_le | apply week_le]; simpl; lia.
Qed.

Lemma record_ahead u w u' w' a d :
  plain_id u → plain_id w → plain_id u' → plain_id w' → 0 ≤ sp_now d →
  none_ahead u w d → none_ahead u w (recordSpend u' w' a d).2.
Proof.
  intros Hu Hw Hu' Hw' Hnow [Hd Hwk]. destruct (record_same u' w' a d) as (En & _).
  split; intros t Ht Hp; rewrite En in Hp;
    (destruct (spend_keys u w t u' w' (sp_now d)) as [Kd Kw]; [done .. |]);
    (rewrite record_keys; [by auto | intros E ..]);
    first [by apply kinds_disjoint in E | symmetry in E; by apply kinds_disjoint in E
          | apply Kd in E | apply Kw in E]; simpl in Hp; lia.
Qed.

(** A charge that was let through [ms] before and is recorded now. *)
Lemma charge_ok u w ld lw ll log d ms r u1 w1 a chk :
  plain_id u → plain_id w → ld < 2 ^ 63 → lw < 2 ^ 63 → ll < 2 ^ 63 → plain_id u1 → plain_id w1 →
  history_ok u w ld lw ll (log, d) → 0 < a →
  checkSpendLimit u1 w1 (rq_delegationId r) a d = (inr chk, d) → allowed chk = true →
  let d1 := later ms d in
  history_ok u w ld lw ll ({| ch_user := u1; ch_wallet := w1; ch_time := sp_now d1; ch_amount := a |} :: log,
    (recordSpend u1 w1 a d1).2).
Proof.
  intros Hu Hw Hld Hlw Hll Hu1 Hw1 Hst Ha Hchk Hall d1. pose proof (later_ok _ _ _ _ _ _ _ ms Hst) as Hst1.
  destruct Hst as (Hin & [Hub Hubw] & Hnow & Hlim & Hwal), Hst1 as (_ & Hah & Hnow1 & _ & _). fold d1 in Hah, Hnow1. simpl in *.
  destruct (record_same u1 w1 a d1) as (En & El & Ew). unfold history_ok. simpl. rewrite En, El, Ew.
  split; [| by split; [apply record_ahead |]]. destruct Hin as (Cd & Cw & Cl & Hpos).
  destruct (decide (u1 = u ∧ w1 = w)) as [[-> ->] | Hne].
  - destruct (Hlim (rq_delegationId r)) as (c & a1 & a2 & a3 & Hf & H1 & L1 & H2 & L2 & H3 & L3).
    destruct (check_allowed _ _ _ _ _ _ _ Hchk Hall Hf) as (K1 & K2 & K3).
    specialize (K1 _ H1). specialize (K2 _ H2). specialize (K3 _ H3). rewrite <-!base_get in *.
    assert (sp_now d ≤ sp_now d1) by (simpl; lia).
    apply (record_within u w ld lw ll log d1 a); try done.
    + apply (fits_later per_day u w ld log (sp_redis d) (sp_now d)); auto using per_day_ok, day_le; simpl; lia.
    + apply (fits_later per_week u w lw log (sp_redis d) (sp_now d)); auto using per_week_ok, week_le; simpl; lia.
    + apply (fits_later ever u w ll log (sp_redis d) (sp_now d)); auto using ever_ok; simpl; [lia | | lia].
      intros t _ Hp. simpl in Hp. lia.
  - pose proof (record_frame u w u1 w1 a d1 Hu Hw Hu1 Hw1 Hne Hnow1) as Hfr. simpl in Hfr.
    assert (Hnot : String.eqb u1 u && String.eqb w1 w = false).
    { apply andb_false_iff. destruct (String.eqb_spec u1 u), (String.eqb_spec w1 w); naive_solver. }
    split; [| split; [| split]]; [eapply covered_frame; [done | | done]; intros t Ht; by apply (Hfr t Ht) .. | by constructor].
Qed.

Lemma transact_ok u w ld lw ll log d r ms o :
  plain_id u → plain_id w → ld < 2 ^ 63 → lw < 2 ^ 63 → ll < 2 ^ 63 → plain_op (Transact r ms o) →
  history_ok u w ld lw ll (log, d) → history_ok u w ld lw ll (spend_step (log, d) (Transact r ms o)).
Proof.
  intros Hu Hw Hld Hlw Hll Hop Hst. unfold spend_step. destruct (limit_guard r d) as [res d'] eqn:Hg.
  destruct (guard_inv r d res d' Hg) as [-> Hgi]. destruct res as [e | r']; [by apply later_ok |].
  destruct o; [| by apply later_ok]. pose proof (record_run r' (later ms d)) as Hrec.
  destruct (charge_shape (sp_now (later ms d)) r') as [Hc | (u1 & w1 & a & Hc)]; rewrite Hc in Hrec |- *; rewrite Hrec;
    [by apply later_ok |].
  destruct (Hgi r' u1 w1 _ a eq_refl Hc) as (Ha & Hids & chk & Hchk & Hall).
  destruct (ids_plain r d u1 w1 Hop (proj2 (proj2 (proj2 (proj2 Hst)))) Hids) as [Hu1 Hw1].
  by eapply charge_ok.
Qed.

(** C11. The spending limits hold of what is recorded: as long as PostgreSQL and
    Redis answer, and a wallet's transactions follow one another, the confirmed
    spends that the queue recorded for a wallet with configured limits never exceed
    them on any calendar day, in any ISO week and in total, whatever the other
    wallets do and however long a transaction takes from its check to its
    confirmation, over the end of a day or a week too.  A transaction reconciled
    after a time-out of the gateway is not recorded by the code and not counted. *)
Theorem limits_respected u w ld lw ll ops rows wallets start t :
  plain_id u → plain_id w → Forall plain_op ops → Forall plain_wallet wallets →
  limited u w ld lw ll rows → 0 ≤ ld < 2 ^ 63 → 0 ≤ lw < 2 ^ 63 → 0 ≤ ll < 2 ^ 63 → 0 ≤ start → 0 ≤ t →
  let log := (spend_steps ([], SpDb rows wallets ∅ start) ops).1 in
  total per_day u w (Day t) log ≤ ld ∧ total per_week u w (week_index t) log ≤ lw ∧ total ever u w 0 log ≤ ll.
Proof.
  intros Hu Hw Hops Hwal Hlim Hld Hlw Hll Hstart Ht log.
  assert (history_ok u w ld lw ll (spend_steps ([], SpDb rows wallets ∅ start) ops)) as ((Cd & Cw & Cl & _) & _).
  { unfold spend_steps. assert (Hinit : history_ok u w ld lw ll ([], SpDb rows wallets ∅ start)).
    { split; [| split; [by split | done]]. split; [| split; [| split; [| done]]]; intros t' Ht'; cbn; rewrite lookup_empty; cbn; lia. }
    revert Hinit. generalize ([] : list charge, SpDb rows wallets ∅ start).
    induction Hops as [| o ops Ho _ IH]; intros [l d] Hst; [done |]. simpl. apply IH.
    destruct o as [r ms o | ms]; [by apply transact_ok; try lia | by apply later_ok]. }
  split; [by apply Cd | split; [by apply Cw | by apply (Cl t)]].
Qed.
End history.

(** ** Concrete spending histories

    Witnesses of the theorems, and two runs in which a limit is
    exceeded: transactions checked before either is confirmed, and an outage. *)

Definition env_up : SpendEnv := {| db_error := λ _, None; redis_error := λ _, None |}.
Definition env_redis_down : SpendEnv :=
  {| db_error := λ _, None; redis_error := λ _, Some (Exn "MaxRetriesPerRequestError" "Reached the max retries per request limit") |}.

Definition demo_limits : list SpendLimit :=
  [{| sl_userId := "u1"; sl_walletId := Some "w1"; sl_delegationId := None; limitPerTransaction := Some 80;
      limitDaily := Some 100; limitWeekly := Some 150; limitLifetime := Some 1000 |};
   {| sl_userId := "u1"; sl_walletId := None; sl_delegationId := None; limitPerTransaction := None;
      limitDaily := Some 100; limitWeekly := Some 150; limitLifetime := Some 1000 |}].

(** Saturday, 2 January 2021, 23:00 UTC: the last week of 2020. *)
Definition saturday : Z := 1609628400000.
Definition demo_db : spdb := SpDb demo_limits [] ∅ saturday.
Definition pay (a : string) : TransactionRequest :=
  {| rq_sourceAddress := "G1"; rq_userId := Some "u1"; rq_walletId := Some "w1"; rq_delegationId := None;
     rq_amountStroops := Some a |}.

Lemma plain_ids s : forallb (λ c, negb (Ascii.eqb c ":")) (chars s) = true → plain_id s.
Proof.
  intros H Hin. apply list_elem_of_In in Hin. apply (proj1 (forallb_forall _ _) H) in Hin. done.
Qed.

Lemma spend_keys_exact_witness :
  getWeeklyKey "u1" "w1" saturday = getWeeklyKey "u1" "w1" (saturday + msPerDay) ∧
  getWeeklyKey "u1" "w1" saturday ≠ getWeeklyKey "u1" "w1" (saturday + 2 * msPerDay).
Proof.
  split; [apply (spend_keys_exact "u1" "w1" saturday "u1" "w1" (saturday + msPerDay)); try (by apply plain_ids); done |].
  intros H. apply (spend_keys_exact "u1" "w1" saturday "u1" "w1" (saturday + 2 * msPerDay)) in H;
    try (by apply plain_ids); try done. destruct H as (_ & _ & H). by vm_compute in H.
Defined.

(** Every delegation of the wallet has the same limits. *)
Lemma demo_limited : limited "u1" "w1" 100 150 1000 demo_limits.
Proof.
  intros del. unfold find_config, demo_limits, or_null.
  destruct (truthy del) eqn:Ht; simpl; [destruct del as [s |]; [| done] |];
    repeat (first [rewrite bool_decide_eq_false_2 by done | rewrite bool_decide_eq_true_2 by done]; simpl);
    exists (hd (Build_SpendLimit EmptyString None None None None None None) demo_limits), 100, 150, 1000; done.
Qed.

Definition demo_ops : list spend_op := [Transact (pay "70") 1000 Polled; Transact (pay "70") 0 Polled; Wait 3000000; Transact (pay "30") 7200000 Polled;
   Transact (pay "60") 5000 Unrecorded; Transact (pay "50") 5000 Polled; Transact (pay "11") 0 Polled].

Lemma limits_respected_witness :
  let log := (spend_steps (SE := env_up) ([], demo_db) demo_ops).1 in
  ch_amount <$> log = [50; 30; 70] ∧ total per_day "u1" "w1" (Day saturday) log ≤ 100 ∧
  total per_week "u1" "w1" (week_index saturday) log ≤ 150 ∧ total ever "u1" "w1" 0 log ≤ 1000.
Proof.
  split; [by vm_compute |].
  refine (limits_respected (SE := env_up) _ _ "u1" "w1" 100 150 1000 demo_ops demo_limits [] saturday saturday
            _ _ _ _ demo_limited _ _ _ _ _); try done; try (by apply plain_ids).
  repeat constructor; by apply plain_ids.
Defined.

(** The check and the recording of a transaction are separated by its submission:
    two transactions that are both checked before either is confirmed exceed the
    daily limit together. *)
Theorem concurrent_spends_exceed :
  let guard r := limit_guard (SE := env_up) r in
  let both := (a ← guard (pay "70"); b ← guard (pay "70");
               record_confirmed (SE := env_up) a;; record_confirmed (SE := env_up) b) in
  (both demo_db).1 = inr () ∧
  redis_get (getDailyKey "u1" "w1" saturday) (both demo_db).2 = Some 140.
Proof. vm_compute. done. Qed.

(** When Redis does not answer, the guard lets a transaction of any amount up to the
    per-transaction limit through, as if the wallet had no other limit. *)
Theorem outage_disables_limits :
  let spent := (record_confirmed (SE := env_up) (pay "80") demo_db).2 in
  (limit_guard (SE := env_up) (pay "80") spent).1 = inl (Error "Spending limit exceeded: Daily limit exceeded") ∧
  (limit_guard (SE := env_redis_down) (pay "80") spent).1 = inr (pay "80").
Proof. vm_compute. done. Qed.
