(* ===== verification/Purchase.v ===== *)
(** * The purchase workflow (apps/backend/orchestrator/state/, src/events/eventStore.ts)

    The state machine of machine.ts with its snapshots (types.ts,
    snapshot-validator.ts) and the in-memory event store that records every
    transition and from which a machine can be replayed.  The snapshot of the machine
    at hand is part of the state, since a transition hook that throws leaves it
    changed.  Snapshots handed to [fromSnapshot] are JavaScript values. *)
From S2P Require Import Prelude JsLib Calendar.
Local Open Scope Z_scope.

(** ** JavaScript values and [JSON.stringify] *)

(** A [Float] carries the text [JSON.stringify] prints for it. *)
Inductive value :=
| Undefined | Null | Bool (b : bool) | Num (z : Z) | Float (text : string) | Big (z : Z) | Str (s : string)
| DateV (t : Z) | Arr (l : list value) | Obj (fields : list (string * value)).

Definition hex_digit (n : N) : ascii := Ascii.ascii_of_N (if (n <? 10)%N then 48 + n else 87 + n)%N.

Definition escape_char (c : ascii) : string :=
  let n := Ascii.N_of_ascii c in
  let esc x := String (Ascii.ascii_of_nat 92) (String x EmptyString) in
  if (n =? 34)%N || (n =? 92)%N then esc c
  else if (n =? 8)%N then esc "b"%char else if (n =? 9)%N then esc "t"%char else if (n =? 10)%N then esc "n"%char
  else if (n =? 12)%N then esc "f"%char else if (n =? 13)%N then esc "r"%char
  else if (n <? 32)%N then String (Ascii.ascii_of_nat 92) ("u00" +:+ String (hex_digit (n / 16)) (String (hex_digit (n mod 16)) EmptyString))
  else String c EmptyString.

Definition json_string (s : string) : string := quoted (foldr (λ c acc, escape_char c +:+ acc) "" (chars s)).

Definition BigIntTypeError : exn := Exn "TypeError" "Do not know how to serialize a BigInt".

(** [JSON.stringify(v)]: it throws on a [bigint], and is [undefined] for [undefined]. *)
Fixpoint stringify (v : value) : exn + option string :=
  match v with
  | Undefined => inr None
  | Null => inr (Some "null")
  | Bool b => inr (Some (if b then "true" else "false"))
  | Num z => inr (Some (dec z))
  | Float t => inr (Some t)
  | Big _ => inl BigIntTypeError
  | Str s => inr (Some (json_string s))
  | DateV t => inr (Some (json_string (toISOString t)))
  | Arr l =>
      let fix go (l : list value) : exn + list string :=
        match l with
        | [] => inr []
        | x :: l' =>
            match stringify x with
            | inl e => inl e
            | inr o => match go l' with inl e => inl e | inr r => inr (default "null" o :: r) end
            end
        end in
      match go l with inl e => inl e | inr parts => inr (Some ("[" +:+ join "," parts +:+ "]")) end
  | Obj fields =>
      let fix go (l : list (string * value)) : exn + list string :=
        match l with
        | [] => inr []
        | (k, x) :: l' =>
            match stringify x with
            | inl e => inl e
            | inr o =>
                match go l' with
                | inl e => inl e
                | inr r => inr (match o with Some t => (json_string k +:+ ":" +:+ t) :: r | None => r end)
                end
            end
        end in
      match go fields with inl e => inl e | inr parts => inr (Some ("{" +:+ join "," parts +:+ "}")) end
  end.

Example stringify_nested :
  stringify (Obj [("a", Arr [Num 1; Undefined; Str "x"]); ("b", Undefined); ("c", DateV 0)]) =
  inr (Some ("{" +:+ quoted "a" +:+ ":[1,null," +:+ quoted "x" +:+ "]," +:+ quoted "c" +:+ ":" +:+
             quoted "1970-01-01T00:00:00.000Z" +:+ "}")).
Proof. reflexivity. Qed.

(** [v[name]] of a value whose own properties are its fields *)
Definition prop (v : value) (name : string) : value :=
  match v with Obj fields => default Undefined (jget name fields) | _ => Undefined end.

(** ** types.ts *)

Inductive PurchaseState :=
| Discovery | SpendingCheck | UserApprovalPending | EscrowLocking | MerchantFulfillment | DeliveryVerification
| Completed | Refunded.

#[export] Instance PurchaseState_eq_dec : EqDecision PurchaseState.
Proof. solve_decision. Defined.

Definition state_name (s : PurchaseState) : string :=
  match s with
  | Discovery => "Discovery" | SpendingCheck => "SpendingCheck" | UserApprovalPending => "UserApprovalPending"
  | EscrowLocking => "EscrowLocking" | MerchantFulfillment => "MerchantFulfillment"
  | DeliveryVerification => "DeliveryVerification" | Completed => "Completed" | Refunded => "Refunded"
  end.

Inductive PurchaseEvent :=
| PRODUCT_FOUND (productId merchantId : string) (totalStroops : Z)
| SPEND_APPROVED
| SPEND_DENIED (reason : string)
| USER_APPROVED
| USER_REJECTED
| ESCROW_LOCKED (escrowContractId : string)
| ESCROW_FAILED (reason : string)
| FULFILLMENT_CONFIRMED
| DELIVERY_VERIFIED
| REFUND_INITIATED (reason : string).

Definition event_type (e : PurchaseEvent) : string :=
  match e with
  | PRODUCT_FOUND _ _ _ => "PRODUCT_FOUND" | SPEND_APPROVED => "SPEND_APPROVED" | SPEND_DENIED _ => "SPEND_DENIED"
  | USER_APPROVED => "USER_APPROVED" | USER_REJECTED => "USER_REJECTED" | ESCROW_LOCKED _ => "ESCROW_LOCKED"
  | ESCROW_FAILED _ => "ESCROW_FAILED" | FULFILLMENT_CONFIRMED => "FULFILLMENT_CONFIRMED"
  | DELIVERY_VERIFIED => "DELIVERY_VERIFIED" | REFUND_INITIATED _ => "REFUND_INITIATED"
  end.

Record PurchaseContext := {
  pc_workflowId : string; pc_delegationId : string; pc_userId : string; pc_productId : option string;
  pc_merchantId : option string; pc_totalStroops : option Z; pc_escrowContractId : option string;
  pc_rejectionReason : option string; pc_createdAt : Z; pc_updatedAt : Z
}.

Record StateTransitionRecord := {
  tr_workflowId : string; tr_fromState : option PurchaseState; tr_toState : PurchaseState; tr_event : string;
  tr_context : PurchaseContext; tr_timestamp : Z
}.

Record WorkflowSnapshot := {
  ws_workflowId : string; ws_currentState : PurchaseState; ws_context : PurchaseContext;
  ws_history : list StateTransitionRecord; ws_version : Z; ws_timeoutAt : option Z
}.

(** ** machine.ts: the transition table *)

Definition TRANSITIONS (s : PurchaseState) (e : PurchaseEvent) : option PurchaseState :=
  match s, e with
  | Discovery, PRODUCT_FOUND _ _ _ => Some SpendingCheck
  | SpendingCheck, SPEND_APPROVED => Some UserApprovalPending
  | SpendingCheck, SPEND_DENIED _ => Some Refunded
  | UserApprovalPending, USER_APPROVED => Some EscrowLocking
  | UserApprovalPending, USER_REJECTED => Some Refunded
  | EscrowLocking, ESCROW_LOCKED _ => Some MerchantFulfillment
  | EscrowLocking, ESCROW_FAILED _ => Some Refunded
  | MerchantFulfillment, FULFILLMENT_CONFIRMED => Some DeliveryVerification
  | MerchantFulfillment, REFUND_INITIATED _ => Some Refunded
  | DeliveryVerification, DELIVERY_VERIFIED => Some Completed
  | DeliveryVerification, REFUND_INITIATED _ => Some Refunded
  | _, _ => None
  end.

Definition TERMINAL_STATES (s : PurchaseState) : bool :=
  match s with Completed | Refunded => true | _ => false end.

Definition ctx_with (product merchant : option string) (total : option Z) (escrow rejection : option string)
    (now : Z) (c : PurchaseContext) : PurchaseContext := {|
  pc_workflowId := pc_workflowId c; pc_delegationId := pc_delegationId c; pc_userId := pc_userId c;
  pc_productId := product; pc_merchantId := merchant; pc_totalStroops := total; pc_escrowContractId := escrow;
  pc_rejectionReason := rejection; pc_createdAt := pc_createdAt c; pc_updatedAt := now |}.

Definition applyContextUpdate (now : Z) (c : PurchaseContext) (e : PurchaseEvent) : PurchaseContext :=
  let reject r := ctx_with (pc_productId c) (pc_merchantId c) (pc_totalStroops c) (pc_escrowContractId c) (Some r) now c in
  match e with
  | PRODUCT_FOUND p m t => ctx_with (Some p) (Some m) (Some t) (pc_escrowContractId c) (pc_rejectionReason c) now c
  | SPEND_DENIED r => reject r
  | USER_REJECTED => reject "user_rejected"
  | ESCROW_LOCKED x => ctx_with (pc_productId c) (pc_merchantId c) (pc_totalStroops c) (Some x) (pc_rejectionReason c) now c
  | ESCROW_FAILED r => reject r
  | REFUND_INITIATED r => reject r
  | _ => ctx_with (pc_productId c) (pc_merchantId c) (pc_totalStroops c) (pc_escrowContractId c) (pc_rejectionReason c) now c
  end.

(** ** snapshot-validator.ts *)

Definition SNAPSHOT_VERSION : Z := 1.

Definition VALID_STATES : list string :=
  ["Discovery"; "SpendingCheck"; "UserApprovalPending"; "EscrowLocking"; "MerchantFulfillment"; "DeliveryVerification";
   "Completed"; "Refunded"].

(** A value that is a string and not the empty one. *)
Definition nonempty_string (v : value) : bool := match v with Str s => negb (String.eqb s "") | _ => false end.
(** [typeof v === "object" && v !== null] *)
Definition is_object (v : value) : bool := match v with DateV _ | Arr _ | Obj _ => true | _ => false end.

(** [${JSON.stringify(v)}] *)
Definition show (v : value) : exn + string :=
  match stringify v with inl e => inl e | inr o => inr (default "undefined" o) end.

Record SnapshotValidationResult := { valid : bool; errors : list string }.

Definition context_errors (ctx : value) : list string :=
  if negb (is_object ctx) then ["missing or invalid field: context"]
  else omap (λ field, if nonempty_string (prop ctx field) then None
                      else Some ("missing or invalid context field: " +:+ field))
         ["workflowId"; "delegationId"; "userId"].

Definition validateSnapshot (v : value) : exn + SnapshotValidationResult :=
  if negb (is_object v) then inr {| valid := false; errors := ["snapshot must be a non-null object"] |}
  else
    let e1 := if nonempty_string (prop v "workflowId") then [] else ["missing or invalid field: workflowId"] in
    let state_ok := match prop v "currentState" with Str s => bool_decide (s ∈ VALID_STATES) | _ => false end in
    match (if state_ok then inr [] else
             match show (prop v "currentState") with
             | inl e => inl e
             | inr t => inr ["missing or invalid field: currentState (got " +:+ t +:+ ")"]
             end) with
    | inl e => inl e
    | inr e2 =>
        let e3 := context_errors (prop v "context") in
        let e4 := match prop v "history" with Arr _ => [] | _ => ["missing or invalid field: history"] end in
        let version_ok := match prop v "version" with Num z => z =? SNAPSHOT_VERSION | _ => false end in
        match (if version_ok then inr [] else
                 match show (prop v "version") with
                 | inl e => inl e
                 | inr t => inr ["unsupported snapshot version: expected 1, got " +:+ t]
                 end) with
        | inl e => inl e
        | inr e5 =>
            let all := e1 ++ e2 ++ e3 ++ e4 ++ e5 in
            inr {| valid := bool_decide (all = []); errors := all |}
        end
    end.

Definition assertValidSnapshot {S} (v : value) : M S () :=
  result ← answer (validateSnapshot v);
  throw_if (negb (valid result))
    (Error ("Invalid workflow snapshot — quarantined: " +:+ join "; " (errors result))).

(** The object a snapshot is. *)
Definition opt_value {A} (f : A → value) (o : option A) : value := from_option f Null o.
Definition context_value (c : PurchaseContext) : value :=
  Obj [("workflowId", Str (pc_workflowId c)); ("delegationId", Str (pc_delegationId c)); ("userId", Str (pc_userId c));
       ("productId", opt_value Str (pc_productId c)); ("merchantId", opt_value Str (pc_merchantId c));
       ("totalStroops", opt_value Big (pc_totalStroops c)); ("escrowContractId", opt_value Str (pc_escrowContractId c));
       ("rejectionReason", opt_value Str (pc_rejectionReason c)); ("createdAt", DateV (pc_createdAt c));
       ("updatedAt", DateV (pc_updatedAt c))].
Definition record_value (r : StateTransitionRecord) : value :=
  Obj [("workflowId", Str (tr_workflowId r)); ("fromState", opt_value (Str ∘ state_name) (tr_fromState r));
       ("toState", Str (state_name (tr_toState r))); ("event", Str (tr_event r));
       ("context", context_value (tr_context r)); ("timestamp", DateV (tr_timestamp r))].
Definition snapshot_value (s : WorkflowSnapshot) : value :=
  Obj ([("workflowId", Str (ws_workflowId s)); ("currentState", Str (state_name (ws_currentState s)));
        ("context", context_value (ws_context s)); ("history", Arr (record_value <$> ws_history s));
        ("version", Num (ws_version s))] ++
       match ws_timeoutAt s with Some t => [("timeoutAt", DateV t)] | None => [] end).

(** ** eventStore.ts: the in-memory store *)

Record WorkflowEventRecord := {
  er_id : string; er_workflowId : string; er_eventType : string; er_payload : PurchaseEvent;
  er_fromState : option PurchaseState; er_toState : PurchaseState; er_metadata : list (string * Z); er_recordedAt : Z
}.

Record EventStoreStats := {
  totalEvents : Z; workflowsTracked : Z; oldestEvent : option Z; newestEvent : option Z
}.

(** The snapshot of the machine at hand, the global event store with its id counter,
    the clock, and the transitions handed to the hook. *)
Record wworld := WWorld {
  ww_snapshot : WorkflowSnapshot; ww_events : list WorkflowEventRecord; ww_ids : Z; ww_now : Z;
  ww_hooked : list StateTransitionRecord
}.

Definition set_snapshot (s : WorkflowSnapshot) (w : wworld) : wworld :=
  WWorld s (ww_events w) (ww_ids w) (ww_now w) (ww_hooked w).

(** Stable sort by time: a record goes behind the ones that are not later. *)
Fixpoint insert_by_time (e : WorkflowEventRecord) (l : list WorkflowEventRecord) : list WorkflowEventRecord :=
  match l with
  | [] => [e]
  | x :: l' => if er_recordedAt x <=? er_recordedAt e then x :: insert_by_time e l' else e :: x :: l'
  end.
Definition sort_by_time (l : list WorkflowEventRecord) : list WorkflowEventRecord := foldl (flip insert_by_time) [] l.

Definition getEvents (workflowId : string) : M wworld (list WorkflowEventRecord) :=
  gets (λ w, sort_by_time (List.filter (λ e, String.eqb (er_workflowId e) workflowId) (ww_events w))).

Definition stats : M wworld EventStoreStats :=
  gets (λ w, {| totalEvents := Z.of_nat (length (ww_events w));
                workflowsTracked := Z.of_nat (length (remove_dups (er_workflowId <$> ww_events w)));
                oldestEvent := er_recordedAt <$> head (ww_events w);
                newestEvent := er_recordedAt <$> last (ww_events w) |}).

Definition cleanup (cutoff : Z) : M wworld Z :=
  before ← gets (λ w, length (ww_events w));
  modify (λ w, WWorld (ww_snapshot w) (List.filter (λ e, cutoff <=? er_recordedAt e) (ww_events w)) (ww_ids w)
                 (ww_now w) (ww_hooked w));;
  after ← gets (λ w, length (ww_events w));
  mret (Z.of_nat before - Z.of_nat after).

Definition cleanupOldEvents (retentionDays : Z) : M wworld Z :=
  now ← gets ww_now;
  cleanup (now - retentionDays * 24 * 60 * 60 * 1000 + 1).

Definition createWorkflowEventRecord (workflowId : string) (e : PurchaseEvent) (from : option PurchaseState)
    (to : PurchaseState) (metadata : list (string * Z)) : M wworld WorkflowEventRecord :=
  modify (λ w, WWorld (ww_snapshot w) (ww_events w) (ww_ids w + 1) (ww_now w) (ww_hooked w));;
  w ← gets id;
  mret {| er_id := "evt_" +:+ dec (ww_now w) +:+ "_" +:+ dec (ww_ids w); er_workflowId := workflowId;
          er_eventType := event_type e; er_payload := e; er_fromState := from; er_toState := to;
          er_metadata := metadata; er_recordedAt := ww_now w |}.

Definition recordWorkflowEvent (workflowId : string) (e : PurchaseEvent) (from : option PurchaseState)
    (to : PurchaseState) (metadata : list (string * Z)) : M wworld WorkflowEventRecord :=
  record ← createWorkflowEventRecord workflowId e from to metadata;
  modify (λ w, WWorld (ww_snapshot w) (ww_events w ++ [record]) (ww_ids w) (ww_now w) (ww_hooked w));;
  mret record.

(** ** machine.ts: the machine *)

(** A transition hook sees the transitions handed to it before, takes some time and
    may throw. *)
Definition TransitionHook : Type := list StateTransitionRecord → StateTransitionRecord → N * (exn + ()).

Definition call_hook (hook : option TransitionHook) (r : StateTransitionRecord) : M wworld () :=
  match hook with
  | None => mret ()
  | Some h => λ w,
      let '(took, res) := h (ww_hooked w) r in
      (res, WWorld (ww_snapshot w) (ww_events w) (ww_ids w) (ww_now w + Z.of_N took) (ww_hooked w ++ [r]))
  end.

Record InitialContext := { ic_workflowId : string; ic_delegationId : string; ic_userId : string }.

Definition initial_snapshot (i : InitialContext) (now : Z) : WorkflowSnapshot := {|
  ws_workflowId := ic_workflowId i; ws_currentState := Discovery;
  ws_context := {| pc_workflowId := ic_workflowId i; pc_delegationId := ic_delegationId i; pc_userId := ic_userId i;
                   pc_productId := None; pc_merchantId := None; pc_totalStroops := None; pc_escrowContractId := None;
                   pc_rejectionReason := None; pc_createdAt := now; pc_updatedAt := now |};
  ws_history := []; ws_version := SNAPSHOT_VERSION; ws_timeoutAt := None |}.

(** [new PurchaseWorkflowMachine(initialContext, onTransition)] *)
Definition newMachine (i : InitialContext) : M wworld () :=
  modify (λ w, set_snapshot (initial_snapshot i (ww_now w)) w).

Definition isTerminal : M wworld bool := gets (λ w, TERMINAL_STATES (ws_currentState (ww_snapshot w))).

Definition getSnapshot : M wworld WorkflowSnapshot :=
  gets (λ w, let s := ww_snapshot w in
    {| ws_workflowId := ws_workflowId s; ws_currentState := ws_currentState s; ws_context := ws_context s;
       ws_history := ws_history s; ws_version := ws_version s; ws_timeoutAt := None |}).

(** The snapshot after a legal event. *)
Definition transition (now : Z) (e : PurchaseEvent) (next : PurchaseState) (s : WorkflowSnapshot)
    : WorkflowSnapshot * StateTransitionRecord :=
  let updatedContext := applyContextUpdate now (ws_context s) e in
  let record := {| tr_workflowId := ws_workflowId s; tr_fromState := Some (ws_currentState s); tr_toState := next;
                   tr_event := event_type e; tr_context := updatedContext; tr_timestamp := now |} in
  ({| ws_workflowId := ws_workflowId s; ws_currentState := next; ws_context := updatedContext;
      ws_history := ws_history s ++ [record]; ws_version := ws_version s; ws_timeoutAt := ws_timeoutAt s |}, record).

Definition send (hook : option TransitionHook) (e : PurchaseEvent) : M wworld WorkflowSnapshot :=
  s ← gets ww_snapshot;
  terminal ← isTerminal;
  throw_if terminal
    (Error ("Workflow " +:+ ws_workflowId s +:+ " is in terminal state " +:+ quoted (state_name (ws_currentState s)) +:+
            " and cannot accept further events"));;
  next ← some_or_throw (TRANSITIONS (ws_currentState s) e)
    (Error ("Event " +:+ quoted (event_type e) +:+ " is not valid in state " +:+ quoted (state_name (ws_currentState s))));
  now ← gets ww_now;
  let '(s', record) := transition now e next s in
  modify (set_snapshot s');;
  call_hook hook record;;
  try_catch
    (recordWorkflowEvent (ws_workflowId s') e (tr_fromState record) (tr_toState record)
       [("snapshotVersion", ws_version s')];; mret ())
    (λ _, mret ());;
  getSnapshot.

(** [PurchaseWorkflowMachine.fromSnapshot]: the machine at hand becomes the restored one. *)
Definition fromSnapshot (s : WorkflowSnapshot) : M wworld () :=
  assertValidSnapshot (snapshot_value s);;
  newMachine {| ic_workflowId := ws_workflowId s; ic_delegationId := pc_delegationId (ws_context s);
                ic_userId := pc_userId (ws_context s) |};;
  modify (set_snapshot s).

(** Work on a machine of its own, next to the one at hand. *)
Definition on_new_machine {A} (i : InitialContext) (c : M wworld A) : M wworld A := λ w,
  let '(r, w') := (newMachine i;; c) w in (r, set_snapshot (ww_snapshot w) w').

Definition send_all (hook : option TransitionHook) (events : list WorkflowEventRecord) : M wworld () :=
  for_each events (λ e, send hook (er_payload e);; mret ()).

(** [replayWorkflowEvents] and [replayFromStore] of eventStore.ts *)
Definition replayWorkflowEvents (events : list WorkflowEventRecord) (i : InitialContext) : M wworld WorkflowSnapshot :=
  throw_if (bool_decide (events = [])) (Error "No events to replay");;
  on_new_machine i (send_all None events;; getSnapshot).

Definition replayFromStore (workflowId : string) (i : InitialContext) : M wworld WorkflowSnapshot :=
  events ← getEvents workflowId;
  throw_if (bool_decide (events = [])) (Error ("No events found for workflow " +:+ workflowId));;
  replayWorkflowEvents events i.

(** [PurchaseWorkflowMachine.fromEventReplay]: the machine at hand becomes the replayed one. *)
Definition fromEventReplay (hook : option TransitionHook) (workflowId : string) (i : InitialContext) : M wworld () :=
  events ← getEvents workflowId;
  throw_if (bool_decide (events = [])) (Error ("No events found for workflow " +:+ workflowId));;
  newMachine i;;
  send_all hook events.
