(* ===== verification/PurchaseCorrect.v ===== *)
(** * What the purchase workflow guarantees

    The shape of every run of the machine, its termination, and the two ways a
    machine is restored: from a snapshot and from the recorded events. *)
From Stdlib Require Import Sorting.Sorted.
From S2P Require Import Prelude JsLib Calendar Purchase.
Local Open Scope Z_scope.

(** ** One event *)

(** The snapshot a legal event leads to; [None] where [send] throws. *)
Definition step (now : Z) (s : WorkflowSnapshot) (e : PurchaseEvent) : option WorkflowSnapshot :=
  next ← TRANSITIONS (ws_currentState s) e;
  Some (transition now e next s).1.

Lemma terminal_none s e : TERMINAL_STATES s = true → TRANSITIONS s e = None.
Proof. by destruct s. Qed.

Lemma send_refused hook e w :
  step (ww_now w) (ww_snapshot w) e = None → ∃ x, send hook e w = (inl x, w).
Proof.
  unfold step. intros H. unfold send, isTerminal. run_unfold.
  destruct (TERMINAL_STATES (ws_currentState (ww_snapshot w))); simpl; [by eexists |].
  destruct (TRANSITIONS (ws_currentState (ww_snapshot w)) e) eqn:E; simpl in *; [done | by eexists].
Qed.

Definition quiet (hook : option TransitionHook) : Prop :=
  match hook with None => True | Some h => ∀ l r, (h l r).2 = inr () end.

(** The record a legal event leaves in the store. *)
Definition recorded_as (w : wworld) (e : PurchaseEvent) (s' : WorkflowSnapshot) (x : WorkflowEventRecord) : Prop :=
  er_workflowId x = ws_workflowId (ww_snapshot w) ∧ er_payload x = e ∧ er_eventType x = event_type e ∧
  er_fromState x = Some (ws_currentState (ww_snapshot w)) ∧ er_toState x = ws_currentState s' ∧ ww_now w ≤ er_recordedAt x.

Lemma send_accepted hook e w s' :
  quiet hook → step (ww_now w) (ww_snapshot w) e = Some s' →
  ∃ r w' x, send hook e w = (inr r, w') ∧ ww_snapshot w' = s' ∧ ww_events w' = ww_events w ++ [x] ∧
            recorded_as w e s' x ∧ ww_now w' = er_recordedAt x.
Proof.
  intros Hq. unfold step. destruct (TRANSITIONS (ws_currentState (ww_snapshot w)) e) as [next |] eqn:E; simpl; [| done].
  intros [= <-]. unfold send, isTerminal. erewrite bind_run by done. erewrite bind_run by done.
  destruct (TERMINAL_STATES (ws_currentState (ww_snapshot w))) eqn:Ht; [by rewrite terminal_none in E |].
  erewrite bind_run by done. rewrite E. erewrite bind_run by done. erewrite bind_run by done. simpl.
  erewrite bind_run by done. set (w1 := set_snapshot _ w).
  assert (∃ t hs, 0 ≤ t ∧ call_hook hook (transition (ww_now w) e next (ww_snapshot w)).2 w1 =
    (inr (), WWorld (ww_snapshot w1) (ww_events w1) (ww_ids w1) (ww_now w1 + t) hs)) as (t & hs & Ht0 & Hh).
  { destruct hook as [h |]; simpl in *.
    - specialize (Hq (ww_hooked w) (transition (ww_now w) e next (ww_snapshot w)).2). simpl in Hq.
      destruct (h _ _) as [took res]. simpl in Hq. subst res. exists (Z.of_N took). eexists. split; [lia | done].
    - exists 0, (ww_hooked w). split; [done |]. by rewrite Z.add_0_r. }
  erewrite bind_run by exact Hh. erewrite bind_run by done. eexists _, _, _. split; [done |]. split; [done |].
  split; [done |]. split; [| done]. repeat (split; [done |]). simpl. lia.
Qed.

(** ** Shape of a run *)

(** How far a state is from the end. *)
Definition rank (s : PurchaseState) : nat :=
  match s with
  | Discovery => 6 | SpendingCheck => 5 | UserApprovalPending => 4 | EscrowLocking => 3 | MerchantFulfillment => 2
  | DeliveryVerification => 1 | Completed | Refunded => 0
  end.

Lemma transition_rank s e s' : TRANSITIONS s e = Some s' → (rank s' < rank s)%nat.
Proof. destruct s, e; simpl; intros; simplify_eq; simpl; lia. Qed.

(** The states a workflow has gone through when it is in a state it can leave, or is
    completed. *)
Definition path_to (s : PurchaseState) : list PurchaseState :=
  let main := [SpendingCheck; UserApprovalPending; EscrowLocking; MerchantFulfillment; DeliveryVerification; Completed] in
  match s with Refunded => [] | _ => take (6 - rank s) main end.

(** Consecutive transitions of the history fit together and lead from the first context
    to the state and the context: each record is of a legal event in the state before
    it, and carries what the event made of the context before it. *)
Inductive chained (id : string) (c0 : PurchaseContext) : PurchaseState → PurchaseContext → list StateTransitionRecord → Prop :=
| chained_nil : chained id c0 Discovery c0 []
| chained_snoc s c l r e :
    chained id c0 s c l → tr_workflowId r = id → tr_fromState r = Some s → TRANSITIONS s e = Some (tr_toState r) →
    tr_event r = event_type e → tr_context r = applyContextUpdate (tr_timestamp r) c e →
    chained id c0 (tr_toState r) (tr_context r) (l ++ [r]).

(** The context of a workflow that has not seen an event. *)
Definition blank_context (c : PurchaseContext) : Prop :=
  pc_productId c = None ∧ pc_merchantId c = None ∧ pc_totalStroops c = None ∧ pc_escrowContractId c = None ∧
  pc_rejectionReason c = None.

(** The fields a state has set. *)
Record snapshot_ok (s : WorkflowSnapshot) : Prop := {
  ok_chain : ∃ c0, blank_context c0 ∧ chained (ws_workflowId s) c0 (ws_currentState s) (ws_context s) (ws_history s);
  ok_product : ws_currentState s ≠ Discovery →
    is_Some (pc_productId (ws_context s)) ∧ is_Some (pc_merchantId (ws_context s)) ∧ is_Some (pc_totalStroops (ws_context s));
  ok_escrow : is_Some (pc_escrowContractId (ws_context s)) ↔
    MerchantFulfillment ∈ tr_toState <$> ws_history s;
  ok_reason : is_Some (pc_rejectionReason (ws_context s)) ↔ ws_currentState s = Refunded
}.

Lemma initial_ok i now : snapshot_ok (initial_snapshot i now).
Proof.
  split; simpl; [eexists; split; [| constructor]; done | done | | ]; (split; [by intros [? ?] |]); [intros H; by apply elem_of_nil in H | done].
Qed.

Lemma fmap_snoc_elem s l (r : StateTransitionRecord) :
  s ∈ tr_toState <$> (l ++ [r]) ↔ s ∈ tr_toState <$> l ∨ s = tr_toState r.
Proof. rewrite fmap_app, elem_of_app. simpl. by rewrite list_elem_of_singleton. Qed.

Lemma step_ok now s e s' : snapshot_ok s → step now s e = Some s' → snapshot_ok s'.
Proof.
  unfold step. intros [Hc Hp He Hr]. destruct (TRANSITIONS (ws_currentState s) e) as [next |] eqn:E; simpl; [| done].
  intros [= <-]. split; simpl.
  - destruct Hc as (c0 & Hb & Hc). exists c0. split; [done |].
    match goal with |- chained _ _ _ _ (_ ++ [?r]) => by apply (chained_snoc _ _ (ws_currentState s) (ws_context s) _ r e) end.
  - intros _. destruct (ws_currentState s), e; simpl in *; simplify_eq; simpl; try (apply Hp; done); eauto.
  - rewrite fmap_snoc_elem. simpl. rewrite <-He.
    destruct (ws_currentState s), e; simpl in *; simplify_eq; simpl; split; intros H; try (destruct H; done); eauto;
      try (by left); try (by right).
  - destruct (ws_currentState s), e; simpl in *; simplify_eq; simpl; split; intros H; try done; try (by apply Hr in H);
      try (by eexists); try (by destruct H).
Qed.

(** ** Runs *)

Inductive workflow_op := Send (e : PurchaseEvent) | Tick (ms : N).

Definition tick (ms : N) (w : wworld) : wworld :=
  WWorld (ww_snapshot w) (ww_events w) (ww_ids w) (ww_now w + Z.of_N ms) (ww_hooked w).

(** Events sent one after the other, refused ones included, with time passing. *)
Fixpoint workflow_run (hook : option TransitionHook) (ops : list workflow_op) (w : wworld) : wworld :=
  match ops with
  | [] => w
  | Send e :: ops' => workflow_run hook ops' (send hook e w).2
  | Tick ms :: ops' => workflow_run hook ops' (tick ms w)
  end.

(** The number of events that were legal when they arrived. *)
Fixpoint accepted (hook : option TransitionHook) (ops : list workflow_op) (w : wworld) : nat :=
  match ops with
  | [] => 0
  | Send e :: ops' =>
      (match step (ww_now w) (ww_snapshot w) e with Some _ => 1 | None => 0 end + accepted hook ops' (send hook e w).2)%nat
  | Tick ms :: ops' => accepted hook ops' (tick ms w)
  end.

(** With any hook, throwing or not, [send] moves the snapshot by one step or not at all. *)
Lemma send_snapshot hook e w :
  ww_snapshot (send hook e w).2 = default (ww_snapshot w) (step (ww_now w) (ww_snapshot w) e).
Proof.
  destruct (step (ww_now w) (ww_snapshot w) e) as [s' |] eqn:Hs.
  - unfold step in Hs. destruct (TRANSITIONS (ws_currentState (ww_snapshot w)) e) as [next |] eqn:E; simpl in Hs; [| done].
    injection Hs as <-. unfold send, isTerminal. erewrite bind_run by done. erewrite bind_run by done.
    destruct (TERMINAL_STATES (ws_currentState (ww_snapshot w))) eqn:Ht; [by rewrite terminal_none in E |].
    erewrite bind_run by done. rewrite E. erewrite bind_run by done. erewrite bind_run by done. simpl.
    erewrite bind_run by done. unfold call_hook. destruct hook as [h |]; [| done].
    unfold mbind at 1, M_bind at 1. simpl. by destruct (h _ _) as [took [x | []]].
  - destruct (send_refused hook e w Hs) as [x ->]. done.
Qed.

Lemma step_rank now s e s' : step now s e = Some s' → (rank (ws_currentState s') < rank (ws_currentState s))%nat.
Proof.
  unfold step. destruct (TRANSITIONS (ws_currentState s) e) as [next |] eqn:E; simpl; [| done]. intros [= <-].
  by eapply transition_rank.
Qed.

(** A purchase workflow ends: from any state at most six more events are accepted,
    and the number of accepted events is bounded by the distance of the state from
    the end, whatever events arrive, whatever the hook does. *)
Theorem workflow_terminates hook ops w :
  (accepted hook ops w + rank (ws_currentState (ww_snapshot (workflow_run hook ops w)))
   ≤ rank (ws_currentState (ww_snapshot w)) ≤ 6)%nat.
Proof.
  split; [| by destruct (ws_currentState (ww_snapshot w)); simpl; lia].
  revert w. induction ops as [| [e | ms] ops IH]; intros w; simpl; [lia | | apply (IH (tick ms w))].
  specialize (IH (send hook e w).2). rewrite send_snapshot in IH.
  destruct (step (ww_now w) (ww_snapshot w) e) as [s' |] eqn:Hs; simpl in *; [| lia].
  apply step_rank in Hs. lia.
Qed.

(** What stays true of a machine during a run. *)
Definition machine_ok (i : InitialContext) (s : WorkflowSnapshot) : Prop :=
  snapshot_ok s ∧ ws_workflowId s = ic_workflowId i ∧ pc_workflowId (ws_context s) = ic_workflowId i ∧
  pc_delegationId (ws_context s) = ic_delegationId i ∧ pc_userId (ws_context s) = ic_userId i ∧
  ws_version s = SNAPSHOT_VERSION ∧ ws_timeoutAt s = None.

Lemma step_machine_ok i now s e s' : machine_ok i s → step now s e = Some s' → machine_ok i s'.
Proof.
  intros (Hok & Hid & Hw & Hd & Hu & Hv & Ht) Hs. split; [by eapply step_ok |]. unfold step in Hs.
  destruct (TRANSITIONS (ws_currentState s) e) as [next |]; simpl in Hs; [| done]. injection Hs as <-. simpl.
  by destruct e.
Qed.

Lemma run_machine_ok i hook ops w :
  machine_ok i (ww_snapshot w) → machine_ok i (ww_snapshot (workflow_run hook ops w)).
Proof.
  revert w. induction ops as [| [e | ms] ops IH]; intros w H; simpl; [done | | by apply (IH (tick ms w))].
  apply IH. rewrite send_snapshot. destruct (step (ww_now w) (ww_snapshot w) e) as [s' |] eqn:Hs; [| done].
  by eapply step_machine_ok.
Qed.

Lemma new_machine_ok i now : machine_ok i (initial_snapshot i now).
Proof. split; [apply initial_ok | done]. Qed.

(** The only way to a state that is not [Refunded]. *)
Lemma chained_path id c0 s c l : chained id c0 s c l → s ≠ Refunded → tr_toState <$> l = path_to s.
Proof.
  intros H. induction H as [| s c l r e Hc IH Hid Hf Ht He Hx]; intros Hne; [done |]. rewrite fmap_app.
  destruct s, e; simpl in Ht; simplify_eq; (rewrite IH by done); simpl;
    match goal with H : _ = tr_toState _ |- _ => rewrite <-H in * end; done.
Qed.

Lemma chained_last id c0 s c l r : chained id c0 s c l → last l = Some r → tr_toState r = s ∧ tr_context r = c.
Proof. intros H. inversion H; subst; [done |]. rewrite last_snoc. by intros [= <-]. Qed.

(** C39. The history of a workflow explains its state: it is a chain of legal transitions
    from Discovery and an empty context, each record carrying the context its event
    produced from the one before it, and the last one the current state and context; a
    workflow that was not refunded went through exactly the states that lead to its own,
    a completed one through the spending check, the user's approval, the escrow, the
    fulfilment and the delivery, in this order; product, merchant and total are set after
    discovery; an escrow is recorded exactly when it was locked, and a rejection reason
    exactly when the workflow was refunded. *)
Theorem workflow_history i hook ops w :
  let s := ww_snapshot (workflow_run hook ops (newMachine i w).2) in
  snapshot_ok s ∧ (ws_currentState s ≠ Refunded → tr_toState <$> ws_history s = path_to (ws_currentState s)) ∧
  (∀ r, last (ws_history s) = Some r → tr_toState r = ws_currentState s ∧ tr_context r = ws_context s).
Proof.
  intros s. destruct (run_machine_ok i hook ops (newMachine i w).2 (new_machine_ok i (ww_now w))) as [Hok _].
  split; [exact Hok |]. destruct Hok as [(c0 & _ & Hc) _ _ _]. split; [by eapply chained_path | intros r; by eapply chained_last].
Qed.

(** ** Snapshots *)

Lemma state_name_valid s : state_name s ∈ VALID_STATES.
Proof. destruct s; unfold VALID_STATES; set_solver. Qed.

Lemma show_num z : show (Num z) = inr (dec z).
Proof. done. Qed.

(** A snapshot is accepted exactly when its identifiers are not empty and its version
    is the current one. *)
Lemma validate_exact s :
  ∃ l, validateSnapshot (snapshot_value s) = inr {| valid := bool_decide (l = []); errors := l |} ∧
    (l = [] ↔ ws_workflowId s ≠ "" ∧ pc_workflowId (ws_context s) ≠ "" ∧ pc_delegationId (ws_context s) ≠ "" ∧
             pc_userId (ws_context s) ≠ "" ∧ ws_version s = SNAPSHOT_VERSION).
Proof.
  unfold validateSnapshot, snapshot_value, context_errors. simpl.
  rewrite bool_decide_eq_true_2 by apply state_name_valid. simpl.
  destruct (Z.eqb_spec (ws_version s) SNAPSHOT_VERSION); simpl; eexists; (split; [reflexivity |]);
    destruct (String.eqb_spec (ws_workflowId s) ""), (String.eqb_spec (pc_workflowId (ws_context s)) ""),
      (String.eqb_spec (pc_delegationId (ws_context s)) ""), (String.eqb_spec (pc_userId (ws_context s)) "");
    simpl; naive_solver.
Qed.

(** Restoring a machine from the snapshot it handed out gives the same machine:
    for a workflow created with non-empty identifiers, at any point of its run,
    [fromSnapshot] accepts what [getSnapshot] returned and leaves the very same
    state. *)
Theorem snapshot_roundtrip i hook ops w :
  ic_workflowId i ≠ "" → ic_delegationId i ≠ "" → ic_userId i ≠ "" →
  let w' := workflow_run hook ops (newMachine i w).2 in
  (getSnapshot ≫= fromSnapshot) w' = (inr (), w').
Proof.
  intros Hi Hd Hu w'.
  destruct (run_machine_ok i hook ops (newMachine i w).2 (new_machine_ok i (ww_now w))) as (_ & E1 & E2 & E3 & E4 & E5 & E6).
  fold w' in E1, E2, E3, E4, E5, E6. destruct w' as [s evs ids now hs]. simpl in *.
  destruct s as [wid st ctx hist ver tout]. simpl in *. subst tout.
  unfold getSnapshot. erewrite bind_run by done. simpl. unfold fromSnapshot, assertValidSnapshot.
  destruct (validate_exact {| ws_workflowId := wid; ws_currentState := st; ws_context := ctx; ws_history := hist;
    ws_version := ver; ws_timeoutAt := None |}) as (l & Hv & Hl).
  rewrite bind_assoc_run. unfold answer. erewrite bind_run by (by rewrite Hv).
  rewrite (proj2 Hl) by (simpl; rewrite E1, E2, E3, E4, E5; done). done.
Qed.

(** ** Replay *)

(** A snapshot up to the times of its transitions. *)
Definition erase_ctx (c : PurchaseContext) : PurchaseContext := {|
  pc_workflowId := pc_workflowId c; pc_delegationId := pc_delegationId c; pc_userId := pc_userId c;
  pc_productId := pc_productId c; pc_merchantId := pc_merchantId c; pc_totalStroops := pc_totalStroops c;
  pc_escrowContractId := pc_escrowContractId c; pc_rejectionReason := pc_rejectionReason c;
  pc_createdAt := 0; pc_updatedAt := 0 |}.
Definition erase_rec (r : StateTransitionRecord) : StateTransitionRecord := {|
  tr_workflowId := tr_workflowId r; tr_fromState := tr_fromState r; tr_toState := tr_toState r; tr_event := tr_event r;
  tr_context := erase_ctx (tr_context r); tr_timestamp := 0 |}.
Definition erase (s : WorkflowSnapshot) : WorkflowSnapshot := {|
  ws_workflowId := ws_workflowId s; ws_currentState := ws_currentState s; ws_context := erase_ctx (ws_context s);
  ws_history := erase_rec <$> ws_history s; ws_version := ws_version s; ws_timeoutAt := ws_timeoutAt s |}.

(** Two snapshots that differ in times only. *)
Definition same_but_time : relation WorkflowSnapshot := λ s s', erase s = erase s'.
Infix "≈ₜ" := same_but_time (at level 70).

#[export] Instance same_but_time_equiv : Equivalence same_but_time.
Proof. unfold same_but_time. split; [by intros s | by intros s s' -> | by intros s1 s2 s3 -> ->]. Qed.

#[export] Instance ws_currentState_proper : Proper (same_but_time ==> (=)) ws_currentState.
Proof. intros s s' H. by apply (f_equal ws_currentState) in H. Qed.

#[export] Instance ws_workflowId_proper : Proper (same_but_time ==> (=)) ws_workflowId.
Proof. intros s s' H. by apply (f_equal ws_workflowId) in H. Qed.

Lemma erase_apply now now' c c' e :
  erase_ctx c = erase_ctx c' → erase_ctx (applyContextUpdate now c e) = erase_ctx (applyContextUpdate now' c' e).
Proof. destruct c, c'. unfold erase_ctx. simpl. intros [= -> -> -> -> -> -> -> ->]. by destruct e. Qed.

(** Steps at different times from such snapshots lead to such snapshots. *)
Lemma step_same now now' s s' e r :
  s ≈ₜ s' → step now s e = Some r → ∃ r', step now' s' e = Some r' ∧ r ≈ₜ r'.
Proof.
  intros H. unfold step. rewrite <-(ws_currentState_proper _ _ H). destruct (TRANSITIONS (ws_currentState s) e) as [next |]; simpl; [| done].
  intros [= <-]. eexists. split; [done |]. unfold same_but_time in *.
  pose proof (f_equal ws_workflowId H) as E1. pose proof (f_equal ws_currentState H) as E2.
  pose proof (f_equal ws_context H) as Hc. pose proof (f_equal ws_history H) as Hh.
  pose proof (f_equal ws_version H) as E3. pose proof (f_equal ws_timeoutAt H) as E4. simpl in *.
  pose proof (erase_apply now now' _ _ e Hc) as Ha.
  unfold erase. simpl. rewrite !fmap_app, Hh, E3, E4. simpl. unfold erase_rec at 2 4. simpl. congruence.
Qed.

Lemma step_same_none now now' s s' e : s ≈ₜ s' → step now s e = None → step now' s' e = None.
Proof.
  intros H. unfold step. rewrite <-(ws_currentState_proper _ _ H). by destruct (TRANSITIONS (ws_currentState s) e).
Qed.

(** Replaying payloads from a snapshot. *)
Fixpoint steps (s : WorkflowSnapshot) (l : list PurchaseEvent) : option WorkflowSnapshot :=
  match l with [] => Some s | e :: l' => s' ← step 0 s e; steps s' l' end.

Lemma steps_app s l k : steps s (l ++ k) = steps s l ≫= λ s', steps s' k.
Proof. revert s. induction l as [| e l IH]; intros s; simpl; [done |]. destruct (step 0 s e); simpl; auto. Qed.

Lemma steps_rank s l s' :
  steps s l = Some s' → (rank (ws_currentState s') + length l ≤ rank (ws_currentState s))%nat.
Proof.
  revert s. induction l as [| e l IH]; intros s; simpl; [intros [= ->]; lia |].
  destruct (step 0 s e) as [s1 |] eqn:E; simpl; [| done]. intros H. apply IH in H. apply step_rank in E. lia.
Qed.

(** *** The store *)

Definition own (id : string) (w : wworld) : list WorkflowEventRecord :=
  List.filter (λ e, String.eqb (er_workflowId e) id) (ww_events w).

Definition times_ok (l : list WorkflowEventRecord) (now : Z) : Prop :=
  StronglySorted (λ a b, er_recordedAt a ≤ er_recordedAt b) l ∧ Forall (λ e, er_recordedAt e ≤ now) l.

Lemma times_ok_snoc l now x : times_ok l now → now ≤ er_recordedAt x → times_ok (l ++ [x]) (er_recordedAt x).
Proof.
  intros [Hs Hn] Hx. split.
  - induction Hs as [| y l Hs IH Hy]; simpl; [by repeat constructor |]. apply Forall_cons in Hn as [Hyn Hn].
    constructor; [auto |]. apply Forall_app. split; [done |]. constructor; [lia | done].
  - apply Forall_app. split; [eapply Forall_impl; [exact Hn |]; simpl; intros; lia | by constructor].
Qed.

Lemma times_ok_tick l now now' : times_ok l now → now ≤ now' → times_ok l now'.
Proof. intros [Hs Hn] H. split; [done |]. eapply Forall_impl; [exact Hn |]. simpl. intros; lia. Qed.

Lemma times_ok_filter p l now : times_ok l now → times_ok (List.filter p l) now.
Proof.
  intros [Hs Hn]. induction Hs as [| y l Hs IH Hy]; simpl; [by repeat constructor |].
  apply Forall_cons in Hn as [Hyn Hn]. destruct (IH Hn) as [IHs IHn]. destruct (p y); [| done].
  split; constructor; try done. apply Forall_forall. intros x Hx. rewrite Forall_forall in Hy. apply Hy.
  apply list_elem_of_In in Hx. apply filter_In in Hx as [Hx _]. by apply list_elem_of_In.
Qed.

Lemma insert_last x l : Forall (λ e, er_recordedAt e ≤ er_recordedAt x) l → insert_by_time x l = l ++ [x].
Proof.
  induction 1 as [| y l Hy _ IH]; simpl; [done |]. apply Z.leb_le in Hy. by rewrite Hy, IH.
Qed.

(** Sorting what is recorded in order changes nothing. *)
Lemma sort_id l now : times_ok l now → sort_by_time l = l.
Proof.
  intros [Hs _]. unfold sort_by_time.
  assert (Hg : ∀ acc, StronglySorted (λ a b, er_recordedAt a ≤ er_recordedAt b) (acc ++ l) →
    foldl (flip insert_by_time) acc l = acc ++ l).
  { clear Hs. induction l as [| x l IH]; intros acc Hs; simpl; [by rewrite app_nil_r |].
    rewrite insert_last.
    - rewrite IH; [by rewrite <-app_assoc |]. by rewrite <-app_assoc.
    - clear IH. induction acc as [| y acc IH]; [done |]. simpl in Hs. inversion_clear Hs as [| ?? Hs' Hy].
      constructor; [| auto]. apply Forall_app in Hy as [_ Hy]. by apply Forall_cons in Hy as [Hy _]. }
  by apply (Hg []).
Qed.

(** The recorded payloads lead from the start to the state of the machine. *)
Definition replayable (i : InitialContext) (w : wworld) : Prop :=
  machine_ok i (ww_snapshot w) ∧ times_ok (ww_events w) (ww_now w) ∧
  ∃ s, steps (initial_snapshot i 0) (er_payload <$> own (ic_workflowId i) w) = Some s ∧ s ≈ₜ ww_snapshot w.

Lemma own_snoc id w w' x :
  ww_events w' = ww_events w ++ [x] → er_workflowId x = id → own id w' = own id w ++ [x].
Proof.
  intros H Hx. unfold own. rewrite H, List.filter_app. simpl. by rewrite Hx, String.eqb_refl.
Qed.

Lemma send_replayable i hook e w : quiet hook → replayable i w → replayable i (send hook e w).2.
Proof.
  intros Hq (Hm & Ht & s & Hs & Hsame). destruct (step (ww_now w) (ww_snapshot w) e) as [s' |] eqn:He.
  - destruct (send_accepted hook e w s' Hq He) as (r & w' & x & Hrun & Hsn & Hev & (Hx1 & Hx2 & _ & _ & _ & Hxt) & Hn).
    rewrite Hrun. simpl. split; [rewrite Hsn; by eapply step_machine_ok |].
    split; [rewrite Hev, Hn; by apply times_ok_snoc with (now := ww_now w) |].
    destruct Hm as (_ & Hid & _). rewrite Hid in Hx1. rewrite (own_snoc _ w w' x Hev Hx1), fmap_app, steps_app, Hs. simpl.
    rewrite Hx2. destruct (step_same (ww_now w) 0 (ww_snapshot w) s e s') as (s2 & Hs2 & H2); [by symmetry | done |].
    rewrite Hs2. simpl. exists s2. rewrite Hsn. split; [done | by symmetry].
  - destruct (send_refused hook e w He) as [x ->]. simpl. split; [done |]. split; [done |]. by exists s.
Qed.

Lemma run_replayable i hook ops w : quiet hook → replayable i w → replayable i (workflow_run hook ops w).
Proof.
  intros Hq. revert w. induction ops as [| [e | ms] ops IH]; intros w H; simpl; [done | |].
  - by apply IH, send_replayable.
  - apply IH. destruct H as (Hm & Ht & Hs). split; [done |]. split; [| done]. eapply times_ok_tick; [done |]. simpl. lia.
Qed.

(** *** The replay *)

(** Sending recorded payloads to a machine: it follows the steps, and every one is
    recorded again. *)
Lemma send_all_run l s w s' :
  steps s (er_payload <$> l) = Some s' → s ≈ₜ ww_snapshot w → times_ok (ww_events w) (ww_now w) →
  ∃ w' new, send_all None l w = (inr (), w') ∧ s' ≈ₜ ww_snapshot w' ∧ ww_events w' = ww_events w ++ new ∧
    er_payload <$> new = er_payload <$> l ∧ Forall (λ x, er_workflowId x = ws_workflowId s) new ∧
    times_ok (ww_events w') (ww_now w').
Proof.
  revert s w. induction l as [| x l IH]; intros s w Hs Hw Ht; simpl in Hs.
  - injection Hs as <-. exists w, []. by rewrite app_nil_r.
  - destruct (step 0 s (er_payload x)) as [s1 |] eqn:E; simpl in Hs; [| done].
    destruct (step_same 0 (ww_now w) s (ww_snapshot w) (er_payload x) s1 Hw E) as (s2 & E2 & H12).
    destruct (send_accepted None (er_payload x) w s2 I E2) as (r & w1 & y & Hrun & Hsn & Hev & (Hy1 & Hy2 & _ & _ & _ & Hyt) & Hn).
    assert (Ht1 : times_ok (ww_events w1) (ww_now w1)) by (rewrite Hev, Hn; by apply times_ok_snoc with (now := ww_now w)).
    destruct (IH s1 w1 Hs) as (w' & new & Hall & Hs' & Hev' & Hp & Hid & Ht'); [by rewrite Hsn | done |].
    exists w', (y :: new). split.
    { unfold send_all. simpl. erewrite bind_run; [exact Hall |]. erewrite bind_run by exact Hrun. done. }
    split; [done |]. split; [rewrite Hev', Hev, <-app_assoc; done |]. split; [by rewrite !fmap_cons, Hy2, Hp |].
    split; [| done]. constructor; [by rewrite Hy1, (ws_workflowId_proper _ _ Hw) |].
    assert (ws_workflowId s1 = ws_workflowId s) as Heq; [| by rewrite <-Heq].
    unfold step in E. destruct (TRANSITIONS (ws_currentState s) (er_payload x)); simpl in E; [| done]. by injection E as <-.
Qed.

Lemma get_own i w :
  times_ok (ww_events w) (ww_now w) → getEvents (ic_workflowId i) w = (inr (own (ic_workflowId i) w), w).
Proof. intros Ht. unfold getEvents, gets. by rewrite (sort_id _ (ww_now w)) by (by apply times_ok_filter). Qed.

Lemma own_nonempty i w : replayable i w → ws_history (ww_snapshot w) ≠ [] → own (ic_workflowId i) w ≠ [].
Proof.
  intros (_ & _ & s & Hs & Hsame) Hh Ho. rewrite Ho in Hs. simpl in Hs. injection Hs as <-.
  apply (f_equal ws_history) in Hsame. simpl in Hsame. destruct (ws_history (ww_snapshot w)); done.
Qed.

(** A replay of a workflow: the state it returns and what it adds to the store. *)
Lemma replay_run i w :
  replayable i w → ws_history (ww_snapshot w) ≠ [] →
  ∃ snap w' new, replayFromStore (ic_workflowId i) i w = (inr snap, w') ∧ snap ≈ₜ ww_snapshot w ∧
    ww_events w' = ww_events w ++ new ∧ er_payload <$> new = er_payload <$> own (ic_workflowId i) w ∧
    Forall (λ x, er_workflowId x = ic_workflowId i) new ∧ times_ok (ww_events w') (ww_now w').
Proof.
  intros Hr Hh. pose proof (own_nonempty i w Hr Hh) as Hne. destruct Hr as (Hm & Ht & s & Hs & Hsame).
  unfold replayFromStore. erewrite bind_run by (by apply get_own).
  rewrite bool_decide_eq_false_2 by done. erewrite bind_run by done.
  unfold replayWorkflowEvents. rewrite bool_decide_eq_false_2 by done. erewrite bind_run by done.
  unfold on_new_machine, newMachine. erewrite bind_run by done.
  set (w0 := set_snapshot (initial_snapshot i (ww_now w)) w).
  destruct (send_all_run (own (ic_workflowId i) w) (initial_snapshot i 0) w0 s Hs) as (w' & new & Hall & Hs' & Hev & Hp & Hid & Ht');
    [done | done |].
  erewrite bind_run by exact Hall. simpl. eexists _, _, new. split; [done |].
  split; [| done]. rewrite <-Hsame, Hs'. destruct Hm as (_ & _ & _ & _ & _ & _ & Hto).
  pose proof (f_equal ws_timeoutAt Hsame) as Et. pose proof (f_equal ws_timeoutAt Hs') as Et'. simpl in Et, Et'.
  unfold same_but_time, erase. simpl. congruence.
Qed.

(** The store before a workflow starts: ordered, and without events of it. *)
Definition fresh_store (i : InitialContext) (w : wworld) : Prop :=
  times_ok (ww_events w) (ww_now w) ∧ own (ic_workflowId i) w = [].

Lemma new_replayable i w : fresh_store i w → replayable i (newMachine i w).2.
Proof.
  intros [Ht Ho]. split; [apply new_machine_ok |]. split; [done |].
  change (own (ic_workflowId i) (newMachine i w).2) with (own (ic_workflowId i) w). rewrite Ho. by eexists.
Qed.

(** Event sourcing round trip: as long as the transition hook does not throw,
    replaying the recorded events of a workflow reconstructs its snapshot: state,
    context and history, up to the times of the transitions. *)
Theorem replay_roundtrip i hook ops w :
  quiet hook → fresh_store i w →
  let w' := workflow_run hook ops (newMachine i w).2 in
  ws_history (ww_snapshot w') ≠ [] →
  ∃ snap, (replayFromStore (ic_workflowId i) i w').1 = inr snap ∧ snap ≈ₜ ww_snapshot w'.
Proof.
  intros Hq Hf w' Hh. destruct (replay_run i w') as (snap & w2 & new & Hrun & Hsame & _); [| done |].
  - by apply run_replayable, new_replayable.
  - exists snap. by rewrite Hrun.
Qed.

Lemma steps_twice i l : l ≠ [] → steps (initial_snapshot i 0) (l ++ l) = None.
Proof.
  intros Hl. rewrite steps_app. destruct (steps (initial_snapshot i 0) l) as [s |] eqn:Hs; [| done]. simpl.
  pose proof (steps_rank _ _ _ Hs) as Hr. destruct l as [| e l]; [done |]. simpl in *.
  destruct e; simpl in Hs; try done. destruct (ws_currentState s) eqn:E; simpl in Hr; try lia; unfold step; by rewrite E.
Qed.

Lemma send_all_stuck l s w :
  steps s (er_payload <$> l) = None → s ≈ₜ ww_snapshot w → times_ok (ww_events w) (ww_now w) →
  ∃ x w', send_all None l w = (inl x, w').
Proof.
  revert s w. induction l as [| y l IH]; intros s w Hs Hw Ht; simpl in Hs; [done |].
  unfold send_all. simpl. destruct (step 0 s (er_payload y)) as [s1 |] eqn:E; simpl in Hs.
  - destruct (step_same 0 (ww_now w) s (ww_snapshot w) (er_payload y) s1 Hw E) as (s2 & E2 & H12).
    destruct (send_accepted None (er_payload y) w s2 I E2) as (r & w1 & z & Hrun & Hsn & Hev & (_ & _ & _ & _ & _ & Hzt) & Hn).
    destruct (IH s1 w1 Hs) as (x & w' & Hall); [by rewrite Hsn | rewrite Hev, Hn; by apply times_ok_snoc with (now := ww_now w) |].
    exists x, w'. erewrite bind_run; [exact Hall |]. erewrite bind_run by exact Hrun. done.
  - destruct (send_refused None (er_payload y) w) as [x Hx]; [by apply (step_same_none 0 _ s) |].
    exists x, w. erewrite bind_run_err; [done |]. by erewrite bind_run_err by exact Hx.
Qed.

(** A replay cannot be repeated: it sends the events through the machine, which
    records each of them a second time, so that the next replay of the same workflow
    always throws. *)
Theorem replay_not_repeatable i hook ops w :
  quiet hook → fresh_store i w →
  let w' := workflow_run hook ops (newMachine i w).2 in
  ws_history (ww_snapshot w') ≠ [] →
  ∃ snap w1 x, replayFromStore (ic_workflowId i) i w' = (inr snap, w1) ∧
    length (own (ic_workflowId i) w1) = (2 * length (own (ic_workflowId i) w'))%nat ∧
    (replayFromStore (ic_workflowId i) i w1).1 = inl x.
Proof.
  intros Hq Hf w' Hh. assert (Hr : replayable i w') by (by apply run_replayable, new_replayable).
  pose proof (own_nonempty i w' Hr Hh) as Hne.
  destruct (replay_run i w' Hr Hh) as (snap & w1 & new & Hrun & _ & Hev & Hp & Hid & Ht1).
  assert (Hown : own (ic_workflowId i) w1 = own (ic_workflowId i) w' ++ new).
  { unfold own. rewrite Hev, List.filter_app. f_equal. apply forallb_filter_id, forallb_forall. intros y Hy.
    apply list_elem_of_In in Hy. rewrite Forall_forall in Hid. rewrite (Hid y Hy). apply String.eqb_refl. }
  assert (Hpay : er_payload <$> own (ic_workflowId i) w1 =
    (er_payload <$> own (ic_workflowId i) w') ++ (er_payload <$> own (ic_workflowId i) w')) by (by rewrite Hown, fmap_app, Hp).
  destruct (send_all_stuck (own (ic_workflowId i) w1) (initial_snapshot i 0)
    (set_snapshot (initial_snapshot i (ww_now w1)) w1)) as (x & w2 & Hx); [| done | done |].
  { rewrite Hpay. apply steps_twice. intros E. by apply fmap_nil_inv in E. }
  exists snap, w1, x. split; [done |]. split.
  { apply (f_equal length) in Hpay. rewrite length_app, !length_fmap in Hpay. lia. }
  unfold replayFromStore. erewrite bind_run by (by apply get_own).
  assert (own (ic_workflowId i) w1 ≠ []) by (rewrite Hown; intros E; apply Hne; by destruct (own _ w')).
  rewrite bool_decide_eq_false_2 by done. erewrite bind_run by done.
  unfold replayWorkflowEvents. rewrite bool_decide_eq_false_2 by done. erewrite bind_run by done.
  unfold on_new_machine, newMachine. erewrite bind_run by done. by erewrite bind_run_err by exact Hx.
Qed.

(** ** Concrete purchase workflows

    Witnesses of the theorems, and a transition whose hook fails. *)

Definition demo_init : InitialContext := {| ic_workflowId := "wf-1"; ic_delegationId := "del-1"; ic_userId := "user-1" |}.
Definition empty_world : wworld := WWorld (initial_snapshot demo_init 0) [] 0 1700000000000 [].

(** A purchase up to the locked escrow, with an event that comes too early. *)
Definition demo_ops : list workflow_op :=
  [Send (PRODUCT_FOUND "p-1" "m-1" 25000000); Tick 10; Send USER_APPROVED; Send SPEND_APPROVED; Tick 60000;
   Send USER_APPROVED; Send (ESCROW_LOCKED "C1")].
Definition demo_world : wworld := workflow_run None demo_ops (newMachine demo_init empty_world).2.

Example demo_state : ws_currentState (ww_snapshot demo_world) = MerchantFulfillment.
Proof. reflexivity. Qed.

Lemma workflow_history_witness :
  (tr_toState <$> ws_history (ww_snapshot demo_world)) = [SpendingCheck; UserApprovalPending; EscrowLocking; MerchantFulfillment] ∧
  (pc_escrowContractId ∘ tr_context <$> ws_history (ww_snapshot demo_world)) = [None; None; None; Some "C1"] ∧
  (tr_context <$> last (ws_history (ww_snapshot demo_world))) = Some (ws_context (ww_snapshot demo_world)).
Proof.
  destruct (workflow_history demo_init None demo_ops empty_world) as (_ & Hp & Hl).
  split; [by apply Hp |]. split; [by vm_compute |]. unfold demo_world. destruct (last _) as [r |] eqn:E; [| by vm_compute in E].
  simpl. f_equal. by apply Hl.
Defined.

Lemma snapshot_roundtrip_witness :
  length (ws_history (ww_snapshot demo_world)) = 4%nat ∧
  (getSnapshot ≫= fromSnapshot) demo_world = (inr (), demo_world).
Proof. split; [done |]. by apply (snapshot_roundtrip demo_init None demo_ops empty_world). Defined.

Lemma demo_fresh : fresh_store demo_init empty_world.
Proof. split; [| done]. split; constructor. Qed.

Lemma replay_roundtrip_witness :
  ∃ snap, (replayFromStore "wf-1" demo_init demo_world).1 = inr snap ∧ snap ≈ₜ ww_snapshot demo_world ∧
          ws_currentState snap = MerchantFulfillment.
Proof.
  destruct (replay_roundtrip demo_init None demo_ops empty_world I demo_fresh) as (snap & Hr & Hs); [done |].
  exists snap. split; [exact Hr |]. split; [exact Hs |]. by rewrite (ws_currentState_proper _ _ Hs).
Defined.

Lemma replay_not_repeatable_witness :
  ∃ snap w1 x, replayFromStore "wf-1" demo_init demo_world = (inr snap, w1) ∧
    (replayFromStore "wf-1" demo_init w1).1 = inl x.
Proof.
  destruct (replay_not_repeatable demo_init None demo_ops empty_world I demo_fresh) as (snap & w1 & x & H1 & _ & H2); [done |].
  exists snap, w1, x. split; [exact H1 | exact H2].
Defined.

(** A hook that cannot persist the second transition. *)
Definition failing_hook : TransitionHook := λ l _, (1%N, if bool_decide (length l = 1%nat) then inl (Error "database unavailable") else inr ()).

(** When the hook throws, the transition has happened but its event is not recorded:
    [send] reports an error, later events are accepted and recorded, and a replay of
    the workflow throws. *)
Theorem failed_hook_loses_event :
  let w1 := (send (Some failing_hook) (PRODUCT_FOUND "p-1" "m-1" 5) (newMachine demo_init empty_world).2).2 in
  let w2 := send (Some failing_hook) SPEND_APPROVED w1 in
  let w3 := send (Some failing_hook) USER_APPROVED w2.2 in
  w2.1 = inl (Error "database unavailable") ∧ ws_currentState (ww_snapshot w2.2) = UserApprovalPending ∧
  (∃ snap, w3.1 = inr snap ∧ ws_currentState snap = EscrowLocking) ∧
  er_eventType <$> ww_events w3.2 = ["PRODUCT_FOUND"; "USER_APPROVED"] ∧
  (replayFromStore "wf-1" demo_init w3.2).1 =
    inl (Error ("Event " +:+ quoted "USER_APPROVED" +:+ " is not valid in state " +:+ quoted "SpendingCheck")).
Proof. vm_compute. split; [done |]. split; [done |]. split; [by eexists | done]. Qed.
