(* ===== verification/DualControl.v ===== *)
(** * Dual control (apps/backend/orchestrator/src/dualControl/service.ts)

    M-of-N approval of orders.  The tables of migrations 042 and 046 are lists of
    rows with their keys, foreign keys and the unique index on signatures; a signature
    is recorded in one transaction, which holds the lock of the approval row and is
    rolled back when it throws, so transactions on an approval run one after the
    other. *)
From S2P Require Import Prelude JsLib.
Local Open Scope Z_scope.

(** ** Data *)

Inductive DualControlStatus := pending | approved.

#[export] Instance DualControlStatus_eq_dec : EqDecision DualControlStatus.
Proof. solve_decision. Defined.

Definition status_text (s : DualControlStatus) : string := match s with pending => "pending" | approved => "approved" end.

Record DualControlApproval := {
  da_id : string; da_orderId : string; da_requiredSignatures : Z; da_createdByUserId : string;
  da_status : DualControlStatus; da_expiresAt : option Z; da_createdAt : Z; da_updatedAt : Z
}.

Record DualControlSignature := {
  ds_id : string; ds_approvalId : string; ds_signerUserId : string; ds_signedAt : Z; ds_signatureNote : option string
}.

Record CreateApprovalRequest := {
  ca_orderId : string; ca_createdByUserId : string; ca_requiredSignatures : option number; ca_expiresAt : option Z
}.

Record SignApprovalRequest := { sa_approvalId : string; sa_signerUserId : string; sa_note : option string }.

Record SignApprovalResult := { ar_approval : DualControlApproval; ar_signatureCount : Z; ar_quorumReached : bool }.

Definition ApprovalNotFoundError (m : string) : exn := Exn "ApprovalNotFoundError" m.
Definition ApprovalNotPendingError (m : string) : exn := Exn "ApprovalNotPendingError" m.
Definition SelfSignatureError (m : string) : exn := Exn "SelfSignatureError" m.
Definition DuplicateSignatureError (m : string) : exn := Exn "DuplicateSignatureError" m.
Definition InvalidQuorumError (m : string) : exn := Exn "InvalidQuorumError" m.

(** Orders are their id and status. *)
Record dcdb := DcDb {
  dc_approvals : list DualControlApproval; dc_signatures : list DualControlSignature;
  dc_orders : list (string * string); dc_users : list string; dc_now : Z; dc_ids : nat
}.

(** [gen_random_uuid()] *)
Class DualControlEnv := { dc_uuid : nat → string }.

Section service.
Context `{DE : DualControlEnv}.

Definition DatabaseError (m : string) : exn := Exn "DatabaseError" m.

(** ** Creating an approval *)

Definition order_exists (id : string) (d : dcdb) : bool := existsb (λ o, String.eqb o.1 id) (dc_orders d).
Definition user_exists (id : string) (d : dcdb) : bool := existsb (String.eqb id) (dc_users d).

(** [INSERT INTO dual_control_approvals ... RETURNING ...] *)
Definition insert_approval (orderId : string) (required : Z) (createdBy : string) (expiresAt : Z)
    : M dcdb DualControlApproval :=
  throw_if (2 ^ 31 - 1 <? required) (DatabaseError "integer out of range");;
  known ← gets (λ d, order_exists orderId d && user_exists createdBy d);
  throw_if (negb known) (DatabaseError "violates foreign key constraint");;
  d ← gets id;
  let row := {| da_id := dc_uuid (dc_ids d); da_orderId := orderId; da_requiredSignatures := required;
                da_createdByUserId := createdBy; da_status := pending; da_expiresAt := Some expiresAt;
                da_createdAt := dc_now d; da_updatedAt := dc_now d |} in
  modify (λ d, DcDb (dc_approvals d ++ [row]) (dc_signatures d) (dc_orders d) (dc_users d) (dc_now d) (S (dc_ids d)));;
  mret row.

Definition createApproval (request : CreateApprovalRequest) : M dcdb DualControlApproval :=
  match default (Int 2) (ca_requiredSignatures request) with
  | Int required =>
      throw_if (required <? 1)
        (InvalidQuorumError ("requiredSignatures must be a positive integer, got " +:+ dec required));;
      now ← gets dc_now;
      let expiresAt := default (now + 24 * 60 * 60 * 1000) (ca_expiresAt request) in
      insert_approval (ca_orderId request) required (ca_createdByUserId request) expiresAt
  (* the message ends with the number, whose text is not kept *)
  | NonInteger => throw (InvalidQuorumError "requiredSignatures must be a positive integer")
  end.

(** ** Signing *)

Definition approval_row (id : string) (d : dcdb) : option (nat * DualControlApproval) :=
  find_row (λ a, String.eqb (da_id a) id) (dc_approvals d).

Definition signatures_of (id : string) (d : dcdb) : list DualControlSignature :=
  List.filter (λ s, String.eqb (ds_approvalId s) id) (dc_signatures d).

(** [INSERT ... ON CONFLICT (approval_id, signer_user_id) DO NOTHING RETURNING id]:
    the number of rows inserted. *)
Definition insert_signature (approvalId signer : string) (note : option string) : M dcdb bool :=
  d ← gets id;
  if existsb (λ s, String.eqb (ds_approvalId s) approvalId && String.eqb (ds_signerUserId s) signer) (dc_signatures d)
  then mret false
  else
    throw_if (negb (user_exists signer d)) (DatabaseError "violates foreign key constraint");;
    let row := {| ds_id := dc_uuid (dc_ids d); ds_approvalId := approvalId; ds_signerUserId := signer;
                  ds_signedAt := dc_now d; ds_signatureNote := note |} in
    modify (λ d, DcDb (dc_approvals d) (dc_signatures d ++ [row]) (dc_orders d) (dc_users d) (dc_now d) (S (dc_ids d)));;
    mret true.

Definition approve (now : Z) (a : DualControlApproval) : DualControlApproval := {|
  da_id := da_id a; da_orderId := da_orderId a; da_requiredSignatures := da_requiredSignatures a;
  da_createdByUserId := da_createdByUserId a; da_status := approved; da_expiresAt := da_expiresAt a;
  da_createdAt := da_createdAt a; da_updatedAt := now |}.

(** The two updates when the quorum is reached. *)
Definition approve_order (i : nat) (a : DualControlApproval) (d : dcdb) : dcdb :=
  DcDb (<[i := approve (dc_now d) a]> (dc_approvals d)) (dc_signatures d)
    ((λ o, if String.eqb o.1 (da_orderId a) then (o.1, "approved") else o) <$> dc_orders d)
    (dc_users d) (dc_now d) (dc_ids d).

Definition signInTransaction (request : SignApprovalRequest) : M dcdb SignApprovalResult :=
  let signer := sa_signerUserId request in
  locked ← gets (approval_row (sa_approvalId request));
  row ← some_or_throw locked (ApprovalNotFoundError ("Approval " +:+ sa_approvalId request +:+ " not found"));
  let '(i, approval) := row in
  throw_if (negb (bool_decide (da_status approval = pending)))
    (ApprovalNotPendingError ("Approval " +:+ da_id approval +:+ " is " +:+ status_text (da_status approval) +:+
                              " and no longer accepts signatures"));;
  throw_if (String.eqb signer (da_createdByUserId approval))
    (SelfSignatureError ("User " +:+ signer +:+ " created approval " +:+ da_id approval +:+ " and cannot sign it"));;
  inserted ← insert_signature (da_id approval) signer (sa_note request);
  throw_if (negb inserted)
    (DuplicateSignatureError ("User " +:+ signer +:+ " has already signed approval " +:+ da_id approval));;
  count ← gets (λ d, Z.of_nat (length (signatures_of (da_id approval) d)));
  if count <? da_requiredSignatures approval then
    mret {| ar_approval := approval; ar_signatureCount := count; ar_quorumReached := false |}
  else
    modify (approve_order i approval);;
    now ← gets dc_now;
    mret {| ar_approval := approve now approval; ar_signatureCount := count; ar_quorumReached := true |}.

(** [BEGIN ... COMMIT], and [ROLLBACK] when the body throws. *)
Definition transaction {A} (c : M dcdb A) : M dcdb A := λ d,
  match c d with
  | (inl e, _) => (inl e, d)
  | (inr a, d') => (inr a, d')
  end.

Definition sign (request : SignApprovalRequest) : M dcdb SignApprovalResult := transaction (signInTransaction request).

(** [ORDER BY signed_at, id]; the order of the ids of signatures made at one instant
    is not fixed, rows are inserted in the order of time. *)
Definition getApproval (approvalId : string) : M dcdb (option (DualControlApproval * list DualControlSignature)) :=
  gets (λ d, match approval_row approvalId d with
             | None => None
             | Some r => Some (r.2, signatures_of approvalId d)
             end).
End service.

(** ** Correctness *)

Section correct.
Context `{DE : DualControlEnv}.
(** [gen_random_uuid()] does not repeat itself. *)
Hypothesis uuid_fresh : Inj (=) (=) dc_uuid.
Implicit Types d : dcdb.

(** The signers of an approval. *)
Definition signers (id : string) (d : dcdb) : list string := ds_signerUserId <$> signatures_of id d.

(** An approval and its signatures: distinct signers other than the creator; approved
    exactly when they are as many as required. *)
Record approval_ok (d : dcdb) (a : DualControlApproval) : Prop := {
  ao_required : 1 ≤ da_requiredSignatures a;
  ao_distinct : NoDup (signers (da_id a) d);
  ao_not_self : da_createdByUserId a ∉ signers (da_id a) d;
  ao_quorum : match da_status a with
              | pending => Z.of_nat (length (signers (da_id a) d)) < da_requiredSignatures a
              | approved => Z.of_nat (length (signers (da_id a) d)) = da_requiredSignatures a
              end
}.

Record dual_control_ok (d : dcdb) : Prop := {
  do_approvals : Forall (approval_ok d) (dc_approvals d);
  do_ids : NoDup (da_id <$> dc_approvals d);
  do_fresh : Forall (λ a, ∃ n, (n < dc_ids d)%nat ∧ da_id a = dc_uuid n) (dc_approvals d);
  do_refs : Forall (λ s, ds_approvalId s ∈ da_id <$> dc_approvals d) (dc_signatures d);
  (** an order is approved only by the quorum of one of its approvals *)
  do_orders : ∀ o, (o, "approved") ∈ dc_orders d → ∃ a, a ∈ dc_approvals d ∧ da_orderId a = o ∧ da_status a = approved
}.

(** What a signature that is accepted does: the row, the signature, the outcome. *)
Definition sign_effect (req : SignApprovalRequest) (d : dcdb) (r : SignApprovalResult) (d' : dcdb) : Prop :=
  ∃ i a s, approval_row (sa_approvalId req) d = Some (i, a) ∧ da_status a = pending ∧
    sa_signerUserId req ≠ da_createdByUserId a ∧ sa_signerUserId req ∉ signers (da_id a) d ∧
    ds_approvalId s = da_id a ∧ ds_signerUserId s = sa_signerUserId req ∧ ds_signatureNote s = sa_note req ∧
    ar_signatureCount r = Z.of_nat (length (signers (da_id a) d)) + 1 ∧
    let d1 := DcDb (dc_approvals d) (dc_signatures d ++ [s]) (dc_orders d) (dc_users d) (dc_now d) (S (dc_ids d)) in
    (ar_quorumReached r = false ∧ ar_signatureCount r < da_requiredSignatures a ∧ ar_approval r = a ∧ d' = d1 ∨
     ar_quorumReached r = true ∧ da_requiredSignatures a ≤ ar_signatureCount r ∧
     ar_approval r = approve (dc_now d) a ∧ d' = approve_order i a d1).

Lemma existsb_signer id u d :
  existsb (λ s, String.eqb (ds_approvalId s) id && String.eqb (ds_signerUserId s) u) (dc_signatures d) = false →
  u ∉ signers id d.
Proof.
  intros H Hin. unfold signers, signatures_of in Hin. apply list_elem_of_fmap in Hin as (s & -> & Hs).
  apply list_elem_of_In, filter_In in Hs as [Hs Hid].
  assert (existsb (λ s0, String.eqb (ds_approvalId s0) id && String.eqb (ds_signerUserId s0) (ds_signerUserId s)) (dc_signatures d) = true) as E;
    [| congruence].
  apply existsb_exists. exists s. split; [done |]. by rewrite Hid, String.eqb_refl.
Qed.

Lemma signatures_of_snoc id d s :
  signatures_of id (DcDb (dc_approvals d) (dc_signatures d ++ [s]) (dc_orders d) (dc_users d) (dc_now d) (S (dc_ids d))) =
  signatures_of id d ++ (if String.eqb (ds_approvalId s) id then [s] else []).
Proof. unfold signatures_of. simpl. rewrite List.filter_app. simpl. by destruct (String.eqb _ _). Qed.

Lemma sign_cases req d :
  (∃ e, sign req d = (inl e, d)) ∨ ∃ r d', sign req d = (inr r, d') ∧ sign_effect req d r d'.
Proof.
  unfold sign, transaction, signInTransaction. erewrite bind_run by done.
  destruct (approval_row (sa_approvalId req) d) as [[i a] |] eqn:Hrow; [| by left; eexists]. erewrite bind_run by done.
  destruct (decide (da_status a = pending)) as [Hst | Hst];
    [rewrite bool_decide_eq_true_2 by done | rewrite bool_decide_eq_false_2 by done; by left; eexists].
  erewrite bind_run by done. destruct (String.eqb_spec (sa_signerUserId req) (da_createdByUserId a)) as [Hself | Hself];
    [by left; eexists |]. erewrite bind_run by done.
  unfold insert_signature. rewrite bind_assoc_run. erewrite bind_run by done.
  destruct (existsb _ (dc_signatures (id d))) eqn:Hdup; [by left; eexists |]. apply existsb_signer in Hdup.
  destruct (user_exists (sa_signerUserId req) (id d)); [| by left; eexists].
  rewrite bind_assoc_run. erewrite bind_run by done. rewrite bind_assoc_run. erewrite bind_run by done.
  erewrite bind_run by done. erewrite bind_run by done. erewrite bind_run by done.
  set (s := {| ds_id := dc_uuid (dc_ids (id d)); ds_approvalId := da_id a; ds_signerUserId := sa_signerUserId req;
    ds_signedAt := dc_now (id d); ds_signatureNote := sa_note req |}).
  rewrite signatures_of_snoc. simpl. rewrite String.eqb_refl, length_app. simpl.
  assert (Hlen : Z.of_nat (length (signatures_of (da_id a) d) + 1) = Z.of_nat (length (signers (da_id a) d)) + 1).
  { unfold signers. rewrite length_fmap. lia. }
  right. destruct (Z.ltb_spec (Z.of_nat (length (signatures_of (da_id a) d) + 1)) (da_requiredSignatures a)) as [Hlt | Hge].
  - eexists _, _. split; [done |]. exists i, a, s. do 7 (split; [done |]). split; [done |]. left. done.
  - eexists _, _. split; [done |]. exists i, a, s. do 7 (split; [done |]). split; [done |]. right. done.
Qed.

Lemma signers_snoc id d s :
  signers id (DcDb (dc_approvals d) (dc_signatures d ++ [s]) (dc_orders d) (dc_users d) (dc_now d) (S (dc_ids d))) =
  signers id d ++ (if String.eqb (ds_approvalId s) id then [ds_signerUserId s] else []).
Proof. unfold signers. rewrite signatures_of_snoc, fmap_app. by destruct (String.eqb _ _). Qed.

Lemma approval_row_inv x d i a : approval_row x d = Some (i, a) → dc_approvals d !! i = Some a.
Proof. intros H. by apply find_row_lookup in H as [H _]. Qed.

Lemma approval_unique d i a b :
  NoDup (da_id <$> dc_approvals d) → dc_approvals d !! i = Some a → b ∈ dc_approvals d → da_id b = da_id a → b = a.
Proof.
  intros Hnd Ha [j Hb]%list_elem_of_lookup Hid.
  assert (j = i) as ->; [| congruence].
  eapply (NoDup_lookup (da_id <$> dc_approvals d)); [done | |]; rewrite list_lookup_fmap; [by rewrite Hb | by rewrite Ha, Hid].
Qed.

(** Signatures of other approvals do not matter. *)
Lemma approval_ok_other d d' b :
  signers (da_id b) d' = signers (da_id b) d → approval_ok d b → approval_ok d' b.
Proof. intros E [H1 H2 H3 H4]. split; rewrite ?E; done. Qed.

Definition with_signature (s : DualControlSignature) (d : dcdb) : dcdb :=
  DcDb (dc_approvals d) (dc_signatures d ++ [s]) (dc_orders d) (dc_users d) (dc_now d) (S (dc_ids d)).

(** A new signer of approval [a]: its signatures, and those of the other approvals. *)
Lemma signed_row d i a s :
  dual_control_ok d → dc_approvals d !! i = Some a → ds_approvalId s = da_id a →
  ds_signerUserId s ≠ da_createdByUserId a → ds_signerUserId s ∉ signers (da_id a) d →
  let d1 := with_signature s d in
  NoDup (signers (da_id a) d1) ∧ da_createdByUserId a ∉ signers (da_id a) d1 ∧
  length (signers (da_id a) d1) = S (length (signers (da_id a) d)) ∧
  (∀ b, b ∈ dc_approvals d → b ≠ a → approval_ok d1 b) ∧
  Forall (λ s, ds_approvalId s ∈ da_id <$> dc_approvals d) (dc_signatures d1).
Proof.
  intros [Happ Hids _ Hrefs _] Ha Hsa Hself Hnew d1. pose proof (list_elem_of_lookup_2 _ _ _ Ha) as Hin.
  rewrite Forall_forall in Happ. pose proof (Happ a Hin) as Haok.
  assert (Hmine : signers (da_id a) d1 = signers (da_id a) d ++ [ds_signerUserId s]).
  { unfold d1, with_signature. by rewrite signers_snoc, Hsa, String.eqb_refl. }
  rewrite Hmine. split; [| split; [| split; [| split]]].
  - apply NoDup_app. split; [apply Haok |]. split; [| apply NoDup_singleton]. by intros x Hx ->%list_elem_of_singleton.
  - rewrite elem_of_app, list_elem_of_singleton. intros [H | H]; [by apply Haok in H | congruence].
  - rewrite length_app. simpl. lia.
  - intros b Hb Hne. apply (approval_ok_other d); [| auto]. unfold d1, with_signature. rewrite signers_snoc, Hsa.
    destruct (String.eqb_spec (da_id a) (da_id b)) as [E |]; [| by rewrite app_nil_r].
    exfalso. apply Hne. by apply (approval_unique d i).
  - apply Forall_app. split; [done |]. constructor; [| done]. rewrite Hsa. by apply list_elem_of_fmap_2.
Qed.

Lemma fresh_more d n : (dc_ids d ≤ n)%nat →
  Forall (λ a, ∃ k, (k < dc_ids d)%nat ∧ da_id a = dc_uuid k) (dc_approvals d) →
  Forall (λ a, ∃ k, (k < n)%nat ∧ da_id a = dc_uuid k) (dc_approvals d).
Proof. intros Hn H. eapply Forall_impl; [exact H |]. simpl. intros b (k & ? & ?). exists k. split; [lia | done]. Qed.

(** Approving a row that reached its quorum. *)
Lemma approve_keeps d i a :
  let d' := approve_order i a d in
  dc_approvals d !! i = Some a → NoDup (da_id <$> dc_approvals d) → approval_ok d (approve (dc_now d) a) →
  (∀ b, b ∈ dc_approvals d → b ≠ a → approval_ok d b) →
  Forall (λ a, ∃ n, (n < dc_ids d)%nat ∧ da_id a = dc_uuid n) (dc_approvals d) →
  Forall (λ s, ds_approvalId s ∈ da_id <$> dc_approvals d) (dc_signatures d) →
  (∀ o, (o, "approved") ∈ dc_orders d → ∃ a, a ∈ dc_approvals d ∧ da_orderId a = o ∧ da_status a = approved) →
  da_status a = pending → dual_control_ok d'.
Proof.
  intros d' Ha Hids Hok Hothers Hfresh Hrefs Hord Hst.
  assert (Hids' : da_id <$> dc_approvals d' = da_id <$> dc_approvals d).
  { simpl. rewrite list_fmap_insert. simpl. apply list_insert_id. by rewrite list_lookup_fmap, Ha. }
  assert (Hlook : ∀ b, b ∈ dc_approvals d' → b = approve (dc_now d) a ∨ (b ∈ dc_approvals d ∧ b ≠ a)).
  { intros b [j Hj]%list_elem_of_lookup. simpl in Hj. apply list_lookup_insert_Some in Hj as [(_ & <- & _) | [Hne Hj]]; [by left |].
    right. split; [by apply list_elem_of_lookup_2 in Hj |]. intros ->. apply Hne.
    eapply (NoDup_lookup (da_id <$> dc_approvals d)); [done | |]; rewrite list_lookup_fmap; [by rewrite Ha | by rewrite Hj]. }
  split; rewrite ?Hids'; [| done | | done |].
  - apply Forall_forall. intros b Hb. apply (approval_ok_other d); [done |].
    apply Hlook in Hb as [-> | [Hb Hne]]; [done | by apply Hothers].
  - apply Forall_forall. intros b Hb. rewrite Forall_forall in Hfresh.
    apply Hlook in Hb as [-> | [Hb _]]; [apply (Hfresh a); by eapply list_elem_of_lookup_2 | by apply Hfresh].
  - intros o Ho. simpl in Ho. apply list_elem_of_fmap in Ho as ([o' st'] & Hst' & Ho). simpl in Hst'.
    destruct (String.eqb_spec o' (da_orderId a)) as [-> |]; simplify_eq.
    + exists (approve (dc_now d) a). split; [| done]. apply list_elem_of_lookup. exists i.
      apply list_lookup_insert_eq. by eapply lookup_lt_Some.
    + destruct (Hord _ Ho) as (b & Hb & Hbo & Hbs). exists b. split; [| done]. apply list_elem_of_lookup in Hb as [j Hj].
      apply list_elem_of_lookup. exists j. simpl. rewrite list_lookup_insert_ne; [done |]. intros <-. congruence.
Qed.

Lemma sign_keeps req : evolves (keeps dual_control_ok) (sign req).
Proof.
  intros d. destruct (sign_cases req d)
    as [[e ->] | (r & d' & -> & (i & a & s & Hrow & Hst & Hself & Hnew & Hsa & Hss & _ & Hcnt & Hd'))]; [done |].
  intros Hok. simpl. apply approval_row_inv in Hrow as Ha. rewrite <-Hss in Hself, Hnew.
  destruct (signed_row d i a s Hok Ha Hsa Hself Hnew) as (Hnd & Hns & Hlen & Hothers & Hrefs).
  destruct Hok as [Happ Hids Hfresh _ Hord]. rewrite Forall_forall in Happ.
  pose proof (Happ a (list_elem_of_lookup_2 _ _ _ Ha)) as [Hreq _ _ Hq]. rewrite Hst in Hq.
  destruct Hd' as [(_ & Hlt & _ & ->) | (_ & Hge & _ & ->)]; change (DcDb _ _ _ _ _ _) with (with_signature s d).
  - split; [| done | by apply (fresh_more d); [simpl; lia |] | done | done].
    apply Forall_forall. intros b Hb. destruct (decide (da_id b = da_id a)) as [E | Hne].
    + rewrite (approval_unique d i a b) by done. split; [done | done | done |]. rewrite Hst, Hlen. lia.
    + apply Hothers; [done | congruence].
  - apply (approve_keeps (with_signature s d) i a); try done; [split; try done; simpl; rewrite Hlen; lia |].
    apply (fresh_more d); [simpl; lia | done].
Qed.

Lemma create_keeps req : evolves (keeps dual_control_ok) (createApproval req).
Proof.
  intros d. unfold createApproval, insert_approval.
  destruct (default (Int 2) (ca_requiredSignatures req)) as [n |]; [| done].
  destruct (Z.ltb_spec n 1) as [Hn | Hn]; [done |]. erewrite bind_run by done. erewrite bind_run by done.
  destruct (2 ^ 31 - 1 <? n); [done |]. erewrite bind_run by done. erewrite bind_run by done.
  destruct (negb _); [done |]. erewrite bind_run by done. erewrite bind_run by done. erewrite bind_run by done.
  intros [Happ Hids Hfresh Hrefs Hord]. simpl.
  assert (Hnew : dc_uuid (dc_ids d) ∉ da_id <$> dc_approvals d).
  { intros (b & Hb & Hin)%list_elem_of_fmap. rewrite Forall_forall in Hfresh. destruct (Hfresh b Hin) as (k & Hk & E).
    rewrite E in Hb. apply uuid_fresh in Hb. lia. }
  assert (Hnone : ∀ ds, dc_signatures ds = dc_signatures d → signers (dc_uuid (dc_ids d)) ds = []).
  { intros ds E. unfold signers, signatures_of. rewrite E. clear E.
    induction Hrefs as [| s l Hs _ IH]; [done |]. simpl. destruct (String.eqb_spec (ds_approvalId s) (dc_uuid (dc_ids d))); [congruence | done]. }
  split; simpl; rewrite ?fmap_app; simpl.
  - apply Forall_app. split; [eapply Forall_impl; [exact Happ |]; intros b Hb; by apply (approval_ok_other d) |].
    constructor; [| done]. split; simpl; rewrite ?Hnone by done; [done | constructor | set_solver | simpl; lia].
  - apply NoDup_app. split; [done |]. split; [by intros x Hx ->%list_elem_of_singleton | apply NoDup_singleton].
  - apply Forall_app. split; [by apply (fresh_more d); [lia |] |]. constructor; [| done]. simpl. exists (dc_ids d). split; [lia | done].
  - eapply Forall_impl; [exact Hrefs |]. simpl. intros s Hs. apply elem_of_app. by left.
  - intros o Ho. destruct (Hord o Ho) as (a & Ha & Ho' & Hs). exists a. split; [apply elem_of_app; by left | done].
Qed.

(** Calls of the service, new users and orders, order statuses other services write,
    and the passing of time. *)
Inductive dc_op :=
| DcCreate (r : CreateApprovalRequest) | DcSign (r : SignApprovalRequest) | DcUser (id : string)
| DcOrder (id : string) | DcCancel (id : string) | DcTick (ms : N).

Definition dc_step (d : dcdb) (o : dc_op) : dcdb :=
  match o with
  | DcCreate r => (createApproval r d).2
  | DcSign r => (sign r d).2
  | DcUser id => DcDb (dc_approvals d) (dc_signatures d) (dc_orders d) (dc_users d ++ [id]) (dc_now d) (dc_ids d)
  | DcOrder id => DcDb (dc_approvals d) (dc_signatures d) (dc_orders d ++ [(id, "pending")]) (dc_users d) (dc_now d) (dc_ids d)
  | DcCancel id =>
      DcDb (dc_approvals d) (dc_signatures d)
        ((λ o, if String.eqb o.1 id then (o.1, "cancelled") else o) <$> dc_orders d) (dc_users d) (dc_now d) (dc_ids d)
  | DcTick ms => DcDb (dc_approvals d) (dc_signatures d) (dc_orders d) (dc_users d) (dc_now d + Z.of_N ms) (dc_ids d)
  end.

Lemma same_approvals_ok d d' :
  dc_approvals d' = dc_approvals d → dc_signatures d' = dc_signatures d → dc_ids d' = dc_ids d →
  (∀ o, (o, "approved") ∈ dc_orders d' → (o, "approved") ∈ dc_orders d) → dual_control_ok d → dual_control_ok d'.
Proof.
  intros Ea Es En Ho [H1 H2 H3 H4 H5]. split; rewrite ?Ea, ?Es, ?En; [| done | done | done | by auto].
  eapply Forall_impl; [exact H1 |]. intros b. apply approval_ok_other. unfold signers, signatures_of. by rewrite Es.
Qed.

Lemma dc_step_keeps d o : dual_control_ok d → dual_control_ok (dc_step d o).
Proof.
  destruct o as [r | r | id | id | id | ms]; simpl; [apply create_keeps | apply sign_keeps | ..];
    apply same_approvals_ok; try done; simpl; intros o.
  - rewrite elem_of_app. intros [H | H]; [done |]. by apply list_elem_of_singleton in H.
  - intros ([o' st] & E & H)%list_elem_of_fmap. simpl in E. destruct (String.eqb o' id); by simplify_eq.
Qed.

(** Dual control: from empty tables, whatever calls, cancellations and delays
    follow, the signers of an approval are distinct and none of them created it, an
    approval is approved exactly when it has the required number of signatures, and an
    order is approved only if one of its approvals is. *)
Theorem dual_control_invariant ops now : dual_control_ok (foldl dc_step (DcDb [] [] [] [] now 0) ops).
Proof.
  assert (Hinit : dual_control_ok (DcDb [] [] [] [] now 0)).
  { split; simpl; try constructor. intros o H. by apply elem_of_nil in H. }
  revert Hinit. generalize (DcDb [] [] [] [] now 0). induction ops as [| o ops IH]; intros d H; [done |].
  simpl. apply IH. by apply dc_step_keeps.
Qed.

(** A signature either throws and leaves the database as it was, or belongs to a
    pending approval, comes from a user who neither created nor signed it, adds one
    row, and approves the approval and its order exactly when the count reaches the
    required number. *)
Theorem sign_exact req d :
  (∃ e, sign req d = (inl e, d)) ∨ ∃ r d', sign req d = (inr r, d') ∧ sign_effect req d r d'.
Proof. apply sign_cases. Qed.
End correct.

(** ** A concrete approval *)

Definition dc_demo_env : DualControlEnv := {| dc_uuid := λ n, dec (Z.of_nat n) |}.

Lemma dc_demo_fresh : Inj (=) (=) (dc_uuid (DualControlEnv := dc_demo_env)).
Proof. intros n m H. simpl in H. apply dec_inj in H. lia. Qed.

Definition dc_demo_ops : list dc_op :=
  [DcUser "alice"; DcUser "bob"; DcUser "carol"; DcOrder "o1";
   DcCreate {| ca_orderId := "o1"; ca_createdByUserId := "alice"; ca_requiredSignatures := None; ca_expiresAt := None |};
   DcSign {| sa_approvalId := "0"; sa_signerUserId := "alice"; sa_note := None |};
   DcSign {| sa_approvalId := "0"; sa_signerUserId := "bob"; sa_note := None |};
   DcSign {| sa_approvalId := "0"; sa_signerUserId := "bob"; sa_note := None |}].

Lemma dual_control_invariant_witness :
  let d := foldl (dc_step (DE := dc_demo_env)) (DcDb [] [] [] [] 0 0) dc_demo_ops in
  dual_control_ok (DE := dc_demo_env) d ∧ signers "0" d = ["bob"].
Proof. split; [apply (dual_control_invariant dc_demo_fresh) | by vm_compute]. Defined.

(** The expiry date is stored and never consulted: a signature long after it still
    completes the quorum, and approves an order that has been cancelled meanwhile. *)
Theorem expired_approval_accepted :
  let d := foldl (dc_step (DE := dc_demo_env)) (DcDb [] [] [] [] 0 0) (dc_demo_ops ++ [DcCancel "o1"; DcTick 864000000]) in
  let out := sign (DE := dc_demo_env) {| sa_approvalId := "0"; sa_signerUserId := "carol"; sa_note := None |} d in
  (∃ a, dc_approvals d = [a] ∧ da_expiresAt a = Some 86400000 ∧ dc_now d = 864000000) ∧
  (∃ r, out.1 = inr r ∧ ar_quorumReached r = true) ∧
  dc_orders d = [("o1", "cancelled")] ∧ dc_orders out.2 = [("o1", "approved")].
Proof. vm_compute. split; [by eexists |]. split; [by eexists | done]. Qed.
