(* ===== verification/Recovery.v ===== *)
(** * Guardian recovery (apps/backend/wallet/src/recovery/guardianRecovery.ts, types.ts)

    Guardians, recovery requests and their approvals.  The tables are lists of rows
    and an instance returned by a lookup is the position of its row; the flag and the
    rate-limit map are module variables.  Random codes and keys, the cipher and the
    HMAC are parameters. *)
From stdpp Require Import sorting.
From S2P Require Import Prelude JsLib.
Local Open Scope Z_scope.

(** ** types.ts, models.ts *)

Inductive GuardianType := email | phone | wallet.

Inductive RecoveryStatus := pending | approved | rejected | expired | completed.
#[export] Instance RecoveryStatus_eq_dec : EqDecision RecoveryStatus.
Proof. solve_decision. Defined.

Definition recovery_status_name (s : RecoveryStatus) : string :=
  match s with
  | pending => "pending" | approved => "approved" | rejected => "rejected" | expired => "expired" | completed => "completed"
  end.

Definition GuardianType_of (s : string) : option GuardianType :=
  if String.eqb s "email" then Some email
  else if String.eqb s "phone" then Some phone
  else if String.eqb s "wallet" then Some wallet else None.

(** A guardian with the columns of its row. *)
Record Guardian := {
  gu_id : string; gu_walletAddress : string; gu_type : GuardianType; gu_identifier : string;
  gu_identifierEncrypted : string; gu_verified : bool; gu_verificationCode : option string;
  gu_verificationExpiresAt : option Z; gu_addedAt : Z
}.

Record RecoveryApproval := { ra_guardianId : string; ra_approvedAt : Z; ra_signature : string }.

Record RecoveryRequest := {
  rr_id : string; rr_walletAddress : string; rr_initiatedBy : string; rr_requestedAt : Z; rr_expiresAt : Z;
  rr_status : RecoveryStatus; rr_approvals : list RecoveryApproval; rr_requiredApprovals : Z
}.

Record RecoveryResult := { re_walletAddress : string; re_newMasterKey : string; re_recoveryKey : string; re_completedAt : Z }.

Record AddGuardianRequest := { ag_walletAddress : string; ag_type : string; ag_identifier : string }.
Record InitiateRecoveryRequest := { ir_walletAddress : string; ir_initiatedBy : string; ir_requiredApprovals : option Z }.
Record ApproveRecoveryRequest := { ap_guardianId : string; ap_signature : string }.

Record RecoveryAudit := { ra_walletAddress : string; ra_eventType : string }.

(** ** State *)

Record recdb := RecDb {
  rc_guardians : list Guardian; rc_requests : list RecoveryRequest; rc_audit : list RecoveryAudit;
  rc_enabled : bool; rc_attempts : jsmap Z; rc_now : Z; rc_ids : nat
}.

Class RecoveryEnv := {
  rc_uuid : nat → string;
  (** the eight hexadecimal digits of a fresh code *)
  random_code : nat → string;
  (** [encryptIdentifier]: AES-256-GCM under a key derived from the master secret *)
  encrypt : nat → string → string;
  random_key : nat → string;
  (** [createHmac("sha256", MASTER_SECRET)] *)
  hmac : string → string
}.

Definition set_guardians (l : list Guardian) (d : recdb) : recdb :=
  RecDb l (rc_requests d) (rc_audit d) (rc_enabled d) (rc_attempts d) (rc_now d) (rc_ids d).
Definition set_requests (l : list RecoveryRequest) (d : recdb) : recdb :=
  RecDb (rc_guardians d) l (rc_audit d) (rc_enabled d) (rc_attempts d) (rc_now d) (rc_ids d).
Definition set_enabled (b : bool) (d : recdb) : recdb :=
  RecDb (rc_guardians d) (rc_requests d) (rc_audit d) b (rc_attempts d) (rc_now d) (rc_ids d).
Definition set_attempts (m : jsmap Z) (d : recdb) : recdb :=
  RecDb (rc_guardians d) (rc_requests d) (rc_audit d) (rc_enabled d) m (rc_now d) (rc_ids d).
Definition next_id (d : recdb) : recdb :=
  RecDb (rc_guardians d) (rc_requests d) (rc_audit d) (rc_enabled d) (rc_attempts d) (rc_now d) (S (rc_ids d)).

Section service.
Context `{RE : RecoveryEnv}.

Definition audit (walletAddress eventType : string) : M recdb () :=
  modify (λ d, RecDb (rc_guardians d) (rc_requests d)
    (rc_audit d ++ [{| ra_walletAddress := walletAddress; ra_eventType := eventType |}])
    (rc_enabled d) (rc_attempts d) (rc_now d) (rc_ids d)).

(** ** Flag and rate limit *)

Definition disableRecovery : M recdb () := modify (set_enabled false).
Definition enableRecovery : M recdb () := modify (set_enabled true).
Definition isRecoveryEnabled : M recdb bool := gets rc_enabled.

Definition RATE_LIMIT_DAYS : Z := 30.
Definition msDay : Z := 1000 * 60 * 60 * 24.

Definition isRateLimited (walletAddress : string) (d : recdb) : bool :=
  match jget walletAddress (rc_attempts d) with
  | None => false
  | Some last => rc_now d - last <? RATE_LIMIT_DAYS * msDay
  end.

(** ** Recovery key *)

Definition string_le (a b : string) : Prop := String.leb a b = true.
#[global] Instance string_le_dec a b : Decision (string_le a b).
Proof. unfold string_le. apply _. Defined.

(** [signatures.sort().join("|")] under the HMAC *)
Definition deriveRecoveryKey (signatures : list string) : string := hmac (join "|" (merge_sort string_le signatures)).

(** ** Guardians *)

Definition VERIFICATION_EXPIRY_MINUTES : Z := 30.

Definition find_guardian (id : string) : M recdb (nat * Guardian) :=
  r ← gets (λ d, find_row (λ g, String.eqb (gu_id g) id) (rc_guardians d));
  some_or_throw r (Error ("Guardian not found: " +:+ id)).

Definition addGuardian (req : AddGuardianRequest) : M recdb Guardian :=
  throw_if (String.eqb (ag_walletAddress req) "" || String.eqb (ag_identifier req) "")
    (Error "walletAddress and identifier are required");;
  type ← some_or_throw (GuardianType_of (ag_type req)) (Error ("Invalid guardian type: " +:+ ag_type req));
  d ← gets id;
  let guardian := {|
    gu_id := rc_uuid (rc_ids d); gu_walletAddress := ag_walletAddress req; gu_type := type;
    gu_identifier := ag_identifier req; gu_identifierEncrypted := encrypt (rc_ids d) (ag_identifier req);
    gu_verified := false; gu_verificationCode := Some (toUpperCase (random_code (rc_ids d)));
    gu_verificationExpiresAt := Some (rc_now d + VERIFICATION_EXPIRY_MINUTES * 60 * 1000); gu_addedAt := rc_now d |} in
  modify (λ d, next_id (set_guardians (rc_guardians d ++ [guardian]) d));;
  audit (ag_walletAddress req) "GUARDIAN_ADDED";;
  mret guardian.

Definition verify (g : Guardian) : Guardian := {|
  gu_id := gu_id g; gu_walletAddress := gu_walletAddress g; gu_type := gu_type g; gu_identifier := gu_identifier g;
  gu_identifierEncrypted := gu_identifierEncrypted g; gu_verified := true; gu_verificationCode := None;
  gu_verificationExpiresAt := None; gu_addedAt := gu_addedAt g |}.

Definition verifyGuardian (guardianId code : string) : M recdb Guardian :=
  row ← find_guardian guardianId;
  let '(i, guardian) := row in
  throw_if (gu_verified guardian) (Error "Guardian is already verified");;
  throw_if (negb (truthy (gu_verificationCode guardian)) ||
            negb (bool_decide (gu_verificationCode guardian = Some (toUpperCase code))))
    (Error "Invalid verification code");;
  now ← gets rc_now;
  throw_if (match gu_verificationExpiresAt guardian with Some t => t <? now | None => false end)
    (Error "Verification code has expired");;
  modify (λ d, set_guardians (<[i := verify guardian]> (rc_guardians d)) d);;
  audit (gu_walletAddress guardian) "GUARDIAN_VERIFIED";;
  mret (verify guardian).

Definition removeGuardian (guardianId : string) : M recdb () :=
  row ← find_guardian guardianId;
  modify (λ d, set_guardians (delete row.1 (rc_guardians d)) d);;
  audit (gu_walletAddress row.2) "GUARDIAN_REMOVED".

Definition listGuardians (walletAddress : string) : M recdb (list Guardian) :=
  gets (λ d, List.filter (λ g, String.eqb (gu_walletAddress g) walletAddress) (rc_guardians d)).

(** ** Recovery *)

Definition DEFAULT_REQUIRED_APPROVALS : Z := 3.
Definition RECOVERY_LOCK_DAYS : Z := 7.

Definition initiateRecovery (req : InitiateRecoveryRequest) : M recdb RecoveryRequest :=
  enabled ← gets rc_enabled;
  throw_if (negb enabled) (Error "Social recovery is currently disabled");;
  let walletAddress := ir_walletAddress req in
  limited ← gets (isRateLimited walletAddress);
  throw_if limited (Error "Recovery rate limit exceeded: maximum 1 attempt per 30 days");;
  existing ← gets (λ d, List.find (λ r, String.eqb (rr_walletAddress r) walletAddress && bool_decide (rr_status r = pending))
                          (rc_requests d));
  match existing with
  | Some r => throw (Error ("A pending recovery request already exists for " +:+ walletAddress +:+ " (id: " +:+ rr_id r +:+ ")"))
  | None =>
      d ← gets id;
      let request := {|
        rr_id := rc_uuid (rc_ids d); rr_walletAddress := walletAddress; rr_initiatedBy := ir_initiatedBy req;
        rr_requestedAt := rc_now d; rr_expiresAt := rc_now d + RECOVERY_LOCK_DAYS * 24 * 60 * 60 * 1000;
        rr_status := pending; rr_approvals := [];
        rr_requiredApprovals := default DEFAULT_REQUIRED_APPROVALS (ir_requiredApprovals req) |} in
      modify (λ d, next_id (set_requests (rc_requests d ++ [request]) d));;
      modify (λ d, set_attempts (jset walletAddress (rc_now d) (rc_attempts d)) d);;
      audit walletAddress "RECOVERY_INITIATED";;
      mret request
  end.

Definition with_state (s : RecoveryStatus) (l : list RecoveryApproval) (r : RecoveryRequest) : RecoveryRequest := {|
  rr_id := rr_id r; rr_walletAddress := rr_walletAddress r; rr_initiatedBy := rr_initiatedBy r;
  rr_requestedAt := rr_requestedAt r; rr_expiresAt := rr_expiresAt r; rr_status := s; rr_approvals := l;
  rr_requiredApprovals := rr_requiredApprovals r |}.

Definition find_request (id : string) : M recdb (nat * RecoveryRequest) :=
  r ← gets (λ d, find_row (λ r, String.eqb (rr_id r) id) (rc_requests d));
  some_or_throw r (Error ("Recovery request not found: " +:+ id)).

Definition completeRecovery (i : nat) (request : RecoveryRequest) (signatures : list string) : M recdb RecoveryResult :=
  let recoveryKey := deriveRecoveryKey signatures in
  n ← gets rc_ids;
  let newMasterKeyEncrypted := encrypt n (random_key n) in
  modify (λ d, next_id (set_requests (<[i := with_state completed (rr_approvals request) request]> (rc_requests d)) d));;
  audit (rr_walletAddress request) "RECOVERY_COMPLETED";;
  now ← gets rc_now;
  mret {| re_walletAddress := rr_walletAddress request; re_newMasterKey := newMasterKeyEncrypted;
          re_recoveryKey := recoveryKey; re_completedAt := now |}.

Definition approveRecovery (recoveryRequestId : string) (req : ApproveRecoveryRequest)
    : M recdb (RecoveryRequest + RecoveryResult) :=
  row ← find_request recoveryRequestId;
  let '(i, request) := row in
  throw_if (negb (bool_decide (rr_status request = pending)))
    (Error ("Recovery request is not pending (status: " +:+ recovery_status_name (rr_status request) +:+ ")"));;
  now ← gets rc_now;
  (if rr_expiresAt request <=? now then
     modify (λ d, set_requests (<[i := with_state expired (rr_approvals request) request]> (rc_requests d)) d);;
     audit (rr_walletAddress request) "RECOVERY_EXPIRED";;
     throw (Error "Recovery request has expired")
   else mret ());;
  grow ← find_guardian (ap_guardianId req);
  let guardian := grow.2 in
  throw_if (negb (gu_verified guardian)) (Error ("Guardian " +:+ ap_guardianId req +:+ " is not verified"));;
  throw_if (negb (String.eqb (gu_walletAddress guardian) (rr_walletAddress request)))
    (Error "Guardian does not belong to this wallet");;
  throw_if (existsb (λ a, String.eqb (ra_guardianId a) (ap_guardianId req)) (rr_approvals request))
    (Error "Guardian has already approved this recovery request");;
  let updatedApprovals := rr_approvals request ++
    [{| ra_guardianId := ap_guardianId req; ra_approvedAt := now; ra_signature := ap_signature req |}] in
  let updated := with_state pending updatedApprovals request in
  modify (λ d, set_requests (<[i := updated]> (rc_requests d)) d);;
  audit (rr_walletAddress request) "RECOVERY_APPROVED";;
  if rr_requiredApprovals request <=? Z.of_nat (length updatedApprovals) then
    result ← completeRecovery i updated (ra_signature <$> updatedApprovals);
    mret (inr result)
  else mret (inl updated).

Definition getRecoveryRequest (recoveryRequestId : string) : M recdb RecoveryRequest :=
  row ← find_request recoveryRequestId; mret row.2.
End service.
