(* ===== verification/RecoveryCorrect.v ===== *)
(** * What guardian recovery guarantees

    An approval counts once per verified guardian of the wallet and completes the
    recovery at the quorum; over any history of calls the requests keep that quorum,
    and one wallet is recovered at most once in thirty days. *)
From stdpp Require Import sorting.
From S2P Require Import Prelude JsLib Recovery.
Local Open Scope Z_scope.

(** ** The recovery key *)

Lemma leb_cons a s b t :
  String.leb (String a s) (String b t) = match Ascii.compare a b with Lt => true | Eq => String.leb s t | Gt => false end.
Proof. unfold String.leb. simpl. by destruct (Ascii.compare a b). Qed.

#[local] Instance string_le_trans : Transitive string_le.
Proof.
  intros s. unfold string_le. induction s as [| a s IH]; intros [| b t] [| c u]; try done.
  rewrite !leb_cons. unfold Ascii.compare. destruct (N.compare_spec (N_of_ascii a) (N_of_ascii b));
    destruct (N.compare_spec (N_of_ascii b) (N_of_ascii c)); destruct (N.compare_spec (N_of_ascii a) (N_of_ascii c));
    try done; try lia. apply IH.
Qed.

#[local] Instance string_le_total : Total string_le.
Proof. intros s t. unfold string_le. destruct (String.leb_total s t); auto. Qed.

#[local] Instance string_le_anti : AntiSymm (=) string_le.
Proof. intros s t. apply String.leb_antisym. Qed.

Section correct.
Context `{RE : RecoveryEnv}.
Implicit Types d : recdb.

Lemma key_order l l' : l ≡ₚ l' → deriveRecoveryKey l = deriveRecoveryKey l'.
Proof.
  intros H. unfold deriveRecoveryKey. do 2 f_equal.
  apply (Sorted_unique string_le); [apply Sorted_merge_sort, _ .. |]. by rewrite !merge_sort_Permutation.
Qed.

(** ** One approval *)

(** The rows of the database, less the audit log and the counter of identifiers. *)
Definition same_rest d d' : Prop :=
  rc_guardians d' = rc_guardians d ∧ rc_enabled d' = rc_enabled d ∧ rc_attempts d' = rc_attempts d ∧ rc_now d' = rc_now d.

Definition approved_by (req : ApproveRecoveryRequest) (now : Z) (r : RecoveryRequest) : list RecoveryApproval :=
  rr_approvals r ++ [{| ra_guardianId := ap_guardianId req; ra_approvedAt := now; ra_signature := ap_signature req |}].

(** What an accepted approval found, and what it did. *)
Definition approve_effect (id : string) (req : ApproveRecoveryRequest) d (out : RecoveryRequest + RecoveryResult) d' : Prop :=
  ∃ i r j g,
    find_row (λ r, String.eqb (rr_id r) id) (rc_requests d) = Some (i, r) ∧ rr_status r = pending ∧ rc_now d < rr_expiresAt r ∧
    find_row (λ g, String.eqb (gu_id g) (ap_guardianId req)) (rc_guardians d) = Some (j, g) ∧ gu_verified g = true ∧
    gu_walletAddress g = rr_walletAddress r ∧ (ap_guardianId req ∉ ra_guardianId <$> rr_approvals r)%stdpp ∧
    same_rest d d' ∧
    let l := approved_by req (rc_now d) r in
    (Z.of_nat (length l) < rr_requiredApprovals r ∧ out = inl (with_state pending l r) ∧
     rc_requests d' = <[i := with_state pending l r]> (rc_requests d) ∨
     rr_requiredApprovals r ≤ Z.of_nat (length l) ∧
     (∃ res, out = inr res ∧ re_walletAddress res = rr_walletAddress r ∧
             re_recoveryKey res = deriveRecoveryKey (ra_signature <$> l)) ∧
     rc_requests d' = <[i := with_state completed l r]> (rc_requests d)).

(** An approval of a request past its expiry. *)
Definition expire_effect (id : string) d d' : Prop :=
  ∃ i r, find_row (λ r, String.eqb (rr_id r) id) (rc_requests d) = Some (i, r) ∧ rr_status r = pending ∧
    rr_expiresAt r ≤ rc_now d ∧ same_rest d d' ∧
    rc_requests d' = <[i := with_state expired (rr_approvals r) r]> (rc_requests d).

Lemma existsb_guardian g l :
  existsb (λ a, String.eqb (ra_guardianId a) g) l = false → (g ∉ ra_guardianId <$> l)%stdpp.
Proof.
  intros H (a & -> & Ha)%list_elem_of_fmap. apply list_elem_of_In in Ha.
  assert (existsb (λ b, String.eqb (ra_guardianId b) (ra_guardianId a)) l = true); [| congruence].
  apply existsb_exists. exists a. split; [done | apply String.eqb_refl].
Qed.

Lemma approve_cases id req d :
  (∃ e, approveRecovery id req d = (inl e, d)) ∨
  (∃ d', approveRecovery id req d = (inl (Error "Recovery request has expired"), d') ∧ expire_effect id d d') ∨
  ∃ out d', approveRecovery id req d = (inr out, d') ∧ approve_effect id req d out d'.
Proof.
  unfold approveRecovery, find_request, find_guardian. rewrite bind_assoc_run. erewrite bind_run by done.
  destruct (find_row _ (rc_requests d)) as [[i r] |] eqn:Hr; [| by left; eexists]. erewrite bind_run by done.
  destruct (decide (rr_status r = pending)) as [Hst | Hst];
    [rewrite bool_decide_eq_true_2 by done | rewrite bool_decide_eq_false_2 by done; by left; eexists].
  erewrite bind_run by done. erewrite bind_run by done.
  destruct (Z.leb_spec (rr_expiresAt r) (rc_now d)) as [He | He].
  { right. left. eexists. split; [done |]. exists i, r. by do 3 (split; [done |]). }
  erewrite bind_run by done. rewrite bind_assoc_run. erewrite bind_run by done.
  destruct (find_row _ (rc_guardians d)) as [[j g] |] eqn:Hg; [| by left; eexists]. erewrite bind_run by done. simpl.
  destruct (gu_verified g) eqn:Hv; [| by left; eexists]. erewrite bind_run by done.
  destruct (String.eqb_spec (gu_walletAddress g) (rr_walletAddress r)) as [Hw |]; [| by left; eexists]. erewrite bind_run by done.
  destruct (existsb _ (rr_approvals r)) eqn:Hdup; [by left; eexists |]. apply existsb_guardian in Hdup. erewrite bind_run by done.
  fold (approved_by req (rc_now d) r). erewrite bind_run by done. erewrite bind_run by done. right. right.
  destruct (Z.leb_spec (rr_requiredApprovals r) (Z.of_nat (length (approved_by req (rc_now d) r)))) as [Hq | Hq].
  - eexists _, _. split; [done |]. exists i, r, j, g. do 7 (split; [done |]). split; [done |]. right. split; [done |].
    split; [by eexists |]. simpl. by rewrite list_insert_insert_eq.
  - eexists _, _. split; [done |]. exists i, r, j, g. do 7 (split; [done |]). split; [done |]. by left.
Qed.

(** ** One initiation *)

Definition new_request (req : InitiateRecoveryRequest) d : RecoveryRequest := {|
  rr_id := rc_uuid (rc_ids d); rr_walletAddress := ir_walletAddress req; rr_initiatedBy := ir_initiatedBy req;
  rr_requestedAt := rc_now d; rr_expiresAt := rc_now d + RECOVERY_LOCK_DAYS * msDay;
  rr_status := pending; rr_approvals := [];
  rr_requiredApprovals := default DEFAULT_REQUIRED_APPROVALS (ir_requiredApprovals req) |}.

Definition initiate_effect (req : InitiateRecoveryRequest) d d' : Prop :=
  rc_enabled d = true ∧ isRateLimited (ir_walletAddress req) d = false ∧
  (∀ r, r ∈ rc_requests d → rr_walletAddress r = ir_walletAddress req → rr_status r ≠ pending) ∧
  rc_requests d' = rc_requests d ++ [new_request req d] ∧ rc_guardians d' = rc_guardians d ∧
  rc_attempts d' = jset (ir_walletAddress req) (rc_now d) (rc_attempts d) ∧ rc_now d' = rc_now d.

Lemma initiate_cases req d :
  (∃ e, initiateRecovery req d = (inl e, d)) ∨
  ∃ d', initiateRecovery req d = (inr (new_request req d), d') ∧ initiate_effect req d d'.
Proof.
  unfold initiateRecovery. erewrite bind_run by done. destruct (rc_enabled d) eqn:He; [| by left; eexists].
  erewrite bind_run by done. erewrite bind_run by done.
  destruct (isRateLimited _ d) eqn:Hl; [by left; eexists |]. erewrite bind_run by done. erewrite bind_run by done.
  destruct (List.find _ (rc_requests d)) as [r |] eqn:Hf; [by left; eexists |]. right. eexists. split; [done |].
  do 2 (split; [done |]). split; [| done]. intros r Hr Hw Hs.
  pose proof (find_None _ _ r Hf Hr) as E. simpl in E. rewrite Hw, String.eqb_refl, bool_decide_eq_true_2 in E; done.
Qed.

(** The guardians' operations leave the requests alone. *)
Definition same_requests d d' : Prop :=
  rc_requests d' = rc_requests d ∧ rc_attempts d' = rc_attempts d ∧ rc_now d' = rc_now d.
#[local] Instance same_requests_preorder : PreOrder same_requests.
Proof. split; [done |]. intros d1 d2 d3 (? & ? & ?) (? & ? & ?). repeat split; congruence. Qed.

Lemma audit_same w e : evolves same_requests (audit w e).
Proof. by intros d. Qed.
#[local] Hint Resolve audit_same : evolve.

Ltac solve_same := unfold find_guardian, find_request; evolve; try (apply evolves_modify; done).
Lemma addGuardian_same r : evolves same_requests (addGuardian r).
Proof. unfold addGuardian. solve_same. Qed.
Lemma verifyGuardian_same i c : evolves same_requests (verifyGuardian i c).
Proof. unfold verifyGuardian. solve_same. Qed.
Lemma removeGuardian_same i : evolves same_requests (removeGuardian i).
Proof. unfold removeGuardian. solve_same. Qed.

(** ** Histories *)

Inductive rc_op :=
| RcAdd (r : AddGuardianRequest) | RcVerify (id code : string) | RcRemove (id : string)
| RcInitiate (r : InitiateRecoveryRequest) | RcApprove (id : string) (r : ApproveRecoveryRequest)
| RcDisable | RcEnable | RcTick (ms : N)
(** the process restarts: its variables are initial again, the tables stay *)
| RcRestart.

Definition rc_step d (o : rc_op) : recdb :=
  match o with
  | RcAdd r => (addGuardian r d).2
  | RcVerify id code => (verifyGuardian id code d).2
  | RcRemove id => (removeGuardian id d).2
  | RcInitiate r => (initiateRecovery r d).2
  | RcApprove id r => (approveRecovery id r d).2
  | RcDisable => (disableRecovery d).2
  | RcEnable => (enableRecovery d).2
  | RcTick ms => RecDb (rc_guardians d) (rc_requests d) (rc_audit d) (rc_enabled d) (rc_attempts d) (rc_now d + Z.of_N ms) (rc_ids d)
  | RcRestart => RecDb (rc_guardians d) (rc_requests d) (rc_audit d) true [] (rc_now d) (rc_ids d)
  end.

Definition rc_init (now : Z) : recdb := RecDb [] [] [] true [] now 0.
Definition rc_run (now : Z) (ops : list rc_op) : recdb := foldl rc_step (rc_init now) ops.

(** A request: distinct guardians approved it, before it expired; it is completed
    exactly when the last approval reached the quorum. *)
Definition below_quorum (r : RecoveryRequest) (l : list RecoveryApproval) : Prop :=
  l = [] ∨ Z.of_nat (length l) < rr_requiredApprovals r.

Record request_ok (now : Z) (r : RecoveryRequest) : Prop := {
  rq_distinct : NoDup (ra_guardianId <$> rr_approvals r);
  rq_in_time : Forall (λ a, rr_requestedAt r ≤ ra_approvedAt a < rr_expiresAt r) (rr_approvals r);
  rq_lock : rr_expiresAt r = rr_requestedAt r + RECOVERY_LOCK_DAYS * msDay;
  rq_past : rr_requestedAt r ≤ now;
  rq_quorum :
    match rr_status r with
    | pending | expired => below_quorum r (rr_approvals r)
    | completed => ∃ l a, rr_approvals r = l ++ [a] ∧ below_quorum r l ∧ rr_requiredApprovals r ≤ Z.of_nat (length (l ++ [a]))
    | approved | rejected => False
    end
}.

Record recovery_ok d : Prop := {
  rk_requests : Forall (request_ok (rc_now d)) (rc_requests d);
  rk_one_pending : ∀ i j r s, rc_requests d !! i = Some r → rc_requests d !! j = Some s →
    rr_status r = pending → rr_status s = pending → rr_walletAddress r = rr_walletAddress s → i = j
}.

Lemma request_ok_later now now' r : now ≤ now' → request_ok now r → request_ok now' r.
Proof. intros Hn [? ? ? ? ?]. split; try done. lia. Qed.

(** Changing the status and the approvals of a pending request. *)
Lemma update_keeps d d' i r st l :
  recovery_ok d → rc_requests d !! i = Some r → rr_status r = pending → request_ok (rc_now d) (with_state st l r) →
  rc_requests d' = <[i := with_state st l r]> (rc_requests d) → rc_now d' = rc_now d → recovery_ok d'.
Proof.
  intros [Hall Hone] Hi Hst Hok Hd' Hnow. split; rewrite Hd', ?Hnow; [by apply Forall_insert |].
  intros j k x y Hj Hk Hx Hy Hw. apply list_lookup_insert_Some in Hj as [(<- & <- & _) | [_ Hj]];
    apply list_lookup_insert_Some in Hk as [(<- & <- & _) | [_ Hk]]; [done | | | by eapply (Hone j k)].
  - by apply (Hone i k r y).
  - by apply (Hone j i x r).
Qed.

Lemma expire_keeps id d d' : expire_effect id d d' → recovery_ok d → recovery_ok d'.
Proof.
  intros (i & r & Hf & Hst & _ & (_ & _ & _ & Hnow) & Hd') Hok. apply find_row_lookup in Hf as [Hi _].
  eapply update_keeps; try done. pose proof (rk_requests _ Hok) as Hall. rewrite Forall_forall in Hall.
  destruct (Hall r (list_elem_of_lookup_2 _ _ _ Hi)) as [? ? ? ? Hq]. rewrite Hst in Hq. by split.
Qed.

Lemma approved_ok now r req st :
  request_ok now r → rr_status r = pending → now < rr_expiresAt r → (ap_guardianId req ∉ ra_guardianId <$> rr_approvals r)%stdpp →
  (st = pending ∧ Z.of_nat (length (approved_by req now r)) < rr_requiredApprovals r ∨
   st = completed ∧ rr_requiredApprovals r ≤ Z.of_nat (length (approved_by req now r))) →
  request_ok now (with_state st (approved_by req now r) r).
Proof.
  intros [Hnd Ht Hl Hp Hq] Hst Hexp Hnew Hs. rewrite Hst in Hq. split; try done; simpl.
  - unfold approved_by. rewrite fmap_app. apply NoDup_app. split; [done |]. simpl.
    split; [by intros x Hx ->%list_elem_of_singleton | apply NoDup_singleton].
  - apply Forall_app. split; [done |]. constructor; [simpl; lia | done].
  - destruct Hs as [[-> Hs] | [-> Hs]]; [by right |]. by eexists _, _.
Qed.

Lemma approveRecovery_keeps id req : evolves (keeps recovery_ok) (approveRecovery id req).
Proof.
  intros d Hok. destruct (approve_cases id req d) as [[e ->] | [(d' & -> & He) | (out & d' & -> & He)]]; simpl; [done | by eapply expire_keeps |].
  destruct He as (i & r & j & g & Hf & Hst & Hexp & _ & _ & _ & Hnew & (_ & _ & _ & Hnow) & Hd').
  apply find_row_lookup in Hf as [Hi _]. pose proof (rk_requests _ Hok) as Hall. rewrite Forall_forall in Hall.
  pose proof (Hall r (list_elem_of_lookup_2 _ _ _ Hi)) as Hr.
  destruct Hd' as [(Hlt & _ & Hd') | (Hge & _ & Hd')]; eapply update_keeps; try done; apply approved_ok; auto.
Qed.

Lemma initiate_keeps req : evolves (keeps recovery_ok) (initiateRecovery req).
Proof.
  intros d Hok. destruct (initiate_cases req d) as [[e ->] | (d' & -> & (_ & _ & Hnone & Hd' & _ & _ & Hnow))]; simpl; [done |].
  destruct Hok as [Hall Hone]. split; rewrite Hd', ?Hnow.
  - apply Forall_app. split; [done |]. constructor; [| done]. split; simpl; try constructor; done.
  - intros i j r s Hi Hj Hr Hs Hw. apply lookup_snoc_Some in Hi as [[Hi1 Hi] | [-> <-]];
      apply lookup_snoc_Some in Hj as [[Hj1 Hj] | [-> <-]]; [by eapply (Hone i j) | | | done]; exfalso.
    + by apply (Hnone r (list_elem_of_lookup_2 _ _ _ Hi)).
    + by apply (Hnone s (list_elem_of_lookup_2 _ _ _ Hj)).
Qed.

Lemma same_keeps d d' : same_requests d d' → recovery_ok d → recovery_ok d'.
Proof. intros (Hr & _ & Hn) [? ?]. split; rewrite Hr, ?Hn; done. Qed.

Lemma rc_step_keeps d o : recovery_ok d → recovery_ok (rc_step d o).
Proof.
  intros Hok. destruct o; simpl.
  - eapply same_keeps; [apply addGuardian_same | done].
  - eapply same_keeps; [apply verifyGuardian_same | done].
  - eapply same_keeps; [apply removeGuardian_same | done].
  - by apply initiate_keeps.
  - by apply approveRecovery_keeps.
  - by apply (same_keeps d).
  - by apply (same_keeps d).
  - destruct Hok as [Hall Hone]. split; [| done]. simpl. eapply Forall_impl; [exact Hall |].
    intros r. apply request_ok_later. lia.
  - destruct Hok as [Hall Hone]. by split.
Qed.

(** ** The rate limit *)

(** Without restarts, the map remembers the last request of every wallet. *)
Record spaced d : Prop := {
  sp_apart : ∀ i j r s, (i < j)%nat → rc_requests d !! i = Some r → rc_requests d !! j = Some s →
    rr_walletAddress r = rr_walletAddress s → rr_requestedAt r + RATE_LIMIT_DAYS * msDay ≤ rr_requestedAt s;
  sp_known : ∀ r, r ∈ rc_requests d → ∃ t, jget (rr_walletAddress r) (rc_attempts d) = Some t ∧ rr_requestedAt r ≤ t ≤ rc_now d
}.

Definition row_stays (r s : RecoveryRequest) : Prop :=
  rr_walletAddress s = rr_walletAddress r ∧ rr_requestedAt s = rr_requestedAt r.

(** Rows that keep their wallet and date stay spaced. *)
Lemma spaced_rows d d' :
  Forall2 row_stays (rc_requests d) (rc_requests d') → rc_attempts d' = rc_attempts d → rc_now d ≤ rc_now d' → spaced d → spaced d'.
Proof.
  intros Hf Ha Hn [Hap Hk]. split.
  - intros i j r s Hij Hi Hj Hw. apply (Forall2_lookup_r _ _ _ _ _ Hf) in Hi as (r0 & Hi & Hrw & Hrt).
    apply (Forall2_lookup_r _ _ _ _ _ Hf) in Hj as (s0 & Hj & Hsw & Hst). rewrite Hrt, Hst.
    eapply (Hap i j); [done .. | congruence].
  - intros r [i Hi]%list_elem_of_lookup. apply (Forall2_lookup_r _ _ _ _ _ Hf) in Hi as (r0 & Hi & Hrw & Hrt).
    destruct (Hk r0 (list_elem_of_lookup_2 _ _ _ Hi)) as (t & Ht & Hb). exists t. rewrite Hrw, Ha. split; [done | lia].
Qed.

Lemma update_stays l i r st k :
  l !! i = Some r → Forall2 row_stays l (<[i := with_state st k r]> l).
Proof.
  intros Hi. apply Forall2_same_length_lookup. rewrite length_insert. split; [done |]. intros j x y Hx Hy.
  apply list_lookup_insert_Some in Hy as [(<- & <- & _) | [_ Hy]]; by simplify_eq.
Qed.

Lemma stays_refl l : Forall2 row_stays l l.
Proof. by apply Forall_Forall2_diag, Forall_true. Qed.

Lemma approve_spaced id req : evolves (keeps spaced) (approveRecovery id req).
Proof.
  intros d. destruct (approve_cases id req d) as [[e ->] | [(d' & -> & He) | (out & d' & -> & He)]]; simpl; [done | |].
  - destruct He as (i & r & Hf & _ & _ & (_ & _ & Ha & Hn) & Hd'). apply find_row_lookup in Hf as [Hi _].
    intros H. refine (spaced_rows d d' _ Ha _ H); [rewrite Hd'; by apply update_stays | lia].
  - destruct He as (i & r & j & g & Hf & _ & _ & _ & _ & _ & _ & (_ & _ & Ha & Hn) & Hd'). apply find_row_lookup in Hf as [Hi _].
    intros H. refine (spaced_rows d d' _ Ha _ H); [| lia]. destruct Hd' as [(_ & _ & ->) | (_ & _ & ->)]; by apply update_stays.
Qed.

Lemma initiate_spaced req : evolves (keeps spaced) (initiateRecovery req).
Proof.
  intros d [Hap Hk]. destruct (initiate_cases req d) as [[e ->] | (d' & -> & (_ & Hlim & _ & Hd' & _ & Ha & Hnow))]; simpl; [done |].
  assert (Hlast : ∀ r, r ∈ rc_requests d → rr_walletAddress r = ir_walletAddress req →
    rr_requestedAt r + RATE_LIMIT_DAYS * msDay ≤ rc_now d).
  { intros r Hr Hw. destruct (Hk r Hr) as (t & Ht & Hb). unfold isRateLimited in Hlim. rewrite <-Hw, Ht in Hlim. lia. }
  split; rewrite Hd'.
  - intros i j r s Hij Hi Hj Hw. apply lookup_snoc_Some in Hi as [[Hi1 Hi] | [-> <-]];
      apply lookup_snoc_Some in Hj as [[Hj1 Hj] | [-> <-]]; try lia; [by eapply (Hap i j) |].
    apply Hlast; [by eapply list_elem_of_lookup_2 | done].
  - intros r Hr. rewrite Ha, Hnow, jget_jset. apply elem_of_app in Hr as [Hr | ->%list_elem_of_singleton].
    + destruct (Hk r Hr) as (t & Ht & Hb). case_decide; [exists (rc_now d); split; [done | lia] | by exists t].
    + rewrite decide_True by done. exists (rc_now d). split; [done | simpl; lia].
Qed.

Lemma same_spaced d d' : same_requests d d' → spaced d → spaced d'.
Proof. intros (Hr & Ha & Hn) H. refine (spaced_rows d d' _ Ha _ H); [rewrite Hr; apply stays_refl | lia]. Qed.

Lemma rc_step_spaced d o : o ≠ RcRestart → spaced d → spaced (rc_step d o).
Proof.
  intros Ho Hok. destruct o; simpl.
  - eapply same_spaced; [apply addGuardian_same | done].
  - eapply same_spaced; [apply verifyGuardian_same | done].
  - eapply same_spaced; [apply removeGuardian_same | done].
  - by apply initiate_spaced.
  - by apply approve_spaced.
  - by apply (same_spaced d).
  - by apply (same_spaced d).
  - refine (spaced_rows d _ _ _ _ Hok); [apply stays_refl | done | simpl; lia].
  - done.
Qed.

(** An approval either throws and changes nothing, or finds the pending request
    past its expiry and marks it expired, or comes from a verified guardian of the
    wallet who had not approved yet: then it is added, and the recovery is completed,
    with the key of the collected signatures, exactly when their number reaches the
    required one. *)
Theorem approve_recovery_exact id req d :
  (∃ e, approveRecovery id req d = (inl e, d)) ∨
  (∃ d', approveRecovery id req d = (inl (Error "Recovery request has expired"), d') ∧ expire_effect id d d') ∨
  ∃ out d', approveRecovery id req d = (inr out, d') ∧ approve_effect id req d out d'.
Proof. apply approve_cases. Qed.

(** Over any history of calls, delays and restarts, the guardians who approved a
    request are distinct and approved it within its seven days, a request is completed
    exactly when its last approval reached the quorum, and a wallet has at most one
    pending request. *)
Theorem recovery_invariant now ops : recovery_ok (rc_run now ops).
Proof.
  assert (recovery_ok (rc_init now)) as Hinit by (split; [constructor | done]). revert Hinit. unfold rc_run.
  generalize (rc_init now). induction ops as [| o ops IH]; intros d H; [done |]. simpl. apply IH. by apply rc_step_keeps.
Qed.

(** As long as the process is not restarted, two recovery requests of one wallet
    are at least thirty days apart. *)
Theorem recovery_rate_limit now ops :
  Forall (λ o, o ≠ RcRestart) ops → spaced (rc_run now ops).
Proof.
  assert (spaced (rc_init now)) as Hinit by (split; [done | intros r H; by apply elem_of_nil in H]).
  revert Hinit. unfold rc_run. generalize (rc_init now). intros d H Hops. revert d H.
  induction Hops as [| o ops Ho _ IH]; intros d H; [done |]. simpl. apply IH. by apply rc_step_spaced.
Qed.

(** The recovery key depends on the set of signatures, not on the order in which
    the guardians approved. *)
Theorem recovery_key_order l l' : l ≡ₚ l' → deriveRecoveryKey l = deriveRecoveryKey l'.
Proof. apply key_order. Qed.
End correct.

(** ** Concrete recoveries *)

Definition rc_demo_env : RecoveryEnv := {|
  rc_uuid := λ n, dec (Z.of_nat n); random_code := λ n, "c" +:+ dec (Z.of_nat n);
  encrypt := λ _ s, s; random_key := λ n, dec (Z.of_nat n); hmac := λ s, "hmac:" +:+ s |}.

Definition rc_demo_ops : list rc_op :=
  [RcAdd {| ag_walletAddress := "W"; ag_type := "email"; ag_identifier := "a@x" |};
   RcAdd {| ag_walletAddress := "W"; ag_type := "phone"; ag_identifier := "555" |};
   RcVerify "0" "c0"; RcVerify "1" "C1";
   RcInitiate {| ir_walletAddress := "W"; ir_initiatedBy := "u"; ir_requiredApprovals := Some 2 |};
   RcApprove "2" {| ap_guardianId := "1"; ap_signature := "s1" |};
   RcApprove "2" {| ap_guardianId := "1"; ap_signature := "s1" |};
   RcApprove "2" {| ap_guardianId := "0"; ap_signature := "s0" |};
   RcInitiate {| ir_walletAddress := "W"; ir_initiatedBy := "u"; ir_requiredApprovals := None |};
   RcTick 2592000000;
   RcInitiate {| ir_walletAddress := "W"; ir_initiatedBy := "u"; ir_requiredApprovals := None |}].

Lemma recovery_rate_limit_witness :
  spaced (rc_run (RE := rc_demo_env) 0 rc_demo_ops) ∧
  (rr_status <$> rc_requests (rc_run (RE := rc_demo_env) 0 rc_demo_ops)) = [completed; pending].
Proof. split; [apply recovery_rate_limit; by repeat constructor | by vm_compute]. Defined.

Lemma recovery_key_order_witness :
  deriveRecoveryKey (RE := rc_demo_env) ["b"; "a"; "c"] = deriveRecoveryKey (RE := rc_demo_env) ["c"; "b"; "a"].
Proof. apply (recovery_key_order (RE := rc_demo_env)). apply (Permutation_app_comm ["b"; "a"] ["c"]). Defined.

(** One caller takes a wallet over at once: the response of [addGuardian] contains the
    code that is meant to prove control of the address, the caller chooses how many
    approvals are required, the recovery completes in the millisecond it was requested
    in, and the emergency flag set meanwhile does not stop it. *)
Definition take_over : M recdb (RecoveryRequest + RecoveryResult) :=
  let RE := rc_demo_env in
  g ← addGuardian {| ag_walletAddress := "W"; ag_type := "email"; ag_identifier := "mallory@x" |};
  verifyGuardian (gu_id g) (default "" (gu_verificationCode g));;
  q ← initiateRecovery {| ir_walletAddress := "W"; ir_initiatedBy := "mallory"; ir_requiredApprovals := Some 1 |};
  disableRecovery;;
  approveRecovery (rr_id q) {| ap_guardianId := gu_id g; ap_signature := "x" |}.

Theorem one_caller_recovers :
  let d := rc_run (RE := rc_demo_env) 0 (take 4 rc_demo_ops) in
  let out := take_over d in
  (∃ res, out.1 = inr (inr res) ∧ re_walletAddress res = "W" ∧ re_completedAt res = rc_now d) ∧
  rc_enabled out.2 = false ∧ (rr_status <$> rc_requests out.2) = [completed] ∧ rc_now out.2 = rc_now d.
Proof. vm_compute. split; [by eexists | done]. Qed.
