(* ===== verification/BillingCycle.v ===== *)
(** * Billing periods (apps/backend/payments/src/subscriptions/billingCycle.ts)

    A period of days or weeks has a fixed duration; a period of months or years ends
    on the same day of the month, or on the last day of a shorter month.  A [Date] is
    its time value; [None] is the invalid date, of which [toISOString] throws. *)
From S2P Require Import Prelude JsLib Calendar.
Local Open Scope Z_scope.

Inductive BillingInterval := day | week | month | year.
#[export] Instance BillingInterval_eq_dec : EqDecision BillingInterval.
Proof. solve_decision. Defined.

Definition DAY_MS : Z := 24 * 60 * 60 * 1000.
Definition WEEK_MS : Z := 7 * DAY_MS.

(** Clamping back to the last day of the intended month *)
Definition clamp_day (anchorDay : Z) (result : option Z) : option Z :=
  match result with
  | None => None
  | Some r => if getUTCDate r =? anchorDay then Some r else TimeClip (setUTCDate r 0)
  end.

Definition addBillingInterval (start : Z) (interval : BillingInterval) (intervalCount : Z) : exn + option Z :=
  if intervalCount <=? 0 then inl (Error "intervalCount must be a positive integer")
  else inr match interval with
  | day => TimeClip (start + intervalCount * DAY_MS)
  | week => TimeClip (start + intervalCount * WEEK_MS)
  | month => clamp_day (getUTCDate start) (TimeClip (setUTCMonth start (getUTCMonth start + intervalCount)))
  | year => clamp_day (getUTCDate start) (TimeClip (setUTCFullYear start (getUTCFullYear start + intervalCount)))
  end.

Record InitialPeriod := { periodStart : Z; periodEnd : option Z; ip_trialEnd : option (option Z) }.

Definition computeInitialPeriod (start : Z) (interval : BillingInterval) (intervalCount : Z) (trialDays : option Z)
    : exn + InitialPeriod :=
  let trial := default 0 trialDays in
  if 0 <? trial then
    let trialEnd := TimeClip (start + trial * DAY_MS) in
    inr {| periodStart := start; periodEnd := trialEnd; ip_trialEnd := Some trialEnd |}
  else
    match addBillingInterval start interval intervalCount with
    | inl e => inl e
    | inr end_ => inr {| periodStart := start; periodEnd := end_; ip_trialEnd := None |}
    end.

Example leap_day : addBillingInterval 1706659200000 month 1 = inr (Some 1709164800000).
Proof. reflexivity. Qed.

(** ** Months on one line *)

(** Months are counted from January of year 0. *)
Definition month_index (t : Z) : Z := 12 * getUTCFullYear t + getUTCMonth t.
Definition first_of_month (k : Z) : Z := DayFromYear (k / 12) + month_start (leap (k / 12)) (k mod 12).
Definition days_in_month (k : Z) : Z :=
  month_start (leap (k / 12)) (k mod 12 + 1) - month_start (leap (k / 12)) (k mod 12).

(** The instant on day [d], or the last day, of month [k] at a time of the day. *)
Definition month_date (k d tod : Z) : Z := (first_of_month k + Z.min d (days_in_month k) - 1) * msPerDay + tod.

Ltac twelve m := assert (m = 0 ∨ m = 1 ∨ m = 2 ∨ m = 3 ∨ m = 4 ∨ m = 5 ∨ m = 6 ∨ m = 7 ∨ m = 8 ∨ m = 9 ∨ m = 10 ∨ m = 11) by lia.

Lemma month_length lp m :
  0 ≤ m ≤ 11 → 28 ≤ month_start lp (m + 1) - month_start lp m ≤ 31 ∧ (m = 11 → month_start lp (m + 1) - month_start lp m = 31).
Proof. intros Hm. twelve m. destruct_or?; subst; destruct lp; vm_compute; split; intros; try done; split; congruence. Qed.

Lemma days_in_month_bounds k : 28 ≤ days_in_month k ≤ 31.
Proof. apply month_length. pose proof (Z.mod_pos_bound k 12 ltac:(lia)). lia. Qed.

Lemma next_month k : first_of_month (k + 1) = first_of_month k + days_in_month k.
Proof.
  unfold first_of_month, days_in_month. pose proof (Z.mod_pos_bound k 12 ltac:(lia)).
  destruct (decide (k mod 12 = 11)) as [E | E].
  - assert (Hq : (k + 1) / 12 = k / 12 + 1 ∧ (k + 1) mod 12 = 0) by div_lia. destruct Hq as [-> ->].
    rewrite DayFromYear_succ, E. unfold month_start. simpl. rewrite andb_false_r, !andb_true_r. destruct (leap (k / 12)); simpl; lia.
  - assert (Hq : (k + 1) / 12 = k / 12 ∧ (k + 1) mod 12 = k mod 12 + 1) by div_lia. destruct Hq as [-> ->]. lia.
Qed.

Lemma months_later k n : 0 ≤ n → first_of_month k + 28 * n ≤ first_of_month (k + n) ≤ first_of_month k + 31 * n.
Proof.
  revert n. apply natlike_ind; [replace (k + 0) with k by lia; lia |]. intros n Hn IH.
  replace (k + Z.succ n) with (k + n + 1) by lia. rewrite next_month. pose proof (days_in_month_bounds (k + n)). lia.
Qed.

Lemma month_of_first lp m d :
  0 ≤ m ≤ 11 → 0 ≤ d < month_start lp (m + 1) - month_start lp m → month_of lp (month_start lp m + d) = m.
Proof.
  intros Hm. twelve m. destruct_or?; subst; destruct lp; unfold month_of, month_start; simpl; intros Hd;
    repeat (case_match; simpl; try lia).
Qed.

(** The fields of an instant on day [d] of month [k]. *)
Lemma fields_of_day t k d :
  1 ≤ d ≤ days_in_month k → Day t = first_of_month k + d - 1 → month_index t = k ∧ getUTCDate t = d.
Proof.
  unfold first_of_month, days_in_month. intros Hd Ht. pose proof (Z.mod_pos_bound k 12 ltac:(lia)) as Hm.
  assert (Hlen : 0 ≤ month_start (leap (k / 12)) (k mod 12) ∧ month_start (leap (k / 12)) (k mod 12 + 1) ≤ 365 + Z.b2z (leap (k / 12))).
  { generalize (leap (k / 12)). intros lp. set (m := k mod 12) in *. clearbody m. twelve m. destruct_or?; subst; destruct lp; vm_compute; split; congruence. }
  assert (Hy : getUTCFullYear t = k / 12).
  { symmetry. apply year_unique. rewrite DayFromYear_succ. lia. }
  assert (Hdy : day_in_year t = month_start (leap (k / 12)) (k mod 12) + (d - 1)).
  { unfold day_in_year. rewrite Hy. lia. }
  assert (Hmo : getUTCMonth t = k mod 12).
  { unfold getUTCMonth. rewrite Hy, Hdy. apply month_of_first; lia. }
  unfold month_index, getUTCDate. rewrite Hmo, Hdy, Hy. pose proof (Z.div_mod k 12 ltac:(lia)). lia.
Qed.

Lemma day_of_fields t : Day t = first_of_month (month_index t) + getUTCDate t - 1 ∧ 1 ≤ getUTCDate t ≤ days_in_month (month_index t).
Proof.
  pose proof (month_bounds t) as Hm. unfold month_index, first_of_month, days_in_month.
  assert (Hq : (12 * getUTCFullYear t + getUTCMonth t) / 12 = getUTCFullYear t ∧ (12 * getUTCFullYear t + getUTCMonth t) mod 12 = getUTCMonth t).
  { generalize dependent (getUTCMonth t). generalize (getUTCFullYear t). intros. div_lia. }
  destruct Hq as [-> ->]. split; [unfold getUTCDate, day_in_year; lia |].
  pose proof (date_bounds t) as Hd. split; [lia |]. unfold getUTCDate, getUTCMonth in *.
  pose proof (day_in_year_bounds t) as Hdy. generalize dependent (leap (getUTCFullYear t)). generalize (day_in_year t). intros n lp.
  unfold month_of, month_start. destruct lp; simpl; intros; repeat (case_match; simpl in *; try lia).
Qed.

Lemma MakeDay_index t k d : MakeDay (getUTCFullYear t) (getUTCMonth t + k) d = first_of_month (month_index t + k) + d - 1.
Proof.
  unfold MakeDay, first_of_month, month_index. pose proof (month_bounds t) as Hm.
  assert (Hq : (12 * getUTCFullYear t + getUTCMonth t + k) / 12 = getUTCFullYear t + (getUTCMonth t + k) / 12 ∧
    (12 * getUTCFullYear t + getUTCMonth t + k) mod 12 = (getUTCMonth t + k) mod 12).
  { generalize (getUTCMonth t). generalize (getUTCFullYear t). intros. div_lia. }
  destruct Hq as [-> ->]. done.
Qed.

Lemma MakeDay_years t n d : MakeDay (getUTCFullYear t + n) (getUTCMonth t) d = MakeDay (getUTCFullYear t) (getUTCMonth t + 12 * n) d.
Proof.
  unfold MakeDay. assert (Hq : (getUTCMonth t + 12 * n) / 12 = getUTCMonth t / 12 + n ∧ (getUTCMonth t + 12 * n) mod 12 = getUTCMonth t mod 12) by div_lia.
  destruct Hq as [-> ->]. by replace (getUTCFullYear t + (getUTCMonth t / 12 + n)) with (getUTCFullYear t + n + getUTCMonth t / 12) by lia.
Qed.

Lemma Day_at d tod : 0 ≤ tod < msPerDay → Day (d * msPerDay + tod) = d ∧ TimeWithinDay (d * msPerDay + tod) = tod.
Proof. unfold Day, TimeWithinDay, msPerDay. intros. div_lia. Qed.

(** Moving by months and clamping arrives on the intended day. *)
Lemma clamp_exact start k :
  let raw := (first_of_month (month_index start + k) + getUTCDate start - 1) * msPerDay + TimeWithinDay start in
  let res := month_date (month_index start + k) (getUTCDate start) (TimeWithinDay start) in
  raw - 3 * msPerDay ≤ res ≤ raw ∧
  clamp_day (getUTCDate start) (Some raw) = (if getUTCDate start <=? days_in_month (month_index start + k) then Some raw else TimeClip res) ∧
  (getUTCDate start ≤ days_in_month (month_index start + k) → res = raw).
Proof.
  intros raw res. set (m := month_index start + k) in *. set (d := getUTCDate start) in *.
  assert (Htod : 0 ≤ TimeWithinDay start < msPerDay) by (by apply Z.mod_pos_bound).
  pose proof (days_in_month_bounds m) as Hdim. pose proof (date_bounds start) as Hd. fold d in Hd.
  assert (Hraw : Day raw = first_of_month m + d - 1) by (by apply Day_at).
  split; [| split].
  - unfold res, raw, month_date, msPerDay. lia.
  - unfold clamp_day. destruct (Z.leb_spec d (days_in_month m)) as [Hle | Hgt].
    + destruct (fields_of_day raw m d) as [_ Hdate]; [lia | done |]. by rewrite Hdate, Z.eqb_refl.
    + pose proof (next_month m) as Hn. pose proof (days_in_month_bounds (m + 1)).
      destruct (fields_of_day raw (m + 1) (d - days_in_month m)) as [Hidx Hdate]; [lia | lia |].
      rewrite Hdate. destruct (Z.eqb_spec (d - days_in_month m) d); [lia |].
      unfold setUTCDate. rewrite <-(Z.add_0_r (getUTCMonth raw)), MakeDay_index, Hidx.
      assert (TimeWithinDay raw = TimeWithinDay start) as -> by (by apply Day_at).
      f_equal. unfold res, month_date. rewrite Z.min_r by lia. by rewrite !Z.add_0_r, Hn.
  - intros Hle. unfold res, raw, month_date. by rewrite Z.min_l.
Qed.

(** The months of an interval of months or years. *)
Definition months_of (interval : BillingInterval) (n : Z) : Z := match interval with year => 12 * n | _ => n end.

Lemma add_months start interval n :
  interval = month ∨ interval = year → 0 < n →
  let k := months_of interval n in
  addBillingInterval start interval n =
  inr (clamp_day (getUTCDate start)
         (TimeClip ((first_of_month (month_index start + k) + getUTCDate start - 1) * msPerDay + TimeWithinDay start))).
Proof.
  intros Hi Hn k. unfold addBillingInterval. destruct (Z.leb_spec n 0); [lia |].
  destruct Hi as [-> | ->]; subst k; simpl; unfold setUTCMonth, setUTCFullYear; [| rewrite MakeDay_years]; by rewrite MakeDay_index.
Qed.

(** What the end of a period is meant to be. *)
Definition period_end (start : Z) (interval : BillingInterval) (n : Z) : Z :=
  match interval with
  | day => start + n * DAY_MS
  | week => start + n * WEEK_MS
  | month | year => month_date (month_index start + months_of interval n) (getUTCDate start) (TimeWithinDay start)
  end.

Lemma period_end_later start interval n :
  0 < n → start < period_end start interval n ≤ start + (n + 1) * 372 * DAY_MS.
Proof.
  intros Hn. unfold period_end. unfold DAY_MS, WEEK_MS, DAY_MS. destruct interval; [lia | lia | |];
    unfold month_date, msPerDay; destruct (day_of_fields start) as [Hday Hd];
    pose proof (Z.div_mod start msPerDay ltac:(done)) as Hs; fold (Day start) in Hs; fold (TimeWithinDay start) in Hs;
    unfold msPerDay in Hs; simpl;
    [set (k := n) | set (k := 12 * n)];
    pose proof (months_later (month_index start + 1) (k - 1) ltac:(lia)) as Hl;
    replace (month_index start + 1 + (k - 1)) with (month_index start + k) in Hl by lia; rewrite next_month in Hl;
    pose proof (days_in_month_bounds (month_index start)); pose proof (days_in_month_bounds (month_index start + k)); lia.
Qed.

(** A valid date is its time value. *)
Lemma TimeClip_Some t r : TimeClip t = Some r → r = t.
Proof. unfold TimeClip. destruct (_ <=? _); [by intros [= <-] | done]. Qed.

Lemma add_interval_ends start interval n r :
  addBillingInterval start interval n = inr (Some r) → 0 < n ∧ r = period_end start interval n.
Proof.
  intros H. assert (Hn : 0 < n). { unfold addBillingInterval in H. destruct (Z.leb_spec n 0); [done | lia]. }
  split; [done |]. destruct (decide (interval = month ∨ interval = year)) as [Hi | Hi].
  - rewrite add_months in H by done. injection H as H. set (k := months_of interval n) in *.
    destruct (clamp_exact start k) as (_ & Hc & Heq).
    assert (Hp : period_end start interval n = month_date (month_index start + k) (getUTCDate start) (TimeWithinDay start)).
    { by destruct Hi as [-> | ->]. }
    rewrite Hp. destruct (TimeClip _) as [raw |] eqn:Hraw; [| done].
    apply TimeClip_Some in Hraw as ->. rewrite Hc in H.
    destruct (Z.leb_spec (getUTCDate start) (days_in_month (month_index start + k))).
    + injection H as <-. by rewrite Heq.
    + by apply TimeClip_Some in H.
  - unfold addBillingInterval in H. destruct (Z.leb_spec n 0); [lia |]. unfold period_end.
    destruct interval; [| | destruct Hi; auto ..]; injection H as H; by apply TimeClip_Some in H.
Qed.

Lemma add_interval_defined start interval n :
  0 < n → 0 ≤ start → start + (n + 2) * 372 * DAY_MS ≤ 8640000000000000 →
  addBillingInterval start interval n = inr (Some (period_end start interval n)).
Proof.
  intros Hn Hs Hb. pose proof (period_end_later start interval n Hn) as Hp.
  assert (Hclip : ∀ t, 0 ≤ t ≤ 8640000000000000 → TimeClip t = Some t).
  { intros t Ht. unfold TimeClip. by rewrite Z.abs_eq, (proj2 (Z.leb_le _ _)) by lia. }
  unfold DAY_MS in *. destruct (decide (interval = month ∨ interval = year)) as [Hi | Hi].
  - rewrite add_months by done. destruct (clamp_exact start (months_of interval n)) as (Hr & Hc & Heq).
    assert (Hpe : period_end start interval n = month_date (month_index start + months_of interval n) (getUTCDate start) (TimeWithinDay start)).
    { by destruct Hi as [-> | ->]. }
    rewrite Hclip by (unfold msPerDay in *; lia). rewrite Hc, Hpe. f_equal. destruct (Z.leb_spec (getUTCDate start) (days_in_month (month_index start + months_of interval n))).
    + by rewrite Heq.
    + apply Hclip. lia.
  - unfold addBillingInterval. destruct (Z.leb_spec n 0); [lia |]. simpl in Hp.
    destruct interval; [| | destruct Hi; auto ..]; simpl in Hp; rewrite Hclip; (done || lia).
Qed.

(** The fields of the date that a month and a day of the month give. *)
Lemma month_date_fields start k :
  month_index (month_date k (getUTCDate start) (TimeWithinDay start)) = k ∧
  getUTCDate (month_date k (getUTCDate start) (TimeWithinDay start)) = Z.min (getUTCDate start) (days_in_month k) ∧
  TimeWithinDay (month_date k (getUTCDate start) (TimeWithinDay start)) = TimeWithinDay start.
Proof.
  assert (Htod : 0 ≤ TimeWithinDay start < msPerDay) by (by apply Z.mod_pos_bound).
  pose proof (date_bounds start). pose proof (days_in_month_bounds k).
  destruct (Day_at (first_of_month k + Z.min (getUTCDate start) (days_in_month k) - 1) (TimeWithinDay start) Htod) as [HD HT].
  destruct (fields_of_day (month_date k (getUTCDate start) (TimeWithinDay start)) k (Z.min (getUTCDate start) (days_in_month k))
              ltac:(lia) HD) as [H1 H2].
  split; [exact H1 | split; [exact H2 | exact HT]].
Qed.

(** C38. A billing period ends later than it starts; periods of days and weeks have
    their exact duration, and a period of months or years ends in the intended month,
    at the same time of the day and on the same day of the month, or on the last day
    of a shorter month; in the range of dates the end always exists. *)
Theorem billing_period_exact start interval n r :
  (addBillingInterval start interval n = inr (Some r) →
   start < r ∧
   match interval with
   | day => r = start + n * DAY_MS
   | week => r = start + n * WEEK_MS
   | _ => let k := month_index start + months_of interval n in
       month_index r = k ∧ getUTCDate r = Z.min (getUTCDate start) (days_in_month k) ∧ TimeWithinDay r = TimeWithinDay start
   end) ∧
  (0 < n → 0 ≤ start → start + (n + 2) * 372 * DAY_MS ≤ 8640000000000000 →
   ∃ r, addBillingInterval start interval n = inr (Some r)).
Proof.
  split; [| intros; eexists; by apply add_interval_defined].
  intros [Hn ->]%add_interval_ends. split; [by apply period_end_later |].
  destruct interval; [done | done | |].
  - exact (month_date_fields start (month_index start + n)).
  - exact (month_date_fields start (month_index start + 12 * n)).
Qed.

Lemma billing_period_exact_witness :
  getUTCDate 1706659200000 = 31 ∧ getUTCDate 1709164800000 = Z.min 31 (days_in_month (month_index 1706659200000 + 1)).
Proof.
  split; [by vm_compute |].
  apply (proj1 (billing_period_exact 1706659200000 month 1 1709164800000)). by vm_compute.
Defined.
