(* ===== verification/Subscriptions.v ===== *)
(** * Recurring subscriptions (apps/backend/payments/src/subscriptions/)

    Plans, subscriptions and the charges of their periods: the in-memory stores
    (planStore.ts, subscriptionStore.ts, chargeStore.ts), the charge of a period
    through the escrow contract (billing.ts), the service (service.ts), the events
    (notifications.ts) and the billing cycle (billingScheduler.ts).  The dates of the
    records are ISO strings in the source and instants here; [metadata] is left out. *)
From S2P Require Import Prelude JsLib Calendar BillingCycle ChainClient.
Local Open Scope Z_scope.

(** ** types.ts *)

Record SubscriptionPlan := {
  pl_id : string; pl_merchantId : string; pl_name : string; pl_description : string; pl_amount : string;
  pl_currency : string; pl_interval : BillingInterval; pl_intervalCount : Z; pl_trialDays : option Z;
  pl_usageBased : bool; pl_maxAmount : option string; pl_active : bool; pl_createdAt : Z
}.

Inductive SubscriptionStatus := active | paused | cancelled | past_due | trialing.
#[export] Instance SubscriptionStatus_eq_dec : EqDecision SubscriptionStatus.
Proof. solve_decision. Defined.

Definition sub_status_name (s : SubscriptionStatus) : string :=
  match s with
  | active => "active" | paused => "paused" | cancelled => "cancelled" | past_due => "past_due" | trialing => "trialing"
  end.

Inductive payment_type := by_escrow | by_wallet.
Record SubscriptionPaymentMethod := { pm_type : payment_type; pm_escrowContractId : option string }.

Record Subscription := {
  su_id : string; su_planId : string; su_buyerAddress : string; su_sellerAddress : string; su_status : SubscriptionStatus;
  su_currentPeriodStart : Z; su_currentPeriodEnd : Z; su_trialEnd : option Z; su_cancelAtPeriodEnd : bool;
  su_paymentMethod : SubscriptionPaymentMethod; su_createdAt : Z; su_updatedAt : Z
}.

(** An event with its [data]. *)
Inductive event_data :=
| ev_created (planId : string) (is_trial : bool)
| ev_renewed (periodStart periodEnd : Z) (amount : string) (txHash : option string)
| ev_payment_failed (reason : option string) (periodStart : Z)
| ev_paused
| ev_cancelled (immediate : bool)
| ev_plan_changed (oldPlanId newPlanId : string).
Record SubscriptionEvent := { sv_subscriptionId : string; sv_timestamp : Z; sv_data : event_data }.

Record CreateSubscriptionPlanInput := {
  cp_merchantId : string; cp_name : string; cp_description : option string; cp_amount : string; cp_currency : string;
  cp_interval : BillingInterval; cp_intervalCount : option Z; cp_trialDays : option Z; cp_usageBased : option bool;
  cp_maxAmount : option string
}.

Record CreateSubscriptionInput := {
  cs_planId : string; cs_buyerAddress : string; cs_sellerAddress : string; cs_paymentMethod : SubscriptionPaymentMethod;
  cs_trialDaysOverride : option Z
}.

Record RenewSubscriptionOptions := { ro_usageAmount : option string; ro_force : bool }.

Definition SubscriptionPlanNotFoundError (planId : string) : exn :=
  Exn "SubscriptionPlanNotFoundError" ("Subscription plan " +:+ planId +:+ " not found").
Definition SubscriptionNotFoundError (subscriptionId : string) : exn :=
  Exn "SubscriptionNotFoundError" ("Subscription " +:+ subscriptionId +:+ " not found").
Definition SubscriptionNotActiveError (subscriptionId : string) (status : SubscriptionStatus) : exn :=
  Exn "SubscriptionNotActiveError"
    ("Subscription " +:+ subscriptionId +:+ " is " +:+ quoted (sub_status_name status) +:+ " and cannot be modified this way").
Definition UnsupportedPaymentMethodError (type : string) : exn :=
  Exn "UnsupportedPaymentMethodError"
    ("Subscription billing for payment method " +:+ quoted type +:+ " is not supported yet").

(** ** chargeStore.ts *)

Inductive ChargeStatus := ch_pending | ch_succeeded | ch_failed.
#[export] Instance ChargeStatus_eq_dec : EqDecision ChargeStatus.
Proof. solve_decision. Defined.

Record SubscriptionCharge := {
  sc_id : string; sc_subscriptionId : string; sc_periodStart : Z; sc_periodEnd : Z; sc_amount : string;
  sc_status : ChargeStatus; sc_escrowId : option string; sc_fundTxHash : option string; sc_releaseTxHash : option string;
  sc_failureReason : option string; sc_attemptCount : Z
}.

(** [failureReason]: absent, [null] or a text *)
Inductive reason_update := keep_reason | clear_reason | set_reason (s : string).
Record ChargeUpdate := {
  cu_status : option ChargeStatus; cu_escrowId : option string; cu_fundTxHash : option string;
  cu_releaseTxHash : option string; cu_failureReason : reason_update
}.

(** ** State *)

Record sworld := SWorld {
  sw_plans : jsmap SubscriptionPlan; sw_subs : jsmap Subscription; sw_charges : jsmap SubscriptionCharge;
  sw_byPeriod : jsmap string; sw_events : list SubscriptionEvent; sw_chain : chain; sw_ids : nat
}.
Definition sw_now (w : sworld) : Z := chain_now (sw_chain w).

Definition set_plans x (w : sworld) := SWorld x (sw_subs w) (sw_charges w) (sw_byPeriod w) (sw_events w) (sw_chain w) (sw_ids w).
Definition set_subs x (w : sworld) := SWorld (sw_plans w) x (sw_charges w) (sw_byPeriod w) (sw_events w) (sw_chain w) (sw_ids w).
Definition set_charges x (w : sworld) := SWorld (sw_plans w) (sw_subs w) x (sw_byPeriod w) (sw_events w) (sw_chain w) (sw_ids w).
Definition set_byPeriod x (w : sworld) := SWorld (sw_plans w) (sw_subs w) (sw_charges w) x (sw_events w) (sw_chain w) (sw_ids w).
Definition set_events x (w : sworld) := SWorld (sw_plans w) (sw_subs w) (sw_charges w) (sw_byPeriod w) x (sw_chain w) (sw_ids w).
Definition set_chain x (w : sworld) := SWorld (sw_plans w) (sw_subs w) (sw_charges w) (sw_byPeriod w) (sw_events w) x (sw_ids w).
Definition used_id (w : sworld) :=
  SWorld (sw_plans w) (sw_subs w) (sw_charges w) (sw_byPeriod w) (sw_events w) (sw_chain w) (S (sw_ids w)).

Class SubscriptionEnv := {
  sub_chain :: ChainEnv;
  randomUUID : nat → string;
  (** [process.env.ESCROW_CONTRACT_ID] *)
  escrow_contract_id : option string;
  (** [SUBSCRIPTION_ESCROW_TIMEOUT_LEDGERS] *)
  DEFAULT_TIMEOUT_LEDGERS : Z
}.

Section service.
Context `{SE : SubscriptionEnv}.

Definition on_chain {A} : M chain A → M sworld A := zoom sw_chain set_chain.
Definition uuid : M sworld string := n ← gets sw_ids; modify used_id;; mret (randomUUID n).

(** ** planStore.ts, [InMemoryPlanStore] *)

Definition plan_create (input : CreateSubscriptionPlanInput) : M sworld SubscriptionPlan :=
  i ← uuid;
  now ← gets sw_now;
  let plan := {|
    pl_id := i; pl_merchantId := cp_merchantId input; pl_name := cp_name input;
    pl_description := default "" (cp_description input); pl_amount := cp_amount input; pl_currency := cp_currency input;
    pl_interval := cp_interval input; pl_intervalCount := default 1 (cp_intervalCount input);
    pl_trialDays := cp_trialDays input; pl_usageBased := default false (cp_usageBased input);
    pl_maxAmount := cp_maxAmount input; pl_active := true; pl_createdAt := now |} in
  modify (λ w, set_plans (jset i plan (sw_plans w)) w);;
  mret plan.

Definition plan_findById (i : string) : M sworld (option SubscriptionPlan) := gets (λ w, jget i (sw_plans w)).

Definition with_active (b : option bool) (p : SubscriptionPlan) : SubscriptionPlan := {|
  pl_id := pl_id p; pl_merchantId := pl_merchantId p; pl_name := pl_name p; pl_description := pl_description p;
  pl_amount := pl_amount p; pl_currency := pl_currency p; pl_interval := pl_interval p;
  pl_intervalCount := pl_intervalCount p; pl_trialDays := pl_trialDays p; pl_usageBased := pl_usageBased p;
  pl_maxAmount := pl_maxAmount p; pl_active := default (pl_active p) b; pl_createdAt := pl_createdAt p |}.

Definition plan_update (i : string) (act : option bool) : M sworld SubscriptionPlan :=
  e ← gets (λ w, jget i (sw_plans w));
  existing ← some_or_throw e (Error ("Subscription plan not found: " +:+ i));
  modify (λ w, set_plans (jset i (with_active act existing) (sw_plans w)) w);;
  mret (with_active act existing).

(** ** subscriptionStore.ts, [InMemorySubscriptionStore] *)

Record CreateSubscriptionRecordInput := {
  ci_input : CreateSubscriptionInput; ci_status : SubscriptionStatus; ci_currentPeriodStart : Z;
  ci_currentPeriodEnd : Z; ci_trialEnd : option Z
}.

(** [trialEnd]: [Some None] is [null]. *)
Record SubscriptionUpdate := {
  up_planId : option string; up_status : option SubscriptionStatus; up_currentPeriodStart : option Z;
  up_currentPeriodEnd : option Z; up_trialEnd : option (option Z); up_cancelAtPeriodEnd : option bool
}.
Definition status_update (s : SubscriptionStatus) : SubscriptionUpdate := {|
  up_planId := None; up_status := Some s; up_currentPeriodStart := None; up_currentPeriodEnd := None;
  up_trialEnd := None; up_cancelAtPeriodEnd := None |}.

Definition sub_create (input : CreateSubscriptionRecordInput) : M sworld Subscription :=
  now ← gets sw_now;
  i ← uuid;
  let c := ci_input input in
  let subscription := {|
    su_id := i; su_planId := cs_planId c; su_buyerAddress := cs_buyerAddress c; su_sellerAddress := cs_sellerAddress c;
    su_status := ci_status input; su_currentPeriodStart := ci_currentPeriodStart input;
    su_currentPeriodEnd := ci_currentPeriodEnd input; su_trialEnd := ci_trialEnd input; su_cancelAtPeriodEnd := false;
    su_paymentMethod := cs_paymentMethod c; su_createdAt := now; su_updatedAt := now |} in
  modify (λ w, set_subs (jset i subscription (sw_subs w)) w);;
  mret subscription.

Definition sub_findById (i : string) : M sworld (option Subscription) := gets (λ w, jget i (sw_subs w)).

Definition apply_sub_update (now : Z) (u : SubscriptionUpdate) (s : Subscription) : Subscription := {|
  su_id := su_id s; su_planId := default (su_planId s) (up_planId u); su_buyerAddress := su_buyerAddress s;
  su_sellerAddress := su_sellerAddress s; su_status := default (su_status s) (up_status u);
  su_currentPeriodStart := default (su_currentPeriodStart s) (up_currentPeriodStart u);
  su_currentPeriodEnd := default (su_currentPeriodEnd s) (up_currentPeriodEnd u);
  su_trialEnd := match up_trialEnd u with Some None => None | Some (Some t) => Some t | None => su_trialEnd s end;
  su_cancelAtPeriodEnd := default (su_cancelAtPeriodEnd s) (up_cancelAtPeriodEnd u);
  su_paymentMethod := su_paymentMethod s; su_createdAt := su_createdAt s; su_updatedAt := now |}.

Definition sub_update (i : string) (u : SubscriptionUpdate) : M sworld Subscription :=
  e ← gets (λ w, jget i (sw_subs w));
  existing ← some_or_throw e (Error ("Subscription not found: " +:+ i));
  now ← gets sw_now;
  let updated := apply_sub_update now u existing in
  modify (λ w, set_subs (jset i updated (sw_subs w)) w);;
  mret updated.

Definition is_due (now : Z) (statuses : list SubscriptionStatus) (s : Subscription) : bool :=
  bool_decide (su_status s ∈ statuses) && (su_currentPeriodEnd s <=? now).
Definition findDue (now : Z) (statuses : list SubscriptionStatus) : M sworld (list Subscription) :=
  gets (λ w, List.filter (is_due now statuses) (jvalues (sw_subs w))).

Definition is_pending_cancellation (now : Z) (s : Subscription) : bool :=
  su_cancelAtPeriodEnd s && negb (bool_decide (su_status s = cancelled)) && (su_currentPeriodEnd s <=? now).
Definition findPendingCancellation (now : Z) : M sworld (list Subscription) :=
  gets (λ w, List.filter (is_pending_cancellation now) (jvalues (sw_subs w))).

(** ** [InMemoryChargeStore] *)

Definition periodKey (subscriptionId : string) (start : Z) : string := subscriptionId +:+ ":" +:+ toISOString start.

(** [this.charges.get(existingId)!] of a missing row would be spread to an empty
    object; the store never removes rows (lemma [charges_indexed] of the proofs). *)
Definition charge_getOrCreate (subscriptionId : string) (start end_ : Z) (amount : string) : M sworld (option SubscriptionCharge) :=
  existingId ← gets (λ w, jget (periodKey subscriptionId start) (sw_byPeriod w));
  if truthy existingId then gets (λ w, jget (default "" existingId) (sw_charges w))
  else
    i ← uuid;
    let charge := {|
      sc_id := i; sc_subscriptionId := subscriptionId; sc_periodStart := start; sc_periodEnd := end_; sc_amount := amount;
      sc_status := ch_pending; sc_escrowId := None; sc_fundTxHash := None; sc_releaseTxHash := None;
      sc_failureReason := None; sc_attemptCount := 0 |} in
    modify (λ w, set_charges (jset i charge (sw_charges w)) w);;
    modify (λ w, set_byPeriod (jset (periodKey subscriptionId start) i (sw_byPeriod w)) w);;
    mret (Some charge).

Definition or_else {A} (a b : option A) : option A := match a with Some _ => a | None => b end.

Definition apply_charge_update (u : ChargeUpdate) (c : SubscriptionCharge) : SubscriptionCharge := {|
  sc_id := sc_id c; sc_subscriptionId := sc_subscriptionId c; sc_periodStart := sc_periodStart c;
  sc_periodEnd := sc_periodEnd c; sc_amount := sc_amount c; sc_status := default (sc_status c) (cu_status u);
  sc_escrowId := or_else (cu_escrowId u) (sc_escrowId c); sc_fundTxHash := or_else (cu_fundTxHash u) (sc_fundTxHash c);
  sc_releaseTxHash := or_else (cu_releaseTxHash u) (sc_releaseTxHash c);
  sc_failureReason := match cu_failureReason u with keep_reason => sc_failureReason c | clear_reason => None | set_reason s => Some s end;
  sc_attemptCount := sc_attemptCount c |}.

Definition one_more_attempt (c : SubscriptionCharge) : SubscriptionCharge := {|
  sc_id := sc_id c; sc_subscriptionId := sc_subscriptionId c; sc_periodStart := sc_periodStart c;
  sc_periodEnd := sc_periodEnd c; sc_amount := sc_amount c; sc_status := sc_status c; sc_escrowId := sc_escrowId c;
  sc_fundTxHash := sc_fundTxHash c; sc_releaseTxHash := sc_releaseTxHash c; sc_failureReason := sc_failureReason c;
  sc_attemptCount := sc_attemptCount c + 1 |}.

Definition charge_modify (f : SubscriptionCharge → SubscriptionCharge) (i : string) : M sworld SubscriptionCharge :=
  e ← gets (λ w, jget i (sw_charges w));
  existing ← some_or_throw e (Error ("Subscription charge not found: " +:+ i));
  modify (λ w, set_charges (jset i (f existing) (sw_charges w)) w);;
  mret (f existing).
Definition charge_update (i : string) (u : ChargeUpdate) : M sworld SubscriptionCharge := charge_modify (apply_charge_update u) i.
Definition incrementAttempt (i : string) : M sworld SubscriptionCharge := charge_modify one_more_attempt i.

(** ** notifications.ts *)

(** The failure of the transport is caught and logged: the event is recorded as sent. *)
Definition emitSubscriptionEvent (subscriptionId : string) (data : event_data) : M sworld () :=
  now ← gets sw_now;
  modify (λ w, set_events (sw_events w ++ [{| sv_subscriptionId := subscriptionId; sv_timestamp := now; sv_data := data |}]) w).

(** ** billing.ts *)

Definition parseChargeEscrowId {S} (escrowId : string) : M S Z :=
  let invalid := Error ("Invalid escrow ID returned for subscription charge: " +:+ escrowId) in
  match Number_integer escrowId with
  | Some id => if id <? 0 then throw invalid else mret id
  | None => throw invalid
  end.

Definition getEscrowContractId {S} : M S string :=
  if truthy escrow_contract_id then mret (default "" escrow_contract_id)
  else throw (Error "ESCROW_CONTRACT_ID environment variable is not configured").

Definition failed_with (reason : string) : ChargeUpdate := {|
  cu_status := Some ch_failed; cu_escrowId := None; cu_fundTxHash := None; cu_releaseTxHash := None;
  cu_failureReason := set_reason reason |}.
Definition funded_by (txHash escrowId : string) : ChargeUpdate := {|
  cu_status := None; cu_escrowId := Some escrowId; cu_fundTxHash := Some txHash; cu_releaseTxHash := None;
  cu_failureReason := keep_reason |}.
Definition succeeded_by (txHash : string) : ChargeUpdate := {|
  cu_status := Some ch_succeeded; cu_escrowId := None; cu_fundTxHash := None; cu_releaseTxHash := Some txHash;
  cu_failureReason := clear_reason |}.

Definition fund_request (s : Subscription) (plan : SubscriptionPlan) (contract : string) (start : Z) (amount : string)
    : TransactionRequest := {|
  sourceAddress := su_buyerAddress s; contractId := contract; method := "deposit";
  args := [ArgStr (su_buyerAddress s); ArgStr (su_sellerAddress s); ArgStr (pl_currency plan); ArgStr amount;
           ArgBytes (orderIdToContractBytes (periodKey (su_id s) start)); ArgNum DEFAULT_TIMEOUT_LEDGERS];
  memo := "Subscription " +:+ su_id s +:+ " charge for period starting " +:+ toISOString start;
  req_amountStroops := Some amount |}.

Definition release_request (s : Subscription) (contract : string) (start id : Z) : TransactionRequest := {|
  sourceAddress := su_sellerAddress s; contractId := contract; method := "release";
  args := [ArgNum id; ArgStr (su_sellerAddress s)];
  memo := "Release subscription " +:+ su_id s +:+ " charge for period starting " +:+ toISOString start;
  req_amountStroops := None |}.

(** The two transactions of a charge, up to the last update of its row, which runs
    outside the [try] ([return store.update(..)] is not awaited). *)
Definition charge_transactions (s : Subscription) (plan : SubscriptionPlan) (contract chargeId : string) (start : Z) (amount : string)
    : M sworld ChargeUpdate :=
  fundTx ← on_chain (submitContractInvocation (fund_request s plan contract start amount));
  if negb (success fundTx) then mret (failed_with "Fund transaction failed on-chain")
  else
    escrowId ← on_chain (extractEscrowIdFromTx (hash fundTx));
    charge_update chargeId (funded_by (hash fundTx) escrowId);;
    id ← parseChargeEscrowId escrowId;
    releaseTx ← on_chain (submitContractInvocation (release_request s contract start id));
    if negb (success releaseTx) then mret (failed_with "Release transaction failed on-chain after funding succeeded")
    else mret (succeeded_by (hash releaseTx)).

Definition chargeSubscriptionPeriod (s : Subscription) (plan : SubscriptionPlan) (start end_ : Z) (amount : string)
    : M sworld SubscriptionCharge :=
  found ← charge_getOrCreate (su_id s) start end_ amount;
  match found with
  | Some charge =>
      if bool_decide (sc_status charge = ch_succeeded) then mret charge
      else
        match pm_type (su_paymentMethod s) with
        | by_wallet => throw (UnsupportedPaymentMethodError "wallet")
        | by_escrow =>
            charge ← incrementAttempt (sc_id charge);
            contract ← match pm_escrowContractId (su_paymentMethod s) with Some c => mret c | None => getEscrowContractId end;
            u ← try_catch (charge_transactions s plan contract (sc_id charge) start amount)
                  (λ e, mret (failed_with (exn_message e)));
            charge_update (sc_id charge) u
        end
  | None =>
      match pm_type (su_paymentMethod s) with
      | by_wallet => throw (UnsupportedPaymentMethodError "wallet")
      | by_escrow => throw (Error "Subscription charge not found: undefined")
      end
  end.

(** ** service.ts *)

Definition createSubscriptionPlan (input : CreateSubscriptionPlanInput) : M sworld SubscriptionPlan := plan_create input.

Definition getSubscriptionPlan (planId : string) : M sworld SubscriptionPlan :=
  p ← plan_findById planId; some_or_throw p (SubscriptionPlanNotFoundError planId).

Definition getSubscription (subscriptionId : string) : M sworld Subscription :=
  s ← sub_findById subscriptionId; some_or_throw s (SubscriptionNotFoundError subscriptionId).

(** [d.toISOString()] of a possibly invalid date *)
Definition iso {S} (d : option Z) : M S Z := some_or_throw d (Exn "RangeError" "Invalid time value").

Definition createSubscription (input : CreateSubscriptionInput) : M sworld Subscription :=
  plan ← getSubscriptionPlan (cs_planId input);
  now ← gets sw_now;
  let trialDays := or_else (cs_trialDaysOverride input) (pl_trialDays plan) in
  p ← answer (computeInitialPeriod now (pl_interval plan) (pl_intervalCount plan) trialDays);
  let isTrialing := match ip_trialEnd p with Some _ => true | None => false end in
  end_ ← iso (periodEnd p);
  subscription ← sub_create {|
    ci_input := input; ci_status := if isTrialing then trialing else active; ci_currentPeriodStart := periodStart p;
    ci_currentPeriodEnd := end_; ci_trialEnd := mjoin (ip_trialEnd p) |};
  emitSubscriptionEvent (su_id subscription) (ev_created (pl_id plan) isTrialing);;
  if isTrialing then mret subscription
  else
    charge ← chargeSubscriptionPeriod subscription plan (periodStart p) end_ (pl_amount plan);
    if bool_decide (sc_status charge = ch_succeeded) then mret subscription
    else
      updated ← sub_update (su_id subscription) (status_update past_due);
      emitSubscriptionEvent (su_id updated) (ev_payment_failed (sc_failureReason charge) (periodStart p));;
      mret updated.

Definition resolveChargeAmount {S} (plan : SubscriptionPlan) (usageAmount : option string) : M S string :=
  match usageAmount with
  | Some u =>
      if pl_usageBased plan then
        match pl_maxAmount plan with
        | Some m => a ← BigInt_throw u; b ← BigInt_throw m; mret (if b <? a then m else u)
        | None => mret u
        end
      else mret (pl_amount plan)
  | None => mret (pl_amount plan)
  end.

Definition next_period (start end_ : Z) : SubscriptionUpdate := {|
  up_planId := None; up_status := Some active; up_currentPeriodStart := Some start; up_currentPeriodEnd := Some end_;
  up_trialEnd := Some None; up_cancelAtPeriodEnd := None |}.

Definition renewable (s : SubscriptionStatus) : bool := match s with active | past_due | trialing => true | _ => false end.

Definition renewSubscription (subscriptionId : string) (options : RenewSubscriptionOptions) : M sworld Subscription :=
  subscription ← getSubscription subscriptionId;
  plan ← getSubscriptionPlan (su_planId subscription);
  throw_if (negb (renewable (su_status subscription))) (SubscriptionNotActiveError subscriptionId (su_status subscription));;
  now ← gets sw_now;
  if negb (ro_force options) && (now <? su_currentPeriodEnd subscription) then mret subscription
  else
    amount ← resolveChargeAmount plan (ro_usageAmount options);
    let start := su_currentPeriodEnd subscription in
    e ← answer (addBillingInterval start (pl_interval plan) (pl_intervalCount plan));
    end_ ← iso e;
    charge ← chargeSubscriptionPeriod subscription plan start end_ amount;
    if bool_decide (sc_status charge = ch_succeeded) then
      renewed ← sub_update subscriptionId (next_period start end_);
      emitSubscriptionEvent subscriptionId (ev_renewed start end_ amount (sc_releaseTxHash charge));;
      mret renewed
    else
      failed ← sub_update subscriptionId (status_update past_due);
      emitSubscriptionEvent subscriptionId (ev_payment_failed (sc_failureReason charge) start);;
      mret failed.

Definition pauseSubscription (subscriptionId : string) : M sworld Subscription :=
  subscription ← getSubscription subscriptionId;
  throw_if (bool_decide (su_status subscription = cancelled)) (SubscriptionNotActiveError subscriptionId (su_status subscription));;
  updated ← sub_update subscriptionId (status_update paused);
  emitSubscriptionEvent subscriptionId ev_paused;;
  mret updated.

Definition resumeSubscription (subscriptionId : string) : M sworld Subscription :=
  subscription ← getSubscription subscriptionId;
  throw_if (negb (bool_decide (su_status subscription = paused))) (SubscriptionNotActiveError subscriptionId (su_status subscription));;
  sub_update subscriptionId (status_update active).

Definition cancel_flag : SubscriptionUpdate := {|
  up_planId := None; up_status := None; up_currentPeriodStart := None; up_currentPeriodEnd := None;
  up_trialEnd := None; up_cancelAtPeriodEnd := Some true |}.
Definition cancel_now : SubscriptionUpdate := {|
  up_planId := None; up_status := Some cancelled; up_currentPeriodStart := None; up_currentPeriodEnd := None;
  up_trialEnd := None; up_cancelAtPeriodEnd := Some false |}.

Definition cancelSubscription (subscriptionId : string) (atPeriodEnd : bool) : M sworld Subscription :=
  subscription ← getSubscription subscriptionId;
  if bool_decide (su_status subscription = cancelled) then mret subscription
  else if atPeriodEnd then sub_update subscriptionId cancel_flag
  else
    result ← sub_update subscriptionId cancel_now;
    emitSubscriptionEvent subscriptionId (ev_cancelled true);;
    mret result.

Definition plan_switch (newPlanId : string) : SubscriptionUpdate := {|
  up_planId := Some newPlanId; up_status := None; up_currentPeriodStart := None; up_currentPeriodEnd := None;
  up_trialEnd := None; up_cancelAtPeriodEnd := None |}.

Definition changeSubscriptionPlan (subscriptionId newPlanId : string) : M sworld Subscription :=
  subscription ← getSubscription subscriptionId;
  getSubscriptionPlan newPlanId;;
  updated ← sub_update subscriptionId (plan_switch newPlanId);
  emitSubscriptionEvent subscriptionId (ev_plan_changed (su_planId subscription) newPlanId);;
  mret updated.

(** ** billingScheduler.ts *)

Definition DUE_STATUSES : list SubscriptionStatus := [active; past_due; trialing].

Record BillingCycleResult := { bc_renewed : list Subscription; bc_failed : list Subscription; bc_cancelled : list Subscription }.

(** One subscription of the renewal pass; an error is logged. *)
Definition renew_due (s : Subscription) (r : BillingCycleResult) : M sworld BillingCycleResult :=
  if su_cancelAtPeriodEnd s then mret r
  else
    try_catch
      (updated ← renewSubscription (su_id s) {| ro_usageAmount := None; ro_force := true |};
       mret (if bool_decide (su_status updated = past_due)
             then {| bc_renewed := bc_renewed r; bc_failed := bc_failed r ++ [updated]; bc_cancelled := bc_cancelled r |}
             else {| bc_renewed := bc_renewed r ++ [updated]; bc_failed := bc_failed r; bc_cancelled := bc_cancelled r |}))
      (λ _, mret r).

Definition cancel_ended (s : Subscription) (r : BillingCycleResult) : M sworld BillingCycleResult :=
  try_catch
    (updated ← sub_update (su_id s) (status_update cancelled);
     emitSubscriptionEvent (su_id s) (ev_cancelled false);;
     mret {| bc_renewed := bc_renewed r; bc_failed := bc_failed r; bc_cancelled := bc_cancelled r ++ [updated] |})
    (λ _, mret r).

Fixpoint fold_each {A} (f : Subscription → A → M sworld A) (l : list Subscription) (a : A) : M sworld A :=
  match l with [] => mret a | s :: l' => b ← f s a; fold_each f l' b end.

Definition runBillingCycle (now : Z) : M sworld BillingCycleResult :=
  due ← findDue now DUE_STATUSES;
  r ← fold_each renew_due due {| bc_renewed := []; bc_failed := []; bc_cancelled := [] |};
  pending ← findPendingCancellation now;
  fold_each cancel_ended pending r.
End service.
