(* ===== verification/SubscriptionsCorrect.v ===== *)
(** * What subscriptions guarantee

    A period that was charged successfully is never charged again, cancelled
    subscriptions rest, periods follow one another and every period after the first
    one is backed by a successful charge; a billing cycle cancels what it has to. *)
From S2P Require Import Prelude JsLib Calendar BillingCycle ChainClient Subscriptions.
Local Open Scope Z_scope.

Section correct.
Context `{SE : SubscriptionEnv}.
(** Identifiers are fresh and not empty. *)
Hypothesis uuid_fresh : Inj (=) (=) randomUUID.
Hypothesis uuid_text : ∀ n, randomUUID n ≠ "".
Implicit Types w : sworld.

(** ** Frames *)

(** Everything but the charges, their index and the requests posted. *)
Definition billing_only w w' : Prop :=
  sw_plans w' = sw_plans w ∧ sw_subs w' = sw_subs w ∧ sw_events w' = sw_events w ∧ sw_now w' = sw_now w.
#[local] Instance billing_only_preorder : PreOrder billing_only.
Proof. split; [done |]. intros w1 w2 w3 (? & ? & ? & ?) (? & ? & ? & ?). repeat split; congruence. Qed.

Definition same_charge (c c' : SubscriptionCharge) : Prop :=
  sc_id c' = sc_id c ∧ sc_subscriptionId c' = sc_subscriptionId c ∧ sc_periodStart c' = sc_periodStart c ∧
  sc_periodEnd c' = sc_periodEnd c ∧ sc_amount c' = sc_amount c.
#[local] Instance same_charge_preorder : PreOrder same_charge.
Proof. split; [done |]. intros c1 c2 c3 (? & ? & ? & ? & ?) (? & ? & ? & ? & ?). repeat split; congruence. Qed.

(** Only the row [i] changes, and keeps its identity. *)
Definition in_place (i : string) w w' : Prop :=
  billing_only w w' ∧ sw_byPeriod w' = sw_byPeriod w ∧ sw_ids w' = sw_ids w ∧
  (∀ j, j ≠ i → jget j (sw_charges w') = jget j (sw_charges w)) ∧
  match jget i (sw_charges w) with
  | Some c => ∃ c', jget i (sw_charges w') = Some c' ∧ same_charge c c'
  | None => jget i (sw_charges w') = None
  end.
#[local] Instance in_place_preorder i : PreOrder (in_place i).
Proof.
  split.
  - intros w. split; [done |]. do 3 (split; [done |]). destruct (jget i (sw_charges w)); [by eexists | done].
  - intros w1 w2 w3 (Hb1 & Hp1 & Hn1 & Ho1 & Hr1) (Hb2 & Hp2 & Hn2 & Ho2 & Hr2).
    split; [by etrans |]. do 2 (split; [congruence |]). split; [intros j Hj; by rewrite Ho2, Ho1 |].
    destruct (jget i (sw_charges w1)) as [c |]; [| by rewrite Hr1 in Hr2].
    destruct Hr1 as (c' & Hc' & Hs). rewrite Hc' in Hr2. destruct Hr2 as (c'' & Hc'' & Hs'). exists c''. split; [done | by etrans].
Qed.

Lemma charge_modify_in_place f i : (∀ c, same_charge c (f c)) → evolves (in_place i) (charge_modify f i).
Proof.
  intros Hf w. unfold charge_modify. erewrite bind_run by done.
  destruct (jget i (sw_charges w)) as [c |] eqn:Hi; [| done]. erewrite bind_run by done. simpl.
  split; [done |]. do 2 (split; [done |]). simpl. split; [intros j Hj; by rewrite jget_jset_ne |].
  rewrite Hi. exists (f c). by rewrite jget_jset_eq.
Qed.

Lemma charge_update_in_place i u : evolves (in_place i) (charge_update i u).
Proof. by apply charge_modify_in_place. Qed.

Lemma submit_clock req : evolves (λ c c', chain_now c' = chain_now c) (submitContractInvocation req).
Proof.
  assert (PreOrder (λ c c' : chain, chain_now c' = chain_now c)) by (split; [done | intros ???; congruence]).
  unfold submitContractInvocation. evolve. by apply evolves_modify.
Qed.

Lemma on_chain_in_place {A} i (c : M chain A) :
  evolves (λ c c', chain_now c' = chain_now c) c → evolves (in_place i) (on_chain c).
Proof.
  intros H. eapply evolves_zoom; [| exact H]. intros w ch Hch. simpl in *.
  do 4 (split; [done |]). simpl. by destruct (jget i (sw_charges w)); [eexists |].
Qed.

Lemma extract_clock h : evolves (λ c c', chain_now c' = chain_now c) (extractEscrowIdFromTx h).
Proof.
  assert (PreOrder (λ c c' : chain, chain_now c' = chain_now c)) by (split; [done | intros ???; congruence]).
  unfold extractEscrowIdFromTx. evolve.
Qed.

#[local] Hint Resolve charge_update_in_place on_chain_in_place submit_clock extract_clock : evolve.

Lemma parse_id_in_place i s : evolves (in_place i) (parseChargeEscrowId s).
Proof. unfold parseChargeEscrowId. evolve. Qed.
#[local] Hint Resolve parse_id_in_place : evolve.

Lemma charge_transactions_in_place s plan contract i start amount :
  evolves (in_place i) (charge_transactions s plan contract i start amount).
Proof. unfold charge_transactions. evolve. Qed.

(** ** The charge ledger *)

Definition key_of (c : SubscriptionCharge) : string := periodKey (sc_subscriptionId c) (sc_periodStart c).

(** One row per period: the index and the rows agree. *)
Record charges_ok w : Prop := {
  co_row : ∀ i c, jget i (sw_charges w) = Some c → sc_id c = i ∧ jget (key_of c) (sw_byPeriod w) = Some i;
  co_index : ∀ k i, jget k (sw_byPeriod w) = Some i → ∃ c, jget i (sw_charges w) = Some c ∧ key_of c = k;
  co_fresh : ∀ i c, jget i (sw_charges w) = Some c → ∃ n, (n < sw_ids w)%nat ∧ i = randomUUID n
}.

(** Rows persist, and a successful one does not change. *)
Definition charges_grow w w' : Prop :=
  (∀ i c, jget i (sw_charges w) = Some c →
     ∃ c', jget i (sw_charges w') = Some c' ∧ same_charge c c' ∧ (sc_status c = ch_succeeded → c' = c)) ∧
  (∀ k i, jget k (sw_byPeriod w) = Some i → jget k (sw_byPeriod w') = Some i) ∧ (sw_ids w ≤ sw_ids w')%nat.
#[local] Instance charges_grow_preorder : PreOrder charges_grow.
Proof.
  split.
  - intros w. split; [| split; [done | lia]]. intros i c Hc. by exists c.
  - intros w1 w2 w3 (Hc1 & Hk1 & Hn1) (Hc2 & Hk2 & Hn2). split; [| split; [auto | lia]].
    intros i c Hc. destruct (Hc1 i c Hc) as (c' & Hc' & Hs & Hk). destruct (Hc2 i c' Hc') as (c'' & Hc'' & Hs' & Hk').
    exists c''. split; [done |]. split; [by etrans |]. intros Hst. rewrite <-(Hk Hst). apply Hk'. by rewrite (Hk Hst).
Qed.

Lemma key_same c c' : same_charge c c' → key_of c' = key_of c.
Proof. intros (_ & H1 & H2 & _). unfold key_of. by rewrite H1, H2. Qed.

Lemma in_place_charges_ok i w w' : in_place i w w' → charges_ok w → charges_ok w'.
Proof.
  intros (_ & Hp & Hn & Ho & Hr) [Hrow Hidx Hf].
  assert (Hback : ∀ j c', jget j (sw_charges w') = Some c' → ∃ c, jget j (sw_charges w) = Some c ∧ same_charge c c').
  { intros j c' Hj. destruct (decide (j = i)) as [-> | Hne]; [| rewrite Ho in Hj by done; by exists c'].
    destruct (jget i (sw_charges w)) as [c |]; [| congruence]. destruct Hr as (c0 & Hc0 & Hs). exists c. split; [done | congruence]. }
  split.
  - intros j c' Hj. destruct (Hback j c' Hj) as (c & Hc & Hs). destruct (Hrow j c Hc) as [Hid Hk].
    rewrite Hp, (key_same c c') by done. split; [| done]. destruct Hs as [-> _]. done.
  - intros k j Hk. rewrite Hp in Hk. destruct (Hidx k j Hk) as (c & Hc & Hkey).
    destruct (decide (j = i)) as [-> | Hne]; [| exists c; by rewrite Ho].
    rewrite Hc in Hr. destruct Hr as (c' & Hc' & Hs). exists c'. split; [done |]. by rewrite (key_same c).
  - intros j c' Hj. destruct (Hback j c' Hj) as (c & Hc & _). rewrite Hn. by apply (Hf j c).
Qed.

(** A row that was not successful may change. *)
Lemma in_place_grows i w w' :
  in_place i w w' → (∀ c, jget i (sw_charges w) = Some c → sc_status c ≠ ch_succeeded) → charges_grow w w'.
Proof.
  intros (_ & Hp & Hn & Ho & Hr) Hst. split; [| split; [by rewrite Hp | lia]]. intros j c Hc.
  destruct (decide (j = i)) as [-> | Hne]; [| exists c; by rewrite Ho].
  rewrite Hc in Hr. destruct Hr as (c' & Hc' & Hs). exists c'. split; [done |]. split; [done |].
  intros Hc1. by destruct (Hst c Hc).
Qed.

(** Finding the row of a period, or opening it. *)
Lemma getOrCreate_run sid start end_ amount w :
  charges_ok w →
  ∃ c w', charge_getOrCreate sid start end_ amount w = (inr (Some c), w') ∧ billing_only w w' ∧ charges_ok w' ∧ charges_grow w w' ∧
    jget (periodKey sid start) (sw_byPeriod w') = Some (sc_id c) ∧ jget (sc_id c) (sw_charges w') = Some c ∧
    (∀ i, jget (periodKey sid start) (sw_byPeriod w) = Some i → w' = w) ∧ sw_chain w' = sw_chain w.
Proof.
  intros Hok. destruct Hok as [Hrow Hidx Hf]. unfold charge_getOrCreate. erewrite bind_run by done.
  destruct (jget (periodKey sid start) (sw_byPeriod w)) as [i |] eqn:Hk.
  - destruct (Hidx _ _ Hk) as (c & Hc & Hkey). destruct (Hf i c Hc) as (n & _ & ->).
    assert (truthy (Some (randomUUID n)) = true) as ->.
    { simpl. destruct (String.eqb_spec (randomUUID n) ""); [by apply uuid_text in e | done]. }
    exists c, w. simpl. destruct (Hrow _ _ Hc) as [Hid _]. rewrite Hid. unfold gets. rewrite Hc.
    split; [done |]. split; [reflexivity |]. split; [by split |]. split; [reflexivity |]. done.
  - simpl. unfold uuid. rewrite bind_assoc_run. erewrite bind_run by done. rewrite bind_assoc_run. erewrite bind_run by done.
    erewrite bind_run by done. erewrite bind_run by done. erewrite bind_run by done.
    assert (Hnew : jget (randomUUID (sw_ids w)) (sw_charges w) = None).
    { destruct (jget (randomUUID (sw_ids w)) (sw_charges w)) as [c |] eqn:E; [| reflexivity]. destruct (Hf _ _ E) as (m & Hm & Em). apply uuid_fresh in Em. lia. }
    eexists _, _. split; [done |]. simpl. split; [done |]. split; [| split; [| split; [| split; [| split]]]]; simpl.
    + split; simpl.
      * intros j c. rewrite jget_jset. case_decide as E.
        { intros [= <-]. simpl. split; [done |]. unfold key_of. simpl. by rewrite jget_jset_eq, E. }
        intros Hc. destruct (Hrow _ _ Hc) as [Hid Hkc]. split; [done |]. rewrite jget_jset_ne; [done |]. intros Ek. by rewrite Ek, Hkc in Hk.
      * intros k j. rewrite jget_jset. case_decide as E.
        { intros [= <-]. rewrite jget_jset_eq. by eexists. }
        intros Hj. destruct (Hidx _ _ Hj) as (c & Hc & Hkey). exists c. split; [| done]. rewrite jget_jset_ne; [done | congruence].
      * intros j c. rewrite jget_jset. case_decide as E; [intros _; exists (sw_ids w); split; [lia | done] |].
        intros Hc. destruct (Hf _ _ Hc) as (m & Hm & ->). exists m. split; [lia | done].
    + split; [| split; [| simpl; lia]]; simpl.
      * intros j c Hc. exists c. split; [rewrite jget_jset_ne; [done | congruence] | done].
      * intros k j Hj. rewrite jget_jset_ne; [done | congruence].
    + by rewrite jget_jset_eq.
    + by rewrite jget_jset_eq.
    + done.
    + done.
Qed.

Lemma charge_modify_run f i w c :
  jget i (sw_charges w) = Some c → charge_modify f i w = (inr (f c), set_charges (jset i (f c) (sw_charges w)) w).
Proof. intros H. unfold charge_modify. erewrite bind_run by done. rewrite H. done. Qed.

(** The part of a charge after its row was found: only that row changes. *)
Definition charge_row (s : Subscription) (plan : SubscriptionPlan) (start : Z) (amount i : string) : M sworld SubscriptionCharge :=
  contract ← match pm_escrowContractId (su_paymentMethod s) with Some c => mret c | None => getEscrowContractId end;
  u ← try_catch (charge_transactions s plan contract i start amount) (λ e, mret (failed_with (exn_message e)));
  charge_update i u.

Lemma charge_row_in_place s plan start amount i : evolves (in_place i) (charge_row s plan start amount i).
Proof.
  unfold charge_row, getEscrowContractId. apply evolves_bind; [apply _ | evolve | intros contract].
  apply evolves_bind; [apply _ | | intros u; apply charge_update_in_place].
  apply evolves_try; [apply _ | apply charge_transactions_in_place | intros e; apply evolves_ret, _].
Qed.

(** The charge it returns is the row. *)
Lemma charge_row_result s plan start amount i w c c' w' :
  jget i (sw_charges w) = Some c → sc_id c = i → charge_row s plan start amount i w = (inr c', w') →
  sc_id c' = i ∧ jget i (sw_charges w') = Some c'.
Proof.
  intros Hc Hid H. pose proof (charge_row_in_place s plan start amount i w) as Hp. rewrite H in Hp.
  destruct Hp as (_ & _ & _ & _ & Hr). rewrite Hc in Hr. destruct Hr as (c0 & Hc0 & Hs). simpl in Hc0.
  assert (jget i (sw_charges w') = Some c') as Hlast; [| split; [destruct Hs; congruence | done]]. clear c0 Hc0 Hs Hc Hid.
  unfold charge_row in H. apply bind_inr in H as (contract & w1 & _ & H). apply bind_inr in H as (u & w2 & _ & H).
  unfold charge_update, charge_modify in H. erewrite bind_run in H by done.
  destruct (jget i (sw_charges w2)) as [e |]; [| done]. erewrite bind_run in H by done. injection H as <- <-.
  simpl. by rewrite jget_jset_eq.
Qed.

Lemma charge_effect s plan start end_ amount w r w' :
  charges_ok w → chargeSubscriptionPeriod s plan start end_ amount w = (r, w') →
  billing_only w w' ∧ charges_ok w' ∧ charges_grow w w' ∧
  (∀ c, r = inr c → jget (periodKey (su_id s) start) (sw_byPeriod w') = Some (sc_id c) ∧ jget (sc_id c) (sw_charges w') = Some c) ∧
  (∀ i c, jget (periodKey (su_id s) start) (sw_byPeriod w) = Some i → jget i (sw_charges w) = Some c →
          sc_status c = ch_succeeded → r = inr c ∧ w' = w).
Proof.
  intros Hok H. unfold chargeSubscriptionPeriod in H.
  destruct (getOrCreate_run (su_id s) start end_ amount w Hok) as (c & w1 & Hg & Hb & Hok1 & Hl & Hk & Hrow & Hold & _).
  erewrite bind_run in H by exact Hg. cbv beta iota in H.
  assert (Hsame : ∀ i c0, jget (periodKey (su_id s) start) (sw_byPeriod w) = Some i → jget i (sw_charges w) = Some c0 → c0 = c ∧ w1 = w).
  { intros i c0 Hi Hc0. pose proof (Hold i Hi) as ->. split; congruence. }
  destruct (decide (sc_status c = ch_succeeded)) as [Hst | Hst];
    [rewrite bool_decide_eq_true_2 in H by done | rewrite bool_decide_eq_false_2 in H by done].
  { injection H as <- <-. do 3 (split; [done |]). split; [by intros c0 [= <-] |]. intros i c0 Hi Hc0 _.
    by destruct (Hsame i c0 Hi Hc0) as [-> ->]. }
  assert (Hne : ∀ i c0, jget (periodKey (su_id s) start) (sw_byPeriod w) = Some i → jget i (sw_charges w) = Some c0 →
    sc_status c0 = ch_succeeded → r = inr c0 ∧ w' = w).
  { intros i c0 Hi Hc0 Hs. by destruct (Hsame i c0 Hi Hc0) as [-> _]. }
  destruct (pm_type (su_paymentMethod s)); [| injection H as <- <-; do 3 (split; [done |]); by split].
  unfold incrementAttempt in H. erewrite bind_run in H by (by apply charge_modify_run).
  set (w2 := set_charges _ _) in H. change (sc_id (one_more_attempt c)) with (sc_id c) in H.
  fold (charge_row s plan start amount (sc_id c)) in H.
  assert (Hp1 : in_place (sc_id c) w1 w2).
  { pose proof (charge_modify_in_place one_more_attempt (sc_id c) ltac:(done) w1) as Hp. by rewrite (charge_modify_run _ _ _ c) in Hp. }
  assert (Hp : in_place (sc_id c) w1 w').
  { etrans; [exact Hp1 |]. pose proof (charge_row_in_place s plan start amount (sc_id c) w2) as Hp2. by rewrite H in Hp2. }
  split; [etrans; [exact Hb | apply Hp] |]. split; [by eapply in_place_charges_ok |].
  split; [etrans; [exact Hl | apply (in_place_grows (sc_id c)); [done |]]; intros c0; congruence |]. split; [| exact Hne].
  intros c' ->. apply (charge_row_result s plan start amount (sc_id c) w2 (one_more_attempt c)) in H as [-> Hrow'];
    [| by simpl; rewrite jget_jset_eq | done].
  split; [| done]. destruct Hp as (_ & -> & _). done.
Qed.

(** ** The invariant of the service *)

(** The charge ledger of the period that starts at [t] says it was paid. *)
Definition period_paid w (sid : string) (t : Z) : Prop :=
  ∃ i c, jget (periodKey sid t) (sw_byPeriod w) = Some i ∧ jget i (sw_charges w) = Some c ∧ sc_status c = ch_succeeded.

Record sub_ok w (i : string) (s : Subscription) : Prop := {
  so_id : su_id s = i;
  so_fresh : ∃ n, (n < sw_ids w)%nat ∧ i = randomUUID n;
  so_period : su_currentPeriodStart s < su_currentPeriodEnd s;
  so_paid : su_currentPeriodStart s = su_createdAt s ∨ period_paid w i (su_currentPeriodStart s)
}.

Record subs_ok w : Prop := {
  sk_charges : charges_ok w;
  sk_keys : NoDup (jkeys (sw_subs w));
  sk_subs : ∀ i s, jget i (sw_subs w) = Some s → sub_ok w i s
}.

(** A subscription keeps its parties and its date; a cancelled one keeps its period. *)
Definition sub_moves (s s' : Subscription) : Prop :=
  su_id s' = su_id s ∧ su_buyerAddress s' = su_buyerAddress s ∧ su_sellerAddress s' = su_sellerAddress s ∧
  su_paymentMethod s' = su_paymentMethod s ∧ su_createdAt s' = su_createdAt s ∧
  su_currentPeriodStart s ≤ su_currentPeriodStart s' ∧
  (su_status s = cancelled → su_status s' = cancelled ∧ su_currentPeriodStart s' = su_currentPeriodStart s ∧
     su_currentPeriodEnd s' = su_currentPeriodEnd s).
#[local] Instance sub_moves_preorder : PreOrder sub_moves.
Proof.
  split; [intros s; by repeat split |]. intros s1 s2 s3 (? & ? & ? & ? & ? & ? & Hc1) (? & ? & ? & ? & ? & ? & Hc2).
  do 5 (split; [congruence |]). split; [lia |]. intros Hs. destruct (Hc1 Hs) as (Hs2 & Ha & Hb). destruct (Hc2 Hs2) as (Hs3 & Ha3 & Hb3).
  repeat split; congruence.
Qed.

Definition world_moves w w' : Prop :=
  (∀ i s, jget i (sw_subs w) = Some s → ∃ s', jget i (sw_subs w') = Some s' ∧ sub_moves s s') ∧ charges_grow w w'.
#[local] Instance world_moves_preorder : PreOrder world_moves.
Proof.
  split; [intros w; split; [intros i s H; by exists s | reflexivity] |].
  intros w1 w2 w3 [Hs1 Hl1] [Hs2 Hl2]. split; [| by etrans]. intros i s Hs.
  destruct (Hs1 i s Hs) as (s' & Hs' & Hm). destruct (Hs2 i s' Hs') as (s'' & Hs'' & Hm'). exists s''. split; [done | by etrans].
Qed.

(** What every operation does: from a good state to a good state, along the moves. *)
Definition good w w' : Prop := subs_ok w → subs_ok w' ∧ world_moves w w'.
#[local] Instance good_preorder : PreOrder good.
Proof.
  split; [intros w H; split; [done | reflexivity] |]. intros w1 w2 w3 H1 H2 H. destruct (H1 H) as [Ha Hm].
  destruct (H2 Ha) as [Hb Hm']. split; [done | by etrans].
Qed.

Lemma paid_grows w w' i t : charges_grow w w' → period_paid w i t → period_paid w' i t.
Proof.
  intros (Hc & Hk & _) (j & c & Hj & Hcj & Hst). destruct (Hc j c Hcj) as (c' & Hc' & _ & E). rewrite (E Hst) in Hc'.
  exists j, c. auto.
Qed.

Lemma sub_ok_grows w w' i s : charges_grow w w' → sub_ok w i s → sub_ok w' i s.
Proof.
  intros Hl [Hid (n & Hn & ->) Hp Hpaid]. split; [done | | done |].
  - exists n. destruct Hl as (_ & _ & Hle). split; [lia | done].
  - destruct Hpaid as [| Hpaid]; [by left | right]. by eapply paid_grows.
Qed.

(** Operations that leave the subscriptions alone. *)
Lemma same_subs_good w w' :
  sw_subs w' = sw_subs w → (charges_ok w → charges_ok w' ∧ charges_grow w w') → good w w'.
Proof.
  intros Hs Hc [Hok Hk Hsub]. destruct (Hc Hok) as [Hok' Hl]. split.
  - split; [done | by rewrite Hs |]. rewrite Hs. intros i s Hi. eapply sub_ok_grows; [done | auto].
  - split; [| done]. rewrite Hs. intros i s Hi. by exists s.
Qed.

Lemma same_ledger w w' :
  sw_charges w' = sw_charges w → sw_byPeriod w' = sw_byPeriod w → (sw_ids w ≤ sw_ids w')%nat →
  charges_ok w → charges_ok w' ∧ charges_grow w w'.
Proof.
  intros Hc Hb Hn [Hrow Hidx Hf]. split.
  - split; rewrite ?Hc, ?Hb; [done | done |]. intros i c Hi. destruct (Hf i c Hi) as (n & ? & ?). exists n. split; [lia | done].
  - split; [| split; [by rewrite Hb | done]]. rewrite Hc. intros i c Hi. by exists c.
Qed.

Lemma emit_good i d : evolves good (emitSubscriptionEvent i d).
Proof. intros w. apply same_subs_good; [done | by apply same_ledger]. Qed.

Lemma plan_create_good p : evolves good (plan_create p).
Proof.
  intros w. unfold plan_create, uuid. apply same_subs_good; [done |]. apply same_ledger; [done | done |]. run_unfold. lia.
Qed.

Lemma plan_update_good i a : evolves good (plan_update i a).
Proof.
  intros w. unfold plan_update. erewrite bind_run by done. destruct (jget i (sw_plans w)); [| by apply (reflexivity (R := good))].
  apply same_subs_good; [done | by apply same_ledger].
Qed.

Lemma charge_good s plan start end_ amount : evolves good (chargeSubscriptionPeriod s plan start end_ amount).
Proof.
  intros w. destruct (chargeSubscriptionPeriod s plan start end_ amount w) as [r w'] eqn:H. intros Hok.
  destruct (charge_effect _ _ _ _ _ _ _ _ (sk_charges _ Hok) H) as ((_ & Hs & _) & Hok' & Hl & _).
  by apply same_subs_good.
Qed.

(** Writing a row that moves along [sub_moves]. *)
Lemma set_sub_good w i s' :
  (∀ s, jget i (sw_subs w) = Some s → sub_moves s s') → (subs_ok w → sub_ok w i s') → good w (set_subs (jset i s' (sw_subs w)) w).
Proof.
  intros Hm Hs' Hok. destruct (same_ledger w (set_subs (jset i s' (sw_subs w)) w) eq_refl eq_refl ltac:(done) (sk_charges _ Hok)) as [Hc Hl].
  split; [split; [done | by apply NoDup_jset, Hok |] | split; [| done]]; simpl.
  - intros j x. rewrite jget_jset. case_decide as E; [intros [= <-]; subst; by eapply sub_ok_grows, Hs' |].
    intros Hj. eapply sub_ok_grows; [done | by apply Hok].
  - intros j x Hj. rewrite jget_jset. case_decide as E; [subst; exists s'; auto | by exists x].
Qed.

Lemma sub_update_run w i u s :
  jget i (sw_subs w) = Some s →
  sub_update i u w = (inr (apply_sub_update (sw_now w) u s), set_subs (jset i (apply_sub_update (sw_now w) u s) (sw_subs w)) w).
Proof. intros H. unfold sub_update. erewrite bind_run by done. rewrite H. done. Qed.

(** Updates that do not move the period. *)
Lemma plain_update_good w i u :
  up_currentPeriodStart u = None → up_currentPeriodEnd u = None →
  (∀ s, jget i (sw_subs w) = Some s → su_status s = cancelled → default cancelled (up_status u) = cancelled) →
  good w (sub_update i u w).2.
Proof.
  intros Hs He Hc. destruct (jget i (sw_subs w)) as [s |] eqn:Hi.
  - rewrite (sub_update_run _ _ _ s) by done. simpl. apply set_sub_good.
    + intros s0. rewrite Hi. intros [= <-]. do 5 (split; [done |]). simpl. rewrite Hs, He. split; [simpl; lia |]. intros Hst.
      specialize (Hc s eq_refl Hst). rewrite Hst. simpl. by destruct (up_status u).
    + intros Hok. destruct (sk_subs _ Hok i s Hi) as [Hid Hf Hp Hpaid]. split; simpl; rewrite ?Hs, ?He; done.
  - unfold sub_update. erewrite bind_run by done. rewrite Hi. by apply (reflexivity (R := good)).
Qed.

Lemma getSubscription_pure i w : (getSubscription i w).2 = w.
Proof. unfold getSubscription, sub_findById. erewrite bind_run by done. by destruct (jget i (sw_subs w)). Qed.

Lemma getSubscription_inv i w s : getSubscription i w = (inr s, w) → jget i (sw_subs w) = Some s.
Proof. unfold getSubscription, sub_findById. erewrite bind_run by done. destruct (jget i (sw_subs w)); [by intros [= <-] | done]. Qed.

Lemma getPlan_pure i w : (getSubscriptionPlan i w).2 = w.
Proof. unfold getSubscriptionPlan, plan_findById. erewrite bind_run by done. by destruct (jget i (sw_plans w)). Qed.

#[local] Hint Resolve emit_good plan_create_good charge_good : evolve.

Lemma pause_good i : evolves good (pauseSubscription i).
Proof.
  intros w. unfold pauseSubscription. apply pure_then; [apply _ | apply getSubscription_pure |]. intros s Hs%getSubscription_inv.
  apply pure_then; [apply _ | apply throw_if_pure |]. intros [] Hst%throw_if_run. destruct Hst as [Hst _]. apply bool_decide_eq_false in Hst.
  apply evolves_from; [apply _ | | intros a; evolve]. apply plain_update_good; [done | done |]. intros s0. rewrite Hs. by intros [= <-].
Qed.

Lemma resume_good i : evolves good (resumeSubscription i).
Proof.
  intros w. unfold resumeSubscription. apply pure_then; [apply _ | apply getSubscription_pure |]. intros s Hs%getSubscription_inv.
  apply pure_then; [apply _ | apply throw_if_pure |]. intros [] Hst%throw_if_run. destruct Hst as [Hst _].
  apply negb_false_iff, bool_decide_eq_true in Hst.
  apply plain_update_good; [done | done |]. intros s0. rewrite Hs. intros [= <-]. congruence.
Qed.

Lemma cancel_good i b : evolves good (cancelSubscription i b).
Proof.
  intros w. unfold cancelSubscription. apply pure_then; [apply _ | apply getSubscription_pure |]. intros s Hs%getSubscription_inv.
  destruct (bool_decide_reflect (su_status s = cancelled)) as [Hst | Hst]; [by apply (reflexivity (R := good)) |].
  destruct b; [| apply evolves_from; [apply _ | | intros a; evolve]]; by apply plain_update_good.
Qed.

Lemma change_good i p : evolves good (changeSubscriptionPlan i p).
Proof.
  intros w. unfold changeSubscriptionPlan. apply pure_then; [apply _ | apply getSubscription_pure |]. intros s Hs%getSubscription_inv.
  apply pure_then; [apply _ | apply getPlan_pure |]. intros q _. apply evolves_from; [apply _ | | intros a; evolve].
  by apply plain_update_good.
Qed.

Lemma resolve_pure plan u w : (resolveChargeAmount plan u w).2 = w.
Proof.
  unfold resolveChargeAmount. destruct u as [u |]; [| done]. destruct (pl_usageBased plan); [| done].
  destruct (pl_maxAmount plan) as [m |]; [| done]. unfold BigInt_throw. destruct (BigInt u); [| done]. erewrite bind_run by done.
  destruct (BigInt m); [| done]. done.
Qed.

(** After a successful charge the subscription moves to the paid period. *)
Lemma advance_good w i s start end_ :
  jget i (sw_subs w) = Some s → su_status s ≠ cancelled → su_currentPeriodEnd s = start → start < end_ → period_paid w i start →
  good w (sub_update i (next_period start end_) w).2.
Proof.
  intros Hi Hst Hstart Hend Hpaid. rewrite (sub_update_run _ _ _ s) by done. simpl. intros Hok.
  destruct (sk_subs _ Hok i s Hi) as [Hid Hf Hp _]. revert Hok. apply set_sub_good.
  - intros s0. rewrite Hi. intros [= <-]. do 5 (split; [done |]). simpl. split; [lia | done].
  - intros _. split; simpl; [done | done | done | by right].
Qed.

Lemma renew_good i o : evolves good (renewSubscription i o).
Proof.
  intros w. unfold renewSubscription. apply pure_then; [apply _ | apply getSubscription_pure |]. intros s Hs%getSubscription_inv.
  apply pure_then; [apply _ | apply getPlan_pure |]. intros plan _.
  apply pure_then; [apply _ | apply throw_if_pure |]. intros [] Hst%throw_if_run. destruct Hst as [Hst _].
  apply pure_then; [apply _ | done |]. intros now _. destruct (negb (ro_force o) && (now <? su_currentPeriodEnd s)); [by apply (reflexivity (R := good)) |].
  apply pure_then; [apply _ | apply resolve_pure |]. intros amount _.
  apply pure_then; [apply _ | done |]. intros e He. injection He as He.
  apply pure_then; [apply _ | by destruct e |]. intros end_ [He' _]%some_or_throw_run. subst e.
  apply add_interval_ends in He as [Hn Hend].
  assert (Hlt : su_currentPeriodEnd s < end_) by (rewrite Hend; by apply period_end_later).
  unfold mbind at 1, M_bind at 1.
  destruct (chargeSubscriptionPeriod s plan (su_currentPeriodEnd s) end_ amount w) as [[x | c] w1] eqn:Hch;
    pose proof (charge_good s plan (su_currentPeriodEnd s) end_ amount w) as Hg; rewrite Hch in Hg; simpl in Hg; [exact Hg |].
  intros Hok. destruct (charge_effect _ _ _ _ _ _ _ _ (sk_charges _ Hok) Hch) as ((_ & Hs1 & _) & _ & _ & Hrow & _).
  specialize (Hrow c eq_refl). rewrite <-Hs1 in Hs. pose proof (so_id _ _ _ (sk_subs _ Hok i s ltac:(by rewrite <-Hs1))) as Hid.
  revert Hok. apply (transitivity (R := good) (y := w1)); [done |].
  destruct (bool_decide_reflect (sc_status c = ch_succeeded)) as [Hsuc | Hsuc].
  - apply evolves_from; [apply _ | | intros a; evolve]. apply (advance_good w1 i s); [done | | done | done |].
    + intros E. by rewrite E in Hst.
    + rewrite Hid in Hrow. destruct Hrow as [Hk Hc]. by exists (sc_id c), c.
  - apply evolves_from; [apply _ | | intros a; evolve]. apply plain_update_good; [done | done |].
    intros s0. rewrite Hs. intros [= <-] E. by rewrite E in Hst.
Qed.

Lemma used_id_good w : good w (used_id w).
Proof. apply same_subs_good; [done |]. apply same_ledger; [done | done | simpl; lia]. Qed.

(** A new subscription has an unused identifier. *)
Lemma sub_create_good input w :
  ci_currentPeriodStart input = sw_now w → ci_currentPeriodStart input < ci_currentPeriodEnd input →
  good w (sub_create input w).2 ∧
  ∀ s w', sub_create input w = (inr s, w') → jget (su_id s) (sw_subs w') = Some s ∧ su_currentPeriodEnd s = ci_currentPeriodEnd input ∧
    (ci_status input ≠ cancelled → su_status s ≠ cancelled).
Proof.
  intros Hnow Hlt. unfold sub_create, uuid. erewrite bind_run by done. rewrite bind_assoc_run. erewrite bind_run by done.
  rewrite bind_assoc_run. erewrite bind_run by done. erewrite bind_run by done. erewrite bind_run by done.
  split; [| intros s w' [= <- <-]; simpl; by rewrite jget_jset_eq].
  intros Hok. destruct (used_id_good w Hok) as [Hok1 Hm1].
  assert (Hnew : jget (randomUUID (sw_ids w)) (sw_subs w) = None).
  { destruct (jget (randomUUID (sw_ids w)) (sw_subs w)) as [s |] eqn:E; [| reflexivity].
    destruct (so_fresh _ _ _ (sk_subs _ Hok _ _ E)) as (n & Hn & En). apply uuid_fresh in En. lia. }
  destruct (set_sub_good (used_id w) (randomUUID (sw_ids w)) {|
    su_id := randomUUID (sw_ids w); su_planId := cs_planId (ci_input input); su_buyerAddress := cs_buyerAddress (ci_input input);
    su_sellerAddress := cs_sellerAddress (ci_input input); su_status := ci_status input;
    su_currentPeriodStart := ci_currentPeriodStart input; su_currentPeriodEnd := ci_currentPeriodEnd input;
    su_trialEnd := ci_trialEnd input; su_cancelAtPeriodEnd := false; su_paymentMethod := cs_paymentMethod (ci_input input);
    su_createdAt := sw_now w; su_updatedAt := sw_now w |}) as [Hok2 Hm2]; [| | done |].
  - intros s. simpl. by rewrite Hnew.
  - intros _. split; simpl; [done | exists (sw_ids w); split; [lia | done] | done | by left].
  - split; [done | by etrans].
Qed.

Lemma initial_period now interval n trial p :
  computeInitialPeriod now interval n trial = inr p →
  periodStart p = now ∧ ∀ e, periodEnd p = Some e → now < e.
Proof.
  unfold computeInitialPeriod. destruct (Z.ltb_spec 0 (default 0 trial)) as [Ht | Ht].
  - intros [= <-]. simpl. split; [done |]. unfold TimeClip. intros e. destruct (Z.abs _ <=? _); [| done].
    intros [= <-]. unfold DAY_MS. lia.
  - destruct (addBillingInterval now interval n) as [x | e] eqn:E; [done |]. intros [= <-]. simpl. split; [done |].
    intros e0 ->. apply add_interval_ends in E as [Hn ->]. by apply period_end_later.
Qed.

Lemma create_good input : evolves good (createSubscription input).
Proof.
  intros w. unfold createSubscription. apply pure_then; [apply _ | apply getPlan_pure |]. intros plan _.
  apply pure_then; [apply _ | done |]. intros now Hnow. injection Hnow as <-.
  apply pure_then; [apply _ | done |]. intros p Hp. injection Hp as Hp. apply initial_period in Hp as [Hstart Hend].
  apply pure_then; [apply _ | by destruct (periodEnd p) |]. intros end_ [He _]%some_or_throw_run.
  set (input' := {| ci_input := input; ci_status := _; ci_currentPeriodStart := periodStart p; ci_currentPeriodEnd := end_; ci_trialEnd := _ |}).
  destruct (sub_create_good input' w) as [Hg Hrow]; [done | simpl; rewrite Hstart; auto |].
  unfold mbind at 1, M_bind at 1. destruct (sub_create input' w) as [[x | s] w1]; simpl in Hg; [exact Hg |].
  apply (transitivity (R := good) (y := w1)); [done |]. destruct (Hrow s w1 eq_refl) as (Hget & _ & Hst).
  assert (Hnc : su_status s ≠ cancelled) by (apply Hst; simpl; by case_match).
  unfold mbind at 1, M_bind at 1. unfold emitSubscriptionEvent at 1. erewrite bind_run by done. simpl.
  set (w2 := set_events _ w1). apply (transitivity (R := good) (y := w2)); [apply same_subs_good; [done | by apply same_ledger] |].
  assert (Hget2 : jget (su_id s) (sw_subs w2) = Some s) by done. clearbody w2. clear Hget Hg Hrow.
  destruct (match ip_trialEnd p with Some _ => true | None => false end); [by apply (reflexivity (R := good)) |].
  unfold mbind at 1, M_bind at 1.
  destruct (chargeSubscriptionPeriod s plan (periodStart p) end_ (pl_amount plan) w2) as [[x | c] w3] eqn:Hch;
    pose proof (charge_good s plan (periodStart p) end_ (pl_amount plan) w2) as Hg; rewrite Hch in Hg; simpl in Hg; [exact Hg |].
  intros Hok. destruct (charge_effect _ _ _ _ _ _ _ _ (sk_charges _ Hok) Hch) as ((_ & Hs1 & _) & _).
  revert Hok. apply (transitivity (R := good) (y := w3)); [done |].
  destruct (bool_decide (sc_status c = ch_succeeded)); [by apply (reflexivity (R := good)) |].
  apply evolves_from; [apply _ | | intros a; evolve]. apply plain_update_good; [done | done |].
  rewrite Hs1. intros s0. rewrite Hget2. by intros [= <-].
Qed.

#[local] Hint Resolve renew_good : evolve.

Lemma fold_each_good {A} (f : Subscription → A → M sworld A) l a :
  (∀ s a, evolves good (f s a)) → evolves good (fold_each f l a).
Proof.
  intros Hf. revert a. induction l as [| s l IH]; intros a; simpl; [apply evolves_ret, _ |].
  apply evolves_bind; [apply _ | apply Hf | intros b; apply IH].
Qed.

Lemma renew_due_good s r : evolves good (renew_due s r).
Proof. unfold renew_due. evolve. Qed.

Lemma cancel_ended_good s r : evolves good (cancel_ended s r).
Proof.
  unfold cancel_ended. apply evolves_try; [apply _ | | intros e; evolve].
  apply evolves_bind; [apply _ | | intros a; evolve]. intros w. by apply plain_update_good.
Qed.

Lemma cycle_good now : evolves good (runBillingCycle now).
Proof.
  unfold runBillingCycle, findDue, findPendingCancellation. evolve.
  - apply fold_each_good, renew_due_good.
  - apply fold_each_good, cancel_ended_good.
Qed.

(** ** The billing cycle *)

Definition row_kept (i : string) w w' : Prop := jget i (sw_subs w') = jget i (sw_subs w).
#[local] Instance row_kept_preorder i : PreOrder (row_kept i).
Proof. split; [done |]. intros w1 w2 w3 H1 H2. unfold row_kept in *. congruence. Qed.

Lemma in_place_row i j w w' : in_place j w w' → row_kept i w w'.
Proof. intros ((_ & H & _) & _). unfold row_kept. by rewrite H. Qed.

Lemma charge_modify_row i f j : (∀ c, same_charge c (f c)) → evolves (row_kept i) (charge_modify f j).
Proof. intros Hf w. eapply in_place_row. by apply charge_modify_in_place. Qed.

Lemma charge_same_row i s plan start end_ amount : evolves (row_kept i) (chargeSubscriptionPeriod s plan start end_ amount).
Proof.
  unfold chargeSubscriptionPeriod, charge_getOrCreate, uuid, getEscrowContractId. evolve; try (by apply evolves_modify).
  - by apply charge_modify_row.
  - intros w. eapply in_place_row, charge_transactions_in_place.
  - by apply charge_modify_row.
Qed.

Lemma sub_update_row i j u : i ≠ j → evolves (row_kept i) (sub_update j u).
Proof.
  intros Hne. unfold sub_update. evolve. apply evolves_modify. intros w. unfold row_kept. simpl. by rewrite jget_jset_ne.
Qed.

Lemma emit_row i j d : evolves (row_kept i) (emitSubscriptionEvent j d).
Proof. by intros w. Qed.
#[local] Hint Resolve charge_same_row sub_update_row emit_row : evolve.

Lemma renew_same_row i j o : i ≠ j → evolves (row_kept i) (renewSubscription j o).
Proof.
  intros Hne. unfold renewSubscription, getSubscription, getSubscriptionPlan, sub_findById, plan_findById, resolveChargeAmount, BigInt_throw, iso.
  evolve.
Qed.

Lemma fold_same_row {A} i (f : Subscription → A → M sworld A) l a :
  (∀ s a, s ∈ l → evolves (row_kept i) (f s a)) → evolves (row_kept i) (fold_each f l a).
Proof.
  revert a. induction l as [| s l IH]; intros a Hf; simpl; [apply evolves_ret, _ |].
  apply evolves_bind; [apply _ | apply Hf; left | intros b; apply IH; intros; apply Hf; by right].
Qed.

(** The renewal pass skips a subscription flagged for cancellation. *)
Lemma renew_pass_skips i s w r :
  subs_ok w → jget i (sw_subs w) = Some s → su_cancelAtPeriodEnd s = true →
  ∀ l, (∀ t, t ∈ l → t ∈ jvalues (sw_subs w)) → evolves (row_kept i) (fold_each renew_due l r).
Proof.
  intros Hok Hs Hflag l Hl. apply fold_same_row. intros t a Ht. unfold renew_due.
  destruct (su_cancelAtPeriodEnd t) eqn:Hft; [apply evolves_ret, _ |].
  assert (i ≠ su_id t) as Hne.
  { intros ->. apply Hl, list_elem_of_fmap in Ht as ([k t'] & -> & Hin). simpl in *.
    apply elem_jget in Hin; [| apply Hok]. pose proof (so_id _ _ _ (sk_subs _ Hok _ _ Hin)) as Hid.
    rewrite Hid in Hs. congruence. }
  evolve. by apply renew_same_row.
Qed.

(** Row [i] has the period of [s] and is cancelled. *)
Definition cancelled_row (i : string) (s : Subscription) w : Prop :=
  ∃ s', jget i (sw_subs w) = Some s' ∧ su_status s' = cancelled ∧
    su_currentPeriodStart s' = su_currentPeriodStart s ∧ su_currentPeriodEnd s' = su_currentPeriodEnd s.

Lemma cancel_ended_run t r w s :
  jget (su_id t) (sw_subs w) = Some s → ∃ r' w', cancel_ended t r w = (inr r', w') ∧ cancelled_row (su_id t) s w'.
Proof.
  intros Hs. unfold cancel_ended, try_catch. erewrite bind_run by (by apply sub_update_run). eexists _, _. split; [done |].
  eexists. simpl. by rewrite jget_jset_eq.
Qed.

Lemma cancel_ended_total t r w : ∃ r' w', cancel_ended t r w = (inr r', w').
Proof.
  unfold cancel_ended, try_catch. destruct (jget (su_id t) (sw_subs w)) as [s |] eqn:Hs.
  - erewrite bind_run by (by apply sub_update_run). by eexists _, _.
  - unfold sub_update. rewrite bind_assoc_run. erewrite bind_run by done. rewrite Hs. by eexists _, _.
Qed.

Lemma cancel_pass_keeps i s l r w :
  cancelled_row i s w → ∃ r' w', fold_each cancel_ended l r w = (inr r', w') ∧ cancelled_row i s w'.
Proof.
  revert r w. induction l as [| t l IH]; intros r w Hrow; [by eexists _, _ |]. simpl.
  destruct (cancel_ended_total t r w) as (r1 & w1 & H1). erewrite bind_run by exact H1. apply IH.
  destruct (decide (i = su_id t)) as [-> | Hne].
  - destruct Hrow as (s' & Hs' & _ & Ha & Hb). destruct (cancel_ended_run t r w s' Hs') as (r2 & w2 & H2 & (s2 & ? & ? & ? & ?)).
    rewrite H1 in H2. injection H2 as <- <-. exists s2. repeat split; congruence.
  - destruct Hrow as (s' & Hs' & Hc). exists s'. split; [| done].
    assert (evolves (row_kept i) (cancel_ended t r)) as E by (unfold cancel_ended; evolve).
    specialize (E w). rewrite H1 in E. unfold row_kept in E. simpl in E. congruence.
Qed.

Lemma cancel_pass_cancels i s l r w :
  jget i (sw_subs w) = Some s → i ∈ su_id <$> l → ∃ r' w', fold_each cancel_ended l r w = (inr r', w') ∧ cancelled_row i s w'.
Proof.
  revert r w. induction l as [| t l IH]; intros r w Hs Hin; [by apply elem_of_nil in Hin |]. simpl.
  destruct (cancel_ended_total t r w) as (r1 & w1 & H1). erewrite bind_run by exact H1.
  destruct (decide (i = su_id t)) as [-> | Hne].
  - destruct (cancel_ended_run t r w s Hs) as (r2 & w2 & H2 & Hrow). rewrite H1 in H2. injection H2 as <- <-. by apply cancel_pass_keeps.
  - rewrite fmap_cons, elem_of_cons in Hin. destruct Hin as [| Hin]; [done |]. apply IH; [| done].
    assert (evolves (row_kept i) (cancel_ended t r)) as E by (unfold cancel_ended; evolve).
    specialize (E w). rewrite H1 in E. unfold row_kept in E. simpl in E. congruence.
Qed.

Lemma renew_pass_total l r w : ∃ r' w', fold_each renew_due l r w = (inr r', w').
Proof.
  revert r w. induction l as [| t l IH]; intros r w; [by eexists _, _ |]. simpl.
  assert (∃ r1 w1, renew_due t r w = (inr r1, w1)) as (r1 & w1 & H1).
  { unfold renew_due. destruct (su_cancelAtPeriodEnd t); [by eexists _, _ |]. unfold try_catch. case_match. case_match; by eexists _, _. }
  erewrite bind_run by exact H1. apply IH.
Qed.

Lemma cycle_cancels w now i s :
  subs_ok w → jget i (sw_subs w) = Some s → is_pending_cancellation now s = true →
  ∃ r w', runBillingCycle now w = (inr r, w') ∧ cancelled_row i s w'.
Proof.
  intros Hok Hs Hp. unfold runBillingCycle, findDue, findPendingCancellation. erewrite bind_run by done.
  set (due := List.filter _ _). destruct (renew_pass_total due {| bc_renewed := []; bc_failed := []; bc_cancelled := [] |} w) as (r1 & w1 & H1).
  erewrite bind_run by exact H1. erewrite bind_run by done.
  assert (Hflag : su_cancelAtPeriodEnd s = true) by (unfold is_pending_cancellation in Hp; by destruct (su_cancelAtPeriodEnd s)).
  assert (Hs1 : jget i (sw_subs w1) = Some s).
  { assert (Hskip : evolves (row_kept i) (fold_each renew_due due {| bc_renewed := []; bc_failed := []; bc_cancelled := [] |})).
    { apply (renew_pass_skips i s w _ Hok Hs Hflag). intros t Ht. subst due. apply list_elem_of_In, filter_In in Ht as [Ht _].
      by apply list_elem_of_In. }
    specialize (Hskip w). rewrite H1 in Hskip. unfold row_kept in Hskip. simpl in Hskip. congruence. }
  assert (Hgood : good w w1).
  { pose proof (fold_each_good renew_due due {| bc_renewed := []; bc_failed := []; bc_cancelled := [] |} renew_due_good w) as Hg. by rewrite H1 in Hg. }
  destruct (Hgood Hok) as [Hok1 _]. apply cancel_pass_cancels; [done |].
  rewrite <-(so_id _ _ _ (sk_subs _ Hok1 _ _ Hs1)). apply list_elem_of_fmap_2, list_elem_of_In, filter_In. split; [| done].
  apply list_elem_of_In. unfold jvalues. apply list_elem_of_fmap. exists (i, s). split; [done | by apply jget_elem].
Qed.

(** ** Histories *)

(** Calls of the service, runs of the scheduler and the passing of time. *)
Inductive sub_op :=
| OpPlan (p : CreateSubscriptionPlanInput) | OpCreate (c : CreateSubscriptionInput)
| OpRenew (i : string) (o : RenewSubscriptionOptions) | OpPause (i : string) | OpResume (i : string)
| OpCancel (i : string) (atPeriodEnd : bool) | OpChange (i p : string) | OpCycle | OpWait (ms : N).

Definition sub_step w (o : sub_op) : sworld :=
  match o with
  | OpPlan p => (createSubscriptionPlan p w).2
  | OpCreate c => (createSubscription c w).2
  | OpRenew i o => (renewSubscription i o w).2
  | OpPause i => (pauseSubscription i w).2
  | OpResume i => (resumeSubscription i w).2
  | OpCancel i b => (cancelSubscription i b w).2
  | OpChange i p => (changeSubscriptionPlan i p w).2
  | OpCycle => (runBillingCycle (sw_now w) w).2
  | OpWait ms => set_chain (Chain (posted (sw_chain w)) (sw_now w + Z.of_N ms)) w
  end.

Definition sub_run w (ops : list sub_op) : sworld := foldl sub_step w ops.
Definition sub_init (now : Z) : sworld := SWorld [] [] [] [] [] (Chain [] now) 0.

Lemma sub_step_good w o : good w (sub_step w o).
Proof.
  destruct o; simpl; [apply plan_create_good | apply create_good | apply renew_good | apply pause_good | apply resume_good
    | apply cancel_good | apply change_good | apply cycle_good |].
  apply same_subs_good; [done | by apply same_ledger].
Qed.

Lemma sub_run_good w ops : good w (sub_run w ops).
Proof.
  revert w. induction ops as [| o ops IH]; intros w; [by apply (reflexivity (R := good)) |].
  simpl. etrans; [apply sub_step_good | apply IH].
Qed.

Lemma sub_init_ok now : subs_ok (sub_init now).
Proof. split; [split; done | constructor | done]. Qed.

(** Over any history, every subscription has a period that ends after it starts,
    and the period it is in is its first one or has a successful row in the charge
    ledger, which has one row per subscription and period. *)
Theorem subscription_invariant now ops : subs_ok (sub_run (sub_init now) ops).
Proof. apply sub_run_good, sub_init_ok. Qed.

(** Subscriptions are permanent and only move forward: whatever follows, a
    subscription keeps its parties, payment method and creation date, its period never
    moves back, and a cancelled subscription stays cancelled with the period it had. *)
Theorem subscription_lifecycle now ops ops' i s :
  jget i (sw_subs (sub_run (sub_init now) ops)) = Some s →
  ∃ s', jget i (sw_subs (sub_run (sub_run (sub_init now) ops) ops')) = Some s' ∧ sub_moves s s'.
Proof. intros Hs. destruct (sub_run_good (sub_run (sub_init now) ops) ops') as [_ [Hm _]]; [apply sub_run_good, sub_init_ok | auto]. Qed.

(** C16. A period is paid for once: after its charge succeeded, whatever follows,
    charging it again returns the row, posts nothing to the chain and changes
    nothing. *)
Theorem period_paid_once now ops ops' s plan start end_ amount j c :
  let w := sub_run (sub_init now) ops in
  let w' := sub_run w ops' in
  jget (periodKey (su_id s) start) (sw_byPeriod w) = Some j → jget j (sw_charges w) = Some c → sc_status c = ch_succeeded →
  chargeSubscriptionPeriod s plan start end_ amount w' = (inr c, w').
Proof.
  intros w w' Hj Hc Hst. assert (Hok : subs_ok w) by apply sub_run_good, sub_init_ok.
  destruct (sub_run_good w ops' Hok) as [Hok' [_ (Hrow & Hkey & _)]]. fold w' in Hok', Hrow, Hkey.
  destruct (Hrow j c Hc) as (c' & Hc' & _ & E). rewrite (E Hst) in Hc'.
  destruct (chargeSubscriptionPeriod s plan start end_ amount w') as [r w''] eqn:H.
  destruct (charge_effect _ _ _ _ _ _ _ _ (sk_charges _ Hok') H) as (_ & _ & _ & _ & Hpaid).
  by destruct (Hpaid j c (Hkey _ _ Hj) Hc' Hst) as [-> ->].
Qed.

(** A billing cycle always completes, and cancels every subscription that was
    flagged for cancellation and whose period has ended, in the period it had: it is
    not renewed once more. *)
Theorem cycle_finalizes_cancellations now ops i s :
  let w := sub_run (sub_init now) ops in
  jget i (sw_subs w) = Some s → is_pending_cancellation (sw_now w) s = true →
  ∃ r w', runBillingCycle (sw_now w) w = (inr r, w') ∧ cancelled_row i s w'.
Proof. intros w. apply cycle_cancels, sub_run_good, sub_init_ok. Qed.
End correct.

(** ** Subscriptions on concrete runs

    An environment in which chosen requests fail, the witnesses of the theorems, and
    behaviours that contradict the comments of the code. *)

(** The wallet service answers every request; the one at position [bad] is reported
    unsuccessful. *)
Definition sub_env (bad : nat) : SubscriptionEnv := {|
  sub_chain := {|
    service_token := Some "t";
    wallet_http := λ before _, Reply 200 (Some {|
      api_data := Some {| hash := dec (Z.of_nat (length before)); ledger := 1; success := negb (Nat.eqb (length before) bad) |};
      api_error := None |});
    rpc_getTransaction := λ _, inr {| rpc_success := true; rpc_returnValue := Some "7" |};
    sha256 := λ _, [] |};
  randomUUID := λ n, dec (Z.of_nat n);
  escrow_contract_id := Some "C";
  DEFAULT_TIMEOUT_LEDGERS := 17280 |}.

Lemma sub_env_fresh bad : Inj (=) (=) (@randomUUID (sub_env bad)).
Proof. intros n m H. simpl in H. apply dec_inj in H. lia. Qed.

Lemma sub_env_text bad n : @randomUUID (sub_env bad) n ≠ "".
Proof.
  intros H. change (dec (Z.of_nat n) = "") in H. pose proof (f_equal BigInt H) as E. rewrite BigInt_dec in E.
  change (BigInt "") with (Some 0) in E. injection E as E. assert (n = 0%nat) as -> by lia. vm_compute in H. discriminate.
Qed.

Definition daily_plan : CreateSubscriptionPlanInput := {|
  cp_merchantId := "M"; cp_name := "daily"; cp_description := None; cp_amount := "100"; cp_currency := "T";
  cp_interval := day; cp_intervalCount := None; cp_trialDays := None; cp_usageBased := None; cp_maxAmount := None |}.
Definition subscribe (t : payment_type) : CreateSubscriptionInput := {|
  cs_planId := "0"; cs_buyerAddress := "B"; cs_sellerAddress := "S";
  cs_paymentMethod := {| pm_type := t; pm_escrowContractId := None |}; cs_trialDaysOverride := None |}.

(** A plan, a subscription with number 1, a day, a billing cycle. *)
Definition sub_demo_ops : list sub_op := [OpPlan daily_plan; OpCreate (subscribe by_escrow); OpWait 86400000; OpCycle].
Local Notation sub_demo bad ops := (sub_run (SE := sub_env bad) (sub_init 0) ops).

Lemma subscription_invariant_witness :
  subs_ok (SE := sub_env 9) (sub_demo 9 sub_demo_ops) ∧ (su_currentPeriodStart <$> jvalues (sw_subs (sub_demo 9 sub_demo_ops))) = [86400000].
Proof. split; [apply (subscription_invariant (sub_env_fresh 9) (sub_env_text 9)) | by vm_compute]. Defined.

Lemma subscription_lifecycle_witness :
  ∃ s s', jget "1" (sw_subs (sub_demo 9 (sub_demo_ops ++ [OpCancel "1" false]))) = Some s ∧ su_status s = cancelled ∧
    jget "1" (sw_subs (sub_run (SE := sub_env 9) (sub_demo 9 (sub_demo_ops ++ [OpCancel "1" false])) [OpWait 86400000; OpCycle])) = Some s' ∧
    sub_moves s s'.
Proof.
  destruct (jget "1" (sw_subs (sub_demo 9 (sub_demo_ops ++ [OpCancel "1" false])))) as [s |] eqn:E; [| vm_compute in E; discriminate].
  destruct (subscription_lifecycle (sub_env_fresh 9) (sub_env_text 9) 0 (sub_demo_ops ++ [OpCancel "1" false])
    [OpWait 86400000; OpCycle] "1" s E) as (s' & H & Hm).
  exists s, s'. split; [done |]. split; [vm_compute in E; by injection E as <- | by split].
Defined.

Lemma period_paid_once_witness :
  ∃ s plan c, let w := sub_run (SE := sub_env 9) (sub_demo 9 sub_demo_ops) [OpCycle; OpWait 5] in
    chargeSubscriptionPeriod (SE := sub_env 9) s plan 86400000 172800000 "100" w = (inr c, w) ∧ sc_status c = ch_succeeded.
Proof.
  destruct (jget "1" (sw_subs (sub_demo 9 sub_demo_ops))) as [s |] eqn:Es; [| vm_compute in Es; discriminate].
  destruct (jget "0" (sw_plans (sub_demo 9 sub_demo_ops))) as [plan |] eqn:Ep; [| vm_compute in Ep; discriminate].
  destruct (jget "3" (sw_charges (sub_demo 9 sub_demo_ops))) as [c |] eqn:Ec; [| vm_compute in Ec; discriminate].
  assert (Hid : su_id s = "1") by (vm_compute in Es; by injection Es as <-).
  assert (Hst : sc_status c = ch_succeeded) by (vm_compute in Ec; by injection Ec as <-).
  exists s, plan, c. split; [| done].
  refine (period_paid_once (sub_env_fresh 9) (sub_env_text 9) 0 sub_demo_ops [OpCycle; OpWait 5] s plan 86400000 172800000 "100" "3" c _ Ec Hst).
  rewrite Hid. by vm_compute.
Defined.

Definition flagged_ops : list sub_op := [OpPlan daily_plan; OpCreate (subscribe by_escrow); OpCancel "1" true; OpWait 86400000].

Lemma cycle_finalizes_cancellations_witness :
  ∃ s r w', let w := sub_demo 9 flagged_ops in
    runBillingCycle (SE := sub_env 9) (sw_now w) w = (inr r, w') ∧ cancelled_row "1" s w' ∧ su_status s = active.
Proof.
  destruct (jget "1" (sw_subs (sub_demo 9 flagged_ops))) as [s |] eqn:Es; [| vm_compute in Es; discriminate].
  assert (Hst : su_status s = active) by (vm_compute in Es; by injection Es as <-).
  destruct (cycle_finalizes_cancellations (sub_env_fresh 9) (sub_env_text 9) 0 flagged_ops "1" s Es) as (r & w' & H & Hc);
    [vm_compute in Es; injection Es as <-; by vm_compute |].
  exists s, r, w'. split; [exact H | by split].
Defined.

(** ** Departures from the comments *)

Definition deposits (w : sworld) : list string :=
  memo <$> List.filter (λ r, String.eqb (method r) "deposit") (posted (sw_chain w)).

(** A release that fails after the deposit leaves the deposit in escrow and the charge
    failed; the next cycle deposits the amount of the same period again. *)
Theorem failed_release_deposits_twice :
  let w := sub_demo 3 (sub_demo_ops ++ [OpCycle]) in
  ∃ c, jget "3" (sw_charges w) = Some c ∧ sc_status c = ch_succeeded ∧ sc_attemptCount c = 2 ∧
    deposits w = ["Subscription 1 charge for period starting 1970-01-01T00:00:00.000Z";
                  "Subscription 1 charge for period starting 1970-01-02T00:00:00.000Z";
                  "Subscription 1 charge for period starting 1970-01-02T00:00:00.000Z"].
Proof. vm_compute. by eexists. Qed.

(** A first charge that fails is never tried again: retrying the payment charges the
    second period, and the subscription is active with its first period unpaid. *)
Theorem failed_first_period_never_charged :
  let w := sub_demo 0 [OpPlan daily_plan; OpCreate (subscribe by_escrow); OpRenew "1" {| ro_usageAmount := None; ro_force := true |}] in
  ∃ s c, jget "1" (sw_subs w) = Some s ∧ su_status s = active ∧ su_currentPeriodStart s = 86400000 ∧
    jget (periodKey "1" 0) (sw_byPeriod w) = Some "2" ∧ jget "2" (sw_charges w) = Some c ∧ sc_status c = ch_failed.
Proof. vm_compute. by eexists _, _. Qed.

(** A subscription paid by wallet is refused after it was stored as active. *)
Theorem refused_subscription_active :
  let w := sub_demo 9 [OpPlan daily_plan] in
  let out := createSubscription (SE := sub_env 9) (subscribe by_wallet) w in
  out.1 = inl (UnsupportedPaymentMethodError "wallet") ∧
  ∃ s, jget "1" (sw_subs out.2) = Some s ∧ su_status s = active.
Proof. vm_compute. split; [done | by eexists]. Qed.
