(* ===== verification/Inventory.v ===== *)
(** * Inventory reservations (apps/backend/orchestrator/src/inventory/)

    reservation.ts: stock is reserved and released for the items of an order in one
    database transaction; lowStockAlerts.ts: the alerts after a committed change.  The
    tables are those of the migrations 045, 047 and 057; the lock service, the
    connection, the collation of [localeCompare], the product table and the queue of
    alerts are parameters. *)
From S2P Require Import Prelude JsLib.
Local Open Scope Z_scope.

Record InventoryReservationItem := { it_merchantId : string; it_productId : string; it_quantity : number; it_orderId : option string }.

Definition InsufficientStockError (productId : string) : exn :=
  Exn "InsufficientStockError" ("Insufficient stock for product " +:+ productId).
Definition DuplicateReservationError (orderId productId : string) : exn :=
  Exn "DuplicateReservationError" ("Order " +:+ orderId +:+ " already has a reservation for product " +:+ productId).

(** ** Tables *)

Record InventoryRow := {
  in_id : string; in_merchantId : string; in_productId : string; in_available : Z; in_reserved : Z; in_threshold : option Z
}.

Inductive ReservationStatus := reserved | released.
Record ReservationRow := {
  rv_merchantId : string; rv_orderId : string; rv_productId : string; rv_quantity : Z; rv_status : ReservationStatus
}.

Record InventoryLevel := { lv_merchantId : string; lv_productId : string; lv_availableStock : Z; lv_lowStockThreshold : option Z }.
Record LowStockAlertPayload := {
  al_merchantId : string; al_productId : string; al_sku : string; al_title : string; al_currentStock : Z;
  al_threshold : Z; al_triggeredAt : Z
}.

(** The two tables, the debounce keys in Redis with their expiry, the alerts put on
    the queue, and the clock. *)
Record invdb := InvDb {
  iv_rows : list InventoryRow; iv_reservations : list ReservationRow; iv_claims : jsmap Z;
  iv_alerts : list LowStockAlertPayload; iv_now : Z
}.

Class InventoryEnv := {
  (** [left.localeCompare(right) > 0] *)
  locale_after : string → string → bool;
  lock_error : list string → Z → option exn;
  unlock_error : Z → option exn;
  connect_error : Z → option exn;
  (** the alert service is configured *)
  alerts_on : bool;
  debounceSeconds : Z;
  alert_redis_error : Z → option exn;
  getProductDetails : string → exn + option (string * string);
  queue_error : LowStockAlertPayload → option exn
}.

(** Errors of PostgreSQL: the code 23505, and a column out of its range. *)
Definition UniqueViolation : exn := Exn "DatabaseError" "duplicate key value violates unique constraint uq_merchant_order_reservation".
Definition OutOfRange : exn := Exn "DatabaseError" "integer out of range".
Definition isUniqueViolation (e : exn) : bool := bool_decide (e = UniqueViolation).

Definition int32_ok (z : Z) : bool := (- 2 ^ 31 <=? z) && (z <=? 2 ^ 31 - 1).

Inductive operation := op_reserve | op_release.

Section service.
Context `{IE : InventoryEnv}.

Definition fail_with (o : option exn) : M invdb () := match o with Some e => throw e | None => mret () end.

(** ** lowStockAlerts.ts *)

Definition lowStockDebounceKey (merchantId productId : string) : string :=
  "inventory:low_stock:alerted:" +:+ merchantId +:+ ":" +:+ productId.

Definition set_claims (m : jsmap Z) (d : invdb) : invdb := InvDb (iv_rows d) (iv_reservations d) m (iv_alerts d) (iv_now d).

Definition del_claim (k : string) : M invdb () :=
  t ← gets iv_now; fail_with (alert_redis_error t);;
  modify (λ d, set_claims (List.filter (λ e, negb (String.eqb e.1 k)) (iv_claims d)) d).

(** [SET key value EX seconds NX] *)
Definition claim (k : string) : M invdb bool :=
  t ← gets iv_now; fail_with (alert_redis_error t);;
  held ← gets (λ d, jget k (iv_claims d));
  if match held with Some e => t <? e | None => false end then mret false
  else modify (λ d, set_claims (jset k (t + debounceSeconds * 1000) (iv_claims d)) d);; mret true.

Definition publish (p : LowStockAlertPayload) : M invdb () :=
  fail_with (queue_error p);;
  modify (λ d, InvDb (iv_rows d) (iv_reservations d) (iv_claims d) (iv_alerts d ++ [p]) (iv_now d)).

Definition evaluate (level : InventoryLevel) : M invdb (option LowStockAlertPayload) :=
  match lv_lowStockThreshold level with
  | None => mret None
  | Some threshold =>
      let key := lowStockDebounceKey (lv_merchantId level) (lv_productId level) in
      if threshold <? lv_availableStock level then del_claim key;; mret None
      else
        claimed ← claim key;
        if negb claimed then mret None
        else
          try_catch
            (details ← answer (getProductDetails (lv_productId level));
             now ← gets iv_now;
             let payload := {|
               al_merchantId := lv_merchantId level; al_productId := lv_productId level;
               al_sku := from_option fst "" details; al_title := from_option snd "" details;
               al_currentStock := lv_availableStock level; al_threshold := threshold; al_triggeredAt := now |} in
             publish payload;; mret (Some payload))
            (λ e, try_catch (del_claim key) (λ _, mret ());; throw e)
  end.

Fixpoint onStockLevelsChanged (levels : list InventoryLevel) : M invdb (list LowStockAlertPayload) :=
  match levels with
  | [] => mret []
  | level :: rest =>
      p ← try_catch (evaluate level) (λ _, mret None);
      ps ← onStockLevelsChanged rest;
      mret (match p with Some x => x :: ps | None => ps end)
  end.

(** ** reservation.ts *)

Definition item_key (i : InventoryReservationItem) : string := it_merchantId i +:+ ":" +:+ it_productId i.

(** [items.sort(...)]: stable *)
Fixpoint insert_item (i : InventoryReservationItem) (l : list InventoryReservationItem) : list InventoryReservationItem :=
  match l with
  | [] => [i]
  | j :: l' => if locale_after (item_key j) (item_key i) then i :: l else j :: insert_item i l'
  end.
Definition sort_items (l : list InventoryReservationItem) : list InventoryReservationItem := foldl (flip insert_item) [] l.

(** [[...new Set(l)]] *)
Definition dedup (l : list string) : list string := foldl (λ acc s, if existsb (String.eqb s) acc then acc else acc ++ [s]) [] l.

Definition quantity (i : InventoryReservationItem) : Z := match it_quantity i with Int q => q | NonInteger => 0 end.

Definition find_stock (i : InventoryReservationItem) (d : invdb) : option (nat * InventoryRow) :=
  find_row (λ r, String.eqb (in_merchantId r) (it_merchantId i) && String.eqb (in_productId r) (it_productId i)) (iv_rows d).

Definition with_stock (available reserved_ : Z) (r : InventoryRow) : InventoryRow := {|
  in_id := in_id r; in_merchantId := in_merchantId r; in_productId := in_productId r; in_available := available;
  in_reserved := reserved_; in_threshold := in_threshold r |}.

Definition same_reservation (i : InventoryReservationItem) (o : string) (v : ReservationRow) : bool :=
  String.eqb (rv_merchantId v) (it_merchantId i) && String.eqb (rv_orderId v) o && String.eqb (rv_productId v) (it_productId i).

Definition set_tables (rows : list InventoryRow) (rs : list ReservationRow) (d : invdb) : invdb :=
  InvDb rows rs (iv_claims d) (iv_alerts d) (iv_now d).

(** The reservation row of the order is inserted or marked as released. *)
Definition record_reservation (op : operation) (i : InventoryReservationItem) : M invdb () :=
  if truthy (it_orderId i) then
    let o := default "" (it_orderId i) in
    match op with
    | op_reserve =>
        dup ← gets (λ d, existsb (same_reservation i o) (iv_reservations d));
        throw_if dup UniqueViolation;;
        modify (λ d, set_tables (iv_rows d) (iv_reservations d ++ [{|
          rv_merchantId := it_merchantId i; rv_orderId := o; rv_productId := it_productId i;
          rv_quantity := quantity i; rv_status := reserved |}]) d)
    | op_release =>
        modify (λ d, set_tables (iv_rows d) ((λ v,
          if same_reservation i o v && match rv_status v with reserved => true | released => false end
          then {| rv_merchantId := rv_merchantId v; rv_orderId := rv_orderId v; rv_productId := rv_productId v;
                  rv_quantity := rv_quantity v; rv_status := released |}
          else v) <$> iv_reservations d) d)
    end
  else mret ().

(** One item of the transaction. *)
Definition update_item (op : operation) (i : InventoryReservationItem) (levels : jsmap InventoryLevel)
    : M invdb (jsmap InventoryLevel) :=
  found ← gets (find_stock i);
  match found with
  | None => throw (InsufficientStockError (it_productId i))
  | Some (n, inventory) =>
      let q := quantity i in
      throw_if (match op with op_reserve => in_available inventory <? q | op_release => false end)
        (InsufficientStockError (it_productId i));;
      throw_if (match op with op_reserve => false | op_release => in_reserved inventory <? q end)
        (Error ("Cannot release more than the reserved stock for product " +:+ it_productId i));;
      let available := match op with op_reserve => in_available inventory - q | op_release => in_available inventory + q end in
      let held := match op with op_reserve => in_reserved inventory + q | op_release => in_reserved inventory - q end in
      throw_if (negb (int32_ok available && int32_ok held)) OutOfRange;;
      modify (λ d, set_tables (<[n := with_stock available held inventory]> (iv_rows d)) (iv_reservations d) d);;
      let before := from_option lv_availableStock (in_available inventory) (jget (item_key i) levels) in
      let levels' := jset (item_key i) {|
        lv_merchantId := it_merchantId i; lv_productId := it_productId i;
        lv_availableStock := match op with op_reserve => before - q | op_release => before + q end;
        lv_lowStockThreshold := in_threshold inventory |} levels in
      record_reservation op i;;
      mret levels'
  end.

Fixpoint update_items (op : operation) (l : list InventoryReservationItem) (levels : jsmap InventoryLevel)
    : M invdb (jsmap InventoryLevel) :=
  match l with
  | [] => mret levels
  | i :: l' => levels' ← update_item op i levels; update_items op l' levels'
  end.

(** [BEGIN] ... [COMMIT], or [ROLLBACK] *)
Definition transaction {A} (c : M invdb A) : M invdb A := λ d,
  match c d with
  | (inr a, d') => (inr a, d')
  | (inl e, d') => (inl e, set_tables (iv_rows d) (iv_reservations d) d')
  end.

Definition duplicate_of (l : list InventoryReservationItem) (e : exn) : exn :=
  if isUniqueViolation e then
    match List.find (λ c, truthy (it_orderId c)) l with
    | Some i => DuplicateReservationError (default "" (it_orderId i)) (it_productId i)
    | None => DuplicateReservationError "unknown" "unknown"
    end
  else e.

Definition bad_quantity (i : InventoryReservationItem) : bool := negb (isInteger (it_quantity i)) || (quantity i <=? 0).

Definition updateReservation (items : list InventoryReservationItem) (op : operation) : M invdb () :=
  match items with
  | [] => mret ()
  | _ =>
      throw_if (existsb bad_quantity items) (Error "Inventory reservation quantities must be positive integers");;
      let orderedItems := sort_items items in
      let resources := dedup ((λ i, "inventory:" +:+ item_key i) <$> orderedItems) in
      t ← gets iv_now;
      fail_with (lock_error resources t);;
      levels ← try_finally
        (try_catch
           (fail_with (connect_error t);; transaction (update_items op orderedItems []))
           (λ e, throw (duplicate_of orderedItems e)))
        (t' ← gets iv_now; fail_with (unlock_error t'));
      if alerts_on && negb (bool_decide (levels = [])) then
        try_catch (onStockLevelsChanged (jvalues levels);; mret ()) (λ _, mret ())
      else mret ()
  end.

Definition reserve (items : list InventoryReservationItem) : M invdb () := updateReservation items op_reserve.
Definition release (items : list InventoryReservationItem) : M invdb () := updateReservation items op_release.
End service.
