(* ===== verification/InventoryCorrect.v ===== *)
(** * What inventory reservations guarantee

    A reservation or release moves exactly the quantities of its items, or nothing;
    stock is conserved and never negative over any history, and an order reserves a
    product at most once. *)
From S2P Require Import Prelude JsLib Inventory.
Local Open Scope Z_scope.

(** The quantity the items ask for of one product. *)
Definition moved (m p : string) (l : list InventoryReservationItem) : Z :=
  foldr (λ i acc, (if String.eqb (it_merchantId i) m && String.eqb (it_productId i) p then quantity i else 0) + acc) 0 l.

Definition row_moved (op : operation) (l : list InventoryReservationItem) (r r' : InventoryRow) : Prop :=
  let q := moved (in_merchantId r) (in_productId r) l in
  in_id r' = in_id r ∧ in_merchantId r' = in_merchantId r ∧ in_productId r' = in_productId r ∧ in_threshold r' = in_threshold r ∧
  match op with
  | op_reserve => in_available r' = in_available r - q ∧ in_reserved r' = in_reserved r + q
  | op_release => in_available r' = in_available r + q ∧ in_reserved r' = in_reserved r - q
  end.

Definition stock_key (r : InventoryRow) : string * string := (in_merchantId r, in_productId r).
Definition order_key (v : ReservationRow) : string * string * string := (rv_merchantId v, rv_orderId v, rv_productId v).

(** The constraints of the tables. *)
Record tables_ok (d : invdb) : Prop := {
  tk_stock : NoDup (stock_key <$> iv_rows d);
  tk_nonneg : Forall (λ r, 0 ≤ in_available r ∧ 0 ≤ in_reserved r) (iv_rows d);
  tk_orders : NoDup (order_key <$> iv_reservations d)
}.

Section correct.
Context `{IE : InventoryEnv}.
Implicit Types d : invdb.

(** ** Sums *)

Lemma moved_app m p l k : moved m p (l ++ k) = moved m p l + moved m p k.
Proof. induction l as [| i l IH]; simpl; [done | rewrite IH; lia]. Qed.

Lemma moved_Permutation m p l k : l ≡ₚ k → moved m p l = moved m p k.
Proof. induction 1; simpl; [done | lia | lia | lia]. Qed.

Lemma insert_item_Permutation i l : insert_item i l ≡ₚ i :: l.
Proof.
  induction l as [| j l IH]; simpl; [done |]. destruct (locale_after _ _); [done |]. rewrite IH. constructor.
Qed.

Lemma sort_items_Permutation l : sort_items l ≡ₚ l.
Proof.
  unfold sort_items. assert (H : ∀ acc, foldl (flip insert_item) acc l ≡ₚ acc ++ l); [| by rewrite H].
  induction l as [| i l IH]; intros acc; simpl; [by rewrite app_nil_r |]. rewrite IH. unfold flip.
  rewrite insert_item_Permutation. apply Permutation_middle.
Qed.

Lemma row_moved_nil op r : row_moved op [] r r.
Proof. unfold row_moved. destruct op; simpl; repeat split; lia. Qed.

Lemma row_moved_app op l k r1 r2 r3 : row_moved op l r1 r2 → row_moved op k r2 r3 → row_moved op (l ++ k) r1 r3.
Proof.
  intros (Hi & Hm & Hp & Ht & H) (Hi' & Hm' & Hp' & Ht' & H'). do 4 (split; [congruence |]).
  rewrite Hm, Hp in H'. rewrite moved_app. destruct op; lia.
Qed.

Lemma Forall2_compose {A} (P Q R : relation A) a b c :
  (∀ x y z, P x y → Q y z → R x z) → Forall2 P a b → Forall2 Q b c → Forall2 R a c.
Proof.
  intros HR H1. revert c. induction H1 as [| x y a b Hxy _ IH]; intros c H2; inversion H2; subst; constructor; eauto.
Qed.

Lemma rows_moved_app op l k a b c :
  Forall2 (row_moved op l) a b → Forall2 (row_moved op k) b c → Forall2 (row_moved op (l ++ k)) a c.
Proof. apply Forall2_compose. intros x y z. apply row_moved_app. Qed.

Lemma rows_moved_keys op l a b : Forall2 (row_moved op l) a b → stock_key <$> b = stock_key <$> a.
Proof. induction 1 as [| r r' a b (_ & Hm & Hp & _) _ IH]; [done |]. rewrite !fmap_cons, IH. unfold stock_key at 1. by rewrite Hm, Hp. Qed.

(** ** One item *)

Lemma find_stock_inv i d n r :
  find_stock i d = Some (n, r) → iv_rows d !! n = Some r ∧ in_merchantId r = it_merchantId i ∧ in_productId r = it_productId i.
Proof.
  intros H. apply find_row_lookup in H as [Hn H]. apply andb_true_iff in H as [Hm Hp].
  apply String.eqb_eq in Hm, Hp. done.
Qed.

Lemma row_updated op i d n r available held :
  NoDup (stock_key <$> iv_rows d) → find_stock i d = Some (n, r) →
  (match op with
   | op_reserve => available = in_available r - quantity i ∧ held = in_reserved r + quantity i
   | op_release => available = in_available r + quantity i ∧ held = in_reserved r - quantity i
   end) →
  Forall2 (row_moved op [i]) (iv_rows d) (<[n := with_stock available held r]> (iv_rows d)).
Proof.
  intros Hnd Hf Hop. apply find_stock_inv in Hf as (Hn & Hm & Hp).
  apply Forall2_same_length_lookup. rewrite length_insert. split; [done |]. intros j x y Hx Hy.
  apply list_lookup_insert_Some in Hy as [(<- & <- & _) | [Hne Hy]].
  - simplify_eq. unfold row_moved. simpl. rewrite Hm, Hp, !String.eqb_refl. simpl. do 4 (split; [done |]). destruct op; lia.
  - simplify_eq. unfold row_moved. simpl. do 4 (split; [done |]).
    assert (String.eqb (it_merchantId i) (in_merchantId x) && String.eqb (it_productId i) (in_productId x) = false) as ->;
      [| destruct op; lia].
    apply not_true_iff_false. rewrite andb_true_iff, !String.eqb_eq. intros [Em Ep]. apply Hne.
    eapply (NoDup_lookup (stock_key <$> iv_rows d)); [done | by rewrite list_lookup_fmap, Hn |].
    rewrite list_lookup_fmap, Hx. simpl. unfold stock_key. congruence.
Qed.

(** What an item does to the order ledger. *)
Definition ledger_after (op : operation) (i : InventoryReservationItem) (rs : list ReservationRow) : list ReservationRow :=
  if truthy (it_orderId i) then
    let o := default "" (it_orderId i) in
    match op with
    | op_reserve => rs ++ [{| rv_merchantId := it_merchantId i; rv_orderId := o; rv_productId := it_productId i;
                              rv_quantity := quantity i; rv_status := reserved |}]
    | op_release => (λ v, if same_reservation i o v && match rv_status v with reserved => true | released => false end
        then {| rv_merchantId := rv_merchantId v; rv_orderId := rv_orderId v; rv_productId := rv_productId v;
                rv_quantity := rv_quantity v; rv_status := released |} else v) <$> rs
    end
  else rs.

Lemma ledger_NoDup op i rs :
  (op = op_reserve → truthy (it_orderId i) = true → existsb (same_reservation i (default "" (it_orderId i))) rs = false) →
  NoDup (order_key <$> rs) → NoDup (order_key <$> ledger_after op i rs).
Proof.
  intros Hnew Hnd. unfold ledger_after. destruct (truthy (it_orderId i)) eqn:Ht; [| done]. destruct op.
  - rewrite fmap_app. apply NoDup_app. split; [done |]. split; [| apply NoDup_singleton].
    intros k Hk ->%list_elem_of_singleton. apply list_elem_of_fmap in Hk as (v & Hv & Hin). specialize (Hnew eq_refl eq_refl).
    assert (existsb (same_reservation i (default "" (it_orderId i))) rs = true); [| congruence].
    apply existsb_exists. exists v. split; [by apply list_elem_of_In |]. unfold order_key in Hv. simpl in Hv. injection Hv as Hm Ho Hp.
    unfold same_reservation. by rewrite <-Hm, <-Ho, <-Hp, !String.eqb_refl.
  - rewrite <-list_fmap_compose. erewrite list_fmap_ext; [exact Hnd |]. intros _ v _. simpl. by case_match.
Qed.

Lemma record_reservation_run op i d u d' :
  record_reservation op i d = (inr u, d') →
  d' = set_tables (iv_rows d) (ledger_after op i (iv_reservations d)) d ∧
  (op = op_reserve → truthy (it_orderId i) = true → existsb (same_reservation i (default "" (it_orderId i))) (iv_reservations d) = false).
Proof.
  unfold record_reservation, ledger_after. destruct (truthy (it_orderId i)) eqn:Ht.
  - destruct op.
    + erewrite bind_run by done. intros H. apply bind_inr in H as ([] & d1 & H1 & H). apply throw_if_run in H1 as [H1 ->].
      injection H as _ <-. split; done.
    + intros [= _ <-]. done.
  - intros [= _ <-]. split; [by destruct d | done].
Qed.

(** An item that goes through. *)
Record item_effect (op : operation) (l : list InventoryReservationItem) d d' : Prop := {
  ie_rows : Forall2 (row_moved op l) (iv_rows d) (iv_rows d');
  ie_ledger : iv_reservations d' = foldl (λ rs i, ledger_after op i rs) (iv_reservations d) l;
  ie_rest : iv_claims d' = iv_claims d ∧ iv_alerts d' = iv_alerts d ∧ iv_now d' = iv_now d;
  ie_ok : tables_ok d'
}.

Lemma update_item_effect op i levels d lv d' :
  tables_ok d → 0 < quantity i → update_item op i levels d = (inr lv, d') → item_effect op [i] d d'.
Proof.
  intros [Hnd Hpos Hord] Hq H. unfold update_item in H. erewrite bind_run in H by done. cbv beta in H.
  destruct (find_stock i d) as [[n r] |] eqn:Hf; [| done].
  apply bind_inr in H as ([] & d1 & H1 & H). apply throw_if_run in H1 as [H1 ->].
  apply bind_inr in H as ([] & d1 & H2 & H). apply throw_if_run in H2 as [H2 ->].
  apply bind_inr in H as ([] & d1 & H3 & H). apply throw_if_run in H3 as [_ ->].
  erewrite bind_run in H by done. apply bind_inr in H as ([] & d2 & H4 & H). injection H as _ <-.
  set (available := match op with op_reserve => in_available r - quantity i | op_release => in_available r + quantity i end) in *.
  set (held := match op with op_reserve => in_reserved r + quantity i | op_release => in_reserved r - quantity i end) in *.
  apply record_reservation_run in H4 as [-> Hnew]. simpl in *.
  assert (Hrows : Forall2 (row_moved op [i]) (iv_rows d) (<[n := with_stock available held r]> (iv_rows d))).
  { apply row_updated; [done | done |]. by destruct op. }
  split; simpl; [done | done | done |]. split; simpl.
  - by rewrite (rows_moved_keys op [i] (iv_rows d)).
  - apply Forall_insert; [done |]. simpl. apply find_stock_inv in Hf as (Hn & _). rewrite Forall_forall in Hpos.
    pose proof (Hpos r (list_elem_of_lookup_2 _ _ _ Hn)). unfold available, held. destruct op; lia.
  - by apply ledger_NoDup.
Qed.

Lemma update_items_effect op l levels d lv d' :
  tables_ok d → Forall (λ i, 0 < quantity i) l → update_items op l levels d = (inr lv, d') → item_effect op l d d'.
Proof.
  intros Hok Hq. revert levels d Hok. induction Hq as [| i l Hi _ IH]; intros levels d Hok H; simpl in H.
  - injection H as _ <-. split; [| done | done | done]. apply Forall_Forall2_diag, Forall_forall. intros r _. apply row_moved_nil.
  - apply bind_inr in H as (lv1 & d1 & H1 & H). apply update_item_effect in H1 as [Hr1 Hl1 (Hc1 & Ha1 & Hn1) Hok1]; [| done | done].
    apply IH in H as [Hr2 Hl2 (Hc2 & Ha2 & Hn2) Hok2]; [| done]. split.
    + by apply (rows_moved_app op [i] l _ (iv_rows d1)).
    + rewrite Hl2, Hl1. done.
    + repeat split; congruence.
    + done.
Qed.

(** ** The whole call *)

(** The alerts do not touch the tables. *)
Definition same_tables d d' : Prop := iv_rows d' = iv_rows d ∧ iv_reservations d' = iv_reservations d.
#[local] Instance same_tables_preorder : PreOrder same_tables.
Proof. split; [done |]. intros d1 d2 d3 [? ?] [? ?]. split; congruence. Qed.

Lemma fail_with_same o : evolves same_tables (fail_with o).
Proof. unfold fail_with. evolve. Qed.
#[local] Hint Resolve fail_with_same : evolve.

Lemma del_claim_same k : evolves same_tables (del_claim k).
Proof. unfold del_claim. evolve. by apply evolves_modify. Qed.
#[local] Hint Resolve del_claim_same : evolve.

Lemma evaluate_same l : evolves same_tables (evaluate l).
Proof. unfold evaluate, claim, publish. evolve; by apply evolves_modify. Qed.
#[local] Hint Resolve evaluate_same : evolve.

Lemma alerts_same l : evolves same_tables (onStockLevelsChanged l).
Proof. induction l as [| x l IH]; simpl; evolve. Qed.
#[local] Hint Resolve alerts_same : evolve.

Lemma tables_ok_same d d' : same_tables d d' → tables_ok d → tables_ok d'.
Proof. intros [Hr Hs] [? ? ?]. split; by rewrite ?Hr, ?Hs. Qed.

Lemma good_quantities items : existsb bad_quantity items = false → Forall (λ i, 0 < quantity i) items.
Proof.
  intros H. apply Forall_forall. intros i Hi. destruct (Z.ltb_spec 0 (quantity i)) as [| Hle]; [done |]. exfalso.
  assert (existsb bad_quantity items = true); [| congruence]. apply existsb_exists. exists i. split; [by apply list_elem_of_In |].
  unfold bad_quantity. rewrite (proj2 (Z.leb_le _ _) Hle). apply orb_true_r.
Qed.

(** What the tables look like after a call: unchanged, or changed by all its items. *)
Definition all_items (op : operation) (items : list InventoryReservationItem) d d' : Prop :=
  Forall2 (row_moved op items) (iv_rows d) (iv_rows d') ∧
  iv_reservations d' = foldl (λ rs i, ledger_after op i rs) (iv_reservations d) (sort_items items) ∧ tables_ok d'.

Lemma guarded_cases op l d :
  tables_ok d → Forall (λ i, 0 < quantity i) l →
  let c := try_catch (fail_with (connect_error (iv_now d));; transaction (update_items op l [])) (λ e, throw (duplicate_of l e)) in
  (∃ e d', c d = (inl e, d') ∧ same_tables d d') ∨ (∃ lv d', c d = (inr lv, d') ∧ item_effect op l d d').
Proof.
  intros Hok Hq c. unfold c, try_catch, transaction. destruct (connect_error (iv_now d)) as [e |]; [left; by eexists _, _ |].
  erewrite bind_run by done. destruct (update_items op l [] d) as [[e | lv] d'] eqn:H; [left; by eexists _, _ |].
  right. eexists _, _. split; [done |]. by eapply update_items_effect.
Qed.

Lemma update_cases items op d r d' :
  tables_ok d → updateReservation items op d = (r, d') →
  (same_tables d d' ∧ (r = inr () → items = [])) ∨
  (all_items op items d d' ∧ (r = inr () ∨ ∃ e, r = inl e ∧ unlock_error (iv_now d) = Some e)).
Proof.
  intros Hok H. unfold updateReservation in H. destruct items as [| i0 items0]; [injection H as <- <-; by left |].
  set (items := i0 :: items0) in *.
  destruct (existsb bad_quantity items) eqn:Hbad; [injection H as <- <-; by left |]. apply good_quantities in Hbad.
  erewrite bind_run in H by done. erewrite bind_run in H by done.
  destruct (lock_error _ _); [injection H as <- <-; by left |]. erewrite bind_run in H by done.
  assert (Hq : Forall (λ i, 0 < quantity i) (sort_items items)) by (by rewrite sort_items_Permutation).
  destruct (guarded_cases op (sort_items items) d Hok Hq) as [(e & d1 & Hc & Hs) | (lv & d1 & Hc & He)].
  - left. unfold mbind at 1, M_bind at 1 in H. erewrite finally_run in H by exact Hc. erewrite bind_run in H by done.
    unfold fail_with in H. destruct (unlock_error (iv_now d1)); injection H as <- <-; done.
  - unfold mbind at 1, M_bind at 1 in H. erewrite finally_run in H by exact Hc. erewrite bind_run in H by done.
    destruct He as [Hr Hl (_ & _ & Hn) Hok1]. rewrite Hn in H.
    assert (Hall : ∀ d2, same_tables d1 d2 → all_items op items d d2).
    { intros d2 [Hr2 Hl2]. split; [| split; [congruence | by apply (tables_ok_same d1)]]. rewrite Hr2.
      eapply Forall2_impl; [exact Hr |]. intros x x' Hm. unfold row_moved in *.
      by rewrite <-(moved_Permutation _ _ _ _ (sort_items_Permutation items)). }
    right. destruct (unlock_error (iv_now d)) as [e |] eqn:Hu; unfold fail_with, throw, mret, M_ret in H; simpl in H;
      [injection H as <- <-; split; [by apply Hall | right; by exists e] |].
    match type of H with context [if ?b then _ else _] => destruct b end; [| simplify_eq; split; [by apply Hall | by left]].
    unfold try_catch in H. pose proof (alerts_same (jvalues lv) d1) as Ha. unfold mbind, M_bind in H.
    destruct (onStockLevelsChanged (jvalues lv) d1) as [[e | a] d2]; simplify_eq; (split; [by apply Hall | by left]).
Qed.

(** ** When a reservation succeeds *)

Definition order_keys (l : list InventoryReservationItem) : list (string * string * string) :=
  (λ i, (it_merchantId i, default "" (it_orderId i), it_productId i)) <$> List.filter (λ i, truthy (it_orderId i)) l.

(** Every product is stocked, the stock covers the total asked for, and no order has
    reserved one of the products before. *)
Record fits (l : list InventoryReservationItem) d : Prop := {
  ft_quantities : Forall (λ i, 0 < quantity i) l;
  ft_known : ∀ i, i ∈ l → (it_merchantId i, it_productId i) ∈ stock_key <$> iv_rows d;
  ft_stock : ∀ r, r ∈ iv_rows d → let q := moved (in_merchantId r) (in_productId r) l in
    q ≤ in_available r ≤ 2 ^ 31 - 1 ∧ in_reserved r + q ≤ 2 ^ 31 - 1;
  ft_orders : NoDup (order_keys l);
  ft_new : ∀ k, k ∈ order_keys l → k ∉ order_key <$> iv_reservations d
}.

Lemma find_stock_some i d : (it_merchantId i, it_productId i) ∈ stock_key <$> iv_rows d → ∃ n r, find_stock i d = Some (n, r).
Proof.
  unfold find_stock. induction (iv_rows d) as [| r rows IH]; simpl; [by intros ?%elem_of_nil |].
  rewrite elem_of_cons. intros [E | Hin].
  - injection E as Em Ep. rewrite <-Em, <-Ep, !String.eqb_refl. by eexists _, _.
  - case_match; [by eexists _, _ |]. destruct (IH Hin) as (n & x & ->). by eexists _, _.
Qed.

Lemma moved_nonneg m p l : Forall (λ i, 0 < quantity i) l → 0 ≤ moved m p l.
Proof. induction 1 as [| i l Hi _ IH]; simpl; [done |]. case_match; lia. Qed.

Lemma record_fits i l d d1 :
  fits (i :: l) d → iv_reservations d1 = iv_reservations d →
  record_reservation op_reserve i d1 = (inr (), set_tables (iv_rows d1) (ledger_after op_reserve i (iv_reservations d1)) d1).
Proof.
  intros [_ _ _ _ Hnew] Hd1. unfold record_reservation, ledger_after. destruct (truthy (it_orderId i)) eqn:Ht; [| by destruct d1].
  erewrite bind_run by done. rewrite existsb_false; [done |]. rewrite Hd1. intros v Hv. unfold same_reservation.
  apply not_true_iff_false. rewrite !andb_true_iff, !String.eqb_eq. intros [[Hm Ho] Hp].
  apply (Hnew (it_merchantId i, default "" (it_orderId i), it_productId i)).
  - unfold order_keys. simpl. rewrite Ht. simpl. left.
  - apply list_elem_of_fmap. exists v. split; [| done]. unfold order_key. congruence.
Qed.

Lemma reserve_step i l levels d :
  tables_ok d → fits (i :: l) d → ∃ lv d', update_item op_reserve i levels d = (inr lv, d') ∧ fits l d'.
Proof.
  intros Hok Hfit. pose proof Hfit as [Hq Hknown Hstock Hord Hnew]. apply Forall_cons in Hq as [Hi Hl].
  destruct (find_stock_some i d) as (n & r & Hf); [apply Hknown; left |].
  pose proof (find_stock_inv i d n r Hf) as (Hn & Hm & Hp). pose proof (list_elem_of_lookup_2 _ _ _ Hn) as Hr.
  pose proof (Hstock r Hr) as Hfr. simpl in Hfr. rewrite Hm, Hp, !String.eqb_refl in Hfr. simpl in Hfr.
  pose proof (moved_nonneg (it_merchantId i) (it_productId i) l Hl) as Hnn.
  destruct Hok as [Hnd Hpos Hon]. rewrite Forall_forall in Hpos. pose proof (Hpos r Hr) as Hpr.
  set (d1 := set_tables (<[n := with_stock (in_available r - quantity i) (in_reserved r + quantity i) r]> (iv_rows d)) (iv_reservations d) d).
  assert (Hrows : Forall2 (row_moved op_reserve [i]) (iv_rows d) (iv_rows d1)) by (by apply row_updated).
  pose proof (record_fits i l d d1 Hfit eq_refl) as Hrec. eexists _, _. split.
  - unfold update_item. erewrite bind_run by done. rewrite Hf.
    rewrite (proj2 (Z.ltb_ge (in_available r) (quantity i))) by lia. erewrite bind_run by done. erewrite bind_run by done.
    assert (int32_ok (in_available r - quantity i) && int32_ok (in_reserved r + quantity i) = true) as ->.
    { unfold int32_ok. rewrite !andb_true_iff, !Z.leb_le. lia. }
    erewrite bind_run by done. erewrite bind_run by done. erewrite bind_run by exact Hrec. done.
  - split; simpl.
    + done.
    + intros j Hj. change (<[n:=_]> (iv_rows d)) with (iv_rows d1). rewrite (rows_moved_keys _ _ _ _ Hrows). apply Hknown. by right.
    + intros r' [k Hk]%list_elem_of_lookup. destruct (Forall2_lookup_r _ _ _ _ _ Hrows Hk) as (r0 & Hr0 & (_ & Hm0 & Hp0 & _ & Ha & Hh)).
      pose proof (Hstock r0 (list_elem_of_lookup_2 _ _ _ Hr0)) as H0. simpl in H0, Ha, Hh. rewrite Hm0, Hp0.
      pose proof (moved_nonneg (in_merchantId r0) (in_productId r0) l Hl). case_match; lia.
    + revert Hord. unfold order_keys. simpl. destruct (truthy (it_orderId i)); [| done]. simpl. by intros [_ ?]%NoDup_cons.
    + intros k Hk. unfold ledger_after. revert Hord Hnew. unfold order_keys in *. simpl.
      destruct (truthy (it_orderId i)); simpl; [| intros _ Hnew; by apply Hnew]. intros [Hni _]%NoDup_cons Hnew.
      rewrite fmap_app, elem_of_app. intros [Hin | ->%list_elem_of_singleton]; [by apply (Hnew k); [right |] |]. by apply Hni.
Qed.

Lemma reserve_items l levels d : tables_ok d → fits l d → ∃ lv d', update_items op_reserve l levels d = (inr lv, d').
Proof.
  revert levels d. induction l as [| i l IH]; intros levels d Hok Hf; simpl; [by eexists _, _ |].
  destruct (reserve_step i l levels d Hok Hf) as (lv & d1 & H1 & Hf1). erewrite bind_run by exact H1. apply IH; [| done].
  pose proof (ft_quantities _ _ Hf) as Hq. apply Forall_cons in Hq as [Hi _]. by apply (ie_ok _ _ _ _ (update_item_effect _ _ _ _ _ _ Hok Hi H1)).
Qed.

Lemma order_keys_Permutation l k : l ≡ₚ k → order_keys l ≡ₚ order_keys k.
Proof.
  intros H. unfold order_keys. apply fmap_Permutation. induction H; simpl; repeat case_match; try done; [by constructor | constructor | by etrans].
Qed.

Lemma fits_sorted items d : fits items d → fits (sort_items items) d.
Proof.
  pose proof (sort_items_Permutation items) as HP. intros [Hq Hk Hs Ho Hn]. split.
  - by rewrite HP.
  - intros i Hi. apply Hk. by rewrite <-HP.
  - intros r Hr. rewrite (moved_Permutation _ _ _ _ HP). by apply Hs.
  - by rewrite (order_keys_Permutation _ _ HP).
  - intros k Hk'. apply Hn. by rewrite <-(order_keys_Permutation _ _ HP).
Qed.

(** ** Theorems *)

Lemma empty_items op d : tables_ok d → all_items op [] d d.
Proof.
  intros Hok. split; [| done]. apply Forall_Forall2_diag, Forall_forall. intros r _. apply row_moved_nil.
Qed.

Lemma update_done items op d d' : tables_ok d → updateReservation items op d = (inr (), d') → all_items op items d d'.
Proof.
  intros Hok H. destruct (update_cases items op d _ d' Hok H) as [[Hs Hnil] | [Hall _]]; [| done].
  rewrite (Hnil eq_refl) in H |- *. injection H as <-. by apply empty_items.
Qed.

Lemma good_quantities_conv items : Forall (λ i, 0 < quantity i) items → existsb bad_quantity items = false.
Proof.
  intros Hq. apply existsb_false. intros i Hi. unfold bad_quantity. rewrite Forall_forall in Hq. specialize (Hq i Hi).
  unfold quantity in *. destruct (it_quantity i); simpl; [| lia]. by apply Z.leb_gt.
Qed.

Section services_up.
Hypothesis lock_up : ∀ l t, lock_error l t = None.
Hypothesis unlock_up : ∀ t, unlock_error t = None.
Hypothesis connection_up : ∀ t, connect_error t = None.

(** A transaction that goes through makes the call return. *)
Lemma update_goes_through items op d :
  Forall (λ i, 0 < quantity i) items → (∃ lv d1, update_items op (sort_items items) [] d = (inr lv, d1)) →
  ∃ d', updateReservation items op d = (inr (), d').
Proof.
  intros Hq (lv & d1 & H1). unfold updateReservation. destruct items as [| i0 items0]; [by eexists |].
  set (items := i0 :: items0) in *. rewrite good_quantities_conv by done.
  erewrite bind_run by done. erewrite bind_run by done. rewrite lock_up. erewrite bind_run by done.
  assert (Hc : try_catch (fail_with (connect_error (iv_now d));; transaction (update_items op (sort_items items) []))
                 (λ e, throw (duplicate_of (sort_items items) e)) d = (inr lv, d1)).
  { unfold try_catch. rewrite connection_up. erewrite bind_run by done. unfold transaction. by rewrite H1. }
  unfold mbind at 1, M_bind at 1. erewrite finally_run by exact Hc. erewrite bind_run by done. rewrite unlock_up. simpl.
  match goal with |- context [if ?b then _ else _] => destruct b end; [| by eexists].
  unfold try_catch, mbind, M_bind. destruct (onStockLevelsChanged (jvalues lv) d1) as [[e | a] d2]; by eexists.
Qed.

Lemma reserve_done items d : tables_ok d → fits items d → ∃ d', reserve items d = (inr (), d').
Proof.
  intros Hok Hf. apply update_goes_through; [by apply (ft_quantities _ d) |].
  by apply reserve_items, fits_sorted.
Qed.

(** ** When a release succeeds *)

(** The stock of the items is held, and has its place in the columns. *)
Record holds (l : list InventoryReservationItem) d : Prop := {
  hd_quantities : Forall (λ i, 0 < quantity i) l;
  hd_known : ∀ i, i ∈ l → (it_merchantId i, it_productId i) ∈ stock_key <$> iv_rows d;
  hd_stock : ∀ r, r ∈ iv_rows d → let q := moved (in_merchantId r) (in_productId r) l in
    q ≤ in_reserved r ≤ 2 ^ 31 - 1 ∧ in_available r + q ≤ 2 ^ 31 - 1
}.

Lemma release_step i l levels d :
  tables_ok d → holds (i :: l) d → ∃ lv d', update_item op_release i levels d = (inr lv, d') ∧ holds l d'.
Proof.
  intros Hok [Hq Hknown Hstock]. apply Forall_cons in Hq as [Hi Hl].
  destruct (find_stock_some i d) as (n & r & Hf); [apply Hknown; left |].
  pose proof (find_stock_inv i d n r Hf) as (Hn & Hm & Hp). pose proof (list_elem_of_lookup_2 _ _ _ Hn) as Hr.
  pose proof (Hstock r Hr) as Hfr. simpl in Hfr. rewrite Hm, Hp, !String.eqb_refl in Hfr. simpl in Hfr.
  pose proof (moved_nonneg (it_merchantId i) (it_productId i) l Hl) as Hnn.
  destruct Hok as [Hnd Hpos Hon]. rewrite Forall_forall in Hpos. pose proof (Hpos r Hr) as Hpr.
  set (rows' := <[n := with_stock (in_available r + quantity i) (in_reserved r - quantity i) r]> (iv_rows d)).
  assert (Hrows : Forall2 (row_moved op_release [i]) (iv_rows d) rows') by (by apply row_updated).
  exists (jset (item_key i) {|
    lv_merchantId := it_merchantId i; lv_productId := it_productId i;
    lv_availableStock := from_option lv_availableStock (in_available r) (jget (item_key i) levels) + quantity i;
    lv_lowStockThreshold := in_threshold r |} levels), (set_tables rows' (ledger_after op_release i (iv_reservations d)) d). split.
  - unfold update_item. erewrite bind_run by done. rewrite Hf.
    rewrite (proj2 (Z.ltb_ge (in_reserved r) (quantity i))) by lia. erewrite bind_run by done. erewrite bind_run by done.
    assert (int32_ok (in_available r + quantity i) && int32_ok (in_reserved r - quantity i) = true) as ->.
    { unfold int32_ok. rewrite !andb_true_iff, !Z.leb_le. lia. }
    erewrite bind_run by done. erewrite bind_run by done. erewrite bind_run; [done |].
    unfold record_reservation, ledger_after. by destruct (truthy (it_orderId i)).
  - split; simpl; [done | |].
    + intros j Hj. rewrite (rows_moved_keys _ _ _ _ Hrows). apply Hknown. by right.
    + intros r' [k Hk]%list_elem_of_lookup. destruct (Forall2_lookup_r _ _ _ _ _ Hrows Hk) as (r0 & Hr0 & (_ & Hm0 & Hp0 & _ & Ha & Hh)).
      pose proof (Hstock r0 (list_elem_of_lookup_2 _ _ _ Hr0)) as H0. simpl in H0, Ha, Hh. rewrite Hm0, Hp0.
      pose proof (moved_nonneg (in_merchantId r0) (in_productId r0) l Hl). case_match; lia.
Qed.

Lemma release_items l levels d : tables_ok d → holds l d → ∃ lv d', update_items op_release l levels d = (inr lv, d').
Proof.
  revert levels d. induction l as [| i l IH]; intros levels d Hok Hf; simpl; [by eexists _, _ |].
  destruct (release_step i l levels d Hok Hf) as (lv & d1 & H1 & Hf1). erewrite bind_run by exact H1. apply IH; [| done].
  pose proof (hd_quantities _ _ Hf) as Hq. apply Forall_cons in Hq as [Hi _]. by apply (ie_ok _ _ _ _ (update_item_effect _ _ _ _ _ _ Hok Hi H1)).
Qed.

Lemma holds_sorted items d : holds items d → holds (sort_items items) d.
Proof.
  pose proof (sort_items_Permutation items) as HP. intros [Hq Hk Hs]. split.
  - by rewrite HP.
  - intros i Hi. apply Hk. by rewrite <-HP.
  - intros r Hr. rewrite (moved_Permutation _ _ _ _ HP). by apply Hs.
Qed.

Lemma release_done items d : tables_ok d → holds items d → ∃ d', release items d = (inr (), d').
Proof.
  intros Hok Hf. apply update_goes_through; [by apply (hd_quantities _ d) |]. by apply release_items, holds_sorted.
Qed.

(** What was just reserved is held. *)
Lemma reserved_holds items d d' : tables_ok d → fits items d → all_items op_reserve items d d' → holds items d'.
Proof.
  intros Hok [Hq Hk Hs _ _] [Hrows _]. split; [done | |].
  - intros i Hi. rewrite (rows_moved_keys _ _ _ _ Hrows). by apply Hk.
  - intros r' [k Hk']%list_elem_of_lookup. destruct (Forall2_lookup_r _ _ _ _ _ Hrows Hk') as (r0 & Hr0 & (_ & Hm0 & Hp0 & _ & Ha & Hh)).
    pose proof (list_elem_of_lookup_2 _ _ _ Hr0) as Hin. pose proof (Hs r0 Hin) as H0. simpl in H0, Ha, Hh. rewrite Hm0, Hp0.
    pose proof (tk_nonneg _ Hok) as Hpos. rewrite Forall_forall in Hpos. specialize (Hpos r0 Hin). simpl in Hpos. lia.
Qed.

(** Releasing what was just reserved gives the stock back. *)
Lemma rows_moved_back items a b c : Forall2 (row_moved op_reserve items) a b → Forall2 (row_moved op_release items) b c → c = a.
Proof.
  intros H1. revert c. induction H1 as [| x y a b Hxy _ IH]; intros c H2; inversion H2 as [| ? z ? c' Hyz Hrest]; subst; [done |].
  f_equal; [| by apply IH]. destruct Hxy as (Hi & Hm & Hp & Ht & Ha & Hh), Hyz as (Hi' & Hm' & Hp' & Ht' & Ha' & Hh').
  rewrite Hm, Hp in Ha', Hh'. destruct x, z; simpl in *. f_equal; congruence || lia.
Qed.
End services_up.

(** C7. A reservation or release is all or nothing, if locks, unlocks and database
    connections work and the tables are consistent: when it returns, every stock row has
    moved by exactly the quantities of its items and the order ledger has the rows of
    their orders; when it throws, both tables are as before.  A reservation that fits the
    stock, of orders that have not reserved the products, returns, and so does a release
    of stock that is held. *)
Theorem reservation_exact items op d :
  (∀ l t, lock_error l t = None) → (∀ t, unlock_error t = None) → (∀ t, connect_error t = None) → tables_ok d →
  (fits items d → ∃ d', reserve items d = (inr (), d')) ∧ (holds items d → ∃ d', release items d = (inr (), d')) ∧
  (∀ d', updateReservation items op d = (inr (), d') → all_items op items d d') ∧
  (∀ e d', updateReservation items op d = (inl e, d') → same_tables d d').
Proof.
  intros Hl Hu Hc Hok. split; [intros Hf; by apply reserve_done |]. split; [intros Hf; by apply release_done |]. split; [intros d'; by apply update_done |].
  intros e d' H. destruct (update_cases items op d _ d' Hok H) as [[Hs _] | [_ [Hr | (e' & _ & E)]]]; [done | done |].
  by rewrite Hu in E.
Qed.

(** Calls of the service and the passing of time. *)
Inductive inv_op := InvCall (op : operation) (items : list InventoryReservationItem) | InvWait (ms : N).
Definition inv_step d (o : inv_op) : invdb :=
  match o with
  | InvCall op items => (updateReservation items op d).2
  | InvWait ms => InvDb (iv_rows d) (iv_reservations d) (iv_claims d) (iv_alerts d) (iv_now d + Z.of_N ms)
  end.

(** A row keeps its product and the sum of its stock. *)
Definition same_stock (r r' : InventoryRow) : Prop :=
  in_id r' = in_id r ∧ stock_key r' = stock_key r ∧ in_available r' + in_reserved r' = in_available r + in_reserved r.

Lemma moved_same_stock op l a b : Forall2 (row_moved op l) a b → Forall2 same_stock a b.
Proof.
  intros H. eapply Forall2_impl; [exact H |]. intros r r' (Hi & Hm & Hp & _ & Hq). split; [done |].
  split; [unfold stock_key; congruence |]. destruct op; lia.
Qed.

Lemma inv_step_keeps d o : tables_ok d → tables_ok (inv_step d o) ∧ Forall2 same_stock (iv_rows d) (iv_rows (inv_step d o)).
Proof.
  assert (Hrefl : ∀ l, Forall2 same_stock l l) by (intros l; by apply Forall_Forall2_diag, Forall_true).
  intros Hok. destruct o as [op items | ms]; simpl; [| by split; [destruct Hok |]].
  destruct (updateReservation items op d) as [r d'] eqn:H. simpl.
  destruct (update_cases items op d _ d' Hok H) as [[Hs _] | [(Hr & _ & Hok') _]].
  - split; [by apply (tables_ok_same d) |]. destruct Hs as [-> _]. apply Hrefl.
  - split; [done |]. by eapply moved_same_stock.
Qed.

(** Over any history of reservations and releases, failing services included, no
    stock is created or lost: every row keeps the sum of its available and reserved
    stock, neither is ever negative, and the ledger has at most one row per merchant,
    order and product. *)
Theorem stock_conserved d ops :
  tables_ok d → let d' := foldl inv_step d ops in tables_ok d' ∧ Forall2 same_stock (iv_rows d) (iv_rows d').
Proof.
  revert d. induction ops as [| o ops IH]; intros d Hok; simpl.
  - split; [done | by apply Forall_Forall2_diag, Forall_true].
  - destruct (inv_step_keeps d o Hok) as [Hok1 H1]. destruct (IH _ Hok1) as [Hok2 H2]. split; [done |].
    eapply Forall2_compose; [| exact H1 | exact H2]. intros x y z (? & ? & ?) (? & ? & ?). repeat split; congruence.
Qed.
End correct.

(** ** Concrete stock *)

(** Services that answer, but for the release of the lock when [bad]. *)
Definition inv_env (bad : bool) : InventoryEnv := {|
  locale_after := λ a b, negb (String.leb a b); lock_error := λ _ _, None;
  unlock_error := λ _, if bad then Some (Error "lock expired") else None; connect_error := λ _, None;
  alerts_on := true; debounceSeconds := 21600; alert_redis_error := λ _, None;
  getProductDetails := λ _, inr None; queue_error := λ _, None |}.

Definition inv_demo : invdb := InvDb
  [{| in_id := "1"; in_merchantId := "M"; in_productId := "P"; in_available := 10; in_reserved := 0; in_threshold := Some 4 |};
   {| in_id := "2"; in_merchantId := "M"; in_productId := "Q"; in_available := 1; in_reserved := 0; in_threshold := None |}] [] [] [] 0.
Definition order_of (o p : string) (q : Z) : InventoryReservationItem :=
  {| it_merchantId := "M"; it_productId := p; it_quantity := Int q; it_orderId := Some o |}.

Lemma inv_demo_ok : tables_ok inv_demo.
Proof.
  split; [| by repeat constructor | constructor]. apply (bool_decide_unpack _). by vm_compute.
Qed.

Lemma inv_demo_fits : fits [order_of "o1" "Q" 1; order_of "o1" "P" 6] inv_demo.
Proof.
  split; [by repeat constructor | | | |].
  - intros i Hi. rewrite !elem_of_cons in Hi. destruct Hi as [-> | [-> | Hi%elem_of_nil]]; [right; left | left | done].
  - intros r Hr. simpl in Hr. rewrite !elem_of_cons in Hr. destruct Hr as [-> | [-> | Hr%elem_of_nil]]; [by vm_compute .. | done].
  - apply (bool_decide_unpack _). by vm_compute.
  - intros k _. apply not_elem_of_nil.
Qed.

Lemma reservation_exact_witness :
  let items := [order_of "o1" "Q" 1; order_of "o1" "P" 6] in
  ∃ d', reserve (IE := inv_env false) items inv_demo = (inr (), d') ∧ all_items (IE := inv_env false) op_reserve items inv_demo d' ∧
    (in_available <$> iv_rows d') = [4; 0] ∧ (in_reserved <$> iv_rows d') = [6; 1].
Proof.
  intros items. destruct (reservation_exact (IE := inv_env false) items op_reserve inv_demo) as (H1 & _ & H2 & _);
    [done | done | done | apply inv_demo_ok |].
  destruct (H1 inv_demo_fits) as [d' Hd]. exists d'. split; [exact Hd |]. split; [by apply H2 |]. vm_compute in Hd. by injection Hd as <-.
Defined.

Definition inv_demo_ops : list inv_op :=
  [InvCall op_reserve [order_of "o1" "P" 6]; InvCall op_reserve [order_of "o1" "P" 1]; InvCall op_reserve [order_of "o2" "P" 3; order_of "o2" "Q" 2];
   InvCall op_reserve [order_of "o2" "P" 3]; InvCall op_release [order_of "o1" "P" 6]].

Lemma stock_conserved_witness :
  let d := foldl (inv_step (IE := inv_env false)) inv_demo inv_demo_ops in
  tables_ok d ∧ Forall2 same_stock (iv_rows inv_demo) (iv_rows d) ∧ (in_available <$> iv_rows d) = [7; 1].
Proof.
  destruct (stock_conserved (IE := inv_env false) inv_demo inv_demo_ops inv_demo_ok) as [H1 H2].
  split; [exact H1 |]. split; [exact H2 | by vm_compute].
Defined.

(** A release does not ask whether the order still holds the stock: releasing twice
    frees the stock another order has reserved. *)
Theorem second_release_frees_other_order :
  let d := foldl (inv_step (IE := inv_env false)) inv_demo
    [InvCall op_reserve [order_of "o1" "P" 5]; InvCall op_reserve [order_of "o2" "P" 5]; InvCall op_release [order_of "o1" "P" 5]] in
  let out := release (IE := inv_env false) [order_of "o1" "P" 5] d in
  out.1 = inr () ∧ (in_available <$> iv_rows out.2) = [10; 1] ∧ (in_reserved <$> iv_rows out.2) = [0; 0] ∧
  (rv_status <$> iv_reservations out.2) = [released; reserved].
Proof. by vm_compute. Qed.

(** A lock that expired before the end of a committed transaction makes the call throw:
    the stock is reserved and the caller is told that it is not. *)
Theorem committed_reservation_reported_failed :
  let out := reserve (IE := inv_env true) [order_of "o1" "P" 5] inv_demo in
  out.1 = inl (Error "lock expired") ∧ (in_reserved <$> iv_rows out.2) = [5; 0].
Proof. by vm_compute. Qed.

(** The error for a duplicate names the first item with an order, whichever item was
    the duplicate. *)
Theorem duplicate_names_wrong_product :
  let d := inv_step (IE := inv_env false) inv_demo (InvCall op_reserve [order_of "o1" "Q" 1]) in
  let d1 := InvDb ((λ r, with_stock 10 0 r) <$> iv_rows d) (iv_reservations d) [] [] 0 in
  (reserve (IE := inv_env false) [order_of "o1" "P" 1; order_of "o1" "Q" 1] d1).1 = inl (DuplicateReservationError "o1" "P").
Proof. by vm_compute. Qed.
