(* ===== verification/EscrowService.v ===== *)
(** * The escrow service (apps/backend/payments/escrow/)

    index.ts with what it calls: errors.ts, circuitBreaker.ts, feeEstimator.ts,
    wallet-client.ts and config.ts.  The wallet service and Horizon are parameters:
    their answers are functions of the contract calls sent before, which the state
    logs with the answers; an answer takes some time.  The fee statistics are integers
    of stroops, or values that are not numbers. *)
From S2P Require Import Prelude JsLib ChainClient.
Local Open Scope Z_scope.

(** ** errors.ts *)

Record ContractInvocationError := {
  cie_message : string; cie_code : string; cie_retryable : bool; cie_txHash : option string
}.

(** A thrown value: an error of this class, another [Error], or anything else. *)
Inductive thrown := ThrownContract (e : ContractInvocationError) | ThrownError (message : string) | ThrownOther.

(** The code and the flag of a message, in the order of the rules. *)
Definition classify (msg : string) : string * bool :=
  if includes (toLowerCase msg) "simulation failed" then ("CONTRACT_SIMULATION_FAILED", false)
  else if includes msg "Submission failed" || includes msg "tx_bad_seq" || includes msg "bad_seq"
  then ("CONTRACT_SUBMISSION_FAILED", true)
  else if includes msg "Transaction failed" then ("CONTRACT_EXECUTION_FAILED", false)
  else if includes msg "Wallet service unavailable" then ("WALLET_SERVICE_UNAVAILABLE", true)
  else ("WALLET_SERVICE_ERROR", false).

Definition normalizeContractError (err : thrown) (txHash : option string) : ContractInvocationError :=
  match err with
  | ThrownContract e => e
  | ThrownError msg =>
      {| cie_message := msg; cie_code := (classify msg).1; cie_retryable := (classify msg).2; cie_txHash := txHash |}
  | ThrownOther =>
      {| cie_message := "An unknown contract invocation error occurred"; cie_code := "CONTRACT_INVOCATION_FAILED";
         cie_retryable := false; cie_txHash := txHash |}
  end.

(** An exception carries the class and the message.  No caller passes a hash, so an
    error of the class is determined by its message. *)
Definition as_exn (e : ContractInvocationError) : exn := Exn "ContractInvocationError" (cie_message e).
Definition thrown_of (e : exn) : thrown :=
  if String.eqb (exn_name e) "ContractInvocationError"
  then ThrownContract (normalizeContractError (ThrownError (exn_message e)) None)
  else ThrownError (exn_message e).

(** ** circuitBreaker.ts *)

Inductive CircuitState := closed | open | half_open.

#[export] Instance CircuitState_eq_dec : EqDecision CircuitState.
Proof. solve_decision. Defined.

Record CircuitBreakerConfig := {
  failureThreshold : Z; recoveryTimeoutMs : Z; halfOpenSuccessThreshold : Z; failureWindowMs : Z
}.

Record CircuitBreaker := {
  cb_state : CircuitState; cb_failureCount : Z; cb_successCount : Z; cb_lastFailureAt : option Z;
  cb_lastSuccessAt : option Z; cb_lastStateChange : Z; cb_totalRequests : Z; cb_totalFailures : Z; cb_totalRejections : Z
}.

Definition newCircuitBreaker (now : Z) : CircuitBreaker := {|
  cb_state := closed; cb_failureCount := 0; cb_successCount := 0; cb_lastFailureAt := None; cb_lastSuccessAt := None;
  cb_lastStateChange := now; cb_totalRequests := 0; cb_totalFailures := 0; cb_totalRejections := 0 |}.

Definition CircuitBreakerOpenError (recovery : Z) : exn :=
  Exn "CircuitBreakerOpenError" ("Circuit breaker is open. Retry after " +:+ dec recovery +:+ "ms.").

Definition transitionTo (newState : CircuitState) (now : Z) (b : CircuitBreaker) : CircuitBreaker := {|
  cb_state := newState;
  cb_failureCount := match newState with closed => 0 | _ => cb_failureCount b end;
  cb_successCount := match newState with open => cb_successCount b | _ => 0 end;
  cb_lastFailureAt := cb_lastFailureAt b; cb_lastSuccessAt := cb_lastSuccessAt b; cb_lastStateChange := now;
  cb_totalRequests := cb_totalRequests b; cb_totalFailures := cb_totalFailures b;
  cb_totalRejections := cb_totalRejections b |}.

(** [getState]: an open circuit becomes half-open when its time has come. *)
Definition refresh (cfg : CircuitBreakerConfig) (now : Z) (b : CircuitBreaker) : CircuitBreaker :=
  match cb_state b with
  | open => if recoveryTimeoutMs cfg <=? now - cb_lastStateChange b then transitionTo half_open now b else b
  | _ => b
  end.

Definition with_counts (f s : Z) (fa sa : option Z) (req fl rj : Z) (b : CircuitBreaker) : CircuitBreaker := {|
  cb_state := cb_state b; cb_failureCount := f; cb_successCount := s; cb_lastFailureAt := fa; cb_lastSuccessAt := sa;
  cb_lastStateChange := cb_lastStateChange b; cb_totalRequests := req; cb_totalFailures := fl; cb_totalRejections := rj |}.

Definition count_request (b : CircuitBreaker) : CircuitBreaker :=
  with_counts (cb_failureCount b) (cb_successCount b) (cb_lastFailureAt b) (cb_lastSuccessAt b) (cb_totalRequests b + 1)
    (cb_totalFailures b) (cb_totalRejections b) b.
Definition count_rejection (b : CircuitBreaker) : CircuitBreaker :=
  with_counts (cb_failureCount b) (cb_successCount b) (cb_lastFailureAt b) (cb_lastSuccessAt b) (cb_totalRequests b)
    (cb_totalFailures b) (cb_totalRejections b + 1) b.

Definition onSuccess (cfg : CircuitBreakerConfig) (now : Z) (b : CircuitBreaker) : CircuitBreaker :=
  let b1 := with_counts (cb_failureCount b) (cb_successCount b + 1) (cb_lastFailureAt b) (Some now) (cb_totalRequests b)
              (cb_totalFailures b) (cb_totalRejections b) b in
  match cb_state b1 with
  | half_open => if halfOpenSuccessThreshold cfg <=? cb_successCount b1 then transitionTo closed now b1 else b1
  | closed => with_counts 0 (cb_successCount b1) (cb_lastFailureAt b1) (cb_lastSuccessAt b1) (cb_totalRequests b1)
                (cb_totalFailures b1) (cb_totalRejections b1) b1
  | open => b1
  end.

Definition onFailure (cfg : CircuitBreakerConfig) (now : Z) (b : CircuitBreaker) : CircuitBreaker :=
  let b1 := with_counts (cb_failureCount b + 1) (cb_successCount b) (Some now) (cb_lastSuccessAt b) (cb_totalRequests b)
              (cb_totalFailures b + 1) (cb_totalRejections b) b in
  match cb_state b1 with
  | half_open => transitionTo open now b1
  | closed => if failureThreshold cfg <=? cb_failureCount b1 then transitionTo open now b1 else b1
  | open => b1
  end.

(** ** feeEstimator.ts *)

Inductive FeeSource := horizon | fallback.
Inductive Percentile := p50 | p95 | p99.

(** A field of the answer of Horizon: a number or something else. *)
Inductive stat := StatNumber (z : Z) | StatOther.

(** The percentiles of [max_fee] that are asked for, and those of [fee_charged], each
    [None] when it is missing or [null]. *)
Record MaxFee := { mf_p50 : stat; mf_p95 : stat; mf_p99 : stat }.
Record FeeCharged := { fc_p50 : option stat; fc_p90 : option stat; fc_p99 : option stat }.
Record HorizonFeeStats := {
  hs_last_ledger : stat; hs_last_ledger_base_fee : stat; hs_ledger_capacity_usage : stat;
  hs_max_fee : option MaxFee; hs_fee_charged : option FeeCharged
}.

Record FeeEstimate := {
  fe_source : FeeSource; fe_baseFeeStroops : Z; fe_recommendedFeeStroops : Z; fe_p50 : stat; fe_p95 : stat; fe_p99 : stat;
  fe_percentile : Percentile; fe_fetchedAt : Z
}.
Record CacheEntry := { ce_estimate : FeeEstimate; ce_expiresAt : Z }.

Definition DEFAULT_FALLBACK_FEE : Z := 100.
Definition CACHE_TTL_MS : Z := 30 * 1000.

Definition is_number (s : stat) : bool := match s with StatNumber _ => true | StatOther => false end.

Definition isValidFeeStats (stats : option HorizonFeeStats) : bool :=
  match stats with
  | None => false
  | Some s =>
      is_number (hs_last_ledger s) && is_number (hs_last_ledger_base_fee s) && is_number (hs_ledger_capacity_usage s) &&
      match hs_max_fee s with
      | Some m => is_number (mf_p50 m) && is_number (mf_p95 m) && is_number (mf_p99 m)
      | None => false
      end
  end.

Definition createFallbackEstimate (p : Percentile) (now : Z) : FeeEstimate := {|
  fe_source := fallback; fe_baseFeeStroops := DEFAULT_FALLBACK_FEE; fe_recommendedFeeStroops := DEFAULT_FALLBACK_FEE;
  fe_p50 := StatNumber DEFAULT_FALLBACK_FEE; fe_p95 := StatNumber DEFAULT_FALLBACK_FEE;
  fe_p99 := StatNumber DEFAULT_FALLBACK_FEE; fe_percentile := p; fe_fetchedAt := now |}.

(** ** Contract calls *)

(** The fields of a [TransactionRequest] the escrow service fills. *)
Record ContractCall := {
  cc_sourceAddress : string; cc_contractId : string; cc_method : string; cc_args : list arg; cc_memo : string;
  cc_userId : option string
}.

(** The calls posted to the wallet service with their answers, the singleton
    breaker, the fee cache and the clock. *)
Record escrows := Escrows {
  es_calls : list (ContractCall * http_reply); es_breaker : CircuitBreaker; es_fees : option CacheEntry; es_now : Z
}.

Class EscrowEnv := {
  wallet_token : option string;
  contract_id : option string;
  breaker_config : CircuitBreakerConfig;
  (** [server.feeStats()] at a time: how long it takes, and an error, or an answer
      that is or is not an object *)
  feeStats : Z → N * (exn + option HorizonFeeStats);
  wallet_post : list (ContractCall * http_reply) → ContractCall → N * http_reply
}.

Definition set_breaker (f : CircuitBreaker → CircuitBreaker) (w : escrows) : escrows :=
  Escrows (es_calls w) (f (es_breaker w)) (es_fees w) (es_now w).
Definition set_fees (c : option CacheEntry) (w : escrows) : escrows := Escrows (es_calls w) (es_breaker w) c (es_now w).
(** Waiting for an answer. *)
Definition take_time (ms : N) (w : escrows) : escrows := Escrows (es_calls w) (es_breaker w) (es_fees w) (es_now w + Z.of_N ms).

Section service.
Context `{EE : EscrowEnv}.

(** ** The breaker around a call *)

Definition getState : M escrows CircuitState :=
  modify (λ w, set_breaker (refresh breaker_config (es_now w)) w);;
  gets (λ w, cb_state (es_breaker w)).

Definition execute {T} (fn : M escrows T) : M escrows T :=
  currentState ← getState;
  modify (set_breaker count_request);;
  match currentState with
  | open => modify (set_breaker count_rejection);; throw (CircuitBreakerOpenError (recoveryTimeoutMs breaker_config))
  | _ =>
      try_catch
        (result ← fn; modify (λ w, set_breaker (onSuccess breaker_config (es_now w)) w);; mret result)
        (λ err, modify (λ w, set_breaker (onFailure breaker_config (es_now w)) w);; throw err)
  end.

Definition getStats : M escrows CircuitBreaker := getState;; gets es_breaker.
Definition reset : M escrows () := modify (λ w, set_breaker (transitionTo closed (es_now w)) w).

(** ** The fee of a transaction *)

Definition cached (w : escrows) : option FeeEstimate :=
  match es_fees w with
  | Some e => if es_now w <? ce_expiresAt e then Some (ce_estimate e) else None
  | None => None
  end.

Definition percentile_of (m : MaxFee) (p : Percentile) : stat :=
  match p with p50 => mf_p50 m | p95 => mf_p95 m | p99 => mf_p99 m end.
Definition number_of (s : stat) : Z := match s with StatNumber z => z | StatOther => 0 end.

(** The estimate made of a valid answer. *)
Definition horizon_estimate (s : HorizonFeeStats) (m : MaxFee) (p : Percentile) (now : Z) : FeeEstimate :=
  let safeFeeStroops := Z.max (number_of (percentile_of m p)) DEFAULT_FALLBACK_FEE in
  {| fe_source := horizon; fe_baseFeeStroops := number_of (hs_last_ledger_base_fee s);
     fe_recommendedFeeStroops := safeFeeStroops;
     fe_p50 := default (StatNumber safeFeeStroops) (hs_fee_charged s ≫= fc_p50);
     fe_p95 := default (StatNumber safeFeeStroops) (hs_fee_charged s ≫= fc_p90);
     fe_p99 := default (StatNumber safeFeeStroops) (hs_fee_charged s ≫= fc_p99);
     fe_percentile := p; fe_fetchedAt := now |}.

Definition estimateTransactionFeeWithServer (p : Percentile) : M escrows FeeEstimate :=
  hit ← gets cached;
  match hit with
  | Some e => mret e
  | None =>
      t ← gets es_now;
      let '(took, reply) := feeStats t in
      modify (take_time took);;
      now ← gets es_now;
      match reply with
      | inr (Some s) =>
          if isValidFeeStats (Some s) then
            match hs_max_fee s with
            | Some m =>
                let estimate := horizon_estimate s m p now in
                modify (set_fees (Some {| ce_estimate := estimate; ce_expiresAt := now + CACHE_TTL_MS |}));;
                mret estimate
            | None => mret (createFallbackEstimate p now)
            end
          else mret (createFallbackEstimate p now)
      | _ => mret (createFallbackEstimate p now)
      end
  end.

Definition clearFeeCache : M escrows () := modify (set_fees None).
Definition getCachedFeeEstimate : M escrows (option FeeEstimate) := gets cached.

(** ** wallet-client.ts *)

Definition getTransactionFeeEstimate : M escrows FeeEstimate := estimateTransactionFeeWithServer p95.

Definition throw_normalized {A} (m : string) : M escrows A :=
  throw (as_exn (normalizeContractError (ThrownError m) None)).

(** The result of an answer, or the message of the error thrown for it. *)
Definition reply_result (r : http_reply) : string + TransactionResult :=
  match r with
  | Unreachable m => inl ("Wallet service unavailable: " +:+ m)
  | Reply status None => inl ("Wallet service returned invalid response (status " +:+ dec status +:+ ")")
  | Reply status (Some body) =>
      if negb ((200 <=? status) && (status <=? 299)) || bool_decide (is_Some (api_error body))
      then inl (default ("Wallet service returned status " +:+ dec status) (mjoin (api_error body)))
      else match api_data body with Some d => inr d | None => inl "Wallet service returned empty transaction result" end
  end.

Definition submitContractCall (request : ContractCall) : M escrows TransactionResult :=
  if negb (truthy (trim <$> wallet_token)) then throw_normalized "PAYMENTS_WALLET_SERVICE_TOKEN is not configured"
  else
    getTransactionFeeEstimate;;
    before ← gets es_calls;
    let '(took, reply) := wallet_post before request in
    modify (λ w, Escrows (es_calls w ++ [(request, reply)]) (es_breaker w) (es_fees w) (es_now w + Z.of_N took));;
    match reply_result reply with inl m => throw_normalized m | inr d => mret d end.

(** ** index.ts *)

Definition getEscrowContractId : M escrows string :=
  if truthy contract_id then mret (default "" contract_id)
  else throw (Error "ESCROW_CONTRACT_ID environment variable is not configured").

Definition parseEscrowId (escrowId : string) : M escrows Z :=
  match Number_integer escrowId with
  | Some id => if id <? 0 then throw (Error ("Invalid escrow ID: " +:+ escrowId)) else mret id
  | None => throw (Error ("Invalid escrow ID: " +:+ escrowId))
  end.

Record EscrowOperationResult := { eo_txHash : string; eo_ledger : Z; eo_success : bool; eo_escrowId : option string }.

Definition toEscrowResult (tx : TransactionResult) (escrowId : option string) : EscrowOperationResult :=
  {| eo_txHash := hash tx; eo_ledger := ledger tx; eo_success := success tx; eo_escrowId := escrowId |}.

(** [try { breaker.execute(() => submitContractCall(c)) } catch (err) { throw normalizeContractError(err) }] *)
Definition guarded_call (c : ContractCall) : M escrows TransactionResult :=
  try_catch (execute (submitContractCall c)) (λ err, throw (as_exn (normalizeContractError (thrown_of err) None))).

Definition initialize (sourceAddress adminAddress : string) : M escrows EscrowOperationResult :=
  contractId ← getEscrowContractId;
  tx ← guarded_call {|
    cc_sourceAddress := sourceAddress; cc_contractId := contractId; cc_method := "initialize";
    cc_args := [ArgStr adminAddress]; cc_memo := "Initialize escrow contract"; cc_userId := None |};
  mret (toEscrowResult tx None).

Definition deposit (sourceAddress buyerAddress sellerAddress : string) (orderId userId : option string)
    : M escrows EscrowOperationResult :=
  contractId ← getEscrowContractId;
  tx ← guarded_call {|
    cc_sourceAddress := sourceAddress; cc_contractId := contractId; cc_method := "create_escrow";
    cc_args := [ArgStr buyerAddress; ArgStr sellerAddress];
    cc_memo := if truthy orderId then "Deposit escrow for order " +:+ default "" orderId else "Deposit escrow funds";
    cc_userId := userId |};
  mret (toEscrowResult tx None).

Definition release (sourceAddress escrowId : string) : M escrows EscrowOperationResult :=
  contractId ← getEscrowContractId;
  id ← parseEscrowId escrowId;
  tx ← guarded_call {|
    cc_sourceAddress := sourceAddress; cc_contractId := contractId; cc_method := "release"; cc_args := [ArgNum id];
    cc_memo := "Release escrow " +:+ escrowId; cc_userId := None |};
  mret (toEscrowResult tx (Some escrowId)).

Definition refund (sourceAddress escrowId refundReasonCode : string) : M escrows EscrowOperationResult :=
  contractId ← getEscrowContractId;
  id ← parseEscrowId escrowId;
  tx ← guarded_call {|
    cc_sourceAddress := sourceAddress; cc_contractId := contractId; cc_method := "refund"; cc_args := [ArgNum id];
    cc_memo := "Refund escrow " +:+ escrowId +:+ " (" +:+ refundReasonCode +:+ ")"; cc_userId := None |};
  mret (toEscrowResult tx (Some escrowId)).
End service.
