(* ===== verification/EscrowServiceCorrect.v ===== *)
(** * What the escrow service guarantees

    The circuit breaker against the log of contract calls, the fee estimates, the
    normalization of errors, and runs that contradict the comments. *)
From S2P Require Import Prelude JsLib ChainClient EscrowService.
Local Open Scope Z_scope.

(** A call the wallet service answered with a result. *)
Definition answered (r : http_reply) : bool := match reply_result r with inr _ => true | inl _ => false end.

(** The number of calls at the end of the log that were not answered. *)
Definition trailing (log : list (ContractCall * http_reply)) : Z :=
  foldl (λ n c, if answered c.2 then 0 else n + 1) 0 log.

Lemma trailing_snoc log c : trailing (log ++ [c]) = if answered c.2 then 0 else trailing log + 1.
Proof. unfold trailing. by rewrite foldl_app. Qed.

Lemma trailing_nonneg log : 0 ≤ trailing log.
Proof.
  induction log as [| c log IH] using rev_ind; [done |]. rewrite trailing_snoc. destruct (answered c.2); lia.
Qed.

Section correct.
Context `{EE : EscrowEnv}.
Implicit Types w : escrows.

(** ** Single calls *)

Lemma fee_run p w :
  ∃ f w', estimateTransactionFeeWithServer p w = (inr f, w') ∧ es_calls w' = es_calls w ∧ es_breaker w' = es_breaker w ∧
    es_now w ≤ es_now w'.
Proof.
  unfold estimateTransactionFeeWithServer. erewrite bind_run by done. destruct (cached w) as [e |].
  { eexists _, _. split_and!; try done; lia. }
  erewrite bind_run by done. destruct (feeStats (es_now w)) as [took reply].
  do 2 (erewrite bind_run by done).
  repeat case_match; eexists _, _; (split; [done |]); simpl; split_and!; try done; lia.
Qed.

Lemma submit_run c w :
  truthy (trim <$> wallet_token) = true →
  ∃ r w', submitContractCall c w =
      (match reply_result r with inl m => inl (as_exn (normalizeContractError (ThrownError m) None)) | inr d => inr d end, w') ∧
    es_calls w' = es_calls w ++ [(c, r)] ∧ es_breaker w' = es_breaker w ∧ es_now w ≤ es_now w'.
Proof.
  intros Ht. unfold submitContractCall. rewrite Ht. simpl. destruct (fee_run p95 w) as (f & w1 & Hf & Hc & Hb & Hn).
  unfold getTransactionFeeEstimate. erewrite bind_run by exact Hf. erewrite bind_run by done.
  destruct (wallet_post (es_calls w1) c) as [took r]. erewrite bind_run by done. exists r. rewrite <-Hc, <-Hb.
  unfold throw_normalized, throw, mret, M_ret. destruct (reply_result r) as [m | d]; (eexists; split; [done |]); simpl; split_and!; try done; lia.
Qed.

(** Whether the breaker lets a call pass. *)
Definition passes w : bool :=
  match cb_state (es_breaker w) with
  | open => recoveryTimeoutMs breaker_config <=? es_now w - cb_lastStateChange (es_breaker w)
  | _ => true
  end.

Lemma refresh_open w :
  cb_state (refresh breaker_config (es_now w) (es_breaker w)) = open ↔ passes w = false.
Proof.
  unfold refresh, passes. destruct (cb_state (es_breaker w)) eqn:E; simpl; [by rewrite E | | by rewrite E].
  destruct (_ <=? _); simpl; [done | by rewrite E].
Qed.

Lemma call_rejected c w :
  passes w = false →
  guarded_call c w =
    (inl (Exn "ContractInvocationError" (exn_message (CircuitBreakerOpenError (recoveryTimeoutMs breaker_config)))),
     set_breaker (λ b, count_rejection (count_request b)) w).
Proof.
  intros Hp. apply refresh_open in Hp as Ho. unfold guarded_call, try_catch, execute, getState.
  assert (Hr : refresh breaker_config (es_now w) (es_breaker w) = es_breaker w).
  { unfold refresh, passes in *. destruct (cb_state (es_breaker w)); [done | by rewrite Hp | done]. }
  rewrite bind_assoc_run. erewrite bind_run by done. erewrite bind_run by done. erewrite bind_run by done.
  simpl. rewrite Ho. erewrite bind_run by done. unfold set_breaker, throw. simpl. by rewrite Hr.
Qed.

(** The breaker after a call that passed. *)
Definition after_call (ok : bool) (now now' : Z) (b : CircuitBreaker) : CircuitBreaker :=
  let b1 := count_request (refresh breaker_config now b) in
  if ok then onSuccess breaker_config now' b1 else onFailure breaker_config now' b1.

Lemma call_passed c w :
  truthy (trim <$> wallet_token) = true → passes w = true →
  ∃ r res w', guarded_call c w = (res, w') ∧
    (∀ d, res = inr d ↔ reply_result r = inr d) ∧
    es_calls w' = es_calls w ++ [(c, r)] ∧
    es_breaker w' = after_call (answered r) (es_now w) (es_now w') (es_breaker w) ∧ es_now w ≤ es_now w'.
Proof.
  intros Ht Hp. unfold guarded_call, try_catch, execute, getState.
  rewrite bind_assoc_run. erewrite bind_run by done. erewrite bind_run by done. erewrite bind_run by done. simpl.
  assert (Hno : cb_state (refresh breaker_config (es_now w) (es_breaker w)) ≠ open).
  { rewrite refresh_open. congruence. }
  set (w1 := set_breaker count_request _). destruct (submit_run c w1 Ht) as (r & w2 & Hs & Hc & Hb & Hn).
  exists r. unfold answered. destruct (cb_state (refresh _ _ _)); [| done |]; unfold try_catch.
  all: destruct (reply_result r) as [m | d]; [erewrite bind_run_err by exact Hs | erewrite bind_run by exact Hs].
  all: eexists _, _; split; [done |]; split; [naive_solver |]; simpl; rewrite Hc, Hb; done.
Qed.

(** ** Histories *)

Inductive es_op :=
| EsInitialize (source admin : string)
| EsDeposit (source buyer seller : string) (orderId userId : option string)
| EsRelease (source escrowId : string)
| EsRefund (source escrowId reason : string)
| EsStats
| EsWait (ms : N).

Definition es_step w (o : es_op) : escrows :=
  match o with
  | EsInitialize s a => (initialize s a w).2
  | EsDeposit s b l o u => (deposit s b l o u w).2
  | EsRelease s e => (release s e w).2
  | EsRefund s e r => (refund s e r w).2
  | EsStats => (getStats w).2
  | EsWait ms => take_time ms w
  end.

(** What the breaker knows about the log. *)
Definition tracks w : Prop :=
  let b := es_breaker w in
  cb_lastStateChange b ≤ es_now w ∧
  match cb_state b with
  | closed => cb_failureCount b = trailing (es_calls w) ∧ cb_failureCount b < failureThreshold breaker_config
  | open => 1 ≤ trailing (es_calls w)
  | half_open => 0 ≤ cb_successCount b < halfOpenSuccessThreshold breaker_config
  end.

Hypothesis token_set : truthy (trim <$> wallet_token) = true.
Hypothesis threshold_pos : 0 < failureThreshold breaker_config.
Hypothesis half_open_pos : 0 < halfOpenSuccessThreshold breaker_config.

Lemma after_call_tracks w w' c r :
  tracks w → passes w = true → es_calls w' = es_calls w ++ [(c, r)] → es_now w ≤ es_now w' →
  es_breaker w' = after_call (answered r) (es_now w) (es_now w') (es_breaker w) → tracks w'.
Proof.
  intros [Hl Ht] Hp Hc Hn Hb. pose proof (trailing_nonneg (es_calls w)) as Hnn. unfold tracks. rewrite Hb, Hc, trailing_snoc. simpl.
  unfold after_call, refresh, passes in *. destruct (cb_state (es_breaker w)) eqn:E.
  - unfold onSuccess, onFailure. simpl. rewrite E. simpl. destruct (answered r); simpl; rewrite ?E; [lia |].
    case_match eqn:F; simpl; rewrite ?E; [lia |]. apply Z.leb_gt in F. lia.
  - rewrite Hp. unfold onSuccess, onFailure. simpl. destruct (answered r); simpl; [| lia].
    destruct (_ <=? 0 + 1) eqn:F; simpl; [lia |]. apply Z.leb_gt in F. lia.
  - unfold onSuccess, onFailure. simpl. rewrite E. simpl. destruct (answered r); simpl; [| lia].
    destruct (_ <=? _) eqn:F; simpl; rewrite ?E; [lia |]. apply Z.leb_gt in F. lia.
Qed.

Lemma guarded_call_tracks c : evolves (keeps tracks) (guarded_call c).
Proof.
  intros w Hw. destruct (passes w) eqn:Hp.
  - destruct (call_passed c w token_set Hp) as (r & res & w' & Hrun & _ & Hc & Hb & Hn). rewrite Hrun. simpl.
    by eapply after_call_tracks.
  - rewrite call_rejected by done. exact Hw.
Qed.
#[local] Hint Resolve guarded_call_tracks : evolve.

Lemma stats_tracks : evolves (keeps tracks) getStats.
Proof.
  intros w [Hl Ht]. unfold getStats, getState. rewrite bind_assoc_run. erewrite bind_run by done. erewrite bind_run by done.
  unfold tracks, refresh in *. simpl. destruct (cb_state (es_breaker w)) eqn:E; simpl; rewrite ?E; [done | | done].
  case_match; simpl; rewrite ?E; [lia | done].
Qed.

Lemma es_step_tracks w o : tracks w → tracks (es_step w o).
Proof.
  intros Hw. destruct o as [s a | s b l o u | s e | s e r | | ms]; simpl.
  - assert (evolves (keeps tracks) (initialize s a)) as H by (unfold initialize, getEscrowContractId; evolve). by apply H.
  - assert (evolves (keeps tracks) (deposit s b l o u)) as H by (unfold deposit, getEscrowContractId; evolve). by apply H.
  - assert (evolves (keeps tracks) (release s e)) as H by (unfold release, getEscrowContractId, parseEscrowId; evolve). by apply H.
  - assert (evolves (keeps tracks) (refund s e r)) as H by (unfold refund, getEscrowContractId, parseEscrowId; evolve). by apply H.
  - by apply stats_tracks.
  - destruct Hw as [Hl Ht]. split; simpl; [lia | done].
Qed.

(** The circuit breaker tracks the wallet service.  Over every history of escrow
    operations, however the wallet service answers: while the circuit is closed its
    counter is the number of unanswered calls at the end of the log and stays below
    the threshold; it is open only after an unanswered call; and an open circuit
    whose recovery time has not passed forwards no call. *)
Theorem breaker_tracks_failures ops now :
  let w := foldl es_step (Escrows [] (newCircuitBreaker now) None now) ops in
  tracks w ∧ (passes w = false → ∀ c, es_calls (guarded_call c w).2 = es_calls w).
Proof.
  intros w. split.
  - assert (H : ∀ w0, tracks w0 → tracks (foldl es_step w0 ops)).
    { induction ops as [| o ops IH]; intros w0 H0; simpl; [done |]. by apply IH, es_step_tracks. }
    apply H. split; simpl; [lia |]. split; [done | lia].
  - intros Hp c. by rewrite call_rejected.
Qed.
End correct.

(** ** Fees, errors and deposits *)

Section facts.
Context `{EE : EscrowEnv}.

(** Every estimate recommends at least the fallback fee, as long as the cache does. *)
Definition fees_floored (w : escrows) : Prop :=
  ∀ e, es_fees w = Some e → DEFAULT_FALLBACK_FEE ≤ fe_recommendedFeeStroops (ce_estimate e).

Theorem fee_at_least_fallback p w f w' :
  fees_floored w → estimateTransactionFeeWithServer p w = (inr f, w') →
  DEFAULT_FALLBACK_FEE ≤ fe_recommendedFeeStroops f ∧ fees_floored w'.
Proof.
  intros Hw. unfold estimateTransactionFeeWithServer. erewrite bind_run by done. destruct (cached w) as [e |] eqn:Hc.
  { intros [= <- <-]. split; [| done]. unfold cached in Hc. destruct (es_fees w) as [x |] eqn:Hx; [| done].
    destruct (_ <? _); simplify_eq. by apply Hw. }
  erewrite bind_run by done. destruct (feeStats (es_now w)) as [took reply]. do 2 (erewrite bind_run by done).
  destruct reply as [e | [s |]]; [intros [= <- <-]; by split | | intros [= <- <-]; by split].
  destruct (isValidFeeStats (Some s)); [| intros [= <- <-]; by split].
  destruct (hs_max_fee s) as [m |]; [| intros [= <- <-]; by split].
  assert (Hmax : ∀ t, DEFAULT_FALLBACK_FEE ≤ fe_recommendedFeeStroops (horizon_estimate s m p t)).
  { intros t. simpl. apply Z.le_max_r. }
  intros [= <- <-]. split; [apply Hmax |]. intros e [= <-]. apply Hmax.
Qed.

(** Normalizing an error twice is normalizing it once. *)
Lemma normalize_idempotent m :
  normalizeContractError (thrown_of (as_exn (normalizeContractError (ThrownError m) None))) None =
  normalizeContractError (ThrownError m) None.
Proof. done. Qed.

(** A deposit never reports the identifier of the escrow it created. *)
Lemma deposit_without_escrow_id s b l o u w r w' : deposit s b l o u w = (inr r, w') → eo_escrowId r = None.
Proof.
  unfold deposit. intros H. apply bind_inr in H as (c & w1 & _ & H). apply bind_inr in H as (tx & w2 & _ & H).
  by injection H as <- _.
Qed.
End facts.

(** ** Concrete runs *)

Definition default_breaker : CircuitBreakerConfig :=
  {| failureThreshold := 5; recoveryTimeoutMs := 30000; halfOpenSuccessThreshold := 2; failureWindowMs := 60000 |}.

Definition quiet_stats : HorizonFeeStats := {|
  hs_last_ledger := StatNumber 5; hs_last_ledger_base_fee := StatNumber 100; hs_ledger_capacity_usage := StatNumber 0;
  hs_max_fee := Some {| mf_p50 := StatNumber 200; mf_p95 := StatNumber 900; mf_p99 := StatNumber 5000 |};
  hs_fee_charged := Some {| fc_p50 := Some (StatNumber 150); fc_p90 := Some (StatNumber 700); fc_p99 := None |} |}.

Definition tx_reply (h : string) (ok : bool) : http_reply :=
  Reply 200 (Some {| api_data := Some {| hash := h; ledger := 42; success := ok |}; api_error := None |}).

(** A wallet service that is down until it has been called [n] times. *)
Definition flaky_wallet (n : nat) : EscrowEnv := {|
  wallet_token := Some "token"; contract_id := Some "CESCROW"; breaker_config := default_breaker;
  feeStats := λ _, (5%N, inr (Some quiet_stats));
  wallet_post := λ before _, (10%N, if (length before <? n)%nat then Unreachable "connection refused" else tx_reply "tx" true) |}.

Definition idle (now : Z) : escrows := Escrows [] (newCircuitBreaker now) None now.

Definition outage : list es_op :=
  replicate 6 (EsRelease "GS" "7") ++ [EsWait 30000; EsRelease "GS" "7"; EsRefund "GS" "8" "timeout"].

Lemma breaker_tracks_failures_witness :
  let w := foldl (es_step (EE := flaky_wallet 5)) (idle 0) outage in
  tracks (EE := flaky_wallet 5) w ∧ cb_state (es_breaker w) = closed ∧ length (es_calls w) = 7%nat.
Proof.
  pose proof (breaker_tracks_failures (EE := flaky_wallet 5) eq_refl eq_refl eq_refl outage 0) as [H _].
  split; [exact H | by vm_compute].
Defined.

(** The window of [failureWindowMs] is never consulted: five failures a day apart open
    the circuit. *)
Theorem failures_far_apart_open_circuit :
  let day := EsWait 86400000 in let call := EsRelease "GS" "7" in
  let w := foldl (es_step (EE := flaky_wallet 9)) (idle 0) [call; day; call; day; call; day; call; day; call] in
  cb_state (es_breaker w) = open ∧ (failureWindowMs default_breaker < 86400000).
Proof. by vm_compute. Qed.

(** The rejection by an open circuit asks the caller to retry later, and is classified
    as permanent. *)
Theorem open_circuit_not_retryable :
  let w := foldl (es_step (EE := flaky_wallet 9)) (idle 0) (replicate 5 (EsRelease "GS" "7")) in
  ∃ e w', guarded_call (EE := flaky_wallet 9) (Build_ContractCall "GS" "CESCROW" "release" [ArgNum 7] "" None) w = (inl e, w') ∧
    exn_message e = "Circuit breaker is open. Retry after 30000ms." ∧ classify (exn_message e) = ("WALLET_SERVICE_ERROR", false).
Proof. eexists _, _. split; [by vm_compute |]. by vm_compute. Qed.

(** The cache of fee estimates does not distinguish the percentiles. *)
Theorem cached_fee_of_other_percentile :
  let w := (estimateTransactionFeeWithServer (EE := flaky_wallet 0) p50 (idle 0)).2 in
  fe_recommendedFeeStroops <$> (match (estimateTransactionFeeWithServer (EE := flaky_wallet 0) p99 w).1 with inr f => Some f | inl _ => None end)
    = Some 200 ∧
  fe_recommendedFeeStroops <$> (match (estimateTransactionFeeWithServer (EE := flaky_wallet 0) p99 (idle 0)).1 with inr f => Some f | inl _ => None end)
    = Some 5000.
Proof. by vm_compute. Qed.
