(* ===== verification/Settlement.v ===== *)
(** * Settlement of orders (apps/backend/payments/settlement/index.ts)

    [settleOrder], [refundOrder], [dryRunSettlement] and [coordinateSettlement] over the
    payment records and the escrow service; [publishPaymentEvent] of events/index.ts.
    A statement sent to PostgreSQL may fail without effect, and Redis may refuse an
    event; both are parameters.  Publications that are not awaited happen at once. *)
From S2P Require Import Prelude JsLib PaymentRecords ChainClient EscrowCoordinator EscrowService.
Local Open Scope Z_scope.

Record PaymentEvent := { pe_type : string; pe_orderId : string; pe_payload : list (string * string); pe_occurredAt : Z }.

(** The payment records, the number of statements sent, the escrow service with the
    clock, and the stream of payment events. *)
Record sworld := SWorld {
  sw_rows : list PaymentRecordRow; sw_uuids : nat; sw_stmts : nat; sw_escrows : escrows; sw_events : list PaymentEvent
}.

Class SettlementEnv := {
  st_escrow :: EscrowEnv;
  (** the failure of the statement of this number *)
  stmt_error : nat → option exn;
  stream_error : list PaymentEvent → PaymentEvent → option exn;
  SETTLEMENT_SOURCE_ADDRESS : option string;
  SETTLEMENT_RELEASE_ADDRESS : option string
}.

Definition sw_now (w : sworld) : Z := es_now (sw_escrows w).
Definition sw_db (w : sworld) : db := Db (sw_rows w) (sw_now w) (sw_uuids w).
Definition put_sw_db (d : db) (w : sworld) : sworld :=
  SWorld (payment_records d) (uuids d) (sw_stmts w) (sw_escrows w) (sw_events w).
Definition put_escrows (e : escrows) (w : sworld) : sworld :=
  SWorld (sw_rows w) (sw_uuids w) (sw_stmts w) e (sw_events w).

Inductive SettlementOutcomeStatus := so_released | so_refunded | so_failed | so_no_escrow.

Record SettlementOutcome := {
  so_orderId : string; so_escrowId : option string; so_status : SettlementOutcomeStatus; so_txHash : option string;
  so_alreadySettled : bool; so_reason : option string
}.

(** The argument of the dry run: an order, or the fields of a partial command. *)
Inductive dry_run_target :=
| ByOrder (orderId : string)
| ByCommand (orderId escrowId releaseTo amountStroops : option string).

Record SettlementDryRunResult := {
  sd_orderId : string; sd_canSettle : bool; sd_simulationFee : option string; sd_reason : option string
}.

Section settlement.
Context `{SE : SettlementEnv}.

(** A statement: it may fail before it does anything. *)
Definition stmt {A} (c : M db A) : M sworld A :=
  n ← gets sw_stmts;
  modify (λ w, SWorld (sw_rows w) (sw_uuids w) (S (sw_stmts w)) (sw_escrows w) (sw_events w));;
  match stmt_error n with
  | Some e => throw e
  | None => zoom sw_db put_sw_db c
  end.

Definition on_escrows {A} (c : M escrows A) : M sworld A := zoom sw_escrows put_escrows c.

Definition publishPaymentEvent (type orderId : string) (payload : list (string * string)) : M sworld () :=
  now ← gets sw_now;
  before ← gets sw_events;
  let e := {| pe_type := type; pe_orderId := orderId; pe_payload := payload; pe_occurredAt := now |} in
  match stream_error before e with
  | Some err => throw err
  | None => modify (λ w, SWorld (sw_rows w) (sw_uuids w) (sw_stmts w) (sw_escrows w) (sw_events w ++ [e]))
  end.
(** [publishPaymentEvent(...).catch(log)] *)
Definition publish_quietly (type orderId : string) (payload : list (string * string)) : M sworld () :=
  try_catch (publishPaymentEvent type orderId payload) (λ _, mret ()).

Definition loadPaymentRecordForCompensation (orderId : string) : M sworld (option PaymentRecord) :=
  stmt (findPaymentRecordByOrderId orderId).

(** The outcomes. *)
Definition no_escrow (orderId : string) (record : option PaymentRecord) : SettlementOutcome := {|
  so_orderId := orderId; so_escrowId := record ≫= pr_escrowId; so_status := so_no_escrow; so_txHash := None;
  so_alreadySettled := false; so_reason := Some "No funded escrow found for order" |}.
Definition settled (orderId : string) (escrowId : option string) (s : SettlementOutcomeStatus) (tx : option string)
    (already : bool) : SettlementOutcome := {|
  so_orderId := orderId; so_escrowId := escrowId; so_status := s; so_txHash := tx; so_alreadySettled := already;
  so_reason := None |}.
Definition not_settled (orderId : string) (escrowId : option string) (tx : option string) (reason : string)
    : SettlementOutcome := {|
  so_orderId := orderId; so_escrowId := escrowId; so_status := so_failed; so_txHash := tx; so_alreadySettled := false;
  so_reason := Some reason |}.

Definition sourceOrThrow : M sworld string :=
  if truthy SETTLEMENT_SOURCE_ADDRESS then mret (default "" SETTLEMENT_SOURCE_ADDRESS)
  else throw (Error "SETTLEMENT_SOURCE_ADDRESS environment variable is not configured").

(** [catch (err)]: the record is marked as failed if the database allows it. *)
Definition settlement_failed (orderId : string) (record : PaymentRecord) (err : exn) : M sworld SettlementOutcome :=
  try_catch (stmt (updatePaymentRecord (pr_id record) (upd_failed (exn_message err)));; mret ()) (λ _, mret ());;
  mret (not_settled orderId (pr_escrowId record) None (exn_message err)).

Definition settleOrder (orderId : string) : M sworld SettlementOutcome :=
  let trimmedOrderId := trim orderId in
  throw_if (String.eqb trimmedOrderId "") (Error "orderId is required");;
  found ← loadPaymentRecordForCompensation trimmedOrderId;
  match found with
  | Some record =>
      if negb (truthy (pr_escrowId record)) then mret (no_escrow trimmedOrderId found)
      else
        let escrowId := default "" (pr_escrowId record) in
        match pr_status record with
        | released => mret (settled trimmedOrderId (Some escrowId) so_released (pr_releaseTxHash record) true)
        | refunded =>
            mret (not_settled trimmedOrderId (Some escrowId) None
                    ("Cannot release order " +:+ trimmedOrderId +:+ ": escrow was already refunded"))
        | _ =>
            sourceAddress ← sourceOrThrow;
            try_catch
              (result ← on_escrows (release sourceAddress escrowId);
               if negb (eo_success result) then
                 stmt (updatePaymentRecord (pr_id record) (upd_failed "Release transaction failed on-chain"));;
                 mret (not_settled trimmedOrderId (Some escrowId) (Some (eo_txHash result)) "Release transaction failed on-chain")
               else
                 stmt (updatePaymentRecord (pr_id record) (upd_released (eo_txHash result)));;
                 publish_quietly "escrow_released" trimmedOrderId [("escrowId", escrowId); ("txHash", eo_txHash result)];;
                 mret (settled trimmedOrderId (Some escrowId) so_released (Some (eo_txHash result)) false))
              (settlement_failed trimmedOrderId record)
        end
  | None => mret (no_escrow trimmedOrderId None)
  end.

Definition refundOrder (orderId reasonCode : string) : M sworld SettlementOutcome :=
  let trimmedOrderId := trim orderId in
  throw_if (String.eqb trimmedOrderId "") (Error "orderId is required");;
  found ← loadPaymentRecordForCompensation trimmedOrderId;
  match found with
  | Some record =>
      if negb (truthy (pr_escrowId record)) then mret (no_escrow trimmedOrderId found)
      else
        let escrowId := default "" (pr_escrowId record) in
        match pr_status record with
        | refunded => mret (settled trimmedOrderId (Some escrowId) so_refunded (pr_refundTxHash record) true)
        | released =>
            mret (not_settled trimmedOrderId (Some escrowId) None
                    ("Cannot refund order " +:+ trimmedOrderId +:+ ": escrow was already released"))
        | _ =>
            sourceAddress ← sourceOrThrow;
            try_catch
              (result ← on_escrows (refund sourceAddress escrowId reasonCode);
               if negb (eo_success result) then
                 stmt (updatePaymentRecord (pr_id record) (upd_failed "Refund transaction failed on-chain"));;
                 mret (not_settled trimmedOrderId (Some escrowId) (Some (eo_txHash result)) "Refund transaction failed on-chain")
               else
                 stmt (updatePaymentRecord (pr_id record) (upd_refunded (eo_txHash result)));;
                 publish_quietly "escrow_refunded" trimmedOrderId
                   [("escrowId", escrowId); ("txHash", eo_txHash result); ("reasonCode", reasonCode)];;
                 mret (settled trimmedOrderId (Some escrowId) so_refunded (Some (eo_txHash result)) false))
              (settlement_failed trimmedOrderId record)
        end
  | None => mret (no_escrow trimmedOrderId None)
  end.

Definition resolveEscrowForOrder (orderId : string) : string := orderId.
Definition resolveReleaseAddress (orderId : string) : string := default orderId SETTLEMENT_RELEASE_ADDRESS.
Definition resolveSettlementAmount (_orderId : string) : string := "0".

(** [o || fallback] *)
Definition or_else (o : option string) (fallback : string) : string := if truthy o then default "" o else fallback.

Definition cannot_settle (orderId reason : string) : SettlementDryRunResult :=
  {| sd_orderId := orderId; sd_canSettle := false; sd_simulationFee := None; sd_reason := Some reason |}.

Definition dryRunSettlement (target : dry_run_target) : M sworld SettlementDryRunResult :=
  let orderId := match target with ByOrder o => trim o | ByCommand o _ _ _ => default "" (trim <$> o) end in
  if String.eqb orderId "" then mret (cannot_settle "" "Invalid or missing order ID")
  else if negb (truthy SETTLEMENT_SOURCE_ADDRESS)
  then mret (cannot_settle orderId "SETTLEMENT_SOURCE_ADDRESS environment variable is not configured")
  else
    try_catch
      (let escrowId := match target with
                       | ByOrder _ => resolveEscrowForOrder orderId
                       | ByCommand _ e _ _ => or_else e (resolveEscrowForOrder orderId)
                       end in
       if String.eqb escrowId "" || String.eqb (trim escrowId) ""
       then mret (cannot_settle orderId "Invalid or missing escrow ID")
       else
         feeEstimate ← on_escrows getTransactionFeeEstimate;
         mret {| sd_orderId := orderId; sd_canSettle := true;
                 sd_simulationFee := Some (dec (fe_recommendedFeeStroops feeEstimate)); sd_reason := None |})
      (λ err, mret (cannot_settle orderId (exn_message err))).

Definition coordinateSettlement (orderId : string) : M sworld () :=
  ledgerResult ← outcome
    (let escrowId := resolveEscrowForOrder orderId in
     sourceAddress ← sourceOrThrow;
     on_escrows (release sourceAddress escrowId));
  match ledgerResult with
  | inr result =>
      publish_quietly "settlement_complete" orderId
        [("escrowId", resolveEscrowForOrder orderId); ("releaseTo", resolveReleaseAddress orderId);
         ("amountStroops", resolveSettlementAmount orderId); ("txHash", eo_txHash result)]
  | inl err =>
      publish_quietly "settlement_complete" orderId [("error", exn_message err); ("status", "failed")];;
      throw err
  end.
End settlement.
