(* ===== verification/SettlementCorrect.v ===== *)
(** * What settlement guarantees

    Once the wallet service confirmed the payout of an escrow, [settleOrder] and
    [refundOrder] never post another one, in any order and with any retries, as long as
    the statements sent to the database succeed; and runs in which a payout is posted
    twice: after a lost update, after a lost answer, and by [coordinateSettlement]. *)
From S2P Require Import Prelude JsLib PaymentRecords ChainClient EscrowCoordinator EscrowService EscrowServiceCorrect Settlement.
Local Open Scope Z_scope.

(** ** Payouts in the log of contract calls *)

(** A release or refund of the escrow [n] that was posted to the wallet service. *)
Definition targets (n : Z) (entry : ContractCall * http_reply) : bool :=
  (String.eqb (cc_method entry.1) "release" || String.eqb (cc_method entry.1) "refund") &&
  match cc_args entry.1 with [ArgNum m] => m =? n | _ => false end.

(** One that the wallet service confirmed: an answer was received, and it reports
    success.  What became of a call without such an answer the program cannot know. *)
Definition pays (n : Z) (entry : ContractCall * http_reply) : bool :=
  targets n entry && match reply_result entry.2 with inr d => success d | inl _ => false end.

(** Nothing is posted for the escrow after a confirmed payout. *)
Definition last_word (n : Z) (log : list (ContractCall * http_reply)) : Prop :=
  ∀ before e after, log = before ++ e :: after → pays n e = true → Forall (λ x, targets n x = false) after.

Definition payouts (n : Z) (log : list (ContractCall * http_reply)) : nat := length (List.filter (pays n) log).

Lemma payouts_snoc n log e : payouts n (log ++ [e]) = (payouts n log + if pays n e then 1 else 0)%nat.
Proof. unfold payouts. rewrite List.filter_app, length_app. simpl. by destruct (pays n e). Qed.

Lemma no_payouts n log e : payouts n log = 0%nat → e ∈ log → pays n e = false.
Proof.
  intros H Hin. destruct (pays n e) eqn:E; [| done]. exfalso.
  assert (In e (List.filter (pays n) log)) as H' by (apply List.filter_In; split; [by apply list_elem_of_In | done]).
  unfold payouts in H. by destruct (List.filter (pays n) log).
Qed.

(** A call for the escrow may follow only a log without a confirmed payout of it. *)
Lemma last_word_snoc n log e :
  last_word n log → (targets n e = true → payouts n log = 0%nat) → last_word n (log ++ [e]).
Proof.
  intros Hl He before x after Hsplit Hx. destruct after as [| y after' _] using rev_ind; [constructor |].
  rewrite app_comm_cons, app_assoc in Hsplit. apply app_inj_tail in Hsplit as [-> ->].
  apply Forall_app. split; [by eapply Hl |]. constructor; [| constructor].
  destruct (targets n y) eqn:Hy; [| done]. rewrite (no_payouts n _ x (He eq_refl)) in Hx; [done |].
  apply elem_of_app. right. by left.
Qed.

Section calls.
Context `{EE : EscrowEnv}.

(** A call of the service leaves the log as it was and throws, or posts one contract
    call whose answer it reports. *)
Lemma guarded_call_log c w :
  ∃ res w', guarded_call c w = (res, w') ∧
    ((es_calls w' = es_calls w ∧ ∃ e, res = inl e) ∨
     (∃ r, es_calls w' = es_calls w ++ [(c, r)] ∧ ∀ d, res = inr d ↔ reply_result r = inr d)).
Proof.
  destruct (passes w) eqn:Hp.
  2:{ rewrite call_rejected by done. eexists _, _. split; [done |]. left. by split; [| eexists]. }
  destruct (truthy (trim <$> wallet_token)) eqn:Ht.
  - destruct (call_passed c w Ht Hp) as (r & res & w' & Hrun & Hres & Hc & _). exists res, w'. split; [done |]. right. by exists r.
  - unfold guarded_call, try_catch, execute, getState. rewrite bind_assoc_run. do 3 (erewrite bind_run by done). cbv beta.
    unfold try_catch, submitContractCall. rewrite Ht. simpl.
    destruct (cb_state _); eexists _, _; (split; [done |]); left; by split; [| eexists].
Qed.

(** What a computation pays: the escrow with the number [m], or nothing. *)
Definition paid (res : exn + EscrowOperationResult) : bool := match res with inr x => eo_success x | inl _ => false end.

Definition pays_only (m : option Z) (c : M escrows EscrowOperationResult) : Prop :=
  ∀ w, ∃ res w', c w = (res, w') ∧
    ((es_calls w' = es_calls w ∧ ∃ e, res = inl e) ∨
     (∃ k entry, m = Some k ∧ es_calls w' = es_calls w ++ [entry] ∧ ∀ n, targets n entry = (k =? n) ∧ pays n entry = (k =? n) && paid res)).

Lemma call_then_pays c k e (w : escrows) :
  (cc_method c = "release" ∨ cc_method c = "refund") → cc_args c = [ArgNum k] →
  ∃ res w', (tx ← guarded_call c; mret (toEscrowResult tx e)) w = (res, w') ∧
    ((es_calls w' = es_calls w ∧ ∃ err, res = inl err) ∨
     (∃ entry, es_calls w' = es_calls w ++ [entry] ∧ ∀ n, targets n entry = (k =? n) ∧ pays n entry = (k =? n) && paid res)).
Proof.
  intros Hm Ha. assert (Hb : String.eqb (cc_method c) "release" || String.eqb (cc_method c) "refund" = true).
  { by destruct Hm as [-> | ->]. }
  destruct (guarded_call_log c w) as (res & w' & Hrun & Hcase).
  destruct res as [err | tx]; [erewrite bind_run_err by exact Hrun | erewrite bind_run by exact Hrun].
  all: eexists _, _; split; [done |].
  all: destruct Hcase as [[Hc [e' He]] | (r & Hc & Hd)]; [simplify_eq; left; by eauto |]; right; exists (c, r); split; [done |].
  all: intros n; unfold pays, targets; cbn [fst snd]; rewrite Hb, Ha; (split; [done |]); simpl; f_equal.
  - destruct (reply_result r) as [m | d]; [done |]. by specialize (proj2 (Hd d) eq_refl).
  - by rewrite (proj1 (Hd tx) eq_refl).
Qed.

Lemma parse_run e w :
  (∃ k, Number_integer e = Some k ∧ parseEscrowId e w = (inr k, w)) ∨ ∃ err, parseEscrowId e w = (inl err, w).
Proof.
  unfold parseEscrowId. destruct (Number_integer e) as [k |]; [| right; by eexists].
  destruct (k <? 0); [right; by eexists | left; by exists k].
Qed.

Lemma parsed_call_pays (f : string → Z → ContractCall) e :
  (∀ contract k, (cc_method (f contract k) = "release" ∨ cc_method (f contract k) = "refund") ∧ cc_args (f contract k) = [ArgNum k]) →
  pays_only (Number_integer e)
    (contract ← getEscrowContractId; k ← parseEscrowId e; tx ← guarded_call (f contract k); mret (toEscrowResult tx (Some e))).
Proof.
  intros Hf w. unfold getEscrowContractId. destruct (truthy contract_id).
  2:{ eexists _, _. split; [done |]. left. by split; [| eexists]. }
  erewrite bind_run by done. destruct (parse_run e w) as [(k & Hk & Hp) | [err Hp]].
  2:{ erewrite bind_run_err by exact Hp. eexists _, _. split; [done |]. left. by split; [| eexists]. }
  erewrite bind_run by exact Hp. destruct (Hf (default "" contract_id) k) as [Hm Ha].
  destruct (call_then_pays _ k (Some e) w Hm Ha) as (res & w' & Hrun & Hcase).
  exists res, w'. split; [exact Hrun |]. destruct Hcase as [H | (en & H)]; [by left | right; by exists k, en].
Qed.

Lemma release_pays s e : pays_only (Number_integer e) (release s e).
Proof. apply (parsed_call_pays (λ contract k, Build_ContractCall s contract "release" [ArgNum k] _ None)). intros. by split; [left |]. Qed.

Lemma refund_pays s e r : pays_only (Number_integer e) (refund s e r).
Proof. apply (parsed_call_pays (λ contract k, Build_ContractCall s contract "refund" [ArgNum k] _ None)). intros. by split; [right |]. Qed.
End calls.

(** ** One payout per escrow *)

Definition escrow_number (r : PaymentRecordRow) : option Z := escrow_id r ≫= Number_integer.
Definition is_settled (s : PaymentRecordStatus) : Prop := s = released ∨ s = refunded.

(** The records of the escrow [n] when it was paid out [p] times. *)
Record rows_once (n : Z) (rows : list PaymentRecordRow) (p : nat) : Prop := {
  ro_ids : NoDup (row_id <$> rows);
  ro_owner : ∀ r1 r2, r1 ∈ rows → r2 ∈ rows → escrow_number r1 = Some n → escrow_number r2 = Some n → row_id r1 = row_id r2;
  ro_settled : ∀ r, r ∈ rows → escrow_number r = Some n → p = 0%nat ∨ is_settled (row_status r);
  ro_once : (p ≤ 1)%nat
}.

Definition pays_once (n : Z) (w : sworld) : Prop :=
  rows_once n (sw_rows w) (payouts n (es_calls (sw_escrows w))) ∧ last_word n (es_calls (sw_escrows w)).

Lemma rows_same_id rows r1 r2 :
  NoDup (row_id <$> rows) → r1 ∈ rows → r2 ∈ rows → row_id r1 = row_id r2 → r1 = r2.
Proof.
  intros Hnd [i Hi]%list_elem_of_lookup [j Hj]%list_elem_of_lookup E.
  assert (i = j) as ->; [| congruence].
  eapply (NoDup_lookup _ _ _ (row_id r1) Hnd); rewrite list_lookup_fmap; [by rewrite Hi | rewrite Hj; simpl; by f_equal].
Qed.

(** Updating the status of one record after [p] payouts became [p']. *)
Lemma rows_once_update n rows p p' row u now s :
  rows_once n rows p → row ∈ rows → up_escrowId u = None → up_status u = Some s →
  (p' = p ∨ (escrow_number row = Some n ∧ p = 0%nat ∧ p' = 1%nat)) →
  (escrow_number row = Some n → p' = 0%nat ∨ is_settled s) →
  rows_once n ((λ r, if by_id (row_id row) r then apply_update u now r else r) <$> rows) p'.
Proof.
  intros [Hnd Hown Hset Hle] Hrow Hue Hus Hp Hs.
  assert (Hkeep : ∀ r, row_id (if by_id (row_id row) r then apply_update u now r else r) = row_id r ∧
                       escrow_number (if by_id (row_id row) r then apply_update u now r else r) = escrow_number r).
  { intros r. destruct (by_id _ r); [| done]. split; [done |]. unfold escrow_number. simpl. by rewrite Hue. }
  split.
  - rewrite <-list_fmap_compose. erewrite list_fmap_ext; [exact Hnd |]. intros i r _. apply Hkeep.
  - intros r1 r2 (x1 & -> & H1)%list_elem_of_fmap (x2 & -> & H2)%list_elem_of_fmap.
    rewrite !(proj2 (Hkeep _)), !(proj1 (Hkeep _)). by apply Hown.
  - intros r (x & -> & Hx)%list_elem_of_fmap. rewrite (proj2 (Hkeep _)). intros Hn. unfold by_id.
    destruct (String.eqb_spec (row_id x) (row_id row)) as [E | E].
    + apply rows_same_id with (rows := rows) in E; [| done ..]. subst x. simpl. rewrite Hus. by apply Hs.
    + destruct Hp as [-> | (Hr & _ & _)]; [by apply Hset |]. by destruct E; apply Hown.
  - destruct Hp as [-> | (_ & _ & ->)]; lia.
Qed.

Section history.
Context `{SE : SettlementEnv}.
Hypothesis statements_succeed : ∀ k, stmt_error k = None.
Implicit Types w : sworld.

(** A successful update of a record of the table. *)
Lemma update_stmt w row u :
  row ∈ sw_rows w → update_fields u = true →
  ∃ rec w', stmt (updatePaymentRecord (row_id row) u) w = (inr rec, w') ∧ sw_escrows w' = sw_escrows w ∧
    sw_rows w' = (λ r, if by_id (row_id row) r then apply_update u (sw_now w) r else r) <$> sw_rows w.
Proof.
  intros Hrow Hu. unfold stmt. do 2 (erewrite bind_run by done). rewrite statements_succeed. unfold zoom, updatePaymentRecord.
  rewrite Hu. do 3 (erewrite bind_run by done). unfold select1. simpl.
  destruct (List.find _ _) as [r |] eqn:Hf.
  - eexists _, _. split; [done |]. by split.
  - exfalso. apply (find_None _ _ (apply_update u (sw_now w) row)) in Hf; [unfold by_id in Hf; simpl in Hf; by rewrite String.eqb_refl in Hf |].
    apply list_elem_of_fmap. exists row. split; [unfold by_id; by rewrite String.eqb_refl | done].
Qed.

(** Marking the record of a failed settlement. *)
Lemma failed_update w row m : row ∈ sw_rows w →
  ∃ rec w', stmt (updatePaymentRecord (row_id row) (upd_failed m)) w = (inr rec, w') ∧ sw_escrows w' = sw_escrows w ∧
    sw_rows w' = (λ r, if by_id (row_id row) r then apply_update (upd_failed m) (sw_now w) r else r) <$> sw_rows w.
Proof. intros H. by apply update_stmt. Qed.

(** The guarded block of [settleOrder] and [refundOrder]: [c] submits, [ok] is the
    update after a success. *)
Lemma settle_block_once n w row c ok status msg k1 k2 (pub : EscrowOperationResult → M sworld ()) oid :
  pays_once n w → row ∈ sw_rows w → is_Some (escrow_id row) → ¬ is_settled (row_status row) →
  pays_only (escrow_number row) c →
  (∀ tx, update_fields (ok tx) = true ∧ up_escrowId (ok tx) = None ∧ up_status (ok tx) = Some status) → is_settled status →
  (∀ r w1, ∃ w2, pub r w1 = (inr (), w2) ∧ sw_rows w2 = sw_rows w1 ∧ sw_escrows w2 = sw_escrows w1) →
  pays_once n
    (try_catch
       (result ← on_escrows c;
        if negb (eo_success result) then stmt (updatePaymentRecord (row_id row) (upd_failed msg));; mret (k1 result)
        else stmt (updatePaymentRecord (row_id row) (ok (eo_txHash result)));; pub result;; mret (k2 result))
       (settlement_failed oid (mapRow row)) w).2.
Proof.
  intros Hw Hrow [eid Heid] Hns Hc Hok Hst Hpub. destruct Hw as [Hw Hlast].
  destruct (Hc (sw_escrows w)) as (res & e1 & Hrun & Hcase). set (p := payouts n (es_calls (sw_escrows w))) in *.
  set (p' := payouts n (es_calls e1)).
  assert (Hp0 : escrow_number row = Some n → p = 0%nat).
  { intros Hn. by destruct (ro_settled _ _ _ Hw row Hrow Hn). }
  assert (Hp : (p' = p ∨ (escrow_number row = Some n ∧ p = 0%nat ∧ p' = 1%nat)) ∧ (escrow_number row = Some n → p' = 0%nat ∨ paid res = true)).
  { unfold p'. destruct Hcase as [[-> _] | (k & entry & Hk & -> & Hpay)]; [split; [by left | intros; left; auto] |].
    rewrite payouts_snoc, (proj2 (Hpay n)). change (payouts n (es_calls (sw_escrows w))) with p.
    destruct (Z.eqb_spec k n) as [-> |]; [| simpl; rewrite Nat.add_0_r; split; [by left | congruence]].
    rewrite Hp0 by done. destruct (paid res); simpl; [split; [by right |] | split; [by left |]]; intros _; [by right | by left]. }
  assert (Hlast' : last_word n (es_calls e1)).
  { destruct Hcase as [[-> _] | (k & entry & Hk & -> & Hpay)]; [done |]. apply last_word_snoc; [done |].
    rewrite (proj1 (Hpay n)). intros ->%Z.eqb_eq. by apply Hp0. }
  destruct Hp as [Hp Hpaid]. unfold try_catch.
  assert (Hrun1 : on_escrows c w = (res, put_escrows e1 w)) by (unfold on_escrows, zoom; by rewrite Hrun).
  (* marking the record as failed is right when nothing was paid *)
  assert (Hfail : ∀ m w', paid res = false → sw_escrows w' = e1 →
            sw_rows w' = (λ r, if by_id (row_id row) r then apply_update (upd_failed m) (sw_now (put_escrows e1 w)) r else r) <$> sw_rows w →
            pays_once n w').
  { intros m w' Hnp He Hr. unfold pays_once. rewrite He, Hr. split; [| done]. eapply rows_once_update; [exact Hw | done | done | done | exact Hp |].
    intros Hn. destruct (Hpaid Hn) as [H | H]; [by left | congruence]. }
  destruct res as [err | x].
  - erewrite bind_run_err by exact Hrun1. unfold settlement_failed, try_catch.
    destruct (failed_update (put_escrows e1 w) row (exn_message err) Hrow) as (rec & w2 & Hu & He & Hr).
    erewrite bind_run; [| erewrite bind_run by exact Hu; done]. simpl. by eapply Hfail.
  - erewrite bind_run by exact Hrun1. destruct (eo_success x) eqn:Hx; simpl.
    + destruct (Hok (eo_txHash x)) as (Hf & Hue & Hus).
      destruct (update_stmt (put_escrows e1 w) row _ Hrow Hf) as (rec & w2 & Hu & He & Hr).
      destruct (Hpub x w2) as (w3 & Hw3 & Hr3 & He3).
      erewrite bind_run by exact Hu. erewrite bind_run by exact Hw3. simpl. unfold pays_once. rewrite Hr3, He3, Hr, He. split; [| done].
      eapply rows_once_update; [exact Hw | done | done | exact Hus | exact Hp |]. intros _. by right.
    + destruct (failed_update (put_escrows e1 w) row msg Hrow) as (rec & w2 & Hu & He & Hr).
      erewrite bind_run by exact Hu. simpl. by eapply Hfail.
Qed.

Lemma publish_run t o l w :
  ∃ w', publish_quietly t o l w = (inr (), w') ∧ sw_rows w' = sw_rows w ∧ sw_escrows w' = sw_escrows w.
Proof.
  unfold publish_quietly, try_catch, publishPaymentEvent. do 2 (erewrite bind_run by done).
  destruct (stream_error _ _); by eexists.
Qed.

Lemma load_run o w :
  ∃ w', loadPaymentRecordForCompensation o w = (inr (mapRow <$> select1 (by_order o) (sw_db w)), w') ∧
    sw_rows w' = sw_rows w ∧ sw_escrows w' = sw_escrows w.
Proof.
  unfold loadPaymentRecordForCompensation, stmt. do 2 (erewrite bind_run by done). rewrite statements_succeed. by eexists.
Qed.

(** What happens before the contract is called. *)
Lemma settle_preamble n o w (k : option PaymentRecord → M sworld SettlementOutcome) :
  pays_once n w →
  (∀ w1, sw_rows w1 = sw_rows w → sw_escrows w1 = sw_escrows w → pays_once n (k None w1).2) →
  (∀ row w1, row ∈ sw_rows w1 → pays_once n w1 → pays_once n (k (Some (mapRow row)) w1).2) →
  pays_once n ((throw_if (String.eqb (trim o) "") (Error "orderId is required");;
                found ← loadPaymentRecordForCompensation (trim o); k found) w).2.
Proof.
  intros Hw Hnone Hsome. destruct (String.eqb (trim o) ""); [done |]. erewrite bind_run by done.
  destruct (load_run (trim o) w) as (w1 & H1 & Hr & He). erewrite bind_run by exact H1.
  destruct (select1 _ _) as [row |] eqn:Hsel; simpl; [| by apply Hnone].
  apply Hsome; [| unfold pays_once in *; by rewrite Hr, He]. rewrite Hr.
  apply find_Some_lookup in Hsel as [_ [i Hi]]. by eapply list_elem_of_lookup_2.
Qed.

Lemma source_cases w : (∃ s, sourceOrThrow w = (inr s, w)) ∨ ∃ e, sourceOrThrow w = (inl e, w).
Proof. unfold sourceOrThrow. destruct (truthy _); [left | right]; by eexists. Qed.

Lemma settleOrder_once n o w : pays_once n w → pays_once n (settleOrder o w).2.
Proof.
  intros Hw. unfold settleOrder. apply settle_preamble; [done | |].
  { intros w1 Hr He. unfold pays_once in *. simpl. by rewrite Hr, He. }
  intros row w1 Hrow Hw1. simpl. destruct (escrow_id row) as [eid |] eqn:He; [| done].
  destruct (truthy (Some eid)); [| done]. simpl. destruct (row_status row) eqn:Hst; [| | done | done | |].
  all: destruct (source_cases w1) as [[s Hs] | [e Hs]]; [erewrite bind_run by exact Hs | by erewrite bind_run_err by exact Hs].
  all: apply (settle_block_once n w1 row _ upd_released released);
    [done | done | by eexists | rewrite Hst; by intros [? | ?] | | by intros | by left | intros; apply publish_run].
  all: unfold escrow_number; rewrite He; apply release_pays.
Qed.

Lemma refundOrder_once n o r w : pays_once n w → pays_once n (refundOrder o r w).2.
Proof.
  intros Hw. unfold refundOrder. apply settle_preamble; [done | |].
  { intros w1 Hr He. unfold pays_once in *. simpl. by rewrite Hr, He. }
  intros row w1 Hrow Hw1. simpl. destruct (escrow_id row) as [eid |] eqn:He; [| done].
  destruct (truthy (Some eid)); [| done]. simpl. destruct (row_status row) eqn:Hst; [| | done | done | |].
  all: destruct (source_cases w1) as [[s Hs] | [e Hs]]; [erewrite bind_run by exact Hs | by erewrite bind_run_err by exact Hs].
  all: apply (settle_block_once n w1 row _ upd_refunded refunded);
    [done | done | by eexists | rewrite Hst; by intros [? | ?] | | by intros | by right | intros; apply publish_run].
  all: unfold escrow_number; rewrite He; apply refund_pays.
Qed.

(** ** Histories *)

Inductive settle_op :=
| SoSettle (orderId : string)
| SoRefund (orderId reason : string)
| SoDryRun (target : dry_run_target)
| SoWait (ms : N).

Definition settle_step w (o : settle_op) : sworld :=
  match o with
  | SoSettle o => (settleOrder o w).2
  | SoRefund o r => (refundOrder o r w).2
  | SoDryRun t => (dryRunSettlement t w).2
  | SoWait ms => put_escrows (take_time ms (sw_escrows w)) w
  end.

Lemma dryRun_once n t w : pays_once n w → pays_once n (dryRunSettlement t w).2.
Proof.
  intros Hw. unfold dryRunSettlement. destruct (String.eqb _ ""); [done |]. destruct (truthy _); simpl; [| done].
  unfold try_catch. destruct (_ || _); [done |].
  destruct (fee_run p95 (sw_escrows w)) as (f & e1 & Hf & Hc & _).
  erewrite bind_run; [| unfold on_escrows, zoom, getTransactionFeeEstimate; rewrite Hf; done].
  simpl. unfold pays_once. simpl. by rewrite Hc.
Qed.

(** C17. An order is paid out once as far as the program can know: whatever the wallet
    service answers, and however releases and refunds of the orders are requested,
    repeated and mixed, once a release or refund of an escrow was confirmed, that is, its
    success was answered, its record says released or refunded and no further release or
    refund of the escrow is ever posted, so at most one is confirmed; provided the
    statements sent to the database succeed. *)
Theorem settled_once n ops w :
  pays_once n w → let w' := foldl settle_step w ops in
  let log := es_calls (sw_escrows w') in
  last_word n log ∧ (payouts n log ≤ 1)%nat ∧
  (payouts n log ≠ 0%nat → ∀ r, r ∈ sw_rows w' → escrow_number r = Some n → is_settled (row_status r)) ∧ pays_once n w'.
Proof.
  intros Hw. assert (H : pays_once n (foldl settle_step w ops)).
  2: { destruct H as [Hr Hl]. split; [done |]. split; [by eapply ro_once |]. split; [| done].
       intros Hne r Hin Hn. by destruct (ro_settled _ _ _ Hr r Hin Hn). }
  revert w Hw. induction ops as [| o ops IH]; intros w Hw; simpl; [done |]. apply IH.
  destruct o; simpl; [by apply settleOrder_once | by apply refundOrder_once | by apply dryRun_once | exact Hw].
Qed.
End history.

(** ** Concrete runs *)

Definition order_row (id order escrow : string) (st : PaymentRecordStatus) : PaymentRecordRow := {|
  row_id := id; order_id := order; escrow_id := Some escrow; escrow_contract_id := "CESCROW"; buyer_address := "GB";
  seller_address := "GS"; token_contract_id := "CTOKEN"; amount_stroops := 1000; row_status := st; fund_tx_hash := Some "f";
  release_tx_hash := None; refund_tx_hash := None; dispute_tx_hash := None; released_amount_stroops := 0;
  refunded_amount_stroops := 0; failure_reason := None; subtotal_stroops := None; tax_amount_stroops := None;
  tax_rate_basis_points := None; tax_jurisdiction := None; created_at := 0; updated_at := 0 |}.

(** The wallet service is down for the first [n] calls; statements fail as told. *)
Definition settle_env (n : nat) (stmts : nat → option exn) : SettlementEnv := {|
  st_escrow := flaky_wallet n; stmt_error := stmts; stream_error := λ _ _, None;
  SETTLEMENT_SOURCE_ADDRESS := Some "GSETTLE"; SETTLEMENT_RELEASE_ADDRESS := None |}.

Definition two_orders : sworld :=
  SWorld [order_row "r1" "o1" "7" funded; order_row "r2" "o2" "8" disputed] 2 0 (idle 0) [].

Lemma settled_once_witness :
  let w := foldl (settle_step (SE := settle_env 1 (λ _, None))) two_orders
             [SoSettle "o1"; SoRefund "o1" "timeout"; SoSettle " o1 "; SoRefund "o1" "timeout"; SoSettle "o2"] in
  last_word 7 (es_calls (sw_escrows w)) ∧ (payouts 7 (es_calls (sw_escrows w)) ≤ 1)%nat ∧
  (row_status <$> sw_rows w) = [refunded; released] ∧ length (es_calls (sw_escrows w)) = 3%nat.
Proof.
  intros w. assert (pays_once 7 two_orders) as Hstart.
  { split; [split | intros before e after H; by destruct before].
    - apply (bool_decide_unpack _). by vm_compute.
    - intros r1 r2 H1 H2. simpl in H1, H2. rewrite !elem_of_cons in H1, H2.
      destruct H1 as [-> | [-> | H1%elem_of_nil]], H2 as [-> | [-> | H2%elem_of_nil]]; done.
    - intros r _ _. by left.
    - vm_compute. lia. }
  destruct (settled_once (SE := settle_env 1 (λ _, None)) (λ _, eq_refl) 7
    [SoSettle "o1"; SoRefund "o1" "timeout"; SoSettle " o1 "; SoRefund "o1" "timeout"; SoSettle "o2"] two_orders Hstart) as (H1 & H2 & _).
  split; [exact H1 |]. split; [exact H2 | by vm_compute].
Defined.

(** A release whose answer is lost is recorded as failed, although the wallet service
    may have executed it: the next call posts the release again. *)
Theorem lost_answer_releases_again :
  let env := settle_env 1 (λ _, None) in
  let w1 := settleOrder (SE := env) "o1" two_orders in
  let w2 := settleOrder (SE := env) "o1" w1.2 in
  (row_status <$> sw_rows w1.2) = [failed; disputed] ∧ (row_status <$> sw_rows w2.2) = [released; disputed] ∧
  (targets 7 <$> es_calls (sw_escrows w2.2), reply_result ∘ snd <$> take 1 (es_calls (sw_escrows w2.2))) = ([true; true], [inl "Wallet service unavailable: connection refused"]).
Proof. by vm_compute. Qed.

(** A failure of the database after the transaction succeeded is handled like a failed
    transaction: the record says failed, and the retry releases the escrow again. *)
Theorem lost_update_releases_twice :
  let env := settle_env 0 (λ k, if (k =? 1)%nat then Some (Error "connection terminated") else None) in
  let w1 := settleOrder (SE := env) "o1" two_orders in
  let w2 := settleOrder (SE := env) "o1" w1.2 in
  (∃ o, w1.1 = inr o ∧ so_status o = so_failed) ∧ (∃ o, w2.1 = inr o ∧ so_status o = so_released ∧ so_alreadySettled o = false) ∧
  payouts 7 (es_calls (sw_escrows w2.2)) = 2%nat.
Proof. vm_compute. split; [by eexists |]. split; [by eexists |]. done. Qed.

(** An order under dispute is released to the seller. *)
Theorem disputed_order_released :
  let out := settleOrder (SE := settle_env 0 (λ _, None)) "o2" two_orders in
  (∃ o, out.1 = inr o ∧ so_status o = so_released) ∧ (row_status <$> sw_rows out.2) = [funded; released].
Proof. vm_compute. split; [by eexists | done]. Qed.

(** [coordinateSettlement] takes the order for the escrow and neither looks at the
    record nor updates it: a second call releases again. *)
Theorem coordinated_settlement_repeats :
  let env := settle_env 0 (λ _, None) in
  let w := (coordinateSettlement (SE := env) "7" (coordinateSettlement (SE := env) "7" two_orders).2).2 in
  payouts 7 (es_calls (sw_escrows w)) = 2%nat ∧ (row_status <$> sw_rows w) = [funded; disputed] ∧
  (pe_type <$> sw_events w) = ["settlement_complete"; "settlement_complete"].
Proof. by vm_compute. Qed.
