(* ===== verification/BatchSettlement.v ===== *)
(** * Batch settlements (apps/backend/payments/settlement/batch.ts)

    The daily settlements of the merchants, their CSV form, and what makes them right:
    every order of the period is in exactly one settlement, nothing is lost between
    gross amount, fee and disbursement, and a CSV reader gets the rows back.  The
    collation of [localeCompare] is a parameter. *)
From stdpp Require Import sorting.
From S2P Require Import Prelude JsLib Calendar.
Local Open Scope Z_scope.

Record CompletedMerchantOrder := {
  mo_orderId : string; mo_merchantId : string; mo_payoutAddress : string; mo_grossAmount : Z; mo_completedAt : Z; mo_status : string
}.

Record MerchantBatchSettlement := {
  bs_settlementId : string; bs_merchantId : string; bs_payoutAddress : string; bs_periodStart : Z; bs_periodEnd : Z;
  bs_totalGrossAmount : Z; bs_platformFees : Z; bs_netDisbursement : Z; bs_orderCount : Z; bs_orderIds : list string
}.

Record DailySettlementWindow := {
  dw_merchantId : string; dw_startUtc : Z; dw_endUtc : Z; dw_totalGrossStroops : Z; dw_totalFeeStroops : Z; dw_netPayoutStroops : Z
}.

Definition getUtcDailySettlementWindow (referenceDate : Z) : Z * Z :=
  let startUtc := Date_UTC (getUTCFullYear referenceDate) (getUTCMonth referenceDate) (getUTCDate referenceDate) in
  (startUtc, startUtc + 24 * 60 * 60 * 1000).

Definition NUL : string := String (Ascii.ascii_of_nat 0) EmptyString.
Definition group_key (o : CompletedMerchantOrder) : string := mo_merchantId o +:+ NUL +:+ mo_payoutAddress o.

(** The order is not skipped. *)
Definition in_period (periodStart periodEnd : Z) (o : CompletedMerchantOrder) : bool :=
  negb (negb (String.eqb (mo_status o) "completed") || (mo_completedAt o <? periodStart) || (periodEnd <=? mo_completedAt o)).

Definition add_order (o : CompletedMerchantOrder) (groups : jsmap (list CompletedMerchantOrder))
    : jsmap (list CompletedMerchantOrder) :=
  jset (group_key o) (default [] (jget (group_key o) groups) ++ [o]) groups.

Fixpoint group_orders (periodStart periodEnd : Z) (orders : list CompletedMerchantOrder)
    (groups : jsmap (list CompletedMerchantOrder)) : exn + jsmap (list CompletedMerchantOrder) :=
  match orders with
  | [] => inr groups
  | o :: rest =>
      if negb (in_period periodStart periodEnd o) then group_orders periodStart periodEnd rest groups
      else if mo_grossAmount o <? 0 then inl (Error ("negative gross amount for " +:+ mo_orderId o))
      else group_orders periodStart periodEnd rest (add_order o groups)
  end.

Definition total_gross (l : list CompletedMerchantOrder) : Z := foldl (λ sum o, sum + mo_grossAmount o) 0 l.

Definition settlement_of (periodStart periodEnd platformFeeBps : Z) (first : CompletedMerchantOrder)
    (group : list CompletedMerchantOrder) : MerchantBatchSettlement :=
  let totalGrossAmount := total_gross group in
  let platformFees := Z.quot (totalGrossAmount * platformFeeBps) 10000 in
  {| bs_settlementId := "settlement-" +:+ mo_merchantId first +:+ "-" +:+ String.substring 0 10 (toISOString periodStart);
     bs_merchantId := mo_merchantId first; bs_payoutAddress := mo_payoutAddress first; bs_periodStart := periodStart;
     bs_periodEnd := periodEnd; bs_totalGrossAmount := totalGrossAmount; bs_platformFees := platformFees;
     bs_netDisbursement := totalGrossAmount - platformFees; bs_orderCount := Z.of_nat (length group);
     bs_orderIds := merge_sort String.le (mo_orderId <$> group) |}.

Section collation.
(** [a.localeCompare(b) > 0] *)
Variable locale_after : string → string → bool.

Definition merchant_of (g : list CompletedMerchantOrder) : string := from_option mo_merchantId "" (head g).

(** [groups.sort((a, b) => a[0].merchantId.localeCompare(b[0].merchantId))]: stable *)
Fixpoint insert_group (g : list CompletedMerchantOrder) (l : list (list CompletedMerchantOrder)) : list (list CompletedMerchantOrder) :=
  match l with
  | [] => [g]
  | h :: l' => if locale_after (merchant_of h) (merchant_of g) then g :: l else h :: insert_group g l'
  end.
Definition sort_groups (l : list (list CompletedMerchantOrder)) : list (list CompletedMerchantOrder) := foldl (flip insert_group) [] l.

Definition calculateMerchantSettlements (orders : list CompletedMerchantOrder) (periodStart periodEnd platformFeeBps : Z)
    : exn + list MerchantBatchSettlement :=
  if periodEnd <=? periodStart then inl (Error "periodStart must be before periodEnd")
  else if (platformFeeBps <? 0) || (10000 <? platformFeeBps) then inl (Error "platformFeeBps must be between 0 and 10000")
  else
    match group_orders periodStart periodEnd orders [] with
    | inl e => inl e
    | inr groups =>
        inr (omap (λ group, (λ first, settlement_of periodStart periodEnd platformFeeBps first group) <$> head group)
               (sort_groups (jvalues groups)))
    end.

Definition toDailySettlementWindows (settlements : list MerchantBatchSettlement) : list DailySettlementWindow :=
  (λ s, {| dw_merchantId := bs_merchantId s; dw_startUtc := bs_periodStart s; dw_endUtc := bs_periodEnd s;
           dw_totalGrossStroops := bs_totalGrossAmount s; dw_totalFeeStroops := bs_platformFees s;
           dw_netPayoutStroops := bs_netDisbursement s |}) <$> settlements.

(** ** Grouping *)

Notation eligible ps pe := (List.filter (in_period ps pe)).

Lemma group_orders_spec ps pe orders groups :
  match group_orders ps pe orders groups with
  | inr g => Forall (λ o, 0 ≤ mo_grossAmount o) (eligible ps pe orders) ∧ g = foldl (flip add_order) groups (eligible ps pe orders)
  | inl _ => Exists (λ o, mo_grossAmount o < 0) (eligible ps pe orders)
  end.
Proof.
  revert groups. induction orders as [| o orders IH]; intros groups; simpl; [by split |].
  destruct (in_period ps pe o) eqn:E; simpl; [| apply IH]. destruct (Z.ltb_spec (mo_grossAmount o) 0); [by left |].
  specialize (IH (add_order o groups)). destruct (group_orders _ _ _ _); [by right |]. destruct IH as [H1 H2]. split; [by constructor | done].
Qed.

(** The orders of a key, in their order. *)
Definition with_key (k : string) (l : list CompletedMerchantOrder) : list CompletedMerchantOrder :=
  List.filter (λ o, String.eqb (group_key o) k) l.

Lemma add_orders_snoc o l : foldl (flip add_order) [] (l ++ [o]) = add_order o (foldl (flip add_order) [] l).
Proof. by rewrite foldl_app. Qed.

Lemma add_orders_get l k :
  jget k (foldl (flip add_order) [] l) = match with_key k l with [] => None | g => Some g end.
Proof.
  induction l as [| o l IH] using rev_ind; [done |]. rewrite add_orders_snoc. unfold add_order at 1.
  rewrite jget_jset. unfold with_key in *. rewrite List.filter_app. simpl.
  destruct (String.eqb_spec (group_key o) k) as [<- | Hne].
  - rewrite decide_True by done. rewrite IH. destruct (List.filter _ l) eqn:E; simpl; by rewrite ?E.
  - rewrite decide_False by done. rewrite app_nil_r. exact IH.
Qed.

Lemma add_orders_NoDup l : NoDup (jkeys (foldl (flip add_order) [] l)).
Proof.
  induction l as [| o l IH] using rev_ind; [constructor |]. rewrite add_orders_snoc. by apply NoDup_jset.
Qed.

Lemma jset_concat (k : string) (o : CompletedMerchantOrder) m :
  concat (jvalues (jset k (default [] (jget k m) ++ [o]) m)) ≡ₚ concat (jvalues m) ++ [o].
Proof.
  unfold jvalues. induction m as [| [k' v] m IH]; simpl; [done |]. destruct (String.eqb k k'); simpl.
  - rewrite <-!(assoc_L (++)). f_equiv. apply Permutation_app_comm.
  - by rewrite IH, (assoc_L (++)).
Qed.

Lemma add_orders_concat l : concat (jvalues (foldl (flip add_order) [] l)) ≡ₚ l.
Proof.
  induction l as [| o l IH] using rev_ind; [done |]. rewrite add_orders_snoc. unfold add_order at 1.
  by rewrite jset_concat, IH.
Qed.

Lemma add_orders_value l g :
  g ∈ jvalues (foldl (flip add_order) [] l) → ∃ k, g = with_key k l ∧ g ≠ [].
Proof.
  intros ((k & g') & -> & Hin)%list_elem_of_fmap. exists k. pose proof (elem_jget _ _ _ (add_orders_NoDup l) Hin) as H.
  rewrite add_orders_get in H. simpl. by destruct (with_key k l); simplify_eq.
Qed.

Lemma insert_group_Permutation g l : insert_group g l ≡ₚ g :: l.
Proof.
  induction l as [| h l IH]; simpl; [done |]. destruct (locale_after _ _); [done |]. rewrite IH. constructor.
Qed.

Lemma sort_groups_Permutation l : sort_groups l ≡ₚ l.
Proof.
  unfold sort_groups. assert (H : ∀ acc, foldl (flip insert_group) acc l ≡ₚ acc ++ l); [| by rewrite H].
  induction l as [| g l IH]; intros acc; simpl; [by rewrite app_nil_r |]. rewrite IH. unfold flip.
  rewrite insert_group_Permutation. apply Permutation_middle.
Qed.

(** ** Amounts *)

Definition sum (l : list Z) : Z := foldr Z.add 0 l.

Lemma sum_app l k : sum (l ++ k) = sum l + sum k.
Proof. induction l as [| x l IH]; simpl; [done | rewrite IH; lia]. Qed.

Lemma sum_Permutation l k : l ≡ₚ k → sum l = sum k.
Proof. induction 1; simpl; [done | lia | lia | lia]. Qed.

Lemma total_gross_sum l : total_gross l = sum (mo_grossAmount <$> l).
Proof.
  unfold total_gross. assert (H : ∀ acc, foldl (λ s o, s + mo_grossAmount o) acc l = acc + sum (mo_grossAmount <$> l)); [| apply H].
  induction l as [| o l IH]; intros acc; [simpl; lia |]. rewrite fmap_cons. cbn [foldl]. rewrite IH. unfold sum. simpl. lia.
Qed.

Lemma sum_nonneg l : Forall (λ x, 0 ≤ x) l → 0 ≤ sum l.
Proof. induction 1; simpl; lia. Qed.

Lemma fee_bounds total bps : 0 ≤ total → 0 ≤ bps ≤ 10000 → 0 ≤ Z.quot (total * bps) 10000 ≤ total.
Proof. intros Ht Hb. rewrite Z.quot_div_nonneg by nia. split; [apply Z.div_pos; nia |]. apply Z.div_le_upper_bound; nia. Qed.

(** What a settlement says about its group of orders. *)
Record settles (ps pe bps : Z) (g : list CompletedMerchantOrder) (s : MerchantBatchSettlement) : Prop := {
  se_ids : bs_orderIds s ≡ₚ mo_orderId <$> g;
  se_count : bs_orderCount s = Z.of_nat (length g);
  se_gross : bs_totalGrossAmount s = sum (mo_grossAmount <$> g);
  se_fee : bs_platformFees s = bs_totalGrossAmount s * bps / 10000;
  se_net : bs_netDisbursement s + bs_platformFees s = bs_totalGrossAmount s;
  se_bounds : 0 ≤ bs_platformFees s ∧ 0 ≤ bs_netDisbursement s;
  se_payee : ∀ o, o ∈ g → mo_merchantId o = bs_merchantId s ∧ mo_payoutAddress o = bs_payoutAddress s;
  se_period : bs_periodStart s = ps ∧ bs_periodEnd s = pe
}.

(** No merchant identifier contains the separator of the grouping key. *)
Definition separable (o : CompletedMerchantOrder) : Prop := Ascii.ascii_of_nat 0 ∉ chars (mo_merchantId o).

Lemma group_key_inj o o' :
  separable o → separable o' → group_key o = group_key o' →
  mo_merchantId o = mo_merchantId o' ∧ mo_payoutAddress o = mo_payoutAddress o'.
Proof.
  intros Ho Ho' H. by apply (split_at_sep (Ascii.ascii_of_nat 0)) in H.
Qed.

Lemma settlement_of_settles ps pe bps l k o g :
  0 ≤ bps ≤ 10000 → Forall (λ o, 0 ≤ mo_grossAmount o) l → Forall separable l → with_key k l = o :: g →
  settles ps pe bps (o :: g) (settlement_of ps pe bps o (o :: g)).
Proof.
  intros Hb Hl Hs Hg.
  assert (Hin : ∀ x, x ∈ o :: g → x ∈ l ∧ group_key x = k).
  { intros x Hx. rewrite <-Hg in Hx. apply list_elem_of_In, filter_In in Hx as [Hx E]. split; [by apply list_elem_of_In | by apply String.eqb_eq]. }
  assert (Ht : 0 ≤ total_gross (o :: g)).
  { rewrite total_gross_sum. apply sum_nonneg, Forall_fmap, Forall_forall. intros x Hx. simpl. rewrite Forall_forall in Hl. apply Hl, Hin, Hx. }
  pose proof (fee_bounds _ _ Ht Hb) as Hf. split; cbn -[total_gross merge_sort Z.quot Z.div].
  - apply merge_sort_Permutation.
  - done.
  - apply total_gross_sum.
  - rewrite Z.quot_div_nonneg; [done | nia | lia].
  - lia.
  - lia.
  - intros x Hx. destruct (Hin x Hx) as [Hxl Hxk]. destruct (Hin o (list_elem_of_here _ _)) as [Hol Hok].
    rewrite Forall_forall in Hs. apply group_key_inj; [by apply Hs .. | congruence].
  - done.
Qed.

Definition settle_group (ps pe bps : Z) (group : list CompletedMerchantOrder) : option MerchantBatchSettlement :=
  (λ first, settlement_of ps pe bps first group) <$> head group.

Lemma settle_groups ps pe bps l gs :
  0 ≤ bps ≤ 10000 → Forall (λ o, 0 ≤ mo_grossAmount o) l → Forall separable l →
  Forall (λ g, ∃ k, g = with_key k l ∧ g ≠ []) gs → Forall2 (settles ps pe bps) gs (omap (settle_group ps pe bps) gs).
Proof.
  intros Hb Hl Hs. induction 1 as [| g gs (k & Hk & Hne) _ IH]; [constructor |]. destruct g as [| o g]; [done |]. simpl.
  constructor; [| exact IH]. by eapply settlement_of_settles.
Qed.

Lemma settled_totals ps pe bps gs ss :
  Forall2 (settles ps pe bps) gs ss →
  concat (bs_orderIds <$> ss) ≡ₚ mo_orderId <$> concat gs ∧
  sum (bs_netDisbursement <$> ss) + sum (bs_platformFees <$> ss) = sum (mo_grossAmount <$> concat gs).
Proof.
  induction 1 as [| g s gs ss Hg _ [IH1 IH2]]; [done |]. destruct Hg as [Hi _ Ht _ Hn _ _ _]. split.
  - rewrite fmap_cons. cbn [concat]. by rewrite fmap_app, Hi, IH1.
  - rewrite !fmap_cons. cbn [concat]. rewrite fmap_app, sum_app, <-IH2, <-Ht. unfold sum at 1 2. simpl. fold (sum (bs_netDisbursement <$> ss)).
    fold (sum (bs_platformFees <$> ss)). lia.
Qed.

(** The orders of a period. *)
Definition completed_in (ps pe : Z) (o : CompletedMerchantOrder) : Prop := mo_status o = "completed" ∧ ps ≤ mo_completedAt o < pe.

#[global] Instance completed_in_dec ps pe o : Decision (completed_in ps pe o).
Proof. unfold completed_in. apply _. Defined.

Lemma in_period_spec ps pe orders : List.filter (in_period ps pe) orders = filter (completed_in ps pe) orders.
Proof.
  induction orders as [| o orders IH]; [done |]. rewrite filter_cons. cbn [List.filter]. rewrite IH.
  assert (H : in_period ps pe o = bool_decide (completed_in ps pe o)).
  { apply eq_true_iff_eq. rewrite bool_decide_eq_true. unfold in_period, completed_in.
    rewrite negb_true_iff, !orb_false_iff, negb_false_iff, String.eqb_eq, Z.ltb_ge, Z.leb_gt. tauto. }
  rewrite H. by destruct (decide (completed_in ps pe o)) as [D | D]; [rewrite bool_decide_eq_true_2 | rewrite bool_decide_eq_false_2].
Qed.

(** Batch settlement loses nothing: the call fails exactly when the period or the
    rate is invalid or an order of the period has a negative amount; otherwise the
    settlements partition the completed orders of the period by merchant and address,
    each with its exact total, the fee rounded down, and the rest disbursed, so that
    disbursements and fees add up to the gross amounts of the orders. *)
Theorem settlements_exact orders ps pe bps :
  Forall separable orders →
  let l := filter (completed_in ps pe) orders in
  let valid := ps < pe ∧ 0 ≤ bps ≤ 10000 ∧ Forall (λ o, 0 ≤ mo_grossAmount o) l in
  match calculateMerchantSettlements orders ps pe bps with
  | inl _ => ¬ valid
  | inr ss => valid ∧
      (∃ gs, concat gs ≡ₚ l ∧ Forall (λ g, ∃ k, g = with_key k l ∧ g ≠ []) gs ∧ Forall2 (settles ps pe bps) gs ss) ∧
      concat (bs_orderIds <$> ss) ≡ₚ mo_orderId <$> l ∧
      sum (bs_netDisbursement <$> ss) + sum (bs_platformFees <$> ss) = sum (mo_grossAmount <$> l)
  end.
Proof.
  intros Hsep. rewrite <-in_period_spec. intros l valid.
  unfold calculateMerchantSettlements. destruct (Z.leb_spec pe ps); [intros [? _]; lia |].
  destruct ((bps <? 0) || (10000 <? bps)) eqn:Hb; [intros (_ & ? & _); apply orb_true_iff in Hb as [Hb | Hb]; lia |].
  apply orb_false_iff in Hb as [Hb1 Hb2]. pose proof (group_orders_spec ps pe orders []) as Hg. fold l in Hg.
  destruct (group_orders ps pe orders []) as [e | groups].
  { intros (_ & _ & Hall). apply Exists_exists in Hg as (o & Ho & Hneg). rewrite Forall_forall in Hall. specialize (Hall o Ho). lia. }
  destruct Hg as [Hall ->]. set (gs := sort_groups (jvalues (foldl (flip add_order) [] l))).
  assert (Hl : Forall separable l).
  { apply Forall_forall. intros o Ho. rewrite Forall_forall in Hsep. apply Hsep. apply list_elem_of_In, filter_In in Ho as [Ho _]. by apply list_elem_of_In. }
  assert (Hgs : Forall (λ g, ∃ k, g = with_key k l ∧ g ≠ []) gs).
  { unfold gs. rewrite sort_groups_Permutation. apply Forall_forall. intros g Hg. by apply add_orders_value. }
  assert (HP : concat gs ≡ₚ l) by (unfold gs; by rewrite sort_groups_Permutation, add_orders_concat).
  pose proof (settle_groups ps pe bps l gs ltac:(lia) Hall Hl Hgs) as Hset. change (omap _ gs) with (omap (settle_group ps pe bps) gs).
  destruct (settled_totals _ _ _ _ _ Hset) as [Hids Hsum]. split; [split; [lia | split; [lia | done]] |].
  split; [by exists gs |]. split; [etrans; [exact Hids |]; by apply fmap_Permutation |].
  rewrite Hsum. apply sum_Permutation. by apply fmap_Permutation.
Qed.

(** The daily window holds its instant and is a UTC day long. *)
Lemma daily_window_holds t : 0 ≤ t →
  let '(s, e) := getUtcDailySettlementWindow t in s ≤ t < e ∧ e - s = msPerDay ∧ s mod msPerDay = 0.
Proof.
  intros Ht. unfold getUtcDailySettlementWindow. rewrite Date_UTC_fields by done. unfold Day, msPerDay.
  split; [pose proof (Z.div_mod t 86400000); pose proof (Z.mod_pos_bound t 86400000); lia |]. split; [lia |]. apply Z_mod_mult.
Qed.
End collation.

(** ** CSV *)

Definition DQ : ascii := Ascii.ascii_of_nat 34.
Definition COMMA : ascii := ","%char.
Definition LF : ascii := Ascii.ascii_of_nat 10.

Definition special (c : ascii) : bool := Ascii.eqb c DQ || Ascii.eqb c COMMA || Ascii.eqb c LF.

(** [value.replaceAll] of a quote by two *)
Definition double_quotes (l : list ascii) : list ascii := l ≫= λ c, if Ascii.eqb c DQ then [DQ; DQ] else [c].

Definition csvCell (value : string) : string :=
  if existsb special (chars value) then of_chars (DQ :: double_quotes (chars value) ++ [DQ]) else value.

Definition csv_header : list string :=
  ["settlementId"; "merchantId"; "payoutAddress"; "periodStart"; "periodEnd"; "totalGrossAmount"; "platformFees";
   "netDisbursement"; "orderCount"; "orderIds"].

Definition csv_fields (s : MerchantBatchSettlement) : list string :=
  [bs_settlementId s; bs_merchantId s; bs_payoutAddress s; toISOString (bs_periodStart s); toISOString (bs_periodEnd s);
   dec (bs_totalGrossAmount s); dec (bs_platformFees s); dec (bs_netDisbursement s); dec (bs_orderCount s);
   join "|" (bs_orderIds s)].

Definition settlementCsv (settlements : list MerchantBatchSettlement) : string :=
  let nl := String LF EmptyString in
  join nl (join "," csv_header :: ((λ s, join "," (csvCell <$> csv_fields s)) <$> settlements)) +:+ nl.

(** A reader of CSV texts: cells are separated by commas and lines by line feeds; a
    cell may be quoted, and a doubled quote inside stands for a quote. *)
Inductive csv_mode := CellStart | Plain | Quoted | AfterQuote.

Fixpoint read_csv (m : csv_mode) (cell : list ascii) (row : list string) (l : list ascii) : list (list string) :=
  let done := row ++ [of_chars cell] in
  match l with
  | [] => match m, row with CellStart, [] => [] | _, _ => [done] end
  | c :: l' =>
      match m with
      | Quoted => if Ascii.eqb c DQ then read_csv AfterQuote cell row l' else read_csv Quoted (cell ++ [c]) row l'
      | _ =>
          if Ascii.eqb c COMMA then read_csv CellStart [] done l'
          else if Ascii.eqb c LF then done :: read_csv CellStart [] [] l'
          else
            match m with
            | CellStart => if Ascii.eqb c DQ then read_csv Quoted [] row l' else read_csv Plain [c] row l'
            | AfterQuote => if Ascii.eqb c DQ then read_csv Quoted (cell ++ [DQ]) row l' else read_csv AfterQuote (cell ++ [c]) row l'
            | _ => read_csv Plain (cell ++ [c]) row l'
            end
      end
  end.

(** The rest of the text after a cell: the next cell of the line, or the next line. *)
Definition after_cell (sep : ascii) (v : string) (row : list string) (rest : list ascii) : list (list string) :=
  if Ascii.eqb sep COMMA then read_csv CellStart [] (row ++ [v]) rest else (row ++ [v]) :: read_csv CellStart [] [] rest.

Lemma read_plain l cell row sep rest :
  existsb special l = false → sep = COMMA ∨ sep = LF →
  read_csv Plain cell row (l ++ sep :: rest) = after_cell sep (of_chars (cell ++ l)) row rest.
Proof.
  revert cell. induction l as [| c l IH]; intros cell Hl Hsep; simpl in *.
  - rewrite app_nil_r. by destruct Hsep as [-> | ->].
  - apply orb_false_iff in Hl as [Hc Hl]. unfold special in Hc. apply orb_false_iff in Hc as [Hc H3]. apply orb_false_iff in Hc as [H1 H2].
    rewrite H2, H3, IH, <-(assoc_L (++)) by done. done.
Qed.

Lemma read_quoted l cell row sep rest :
  sep = COMMA ∨ sep = LF →
  read_csv Quoted cell row (double_quotes l ++ DQ :: sep :: rest) = after_cell sep (of_chars (cell ++ l)) row rest.
Proof.
  intros Hsep. revert cell. induction l as [| c l IH]; intros cell; simpl.
  - rewrite app_nil_r. by destruct Hsep as [-> | ->].
  - destruct (Ascii.eqb_spec c DQ) as [-> | Hc]; simpl.
    + rewrite IH, <-(assoc_L (++)). done.
    + rewrite (proj2 (Ascii.eqb_neq _ _) Hc), IH, <-(assoc_L (++)). done.
Qed.

Lemma read_cell v row sep rest :
  sep = COMMA ∨ sep = LF → read_csv CellStart [] row (chars (csvCell v) ++ sep :: rest) = after_cell sep v row rest.
Proof.
  intros Hsep. unfold csvCell. destruct (existsb special (chars v)) eqn:E.
  - rewrite chars_of_chars, <-app_comm_cons, <-(assoc_L (++)). simpl. rewrite read_quoted by done. by rewrite app_nil_l, of_chars_chars.
  - rewrite <-(of_chars_chars v) at 2. destruct (chars v) as [| c l].
    + by destruct Hsep as [-> | ->].
    + simpl in E. apply orb_false_iff in E as [Hc Hl]. pose proof Hc as Hc'. unfold special in Hc. apply orb_false_iff in Hc as [Hc H3].
      apply orb_false_iff in Hc as [H1 H2]. simpl. rewrite H1, H2, H3. by apply read_plain.
Qed.

Lemma read_line cells v row rest :
  read_csv CellStart [] row (chars (join "," (csvCell <$> cells ++ [v])) ++ LF :: rest) = (row ++ cells ++ [v]) :: read_csv CellStart [] [] rest.
Proof.
  revert row. induction cells as [| c cells IH]; intros row.
  - simpl. rewrite read_cell by (by right). done.
  - rewrite <-app_comm_cons, fmap_cons.
    assert (join "," (csvCell c :: (csvCell <$> cells ++ [v])) = csvCell c +:+ "," +:+ join "," (csvCell <$> cells ++ [v])) as ->.
    { by destruct (csvCell <$> cells ++ [v]) eqn:E; [destruct cells |]. }
    rewrite !chars_app, <-!(assoc_L (++)). change (chars ",") with [COMMA]. simpl. rewrite read_cell by (by left).
    unfold after_cell. simpl. rewrite IH. by rewrite <-(assoc_L (++)).
Qed.

Lemma read_lines rows :
  Forall (λ r : list string, r ≠ []) rows →
  read_csv CellStart [] [] (concat ((λ r, chars (join "," (csvCell <$> r)) ++ [LF]) <$> rows)) = rows.
Proof.
  induction 1 as [| r rows Hr _ IH]; [done |]. rewrite fmap_cons. cbn [concat].
  destruct (exists_last Hr) as (cells & v & ->). rewrite <-(assoc_L (++)). simpl. rewrite read_line. by rewrite IH.
Qed.

Lemma join_lines l (lines : list string) :
  chars (join (String LF EmptyString) (l :: lines) +:+ String LF EmptyString) = concat ((λ x, chars x ++ [LF]) <$> l :: lines).
Proof.
  revert l. induction lines as [| l' lines IH]; intros l; [simpl; by rewrite chars_app, app_nil_r |].
  rewrite fmap_cons. cbn [concat]. rewrite <-IH.
  change (join (String LF EmptyString) (l :: l' :: lines)) with (l +:+ String LF EmptyString +:+ join (String LF EmptyString) (l' :: lines)).
  rewrite !chars_app, <-!(assoc_L (++)). done.
Qed.

(** The CSV text of the settlements is read back: whatever the identifiers and
    addresses contain (commas, quotes, line feeds), a CSV reader recovers the header
    and exactly the fields of every settlement. *)
Theorem csv_roundtrip settlements :
  read_csv CellStart [] [] (chars (settlementCsv settlements)) = csv_header :: (csv_fields <$> settlements).
Proof.
  unfold settlementCsv. rewrite join_lines, fmap_cons.
  rewrite <-(read_lines (csv_header :: (csv_fields <$> settlements))).
  - rewrite fmap_cons, <-!list_fmap_compose. done.
  - constructor; [done |]. apply Forall_fmap, Forall_true. done.
Qed.

(** ** Concrete settlements *)

Definition sale (id merchant payout : string) (gross at_ : Z) : CompletedMerchantOrder := {|
  mo_orderId := id; mo_merchantId := merchant; mo_payoutAddress := payout; mo_grossAmount := gross; mo_completedAt := at_;
  mo_status := "completed" |}.

Definition sales : list CompletedMerchantOrder :=
  [sale "o3" "m2" "GA" 999 10; sale "o1" "m1" "GB" 1000 20; sale "o2" "m2" "GA" 1 30; sale "o4" "m2" "GC" 70 40; sale "o5" "m1" "GB" 5 86400000].

Definition code_after (a b : string) : bool := String.ltb b a.

Lemma settlements_exact_witness :
  Forall separable sales ∧
  ∃ ss, calculateMerchantSettlements code_after sales 0 86400000 250 = inr ss ∧
    concat (bs_orderIds <$> ss) ≡ₚ ["o3"; "o1"; "o2"; "o4"] ∧ sum (bs_netDisbursement <$> ss) + sum (bs_platformFees <$> ss) = 2070.
Proof.
  assert (H : Forall separable sales) by (apply (bool_decide_unpack _); by vm_compute). split; [exact H |].
  pose proof (settlements_exact code_after sales 0 86400000 250 H) as Hx.
  destruct (calculateMerchantSettlements code_after sales 0 86400000 250) as [e | ss] eqn:E; [by vm_compute in E |].
  exists ss. destruct Hx as (_ & _ & Hids & Hsum). split; [done |]. split; [exact Hids | exact Hsum].
Defined.

(** A merchant with two payout addresses gets two settlements with one identifier. *)
Theorem settlement_ids_collide :
  match calculateMerchantSettlements code_after sales 0 86400000 250 with
  | inr ss => ((λ s, (bs_settlementId s, bs_payoutAddress s)) <$> ss) =
      [("settlement-m1-1970-01-01", "GB"); ("settlement-m2-1970-01-01", "GA"); ("settlement-m2-1970-01-01", "GC")]
  | inl _ => False
  end.
Proof. by vm_compute. Qed.
