(* ===== verification/Payouts.v ===== *)
(** * Merchant payouts (apps/backend/payments/src/payouts/)

    service.ts, orchestrator.ts, store.ts, trustlines.ts and types.ts over the payment
    records and the escrow service.  Horizon is a parameter, and so is the double
    [Math.floor(parseFloat(rate) * 1000000)] of a configured commission rate ([None]
    when it is not finite).  The functions a caller may inject are arbitrary: the release
    is any computation on the payment state, the trustline check and the notification
    any answers. *)
From S2P Require Import Prelude JsLib PaymentRecords ChainClient EscrowCoordinator EscrowService Settlement.
Local Open Scope Z_scope.

(** ** types.ts *)

(** The rate in millionths, rounded down; [None] when it is not finite. *)
Record PlatformCommissionConfig := { rate_millionths : option Z; minimumStroops : Z }.

Record PayoutCalculation := {
  pc_escrowId : string; pc_grossAmountStroops : Z; pc_platformFeeStroops : Z; pc_netMerchantPayoutStroops : Z;
  pc_merchantAddress : string
}.

Record TrustlineCheckResult := {
  tl_account : string; tl_assetCode : string; tl_assetIssuer : string; trustlineEstablished : bool; authorized : bool;
  tl_currentBalance : string; tl_creditLimit : string
}.

Record TrustlineSetupInstructions := {
  ti_account : string; ti_assetCode : string; ti_assetIssuer : string; ti_limit : string; ti_recommendedAction : string;
  ti_instructions : string; ti_steps : list string; ti_stellarLaboratoryUrl : string
}.

Record InitiatePayoutRequest := {
  ip_escrowId : string; ip_merchantAddress : string; ip_sourceAddress : string; ip_assetCode : option string;
  ip_assetIssuer : option string
}.

Inductive PayoutStatus := po_pending | po_submitted | po_confirmed | po_failed | po_paused.

#[export] Instance PayoutStatus_eq_dec : EqDecision PayoutStatus.
Proof. solve_decision. Defined.

Record InitiatePayoutResponse := {
  pp_payoutId : string; pp_escrowId : string; pp_grossAmountStroops : Z; pp_platformFeeStroops : Z;
  pp_netMerchantPayoutStroops : Z; pp_transactionHash : string; pp_ledger : Z; pp_status : PayoutStatus; pp_paidAt : Z;
  pp_pausedReason : option string; pp_trustlineCheck : option TrustlineCheckResult;
  pp_instructions : option TrustlineSetupInstructions
}.

Record PayoutRecord := {
  py_id : string; py_payoutId : string; py_escrowId : string; py_orderId : string; py_merchantAddress : string;
  py_grossAmountStroops : string; py_platformFeeStroops : string; py_netMerchantPayoutStroops : string;
  py_transactionHash : option string; py_ledger : option Z; py_status : PayoutStatus; py_pausedReason : option string;
  py_createdAt : Z; py_updatedAt : Z
}.

(** What a merchant is told; the orchestrator adds the escrow and the amount. *)
Record MerchantNotice := {
  mn_merchantAddress : string; mn_assetCode : string; mn_assetIssuer : string; mn_payout : option (string * string);
  mn_instructions : TrustlineSetupInstructions; mn_checkResult : TrustlineCheckResult
}.

(** ** State and environment *)

Record pyworld := PyWorld {
  pw_pay : sworld; pw_store : jsmap PayoutRecord; pw_uuids : nat; pw_notices : list MerchantNotice
}.

(** A balance line of an account on Horizon. *)
Record AccountBalance := {
  ab_asset_code : option string; ab_asset_issuer : option string; ab_is_authorized : option bool; ab_balance : option string;
  ab_limit : option string
}.

Class PayoutEnv := {
  py_settlement :: SettlementEnv;
  loadAccount : string → exn + list AccountBalance;
  PLATFORM_COMMISSION_RATE : option string;
  rate_floor : string → option Z;
  PLATFORM_MINIMUM_FEE_STROOPS : option string;
  (** [randomUUID()], by the number of identifiers made before *)
  payout_uuid : nat → string
}.

(** [PayoutServiceDeps] and [PayoutOrchestratorDeps] *)
Record PayoutDeps := {
  checkTrustlineFn : option (string → string → string → exn + TrustlineCheckResult);
  notifyMerchantFn : option (MerchantNotice → option exn);
  escrowReleaseFn : option (string → string → M sworld EscrowOperationResult)
}.
Definition no_deps : PayoutDeps := {| checkTrustlineFn := None; notifyMerchantFn := None; escrowReleaseFn := None |}.

Definition on_pay {A} (c : M sworld A) : M pyworld A :=
  zoom pw_pay (λ s w, PyWorld s (pw_store w) (pw_uuids w) (pw_notices w)) c.
Definition pw_now (w : pyworld) : Z := sw_now (pw_pay w).

Section payouts.
Context `{PE : PayoutEnv}.

(** ** service.ts: the fee *)

(** [0.01 * 1000000] *)
Definition DEFAULT_COMMISSION_RATE : Z := 10000.
Definition MINIMUM_FEE_STROOPS : Z := 1000000.

Definition getCommissionConfig : M pyworld PlatformCommissionConfig :=
  let rate := if truthy PLATFORM_COMMISSION_RATE then rate_floor (default "" PLATFORM_COMMISSION_RATE)
              else Some DEFAULT_COMMISSION_RATE in
  minimum ← (if truthy PLATFORM_MINIMUM_FEE_STROOPS then BigInt_throw (default "" PLATFORM_MINIMUM_FEE_STROOPS)
             else mret MINIMUM_FEE_STROOPS);
  mret {| rate_millionths := rate; minimumStroops := minimum |}.

Definition payout_amounts (rate minimum grossAmountStroops : Z) (merchantAddress escrowId : string)
    : PayoutCalculation :=
  let rawFee := Z.quot (grossAmountStroops * rate) 1000000 in
  let platformFeeStroops := if rawFee <? minimum then minimum else rawFee in
  {| pc_escrowId := escrowId; pc_grossAmountStroops := grossAmountStroops; pc_platformFeeStroops := platformFeeStroops;
     pc_netMerchantPayoutStroops := grossAmountStroops - platformFeeStroops; pc_merchantAddress := merchantAddress |}.

Definition calculatePayout (grossAmountStroops : Z) (merchantAddress escrowId : string) : M pyworld PayoutCalculation :=
  config ← getCommissionConfig;
  rate ← some_or_throw (rate_millionths config) (Exn "RangeError" "The number cannot be converted to a BigInt");
  mret (payout_amounts rate (minimumStroops config) grossAmountStroops merchantAddress escrowId).

(** ** store.ts *)

Definition createPayoutRecord (c : PayoutCalculation) (transactionHash : option string) (ledger : option Z)
    (status : PayoutStatus) (pausedReason : option string) : M pyworld PayoutRecord :=
  n ← gets pw_uuids;
  now ← gets pw_now;
  let payoutId := payout_uuid n in
  let record := {|
    py_id := payoutId; py_payoutId := payoutId; py_escrowId := pc_escrowId c; py_orderId := pc_escrowId c;
    py_merchantAddress := pc_merchantAddress c; py_grossAmountStroops := dec (pc_grossAmountStroops c);
    py_platformFeeStroops := dec (pc_platformFeeStroops c); py_netMerchantPayoutStroops := dec (pc_netMerchantPayoutStroops c);
    py_transactionHash := transactionHash; py_ledger := ledger; py_status := status; py_pausedReason := pausedReason;
    py_createdAt := now; py_updatedAt := now |} in
  modify (λ w, PyWorld (pw_pay w) (jset payoutId record (pw_store w)) (S (pw_uuids w)) (pw_notices w));;
  mret record.

Definition getPayoutRecordById (payoutId : string) : M pyworld (option PayoutRecord) := gets (λ w, jget payoutId (pw_store w)).

Definition getPayoutRecordByTransactionHash (h : string) : M pyworld (option PayoutRecord) :=
  gets (λ w, List.find (λ r, bool_decide (py_transactionHash r = Some h)) (jvalues (pw_store w))).

Definition updatePayoutRecordStatus (payoutId : string) (status : PayoutStatus) (ledger : option Z) : M pyworld (option PayoutRecord) :=
  found ← gets (λ w, jget payoutId (pw_store w));
  match found with
  | None => mret None
  | Some r =>
      now ← gets pw_now;
      let record := {|
        py_id := py_id r; py_payoutId := py_payoutId r; py_escrowId := py_escrowId r; py_orderId := py_orderId r;
        py_merchantAddress := py_merchantAddress r; py_grossAmountStroops := py_grossAmountStroops r;
        py_platformFeeStroops := py_platformFeeStroops r; py_netMerchantPayoutStroops := py_netMerchantPayoutStroops r;
        py_transactionHash := py_transactionHash r; py_ledger := match ledger with Some l => Some l | None => py_ledger r end;
        py_status := status; py_pausedReason := py_pausedReason r; py_createdAt := py_createdAt r; py_updatedAt := now |} in
      modify (λ w, PyWorld (pw_pay w) (jset payoutId record (pw_store w)) (pw_uuids w) (pw_notices w));;
      mret (Some record)
  end.

(** [BigInt(record.x)]: the store writes decimal numbers *)
Definition toPayoutResponse (r : PayoutRecord) (trustline : option (string * TrustlineCheckResult * TrustlineSetupInstructions))
    : M pyworld InitiatePayoutResponse :=
  gross ← BigInt_throw (py_grossAmountStroops r);
  fee ← BigInt_throw (py_platformFeeStroops r);
  net ← BigInt_throw (py_netMerchantPayoutStroops r);
  mret {| pp_payoutId := py_payoutId r; pp_escrowId := py_escrowId r; pp_grossAmountStroops := gross;
          pp_platformFeeStroops := fee; pp_netMerchantPayoutStroops := net;
          pp_transactionHash := default "" (py_transactionHash r); pp_ledger := default 0 (py_ledger r);
          pp_status := match trustline with Some _ => po_paused | None => py_status r end; pp_paidAt := py_createdAt r;
          pp_pausedReason := match trustline with
                             | Some (reason, _, _) => Some reason
                             | None => if truthy (py_pausedReason r) then py_pausedReason r else None
                             end;
          pp_trustlineCheck := (λ t, t.1.2) <$> trustline; pp_instructions := snd <$> trustline |}.

(** ** trustlines.ts *)

Definition no_trustline (account assetCode assetIssuer : string) : TrustlineCheckResult := {|
  tl_account := account; tl_assetCode := assetCode; tl_assetIssuer := assetIssuer; trustlineEstablished := false;
  authorized := false; tl_currentBalance := "0"; tl_creditLimit := "0" |}.

Definition is_trustline (assetCode assetIssuer : string) (b : AccountBalance) : bool :=
  truthy (ab_asset_code b) && String.eqb (toUpperCase (default "" (ab_asset_code b))) (toUpperCase assetCode) &&
  bool_decide (ab_asset_issuer b = Some assetIssuer).

Definition checkTrustline (account assetCode assetIssuer : string) : exn + TrustlineCheckResult :=
  if String.eqb account "" then inl (Error "Destination account address is required for trustline check")
  else if String.eqb assetCode "" then inl (Error "Asset code is required for trustline check")
  else if String.eqb (toUpperCase assetCode) "XLM" || String.eqb (toLowerCase assetCode) "native" then
    inr {| tl_account := account; tl_assetCode := "XLM"; tl_assetIssuer := ""; trustlineEstablished := true;
           authorized := true; tl_currentBalance := "0"; tl_creditLimit := "unlimited" |}
  else if String.eqb assetIssuer "" then inl (Error ("Asset issuer is required for non-native asset " +:+ assetCode))
  else
    match loadAccount account with
    | inl _ => inr (no_trustline account assetCode assetIssuer)
    | inr balances =>
        match List.find (is_trustline assetCode assetIssuer) balances with
        | None => inr (no_trustline account assetCode assetIssuer)
        | Some b =>
            inr {| tl_account := account; tl_assetCode := assetCode; tl_assetIssuer := assetIssuer; trustlineEstablished := true;
                   authorized := negb (bool_decide (ab_is_authorized b = Some false));
                   tl_currentBalance := or_else (ab_balance b) "0"; tl_creditLimit := or_else (ab_limit b) "0" |}
        end
    end.

Definition isTrustlineValidForPayout (r : TrustlineCheckResult) : bool := trustlineEstablished r && authorized r.

Definition generateTrustlineSetupInstructions (account assetCode assetIssuer : string) : TrustlineSetupInstructions :=
  let limit := "9223372036854775807" in
  let labUrl := "https://laboratory.stellar.org/#txbuilder?network=testnet" in
  {| ti_account := account; ti_assetCode := assetCode; ti_assetIssuer := assetIssuer; ti_limit := limit;
     ti_recommendedAction := "ESTABLISH_TRUSTLINE";
     ti_instructions := "Merchant destination address " +:+ account +:+ " must establish a ChangeTrust trustline for " +:+ assetCode +:+
       " (issuer: " +:+ assetIssuer +:+ ") before payout funds can be disbursed.";
     ti_steps := [
       "1. Open your Stellar wallet (Freighter, Albedo, LOBSTR) or the Stellar Laboratory at " +:+ labUrl +:+ ".";
       "2. Navigate to Add Asset / Change Trust.";
       "3. Enter Asset Code: " +:+ assetCode +:+ " and Issuer Account: " +:+ assetIssuer +:+ ".";
       "4. Set Trust Limit to " +:+ limit +:+ " (or leave blank for maximum limit).";
       "5. Sign and submit the ChangeTrust transaction. Once established, payout will resume immediately." ];
     ti_stellarLaboratoryUrl := labUrl |}.

(** ** The payout of an escrow *)

Definition status_name (s : PaymentRecordStatus) : string :=
  match s with
  | pending => "pending" | funded => "funded" | released => "released" | refunded => "refunded" | disputed => "disputed"
  | failed => "failed"
  end.

Definition notify_merchant (deps : PayoutDeps) (n : MerchantNotice) : M pyworld () :=
  match notifyMerchantFn deps with
  | None => mret ()
  | Some f =>
      modify (λ w, PyWorld (pw_pay w) (pw_store w) (pw_uuids w) (pw_notices w ++ [n]));;
      match f n with Some e => throw e | None => mret () end
  end.

(** The record of a funded escrow, or an error. *)
Definition funded_record (escrowId : string) : M pyworld PaymentRecord :=
  found ← on_pay (stmt (findPaymentRecordByEscrowId escrowId));
  record ← some_or_throw found (Error ("Escrow not found: " +:+ escrowId));
  throw_if (negb (bool_decide (pr_status record = funded)))
    (Error ("Escrow " +:+ escrowId +:+ " is not in funded status (current: " +:+ status_name (pr_status record) +:+ ")"));;
  mret record.

(** The pre-flight check: [Some] check result when the payout must be paused. *)
Definition preflight (deps : PayoutDeps) (merchantAddress : string) (assetCode assetIssuer : option string)
    : M pyworld (option (string * string * TrustlineCheckResult)) :=
  if truthy assetCode && negb (String.eqb (toUpperCase (default "" assetCode)) "XLM") then
    let code := default "" assetCode in
    throw_if (negb (truthy assetIssuer)) (Error ("Asset issuer must be specified for non-native asset payout (" +:+ code +:+ ")"));;
    let issuer := default "" assetIssuer in
    checkResult ← answer (default checkTrustline (checkTrustlineFn deps) merchantAddress code issuer);
    mret (if isTrustlineValidForPayout checkResult then None else Some (code, issuer, checkResult))
  else mret None.

(** A paused payout is recorded and the merchant told what to do. *)
Definition pause_payout (deps : PayoutDeps) (calculation : PayoutCalculation) (notice_payout : option (string * string))
    (code issuer : string) (checkResult : TrustlineCheckResult) : M pyworld InitiatePayoutResponse :=
  let merchantAddress := pc_merchantAddress calculation in
  let pauseReason := if negb (trustlineEstablished checkResult) then "MISSING_TRUSTLINE" else "UNAUTHORIZED_TRUSTLINE" in
  let instructions := generateTrustlineSetupInstructions merchantAddress code issuer in
  pausedRecord ← createPayoutRecord calculation None None po_paused (Some pauseReason);
  notify_merchant deps {|
    mn_merchantAddress := merchantAddress; mn_assetCode := code; mn_assetIssuer := issuer; mn_payout := notice_payout;
    mn_instructions := instructions; mn_checkResult := checkResult |};;
  toPayoutResponse pausedRecord (Some (pauseReason, checkResult, instructions)).

(** The release, and the record of the payout. *)
Definition release_payout (deps : PayoutDeps) (calculation : PayoutCalculation) (sourceAddress escrowId : string)
    : M pyworld InitiatePayoutResponse :=
  result ← on_pay (match escrowReleaseFn deps with
                   | Some f => f sourceAddress escrowId
                   | None => on_escrows (release sourceAddress escrowId)
                   end);
  throw_if (negb (eo_success result)) (Error ("Escrow release failed: " +:+ eo_txHash result));;
  payoutRecord ← createPayoutRecord calculation (Some (eo_txHash result)) (Some (eo_ledger result)) po_confirmed None;
  toPayoutResponse payoutRecord None.

Definition initiatePayout (request : InitiatePayoutRequest) (deps : PayoutDeps) : M pyworld InitiatePayoutResponse :=
  paymentRecord ← funded_record (ip_escrowId request);
  grossAmount ← BigInt_throw (pr_amountStroops paymentRecord);
  calculation ← calculatePayout grossAmount (ip_merchantAddress request) (ip_escrowId request);
  pause ← preflight deps (ip_merchantAddress request) (ip_assetCode request) (ip_assetIssuer request);
  match pause with
  | Some (code, issuer, checkResult) => pause_payout deps calculation None code issuer checkResult
  | None => release_payout deps calculation (ip_sourceAddress request) (ip_escrowId request)
  end.

(** ** orchestrator.ts *)

Definition orchestratePayout (deps : PayoutDeps) (request : InitiatePayoutRequest) : M pyworld InitiatePayoutResponse :=
  paymentRecord ← funded_record (ip_escrowId request);
  grossAmount ← BigInt_throw (pr_amountStroops paymentRecord);
  calculation ← calculatePayout grossAmount (ip_merchantAddress request) (ip_escrowId request);
  pause ← preflight deps (ip_merchantAddress request) (ip_assetCode request) (ip_assetIssuer request);
  match pause with
  | Some (code, issuer, checkResult) =>
      pause_payout deps calculation (Some (ip_escrowId request, dec (pc_netMerchantPayoutStroops calculation))) code issuer checkResult
  | None => release_payout deps calculation (ip_sourceAddress request) (ip_escrowId request)
  end.

Record BatchPayoutOrchestrationResult := {
  br_successful : list InitiatePayoutResponse; br_paused : list InitiatePayoutResponse; br_failed : list (InitiatePayoutRequest * string)
}.

(** A result goes to the list it belongs to. *)
Definition batch_add (acc : BatchPayoutOrchestrationResult) (req : InitiatePayoutRequest) (res : exn + InitiatePayoutResponse)
    : BatchPayoutOrchestrationResult :=
  match res with
  | inr r =>
      if bool_decide (pp_status r = po_paused)
      then {| br_successful := br_successful acc; br_paused := br_paused acc ++ [r]; br_failed := br_failed acc |}
      else {| br_successful := br_successful acc ++ [r]; br_paused := br_paused acc; br_failed := br_failed acc |}
  | inl err =>
      {| br_successful := br_successful acc; br_paused := br_paused acc; br_failed := br_failed acc ++ [(req, exn_message err)] |}
  end.

Fixpoint batch_payouts (deps : PayoutDeps) (requests : list InitiatePayoutRequest) (acc : BatchPayoutOrchestrationResult)
    : M pyworld BatchPayoutOrchestrationResult :=
  match requests with
  | [] => mret acc
  | req :: rest =>
      res ← outcome (orchestratePayout deps req);
      batch_payouts deps rest (batch_add acc req res)
  end.

Definition orchestrateBatchPayouts (deps : PayoutDeps) (requests : list InitiatePayoutRequest)
    : M pyworld BatchPayoutOrchestrationResult :=
  batch_payouts deps requests {| br_successful := []; br_paused := []; br_failed := [] |}.
End payouts.
