(* ===== verification/PayoutsCorrect.v ===== *)
(** * What merchant payouts guarantee

    The store of payouts agrees with the chain over every history of payouts, a batch
    accounts for all its requests, and runs that contradict the intent. *)
From S2P Require Import Prelude JsLib PaymentRecords ChainClient EscrowCoordinator EscrowService EscrowServiceCorrect.
From S2P Require Import Settlement SettlementCorrect Payouts.
Local Open Scope Z_scope.

(** ** Counting confirmed payouts *)

Definition confirms (n : Z) (r : PayoutRecord) : bool :=
  bool_decide (py_status r = po_confirmed) && bool_decide (Number_integer (py_escrowId r) = Some n).

Definition confirmed (n : Z) (store : jsmap PayoutRecord) : nat := length (List.filter (confirms n) (jvalues store)).

Lemma jset_fresh {V} k (v : V) m : jget k m = None → jset k v m = m ++ [(k, v)].
Proof.
  induction m as [| [k' v'] m IH]; simpl; [done |]. destruct (String.eqb k k'); [done |]. intros H. by rewrite IH.
Qed.

Lemma confirmed_add n k r m :
  jget k m = None → confirmed n (jset k r m) = (confirmed n m + if confirms n r then 1 else 0)%nat.
Proof.
  intros H. rewrite jset_fresh by done. unfold confirmed, jvalues. rewrite fmap_app, List.filter_app, length_app. simpl.
  by destruct (confirms n r).
Qed.

(** The amounts of a record add up. *)
Definition amounts_ok (r : PayoutRecord) : Prop :=
  ∃ gross fee, py_grossAmountStroops r = dec gross ∧ py_platformFeeStroops r = dec fee ∧
    py_netMerchantPayoutStroops r = dec (gross - fee).

Section correct.
Context `{PE : PayoutEnv}.
Hypothesis uuids_distinct : Inj (=) (=) payout_uuid.
Implicit Types w : pyworld.

Definition calls_of w : list (ContractCall * http_reply) := es_calls (sw_escrows (pw_pay w)).

(** The store against the log of contract calls. *)
Record payout_ledger (n : Z) w : Prop := {
  pl_confirmed : confirmed n (pw_store w) = payouts n (calls_of w);
  pl_fresh : ∀ k, k ∈ jkeys (pw_store w) → ∃ i, (i < pw_uuids w)%nat ∧ k = payout_uuid i;
  pl_amounts : Forall amounts_ok (jvalues (pw_store w))
}.

(** ** Single steps *)

Lemma fresh_key n w : payout_ledger n w → jget (payout_uuid (pw_uuids w)) (pw_store w) = None.
Proof.
  intros [_ Hf _]. apply jget_None_keys. intros (i & Hi & E)%Hf. apply uuids_distinct in E. lia.
Qed.

Definition calculation_ok (c : PayoutCalculation) : Prop :=
  pc_netMerchantPayoutStroops c = pc_grossAmountStroops c - pc_platformFeeStroops c.

(** Recording a payout after [p] more payouts of [n] on the chain. *)
Lemma create_run n w0 w c h l s reason :
  payout_ledger n w0 → calculation_ok c → pw_store w = pw_store w0 → pw_uuids w = pw_uuids w0 →
  (payouts n (calls_of w) = payouts n (calls_of w0) +
     if bool_decide (s = po_confirmed) && bool_decide (Number_integer (pc_escrowId c) = Some n) then 1 else 0)%nat →
  ∃ r w', createPayoutRecord c h l s reason w = (inr r, w') ∧ payout_ledger n w' ∧ amounts_ok r ∧ pw_notices w' = pw_notices w.
Proof.
  intros Hw Hc Hst Hu Hp. pose proof (fresh_key n w0 Hw) as Hfr. destruct Hw as [Hcon Hf Ha].
  unfold createPayoutRecord. do 3 (erewrite bind_run by done). eexists _, _. split; [done |].
  rewrite Hst, Hu. set (r := Build_PayoutRecord _ _ _ _ _ _ _ _ _ _ _ _ _ _).
  assert (Hr : amounts_ok r) by (eexists _, _; split; [done |]; split; [done |]; simpl; by rewrite Hc).
  split; [| done]. split; simpl.
  - rewrite confirmed_add by done. unfold calls_of in *. simpl. rewrite Hp, Hcon. done.
  - intros k. rewrite jkeys_jset, Hfr. intros [Hk | ->%list_elem_of_singleton]%elem_of_app.
    + destruct (Hf k Hk) as (i & Hi & ->). exists i. split; [lia | done].
    + exists (pw_uuids w0). split; [lia | done].
  - rewrite jset_fresh by done. unfold jvalues. rewrite fmap_app. apply Forall_app. split; [done |]. by constructor.
Qed.

Lemma response_run r t w : amounts_ok r → ∃ x, toPayoutResponse r t w = (inr x, w).
Proof.
  intros (g & f & Hg & Hf & Hn). unfold toPayoutResponse, BigInt_throw. rewrite Hg, Hf, Hn, !BigInt_dec.
  do 3 (erewrite bind_run by done). by eexists.
Qed.

(** Steps that only read, or send a statement. *)
Definition same_payouts w w' : Prop := pw_store w' = pw_store w ∧ pw_uuids w' = pw_uuids w ∧ calls_of w' = calls_of w.

Lemma same_payouts_ledger n w w' : same_payouts w w' → payout_ledger n w → payout_ledger n w'.
Proof. intros (Hs & Hu & Hc) [H1 H2 H3]. split; by rewrite ?Hs, ?Hu, ?Hc. Qed.

#[local] Instance same_payouts_preorder : PreOrder same_payouts.
Proof.
  split; [by intros w |]. intros a b c (H1 & H2 & H3) (H4 & H5 & H6). split_and!; congruence.
Qed.

Lemma stmt_find_same e : evolves same_payouts (on_pay (stmt (findPaymentRecordByEscrowId e))).
Proof.
  intros w. unfold on_pay, zoom, stmt. do 2 (erewrite bind_run by done). by destruct (stmt_error _).
Qed.
#[local] Hint Resolve stmt_find_same : evolve.

Lemma funded_record_same e : evolves same_payouts (funded_record e).
Proof. unfold funded_record. evolve. Qed.

Lemma preflight_same d m c i : evolves same_payouts (preflight d m c i).
Proof. unfold preflight. evolve. Qed.

Lemma notify_same d x : evolves same_payouts (notify_merchant d x).
Proof. unfold notify_merchant. evolve. by apply evolves_modify. Qed.

Lemma calculate_run g m e w c w' : calculatePayout g m e w = (inr c, w') → calculation_ok c ∧ pc_escrowId c = e ∧ w' = w.
Proof.
  unfold calculatePayout, getCommissionConfig. intros H. apply bind_inr in H as (config & w1 & H1 & H).
  apply bind_inr in H1 as (m' & w2 & H2 & H1). injection H1 as <- <-.
  assert (w2 = w) as ->. { destruct (truthy _); [by apply some_or_throw_run in H2 as [_ ->] | by injection H2]. }
  apply bind_inr in H as (rate & w3 & H3 & H). apply some_or_throw_run in H3 as [_ ->]. by injection H as <- <-.
Qed.

Lemma calculate_same g m e : evolves same_payouts (calculatePayout g m e).
Proof. unfold calculatePayout, getCommissionConfig, BigInt_throw. evolve. Qed.
#[local] Hint Resolve funded_record_same preflight_same notify_same calculate_same : evolve.

(** ** The two endings of a payout *)

Lemma pause_ledger n d c x code issuer t w :
  calculation_ok c → payout_ledger n w → payout_ledger n (pause_payout d c x code issuer t w).2.
Proof.
  intros Hc Hw. unfold pause_payout.
  destruct (create_run n w w c None None po_paused
    (Some (if negb (trustlineEstablished t) then "MISSING_TRUSTLINE" else "UNAUTHORIZED_TRUSTLINE")) Hw Hc eq_refl eq_refl)
    as (r & w1 & H1 & Hl & Hr & _); [simpl; lia |].
  erewrite bind_run by exact H1. set (note := Build_MerchantNotice _ _ _ _ _ _).
  pose proof (notify_same d note w1) as Hn. unfold mbind, M_bind. destruct (notify_merchant d note w1) as [[e | u] w2]; simpl in *.
  - by apply (same_payouts_ledger n w1).
  - edestruct (response_run r) as [y Hy]; [exact Hr |]. rewrite Hy. by apply (same_payouts_ledger n w1).
Qed.

Lemma release_ledger n d c s e w :
  escrowReleaseFn d = None → calculation_ok c → pc_escrowId c = e → payout_ledger n w →
  payout_ledger n (release_payout d c s e w).2.
Proof.
  intros Hd Hc He Hw. unfold release_payout. rewrite Hd.
  destruct (release_pays s e (sw_escrows (pw_pay w))) as (res & e1 & Hrun & Hcase).
  set (w1 := PyWorld (put_escrows e1 (pw_pay w)) (pw_store w) (pw_uuids w) (pw_notices w)).
  assert (Hrun1 : on_pay (on_escrows (release s e)) w = (res, w1)) by (unfold on_pay, on_escrows, zoom; by rewrite Hrun).
  assert (Hpay : paid res = false → payouts n (calls_of w1) = payouts n (calls_of w)).
  { intros Hnp. unfold calls_of, w1. simpl. destruct Hcase as [[-> _] | (k & en & _ & -> & Hp)]; [done |].
    rewrite payouts_snoc, (proj2 (Hp n)), Hnp, andb_false_r. lia. }
  assert (Hsame : paid res = false → payout_ledger n w1).
  { intros Hnp. destruct Hw as [H1 H2 H3]. split; [| done | done]. rewrite Hpay by done. exact H1. }
  destruct res as [err | x]; [erewrite bind_run_err by exact Hrun1; by apply Hsame |]. erewrite bind_run by exact Hrun1.
  destruct (eo_success x) eqn:Hx; [| simpl; by apply Hsame]. simpl.
  destruct Hcase as [[_ [? ?]] | (k & en & Hk & Hcalls & Hp)]; [done |].
  destruct (create_run n w w1 c (Some (eo_txHash x)) (Some (eo_ledger x)) po_confirmed None Hw Hc eq_refl eq_refl)
    as (r & w2 & H2 & Hl & Hr & _).
  { unfold calls_of, w1. simpl. rewrite Hcalls, payouts_snoc, (proj2 (Hp n)). simpl. rewrite Hx, andb_true_r, He, Hk. f_equal.
    destruct (Z.eqb_spec k n) as [-> |]; [by rewrite bool_decide_eq_true_2 | rewrite bool_decide_eq_false_2; congruence]. }
  erewrite bind_run by done. erewrite bind_run by exact H2. destruct (response_run r None w2 Hr) as [y Hy]. by rewrite Hy.
Qed.

(** The shape both entry points have. *)
Lemma payout_ledger_body n d req (pause : PayoutCalculation → option (string * string)) :
  escrowReleaseFn d = None →
  evolves (keeps (payout_ledger n))
    (paymentRecord ← funded_record (ip_escrowId req);
     grossAmount ← BigInt_throw (pr_amountStroops paymentRecord);
     calculation ← calculatePayout grossAmount (ip_merchantAddress req) (ip_escrowId req);
     p ← preflight d (ip_merchantAddress req) (ip_assetCode req) (ip_assetIssuer req);
     match p with
     | Some (code, issuer, t) => pause_payout d calculation (pause calculation) code issuer t
     | None => release_payout d calculation (ip_sourceAddress req) (ip_escrowId req)
     end).
Proof.
  intros Hd w Hw. pose proof (funded_record_same (ip_escrowId req) w) as H1. unfold mbind at 1, M_bind at 1.
  destruct (funded_record _ w) as [[e | rec] w1]; apply (same_payouts_ledger n) in H1; [| done | | done]; simpl in H1; [done |].
  unfold mbind at 1, M_bind at 1, BigInt_throw, some_or_throw. destruct (BigInt _) as [g |]; [| done]. simpl.
  pose proof (calculate_same g (ip_merchantAddress req) (ip_escrowId req) w1) as H2. unfold mbind at 1, M_bind at 1.
  destruct (calculatePayout _ _ _ w1) as [[e | c] w2] eqn:Hcalc; apply (same_payouts_ledger n) in H2; try done; simpl in H2.
  apply calculate_run in Hcalc as (Hok & Hid & _).
  pose proof (preflight_same d (ip_merchantAddress req) (ip_assetCode req) (ip_assetIssuer req) w2) as H3. unfold mbind at 1, M_bind at 1.
  destruct (preflight _ _ _ _ w2) as [[e | p] w3]; apply (same_payouts_ledger n) in H3; try done; simpl in H3.
  destruct p as [[[code issuer] t] |]; [by apply pause_ledger | by apply release_ledger].
Qed.

Lemma initiate_ledger n req d : escrowReleaseFn d = None → evolves (keeps (payout_ledger n)) (initiatePayout req d).
Proof. intros Hd. exact (payout_ledger_body n d req (λ _, None) Hd). Qed.

Lemma orchestrate_ledger n d req : escrowReleaseFn d = None → evolves (keeps (payout_ledger n)) (orchestratePayout d req).
Proof. intros Hd. exact (payout_ledger_body n d req (λ c, Some (ip_escrowId req, dec (pc_netMerchantPayoutStroops c))) Hd). Qed.

(** A batch never throws: every request ends in exactly one of the three lists. *)
Lemma batch_run n d reqs acc w :
  escrowReleaseFn d = None → payout_ledger n w →
  ∃ b w', batch_payouts d reqs acc w = (inr b, w') ∧ payout_ledger n w' ∧
    (length (br_successful b) + length (br_paused b) + length (br_failed b) =
     length (br_successful acc) + length (br_paused acc) + length (br_failed acc) + length reqs)%nat ∧
    ∃ l, br_failed b = br_failed acc ++ l ∧ l.*1 `sublist_of` reqs.
Proof.
  intros Hd. revert acc w. induction reqs as [| req reqs IH]; intros acc w Hw; simpl.
  { eexists _, _. split; [done |]. split; [done |]. split; [lia |]. exists []. by rewrite app_nil_r. }
  pose proof (orchestrate_ledger n d req Hd w Hw) as H1. destruct (orchestratePayout d req w) as [res w1] eqn:Hrun. simpl in H1.
  erewrite bind_run; [| unfold outcome; rewrite Hrun; done].
  destruct (IH (batch_add acc req res) w1 H1) as (b & w' & Hb & Hl & Hlen & l & Hf & Hsub).
  exists b, w'. split; [exact Hb |]. split; [exact Hl |]. unfold batch_add in *. clear Hb Hrun.
  destruct res as [err | r]; [| destruct (bool_decide _)].
  all: simpl in Hlen, Hf; rewrite ?length_app in Hlen; simpl in Hlen; split; [lia |].
  - exists ((req, exn_message err) :: l). rewrite Hf, <-(assoc_L (++)). split; [done |]. by constructor.
  - exists l. split; [done |]. by constructor.
  - exists l. split; [done |]. by constructor.
Qed.

(** ** Histories *)

Inductive payout_op :=
| PoInitiate (request : InitiatePayoutRequest) (deps : PayoutDeps)
| PoOrchestrate (deps : PayoutDeps) (request : InitiatePayoutRequest)
| PoBatch (deps : PayoutDeps) (requests : list InitiatePayoutRequest)
| PoWait (ms : N).

(** The contract is called by the escrow service. *)
Definition releases_through_service (o : payout_op) : Prop :=
  match o with
  | PoInitiate _ d | PoOrchestrate d _ | PoBatch d _ => escrowReleaseFn d = None
  | PoWait _ => True
  end.

Definition payout_step w (o : payout_op) : pyworld :=
  match o with
  | PoInitiate req d => (initiatePayout req d w).2
  | PoOrchestrate d req => (orchestratePayout d req w).2
  | PoBatch d reqs => (orchestrateBatchPayouts d reqs w).2
  | PoWait ms => (on_pay (modify (λ s, put_escrows (take_time ms (sw_escrows s)) s)) w).2
  end.

Lemma payout_step_ledger n w o : releases_through_service o → payout_ledger n w → payout_ledger n (payout_step w o).
Proof.
  intros Ho Hw. destruct o as [req d | d req | d reqs | ms]; simpl in *.
  - by apply initiate_ledger.
  - by apply orchestrate_ledger.
  - unfold orchestrateBatchPayouts. destruct (batch_run n d reqs {| br_successful := []; br_paused := []; br_failed := [] |} w Ho Hw)
      as (b & w' & Hb & Hl & _). by rewrite Hb.
  - by apply (same_payouts_ledger n w).
Qed.

(** The payout store agrees with the chain.  Over every history of payouts, single
    or in batches, under every behaviour of the wallet service, of Horizon, of the
    database and of the notifications: the confirmed payouts of an escrow are as many
    as the releases of it that succeeded on the chain, so no payout is recorded that
    did not happen and none that happened is lost, and gross amount, fee and net amount
    of every recorded payout add up. *)
Theorem payouts_recorded n ops w :
  Forall releases_through_service ops → payout_ledger n w →
  let w' := foldl payout_step w ops in
  confirmed n (pw_store w') = payouts n (calls_of w') ∧ Forall amounts_ok (jvalues (pw_store w')).
Proof.
  intros Hops Hw. assert (H : payout_ledger n (foldl payout_step w ops)); [| by destruct H].
  revert w Hw. induction Hops as [| o ops Ho _ IH]; intros w Hw; simpl; [done |]. by apply IH, payout_step_ledger.
Qed.
End correct.

(** With the default notification, which only logs, both entry points are the same
    function. *)
Lemma payout_paths_agree `{PE : PayoutEnv} d req w :
  notifyMerchantFn d = None → orchestratePayout d req w = initiatePayout req d w.
Proof.
  intros Hd. unfold orchestratePayout, initiatePayout. unfold mbind, M_bind. repeat case_match; try done.
  unfold pause_payout, notify_merchant. by rewrite Hd.
Qed.

(** The fee is the rate rounded down, or the minimum when that is more; without a
    minimum above it the merchant is never charged more than the rate. *)
Lemma payout_amounts_bounds rate minimum gross m e :
  0 ≤ gross → 0 ≤ rate ≤ 1000000 →
  let c := payout_amounts rate minimum gross m e in
  pc_platformFeeStroops c = Z.max minimum (gross * rate / 1000000) ∧
  (0 ≤ pc_netMerchantPayoutStroops c ↔ minimum ≤ gross).
Proof.
  intros Hg Hr. simpl. rewrite Z.quot_div_nonneg by nia. assert (gross * rate / 1000000 ≤ gross) by (apply Z.div_le_upper_bound; nia).
  destruct (Z.ltb_spec (gross * rate / 1000000) minimum); split; lia.
Qed.

(** ** Concrete payouts *)

Definition payout_env (stmts : nat → option exn) : PayoutEnv := {|
  py_settlement := settle_env 0 stmts;
  loadAccount := λ a, if String.eqb a "GNOTRUST" then inr [] else
    inr [Build_AccountBalance (Some "USDC") (Some "GISSUER") (Some true) (Some "5.0") (Some "1000")];
  PLATFORM_COMMISSION_RATE := None; rate_floor := λ _, None; PLATFORM_MINIMUM_FEE_STROOPS := None;
  payout_uuid := λ n, dec (Z.of_nat n) |}.

(** An escrow of 50 and one of 0.05 units of ten million stroops. *)
Definition with_amount (z ref : Z) (r : PaymentRecordRow) : PaymentRecordRow :=
  Row (row_id r) (order_id r) (escrow_id r) (escrow_contract_id r) (buyer_address r) (seller_address r) (token_contract_id r)
    z (row_status r) (fund_tx_hash r) (release_tx_hash r) (refund_tx_hash r) (dispute_tx_hash r) (released_amount_stroops r)
    ref (failure_reason r) (subtotal_stroops r) (tax_amount_stroops r) (tax_rate_basis_points r) (tax_jurisdiction r)
    (created_at r) (updated_at r).

Definition payable : pyworld :=
  PyWorld (SWorld [with_amount 500000000 400000000 (order_row "r1" "o1" "7" funded); with_amount 500000 0 (order_row "r2" "o2" "8" funded)]
             2 0 (idle 0) []) [] 0 [].

Definition pay_request (escrow merchant : string) (asset : option string) : InitiatePayoutRequest := {|
  ip_escrowId := escrow; ip_merchantAddress := merchant; ip_sourceAddress := "GSOURCE"; ip_assetCode := asset;
  ip_assetIssuer := Some "GISSUER" |}.

Definition payout_run : list payout_op :=
  [PoInitiate (pay_request "7" "GNOTRUST" (Some "usdc")) no_deps;
   PoBatch no_deps [pay_request "7" "GM" (Some "USDC"); pay_request "9" "GM" None; pay_request "8" "GM" (Some "xlm")]].

Lemma payouts_recorded_witness :
  let w := foldl (payout_step (PE := payout_env (λ _, None))) payable payout_run in
  confirmed 7 (pw_store w) = payouts 7 (calls_of w) ∧ confirmed 7 (pw_store w) = 1%nat ∧
  (py_status <$> jvalues (pw_store w)) = [po_paused; po_confirmed; po_confirmed].
Proof.
  assert (Hinj : Inj (=) (=) (payout_uuid (PayoutEnv := payout_env (λ _, None)))).
  { intros a b H. simpl in H. apply (f_equal BigInt) in H. rewrite !BigInt_dec in H. injection H as H. lia. }
  pose proof (payouts_recorded (PE := payout_env (λ _, None)) Hinj 7 payout_run payable) as H.
  split; [apply H | by vm_compute].
  - by repeat constructor.
  - split; [done | by intros k ?%elem_of_nil | constructor].
Defined.

(** A payout does not change the payment record, so the same escrow is paid out again. *)
Theorem payout_repeats :
  let req := pay_request "7" "GM" None in
  let w1 := initiatePayout (PE := payout_env (λ _, None)) req no_deps payable in
  let w2 := initiatePayout (PE := payout_env (λ _, None)) req no_deps w1.2 in
  payouts 7 (calls_of w2.2) = 2%nat ∧ confirmed 7 (pw_store w2.2) = 2%nat ∧
  (row_status <$> sw_rows (pw_pay w2.2)) = [funded; funded].
Proof. by vm_compute. Qed.

(** The minimum fee may exceed the amount: the merchant's net payout is negative. *)
Theorem payout_below_minimum_fee_negative :
  match (initiatePayout (PE := payout_env (λ _, None)) (pay_request "8" "GM" None) no_deps payable).1 with
  | inr r => pp_grossAmountStroops r = 500000 ∧ pp_platformFeeStroops r = 1000000 ∧ pp_netMerchantPayoutStroops r = -500000 ∧
             pp_status r = po_confirmed
  | inl _ => False
  end.
Proof. by vm_compute. Qed.

(** The payout is computed from the whole amount, although four fifths of it were
    refunded to the buyer. *)
Theorem payout_ignores_refunds :
  match (initiatePayout (PE := payout_env (λ _, None)) (pay_request "7" "GM" None) no_deps payable).1 with
  | inr r => pp_grossAmountStroops r = 500000000 ∧ pp_netMerchantPayoutStroops r = 495000000
  | inl _ => False
  end ∧ (refunded_amount_stroops <$> sw_rows (pw_pay payable)) = [400000000; 0].
Proof. by vm_compute. Qed.
