(* ===== verification/Checkout.v ===== *)
(** * The checkout workflow (apps/backend/orchestrator/workflows/checkout/index.ts)

    The state machine [CheckoutWorkflow] with its events (src/workflow-events.ts), the
    two steps of the checkout saga, and [checkoutWorkflow]: inventory is reserved, the
    saga runs, and the inventory is released unless the saga completed.  The payments
    service is a parameter: its answer is a function of the request and of the actions
    performed before. *)
From S2P Require Import Prelude JsLib ChainClient EscrowService EscrowServiceCorrect Saga SagaCorrect Inventory InventoryCorrect.
Local Open Scope Z_scope.

(** ** The state machine *)

Module Machine.
Inductive CheckoutCancellationReason := user_rejected | approval_timeout | funding_failed | merchant_unavailable | system_error.
Inductive CheckoutState := initiated | pending_approval | approved | funding | completed | cancelled.

#[export] Instance CheckoutState_eq_dec : EqDecision CheckoutState.
Proof. solve_decision. Defined.

Definition state_name (s : CheckoutState) : string :=
  match s with
  | initiated => "initiated" | pending_approval => "pending_approval" | approved => "approved" | funding => "funding"
  | completed => "completed" | cancelled => "cancelled"
  end.

Record CheckoutWorkflowEvent := {
  cw_correlationId : string; cw_orderId : string; cw_type : string; cw_fromState : CheckoutState; cw_toState : CheckoutState;
  cw_reason : option CheckoutCancellationReason; cw_timestamp : Z
}.

(** A workflow, the events emitted by all of them, and the clock. *)
Record CheckoutWorkflow := { cf_orderId : string; cf_correlationId : string; cf_state : CheckoutState; cf_reason : option CheckoutCancellationReason }.
Record mworld := MWorld { mw_workflow : CheckoutWorkflow; emittedEvents : list CheckoutWorkflowEvent; mw_now : Z }.

Definition emitCheckoutEvent (type : string) (from to : CheckoutState) (reason : option CheckoutCancellationReason) : M mworld () :=
  modify (λ w, MWorld (mw_workflow w) (emittedEvents w ++ [{|
    cw_correlationId := cf_correlationId (mw_workflow w); cw_orderId := cf_orderId (mw_workflow w); cw_type := type;
    cw_fromState := from; cw_toState := to; cw_reason := reason; cw_timestamp := mw_now w |}]) (mw_now w)).

(** [new CheckoutWorkflow(orderId, correlationId)] *)
Definition newCheckoutWorkflow (orderId correlationId : string) : M mworld () :=
  modify (λ w, MWorld {| cf_orderId := orderId; cf_correlationId := correlationId; cf_state := initiated; cf_reason := None |}
                 (emittedEvents w) (mw_now w));;
  emitCheckoutEvent "checkout_initiated" initiated initiated None.

Definition allowedTransitions (s : CheckoutState) : list CheckoutState :=
  match s with
  | initiated => [pending_approval; cancelled]
  | pending_approval => [approved; cancelled]
  | approved => [funding; cancelled]
  | funding => [completed; cancelled]
  | completed | cancelled => []
  end.

Definition transitionTo (nextState : CheckoutState) (reason : option CheckoutCancellationReason) : M mworld () :=
  currentState ← gets (cf_state ∘ mw_workflow);
  throw_if (bool_decide (currentState = completed) || bool_decide (currentState = cancelled))
    (Error ("Cannot transition from terminal state: " +:+ state_name currentState));;
  throw_if (negb (bool_decide (nextState ∈ allowedTransitions currentState)))
    (Error ("Invalid state transition from " +:+ state_name currentState +:+ " to " +:+ state_name nextState));;
  (match nextState with
   | cancelled =>
       match reason with
       | None => throw (Error "Cancellation reason is required for transition to cancelled state")
       | Some r => modify (λ w, MWorld {| cf_orderId := cf_orderId (mw_workflow w); cf_correlationId := cf_correlationId (mw_workflow w);
                                         cf_state := cf_state (mw_workflow w); cf_reason := Some r |} (emittedEvents w) (mw_now w))
       end
   | _ => mret ()
   end);;
  modify (λ w, MWorld {| cf_orderId := cf_orderId (mw_workflow w); cf_correlationId := cf_correlationId (mw_workflow w);
                         cf_state := nextState; cf_reason := cf_reason (mw_workflow w) |} (emittedEvents w) (mw_now w));;
  emitCheckoutEvent ("checkout_" +:+ state_name nextState) currentState nextState reason.
End Machine.

(** ** The saga *)

Record CheckoutContext := {
  cx_orderId : string; cx_sourceAddress : string; cx_buyerAddress : string; cx_sellerAddress : string; cx_userId : string;
  cx_escrowId : option string; cx_confirmed : bool
}.

Record CheckoutWorkflowInput := {
  ci_orderId : string; ci_sourceAddress : string; ci_buyerAddress : string; ci_sellerAddress : string; ci_userId : option string;
  ci_inventoryItems : option (list InventoryReservationItem)
}.

Definition createCheckoutWorkflowInput (orderId sourceAddress buyerAddress sellerAddress authenticatedUserId : string)
    : CheckoutWorkflowInput := {|
  ci_orderId := orderId; ci_sourceAddress := sourceAddress; ci_buyerAddress := buyerAddress; ci_sellerAddress := sellerAddress;
  ci_userId := Some authenticatedUserId; ci_inventoryItems := None |}.

(** A POST to the payments service; the credentials are the service token and the user. *)
Record PaymentsRequest := { pq_path : string; pq_body : list (string * string); pq_auth : option (string * string) }.

Inductive payments_reply :=
| PayUnreachable (m : string)
| PayNotJson (e : exn)
| PayReply (status : Z) (data : option EscrowOperationResult) (error : option (option string)).

Class CheckoutEnv := {
  ck_inventory :: InventoryEnv;
  ORCHESTRATOR_PAYMENTS_SERVICE_TOKEN : option string;
  payments_http : list effect → PaymentsRequest → N * payments_reply
}.

Section checkout.
Context `{CE : CheckoutEnv}.

(** What [callPaymentsService] makes of an answer. *)
Definition payments_result (r : payments_reply) : exn + EscrowOperationResult :=
  match r with
  | PayUnreachable m => inl (Error ("Payments service unavailable: " +:+ m))
  | PayNotJson e => inl e
  | PayReply status data error =>
      if negb ((200 <=? status) && (status <=? 299)) || bool_decide (is_Some error)
      then inl (Error (default ("Payments service returned status " +:+ dec status) (mjoin error)))
      else match data with Some d => inr d | None => inl (Error "Payments service returned an empty response") end
  end.

Definition callPaymentsService (log : list effect) (path : string) (body : list (string * string)) (serviceAuth : option string)
    : N * (exn + EscrowOperationResult) :=
  match serviceAuth with
  | Some userId =>
      if negb (truthy (trim <$> ORCHESTRATOR_PAYMENTS_SERVICE_TOKEN))
      then (0%N, inl (Error "ORCHESTRATOR_PAYMENTS_SERVICE_TOKEN is not configured"))
      else
        let '(took, reply) := payments_http log
          {| pq_path := path; pq_body := body; pq_auth := Some (default "" ORCHESTRATOR_PAYMENTS_SERVICE_TOKEN, userId) |} in
        (took, payments_result reply)
  | None =>
      let '(took, reply) := payments_http log {| pq_path := path; pq_body := body; pq_auth := None |} in
      (took, payments_result reply)
  end.

Definition with_escrow (e : option string) (c : CheckoutContext) : CheckoutContext := {|
  cx_orderId := cx_orderId c; cx_sourceAddress := cx_sourceAddress c; cx_buyerAddress := cx_buyerAddress c;
  cx_sellerAddress := cx_sellerAddress c; cx_userId := cx_userId c; cx_escrowId := e; cx_confirmed := cx_confirmed c |}.
Definition with_confirmed (b : bool) (c : CheckoutContext) : CheckoutContext := {|
  cx_orderId := cx_orderId c; cx_sourceAddress := cx_sourceAddress c; cx_buyerAddress := cx_buyerAddress c;
  cx_sellerAddress := cx_sellerAddress c; cx_userId := cx_userId c; cx_escrowId := cx_escrowId c; cx_confirmed := b |}.

Definition deposit_execute (log : list effect) (context : CheckoutContext) : N * (exn + CheckoutContext) :=
  let '(took, result) := callPaymentsService log "/escrow/deposit"
    [("sourceAddress", cx_sourceAddress context); ("buyerAddress", cx_buyerAddress context);
     ("sellerAddress", cx_sellerAddress context); ("orderId", cx_orderId context)] (Some (cx_userId context)) in
  (took, match result with
         | inl e => inl e
         | inr r =>
             if truthy (eo_escrowId r) then inr (with_escrow (eo_escrowId r) context)
             else inl (Error "Payments service did not return an escrowId for the deposit")
         end).

Definition deposit_compensate (log : list effect) (context _output : CheckoutContext) : N * (exn + CheckoutContext) :=
  if negb (truthy (cx_escrowId context)) then (0%N, inr context)
  else
    let '(took, result) := callPaymentsService log ("/escrow/" +:+ default "" (cx_escrowId context) +:+ "/refund")
      [("sourceAddress", cx_sourceAddress context)] None in
    (took, match result with inl e => inl e | inr _ => inr (with_escrow None context) end).

Definition depositEscrowStep : SagaStep CheckoutContext := {|
  st_name := "deposit-escrow"; st_execute := deposit_execute; st_compensate := deposit_compensate; st_retryPolicy := None |}.

Definition confirmCheckoutStep : SagaStep CheckoutContext := {|
  st_name := "confirm-checkout"; st_execute := λ _ context, (0%N, inr (with_confirmed true context));
  st_compensate := λ _ context _, (0%N, inr (with_confirmed false context)); st_retryPolicy := None |}.

Definition createCheckoutSagaCoordinator : exn + SagaCoordinator CheckoutContext :=
  newCoordinator [depositEscrowStep; confirmCheckoutStep] None None.

(** ** Merchant cancellation *)

Record CanceledCheckout := { cc_orderId : string; cc_status : string; cc_reason : string; cc_canceledAt : Z; cc_refundNeeded : bool }.
Record RefundNeededEvent := { rn_orderId : string; rn_merchantId : string; rn_triggeredAt : Z }.

Definition handleMerchantCancellation (orderId merchantId reasonCode : string) (occurredAt : Z) (escrowFunded : bool)
    : CanceledCheckout * option RefundNeededEvent :=
  ({| cc_orderId := orderId; cc_status := "canceled"; cc_reason := reasonCode; cc_canceledAt := occurredAt; cc_refundNeeded := escrowFunded |},
   if escrowFunded then Some {| rn_orderId := orderId; rn_merchantId := merchantId; rn_triggeredAt := occurredAt |} else None).

(** ** The workflow *)

(** The inventory and the sagas share the clock of the sagas. *)
Record ckworld := CkWorld { ck_inv : invdb; ck_sagas : sagas CheckoutContext }.

Definition inv_at (w : ckworld) : invdb :=
  InvDb (iv_rows (ck_inv w)) (iv_reservations (ck_inv w)) (iv_claims (ck_inv w)) (iv_alerts (ck_inv w)) (sg_now (ck_sagas w)).
Definition on_inventory {A} (c : M invdb A) : M ckworld A := zoom inv_at (λ d w, CkWorld d (ck_sagas w)) c.
Definition on_sagas {A} (c : M (sagas CheckoutContext) A) : M ckworld A := zoom ck_sagas (λ s w, CkWorld (ck_inv w) s) c.

(** [orderId: item.orderId ?? input.orderId] *)
Definition stamp (orderId : string) (i : InventoryReservationItem) : InventoryReservationItem := {|
  it_merchantId := it_merchantId i; it_productId := it_productId i; it_quantity := it_quantity i;
  it_orderId := Some (default orderId (it_orderId i)) |}.

Definition stamped_items (input : CheckoutWorkflowInput) : list InventoryReservationItem :=
  stamp (ci_orderId input) <$> default [] (ci_inventoryItems input).

Definition initial_context (input : CheckoutWorkflowInput) : CheckoutContext := {|
  cx_orderId := ci_orderId input; cx_sourceAddress := ci_sourceAddress input; cx_buyerAddress := ci_buyerAddress input;
  cx_sellerAddress := ci_sellerAddress input; cx_userId := default "" (ci_userId input); cx_escrowId := None; cx_confirmed := false |}.

(** [correlationId] is the one [createWorkflowCorrelationId()] makes. *)
Definition checkoutWorkflow (input : CheckoutWorkflowInput) (coordinator : SagaCoordinator CheckoutContext)
    (sagaId correlationId : string) : M ckworld (SagaRecord CheckoutContext) :=
  let inventoryItems := stamped_items input in
  let some_items := negb (bool_decide (inventoryItems = [])) in
  (if some_items then on_inventory (reserve inventoryItems) else mret ());;
  result ← try_catch
    (on_sagas (run coordinator sagaId (ci_orderId input) (initial_context input) (Some checkout) (Some correlationId) ""))
    (λ error, (if some_items then on_inventory (release inventoryItems) else mret ());; throw error);
  (if negb (bool_decide (sr_status result = completed)) && some_items then on_inventory (release inventoryItems) else mret ());;
  mret result.
End checkout.

(** * What a checkout guarantees

    The outcome of [checkoutWorkflow] on every answer of the payments service, proved
    from the refinement of the saga coordinator and the theorems about reservations; the
    state machine of the workflow; and what the composition with the payments service
    as it is amounts to. *)

(** ** The state machine *)

Module MachineCorrect.
Import Machine.
Implicit Types w : mworld.

(** One transition, exactly: it happens when the table allows it and a cancellation
    has a reason; otherwise nothing changes. *)
Lemma transitionTo_run next reason w :
  let s := cf_state (mw_workflow w) in
  if bool_decide (next ∈ allowedTransitions s) && negb (bool_decide (next = cancelled) && bool_decide (reason = None))
  then ∃ w', transitionTo next reason w = (inr (), w') ∧ cf_state (mw_workflow w') = next ∧
         (next = cancelled → cf_reason (mw_workflow w') = reason) ∧
         (next ≠ cancelled → cf_reason (mw_workflow w') = cf_reason (mw_workflow w)) ∧
         cf_orderId (mw_workflow w') = cf_orderId (mw_workflow w) ∧
         ∃ e, emittedEvents w' = emittedEvents w ++ [e] ∧ cw_fromState e = s ∧ cw_toState e = next ∧ cw_orderId e = cf_orderId (mw_workflow w)
  else ∃ err, transitionTo next reason w = (inl err, w).
Proof.
  intros s. unfold transitionTo. erewrite bind_run by done. unfold compose. fold s.
  destruct (bool_decide (next ∈ allowedTransitions s)) eqn:Ha; simpl.
  - assert (Ht : bool_decide (s = completed) || bool_decide (s = cancelled) = false).
    { apply bool_decide_eq_true in Ha. destruct s; simpl in *; try done; by apply elem_of_nil in Ha. }
    rewrite Ht. erewrite bind_run by done. erewrite bind_run by done.
    destruct next; simpl; try (eexists; split; [done |]; simpl; split_and!; try done; by eexists).
    destruct reason as [r |]; simpl; [| by eexists]. eexists. split; [done |]. simpl. split_and!; try done. by eexists.
  - destruct (bool_decide (s = completed) || bool_decide (s = cancelled)); [by eexists |]. erewrite bind_run by done. by eexists.
Qed.

(** How far a checkout has come; a cancellation and a completion are final. *)
Definition rank (s : CheckoutState) : nat :=
  match s with initiated => 0 | pending_approval => 1 | approved => 2 | funding => 3 | completed | cancelled => 4 end.

Definition attempt w (t : CheckoutState * option CheckoutCancellationReason) : mworld := (transitionTo t.1 t.2 w).2.

(** What holds along the way: the events of the workflow since it was created. *)
Definition follows (orderId : string) (events : list CheckoutWorkflowEvent) w : Prop :=
  cf_orderId (mw_workflow w) = orderId ∧ (cf_reason (mw_workflow w) = None ↔ cf_state (mw_workflow w) ≠ cancelled) ∧
  ∃ trail, emittedEvents w = events ++ trail ∧ (length trail ≤ S (rank (cf_state (mw_workflow w))))%nat ∧
    Forall (λ e, cw_orderId e = orderId) trail.

Lemma allowed_rank s next : next ∈ allowedTransitions s → (rank s < rank next)%nat.
Proof. destruct s; simpl; rewrite ?elem_of_cons, ?elem_of_nil; intros H; destruct_or?; simplify_eq; simpl; lia. Qed.

Lemma attempt_follows orderId events w t : follows orderId events w → follows orderId events (attempt w t).
Proof.
  intros (Ho & Hr & trail & He & Hl & Hf). destruct t as [next reason]. unfold attempt. simpl.
  pose proof (transitionTo_run next reason w) as H. simpl in H. destruct (_ && _) eqn:Hb.
  - destruct H as (w' & -> & Hs & Hc & Hn & Ho' & e & He' & Hfrom & _ & Heo). simpl. apply andb_true_iff in Hb as [Hb1 Hb2].
    apply bool_decide_eq_true in Hb1. split; [congruence |]. split.
    + rewrite Hs. destruct (decide (next = cancelled)) as [-> | Hne].
      * rewrite Hc by done. split; [| done]. intros ->. done.
      * rewrite Hn by done. split; [done |]. intros _. apply Hr. intros E. rewrite E in Hb1. by apply elem_of_nil in Hb1.
    + exists (trail ++ [e]). rewrite He', He, <-(assoc_L (++)). split; [done |]. rewrite length_app, Hs. simpl. split.
      * apply allowed_rank in Hb1. lia.
      * apply Forall_app. split; [done |]. constructor; [congruence | done].
  - destruct H as (err & ->). split; [done |]. split; [done |]. by exists trail.
Qed.

(** A checkout moves forward only, records a reason exactly when it is cancelled, and
    emits one event for its creation and for each of its at most four transitions,
    whatever transitions are asked for. *)
Theorem checkout_lifecycle orderId correlationId now events ts old :
  let w := foldl attempt (newCheckoutWorkflow orderId correlationId (MWorld old events now)).2 ts in
  (cf_reason (mw_workflow w) = None ↔ cf_state (mw_workflow w) ≠ cancelled) ∧
  ∃ trail, emittedEvents w = events ++ trail ∧ (length trail ≤ 5)%nat ∧ Forall (λ e, cw_orderId e = orderId) trail.
Proof.
  intros w. assert (H : follows orderId events w).
  { unfold w. assert (Hall : ∀ x, follows orderId events x → follows orderId events (foldl attempt x ts)).
    { induction ts as [| t ts IH]; intros x Hx; simpl; [done |]. by apply IH, attempt_follows. }
    apply Hall. split; [done |]. split; [done |]. eexists. split; [done |]. split; [simpl; lia | by repeat constructor]. }
  destruct H as (_ & Hr & trail & He & Hl & Hf). split; [done |]. exists trail. split; [done |]. split; [| done].
  destruct (cf_state _); simpl in Hl; lia.
Qed.
End MachineCorrect.

(** ** The workflow *)

Section workflow.
Context `{CE : CheckoutEnv} (co : SagaCoordinator CheckoutContext).
Hypothesis coordinator_created : createCheckoutSagaCoordinator = inr co.
Hypothesis lock_up : ∀ l t, lock_error l t = None.
Hypothesis unlock_up : ∀ t, unlock_error t = None.
Hypothesis connection_up : ∀ t, connect_error t = None.
Implicit Types w : ckworld.

Lemma checkout_steps : co_steps co = [depositEscrowStep; confirmCheckoutStep].
Proof. pose proof coordinator_created as H. unfold createCheckoutSagaCoordinator, newCoordinator in H. simpl in H. by injection H as <-. Qed.

(** The reference semantics of the two steps. *)
Lemma checkout_forward c log :
  forward (co_steps co) [] None c log =
  match (deposit_execute log c).2 with
  | inr c' => Outcome (log ++ [Executed "deposit-escrow"; Executed "confirm-checkout"]) completed (with_confirmed true c') None None
  | inl e => Outcome (log ++ [Executed "deposit-escrow"]) compensated c (Some (exn_message e)) None
  end.
Proof.
  rewrite checkout_steps. unfold forward, step_spec, attempt_spec. simpl. destruct (deposit_execute log c) as [t [e | c']]; simpl; [done |].
  by rewrite <-(assoc_L (++)).
Qed.

Lemma reserve_phase items w :
  tables_ok (inv_at w) → fits items (inv_at w) →
  ∃ w1, (if negb (bool_decide (items = [])) then on_inventory (reserve items) else mret ()) w = (inr (), w1) ∧
    all_items op_reserve items (inv_at w) (ck_inv w1) ∧ ck_sagas w1 = ck_sagas w.
Proof.
  intros Hok Hf. destruct (bool_decide (items = [])) eqn:E; simpl.
  - apply bool_decide_eq_true in E as ->. exists w. split; [done |]. split; [| done].
    destruct (empty_items op_reserve (inv_at w) Hok) as (Hr & Hl & []). by split; [| split].
  - destruct (reserve_done lock_up unlock_up connection_up items (inv_at w) Hok Hf) as [d Hd].
    exists (CkWorld d (ck_sagas w)). split; [unfold on_inventory, zoom; by rewrite Hd |]. split; [| done]. by eapply update_done.
Qed.

Lemma release_phase items w d0 :
  tables_ok d0 → fits items d0 → all_items op_reserve items d0 (ck_inv w) →
  ∃ w1, (if negb (bool_decide (items = [])) then on_inventory (release items) else mret ()) w = (inr (), w1) ∧
    iv_rows (ck_inv w1) = iv_rows d0 ∧ ck_sagas w1 = ck_sagas w.
Proof.
  intros Hok Hf Hall. pose proof (reserved_holds items d0 (ck_inv w) Hok Hf Hall) as Hh.
  destruct (bool_decide (items = [])) eqn:E; simpl.
  - apply bool_decide_eq_true in E as ->. exists w. split; [done |]. split; [| done]. destruct Hall as [Hr _].
    eapply rows_moved_back; [exact Hr |]. apply Forall_Forall2_diag, Forall_forall. intros r _. apply row_moved_nil.
  - assert (Hok' : tables_ok (inv_at w)) by (destruct Hall as (_ & _ & []); by split).
    assert (Hh' : holds items (inv_at w)) by (destruct Hh; by split).
    destruct (release_done lock_up unlock_up connection_up items (inv_at w) Hok' Hh') as [d Hd].
    exists (CkWorld d (ck_sagas w)). split; [unfold on_inventory, zoom; by rewrite Hd |]. split; [| done].
    apply update_done in Hd as [Hr2 _]; [| done]. destruct Hall as [Hr1 _]. by eapply rows_moved_back.
Qed.

(** C35. A checkout is exact: with enough stock for its items, a saga identifier that is
    not in use, and a database, its connections and locks that work, it returns, and what
    it did is decided by the answer of the payments service to the deposit. After a
    deposit with an escrow the saga is completed, the context confirmed and the stock of
    the items reserved; after a failed deposit the saga is compensated with the error on
    record, and every stock row is as before. *)
Theorem checkout_exact input sagaId corr w :
  tables_ok (inv_at w) → fits (stamped_items input) (inv_at w) → jget sagaId (sg_records (ck_sagas w)) = None →
  let log := sg_effects (ck_sagas w) in
  ∃ r w', checkoutWorkflow input co sagaId corr w = (inr r, w') ∧
    match (deposit_execute log (initial_context input)).2 with
    | inr c => sr_status r = completed ∧ sr_context r = with_confirmed true c ∧
        sg_effects (ck_sagas w') = log ++ [Executed "deposit-escrow"; Executed "confirm-checkout"] ∧
        all_items op_reserve (stamped_items input) (inv_at w) (ck_inv w')
    | inl e => sr_status r = compensated ∧ sr_error r = Some (exn_message e) ∧
        sg_effects (ck_sagas w') = log ++ [Executed "deposit-escrow"] ∧ iv_rows (ck_inv w') = iv_rows (ck_inv w)
    end.
Proof.
  intros Hok Hf Hnone log. unfold checkoutWorkflow. cbv zeta.
  destruct (reserve_phase (stamped_items input) w Hok Hf) as (w1 & H1 & Hall & Hs). erewrite bind_run by exact H1.
  assert (Hnd : NoDup (stepOrder co)) by (unfold stepOrder; rewrite checkout_steps; apply (bool_decide_unpack _); done).
  rewrite <-Hs in Hnone.
  pose proof (fresh_run_refines co (ck_sagas w1) sagaId (ci_orderId input) (initial_context input) (Some checkout) (Some corr) "" Hnd Hnone) as Hrun.
  simpl in Hrun. rewrite checkout_forward, Hs in Hrun. fold log in Hrun.
  destruct (run co sagaId (ci_orderId input) (initial_context input) (Some checkout) (Some corr) "" (ck_sagas w)) as [res s2] eqn:Hr. destruct Hrun as (r & _ & Heff & Hst & Hctx & Herr & Hres). simpl in *.
  set (w2 := CkWorld (ck_inv w1) s2).
  assert (Hsaga : on_sagas (run co sagaId (ci_orderId input) (initial_context input) (Some checkout) (Some corr) "") w1 = (inr r, w2)).
  { unfold on_sagas, zoom. rewrite Hs, Hr. destruct (deposit_execute _ _).2; by subst res. }
  erewrite bind_run; [| unfold try_catch; rewrite Hsaga; done].
  destruct (deposit_execute log (initial_context input)).2 as [e | c]; simpl in Heff, Hst, Hctx, Herr; rewrite Hst.
  - rewrite bool_decide_eq_false_2 by done. simpl. destruct (release_phase (stamped_items input) w2 (inv_at w) Hok Hf Hall) as (w3 & H3 & Hrows & Hs3).
    erewrite bind_run by exact H3. exists r, w3. split; [done |]. rewrite Hs3. done.
  - rewrite bool_decide_eq_true_2 by done. simpl. erewrite bind_run by done. exists r, w2. done.
Qed.
End workflow.

(** ** Concrete checkouts *)

Definition checkout_env (reply : N * payments_reply) : CheckoutEnv := {|
  ck_inventory := inv_env false; ORCHESTRATOR_PAYMENTS_SERVICE_TOKEN := Some "secret"; payments_http := λ _ _, reply |}.

Definition deposit_reply (r : exn + EscrowOperationResult) : payments_reply :=
  match r with inr d => PayReply 200 (Some d) None | inl e => PayReply 502 None (Some (Some (exn_message e))) end.

Definition escrow_created : EscrowOperationResult := {| eo_txHash := "tx"; eo_ledger := 42; eo_success := true; eo_escrowId := Some "7" |}.

Definition checkout_input : CheckoutWorkflowInput := {|
  ci_orderId := "o1"; ci_sourceAddress := "GSRC"; ci_buyerAddress := "GB"; ci_sellerAddress := "GS"; ci_userId := Some "u1";
  ci_inventoryItems := Some [Build_InventoryReservationItem "M" "Q" (Int 1) None; Build_InventoryReservationItem "M" "P" (Int 6) None] |}.

Definition checkout_coordinator (reply : N * payments_reply) : SagaCoordinator CheckoutContext :=
  Build_SagaCoordinator [depositEscrowStep (CE := checkout_env reply); confirmCheckoutStep] DEFAULT_CLAIM_LEASE_MS DEFAULT_SAGA_TIMEOUT_MS.

Definition open_shop : ckworld := CkWorld inv_demo (Sagas [] [] [] [] 0).

Lemma checkout_exact_witness :
  ∃ r w', checkoutWorkflow (CE := checkout_env (8%N, deposit_reply (inr escrow_created))) checkout_input
            (checkout_coordinator (8%N, deposit_reply (inr escrow_created))) "s1" "corr" open_shop = (inr r, w') ∧
    sr_status r = completed ∧ cx_escrowId (sr_context r) = Some "7" ∧ (in_reserved <$> iv_rows (ck_inv w')) = [6; 1].
Proof.
  destruct (checkout_exact (CE := checkout_env (8%N, deposit_reply (inr escrow_created)))
    (checkout_coordinator (8%N, deposit_reply (inr escrow_created))) eq_refl (λ _ _, eq_refl) (λ _, eq_refl) (λ _, eq_refl)
    checkout_input "s1" "corr" open_shop) as (r & w' & Hrun & Hst & Hctx & _ & Hall & _).
  - apply inv_demo_ok.
  - apply inv_demo_fits.
  - done.
  - exists r, w'. split; [exact Hrun |]. split; [exact Hst |]. split; [by rewrite Hctx |].
    vm_compute in Hrun. injection Hrun as _ <-. done.
Defined.

(** The payments service answers a deposit with what its escrow service returns, which
    never names the escrow: the deposit step always fails, so no checkout completes. *)
Theorem checkout_never_completes `{CE : CheckoutEnv} :
  (∀ log req took status data err, pq_path req = "/escrow/deposit" → payments_http log req = (took, PayReply status (Some data) err) →
     ∃ (EE : EscrowEnv) s b l o u x x', deposit s b l o u x = (inr data, x')) →
  ∀ log c, ∃ e, (deposit_execute log c).2 = inl e.
Proof.
  intros Hsvc log c. unfold deposit_execute, callPaymentsService. destruct (negb _); [by eexists |].
  destruct (payments_http log _) as [took reply] eqn:Hr. simpl. destruct reply as [m | e | status data err]; simpl; [by eexists .. |].
  destruct (_ || _); [by eexists |]. destruct data as [d |]; [| by eexists].
  apply Hsvc in Hr; [| done]. destruct Hr as (EE & s & b & l & o & u & x & x' & Hd). apply deposit_without_escrow_id in Hd. rewrite Hd. by eexists.
Qed.

(** The deposit of the buyer's funds, as the payments service performs it. *)
Definition performed_deposit : (exn + EscrowOperationResult) * escrows :=
  deposit (EE := flaky_wallet 0) "GSRC" "GB" "GS" (Some "o1") (Some "u1") (idle 0).

(** So the funds of a buyer are deposited and stay there: the transaction succeeded, the
    checkout ends as compensated, and no refund was requested. *)
Theorem deposit_stranded :
  (∃ r, performed_deposit.1 = inr r ∧ eo_success r = true) ∧
  let reply := (8%N, deposit_reply performed_deposit.1) in
  let out := checkoutWorkflow (CE := checkout_env reply) checkout_input (checkout_coordinator reply) "s1" "corr" open_shop in
  (∃ r, out.1 = inr r ∧ sr_status r = compensated) ∧ sg_effects (ck_sagas out.2) = [Executed "deposit-escrow"].
Proof. vm_compute. split; [by eexists |]. split; [by eexists | done]. Qed.
