(* ===== verification/Compensation.v ===== *)
(** * Compensation of a purchase (apps/backend/orchestrator/workflows/purchase/compensation.ts)

    [runCompensation] with its default steps, the audit rows and outcomes it writes
    (state/workflow-transition-audit.ts, state/compensation-outcome.ts), the dead letter
    queue (workflows/timeout.ts), and [retryWithLeaseBudget].  The payments client
    (paymentsCompensationClient.ts) reaches the modelled [settleOrder] and [refundOrder]
    through the order routes of the payments service; the network may fail. *)
From S2P Require Import Prelude JsLib PaymentRecords ChainClient EscrowService Settlement Saga Purchase.
Local Open Scope Z_scope.

(** ** Records *)

Record WorkflowTransitionAuditRecord := {
  wa_id : string; wa_orderId : string; wa_fromState : option string; wa_toState : string; wa_eventType : string; wa_createdAt : Z
}.

Inductive CompensationStatus := co_success | co_partial_failure | co_escrow_stuck.

Record CompensationOutcomeRecord := {
  or_workflowId : string; or_status : CompensationStatus; or_compensatedSteps : list string; or_failedSteps : list (string * string);
  or_cause : option string; or_attempts : Z; or_createdAt : Z; or_updatedAt : Z
}.

Record DeadLetterEntry (C : Type) := {
  dl_sagaId : string; dl_orderId : string; dl_reason : string; dl_originalStatus : SagaStatus; dl_movedAt : Z; dl_context : C
}.
Arguments Build_DeadLetterEntry {C}.
Arguments dl_sagaId {C}.
Arguments dl_orderId {C}.
Arguments dl_reason {C}.
Arguments dl_originalStatus {C}.
Arguments dl_movedAt {C}.
Arguments dl_context {C}.

(** The entry [moveToDeadLetter] pushes. *)
Definition dead_letter {C} (record : SagaRecord C) (reason : string) (now : Z) : DeadLetterEntry C := {|
  dl_sagaId := sr_sagaId record; dl_orderId := sr_orderId record; dl_reason := reason; dl_originalStatus := sr_status record;
  dl_movedAt := now; dl_context := sr_context record |}.

Inductive MerchantCancellationStatus := mc_cancelled | mc_already_cancelled | mc_not_cancellable | mc_failed.
Record MerchantCancellationOutcome := { mc_status : MerchantCancellationStatus; mc_reason : option string }.

(** The payments service, the audit trail, the outcomes and the dead letter queue. *)
Record cworld := CWorld {
  cp_pay : sworld; cp_audit : list WorkflowTransitionAuditRecord; cp_outcomes : jsmap CompensationOutcomeRecord;
  cp_dlq : list (DeadLetterEntry PurchaseContext); cp_uuids : nat
}.

Class CompensationEnv := {
  cp_settlement :: SettlementEnv;
  (** a request that does not reach the payments service, by the number of contract
      calls and statements so far *)
  network_error : sworld → option string;
  audit_uuid : nat → string
}.

Definition cp_now (w : cworld) : Z := sw_now (cp_pay w).

Section compensation.
Context `{CE : CompensationEnv}.

(** ** State: the audit trail and the outcomes *)

(** [!s || s.trim() === ""] *)
Definition blank (s : string) : bool := String.eqb (trim s) "".

Definition insertWorkflowTransitionAudit (orderId : string) (fromState : option string) (toState eventType : string)
    : M cworld WorkflowTransitionAuditRecord :=
  throw_if (blank orderId) (Error "orderId is required");;
  throw_if (blank toState) (Error "toState is required");;
  throw_if (blank eventType) (Error "eventType is required");;
  n ← gets cp_uuids;
  now ← gets cp_now;
  let record := {| wa_id := audit_uuid n; wa_orderId := orderId; wa_fromState := fromState; wa_toState := toState;
                   wa_eventType := eventType; wa_createdAt := now |} in
  modify (λ w, CWorld (cp_pay w) (cp_audit w ++ [record]) (cp_outcomes w) (cp_dlq w) (S (cp_uuids w)));;
  mret record.

Definition upsertCompensationOutcome (workflowId : string) (status : CompensationStatus) (compensatedSteps : list string)
    (failedSteps : list (string * string)) (cause : option string) : M cworld CompensationOutcomeRecord :=
  throw_if (blank workflowId) (Error "workflowId is required");;
  now ← gets cp_now;
  existing ← gets (λ w, jget workflowId (cp_outcomes w));
  let record := {|
    or_workflowId := workflowId; or_status := status; or_compensatedSteps := compensatedSteps; or_failedSteps := failedSteps;
    or_cause := cause; or_attempts := from_option or_attempts 0 existing + 1;
    or_createdAt := from_option or_createdAt now existing; or_updatedAt := now |} in
  modify (λ w, CWorld (cp_pay w) (cp_audit w) (jset workflowId record (cp_outcomes w)) (cp_dlq w) (cp_uuids w));;
  mret record.

Definition getCompensationOutcome (workflowId : string) : M cworld (option CompensationOutcomeRecord) :=
  gets (λ w, jget workflowId (cp_outcomes w)).

Definition moveToDeadLetter (record : SagaRecord PurchaseContext) (reason : string) : M cworld (DeadLetterEntry PurchaseContext) :=
  now ← gets cp_now;
  let entry := dead_letter record reason now in
  modify (λ w, CWorld (cp_pay w) (cp_audit w) (cp_outcomes w) (cp_dlq w ++ [entry]) (cp_uuids w));;
  mret entry.

(** ** The clients *)

Definition on_payments {A} (c : M sworld A) : M cworld A :=
  zoom cp_pay (λ s w, CWorld s (cp_audit w) (cp_outcomes w) (cp_dlq w) (cp_uuids w)) c.

(** [postJson] to an order route: a failed outcome is answered with its reason and the
    status 502, an exception with its message and the status 400. *)
Definition post_order (default_reason : string) (c : M sworld SettlementOutcome) : M cworld SettlementOutcome :=
  down ← gets (λ w, network_error (cp_pay w));
  match down with
  | Some m => throw (Error ("Payments service unavailable: " +:+ m))
  | None =>
      res ← on_payments (outcome c);
      match res with
      | inl e => throw (Error (exn_message e))
      | inr o =>
          match so_status o with
          | so_failed => throw (Error (default default_reason (so_reason o)))
          | _ => mret o
          end
      end
  end.

Definition client_release (orderId : string) : M cworld SettlementOutcome := post_order "Release failed" (settleOrder orderId).
Definition client_refund (orderId reasonCode : string) : M cworld SettlementOutcome :=
  post_order "Refund failed" (refundOrder orderId reasonCode).

(** [defaultMerchantCancellationClient] *)
Definition default_merchant_cancel (_orderId _reasonCode : string) : M cworld MerchantCancellationOutcome :=
  throw (Error "MerchantCancellationClient not configured").

(** ** The default steps *)

Record CompensationStep := { cs_name : string; cs_compensate : PurchaseContext → exn → M cworld PurchaseContext }.

Definition without_escrow (c : PurchaseContext) : PurchaseContext := {|
  pc_workflowId := pc_workflowId c; pc_delegationId := pc_delegationId c; pc_userId := pc_userId c; pc_productId := pc_productId c;
  pc_merchantId := pc_merchantId c; pc_totalStroops := pc_totalStroops c; pc_escrowContractId := None;
  pc_rejectionReason := pc_rejectionReason c; pc_createdAt := pc_createdAt c; pc_updatedAt := pc_updatedAt c |}.

Definition createDefaultPurchaseCompensationSteps
    (pay_release : string → M cworld SettlementOutcome) (pay_refund : string → string → M cworld SettlementOutcome)
    (merchant_cancel : string → string → M cworld MerchantCancellationOutcome) : list CompensationStep := [
  {| cs_name := "fundEscrow"; cs_compensate := λ context _,
       if negb (truthy (pc_escrowContractId context)) then mret context
       else
         o ← pay_release (pc_workflowId context);
         match so_status o with
         | so_failed => throw (Error (default "Escrow release failed" (so_reason o)))
         | _ => mret (without_escrow context)
         end |};
  {| cs_name := "confirmPurchase"; cs_compensate := λ context _,
       try_catch
         (o ← merchant_cancel (pc_workflowId context) "system_error";
          match mc_status o with
          | mc_failed => throw (Error (default "Merchant cancellation failed" (mc_reason o)))
          | _ => mret context
          end)
         (λ err, if includes (toLowerCase (exn_message err)) "not configured" then mret context else throw err) |};
  {| cs_name := "settleEscrow"; cs_compensate := λ context _,
       o ← pay_refund (pc_workflowId context) "system_error";
       match so_status o with
       | so_failed => throw (Error (default "Escrow refund failed" (so_reason o)))
       | _ => mret context
       end |} ].

Definition DEFAULT_PURCHASE_COMPENSATION_STEPS : list CompensationStep :=
  createDefaultPurchaseCompensationSteps client_release client_refund default_merchant_cancel.

Definition ESCROW_CRITICAL_STEPS (name : string) : bool := String.eqb name "fundEscrow" || String.eqb name "settleEscrow".

(** ** The compensator *)

Record CompensationResult := {
  cr_status : CompensationStatus; cr_compensatedSteps : list string; cr_failedSteps : list (string * string);
  cr_finalContext : PurchaseContext; cr_escrowStuck : bool
}.

(** [new Map(allSteps.map(...)).get(name)]: the last step with the name *)
Definition step_get (allSteps : list CompensationStep) (name : string) : option CompensationStep :=
  List.find (λ s, String.eqb (cs_name s) name) (rev allSteps).

(** The state of the loop. *)
Record progress := { pg_done : list string; pg_failed : list (string * string); pg_context : PurchaseContext; pg_stuck : bool }.

Definition compensate_step (workflowId : string) (cause : exn) (allSteps : list CompensationStep) (stepName : string) (p : progress)
    : M cworld progress :=
  match step_get allSteps stepName with
  | None =>
      mret {| pg_done := pg_done p; pg_failed := pg_failed p ++ [(stepName, "No compensator registered")];
              pg_context := pg_context p; pg_stuck := pg_stuck p |}
  | Some step =>
      res ← outcome (cs_compensate step (pg_context p) cause);
      audited ← outcome
        (match res with
         | inl e => throw e
         | inr _ => insertWorkflowTransitionAudit workflowId (Some stepName) (stepName +:+ "_compensated") "COMPENSATION"
         end);
      let context := match res with inr c => c | inl _ => pg_context p end in
      match audited with
      | inr _ => mret {| pg_done := pg_done p ++ [stepName]; pg_failed := pg_failed p; pg_context := context; pg_stuck := pg_stuck p |}
      | inl err =>
          try_catch
            (insertWorkflowTransitionAudit workflowId (Some stepName) (stepName +:+ "_compensation_failed") "COMPENSATION_FAILED";; mret ())
            (λ _, mret ());;
          mret {| pg_done := pg_done p; pg_failed := pg_failed p ++ [(stepName, exn_message err)]; pg_context := context;
                  pg_stuck := pg_stuck p || ESCROW_CRITICAL_STEPS stepName |}
      end
  end.

Fixpoint compensate_steps (workflowId : string) (cause : exn) (allSteps : list CompensationStep) (names : list string) (p : progress)
    : M cworld progress :=
  match names with
  | [] => mret p
  | n :: names' => p' ← compensate_step workflowId cause allSteps n p; compensate_steps workflowId cause allSteps names' p'
  end.

(** The record pushed to the dead letter queue, of which the queue keeps the
    identifiers, the status and the context. *)
Definition stuck_record (workflowId : string) (cause : exn) (p : progress) (now : Z) : SagaRecord PurchaseContext :=
  let stuckStep := List.find (λ f, ESCROW_CRITICAL_STEPS f.1) (pg_failed p) in
  Build_SagaRecord workflowId workflowId purchase failed (fst <$> stuckStep)
    ((λ step, Build_CompletedStep step step_compensated (pg_context p) now None) <$> pg_done p) (pg_context p) 0 ""
    (Some (from_option snd (exn_message cause) stuckStep)) None None now now.

Definition runCompensation (workflowId : string) (completedStepNames : list string) (context : PurchaseContext) (cause : exn)
    (allSteps : list CompensationStep) : M cworld CompensationResult :=
  p ← compensate_steps workflowId cause allSteps (rev completedStepNames)
        {| pg_done := []; pg_failed := []; pg_context := context; pg_stuck := false |};
  let status := if bool_decide (pg_failed p = []) then co_success else co_partial_failure in
  try_catch
    (upsertCompensationOutcome workflowId (if pg_stuck p then co_escrow_stuck else status) (pg_done p) (pg_failed p)
       (Some (exn_message cause));; mret ())
    (λ _, mret ());;
  (if pg_stuck p then
     let stuckStep := List.find (λ f, ESCROW_CRITICAL_STEPS f.1) (pg_failed p) in
     try_catch
       (now ← gets cp_now;
        moveToDeadLetter (stuck_record workflowId cause p now)
          ("Escrow compensation stuck: " +:+ from_option fst "unknown step" stuckStep +:+ " — " +:+
           from_option snd (exn_message cause) stuckStep);; mret ())
       (λ _, mret ())
   else mret ());;
  mret {| cr_status := status; cr_compensatedSteps := pg_done p; cr_failedSteps := pg_failed p; cr_finalContext := pg_context p;
          cr_escrowStuck := pg_stuck p |}.
End compensation.

(** ** Retries within a budget *)

Definition NonRetryableError (m : string) : exn := Exn "NonRetryableError" m.

Section budget.
Context {S T : Type} (now : S → Z) (sleep : Z → M S ()) (fn : M S T) (deadlineMs baseDelayMs maxDelayMs : Z).

Definition backoff_delay (attempt : Z) : Z := Z.min (baseDelayMs * 2 ^ (attempt - 1)) maxDelayMs.

(** [attempt] attempts were made before; [None] when the fuel is spent. *)
Fixpoint budget_loop (fuel : nat) (start attempt : Z) : M S (option T) :=
  match fuel with
  | O => mret None
  | Datatypes.S fuel' =>
      let attempt' := attempt + 1 in
      res ← outcome fn;
      match res with
      | inr v => mret (Some v)
      | inl lastError =>
          if String.eqb (exn_name lastError) "NonRetryableError" then throw lastError
          else
            t ← gets now;
            let delay := backoff_delay attempt' in
            if deadlineMs <=? (t - start) + delay then throw lastError
            else sleep delay;; budget_loop fuel' start attempt'
      end
  end.

(** One round of fuel per millisecond of the deadline, and two more. *)
Definition retryWithLeaseBudget : M S (option T) :=
  start ← gets now;
  budget_loop (Z.to_nat deadlineMs + 2) start 0.
End budget.
