(* ===== verification/CompensationCorrect.v ===== *)
(** * What the compensation of a purchase guarantees

    A relational specification of a compensation run, the refinement of
    [runCompensation] against it, the termination of the budgeted retries, and what the
    default steps do to the money. *)
From S2P Require Import Prelude JsLib PaymentRecords ChainClient EscrowService EscrowServiceCorrect Settlement SettlementCorrect.
From S2P Require Import Saga Purchase Compensation.
Local Open Scope Z_scope.

(** ** Specification *)

(** The outcome of a step: compensated, or failed with a message. *)
Definition step_outcome : Type := string * option string.

Section spec.
Context (cause : exn) (steps : list CompensationStep).

(** Compensating the named steps, in this order, from a context and a state of the
    payments service. *)
Inductive compensates : list string → PurchaseContext → sworld → list step_outcome → PurchaseContext → sworld → Prop :=
| comp_nil c s : compensates [] c s [] c s
| comp_unknown n names c s os c' s' :
    step_get steps n = None → compensates names c s os c' s' →
    compensates (n :: names) c s ((n, Some "No compensator registered") :: os) c' s'
| comp_done n names step c s c1 s1 os c' s' w w1 :
    step_get steps n = Some step → cp_pay w = s → cs_compensate step c cause w = (inr c1, w1) → cp_pay w1 = s1 →
    compensates names c1 s1 os c' s' → compensates (n :: names) c s ((n, None) :: os) c' s'
| comp_failed n names step c s e s1 os c' s' w w1 :
    step_get steps n = Some step → cp_pay w = s → cs_compensate step c cause w = (inl e, w1) → cp_pay w1 = s1 →
    compensates names c s1 os c' s' → compensates (n :: names) c s ((n, Some (exn_message e)) :: os) c' s'.

Definition compensated_names (os : list step_outcome) : list string :=
  omap (λ o, match o.2 with None => Some o.1 | Some _ => None end) os.
Definition failed_names (os : list step_outcome) : list (string * string) := omap (λ o, (λ m, (o.1, m)) <$> o.2) os.

Definition registered (n : string) : bool := bool_decide (is_Some (step_get steps n)).

(** A critical step that has a compensator failed. *)
Definition stuck (os : list step_outcome) : bool :=
  existsb (λ o, bool_decide (is_Some o.2) && registered o.1 && ESCROW_CRITICAL_STEPS o.1) os.

(** What the audit trail says of the steps that have a compensator. *)
Definition trail (os : list step_outcome) : list (option string * string * string) :=
  (λ o, (Some o.1, o.1 +:+ match o.2 with None => "_compensated" | Some _ => "_compensation_failed" end,
         match o.2 with None => "COMPENSATION" | Some _ => "COMPENSATION_FAILED" end)) <$>
  List.filter (λ o, registered o.1) os.
Definition audit_text (r : WorkflowTransitionAuditRecord) : option string * string * string := (wa_fromState r, wa_toState r, wa_eventType r).
End spec.

(** ** Steps that only use the payments service *)

Section refine.
Context `{CE : CompensationEnv}.
Implicit Types w : cworld.

(** The rest of the state. *)
Definition same_trail w w' : Prop :=
  cp_audit w' = cp_audit w ∧ cp_outcomes w' = cp_outcomes w ∧ cp_dlq w' = cp_dlq w ∧ cp_uuids w' = cp_uuids w.

#[local] Instance same_trail_preorder : PreOrder same_trail.
Proof. split; [done |]. intros a b c (? & ? & ? & ?) (? & ? & ? & ?). split_and!; congruence. Qed.

Lemma on_payments_trail {A} (c : M sworld A) : evolves same_trail (on_payments c).
Proof. intros w. unfold on_payments, zoom. by destruct (c (cp_pay w)). Qed.
#[local] Hint Resolve on_payments_trail : evolve.

Lemma post_order_trail m c : evolves same_trail (post_order m c).
Proof. unfold post_order. evolve. Qed.
#[local] Hint Resolve post_order_trail : evolve.

Definition quiet_step (s : CompensationStep) : Prop := ∀ c e, evolves same_trail (cs_compensate s c e).

Lemma default_steps_quiet : Forall quiet_step DEFAULT_PURCHASE_COMPENSATION_STEPS.
Proof.
  unfold DEFAULT_PURCHASE_COMPENSATION_STEPS, createDefaultPurchaseCompensationSteps.
  rewrite !Forall_cons. split_and!; [| | | by apply Forall_nil]; intros c e; simpl;
    unfold client_release, client_refund, default_merchant_cancel; evolve.
Qed.

Lemma step_get_quiet steps n s : Forall quiet_step steps → step_get steps n = Some s → quiet_step s.
Proof.
  intros Hq Hs. apply List.find_some in Hs as [Hin _]. rewrite <-in_rev in Hin. apply list_elem_of_In in Hin.
  rewrite Forall_forall in Hq. by apply Hq.
Qed.

(** ** One step *)

Lemma audit_run wf f t ev w :
  blank wf = false → blank t = false → blank ev = false →
  ∃ r w', insertWorkflowTransitionAudit wf f t ev w = (inr r, w') ∧ audit_text r = (f, t, ev) ∧
    cp_pay w' = cp_pay w ∧ cp_audit w' = cp_audit w ++ [r] ∧ cp_outcomes w' = cp_outcomes w ∧ cp_dlq w' = cp_dlq w.
Proof.
  intros H1 H2 H3. unfold insertWorkflowTransitionAudit. rewrite H1, H2, H3. do 6 (erewrite bind_run by done). by eexists _, _.
Qed.

(** A text that ends in a letter is not blank. *)
Lemma trim_snoc l c : is_ws c = false → trim_chars (l ++ [c]) ≠ [].
Proof.
  intros Hc. unfold trim_chars. assert (H : ∃ x, drop_while is_ws (l ++ [c]) = x ++ [c]).
  { induction l as [| d l [x IH]]; simpl; [rewrite Hc; by exists [] |]. destruct (is_ws d); [by exists x |]. by exists (d :: l). }
  destruct H as [x ->]. rewrite rev_app_distr. simpl. rewrite Hc. destruct (rev x); simpl; [done |]. intros H. by apply app_eq_nil in H as [_ H].
Qed.

Lemma suffix_not_blank n s c : is_ws c = false → blank (n +:+ (s +:+ String c EmptyString)) = false.
Proof.
  intros Hc. unfold blank, trim. destruct (String.eqb_spec (of_chars (trim_chars (chars (n +:+ (s +:+ String c EmptyString))))) "") as [E |]; [| done].
  exfalso. apply (f_equal chars) in E. rewrite chars_of_chars, !chars_app, (assoc_L (++)) in E. by apply trim_snoc in E.
Qed.

Lemma compensate_step_run wf cause steps n p w :
  blank wf = false → Forall quiet_step steps →
  ∃ o c1 w' rows, compensate_step wf cause steps n p w =
      (inr {| pg_done := pg_done p ++ compensated_names [o]; pg_failed := pg_failed p ++ failed_names [o]; pg_context := c1;
              pg_stuck := pg_stuck p || stuck steps [o] |}, w') ∧
    o.1 = n ∧ cp_audit w' = cp_audit w ++ rows ∧ audit_text <$> rows = trail steps [o] ∧
    cp_outcomes w' = cp_outcomes w ∧ cp_dlq w' = cp_dlq w ∧
    (∀ names os c' s', compensates cause steps names c1 (cp_pay w') os c' s' →
       compensates cause steps (n :: names) (pg_context p) (cp_pay w) (o :: os) c' s').
Proof.
  intros Hwf Hq. unfold compensate_step, trail, stuck, registered. destruct (step_get steps n) as [step |] eqn:Hs.
  2:{ exists (n, Some "No compensator registered"), (pg_context p), w, []. simpl. rewrite Hs. simpl. rewrite orb_false_r, !app_nil_r.
      split_and!; try done. intros. by apply comp_unknown. }
  pose proof (step_get_quiet steps n step Hq Hs (pg_context p) cause w) as (Ha & Ho & Hd & _).
  destruct (cs_compensate step (pg_context p) cause w) as [[e | c1] w1] eqn:Hrun; simpl in Ha, Ho, Hd.
  - erewrite bind_run; [| unfold outcome; rewrite Hrun; done]. erewrite bind_run by done. cbv zeta.
    destruct (audit_run wf (Some n) (n +:+ "_compensation_failed") "COMPENSATION_FAILED" w1 Hwf (suffix_not_blank n "_compensation_faile" "d" eq_refl) eq_refl)
      as (r & w2 & Hr & Ht & Hp2 & Ha2 & Ho2 & Hd2).
    erewrite bind_run; [| unfold try_catch; erewrite bind_run by exact Hr; done].
    exists (n, Some (exn_message e)), (pg_context p), w2, [r]. simpl. rewrite Hs. simpl. rewrite orb_false_r, app_nil_r.
    split_and!; try done; [by rewrite Ha2, Ha | by rewrite Ht | by rewrite Ho2 | by rewrite Hd2 |].
    intros names os c' s' H. rewrite Hp2 in H. exact (comp_failed cause steps n names step (pg_context p) (cp_pay w) e (cp_pay w1) os c' s' w w1 Hs eq_refl Hrun eq_refl H).
  - erewrite bind_run; [| unfold outcome; rewrite Hrun; done].
    destruct (audit_run wf (Some n) (n +:+ "_compensated") "COMPENSATION" w1 Hwf (suffix_not_blank n "_compensate" "d" eq_refl) eq_refl)
      as (r & w2 & Hr & Ht & Hp2 & Ha2 & Ho2 & Hd2).
    erewrite bind_run; [| unfold outcome; rewrite Hr; done].
    exists (n, None), c1, w2, [r]. simpl. rewrite Hs. simpl. rewrite orb_false_r, app_nil_r.
    split_and!; try done; [by rewrite Ha2, Ha | by rewrite Ht | by rewrite Ho2 | by rewrite Hd2 |].
    intros names os c' s' H. rewrite Hp2 in H. exact (comp_done cause steps n names step (pg_context p) (cp_pay w) c1 (cp_pay w1) os c' s' w w1 Hs eq_refl Hrun eq_refl H).
Qed.

Lemma outcomes_app steps os os' :
  compensated_names (os ++ os') = compensated_names os ++ compensated_names os' ∧
  failed_names (os ++ os') = failed_names os ++ failed_names os' ∧
  trail steps (os ++ os') = trail steps os ++ trail steps os' ∧ stuck steps (os ++ os') = stuck steps os || stuck steps os'.
Proof.
  unfold compensated_names, failed_names, trail, stuck. rewrite !omap_app, List.filter_app, fmap_app, existsb_app. done.
Qed.

Lemma compensate_steps_run wf cause steps names p w :
  blank wf = false → Forall quiet_step steps →
  ∃ os c' w' rows, compensate_steps wf cause steps names p w =
      (inr {| pg_done := pg_done p ++ compensated_names os; pg_failed := pg_failed p ++ failed_names os; pg_context := c';
              pg_stuck := pg_stuck p || stuck steps os |}, w') ∧
    compensates cause steps names (pg_context p) (cp_pay w) os c' (cp_pay w') ∧ os.*1 = names ∧
    cp_audit w' = cp_audit w ++ rows ∧ audit_text <$> rows = trail steps os ∧ cp_outcomes w' = cp_outcomes w ∧ cp_dlq w' = cp_dlq w.
Proof.
  intros Hwf Hq. revert p w. induction names as [| n names IH]; intros p w; simpl.
  - exists [], (pg_context p), w, []. simpl. rewrite !app_nil_r, orb_false_r. split_and!; try done; [by destruct p | constructor].
  - destruct (compensate_step_run wf cause steps n p w Hwf Hq) as (o & c1 & w1 & rows1 & H1 & Hn & Ha1 & Ht1 & Ho1 & Hd1 & Hspec).
    erewrite bind_run by exact H1. set (p1 := Build_progress _ _ _ _).
    destruct (IH p1 w1) as (os & c' & w' & rows & H2 & Hc & Hns & Ha & Ht & Ho & Hd).
    destruct (outcomes_app steps [o] os) as (E1 & E2 & E3 & E4). simpl app in E1, E2, E3, E4.
    exists (o :: os), c', w', (rows1 ++ rows). rewrite E1, E2, E3, E4, fmap_cons, fmap_app.
    split_and!; [rewrite H2; unfold p1; cbn [pg_done pg_failed pg_context pg_stuck]; by rewrite <-!(assoc_L (++)), orb_assoc | by apply Hspec | by rewrite Hn, Hns |
      by rewrite Ha, Ha1, <-(assoc_L (++)) | by rewrite Ht1, Ht | by rewrite Ho, Ho1 | by rewrite Hd, Hd1].
Qed.

(** C36. A compensation run is complete and accounted for.  For every list of completed
    steps and every behaviour of the payments service, [runCompensation] returns; it
    attempted the steps in reverse order, going on after a failure; what it reports as
    compensated and as failed is what happened, in that order; each attempt has its row
    in the audit trail; the outcome of the run is on record with the number of runs;
    and the run is pushed to the dead letter queue exactly when the compensation of an
    escrow step failed. *)
Theorem compensation_exact wf completedSteps context cause steps w :
  blank wf = false → Forall quiet_step steps →
  ∃ r w' os rows o, runCompensation wf completedSteps context cause steps w = (inr r, w') ∧
    compensates cause steps (rev completedSteps) context (cp_pay w) os (cr_finalContext r) (cp_pay w') ∧
    cr_compensatedSteps r = compensated_names os ∧ cr_failedSteps r = failed_names os ∧
    (cr_status r = co_success ↔ failed_names os = []) ∧ cr_escrowStuck r = stuck steps os ∧
    cp_audit w' = cp_audit w ++ rows ∧ audit_text <$> rows = trail steps os ∧
    jget wf (cp_outcomes w') = Some o ∧ or_failedSteps o = failed_names os ∧
    or_attempts o = from_option or_attempts 0 (jget wf (cp_outcomes w)) + 1 ∧
    length (cp_dlq w') = (length (cp_dlq w) + if stuck steps os then 1 else 0)%nat.
Proof.
  intros Hwf Hq. unfold runCompensation.
  destruct (compensate_steps_run wf cause steps (rev completedSteps)
    {| pg_done := []; pg_failed := []; pg_context := context; pg_stuck := false |} w Hwf Hq)
    as (os & c' & w1 & rows & H1 & Hc & _ & Ha & Ht & Ho & Hd). simpl in H1, Hc.
  erewrite bind_run by exact H1. cbv zeta. cbn [pg_done pg_failed pg_context pg_stuck].
  set (status := if bool_decide _ then _ else _). set (final := if stuck steps os then _ else _).
  erewrite bind_run; [| unfold try_catch, upsertCompensationOutcome; rewrite Hwf; reflexivity].
  set (w2 := CWorld _ _ _ _ _).
  assert (Hst : status = co_success ↔ failed_names os = []).
  { unfold status. destruct (bool_decide_reflect (failed_names os = [])); naive_solver. }
  destruct (stuck steps os) eqn:Hs.
  - erewrite bind_run; [| unfold try_catch, moveToDeadLetter; reflexivity]. eexists _, _, os, rows, _. split; [done |]. simpl.
    rewrite length_app, Hd, Ho, jget_jset_eq. simpl. split_and!; try done. by rewrite Hs.
  - erewrite bind_run by done. eexists _, _, os, rows, _. split; [done |]. simpl.
    rewrite Hd, Ho, jget_jset_eq. split_and!; try done. rewrite Hs. lia.
Qed.
End refine.

(** ** The budgeted retries end *)

Section budgeted.
Context {S T : Type} (now : S → Z) (sleep : Z → M S ()) (fn : M S T) (deadlineMs baseDelayMs maxDelayMs busy late : Z).
Context (Hdelays : 1 ≤ baseDelayMs ∧ 1 ≤ maxDelayMs).
(** An attempt takes at most [busy] milliseconds, and a timer fires at most [late] ones
    after its time. *)
Context (Hfn : ∀ s, now s ≤ now (fn s).2 ≤ now s + busy).
Context (Hsleep : ∀ d s, ∃ s', sleep d s = (inr (), s') ∧ now s + d ≤ now s' ≤ now s + d + late).

Lemma backoff_delay_bounds a : 1 ≤ a → 1 ≤ backoff_delay baseDelayMs maxDelayMs a ≤ maxDelayMs.
Proof.
  intros Ha. unfold backoff_delay. assert (0 < 2 ^ (a - 1)) by (apply Z.pow_pos_nonneg; lia). nia.
Qed.

(** An attempt is made before each sleep, and a sleep takes a millisecond at least. *)
Lemma budget_loop_ends (fuel : nat) start attempt s :
  0 ≤ attempt ≤ Z.max 0 deadlineMs → attempt ≤ now s - start → now s - start < Z.max 1 (deadlineMs + late) →
  Z.max 0 deadlineMs - attempt < Z.of_nat fuel →
  let '(r, s') := budget_loop now sleep fn deadlineMs baseDelayMs maxDelayMs fuel start attempt s in
  r ≠ inr None ∧ now s' - start < Z.max 1 (deadlineMs + late) + busy.
Proof.
  revert attempt s. induction fuel as [| fuel IH]; intros attempt s Ha Hs Hlt Hfuel; [lia |].
  simpl. unfold mbind, M_bind, outcome. pose proof (Hfn s) as Hb. destruct (fn s) as [[e | v] s1]; simpl in Hb; [| split; [done | lia]].
  destruct (String.eqb _ _); [split; [done | lia] |]. unfold gets. cbv zeta.
  pose proof (backoff_delay_bounds (attempt + 1) ltac:(lia)).
  destruct (Z.leb_spec deadlineMs (now s1 - start + backoff_delay baseDelayMs maxDelayMs (attempt + 1))) as [| Hgo]; [split; [done | lia] |].
  destruct (Hsleep (backoff_delay baseDelayMs maxDelayMs (attempt + 1)) s1) as (s2 & -> & H2). apply IH; lia.
Qed.

(** The budgeted retry ends, within its budget: for every operation and every
    deadline, [retryWithLeaseBudget] returns the result of an attempt or throws an
    error (its loop does not go on for ever), and it is over when the deadline, the
    lateness of the last timer and the time of the last attempt have passed. *)
Theorem budgeted_retry_ends s :
  let '(r, s') := retryWithLeaseBudget now sleep fn deadlineMs baseDelayMs maxDelayMs s in
  r ≠ inr None ∧ now s' - now s < Z.max 1 (deadlineMs + late) + busy.
Proof. unfold retryWithLeaseBudget. erewrite bind_run by done. apply budget_loop_ends; lia. Qed.
End budgeted.

(** The state is the clock and the number of attempts; the service answers the fourth
    attempt, after retries at 200, 400 and 800 milliseconds. *)
Definition flaky_attempt : M (Z * nat) string := λ s,
  ((if (s.2 <? 3)%nat then inl (Error "busy") else inr "done"), (s.1 + 7, S s.2)).
Definition clock_sleep (d : Z) : M (Z * nat) () := λ s, (inr (), (s.1 + d + 1, s.2)).

Lemma budgeted_retry_ends_witness :
  let retry d := retryWithLeaseBudget fst clock_sleep flaky_attempt d 200 5000 (0, 0%nat) in
  retry 20000 = (inr (Some "done"), (1431, 4%nat)) ∧ retry 1000 = (inl (Error "busy"), (623, 3%nat)) ∧
  (let '(r, s') := retry 1000 in r ≠ inr None ∧ s'.1 - 0 < 1008).
Proof.
  split; [by vm_compute |]. split; [by vm_compute |].
  apply (budgeted_retry_ends fst clock_sleep flaky_attempt 1000 200 5000 7 1); [lia | intros [t n]; simpl; lia |].
  intros d [t n]. eexists. split; [done |]. simpl. lia.
Defined.

(** ** Concrete runs *)

Definition compensation_env (down : bool) : CompensationEnv := {|
  cp_settlement := settle_env 0 (λ _, None); network_error := λ _, if down then Some "ECONNREFUSED" else None;
  audit_uuid := λ n, "audit-" +:+ dec (Z.of_nat n) |}.

Definition purchase_context : PurchaseContext := {|
  pc_workflowId := "o1"; pc_delegationId := "d1"; pc_userId := "u1"; pc_productId := None; pc_merchantId := None;
  pc_totalStroops := Some 1000; pc_escrowContractId := Some "CESCROW"; pc_rejectionReason := None; pc_createdAt := 0; pc_updatedAt := 0 |}.

Definition compensation_start : cworld := CWorld two_orders [] [] [] 0.

Definition compensate_with (down : bool) (completed : list string) (w : cworld) : (exn + CompensationResult) * cworld :=
  runCompensation (CE := compensation_env down) "o1" completed purchase_context (Error "settlement failed")
    (DEFAULT_PURCHASE_COMPENSATION_STEPS (CE := compensation_env down)) w.

(** Without the payments service both escrow steps fail, in reverse order, and the run
    is in the dead letter queue. *)
Lemma compensation_exact_witness :
  let '(r, w) := compensate_with true ["searchProducts"; "fundEscrow"; "confirmPurchase"; "settleEscrow"] compensation_start in
  (∃ x, r = inr x ∧ cr_compensatedSteps x = ["confirmPurchase"] ∧ (cr_failedSteps x).*1 = ["settleEscrow"; "fundEscrow"; "searchProducts"]) ∧
  length (cp_audit w) = 3%nat ∧ length (cp_dlq w) = 1%nat ∧
  ∃ r' w' os rows o, (r, w) = (inr r', w') ∧
    compensates (Error "settlement failed") (DEFAULT_PURCHASE_COMPENSATION_STEPS (CE := compensation_env true))
      ["settleEscrow"; "confirmPurchase"; "fundEscrow"; "searchProducts"] purchase_context two_orders os (cr_finalContext r') (cp_pay w') ∧
    cp_audit w' = rows ∧ audit_text <$> rows = trail (DEFAULT_PURCHASE_COMPENSATION_STEPS (CE := compensation_env true)) os ∧
    jget "o1" (cp_outcomes w') = Some o ∧ or_attempts o = 1.
Proof.
  destruct (compensation_exact (CE := compensation_env true) "o1" ["searchProducts"; "fundEscrow"; "confirmPurchase"; "settleEscrow"]
              purchase_context (Error "settlement failed") (DEFAULT_PURCHASE_COMPENSATION_STEPS (CE := compensation_env true))
              compensation_start eq_refl (default_steps_quiet (CE := compensation_env true)))
    as (r & w & os & rows & o & Hrun & Hc & _ & _ & _ & _ & Ha & Ht & Ho & _ & Hn & _).
  assert (Hrun' := Hrun). vm_compute in Hrun'. unfold compensate_with. rewrite Hrun. injection Hrun' as <- <-.
  split; [by eexists |]. split; [done |]. split; [done |]. eexists _, _, os, rows, o. by split_and!.
Defined.

(** A purchase that fails after its escrow was funded is compensated by releasing the
    escrow, to the seller: the run reports success, and the buyer is not refunded. *)
Theorem compensation_pays_seller :
  let '(r, w) := compensate_with false ["fundEscrow"] compensation_start in
  (∃ x, r = inr x ∧ cr_status x = co_success) ∧ (row_status <$> sw_rows (cp_pay w)) = [released; disputed] ∧
  (pe_type <$> sw_events (cp_pay w)) = ["escrow_released"].
Proof. vm_compute. split; [by eexists | done]. Qed.

(** When the settlement step completed, the escrow is released, and its compensation, a
    refund, is refused: every such run is stuck. *)
Theorem settled_purchase_stuck :
  let w0 := CWorld (settleOrder (SE := settle_env 0 (λ _, None)) "o1" two_orders).2 [] [] [] 0 in
  let '(r, w) := compensate_with false ["fundEscrow"; "settleEscrow"] w0 in
  ∃ x, r = inr x ∧ cr_escrowStuck x = true ∧ cr_compensatedSteps x = ["fundEscrow"] ∧
    cr_failedSteps x = [("settleEscrow", "Cannot refund order o1: escrow was already released")].
Proof. vm_compute. by eexists. Qed.
