(* ===== verification/Timeouts.v ===== *)
(** * Stuck workflows and the dead letter queue (apps/backend/orchestrator/workflows/timeout.ts)

    The scan of the saga store for workflows without activity, the callback that tries
    to compensate them, the dead letter queue; and the theorem that no stuck workflow is
    lost, with [resume] of the saga coordinator as the callback. *)
From S2P Require Import Prelude JsLib Saga Compensation.
Local Open Scope Z_scope.

Definition DEFAULT_TIMEOUT_MS : Z := 30 * 60 * 1000.

Record StuckWorkflow := { sk_sagaId : string; sk_orderId : string; sk_status : SagaStatus; sk_stuckSinceMs : Z }.
Record TimeoutProcessorResult := { tp_compensated : list string; tp_movedToDlq : list string }.

(** The saga store and the dead letter queue. *)
Record tworld (C : Type) := TWorld { tm_sagas : sagas C; tm_dlq : list (DeadLetterEntry C) }.
Arguments TWorld {C}.
Arguments tm_sagas {C}.
Arguments tm_dlq {C}.

(** [Math.round(ms / 1000)] *)
Definition round_seconds (ms : Z) : Z := (ms + 500) / 1000.

Section timeouts.
Context {C : Type}.
Implicit Types (r : SagaRecord C) (w : tworld C).

Definition on_store {A} (c : M (sagas C) A) : M (tworld C) A := zoom tm_sagas (λ s w, TWorld s (tm_dlq w)) c.

Definition stuck_workflow (now : Z) r : StuckWorkflow :=
  {| sk_sagaId := sr_sagaId r; sk_orderId := sr_orderId r; sk_status := sr_status r; sk_stuckSinceMs := now - sr_updatedAt r |}.

Definition findStuckWorkflows (timeoutMs : Z) : M (tworld C) (list StuckWorkflow) :=
  records ← on_store listIncomplete;
  now ← gets (λ w, sg_now (tm_sagas w));
  mret (stuck_workflow now <$> List.filter (λ r, timeoutMs <=? now - sr_updatedAt r) records).

Definition push_dead_letter r (reason : string) : M (tworld C) (DeadLetterEntry C) :=
  now ← gets (λ w, sg_now (tm_sagas w));
  let entry := dead_letter r reason now in
  modify (λ w, TWorld (tm_sagas w) (tm_dlq w ++ [entry]));;
  mret entry.

Definition listDeadLetterEntries : M (tworld C) (list (DeadLetterEntry C)) := gets tm_dlq.

Definition stuck_reason (item : StuckWorkflow) : string :=
  "Workflow stuck for " +:+ dec (round_seconds (sk_stuckSinceMs item)) +:+ "s — automatic compensation unavailable".

Definition process_stuck (tryCompensate : option (string → M (sagas C) bool)) (acc : TimeoutProcessorResult) (item : StuckWorkflow)
    : M (tworld C) TimeoutProcessorResult :=
  compensationSucceeded ←
    match tryCompensate with
    | Some f => try_catch (on_store (f (sk_sagaId item))) (λ _, mret false)
    | None => mret false
    end;
  if (compensationSucceeded : bool)
  then mret {| tp_compensated := tp_compensated acc ++ [sk_sagaId item]; tp_movedToDlq := tp_movedToDlq acc |}
  else
    found ← on_store (store_get (sk_sagaId item));
    match found with
    | Some record => push_dead_letter record (stuck_reason item);; mret ()
    | None => mret ()
    end;;
    mret {| tp_compensated := tp_compensated acc; tp_movedToDlq := tp_movedToDlq acc ++ [sk_sagaId item] |}.

Fixpoint process_all (tryCompensate : option (string → M (sagas C) bool)) (acc : TimeoutProcessorResult) (stuck : list StuckWorkflow)
    : M (tworld C) TimeoutProcessorResult :=
  match stuck with
  | [] => mret acc
  | item :: stuck' => acc' ← process_stuck tryCompensate acc item; process_all tryCompensate acc' stuck'
  end.

Definition processTimedOutWorkflows (tryCompensate : option (string → M (sagas C) bool)) (timeoutMs : Z)
    : M (tworld C) TimeoutProcessorResult :=
  stuck ← findStuckWorkflows timeoutMs;
  process_all tryCompensate {| tp_compensated := []; tp_movedToDlq := [] |} stuck.
End timeouts.

(** ** What the callback may do to the store *)

Section store.
Context {C : Type} (co : SagaCoordinator C).
Implicit Types (r : SagaRecord C) (w : sagas C).

(** A record is stored once, under its own identifier. *)
Definition keyed w : Prop := NoDup (jkeys (sg_records w)) ∧ ∀ id r, jget id (sg_records w) = Some r → sr_sagaId r = id.

(** The store stays well-formed and no record disappears. *)
Definition keeps_records w w' : Prop :=
  (keyed w → keyed w') ∧ ∀ id, is_Some (jget id (sg_records w)) → is_Some (jget id (sg_records w')).

#[local] Instance keeps_records_preorder : PreOrder keeps_records.
Proof. split; [by intros w; split |]. intros a b c [H1 H2] [H3 H4]. split; auto. Qed.

Lemma keeps_same w w' : sg_records w' = sg_records w → keeps_records w w'.
Proof. intros H. unfold keeps_records, keyed. by rewrite H. Qed.

Lemma put_keeps r w : keeps_records w (put_record (sr_sagaId r) r w).
Proof.
  split.
  - intros [Hnd Hk]. split; simpl; [by apply NoDup_jset |]. intros id x. rewrite jget_jset. case_decide; naive_solver.
  - intros id H. simpl. rewrite jget_jset. case_decide; [by eexists | done].
Qed.

Lemma save_keeps r : evolves keeps_records (save r).
Proof.
  intros w. unfold save, store_save. run_unfold. destruct (jget (sr_sagaId r) (sg_records w)) as [e |]; [| done].
  destruct (sr_version e =? sr_version r); [| done]. apply (put_keeps (with_version (sr_version r + 1) r)).
Qed.

Lemma event_keeps r ty f t p : evolves keeps_records (recordEvent r ty f t p).
Proof. intros w. by apply keeps_same. Qed.

Lemma perform_keeps e (a : list effect → N * (exn + C)) : evolves keeps_records (perform e a).
Proof. intros w. unfold perform. destruct (a (sg_effects w)). by apply keeps_same. Qed.

Lemma sleep_keeps ms : evolves keeps_records (sleep ms : M (sagas C) ()).
Proof. intros w. by apply keeps_same. Qed.
#[local] Hint Resolve save_keeps event_keeps perform_keeps sleep_keeps : evolve.

Lemma claim_keeps r s : evolves keeps_records (claimStep co r s).
Proof. unfold claimStep. evolve. Qed.

Lemma attempts_keeps s c last n : evolves keeps_records (attempts s c last n).
Proof. revert last. induction n as [| n IH]; intros last; simpl; evolve. Qed.

Lemma roll_back_keeps cs s r : evolves keeps_records (roll_back cs s r).
Proof. unfold roll_back. evolve. Qed.
#[local] Hint Resolve claim_keeps attempts_keeps roll_back_keeps : evolve.

Lemma compensate_keeps todo r : evolves keeps_records (compensate_from co todo r).
Proof. revert r. induction todo as [| cs todo IH]; intros r; simpl; evolve. Qed.
#[local] Hint Resolve compensate_keeps : evolve.

Lemma advance_keeps names r : evolves keeps_records (advance_from co names r).
Proof. revert r. induction names as [| n names IH]; intros r; simpl; unfold executeWithRetry, compensate; evolve. Qed.
#[local] Hint Resolve advance_keeps : evolve.

(** [resume] of the coordinator may be the callback. *)
Lemma resume_keeps id : evolves keeps_records (resume co id).
Proof. unfold resume, store_get, advance, compensate. evolve. Qed.

(** ** No stuck workflow is lost *)

Lemma process_stuck_run try acc item (t : tworld C) :
  (∀ f id, try = Some f → evolves keeps_records (f id)) → keyed (tm_sagas t) → is_Some (jget (sk_sagaId item) (sg_records (tm_sagas t))) →
  ∃ (ok : bool) t' es,
    process_stuck try acc item t =
      (inr {| tp_compensated := tp_compensated acc ++ (if ok then [sk_sagaId item] else []);
              tp_movedToDlq := tp_movedToDlq acc ++ (if ok then [] else [sk_sagaId item]) |}, t') ∧
    tm_dlq t' = tm_dlq t ++ es ∧ dl_sagaId <$> es = (if ok then [] else [sk_sagaId item]) ∧
    (ok = true → ∃ f s s', try = Some f ∧ f (sk_sagaId item) s = (inr true, s')) ∧ keeps_records (tm_sagas t) (tm_sagas t').
Proof.
  intros Hf Hk Hs. unfold process_stuck.
  set (attempt := match try with Some f => _ | None => _ end).
  assert (H : ∃ (ok : bool) t1, attempt t = (inr ok, t1) ∧ tm_dlq t1 = tm_dlq t ∧ keeps_records (tm_sagas t) (tm_sagas t1) ∧
    (ok = true → ∃ f s s', try = Some f ∧ f (sk_sagaId item) s = (inr true, s'))).
  { unfold attempt. destruct try as [f |]; [| by exists false, t].
    pose proof (Hf f (sk_sagaId item) eq_refl (tm_sagas t)) as Hev. unfold try_catch, on_store, zoom.
    destruct (f (sk_sagaId item) (tm_sagas t)) as [[e | ok] s'] eqn:Hrun; simpl in Hev; eexists _, _; split_and!; try done.
    intros ->. by eexists f, _, _. }
  destruct H as (ok & t1 & Hrun & Hd & Hkeep & Hok). erewrite bind_run by exact Hrun. destruct ok.
  - exists true, t1, []. rewrite !app_nil_r. by split_and!.
  - destruct Hkeep as [Hk1 Hs1]. destruct (Hs1 _ Hs) as [rec Hrec].
    erewrite bind_run; [| unfold on_store, zoom; simpl; rewrite Hrec; done].
    eexists false, _, [_]. rewrite app_nil_r. split; [done |]. simpl. rewrite Hd.
    split_and!; try done. simpl. f_equal. by apply (proj2 (Hk1 Hk)).
Qed.

Lemma process_all_run try acc items (t : tworld C) :
  (∀ f id, try = Some f → evolves keeps_records (f id)) → keyed (tm_sagas t) →
  Forall (λ i, is_Some (jget (sk_sagaId i) (sg_records (tm_sagas t)))) items →
  ∃ done moved t' es,
    process_all try acc items t = (inr {| tp_compensated := tp_compensated acc ++ done; tp_movedToDlq := tp_movedToDlq acc ++ moved |}, t') ∧
    tm_dlq t' = tm_dlq t ++ es ∧ dl_sagaId <$> es = moved ∧ done ++ moved ≡ₚ sk_sagaId <$> items ∧
    (∀ id, id ∈ done → ∃ f s s', try = Some f ∧ f id s = (inr true, s')).
Proof.
  intros Hf. revert acc t. induction items as [| i items IH]; intros acc t Hk Hall; simpl.
  { exists [], [], t, []. rewrite !app_nil_r. split_and!; try done; [by destruct acc |]. by intros id ?%elem_of_nil. }
  apply Forall_cons in Hall as [Hi Hall]. destruct (process_stuck_run try acc i t Hf Hk Hi) as (ok & t1 & es1 & H1 & Hd1 & He1 & Hok & Hk1 & Hs1).
  erewrite bind_run by exact H1.
  destruct (IH {| tp_compensated := tp_compensated acc ++ (if ok then [sk_sagaId i] else []);
                  tp_movedToDlq := tp_movedToDlq acc ++ (if ok then [] else [sk_sagaId i]) |} t1)
    as (dn & mv & t' & es & H2 & Hd & He & Hp & Hc); [by apply Hk1 | eapply Forall_impl; [exact Hall |]; auto |].
  exists ((if ok then [sk_sagaId i] else []) ++ dn), ((if ok then [] else [sk_sagaId i]) ++ mv), t', (es1 ++ es).
  rewrite H2. cbn [tp_compensated tp_movedToDlq]. rewrite <-!(assoc_L (++)), Hd, Hd1, <-(assoc_L (++)), fmap_app, He1, He.
  split_and!; try done.
  - rewrite <-Hp. destruct ok; simpl; [done |]. by rewrite Permutation_middle.
  - intros id [H | H]%elem_of_app; [| by apply Hc]. destruct ok; [| by apply elem_of_nil in H].
    apply list_elem_of_singleton in H as ->. by apply Hok.
Qed.

(** The records of a well-formed store. *)
Lemma keyed_value w r : keyed w → r ∈ jvalues (sg_records w) ↔ jget (sr_sagaId r) (sg_records w) = Some r.
Proof.
  intros [Hnd Hk]. unfold jvalues. rewrite list_elem_of_fmap. split.
  - intros ([id x] & -> & Hin). simpl. apply elem_jget in Hin; [| done]. by rewrite (Hk _ _ Hin).
  - intros H%jget_elem. by exists (sr_sagaId r, r).
Qed.

Lemma keyed_ids w : keyed w → sr_sagaId <$> jvalues (sg_records w) = jkeys (sg_records w).
Proof.
  intros [Hnd Hk]. unfold jvalues, jkeys in *. rewrite <-list_fmap_compose. apply list_fmap_ext. intros i [id r] Hi. simpl.
  apply Hk, elem_jget; [done |]. by eapply list_elem_of_lookup_2.
Qed.

Lemma filter_ids_NoDup (p : SagaRecord C → bool) l : NoDup (sr_sagaId <$> l) → NoDup (sr_sagaId <$> List.filter p l).
Proof.
  induction l as [| r l IH]; simpl; [done |]. rewrite NoDup_cons. intros [Hr Hnd]. destruct (p r); simpl; [| auto].
  apply NoDup_cons. split; [| auto]. intros (x & Hx & Hin)%list_elem_of_fmap. apply Hr, list_elem_of_fmap. exists x. split; [done |].
  apply list_elem_of_In, List.filter_In in Hin as [Hin _]. by apply list_elem_of_In.
Qed.

(** No stuck workflow is lost.  A scan, with any callback that keeps the records of
    the store, returns; the workflows it reports are, once each, the incomplete ones
    without activity since the timeout; each of them was either compensated, the
    callback having said so, or has an entry of its own in the dead letter queue, which
    only grows. *)
Theorem stuck_workflows_accounted try timeoutMs (t : tworld C) :
  (∀ f id, try = Some f → evolves keeps_records (f id)) → keyed (tm_sagas t) →
  ∃ (r : TimeoutProcessorResult) t' es, processTimedOutWorkflows try timeoutMs t = (inr r, t') ∧
    NoDup (tp_compensated r ++ tp_movedToDlq r) ∧
    (∀ id, id ∈ tp_compensated r ++ tp_movedToDlq r ↔
       ∃ rec, jget id (sg_records (tm_sagas t)) = Some rec ∧ incomplete rec = true ∧
         timeoutMs ≤ sg_now (tm_sagas t) - sr_updatedAt rec) ∧
    (∀ id, id ∈ tp_compensated r → ∃ f s s', try = Some f ∧ f id s = (inr true, s')) ∧
    tm_dlq t' = tm_dlq t ++ es ∧ dl_sagaId <$> es = tp_movedToDlq r.
Proof.
  intros Hf [Hnd Hk]. set (now := sg_now (tm_sagas t)). set (recs := sg_records (tm_sagas t)) in *.
  set (old := List.filter (λ r, timeoutMs <=? now - sr_updatedAt r) (List.filter incomplete (jvalues recs))).
  assert (Hrun : findStuckWorkflows timeoutMs t = (inr (stuck_workflow now <$> old), t)) by (by destruct t).
  assert (Hin : ∀ r, r ∈ old ↔ jget (sr_sagaId r) recs = Some r ∧ incomplete r = true ∧ timeoutMs ≤ now - sr_updatedAt r).
  { intros r. unfold old. pose proof (keyed_value (tm_sagas t) r (conj Hnd Hk)) as Hv. fold recs in Hv.
    rewrite list_elem_of_In, !List.filter_In, <-list_elem_of_In, Hv, Z.leb_le. tauto. }
  unfold processTimedOutWorkflows. erewrite bind_run by exact Hrun.
  destruct (process_all_run try {| tp_compensated := []; tp_movedToDlq := [] |} (stuck_workflow now <$> old) t Hf (conj Hnd Hk))
    as (dn & mv & t' & es & H & Hd & He & Hp & Hc).
  { apply Forall_fmap, Forall_forall. intros r Hr. apply Hin in Hr as [Hr _]. by exists r. }
  assert (Hp' : dn ++ mv ≡ₚ sr_sagaId <$> old) by (rewrite Hp, <-list_fmap_compose; done).
  eexists _, t', es. split; [exact H |]. simpl. split_and!; try done.
  - rewrite Hp'. do 2 apply filter_ids_NoDup. unfold recs. by rewrite (keyed_ids (tm_sagas t)).
  - intros id. rewrite Hp', list_elem_of_fmap. split.
    + intros (r & -> & Hr). apply Hin in Hr. by exists r.
    + intros (r & Hr & Hi & Ht). pose proof (Hk id r Hr) as <-. exists r. split; [done |]. by apply Hin.
Qed.
End store.

(** ** A concrete scan *)

(** The callback of the documentation: resume the saga, and report success when it is
    compensated or completed. *)
Definition resume_and_report {C} (co : SagaCoordinator C) (id : string) : M (sagas C) bool :=
  r ← resume co id;
  mret (bool_decide (sr_status r = completed) || bool_decide (sr_status r = compensated)).

Definition plain_step (name : string) : SagaStep Z :=
  {| st_name := name; st_execute := λ _ c, (5%N, inr (c + 1)); st_compensate := λ _ c _, (5%N, inr (c - 1)); st_retryPolicy := None |}.
Definition short_saga : SagaCoordinator Z := {| co_steps := [plain_step "reserve"; plain_step "ship"]; co_claimLeaseMs := 30000; co_sagaTimeoutMs := 300000 |}.

Definition saga_at (id : string) (st : SagaStatus) (claim : option Z) (updated : Z) : SagaRecord Z :=
  Build_SagaRecord id ("order of " +:+ id) checkout st (Some "ship") [Build_CompletedStep "reserve" step_completed 1 5 (Some "reserve")]
    1 2 "corr" None None claim 0 updated.

(** Two hours on: "a" can be resumed, "b" is held by another runner, "c" is done and
    "d" has been active. *)
Definition busy_store : tworld Z :=
  TWorld (Sagas [("a", saga_at "a" running None 0); ("b", saga_at "b" running (Some 7300000) 0); ("c", saga_at "c" completed None 0);
                 ("d", saga_at "d" running None 7000000)] [] [] [] 7200000) [].

Lemma stuck_workflows_accounted_witness :
  let out := processTimedOutWorkflows (Some (resume_and_report short_saga)) DEFAULT_TIMEOUT_MS busy_store in
  out.1 = inr {| tp_compensated := ["a"]; tp_movedToDlq := ["b"] |} ∧ (dl_sagaId <$> tm_dlq out.2) = ["b"] ∧
  ∃ r t' es, out = (inr r, t') ∧ NoDup (tp_compensated r ++ tp_movedToDlq r) ∧ tm_dlq t' = es ∧ dl_sagaId <$> es = tp_movedToDlq r.
Proof.
  split; [by vm_compute |]. split; [by vm_compute |].
  destruct (stuck_workflows_accounted (Some (resume_and_report short_saga)) DEFAULT_TIMEOUT_MS busy_store)
    as (r & t' & es & H & Hnd & _ & _ & Hd & He); [| | by exists r, t', es].
  - intros f id [= <-]. pose proof (resume_keeps short_saga id) as Hr. pose proof (@keeps_records_preorder Z). unfold resume_and_report. evolve.
  - split; [by apply (bool_decide_unpack _); vm_compute |]. intros id r. simpl.
    repeat (case_match eqn:E; [apply String.eqb_eq in E as ->; by intros [= <-] | clear E]). done.
Defined.

(** A workflow in the dead letter queue is still incomplete: every scan adds it again. *)
Theorem dead_letters_repeat :
  let scan t := (processTimedOutWorkflows None DEFAULT_TIMEOUT_MS t).2 in
  (dl_sagaId <$> tm_dlq (scan (scan busy_store))) = ["a"; "b"; "a"; "b"].
Proof. by vm_compute. Qed.
