(* ===== verification/JsCollections.v ===== *)
(** * More of the JavaScript library: [Map.delete], [Set], prefixes of strings

    Shared by the components that keep a [Map] of mutable records. *)
From S2P Require Import Prelude JsLib.
Local Open Scope Z_scope.

(** ** [m.delete(k)] *)

Section jdel.
Context {V : Type}.
Implicit Types m : jsmap V.

Definition jdel (k : string) m : jsmap V := List.filter (λ kv, negb (String.eqb k kv.1)) m.

Lemma jget_jdel_eq k m : jget k (jdel k m) = None.
Proof.
  induction m as [| [k' v] m IH]; simpl; [done |]. destruct (String.eqb k k') eqn:E; simpl; [done |]. by rewrite E.
Qed.

Lemma jget_jdel_ne k k' m : k ≠ k' → jget k' (jdel k m) = jget k' m.
Proof.
  intros Hne. induction m as [| [k0 v] m IH]; simpl; [done |].
  destruct (String.eqb_spec k k0) as [-> | Hk]; simpl; [| by rewrite IH].
  destruct (String.eqb_spec k' k0); congruence.
Qed.

Lemma jget_jdel k k' m : jget k' (jdel k m) = if decide (k = k') then None else jget k' m.
Proof. case_decide; subst; [apply jget_jdel_eq | by apply jget_jdel_ne]. Qed.

Lemma jkeys_jdel_subset k k' m : k' ∈ jkeys (jdel k m) → k' ∈ jkeys m.
Proof.
  unfold jkeys. rewrite !list_elem_of_fmap. intros ([x v] & -> & Hin). exists (x, v). split; [done |].
  apply list_elem_of_In, List.filter_In in Hin as [Hin _]. by apply list_elem_of_In.
Qed.

Lemma NoDup_jdel k m : NoDup (jkeys m) → NoDup (jkeys (jdel k m)).
Proof.
  unfold jkeys. induction m as [| [k' v] m IH]; simpl; [done |]. rewrite NoDup_cons. intros [Hk Hnd].
  destruct (negb _); simpl; [| auto]. apply NoDup_cons. split; [| auto]. intros Hin. apply Hk. by apply (jkeys_jdel_subset k k' m).
Qed.
End jdel.

(** A property of every entry is kept by writing an entry that has it. *)
Definition jall {V} (P : string → V → Prop) (m : jsmap V) : Prop := ∀ k v, jget k m = Some v → P k v.

Lemma jall_nil {V} (P : string → V → Prop) : jall P [].
Proof. by intros k v. Qed.

Lemma jall_jset {V} (P : string → V → Prop) k v m : jall P m → P k v → jall P (jset k v m).
Proof. intros Hm Hv k' v'. rewrite jget_jset. case_decide; [| apply Hm]. intros [= <-]. by subst. Qed.

Lemma jall_jdel {V} (P : string → V → Prop) k m : jall P m → jall P (jdel k m).
Proof. intros Hm k' v'. rewrite jget_jdel. case_decide; [done | apply Hm]. Qed.

Lemma jall_impl {V} (P Q : string → V → Prop) m : (∀ k v, P k v → Q k v) → jall P m → jall Q m.
Proof. intros HPQ Hm k v Hk. by apply HPQ, Hm. Qed.

Lemma jset_jset {V} k (v v' : V) m : jset k v (jset k v' m) = jset k v m.
Proof.
  induction m as [| [k' x] m IH]; simpl; [by rewrite String.eqb_refl |].
  destruct (String.eqb k k') eqn:E; simpl; rewrite E; [done | by rewrite IH].
Qed.

(** Every value replaced in place. *)
Lemma jget_fmap {V} (f : V → V) k (m : list (string * V)) : jget k ((λ e : string * V, (e.1, f e.2)) <$> m) = f <$> jget k m.
Proof. induction m as [| [k' v] m IH]; simpl; [done |]. by destruct (String.eqb k k'). Qed.

(** ** [[...new Set(l)]]: the first occurrence of each element *)

Fixpoint uniq_from (seen l : list string) : list string :=
  match l with
  | [] => []
  | x :: l' => if bool_decide (x ∈ seen) then uniq_from seen l' else x :: uniq_from (x :: seen) l'
  end.
Definition uniq (l : list string) : list string := uniq_from [] l.

Lemma elem_of_uniq_from x seen l : x ∈ uniq_from seen l ↔ x ∈ l ∧ x ∉ seen.
Proof.
  revert seen. induction l as [| y l IH]; intros seen; simpl; [split; [by intros ?%elem_of_nil | by intros [?%elem_of_nil _]] |].
  case_bool_decide; rewrite ?elem_of_cons, IH, ?not_elem_of_cons; [| destruct (decide (x = y)); naive_solver].
  split; [naive_solver |]. intros [[-> | ?] ?]; done.
Qed.

Lemma elem_of_uniq x l : x ∈ uniq l ↔ x ∈ l.
Proof. unfold uniq. rewrite elem_of_uniq_from. pose proof (not_elem_of_nil x). tauto. Qed.

Lemma NoDup_uniq l : NoDup (uniq l).
Proof.
  unfold uniq. generalize ([] : list string). induction l as [| x l IH]; intros seen; simpl; [constructor |].
  case_bool_decide; [apply IH |]. constructor; [| apply IH]. rewrite elem_of_uniq_from, elem_of_cons. naive_solver.
Qed.

Lemma length_uniq_from seen l : (length (uniq_from seen l) ≤ length l)%nat.
Proof.
  revert seen. induction l as [| x l IH]; intros seen; simpl; [lia |].
  case_bool_decide; simpl; [specialize (IH seen) | specialize (IH (x :: seen))]; lia.
Qed.

Lemma uniq_from_full seen l : length (uniq_from seen l) = length l → uniq_from seen l = l.
Proof.
  revert seen. induction l as [| x l IH]; intros seen; simpl; [done |].
  case_bool_decide; simpl; intros Hlen; [pose proof (length_uniq_from seen l); lia |]. f_equal. apply IH. lia.
Qed.

(** ** Prefixes and suffixes *)

Definition startsWith (s p : string) : bool := String.prefix p s.
Definition endsWith (s p : string) : bool := String.prefix (of_chars (rev (chars p))) (of_chars (rev (chars s))).

(** A filter that drops nothing. *)
Lemma filter_full {A} (p : A → bool) (l : list A) : length (List.filter p l) = length l → List.filter p l = l.
Proof.
  induction l as [| x l IH]; simpl; [done |]. destruct (p x); simpl; intros H; [f_equal; apply IH; lia |].
  pose proof (List.filter_length_le p l). lia.
Qed.

(** ** Trimming twice *)

Lemma drop_while_idem {A} (p : A → bool) l : drop_while p (drop_while p l) = drop_while p l.
Proof. induction l as [| x l IH]; simpl; [done |]. destruct (p x) eqn:Hp; [done |]. simpl. by rewrite Hp. Qed.

Lemma drop_while_suffix {A} (p : A → bool) l : ∃ pre, l = pre ++ drop_while p l.
Proof.
  induction l as [| x l [pre IH]]; [by exists [] |]. simpl. destruct (p x); [exists (x :: pre); simpl; by rewrite <- IH | by exists []].
Qed.

Lemma trim_chars_idem l : trim_chars (trim_chars l) = trim_chars l.
Proof.
  unfold trim_chars. set (t := drop_while is_ws l). set (u := drop_while is_ws (rev t)).
  assert (drop_while is_ws (rev u) = rev u) as Hu.
  { destruct (drop_while_suffix is_ws (rev t)) as [pre Hpre]. fold u in Hpre. apply (f_equal (@rev _)) in Hpre.
    rewrite rev_involutive, rev_app_distr in Hpre. destruct (rev u) as [| x r]; [done |].
    pose proof (drop_while_idem is_ws l) as Ht. fold t in Ht. rewrite Hpre in Ht. simpl in Ht |- *. destruct (is_ws x); [| done].
    apply (f_equal length) in Ht. destruct (drop_while_suffix is_ws (r ++ rev pre)) as [q Hq].
    apply (f_equal length) in Hq. rewrite (length_app q) in Hq. simpl in Ht. lia. }
  rewrite Hu, rev_involutive. unfold u. by rewrite drop_while_idem.
Qed.

Lemma trim_idem s : trim (trim s) = trim s.
Proof. unfold trim, chars, of_chars. by rewrite list_ascii_of_string_of_list_ascii, trim_chars_idem. Qed.
