(* ===== verification/Disbursement.v ===== *)
(** * Approval of disbursements by officers (apps/backend/payments/src/disbursementApproval.ts)

    The [Map] of disbursements, the collection of officer signatures, the broadcast of a
    transaction through the wallet service and the sweep of stale approvals; and the
    theorem that nothing is broadcast without its quorum, if the required number of
    signatures is a number.  It comes from the body of the request unchecked, so it is
    modelled as any value.  Key parsing, signature verification and SHA-256 are
    parameters, as is what the wallet service answers. *)
From S2P Require Import Prelude JsLib JsCollections.
Local Open Scope Z_scope.

(** ** Records *)

Inductive DisbursementStatus := ds_pending | ds_collecting | ds_quorum_met | ds_broadcasting | ds_broadcast | ds_failed | ds_expired.

#[export] Instance DisbursementStatus_eq_dec : EqDecision DisbursementStatus.
Proof. solve_decision. Defined.

Definition disbursement_status_name (s : DisbursementStatus) : string :=
  match s with
  | ds_pending => "pending" | ds_collecting => "collecting" | ds_quorum_met => "quorum_met" | ds_broadcasting => "broadcasting"
  | ds_broadcast => "broadcast" | ds_failed => "failed" | ds_expired => "expired"
  end.

(** A value of a JSON body where the code compares and prints it: the number it converts
    to, a fraction, or [None] when that is not a number, and its text.  An infinite
    number compares like any number beyond the number of officers. *)
Record js_value := JsValue { jv_number : option (Z * positive); jv_text : string }.
Definition js_integer (z : Z) : js_value := JsValue (Some (z, 1%positive)) (dec z).

(** [v < k], [k < v] and [v <= k]; a comparison with NaN is false. *)
Definition js_lt (v : js_value) (k : Z) : bool := match jv_number v with Some (a, b) => a <? k * Zpos b | None => false end.
Definition js_gt (v : js_value) (k : Z) : bool := match jv_number v with Some (a, b) => k * Zpos b <? a | None => false end.
Definition js_le (v : js_value) (k : Z) : bool := match jv_number v with Some (a, b) => a <=? k * Zpos b | None => false end.

Record OfficerSignature := { of_officer : string; of_signature : string; of_signedAt : Z; of_signedPayloadHash : string }.

Record DisbursementState := {
  db_disbursementId : string; db_transactionXdr : string; db_officers : list string; db_requiredSignatures : js_value;
  db_collectedSignatures : list OfficerSignature; db_status : DisbursementStatus; db_createdAt : Z; db_updatedAt : Z;
  db_broadcastResult : option string; db_failureReason : option string
}.

Record CreateDisbursementApprovalInput := {
  cd_disbursementId : string; cd_transactionXdr : string; cd_officers : list string; cd_requiredSignatures : option js_value
}.

(** A POST to /tx/submit of the wallet service. *)
Record WalletSubmission := { wb_xdr : string; wb_signatures : list (string * string) }.

(** What it answers with: a status and a text, or a failed request. *)
Inductive wallet_submit_reply := SubmitUnreachable (e : exn) | SubmitReply (status : Z) (body : string) | SubmitNotJson (e : exn).

Record dworld := DWorld { dw_map : jsmap DisbursementState; dw_calls : list WalletSubmission; dw_now : Z }.

Class DisbursementEnv := {
  (** [Keypair.fromPublicKey] accepts the key *)
  valid_public_key : string → bool;
  (** [keypair.verify] of a key, a signature in base64 and a payload; a key that does
      not parse or a signature that does not decode verifies nothing *)
  keypair_verify : string → string → string → bool;
  sha256_hex : string → string;
  tx_submit : list WalletSubmission → WalletSubmission → wallet_submit_reply
}.

Definition DEFAULT_REQUIRED_SIGNATURES : Z := 2.
Definition SIGNATURE_TTL_MS : Z := 30 * 60 * 1000.

Definition DisbursementNotFoundError (id : string) : exn := Exn "DisbursementNotFoundError" ("Disbursement approval not found: " +:+ id).
Definition OfficerNotAuthorizedError (officer id : string) : exn :=
  Exn "OfficerNotAuthorizedError" ("Officer " +:+ officer +:+ " is not authorized for disbursement " +:+ id).
Definition DuplicateSignatureError (officer id : string) : exn :=
  Exn "DuplicateSignatureError" ("Officer " +:+ officer +:+ " has already signed disbursement " +:+ id).
Definition InvalidSignatureError (officer reason : string) : exn :=
  Exn "InvalidSignatureError" ("Invalid signature from officer " +:+ officer +:+ ": " +:+ reason).
Definition DisbursementClosedError (id : string) (st : DisbursementStatus) : exn :=
  Exn "DisbursementClosedError" ("Disbursement " +:+ id +:+ " is already " +:+ disbursement_status_name st).

(** ** Updates of the mutable record *)

Definition db_set (st : DisbursementStatus) (now : Z) (s : DisbursementState) : DisbursementState := {|
  db_disbursementId := db_disbursementId s; db_transactionXdr := db_transactionXdr s; db_officers := db_officers s;
  db_requiredSignatures := db_requiredSignatures s; db_collectedSignatures := db_collectedSignatures s; db_status := st;
  db_createdAt := db_createdAt s; db_updatedAt := now; db_broadcastResult := db_broadcastResult s;
  db_failureReason := db_failureReason s |}.
Definition db_push (sig : OfficerSignature) (now : Z) (s : DisbursementState) : DisbursementState := {|
  db_disbursementId := db_disbursementId s; db_transactionXdr := db_transactionXdr s; db_officers := db_officers s;
  db_requiredSignatures := db_requiredSignatures s; db_collectedSignatures := db_collectedSignatures s ++ [sig];
  db_status := db_status s; db_createdAt := db_createdAt s; db_updatedAt := now; db_broadcastResult := db_broadcastResult s;
  db_failureReason := db_failureReason s |}.
Definition db_finish (result : option string) (reason : option string) (s : DisbursementState) : DisbursementState := {|
  db_disbursementId := db_disbursementId s; db_transactionXdr := db_transactionXdr s; db_officers := db_officers s;
  db_requiredSignatures := db_requiredSignatures s; db_collectedSignatures := db_collectedSignatures s; db_status := db_status s;
  db_createdAt := db_createdAt s; db_updatedAt := db_updatedAt s;
  db_broadcastResult := match result with Some r => Some r | None => db_broadcastResult s end;
  db_failureReason := match reason with Some r => Some r | None => db_failureReason s end |}.

Section disbursement.
Context `{DE : DisbursementEnv}.

Definition computePayloadHash (disbursementId officer signature : string) : string :=
  sha256_hex (disbursementId +:+ ":" +:+ officer +:+ ":" +:+ signature).

Definition verifySignature (publicKey signature payload : string) : bool :=
  valid_public_key publicKey && keypair_verify publicKey signature payload.

(** The state in the [Map] is the object the callers mutate. *)
Definition put_state (id : string) (s : DisbursementState) : M dworld () :=
  modify (λ w, DWorld (jset id s (dw_map w)) (dw_calls w) (dw_now w)).

Definition blank_id (s : string) : bool := String.eqb (trim s) "".

Definition createDisbursementApproval (input : CreateDisbursementApprovalInput) : M dworld DisbursementState :=
  let officers := cd_officers input in
  throw_if (blank_id (cd_disbursementId input)) (Error "disbursementId is required");;
  throw_if (blank_id (cd_transactionXdr input)) (Error "transactionXdr is required");;
  throw_if (length officers <? 2)%nat (Error "At least 2 officers are required");;
  throw_if (10 <? length officers)%nat (Error "Maximum 10 officers allowed");;
  let uniqueOfficers := uniq (List.filter (λ o, negb (String.eqb o "")) (trim <$> officers)) in
  throw_if (negb (length uniqueOfficers =? length officers)%nat) (Error "Duplicate officer public keys are not allowed");;
  for_each uniqueOfficers (λ o,
    throw_if (negb (valid_public_key o)) (Error ("Invalid Stellar public key for officer: " +:+ o)));;
  let n := Z.of_nat (length uniqueOfficers) in
  let resolvedRequired := default (js_integer (Z.min DEFAULT_REQUIRED_SIGNATURES n)) (cd_requiredSignatures input) in
  throw_if (js_lt resolvedRequired 1 || js_gt resolvedRequired n)
    (Error ("requiredSignatures must be between 1 and " +:+ dec n +:+ " (number of officers)"));;
  now ← gets dw_now;
  let state := {|
    db_disbursementId := cd_disbursementId input; db_transactionXdr := cd_transactionXdr input; db_officers := uniqueOfficers;
    db_requiredSignatures := resolvedRequired; db_collectedSignatures := []; db_status := ds_collecting; db_createdAt := now;
    db_updatedAt := now; db_broadcastResult := None; db_failureReason := None |} in
  put_state (cd_disbursementId input) state;;
  mret state.

(** The request, with its place in the log of requests. *)
Definition submit_tx (r : WalletSubmission) : M dworld wallet_submit_reply := λ w,
  (inr (tx_submit (dw_calls w) r), DWorld (dw_map w) (dw_calls w ++ [r]) (dw_now w)).

Definition submission_of (s : DisbursementState) : WalletSubmission :=
  {| wb_xdr := db_transactionXdr s; wb_signatures := (λ g, (of_officer g, of_signature g)) <$> db_collectedSignatures s |}.

(** [broadcastDisbursement(state)], of the state stored under [id]. *)
Definition broadcastDisbursement (id : string) (state : DisbursementState) : M dworld DisbursementState :=
  now ← gets dw_now;
  let state1 := db_set ds_broadcasting now state in
  put_state id state1;;
  try_catch
    (res ← submit_tx (submission_of state1);
     result ← answer (match res with
                      | SubmitUnreachable e => inl e
                      | SubmitNotJson e => inl e
                      | SubmitReply status body =>
                          if (200 <=? status) && (status <=? 299) then inr body
                          else inl (Error ("Wallet service error: " +:+ dec status +:+ " " +:+ body))
                      end);
     let state2 := db_set ds_broadcast now (db_finish (Some result) None state1) in
     put_state id state2;;
     mret state2)
    (λ err,
     put_state id (db_set ds_failed now (db_finish None (Some (exn_message err)) state1));;
     throw err).

Definition collectOfficerSignature (disbursementId officer signature : string) : M dworld DisbursementState :=
  throw_if (String.eqb disbursementId "" || String.eqb officer "" || String.eqb signature "")
    (Error "disbursementId, officer, and signature are required");;
  found ← gets (λ w, jget disbursementId (dw_map w));
  state ← some_or_throw found (DisbursementNotFoundError disbursementId);
  throw_if (negb (bool_decide (db_status state = ds_collecting)) && negb (bool_decide (db_status state = ds_pending)))
    (DisbursementClosedError disbursementId (db_status state));;
  throw_if (negb (bool_decide (officer ∈ db_officers state))) (OfficerNotAuthorizedError officer disbursementId);;
  throw_if (bool_decide (officer ∈ of_officer <$> db_collectedSignatures state)) (DuplicateSignatureError officer disbursementId);;
  let payload := disbursementId +:+ ":" +:+ db_transactionXdr state in
  throw_if (negb (verifySignature officer signature payload)) (InvalidSignatureError officer "Signature verification failed");;
  now ← gets dw_now;
  let officerSig := {| of_officer := officer; of_signature := signature; of_signedAt := now;
                       of_signedPayloadHash := computePayloadHash disbursementId officer signature |} in
  let state1 := db_push officerSig now state in
  put_state disbursementId state1;;
  if js_le (db_requiredSignatures state1) (Z.of_nat (length (db_collectedSignatures state1))) then
    let state2 := db_set ds_quorum_met (db_updatedAt state1) state1 in
    put_state disbursementId state2;;
    broadcastDisbursement disbursementId state2
  else mret state1.

Definition getDisbursementState (disbursementId : string) : M dworld (option DisbursementState) :=
  gets (λ w, jget disbursementId (dw_map w)).

Definition submitDisbursementApproval (disbursementId : string) : M dworld DisbursementState :=
  found ← gets (λ w, jget disbursementId (dw_map w));
  state ← some_or_throw found (DisbursementNotFoundError disbursementId);
  if bool_decide (db_status state = ds_broadcast) then mret state
  else
    throw_if (js_gt (db_requiredSignatures state) (Z.of_nat (length (db_collectedSignatures state))))
      (Error ("Quorum not met: " +:+ dec (Z.of_nat (length (db_collectedSignatures state))) +:+ "/" +:+
              jv_text (db_requiredSignatures state) +:+ " signatures"));;
    broadcastDisbursement disbursementId state.

Definition stale (now : Z) (s : DisbursementState) : bool :=
  (bool_decide (db_status s = ds_collecting) || bool_decide (db_status s = ds_pending)) && (SIGNATURE_TTL_MS <? now - db_createdAt s).

Definition expireStaleDisbursements : M dworld Z :=
  now ← gets dw_now;
  entries ← gets dw_map;
  modify (λ w, DWorld ((λ e, (e.1, if stale now e.2 then db_set ds_expired now e.2 else e.2)) <$> dw_map w) (dw_calls w) (dw_now w));;
  mret (Z.of_nat (length (List.filter (λ e, stale now e.2) entries))).

Definition resetDisbursementStore : M dworld () := modify (λ w, DWorld [] (dw_calls w) (dw_now w)).
End disbursement.

(** ** Nothing is broadcast without its quorum *)

Section quorum.
Context `{DE : DisbursementEnv}.
Implicit Types w : dworld.

Inductive disbursement_op :=
| DoCreate (input : CreateDisbursementApprovalInput)
| DoSign (id officer signature : string)
| DoSubmit (id : string)
| DoExpire
| DoReset
| DoWait (ms : Z).

Definition disbursement_step w (o : disbursement_op) : dworld :=
  match o with
  | DoCreate i => (createDisbursementApproval i w).2
  | DoSign id o g => (collectOfficerSignature id o g w).2
  | DoSubmit id => (submitDisbursementApproval id w).2
  | DoExpire => (expireStaleDisbursements w).2
  | DoReset => (resetDisbursementStore w).2
  | DoWait ms => DWorld (dw_map w) (dw_calls w) (dw_now w + ms)
  end.

(** The signatures an approval asks for. *)
Definition quorum (i : CreateDisbursementApprovalInput) : js_value :=
  default (js_integer (Z.min 2 (Z.of_nat (length (cd_officers i))))) (cd_requiredSignatures i).

(** [n] signatures are as many as a numeric requirement asks for, which asks for at
    least one; nothing is said of a requirement that is not a number. *)
Definition reaches (v : js_value) (n : Z) : Prop := ∀ a b, jv_number v = Some (a, b) → Zpos b ≤ a ≤ n * Zpos b.
Definition misses (v : js_value) (n : Z) : Prop := ∀ a b, jv_number v = Some (a, b) → n * Zpos b < a.
Definition positive_requirement (v : js_value) : Prop := ∀ a b, jv_number v = Some (a, b) → Zpos b ≤ a.

(** Valid signatures of the transaction by different officers of the approval. *)
Definition signed (i : CreateDisbursementApprovalInput) (sigs : list (string * string)) : Prop :=
  NoDup sigs.*1 ∧ Forall (λ g, g.1 ∈ trim <$> cd_officers i ∧
    keypair_verify g.1 g.2 (cd_disbursementId i +:+ ":" +:+ cd_transactionXdr i) = true) sigs.

(** A submission that an approval of the history allows. *)
Definition approved (ops : list disbursement_op) (c : WalletSubmission) : Prop :=
  ∃ i, DoCreate i ∈ ops ∧ wb_xdr c = cd_transactionXdr i ∧ signed i (wb_signatures c) ∧
    reaches (quorum i) (Z.of_nat (length (wb_signatures c))).

(** An entry comes from an approval; before its quorum it is not closed by one. *)
Definition entry_ok (ops : list disbursement_op) (id : string) (s : DisbursementState) : Prop :=
  ∃ i, DoCreate i ∈ ops ∧ cd_disbursementId i = id ∧ db_transactionXdr s = cd_transactionXdr i ∧
    db_officers s = trim <$> cd_officers i ∧ db_requiredSignatures s = quorum i ∧ positive_requirement (quorum i) ∧
    signed i (wb_signatures (submission_of s)) ∧
    (db_status s = ds_collecting ∨ db_status s = ds_pending ∨ db_status s = ds_expired →
     misses (quorum i) (Z.of_nat (length (db_collectedSignatures s)))).

Definition quorum_inv (ops : list disbursement_op) w : Prop := Forall (approved ops) (dw_calls w) ∧ jall (entry_ok ops) (dw_map w).

Lemma quorum_inv_more ops ops' w : (∀ o, o ∈ ops → o ∈ ops') → quorum_inv ops w → quorum_inv ops' w.
Proof.
  intros Hsub [Hc Hm]. split.
  - eapply Forall_impl; [exact Hc |]. intros c (i & Hi & ?). exists i. auto.
  - eapply jall_impl; [| exact Hm]. intros id s (i & Hi & ?). exists i. auto.
Qed.

Lemma put_inv ops id s w : quorum_inv ops w → entry_ok ops id s → quorum_inv ops (put_state id s w).2.
Proof. intros [Hc Hm] Hs. split; [done |]. by apply jall_jset. Qed.

(** Other statuses do not matter once the quorum is met. *)
Lemma entry_ok_closed ops id s s' :
  entry_ok ops id s → db_transactionXdr s' = db_transactionXdr s → db_officers s' = db_officers s →
  db_requiredSignatures s' = db_requiredSignatures s → db_collectedSignatures s' = db_collectedSignatures s →
  db_status s' ∉ [ds_collecting; ds_pending; ds_expired] → entry_ok ops id s'.
Proof.
  intros (i & Hi & Hid & Hx & Ho & Hr & H1 & Hs & _) Ex Eo Er Es Hst. exists i. rewrite Ex, Eo, Er, Es. split_and!; try done.
  - unfold submission_of in *. by rewrite Es.
  - intros H. exfalso. apply Hst. destruct H as [-> | [-> | ->]]; apply (bool_decide_unpack _); done.
Qed.

Lemma broadcast_inv ops id s w :
  quorum_inv ops w → entry_ok ops id s → js_gt (db_requiredSignatures s) (Z.of_nat (length (db_collectedSignatures s))) = false →
  quorum_inv ops (broadcastDisbursement id s w).2.
Proof.
  intros Hw Hs Hq. unfold broadcastDisbursement. erewrite bind_run by done. cbv zeta.
  assert (Hput : ∀ s' w', quorum_inv ops w' → entry_ok ops id s' → quorum_inv ops (put_state id s' w').2) by (intros; by apply put_inv).
  assert (Hs1 : entry_ok ops id (db_set ds_broadcasting (dw_now w) s)).
  { eapply entry_ok_closed; try done. apply (bool_decide_unpack _). done. }
  set (w1 := (put_state id (db_set ds_broadcasting (dw_now w) s) w).2).
  assert (Hw1 : quorum_inv ops w1) by (by apply Hput).
  rewrite (bind_run _ _ w () w1) by done. unfold try_catch. set (s1 := db_set ds_broadcasting (dw_now w) s) in *.
  set (w2 := DWorld (dw_map w1) (dw_calls w1 ++ [submission_of s1]) (dw_now w1)).
  rewrite (bind_run _ _ w1 (tx_submit (dw_calls w1) (submission_of s1)) w2) by done.
  assert (Hw2 : quorum_inv ops w2).
  { destruct Hw1 as [Hc Hm]. split; [| done]. apply Forall_app. split; [done |]. apply Forall_singleton.
    destruct Hs as (i & Hi & _ & Hx & _ & Hr & H1 & Hsig & _). exists i. split_and!; try done.
    simpl. rewrite length_fmap. intros a b Hab. specialize (H1 a b Hab). rewrite Hr in Hq. unfold js_gt in Hq. rewrite Hab in Hq.
    apply Z.ltb_ge in Hq. done. }
  destruct (match _ with SubmitUnreachable e => _ | _ => _ end) as [e | r].
  - erewrite bind_run_err by done. erewrite bind_run by done. apply Hput; [done |]. eapply entry_ok_closed; try done. by apply (bool_decide_unpack _).
  - erewrite bind_run by done. erewrite bind_run by done. apply Hput; [done |]. eapply entry_ok_closed; try done. by apply (bool_decide_unpack _).
Qed.

Lemma create_inv ops i w : quorum_inv ops w → quorum_inv (ops ++ [DoCreate i]) (createDisbursementApproval i w).2.
Proof.
  intros Hw. assert (Hw' : quorum_inv (ops ++ [DoCreate i]) w).
  { eapply quorum_inv_more; [| exact Hw]. intros o Ho. apply elem_of_app. by left. }
  unfold createDisbursementApproval. set (l := List.filter (λ o, negb (String.eqb o "")) (trim <$> cd_officers i)).
  do 5 (apply throw_if_keeps; [exact Hw' | intros ?Hg]). cbv zeta. apply negb_false_iff, Nat.eqb_eq in Hg3.
  assert (Hl : uniq l = trim <$> cd_officers i).
  { assert (Hf : (length l ≤ length (cd_officers i))%nat) by (unfold l; rewrite List.filter_length_le, length_fmap; done).
    pose proof (length_uniq_from [] l) as Hu. unfold uniq in *. rewrite uniq_from_full by lia.
    apply filter_full. rewrite length_fmap. fold l. lia. }
  apply pure_keeps; [apply for_each_pure; intros; apply throw_if_pure | exact Hw' | intros [] _].
  apply throw_if_keeps; [exact Hw' | intros Hr]. apply orb_false_iff in Hr as [Hr1 _].
  erewrite bind_run by done. apply put_inv; [done |]. rewrite Hl, length_fmap in *. exists i. simpl.
  assert (positive_requirement (quorum i)) as Hpos.
  { intros a b Hab. change (js_lt (quorum i) 1 = false) in Hr1. unfold js_lt in Hr1. rewrite Hab in Hr1. apply Z.ltb_ge in Hr1. lia. }
  split_and!; try done; [apply elem_of_app; right; by apply list_elem_of_singleton | |].
  - split; constructor.
  - intros _ a b Hab. specialize (Hpos a b Hab). simpl. lia.
Qed.

Lemma sign_inv ops id o g w : quorum_inv ops w → quorum_inv ops (collectOfficerSignature id o g w).2.
Proof.
  intros Hw. unfold collectOfficerSignature. apply throw_if_keeps; [done | intros _]. erewrite bind_run by done.
  apply some_or_throw_keeps; [done | intros s Hs]. apply throw_if_keeps; [done | intros Hst].
  apply throw_if_keeps; [done | intros Ho%negb_false_iff%bool_decide_eq_true].
  apply throw_if_keeps; [done | intros Hd%bool_decide_eq_false]. apply throw_if_keeps; [done | intros Hv%negb_false_iff].
  erewrite bind_run by done. cbv zeta. apply andb_true_iff in Hv as [_ Hv].
  destruct Hw as [Hc Hm]. destruct (Hm id s Hs) as (i & Hi & Hid & Hx & Hof & Hr & H1 & (Hnd & Hall) & Hlt).
  set (s1 := db_push _ _ s).
  assert (Hsig : signed i (wb_signatures (submission_of s1))).
  { unfold s1. simpl. rewrite fmap_app. split.
    - rewrite fmap_app. apply NoDup_app. split; [done |]. split; [| apply NoDup_singleton].
      intros x Hx1 Hx2. apply list_elem_of_singleton in Hx2 as ->. apply Hd. simpl in Hx1. by rewrite <-list_fmap_compose in Hx1.
    - apply Forall_app. split; [done |]. apply Forall_singleton. simpl. rewrite <-Hof, Hid, <-Hx. done. }
  erewrite bind_run by done. destruct (js_le (db_requiredSignatures s1) (Z.of_nat (length (db_collectedSignatures s1)))) eqn:Hq.
  - set (s2 := db_set ds_quorum_met _ s1). assert (Hs2 : entry_ok ops id s2).
    { exists i. split_and!; try done. by intros [? | [? | ?]]. }
    rewrite (bind_run _ _ _ () (DWorld (jset id s2 (dw_map w)) (dw_calls w) (dw_now w))).
    + apply broadcast_inv; [| done |]; [split; [done |]; by apply jall_jset |]. change (js_gt (db_requiredSignatures s1) (Z.of_nat (length (db_collectedSignatures s1))) = false).
      unfold js_le, js_gt in *. destruct (jv_number _) as [[a b] |]; [| done]. apply Z.leb_le in Hq. by apply Z.ltb_ge.
    + unfold put_state, modify. simpl. by rewrite jset_jset.
  - apply (put_inv ops id s1 w); [done |]. exists i. split_and!; try done. intros _ a b Hab.
    change (db_requiredSignatures s1) with (db_requiredSignatures s) in Hq. rewrite Hr in Hq. unfold js_le in Hq. rewrite Hab in Hq. by apply Z.leb_gt in Hq.
Qed.

Lemma submit_inv ops id w : quorum_inv ops w → quorum_inv ops (submitDisbursementApproval id w).2.
Proof.
  intros Hw. unfold submitDisbursementApproval. erewrite bind_run by done.
  apply some_or_throw_keeps; [done | intros s Hs]. destruct (bool_decide _); [done |].
  apply throw_if_keeps; [done | intros Hq]. apply broadcast_inv; [done | by apply Hw | done].
Qed.

Lemma expire_inv ops w : quorum_inv ops w → quorum_inv ops (expireStaleDisbursements w).2.
Proof.
  intros [Hc Hm]. split; [done |]. intros id s. simpl. rewrite (jget_fmap (λ s, if stale (dw_now w) s then db_set ds_expired (dw_now w) s else s)).
  destruct (jget id (dw_map w)) as [s0 |] eqn:Hs; simpl; [| done]. intros [= <-]. pose proof (Hm id s0 Hs) as He.
  destruct (stale _ s0) eqn:Hst; [| done]. destruct He as (i & Hi & Hid & Hx & Ho & Hr & H1 & Hsig & Hlt). exists i. split_and!; try done.
  intros _. apply Hlt. apply andb_true_iff in Hst as [[Hst%bool_decide_eq_true | Hst%bool_decide_eq_true]%orb_true_iff _]; auto.
Qed.

(** C32. Nothing is broadcast without its quorum.  Over every history of approvals,
    signatures, submissions and sweeps, whatever is presented as a signature and
    whatever the wallet service answers, every transaction sent to it is the
    transaction of an approval of the history and carries only valid signatures of it by
    different officers of that approval and, if the number of signatures the approval
    requires is a number (whole or not), as many as it requires and at least one; and an
    approval with such a number that is collecting or expired has not reached it.  A
    requirement that is not a number, which the code accepts, is no requirement: see
    [broadcast_without_signatures]. *)
Theorem broadcast_needs_quorum ops now :
  let w := foldl disbursement_step (DWorld [] [] now) ops in
  Forall (approved ops) (dw_calls w) ∧ jall (entry_ok ops) (dw_map w).
Proof.
  induction ops as [| o ops IH] using rev_ind; [split; [constructor | apply jall_nil] |]. rewrite foldl_snoc.
  assert (H : quorum_inv (ops ++ [o]) (foldl disbursement_step (DWorld [] [] now) ops)).
  { eapply quorum_inv_more; [| exact IH]. intros x Hx. apply elem_of_app. by left. }
  destruct o as [i | id o g | id | | | ms]; simpl.
  - by apply create_inv.
  - by apply sign_inv.
  - by apply submit_inv.
  - by apply expire_inv.
  - split; [apply H | apply jall_nil].
  - exact H.
Qed.
End quorum.

(** ** Concrete approvals *)

(** A signature is the payload it signs, by the key. *)
Definition demo_officers : DisbursementEnv := {|
  valid_public_key := λ k, String.prefix "G" k; keypair_verify := λ k g p, String.eqb g (k +:+ "/" +:+ p);
  sha256_hex := λ s, s;
  tx_submit := λ calls _, if (length calls =? 0)%nat then SubmitReply 503 "busy" else SubmitReply 200 "accepted" |}.

Definition big_payout : CreateDisbursementApprovalInput :=
  {| cd_disbursementId := "d1"; cd_transactionXdr := "XDR"; cd_officers := ["GA"; " GB"; "GC"]; cd_requiredSignatures := None |}.

(** The first broadcast fails, a later submission repeats it. *)
Lemma broadcast_on_retry :
  let w := foldl (disbursement_step (DE := demo_officers)) (DWorld [] [] 0)
             [DoCreate big_payout; DoSign "d1" "GA" "GA/d1:XDR"; DoSign "d1" "GA" "GA/d1:XDR"; DoSign "d1" "GX" "GX/d1:XDR";
              DoSubmit "d1"; DoSign "d1" "GB" "GB/d1:XDR"; DoSubmit "d1"; DoSubmit "d1"] in
  length (dw_calls w) = 2%nat ∧ (db_status <$> jvalues (dw_map w)) = [ds_broadcast] ∧ Forall (λ c, length (wb_signatures c) = 2%nat) (dw_calls w).
Proof. split; [by vm_compute |]. split; [by vm_compute |]. by repeat constructor. Qed.

(** An approval can be created again under the same identifier after it was broadcast:
    the transaction is collected and sent a second time. *)
Theorem recreated_disbursement_repeats :
  let round := [DoCreate big_payout; DoSign "d1" "GA" "GA/d1:XDR"; DoSign "d1" "GB" "GB/d1:XDR"] in
  let w := foldl (disbursement_step (DE := demo_officers)) (DWorld [] [{| wb_xdr := ""; wb_signatures := [] |}] 0) (round ++ round) in
  (wb_xdr <$> dw_calls w) = [""; "XDR"; "XDR"] ∧ (db_status <$> jvalues (dw_map w)) = [ds_broadcast].
Proof. by vm_compute. Qed.

(** A signature that comes after the thirty minutes counts, unless the sweep ran. *)
Theorem late_signature_counts :
  let ops := [DoCreate big_payout; DoSign "d1" "GA" "GA/d1:XDR"; DoWait 3600000; DoSign "d1" "GB" "GB/d1:XDR"] in
  length (dw_calls (foldl (disbursement_step (DE := demo_officers)) (DWorld [] [] 0) ops)) = 1%nat.
Proof. by vm_compute. Qed.

(** The required number of signatures is taken from the body as it is: a value that is
    not a number passes both bounds and the test of the quorum, and the transaction is
    sent without any signature. *)
Theorem broadcast_without_signatures :
  let two := {| cd_disbursementId := "d1"; cd_transactionXdr := "XDR"; cd_officers := ["GA"; "GB"];
                cd_requiredSignatures := Some (JsValue None "two") |} in
  let w := foldl (disbursement_step (DE := demo_officers)) (DWorld [] [{| wb_xdr := ""; wb_signatures := [] |}] 0) [DoCreate two; DoSubmit "d1"] in
  last (dw_calls w) = Some {| wb_xdr := "XDR"; wb_signatures := [] |} ∧ (db_status <$> jvalues (dw_map w)) = [ds_broadcast].
Proof. by vm_compute. Qed.
