(* ===== verification/Locks.v ===== *)
(** * Distributed locks (packages/cache/src/lock.ts, apps/backend/orchestrator/src/locks/manager.ts)

    The Redis primitives (acquire with a fencing number, owner-checked release and
    renewal) and the lock manager of an orchestrator instance: waiting acquisition,
    workflow and step locks, renewal, release, [withLock].  Redis holds the payloads with
    their expiry; its scripts are atomic, a command takes time on its way to Redis and the
    answer on its way back, and the instances share the clock of Redis.  While a command
    is under way or an instance sleeps, what else happens is what [elsewhere] says.
    Metrics are left out.  No owner or metadata contains a percent sign, which the formatting of the
    payload in Lua would interpret, and no owner a character that JSON escapes, so that
    the scripts compare owners. *)
From S2P Require Import Prelude JsLib JsCollections.
Local Open Scope Z_scope.

(** ** packages/cache/src/lock.ts *)

(** The times are the instants of the ISO strings; the metadata is its JSON text. *)
Record RedisLockPayload := { lp_owner : string; lp_acquiredAt : Z; lp_expiresAt : Z; lp_fence : Z; lp_metadata : string }.

(** Redis: the lock keys with the instants they expire at, the fence counters. *)
Record redis := Redis { rd_locks : jsmap (RedisLockPayload * Z); rd_fences : jsmap Z }.

Definition workflowLockKey (sagaId : string) : string := "lock:wf:{workflow:" +:+ sagaId +:+ "}".
Definition stepLockKey (sagaId stepName : string) : string := "lock:step:{workflow:" +:+ sagaId +:+ "}:" +:+ stepName.
Definition fenceKeyFor (lockKey : string) : string := "lock:fence:" +:+ lockKey.

(** [GET]: the payload of a key that has not expired. *)
Definition redis_get (now : Z) (key : string) (r : redis) : option RedisLockPayload :=
  match jget key (rd_locks r) with
  | Some (p, e) => if now <? e then Some p else None
  | None => None
  end.

(** ACQUIRE_LUA, executed at [now] with the payload written at [sentAt]: the fence is
    counted also when the lock is held. *)
Definition ACQUIRE_LUA (now sentAt : Z) (key fenceKey owner metadata : string) (ttlMs : Z) (r : redis) : RedisLockPayload * redis :=
  let fence := default 0 (jget fenceKey (rd_fences r)) + 1 in
  let payload := {| lp_owner := owner; lp_acquiredAt := sentAt; lp_expiresAt := sentAt + ttlMs; lp_fence := fence; lp_metadata := metadata |} in
  let r1 := Redis (rd_locks r) (jset fenceKey fence (rd_fences r)) in
  match redis_get now key r1 with
  | Some current => (current, r1)
  | None => (payload, Redis (jset key (payload, now + ttlMs) (rd_locks r1)) (rd_fences r1))
  end.

(** RELEASE_LUA and RENEW_LUA compare the beginning of the stored text with the owner. *)
Definition RELEASE_LUA (now : Z) (key owner : string) (r : redis) : Z * redis :=
  match redis_get now key r with
  | None => (0, r)
  | Some p => if String.eqb (lp_owner p) owner then (1, Redis (jdel key (rd_locks r)) (rd_fences r)) else (0, r)
  end.

Definition RENEW_LUA (now : Z) (key owner : string) (ttlMs : Z) (payload : RedisLockPayload) (r : redis) : Z * redis :=
  match redis_get now key r with
  | None => (-2, r)
  | Some p =>
      if negb (String.eqb (lp_owner p) owner) then (-1, r)
      else (1, Redis (jset key (payload, now + ttlMs) (rd_locks r)) (rd_fences r))
  end.

Inductive RedisLockRenewResult := renew_ok | renew_stolen | renew_missing.

#[export] Instance RedisLockRenewResult_eq_dec : EqDecision RedisLockRenewResult.
Proof. solve_decision. Defined.

(** ** The managers *)

Record DistributedLock := { dk_key : string; dk_owner : string; dk_acquiredAt : Z; dk_expiresAt : Z; dk_metadata : string; dk_fence : Z }.
Record HeldLockRecord := { hl_lock : DistributedLock; hl_stolen : bool; hl_ttlMs : Z; hl_autoRenew : bool }.
Record LockOptions := { op_ttlMs : Z; op_autoRenew : option bool; op_metadata : option string; op_waitTimeoutMs : option Z }.
Record LockResult := { lr_acquired : bool; lr_lock : option DistributedLock; lr_error : option string; lr_waitTimeMs : Z }.

(** One instance: the locks it holds, the timers that renew them, the stolen keys. *)
Record manager := Manager { mg_held : jsmap HeldLockRecord; mg_renewers : list string; mg_stolen : list string }.
Definition new_manager : manager := Manager [] [] [].

(** [lw_given_up] is a ghost: the instances and keys whose release was called since the
    lock was last acquired.  The code does not have it and no operation reads it. *)
Record lworld := LWorld { lw_redis : redis; lw_managers : jsmap manager; lw_given_up : list (string * string); lw_now : Z }.

(** A command is executed and answered, or fails, having been executed or not. *)
Inductive command_fate := Answered | CommandFailed (executed : bool) (e : exn).

Class LockEnv := {
  lock_command : lworld → command_fate;
  (** how long a command takes to Redis, and its answer back *)
  way_out : lworld → Z;
  way_back : lworld → Z;
  (** what happens in the meantime: everything except operations of the given instance
      on the given key *)
  elsewhere : string → string → Z → lworld → lworld
}.

Definition DEFAULT_TTL_MS : Z := 30000.
Definition DEFAULT_WAIT_MS : Z := 30000.
Definition DEFAULT_BACKOFF_MS : Z := 20.

Definition lockKeyForWorkflow (workflowId : string) : string := workflowLockKey workflowId.
Definition lockKeyForStep (workflowId stepName : string) : string := stepLockKey workflowId stepName.
Inductive LockLevel := level_workflow | level_step.
Definition lockLevelFromKey (key : string) : LockLevel := if startsWith key "lock:step:" then level_step else level_workflow.

Definition lock_of (key : string) (p : RedisLockPayload) : DistributedLock := {|
  dk_key := key; dk_owner := lp_owner p; dk_acquiredAt := lp_acquiredAt p; dk_expiresAt := lp_expiresAt p;
  dk_metadata := lp_metadata p; dk_fence := lp_fence p |}.

Section manager.
Context `{LE : LockEnv} (owner : string).

Definition lock_sleep (key : string) (ms : Z) : M lworld () := modify (elsewhere owner key ms).

(** The execution of a script in Redis, at its time. *)
Definition execute_script {A} (f : Z → redis → A * redis) : M lworld A := λ w,
  let '(a, r) := f (lw_now w) (lw_redis w) in (inr a, LWorld r (lw_managers w) (lw_given_up w) (lw_now w)).

(** [client.eval(script)] *)
Definition redis_eval {A} (key : string) (f : Z → redis → A * redis) : M lworld A :=
  fate ← gets lock_command;
  out ← gets way_out;
  lock_sleep key out;;
  match fate with
  | CommandFailed false e => throw e
  | CommandFailed true e => _ ← execute_script f; back ← gets way_back; lock_sleep key back;; throw e
  | Answered => a ← execute_script f; back ← gets way_back; lock_sleep key back;; mret a
  end.

Definition redisLockAcquire (key : string) (ttlMs : Z) (metadata : string) : M lworld (bool * RedisLockPayload) :=
  sentAt ← gets lw_now;
  payload ← redis_eval key (λ now, ACQUIRE_LUA now sentAt key (fenceKeyFor key) owner metadata ttlMs);
  mret (String.eqb (lp_owner payload) owner, payload).

Definition redisLockRelease (key : string) : M lworld bool :=
  n ← redis_eval key (λ now, RELEASE_LUA now key owner);
  mret (n =? 1).

Definition redisLockRenew (key : string) (ttlMs : Z) (metadata : string) (fence : Z) : M lworld RedisLockRenewResult :=
  sentAt ← gets lw_now;
  n ← redis_eval key (λ now, RENEW_LUA now key owner ttlMs
        {| lp_owner := owner; lp_acquiredAt := sentAt; lp_expiresAt := sentAt + ttlMs; lp_fence := fence; lp_metadata := metadata |});
  mret (if n =? 1 then renew_ok else if n =? -1 then renew_stolen else renew_missing).

Definition redisLockInspect (key : string) : M lworld (option RedisLockPayload * Z) :=
  redis_eval key (λ now r, ((redis_get now key r,
    match jget key (rd_locks r) with Some (_, e) => if now <? e then e - now else -2 | None => -2 end), r)).

(** The fields of the manager. *)
Definition self (w : lworld) : manager := default new_manager (jget owner (lw_managers w)).
Definition update_self (f : manager → manager) : M lworld () :=
  modify (λ w, LWorld (lw_redis w) (jset owner (f (self w)) (lw_managers w)) (lw_given_up w) (lw_now w)).
Definition note_given_up (key : string) (b : bool) : M lworld () :=
  modify (λ w, let rest := List.filter (λ x, negb (String.eqb x.1 owner && String.eqb x.2 key)) (lw_given_up w) in
               LWorld (lw_redis w) (lw_managers w) (if b then (owner, key) :: rest else rest) (lw_now w)).

Definition wasStolen (key : string) : M lworld bool :=
  gets (λ w, bool_decide (key ∈ mg_stolen (self w)) || from_option hl_stolen false (jget key (mg_held (self w)))).

Definition listHeld : M lworld (list DistributedLock) := gets (λ w, hl_lock <$> jvalues (mg_held (self w))).

Definition remember (key : string) (payload : RedisLockPayload) (ttlMs : Z) (options : LockOptions) : M lworld DistributedLock :=
  update_self (λ m, Manager
    (jset key {| hl_lock := lock_of key payload; hl_stolen := false; hl_ttlMs := ttlMs;
                 hl_autoRenew := default true (op_autoRenew options) |} (mg_held m))
    (mg_renewers m) (List.filter (λ k, negb (String.eqb k key)) (mg_stolen m)));;
  note_given_up key false;;
  mret (lock_of key payload).

Definition stopRenew (key : string) : M lworld () :=
  update_self (λ m, Manager (mg_held m) (List.filter (λ k, negb (String.eqb k key)) (mg_renewers m)) (mg_stolen m)).

Definition startRenew (key : string) (options : LockOptions) : M lworld () :=
  if default true (op_autoRenew options) then
    stopRenew key;;
    update_self (λ m, Manager (mg_held m) (mg_renewers m ++ [key]) (mg_stolen m))
  else mret ().

Definition lock_ttl (options : LockOptions) : Z := if 0 <? op_ttlMs options then op_ttlMs options else DEFAULT_TTL_MS.
Definition wait_timeout (options : LockOptions) : Z := default DEFAULT_WAIT_MS (op_waitTimeoutMs options).

(** One round of [acquire]. *)
Definition attempt_acquire (key : string) (options : LockOptions) (started : Z) : M lworld (RedisLockPayload + LockResult) :=
  once ← redisLockAcquire key (lock_ttl options) (default "{}" (op_metadata options));
  if (once.1 : bool) then
    lock ← remember key once.2 (lock_ttl options) options;
    startRenew key options;;
    now ← gets lw_now;
    mret (inr {| lr_acquired := true; lr_lock := Some lock; lr_error := None; lr_waitTimeMs := now - started |})
  else mret (inl once.2).

(** [None] when the fuel is spent. *)
Fixpoint acquire_rounds (fuel : nat) (key : string) (options : LockOptions) (started attempt : Z) : M lworld (option LockResult) :=
  match fuel with
  | O => mret None
  | S fuel' =>
      once ← attempt_acquire key options started;
      match once with
      | inr result => mret (Some result)
      | inl payload =>
          now ← gets lw_now;
          let waited := now - started in
          if (wait_timeout options <=? 0) || (wait_timeout options <=? waited) then
            let timeout := (0 <? wait_timeout options) && (wait_timeout options <=? waited) in
            mret (Some {| lr_acquired := false; lr_lock := Some (lock_of key payload);
                          lr_error := Some (if timeout then "DEADLOCK_TIMEOUT" else "LOCK_CONTENDED"); lr_waitTimeMs := waited |})
          else
            lock_sleep key (Z.min (DEFAULT_BACKOFF_MS * (attempt + 1)) 200);;
            acquire_rounds fuel' key options started (attempt + 1)
      end
  end.

(** One round of fuel per millisecond of the time-out, and two more. *)
Definition acquire (key : string) (options : LockOptions) : M lworld (option LockResult) :=
  started ← gets lw_now;
  acquire_rounds (Z.to_nat (wait_timeout options) + 2) key options started 0.

Definition release (key : string) : M lworld bool :=
  note_given_up key true;;
  stopRenew key;;
  ok ← redisLockRelease key;
  update_self (λ m, Manager (jdel key (mg_held m)) (mg_renewers m) (mg_stolen m));;
  mret ok.

Definition releaseAll : M lworld () :=
  keys ← gets (λ w, jkeys (mg_held (self w)));
  for_each keys (λ k, release k;; mret ()).

Definition acquireHierarchy (workflowId : string) (stepName : option string) (options : LockOptions) : M lworld (option LockResult) :=
  let workflowKey := lockKeyForWorkflow workflowId in
  workflow ← acquire workflowKey options;
  match workflow with
  | Some wr =>
      if negb (lr_acquired wr) then mret workflow
      else if negb (truthy stepName) then mret workflow
      else
        step ← acquire (lockKeyForStep workflowId (default "" stepName)) options;
        match step with
        | Some sr => if negb (lr_acquired sr) then release workflowKey;; mret step else mret step
        | None => mret None
        end
  | None => mret None
  end.

(** [withRenewTimeout]: the time a renewal may take. *)
Definition renew_timeout (ttlMs : Z) : Z := Z.max 1000 (Z.min 5000 (ttlMs / 2)).

(** A renewal ends with an answer of Redis, an error, or by the time-out, Redis having
    executed the script or not. *)
Inductive renew_fate := RenewAnswered | RenewTimedOut (executed : bool).

Definition mark_stolen (key : string) : M lworld () :=
  update_self (λ m, Manager
    (match jget key (mg_held m) with
     | Some h => jset key {| hl_lock := hl_lock h; hl_stolen := true; hl_ttlMs := hl_ttlMs h; hl_autoRenew := hl_autoRenew h |} (mg_held m)
     | None => mg_held m
     end) (mg_renewers m) (if bool_decide (key ∈ mg_stolen m) then mg_stolen m else mg_stolen m ++ [key]));;
  stopRenew key.

Definition extend_held (key : string) (expiresAt : Z) : M lworld () :=
  update_self (λ m, Manager
    (match jget key (mg_held m) with
     | Some h => jset key {| hl_lock := {| dk_key := dk_key (hl_lock h); dk_owner := dk_owner (hl_lock h); dk_acquiredAt := dk_acquiredAt (hl_lock h);
                                           dk_expiresAt := expiresAt; dk_metadata := dk_metadata (hl_lock h); dk_fence := dk_fence (hl_lock h) |};
                             hl_stolen := hl_stolen h; hl_ttlMs := hl_ttlMs h; hl_autoRenew := hl_autoRenew h |} (mg_held m)
     | None => mg_held m
     end) (mg_renewers m) (mg_stolen m)).

Definition renew (fate : renew_fate) (key : string) : M lworld bool :=
  record ← gets (λ w, jget key (mg_held (self w)));
  match record with
  | None => mret false
  | Some h =>
      let script := redisLockRenew key (hl_ttlMs h) (dk_metadata (hl_lock h)) (dk_fence (hl_lock h)) in
      sentAt ← gets lw_now;
      result ← match fate with
               | RenewAnswered => try_catch (r ← script; mret (match r with renew_ok => true | _ => false end)) (λ _, mret false)
               | RenewTimedOut executed =>
                   (if executed then try_catch (script;; mret ()) (λ _, mret ()) else mret ());;
                   lock_sleep key (renew_timeout (hl_ttlMs h));; mret false
               end;
      now ← gets lw_now;
      (* an answer that comes later finds the time-out *)
      if (result : bool) && (now - sentAt <? renew_timeout (hl_ttlMs h)) then
        extend_held key (now + hl_ttlMs h);;
        mret true
      else
        mark_stolen key;;
        mret false
  end.

Definition lock_inspect (key : string) : M lworld (option DistributedLock * Z) :=
  r ← redisLockInspect key;
  mret (lock_of key <$> r.1, r.2).

Definition withLock {T} (key : string) (options : LockOptions) (fn : M lworld T) : M lworld (option T) :=
  result ← acquire key options;
  match result with
  | None => mret None
  | Some r =>
      throw_if (negb (lr_acquired r)) (Error (default "LOCK_CONTENDED" (lr_error r)));;
      try_finally (v ← fn; mret (Some v)) (release key;; mret ())
  end.
End manager.
