(* ===== verification/LocksCorrect.v ===== *)
(** * What the distributed locks guarantee

    Exclusion and fencing over every interleaving of the instances, with the time that
    commands and answers take, and the end of a waiting acquisition.  Every acquisition
    of a key uses the same TTL, [ttl_of key]. *)
From S2P Require Import Prelude JsLib JsCollections Locks.
Local Open Scope Z_scope.

Section exclusion.
Context `{LE : LockEnv} (ttl_of : string → Z).
Implicit Types w : lworld.

(** By how much the expiry an instance notes after a renewal may be later than that of
    Redis: the answer may take as long as the time-out of a renewal. *)
Definition margin (key : string) : Z := renew_timeout (ttl_of key).

(** The instance relies on its lock: it holds it, has not seen it stolen nor given it up,
    and stops the time-out of a renewal before the expiry it has noted. *)
Definition relies w (o key : string) (h : HeldLockRecord) : Prop :=
  jget key (mg_held (self o w)) = Some h ∧ hl_stolen h = false ∧ (o, key) ∉ lw_given_up w ∧
  lw_now w + margin key < dk_expiresAt (hl_lock h).

Definition fence_of w (key : string) : Z := default 0 (jget (fenceKeyFor key) (rd_fences (lw_redis w))).

Record lock_inv w : Prop := {
  (** a lock that is relied on is in Redis, for as long up to the margin *)
  li_backed : ∀ o key h, relies w o key h →
    ∃ p e, jget key (rd_locks (lw_redis w)) = Some (p, e) ∧ lp_owner p = o ∧ dk_expiresAt (hl_lock h) ≤ e + margin key;
  (** payloads expire no earlier than they say and no later than the TTL, and carry
      numbers that were counted *)
  li_payload : ∀ key p e, jget key (rd_locks (lw_redis w)) = Some (p, e) →
    lp_expiresAt p ≤ e ≤ lw_now w + ttl_of key ∧ lp_fence p ≤ fence_of w key;
  li_held : ∀ o key h, jget key (mg_held (self o w)) = Some h → hl_ttlMs h = ttl_of key ∧ dk_fence (hl_lock h) ≤ fence_of w key
}.

(** What may happen while an operation of [o] on [key] waits: anything but operations of
    [o] on [key].  Its record of the lock stays, an entry of it in Redis stays until it
    expires, and nobody writes one in its name; time does not go back, fences neither. *)
Record meanwhile (o key : string) w w' : Prop := {
  mw_now : lw_now w ≤ lw_now w';
  mw_held : jget key (mg_held (self o w')) = jget key (mg_held (self o w));
  mw_given : (o, key) ∈ lw_given_up w' ↔ (o, key) ∈ lw_given_up w;
  mw_kept : ∀ p e, jget key (rd_locks (lw_redis w)) = Some (p, e) → lp_owner p = o → lw_now w' < e →
    jget key (rd_locks (lw_redis w')) = Some (p, e);
  mw_named : ∀ p e, jget key (rd_locks (lw_redis w')) = Some (p, e) → lp_owner p = o →
    jget key (rd_locks (lw_redis w)) = Some (p, e);
  mw_fence : ∀ k, fence_of w k ≤ fence_of w' k
}.

(** ** What leaves the locks alone *)

Lemma self_update o f w o' : self o' (update_self o f w).2 = if decide (o = o') then f (self o w) else self o' w.
Proof. unfold update_self, self at 1. simpl. rewrite jget_jset. by case_decide. Qed.

(** Only the held locks matter of a manager. *)
Definition same_locks w w' : Prop :=
  lw_redis w' = lw_redis w ∧ lw_now w' = lw_now w ∧ lw_given_up w' = lw_given_up w ∧ ∀ o, mg_held (self o w') = mg_held (self o w).

Lemma same_locks_inv w w' : same_locks w w' → lock_inv w → lock_inv w'.
Proof.
  intros (Hr & Hn & Hg & Hh) [H1 H2 H3]. split; unfold fence_of in *; rewrite ?Hr, ?Hn.
  - intros o key h (Hk & Hs & Hnot & Ht). apply (H1 o). split; [by rewrite <-Hh |]. by rewrite <-Hn, <-Hg.
  - exact H2.
  - intros o key h. rewrite Hh. apply H3.
Qed.

Lemma update_same_locks o f w : (∀ m, mg_held (f m) = mg_held m) → same_locks w (update_self o f w).2.
Proof. intros Hf. do 3 (split; [done |]). intros o'. rewrite self_update. case_decide; [subst; apply Hf | done]. Qed.

Lemma stopRenew_same o key w : same_locks w (stopRenew o key w).2.
Proof. by apply update_same_locks. Qed.

#[local] Instance same_locks_preorder : PreOrder same_locks.
Proof. split; [by intros w |]. intros a b c (A1 & A2 & A3 & A4) (B1 & B2 & B3 & B4). do 3 (split; [congruence |]). intros o. by rewrite B4. Qed.

Lemma startRenew_same o key opt w : same_locks w (startRenew o key opt w).2.
Proof.
  unfold startRenew. destruct (default true _); [| done]. erewrite bind_run by done.
  transitivity (stopRenew o key w).2; [apply stopRenew_same | by apply update_same_locks].
Qed.

(** ** The scripts *)

Lemma redis_get_Some now key r p : redis_get now key r = Some p ↔ ∃ e, jget key (rd_locks r) = Some (p, e) ∧ now < e.
Proof.
  clear ttl_of. unfold redis_get. destruct (jget key (rd_locks r)) as [[p' e] |]; [| naive_solver].
  destruct (Z.ltb_spec now e); naive_solver lia.
Qed.

Lemma fenceKey_inj k k' : fenceKeyFor k = fenceKeyFor k' → k = k'.
Proof. intros H. apply (f_equal chars) in H. unfold fenceKeyFor in H. rewrite !chars_app in H. by apply app_inv_head, chars_inj in H. Qed.

Lemma fence_jset l k key v : default 0 (jget (fenceKeyFor k) (jset (fenceKeyFor key) v l)) =
  if decide (key = k) then v else default 0 (jget (fenceKeyFor k) l).
Proof.
  rewrite jget_jset. destruct (decide (key = k)) as [-> | Hne]; [by rewrite decide_True |].
  rewrite decide_False; [done |]. intros H. by apply fenceKey_inj in H.
Qed.

(** What an attempt does to Redis: the number is counted, and a free lock is taken. *)
Lemma ACQUIRE_LUA_spec now sent key o md ttl r :
  let '(p, r') := ACQUIRE_LUA now sent key (fenceKeyFor key) o md ttl r in
  let n := default 0 (jget (fenceKeyFor key) (rd_fences r)) + 1 in
  rd_fences r' = jset (fenceKeyFor key) n (rd_fences r) ∧
  ((redis_get now key r = Some p ∧ rd_locks r' = rd_locks r) ∨
   (redis_get now key r = None ∧ lp_owner p = o ∧ lp_fence p = n ∧ lp_expiresAt p = sent + ttl ∧
    rd_locks r' = jset key (p, now + ttl) (rd_locks r))).
Proof.
  unfold ACQUIRE_LUA, redis_get. destruct r as [l fs]. simpl. destruct (jget key l) as [[p e] |]; [destruct (now <? e) |]; simpl.
  - split; [done |]. by left.
  - split; [done |]. by right.
  - split; [done |]. by right.
Qed.

(** Nobody relies on a lock that Redis does not have. *)
Lemma relies_get w o key h : lock_inv w → relies w o key h → ∃ p, redis_get (lw_now w) key (lw_redis w) = Some p ∧ lp_owner p = o.
Proof.
  intros Hw Hh. destruct (li_backed w Hw o key h Hh) as (p & e & Hp & Ho & He). exists p. split; [| done].
  apply redis_get_Some. exists e. split; [done |]. destruct Hh as (_ & _ & _ & Ht). lia.
Qed.

(** The world after a script. *)
Definition executed {A} (f : Z → redis → A * redis) w : lworld :=
  LWorld (f (lw_now w) (lw_redis w)).2 (lw_managers w) (lw_given_up w) (lw_now w).

(** A script on one key keeps the invariant if the entry it leaves backs whoever relies. *)
Lemma lock_inv_redis {A} (f : Z → redis → A * redis) key w :
  let r' := (f (lw_now w) (lw_redis w)).2 in
  lock_inv w →
  (∀ k, k ≠ key → jget k (rd_locks r') = jget k (rd_locks (lw_redis w))) →
  (∀ k, fence_of w k ≤ default 0 (jget (fenceKeyFor k) (rd_fences r'))) →
  (∀ p e, jget key (rd_locks r') = Some (p, e) →
    lp_expiresAt p ≤ e ≤ lw_now w + ttl_of key ∧ lp_fence p ≤ default 0 (jget (fenceKeyFor key) (rd_fences r'))) →
  (∀ o h, relies w o key h → ∃ p e, jget key (rd_locks r') = Some (p, e) ∧ lp_owner p = o ∧ dk_expiresAt (hl_lock h) ≤ e + margin key) →
  lock_inv (executed f w).
Proof.
  intros r' [H1 H2 H3] Hl Hfs Hp Hh. split; unfold fence_of, executed in *; simpl.
  - intros o k h Hk. destruct (decide (k = key)) as [-> | Hne]; [by apply Hh |]. fold r'. rewrite Hl by done. by apply H1.
  - intros k p e. destruct (decide (k = key)) as [-> | Hne]; [apply Hp |]. fold r'. rewrite Hl by done. intros Hk.
    destruct (H2 k p e Hk) as [? ?]. split; [done |]. specialize (Hfs k). lia.
  - intros o k h Hk. destruct (H3 o k h Hk) as [? ?]. split; [done |]. specialize (Hfs k). fold r'. lia.
Qed.

Lemma acquire_script_inv o key md sent w :
  lock_inv w → sent ≤ lw_now w →
  lock_inv (executed (λ now, ACQUIRE_LUA now sent key (fenceKeyFor key) o md (ttl_of key)) w).
Proof.
  intros Hw Hsent. pose proof (ACQUIRE_LUA_spec (lw_now w) sent key o md (ttl_of key) (lw_redis w)) as Hspec.
  apply (lock_inv_redis _ key w Hw); destruct (ACQUIRE_LUA _ _ _ _ _ _ _ _) as [p [l fs]]; simpl in *; destruct Hspec as [Hfs Hcase].
  - intros k Hk. destruct Hcase as [[_ ->] | (_ & _ & _ & _ & ->)]; [done |]. by rewrite jget_jset_ne.
  - intros k. rewrite Hfs, fence_jset. unfold fence_of. case_decide; [subst; lia | lia].
  - intros p' e' Hp'. rewrite Hfs, fence_jset, decide_True by done. destruct Hcase as [[_ ->] | (_ & _ & Hf & Hx & ->)].
    + destruct (li_payload w Hw key p' e' Hp') as [? ?]. split; [done |]. unfold fence_of in *. lia.
    + rewrite jget_jset_eq in Hp'. injection Hp' as <- <-. split; lia.
  - intros o' h Hh. destruct Hcase as [[_ ->] | (Hnone & _)]; [by apply (li_backed w Hw) |].
    destruct (relies_get w o' key h Hw Hh) as (q & Hq & _). congruence.
Qed.

Lemma release_script_inv o key w :
  lock_inv w → (o, key) ∈ lw_given_up w → lock_inv (executed (λ now, RELEASE_LUA now key o) w).
Proof.
  intros Hw Hg. set (r := (RELEASE_LUA (lw_now w) key o (lw_redis w)).2).
  assert (Hl : ∀ k, jget k (rd_locks r) = jget k (rd_locks (lw_redis w)) ∨
             (k = key ∧ jget k (rd_locks r) = None ∧ ∃ p, redis_get (lw_now w) key (lw_redis w) = Some p ∧ lp_owner p = o)).
  { intros k. unfold r, RELEASE_LUA. destruct (redis_get _ _ _) as [p |]; [| by left]. destruct (String.eqb_spec (lp_owner p) o); [| by left].
    simpl. rewrite jget_jdel. case_decide; [subst; right; split_and!; [done | done | by exists p] | by left]. }
  assert (Hfs : rd_fences r = rd_fences (lw_redis w)).
  { unfold r, RELEASE_LUA. destruct (redis_get _ _ _) as [p |]; [destruct (String.eqb _ _) |]; done. }
  apply (lock_inv_redis _ key w Hw); fold r; rewrite ?Hfs.
  - intros k Hk. by destruct (Hl k) as [-> | [? _]].
  - done.
  - intros p e Hp. destruct (Hl key) as [E | (_ & E & _)]; rewrite E in Hp; [by apply (li_payload w Hw) | done].
  - intros o' h Hh. destruct (Hl key) as [-> | (_ & _ & q & Hq & Hqo)]; [by apply (li_backed w Hw) |].
    destruct (relies_get w o' key h Hw Hh) as (q' & Hq' & Ho'). destruct Hh as (_ & _ & Hnot & _). by destruct Hnot; congruence.
Qed.

(** A renewal that goes through never shortens the time in Redis. *)
Lemma renew_script_inv o key h md sent w :
  lock_inv w → jget key (mg_held (self o w)) = Some h → sent ≤ lw_now w →
  let p := {| lp_owner := o; lp_acquiredAt := sent; lp_expiresAt := sent + hl_ttlMs h; lp_fence := dk_fence (hl_lock h); lp_metadata := md |} in
  lock_inv (executed (λ now, RENEW_LUA now key o (hl_ttlMs h) p) w) ∧
  ((RENEW_LUA (lw_now w) key o (hl_ttlMs h) p (lw_redis w)).1 = 1 →
   jget key (rd_locks (lw_redis (executed (λ now, RENEW_LUA now key o (hl_ttlMs h) p) w))) = Some (p, lw_now w + hl_ttlMs h)).
Proof.
  intros Hw Hh Hsent p. destruct (li_held w Hw o key h Hh) as [Httl Hf].
  assert (Hsame : ∀ n, lock_inv (executed (λ _ r, (n : Z, r)) w)) by (intros n; apply (same_locks_inv w); [done | exact Hw]).
  unfold executed, RENEW_LUA. destruct (redis_get (lw_now w) key (lw_redis w)) as [q |] eqn:Hq; [| split; [apply (Hsame 0) | done]].
  destruct (String.eqb_spec (lp_owner q) o) as [Ho | Ho]; simpl; [| split; [apply (Hsame 0) | done]].
  split; [| intros _; by rewrite jget_jset_eq]. apply redis_get_Some in Hq as (eq & Hq & _). destruct (li_payload w Hw key q eq Hq) as [[_ He] _].
  set (f := λ now (r : redis), (1, Redis (jset key (p, now + hl_ttlMs h) (rd_locks r)) (rd_fences r))).
  change (lock_inv (executed f w)). apply (lock_inv_redis f key w Hw); simpl.
  - intros k Hk. by rewrite jget_jset_ne.
  - done.
  - intros p' e'. rewrite jget_jset_eq. intros [= <- <-]. simpl. unfold fence_of in Hf. split; lia.
  - intros o' h' Hh'. rewrite jget_jset_eq. exists p, (lw_now w + hl_ttlMs h). split; [done |].
    destruct (li_backed w Hw o' key h' Hh') as (p' & e' & Hp' & Ho' & He'). rewrite Hq in Hp'. injection Hp' as <- <-. split; [unfold p; simpl; congruence | lia].
Qed.

(** A manager that writes one held lock. *)
Lemma lock_inv_hold w o key h f :
  lock_inv w → (∀ m, mg_held (f m) = jset key h (mg_held m)) → hl_ttlMs h = ttl_of key → dk_fence (hl_lock h) ≤ fence_of w key →
  (hl_stolen h = false → lw_now w + margin key < dk_expiresAt (hl_lock h) →
     ∃ p e, jget key (rd_locks (lw_redis w)) = Some (p, e) ∧ lp_owner p = o ∧ dk_expiresAt (hl_lock h) ≤ e + margin key) →
  lock_inv (update_self o f w).2.
Proof.
  intros [H1 H2 H3] Hf Httl Hn Hb. split; [| exact H2 |].
  - intros o' k h' (Hk & Hs & Hg & Ht). simpl in Ht. rewrite self_update in Hk. case_decide as Ho; [| by apply H1]. subst o'.
    rewrite Hf, jget_jset in Hk. case_decide as Hkey; [| by apply (H1 o)]. subst k. injection Hk as <-. by apply Hb.
  - intros o' k h' Hk. rewrite self_update in Hk. case_decide as Ho; [| by apply (H3 o')]. subst o'.
    rewrite Hf, jget_jset in Hk. case_decide as Hkey; [| by apply (H3 o)]. subst k. by injection Hk as <-.
Qed.

(** Marking and dropping a lock, and giving it up, make nobody rely. *)
Lemma lock_inv_less w w' :
  lw_redis w' = lw_redis w → lw_now w' = lw_now w →
  (∀ o key h, relies w' o key h → relies w o key h) →
  (∀ o key h, jget key (mg_held (self o w')) = Some h →
     ∃ h0, jget key (mg_held (self o w)) = Some h0 ∧ hl_ttlMs h = hl_ttlMs h0 ∧ dk_fence (hl_lock h) = dk_fence (hl_lock h0)) →
  lock_inv w → lock_inv w'.
Proof.
  intros Hr Hn Hrel Hheld [H1 H2 H3]. split; unfold fence_of in *; rewrite ?Hr, ?Hn.
  - intros o key h Hh. by apply (H1 o), Hrel.
  - exact H2.
  - intros o key h Hk. destruct (Hheld o key h Hk) as (h0 & Hh0 & -> & ->). by apply (H3 o).
Qed.

Lemma mark_stolen_inv o key w : lock_inv w → lock_inv (mark_stolen o key w).2.
Proof.
  intros Hw. unfold mark_stolen. set (f := λ m, Manager _ _ _). rewrite (bind_run _ _ w () (update_self o f w).2) by done.
  eapply same_locks_inv; [apply stopRenew_same |].
  assert (Hf : ∀ k h, jget k (mg_held (f (self o w))) = Some h →
    ∃ h0, jget k (mg_held (self o w)) = Some h0 ∧ hl_ttlMs h = hl_ttlMs h0 ∧ hl_lock h = hl_lock h0 ∧ (hl_stolen h = false → h = h0)).
  { intros k h. unfold f. simpl. destruct (jget key (mg_held (self o w))) as [h0 |] eqn:E; [| by eauto 6].
    rewrite jget_jset. case_decide; [subst; intros [= <-]; by exists h0 | by eauto 6]. }
  eapply (lock_inv_less w); [done | done | | | exact Hw]; intros o' k h; unfold relies; rewrite self_update; case_decide as Ho; try subst o'.
  - intros (Hk & Hs & Hg & Ht). destruct (Hf k h Hk) as (h0 & Hk0 & _ & _ & Heq). assert (h = h0) as -> by auto. by split_and!.
  - done.
  - intros Hk. destruct (Hf k h Hk) as (h0 & Hk0 & Httl & Hl & _). exists h0. by rewrite Hl.
  - by eauto.
Qed.

Lemma drop_held_inv o key w :
  lock_inv w → lock_inv (update_self o (λ m, Manager (jdel key (mg_held m)) (mg_renewers m) (mg_stolen m)) w).2.
Proof.
  intros Hw. assert (Hd : ∀ k h, jget k (jdel key (mg_held (self o w))) = Some h → jget k (mg_held (self o w)) = Some h).
  { intros k h. rewrite jget_jdel. by case_decide. }
  eapply (lock_inv_less w); [done | done | | | exact Hw]; intros o' k h; unfold relies; rewrite self_update; case_decide as Ho; try subst o'; simpl.
  - intros (Hk & ?). split; [by apply Hd | done].
  - done.
  - intros Hk. exists h. split; [by apply Hd | done].
  - by eauto.
Qed.

Lemma given_up_in o key b w x :
  x ∈ lw_given_up (note_given_up o key b w).2 ↔ (x = (o, key) ∧ b = true) ∨ (x ≠ (o, key) ∧ x ∈ lw_given_up w).
Proof.
  clear ttl_of. unfold note_given_up. simpl. assert (Hf : x ∈ List.filter (λ x, negb (String.eqb x.1 o && String.eqb x.2 key)) (lw_given_up w) ↔
    x ≠ (o, key) ∧ x ∈ lw_given_up w).
  { rewrite list_elem_of_In, List.filter_In, <-list_elem_of_In. destruct x as [a b']. simpl.
    destruct (String.eqb_spec a o), (String.eqb_spec b' key); simpl; naive_solver. }
  destruct b; [rewrite elem_of_cons |]; rewrite Hf; naive_solver.
Qed.

Lemma give_up_inv o key w : lock_inv w → lock_inv (note_given_up o key true w).2.
Proof.
  apply (lock_inv_less w); [done | done | | by eauto]. intros o' k h (Hk & Hs & Hg & Ht). split; [done |]. split; [done |]. split; [| done].
  intros Hin. apply Hg, given_up_in. destruct (decide ((o', k) = (o, key))); naive_solver.
Qed.

(** ** Operations, with what happens meanwhile *)

Context (Helse : ∀ o key d w, meanwhile o key w (elsewhere o key d w) ∧ (lock_inv w → lock_inv (elsewhere o key d w))).

(** A command: something happens, then the script runs or not, then something happens. *)
Lemma eval_cases {A} o key (f : Z → redis → A * redis) w res w' :
  redis_eval o key f w = (res, w') →
  ∃ w1, meanwhile o key w w1 ∧ (lock_inv w → lock_inv w1) ∧
    (((∃ e, res = inl e) ∧ w' = w1) ∨
     (meanwhile o key (executed f w1) w' ∧ (lock_inv (executed f w1) → lock_inv w') ∧
      ((∃ e, res = inl e) ∨ res = inr (f (lw_now w1) (lw_redis w1)).1))).
Proof.
  unfold redis_eval. do 2 (erewrite bind_run by done). set (w1 := elsewhere o key (way_out w) w). rewrite (bind_run _ _ w () w1) by done.
  destruct (Helse o key (way_out w) w) as [Hm1 Hi1]. fold w1 in Hm1, Hi1.
  assert (Hex : execute_script f w1 = (inr (f (lw_now w1) (lw_redis w1)).1, executed f w1)) by (unfold execute_script, executed; by destruct (f _ _)).
  pose proof (Helse o key (way_back (executed f w1)) (executed f w1)) as [Hm2 Hi2].
  destruct (lock_command w) as [| [] e]; intros H.
  - erewrite bind_run in H by exact Hex. erewrite bind_run in H by done. erewrite bind_run in H by done. injection H as <- <-.
    exists w1. split; [done |]. split; [done |]. right. by split_and!; try right.
  - erewrite bind_run in H by exact Hex. erewrite bind_run in H by done. erewrite bind_run in H by done. injection H as <- <-.
    exists w1. split; [done |]. split; [done |]. right. split_and!; [done | done | left; by exists e].
  - injection H as <- <-. exists w1. split; [done |]. split; [done |]. left. split; [by exists e | done].
Qed.

(** A lock that was taken is remembered. *)
Lemma remember_inv o key p e opt w :
  lock_inv w → lock_ttl opt = ttl_of key → lp_owner p = o → lp_expiresAt p ≤ e → lp_fence p ≤ fence_of w key →
  (lw_now w < e → jget key (rd_locks (lw_redis w)) = Some (p, e)) →
  lock_inv (remember o key p (lock_ttl opt) opt w).2.
Proof.
  intros Hw Httl Ho He Hf Hk. unfold remember. set (h := Build_HeldLockRecord _ _ _ _). set (f := λ m, Manager _ _ _).
  assert (Hm : 0 ≤ margin key) by (unfold margin, renew_timeout; lia).
  assert (Hw1 : lock_inv (update_self o f w).2).
  { apply (lock_inv_hold w o key h f Hw); [done | done | done |]. intros _ Ht. simpl in Ht. exists p, e. split; [apply Hk; lia |]. split; [done |]. simpl. lia. }
  rewrite (bind_run _ _ w () (update_self o f w).2) by done. set (w1 := (update_self o f w).2) in *.
  rewrite (bind_run _ _ w1 () (note_given_up o key false w1).2) by done.
  destruct Hw1 as [H1 H2 H3]. split; [| exact H2 | exact H3]. intros o' k h' (Hk' & Hs & Hg & Ht).
  change (jget k (mg_held (self o' w1)) = Some h') in Hk'. destruct (decide ((o', k) = (o, key))) as [Heq | Hne].
  - injection Heq as -> ->. unfold w1 in Hk'. rewrite self_update, decide_True in Hk' by done. simpl in Hk'. rewrite jget_jset_eq in Hk'.
    injection Hk' as <-. simpl in Ht |- *. exists p, e. split; [apply Hk; lia |]. split; [done | lia].
  - apply (H1 o' k h'). split; [done |]. split; [done |]. split; [| done]. intros Hin. apply Hg, given_up_in. auto.
Qed.

Lemma attempt_inv o key opt t w : lock_ttl opt = ttl_of key → lock_inv w → lock_inv (attempt_acquire o key opt t w).2.
Proof.
  intros Httl Hw. unfold attempt_acquire, redisLockAcquire. rewrite Httl.
  set (f := λ now, ACQUIRE_LUA now (lw_now w) key (fenceKeyFor key) o (default "{}" (op_metadata opt)) (ttl_of key)).
  rewrite bind_assoc_run. erewrite bind_run by done. rewrite bind_assoc_run. destruct (redis_eval o key f w) as [res w'] eqn:Hev.
  destruct (eval_cases o key f w res w' Hev) as (w1 & Hm1 & Hi1 & Hcase). specialize (Hi1 Hw).
  destruct Hcase as [[[e ->] ->] | (Hm2 & Hi2 & Hres)]; [by erewrite bind_run_err by exact Hev |].
  assert (Hex : lock_inv (executed f w1)) by (apply acquire_script_inv; [done | apply Hm1]).
  specialize (Hi2 Hex). destruct Hres as [[e ->] | ->]; [by erewrite bind_run_err by exact Hev |]. erewrite bind_run by exact Hev. erewrite bind_run by done.
  cbn [fst snd]. pose proof (ACQUIRE_LUA_spec (lw_now w1) (lw_now w) key o (default "{}" (op_metadata opt)) (ttl_of key) (lw_redis w1)) as Hspec.
  change (ACQUIRE_LUA (lw_now w1) (lw_now w) key (fenceKeyFor key) o (default "{}" (op_metadata opt)) (ttl_of key) (lw_redis w1)) with (f (lw_now w1) (lw_redis w1)) in Hspec.
  destruct (f (lw_now w1) (lw_redis w1)) as [p r] eqn:Hf. destruct Hspec as [_ Hspec]. cbn [fst].
  destruct (String.eqb_spec (lp_owner p) o) as [Ho | Hne]; [| done].
  assert (∃ e, jget key (rd_locks (lw_redis (executed f w1))) = Some (p, e)) as [e Hp].
  { unfold executed. rewrite Hf. cbn [snd lw_redis]. destruct Hspec as [[Hg ->] | (_ & _ & _ & _ & ->)]; [| rewrite jget_jset_eq; by eexists].
    apply redis_get_Some in Hg as (e & Hg & _). by exists e. }
  destruct (li_payload _ Hex key p e Hp) as [[He _] Hfe].
  assert (lock_inv (remember o key p (ttl_of key) opt w').2) as Hrem.
  { rewrite <-Httl. apply (remember_inv o key p e opt w' Hi2 Httl Ho He); [pose proof (mw_fence _ _ _ _ Hm2 key); lia |].
    intros Hlt. by apply (mw_kept _ _ _ _ Hm2). }
  destruct (remember o key p (ttl_of key) opt w') as [[x | l] w2] eqn:Hr; [by erewrite bind_run_err by exact Hr |]. erewrite bind_run by exact Hr. simpl in Hrem.
  destruct (startRenew o key opt w2) as [[x | []] w3] eqn:Hs; pose proof (startRenew_same o key opt w2) as Hsame; rewrite Hs in Hsame;
    apply same_locks_inv in Hsame; [by erewrite bind_run_err by exact Hs | done | by erewrite bind_run by exact Hs | done].
Qed.

Lemma release_inv o key w : lock_inv w → lock_inv (release o key w).2.
Proof.
  intros Hw. unfold release, redisLockRelease. set (w0 := (note_given_up o key true w).2). rewrite (bind_run _ _ w () w0) by done.
  set (w1 := (stopRenew o key w0).2). rewrite (bind_run _ _ w0 () w1) by done.
  assert (Hw1 : lock_inv w1) by (eapply same_locks_inv; [apply stopRenew_same | by apply give_up_inv]).
  assert (Hg : (o, key) ∈ lw_given_up w1) by (apply (given_up_in o key true w); by left).
  rewrite bind_assoc_run. set (f := λ now, RELEASE_LUA now key o). destruct (redis_eval o key f w1) as [res w'] eqn:Hev.
  assert (Hw' : lock_inv w').
  { destruct (eval_cases o key f w1 res w' Hev) as (w2 & Hm & Hi & [[_ ->] | (_ & Hi2 & _)]); [by apply Hi |].
    apply Hi2, release_script_inv; [by apply Hi | by apply Hm]. }
  destruct res as [e | n]; [by erewrite bind_run_err by exact Hev |]. erewrite bind_run by exact Hev. erewrite bind_run by done.
  set (g := λ m, Manager _ _ _). rewrite (bind_run _ _ w' () (update_self o g w').2) by done. by apply drop_held_inv.
Qed.

(** What the script of a renewal leaves: the invariant, the record as it was, and, if it
    went through, an entry that lasts the TTL from its execution, which was not before
    the command was sent. *)
Lemma renew_script o key h w res w' :
  lock_inv w → jget key (mg_held (self o w)) = Some h →
  redisLockRenew o key (hl_ttlMs h) (dk_metadata (hl_lock h)) (dk_fence (hl_lock h)) w = (res, w') →
  lock_inv w' ∧ jget key (mg_held (self o w')) = Some h ∧ lw_now w ≤ lw_now w' ∧
  (res = inr renew_ok → ∃ p t, lw_now w ≤ t ≤ lw_now w' ∧ lp_owner p = o ∧
     (lw_now w' < t + hl_ttlMs h → jget key (rd_locks (lw_redis w')) = Some (p, t + hl_ttlMs h))).
Proof.
  intros Hw Hh Hrun. unfold redisLockRenew in Hrun. erewrite bind_run in Hrun by done.
  set (p := {| lp_owner := o; lp_acquiredAt := lw_now w; lp_expiresAt := lw_now w + hl_ttlMs h; lp_fence := dk_fence (hl_lock h);
               lp_metadata := dk_metadata (hl_lock h) |}) in *.
  set (f := λ now, RENEW_LUA now key o (hl_ttlMs h) p) in *. destruct (redis_eval o key f w) as [r w2] eqn:Hev.
  destruct (eval_cases o key f w r w2 Hev) as (w1 & Hm1 & Hi1 & Hcase). specialize (Hi1 Hw).
  assert (Hh1 : jget key (mg_held (self o w1)) = Some h) by (by rewrite (mw_held _ _ _ _ Hm1)).
  pose proof (mw_now _ _ _ _ Hm1) as Hn1. destruct (renew_script_inv o key h (dk_metadata (hl_lock h)) (lw_now w) w1 Hi1 Hh1 Hn1) as [Hex Hok].
  fold p in Hex, Hok. change (lock_inv (executed f w1)) in Hex.
  assert (Hfin : lock_inv w2 ∧ jget key (mg_held (self o w2)) = Some h ∧ lw_now w ≤ lw_now w2 ∧
    (r = inr 1 → ∃ t, lw_now w ≤ t ≤ lw_now w2 ∧
      (lw_now w2 < t + hl_ttlMs h → jget key (rd_locks (lw_redis w2)) = Some (p, t + hl_ttlMs h)))).
  { destruct Hcase as [[[e ->] ->] | (Hm2 & Hi2 & Hres)]; [done |]. pose proof (mw_now _ _ _ _ Hm2) as Hn2. change (lw_now (executed f w1)) with (lw_now w1) in Hn2.
    split; [by apply Hi2 |]. split; [rewrite (mw_held _ _ _ _ Hm2); exact Hh1 |]. split; [lia |]. intros ->.
    destruct Hres as [[e He] | Hres]; [done |]. injection Hres as Hres. exists (lw_now w1). split; [lia |]. intros Hlt.
    apply (mw_kept _ _ _ _ Hm2); [apply Hok; by symmetry | done | done]. }
  destruct Hfin as (F1 & F2 & F3 & F4). destruct r as [e | n]; [erewrite bind_run_err in Hrun by exact Hev | erewrite bind_run in Hrun by exact Hev];
    injection Hrun as <- <-; (split; [done |]); (split; [done |]); (split; [done |]); [done |].
  destruct (Z.eqb_spec n 1) as [-> | Hne]; [| by destruct (n =? -1)]. intros _. destruct (F4 eq_refl) as (t & Ht & Hk). by exists p, t.
Qed.

Lemma extend_inv o key h w t p :
  lock_inv w → jget key (mg_held (self o w)) = Some h → lw_now w - t < margin key → lp_owner p = o →
  (lw_now w < t + hl_ttlMs h → jget key (rd_locks (lw_redis w)) = Some (p, t + hl_ttlMs h)) →
  lock_inv (extend_held o key (lw_now w + hl_ttlMs h) w).2.
Proof.
  intros Hw Hh Hlag Ho Hk. destruct (li_held w Hw o key h Hh) as [Httl Hf].
  set (h' := {| hl_lock := {| dk_key := dk_key (hl_lock h); dk_owner := dk_owner (hl_lock h); dk_acquiredAt := dk_acquiredAt (hl_lock h);
                dk_expiresAt := lw_now w + hl_ttlMs h; dk_metadata := dk_metadata (hl_lock h); dk_fence := dk_fence (hl_lock h) |};
                hl_stolen := hl_stolen h; hl_ttlMs := hl_ttlMs h; hl_autoRenew := hl_autoRenew h |}).
  assert (Heq : extend_held o key (lw_now w + hl_ttlMs h) w = update_self o (λ m, Manager (jset key h' (mg_held m)) (mg_renewers m) (mg_stolen m)) w).
  { unfold extend_held, update_self, modify. do 3 f_equal. by rewrite Hh. }
  rewrite Heq. apply (lock_inv_hold w o key h'); [done | done | done | done |]. simpl. intros _ Ht. exists p, (t + hl_ttlMs h).
  split; [apply Hk; lia |]. split; [done | lia].
Qed.

Lemma renew_inv o fate key w : lock_inv w → lock_inv (renew o fate key w).2.
Proof.
  intros Hw. unfold renew. erewrite bind_run by done. destruct (jget key (mg_held (self o w))) as [h |] eqn:Hh; [| done].
  erewrite bind_run by done. set (script := redisLockRenew _ _ _ _ _).
  assert (Hstolen : ∀ w1, lock_inv w1 → lock_inv ((mark_stolen o key;; mret false : M lworld bool) w1).2).
  { intros w1 Hw1. pose proof (mark_stolen_inv o key w1 Hw1) as Hi. destruct (mark_stolen o key w1) as [[e | []] w2] eqn:Hr; simpl in Hi.
    - by erewrite bind_run_err by exact Hr.
    - by erewrite bind_run by exact Hr. }
  destruct (script w) as [res w1] eqn:Hs. destruct (renew_script o key h w res w1 Hw Hh Hs) as (Hw1 & Hh1 & Hn & Hok).
  destruct fate as [| []].
  - set (b := match res with inr renew_ok => true | _ => false end).
    rewrite (bind_run _ _ w b w1); [| unfold b, try_catch; destruct res as [e | r]; [by erewrite bind_run_err by exact Hs | by erewrite bind_run by exact Hs]].
    erewrite bind_run by done. destruct (b && _) eqn:Hb; [| by apply Hstolen]. apply andb_true_iff in Hb as [Hb Hlag%Z.ltb_lt].
    destruct res as [e | []]; try done. destruct (Hok eq_refl) as (p & t & Ht & Ho & Hk).
    change (lock_inv (extend_held o key (lw_now w1 + hl_ttlMs h) w1).2). eapply (extend_inv o key h w1 t p); [done | done | | done | done].
    unfold margin. destruct (li_held w Hw o key h Hh) as [<- _]. lia.
  - assert (Htry : try_catch (script;; mret ()) (λ _, mret ()) w = (inr (), w1)).
    { unfold try_catch. destruct res as [e | r]; [by erewrite bind_run_err by exact Hs | by erewrite bind_run by exact Hs]. }
    erewrite bind_run; [| erewrite bind_run by exact Htry; erewrite bind_run by done; done]. erewrite bind_run by done. by apply Hstolen, Helse.
  - erewrite bind_run; [| erewrite bind_run by done; erewrite bind_run by done; done]. erewrite bind_run by done. by apply Hstolen, Helse.
Qed.

(** ** Histories *)

Lemma attempt_keeps o key opt t : lock_ttl opt = ttl_of key → evolves (keeps lock_inv) (attempt_acquire o key opt t).
Proof. intros Ht w Hw. by apply attempt_inv. Qed.
Lemma release_keeps o key : evolves (keeps lock_inv) (release o key).
Proof. intros w Hw. by apply release_inv. Qed.
Lemma lock_sleep_keeps o key d : evolves (keeps lock_inv) (lock_sleep o key d).
Proof. intros w Hw. by apply Helse. Qed.
#[local] Hint Resolve attempt_keeps release_keeps lock_sleep_keeps : evolve.

Lemma acquire_keeps o key opt : lock_ttl opt = ttl_of key → evolves (keeps lock_inv) (acquire o key opt).
Proof.
  intros Ht. assert (∀ fuel t n, evolves (keeps lock_inv) (acquire_rounds o fuel key opt t n)) as Hr.
  { induction fuel as [| fuel IH]; intros t n; simpl; evolve; auto with evolve. }
  unfold acquire. evolve; apply Hr.
Qed.
#[local] Hint Resolve acquire_keeps : evolve.

Inductive lock_op :=
| LkAcquire (owner key : string) (options : LockOptions)
| LkHierarchy (owner workflowId : string) (stepName : option string) (options : LockOptions)
| LkRelease (owner key : string)
| LkReleaseAll (owner : string)
| LkRenew (owner : string) (fate : renew_fate) (key : string)
| LkWait (ms : N).

Definition lock_step w (op : lock_op) : lworld :=
  match op with
  | LkAcquire o k opt => (acquire o k opt w).2
  | LkHierarchy o wf st opt => (acquireHierarchy o wf st opt w).2
  | LkRelease o k => (release o k w).2
  | LkReleaseAll o => (releaseAll o w).2
  | LkRenew o f k => (renew o f k w).2
  | LkWait ms => LWorld (lw_redis w) (lw_managers w) (lw_given_up w) (lw_now w + Z.of_N ms)
  end.

(** The operation uses the TTL of its keys. *)
Definition uses_ttl (op : lock_op) : Prop :=
  match op with
  | LkAcquire _ k opt => lock_ttl opt = ttl_of k
  | LkHierarchy _ wf st opt =>
      lock_ttl opt = ttl_of (lockKeyForWorkflow wf) ∧ lock_ttl opt = ttl_of (lockKeyForStep wf (default "" st))
  | _ => True
  end.

Lemma lock_step_inv w op : uses_ttl op → lock_inv w → lock_inv (lock_step w op).
Proof.
  intros Ho Hw. destruct op as [o k opt | o wf st opt | o k | o | o f k | ms]; simpl in *.
  - by apply acquire_keeps.
  - destruct Ho as [H1 H2]. assert (evolves (keeps lock_inv) (acquireHierarchy o wf st opt)) as H by (unfold acquireHierarchy; evolve; auto with evolve). by apply H.
  - by apply release_inv.
  - assert (evolves (keeps lock_inv) (releaseAll o)) as H by (unfold releaseAll; evolve; auto with evolve). by apply H.
  - by apply renew_inv.
  - destruct Hw as [H1 H2 H3]. split; [| | exact H3].
    + intros o k h (Hk & Hs & Hg & Ht). simpl in Ht. apply (H1 o). split_and!; [done | done | done | lia].
    + intros k p e Hk. destruct (H2 k p e Hk) as [? ?]. split; [simpl; lia | done].
Qed.

(** ** Fences *)

Definition fences_grow w w' : Prop := ∀ k, fence_of w k ≤ fence_of w' k.
#[local] Instance fences_grow_preorder : PreOrder fences_grow.
Proof. split; [by intros w k | intros a b c H1 H2 k]. specialize (H1 k). specialize (H2 k). lia. Qed.

Lemma eval_fences {A} o key (f : Z → redis → A * redis) :
  (∀ w, fences_grow w (executed f w)) → evolves fences_grow (redis_eval o key f).
Proof.
  intros Hf w. destruct (redis_eval o key f w) as [res w'] eqn:Hev.
  destruct (eval_cases o key f w res w' Hev) as (w1 & Hm1 & _ & [[_ ->] | (Hm2 & _)]); [exact (mw_fence _ _ _ _ Hm1) |].
  etrans; [exact (mw_fence _ _ _ _ Hm1) |]. etrans; [apply Hf | exact (mw_fence _ _ _ _ Hm2)].
Qed.

Lemma acquire_script_fences o key md ttl sent w : fences_grow w (executed (λ now, ACQUIRE_LUA now sent key (fenceKeyFor key) o md ttl) w).
Proof.
  intros k. pose proof (ACQUIRE_LUA_spec (lw_now w) sent key o md ttl (lw_redis w)) as Hspec. unfold executed, fence_of. cbn [lw_redis].
  destruct (ACQUIRE_LUA _ _ _ _ _ _ _ _) as [p r]. destruct Hspec as [Hfs _]. cbn [snd]. rewrite Hfs, fence_jset. case_decide; [subst; lia | lia].
Qed.

Lemma release_script_fences o key w : fences_grow w (executed (λ now, RELEASE_LUA now key o) w).
Proof. unfold executed, RELEASE_LUA. intros k. destruct (redis_get _ _ _) as [q |]; simpl; [by destruct (String.eqb _ _) | done]. Qed.
Lemma renew_script_fences o key ttl p w : fences_grow w (executed (λ now, RENEW_LUA now key o ttl p) w).
Proof. unfold executed, RENEW_LUA. intros k. destruct (redis_get _ _ _) as [q |]; simpl; [by destruct (String.eqb _ _) | done]. Qed.

Lemma sleep_fences o key d : evolves fences_grow (lock_sleep o key d).
Proof. intros w. exact (mw_fence _ _ _ _ (proj1 (Helse o key d w))). Qed.
Lemma update_fences o f : evolves fences_grow (update_self o f).
Proof. by intros w k. Qed.
Lemma given_fences o key b : evolves fences_grow (note_given_up o key b).
Proof. by intros w k. Qed.
#[local] Hint Resolve sleep_fences update_fences given_fences : evolve.
Lemma remember_fences o key p ttl opt : evolves fences_grow (remember o key p ttl opt).
Proof. unfold remember. evolve; auto with evolve. Qed.
Lemma startRenew_fences o key opt : evolves fences_grow (startRenew o key opt).
Proof. unfold startRenew, stopRenew. evolve; auto with evolve. Qed.
#[local] Hint Resolve remember_fences startRenew_fences : evolve.

Lemma attempt_fences o key opt t : evolves fences_grow (attempt_acquire o key opt t).
Proof. unfold attempt_acquire, redisLockAcquire. evolve; auto with evolve. apply eval_fences, acquire_script_fences. Qed.
Lemma release_fences o key : evolves fences_grow (release o key).
Proof. unfold release, stopRenew, redisLockRelease. evolve; auto with evolve. apply eval_fences, release_script_fences. Qed.
Lemma renew_fences o fate key : evolves fences_grow (renew o fate key).
Proof.
  assert (∀ ttl md n, evolves fences_grow (redisLockRenew o key ttl md n)) as Hs.
  { intros ttl md n. unfold redisLockRenew. evolve. apply eval_fences, renew_script_fences. }
  unfold renew, mark_stolen, extend_held, stopRenew. evolve; auto with evolve.
Qed.
#[local] Hint Resolve attempt_fences release_fences renew_fences : evolve.

Lemma acquire_fences o key opt : evolves fences_grow (acquire o key opt).
Proof.
  assert (∀ fuel t n, evolves fences_grow (acquire_rounds o fuel key opt t n)) as Hr.
  { induction fuel as [| fuel IH]; intros t n; simpl; evolve; auto with evolve. }
  unfold acquire. evolve; apply Hr.
Qed.
#[local] Hint Resolve acquire_fences : evolve.

Lemma steps_fences ops w : fences_grow w (foldl lock_step w ops).
Proof.
  revert w. induction ops as [| op ops IH]; intros w; simpl; [done |]. etrans; [| apply IH].
  destruct op as [o k opt | o wf st opt | o k | o | o f k | ms]; simpl.
  - apply acquire_fences.
  - unfold acquireHierarchy. by_evolve; auto with evolve.
  - apply release_fences.
  - unfold releaseAll. by_evolve; auto with evolve.
  - apply renew_fences.
  - by intros k.
Qed.

(** A successful attempt: of a lock the instance has in Redis, or of a free one, with a
    number above all that were counted before. *)
Lemma attempt_success o key opt t w r w' :
  lock_inv w → attempt_acquire o key opt t w = (inr (inr r), w') →
  ∃ l, lr_lock r = Some l ∧ dk_owner l = o ∧ dk_fence l ≤ fence_of w' key ∧
    ((∃ p e, jget key (rd_locks (lw_redis w)) = Some (p, e) ∧ lp_owner p = o) ∨ fence_of w key < dk_fence l).
Proof.
  intros Hw H. unfold attempt_acquire, redisLockAcquire in H. rewrite bind_assoc_run in H. erewrite bind_run in H by done.
  rewrite bind_assoc_run in H. apply bind_inr in H as (p & w2 & Hev & H). erewrite bind_run in H by done. cbn [fst snd] in H.
  destruct (eval_cases _ _ _ _ _ _ Hev) as (w1 & Hm1 & Hi1 & Hcase). specialize (Hi1 Hw).
  destruct Hcase as [[[e ?] _] | (Hm2 & _ & [[e ?] | Hres])]; [done | done |]. injection Hres as Hres.
  pose proof (ACQUIRE_LUA_spec (lw_now w1) (lw_now w) key o (default "{}" (op_metadata opt)) (lock_ttl opt) (lw_redis w1)) as Hspec.
  pose proof (mw_fence _ _ _ _ Hm2 key) as Hf2. unfold fence_of at 1, executed in Hf2. cbn [lw_redis] in Hf2.
  destruct (ACQUIRE_LUA _ _ _ _ _ _ _ _) as [q r2]. cbn [fst snd] in *. subst q.
  destruct (String.eqb_spec (lp_owner p) o) as [Ho |]; [| done].
  apply bind_inr in H as (l & w3 & Hrem & H). apply bind_inr in H as ([] & w4 & Hst & H). injection H as <- <-.
  assert (fences_grow w2 w4) as Hg.
  { transitivity w3; [eapply evolves_run; [apply remember_fences | exact Hrem] | eapply evolves_run; [apply startRenew_fences | exact Hst]]. }
  unfold remember in Hrem. do 2 (erewrite bind_run in Hrem by done). injection Hrem as <- <-.
  exists (lock_of key p). split; [done |]. split; [done |].
  specialize (Hg key). destruct Hspec as [Hfs [[Hget _] | (_ & _ & Hf & _)]].
  - apply redis_get_Some in Hget as (e & Hget & _). destruct (li_payload w1 Hi1 key p e Hget) as [_ Hle].
    rewrite Hfs, fence_jset, decide_True in Hf2 by done. unfold fence_of at 1 in Hle. split; [simpl; lia |]. left. exists p, e. split; [| done]. by apply (mw_named _ _ _ _ Hm1).
  - rewrite Hfs, fence_jset, decide_True in Hf2 by done. pose proof (mw_fence _ _ _ _ Hm1 key) as Hf1. unfold fence_of at 2 in Hf1.
    simpl. split; [lia |]. right. lia.
Qed.

(** C20. A lock excludes the other instances, with the time commands and their answers
    take.  Over every history of acquisitions, hierarchical acquisitions, renewals
    (answered in time or late, failed or timed out), releases and waits of any number of
    instances, in which every acquisition of a key uses the same TTL, and in which what happens
    while an operation waits satisfies [meanwhile] and keeps the invariant, as the
    operations of other instances do ([acquire_meanwhile] and so on, [lock_step_inv]): two instances never rely on the
    same lock at the same time, where an instance relies on a lock it holds and has not
    seen stolen, from its acquisition to the call of its release, until the time-out of a
    renewal before the expiry it has noted; while one relies on it, Redis refuses the lock
    to every other; and the number of a newly taken lock is greater than that of every
    lock granted for the key before, held any more or not, so that a resource can refuse a
    late holder.  Without the margin exclusion fails: see [late_answer_overlaps]. *)
Theorem lock_exclusive ops w :
  lock_inv w → Forall uses_ttl ops → let w' := foldl lock_step w ops in
  (∀ key o h o' h', relies w' o key h → relies w' o' key h' → o = o') ∧
  (∀ key o h o' sent md ttl, relies w' o key h → o' ≠ o →
     let '(p, r) := ACQUIRE_LUA (lw_now w') sent key (fenceKeyFor key) o' md ttl (lw_redis w') in
     lp_owner p = o ∧ rd_locks r = rd_locks (lw_redis w')) ∧
  (∀ key o opt t r w1 ops' o' opt' t' r' w2,
     attempt_acquire o key opt t w' = (inr (inr r), w1) → lock_ttl opt = ttl_of key → Forall uses_ttl ops' →
     let w'' := foldl lock_step w1 ops' in
     (∀ p e, jget key (rd_locks (lw_redis w'')) = Some (p, e) → lp_owner p ≠ o') →
     attempt_acquire o' key opt' t' w'' = (inr (inr r'), w2) →
     ∃ l l', lr_lock r = Some l ∧ lr_lock r' = Some l' ∧ dk_owner l = o ∧ dk_owner l' = o' ∧ dk_fence l < dk_fence l').
Proof.
  intros Hw Hops w'. assert (Hsteps : ∀ ops w, Forall uses_ttl ops → lock_inv w → lock_inv (foldl lock_step w ops)).
  { clear -Helse. intros ops w Hops. revert w. induction Hops as [| op ops Ho _ IH]; intros w Hw; simpl; [done |]. by apply IH, lock_step_inv. }
  pose proof (Hsteps ops w Hops Hw) as H. fold w' in H. split_and!.
  - intros key o h o' h' H1 H2. destruct (relies_get w' o key h H H1) as (p & Hp & <-).
    destruct (relies_get w' o' key h' H H2) as (p' & Hp' & <-). congruence.
  - intros key o h o' sent md ttl H1 Hne. pose proof (ACQUIRE_LUA_spec (lw_now w') sent key o' md ttl (lw_redis w')) as Hspec.
    destruct (relies_get w' o key h H H1) as (p & Hp & Ho). destruct (ACQUIRE_LUA _ _ _ _ _ _ _ _) as [q r].
    destruct Hspec as [_ [[Hq Hl] | (Hq & _)]]; [| congruence]. split; [congruence | done].
  - intros key o opt t r w1 ops' o' opt' t' r' w2 Ha Httl Hops' w'' Hfree Ha'.
    destruct (attempt_success _ _ _ _ _ _ _ H Ha) as (l & Hl & Ho & Hf & _).
    assert (lock_inv w1) as Hw1 by (pose proof (attempt_inv o key opt t w' Httl H) as Hi; by rewrite Ha in Hi).
    destruct (attempt_success _ _ _ _ _ _ _ (Hsteps ops' w1 Hops' Hw1) Ha') as (l' & Hl' & Ho' & _ & Hcase).
    exists l, l'. do 4 (split; [done |]). destruct Hcase as [(p & e & Hp & Hpo) | Hlt]; [by destruct (Hfree p e Hp) |].
    pose proof (steps_fences ops' w1 key). lia.
Qed.
End exclusion.

(** ** The operations of the others *)

(** Operations of other instances are what [meanwhile] allows, if what happens during
    them is. *)
Section others.
Context `{LE : LockEnv} (o key : string) (Hall : ∀ o2 k d w, meanwhile o key w (elsewhere o2 k d w)).
Context (o2 : string) (Hother : o2 ≠ o).
Implicit Types w : lworld.

#[local] Instance meanwhile_preorder : PreOrder (meanwhile o key).
Proof.
  split; [by intros w; split |]. intros a b c [A1 A2 A3 A4 A5 A6] [B1 B2 B3 B4 B5 B6]. split.
  - lia.
  - congruence.
  - by rewrite B3.
  - intros p e Hp Ho Hlt. apply B4; [apply A4; [done | done | lia] | done | done].
  - intros p e Hp Ho. auto.
  - intros k. specialize (A6 k). specialize (B6 k). lia.
Qed.

Lemma update_meanwhile f : evolves (meanwhile o key) (update_self o2 f).
Proof. intros w. split; try done. by rewrite self_update, decide_False. Qed.
Lemma given_meanwhile k b : evolves (meanwhile o key) (note_given_up o2 k b).
Proof. intros w. split; try done. rewrite (given_up_in o2 k b w). naive_solver. Qed.
Lemma sleep_meanwhile k d : evolves (meanwhile o key) (lock_sleep o2 k d).
Proof. intros w. apply Hall. Qed.

(** A script that leaves the entries of [o] and writes none in its name. *)
Lemma eval_meanwhile {A} k (f : Z → redis → A * redis) :
  (∀ w, fences_grow w (executed f w)) →
  (∀ w p e, lp_owner p = o → jget key (rd_locks (lw_redis w)) = Some (p, e) → lw_now w < e → jget key (rd_locks (lw_redis (executed f w))) = Some (p, e)) →
  (∀ w p e, lp_owner p = o → jget key (rd_locks (lw_redis (executed f w))) = Some (p, e) → jget key (rd_locks (lw_redis w)) = Some (p, e)) →
  evolves (meanwhile o key) (redis_eval o2 k f).
Proof.
  intros Hf Hk Hn. assert (evolves (meanwhile o key) (execute_script f)) as He.
  { intros w. assert ((execute_script f w).2 = executed f w) as -> by (unfold execute_script, executed; by destruct (f _ _)).
    split; try done; [intros p e Hp Ho Hlt; by apply Hk | intros p e Hp Ho; by apply Hn | apply Hf]. }
  unfold redis_eval. evolve; auto using sleep_meanwhile.
Qed.

Lemma scripts_meanwhile k :
  (∀ sent md ttl, evolves (meanwhile o key) (redis_eval o2 k (λ now, ACQUIRE_LUA now sent k (fenceKeyFor k) o2 md ttl))) ∧
  evolves (meanwhile o key) (redis_eval o2 k (λ now, RELEASE_LUA now k o2)) ∧
  (∀ ttl p, lp_owner p = o2 → evolves (meanwhile o key) (redis_eval o2 k (λ now, RENEW_LUA now k o2 ttl p))).
Proof.
  split_and!.
  - intros sent md ttl. apply eval_meanwhile; [intros w; apply acquire_script_fences | |]; intros w p e Ho; unfold executed; cbn [lw_redis];
      pose proof (ACQUIRE_LUA_spec (lw_now w) sent k o2 md ttl (lw_redis w)) as Hspec; destruct (ACQUIRE_LUA _ _ _ _ _ _ _ _) as [q r]; cbn [snd];
      destruct Hspec as [_ [[_ ->] | (Hg & Hq & _ & _ & ->)]]; try done; rewrite jget_jset; case_decide as Hk; try done; subst k.
    + intros Hp Hlt. exfalso. assert (redis_get (lw_now w) key (lw_redis w) = Some p) as E by (apply redis_get_Some; by exists e). congruence.
    + intros [= -> <-]. congruence.
  - apply eval_meanwhile; [intros w; apply release_script_fences | |]; intros w p e Ho; unfold executed, RELEASE_LUA; cbn [lw_redis];
      destruct (redis_get _ _ _) as [q |] eqn:Hq; try done; destruct (String.eqb_spec (lp_owner q) o2) as [Hqo |]; try done; simpl; rewrite jget_jdel; case_decide as Hk; try done.
    subst k. intros Hp _. apply redis_get_Some in Hq as (e' & Hq & _). rewrite Hp in Hq. injection Hq as -> ->. congruence.
  - intros ttl p' Hp'. apply eval_meanwhile; [intros w; apply renew_script_fences | |]; intros w p e Ho; unfold executed, RENEW_LUA; cbn [lw_redis];
      destruct (redis_get _ _ _) as [q |] eqn:Hq; try done; destruct (String.eqb_spec (lp_owner q) o2) as [Hqo |]; try done; simpl; rewrite jget_jset; case_decide as Hk; try done; subst k.
    + intros Hp _. apply redis_get_Some in Hq as (e' & Hq & _). rewrite Hp in Hq. injection Hq as -> ->. congruence.
    + intros [= <- <-]. congruence.
Qed.

Lemma acquire_meanwhile k opt : evolves (meanwhile o key) (acquire o2 k opt).
Proof.
  destruct (scripts_meanwhile k) as (Ha & _). assert (∀ fuel t n, evolves (meanwhile o key) (acquire_rounds o2 fuel k opt t n)) as Hr.
  { induction fuel as [| fuel IH]; intros t n; simpl; unfold attempt_acquire, redisLockAcquire, remember, startRenew, stopRenew;
      evolve; auto using update_meanwhile, given_meanwhile, sleep_meanwhile. }
  unfold acquire. evolve; apply Hr.
Qed.

Lemma release_meanwhile k : evolves (meanwhile o key) (release o2 k).
Proof.
  destruct (scripts_meanwhile k) as (_ & Hr & _). unfold release, stopRenew, redisLockRelease. evolve; auto using update_meanwhile, given_meanwhile.
Qed.

Lemma renew_meanwhile fate k : evolves (meanwhile o key) (renew o2 fate k).
Proof.
  destruct (scripts_meanwhile k) as (_ & _ & Hr). unfold renew, mark_stolen, extend_held, stopRenew, redisLockRenew.
  evolve; auto using update_meanwhile, sleep_meanwhile.
Qed.
End others.

(** ** The end of a waiting acquisition *)

(** A sleep takes its time and at most [late] more; a command is answered or fails within
    [command]. *)
Section waiting.
Context `{LE : LockEnv} (late command : Z).
Context (Hclock : ∀ o k d w, 0 ≤ d → lw_now w + d ≤ lw_now (elsewhere o k d w) ≤ lw_now w + d + late).
Context (Hcommand : ∀ w w', 0 ≤ way_out w ∧ 0 ≤ way_back w' ∧ way_out w + way_back w' + 2 * late ≤ command).

Lemma eval_now {A} o key (f : Z → redis → A * redis) w : 0 ≤ lw_now (redis_eval o key f w).2 - lw_now w ≤ command.
Proof.
  unfold redis_eval. do 2 (erewrite bind_run by done). set (w1 := elsewhere o key (way_out w) w). rewrite (bind_run _ _ w () w1) by done.
  pose proof (Hcommand w (executed f w1)) as (C1 & C2 & C3). pose proof (Hclock o key (way_out w) w C1) as T1. fold w1 in T1.
  pose proof (Hclock o key (way_back (executed f w1)) (executed f w1) C2) as T2. change (lw_now (executed f w1)) with (lw_now w1) in T2.
  assert (Hex : execute_script f w1 = (inr (f (lw_now w1) (lw_redis w1)).1, executed f w1)) by (unfold execute_script, executed; by destruct (f _ _)).
  destruct (lock_command w) as [| [] e].
  - erewrite bind_run by exact Hex. erewrite bind_run by done. erewrite bind_run by done. simpl. lia.
  - erewrite bind_run by exact Hex. erewrite bind_run by done. erewrite bind_run by done. simpl. lia.
  - simpl. lia.
Qed.

Lemma attempt_now o key opt t w : 0 ≤ lw_now (attempt_acquire o key opt t w).2 - lw_now w ≤ command.
Proof.
  unfold attempt_acquire, redisLockAcquire. rewrite bind_assoc_run. erewrite bind_run by done. rewrite bind_assoc_run.
  set (f := λ now, ACQUIRE_LUA _ _ _ _ _ _ _). pose proof (eval_now o key f w) as Ht. destruct (redis_eval o key f w) as [[e | p] w'] eqn:Hev.
  { by erewrite bind_run_err by exact Hev. }
  erewrite bind_run by exact Hev. erewrite bind_run by done. cbn [fst snd] in *. destruct (String.eqb _ _); [| done].
  set (R := λ a b : lworld, lw_now b = lw_now a). assert (PreOrder R) by (split; [done | intros a b c ? ?; unfold R in *; congruence]).
  match goal with |- 0 ≤ lw_now (?c w').2 - _ ≤ _ => assert (evolves R c) as Hc end.
  { assert (∀ g, evolves R (update_self o g)) by (by intros g x). assert (∀ b, evolves R (note_given_up o key b)) by (by intros b x).
    unfold remember, startRenew, stopRenew. evolve; auto. }
  specialize (Hc w'). unfold R in Hc. rewrite Hc. exact Ht.
Qed.

Lemma acquire_rounds_end o (fuel : nat) key opt started n w :
  0 ≤ n ≤ Z.max 0 (wait_timeout opt) → n ≤ lw_now w - started < Z.max 1 (wait_timeout opt + 200 + late) →
  Z.max 0 (wait_timeout opt) - n < Z.of_nat fuel →
  let '(r, w') := acquire_rounds o fuel key opt started n w in
  r ≠ inr None ∧ lw_now w' - started < Z.max 1 (wait_timeout opt + 200 + late) + command.
Proof.
  revert n w. induction fuel as [| fuel IH]; intros n w Hn Ht Hfuel; [lia |]. simpl. unfold mbind at 1, M_bind at 1.
  pose proof (attempt_now o key opt started w) as Hnow. destruct (attempt_acquire o key opt started w) as [[e | [p | r]] w1]; simpl in Hnow.
  - split; [done | lia].
  - erewrite bind_run by done. cbv zeta. destruct (_ || _) eqn:Hb; [split; [done | simpl; lia] |]. apply orb_false_iff in Hb as [Hb1 Hb2].
    set (d := Z.min (DEFAULT_BACKOFF_MS * (n + 1)) 200). assert (Hd : 1 ≤ d ≤ 200) by (unfold d, DEFAULT_BACKOFF_MS; lia).
    erewrite bind_run by done. pose proof (Hclock o key d w1 ltac:(lia)). apply IH; lia.
  - split; [done | simpl; lia].
Qed.

(** C40. Waiting for a lock ends: if every command of Redis is answered or fails within
    [command] milliseconds and a sleep is at most [late] milliseconds late, [acquire]
    returns, with the lock or with an error, for every behaviour of the other instances,
    at the latest one back-off pause of 200 ms and one command after its time-out.  The
    code has no time-out of its own for the command: one that hangs keeps it waiting. *)
Theorem acquire_ends o key opt w :
  let '(r, w') := acquire o key opt w in
  r ≠ inr None ∧ lw_now w' - lw_now w < Z.max 1 (wait_timeout opt + 200 + late) + command.
Proof.
  unfold acquire. erewrite bind_run by done. pose proof (Hclock o key 0 w ltac:(lia)). apply acquire_rounds_end; lia.
Qed.
End waiting.

(** ** Concrete histories *)

Definition pass_time (d : Z) (w : lworld) : lworld := LWorld (lw_redis w) (lw_managers w) (lw_given_up w) (lw_now w + Z.max 0 d).

(** Commands are answered; nothing happens meanwhile but that time passes. *)
Definition quiet_locks (out back : lworld → Z) : LockEnv := {|
  lock_command := λ _, Answered; way_out := out; way_back := back; elsewhere := λ _ _ d w, pass_time d w |}.

Definition options (ttl wait : Z) : LockOptions :=
  {| op_ttlMs := ttl; op_autoRenew := None; op_metadata := None; op_waitTimeoutMs := Some wait |}.
Definition free_locks : lworld := LWorld (Redis [] []) [] [] 0.

Lemma pass_time_ok ttl_of o k d w : meanwhile o k w (pass_time d w) ∧ (lock_inv ttl_of w → lock_inv ttl_of (pass_time d w)).
Proof.
  split; [split; try done; simpl; lia |]. intros [H1 H2 H3]. split; [| | exact H3].
  - intros o' k' h (Hk & Hs & Hg & Ht). simpl in Ht. apply (H1 o'). split_and!; [done | done | done | lia].
  - intros k' p e Hk. destruct (H2 k' p e Hk) as [? ?]. split; [simpl; lia | done].
Qed.

(** From the time 1000 on, while another instance waits for Redis or sleeps, "b" tries to
    take the lock "k". *)
Definition rival (w : lworld) : lworld := (acquire (LE := quiet_locks (λ _, 3) (λ _, 2)) "b" "k" (options 4000 0) w).2.
Definition contended : LockEnv := {|
  lock_command := λ _, Answered; way_out := λ _, 40; way_back := λ _, 60;
  elsewhere := λ o _ d w, if String.eqb o "b" || (lw_now w <? 1000) then pass_time d w else rival (pass_time d w) |}.
Definition demo_ttl (_ : string) : Z := 4000.

Lemma contended_ok o k d w :
  meanwhile o k w (elsewhere (LockEnv := contended) o k d w) ∧
  (lock_inv demo_ttl w → lock_inv demo_ttl (elsewhere (LockEnv := contended) o k d w)).
Proof.
  simpl. destruct (String.eqb_spec o "b") as [-> | Hne]; [apply pass_time_ok |]. destruct (lw_now w <? 1000); [apply pass_time_ok |].
  destruct (pass_time_ok demo_ttl o k d w) as [Hm Hi]. split.
  - eapply meanwhile_preorder; [exact Hm |].
    apply (acquire_meanwhile (LE := quiet_locks (λ _, 3) (λ _, 2)) o k (λ _ _ d w, proj1 (pass_time_ok demo_ttl o k d w)) "b"). congruence.
  - intros Hw. apply (acquire_keeps (LE := quiet_locks (λ _, 3) (λ _, 2)) demo_ttl (λ o k d w, pass_time_ok demo_ttl o k d w)); [done | auto].
Qed.

Lemma free_inv ttl_of : lock_inv ttl_of free_locks.
Proof. split; [by intros o k h [? _] | done | done]. Qed.

(** "a" holds and renews the lock while "b" tries to get it. *)
Definition lock_history : list lock_op :=
  [LkAcquire "a" "k" (options 4000 0); LkWait 900; LkRenew "a" RenewAnswered "k"; LkWait 1000].

(** "a" releases the lock and "b" takes it, with a greater number. *)
Definition handover : LockEnv := quiet_locks (λ _, 10) (λ _, 20).
Definition after_release : list lock_op := [LkWait 900; LkRelease "a" "k"; LkWait 100].

Lemma lock_exclusive_witness :
  let w := foldl (lock_step (LE := contended)) free_locks lock_history in
  ((∃ h, relies demo_ttl w "a" "k" h ∧ dk_expiresAt (hl_lock h) = 5110 ∧ dk_fence (hl_lock h) = 1) ∧ lw_now w = 2110 ∧
   ∀ o h o' h', relies demo_ttl w o "k" h → relies demo_ttl w o' "k" h' → o = o') ∧
  ∃ r w1 r' w2 l l', attempt_acquire (LE := handover) "a" "k" (options 4000 0) 0 free_locks = (inr (inr r), w1) ∧
    attempt_acquire (LE := handover) "b" "k" (options 4000 0) 0 (foldl (lock_step (LE := handover)) w1 after_release) = (inr (inr r'), w2) ∧
    lr_lock r = Some l ∧ lr_lock r' = Some l' ∧ dk_fence l < dk_fence l'.
Proof.
  split; [split; [| split; [by vm_compute |]] |].
  - eexists. split; [| split]; [split; [vm_compute; reflexivity |]; split; [done |]; split; [apply (bool_decide_unpack _); by vm_compute | by vm_compute] | done | done].
  - refine (proj1 (lock_exclusive (LE := contended) demo_ttl contended_ok lock_history free_locks (free_inv _) _) "k"). by repeat constructor.
  - destruct (lock_exclusive (LE := handover) demo_ttl (λ o k d w, pass_time_ok demo_ttl o k d w) [] free_locks (free_inv _) (Forall_nil_2 _)) as (_ & _ & H).
    eassert (E1 : attempt_acquire (LE := handover) "a" "k" (options 4000 0) 0 free_locks = (inr (inr _), _)) by (vm_compute; reflexivity).
    match type of E1 with _ = (inr (inr ?r), ?w1) =>
      eassert (E2 : attempt_acquire (LE := handover) "b" "k" (options 4000 0) 0 (foldl (lock_step (LE := handover)) w1 after_release) = (inr (inr _), _))
        by (vm_compute; reflexivity) end.
    destruct (H _ _ _ _ _ _ after_release _ _ _ _ _ E1 eq_refl ltac:(by repeat constructor) ltac:(intros p e Hp; by vm_compute in Hp) E2)
      as (l & l' & Hl & Hl' & _ & _ & Hlt).
    do 6 eexists. split; [exact E1 |]. split; [exact E2 |]. split; [exact Hl |]. split; [exact Hl' | exact Hlt].
Defined.

Lemma acquire_ends_witness :
  let env := quiet_locks (λ _, 10) (λ _, 20) in
  let out := acquire (LE := env) "b" "k" (options 5000 300) (acquire (LE := env) "a" "k" (options 4000 0) free_locks).2 in
  (∃ r, out.1 = inr (Some r) ∧ lr_acquired r = false ∧ lr_error r = Some "DEADLOCK_TIMEOUT" ∧ lr_waitTimeMs r = 350) ∧
  (let '(r, w') := out in r ≠ inr None ∧ lw_now w' - 30 < 530).
Proof.
  intros env. split; [eexists; split; [vm_compute; reflexivity | done] |].
  apply (acquire_ends (LE := env) 0 30 ltac:(intros; simpl; lia) ltac:(intros; simpl; lia) "b" "k" (options 5000 300)
           (acquire (LE := env) "a" "k" (options 4000 0) free_locks).2).
Defined.

(** The expiry an instance notes after a renewal counts from the answer, that of Redis
    from the execution of the script.  An answer that takes 900 ms lets "a" believe for
    900 ms too long that it has the lock, and "b" takes it meanwhile. *)
Theorem late_answer_overlaps :
  let env := quiet_locks (λ _, 0) (λ w, if lw_now w =? 500 then 900 else 0) in
  let w := foldl (lock_step (LE := env)) free_locks
    [LkAcquire "a" "k" (options 1000 0); LkWait 500; LkRenew "a" RenewAnswered "k"; LkWait 200; LkAcquire "b" "k" (options 1000 0)] in
  lw_now w = 1600 ∧
  ((λ h, (hl_stolen h, dk_expiresAt (hl_lock h))) <$> jget "k" (mg_held (self "a" w))) = Some (false, 2400) ∧
  ((λ h, (hl_stolen h, dk_expiresAt (hl_lock h))) <$> jget "k" (mg_held (self "b" w))) = Some (false, 2600).
Proof. by vm_compute. Qed.

(** Two callers of one instance are not excluded: the second acquisition finds the
    payload of its own instance and succeeds, and the release of the first frees the
    lock under the second, so that another instance enters as well. *)
Theorem same_instance_not_excluded :
  let env := quiet_locks (λ _, 0) (λ _, 0) in
  let acq o w := acquire (LE := env) o "k" (options 30000 0) w in
  let first := acq "a" free_locks in
  let second := acq "a" first.2 in
  let after := (release (LE := env) "a" "k" second.2).2 in
  let other := acq "b" after in
  (lr_acquired <$> match first.1 with inr r => r | inl _ => None end) = Some true ∧
  (lr_acquired <$> match second.1 with inr r => r | inl _ => None end) = Some true ∧
  (lr_acquired <$> match other.1 with inr r => r | inl _ => None end) = Some true.
Proof. by vm_compute. Qed.
