(* ===== verification/AutoRelease.v ===== *)
(** * Automatic release on delivery (apps/backend/payments/src/autoRelease/)

    - service.ts: the pro-rata computation, [executeAutoRelease],
      [handleDeliveryConfirmation] and [adminOverrideRelease];
    - configStore.ts and confirmationTracker.ts: the in-memory stores;
    - releaseQueue.ts: delayed jobs, in memory or handed to BullMQ;
    - workers/autoRelease.ts: [enqueueAutoRelease] and [processAutoRelease].

    The state extends the one of the dispute workflow, whose store and whose escrow
    coordinator the service calls.  BullMQ and the event stream answer as the
    environment says; the jobs handed to BullMQ are logged.  The functions a caller may
    inject into the retry options (tests do) are the default ones. *)
From S2P Require Import Prelude JsLib PaymentRecords EscrowLock ChainClient EscrowCoordinator.
From S2P Require Import DisputeMachine DisputeStore Mediation JsCollections.
Local Open Scope Z_scope.

(** ** types.ts *)

(** The proof is carried, never read: a coordinate is the text of its number. *)
Record DeliveryProof := {
  dp_trackingNumber : option string; dp_carrier : option string; dp_deliveredAt : string;
  dp_recipientSignature : option string; dp_photos : option (list string); dp_gpsCoordinates : option (string * string)
}.

Record DeliveryConfirmation := {
  dc_escrowId : string; dc_orderId : string; dc_deliveryProof : DeliveryProof; dc_confirmedBy : string; dc_timestamp : string
}.

Record AutoReleaseConfig := {
  arc_escrowId : string; arc_enabled : bool; arc_delayMinutes : Z; arc_partialReleaseEnabled : bool;
  arc_requiredConfirmations : Z
}.

Definition DEFAULT_AUTO_RELEASE_CONFIG (escrowId : string) : AutoReleaseConfig := {|
  arc_escrowId := escrowId; arc_enabled := true; arc_delayMinutes := 0; arc_partialReleaseEnabled := false;
  arc_requiredConfirmations := 1 |}.

Record ReleaseResult := {
  ar_escrowId : string; ar_success : bool; ar_transactionHash : option string; ar_releasedAmount : string;
  ar_remainingAmount : string; ar_error : option string; ar_retryCount : Z
}.

Inductive AutoReleaseEventType := release_initiated | release_completed | release_failed.

Record AutoReleaseEventPayload := {
  ap_escrowId : string; ap_orderId : string; ap_confirmedBy : option string; ap_releasedAmount : option string;
  ap_remainingAmount : option string; ap_transactionHash : option string; ap_retryCount : option Z; ap_reason : option string
}.

Record AutoReleaseEvent := {
  av_type : AutoReleaseEventType; av_escrowId : string; av_orderId : string; av_occurredAt : Z; av_payload : AutoReleaseEventPayload
}.

Definition chain_status_name (s : chain_status) : string :=
  match s with ch_funded => "funded" | ch_released => "released" | ch_refunded => "refunded" | ch_disputed => "disputed" end.

Definition EscrowNotReleasableError (escrowId currentStatus : string) : exn :=
  Exn "EscrowNotReleasableError"
    ("Escrow " +:+ escrowId +:+ " is not releasable from status " +:+ quoted currentStatus).

Definition EscrowDisputedError (escrowId : string) : exn :=
  Exn "EscrowDisputedError"
    ("Escrow " +:+ escrowId +:+ " is disputed; auto-release is blocked pending manual override").

(** ** Jobs (releaseQueue.ts, workers/autoRelease.ts) *)

Record ScheduledReleaseJob := { sj_escrowId : string; sj_orderId : string; sj_confirmedBy : string; sj_timestamp : string }.

Record SignedDeliveryProof := { sp_proof : DeliveryProof; sp_signature : string; sp_confirmedBy : string }.

Record AutoReleaseJobData := {
  jd_escrowId : string; jd_orderId : string; jd_signedProof : SignedDeliveryProof; jd_graceExpiresAt : Z
}.

Record PendingJob := { pj_id : string; pj_job : ScheduledReleaseJob; pj_dueAt : Z }.

(** A job handed to BullMQ: its data and the options the service sets. *)
Inductive bull_data := BullRelease (j : ScheduledReleaseJob) | BullTrigger (j : AutoReleaseJobData).
Record BullJob := { bj_data : bull_data; bj_delay : Z; bj_jobId : string; bj_attempts : option Z; bj_backoff : option Z }.

Record ScheduleResult := { sr_jobId : string; sr_scheduledFor : Z; sr_backend : string }.

(** [ReleaseResult | ScheduledReleaseAck] *)
Inductive AutoReleaseOutcome :=
  | Released (r : ReleaseResult)
  | ScheduledReleaseAck (escrowId orderId jobId : string) (scheduledFor : Z).

(** ** State and environment *)

Record aworld (St : Type) := AWorld {
  aw_disputes : dworld St;
  aw_configs : jsmap AutoReleaseConfig;
  aw_counts : jsmap Z;
  aw_pending : jsmap PendingJob;
  aw_jobCounter : Z;
  aw_bull : list BullJob;
  aw_events : list AutoReleaseEvent
}.
Arguments AWorld {St}.
Arguments aw_disputes {St}.
Arguments aw_configs {St}.
Arguments aw_counts {St}.
Arguments aw_pending {St}.
Arguments aw_jobCounter {St}.
Arguments aw_bull {St}.
Arguments aw_events {St}.

Class AutoReleaseEnv := {
  stream_accepts : list AutoReleaseEvent → AutoReleaseEvent → bool;
  ESCROW_AUTO_RELEASE_CALLER_ADDRESS : option string;
  SETTLEMENT_SOURCE_ADDRESS : option string;
  (** [NODE_ENV === "test" || MOCK_REDIS === "true" || CI === "true"] *)
  isMockMode : bool;
  (** [queue.add]: the identifier of the job, or a failed connection *)
  bull_add : list BullJob → BullJob → exn + option string
}.

(** [RetryOptions] with the injectable functions at their defaults *)
Record RetryOptions := { ro_maxRetries : option nat; ro_baseDelayMs : option Z }.
Definition no_retry_options : RetryOptions := Build_RetryOptions None None.

(** ** The pro-rata share (service.ts) *)

Record ProRata := { pq_releasedAmount : Z; pq_remainingAmount : Z; pq_isFinal : bool }.

(** [bigint] division truncates. *)
Definition computeProRata (totalAmount confirmationCount : Z) (config : AutoReleaseConfig) : ProRata :=
  if negb (arc_partialReleaseEnabled config) || (arc_requiredConfirmations config <=? 1) then
    {| pq_releasedAmount := totalAmount; pq_remainingAmount := 0; pq_isFinal := true |}
  else
    let required := arc_requiredConfirmations config in
    let perConfirmation := Z.quot totalAmount required in
    let isFinal := required <=? confirmationCount in
    if isFinal then
      let releasedSoFar := perConfirmation * (required - 1) in
      {| pq_releasedAmount := totalAmount - releasedSoFar; pq_remainingAmount := 0; pq_isFinal := true |}
    else
      let releasedSoFar := perConfirmation * confirmationCount in
      {| pq_releasedAmount := perConfirmation; pq_remainingAmount := totalAmount - releasedSoFar; pq_isFinal := false |}.

Definition failureResult (escrowId remainingAmount error : string) (retries : Z) : ReleaseResult := {|
  ar_escrowId := escrowId; ar_success := false; ar_transactionHash := None; ar_releasedAmount := "0";
  ar_remainingAmount := remainingAmount; ar_error := Some error; ar_retryCount := retries |}.

(** The payload with the fields every event has. *)
Definition payload_of (escrowId orderId confirmedBy : string) (reason : option string) : AutoReleaseEventPayload := {|
  ap_escrowId := escrowId; ap_orderId := orderId; ap_confirmedBy := Some confirmedBy; ap_releasedAmount := None;
  ap_remainingAmount := None; ap_transactionHash := None; ap_retryCount := None; ap_reason := reason |}.

Section service.
Context `{E : PayEnv} `{ME : MediationEnv} {St : Type} `{DS : DisputeStore St} `{AE : AutoReleaseEnv}.
Implicit Types w : aworld St.

Definition on_disputes {A} (c : M (dworld St) A) : M (aworld St) A :=
  zoom aw_disputes (λ d w, AWorld d (aw_configs w) (aw_counts w) (aw_pending w) (aw_jobCounter w) (aw_bull w) (aw_events w)) c.
Definition on_coordinator {A} (c : M pworld A) : M (aworld St) A := on_disputes (on_pay c).

Definition pay_of w : pworld := dw_pay (aw_disputes w).
Definition now_at w : Z := w_now (pay_of w).

(** ** Stores *)

(** configStore.ts *)
Definition getAutoReleaseConfig (escrowId : string) : M (aworld St) AutoReleaseConfig :=
  gets (λ w, default (DEFAULT_AUTO_RELEASE_CONFIG escrowId) (jget escrowId (aw_configs w))).

Definition setAutoReleaseConfig (config : AutoReleaseConfig) : M (aworld St) () :=
  modify (λ w, AWorld (aw_disputes w) (jset (arc_escrowId config) config (aw_configs w)) (aw_counts w) (aw_pending w)
    (aw_jobCounter w) (aw_bull w) (aw_events w)).

(** confirmationTracker.ts *)
Definition getConfirmationCount (escrowId : string) w : Z := default 0 (jget escrowId (aw_counts w)).

Definition recordDeliveryConfirmation (escrowId : string) : M (aworld St) Z :=
  count ← gets (getConfirmationCount escrowId);
  let next := count + 1 in
  modify (λ w, AWorld (aw_disputes w) (aw_configs w) (jset escrowId next (aw_counts w)) (aw_pending w)
    (aw_jobCounter w) (aw_bull w) (aw_events w));;
  mret next.

(** events.ts: an event the stream refuses is logged and forgotten. *)
Definition emitAutoReleaseEvent (type : AutoReleaseEventType) (orderId : string) (payload : AutoReleaseEventPayload)
    : M (aworld St) () :=
  occurredAt ← gets now_at;
  before ← gets aw_events;
  let ev := {| av_type := type; av_escrowId := ap_escrowId payload; av_orderId := orderId; av_occurredAt := occurredAt;
               av_payload := payload |} in
  if stream_accepts before ev
  then modify (λ w, AWorld (aw_disputes w) (aw_configs w) (aw_counts w) (aw_pending w) (aw_jobCounter w) (aw_bull w)
         (before ++ [ev]))
  else mret ().

(** escrow/config.ts *)
Definition getAutoReleaseCallerAddress : M (aworld St) string :=
  let address := match ESCROW_AUTO_RELEASE_CALLER_ADDRESS with Some a => Some a | None => SETTLEMENT_SOURCE_ADDRESS end in
  if truthy address then mret (default "" address)
  else throw (Error "ESCROW_AUTO_RELEASE_CALLER_ADDRESS or SETTLEMENT_SOURCE_ADDRESS must be configured for escrow auto-release").

(** retry.ts: [defaultSleep] *)
Definition asleep (ms : Z) : M (aworld St) () :=
  on_coordinator (modify (λ p, PWorld (w_rows p) (w_uuids p) (w_posted p) (w_events p) (w_locks p) (w_velocity p) (w_now p + ms))).

(** ** service.ts *)

Definition assertReleasable (escrowId : string) : M (aworld St) string :=
  status ← on_coordinator (getEscrowStatus escrowId);
  match es_status status with
  | ch_disputed => throw (EscrowDisputedError escrowId)
  | ch_funded => mret (es_amount status)
  | s => throw (EscrowNotReleasableError escrowId (chain_status_name s))
  end.

(** [disputes.some((dispute) => dispute.status !== "resolved")] *)
Definition disputed_in (disputes : list Dispute) : bool := existsb (λ d, negb (bool_decide (d_status d = resolved))) disputes.

Definition unresolved (escrowId : string) w : bool := disputed_in (ds_findByEscrowId escrowId (dw_store (aw_disputes w))).

(** [retryWithBackoff(() => escrowCoordinator.releaseEscrow(...), retryOptions)] *)
Definition release_with_retries (escrowId contractId callerAddress : string) (o : RetryOptions)
    : M (aworld St) (RetryResult TransferResult) :=
  retryWithBackoff
    (λ _, on_coordinator (releaseEscrow {| ep_escrowId := escrowId; ep_escrowContractId := contractId; ep_callerAddress := callerAddress |}))
    (default 2000 (ro_baseDelayMs o)) asleep (λ _ _ _, mret ()) (λ _ _, true) (default 3%nat (ro_maxRetries o)).

(** [retryResult.value] when it reports [released] *)
Definition released_value (r : RetryResult TransferResult) : option TransferResult :=
  match retry_success r, retry_value r with
  | true, Some v => if String.eqb (xr_status v) "released" then Some v else None
  | _, _ => None
  end.

Definition completed_payload (escrowId orderId confirmedBy : string) (r : ReleaseResult) (retries : option Z)
    (reason : option string) : AutoReleaseEventPayload := {|
  ap_escrowId := escrowId; ap_orderId := orderId; ap_confirmedBy := Some confirmedBy;
  ap_releasedAmount := Some (ar_releasedAmount r); ap_remainingAmount := Some (ar_remainingAmount r);
  ap_transactionHash := ar_transactionHash r; ap_retryCount := retries; ap_reason := reason |}.

Definition failed_payload (escrowId orderId confirmedBy reason : string) (retries : Z) : AutoReleaseEventPayload := {|
  ap_escrowId := escrowId; ap_orderId := orderId; ap_confirmedBy := Some confirmedBy; ap_releasedAmount := None;
  ap_remainingAmount := None; ap_transactionHash := None; ap_retryCount := Some retries; ap_reason := Some reason |}.

(** The part of [executeAutoRelease] after the status check. *)
Definition executeFinal (escrowId orderId confirmedBy amount : string) (share : ProRata) (o : RetryOptions)
    : M (aworld St) ReleaseResult :=
  active ← gets (unresolved escrowId);
  if active : bool then
    let reason := "Escrow " +:+ escrowId +:+ " is disputed" in
    emitAutoReleaseEvent release_failed orderId (payload_of escrowId orderId confirmedBy (Some reason));;
    mret (failureResult escrowId amount reason 0)
  else
    contractId ← on_disputes getEscrowContractId;
    callerAddress ← getAutoReleaseCallerAddress;
    retryResult ← release_with_retries escrowId contractId callerAddress o;
    match released_value retryResult with
    | None =>
        let message :=
          match retry_error retryResult with
          | Some e => exn_message e
          | None =>
              if bool_decide (xr_status <$> retry_value retryResult = Some "failed")
              then "Soroban release transaction failed after retries" else "Unknown auto-release error"
          end in
        emitAutoReleaseEvent release_failed orderId (failed_payload escrowId orderId confirmedBy message (retryCount retryResult));;
        mret (failureResult escrowId (dec (pq_remainingAmount share)) message (retryCount retryResult))
    | Some v =>
        let result := {| ar_escrowId := escrowId; ar_success := true; ar_transactionHash := Some (xr_txHash v);
                         ar_releasedAmount := dec (pq_releasedAmount share); ar_remainingAmount := dec (pq_remainingAmount share);
                         ar_error := None; ar_retryCount := retryCount retryResult |} in
        emitAutoReleaseEvent release_completed orderId
          (completed_payload escrowId orderId confirmedBy result (Some (ar_retryCount result)) None);;
        mret result
    end.

Definition executeAutoRelease (escrowId orderId confirmedBy : string) (o : RetryOptions) : M (aworld St) ReleaseResult :=
  emitAutoReleaseEvent release_initiated orderId (payload_of escrowId orderId confirmedBy None);;
  statusCheck ← outcome (assertReleasable escrowId);
  match statusCheck with
  | inl err =>
      emitAutoReleaseEvent release_failed orderId (payload_of escrowId orderId confirmedBy (Some (exn_message err)));;
      mret (failureResult escrowId "0" (exn_message err) 0)
  | inr amount =>
      config ← getAutoReleaseConfig escrowId;
      confirmationCount ← recordDeliveryConfirmation escrowId;
      totalAmount ← BigInt_throw amount;
      let share := computeProRata totalAmount confirmationCount config in
      if negb (pq_isFinal share) then
        let result := {| ar_escrowId := escrowId; ar_success := true; ar_transactionHash := None;
                         ar_releasedAmount := dec (pq_releasedAmount share); ar_remainingAmount := dec (pq_remainingAmount share);
                         ar_error := None; ar_retryCount := 0 |} in
        emitAutoReleaseEvent release_completed orderId (completed_payload escrowId orderId confirmedBy result None None);;
        mret result
      else executeFinal escrowId orderId confirmedBy amount share o
  end.

(** ** Queues *)

(** The executor registered at load time and passed by [handleDeliveryConfirmation]. *)
Definition release_executor (job : ScheduledReleaseJob) : M (aworld St) () :=
  executeAutoRelease (sj_escrowId job) (sj_orderId job) (sj_confirmedBy job) no_retry_options;; mret ().

Definition set_pending (f : jsmap PendingJob → jsmap PendingJob) w : aworld St :=
  AWorld (aw_disputes w) (aw_configs w) (aw_counts w) (f (aw_pending w)) (aw_jobCounter w) (aw_bull w) (aw_events w).

Definition runDueReleaseJobs (now : Z) : M (aworld St) Z :=
  pending ← gets aw_pending;
  let due := List.filter (λ p, pj_dueAt p <=? now) (snd <$> pending) in
  for_each due (λ p, modify (set_pending (jdel (pj_id p)));; release_executor (pj_job p));;
  mret (Z.of_nat (length due)).

Definition pendingReleaseJobCount w : Z := Z.of_nat (length (aw_pending w)).

Definition resetReleaseQueue : M (aworld St) () :=
  modify (λ w, AWorld (aw_disputes w) (aw_configs w) (aw_counts w) [] 0 (aw_bull w) (aw_events w)).

Definition add_bull (j : BullJob) : M (aworld St) (option string) :=
  before ← gets aw_bull;
  match bull_add before j with
  | inl e => throw e
  | inr id =>
      modify (λ w, AWorld (aw_disputes w) (aw_configs w) (aw_counts w) (aw_pending w) (aw_jobCounter w) (before ++ [j]) (aw_events w));;
      mret id
  end.

(** [new Date(t).toISOString()] *)
Definition iso_time (t : Z) : M (aworld St) Z :=
  throw_if (MAX_TIME <? Z.abs t) (Exn "RangeError" "Invalid time value");; mret t.

Definition scheduleRelease (job : ScheduledReleaseJob) (delayMinutes : Z) : M (aworld St) ScheduleResult :=
  let delayMs := Z.max 0 delayMinutes * 60000 in
  now ← gets now_at;
  scheduledFor ← iso_time (now + delayMs);
  if isMockMode then
    counter ← gets aw_jobCounter;
    let id := "mem-" +:+ dec (counter + 1) in
    modify (λ w, AWorld (aw_disputes w) (aw_configs w) (aw_counts w)
      (jset id {| pj_id := id; pj_job := job; pj_dueAt := now + delayMs |} (aw_pending w)) (counter + 1) (aw_bull w) (aw_events w));;
    mret {| sr_jobId := id; sr_scheduledFor := scheduledFor; sr_backend := "in-memory" |}
  else
    id ← add_bull {| bj_data := BullRelease job; bj_delay := delayMs; bj_jobId := sj_escrowId job +:+ ":" +:+ sj_timestamp job;
                     bj_attempts := None; bj_backoff := None |};
    mret {| sr_jobId := default "" id; sr_scheduledFor := scheduledFor; sr_backend := "bullmq" |}.

(** workers/autoRelease.ts *)
Definition MAX_SAFE_INTEGER : Z := 9007199254740991.

Definition enqueueAutoRelease (job : AutoReleaseJobData) : M (aworld St) (string * Z) :=
  throw_if (String.eqb (jd_escrowId job) "" || String.eqb (jd_orderId job) "" ||
            String.eqb (sp_signature (jd_signedProof job)) "" || String.eqb (sp_confirmedBy (jd_signedProof job)) "" ||
            (MAX_SAFE_INTEGER <? Z.abs (jd_graceExpiresAt job)) || (jd_graceExpiresAt job <? 0))
    (Error "Invalid verified auto-release job");;
  now ← gets now_at;
  id ← add_bull {| bj_data := BullTrigger job; bj_delay := Z.max 0 (jd_graceExpiresAt job - now);
                   bj_jobId := "release-" +:+ jd_escrowId job +:+ "-" +:+ dec (jd_graceExpiresAt job);
                   bj_attempts := Some 3; bj_backoff := Some 2000 |};
  scheduledFor ← iso_time (jd_graceExpiresAt job);
  mret (default "undefined" id, scheduledFor).

Definition processAutoRelease (job : AutoReleaseJobData) : M (aworld St) () :=
  now ← gets now_at;
  throw_if (now <? jd_graceExpiresAt job) (Error ("Grace period has not expired for escrow " +:+ jd_escrowId job));;
  active ← gets (unresolved (jd_escrowId job));
  if active : bool then mret ()
  else
    status ← on_coordinator (getEscrowStatus (jd_escrowId job));
    match es_status status with
    | ch_funded =>
        result ← executeAutoRelease (jd_escrowId job) (jd_orderId job) (sp_confirmedBy (jd_signedProof job)) no_retry_options;
        throw_if (negb (ar_success result))
          (Error (default ("Auto-release failed for escrow " +:+ jd_escrowId job) (ar_error result)))
    | _ => mret ()
    end.

(** ** The webhook handler and the manual override (service.ts) *)

Definition handleDeliveryConfirmation (confirmation : DeliveryConfirmation) (verifiedSignature : option string)
    : M (aworld St) AutoReleaseOutcome :=
  let escrowId := dc_escrowId confirmation in
  let orderId := dc_orderId confirmation in
  let confirmedBy := dc_confirmedBy confirmation in
  config ← getAutoReleaseConfig escrowId;
  if negb (arc_enabled config) then
    mret (Released (failureResult escrowId "0" ("Auto-release is disabled for escrow " +:+ escrowId) 0))
  else
    try_catch (assertReleasable escrowId)
      (λ err, emitAutoReleaseEvent release_failed orderId (payload_of escrowId orderId confirmedBy (Some (exn_message err)));; throw err);;
    if 0 <? arc_delayMinutes config then
      if truthy verifiedSignature then
        now ← gets now_at;
        scheduled ← enqueueAutoRelease {|
          jd_escrowId := escrowId; jd_orderId := orderId;
          jd_signedProof := {| sp_proof := dc_deliveryProof confirmation; sp_signature := default "" verifiedSignature;
                               sp_confirmedBy := confirmedBy |};
          jd_graceExpiresAt := now + arc_delayMinutes config * 60000 |};
        mret (ScheduledReleaseAck escrowId orderId scheduled.1 scheduled.2)
      else
        scheduled ← scheduleRelease {| sj_escrowId := escrowId; sj_orderId := orderId; sj_confirmedBy := confirmedBy;
                                       sj_timestamp := dc_timestamp confirmation |} (arc_delayMinutes config);
        mret (ScheduledReleaseAck escrowId orderId (sr_jobId scheduled) (sr_scheduledFor scheduled))
    else
      r ← executeAutoRelease escrowId orderId confirmedBy no_retry_options;
      mret (Released r).

Definition adminOverrideRelease (escrowId orderId adminId reason : string) (o : RetryOptions) : M (aworld St) ReleaseResult :=
  emitAutoReleaseEvent release_initiated orderId (payload_of escrowId orderId adminId (Some ("admin_override: " +:+ reason)));;
  status ← on_coordinator (getEscrowStatus escrowId);
  totalAmount ← BigInt_throw (es_amount status);
  contractId ← on_disputes getEscrowContractId;
  callerAddress ← getAutoReleaseCallerAddress;
  retryResult ← release_with_retries escrowId contractId callerAddress o;
  match released_value retryResult with
  | None =>
      let message := match retry_error retryResult with
                     | Some e => exn_message e
                     | None => "Admin override release failed after retries" end in
      emitAutoReleaseEvent release_failed orderId
        (failed_payload escrowId orderId adminId ("admin_override: " +:+ message) (retryCount retryResult));;
      mret (failureResult escrowId (dec totalAmount) message (retryCount retryResult))
  | Some v =>
      let result := {| ar_escrowId := escrowId; ar_success := true; ar_transactionHash := Some (xr_txHash v);
                       ar_releasedAmount := dec totalAmount; ar_remainingAmount := "0"; ar_error := None;
                       ar_retryCount := retryCount retryResult |} in
      emitAutoReleaseEvent release_completed orderId
        (completed_payload escrowId orderId adminId result (Some (ar_retryCount result)) (Some ("admin_override: " +:+ reason)));;
      mret result
  end.
End service.
