(* ===== verification/AutoReleaseCorrect.v ===== *)
(** * Correctness of the automatic release

    The installments of a pro-rata release add up to the escrow; automatic releases are
    posted only for escrows whose disputes are all resolved; a reported release is the
    last one of its escrow. *)
From S2P Require Import Prelude JsLib PaymentRecords EscrowLock ChainClient EscrowCoordinator.
From S2P Require Import EscrowLedger EscrowCorrect EscrowExamples DisputeMachine DisputeStore Mediation AutoMediation MediationCorrect.
From S2P Require Import JsCollections AutoRelease.
Import mediation_example.
Local Open Scope Z_scope.

(** ** Installments *)

(** The sum of the shares of the first [k] confirmations. *)
Fixpoint released_by (total : Z) (config : AutoReleaseConfig) (k : nat) : Z :=
  match k with
  | O => 0
  | S k' => released_by total config k' + pq_releasedAmount (computeProRata total (Z.of_nat k) config)
  end.

Lemma computeProRata_partial total k config :
  arc_partialReleaseEnabled config = true → 1 < arc_requiredConfirmations config →
  computeProRata total k config =
    let n := arc_requiredConfirmations config in
    if n <=? k then {| pq_releasedAmount := total - total ÷ n * (n - 1); pq_remainingAmount := 0; pq_isFinal := true |}
    else {| pq_releasedAmount := total ÷ n; pq_remainingAmount := total - total ÷ n * k; pq_isFinal := false |}.
Proof.
  intros Hp Hn. unfold computeProRata. rewrite Hp. replace (_ <=? 1) with false by lia. reflexivity.
Qed.

Lemma released_by_interim total config k :
  arc_partialReleaseEnabled config = true → 1 < arc_requiredConfirmations config →
  Z.of_nat k < arc_requiredConfirmations config →
  released_by total config k = total ÷ arc_requiredConfirmations config * Z.of_nat k.
Proof.
  intros Hp Hn. induction k as [| k IH]; intros Hk; [simpl; lia |].
  cbn [released_by]. rewrite IH by lia. rewrite computeProRata_partial by done. cbv zeta.
  destruct (Z.leb_spec (arc_requiredConfirmations config) (Z.of_nat (S k))); [lia |]. simpl pq_releasedAmount. lia.
Qed.

(** Conservation and bounds of pro-rata installments: with [n > 1] required
    confirmations, the share of each of the first [n] confirmations lies between zero and
    the escrowed total, exactly the [n]-th is final, what is reported as remaining is the
    total less all the shares so far and is never negative, nothing remains after the
    last one, and the last share exceeds the others by less than [n] stroops. *)
Theorem installments_conserve total config k :
  0 ≤ total → arc_partialReleaseEnabled config = true → 1 < arc_requiredConfirmations config →
  1 ≤ Z.of_nat k ≤ arc_requiredConfirmations config →
  let n := arc_requiredConfirmations config in
  let share := computeProRata total (Z.of_nat k) config in
  0 ≤ pq_releasedAmount share ≤ total ∧
  0 ≤ pq_remainingAmount share ∧ pq_remainingAmount share = total - released_by total config k ∧
  pq_isFinal share = (n =? Z.of_nat k) ∧
  (n = Z.of_nat k → pq_remainingAmount share = 0) ∧
  total ÷ n ≤ pq_releasedAmount share < total ÷ n + n.
Proof.
  intros Ht Hp Hn Hk n share. subst share. rewrite computeProRata_partial by done. fold n. cbv zeta.
  assert (n * (total ÷ n) ≤ total < n * (total ÷ n) + n) as Hq.
  { rewrite Z.quot_div_nonneg by lia. pose proof (Z.div_mod total n). pose proof (Z.mod_pos_bound total n). lia. }
  assert (0 ≤ total ÷ n) as Hq0 by (apply Z.quot_pos; lia).
  assert (0 ≤ total ÷ n * (n - 1) ∧ total ÷ n * Z.of_nat k ≤ n * (total ÷ n) ∧ total ÷ n ≤ total ÷ n * Z.of_nat k) as Hm by nia.
  destruct (n <=? Z.of_nat k) eqn:Hf; simpl.
  - assert (Z.of_nat k = n) by lia. destruct k as [| k']; [exfalso; lia |]. cbn [released_by].
    rewrite released_by_interim, computeProRata_partial by (done || lia). fold n. cbv zeta. rewrite Hf. simpl pq_releasedAmount.
    replace (Z.of_nat k') with (n - 1) by lia. repeat split; try lia. symmetry. by apply Z.eqb_eq.
  - rewrite released_by_interim by (done || lia). fold n. repeat split; lia.
Qed.

Lemma installments_conserve_witness :
  let config := Build_AutoReleaseConfig "e" true 0 true 3 in
  pq_releasedAmount (computeProRata 100 3 config) = 34 ∧
  0 ≤ pq_releasedAmount (computeProRata 100 2 config) ≤ 100.
Proof.
  split; [reflexivity |].
  exact (proj1 (installments_conserve 100 (Build_AutoReleaseConfig "e" true 0 true 3) 2
    ltac:(lia) eq_refl ltac:(simpl; lia) ltac:(simpl; lia))).
Defined.

(** ** What automatic operations post *)

Section correct.
Context `{E : PayEnv} `{ME : MediationEnv} {St : Type} `{DS : DisputeStore St} `{AE : AutoReleaseEnv}.
Implicit Types w : aworld St.

Definition store_of w : St := dw_store (aw_disputes w).

(** The request of [releaseEscrow]. *)
Definition release_request (escrowId : string) (id : Z) (contract caller : string) : TransactionRequest := {|
  sourceAddress := caller; contractId := contract; method := "release"; args := [ArgNum id; ArgStr caller];
  memo := "Release escrow " +:+ escrowId; req_amountStroops := None |}.

(** Requests are only added, each one the release of an escrow in [P]. *)
Definition posts_releases (P : string → Prop) (p p' : pworld) : Prop :=
  ∃ l, w_posted p' = w_posted p ++ l ∧ Forall (λ q, ∃ e id k c, q = release_request e id k c ∧ P e) l.

#[local] Instance posts_releases_preorder P : PreOrder (posts_releases P).
Proof.
  split.
  - intros p. exists []. by rewrite app_nil_r.
  - intros p1 p2 p3 (l & H1 & Hl) (m & H2 & Hm). exists (l ++ m). rewrite H2, H1, app_assoc. split; [done |]. by apply Forall_app.
Qed.

Lemma same_posted P (p p' : pworld) : w_posted p' = w_posted p → posts_releases P p p'.
Proof. intros H. exists []. by rewrite H, app_nil_r. Qed.

Lemma on_db_posts {A} P (c : M db A) : evolves (posts_releases P) (on_db c).
Proof. intros p. apply same_posted. unfold on_db, zoom. by destruct (c _). Qed.

Lemma emitStatusEvent_posts P ch r t m : evolves (posts_releases P) (emitStatusEvent ch r t m).
Proof. intros p. apply same_posted. unfold emitStatusEvent, publishPaymentStatusEvent. run_unfold. by destruct (redis_publish _ _). Qed.

Lemma release_invoke_posts (P : string → Prop) caller contract e :
  P e → evolves (posts_releases P) (invoke caller contract "release" e [] ("Release escrow " +:+ e)).
Proof.
  intros He p. unfold invoke, parseEscrowId.
  destruct (Number_integer e) as [id |]; [| by apply same_posted]. destruct (id <? 0); [by apply same_posted |].
  rewrite (bind_run _ _ _ id p eq_refl).
  pose proof (submit_retry_posts (release_request e id contract caller) (get_chain p)) as (k & _ & Hk).
  unfold on_chain, zoom. change {| sourceAddress := caller |} with (release_request e id contract caller).
  destruct (submitContractInvocationWithRetry _ _) as [r c] eqn:Hc. simpl in *.
  exists (replicate k (release_request e id contract caller)). simpl. split; [done |].
  apply Forall_replicate. eauto 10.
Qed.

Hint Resolve on_db_posts emitStatusEvent_posts release_invoke_posts : evolve.

Lemma releaseEscrow_posts (P : string → Prop) p : P (ep_escrowId p) → evolves (posts_releases P) (releaseEscrow p).
Proof. intros He. unfold releaseEscrow, find_or_throw, mark_failed. evolve. Qed.

Lemma getEscrowStatus_posts P e : evolves (posts_releases P) (getEscrowStatus e).
Proof. unfold getEscrowStatus, getContractReadSourceAddress. evolve. Qed.

(** The same for the whole state, seen from a dispute store [st] that stays as it is. *)
Definition obeys_disputes (st : St) w w' : Prop :=
  store_of w = st →
  store_of w' = st ∧ posts_releases (λ e, disputed_in (ds_findByEscrowId e st) = false) (pay_of w) (pay_of w').

#[local] Instance obeys_preorder st : PreOrder (obeys_disputes st).
Proof.
  split; [by intros w H |]. intros w1 w2 w3 H1 H2 H. destruct (H1 H) as [Hs Hp]. destruct (H2 Hs) as [Hs' Hp'].
  split; [done | by etrans].
Qed.

(** Writes to the parts of the state that belong to the service. *)
Definition own_only w w' : Prop := aw_disputes w' = aw_disputes w.

Lemma own_obeys st w w' : own_only w w' → obeys_disputes st w w'.
Proof. unfold own_only, obeys_disputes, store_of, pay_of. intros -> H. done. Qed.

Lemma obeys_modify st f : (∀ w, own_only w (f w)) → evolves (obeys_disputes st) (modify f).
Proof. intros H w. by apply own_obeys, H. Qed.

Lemma on_coordinator_obeys {A} st (c : M pworld A) :
  evolves (posts_releases (λ e, disputed_in (ds_findByEscrowId e st) = false)) c → evolves (obeys_disputes st) (on_coordinator c).
Proof.
  intros H w Hs. unfold on_coordinator, on_disputes, on_pay, zoom. specialize (H (pay_of w)). fold (pay_of w).
  by destruct (c (pay_of w)).
Qed.

Lemma emitAutoReleaseEvent_own t o p w : own_only w (emitAutoReleaseEvent t o p w).2.
Proof. unfold emitAutoReleaseEvent. run_unfold. by destruct (stream_accepts _ _). Qed.

Lemma emitAutoReleaseEvent_obeys st t o p : evolves (obeys_disputes st) (emitAutoReleaseEvent t o p).
Proof. intros w. apply own_obeys, emitAutoReleaseEvent_own. Qed.

Lemma getEscrowContractId_obeys st : evolves (obeys_disputes st) (on_disputes getEscrowContractId).
Proof. intros w. apply own_obeys. unfold on_disputes, zoom, getEscrowContractId. destruct w. by destruct (truthy _). Qed.

Lemma asleep_obeys st ms : evolves (obeys_disputes st) (asleep ms).
Proof. apply on_coordinator_obeys. intros p. by apply same_posted. Qed.

Lemma assertReleasable_obeys st e : evolves (obeys_disputes st) (assertReleasable e).
Proof.
  unfold assertReleasable. apply evolves_bind; [apply _ | apply on_coordinator_obeys, getEscrowStatus_posts | intros s].
  evolve.
Qed.

Lemma add_bull_obeys st j : evolves (obeys_disputes st) (add_bull j).
Proof. intros w. apply own_obeys. unfold add_bull. run_unfold. by destruct (bull_add _ _). Qed.

Lemma recordDeliveryConfirmation_obeys st e : evolves (obeys_disputes st) (recordDeliveryConfirmation e).
Proof. unfold recordDeliveryConfirmation. evolve. by apply obeys_modify. Qed.

Lemma getAutoReleaseConfig_obeys st e : evolves (obeys_disputes st) (getAutoReleaseConfig e).
Proof. intros w. by apply own_obeys. Qed.

Lemma retry_loop_obeys {T} st (fn : Z → M (aworld St) T) base left a k :
  (∀ n, evolves (obeys_disputes st) (fn n)) →
  evolves (obeys_disputes st) (retry_loop fn base asleep (λ _ _ _, mret ()) (λ _ _, true) left a k).
Proof.
  intros Hfn. revert a k. induction left as [| left IH]; intros a k; simpl;
    (apply evolves_bind; [apply _ | intros w; specialize (Hfn a w); unfold outcome; by destruct (fn a w) | intros [err | v]]).
  1, 2, 4: evolve.
  evolve. apply asleep_obeys.
Qed.

Hint Resolve emitAutoReleaseEvent_obeys getEscrowContractId_obeys assertReleasable_obeys add_bull_obeys
  recordDeliveryConfirmation_obeys getAutoReleaseConfig_obeys : evolve.

Lemma release_with_retries_obeys st e contract caller o :
  disputed_in (ds_findByEscrowId e st) = false → evolves (obeys_disputes st) (release_with_retries e contract caller o).
Proof. intros He. apply retry_loop_obeys. intros _. by apply on_coordinator_obeys, releaseEscrow_posts. Qed.

(** The dispute check in front of the final release is what matters. *)
Lemma executeFinal_obeys st e oid c amount share o : evolves (obeys_disputes st) (executeFinal e oid c amount share o).
Proof.
  intros w. cut (store_of w = st → obeys_disputes st w (executeFinal e oid c amount share o w).2); [by intros H Hs; apply H |].
  intros Hs. unfold executeFinal. rewrite (bind_run (gets (unresolved e)) _ w _ w eq_refl).
  unfold unresolved. fold (store_of w). rewrite Hs. destruct (disputed_in _) eqn:Hd; [by_evolve |].
  pose proof (λ k a, release_with_retries_obeys st e k a o Hd) as Hr. unfold getAutoReleaseCallerAddress. by_evolve.
Qed.

Lemma executeAutoRelease_obeys st e oid c o : evolves (obeys_disputes st) (executeAutoRelease e oid c o).
Proof.
  assert (evolves (obeys_disputes st) (outcome (assertReleasable e))) as Ho.
  { intros w. pose proof (assertReleasable_obeys st e w) as H. unfold outcome. by destruct (assertReleasable e w). }
  pose proof (λ e oid c a s o, executeFinal_obeys st e oid c a s o) as Hf.
  unfold executeAutoRelease, BigInt_throw. evolve.
Qed.
Hint Resolve executeAutoRelease_obeys : evolve.

Lemma processAutoRelease_obeys st j : evolves (obeys_disputes st) (processAutoRelease j).
Proof.
  pose proof (λ e, on_coordinator_obeys st _ (getEscrowStatus_posts _ e)) as Hs. unfold processAutoRelease. evolve.
Qed.

Lemma runDueReleaseJobs_obeys st now : evolves (obeys_disputes st) (runDueReleaseJobs now).
Proof. unfold runDueReleaseJobs, release_executor. evolve. by apply obeys_modify. Qed.

Lemma scheduleRelease_obeys st j d : evolves (obeys_disputes st) (scheduleRelease j d).
Proof. unfold scheduleRelease, iso_time. evolve. by apply obeys_modify. Qed.

Lemma enqueueAutoRelease_obeys st j : evolves (obeys_disputes st) (enqueueAutoRelease j).
Proof. unfold enqueueAutoRelease, iso_time. evolve. Qed.
Hint Resolve scheduleRelease_obeys enqueueAutoRelease_obeys : evolve.

Lemma handleDeliveryConfirmation_obeys st c sig : evolves (obeys_disputes st) (handleDeliveryConfirmation c sig).
Proof. unfold handleDeliveryConfirmation. evolve. Qed.

(** What happens without a human decision: confirmations that arrive at the webhook, jobs
    that come due, changes of the configuration and the passing of time. *)
Inductive auto_op :=
  | OpConfirm (c : DeliveryConfirmation) (signature : option string)
  | OpReleaseJob (j : ScheduledReleaseJob)
  | OpTriggerJob (j : AutoReleaseJobData)
  | OpRunDue (now : Z)
  | OpConfigure (config : AutoReleaseConfig)
  | OpWait (ms : Z).

Definition run_auto (o : auto_op) w : aworld St :=
  match o with
  | OpConfirm c s => (handleDeliveryConfirmation c s w).2
  | OpReleaseJob j => (release_executor j w).2
  | OpTriggerJob j => (processAutoRelease j w).2
  | OpRunDue now => (runDueReleaseJobs now w).2
  | OpConfigure config => (setAutoReleaseConfig config w).2
  | OpWait ms => (asleep ms w).2
  end.

Definition run_autos (ops : list auto_op) w : aworld St := foldl (λ w o, run_auto o w) w ops.

Lemma run_auto_obeys st o w : obeys_disputes st w (run_auto o w).
Proof.
  destruct o; simpl.
  - apply handleDeliveryConfirmation_obeys.
  - unfold release_executor. by_evolve.
  - apply processAutoRelease_obeys.
  - apply runDueReleaseJobs_obeys.
  - by apply own_obeys.
  - apply asleep_obeys.
Qed.

(** Safety: over any history of delivery confirmations, immediate and delayed jobs
    and configuration changes, whatever the services answer, the only requests posted
    to the wallet service are releases of escrows that have no unresolved dispute in the
    dispute store, and the store itself is left alone. *)
Theorem releases_respect_disputes ops w :
  store_of (run_autos ops w) = store_of w ∧
  ∃ l, w_posted (pay_of (run_autos ops w)) = w_posted (pay_of w) ++ l ∧
    Forall (λ q, ∃ e id k c, q = release_request e id k c ∧ unresolved e w = false) l.
Proof.
  assert (obeys_disputes (store_of w) w (run_autos ops w)) as H.
  { generalize (store_of w) as st. intros st. revert w. induction ops as [| o ops IH]; intros w; [done |].
    etrans; [apply run_auto_obeys | apply IH]. }
  destruct (H eq_refl) as [Hs Hp]. split; [done | exact Hp].
Qed.

(** ** A reported release is the last one *)

(** The record of the escrow is released under the hash [h]. *)
Definition released_under (e h : string) (p : pworld) : Prop :=
  ∃ row, select1 (by_escrow e) (get_db p) = Some row ∧ row_status row = released ∧ release_tx_hash row = Some h.

Lemma getEscrowStatus_pure e p : (getEscrowStatus e p).2 = p.
Proof.
  assert (on_db (findPaymentRecordByEscrowId e) p = (inr (mapRow <$> select1 (by_escrow e) (get_db p)), p)) as Hf.
  { unfold findPaymentRecordByEscrowId. by rewrite on_db_find_run. }
  unfold getEscrowStatus. rewrite (bind_run _ _ _ _ _ Hf).
  assert (∀ A (c : M pworld A), evolves eq c → (c p).2 = p) as Hpure by (intros A c H; symmetry; apply H).
  apply Hpure. unfold getContractReadSourceAddress. evolve.
Qed.

Lemma on_coordinator_pure {A} (c : M pworld A) w r :
  c (pay_of w) = (r, pay_of w) → on_coordinator c w = (r, w).
Proof. intros H. unfold on_coordinator, on_disputes, on_pay, zoom. fold (pay_of w). rewrite H. by destruct w as [[]]. Qed.

Lemma assertReleasable_run e w :
  assertReleasable e w =
    (match (getEscrowStatus e (pay_of w)).1 with
     | inl err => inl err
     | inr s => match es_status s with
                | ch_disputed => inl (EscrowDisputedError e)
                | ch_funded => inr (es_amount s)
                | st => inl (EscrowNotReleasableError e (chain_status_name st))
                end
     end, w).
Proof.
  unfold assertReleasable. pose proof (getEscrowStatus_pure e (pay_of w)) as Hp.
  destruct (getEscrowStatus e (pay_of w)) as [[err | s] p] eqn:Hg; simpl in *; subst p.
  - by rewrite (bind_run_err _ _ _ _ _ (on_coordinator_pure _ _ _ Hg)).
  - rewrite (bind_run _ _ _ _ _ (on_coordinator_pure _ _ _ Hg)). by destruct (es_status s).
Qed.

Lemma released_status e h p :
  released_under e h p → ∃ s, getEscrowStatus e p = (inr s, p) ∧ es_status s = ch_released.
Proof.
  intros (row & Hs & Hr & _). eexists. unfold getEscrowStatus, findPaymentRecordByEscrowId.
  rewrite (bind_run _ _ _ _ _ (on_db_find_run _ p)), Hs. simpl. rewrite Hr. simpl. done.
Qed.

Lemma retry_loop_success {S T} (fn : Z → M S T) base sleep onRetry should left a k s r s' :
  retry_loop fn base sleep onRetry should left a k s = (inr r, s') → retry_success r = true →
  ∃ n s0 v, retry_value r = Some v ∧ fn n s0 = (inr v, s').
Proof.
  revert a k s. induction left as [| left IH]; intros a k s; simpl; unfold outcome at 1; run_unfold;
    destruct (fn a s) as [[err | v] s1] eqn:Hf; simpl.
  1, 2, 4: intros [= <- <-]; simpl; naive_solver.
  destruct (should err a); [| by intros [= <- <-]].
  destruct (onRetry _ _ _ s1) as [[] s2]; [done |]. destruct (sleep _ s2) as [[] s3]; [done |]. apply IH.
Qed.

Lemma released_retry e contract caller o w rr w' v :
  release_with_retries e contract caller o w = (inr rr, w') → released_value rr = Some v →
  released_under e (xr_txHash v) (pay_of w').
Proof.
  intros Hrun Hv. unfold released_value in Hv. destruct (retry_success rr) eqn:Hs; [| done].
  apply retry_loop_success in Hrun as (n & w0 & v' & Hval & Hfn); [| done]. rewrite Hval in Hv.
  destruct (String.eqb_spec (xr_status v') "released") as [Hst |]; [| done]. injection Hv as ->.
  unfold on_coordinator, on_disputes, on_pay, zoom in Hfn.
  destruct (releaseEscrow _ _) as [r p] eqn:Hr in Hfn. injection Hfn as -> <-. simpl.
  destruct (releaseEscrow_row _ _ _ _ Hr Hst) as (row & Hsel & Hrow & Hh & _). by exists row.
Qed.

(** Operations on the escrow [e] alone. *)
Definition concerns (e : string) (o : auto_op) : Prop :=
  match o with
  | OpConfirm c _ => dc_escrowId c = e
  | OpReleaseJob j => sj_escrowId j = e
  | OpTriggerJob j => jd_escrowId j = e
  | OpRunDue _ => False
  | OpConfigure _ | OpWait _ => True
  end.

#[local] Instance own_only_preorder : PreOrder own_only.
Proof. split; [done |]. intros w1 w2 w3 H1 H2. unfold own_only in *. congruence. Qed.

Definition same_payments w w' : Prop :=
  w_rows (pay_of w') = w_rows (pay_of w) ∧ w_posted (pay_of w') = w_posted (pay_of w).

Lemma own_same_payments w w' : own_only w w' → same_payments w w'.
Proof. unfold own_only, same_payments, pay_of. by intros ->. Qed.

Hint Resolve emitAutoReleaseEvent_own : evolve.

Lemma emit_then {A} t o p (k : () → M (aworld St) A) w :
  (∀ w1, own_only w w1 → own_only w1 (k () w1).2) → own_only w ((emitAutoReleaseEvent t o p ≫= k) w).2.
Proof.
  intros Hk. pose proof (emitAutoReleaseEvent_own t o p w) as He. unfold mbind, M_bind.
  destruct (emitAutoReleaseEvent t o p w) as [[e | []] w1]; simpl in *; [done |]. etrans; [exact He | by apply Hk].
Qed.

Lemma released_blocks e h w :
  released_under e h (pay_of w) → assertReleasable e w = (inl (EscrowNotReleasableError e "released"), w).
Proof. intros Hr. rewrite assertReleasable_run. destruct (released_status _ _ _ Hr) as (s & -> & Hs). simpl. by rewrite Hs. Qed.

Lemma own_released e h w w' : own_only w w' → released_under e h (pay_of w) → released_under e h (pay_of w').
Proof. unfold own_only, pay_of. by intros ->. Qed.

Lemma executeAutoRelease_blocked e oid c o h w :
  released_under e h (pay_of w) → own_only w (executeAutoRelease e oid c o w).2.
Proof.
  intros Hr. unfold executeAutoRelease. apply emit_then. intros w1 Hw1.
  apply (own_released _ _ _ _ Hw1), released_blocks in Hr.
  assert (outcome (assertReleasable e) w1 = (inr (inl (EscrowNotReleasableError e "released")), w1)) as Ho.
  { unfold outcome. by rewrite Hr. }
  rewrite (bind_run _ _ _ _ _ Ho). by apply emit_then.
Qed.

Lemma handle_blocked c sig h w :
  released_under (dc_escrowId c) h (pay_of w) → own_only w (handleDeliveryConfirmation c sig w).2.
Proof.
  intros Hr. unfold handleDeliveryConfirmation. rewrite (bind_run (getAutoReleaseConfig _) _ w _ w eq_refl).
  destruct (negb _); [done |]. apply released_blocks in Hr. unfold mbind at 1, M_bind at 1, try_catch. rewrite Hr.
  match goal with |- context [emitAutoReleaseEvent ?t ?o ?p] => pose proof (emitAutoReleaseEvent_own t o p w) as He end.
  unfold mbind at 1, M_bind at 1. by destruct (emitAutoReleaseEvent _ _ _ w) as [[? | []] w1].
Qed.

Lemma process_blocked j h w : released_under (jd_escrowId j) h (pay_of w) → own_only w (processAutoRelease j w).2.
Proof.
  intros Hr. unfold processAutoRelease. rewrite (bind_run (gets now_at) _ w _ w eq_refl).
  destruct (_ <? _); [done |]. rewrite (bind_run (throw_if false _) _ w _ w eq_refl).
  rewrite (bind_run (gets (unresolved _)) _ w _ w eq_refl). destruct (unresolved _ _); [done |].
  destruct (released_status _ _ _ Hr) as (s & Hg & Hs).
  rewrite (bind_run _ _ _ _ _ (on_coordinator_pure _ _ _ Hg)), Hs. done.
Qed.

Lemma run_auto_blocked e h o w :
  concerns e o → released_under e h (pay_of w) → same_payments w (run_auto o w).
Proof.
  destruct o; simpl; intros Hc Hr; subst; [| | | done | done | done]; apply own_same_payments.
  - by eapply handle_blocked.
  - pose proof (executeAutoRelease_blocked (sj_escrowId j) (sj_orderId j) (sj_confirmedBy j) no_retry_options h w Hr) as H.
    unfold release_executor, mbind, M_bind. by destruct (executeAutoRelease _ _ _ _ w) as [[] w1].
  - by eapply process_blocked.
Qed.

Lemma run_autos_blocked e h ops w :
  Forall (concerns e) ops → released_under e h (pay_of w) → same_payments w (run_autos ops w).
Proof.
  intros Hops. revert w. induction Hops as [| o ops Ho _ IH]; intros w Hr; [done |].
  destruct (run_auto_blocked e h o w Ho Hr) as [H1 H2].
  destruct (IH (run_auto o w)) as [H3 H4]; [| split; [by rewrite <- H1, <- H3 | by rewrite <- H2, <- H4]].
  destruct Hr as (row & Hs & Hrow). exists row. unfold select1, get_db in *. simpl in *. by rewrite H1.
Qed.

(** The ways [executeAutoRelease] reports a transaction. *)
Lemma executeAutoRelease_released e oid c o w r w1 h :
  executeAutoRelease e oid c o w = (inr r, w1) → ar_transactionHash r = Some h →
  (∃ s, getEscrowStatus e (pay_of w) = (inr s, pay_of w) ∧ es_status s = ch_funded) ∧
  unresolved e w = false ∧ released_under e h (pay_of w1).
Proof.
  intros Hrun Hh. unfold executeAutoRelease in Hrun.
  apply bind_inr in Hrun as (u & w2 & He & Hrun).
  assert (own_only w w2) as Hw2 by (pose proof (emitAutoReleaseEvent_own release_initiated oid (payload_of e oid c None) w) as H; by rewrite He in H).
  unfold outcome in Hrun at 1. unfold mbind at 1, M_bind at 1 in Hrun. rewrite assertReleasable_run in Hrun.
  assert (pay_of w2 = pay_of w) as Hpay by (unfold pay_of; by rewrite Hw2). rewrite Hpay in Hrun.
  pose proof (getEscrowStatus_pure e (pay_of w)) as Hp.
  destruct (getEscrowStatus e (pay_of w)) as [[err | s] p]; simpl in *; [bind_all Hrun; by injection Hrun as <- _ |]. subst p.
  destruct (es_status s) eqn:Hst; simpl in Hrun; try (bind_all Hrun; by injection Hrun as <- _).
  split; [by exists s |].
  apply bind_inr in Hrun as (config & w3 & [= _ <-] & Hrun).
  apply bind_inr in Hrun as (count & w3 & Hcount & Hrun).
  assert (own_only w2 w3) as Hw3 by (injection Hcount as _ <-; done).
  apply bind_inr in Hrun as (total & w4 & Ht & Hrun). apply some_or_throw_run in Ht as [_ ->]. cbv zeta in Hrun.
  destruct (negb _); [bind_all Hrun; by injection Hrun as <- _ |].
  unfold executeFinal in Hrun. rewrite (bind_run (gets (unresolved e)) _ w3 _ w3 eq_refl) in Hrun.
  replace (unresolved e w3) with (unresolved e w) in Hrun by (unfold unresolved; by rewrite Hw3, Hw2).
  destruct (unresolved e w); [bind_all Hrun; by injection Hrun as <- _ |]. split; [done |].
  apply bind_inr in Hrun as (contract & w5 & _ & Hrun). apply bind_inr in Hrun as (caller & w6 & _ & Hrun).
  apply bind_inr in Hrun as (rr & w7 & Hrr & Hrun).
  destruct (released_value rr) as [v |] eqn:Hv; [| bind_all Hrun; by injection Hrun as <- _].
  apply bind_inr in Hrun as (u' & w8 & He' & Hrun). injection Hrun as <- <-. injection Hh as <-.
  eapply own_released; [| by eapply released_retry].
  match type of He' with emitAutoReleaseEvent ?t ?o ?p _ = _ => pose proof (emitAutoReleaseEvent_own t o p w7) as H end.
  by rewrite He' in H.
Qed.

(** C18. A delivery is paid once: when [executeAutoRelease] reports a transaction, the
    escrow was funded and had no unresolved dispute before, its record is released under
    the reported hash after, and whatever confirmations and delayed jobs for this escrow
    follow, nothing more is posted to the wallet service and no payment record changes. *)
Theorem delivery_release_final e oid c o w r w1 h :
  executeAutoRelease e oid c o w = (inr r, w1) → ar_transactionHash r = Some h →
  (∃ s, getEscrowStatus e (pay_of w) = (inr s, pay_of w) ∧ es_status s = ch_funded) ∧
  unresolved e w = false ∧ released_under e h (pay_of w1) ∧
  ∀ ops, Forall (concerns e) ops →
    w_posted (pay_of (run_autos ops w1)) = w_posted (pay_of w1) ∧ w_rows (pay_of (run_autos ops w1)) = w_rows (pay_of w1).
Proof.
  intros Hrun Hh. destruct (executeAutoRelease_released _ _ _ _ _ _ _ _ Hrun Hh) as (Hs & Hu & Hr).
  repeat (split; [done |]). intros ops Hops. destruct (run_autos_blocked e h ops w1 Hops Hr). done.
Qed.
End correct.

(** * Runs of the automatic release

    A funded escrow with a dispute store, on which the theorems are applied, and the runs
    that show where the service departs from its comments. *)

#[local] Instance release_demo : AutoReleaseEnv := {|
  stream_accepts := λ _ _, true;
  ESCROW_AUTO_RELEASE_CALLER_ADDRESS := None;
  SETTLEMENT_SOURCE_ADDRESS := Some "GPLATFORM";
  isMockMode := false;
  bull_add := λ _ j, inr (Some (bj_jobId j)) |}.

Definition delivery_world (p : pworld) : aworld InMemoryDisputeStore :=
  AWorld (DWorld p (InMemory [] [] 0) [] [] [] 0) [] [] [] 0 [] [].

#[local] Existing Instance demo_mediation.

Local Notation demo_delivery env p :=
  (@executeAutoRelease env InMemoryDisputeStore demo_store release_demo "7" "order-1" "GCOURIER" no_retry_options (delivery_world p)).

Lemma delivery_release_final_witness :
  ∃ r w1, demo_delivery (mediation_env None) demo_funded = (inr r, w1) ∧ ar_releasedAmount r = "100" ∧
    w_posted (pay_of (@run_autos (mediation_env None) _ demo_store release_demo
      [OpReleaseJob (Build_ScheduledReleaseJob "7" "order-1" "GCOURIER" "t")] w1)) = w_posted (pay_of w1).
Proof.
  destruct (demo_delivery (mediation_env None) demo_funded) as [[e | r] w1] eqn:Hrun; [vm_compute in Hrun; discriminate |].
  assert (ar_transactionHash r = Some "tx1" ∧ ar_releasedAmount r = "100") as [Hh Ha].
  { vm_compute in Hrun. injection Hrun as <- _. split; reflexivity. }
  exists r, w1. split; [reflexivity |]. split; [exact Ha |].
  destruct (@delivery_release_final (mediation_env None) InMemoryDisputeStore demo_store release_demo
    "7" "order-1" "GCOURIER" no_retry_options (delivery_world demo_funded) r w1 "tx1" Hrun Hh) as (_ & _ & _ & Hops).
  apply Hops. repeat constructor.
Defined.

(** A release that fails on chain is reported by [releaseEscrow] as a result, not thrown,
    so the retries around it never happen: the service answers "failed after retries"
    after a single request. *)
Theorem failed_release_not_retried :
  ∃ r w1, demo_delivery (mediation_env (Some "release")) demo_funded = (inr r, w1) ∧
    ar_error r = Some "Soroban release transaction failed after retries" ∧ ar_retryCount r = 0 ∧
    length (w_posted (pay_of w1)) = S (length (w_posted demo_funded)).
Proof. eexists _, _. split; [vm_compute; reflexivity |]. vm_compute. done. Qed.

(** After a partial refund of 40 the escrow holds 60; a delivery still reports 100 released. *)
Theorem delivery_reports_refunded_amount :
  let refunded := @calls (mediation_env None) [OpPartialRefund (demo_refund "40")] demo_funded in
  ∃ r w1, demo_delivery (mediation_env None) refunded = (inr r, w1) ∧ ar_success r = true ∧ ar_releasedAmount r = "100" ∧
    (b_remaining <$> book refunded) = [60].
Proof. eexists _, _. split; [vm_compute; reflexivity |]. vm_compute. done. Qed.

(** Without partial releases the first of three required confirmations releases everything. *)
Theorem required_confirmations_ignored total :
  computeProRata total 1 (Build_AutoReleaseConfig "7" true 0 false 3) =
    {| pq_releasedAmount := total; pq_remainingAmount := 0; pq_isFinal := true |}.
Proof. reflexivity. Qed.
