(* ===== verification/Fingerprint.v ===== *)
(** * Fingerprints of checkout requests (apps/backend/orchestrator/src/idempotency/fingerprint.ts)

    Canonical JSON, the fingerprint of a checkout and of an explicit key, and the proof
    that a fingerprint identifies a request exactly up to the order of its items and of
    the keys of its objects, if the wallet address contains no bar.  SHA-256 is a parameter. *)
From stdpp Require Import sorting.
From S2P Require Import Prelude JsLib JsCollections.
Local Open Scope Z_scope.

(** ** JSON values

    A number is its text, as [JSON.stringify] prints it. *)
Inductive json :=
  | JNull
  | JBool (b : bool)
  | JNum (text : string)
  | JStr (s : string)
  | JArr (l : list json)
  | JObj (l : list (string * json)).

Definition hex_digit (n : N) : ascii := Ascii.ascii_of_N (if (n <? 10)%N then n + 48 else n + 87)%N.

Definition backslash : ascii := "\"%char.
Definition quote_char : ascii := Ascii.ascii_of_N 34.

(** The characters [JSON.stringify] writes for one character of a string. *)
Definition escape (c : ascii) : string :=
  let n := Ascii.N_of_ascii c in
  let short x := String backslash (String x "") in
  if (n =? 34)%N then short quote_char
  else if (n =? 92)%N then short backslash
  else if (n =? 8)%N then short "b"%char
  else if (n =? 9)%N then short "t"%char
  else if (n =? 10)%N then short "n"%char
  else if (n =? 12)%N then short "f"%char
  else if (n =? 13)%N then short "r"%char
  else if (n <? 32)%N then
    String backslash (String "u" (String "0" (String "0" (String (hex_digit (n / 16)) (String (hex_digit (n mod 16)) "")))))
  else String c "".

Fixpoint escaped (s : string) : string :=
  match s with
  | EmptyString => ""
  | String c s' => escape c +:+ escaped s'
  end.

(** [JSON.stringify(s)] *)
Definition json_quote (s : string) : string := String quote_char (escaped s +:+ String quote_char "").

(** [arr.sort()] of strings *)
Definition sort_strings (l : list string) : list string := merge_sort String.le l.

(** ** Canonical form *)

Definition canonical_entry (texts : list (string * string)) (key : string) : string :=
  json_quote key +:+ ":" +:+ default "" (jget key texts).

Fixpoint canonicalJson (value : json) : string :=
  match value with
  | JArr l => "[" +:+ join "," (canonicalJson <$> l) +:+ "]"
  | JObj l =>
      let texts := (λ e, (e.1, canonicalJson e.2)) <$> l in
      let entries := canonical_entry texts <$> sort_strings (l.*1) in
      "{" +:+ join "," entries +:+ "}"
  | JNull => "null"
  | JBool b => if b then "true" else "false"
  | JNum t => t
  | JStr s => json_quote s
  end.

(** [items ?? []] of a value that may be missing *)
Definition items_or_empty (items : option json) : json :=
  match items with None | Some JNull => JArr [] | Some v => v end.

Definition canonicalItems (items : option json) : string :=
  match items_or_empty items with
  | JArr l => "[" +:+ join "," (sort_strings (canonicalJson <$> l)) +:+ "]"
  | v => canonicalJson v
  end.

Record CheckoutFingerprintInput := { cf_walletAddress : string; cf_items : option json; cf_nonce : string }.

Definition fingerprint_text (input : CheckoutFingerprintInput) : string :=
  cf_walletAddress input +:+ "|" +:+ canonicalItems (cf_items input) +:+ "|" +:+ cf_nonce input.

Section fingerprint.
Context (sha256_hex : string → string).

Definition computeCheckoutFingerprint (input : CheckoutFingerprintInput) : string := sha256_hex (fingerprint_text input).

Definition computeHeaderKeyFingerprint (userId idempotencyKey : string) : string :=
  sha256_hex ("idempotency-key|" +:+ userId +:+ "|" +:+ idempotencyKey).
End fingerprint.

(** ** Specification: the same value up to the order of keys *)

Inductive same_json : json → json → Prop :=
  | same_null : same_json JNull JNull
  | same_bool b : same_json (JBool b) (JBool b)
  | same_num t : same_json (JNum t) (JNum t)
  | same_str s : same_json (JStr s) (JStr s)
  | same_arr l l' : Forall2 same_json l l' → same_json (JArr l) (JArr l')
  | same_obj l l' :
      (∀ k v, jget k l = Some v → ∃ v', jget k l' = Some v' ∧ same_json v v') →
      (∀ k, k ∈ l'.*1 → k ∈ l.*1) →
      same_json (JObj l) (JObj l').

(** Lists of items as sets: the same values, in any order. *)
Definition same_items (a b : option json) : Prop :=
  match items_or_empty a, items_or_empty b with
  | JArr l, JArr l' => ∃ l'', l' ≡ₚ l'' ∧ Forall2 same_json l l''
  | v, v' => same_json v v'
  end.

(** What [JSON.parse] produces: objects have each key once, and the text of a number is
    made of digits, signs, a point and an exponent. *)
Definition num_char (c : ascii) : bool :=
  is_digit c || bool_decide (c ∈ ["+"; "-"; "."; "e"]%char).
Definition num_ok (t : string) : Prop :=
  t ≠ "" ∧ forallb num_char (chars t) = true ∧ String.get 0 t ≠ Some "e"%char.

Inductive wf_json : json → Prop :=
  | wf_null : wf_json JNull
  | wf_bool b : wf_json (JBool b)
  | wf_num t : num_ok t → wf_json (JNum t)
  | wf_str s : wf_json (JStr s)
  | wf_arr l : Forall wf_json l → wf_json (JArr l)
  | wf_obj l : NoDup (l.*1) → Forall (λ e, wf_json e.2) l → wf_json (JObj l).

(** * A fingerprint identifies its request

    The canonical text of a value is the plain text of a normal form in which the keys
    are sorted; plain texts are self-delimiting; normal forms coincide exactly when the
    values are the same up to the order of keys. *)

(** ** Induction on JSON values *)

Section json_induction.
Context (P : json → Prop) (Hnull : P JNull) (Hbool : ∀ b, P (JBool b)) (Hnum : ∀ t, P (JNum t)) (Hstr : ∀ s, P (JStr s))
  (Harr : ∀ l, Forall P l → P (JArr l)) (Hobj : ∀ l, Forall (λ e, P e.2) l → P (JObj l)).

Fixpoint json_nested_ind (v : json) : P v :=
  match v with
  | JNull => Hnull
  | JBool b => Hbool b
  | JNum t => Hnum t
  | JStr s => Hstr s
  | JArr l => Harr l ((fix go l := match l return Forall P l with
                                   | [] => List.Forall_nil _
                                   | x :: l' => List.Forall_cons _ _ _ (json_nested_ind x) (go l') end) l)
  | JObj l => Hobj l ((fix go l := match l return Forall (λ e, P e.2) l with
                                   | [] => List.Forall_nil _
                                   | x :: l' => List.Forall_cons _ _ _ (json_nested_ind x.2) (go l') end) l)
  end.
End json_induction.

(** ** Plain text and normal form *)

Definition print_entry (text : json → string) (e : string * json) : string := json_quote e.1 +:+ ":" +:+ text e.2.

Fixpoint print (v : json) : string :=
  match v with
  | JArr l => "[" +:+ join "," (print <$> l) +:+ "]"
  | JObj l => "{" +:+ join "," (print_entry print <$> l) +:+ "}"
  | JNull => "null"
  | JBool b => if b then "true" else "false"
  | JNum t => t
  | JStr s => json_quote s
  end.

Definition sort_entries (l : list (string * json)) : list (string * json) :=
  (λ k, (k, default JNull (jget k l))) <$> sort_strings (l.*1).

Fixpoint jnorm (v : json) : json :=
  match v with
  | JArr l => JArr (jnorm <$> l)
  | JObj l => JObj (sort_entries ((λ e, (e.1, jnorm e.2)) <$> l))
  | _ => v
  end.

Lemma jget_fmap_snd {A B} (f : A → B) k (l : list (string * A)) : jget k ((λ e, (e.1, f e.2)) <$> l) = f <$> jget k l.
Proof. induction l as [| [k' v] l IH]; simpl; [done |]. by destruct (String.eqb k k'). Qed.

Lemma fst_fmap_snd {A B} (f : A → B) (l : list (string * A)) : ((λ e, (e.1, f e.2)) <$> l).*1 = l.*1.
Proof. by rewrite <- list_fmap_compose. Qed.

Lemma jget_entry {A} k (l : list (string * A)) : k ∈ l.*1 → ∃ v, jget k l = Some v ∧ (k, v) ∈ l.
Proof.
  induction l as [| [k' v] l IH]; simpl; [by intros ?%elem_of_nil |]. intros Hk.
  destruct (String.eqb_spec k k') as [-> | Hne]; [exists v; split; [done | by left] |].
  apply elem_of_cons in Hk as [? | Hk]; [done |]. destruct (IH Hk) as (v' & ? & ?). exists v'. split; [done | by right].
Qed.

Lemma jget_key {A} k v (l : list (string * A)) : jget k l = Some v → k ∈ l.*1.
Proof.
  induction l as [| [k' v'] l IH]; simpl; [done |]. destruct (String.eqb_spec k k') as [-> |]; [left | right; auto].
Qed.

Lemma sort_strings_perm l : sort_strings l ≡ₚ l.
Proof. apply merge_sort_Permutation. Qed.

Lemma elem_of_sort k l : k ∈ sort_strings l ↔ k ∈ l.
Proof. by rewrite sort_strings_perm. Qed.

Lemma canonical_print v : canonicalJson v = print (jnorm v).
Proof.
  induction v as [| b | t | s | l IH | l IH] using json_nested_ind; simpl; try done.
  - do 3 f_equal. rewrite <- list_fmap_compose. by apply Forall_fmap_ext_1.
  - do 3 f_equal. unfold sort_entries. rewrite <- list_fmap_compose, fst_fmap_snd. apply list_fmap_ext. intros i k Hk.
    unfold canonical_entry, print_entry. simpl. rewrite !jget_fmap_snd.
    apply list_elem_of_lookup_2, elem_of_sort, jget_entry in Hk as (v & Hv & Hin). rewrite Hv. simpl.
    rewrite Forall_forall in IH. do 2 f_equal. exact (IH _ Hin).
Qed.

(** ** Self-delimiting texts *)

Definition delimiter (c : ascii) : bool := bool_decide (c ∈ [","; "]"; "}"; "|"]%char).

Definition delimited (r : string) : Prop := match r with EmptyString => True | String c _ => delimiter c = true end.

(** One escaped character, read back. *)
Definition unhex (c : ascii) : N := let n := Ascii.N_of_ascii c in (if n <? 58 then n - 48 else n - 87)%N.

Definition unescape (s : string) : option (ascii * string) :=
  match s with
  | EmptyString => None
  | String c s' =>
      if Ascii.eqb c quote_char then None
      else if Ascii.eqb c backslash then
        match s' with
        | EmptyString => None
        | String x s'' =>
            if Ascii.eqb x "b"%char then Some (Ascii.ascii_of_N 8, s'')
            else if Ascii.eqb x "t"%char then Some (Ascii.ascii_of_N 9, s'')
            else if Ascii.eqb x "n"%char then Some (Ascii.ascii_of_N 10, s'')
            else if Ascii.eqb x "f"%char then Some (Ascii.ascii_of_N 12, s'')
            else if Ascii.eqb x "r"%char then Some (Ascii.ascii_of_N 13, s'')
            else if Ascii.eqb x "u"%char then
              match s'' with
              | String _ (String _ (String a (String b t))) => Some (Ascii.ascii_of_N (unhex a * 16 + unhex b), t)
              | _ => None
              end
            else Some (x, s'')
        end
      else Some (c, s')
  end.

Lemma unescape_escape c r : unescape (escape c +:+ r) = Some (c, r).
Proof. destruct c as [[] [] [] [] [] [] [] []]; reflexivity. Qed.

Lemma string_app_assoc (a b c : string) : (a +:+ b) +:+ c = a +:+ (b +:+ c).
Proof. induction a as [| x a IH]; [done |]. change (String x ((a +:+ b) +:+ c) = String x (a +:+ (b +:+ c))). by rewrite IH. Qed.

Lemma string_app_nil (a : string) : a +:+ "" = a.
Proof. induction a as [| x a IH]; [done |]. change (String x (a +:+ "") = String x a). by rewrite IH. Qed.

Lemma quote_inj s s' r r' : json_quote s +:+ r = json_quote s' +:+ r' → s = s' ∧ r = r'.
Proof.
  unfold json_quote. intros H. injection H as H. rewrite !string_app_assoc in H. revert s' H.
  induction s as [| c s IH]; intros [| c' s'] H; simpl in H; rewrite ?string_app_assoc in H.
  - by injection H.
  - apply (f_equal unescape) in H. by rewrite unescape_escape in H.
  - apply (f_equal unescape) in H. by rewrite unescape_escape in H.
  - apply (f_equal unescape) in H. rewrite !unescape_escape in H. injection H as <- H.
    by destruct (IH s' H) as [<- <-].
Qed.

(** Texts of a list, between brackets: [f x] is recovered from [f x] followed by a
    delimiter, and never starts with the closing character. *)
Section join_inj.
Context {A : Type} (f : A → string) (Q : A → Prop) (close : ascii).

Definition readable (x : A) : Prop :=
  ∀ y r r', Q y → delimited r → delimited r' → f x +:+ r = f y +:+ r' → x = y ∧ r = r'.

Hypothesis close_delimits : delimiter close = true.
Hypothesis close_not_comma : close ≠ ","%char.
Hypothesis never_closes : ∀ x r r', Q x → f x +:+ r ≠ String close r'.

Fixpoint rest (l : list A) : string := match l with [] => "" | x :: l' => "," +:+ f x +:+ rest l' end.

Lemma join_rest x l : join "," (f <$> x :: l) = f x +:+ rest l.
Proof.
  revert x. induction l as [| y l IH]; intros x; [by rewrite string_app_nil |].
  change (f x +:+ "," +:+ join "," (f <$> y :: l) = f x +:+ "," +:+ f y +:+ rest l). by rewrite IH.
Qed.

Lemma rest_delimited l r : delimited (rest l +:+ String close r).
Proof. by destruct l. Qed.

Lemma rest_inj l l' r r' :
  Forall readable l → Forall Q l' → rest l +:+ String close r = rest l' +:+ String close r' → l = l' ∧ r = r'.
Proof.
  intros Hl. revert l'. induction Hl as [| x l Hx Hl IH]; intros [| y l'] Hl' H.
  - by injection H.
  - injection H as H. congruence.
  - injection H as H. congruence.
  - change (rest (x :: l)) with ("," +:+ f x +:+ rest l) in H. change (rest (y :: l')) with ("," +:+ f y +:+ rest l') in H.
    rewrite !string_app_assoc in H. injection H as H. apply Forall_cons in Hl' as [Hy Hl'].
    apply Hx in H as [<- H]; [| done | apply rest_delimited ..]. by destruct (IH l' Hl' H) as [<- <-].
Qed.

Lemma join_inj l l' r r' :
  Forall readable l → Forall Q l → Forall Q l' →
  join "," (f <$> l) +:+ String close r = join "," (f <$> l') +:+ String close r' → l = l' ∧ r = r'.
Proof.
  intros Hr Hq Hq' H. destruct l as [| x l], l' as [| y l'].
  - by injection H.
  - rewrite join_rest, string_app_assoc in H. apply Forall_cons in Hq' as [Hy _]. symmetry in H. by apply never_closes in H.
  - rewrite join_rest, string_app_assoc in H. apply Forall_cons in Hq as [Hx _]. by apply never_closes in H.
  - rewrite !join_rest, !string_app_assoc in H. apply Forall_cons in Hr as [Hx Hr]. apply Forall_cons in Hq' as [Hy Hq'].
    apply Hx in H as [<- H]; [| done | apply rest_delimited ..]. by destruct (rest_inj l l' r r') as [<- <-].
Qed.
End join_inj.

Definition first (s : string) : option ascii := String.get 0 s.

Lemma num_text t : num_ok t → ∃ c t', t = String c t' ∧ num_char c = true ∧ c ≠ "e"%char.
Proof.
  intros (Hne & Hall & He). destruct t as [| c t']; [done |]. exists c, t'. simpl in Hall, He.
  apply andb_prop in Hall as [Hc _]. split; [done |]. split; [done |]. by intros ->.
Qed.

(** Numbers end where a delimiter starts. *)
Lemma num_inj t t' r r' :
  forallb num_char (chars t) = true → forallb num_char (chars t') = true → delimited r → delimited r' →
  t +:+ r = t' +:+ r' → t = t' ∧ r = r'.
Proof.
  assert (∀ c, num_char c = true → delimiter c = true → False) as Hd.
  { intros c H1 H2. apply bool_decide_eq_true in H2. revert H1. set_unfold. intros H1. naive_solver. }
  revert t'. induction t as [| c t IH]; intros [| c' t'] H1 H2 Hr Hr' H; simpl in *.
  - done.
  - change (r = String c' (t' +:+ r')) in H. subst r. apply andb_prop in H2 as [H2 _]. destruct (Hd _ H2 Hr).
  - change (String c (t +:+ r) = r') in H. subst r'. apply andb_prop in H1 as [H1 _]. destruct (Hd _ H1 Hr').
  - change (String c (t +:+ r) = String c' (t' +:+ r')) in H. injection H as <- H.
    apply andb_prop in H1 as [_ H1], H2 as [_ H2]. by destruct (IH t' H1 H2 Hr Hr' H) as [<- <-].
Qed.

(** The kind of a value from the first character of its text. *)
Definition kind_char (v : json) (c : ascii) : bool :=
  match v with
  | JNull => Ascii.eqb c "n"%char
  | JBool b => Ascii.eqb c (if b then "t" else "f")%char
  | JNum _ => num_char c && negb (Ascii.eqb c "e"%char)
  | JStr _ => Ascii.eqb c quote_char
  | JArr _ => Ascii.eqb c "["%char
  | JObj _ => Ascii.eqb c "{"%char
  end.

Lemma print_first v : wf_json v → ∃ c s, print v = String c s ∧ kind_char v c = true.
Proof.
  intros Hv. destruct Hv; simpl; try (by eexists _, _); [by destruct b; eexists _, _ |].
  apply num_text in H as (c & t' & -> & Hc & He). exists c, t'. split; [done |]. rewrite Hc. simpl.
  by destruct (Ascii.eqb_spec c "e"%char).
Qed.

Lemma print_never v c r r' : wf_json v → delimiter c = true → print v +:+ r ≠ String c r'.
Proof.
  intros Hv Hc. destruct (print_first v Hv) as (x & s & -> & Hk). change (String x (s +:+ r) ≠ String c r').
  intros [= -> _]. apply bool_decide_eq_true in Hc. set_unfold.
  destruct v as [| [] | | | |]; simpl in Hk; naive_solver.
Qed.

Definition kind (v : json) : nat :=
  match v with JNull => 0 | JBool true => 1 | JBool false => 2 | JNum _ => 3 | JStr _ => 4 | JArr _ => 5 | JObj _ => 6 end.

Lemma kind_char_inj v v' c : kind_char v c = true → kind_char v' c = true → kind v = kind v'.
Proof.
  assert (∀ v c, kind_char v c = true →
    kind v = if Ascii.eqb c "n"%char then 0%nat else if Ascii.eqb c "t"%char then 1%nat else if Ascii.eqb c "f"%char then 2%nat
             else if Ascii.eqb c quote_char then 4%nat else if Ascii.eqb c "["%char then 5%nat
             else if Ascii.eqb c "{"%char then 6%nat else 3%nat) as Hk.
  { intros u x H. destruct u as [| [] | | | |]; simpl in H; try (apply Ascii.eqb_eq in H as ->; reflexivity).
    revert H. by destruct x as [[] [] [] [] [] [] [] []]. }
  intros H H'. by rewrite (Hk v c H), (Hk v' c H').
Qed.

Lemma print_kind v v' r r' : wf_json v → wf_json v' → print v +:+ r = print v' +:+ r' → kind v = kind v'.
Proof.
  intros Hv Hv' H. destruct (print_first v Hv) as (c & s & Hs & Hc), (print_first v' Hv') as (c' & s' & Hs' & Hc').
  rewrite Hs, Hs' in H. injection H as -> _. by eapply kind_char_inj.
Qed.

Lemma print_inj v : wf_json v → readable print wf_json v.
Proof.
  induction v as [| b | t | s | l IH | l IH] using json_nested_ind; intros Hv y r r' Hy Hr Hr' H;
    pose proof (print_kind _ _ _ _ Hv Hy H) as Hk; destruct y as [| b' | t' | s' | l' | l'];
    try destruct b; try destruct b'; try discriminate Hk; clear Hk.
  - by injection H.
  - by injection H.
  - by injection H.
  - inversion Hv; inversion Hy; subst. destruct (num_inj t t' r r') as [<- <-]; try done; firstorder.
  - by destruct (quote_inj _ _ _ _ H) as [<- <-].
  - inversion_clear Hv as [| | | | ? Hl |]. inversion_clear Hy as [| | | | ? Hl' |].
    injection H as H. rewrite !string_app_assoc in H.
    destruct (join_inj print wf_json "]"%char eq_refl ltac:(done) (λ x a b Hx, print_never x "]"%char a b Hx eq_refl) l l' r r') as [<- <-];
      try done. rewrite Forall_forall in IH, Hl |- *. auto.
  - inversion_clear Hv as [| | | | | ? _ Hl]. inversion_clear Hy as [| | | | | ? _ Hl'].
    injection H as H. rewrite !string_app_assoc in H.
    destruct (join_inj (print_entry print) (λ e, wf_json e.2) "}"%char eq_refl ltac:(done) (λ x a b Hx, ltac:(done)) l l' r r') as [<- <-];
      try done. rewrite Forall_forall in IH, Hl |- *. intros [k v] Hin [k' v'] q q' Hy Hq Hq' Heq.
    unfold print_entry in Heq. simpl in Heq. rewrite !string_app_assoc in Heq. apply quote_inj in Heq as [<- Heq].
    injection Heq as Heq. destruct (IH _ Hin (Hl _ Hin) v' q q') as [Hvv <-]; try done. simpl in Hvv. by subst.
Qed.

(** ** Normal forms *)

Lemma jget_keyed {A} (g : string → A) k (ks : list string) :
  jget k ((λ k, (k, g k)) <$> ks : list (string * A)) = if decide (k ∈ ks) then Some (g k) else None.
Proof.
  induction ks as [| x ks IH]; simpl; [done |]. destruct (String.eqb_spec k x) as [-> | Hne].
  - by rewrite decide_True by left.
  - etrans; [exact IH |]. apply decide_ext. rewrite elem_of_cons. naive_solver.
Qed.

Lemma jget_None {A} k (l : list (string * A)) : k ∉ l.*1 → jget k l = None.
Proof. destruct (jget k l) eqn:H; [| done]. by apply jget_key in H. Qed.

Lemma jget_sort k l : jget k (sort_entries l) = jget k l.
Proof.
  unfold sort_entries. rewrite jget_keyed. case_decide as Hk; rewrite elem_of_sort in Hk.
  - apply jget_entry in Hk as (v & -> & _). done.
  - by rewrite jget_None.
Qed.

Lemma sort_entries_keys l : (sort_entries l).*1 = sort_strings (l.*1).
Proof. unfold sort_entries. rewrite <- list_fmap_compose. apply list_fmap_id. Qed.

Lemma sort_perm l l' : l ≡ₚ l' → sort_strings l = sort_strings l'.
Proof. intros H. apply (Sorted_unique String.le); [apply Sorted_merge_sort, _ .. |]. by rewrite !sort_strings_perm. Qed.

Lemma jnorm_wf v : wf_json v → wf_json (jnorm v).
Proof.
  induction v as [| b | t | s | l IH | l IH] using json_nested_ind; intros Hv; try done; simpl.
  - inversion_clear Hv as [| | | | ? Hl |]. constructor. rewrite Forall_fmap, Forall_forall in *. intros x Hx. auto.
  - inversion_clear Hv as [| | | | | ? Hnd Hl]. constructor.
    + rewrite sort_entries_keys, fst_fmap_snd. by rewrite sort_strings_perm.
    + unfold sort_entries. rewrite Forall_fmap, Forall_forall. intros k Hk. simpl. rewrite jget_fmap_snd.
      rewrite elem_of_sort, fst_fmap_snd in Hk. apply jget_entry in Hk as (v & -> & Hin). simpl.
      rewrite Forall_forall in IH, Hl. exact (IH _ Hin (Hl _ Hin)).
Qed.

Lemma jnorm_same a b : jnorm a = jnorm b → same_json a b.
Proof.
  revert b. induction a as [| x | t | s | l IH | l IH] using json_nested_ind; intros [| y | t' | s' | l' | l'] H; try done;
    simpl in H; simplify_eq/=; try constructor.
  - revert l' H. induction IH as [| x l Hx _ IHl]; intros [| y l'] H; simplify_eq/=; constructor; auto.
  - intros k v Hk. apply (f_equal (jget k)) in H. rewrite !jget_sort, !jget_fmap_snd, Hk in H.
    destruct (jget k l') as [v' |] eqn:Hk'; [| done]. injection H as H. exists v'. split; [done |].
    pose proof (jget_key _ _ _ Hk) as Hin. apply jget_entry in Hin as (v0 & Hv0 & Hin). rewrite Hk in Hv0. injection Hv0 as <-.
    rewrite Forall_forall in IH. by apply (IH _ Hin).
  - intros k Hin. apply jget_entry in Hin as (v & Hv & _). apply (f_equal (jget k)) in H.
    rewrite !jget_sort, !jget_fmap_snd, Hv in H. destruct (jget k l) eqn:Hk; [by eapply jget_key | done].
Qed.

Lemma same_jnorm_list l l' :
  Forall (λ a, ∀ b, wf_json a → wf_json b → same_json a b → jnorm a = jnorm b) l → Forall wf_json l → Forall wf_json l' →
  Forall2 same_json l l' → jnorm <$> l = jnorm <$> l'.
Proof.
  intros IH Hl Hl' HF. induction HF as [| x y l l' Hxy _ IHl]; [done |].
  apply Forall_cons in IH as [IHx IH], Hl as [Hx Hl], Hl' as [Hy Hl']. simpl. f_equal; auto.
Qed.

Lemma same_jnorm a b : wf_json a → wf_json b → same_json a b → jnorm a = jnorm b.
Proof.
  revert b. induction a as [| x | t | s | l IH | l IH] using json_nested_ind; intros b Ha Hb H; inversion H; subst; try done; simpl.
  - f_equal. inversion_clear Ha as [| | | | ? Hl |]. inversion_clear Hb as [| | | | ? Hl' |].
    by apply same_jnorm_list.
  - f_equal. inversion_clear Ha as [| | | | | ? Hnd Hl]. inversion_clear Hb as [| | | | | ? Hnd' Hl'].
    match goal with HF : ∀ k v, jget k l = Some v → _ |- _ => rename HF into Hsame end.
    unfold sort_entries. rewrite !fst_fmap_snd.
    rewrite (sort_perm (l.*1) (l'.*1)).
    2: { apply NoDup_Permutation; [done .. |]. intros k. split; [| auto]. intros Hk. apply jget_entry in Hk as (v & Hv & _).
         destruct (Hsame k v Hv) as (v' & Hv' & _). by eapply jget_key. }
    apply list_fmap_ext. intros i k Hk. f_equal. rewrite !jget_fmap_snd. apply list_elem_of_lookup_2 in Hk. rewrite elem_of_sort in Hk.
    assert (k ∈ l.*1) as Hkl by auto. apply jget_entry in Hkl as (v & Hv & Hin). destruct (Hsame k v Hv) as (v' & Hv' & Hvv).
    apply jget_entry in Hk as (v2 & Hv2 & Hin'). rewrite Hv' in Hv2. injection Hv2 as <-. rewrite Hv, Hv'. simpl.
    rewrite Forall_forall in IH, Hl, Hl'. exact (IH _ Hin _ (Hl _ Hin) (Hl' _ Hin') Hvv).
Qed.

(** The canonical text decides sameness. *)
Lemma canonical_same a b : wf_json a → wf_json b → canonicalJson a = canonicalJson b ↔ same_json a b.
Proof.
  intros Ha Hb. rewrite !canonical_print. split.
  - intros H. apply jnorm_same. pose proof (print_inj (jnorm a) (jnorm_wf _ Ha) (jnorm b) "" "" (jnorm_wf _ Hb) I I) as Hp.
    rewrite !string_app_nil in Hp. by apply Hp.
  - intros H. by rewrite (same_jnorm a b).
Qed.

(** ** Items and fingerprints *)

Definition wf_items (items : option json) : Prop := wf_json (items_or_empty items).

Lemma canonical_readable v : wf_json v → readable id (λ s, ∃ u, wf_json u ∧ s = canonicalJson u) (canonicalJson v).
Proof.
  intros Hv s r r' (u & Hu & ->) Hr Hr'. rewrite !canonical_print. intros H.
  destruct (print_inj (jnorm v) (jnorm_wf _ Hv) (jnorm u) r r' (jnorm_wf _ Hu) Hr Hr' H) as [-> ->]. done.
Qed.

Lemma canonical_texts l :
  Forall wf_json l → Forall (λ s, ∃ u, wf_json u ∧ s = canonicalJson u) (sort_strings (canonicalJson <$> l)).
Proof.
  intros Hl. rewrite sort_strings_perm, Forall_fmap, Forall_forall in *. intros v Hv. exists v. auto.
Qed.

Lemma sorted_texts_inj l l' r r' :
  Forall wf_json l → Forall wf_json l' →
  join "," (sort_strings (canonicalJson <$> l)) +:+ String "]" r =
    join "," (sort_strings (canonicalJson <$> l')) +:+ String "]" r' →
  canonicalJson <$> l ≡ₚ canonicalJson <$> l' ∧ r = r'.
Proof.
  intros Hl Hl' H. rewrite <- (list_fmap_id (sort_strings (canonicalJson <$> l))) in H.
  rewrite <- (list_fmap_id (sort_strings (canonicalJson <$> l'))) in H.
  apply (join_inj id (λ s, ∃ u, wf_json u ∧ s = canonicalJson u) "]"%char) in H as [Hs Hr];
    [| done | done | | | by apply canonical_texts ..].
  - split; [| done]. rewrite <- (sort_strings_perm (canonicalJson <$> l)), Hs. apply sort_strings_perm.
  - intros s a b (u & Hu & ->). rewrite canonical_print. by apply print_never; [apply jnorm_wf |].
  - eapply Forall_impl; [by apply canonical_texts |]. intros s (u & Hu & ->). by apply canonical_readable.
Qed.

Lemma items_text items :
  canonicalItems items =
    match items_or_empty items with
    | JArr l => String "[" (join "," (sort_strings (canonicalJson <$> l)) +:+ "]")
    | v => print (jnorm v)
    end.
Proof. unfold canonicalItems. destruct (items_or_empty items); rewrite <- ?canonical_print; done. Qed.

Lemma not_bracket v r s : wf_json v → kind v ≠ 5%nat → print (jnorm v) +:+ r ≠ String "[" s.
Proof.
  intros Hv Hk H. destruct (print_first _ (jnorm_wf _ Hv)) as (c & s' & Hs & Hc). rewrite Hs in H. injection H as -> _.
  apply Hk. transitivity (kind (jnorm v)); [by destruct v | by apply (kind_char_inj (jnorm v) (JArr []) "["%char)].
Qed.

Lemma items_other items : kind (items_or_empty items) ≠ 5%nat → canonicalItems items = print (jnorm (items_or_empty items)).
Proof. rewrite items_text. by destruct (items_or_empty items). Qed.

Lemma items_array items : kind (items_or_empty items) = 5%nat → ∃ l, items_or_empty items = JArr l.
Proof. destruct (items_or_empty items) as [| [] | | | l |]; try done. by exists l. Qed.

Lemma same_items_other a b :
  kind (items_or_empty a) ≠ 5%nat → same_items a b ↔ same_json (items_or_empty a) (items_or_empty b).
Proof. unfold same_items. by destruct (items_or_empty a) as [| [] | | | l |]. Qed.

Lemma items_inj a b r r' :
  wf_items a → wf_items b → delimited r → delimited r' →
  canonicalItems a +:+ r = canonicalItems b +:+ r' → same_items a b ∧ r = r'.
Proof.
  unfold wf_items. intros Ha Hb Hr Hr'.
  destruct (decide (kind (items_or_empty a) = 5%nat)) as [Ka | Ka], (decide (kind (items_or_empty b) = 5%nat)) as [Kb | Kb].
  - apply items_array in Ka as [l Ka], Kb as [l' Kb]. unfold same_items. rewrite !items_text. rewrite Ka, Kb in *.
    inversion_clear Ha as [| | | | ? Hl |]. inversion_clear Hb as [| | | | ? Hl' |]. intros H. injection H as H.
    rewrite !string_app_assoc in H. apply sorted_texts_inj in H as [Hp ->]; [| done ..]. split; [| done].
    apply Permutation_map_inv in Hp as (l3 & Heq & Hp). exists l3. split; [done |].
    rewrite Hp in Hl'. clear - Hl Hl' Heq. revert l3 Hl' Heq. induction Hl as [| x l Hx Hl IH]; intros [| y l3] Hl3 Heq; try done.
    injection Heq as Hxy Heq. apply Forall_cons in Hl3 as [Hy Hl3]. constructor; [by apply canonical_same | auto].
  - intros H. exfalso. rewrite (items_other b Kb) in H. apply items_array in Ka as [l Ka]. rewrite items_text, Ka in H.
    symmetry in H. by apply not_bracket in H.
  - intros H. exfalso. rewrite (items_other a Ka) in H. apply items_array in Kb as [l Kb]. rewrite items_text, Kb in H.
    by apply not_bracket in H.
  - rewrite !items_other, same_items_other by done. intros H.
    destruct (print_inj _ (jnorm_wf _ Ha) _ r r' (jnorm_wf _ Hb) Hr Hr' H) as [Hn ->]. split; [by apply jnorm_same | done].
Qed.

Lemma items_same a b : wf_items a → wf_items b → same_items a b → canonicalItems a = canonicalItems b.
Proof.
  unfold wf_items. intros Ha Hb H. destruct (decide (kind (items_or_empty a) = 5%nat)) as [Ka | Ka].
  - rewrite !items_text. apply items_array in Ka as [l Ka]. unfold same_items in H. rewrite Ka in *.
    destruct (items_or_empty b) as [| | | | l' |] eqn:Kb; try by inversion H.
    destruct H as (l3 & Hp & HF). inversion_clear Ha as [| | | | ? Hl |]. inversion_clear Hb as [| | | | ? Hl' |].
    do 2 f_equal. f_equal. apply sort_perm. rewrite Hp. rewrite Hp in Hl'. clear - Hl Hl' HF. revert Hl Hl'.
    induction HF as [| x y l l3 Hxy _ IH]; intros Hl Hl3; [done |]. apply Forall_cons in Hl as [Hx Hl], Hl3 as [Hy Hl3].
    simpl. rewrite (proj2 (canonical_same x y Hx Hy) Hxy). by constructor; auto.
  - apply same_items_other in H; [| done]. assert (kind (items_or_empty b) ≠ 5%nat) as Kb.
    { revert Ka. by inversion H. }
    rewrite !items_other by done. by rewrite (same_jnorm _ _ Ha Hb H).
Qed.

Definition no_bar (s : string) : Prop := "|"%char ∉ chars s.

Lemma bar_split s s' t t' : no_bar s → no_bar s' → s +:+ String "|" t = s' +:+ String "|" t' → s = s' ∧ t = t'.
Proof.
  unfold no_bar. revert s'. induction s as [| c s IH]; intros [| c' s'] Hs Hs' H; simpl in *.
  - by injection H.
  - injection H as <- _. set_solver.
  - injection H as -> _. set_solver.
  - injection H as <- H. destruct (IH s') as [<- <-]; [set_solver .. | done |]. done.
Qed.

(** C34. Equivalence: unless SHA-256 collides on the two texts, two checkouts whose
    wallet addresses contain no bar, as Stellar addresses do not, and whose items are
    values a JSON body can have, have the same fingerprint exactly when they come from
    the same wallet with the same nonce and their items are the same values in any order,
    objects being compared by their fields and not by the order of their keys.  The
    characters of the nonce and of the items do not matter; a bar in the wallet address,
    which is not validated, does: see [fingerprint_collision]. *)
Theorem fingerprint_exact (sha256_hex : string → string) x y :
  (sha256_hex (fingerprint_text x) = sha256_hex (fingerprint_text y) → fingerprint_text x = fingerprint_text y) →
  no_bar (cf_walletAddress x) → no_bar (cf_walletAddress y) → wf_items (cf_items x) → wf_items (cf_items y) →
  computeCheckoutFingerprint sha256_hex x = computeCheckoutFingerprint sha256_hex y ↔
    cf_walletAddress x = cf_walletAddress y ∧ same_items (cf_items x) (cf_items y) ∧ cf_nonce x = cf_nonce y.
Proof.
  intros Hsha Hwx Hwy Hx Hy. unfold computeCheckoutFingerprint. split.
  - intros H. apply Hsha in H. unfold fingerprint_text in H. apply bar_split in H as [Hw H]; [| done ..].
    apply items_inj in H as [Hi H]; [| done ..]. injection H as H. done.
  - intros (Hw & Hi & Hn). unfold fingerprint_text. by rewrite Hw, Hn, (items_same _ _ Hx Hy Hi).
Qed.

Definition demo_item (sku qty : string) : json := JObj [("sku", JStr sku); ("qty", JNum qty)].
Definition demo_item_swapped (sku qty : string) : json := JObj [("qty", JNum qty); ("sku", JStr sku)].

Lemma fingerprint_exact_witness :
  let x := Build_CheckoutFingerprintInput "GBUYER" (Some (JArr [demo_item "a" "1"; demo_item "b" "2"])) "n" in
  let y := Build_CheckoutFingerprintInput "GBUYER" (Some (JArr [demo_item_swapped "b" "2"; demo_item "a" "1"])) "n" in
  same_items (cf_items x) (cf_items y).
Proof.
  intros x y.
  assert (∀ sku qty, num_ok qty → wf_json (demo_item sku qty) ∧ wf_json (demo_item_swapped sku qty)) as Hwf.
  { intros sku qty Hq. split; constructor.
    1, 3: apply (bool_decide_eq_true_1 _); reflexivity.
    all: repeat constructor; apply Hq. }
  assert (num_ok "1" ∧ num_ok "2") as [H1 H2] by (repeat split; done).
  apply (fingerprint_exact id x y (λ H, H));
    [apply (bool_decide_eq_true_1 _); reflexivity | apply (bool_decide_eq_true_1 _); reflexivity | | | reflexivity].
  - constructor. apply Forall_cons. split; [by apply Hwf |]. apply Forall_cons. split; [by apply Hwf | by apply Forall_nil].
  - constructor. apply Forall_cons. split; [by apply Hwf |]. apply Forall_cons. split; [by apply Hwf | by apply Forall_nil].
Defined.

(** The wallet address of the body is not validated, and the parts of the text are
    joined by bars: two checkouts of different wallets have the same fingerprint. *)
Theorem fingerprint_collision (sha256_hex : string → string) :
  let x := Build_CheckoutFingerprintInput "A" None "[]|n" in
  let y := Build_CheckoutFingerprintInput "A|[]" None "n" in
  computeCheckoutFingerprint sha256_hex x = computeCheckoutFingerprint sha256_hex y ∧
  cf_walletAddress x ≠ cf_walletAddress y ∧ cf_nonce x ≠ cf_nonce y.
Proof. done. Qed.
