(* ===== verification/Idempotency.v ===== *)
(** * Idempotent checkouts (apps/backend/orchestrator/src/idempotency/)

    - store.ts: the records and leases in Redis;
    - preHandler.ts: what happens to a request before and after the checkout handler,
      as a machine: every request has a phase, and between two phases stands one
      command to Redis, a pause or the handler itself, so that the requests interleave
      at their [await]s and may stop at any of them.

    Redis keys expire at an instant of the clock (milliseconds).  A stored record is the
    JSON text of an [IdempotencyRecord] and is identified with it. *)
From S2P Require Import Prelude JsLib JsCollections Fingerprint.
Local Open Scope Z_scope.

(** ** types.ts and store.ts *)

Inductive RecordStatus := rec_in_progress | rec_completed.

#[export] Instance RecordStatus_eq_dec : EqDecision RecordStatus.
Proof. solve_decision. Defined.

Record IdempotencyRecord := {
  ir_fingerprint : string; ir_status : RecordStatus; ir_statusCode : option Z; ir_responseBody : option string;
  ir_createdAt : Z; ir_requestHash : option string
}.

Inductive redis_value := RToken (token : string) | RRecord (record : IdempotencyRecord).

Notation redis := (jsmap (redis_value * Z)) (only parsing).

Definition redis_get (now : Z) (key : string) (r : redis) : option redis_value :=
  match jget key r with Some (v, exp) => if now <? exp then Some v else None | None => None end.

Definition DEFAULT_LEASE_TTL_SECONDS : Z := 60.
Definition DEFAULT_RECORD_TTL_SECONDS : Z := 24 * 60 * 60.

Record IdempotencyStore := { is_namespace : string; is_leaseTtlSeconds : Z; is_recordTtlSeconds : Z }.

Definition default_store : IdempotencyStore :=
  Build_IdempotencyStore "idempotency:checkout" DEFAULT_LEASE_TTL_SECONDS DEFAULT_RECORD_TTL_SECONDS.

Section store.
Context (st : IdempotencyStore).

Definition recordKey (id : string) : string := is_namespace st +:+ ":record:" +:+ id.
Definition lockKey (id : string) : string := is_namespace st +:+ ":lock:" +:+ id.

Definition getRecord (now : Z) (id : string) (r : redis) : option IdempotencyRecord :=
  match redis_get now (recordKey id) r with Some (RRecord rec) => Some rec | _ => None end.

(** [SET key token EX ttl NX] *)
Definition acquireLease (now : Z) (id token : string) (r : redis) : option redis :=
  match redis_get now (lockKey id) r with
  | Some _ => None
  | None => Some (jset (lockKey id) (RToken token, now + is_leaseTtlSeconds st * 1000) r)
  end.

(** The compare-and-delete script *)
Definition RELEASE_LEASE_SCRIPT (now : Z) (key token : string) (r : redis) : redis :=
  match redis_get now key r with
  | Some (RToken t) => if String.eqb t token then jdel key r else r
  | _ => r
  end.

Definition releaseLease (now : Z) (id token : string) (r : redis) : redis := RELEASE_LEASE_SCRIPT now (lockKey id) token r.

Definition markInProgress (now : Z) (id fingerprint requestHash : string) (r : redis) : redis :=
  jset (recordKey id)
    (RRecord {| ir_fingerprint := fingerprint; ir_status := rec_in_progress; ir_statusCode := None; ir_responseBody := None;
                ir_createdAt := now; ir_requestHash := Some requestHash |},
     now + is_leaseTtlSeconds st * 1000) r.

Definition complete (now : Z) (id fingerprint requestHash : string) (statusCode : Z) (responseBody : string) (r : redis) : redis :=
  jset (recordKey id)
    (RRecord {| ir_fingerprint := fingerprint; ir_status := rec_completed; ir_statusCode := Some statusCode;
                ir_responseBody := Some responseBody; ir_createdAt := now; ir_requestHash := Some requestHash |},
     now + is_recordTtlSeconds st * 1000) r.

Definition discard (id : string) (r : redis) : redis := jdel (recordKey id) r.
End store.

(** ** Requests (preHandler.ts) *)

Definition MAX_KEY_LENGTH : nat := 255.
Definition DEFAULT_WAIT_FOR_COMPLETION_MS : Z := 5000.
Definition DEFAULT_POLL_INTERVAL_MS : Z := 50.

Record CheckoutIdempotencyContext := { cx_input : CheckoutFingerprintInput; cx_userId : string }.

(** Where a request stands.  The phases from [PLeased] to [PFlushing] hold the lease. *)
Inductive phase :=
  | PReading                                          (* before [getRecord] *)
  | PAcquiring                                        (* before [acquireLease] *)
  | PLeased (token : string)                          (* before the second [getRecord] *)
  | PReleasing (token : string) (raced : IdempotencyRecord) (* before [releaseLease], then a replay *)
  | PMarking (token : string)                         (* before [markInProgress] *)
  | PRunning (token : option string)                  (* the handler runs; [None] without deduplication *)
  | PPersisting (token : string) (statusCode : Z) (body : string) (* before [complete] or [discard] *)
  | PFlushing (token : string) (statusCode : Z) (body : string)   (* before the original [end] *)
  | PUnlocking (token : string)                       (* before [releaseLease] *)
  | PSleeping (wake : Z)
  | PDone.

(** [rq_leaseUntil] is when the lease expires; the code does not read it. *)
Record request := {
  rq_id : string; rq_fingerprint : string; rq_requestHash : string; rq_deadline : Z; rq_leaseUntil : Z; rq_phase : phase
}.

Definition at_phase (p : phase) (q : request) : request := {|
  rq_id := rq_id q; rq_fingerprint := rq_fingerprint q; rq_requestHash := rq_requestHash q; rq_deadline := rq_deadline q;
  rq_leaseUntil := rq_leaseUntil q; rq_phase := p |}.

Definition leased (token : string) (til : Z) (q : request) : request := {|
  rq_id := rq_id q; rq_fingerprint := rq_fingerprint q; rq_requestHash := rq_requestHash q; rq_deadline := rq_deadline q;
  rq_leaseUntil := til; rq_phase := PLeased token |}.

Record http_response := { hr_request : nat; hr_status : Z; hr_body : string; hr_headers : list (string * string) }.

(** A response the handler produced for a request. *)
Record execution := { ex_request : nat; ex_id : string; ex_requestHash : string; ex_status : Z; ex_body : string }.

Record iworld := IWorld {
  iw_now : Z; iw_redis : redis; iw_tokens : nat; iw_requests : list request; iw_replies : list http_response;
  iw_executions : list execution
}.

Definition error_body (code message : string) : string :=
  "{" +:+ json_quote "data" +:+ ":null," +:+ json_quote "error" +:+ ":{" +:+ json_quote "code" +:+ ":" +:+ json_quote code +:+
  "," +:+ json_quote "message" +:+ ":" +:+ json_quote message +:+ "}}".

Definition json_type : string * string := ("Content-Type", "application/json").

Definition replayOrReject (i : nat) (record : IdempotencyRecord) (requestHash : string) : http_response :=
  if truthy (ir_requestHash record) && negb (bool_decide (ir_requestHash record = Some requestHash)) then
    {| hr_request := i; hr_status := 422;
       hr_body := error_body "IDEMPOTENCY_KEY_REUSED" "This Idempotency-Key was already used for a different checkout request.";
       hr_headers := [json_type] |}
  else
    {| hr_request := i; hr_status := default 200 (ir_statusCode record); hr_body := default "" (ir_responseBody record);
       hr_headers := [json_type; ("Idempotency-Replayed", "true")] |}.

Inductive label :=
  | Arrive (headerKey : option string) (context : CheckoutIdempotencyContext)
  | Step (i : nat)                                  (* the next command of request [i] is executed *)
  | Respond (i : nat) (statusCode : Z) (body : string) (* the handler of request [i] ends its response *)
  | RedisFails (i : nat)                            (* the next command of request [i] fails *)
  | Crash (i : nat)
  | Tick (ms : Z).

Section machine.
Context (sha256_hex : string → string) (uuid : nat → string) (st : IdempotencyStore) (waitForCompletionMs pollIntervalMs : Z).

Definition set_request (i : nat) (q : request) (w : iworld) : iworld :=
  IWorld (iw_now w) (iw_redis w) (iw_tokens w) (<[i := q]> (iw_requests w)) (iw_replies w) (iw_executions w).
Definition set_redis (r : redis) (w : iworld) : iworld :=
  IWorld (iw_now w) r (iw_tokens w) (iw_requests w) (iw_replies w) (iw_executions w).
Definition add_reply (p : http_response) (w : iworld) : iworld :=
  IWorld (iw_now w) (iw_redis w) (iw_tokens w) (iw_requests w) (iw_replies w ++ [p]) (iw_executions w).
Definition add_execution (e : execution) (w : iworld) : iworld :=
  IWorld (iw_now w) (iw_redis w) (iw_tokens w) (iw_requests w) (iw_replies w) (iw_executions w ++ [e]).
Definition new_token (w : iworld) : iworld :=
  IWorld (iw_now w) (iw_redis w) (S (iw_tokens w)) (iw_requests w) (iw_replies w) (iw_executions w).

(** The beginning of the pre-handler, up to its first [await]. *)
Definition arrive (headerKey : option string) (context : CheckoutIdempotencyContext) (w : iworld) : iworld :=
  let i := length (iw_requests w) in
  let key := trim <$> headerKey in
  let requestHash := computeCheckoutFingerprint sha256_hex (cx_input context) in
  let fingerprint :=
    if truthy key then computeHeaderKeyFingerprint sha256_hex (cx_userId context) (default "" key) else requestHash in
  let q p := {| rq_id := cx_userId context +:+ ":" +:+ fingerprint; rq_fingerprint := fingerprint; rq_requestHash := requestHash;
                rq_deadline := iw_now w + waitForCompletionMs; rq_leaseUntil := 0; rq_phase := p |} in
  let add p := IWorld (iw_now w) (iw_redis w) (iw_tokens w) (iw_requests w ++ [q p]) (iw_replies w) (iw_executions w) in
  if (MAX_KEY_LENGTH <? String.length (default "" key))%nat then
    add_reply {| hr_request := i; hr_status := 400;
                 hr_body := error_body "INVALID_IDEMPOTENCY_KEY" "Idempotency-Key header must be at most 255 characters.";
                 hr_headers := [json_type] |} (add PDone)
  else add PReading.

Definition completed_record (now : Z) (id : string) (r : redis) : option IdempotencyRecord :=
  match getRecord st now id r with
  | Some rec => if bool_decide (ir_status rec = rec_completed) then Some rec else None
  | None => None
  end.

(** One command of a request that is not waiting for its handler. *)
Definition advance (i : nat) (q : request) (w : iworld) : iworld :=
  let now := iw_now w in
  let goto p w := set_request i (at_phase p q) w in
  match rq_phase q with
  | PReading =>
      match completed_record now (rq_id q) (iw_redis w) with
      | Some rec => add_reply (replayOrReject i rec (rq_requestHash q)) (goto PDone w)
      | None => goto PAcquiring w
      end
  | PAcquiring =>
      let token := uuid (iw_tokens w) in
      match acquireLease st now (rq_id q) token (iw_redis w) with
      | Some r => set_request i (leased token (now + is_leaseTtlSeconds st * 1000) q) (set_redis r (new_token w))
      | None =>
          if rq_deadline q <=? now then
            add_reply {| hr_request := i; hr_status := 409;
                         hr_body := error_body "IDEMPOTENCY_REQUEST_IN_PROGRESS"
                                      "An identical checkout is still being processed. Retry shortly.";
                         hr_headers := [json_type; ("Retry-After", "1")] |} (goto PDone (new_token w))
          else goto (PSleeping (now + pollIntervalMs)) (new_token w)
      end
  | PLeased token =>
      match completed_record now (rq_id q) (iw_redis w) with
      | Some rec => goto (PReleasing token rec) w
      | None => goto (PMarking token) w
      end
  | PReleasing token raced =>
      add_reply (replayOrReject i raced (rq_requestHash q))
        (goto PDone (set_redis (releaseLease st now (rq_id q) token (iw_redis w)) w))
  | PMarking token =>
      goto (PRunning (Some token)) (set_redis (markInProgress st now (rq_id q) (rq_fingerprint q) (rq_requestHash q) (iw_redis w)) w)
  | PPersisting token statusCode body =>
      goto (PFlushing token statusCode body)
        (set_redis (if 500 <=? statusCode then discard st (rq_id q) (iw_redis w)
                    else complete st now (rq_id q) (rq_fingerprint q) (rq_requestHash q) statusCode body (iw_redis w)) w)
  | PFlushing token statusCode body =>
      add_reply {| hr_request := i; hr_status := statusCode; hr_body := body; hr_headers := [] |} (goto (PUnlocking token) w)
  | PUnlocking token => goto PDone (set_redis (releaseLease st now (rq_id q) token (iw_redis w)) w)
  | PSleeping wake => if wake <=? now then goto PReading w else w
  | PRunning _ | PDone => w
  end.

(** The handler ends the response: [captureResponse] intercepts it. *)
Definition respond (i : nat) (q : request) (statusCode : Z) (body : string) (w : iworld) : iworld :=
  let executed := add_execution {| ex_request := i; ex_id := rq_id q; ex_requestHash := rq_requestHash q; ex_status := statusCode;
                                   ex_body := body |} in
  match rq_phase q with
  | PRunning (Some token) => executed (set_request i (at_phase (PPersisting token statusCode body) q) w)
  | PRunning None =>
      executed (add_reply {| hr_request := i; hr_status := statusCode; hr_body := body; hr_headers := [] |}
        (set_request i (at_phase PDone q) w))
  | _ => w
  end.

(** A command that fails: the [catch] of the pre-handler lets the request through, a
    failed release or persistence is ignored. *)
Definition redis_fails (i : nat) (q : request) (w : iworld) : iworld :=
  let goto p w := set_request i (at_phase p q) w in
  match rq_phase q with
  | PReading | PAcquiring | PLeased _ | PMarking _ => goto (PRunning None) w
  | PReleasing token raced => add_reply (replayOrReject i raced (rq_requestHash q)) (goto PDone w)
  | PPersisting token statusCode body => goto (PFlushing token statusCode body) w
  | PUnlocking _ => goto PDone w
  | _ => w
  end.

Definition step (w : iworld) (l : label) : iworld :=
  match l with
  | Arrive key context => arrive key context w
  | Step i => match iw_requests w !! i with Some q => advance i q w | None => w end
  | Respond i s b => match iw_requests w !! i with Some q => respond i q s b w | None => w end
  | RedisFails i => match iw_requests w !! i with Some q => redis_fails i q w | None => w end
  | Crash i => match iw_requests w !! i with Some q => set_request i (at_phase PDone q) w | None => w end
  | Tick ms => IWorld (iw_now w + Z.max 0 ms) (iw_redis w) (iw_tokens w) (iw_requests w) (iw_replies w) (iw_executions w)
  end.

Definition steps (ls : list label) (w : iworld) : iworld := foldl step w ls.
End machine.

Definition idle (now : Z) : iworld := IWorld now [] 0 [] [] [].
