(* ===== verification/IdempotencyCorrect.v ===== *)
(** * A checkout succeeds at most once

    The invariant of the machine of Idempotency.v over histories in which Redis answers,
    no lease and no record expires too early, and no process dies between the end of a
    handler and the storage of its response. *)
From S2P Require Import Prelude JsLib JsCollections Fingerprint Idempotency.
Local Open Scope Z_scope.

(** ** Vocabulary *)

(** The lease a request counts on. *)
Definition holding (p : phase) : option string :=
  match p with
  | PLeased t | PReleasing t _ | PMarking t | PRunning (Some t) | PPersisting t _ _ | PFlushing t _ _ => Some t
  | _ => None
  end.

Definition token_of (p : phase) : option string := match p with PUnlocking t => Some t | _ => holding p end.

Definition success (e : execution) : bool := ex_status e <? 500.
Definition successes (id : string) (w : iworld) : list execution :=
  List.filter (λ e, String.eqb (ex_id e) id && success e) (iw_executions w).

Definition replayed (p : http_response) : bool := bool_decide (("Idempotency-Replayed", "true") ∈ hr_headers p).

(** No lease in use has expired, and no completed record has. *)
Definition lease_alive (now : Z) (q : request) : bool :=
  match holding (rq_phase q) with Some _ => now <? rq_leaseUntil q | None => true end.
Definition record_alive (now : Z) (v : redis_value * Z) : bool :=
  match v with
  | (RRecord rec, exp) => if bool_decide (ir_status rec = rec_completed) then now <? exp else true
  | _ => true
  end.
Definition timely (w : iworld) : bool :=
  forallb (lease_alive (iw_now w)) (iw_requests w) && forallb (λ kv, record_alive (iw_now w) kv.2) (iw_redis w).

(** Redis answers, and a process does not die with an unrecorded response in its hands. *)
Definition reliable (w : iworld) (l : label) : bool :=
  match l with
  | RedisFails _ => false
  | Crash i => match rq_phase <$> iw_requests w !! i with Some (PPersisting _ _ _) => false | _ => true end
  | _ => true
  end.

Lemma record_alive_spec w k rec exp :
  timely w = true → jget k (iw_redis w) = Some (RRecord rec, exp) → ir_status rec = rec_completed → iw_now w < exp.
Proof.
  unfold timely. intros [_ H]%andb_prop Hk Hc. rewrite forallb_forall in H.
  assert (∃ k', (k', (RRecord rec, exp)) ∈ iw_redis w) as [k' Hin].
  { revert Hk. clear. induction (iw_redis w) as [| [k' v] m IH]; simpl; [done |]. destruct (String.eqb k k').
    - intros [= ->]. exists k'. left.
    - intros Hk. destruct (IH Hk) as [x Hx]. exists x. by right. }
  apply list_elem_of_In, H in Hin. simpl in Hin. rewrite bool_decide_true in Hin by done. lia.
Qed.

Lemma lease_alive_spec w i q t :
  timely w = true → iw_requests w !! i = Some q → holding (rq_phase q) = Some t → iw_now w < rq_leaseUntil q.
Proof.
  unfold timely. intros [H _]%andb_prop Hi Ht. rewrite forallb_forall in H.
  apply list_elem_of_lookup_2, list_elem_of_In, H in Hi. unfold lease_alive in Hi. rewrite Ht in Hi. lia.
Qed.

Section invariant.
Context (sha256_hex : string → string) (uuid : nat → string) `{!Inj (=) (=) uuid} (st : IdempotencyStore) (waitMs pollMs : Z).
Implicit Types w : iworld.

Notation step := (step sha256_hex uuid st waitMs pollMs).
Notation lockKey := (lockKey st).
Notation recordKey := (recordKey st).

Fixpoint timely_run (ls : list label) w : bool :=
  match ls with
  | [] => timely w
  | l :: ls' => timely w && reliable w l && timely_run ls' (step w l)
  end.

(** ** Keys *)

Lemma recordKey_inj id id' : recordKey id = recordKey id' → id = id'.
Proof. intros H. by apply (inj (String.app _)) in H; apply (inj (String.app _)) in H. Qed.
Lemma lockKey_inj id id' : lockKey id = lockKey id' → id = id'.
Proof. intros H. by apply (inj (String.app _)) in H; apply (inj (String.app _)) in H. Qed.
Lemma lock_record id id' : lockKey id ≠ recordKey id'.
Proof. intros H. by apply (inj (String.app _)) in H. Qed.

(** ** The invariant *)

Definition matches (rec : IdempotencyRecord) (e : execution) : Prop :=
  ir_statusCode rec = Some (ex_status e) ∧ ir_responseBody rec = Some (ex_body e) ∧ ir_requestHash rec = Some (ex_requestHash e).

(** The response [e] is stored, or in the hands of the request that will store it. *)
Definition stored (id : string) (e : execution) (r : redis) : Prop :=
  ∃ rec exp, jget (recordKey id) r = Some (RRecord rec, exp) ∧ ir_status rec = rec_completed ∧ matches rec e.
Definition carried (id : string) (e : execution) (qs : list request) : Prop :=
  ∃ i q t, qs !! i = Some q ∧ rq_id q = id ∧ rq_phase q = PPersisting t (ex_status e) (ex_body e) ∧
    rq_requestHash q = ex_requestHash e.
Definition no_completed (id : string) (r : redis) : Prop :=
  ∀ rec exp, jget (recordKey id) r = Some (RRecord rec, exp) → ir_status rec ≠ rec_completed.

Definition success_ok (id : string) (es : list execution) (r : redis) (qs : list request) : Prop :=
  match es with
  | [] => no_completed id r
  | [e] => stored id e r ∨ (no_completed id r ∧ carried id e qs)
  | _ => False
  end.

Definition phase_ok (es : list execution) (q : request) : Prop :=
  match rq_phase q with
  | PMarking _ | PRunning (Some _) => es = []
  | PRunning None => False
  | PReleasing _ raced => ∃ e, es = [e] ∧ matches raced e
  | PPersisting _ s b =>
      if s <? 500 then ∃ e, es = [e] ∧ ex_status e = s ∧ ex_body e = b ∧ ex_requestHash e = rq_requestHash q else es = []
  | _ => True
  end.

Definition reply_ok (es : list execution) (hash : string) (p : http_response) : Prop :=
  replayed p = true →
  ∃ e, es = [e] ∧ hr_status p = ex_status e ∧ hr_body p = ex_body e ∧ (ex_requestHash e ≠ "" → ex_requestHash e = hash).

Record inv w : Prop := {
  inv_token i q t : iw_requests w !! i = Some q → token_of (rq_phase q) = Some t → ∃ n, (n < iw_tokens w)%nat ∧ t = uuid n;
  inv_distinct i j q q' t : iw_requests w !! i = Some q → iw_requests w !! j = Some q' →
    token_of (rq_phase q) = Some t → token_of (rq_phase q') = Some t → i = j;
  inv_lock i q t : iw_requests w !! i = Some q → holding (rq_phase q) = Some t →
    jget (lockKey (rq_id q)) (iw_redis w) = Some (RToken t, rq_leaseUntil q);
  inv_success id : success_ok id (successes id w) (iw_redis w) (iw_requests w);
  inv_phase i q : iw_requests w !! i = Some q → phase_ok (successes (rq_id q) w) q;
  inv_reply p : p ∈ iw_replies w →
    ∃ q, iw_requests w !! hr_request p = Some q ∧ reply_ok (successes (rq_id q) w) (rq_requestHash q) p
}.

Lemma holding_token p t : holding p = Some t → token_of p = Some t.
Proof. by destruct p. Qed.

(** Two requests that count on the same lease are one. *)
Lemma one_holder w i j q q' t t' :
  inv w → iw_requests w !! i = Some q → iw_requests w !! j = Some q' → rq_id q = rq_id q' →
  holding (rq_phase q) = Some t → holding (rq_phase q') = Some t' → i = j.
Proof.
  intros H Hi Hj Hid Ht Ht'. pose proof (inv_lock _ H _ _ _ Hi Ht) as H1. pose proof (inv_lock _ H _ _ _ Hj Ht') as H2.
  rewrite Hid, H2 in H1. injection H1 as -> _. eapply (inv_distinct _ H); eauto using holding_token.
Qed.

Lemma insert_cases {A} (l : list A) i x j y : <[i := x]> l !! j = Some y → (j = i ∧ y = x) ∨ (j ≠ i ∧ l !! j = Some y).
Proof. intros H. apply list_lookup_insert_Some in H. naive_solver. Qed.

(** A step of one request that produces no execution. *)
Lemma inv_move w i q q' r' n' ps :
  inv w → iw_requests w !! i = Some q → rq_id q' = rq_id q → rq_requestHash q' = rq_requestHash q →
  (iw_tokens w ≤ n')%nat →
  (∀ t, token_of (rq_phase q') = Some t →
     token_of (rq_phase q) = Some t ∨ (t = uuid (iw_tokens w) ∧ (iw_tokens w < n')%nat)) →
  (∀ j x t, iw_requests w !! j = Some x → j ≠ i → holding (rq_phase x) = Some t →
     jget (lockKey (rq_id x)) r' = jget (lockKey (rq_id x)) (iw_redis w)) →
  (∀ t, holding (rq_phase q') = Some t → jget (lockKey (rq_id q)) r' = Some (RToken t, rq_leaseUntil q')) →
  (∀ id, id ≠ rq_id q → jget (recordKey id) r' = jget (recordKey id) (iw_redis w)) →
  success_ok (rq_id q) (successes (rq_id q) w) r' (<[i := q']> (iw_requests w)) →
  phase_ok (successes (rq_id q) w) q' →
  Forall (λ p, hr_request p = i ∧ reply_ok (successes (rq_id q) w) (rq_requestHash q) p) ps →
  inv (IWorld (iw_now w) r' n' (<[i := q']> (iw_requests w)) (iw_replies w ++ ps) (iw_executions w)).
Proof.
  intros H Hi Hid Hh Hn Htok Hothers Hown Hrec Hsucc Hphase Hps.
  assert (i < length (iw_requests w))%nat as Hlt by (eapply lookup_lt_Some, Hi).
  assert (∀ t, token_of (rq_phase q') = Some t → ∃ n, (n < n')%nat ∧ t = uuid n) as Hq'.
  { intros t Ht. apply Htok in Ht as [Ht | [-> Hlt']]; [| by exists (iw_tokens w)].
    destruct (inv_token _ H _ _ _ Hi Ht) as (n & Hn' & ->). exists n. split; [lia | done]. }
  assert (∀ j x t, iw_requests w !! j = Some x → j ≠ i → token_of (rq_phase x) = Some t → token_of (rq_phase q') ≠ Some t) as Hne.
  { intros j x t Hj Hji Ht Ht'. apply Htok in Ht' as [Ht' | [-> _]]; [by apply Hji, (inv_distinct _ H j i x q t) |].
    destruct (inv_token _ H _ _ _ Hj Ht) as (n & Hn' & Heq). apply (inj uuid) in Heq. lia. }
  split; simpl.
  - intros j x t [[-> ->] | [Hji Hj]]%insert_cases Ht; [by apply Hq' |].
    destruct (inv_token _ H _ _ _ Hj Ht) as (n & Hn' & ->). exists n. split; [lia | done].
  - intros j k x y t [[-> ->] | [Hji Hj]]%insert_cases [[-> ->] | [Hki Hk]]%insert_cases Ht Ht'; [done | | |].
    + by destruct (Hne _ _ _ Hk Hki Ht').
    + by destruct (Hne _ _ _ Hj Hji Ht).
    + by eapply (inv_distinct _ H).
  - intros j x t [[-> ->] | [Hji Hj]]%insert_cases Ht; [rewrite Hid; auto |].
    rewrite (Hothers _ _ _ Hj Hji Ht). by eapply (inv_lock _ H).
  - intros id. destruct (decide (id = rq_id q)) as [-> | Hne']; [done |].
    pose proof (inv_success _ H id) as Hs. unfold success_ok, stored, no_completed in *. rewrite (Hrec id Hne').
    change (successes id _) with (successes id w). destruct (successes id w) as [| e [|]]; [done | | done].
    destruct Hs as [Hs | [Hnc (j & x & t & Hj & Hx & Hrest)]]; [by left | right]. split; [done |]. exists j, x, t. split; [| done].
    rewrite list_lookup_insert_ne; [done |]. intros <-. rewrite Hi in Hj. by simplify_eq.
  - intros j x [[-> ->] | [Hji Hj]]%insert_cases; [by rewrite Hid | by apply (inv_phase _ H j)].
  - intros p [Hp | Hp]%elem_of_app.
    + destruct (inv_reply _ H p Hp) as (x & Hx & Hok). destruct (decide (hr_request p = i)) as [Heq | Hne'].
      * exists q'. rewrite Heq, list_lookup_insert_eq by done. split; [done |]. rewrite Heq, Hi in Hx. injection Hx as <-. by rewrite Hid, Hh.
      * exists x. by rewrite list_lookup_insert_ne.
    + rewrite Forall_forall in Hps. destruct (Hps p Hp) as [-> Hok]. exists q'. rewrite list_lookup_insert_eq by done. by rewrite Hid, Hh.
Qed.

(** ** What a read of the record tells *)

Lemma completed_Some now id r rec :
  completed_record st now id r = Some rec →
  ∃ exp, jget (recordKey id) r = Some (RRecord rec, exp) ∧ ir_status rec = rec_completed.
Proof.
  unfold completed_record, getRecord, redis_get. destruct (jget _ r) as [[[| rec'] exp] |]; try done;
    destruct (now <? exp); try done. case_bool_decide; [| done]. intros [= ->]. by exists exp.
Qed.

Lemma completed_None w id : timely w = true → completed_record st (iw_now w) id (iw_redis w) = None → no_completed id (iw_redis w).
Proof.
  intros Ht Hn rec exp Hk Hc. pose proof (record_alive_spec _ _ _ _ Ht Hk Hc). revert Hn.
  unfold completed_record, getRecord, redis_get. rewrite Hk. replace (iw_now w <? exp) with true by lia.
  by rewrite bool_decide_true.
Qed.

Lemma completed_success w id rec :
  inv w → completed_record st (iw_now w) id (iw_redis w) = Some rec → ∃ e, successes id w = [e] ∧ matches rec e.
Proof.
  intros H (exp & Hk & Hc)%completed_Some. pose proof (inv_success _ H id) as Hs. unfold success_ok in Hs.
  destruct (successes id w) as [| e [|]]; [by destruct (Hs _ _ Hk) | | done]. exists e. split; [done |].
  destruct Hs as [(rec' & exp' & Hk' & _ & Hm) | [Hnc _]]; [| by destruct (Hnc _ _ Hk)]. rewrite Hk in Hk'. by simplify_eq.
Qed.

Lemma replay_ok i rec e es hash : es = [e] → matches rec e → reply_ok es hash (replayOrReject i rec hash).
Proof.
  intros -> (Hs & Hb & Hh) Hr. exists e. split; [done |]. unfold replayOrReject in *. rewrite Hh in *.
  destruct (_ && _) eqn:Hc; [done |]. simpl. rewrite Hs, Hb. repeat split. intros Hne.
  apply andb_false_iff in Hc as [Hc | Hc]; simpl in Hc.
  - by destruct (String.eqb_spec (ex_requestHash e) "").
  - apply negb_false_iff, bool_decide_eq_true in Hc. by injection Hc.
Qed.

Lemma not_replayed es hash p : replayed p = false → reply_ok es hash p.
Proof. intros H H'. congruence. Qed.

(** The own identifier, when its record is not touched. *)
Lemma success_keep w i q q' r' id :
  inv w → iw_requests w !! i = Some q → (∀ t s b, rq_phase q ≠ PPersisting t s b) →
  jget (recordKey id) r' = jget (recordKey id) (iw_redis w) →
  success_ok id (successes id w) r' (<[i := q']> (iw_requests w)).
Proof.
  intros H Hi Hp Hr. pose proof (inv_success _ H id) as Hs. unfold success_ok, stored, no_completed in *. rewrite Hr.
  destruct (successes id w) as [| e [|]]; [done | | done].
  destruct Hs as [Hs | [Hnc (j & x & t & Hj & Hid & Hx & Hh)]]; [by left | right]. split; [done |]. exists j, x, t.
  rewrite list_lookup_insert_ne; [done |]. intros <-. rewrite Hi in Hj. injection Hj as <-. by apply Hp in Hx.
Qed.

(** A move that leaves Redis alone, to a phase with no more tokens. *)
Lemma inv_goto w i q p ps n' :
  inv w → iw_requests w !! i = Some q → (∀ t s b, rq_phase q ≠ PPersisting t s b) → (iw_tokens w ≤ n')%nat →
  (∀ t, token_of p = Some t → token_of (rq_phase q) = Some t) → (∀ t, holding p = Some t → holding (rq_phase q) = Some t) →
  phase_ok (successes (rq_id q) w) (at_phase p q) →
  Forall (λ p, hr_request p = i ∧ reply_ok (successes (rq_id q) w) (rq_requestHash q) p) ps →
  inv (IWorld (iw_now w) (iw_redis w) n' (<[i := at_phase p q]> (iw_requests w)) (iw_replies w ++ ps) (iw_executions w)).
Proof.
  intros H Hi Hp Hn Ht Hh Hok Hps. apply (inv_move w i q); try done.
  - intros t Htok. left. by apply Ht.
  - intros t Ht'. apply (inv_lock _ H i q t Hi), Hh, Ht'.
  - by apply (success_keep w i q).
Qed.

(** ** Leases *)

Lemma acquire_others w i q token r j x t :
  timely w = true → inv w → acquireLease st (iw_now w) (rq_id q) token (iw_redis w) = Some r →
  iw_requests w !! j = Some x → j ≠ i → holding (rq_phase x) = Some t →
  jget (lockKey (rq_id x)) r = jget (lockKey (rq_id x)) (iw_redis w).
Proof.
  intros Ht H Ha Hj Hji Hx. unfold acquireLease in Ha. destruct (redis_get _ _ _) eqn:Hg; [done |]. injection Ha as <-.
  rewrite jget_jset_ne; [done |]. intros Heq. pose proof (inv_lock _ H j x t Hj Hx) as Hl. rewrite <- Heq in Hl.
  unfold redis_get in Hg. rewrite Hl in Hg. pose proof (lease_alive_spec _ _ _ _ Ht Hj Hx).
  by replace (iw_now w <? rq_leaseUntil x) with true in Hg by lia.
Qed.

Lemma release_other_key now id token k r : k ≠ lockKey id → jget k (releaseLease st now id token r) = jget k r.
Proof.
  intros Hk. unfold releaseLease, RELEASE_LEASE_SCRIPT. destruct (redis_get _ _ _) as [[t |] |]; try done.
  destruct (String.eqb t token); [| done]. by rewrite jget_jdel_ne.
Qed.

Lemma release_others w i q token j x t :
  inv w → iw_requests w !! i = Some q → token_of (rq_phase q) = Some token →
  iw_requests w !! j = Some x → j ≠ i → holding (rq_phase x) = Some t →
  jget (lockKey (rq_id x)) (releaseLease st (iw_now w) (rq_id q) token (iw_redis w)) = jget (lockKey (rq_id x)) (iw_redis w).
Proof.
  intros H Hi Hq Hj Hji Hx. unfold releaseLease, RELEASE_LEASE_SCRIPT. destruct (redis_get _ _ _) as [[t' |] |] eqn:Hg; try done.
  destruct (String.eqb_spec t' token) as [-> |]; [| done]. rewrite jget_jdel_ne; [done |]. intros Heq.
  pose proof (inv_lock _ H j x t Hj Hx) as Hl. unfold redis_get in Hg. rewrite Heq, Hl in Hg.
  destruct (_ <? _); [| done]. injection Hg as ->. by apply Hji, (inv_distinct _ H j i x q token); [.. | apply holding_token |].
Qed.

Lemma release_move w i q token ps :
  inv w → iw_requests w !! i = Some q → token_of (rq_phase q) = Some token → (∀ t s b, rq_phase q ≠ PPersisting t s b) →
  Forall (λ p, hr_request p = i ∧ reply_ok (successes (rq_id q) w) (rq_requestHash q) p) ps →
  inv (IWorld (iw_now w) (releaseLease st (iw_now w) (rq_id q) token (iw_redis w)) (iw_tokens w)
         (<[i := at_phase PDone q]> (iw_requests w)) (iw_replies w ++ ps) (iw_executions w)).
Proof.
  intros H Hi Hq Hp Hps. apply (inv_move w i q); try done.
  - intros j x t Hj Hji Hx. by eapply release_others.
  - intros id _. apply release_other_key. apply not_eq_sym, lock_record.
  - apply (success_keep w i q); [done .. |]. apply release_other_key, not_eq_sym, lock_record.
Qed.

(** ** Steps *)

(** A write to the own record, by the request that holds the lease. *)
Lemma record_move w i q p token v :
  inv w → iw_requests w !! i = Some q → holding (rq_phase q) = Some token → holding p = Some token →
  (∀ id, id ≠ rq_id q → jget (recordKey id) v = jget (recordKey id) (iw_redis w)) →
  (∀ id, jget (lockKey id) v = jget (lockKey id) (iw_redis w)) →
  success_ok (rq_id q) (successes (rq_id q) w) v (<[i := at_phase p q]> (iw_requests w)) →
  phase_ok (successes (rq_id q) w) (at_phase p q) →
  inv (IWorld (iw_now w) v (iw_tokens w) (<[i := at_phase p q]> (iw_requests w)) (iw_replies w) (iw_executions w)).
Proof.
  intros H Hi Hq Hp Hrec Hlock Hs Hok. rewrite <- (app_nil_r (iw_replies w)). apply (inv_move w i q); try done.
  - intros t Ht. left. simpl in Ht. rewrite (holding_token _ _ Hp) in Ht. injection Ht as <-. by apply holding_token.
  - intros t Ht. simpl in Ht. rewrite Hp in Ht. injection Ht as <-. rewrite Hlock. by apply (inv_lock _ H i q).
Qed.

(** The ways a phase ends, for a request [q] at position [i]. *)
Section one_request.
Context (w : iworld) (i : nat) (q : request) (Ht : timely w = true) (H : inv w) (Hi : iw_requests w !! i = Some q).

Definition reply_of (p : http_response) : Prop :=
  hr_request p = i ∧ reply_ok (successes (rq_id q) w) (rq_requestHash q) p.

Lemma replay_reply rec e : successes (rq_id q) w = [e] → matches rec e → Forall reply_of [replayOrReject i rec (rq_requestHash q)].
Proof.
  intros He Hm. apply Forall_cons. split; [| by apply Forall_nil].
  split; [unfold replayOrReject; by destruct (_ && _) | by eapply replay_ok].
Qed.

Lemma plain_reply p : hr_request p = i → replayed p = false → Forall reply_of [p].
Proof. intros Hp Hr. apply Forall_cons. split; [| by apply Forall_nil]. split; [done | by apply not_replayed]. Qed.

Lemma reading_inv : rq_phase q = PReading → inv (advance uuid st pollMs i q w).
Proof.
  intros Hp. unfold advance. rewrite Hp. destruct (completed_record _ _ _ _) as [rec |] eqn:Hc.
  - destruct (completed_success _ _ _ H Hc) as (e & He & Hm). apply (inv_goto w i q); rewrite ?Hp; try done. by eapply replay_reply.
  - unfold set_request. rewrite <- (app_nil_r (iw_replies w)). by apply (inv_goto w i q); rewrite ?Hp.
Qed.

Lemma acquiring_inv : rq_phase q = PAcquiring → inv (advance uuid st pollMs i q w).
Proof.
  intros Hp. unfold advance. rewrite Hp.
  destruct (acquireLease _ _ _ _ _) as [r |] eqn:Ha; [| destruct (rq_deadline q <=? iw_now w)].
  - assert (∀ id, jget (recordKey id) r = jget (recordKey id) (iw_redis w)) as Hrec.
    { intros id. unfold acquireLease in Ha. destruct (redis_get _ _ _); [done |]. injection Ha as <-.
      rewrite jget_jset_ne; [done | apply lock_record]. }
    unfold set_request, set_redis, new_token. simpl. rewrite <- (app_nil_r (iw_replies w)).
    apply (inv_move w i q); try done; simpl; [lia | | | |].
    + intros t [= <-]. right. split; [done | lia].
    + intros j x t Hj Hji Hx. by eapply acquire_others.
    + intros t [= <-]. unfold acquireLease in Ha. destruct (redis_get _ _ _); [done |]. injection Ha as <-. by rewrite jget_jset_eq.
    + by apply (success_keep w i q); rewrite ?Hp.
  - apply (inv_goto w i q); rewrite ?Hp; try done; [simpl; lia |]. by apply plain_reply.
  - unfold set_request. rewrite <- (app_nil_r (iw_replies _)). apply (inv_goto w i q); rewrite ?Hp; try done. simpl. lia.
Qed.

(** Under a lease, no completed record means no success so far. *)
Lemma leased_fresh token : rq_phase q = PLeased token → no_completed (rq_id q) (iw_redis w) → successes (rq_id q) w = [].
Proof.
  intros Hp Hc. pose proof (inv_success _ H (rq_id q)) as Hs. unfold success_ok in Hs.
  destruct (successes (rq_id q) w) as [| e [|]]; [done | | done].
  destruct Hs as [(rec & exp & Hk & Hd & _) | [_ (j & x & t & Hj & Hid & Hx & _)]]; [by destruct (Hc _ _ Hk) |].
  assert (i = j) as <- by (eapply (one_holder w i j q x); rewrite ?Hp, ?Hx; done). rewrite Hi in Hj. injection Hj as <-. congruence.
Qed.

Lemma leased_inv token : rq_phase q = PLeased token → inv (advance uuid st pollMs i q w).
Proof.
  intros Hp. unfold advance. rewrite Hp. destruct (completed_record _ _ _ _) as [rec |] eqn:Hc; unfold set_request;
    rewrite <- (app_nil_r (iw_replies w)); apply (inv_goto w i q); rewrite ?Hp; try done; unfold phase_ok; simpl.
  - by apply completed_success.
  - by eapply leased_fresh, completed_None.
Qed.

Lemma marking_inv token : rq_phase q = PMarking token → inv (advance uuid st pollMs i q w).
Proof.
  intros Hp. pose proof (inv_phase _ H i q Hi) as Hph. unfold phase_ok in Hph. rewrite Hp in Hph. unfold advance. rewrite Hp.
  apply (record_move w i q _ token); rewrite ?Hp; try done; unfold markInProgress; cbn [iw_redis set_redis].
  - intros id Hid. rewrite jget_jset_ne; [done |]. intros Heq. by apply Hid, recordKey_inj.
  - intros id. rewrite jget_jset_ne; [done | apply not_eq_sym, lock_record].
  - rewrite Hph. intros rec exp. rewrite jget_jset_eq. by intros [= <- _].
Qed.

Lemma persisting_inv token s b : rq_phase q = PPersisting token s b → inv (advance uuid st pollMs i q w).
Proof.
  intros Hp. pose proof (inv_phase _ H i q Hi) as Hph. unfold phase_ok in Hph. rewrite Hp in Hph. unfold advance. rewrite Hp.
  apply (record_move w i q _ token); rewrite ?Hp; try done; cbn [iw_redis set_redis]; unfold discard, complete.
  - intros id Hid. destruct (500 <=? s); [rewrite jget_jdel_ne | rewrite jget_jset_ne]; try done; intros Heq; by apply Hid, recordKey_inj.
  - intros id. destruct (500 <=? s); [rewrite jget_jdel_ne | rewrite jget_jset_ne]; try done; apply not_eq_sym, lock_record.
  - destruct (Z.ltb_spec s 500).
    + destruct Hph as (e & He & Hst & Hb & Hh). rewrite He. left. destruct (Z.leb_spec 500 s); [lia |].
      eexists _, _. rewrite jget_jset_eq. split; [done |]. split; [done |]. unfold matches. simpl. by rewrite Hst, Hb, Hh.
    + rewrite Hph. destruct (Z.leb_spec 500 s); [| lia]. intros rec exp. by rewrite jget_jdel_eq.
Qed.

Lemma advance_inv : inv (advance uuid st pollMs i q w).
Proof.
  destruct (rq_phase q) as [| | token | token raced | token | token | token s b | token s b | token | wake |] eqn:Hp;
    [by apply reading_inv | by apply acquiring_inv | by eapply leased_inv | | by eapply marking_inv | | by eapply persisting_inv | ..];
    unfold advance; rewrite Hp; try done.
  - pose proof (inv_phase _ H i q Hi) as Hph. unfold phase_ok in Hph. rewrite Hp in Hph. destruct Hph as (e & He & Hm).
    apply (release_move w i q token); rewrite ?Hp; try done. by eapply replay_reply.
  - apply (inv_goto w i q); rewrite ?Hp; try done. by apply plain_reply.
  - unfold set_request, set_redis. simpl. rewrite <- (app_nil_r (iw_replies w)). by apply (release_move w i q token); rewrite ?Hp.
  - destruct (wake <=? iw_now w); [| done]. unfold set_request. rewrite <- (app_nil_r (iw_replies w)).
    by apply (inv_goto w i q); rewrite ?Hp.
Qed.

(** Another request with the same identifier is not in a phase that depends on the count
    of successes while this one runs its handler. *)
Lemma running_alone token j x :
  rq_phase q = PRunning (Some token) → iw_requests w !! j = Some x → j ≠ i → rq_id x = rq_id q → holding (rq_phase x) = None.
Proof.
  intros Hp Hj Hji Hid. destruct (holding (rq_phase x)) eqn:Hx; [| done].
  destruct Hji. by eapply (one_holder w j i x q); rewrite ?Hp.
Qed.

Lemma crash_inv : (∀ t s b, rq_phase q ≠ PPersisting t s b) → inv (set_request i (at_phase PDone q) w).
Proof. intros Hp. unfold set_request. rewrite <- (app_nil_r (iw_replies w)). by apply (inv_goto w i q). Qed.

Lemma respond_inv s b : inv (respond i q s b w).
Proof.
  unfold respond. pose proof (inv_phase _ H i q Hi) as Hph. unfold phase_ok in Hph.
  destruct (rq_phase q) as [| | | | | [token |] | | | | |] eqn:Hp; try done.
  set (e := {| ex_request := i; ex_id := rq_id q; ex_requestHash := rq_requestHash q; ex_status := s; ex_body := b |}).
  set (q' := at_phase (PPersisting token s b) q). unfold set_request, add_execution. simpl.
  assert (∀ id r n qs ps, successes id (IWorld (iw_now w) r n qs ps (iw_executions w ++ [e])) =
            if decide (id = rq_id q) then (if s <? 500 then [e] else []) else successes id w) as Hsucc.
  { intros id r n qs ps. unfold successes at 1. cbn [iw_executions]. rewrite List.filter_app.
    match goal with |- ?l = _ => change l with (successes id w ++ (if String.eqb (rq_id q) id && (s <? 500) then [e] else [])) end.
    case_decide as Hd.
    - subst id. rewrite Hph, String.eqb_refl. done.
    - apply not_eq_sym, String.eqb_neq in Hd. rewrite Hd. by rewrite app_nil_r. }
  assert (i < length (iw_requests w))%nat as Hlt by (eapply lookup_lt_Some, Hi).
  split; simpl; intros.
  - apply insert_cases in H0 as [[-> ->] | [_ H0]]; [| by eapply (inv_token _ H)].
    eapply (inv_token _ H); [done |]. by rewrite Hp.
  - apply insert_cases in H0 as [[-> ->] | [Hj H0]]; apply insert_cases in H1 as [[-> ->] | [Hk H1]]; [done | | |].
    + by eapply (inv_distinct _ H i j q q'0 t); rewrite ?Hp.
    + by eapply (inv_distinct _ H i0 i q0 q t); rewrite ?Hp.
    + by eapply (inv_distinct _ H).
  - apply insert_cases in H0 as [[-> ->] | [_ H0]]; [| by eapply (inv_lock _ H)].
    apply (inv_lock _ H i q t Hi). by rewrite Hp.
  - rewrite Hsucc. case_decide as Hd.
    + subst id. pose proof (inv_success _ H (rq_id q)) as Hs. rewrite Hph in Hs. destruct (s <? 500); [| done].
      right. split; [done |]. exists i, q', token. by rewrite list_lookup_insert_eq.
    + pose proof (inv_success _ H id) as Hs. unfold success_ok in *. destruct (successes id w) as [| e' [|]]; [done | | done].
      destruct Hs as [Hs | [Hnc (j & x & t & Hj & Hx & Hrest)]]; [by left | right]. split; [done |]. exists j, x, t.
      rewrite list_lookup_insert_ne; [done |]. intros <-. rewrite Hi in Hj. by simplify_eq.
  - rewrite Hsucc. apply insert_cases in H0 as [[-> ->] | [Hj H0]].
    + unfold phase_ok. simpl. rewrite decide_True by done. destruct (s <? 500); [by exists e | done].
    + case_decide as Hd; [| by eapply (inv_phase _ H)]. pose proof (running_alone token i0 q0 Hp H0 Hj Hd) as Hx.
      pose proof (inv_phase _ H i0 q0 H0) as Hok. unfold phase_ok in *. by destruct (rq_phase q0) as [| | | | | [] | | | | |].
  - destruct (inv_reply _ H p H0) as (x & Hx & Hok).
    assert (∃ y, <[i := q']> (iw_requests w) !! hr_request p = Some y ∧ rq_id y = rq_id x ∧ rq_requestHash y = rq_requestHash x)
      as (y & Hy & Hyi & Hyh).
    { destruct (decide (hr_request p = i)) as [Heq | Hne].
      - rewrite Heq in *. rewrite Hi in Hx. injection Hx as <-. exists q'. by rewrite list_lookup_insert_eq.
      - exists x. by rewrite list_lookup_insert_ne. }
    exists y. split; [done |]. rewrite Hyi, Hyh, Hsucc. case_decide as Hd; [| done].
    intros Hr. destruct (Hok Hr) as (e' & He' & _). rewrite Hd, Hph in He'. done.
Qed.
End one_request.

(** A new request without a token. *)
Lemma inv_add w q ps :
  inv w → token_of (rq_phase q) = None → rq_phase q ≠ PRunning None →
  Forall (λ p, hr_request p = length (iw_requests w) ∧ replayed p = false) ps →
  inv (IWorld (iw_now w) (iw_redis w) (iw_tokens w) (iw_requests w ++ [q]) (iw_replies w ++ ps) (iw_executions w)).
Proof.
  intros H Hq Hrun Hps. assert (holding (rq_phase q) = None) as Hh by (by destruct (rq_phase q)).
  assert (∀ i x, (iw_requests w ++ [q]) !! i = Some x → iw_requests w !! i = Some x ∨ (x = q ∧ i = length (iw_requests w))) as Hl.
  { intros i x [Hx | [Hi Hx]]%lookup_app_Some; [by left | right]. apply list_lookup_singleton_Some in Hx as [Hi' ->]. split; [done | lia]. }
  split; simpl.
  - intros i x t [Hx | [-> _]]%Hl Ht; [by eapply (inv_token _ H) | congruence].
  - intros i j x y t [Hx | [-> _]]%Hl [Hy | [-> _]]%Hl Ht Ht'; [by eapply (inv_distinct _ H) | congruence ..].
  - intros i x t [Hx | [-> _]]%Hl Ht; [by eapply (inv_lock _ H) | congruence].
  - intros id. pose proof (inv_success _ H id) as Hs. change (successes id _) with (successes id w). unfold success_ok in *.
    destruct (successes id w) as [| e [|]]; [done | | done].
    destruct Hs as [Hs | [Hnc (j & x & t & Hj & Hrest)]]; [by left | right]. split; [done |]. exists j, x, t.
    by rewrite lookup_app_l by (eapply lookup_lt_Some, Hj).
  - intros i x [Hx | [-> _]]%Hl; [by apply (inv_phase _ H i) |]. unfold phase_ok. by destruct (rq_phase q) as [| | | | | [] | | | | |].
  - intros p [Hp | Hp]%elem_of_app.
    + destruct (inv_reply _ H p Hp) as (x & Hx & Hok). exists x. by rewrite lookup_app_l by (eapply lookup_lt_Some, Hx).
    + rewrite Forall_forall in Hps. destruct (Hps p Hp) as [-> Hr]. exists q. split; [| by apply not_replayed].
      by rewrite lookup_app_r, Nat.sub_diag by lia.
Qed.

Lemma arrive_inv w key context : inv w → inv (arrive sha256_hex waitMs key context w).
Proof.
  intros H. unfold arrive, add_reply. destruct (_ <? _)%nat.
  - apply (inv_add w); try done. by repeat constructor.
  - rewrite <- (app_nil_r (iw_replies w)). by apply (inv_add w).
Qed.

Lemma step_inv w l : timely w = true → reliable w l = true → inv w → inv (step w l).
Proof.
  intros Ht Hr H. destruct l as [key context | i | i s b | i | i | ms]; simpl in *; [by apply arrive_inv | | | done | |].
  - destruct (iw_requests w !! i) eqn:Hi; [by apply advance_inv | done].
  - destruct (iw_requests w !! i) eqn:Hi; [by apply respond_inv | done].
  - destruct (iw_requests w !! i) as [q |] eqn:Hi; [| done]. apply crash_inv; [done .. |]. intros t s b Hp. simpl in Hr. by rewrite Hp in Hr.
  - by destruct H.
Qed.

Lemma idle_inv now : inv (idle now).
Proof. split; simpl; try done. set_solver. Qed.

Lemma run_inv ls w : timely_run ls w = true → inv w → inv (steps sha256_hex uuid st waitMs pollMs ls w).
Proof.
  revert w. induction ls as [| l ls IH]; intros w Hr H; [done |]. simpl in Hr.
  apply andb_prop in Hr as [[Ht Hl]%andb_prop Hr]. apply IH; [done |]. by apply step_inv.
Qed.

(** C19. Checkouts are idempotent.  Over any interleaving of requests, as long as Redis
    answers, handlers finish within their lease, records have not expired and no process
    dies between a response and its storage: of all the requests with the same identifier
    at most one ends in a success (a status below 500); every response marked as replayed
    repeats the status and the body of that one execution, and the hash of the request it
    answers is the one that was executed; and two requests with the same identifier are
    never in their handlers at the same time. *)
Theorem checkout_idempotent ls now :
  timely_run ls (idle now) = true →
  let w := steps sha256_hex uuid st waitMs pollMs ls (idle now) in
  (∀ id, (length (successes id w) ≤ 1)%nat) ∧
  (∀ p, p ∈ iw_replies w → replayed p = true →
     ∃ q e, iw_requests w !! hr_request p = Some q ∧ successes (rq_id q) w = [e] ∧
       hr_status p = ex_status e ∧ hr_body p = ex_body e ∧ (ex_requestHash e ≠ "" → ex_requestHash e = rq_requestHash q)) ∧
  (∀ i j q q' t t', iw_requests w !! i = Some q → iw_requests w !! j = Some q' → rq_id q = rq_id q' →
     rq_phase q = PRunning t → rq_phase q' = PRunning t' → i = j).
Proof.
  intros Hr w. pose proof (run_inv ls _ Hr (idle_inv now)) as H. fold w in H. split; [| split].
  - intros id. pose proof (inv_success _ H id) as Hs. unfold success_ok in Hs. destruct (successes id w) as [| e [|]]; simpl; [lia .. | done].
  - intros p Hp Hrep. destruct (inv_reply _ H p Hp) as (q & Hq & Hok). destruct (Hok Hrep) as (e & He). by exists q, e.
  - intros i j q q' t t' Hi Hj Hid Hp Hp'.
    pose proof (inv_phase _ H i q Hi) as H1. pose proof (inv_phase _ H j q' Hj) as H2. unfold phase_ok in H1, H2. rewrite Hp in H1. rewrite Hp' in H2.
    destruct t as [t |], t' as [t' |]; try done. by eapply (one_holder w i j q q'); rewrite ?Hp, ?Hp'.
Qed.
End invariant.

(** ** Runs *)

Definition demo_token (n : nat) : string := dec (Z.of_nat n).

#[export] Instance demo_token_inj : Inj (=) (=) demo_token.
Proof. intros n m H. apply (inj dec) in H. lia. Qed.

Definition demo_checkout : CheckoutIdempotencyContext := {|
  cx_input := {| cf_walletAddress := "GBUYER"; cf_items := Some (JArr [JStr "book"]); cf_nonce := "1" |}; cx_userId := "alice" |}.

Notation demo_steps := (steps id demo_token default_store DEFAULT_WAIT_FOR_COMPLETION_MS DEFAULT_POLL_INTERVAL_MS).

(** A double click: the second request waits and receives the response of the first. *)
Definition double_click : list label :=
  [Arrive None demo_checkout; Arrive None demo_checkout; Step 0; Step 1; Step 0; Step 1; Step 0; Step 0; Respond 0 201 "created";
   Step 0; Step 0; Step 0; Tick 50; Step 1; Step 1].

Lemma checkout_idempotent_witness :
  iw_replies (demo_steps double_click (idle 0)) =
    [ {| hr_request := 0; hr_status := 201; hr_body := "created"; hr_headers := [] |};
      {| hr_request := 1; hr_status := 201; hr_body := "created"; hr_headers := [json_type; ("Idempotency-Replayed", "true")] |} ] ∧
  ∀ id', (length (successes id' (demo_steps double_click (idle 0))) ≤ 1)%nat.
Proof.
  split; [vm_compute; reflexivity |].
  exact (proj1 (checkout_idempotent id demo_token default_store DEFAULT_WAIT_FOR_COMPLETION_MS DEFAULT_POLL_INTERVAL_MS
    double_click 0 ltac:(vm_compute; reflexivity))).
Defined.

Definition to_handler (i : nat) : list label := [Step i; Step i; Step i; Step i].
Definition finish (i : nat) (status : Z) : list label := [Respond i status "body"; Step i; Step i; Step i].

Definition demo_id : string := "alice:" +:+ fingerprint_text (cx_input demo_checkout).

(** The lease is not renewed: a handler that runs for longer than sixty seconds lets a
    retry in, and both succeed. *)
Theorem slow_handler_succeeds_twice :
  length (successes demo_id (demo_steps
    ([Arrive None demo_checkout] ++ to_handler 0 ++ [Tick 61000; Arrive None demo_checkout] ++ to_handler 1 ++
     finish 1 201 ++ finish 0 201) (idle 0))) = 2%nat.
Proof. vm_compute. reflexivity. Qed.

(** [discard] does not check who holds the lease: when a slow handler fails at last, it
    drops the record of the retry that succeeded, and the next request executes again. *)
Theorem late_failure_drops_record :
  let before := [Arrive None demo_checkout] ++ to_handler 0 ++ [Tick 61000; Arrive None demo_checkout] ++ to_handler 1 ++ finish 1 201 in
  let again := [Arrive None demo_checkout; Step 2] in
  rq_phase <$> iw_requests (demo_steps (before ++ again) (idle 0)) !! 2%nat = Some PDone ∧
  rq_phase <$> iw_requests (demo_steps (before ++ finish 0 503 ++ again) (idle 0)) !! 2%nat = Some PAcquiring.
Proof. vm_compute. done. Qed.
