(* ===== verification/Permissions.v ===== *)
(** * Spending permissions of wallets (apps/backend/wallet/permissions/index.ts)

    The service that grants, revokes and checks permissions held by a Soroban contract.
    The contract, the RPC node, Horizon, the Stellar SDK, the fee estimate, the simulator
    and the vault are parameters; the transactions sent so far are the state their
    answers depend on.  The off-chain policy is the one of SpendLimits.v, whose database
    and clock are part of the state.  The service runs in production ([NODE_ENV] is not
    ["test"]).  A text given as a date is identified with what [Date] reads from it. *)
From S2P Require Import Prelude JsLib JsCollections Calendar SpendLimits.
Local Open Scope Z_scope.

(** ** Errors *)

Definition PermissionError (m : string) : exn := Exn "PermissionError" m.
Definition PermissionNotFoundError (m : string) : exn := Exn "PermissionNotFoundError" m.
Definition PermissionExpiredError (m : string) : exn := Exn "PermissionExpiredError" m.
Definition LimitExceededError (m : string) : exn := Exn "LimitExceededError" m.
Definition DuplicatePermissionError (m : string) : exn := Exn "DuplicatePermissionError" m.
Definition SimulationFailedError (m : string) : exn := Exn "SimulationFailedError" m.
Definition InvalidPermissionInputError (m : string) : exn := Exn "InvalidPermissionInputError" m.

(** ** Values of the contract

    What [scValToNative] produces: it makes no [Map] and no [Set], and its numbers are
    integers. *)
Inductive native :=
  | NNull | NBool (b : bool) | NBig (z : Z) | NNum (z : Z) | NStr (s : string)
  | NArr (l : list native) | NObj (l : list (string * native)).

Definition falsy (n : native) : bool :=
  match n with
  | NNull => true | NBool b => negb b | NBig z | NNum z => z =? 0 | NStr s => String.eqb s "" | NArr _ | NObj _ => false
  end.

(** [String(n)] *)
Fixpoint native_string (n : native) : string :=
  match n with
  | NNull => "null" | NBool b => if b then "true" else "false" | NBig z | NNum z => dec z | NStr s => s
  | NArr l => join "," ((λ x, match x with NNull => "" | _ => native_string x end) <$> l)
  | NObj _ => "[object Object]"
  end.

(** [data.k ?? ...]: [null] counts as missing. *)
Definition field (k : string) (data : native) : option native :=
  match data with
  | NObj l => match jget k l with Some NNull | None => None | Some v => Some v end
  | _ => None
  end.

Definition first_field (ks : list string) (data : native) : option native :=
  foldr (λ k rest, match field k data with Some v => Some v | None => rest end) None ks.

(** [BigInt(n)] *)
Definition native_BigInt (n : native) : option Z :=
  match n with
  | NBig z | NNum z => Some z
  | NBool b => Some (if b then 1 else 0)
  | NNull => None
  | _ => BigInt (native_string n)
  end.

(** [Number(n)], when it is an integer *)
Definition native_Number (n : native) : option Z :=
  match n with
  | NBig z | NNum z => Some z
  | NBool b => Some (if b then 1 else 0)
  | NNull => Some 0
  | _ => Number_integer (native_string n)
  end.

(** ** Dates *)

(** A text given as a date: absent, not a date, or an instant. *)
Inductive date_text := NoDate | BadDate (text : string) | DateAt (ms : Z).

Definition parseExpiryToSeconds {S} (expiresAt : date_text) : M S Z :=
  match expiresAt with
  | NoDate => mret 0
  | BadDate t => throw (InvalidPermissionInputError ("Invalid expiresAt ISO date string: " +:+ t))
  | DateAt ms => mret (ms / 1000)
  end.

(** The [RangeError] of [toISOString] is raised for an instant out of range. *)
Definition formatExpiryToIso {S} (expiry : option native) : M S (option Z) :=
  match expiry with
  | None => mret None
  | Some n =>
      if falsy n || match n with NStr s => String.eqb s "0" | _ => false end then mret None
      else match native_Number n with
           | None => mret None
           | Some sec =>
               if sec <=? 0 then mret None
               else iso ← some_or_throw (TimeClip (sec * 1000)) (Exn "RangeError" "Invalid time value"); mret (Some iso)
           end
  end.

(** ** Grants *)

Record PermissionGrant := { pg_contractId : string; pg_spender : string; pg_limit : Z; pg_expiresAt : option Z }.

Record PermissionGrantInput := {
  pi_contractId : option string; pi_spender : string; pi_limit : option Z; pi_expiresAt : date_text; pi_owner : option string
}.

Definition parsePermissionGrant {S} (contractId : string) (raw : native) (fallbackSpender : option string)
    : M S (option PermissionGrant) :=
  if falsy raw then mret None
  else
    let spender := match first_field ["spender"; "delegate"] raw with
                   | Some v => native_string v
                   | None => default "" fallbackSpender
                   end in
    if String.eqb spender "" then mret None
    else match first_field ["limit"; "total_limit"; "per_tx_limit"] raw with
         | None => mret None
         | Some rawLimit =>
             limit ← some_or_throw (native_BigInt rawLimit) SyntaxError;
             expiresAt ← formatExpiryToIso (first_field ["expiresAt"; "expires_at"; "expiry"; "expires_at_ledger"] raw);
             mret (Some {| pg_contractId := contractId; pg_spender := spender; pg_limit := limit; pg_expiresAt := expiresAt |})
         end.

(** ** State and environment *)

Inductive parg := PAddress (a : string) | PI128 (z : Z) | PU64 (z : Z).

(** A contract invocation in a transaction. *)
Record ptx := { pt_source : string; pt_sequence : string; pt_fee : string; pt_contract : string; pt_function : string; pt_args : list parg }.

(** A simulation of a read: the three places an answer is looked for. *)
Record sim_reply := { sm_error : bool; sm_result : option native; sm_results0 : option native; sm_retval : option native }.

Inductive tx_status := TxSuccess | TxFailed (result : string) | TxPending.
Inductive send_reply := SendError (json : string) | SendHash (hash : string).

(** A row of the store of key versions (vault.ts) *)
Record SigningKeyVersion := { kv_walletId : string; kv_keyVersion : string; kv_activeFrom : Z }.

Record pmworld := PmWorld { pm_sent : list ptx; pm_versions : list SigningKeyVersion; pm_spend : spdb }.

Class PermissionsEnv := {
  (** [StrKey] of the Stellar SDK *)
  isValidEd25519SecretSeed : string → bool;
  isValidEd25519PublicKey : string → bool;
  deps_defaultOwner : option string;
  PERMISSIONS_OWNER_ADDRESS : option string;
  WALLET_SOURCE_ADDRESS : option string;
  deps_defaultContractId : option string;
  SOROBAN_PERMISSIONS_CONTRACT_ID : option string;
  PERMISSIONS_CONTRACT_ID : option string;
  loadAccount : list ptx → string → exn + string;
  (** The fee estimator of the payments service, which asks Horizon, at an instant *)
  estimateTransactionFee : Z → exn + Z;
  (** [nativeToScVal] to [i128] and [u64], and the construction of an operation *)
  toI128 : Z → exn + parg;
  toU64 : Z → exn + parg;
  op_error : string → string → list parg → option exn;
  rpc_simulate : list ptx → ptx → exn + sim_reply;
  (** The simulator of a write: success, or why not *)
  simulateTransaction : list ptx → ptx → exn + option string;
  assemble_error : ptx → option string;
  WALLET_ACTIVE_KEY_VERSION : option string;
  version_error : list SigningKeyVersion → option exn;
  keySigner_sign : ptx → string → exn + string;
  rpc_send : list ptx → ptx → string → exn + send_reply;
  rpc_getTransaction : list ptx → nat → string → exn + tx_status
}.

Section service.
Context `{PE : PermissionsEnv} `{SE : SpendEnv}.
Implicit Types w : pmworld.

Definition on_spend {A} (c : M spdb A) : M pmworld A :=
  zoom pm_spend (λ d w, PmWorld (pm_sent w) (pm_versions w) d) c.

Definition wait (ms : Z) : M pmworld () :=
  on_spend (modify (λ d, SpDb (sp_limits d) (sp_wallets d) (sp_redis d) (sp_now d + ms))).

(** [a ?? b] *)
Definition coalesce {A} (a b : option A) : option A := match a with Some _ => a | None => b end.

(** *** packages/utils/src/id.ts *)
Inductive key_error := key_missing | key_invalid_strkey | key_secret_not_allowed.

Definition validatePublicKey (key : string) : key_error + string :=
  if String.eqb (trim key) "" then inl key_missing
  else if isValidEd25519SecretSeed (trim key) then inl key_secret_not_allowed
  else if negb (isValidEd25519PublicKey (trim key)) then inl key_invalid_strkey
  else inr (trim key).

Definition isValidStellarPublicKey (key : string) : bool :=
  match validatePublicKey key with inr _ => true | inl _ => false end.

(** *** wallet/src/dynamicFee.ts *)
Definition DEFAULT_FEE_STROOPS : string := "100".

Definition getDynamicFee : M pmworld string :=
  now ← gets (sp_now ∘ pm_spend);
  estimate ← answer (estimateTransactionFee now);
  mret (dec estimate).

Definition getTransactionFee : M pmworld string := try_catch getDynamicFee (λ _, mret DEFAULT_FEE_STROOPS).

(** *** wallet/src/vault.ts: the key versions that signed *)
Definition getActiveKeyVersion : string :=
  let v := default "" (trim <$> WALLET_ACTIVE_KEY_VERSION) in if String.eqb v "" then "v1" else v.

Definition insert_version (walletId keyVersion : string) : M pmworld () :=
  versions ← gets pm_versions;
  match version_error versions with
  | Some e => throw e
  | None =>
      now ← gets (sp_now ∘ pm_spend);
      modify (λ w, PmWorld (pm_sent w) (pm_versions w ++ [Build_SigningKeyVersion walletId keyVersion now]) (pm_spend w))
  end.

Definition recordSigningKeyVersion (walletId keyVersion : string) : M pmworld () :=
  throw_if (String.eqb (trim walletId) "") (Error "walletId is required");;
  throw_if (String.eqb (trim keyVersion) "") (Error "keyVersion is required");;
  insert_version walletId keyVersion.

(** *** permissions/index.ts *)

Definition resolveOwner (explicitOwner grantOwner : option string) : M pmworld string :=
  let candidate := coalesce grantOwner (coalesce explicitOwner (coalesce deps_defaultOwner
                     (coalesce PERMISSIONS_OWNER_ADDRESS WALLET_SOURCE_ADDRESS))) in
  throw_if (negb (truthy (trim <$> candidate)))
    (InvalidPermissionInputError "Owner address is required to execute permissions operations");;
  let trimmed := trim (default "" candidate) in
  throw_if (negb (isValidStellarPublicKey trimmed))
    (InvalidPermissionInputError ("Invalid Stellar public key for owner: " +:+ trimmed));;
  mret trimmed.

Definition resolveContractId (contractId : option string) : M pmworld string :=
  let resolved := coalesce contractId (coalesce deps_defaultContractId
                    (coalesce SOROBAN_PERMISSIONS_CONTRACT_ID PERMISSIONS_CONTRACT_ID)) in
  throw_if (negb (truthy (trim <$> resolved))) (InvalidPermissionInputError "Contract ID is required for permissions operation");;
  mret (trim (default "" resolved)).

Definition validateSpender (spender : string) : M pmworld string :=
  throw_if (String.eqb (trim spender) "") (InvalidPermissionInputError "Spender address is required");;
  throw_if (negb (isValidStellarPublicKey (trim spender)))
    (InvalidPermissionInputError ("Invalid Stellar public key for spender: " +:+ trim spender));;
  mret (trim spender).

Definition loadSequenceNumber (address : string) : M pmworld string :=
  sent ← gets pm_sent;
  match loadAccount sent address with
  | inr n => mret n
  | inl err => throw (PermissionError ("Unable to load account sequence for " +:+ address +:+ ": " +:+ exn_message err))
  end.

Definition POLL_ATTEMPTS : nat := 12.
Definition POLL_INTERVAL_MS : Z := 5000.

(** The loop with [left] attempts left. *)
Fixpoint poll (txHash : string) (left : nat) : M pmworld () :=
  match left with
  | O => throw (PermissionError ("Transaction " +:+ txHash +:+ " was not confirmed within the polling window"))
  | S left' =>
      wait POLL_INTERVAL_MS;;
      sent ← gets pm_sent;
      match rpc_getTransaction sent left' txHash with
      | inr TxSuccess => mret ()
      | inr (TxFailed result) => throw (PermissionError ("Transaction execution failed on-chain: " +:+ result))
      | inr TxPending | inl _ => poll txHash left'
      end
  end.

Definition pollTransactionConfirmation (txHash : string) : M pmworld () := poll txHash POLL_ATTEMPTS.

(** [Operation.invokeContractFunction] *)
Definition build_op (contract fn : string) (args : list parg) : M pmworld () :=
  match op_error contract fn args with Some e => throw e | None => mret () end.

Definition invocation (source sequence fee contract fn : string) (args : list parg) : ptx :=
  {| pt_source := source; pt_sequence := sequence; pt_fee := fee; pt_contract := contract; pt_function := fn; pt_args := args |}.

(** The transaction around one invocation: a read asks for the fee first, a write builds
    the operation first. *)
Definition build_read (source contract fn : string) (args : list parg) : M pmworld ptx :=
  fee ← getTransactionFee; build_op contract fn args;; mret (invocation source "0" fee contract fn args).
Definition build_write (source sequence contract fn : string) (args : list parg) : M pmworld ptx :=
  build_op contract fn args;; fee ← getTransactionFee; mret (invocation source sequence fee contract fn args).

Definition extractSimulationRetval (r : sim_reply) : option native :=
  coalesce (sm_result r) (coalesce (sm_results0 r) (sm_retval r)).

(** The part of [get] inside its [try]. *)
Definition query_grant (contractId spender : string) (tx : ptx) : M pmworld (option PermissionGrant) :=
  sent ← gets pm_sent;
  simRes ← answer (rpc_simulate sent tx);
  if sm_error simRes then mret None
  else match extractSimulationRetval simRes with
       | None => mret None
       | Some v =>
           if falsy v || match v with NArr [] | NObj [] => true | _ => false end then mret None
           else parsePermissionGrant contractId v (Some spender)
       end.

Definition get (contractIdInput : option string) (ownerInput : option string) (spenderInput : string)
    : M pmworld (option PermissionGrant) :=
  owner ← resolveOwner ownerInput None;
  contractId ← resolveContractId contractIdInput;
  spender ← validateSpender spenderInput;
  tx ← build_read owner contractId "get_permission" [PAddress owner; PAddress spender];
  try_catch (query_grant contractId spender tx) (λ _, mret None).

(** The grants an item of the answer stands for. *)
Definition list_grants (contractId : string) (items : list native) : M pmworld (list PermissionGrant) :=
  foldr (λ item rest, p ← parsePermissionGrant contractId item None; l ← rest; mret (option_list p ++ l)) (mret []) items.

Definition list_permissions (ownerInput : string) (contractIdInput : option string) : M pmworld (list PermissionGrant) :=
  owner ← resolveOwner (Some ownerInput) None;
  resolved ← try_catch (c ← resolveContractId contractIdInput; mret (Some c)) (λ _, mret None);
  match resolved with
  | None => mret []
  | Some contractId =>
      tx ← build_read owner contractId "list_permissions" [PAddress owner];
      try_catch
        (sent ← gets pm_sent;
         simRes ← answer (rpc_simulate sent tx);
         if sm_error simRes then mret []
         else match extractSimulationRetval simRes with
              | None => mret []
              | Some v => if falsy v then mret [] else list_grants contractId match v with NArr l => l | _ => [v] end
              end)
        (λ _, mret [])
  end.

(** The four numbered steps [grant] and [revoke] share: simulate, record the key version,
    sign, submit; then wait for the confirmation. *)
Definition submit_write (what owner : string) (tx : ptx) : M pmworld string :=
  sent ← gets pm_sent;
  simRes ← answer (simulateTransaction sent tx);
  match simRes with
  | Some errorMsg => throw (SimulationFailedError ("Permission " +:+ what +:+ " simulation failed: " +:+ errorMsg))
  | None => mret ()
  end;;
  recordSigningKeyVersion owner getActiveKeyVersion;;
  match assemble_error tx with
  | Some m => throw (SimulationFailedError ("Failed to assemble transaction from simulation: " +:+ m))
  | None => mret ()
  end;;
  signature ← answer (keySigner_sign tx owner);
  modify (λ w, PmWorld (pm_sent w ++ [tx]) (pm_versions w) (pm_spend w));;
  sendRes ← answer (rpc_send sent tx signature);
  match sendRes with
  | SendError json => throw (PermissionError ("Failed to submit permission " +:+ what +:+ ": " +:+ json))
  | SendHash h => pollTransactionConfirmation h;; mret h
  end.

Definition expiry_text (e : option Z) : date_text := match e with Some ms => DateAt ms | None => NoDate end.

Definition grant (grantInput : PermissionGrantInput) (explicitOwner : option string) : M pmworld string :=
  owner ← resolveOwner explicitOwner (pi_owner grantInput);
  contractId ← resolveContractId (pi_contractId grantInput);
  spender ← validateSpender (pi_spender grantInput);
  limit ← some_or_throw (pi_limit grantInput) (InvalidPermissionInputError "Permission limit is required");
  throw_if (limit <? 0) (InvalidPermissionInputError "Permission limit cannot be negative");;
  expirySeconds ← parseExpiryToSeconds (pi_expiresAt grantInput);
  existing ← get (Some contractId) (Some owner) spender;
  match existing with
  | Some g =>
      existingExpiry ← parseExpiryToSeconds (expiry_text (pg_expiresAt g));
      throw_if ((pg_limit g =? limit) && (existingExpiry =? expirySeconds))
        (DuplicatePermissionError ("Permission grant already exists for spender " +:+ spender +:+ " on contract " +:+ contractId))
  | None => mret ()
  end;;
  sequence ← loadSequenceNumber owner;
  limitArg ← answer (toI128 limit);
  expiryArg ← answer (toU64 expirySeconds);
  tx ← build_write owner sequence contractId "grant_permission" [PAddress owner; PAddress spender; limitArg; expiryArg];
  submit_write "grant" owner tx.

Definition revoke (contractIdInput : option string) (spenderInput : string) (explicitOwner : option string) : M pmworld () :=
  owner ← resolveOwner explicitOwner None;
  contractId ← resolveContractId contractIdInput;
  spender ← validateSpender spenderInput;
  existing ← get (Some contractId) (Some owner) spender;
  match existing with
  | None => mret ()
  | Some _ =>
      sequence ← loadSequenceNumber owner;
      tx ← build_write owner sequence contractId "revoke_permission" [PAddress owner; PAddress spender];
      submit_write "revoke" owner tx;;
      mret ()
  end.

(** [spenderInputs.map(validateSpender)] *)
Definition validate_all (spenderInputs : list string) : M pmworld (list string) :=
  foldr (λ s rest, x ← validateSpender s; l ← rest; mret (x :: l)) (mret []) spenderInputs.

Definition revokeBatch (contractIdInput : option string) (spenderInputs : list string) (explicitOwner : option string) : M pmworld () :=
  match spenderInputs with
  | [] => mret ()
  | _ =>
      owner ← resolveOwner explicitOwner None;
      contractId ← resolveContractId contractIdInput;
      spenders ← validate_all spenderInputs;
      for_each (uniq spenders) (λ spender, revoke (Some contractId) spender (Some owner))
  end.

(** ** The spend check

    The error for an expired grant also quotes its date. *)

Record SpendPolicyContext := { sc_userId : option string; sc_walletId : option string; sc_delegationId : option string }.

(** The user and the wallet the policy is evaluated for. *)
Definition policy_ids (context : SpendPolicyContext) (owner : string) : M spdb (option string * option string) :=
  request_ids {| rq_sourceAddress := owner; rq_userId := sc_userId context; rq_walletId := sc_walletId context;
                 rq_delegationId := None; rq_amountStroops := None |}.

Definition policy_check (context : SpendPolicyContext) (owner : string) (amount : Z) : M pmworld () :=
  ids ← on_spend (policy_ids context owner);
  if truthy ids.1 && truthy ids.2 then
    try_catch
      (offChain ← on_spend (checkSpendLimit (default "" ids.1) (default "" ids.2) (sc_delegationId context) amount);
       throw_if (negb (allowed offChain))
         (LimitExceededError ("Off-chain spending limit policy rejected: " +:+ default "limit exceeded" (reason offChain))))
      (λ err, if String.eqb (exn_name err) "LimitExceededError" then throw err
              else throw (PermissionError ("Unable to evaluate off-chain spending policy: " +:+ exn_message err)))
  else mret ().

Definition checkSpend (contractIdInput : option string) (ownerInput spenderInput : string) (amount : option Z)
    (context : SpendPolicyContext) : M pmworld bool :=
  owner ← resolveOwner (Some ownerInput) None;
  contractId ← resolveContractId contractIdInput;
  spender ← validateSpender spenderInput;
  amountBigInt ← some_or_throw amount (InvalidPermissionInputError "Spend amount is required");
  throw_if (amountBigInt <=? 0) (LimitExceededError "Spend amount must be greater than zero");;
  existing ← get (Some contractId) (Some owner) spender;
  g ← some_or_throw existing
        (PermissionNotFoundError ("Permission grant not found for spender " +:+ spender +:+ " on owner " +:+ owner));
  now ← gets (λ w, sp_now (pm_spend w));
  throw_if (match pg_expiresAt g with Some t => t <=? now | None => false end)
    (PermissionExpiredError ("Permission grant for spender " +:+ spender +:+ " expired"));;
  throw_if (pg_limit g <? amountBigInt)
    (LimitExceededError ("Spend amount " +:+ dec amountBigInt +:+ " stroops exceeds permission limit of " +:+ dec (pg_limit g) +:+ " stroops"));;
  policy_check context owner amountBigInt;;
  mret true.
End service.
