(* ===== verification/PermissionsCorrect.v ===== *)
(** * Correctness of the permissions

    The spend check against the grant it reads and the off-chain policy; and, for a
    contract that keeps what it is given, that a confirmed grant and a confirmed
    revocation take effect. *)
From S2P Require Import Prelude JsLib JsCollections Calendar SpendLimits Permissions.
Local Open Scope Z_scope.

Section checks.
Context `{PE : PermissionsEnv} `{SE : SpendEnv}.
Implicit Types w : pmworld.

(** ** Reads *)

Lemma evolves_eq_pure {A} (c : M pmworld A) w : evolves eq c → (c w).2 = w.
Proof. intros H. symmetry. apply H. Qed.

Lemma resolveOwner_pure a b : evolves eq (resolveOwner a b).
Proof. unfold resolveOwner. evolve. Qed.
Lemma resolveContractId_pure a : evolves eq (resolveContractId a).
Proof. unfold resolveContractId. evolve. Qed.
Lemma validateSpender_pure a : evolves eq (validateSpender a).
Proof. unfold validateSpender. evolve. Qed.
Lemma build_read_pure a b c l : evolves eq (build_read a b c l).
Proof. unfold build_read, build_op, getTransactionFee, getDynamicFee. evolve. Qed.
Lemma formatExpiryToIso_pure e : evolves eq (formatExpiryToIso e : M pmworld _).
Proof. unfold formatExpiryToIso. evolve. Qed.
Hint Resolve resolveOwner_pure resolveContractId_pure validateSpender_pure build_read_pure formatExpiryToIso_pure : evolve.

Lemma parsePermissionGrant_pure c n s : evolves eq (parsePermissionGrant c n s : M pmworld _).
Proof. unfold parsePermissionGrant. evolve. Qed.
Hint Resolve parsePermissionGrant_pure : evolve.

Lemma get_pure c o s : evolves eq (get c o s).
Proof. unfold get, query_grant. evolve. Qed.

(** [get] fails only on bad input: an unreachable node, a contract error and an
    unreadable answer all read as "no grant". *)
Lemma on_spend_pure {A} (c : M spdb A) : evolves eq c → evolves eq (on_spend c).
Proof. intros H w. unfold on_spend, zoom. specialize (H (pm_spend w)). destruct (c (pm_spend w)) as [r d]. simpl in *. subst. by destruct w. Qed.

Lemma ask_db_pure : evolves eq ask_db.
Proof. unfold ask_db. evolve. Qed.
Lemma ask_redis_pure : evolves eq ask_redis.
Proof. unfold ask_redis. evolve. Qed.
Hint Resolve ask_db_pure ask_redis_pure : evolve.

Lemma policy_ids_pure x o : evolves eq (policy_ids x o).
Proof. unfold policy_ids, request_ids. evolve. Qed.
Lemma checkSpendLimit_pure u v d a : evolves eq (checkSpendLimit u v d a).
Proof. unfold checkSpendLimit. evolve. Qed.
Hint Resolve get_pure on_spend_pure policy_ids_pure checkSpendLimit_pure : evolve.

Lemma policy_check_pure x o a : evolves eq (policy_check x o a).
Proof. unfold policy_check. evolve. Qed.
Hint Resolve policy_check_pure : evolve.

Lemma checkSpend_pure c o s a x : evolves eq (checkSpend c o s a x).
Proof. unfold checkSpend. evolve. Qed.

(** The step over a read in a run that returned. *)
Lemma read_inr {A B} (c : M pmworld A) (k : A → M pmworld B) w b w' :
  evolves eq c → (c ≫= k) w = (inr b, w') ↔ ∃ a, c w = (inr a, w) ∧ k a w = (inr b, w').
Proof.
  intros Hc. rewrite bind_inr. split; [| naive_solver]. intros (a & w1 & H1 & H2). specialize (Hc w). rewrite H1 in Hc. simpl in Hc.
  subst w1. eauto.
Qed.

Lemma guard_inr {B} b e (k : () → M pmworld B) w r w' :
  (throw_if b e ≫= k) w = (inr r, w') ↔ b = false ∧ k () w = (inr r, w').
Proof. destruct b; [| naive_solver]. split; [done | naive_solver]. Qed.

Lemma need_inr {A B} (o : option A) e (k : A → M pmworld B) w r w' :
  (some_or_throw o e ≫= k) w = (inr r, w') ↔ ∃ a, o = Some a ∧ k a w = (inr r, w').
Proof. destruct o; [| naive_solver]. split; [eauto | naive_solver]. Qed.

(** ** The spend check *)

(** The off-chain policy has no objection: the user or the wallet is unknown, or the
    limits of SpendLimits.v allow the amount. *)
Definition policy_allows (x : SpendPolicyContext) (owner : string) (amount : Z) w : Prop :=
  ∃ u v, policy_ids x owner (pm_spend w) = (inr (u, v), pm_spend w) ∧
    (truthy u = true → truthy v = true →
     ∃ r, checkSpendLimit (default "" u) (default "" v) (sc_delegationId x) amount (pm_spend w) = (inr r, pm_spend w) ∧ allowed r = true).

Lemma on_spend_run {A} (c : M spdb A) w r : c (pm_spend w) = (r, pm_spend w) → on_spend c w = (r, w).
Proof. intros H. unfold on_spend, zoom. rewrite H. by destruct w. Qed.

Lemma on_spend_read {A} (c : M spdb A) w : evolves eq c → on_spend c w = ((c (pm_spend w)).1, w).
Proof. intros H. apply on_spend_run. rewrite (H (pm_spend w)) at 3. by destruct (c (pm_spend w)). Qed.

Lemma policy_ids_run x owner d : ∃ u v, policy_ids x owner d = (inr (u, v), d).
Proof.
  pose proof (policy_ids_pure x owner d) as Hp. destruct (policy_ids x owner d) as [[e | [u v]] d'] eqn:Hq; simpl in Hp; subst d'; [| eauto].
  exfalso. unfold policy_ids, request_ids in Hq. destruct (_ && _); [done |]. unfold try_catch in Hq.
  by destruct ((ask_db ≫= _) d) as [[] ?].
Qed.

Lemma policy_check_exact x owner a w : policy_check x owner a w = (inr (), w) ↔ policy_allows x owner a w.
Proof.
  unfold policy_check, policy_allows. destruct (policy_ids_run x owner (pm_spend w)) as (u & v & Hids).
  rewrite (bind_run _ _ _ _ _ (on_spend_run _ _ _ Hids)). simpl.
  destruct (truthy u) eqn:Hu, (truthy v) eqn:Hv; simpl;
    try (split; [intros _; exists u, v; split; [done |]; congruence | done]).
  unfold try_catch, mbind, M_bind. rewrite on_spend_read by auto with evolve.
  pose proof (checkSpendLimit_pure (default "" u) (default "" v) (sc_delegationId x) a (pm_spend w)) as Hp.
  destruct (checkSpendLimit _ _ _ _ (pm_spend w)) as [[e | r] d] eqn:Hc; simpl in *; subst d.
  - split; [by destruct (String.eqb _ _) |]. intros (u' & v' & H' & Hok). rewrite Hids in H'. injection H' as <- <-.
    destruct (Hok Hu Hv) as (r & Hr & _). by rewrite Hc in Hr.
  - destruct (allowed r) eqn:Ha; simpl.
    + split; [intros _; exists u, v; split; [done |]; eauto | done].
    + split; [done |]. intros (u' & v' & H' & Hok). rewrite Hids in H'. injection H' as <- <-.
      destruct (Hok Hu Hv) as (r' & Hr & Har). rewrite Hc in Hr. injection Hr as <-. congruence.
Qed.

(** The spend check, exactly: [checkSpend] never returns false and changes nothing; it
    returns true if and only if the addresses are well formed, the amount is positive, a
    grant is read from the contract, the grant has not expired, the amount is within its
    limit, and the off-chain limits of the user's wallet, when it is known, allow the
    amount.  In every other case it throws. *)
Theorem check_spend_exact c o s amount x w b w' :
  checkSpend c o s amount x w = (inr b, w') ↔
  b = true ∧ w' = w ∧ ∃ owner contract spender a g,
    resolveOwner (Some o) None w = (inr owner, w) ∧ resolveContractId c w = (inr contract, w) ∧
    validateSpender s w = (inr spender, w) ∧ amount = Some a ∧
    get (Some contract) (Some owner) spender w = (inr (Some g), w) ∧
    0 < a ≤ pg_limit g ∧ (∀ t, pg_expiresAt g = Some t → sp_now (pm_spend w) < t) ∧ policy_allows x owner a w.
Proof.
  unfold checkSpend. split.
  - intros Hrest. apply read_inr in Hrest as (owner & Ho & Hrest); [| auto with evolve].
    apply read_inr in Hrest as (contract & Hc & Hrest); [| auto with evolve].
    apply read_inr in Hrest as (spender & Hs & Hrest); [| auto with evolve].
    apply need_inr in Hrest as (a & -> & Hrest). apply guard_inr in Hrest as [Ha Hrest].
    apply read_inr in Hrest as (existing & Hg & Hrest); [| auto with evolve]. apply need_inr in Hrest as (g & -> & Hrest).
    rewrite (bind_run (gets _) _ w _ w eq_refl) in Hrest. apply guard_inr in Hrest as [He Hrest]. apply guard_inr in Hrest as [Hl Hrest].
    apply read_inr in Hrest as ([] & Hp & Hrest); [| auto with evolve]. injection Hrest as <- <-.
    split; [done |]. split; [done |]. exists owner, contract, spender, a, g. apply policy_check_exact in Hp.
    repeat (split; [done || lia |]). split; [| done]. intros t Ht. rewrite Ht in He. lia.
  - intros (-> & -> & owner & contract & spender & a & g & Ho & Hc & Hs & -> & Hg & Ha & He & Hp).
    apply read_inr; [auto with evolve |]. exists owner. split; [done |].
    apply read_inr; [auto with evolve |]. exists contract. split; [done |].
    apply read_inr; [auto with evolve |]. exists spender. split; [done |]. apply need_inr. exists a. split; [done |].
    apply guard_inr. split; [lia |]. apply read_inr; [auto with evolve |]. exists (Some g). split; [done |].
    apply need_inr. exists g. split; [done |]. rewrite (bind_run (gets _) _ w _ w eq_refl). apply guard_inr.
    split; [destruct (pg_expiresAt g) as [t |]; [specialize (He t eq_refl); lia | done] |]. apply guard_inr. split; [lia |].
    apply read_inr; [auto with evolve |]. exists (). split; [by apply policy_check_exact | done].
Qed.
End checks.

(** ** The contract

    docs/architecture/contracts.md: a [Permission] has the fields [delegator], [delegate],
    [limit], [spent], [expiry] and [created_at].  What the network has executed of the
    transactions that were sent determines the permissions. *)

Definition permission_value (o s : string) (l e spent created : Z) : native :=
  NObj [("delegator", NStr o); ("delegate", NStr s); ("limit", NBig l); ("spent", NBig spent); ("expiry", NBig e);
        ("created_at", NBig created)].

Definition contract_step (m : gmap (string * string * string) (Z * Z)) (tx : ptx) : gmap (string * string * string) (Z * Z) :=
  match pt_args tx with
  | [PAddress o; PAddress s; PI128 l; PU64 e] =>
      if String.eqb (pt_function tx) "grant_permission" then <[(pt_contract tx, o, s) := (l, e)]> m else m
  | [PAddress o; PAddress s] =>
      if String.eqb (pt_function tx) "revoke_permission" then delete (pt_contract tx, o, s) m else m
  | _ => m
  end.

Definition contract_state (txs : list ptx) : gmap (string * string * string) (Z * Z) := foldl contract_step ∅ txs.

(** What the service relies on: a read that is answered answers with the permission or
    with nothing, a transaction reported as successful has been executed, and values are
    converted as they are. *)
Class ContractLaws (PE : PermissionsEnv) (executed : list ptx → list ptx) := {
  law_read sent fee c o s r :
    rpc_simulate sent (invocation o "0" fee c "get_permission" [PAddress o; PAddress s]) = inr r → sm_error r = false →
      match contract_state (executed sent) !! (c, o, s) with
      | Some (l, e) => ∃ spent created, extractSimulationRetval r = Some (permission_value o s l e spent created)
      | None => extractSimulationRetval r = Some NNull
      end;
  law_confirmed sent tx sig h k :
    rpc_send sent tx sig = inr (SendHash h) → rpc_getTransaction (sent ++ [tx]) k h = inr TxSuccess →
    executed (sent ++ [tx]) = executed sent ++ [tx];
  law_i128 z p : toI128 z = inr p → p = PI128 z;
  law_u64 z p : toU64 z = inr p → p = PU64 z ∧ 0 ≤ z
}.

(** No read fails.  The service takes one that does for the absence of a grant
    ([revoke_hidden_by_outage]). *)
Class ReadsAnswered (PE : PermissionsEnv) : Prop :=
  reads_answered sent fee c o s :
    ∃ r, rpc_simulate sent (invocation o "0" fee c "get_permission" [PAddress o; PAddress s]) = inr r ∧ sm_error r = false.

Section effects.
Context `{PE : PermissionsEnv} `{SE : SpendEnv} (executed : list ptx → list ptx) `{!ContractLaws PE executed} `{!ReadsAnswered PE}.
Implicit Types w : pmworld.
Local Opaque isValidStellarPublicKey.

(** A resolved address resolves to itself. *)
Lemma owner_again a b w owner : resolveOwner a b w = (inr owner, w) → resolveOwner (Some owner) None w = (inr owner, w).
Proof.
  unfold resolveOwner. intros H. apply guard_inr in H as [H1 H]. apply guard_inr in H as [H2 H]. injection H as <-.
  apply guard_inr. simpl. rewrite trim_idem. apply negb_false_iff in H1.
  split; [| by apply guard_inr].
  apply negb_false_iff. destruct (coalesce b _) as [x |]; [| done]. exact H1.
Qed.

Lemma contract_again a w contract : resolveContractId a w = (inr contract, w) → resolveContractId (Some contract) w = (inr contract, w).
Proof.
  unfold resolveContractId. intros H. apply guard_inr in H as [H1 H]. injection H as <-. apply guard_inr. simpl. rewrite trim_idem.
  split; [| done]. apply negb_false_iff in H1. apply negb_false_iff. destruct (coalesce a _) as [x |]; [| done]. exact H1.
Qed.

Lemma spender_again a w spender : validateSpender a w = (inr spender, w) → validateSpender spender w = (inr spender, w).
Proof.
  unfold validateSpender. intros H. apply guard_inr in H as [H1 H]. apply guard_inr in H as [H2 H]. injection H as <-.
  apply guard_inr. rewrite trim_idem. split; [done |]. by apply guard_inr.
Qed.

(** These checks do not depend on the state. *)
Lemma owner_any a b w w' owner : resolveOwner a b w = (inr owner, w) → resolveOwner a b w' = (inr owner, w').
Proof. unfold resolveOwner. intros H. apply guard_inr in H as [H1 H]. apply guard_inr in H as [H2 H]. injection H as <-. by repeat (apply guard_inr; split; [done |]). Qed.
Lemma contract_any a w w' contract : resolveContractId a w = (inr contract, w) → resolveContractId a w' = (inr contract, w').
Proof. unfold resolveContractId. intros H. apply guard_inr in H as [H1 H]. injection H as <-. by apply guard_inr. Qed.
Lemma spender_any a w w' spender : validateSpender a w = (inr spender, w) → validateSpender a w' = (inr spender, w').
Proof. unfold validateSpender. intros H. apply guard_inr in H as [H1 H]. apply guard_inr in H as [H2 H]. injection H as <-. by repeat (apply guard_inr; split; [done |]). Qed.

Lemma permission_fee_run w : ∃ fee, getTransactionFee w = (inr fee, w).
Proof. unfold getTransactionFee, try_catch, getDynamicFee. run_unfold. destruct (estimateTransactionFee _); simpl; eauto. Qed.

(** What [get] reads. *)
Definition grant_of (contract spender : string) (p : Z * Z) : PermissionGrant := {|
  pg_contractId := contract; pg_spender := spender; pg_limit := p.1;
  pg_expiresAt := if p.2 =? 0 then None else Some (p.2 * 1000) |}.

Definition expiry_ok (p : Z * Z) : Prop := 0 ≤ p.2 ≤ 8640000000000.

Lemma parse_permission o s l e spent created contract w :
  s ≠ "" → 0 ≤ e ≤ 8640000000000 →
  parsePermissionGrant contract (permission_value o s l e spent created) (Some s) w = (inr (Some (grant_of contract s (l, e))), w).
Proof.
  intros Hs He. unfold parsePermissionGrant, permission_value. simpl. destruct (String.eqb_spec s ""); [done |].
  unfold formatExpiryToIso, grant_of. simpl. destruct (Z.eqb_spec e 0); simpl; [done |].
  destruct (Z.leb_spec e 0); [lia |]. unfold TimeClip. destruct (Z.leb_spec (Z.abs (e * 1000)) 8640000000000000); [done | lia].
Qed.

Lemma get_reads contract owner spender w r w1 w' :
  get (Some contract) (Some owner) spender w = (inr r, w1) →
  resolveOwner (Some owner) None w = (inr owner, w) → resolveContractId (Some contract) w = (inr contract, w) →
  validateSpender spender w = (inr spender, w) →
  (∀ p, contract_state (executed (pm_sent w')) !! (contract, owner, spender) = Some p → expiry_ok p) →
  get (Some contract) (Some owner) spender w' =
    (inr (grant_of contract spender <$> contract_state (executed (pm_sent w')) !! (contract, owner, spender)), w').
Proof.
  intros H Ho Hc Hs Hok. unfold get in *.
  rewrite (bind_run _ _ _ _ _ Ho), (bind_run _ _ _ _ _ Hc), (bind_run _ _ _ _ _ Hs) in H.
  rewrite (bind_run _ _ _ _ _ (owner_any _ _ _ w' _ Ho)), (bind_run _ _ _ _ _ (contract_any _ _ w' _ Hc)), (bind_run _ _ _ _ _ (spender_any _ _ w' _ Hs)).
  apply bind_inr in H as (tx & w2 & Hb & _).
  destruct (permission_fee_run w) as [fee0 Hf0]. destruct (permission_fee_run w') as [fee Hf].
  assert (build_read owner contract "get_permission" [PAddress owner; PAddress spender] w' =
          (inr (invocation owner "0" fee contract "get_permission" [PAddress owner; PAddress spender]), w')) as Hb'.
  { revert Hb. unfold build_read, build_op. rewrite (bind_run _ _ _ _ _ Hf0), (bind_run _ _ _ _ _ Hf). run_unfold. by destruct (op_error _ _ _). }
  rewrite (bind_run _ _ _ _ _ Hb'). unfold try_catch, query_grant. rewrite (bind_run (gets pm_sent) _ w' _ w' eq_refl).
  destruct (reads_answered (pm_sent w') fee contract owner spender) as (sr & Hr & He).
  pose proof (law_read _ _ _ _ _ _ Hr He) as Hv.
  rewrite Hr. rewrite (bind_run (answer (inr sr)) _ w' _ w' eq_refl), He.
  assert (spender ≠ "") as Hne.
  { intros ->. unfold validateSpender in Hs. by apply guard_inr in Hs as [Hs _]. }
  destruct (contract_state _ !! _) as [[l e] |]; [| by rewrite Hv].
  destruct Hv as (spent & created & ->). specialize (Hok _ eq_refl). simpl.
  by rewrite (parse_permission owner spender l e spent created contract w' Hne Hok).
Qed.

(** ** Writes *)

Lemma poll_confirms h n w w' :
  poll h n w = (inr (), w') → pm_sent w' = pm_sent w ∧ ∃ k, rpc_getTransaction (pm_sent w) k h = inr TxSuccess.
Proof.
  revert w. induction n as [| n IH]; intros w; simpl; [done |]. unfold wait, on_spend, zoom. run_unfold.
  destruct (rpc_getTransaction (pm_sent w) n h) as [e | [| res |]] eqn:Hq; [| | done |].
  - intros H. by apply IH in H.
  - intros [= <-]. split; [done | eauto].
  - intros H. by apply IH in H.
Qed.

Lemma version_recorded wallet v w w1 :
  recordSigningKeyVersion wallet v w = (inr (), w1) → ∃ row, w1 = PmWorld (pm_sent w) (pm_versions w ++ [row]) (pm_spend w).
Proof.
  unfold recordSigningKeyVersion. intros H. apply guard_inr in H as [_ H]. apply guard_inr in H as [_ H]. revert H.
  unfold insert_version. run_unfold. destruct (version_error _); [done |]. intros [= <-]. eauto.
Qed.

Lemma submit_write_confirmed what owner tx w h w1 :
  submit_write what owner tx w = (inr h, w1) →
  pm_sent w1 = pm_sent w ++ [tx] ∧ executed (pm_sent w1) = executed (pm_sent w) ++ [tx].
Proof.
  unfold submit_write. rewrite (bind_run (gets pm_sent) _ w _ w eq_refl). intros H.
  apply bind_inr in H as (sim & w2 & Hsim & H). assert (w2 = w) as -> by (by injection Hsim).
  destruct sim as [m |]; [done |]. rewrite (bind_run (mret ()) _ w _ w eq_refl) in H.
  apply bind_inr in H as ([] & w2 & Hv & H). apply version_recorded in Hv as [row ->].
  destruct (assemble_error tx); [done |]. rewrite (bind_run (mret ()) _ _ _ _ eq_refl) in H.
  apply bind_inr in H as (sig & w2 & Hsig & H). injection Hsig as _ <-.
  rewrite (bind_run (modify _) _ _ _ _ eq_refl) in H. apply bind_inr in H as (res & w2 & Hsend & H). injection Hsend as Hsend <-.
  destruct res as [json | hash]; [done |]. apply bind_inr in H as ([] & w3 & Hpoll & H). injection H as <- <-.
  apply poll_confirms in Hpoll as [Hs [k Hk]]. rewrite Hs. simpl in *. split; [done |]. by eapply law_confirmed.
Qed.

Lemma sequence_pure owner : evolves eq (loadSequenceNumber owner).
Proof. unfold loadSequenceNumber. evolve. Qed.

Lemma build_write_inr owner seq contract fn args w tx w1 :
  build_write owner seq contract fn args w = (inr tx, w1) → w1 = w ∧ ∃ fee, tx = invocation owner seq fee contract fn args.
Proof.
  unfold build_write, build_op. destruct (op_error _ _ _); [done |]. rewrite (bind_run (mret ()) _ w _ w eq_refl).
  destruct (permission_fee_run w) as [fee Hf]. rewrite (bind_run _ _ _ _ _ Hf). intros [= <- <-]. eauto.
Qed.

Definition date_ok (d : date_text) : Prop := match d with DateAt ms => Z.abs ms ≤ 8640000000000000 | _ => True end.

Lemma grant_sends input ow w h w1 :
  grant input ow w = (inr h, w1) →
  ∃ owner contract spender l e seq fee existing,
    resolveOwner ow (pi_owner input) w = (inr owner, w) ∧ resolveContractId (pi_contractId input) w = (inr contract, w) ∧
    validateSpender (pi_spender input) w = (inr spender, w) ∧ pi_limit input = Some l ∧ 0 ≤ l ∧ 0 ≤ e ∧
    (parseExpiryToSeconds (pi_expiresAt input) : M pmworld Z) w = (inr e, w) ∧
    get (Some contract) (Some owner) spender w = (inr existing, w) ∧
    let tx := invocation owner seq fee contract "grant_permission" [PAddress owner; PAddress spender; PI128 l; PU64 e] in
    pm_sent w1 = pm_sent w ++ [tx] ∧ executed (pm_sent w1) = executed (pm_sent w) ++ [tx].
Proof.
  unfold grant. intros H. apply read_inr in H as (owner & Ho & H); [| apply resolveOwner_pure].
  apply read_inr in H as (contract & Hc & H); [| apply resolveContractId_pure].
  apply read_inr in H as (spender & Hs & H); [| apply validateSpender_pure].
  apply need_inr in H as (l & Hl & H). apply guard_inr in H as [Hl0 H].
  apply read_inr in H as (e & He & H); [| unfold parseExpiryToSeconds; evolve].
  apply read_inr in H as (existing & Hg & H); [| apply get_pure].
  apply read_inr in H as ([] & _ & H); [| unfold parseExpiryToSeconds; evolve].
  apply read_inr in H as (seq & _ & H); [| apply sequence_pure].
  apply read_inr in H as (la & Hla & H); [| evolve]. apply read_inr in H as (ea & Hea & H); [| evolve].
  apply bind_inr in H as (tx & w2 & Htx & H). apply build_write_inr in Htx as [-> [fee ->]].
  injection Hla as Hla%law_i128. injection Hea as Hea%law_u64. destruct Hea as [-> He0]. subst la.
  apply submit_write_confirmed in H. exists owner, contract, spender, l, e, seq, fee, existing. repeat (split; [done || lia |]). done.
Qed.

Lemma contract_state_snoc txs tx : contract_state (txs ++ [tx]) = contract_step (contract_state txs) tx.
Proof. unfold contract_state. by rewrite foldl_snoc. Qed.

(** A revocation that returns found no grant, or its transaction was executed. *)
Lemma revoke_cases c s ow owner contract spender w w1 :
  resolveOwner ow None w = (inr owner, w) → resolveContractId c w = (inr contract, w) → validateSpender s w = (inr spender, w) →
  revoke c s ow w = (inr (), w1) →
  ∃ existing, get (Some contract) (Some owner) spender w = (inr existing, w) ∧
    (existing = None ∧ w1 = w ∨
     ∃ seq fee, executed (pm_sent w1) = executed (pm_sent w) ++ [invocation owner seq fee contract "revoke_permission" [PAddress owner; PAddress spender]]).
Proof.
  intros Ho Hc Hs H. unfold revoke in H. rewrite (bind_run _ _ _ _ _ Ho), (bind_run _ _ _ _ _ Hc), (bind_run _ _ _ _ _ Hs) in H.
  apply read_inr in H as (existing & Hg & H); [| apply get_pure]. exists existing. split; [done |].
  destruct existing as [g |]; [right | left; by injection H as <-].
  apply read_inr in H as (seq & _ & H); [| apply sequence_pure]. apply bind_inr in H as (tx & w2 & Htx & H).
  apply build_write_inr in Htx as [-> [fee ->]]. apply bind_inr in H as (h & w2 & Hw & H). injection H as <-.
  apply submit_write_confirmed in Hw as [_ Hex]. eauto.
Qed.

Lemma revoked_state owner seq fee contract spender txs txs' :
  txs' = txs ++ [invocation owner seq fee contract "revoke_permission" [PAddress owner; PAddress spender]] →
  contract_state txs' !! (contract, owner, spender) = None.
Proof. intros ->. rewrite contract_state_snoc. unfold contract_step. simpl. by rewrite lookup_delete_eq. Qed.

(** With readable expiries on the chain, revocations remove permissions and only remove. *)
Definition readable w : Prop := ∀ k p, contract_state (executed (pm_sent w)) !! k = Some p → expiry_ok p.
Definition only_removed w w1 : Prop := contract_state (executed (pm_sent w1)) ⊆ contract_state (executed (pm_sent w)).

#[local] Instance only_removed_preorder : PreOrder only_removed.
Proof. split; [intros w; unfold only_removed; reflexivity |]. unfold only_removed. intros w1 w2 w3 H1 H2. by etrans. Qed.

Lemma only_removed_readable w w1 : only_removed w w1 → readable w → readable w1.
Proof. intros Hsub Hr k p Hp. apply (Hr k). by eapply lookup_weaken. Qed.

Lemma revoke_gone c s ow owner contract spender w w1 :
  readable w → resolveOwner ow None w = (inr owner, w) → resolveContractId c w = (inr contract, w) →
  validateSpender s w = (inr spender, w) → revoke c s ow w = (inr (), w1) →
  contract_state (executed (pm_sent w1)) !! (contract, owner, spender) = None ∧ only_removed w w1.
Proof.
  intros Hr Ho Hc Hs H. destruct (revoke_cases _ _ _ _ _ _ _ _ Ho Hc Hs H) as (existing & Hg & [[-> ->] | (seq & fee & Hex)]).
  - split; [| done]. pose proof (get_reads contract owner spender w None w w Hg) as Hget. rewrite Hg in Hget.
    destruct (contract_state (executed (pm_sent w)) !! (contract, owner, spender)) as [p |] eqn:Hst; [exfalso | done].
    by specialize (Hget (owner_again _ _ _ _ Ho) (contract_again _ _ _ Hc) (spender_again _ _ _ Hs) (λ q Hq, Hr _ q ltac:(by rewrite Hst; exact Hq))).
  - split; [by eapply revoked_state |]. unfold only_removed. rewrite Hex, contract_state_snoc. unfold contract_step. simpl. apply delete_subseteq.
Qed.

Lemma validate_all_run spenders w l w' :
  validate_all spenders w = (inr l, w') → w' = w ∧ Forall2 (λ s x, validateSpender s w = (inr x, w)) spenders l.
Proof.
  revert l. induction spenders as [| s spenders IH]; intros l; simpl; [by intros [= <- <-] |]. intros H.
  apply read_inr in H as (x & Hx & H); [| apply validateSpender_pure]. apply bind_inr in H as (l' & w1 & Hl & H). injection H as <- <-.
  destruct (IH _ Hl) as [-> Hf]. split; [done |]. by constructor.
Qed.

Lemma revoke_each_gone owner contract spenders w w1 :
  readable w → resolveOwner (Some owner) None w = (inr owner, w) → resolveContractId (Some contract) w = (inr contract, w) →
  Forall (λ s, validateSpender s w = (inr s, w)) spenders →
  for_each spenders (λ s, revoke (Some contract) s (Some owner)) w = (inr (), w1) →
  only_removed w w1 ∧ ∀ s, s ∈ spenders → contract_state (executed (pm_sent w1)) !! (contract, owner, s) = None.
Proof.
  intros Hr Ho Hc Hall. revert w Hr Ho Hc Hall. induction spenders as [| s l IH]; intros w Hr Ho Hc Hall H.
  { injection H as <-. split; [done |]. by intros s ?%elem_of_nil. }
  apply Forall_cons in Hall as [Hs Hall]. simpl in H. apply bind_inr in H as ([] & w2 & H2 & H).
  destruct (revoke_gone _ _ _ _ _ _ _ _ Hr Ho Hc Hs H2) as [Hgone Hsub].
  destruct (IH w2) as [Hsub' Hrest]; [by eapply only_removed_readable | by eapply owner_any | by eapply contract_any | | done |].
  { eapply Forall_impl; [exact Hall |]. intros x Hx. exact (spender_any _ _ _ _ Hx). }
  split; [by etrans |]. intros x [-> | Hx]%elem_of_cons; [| by apply Hrest]. by eapply lookup_weaken_None.
Qed.

(** After a batch revocation that returns, none of the permissions is left. *)
Lemma revokeBatch_gone c spenders ow w w1 :
  readable w → revokeBatch c spenders ow w = (inr (), w1) → only_removed w w1 ∧
  ∀ s, s ∈ spenders → ∃ owner contract spender,
    resolveOwner ow None w = (inr owner, w) ∧ resolveContractId c w = (inr contract, w) ∧ validateSpender s w = (inr spender, w) ∧
    contract_state (executed (pm_sent w1)) !! (contract, owner, spender) = None.
Proof.
  intros Hr H. destruct spenders as [| s0 l0]; [injection H as <-; split; [done | by intros s ?%elem_of_nil] |].
  unfold revokeBatch in H. apply read_inr in H as (owner & Ho & H); [| apply resolveOwner_pure].
  apply read_inr in H as (contract & Hc & H); [| apply resolveContractId_pure]. apply bind_inr in H as (l & w2 & Hl & H).
  apply validate_all_run in Hl as [-> Hl].
  destruct (revoke_each_gone owner contract (uniq l) w w1) as [Hsub Hgone]; [done | by eapply owner_again | by eapply contract_again | | done |].
  { apply Forall_forall. intros x Hx. apply (proj1 (elem_of_uniq _ _)), list_elem_of_lookup_1 in Hx as [i Hi].
    destruct (Forall2_lookup_r _ _ _ _ _ Hl Hi) as (s & _ & Hs). by eapply spender_again. }
  split; [done |]. intros s Hs. apply list_elem_of_lookup_1 in Hs as [i Hi]. destruct (Forall2_lookup_l _ _ _ _ _ Hl Hi) as (x & Hx & Hv).
  exists owner, contract, x. repeat (split; [done |]). apply Hgone, elem_of_uniq. by eapply list_elem_of_lookup_2.
Qed.

Lemma expiry_range d w e : date_ok d → (parseExpiryToSeconds d : M pmworld Z) w = (inr e, w) → e ≤ 8640000000000.
Proof. destruct d; simpl; [by intros _ [= <-] | done |]. intros Hms [= <-]. apply Z.div_le_upper_bound; lia. Qed.

(** C33. Permissions take effect.  With the documented contract and reads that are
    answered, whatever else the node, the vault and the fee service answer: when [grant] returns, exactly one transaction
    was sent, with the owner, the spender, the limit and the expiry in seconds, and a
    lookup then reads that grant, its expiry rounded down to the second (none at all for
    the epoch itself); when [revoke] returns, a lookup reads no grant. *)
Theorem permissions_take_effect w :
  (∀ input ow h w1, grant input ow w = (inr h, w1) → date_ok (pi_expiresAt input) →
     ∃ owner contract spender l e seq fee,
       resolveOwner ow (pi_owner input) w = (inr owner, w) ∧ resolveContractId (pi_contractId input) w = (inr contract, w) ∧
       validateSpender (pi_spender input) w = (inr spender, w) ∧ pi_limit input = Some l ∧
       (parseExpiryToSeconds (pi_expiresAt input) : M pmworld Z) w = (inr e, w) ∧
       pm_sent w1 = pm_sent w ++
         [invocation owner seq fee contract "grant_permission" [PAddress owner; PAddress spender; PI128 l; PU64 e]] ∧
       get (Some contract) (Some owner) spender w1 = (inr (Some (grant_of contract spender (l, e))), w1)) ∧
  (∀ c s ow owner contract spender w1,
     resolveOwner ow None w = (inr owner, w) → resolveContractId c w = (inr contract, w) → validateSpender s w = (inr spender, w) →
     revoke c s ow w = (inr (), w1) → get (Some contract) (Some owner) spender w1 = (inr None, w1)).
Proof.
  split.
  - intros input ow h w1 H Hd.
    destruct (grant_sends _ _ _ _ _ H) as (owner & contract & spender & l & e & seq & fee & existing & Ho & Hc & Hs & Hl & Hl0 & He0 & He & Hg & Hsent & Hex).
    exists owner, contract, spender, l, e, seq, fee. repeat (split; [done |]).
    assert (contract_state (executed (pm_sent w1)) !! (contract, owner, spender) = Some (l, e)) as Hst.
    { rewrite Hex, contract_state_snoc. unfold contract_step. simpl. by rewrite lookup_insert_eq. }
    rewrite (get_reads contract owner spender w existing w w1 Hg); [by rewrite Hst | by eapply owner_again | by eapply contract_again | by eapply spender_again |].
    rewrite Hst. intros p [= <-]. split; [done |]. by eapply expiry_range.
  - intros c s ow owner contract spender w1 Ho Hc Hs H.
    destruct (revoke_cases _ _ _ _ _ _ _ _ Ho Hc Hs H) as (existing & Hg & [[-> ->] | (seq & fee & Hex)]); [done |].
    apply revoked_state in Hex as Hst.
    rewrite (get_reads contract owner spender w existing w w1 Hg); [by rewrite Hst | by eapply owner_again | by eapply contract_again | by eapply spender_again |].
    by rewrite Hst.
Qed.
End effects.

(** ** Runs *)

Definition no_answer : sim_reply := Build_sim_reply false None None (Some NNull).

(** A node that executes everything; [spent] and [down] vary its answers to reads. *)
Definition demo_node (spent : Z) (down : bool) : PermissionsEnv := {|
  isValidEd25519SecretSeed := λ s, String.prefix "S" s; isValidEd25519PublicKey := λ s, String.prefix "G" s;
  deps_defaultOwner := None; PERMISSIONS_OWNER_ADDRESS := None; WALLET_SOURCE_ADDRESS := None;
  deps_defaultContractId := None; SOROBAN_PERMISSIONS_CONTRACT_ID := None; PERMISSIONS_CONTRACT_ID := None;
  loadAccount := λ _ _, inr "1"; estimateTransactionFee := λ _, inl (Error "Horizon");
  toI128 := λ z, inr (PI128 z); toU64 := λ z, if z <? 0 then inl (Error "u64") else inr (PU64 z);
  op_error := λ _ _ _, None;
  rpc_simulate := λ sent tx,
    if down then inl (Error "timeout") else
    inr match pt_args tx with
        | [PAddress o; PAddress s] =>
            match contract_state sent !! (pt_contract tx, o, s) with
            | Some (l, e) => Build_sim_reply false (Some (permission_value o s l e spent 0)) None None
            | None => no_answer
            end
        | _ => no_answer
        end;
  simulateTransaction := λ _ _, inr None; assemble_error := λ _, None; WALLET_ACTIVE_KEY_VERSION := None; version_error := λ _, None;
  keySigner_sign := λ _ _, inr "sig"; rpc_send := λ _ _ _, inr (SendHash "hash"); rpc_getTransaction := λ _ _ _, inr TxSuccess
|}.

#[export] Instance demo_node_laws spent : ContractLaws (demo_node spent false) id.
Proof.
  split.
  - intros sent fee c o s r. simpl. destruct (contract_state sent !! (c, o, s)) as [[l e] |] eqn:Hst; intros [= <-] _; [| done].
    by exists spent, 0.
  - done.
  - by intros z p [= <-].
  - intros z p. simpl. destruct (z <? 0) eqn:Hz; [done |]. intros [= <-]. split; [done | lia].
Qed.

#[export] Instance demo_reads_answered spent : ReadsAnswered (demo_node spent false).
Proof. intros sent fee c o s. simpl. destruct (contract_state sent !! (c, o, s)) as [[l e] |]; by eexists. Qed.

Definition demo_spend : SpendEnv := {| db_error := λ _, None; redis_error := λ _, None |}.
Definition no_permissions : pmworld := PmWorld [] [] (SpDb [] [] ∅ 1000000).
Definition demo_grant : PermissionGrantInput := {|
  pi_contractId := Some "CPERM"; pi_spender := "GAGENT"; pi_limit := Some 100; pi_expiresAt := DateAt 2000500; pi_owner := Some "GOWNER" |}.
Definition no_context : SpendPolicyContext := Build_SpendPolicyContext None None None.

(** The state after granting 100 stroops to the agent. *)
Definition granted : pmworld := (@grant (demo_node 0 false) demo_grant None no_permissions).2.

Lemma permissions_take_effect_witness :
  ∃ owner contract spender l e,
    @get (demo_node 0 false) (Some contract) (Some owner) spender granted = (inr (Some (grant_of contract spender (l, e))), granted) ∧
    l = 100 ∧ e = 2000.
Proof.
  destruct (proj1 (@permissions_take_effect (demo_node 0 false) id _ _ no_permissions) demo_grant None "hash" granted
    ltac:(vm_compute; reflexivity) ltac:(vm_compute; discriminate)) as (owner & contract & spender & l & e & seq & fee & _ & _ & _ & Hl & He & _ & Hg).
  exists owner, contract, spender, l, e. split; [exact Hg |]. split; [by injection Hl | by injection He].
Defined.

Lemma check_spend_exact_witness :
  @checkSpend (demo_node 0 false) demo_spend (Some "CPERM") "GOWNER" "GAGENT" (Some 60) no_context granted = (inr true, granted).
Proof.
  apply (@check_spend_exact (demo_node 0 false) demo_spend (Some "CPERM") "GOWNER" "GAGENT" (Some 60) no_context granted true granted).
  split; [reflexivity |]. split; [reflexivity |].
  exists "GOWNER", "CPERM", "GAGENT", 60, (grant_of "CPERM" "GAGENT" (100, 2000)).
  do 5 (split; [vm_compute; reflexivity |]). split; [vm_compute; split; [reflexivity | discriminate] |].
  split; [intros t Ht; vm_compute in Ht; injection Ht as <-; vm_compute; reflexivity |].
  exists None, None. split; [vm_compute; reflexivity | discriminate].
Defined.

(** An unreachable node reads as "no grant", so [revoke] reports success while the
    permission stays. *)
Theorem revoke_hidden_by_outage :
  ∃ w1, @revoke (demo_node 0 true) (Some "CPERM") "GAGENT" (Some "GOWNER") granted = (inr (), w1) ∧ pm_sent w1 = pm_sent granted ∧
    contract_state (pm_sent w1) !! ("CPERM", "GOWNER", "GAGENT") = Some (100, 2000).
Proof. eexists. split; [vm_compute; reflexivity |]. vm_compute. done. Qed.

(** The amount already spent under a grant is not subtracted from its limit. *)
Theorem spent_amount_ignored :
  (@checkSpend (demo_node 100 false) demo_spend (Some "CPERM") "GOWNER" "GAGENT" (Some 100) no_context granted).1 = inr true.
Proof. vm_compute. reflexivity. Qed.

(** A permission whose expiry lies beyond the range of [Date] reads as no grant at all. *)
Theorem far_expiry_hides_grant :
  let tx := invocation "GOWNER" "1" "100" "CPERM" "grant_permission" [PAddress "GOWNER"; PAddress "GAGENT"; PI128 100; PU64 (2 ^ 64 - 1)] in
  (@get (demo_node 0 false) (Some "CPERM") (Some "GOWNER") "GAGENT" (PmWorld [tx] [] (pm_spend granted))).1 = inr None.
Proof. vm_compute. reflexivity. Qed.
