(* ===== verification/Tasks.v ===== *)
(** * Human tasks (apps/backend/orchestrator/src/tasks/)

    - types.ts and packages/types/src/human-task.ts: the records;
    - memory-store.ts: [InMemoryTaskStore], whose objects are copied in and out;
    - routing.ts: the choice of an assignee;
    - service.ts: the operations of [TaskService] and the validation of form data;
    - sla.ts: the scan for overdue tasks.

    Hours are whole numbers.  An event reaches the hook and the broker or is lost without
    effect; the events are logged. *)
From S2P Require Import Prelude JsLib JsCollections Calendar Fingerprint.
Local Open Scope Z_scope.

(** ** Records *)

Inductive HumanTaskType := ty_approval | ty_review | ty_data_entry | ty_verification | ty_exception.
Inductive TaskPriority := pri_low | pri_medium | pri_high | pri_urgent.
Inductive HumanTaskStatus :=
  | t_created | t_assigned | t_claimed | t_in_progress | t_completed | t_rejected | t_escalated | t_expired.

#[export] Instance HumanTaskStatus_eq_dec : EqDecision HumanTaskStatus.
Proof. solve_decision. Defined.
#[export] Instance TaskPriority_eq_dec : EqDecision TaskPriority.
Proof. solve_decision. Defined.
#[export] Instance HumanTaskType_eq_dec : EqDecision HumanTaskType.
Proof. solve_decision. Defined.

Definition task_type_name (t : HumanTaskType) : string :=
  match t with
  | ty_approval => "approval" | ty_review => "review" | ty_data_entry => "data_entry" | ty_verification => "verification"
  | ty_exception => "exception"
  end.

Definition task_status_name (s : HumanTaskStatus) : string :=
  match s with
  | t_created => "created" | t_assigned => "assigned" | t_claimed => "claimed" | t_in_progress => "in_progress"
  | t_completed => "completed" | t_rejected => "rejected" | t_escalated => "escalated" | t_expired => "expired"
  end.

Notation form := (list (string * json)) (only parsing).

Record HumanTask := {
  tk_id : string; tk_workflowId : string; tk_workflowType : string; tk_type : HumanTaskType; tk_title : string;
  tk_description : string; tk_priority : TaskPriority; tk_assignee : option string; tk_candidates : list string;
  tk_status : HumanTaskStatus; tk_formSchema : option json; tk_formData : option form; tk_slaHours : Z; tk_createdAt : Z;
  tk_assignedAt : option Z; tk_claimedAt : option Z; tk_completedAt : option Z; tk_dueAt : Z
}.

Record CreateTaskInput := {
  ci_workflowId : string; ci_workflowType : string; ci_type : option HumanTaskType; ci_title : string;
  ci_description : option string; ci_priority : option TaskPriority; ci_candidates : option (list string);
  ci_assignee : option string; ci_formSchema : option json; ci_formData : option form; ci_slaHours : option Z
}.

Inductive RoutingStrategy := rs_round_robin | rs_least_loaded | rs_skill_based | rs_priority | rs_specific_user.

Definition strategyLabel (s : RoutingStrategy) : string :=
  match s with
  | rs_round_robin => "round_robin" | rs_least_loaded => "least_loaded" | rs_skill_based => "skill_based"
  | rs_priority => "priority" | rs_specific_user => "specific_user"
  end.

(** [config]: the entries the strategies read; weights are integers. *)
Record RoutingConfig := { cfg_weights : option (jsmap Z); cfg_priority : option TaskPriority; cfg_assignee : option string }.

Record TaskRoutingRule := {
  rr_id : string; rr_workflowType : string; rr_taskType : string; rr_strategy : RoutingStrategy; rr_config : RoutingConfig;
  rr_fallbackAssignee : string
}.

Record RoutingContext := {
  rx_candidates : list string; rx_taskType : HumanTaskType; rx_priority : TaskPriority; rx_workflowType : string;
  rx_loadByAssignee : jsmap Z; rx_cursor : option (jsmap Z); rx_skills : jsmap (list string)
}.

Record TaskComment := { tc_id : string; tc_taskId : string; tc_authorId : string; tc_body : string; tc_createdAt : Z }.
Record TaskAttachment := {
  ta_id : string; ta_taskId : string; ta_fileName : string; ta_mimeType : string; ta_sizeBytes : Z; ta_storageKey : string;
  ta_uploadedBy : string; ta_createdAt : Z
}.
Record TaskDelegation := { td_taskId : string; td_fromAssignee : string; td_toAssignee : option string; td_reason : option string }.

Definition TaskValidationError (m : string) : exn := Exn "TaskValidationError" m.
Definition TaskNotFoundError (m : string) : exn := Exn "TaskNotFoundError" m.
Definition TaskStateError (m : string) : exn := Exn "TaskStateError" m.
Definition TaskRoutingRuleError (m : string) : exn := Exn "TaskRoutingRuleError" m.

(** ** Updates of a task object *)

Definition set_progress (status : HumanTaskStatus) (assignee : option string) (assigned claimed completed : option Z) (t : HumanTask)
    : HumanTask := {|
  tk_id := tk_id t; tk_workflowId := tk_workflowId t; tk_workflowType := tk_workflowType t; tk_type := tk_type t;
  tk_title := tk_title t; tk_description := tk_description t; tk_priority := tk_priority t; tk_assignee := assignee;
  tk_candidates := tk_candidates t; tk_status := status; tk_formSchema := tk_formSchema t; tk_formData := tk_formData t;
  tk_slaHours := tk_slaHours t; tk_createdAt := tk_createdAt t; tk_assignedAt := assigned; tk_claimedAt := claimed;
  tk_completedAt := completed; tk_dueAt := tk_dueAt t |}.

Definition set_formData (d : option form) (t : HumanTask) : HumanTask := {|
  tk_id := tk_id t; tk_workflowId := tk_workflowId t; tk_workflowType := tk_workflowType t; tk_type := tk_type t;
  tk_title := tk_title t; tk_description := tk_description t; tk_priority := tk_priority t; tk_assignee := tk_assignee t;
  tk_candidates := tk_candidates t; tk_status := tk_status t; tk_formSchema := tk_formSchema t; tk_formData := d;
  tk_slaHours := tk_slaHours t; tk_createdAt := tk_createdAt t; tk_assignedAt := tk_assignedAt t; tk_claimedAt := tk_claimedAt t;
  tk_completedAt := tk_completedAt t; tk_dueAt := tk_dueAt t |}.

(** [task.status = s] *)
Definition set_status (s : HumanTaskStatus) (t : HumanTask) : HumanTask :=
  set_progress s (tk_assignee t) (tk_assignedAt t) (tk_claimedAt t) (tk_completedAt t) t.

(** ** routing.ts *)

Definition nonblank (s : string) : bool := negb (String.eqb (trim s) "").

Definition requireCandidates {S} (rule : TaskRoutingRule) (ctx : RoutingContext) : M S (list string) :=
  let pool := List.filter nonblank (rx_candidates ctx) in
  match pool with
  | [] => throw (TaskRoutingRuleError ("routing (" +:+ strategyLabel (rr_strategy rule) +:+ "): no candidates supplied for " +:+
                                       task_type_name (rx_taskType ctx)))
  | _ => mret pool
  end.

Definition load_of (ctx : RoutingContext) (c : string) : Z := default 0 (jget c (rx_loadByAssignee ctx)).

(** The loop that keeps the first candidate of the best score: [better s b] tells whether
    the score [s] beats the best so far, [None] being the initial infinity. *)
Definition pick (score : string → Z) (better : Z → Z → bool) (pool : list string) (first : string) : string :=
  (foldl (λ b c, match b.2 with
                 | Some s => if better (score c) s then (c, Some (score c)) else b
                 | None => (c, Some (score c))
                 end) (first, None : option Z) pool).1.

Definition roundRobinAssign {S} (rule : TaskRoutingRule) (ctx : RoutingContext) : M S string :=
  pool ← requireCandidates rule ctx;
  let key := rx_workflowType ctx +:+ ":" +:+ task_type_name (rx_taskType ctx) in
  let cursor := default [] (rx_cursor ctx) in
  let idx := default 0 (jget key cursor) mod Z.of_nat (length pool) in
  mret (default "" (pool !! Z.to_nat idx)).

Definition leastLoadedAssign {S} (rule : TaskRoutingRule) (ctx : RoutingContext) : M S string :=
  pool ← requireCandidates rule ctx;
  mret (pick (load_of ctx) Z.ltb pool (default "" (head pool))).

Definition priorityOrder (p : TaskPriority) : Z :=
  match p with pri_low => 0 | pri_medium => 1 | pri_high => 2 | pri_urgent => 3 end.

(** FNV-1a on 32 bits *)
Definition hashIndex (seed : string) (len : Z) : Z :=
  foldl (λ h c, (Z.lxor h (Z.of_N (Ascii.N_of_ascii c)) * 16777619) mod 2 ^ 32) 2166136261 (chars seed) mod len.

Definition skillBasedAssign {S} (rule : TaskRoutingRule) (ctx : RoutingContext) : M S string :=
  pool ← requireCandidates rule ctx;
  let skilled := List.filter (λ c, bool_decide (task_type_name (rx_taskType ctx) ∈ default [] (jget c (rx_skills ctx)))) pool in
  let eligible := match skilled with [] => pool | _ => skilled end in
  let n := Z.of_nat (length eligible) in
  let idx := hashIndex (task_type_name (rx_taskType ctx) +:+ ":" +:+ dec n +:+ ":" +:+ default "" (head eligible)) n in
  mret (pick (load_of ctx) Z.ltb eligible (default "" (eligible !! Z.to_nat (idx mod n)))).

(** The score in hundredths: [w * (rank + 1) - load * 0.01]. *)
Definition priority_score (rule : TaskRoutingRule) (ctx : RoutingContext) (c : string) : Z :=
  let w := default 1 (cfg_weights (rr_config rule) ≫= jget c) in
  let rank := priorityOrder (default (rx_priority ctx) (cfg_priority (rr_config rule))) in
  100 * w * (rank + 1) - load_of ctx c.

Definition priorityAssign {S} (rule : TaskRoutingRule) (ctx : RoutingContext) : M S string :=
  pool ← requireCandidates rule ctx;
  mret (pick (priority_score rule ctx) (λ s b, b <? s) pool (default "" (head pool))).

Definition specificUserAssign {S} (rule : TaskRoutingRule) (ctx : RoutingContext) : M S string :=
  let target := default "" (cfg_assignee (rr_config rule)) in
  let listed := bool_decide (target ∈ rx_candidates ctx) in
  let none := match rx_candidates ctx with [] => true | _ => false end in
  if negb (String.eqb target "") && (none || listed) then mret target
  else if negb (String.eqb target "") && negb listed then
    throw (TaskRoutingRuleError ("routing (specific_user): assignee " +:+ quoted target +:+ " is not a candidate for " +:+
                                 rx_workflowType ctx +:+ "/" +:+ task_type_name (rx_taskType ctx)))
  else pool ← requireCandidates rule ctx; mret (default "" (head pool)).

Definition route_by {S} (rule : TaskRoutingRule) (ctx : RoutingContext) : M S string :=
  match rr_strategy rule with
  | rs_round_robin => roundRobinAssign rule ctx
  | rs_least_loaded => leastLoadedAssign rule ctx
  | rs_skill_based => skillBasedAssign rule ctx
  | rs_priority => priorityAssign rule ctx
  | rs_specific_user => specificUserAssign rule ctx
  end.

(** The assignee and the label of the strategy *)
Definition routeTask {S} (rule : TaskRoutingRule) (ctx : RoutingContext) : M S (string * string) :=
  let label := strategyLabel (rr_strategy rule) in
  r ← try_catch (a ← route_by rule ctx; mret (a, label))
    (λ err,
      if nonblank (rr_fallbackAssignee rule) then
        if negb (bool_decide (rr_fallbackAssignee rule ∈ rx_candidates ctx)) && match rx_candidates ctx with [] => false | _ => true end
        then throw err
        else mret (rr_fallbackAssignee rule, label +:+ ">fallback")
      else throw err);
  throw_if (String.eqb r.1 "") (TaskRoutingRuleError ("Routing strategy " +:+ label +:+ " returned no assignee"));;
  mret r.

(** ** memory-store.ts *)

Record tworld := TWorld {
  tw_tasks : jsmap HumanTask; tw_comments : jsmap (list TaskComment); tw_attachments : jsmap (list TaskAttachment);
  tw_rules : jsmap TaskRoutingRule; tw_delegations : list TaskDelegation; tw_uuids : nat;
  tw_events : list (string * HumanTask); tw_now : Z
}.

Definition put_task (t : HumanTask) (w : tworld) : tworld :=
  TWorld (jset (tk_id t) t (tw_tasks w)) (tw_comments w) (tw_attachments w) (tw_rules w) (tw_delegations w) (tw_uuids w)
    (tw_events w) (tw_now w).

(** The identifiers [randomUUID] draws, and the skills the service is configured with *)
Class TaskEnv := { task_uuid : nat → string; task_skills : jsmap (list string) }.

Definition rule_key (workflowType taskType : string) : string := workflowType +:+ ":" +:+ taskType.

(** Statuses that count as finished work *)
Definition ended (s : HumanTaskStatus) : bool :=
  match s with t_completed | t_rejected | t_expired => true | _ => false end.

Definition HOUR_MS : Z := 3600000.

Section store.
Context `{TE : TaskEnv}.

Definition iso_date (t : Z) : M tworld Z := some_or_throw (TimeClip t) (Exn "RangeError" "Invalid time value").

Definition store_create (input : CreateTaskInput) (type : HumanTaskType) : M tworld HumanTask :=
  now ← gets tw_now;
  n ← gets tw_uuids;
  let slaHours := default 24 (ci_slaHours input) in
  dueAt ← iso_date (now + slaHours * HOUR_MS);
  let given := truthy (ci_assignee input) in
  let task := {|
    tk_id := task_uuid n; tk_workflowId := ci_workflowId input; tk_workflowType := ci_workflowType input; tk_type := type;
    tk_title := ci_title input; tk_description := default "" (ci_description input); tk_priority := default pri_medium (ci_priority input);
    tk_assignee := ci_assignee input; tk_candidates := default [] (ci_candidates input);
    tk_status := if given then t_assigned else t_created; tk_formSchema := ci_formSchema input; tk_formData := ci_formData input;
    tk_slaHours := slaHours; tk_createdAt := now; tk_assignedAt := if given then Some now else None; tk_claimedAt := None;
    tk_completedAt := None; tk_dueAt := dueAt |} in
  modify (λ w, TWorld (jset (tk_id task) task (tw_tasks w)) (jset (tk_id task) [] (tw_comments w))
    (jset (tk_id task) [] (tw_attachments w)) (tw_rules w) (tw_delegations w) (S n) (tw_events w) (tw_now w));;
  mret task.

Definition store_get (id : string) : M tworld (option HumanTask) := gets (λ w, jget id (tw_tasks w)).

Definition store_update (task : HumanTask) : M tworld HumanTask :=
  existing ← store_get (tk_id task);
  throw_if (bool_decide (existing = None)) (Error ("Task not found: " +:+ tk_id task));;
  modify (put_task task);;
  mret task.

Definition store_claim (taskId assignee : string) : M tworld (option HumanTask) :=
  existing ← store_get taskId;
  match existing with
  | None => mret None
  | Some task =>
      if negb (bool_decide (tk_assignee task = Some assignee)) then mret None
      else if negb (bool_decide (tk_status task = t_assigned)) && negb (bool_decide (tk_status task = t_created)) then mret None
      else
        now ← gets tw_now;
        let assigned := match tk_assignedAt task with Some t => Some t | None => Some now end in
        let claimed := set_progress t_claimed (Some assignee) assigned (Some now) (tk_completedAt task) task in
        modify (put_task claimed);;
        mret (Some claimed)
  end.

Definition store_addComment (taskId authorId body : string) : M tworld TaskComment :=
  existing ← store_get taskId;
  throw_if (bool_decide (existing = None)) (Error ("Task not found: " +:+ taskId));;
  n ← gets tw_uuids;
  now ← gets tw_now;
  let comment := {| tc_id := task_uuid n; tc_taskId := taskId; tc_authorId := authorId; tc_body := body; tc_createdAt := now |} in
  modify (λ w, TWorld (tw_tasks w) (jset taskId (default [] (jget taskId (tw_comments w)) ++ [comment]) (tw_comments w))
    (tw_attachments w) (tw_rules w) (tw_delegations w) (S n) (tw_events w) (tw_now w));;
  mret comment.

Definition store_addAttachment (taskId fileName mimeType : string) (sizeBytes : Z) (storageKey uploadedBy : string)
    : M tworld TaskAttachment :=
  existing ← store_get taskId;
  throw_if (bool_decide (existing = None)) (Error ("Task not found: " +:+ taskId));;
  n ← gets tw_uuids;
  now ← gets tw_now;
  let attachment := {| ta_id := task_uuid n; ta_taskId := taskId; ta_fileName := fileName; ta_mimeType := mimeType; ta_sizeBytes := sizeBytes;
                       ta_storageKey := storageKey; ta_uploadedBy := uploadedBy; ta_createdAt := now |} in
  modify (λ w, TWorld (tw_tasks w) (tw_comments w)
    (jset taskId (default [] (jget taskId (tw_attachments w)) ++ [attachment]) (tw_attachments w)) (tw_rules w) (tw_delegations w)
    (S n) (tw_events w) (tw_now w));;
  mret attachment.

Definition getRoutingRule (workflowType taskType : string) : M tworld (option TaskRoutingRule) :=
  gets (λ w, jget (rule_key workflowType taskType) (tw_rules w)).

Definition upsertRoutingRule (rule : TaskRoutingRule) : M tworld TaskRoutingRule :=
  modify (λ w, TWorld (tw_tasks w) (tw_comments w) (tw_attachments w)
    (jset (rule_key (rr_workflowType rule) (rr_taskType rule)) rule (tw_rules w)) (tw_delegations w) (tw_uuids w) (tw_events w) (tw_now w));;
  mret rule.

Definition recordDelegation (d : TaskDelegation) : M tworld () :=
  modify (λ w, TWorld (tw_tasks w) (tw_comments w) (tw_attachments w) (tw_rules w) (tw_delegations w ++ [d]) (tw_uuids w)
    (tw_events w) (tw_now w)).

Definition countActiveByAssignee : M tworld (jsmap Z) :=
  gets (λ w, foldl (λ counts t,
    match tk_assignee t with
    | Some a => if truthy (Some a) && negb (ended (tk_status t)) then jset a (default 0 (jget a counts) + 1) counts else counts
    | None => counts
    end) [] (snd <$> tw_tasks w)).

(** [listForSlaScan] *)
Definition listForSlaScan : M tworld (list HumanTask) :=
  gets (λ w, List.filter (λ t, negb (ended (tk_status t))) (snd <$> tw_tasks w)).

(** ** Form data (service.ts)

    The fields of a schema have the types its TypeScript declaration gives them. *)

Definition json_key (v : json) : string := match v with JStr s => s | _ => canonicalJson v end.

Definition json_field (k : string) (v : json) : option json := match v with JObj l => jget k l | _ => None end.

Definition missing (v : option json) : bool :=
  match v with None | Some JNull => true | Some (JStr s) => String.eqb s "" | _ => false end.

(** The first failing check of one property, if any *)
Definition property_error (key : string) (prop value : json) : option string :=
  let type := match json_field "type" prop with Some (JStr s) => s | _ => "" end in
  let is_string := match value with JStr _ => true | _ => false end in
  let is_number := match value with JNum _ => true | _ => false end in
  let is_integer := match value with JNum t => bool_decide (is_Some (Number_integer t)) | _ => false end in
  let short := match json_field "minLength" prop, value with
               | Some (JNum n), JStr s => match Number_integer n with Some m => Z.of_nat (String.length s) <? m | None => false end
               | _, _ => false
               end in
  let must x := Some ("Field " +:+ quoted key +:+ " must be " +:+ x) in
  if String.eqb type "string" && negb is_string then must "a string"
  else if String.eqb type "number" && negb is_number then must "a number"
  else if String.eqb type "boolean" && negb match value with JBool _ => true | _ => false end then must "a boolean"
  else if String.eqb type "integer" && negb is_integer then must "an integer"
  else if String.eqb type "array" && negb match value with JArr _ => true | _ => false end then must "an array"
  else if String.eqb type "string" && short then
    Some ("Field " +:+ quoted key +:+ " must have at least " +:+
          match json_field "minLength" prop with Some (JNum n) => n | _ => "" end +:+ " characters")
  else None.

Definition validateFormData (formSchema : option json) (formData : option form) : list string :=
  match formSchema with
  | None => []
  | Some schema =>
      let value k := formData ≫= jget k in
      let required := match json_field "required" schema with Some (JArr l) => json_key <$> l | _ => [] end in
      let properties := match json_field "properties" schema with Some (JObj l) => l | _ => [] end in
      ((λ k, "Missing required field: " +:+ k) <$> List.filter (λ k, missing (value k)) required) ++
      omap (λ p, value p.1 ≫= property_error p.1 p.2) properties
  end.

(** ** TaskService (service.ts) *)

Definition emit (type : string) (task : HumanTask) : M tworld () :=
  modify (λ w, TWorld (tw_tasks w) (tw_comments w) (tw_attachments w) (tw_rules w) (tw_delegations w) (tw_uuids w)
    (tw_events w ++ [(type, task)]) (tw_now w)).

Definition requireTask (id : string) : M tworld HumanTask :=
  t ← store_get id; some_or_throw t (TaskNotFoundError ("Task not found: " +:+ id)).

(** [OPEN_STATUSES.has(s) || s === "escalated"] *)
Definition actionable (s : HumanTaskStatus) : bool :=
  match s with t_created | t_assigned | t_claimed | t_in_progress | t_escalated => true | _ => false end.

Definition assertOpen (task : HumanTask) (action : string) : M tworld () :=
  throw_if (negb (actionable (tk_status task)))
    (TaskStateError ("Cannot " +:+ action +:+ " task " +:+ tk_id task +:+ ": current status " +:+ quoted (task_status_name (tk_status task)) +:+
                     " is not actionable")).

(** The service never passes a cursor. *)
Definition buildRoutingContext (task : HumanTask) : M tworld RoutingContext :=
  loads ← countActiveByAssignee;
  mret {| rx_candidates := tk_candidates task; rx_taskType := tk_type task; rx_priority := tk_priority task;
          rx_workflowType := tk_workflowType task; rx_loadByAssignee := loads; rx_cursor := None; rx_skills := task_skills |}.

(** The assignee of a task created without one *)
Definition choose_assignee (input : CreateTaskInput) (task : HumanTask) : M tworld (option string) :=
  rule ← getRoutingRule (ci_workflowType input) (task_type_name (tk_type task));
  match rule with
  | Some rule =>
      ctx ← buildRoutingContext task;
      r ← routeTask rule ctx;
      mret (Some r.1)
  | None => mret (head (default [] (ci_candidates input)))
  end.

Definition createTask (input : CreateTaskInput) : M tworld HumanTask :=
  throw_if (String.eqb (ci_workflowId input) "" || String.eqb (ci_title input) "" || bool_decide (ci_type input = None))
    (TaskValidationError "workflowId, title and type are required");;
  task ← store_create input (default ty_approval (ci_type input));
  assignee ← (if truthy (ci_assignee input) then mret (ci_assignee input) else choose_assignee input task);
  if truthy assignee then
    now ← gets tw_now;
    let task' := set_progress t_assigned assignee (Some now) (tk_claimedAt task) (tk_completedAt task) task in
    store_update task';;
    emit "created" task';;
    emit "assigned" task';;
    mret task'
  else emit "created" task;; mret task.

Definition addComment (id authorId body : string) : M tworld TaskComment :=
  throw_if (String.eqb (trim body) "") (TaskValidationError "comment body is required");;
  requireTask id;;
  comment ← store_addComment id authorId body;
  task ← requireTask id;
  emit "commented" task;;
  mret comment.

Definition comment_if (id : string) (actorId : option string) (prefix : string) (reason : option string) : M tworld () :=
  if truthy reason then addComment id (default "system" actorId) (prefix +:+ default "" reason);; mret () else mret ().

Definition assignTask (id assignee : string) (actorId : option string) : M tworld HumanTask :=
  throw_if (String.eqb (trim assignee) "") (TaskValidationError "assignee is required");;
  task ← requireTask id;
  assertOpen task "assign";;
  now ← gets tw_now;
  let assigned := match tk_assignedAt task with Some t => Some t | None => Some now end in
  updated ← store_update (set_progress t_assigned (Some assignee) assigned None (tk_completedAt task) task);
  emit "assigned" updated;;
  addComment id (default "system" actorId) ("Task assigned to " +:+ assignee);;
  mret updated.

Definition claimTask (id assignee : string) : M tworld HumanTask :=
  throw_if (String.eqb assignee "") (TaskValidationError "assignee is required");;
  task ← requireTask id;
  throw_if (truthy (tk_assignee task) && negb (bool_decide (tk_assignee task = Some assignee)))
    (TaskStateError ("Task " +:+ id +:+ " is assigned to " +:+ default "" (tk_assignee task) +:+ ", cannot be claimed by " +:+ assignee));;
  claimed ← store_claim id assignee;
  match claimed with
  | None => throw (TaskStateError ("Task " +:+ id +:+ " could not be claimed (already claimed or no longer open)"))
  | Some t => emit "claimed" t;; mret t
  end.

Definition startTask (id : string) (assignee : option string) : M tworld HumanTask :=
  task ← requireTask id;
  throw_if (negb (bool_decide (tk_status task = t_claimed)) && negb (bool_decide (tk_status task = t_assigned)))
    (TaskStateError ("Task " +:+ id +:+ " must be claimed or assigned before starting"));;
  throw_if (truthy (tk_assignee task) && negb (bool_decide (tk_assignee task = assignee)))
    (TaskStateError ("Task " +:+ id +:+ " is assigned to " +:+ default "" (tk_assignee task) +:+ ", cannot be started by " +:+
                     default "undefined" assignee));;
  now ← gets tw_now;
  let claimed := match tk_claimedAt task with Some t => Some t | None => Some now end in
  let task' := set_progress t_in_progress (tk_assignee task) (tk_assignedAt task) claimed (tk_completedAt task) task in
  assertOpen task' "start";;
  updated ← store_update task';
  emit "started" updated;;
  mret updated.

Definition completeTask (id : string) (formData : option form) (actorId comment : option string) : M tworld HumanTask :=
  task ← requireTask id;
  assertOpen task "complete";;
  (match tk_formSchema task with
   | Some schema =>
       let errors := validateFormData (Some schema) formData in
       throw_if (negb (bool_decide (errors = []))) (TaskValidationError ("Form validation failed: " +:+ join "; " errors))
   | None => mret ()
   end);;
  now ← gets tw_now;
  comment_if id actorId "" comment;;
  let data := match formData with Some d => Some d | None => tk_formData task end in
  updated ← store_update
    (set_formData data (set_progress t_completed (tk_assignee task) (tk_assignedAt task) (tk_claimedAt task) (Some now) task));
  emit "completed" updated;;
  mret updated.

Definition rejectTask (id : string) (reason actorId : option string) : M tworld HumanTask :=
  task ← requireTask id;
  assertOpen task "reject";;
  now ← gets tw_now;
  updated ← store_update (set_progress t_rejected (tk_assignee task) (tk_assignedAt task) (tk_claimedAt task) (Some now) task);
  emit "rejected" updated;;
  comment_if id actorId "Rejected: " reason;;
  mret updated.

Definition escalateTask (id : string) (reason actorId : option string) : M tworld HumanTask :=
  task ← requireTask id;
  assertOpen task "escalate";;
  updated ← store_update (set_status t_escalated task);
  emit "escalated" updated;;
  comment_if id actorId "Escalated: " reason;;
  mret updated.

Definition delegateTask (id : string) (toAssignee : option string) (reason actorId : option string) : M tworld HumanTask :=
  task ← requireTask id;
  assertOpen task "delegate";;
  let from := default "unassigned" (tk_assignee task) in
  updated ← store_update (set_progress t_assigned toAssignee (tk_assignedAt task) None (tk_completedAt task) task);
  recordDelegation {| td_taskId := id; td_fromAssignee := from; td_toAssignee := toAssignee; td_reason := reason |};;
  emit "delegated" updated;;
  comment_if id actorId ("Delegated from " +:+ from +:+ " to " +:+ default "undefined" toAssignee +:+ ": ") reason;;
  mret updated.

Definition addAttachment (id fileName : string) (mimeType : option string) (sizeBytes : option Z) (storageKey uploadedBy : string)
    : M tworld TaskAttachment :=
  requireTask id;;
  throw_if (String.eqb fileName "" || String.eqb storageKey "") (TaskValidationError "fileName and storageKey are required");;
  attachment ← store_addAttachment id fileName (default "application/octet-stream" mimeType) (default 0 sizeBytes) storageKey uploadedBy;
  task ← requireTask id;
  emit "attached" task;;
  mret attachment.

(** [bulkOperation] *)
Inductive bulk_operation := BulkAssign | BulkClaim | BulkComplete | BulkReject | BulkEscalate | BulkDelegate | BulkStart.

Record BulkPayload := {
  bp_assignee : option string; bp_toAssignee : option string; bp_formData : option form; bp_reason : option string;
  bp_actorId : option string
}.

Definition bulk_one (operation : bulk_operation) (payload : BulkPayload) (id : string) : M tworld HumanTask :=
  match operation with
  | BulkAssign => assignTask id (default "" (bp_assignee payload)) (bp_actorId payload)
  | BulkClaim => claimTask id (default "" (bp_assignee payload))
  | BulkStart => startTask id (bp_assignee payload)
  | BulkComplete => completeTask id (bp_formData payload) (bp_actorId payload) (bp_reason payload)
  | BulkReject => rejectTask id (bp_reason payload) (bp_actorId payload)
  | BulkEscalate => escalateTask id (bp_reason payload) (bp_actorId payload)
  | BulkDelegate => delegateTask id (bp_toAssignee payload) (bp_reason payload) (bp_actorId payload)
  end.

Fixpoint bulkOperation (operation : bulk_operation) (ids : list string) (payload : BulkPayload)
    : M tworld (list string * list (string * string)) :=
  match ids with
  | [] => mret ([], [])
  | id :: ids' =>
      one ← try_catch (bulk_one operation payload id;; mret None) (λ err, mret (Some (exn_message err)));
      rest ← bulkOperation operation ids' payload;
      mret match one with
           | None => (id :: rest.1, rest.2)
           | Some e => (rest.1, (id, e) :: rest.2)
           end
  end.

(** ** sla.ts *)

Definition followUpDeadline (task : HumanTask) (graceHours : Z) : Z :=
  if bool_decide (tk_status task = t_escalated) then
    let lastUpdate := match tk_completedAt task with Some t => t | None =>
                      match tk_claimedAt task with Some t => t | None =>
                      match tk_assignedAt task with Some t => t | None => tk_createdAt task end end end in
    Z.max lastUpdate (tk_dueAt task) + graceHours * HOUR_MS
  else tk_dueAt task.

Record SlaScanResult := { sla_escalated : list string; sla_expired : list string; sla_checked : Z }.

(** One task of the scan: the change it makes, if any *)
Definition sla_change (graceHours now : Z) (task : HumanTask) : option HumanTask :=
  if negb (actionable (tk_status task)) then None
  else if now <=? followUpDeadline task graceHours then None
  else if bool_decide (tk_status task = t_escalated)
  then Some (set_progress t_expired (tk_assignee task) (tk_assignedAt task) (tk_claimedAt task) (Some now) task)
  else Some (set_progress t_escalated (tk_assignee task) (tk_assignedAt task) (tk_claimedAt task) None task).

Fixpoint scan_tasks (graceHours now : Z) (tasks : list HumanTask) : M tworld (list string * list string) :=
  match tasks with
  | [] => mret ([], [])
  | task :: tasks' =>
      match sla_change graceHours now task with
      | None => scan_tasks graceHours now tasks'
      | Some task' =>
          store_update task';;
          rest ← scan_tasks graceHours now tasks';
          mret (if bool_decide (tk_status task' = t_expired) then (rest.1, tk_id task :: rest.2) else (tk_id task :: rest.1, rest.2))
      end
  end.

Definition scanSla (graceHours : option Z) (now : Z) : M tworld SlaScanResult :=
  tasks ← listForSlaScan;
  r ← scan_tasks (default 24 graceHours) now tasks;
  mret {| sla_escalated := r.1; sla_expired := r.2; sla_checked := Z.of_nat (length tasks) |}.

Definition slaStatus (task : HumanTask) (now warningHours : Z) : string :=
  if ended (tk_status task) then "met"
  else if bool_decide (tk_status task = t_escalated) then "breached"
  else
    let remainingMs := tk_dueAt task - now in
    if remainingMs <? 0 then "breached" else if remainingMs <=? warningHours * HOUR_MS then "at_risk" else "ok".
End store.
