(* ===== verification/TasksCorrect.v ===== *)
(** * Correctness of human tasks

    The lifecycle of tasks over any history of service calls and scans, the exclusivity of
    a claim, and what the routing strategies choose. *)
From S2P Require Import Prelude JsLib JsCollections Calendar Fingerprint Tasks.
Local Open Scope Z_scope.

(** ** Changes of a task *)

Definition same_task (t t' : HumanTask) : Prop :=
  tk_id t' = tk_id t ∧ tk_workflowId t' = tk_workflowId t ∧ tk_type t' = tk_type t ∧ tk_candidates t' = tk_candidates t ∧
  tk_createdAt t' = tk_createdAt t ∧ tk_dueAt t' = tk_dueAt t.

Inductive change := ChAssign | ChClaim | ChStart | ChEnd | ChEscalate.

Definition changes (k : change) (t t' : HumanTask) : Prop :=
  same_task t t' ∧
  match k with
  | ChAssign => actionable (tk_status t) = true ∧ tk_status t' = t_assigned
  | ChClaim => (tk_status t = t_assigned ∨ tk_status t = t_created) ∧ tk_status t' = t_claimed ∧ tk_assignee t' = tk_assignee t
  | ChStart => (tk_status t = t_claimed ∨ tk_status t = t_assigned) ∧ tk_status t' = t_in_progress ∧ tk_assignee t' = tk_assignee t
  | ChEnd => actionable (tk_status t) = true ∧ ended (tk_status t') = true
  | ChEscalate => actionable (tk_status t) = true ∧ tk_status t' = t_escalated
  end.

(** Dates go with the status. *)
Definition task_ok (t : HumanTask) : Prop :=
  (tk_status t = t_claimed → is_Some (tk_assignee t)) ∧
  (tk_status t = t_claimed ∨ tk_status t = t_in_progress → is_Some (tk_claimedAt t)) ∧
  (ended (tk_status t) = true ↔ is_Some (tk_completedAt t)).

Section correct.
Context `{TE : TaskEnv} `{!Inj (=) (=) task_uuid}.
Implicit Types w : tworld.

Definition tasks_wf w : Prop :=
  NoDup (jkeys (tw_tasks w)) ∧ ∀ id t, jget id (tw_tasks w) = Some t → tk_id t = id ∧ (∃ n, (n < tw_uuids w)%nat ∧ id = task_uuid n) ∧ task_ok t.

Lemma fresh_id w t n : tasks_wf w → (tw_uuids w ≤ n)%nat → jget (task_uuid n) (tw_tasks w) = Some t → False.
Proof. intros [_ H] Hn Ht. destruct (H _ _ Ht) as (_ & (m & Hm & Heq) & _). apply (inj task_uuid) in Heq. lia. Qed.

(** ** Programs that move tasks along a preorder *)

Section along.
Context (Q : HumanTask → HumanTask → Prop) `{!PreOrder Q}.

Definition life w w' : Prop :=
  tasks_wf w → tasks_wf w' ∧ (tw_uuids w ≤ tw_uuids w')%nat ∧
  ∀ id t, jget id (tw_tasks w) = Some t → ∃ t', jget id (tw_tasks w') = Some t' ∧ Q t t'.

#[local] Instance life_preorder : PreOrder life.
Proof.
  split.
  - intros w H. split; [done |]. split; [done |]. intros id t Ht. by exists t.
  - intros w1 w2 w3 H12 H23 H1. destruct (H12 H1) as (H2 & U12 & G12). destruct (H23 H2) as (H3 & U23 & G23).
    split; [done |]. split; [lia |]. intros id t Ht. destruct (G12 _ _ Ht) as (t2 & Ht2 & Hm).
    destruct (G23 _ _ Ht2) as (t3 & Ht3 & Hm'). exists t3. split; [done | by etrans].
Qed.

Lemma same_tasks_life w w' : tw_tasks w' = tw_tasks w → (tw_uuids w ≤ tw_uuids w')%nat → life w w'.
Proof.
  intros Ht Hu [Hnd H]. split; [split; [by rewrite Ht |] | split; [done |]].
  - intros id t. rewrite Ht. intros Hid. destruct (H id t Hid) as (H1 & (n & Hn & Hid') & H3).
    split; [done |]. split; [exists n; split; [lia | done] | done].
  - intros id t Hid. exists t. by rewrite Ht.
Qed.

(** Reads. *)
Lemma store_get_life id : evolves life (store_get id).
Proof. intros w. by apply same_tasks_life. Qed.
Lemma requireTask_life id : evolves life (requireTask id).
Proof. unfold requireTask. apply evolves_bind; [apply _ | apply store_get_life |]. intros t. evolve. Qed.
Lemma assertOpen_life t a : evolves life (assertOpen t a).
Proof. unfold assertOpen. evolve. Qed.

(** Writes elsewhere. *)
Lemma emit_life type t : evolves life (emit type t).
Proof. intros w. by apply same_tasks_life. Qed.
Lemma delegation_life d : evolves life (recordDelegation d).
Proof. intros w. by apply same_tasks_life. Qed.
Lemma store_addComment_life id a b : evolves life (store_addComment id a b).
Proof.
  intros w. unfold store_addComment, store_get. run_unfold. destruct (bool_decide _); apply same_tasks_life; simpl; (done || lia).
Qed.
Lemma store_addAttachment_life id a b c d e : evolves life (store_addAttachment id a b c d e).
Proof.
  intros w. unfold store_addAttachment, store_get. run_unfold. destruct (bool_decide _); apply same_tasks_life; simpl; (done || lia).
Qed.
Hint Resolve requireTask_life assertOpen_life emit_life delegation_life store_addComment_life store_addAttachment_life : evolve.

Lemma addComment_life id a b : evolves life (addComment id a b).
Proof. unfold addComment. evolve. Qed.
Hint Resolve addComment_life : evolve.
Lemma comment_if_life id a p r : evolves life (comment_if id a p r).
Proof. unfold comment_if. evolve. Qed.
Lemma addAttachment_life id a b c d e : evolves life (addAttachment id a b c d e).
Proof. unfold addAttachment. evolve. Qed.
Hint Resolve comment_if_life addAttachment_life : evolve.
Lemma upsert_life rule : evolves life (upsertRoutingRule rule).
Proof. unfold upsertRoutingRule. evolve. apply evolves_modify. intros w. by apply same_tasks_life. Qed.

(** A write of a task that is stored. *)
Lemma put_life t t' w :
  jget (tk_id t) (tw_tasks w) = Some t → tk_id t' = tk_id t → task_ok t' → Q t t' → life w (put_task t' w).
Proof.
  intros Ht Hid Hok HQ [Hnd H]. destruct (H _ _ Ht) as (_ & Hn & _). split; [split; [by apply NoDup_jset |] | split; [done |]].
  - intros id x. simpl. rewrite Hid, jget_jset. case_decide as Hd; [| apply H]. intros [= <-]. by subst id.
  - intros id x Hx. simpl. rewrite Hid, jget_jset. case_decide as Hd; [| by exists x].
    subst id. rewrite Ht in Hx. injection Hx as <-. by exists t'.
Qed.

Lemma update_life {A} t t' (k : HumanTask → M tworld A) w :
  jget (tk_id t) (tw_tasks w) = Some t → tk_id t' = tk_id t → task_ok t' → Q t t' → (∀ a, evolves life (k a)) →
  life w ((store_update t' ≫= k) w).2.
Proof.
  intros Ht Hid Hok HQ Hk. apply evolves_from; [apply _ | | done]. unfold store_update, store_get. run_unfold.
  rewrite Hid, Ht. simpl. by eapply put_life.
Qed.

(** The programs that read a task, check and write it. *)
Lemma require_then {A} id (k : HumanTask → M tworld A) w :
  (∀ t, jget id (tw_tasks w) = Some t → tk_id t = id → task_ok t → life w (k t w).2) → life w ((requireTask id ≫= k) w).2.
Proof.
  intros Hk H. unfold requireTask, store_get. run_unfold. destruct (jget id (tw_tasks w)) as [t |] eqn:Ht; simpl.
  - destruct H as [Hnd H]. destruct (H _ _ Ht) as (Hid & _ & Hok). by apply Hk.
  - split; [done |]. split; [done |]. intros id' t' Ht'. by exists t'.
Qed.

Lemma guard_then {A} b e (k : () → M tworld A) w : (b = false → life w (k () w).2) → life w ((throw_if b e ≫= k) w).2.
Proof. intros Hk. destruct b; [change (life w w); reflexivity | by apply Hk]. Qed.

Lemma open_then {A} t a (k : () → M tworld A) w : (actionable (tk_status t) = true → life w (k () w).2) → life w ((assertOpen t a ≫= k) w).2.
Proof. intros Hk. apply guard_then. intros Hb. apply Hk. by apply negb_false_iff. Qed.

Lemma gets_then {A B} (f : tworld → B) (k : B → M tworld A) w : life w (k (f w) w).2 → life w ((gets f ≫= k) w).2.
Proof. done. Qed.

(** ** The operations *)

Definition along (k : change) (id : string) : Prop := ∀ t t', tk_id t = id → changes k t t' → Q t t'.

Lemma open_not_ended s : actionable s = true → ended s = false.
Proof. by destruct s. Qed.

(** No completion date before the end. *)
Lemma open_no_date t : task_ok t → actionable (tk_status t) = true → tk_completedAt t = None.
Proof.
  intros (_ & _ & Hc) Ho. apply open_not_ended in Ho. destruct (tk_completedAt t); [| done].
  destruct Hc as [_ Hc]. rewrite Hc in Ho by done. done.
Qed.

Lemma no_date (o : option Z) : o = None → false = true ↔ is_Some o.
Proof. intros ->. split; [done | by intros [? ?]]. Qed.

Lemma assignTask_life id a act : along ChAssign id → evolves life (assignTask id a act).
Proof.
  intros HQ w. apply guard_then. intros _. apply require_then. intros t Ht Hid Hok. apply open_then. intros Ho.
  apply gets_then. cbv zeta. eapply update_life; [by rewrite Hid | done | | apply HQ; [done | by repeat split] | intros a'; evolve].
  repeat split; simpl; try (by intros []); try done. by apply no_date, open_no_date.
Qed.

Lemma delegateTask_life id a r act : along ChAssign id → evolves life (delegateTask id a r act).
Proof.
  intros HQ w. apply require_then. intros t Ht Hid Hok. apply open_then. intros Ho. cbv zeta.
  eapply update_life; [by rewrite Hid | done | | apply HQ; [done | by repeat split] | intros a'; evolve].
  repeat split; simpl; try (by intros []); try done. by apply no_date, open_no_date.
Qed.

Lemma claimTask_life id a : along ChClaim id → evolves life (claimTask id a).
Proof.
  intros HQ w. apply guard_then. intros _. apply require_then. intros t Ht Hid Hok. apply guard_then. intros _.
  apply evolves_from; [apply _ | | intros [t' |]; evolve]. unfold store_claim, store_get. run_unfold. rewrite Ht.
  destruct (negb (bool_decide (tk_assignee t = Some a))) eqn:Ha; [reflexivity |].
  destruct (negb _ && negb _) eqn:Hs; [reflexivity |]. apply negb_false_iff, bool_decide_eq_true in Ha.
  assert (tk_status t = t_assigned ∨ tk_status t = t_created) as Hst.
  { apply andb_false_iff in Hs as [Hs | Hs]; apply negb_false_iff, bool_decide_eq_true in Hs; auto. }
  simpl. eapply put_life; [by rewrite Hid | done | | apply HQ; [done | by repeat split]].
  repeat split; simpl; try done. apply no_date, open_no_date; [done |]. by destruct Hst as [-> | ->].
Qed.

Lemma startTask_life id a : along ChStart id → evolves life (startTask id a).
Proof.
  intros HQ w. apply require_then. intros t Ht Hid Hok. apply guard_then. intros Hs. apply guard_then. intros _.
  apply gets_then. cbv zeta. apply open_then. intros _.
  assert (tk_status t = t_claimed ∨ tk_status t = t_assigned) as Hst.
  { apply andb_false_iff in Hs as [Hs | Hs]; apply negb_false_iff, bool_decide_eq_true in Hs; auto. }
  eapply update_life; [by rewrite Hid | done | | apply HQ; [done | by repeat split] | intros a'; evolve].
  repeat split; simpl; try done.
  - intros _. by destruct (tk_claimedAt t).
  - apply no_date, open_no_date; [done |]. by destruct Hst as [-> | ->].
Qed.

Lemma ended_ok t s a b c now : ended s = true → task_ok (set_progress s a b c (Some now) t).
Proof. intros Hs. repeat split; simpl; try done; destruct s; try done; by intros []. Qed.

Lemma rejectTask_life id r act : along ChEnd id → evolves life (rejectTask id r act).
Proof.
  intros HQ w. apply require_then. intros t Ht Hid Hok. apply open_then. intros Ho. apply gets_then.
  eapply update_life; [by rewrite Hid | done | by apply ended_ok | apply HQ; [done | by repeat split] | intros a'; evolve].
Qed.

Lemma escalateTask_life id r act : along ChEscalate id → evolves life (escalateTask id r act).
Proof.
  intros HQ w. apply require_then. intros t Ht Hid Hok. apply open_then. intros Ho.
  eapply update_life; [by rewrite Hid | done | | apply HQ; [done | by repeat split] | intros a'; evolve].
  repeat split; simpl; try (by intros []); try done. by apply no_date, open_no_date.
Qed.

(** The comment of a completion leaves the tasks as they are. *)
Lemma comment_if_tasks id a p r w : tw_tasks (comment_if id a p r w).2 = tw_tasks w.
Proof.
  assert (evolves (λ w w', tw_tasks w' = tw_tasks w) (comment_if id a p r)) as H; [| apply H].
  assert (PreOrder (λ w w' : tworld, tw_tasks w' = tw_tasks w)) as HP by (split; [done | intros ? ? ? H1 H2; congruence]).
  unfold comment_if, addComment, requireTask, store_addComment, emit, store_get. evolve; by apply evolves_modify.
Qed.

Lemma completeTask_life id d act c : along ChEnd id → evolves life (completeTask id d act c).
Proof.
  intros HQ w. apply require_then. intros t Ht Hid Hok. apply open_then. intros Ho.
  assert (∀ (k : () → M tworld HumanTask), life w (k () w).2 →
    life w ((match tk_formSchema t with
             | Some schema => throw_if (negb (bool_decide (validateFormData (Some schema) d = [])))
                 (TaskValidationError ("Form validation failed: " +:+ join "; " (validateFormData (Some schema) d)))
             | None => mret () end ≫= k) w).2) as Hform.
  { intros k Hk. destruct (tk_formSchema t); [by apply guard_then | done]. }
  apply Hform. apply gets_then. cbv zeta.
  pose proof (comment_if_tasks id act "" c w) as Hc. pose proof (comment_if_life id act "" c w) as Hl.
  unfold mbind at 1, M_bind at 1. destruct (comment_if id act "" c w) as [[e | []] w1]; simpl in Hc, Hl; [done |].
  etrans; [exact Hl |]. eapply update_life; [by rewrite Hid, Hc | done | | apply HQ; [done | by repeat split] | intros a'; evolve].
  repeat split; simpl; try done; by intros [].
Qed.

(** ** The scan *)

Lemma sla_change_spec g now t t' :
  task_ok t → sla_change g now t = Some t' → (changes ChEnd t t' ∨ changes ChEscalate t t') ∧ task_ok t'.
Proof.
  intros Hok. unfold sla_change. destruct (actionable (tk_status t)) eqn:Ho; [| done]. simpl.
  destruct (now <=? _); [done |]. case_bool_decide; intros [= <-].
  - split; [left; by repeat split | by apply ended_ok].
  - split; [right; by repeat split |]. repeat split; simpl; try done; try (by intros []).
Qed.

Lemma scan_tasks_life g now tasks w :
  (∀ id, along ChEnd id) → (∀ id, along ChEscalate id) → NoDup (tk_id <$> tasks) →
  (∀ t, t ∈ tasks → jget (tk_id t) (tw_tasks w) = Some t ∧ task_ok t) → life w (scan_tasks g now tasks w).2.
Proof.
  intros HE HS. revert w. induction tasks as [| t tasks IH]; intros w Hnd Hin; [reflexivity |]. simpl.
  apply NoDup_cons in Hnd as [Hnt Hnd]. destruct (Hin t) as [Ht Hok]; [left |].
  destruct (sla_change g now t) as [t' |] eqn:Hc.
  2: { apply IH; [done |]. intros x Hx. apply Hin. by right. }
  apply (sla_change_spec _ _ _ _ Hok) in Hc as [Hch Hok']. assert (tk_id t' = tk_id t) as Hid by (by destruct Hch as [[[] _] | [[] _]]).
  assert (store_update t' w = (inr t', put_task t' w)) as Hup by (unfold store_update, store_get; run_unfold; by rewrite Hid, Ht).
  assert (Q t t') as HQ by (destruct Hch; [by eapply HE | by eapply HS]).
  rewrite (bind_run _ _ _ _ _ Hup). etrans; [by apply (put_life t t') |].
  apply evolves_from; [apply _ | | intros r; evolve]. apply IH; [done |]. intros x Hx. destruct (Hin x) as [Hjx Hokx]; [by right |].
  split; [| done]. simpl. rewrite jget_jset_ne; [done |]. rewrite Hid. intros Heq. apply Hnt. rewrite Heq. by apply list_elem_of_fmap_2.
Qed.

Lemma NoDup_fmap_filter {A B} (f : A → B) (p : A → bool) l : NoDup (f <$> l) → NoDup (f <$> List.filter p l).
Proof.
  induction l as [| x l IH]; simpl; [done |]. rewrite NoDup_cons. intros [Hx Hnd]. destruct (p x); [| auto]. simpl.
  apply NoDup_cons. split; [| auto]. intros Hin. apply Hx. apply list_elem_of_fmap in Hin as (y & -> & Hy). apply list_elem_of_fmap_2.
  apply list_elem_of_In, List.filter_In in Hy as [Hy _]. by apply list_elem_of_In.
Qed.

Lemma scanSla_life g now : (∀ id, along ChEnd id) → (∀ id, along ChEscalate id) → evolves life (scanSla g now).
Proof.
  intros HE HS w. cut (tasks_wf w → life w (scanSla g now w).2); [by intros H Hwf; apply H |]. intros [Hnd H].
  assert (∀ kv, kv ∈ tw_tasks w → jget kv.1 (tw_tasks w) = Some kv.2) as Hin.
  { intros [k t] Hkt. by apply elem_jget. }
  assert ((tk_id ∘ snd) <$> tw_tasks w = jkeys (tw_tasks w)) as Hids.
  { apply list_fmap_ext. intros i [k t] Hi. apply list_elem_of_lookup_2, Hin in Hi. by destruct (H _ _ Hi) as [Hid _]. }
  unfold scanSla, listForSlaScan. apply gets_then. apply evolves_from; [apply _ | | intros r; evolve].
  apply scan_tasks_life; [done | done | |].
  - apply NoDup_fmap_filter. rewrite <- list_fmap_compose. by rewrite Hids.
  - intros t Ht. apply list_elem_of_In, List.filter_In in Ht as [Ht _]. apply list_elem_of_In, list_elem_of_fmap in Ht as ([k x] & -> & Hkx).
    apply Hin in Hkx. simpl in *. destruct (H _ _ Hkx) as (Hid & _ & Hok). by rewrite Hid.
Qed.

(** ** Creation: every other task keeps its place *)

Lemma store_create_life input ty w t w1 :
  store_create input ty w = (inr t, w1) → tasks_wf w →
  tasks_wf w1 ∧ tw_tasks w1 = jset (tk_id t) t (tw_tasks w) ∧ tw_uuids w1 = S (tw_uuids w) ∧ tk_id t = task_uuid (tw_uuids w) ∧
  actionable (tk_status t) = true ∧ tk_completedAt t = None ∧ tk_claimedAt t = None.
Proof.
  unfold store_create, iso_date. run_unfold. destruct (TimeClip _) as [due |]; [| done]. simpl. intros [= <- <-] [Hnd H]. simpl.
  split; [split; [by apply NoDup_jset |] | by destruct (truthy _)].
  intros id t. simpl. rewrite jget_jset. case_decide as Hd.
  - intros [= <-]. subst id. simpl. split; [done |]. split; [exists (tw_uuids w); split; [lia | done] |].
    destruct (truthy (ci_assignee input)); repeat split; simpl; try done; try (by intros []); by apply no_date.
  - intros Ht. destruct (H id t Ht) as (H1 & (n & Hn & Hid) & H3). split; [done |]. split; [| done]. exists n. split; [lia | done].
Qed.

End along.

#[local] Instance any_preorder : PreOrder (λ _ _ : HumanTask, True).
Proof. done. Qed.

Lemma choose_assignee_pure input t w : (choose_assignee input t w).2 = w.
Proof.
  assert (evolves eq (choose_assignee input t)) as H; [| symmetry; apply H].
  unfold choose_assignee, getRoutingRule, buildRoutingContext, countActiveByAssignee, routeTask, route_by, roundRobinAssign,
    leastLoadedAssign, skillBasedAssign, priorityAssign, specificUserAssign, requireCandidates. evolve.
Qed.

Lemma created_life Q `{!PreOrder Q} w w1 w2 t :
  tasks_wf w → tasks_wf w2 → tw_tasks w1 = jset (tk_id t) t (tw_tasks w) → tk_id t = task_uuid (tw_uuids w) →
  (tw_uuids w ≤ tw_uuids w2)%nat → (∀ id, id ≠ tk_id t → jget id (tw_tasks w2) = jget id (tw_tasks w1)) → life Q w w2.
Proof.
  intros Hw Hw2 Hw1 Hid Hu Hsame _. split; [done |]. split; [done |]. intros id x Hx. exists x.
  assert (id ≠ tk_id t) as Hne by (rewrite Hid; intros ->; by eapply (fresh_id w x (tw_uuids w))).
  split; [| done]. by rewrite Hsame, Hw1, jget_jset_ne.
Qed.

Lemma createTask_life Q `{!PreOrder Q} input : evolves (life Q) (createTask input).
Proof.
  intros w. cut (tasks_wf w → life Q w (createTask input w).2); [by intros H Hwf; apply H |]. intros Hwf. unfold createTask.
  apply (guard_then Q). intros _. unfold mbind at 1, M_bind at 1.
  destruct (store_create input _ w) as [[e | t] w1] eqn:Hc.
  { revert Hc. unfold store_create, iso_date. run_unfold. destruct (TimeClip _); [done |]. intros [= _ <-]. by apply same_tasks_life. }
  destruct (store_create_life _ _ _ _ _ Hc Hwf) as (Hw1 & Ht1 & Hu1 & Hid & Ho & Hd & Hcl). clear Hc.
  assert (∀ w2, tasks_wf w2 → (tw_uuids w1 ≤ tw_uuids w2)%nat → (∀ id, id ≠ tk_id t → jget id (tw_tasks w2) = jget id (tw_tasks w1)) →
    life Q w w2) as Hdone by (intros w2 H1 H2 H3; eapply created_life; eauto; lia).
  assert (∀ c : M tworld (option string), (c w1).2 = w1 → ∀ k, (∀ a, life Q w (k a w1).2) → life Q w ((c ≫= k) w1 : (exn + HumanTask) * tworld).2) as Hread.
  { intros c Hcp k Hk. unfold mbind, M_bind. destruct (c w1) as [[e | a] w2]; simpl in Hcp; subst w2; [by apply Hdone | apply Hk]. }
  apply Hread; [destruct (truthy _); [done | apply choose_assignee_pure] |]. intros a.
  destruct (truthy a); [| by apply Hdone].
  rewrite (bind_run (gets tw_now) _ w1 _ w1 eq_refl). cbv zeta.
  set (t' := set_progress t_assigned a _ _ _ t).
  assert (jget (tk_id t) (tw_tasks w1) = Some t) as Hj by (by rewrite Ht1, jget_jset_eq).
  assert (store_update t' w1 = (inr t', put_task t' w1)) as Hup by (unfold store_update, store_get; run_unfold; by rewrite Hj).
  rewrite (bind_run _ _ _ _ _ Hup).
  assert (task_ok t') as Hok by (repeat split; simpl; try (by intros []); try done; by apply no_date).
  destruct (put_life (λ _ _, True) t t' w1 Hj eq_refl Hok I Hw1) as (Hwf' & _).
  apply Hdone; [exact Hwf' | done |]. intros id Hne. simpl. by rewrite jget_jset_ne.
Qed.

(** ** Histories *)

Inductive task_op :=
  | TCreate (input : CreateTaskInput) | TAssign (id a : string) (actor : option string) | TClaim (id a : string)
  | TStart (id : string) (a : option string) | TComplete (id : string) (d : option form) (actor comment : option string)
  | TReject (id : string) (reason actor : option string) | TEscalate (id : string) (reason actor : option string)
  | TDelegate (id : string) (a reason actor : option string) | TComment (id author body : string)
  | TAttach (id file : string) (mime : option string) (size : option Z) (key by' : string)
  | TBulk (o : bulk_operation) (ids : list string) (p : BulkPayload)
  | TRule (rule : TaskRoutingRule) | TScan (grace : option Z) | TWait (ms : Z).

Definition run_task (o : task_op) w : tworld :=
  match o with
  | TCreate input => (createTask input w).2
  | TAssign id a actor => (assignTask id a actor w).2
  | TClaim id a => (claimTask id a w).2
  | TStart id a => (startTask id a w).2
  | TComplete id d actor c => (completeTask id d actor c w).2
  | TReject id r actor => (rejectTask id r actor w).2
  | TEscalate id r actor => (escalateTask id r actor w).2
  | TDelegate id a r actor => (delegateTask id a r actor w).2
  | TComment id a b => (addComment id a b w).2
  | TAttach id f m s k u => (addAttachment id f m s k u w).2
  | TBulk o ids p => (bulkOperation o ids p w).2
  | TRule rule => (upsertRoutingRule rule w).2
  | TScan g => (scanSla g (tw_now w) w).2
  | TWait ms => TWorld (tw_tasks w) (tw_comments w) (tw_attachments w) (tw_rules w) (tw_delegations w) (tw_uuids w) (tw_events w)
      (tw_now w + Z.max 0 ms)
  end.

Definition run_tasks (ops : list task_op) w : tworld := foldl (λ w o, run_task o w) w ops.

(** Whether an operation may hand the task [id] to someone else. *)
Definition reassigns (id : string) (o : task_op) : bool :=
  match o with
  | TAssign i _ _ | TDelegate i _ _ _ => String.eqb i id
  | TBulk (BulkAssign | BulkDelegate) ids _ => bool_decide (id ∈ ids)
  | _ => false
  end.

Section runs.
Context (Q : HumanTask → HumanTask → Prop) `{!PreOrder Q} (hands : string → Prop).
Hypothesis Hhand : ∀ id, hands id → along Q ChAssign id.
Hypothesis Hrest : ∀ k id, k ≠ ChAssign → along Q k id.

Definition fits (o : task_op) : Prop :=
  match o with
  | TAssign i _ _ | TDelegate i _ _ _ => hands i
  | TBulk (BulkAssign | BulkDelegate) ids _ => Forall hands ids
  | _ => True
  end.

Lemma bulk_one_life o p id : (o = BulkAssign ∨ o = BulkDelegate → hands id) → evolves (life Q) (bulk_one o p id).
Proof.
  intros Ho. destruct o; simpl; [apply assignTask_life | apply claimTask_life | apply completeTask_life | apply rejectTask_life |
    apply escalateTask_life | apply delegateTask_life | apply startTask_life]; auto.
Qed.

Lemma bulk_life o ids p : (o = BulkAssign ∨ o = BulkDelegate → Forall hands ids) → evolves (life Q) (bulkOperation o ids p).
Proof.
  pose proof (life_preorder Q) as HP. intros Ho. induction ids as [| id ids IH]; simpl; [by apply evolves_ret |].
  assert (evolves (life Q) (bulk_one o p id)) as H1 by (apply bulk_one_life; intros H; by apply Ho, Forall_cons in H as [? _]).
  assert (evolves (life Q) (bulkOperation o ids p)) as H2 by (apply IH; intros H; by apply Ho, Forall_cons in H as [_ ?]).
  evolve.
Qed.

Lemma run_task_life o w : fits o → life Q w (run_task o w).
Proof.
  destruct o; simpl; intros Hf.
  - by apply createTask_life.
  - apply assignTask_life; auto.
  - apply claimTask_life; auto.
  - apply startTask_life; auto.
  - apply completeTask_life; auto.
  - apply rejectTask_life; auto.
  - apply escalateTask_life; auto.
  - apply delegateTask_life; auto.
  - by apply addComment_life.
  - by apply addAttachment_life.
  - apply bulk_life. destruct o; naive_solver.
  - by apply upsert_life.
  - apply scanSla_life; auto.
  - by apply same_tasks_life.
Qed.

Lemma run_tasks_life ops w : Forall fits ops → life Q w (run_tasks ops w).
Proof.
  intros Hf. revert w. induction Hf as [| o ops Ho _ IH]; intros w; [by apply (life_preorder Q) |].
  apply (@transitivity _ _ (@PreOrder_Transitive _ _ (life_preorder Q)) _ (run_task o w)); [by apply run_task_life | apply IH].
Qed.
End runs.

Definition no_tasks (now : Z) : tworld := TWorld [] [] [] [] [] 0 [] now.

Lemma no_tasks_wf now : tasks_wf (no_tasks now).
Proof. split; [constructor | done]. Qed.

(** Identity is kept and an ended task rests. *)
Definition moves (t t' : HumanTask) : Prop := same_task t t' ∧ (ended (tk_status t) = true → t' = t).

#[local] Instance moves_preorder : PreOrder moves.
Proof.
  split; [by repeat split |]. intros t1 t2 t3 [(A1 & A2 & A3 & A4 & A5 & A6) H7] [(B1 & B2 & B3 & B4 & B5 & B6) G7].
  split; [repeat split; congruence |]. intros He. specialize (H7 He). subst t2. auto.
Qed.

Lemma changes_moves k id : along moves k id.
Proof. intros t t' _ [Hs Hk]. split; [done |]. intros He. exfalso. destruct k, (tk_status t); naive_solver. Qed.

(** The lifecycle of tasks, over any history of service calls, bulk operations and
    scans: a task keeps its identity (its identifier, workflow, type, candidates, creation
    and due dates); a claimed task has an assignee, a claimed or started one the date of
    its claim; the completion date is set exactly when the task is completed, rejected or
    expired; and from then on nothing of it ever changes. *)
Theorem tasks_lifecycle ops1 ops2 now :
  let w1 := run_tasks ops1 (no_tasks now) in
  let w2 := run_tasks ops2 w1 in
  ∀ id t, jget id (tw_tasks w1) = Some t →
    tk_id t = id ∧ task_ok t ∧
    ∃ t', jget id (tw_tasks w2) = Some t' ∧ same_task t t' ∧ task_ok t' ∧ (ended (tk_status t) = true → t' = t).
Proof.
  intros w1 w2 id t Ht.
  assert (∀ ops w, life moves w (run_tasks ops w)) as Hlife.
  { intros ops w. apply (run_tasks_life moves (λ _, True)); [intros i _; apply changes_moves | intros k i _; apply changes_moves |].
    apply Forall_forall. intros o _. destruct o as [| | | | | | | | | | [] ids p | | |]; simpl; try done; by apply Forall_true. }
  destruct (Hlife ops1 _ (no_tasks_wf now)) as (H1 & _). fold w1 in H1. destruct (Hlife ops2 w1 H1) as (H2 & _ & Hg). fold w2 in H2, Hg.
  destruct H1 as [_ H1]. destruct (H1 _ _ Ht) as (Hid & _ & Hok). split; [done |]. split; [done |].
  destruct (Hg _ _ Ht) as (t' & Ht' & Hs & He). exists t'. split; [done |]. split; [done |]. split; [| done].
  destruct H2 as [_ H2]. by destruct (H2 _ _ Ht') as (_ & _ & Hok').
Qed.

(** ** Claims *)

Definition taken (s : HumanTaskStatus) : bool := match s with t_created | t_assigned => false | _ => true end.

Definition stays_taken (id : string) (t t' : HumanTask) : Prop :=
  tk_id t' = tk_id t ∧ (tk_id t = id → taken (tk_status t) = true → taken (tk_status t') = true).

#[local] Instance stays_taken_preorder id : PreOrder (stays_taken id).
Proof.
  split; [by split |]. intros t1 t2 t3 [H1 H2] [G1 G2]. split; [congruence |]. intros Hid Ht. apply G2; [congruence |]. by apply H2.
Qed.

Lemma claim_refused id b w t :
  jget id (tw_tasks w) = Some t → taken (tk_status t) = true → ∃ e, claimTask id b w = (inl e, w).
Proof.
  intros Ht Hs. unfold claimTask, requireTask, store_claim, store_get. destruct (String.eqb b ""); [by eexists |].
  run_unfold. rewrite Ht. simpl. destruct (truthy (tk_assignee t) && _); [by eexists |]. simpl. rewrite Ht.
  destruct (negb (bool_decide (tk_assignee t = Some b))); [by eexists |].
  destruct (tk_status t); simpl in Hs; try discriminate Hs; simpl; by eexists.
Qed.

(** A claim is exclusive: only the assignee of a task claims it, and after a claim has
    succeeded, whatever calls and scans follow, every further claim of the task is refused
    and has no effect, by the same user or by another, as long as nobody assigns or
    delegates the task anew. *)
Theorem claimed_once id a w t w1 ops b :
  tasks_wf w → claimTask id a w = (inr t, w1) → Forall (λ o, reassigns id o = false) ops →
  tk_assignee <$> jget id (tw_tasks w) = Some (Some a) ∧
  ∃ e, claimTask id b (run_tasks ops w1) = (inl e, run_tasks ops w1).
Proof.
  intros Hwf Hc Hops.
  assert (∃ t1, jget id (tw_tasks w) = Some t1 ∧ tk_assignee t1 = Some a ∧ tw_tasks w1 = jset (tk_id t1) t (tw_tasks w) ∧
          tk_id t = tk_id t1 ∧ tk_status t = t_claimed) as (t1 & Ht1 & Ha & Hw1 & Hid & Hst).
  { revert Hc. unfold claimTask, requireTask, store_claim, store_get. destruct (String.eqb a ""); [done |]. run_unfold.
    destruct (jget id (tw_tasks w)) as [t1 |] eqn:Ht1; simpl; [| done]. destruct (truthy (tk_assignee t1) && _); [done |]. simpl. rewrite Ht1.
    destruct (bool_decide (tk_assignee t1 = Some a)) eqn:Ha; simpl; [| done]. apply bool_decide_eq_true in Ha.
    destruct (negb _ && negb _); simpl; [done |]. intros [= <- <-]. by exists t1. }
  split; [by rewrite Ht1; simpl; rewrite Ha |].
  assert (tk_id t1 = id) as Hid1 by (destruct Hwf as [_ H]; by destruct (H _ _ Ht1)).
  assert (tasks_wf w1) as Hwf1.
  { pose proof (claimTask_life (λ _ _, True) id a (λ _ _ _ _, I) w Hwf) as (H & _). by rewrite Hc in H. }
  assert (jget id (tw_tasks w1) = Some t) as Ht by (by rewrite Hw1, Hid1, jget_jset_eq).
  assert (life (stays_taken id) w1 (run_tasks ops w1)) as Hlife.
  { apply (run_tasks_life (stays_taken id) (λ i, i ≠ id)).
    - intros i Hi x y Hx [(Hy & _) _]. split; [done |]. congruence.
    - intros k i Hk x y Hx [(Hy & _) Hch]. split; [done |]. intros _ Htk. destruct k; try done.
      + destruct Hch as ([H | H] & _); by rewrite H in Htk.
      + by destruct Hch as (_ & -> & _).
      + destruct Hch as (_ & He). by destruct (tk_status y).
      + by destruct Hch as (_ & ->).
    - eapply Forall_impl; [exact Hops |]. intros o Ho. destruct o as [| | | | | | | | | | [] ids p | | |]; simpl in *; try done;
        try (by apply String.eqb_neq); apply Forall_forall; intros i Hi ->; by apply bool_decide_eq_false in Ho. }
  destruct (Hlife Hwf1) as (_ & _ & Hg). destruct (Hg _ _ Ht) as (t' & Ht' & Hid' & Htk). eapply claim_refused; [done |].
  apply Htk; [congruence | by rewrite Hst].
Qed.
End correct.

(** ** Routing *)

(** The loops that look for the smallest load keep a member of the pool with that load. *)
Lemma pick_least score pool first :
  pool ≠ [] → pick score Z.ltb pool first ∈ pool ∧ ∀ c, c ∈ pool → score (pick score Z.ltb pool first) ≤ score c.
Proof.
  unfold pick. intros Hne.
  assert (∀ l b, (∀ x, b.2 = Some x → x = score b.1) → (l ≠ [] ∨ is_Some b.2) →
    let r := foldl (λ (b : string * option Z) c, match b.2 with
                      | Some s => if score c <? s then (c, Some (score c)) else b
                      | None => (c, Some (score c)) end) b l in
    (r.1 ∈ l ∨ (is_Some b.2 ∧ r.1 = b.1)) ∧ (∀ c, c ∈ l → score r.1 ≤ score c) ∧ (is_Some b.2 → score r.1 ≤ score b.1)) as Hloop.
  { induction l as [| c l IH]; intros b Hb Hl r.
    - destruct Hl as [? | Hl]; [done |]. simpl in r. subst r. split; [by right |]. split; [by intros c ?%elem_of_nil | done].
    - simpl in r. set (b' := match b.2 with Some s => if score c <? s then (c, Some (score c)) else b | None => (c, Some (score c)) end) in r.
      assert (is_Some b'.2 ∧ (∀ x, b'.2 = Some x → x = score b'.1) ∧ score b'.1 ≤ score c ∧ (is_Some b.2 → score b'.1 ≤ score b.1) ∧
              (b'.1 = c ∨ (is_Some b.2 ∧ b'.1 = b.1))) as (H1 & H2 & H3 & H4 & H5).
      { unfold b'. destruct b as [x [s |]]; simpl in *.
        - specialize (Hb s eq_refl). subst s. destruct (Z.ltb_spec (score c) (score x)); simpl.
          + split; [done |]. split; [by intros ? [= <-] |]. split; [lia |]. split; [lia | by left].
          + split; [done |]. split; [by intros ? [= <-] |]. split; [lia |]. split; [lia | by right].
        - split; [done |]. split; [by intros ? [= <-] |]. split; [lia |]. split; [by intros [? ?] | by left]. }
      destruct (IH b' H2 (or_intror H1)) as (R1 & R2 & R3). fold r in R1, R2, R3. specialize (R3 H1). split; [| split].
      + destruct R1 as [R1 | [_ R1]]; [left; by right |]. destruct H5 as [H5 | [Hs H5]]; [left; rewrite R1, H5; left | right; split; congruence].
      + intros d [-> | Hd]%elem_of_cons; [lia | auto].
      + intros Hs. specialize (H4 Hs). lia. }
  destruct (Hloop pool (first, None)) as (H1 & H2 & _); [done | by left |].
  split; [destruct H1 as [H1 | [[? ?] _]]; done | done].
Qed.

(** The same loop with the comparison reversed. *)
Lemma pick_greatest score pool first :
  pick score (λ s b, b <? s) pool first = pick (λ c, - score c) Z.ltb pool first.
Proof.
  unfold pick. assert (∀ l x y, x.1 = y.1 → y.2 = Z.opp <$> x.2 →
    (foldl (λ (b : string * option Z) c, match b.2 with Some s => if s <? score c then (c, Some (score c)) else b | None => (c, Some (score c)) end) x l).1 =
    (foldl (λ (b : string * option Z) c, match b.2 with Some s => if - score c <? s then (c, Some (- score c)) else b | None => (c, Some (- score c)) end) y l).1) as H;
    [| by apply H].
  induction l as [| c l IH]; intros [x xs] [y ys] H1 H2; simpl in *; [done |]. subst. apply IH; destruct xs as [s |]; simpl; try done;
    destruct (Z.ltb_spec s (score c)), (Z.ltb_spec (- score c) (- s)); try lia; done.
Qed.

Lemma pool_member {S} rule ctx (s : S) pool s' :
  requireCandidates rule ctx s = (inr pool, s') →
  s' = s ∧ pool ≠ [] ∧ ∀ c, c ∈ pool ↔ c ∈ rx_candidates ctx ∧ nonblank c = true.
Proof.
  unfold requireCandidates. destruct (List.filter nonblank (rx_candidates ctx)) as [| x l] eqn:Hf; [done |].
  intros [= <- <-]. split; [done |]. split; [done |]. intros c. rewrite <- Hf, list_elem_of_In, List.filter_In, list_elem_of_In. done.
Qed.

Definition route_ok (rule : TaskRoutingRule) (ctx : RoutingContext) (a : string) : Prop :=
  (a ∈ rx_candidates ctx ∨ rx_candidates ctx = []) ∧
  (rr_strategy rule = rs_least_loaded → ∀ c, c ∈ rx_candidates ctx → nonblank c = true → load_of ctx a ≤ load_of ctx c) ∧
  (rr_strategy rule = rs_priority → ∀ c, c ∈ rx_candidates ctx → nonblank c = true → priority_score rule ctx c ≤ priority_score rule ctx a).

Lemma head_member {A} (l : list A) d : l ≠ [] → default d (head l) ∈ l.
Proof. destruct l; [done |]. left. Qed.

Lemma route_by_ok {S} rule ctx (s : S) a s' : route_by rule ctx s = (inr a, s') → s' = s ∧ route_ok rule ctx a.
Proof.
  unfold route_by, route_ok. destruct (rr_strategy rule) eqn:Hst; intros H.
  - apply bind_inr in H as (pool & s1 & Hp & H). apply pool_member in Hp as (-> & Hne & Hp). injection H as <- <-.
    split; [done |]. split; [| done]. left. destruct (pool !! _) as [x |] eqn:Hx.
    { apply list_elem_of_lookup_2 in Hx. simpl. by apply Hp. }
    exfalso. apply lookup_ge_None in Hx. destruct pool as [| y pool]; [done |]. simpl length in Hx.
    pose proof (Z.mod_pos_bound (default 0 (jget (rx_workflowType ctx +:+ ":" +:+ task_type_name (rx_taskType ctx)) (default [] (rx_cursor ctx))))
      (Z.of_nat (Datatypes.S (length pool)))). lia.
  - apply bind_inr in H as (pool & s1 & Hp & H). apply pool_member in Hp as (-> & Hne & Hp). injection H as <- <-.
    destruct (pick_least (load_of ctx) pool (default "" (head pool)) Hne) as [H1 H2]. split; [done |].
    split; [left; by apply Hp |]. split; [| done]. intros _ c Hc Hn. apply H2. by apply Hp.
  - apply bind_inr in H as (pool & s1 & Hp & H). apply pool_member in Hp as (-> & Hne & Hp). injection H as <- <-.
    split; [done |]. split; [| done]. left. set (skilled := List.filter _ pool).
    assert (∃ el, el = match skilled with [] => pool | _ => skilled end ∧ el ≠ [] ∧ ∀ c, c ∈ el → c ∈ pool) as (el & <- & Hel & Hin).
    { exists (match skilled with [] => pool | _ => skilled end). split; [done |]. destruct skilled as [| x l] eqn:Hs; [done |]. split; [done |].
      intros c Hc. rewrite <- Hs in Hc. by apply list_elem_of_In, List.filter_In in Hc as [Hc%list_elem_of_In _]. }
    match goal with |- pick _ _ _ ?f ∈ _ => destruct (pick_least (load_of ctx) el f Hel) as [H1 _] end. by apply Hp, Hin.
  - apply bind_inr in H as (pool & s1 & Hp & H). apply pool_member in Hp as (-> & Hne & Hp). injection H as <- <-.
    rewrite pick_greatest. destruct (pick_least (λ c, - priority_score rule ctx c) pool (default "" (head pool)) Hne) as [H1 H2].
    split; [done |]. split; [left; by apply Hp |]. split; [done |]. intros _ c Hc Hn. specialize (H2 c (proj2 (Hp c) (conj Hc Hn))). lia.
  - unfold specificUserAssign in H. destruct (negb (String.eqb _ "") && (_ || _)) eqn:Hg.
    { injection H as <- <-. split; [done |]. split; [| done]. apply andb_prop in Hg as [_ Hg]. apply orb_prop in Hg as [Hg | Hg].
      - right. by destruct (rx_candidates ctx).
      - left. by apply bool_decide_eq_true in Hg. }
    destruct (_ && negb _); [done |]. apply bind_inr in H as (pool & s1 & Hp & H). apply pool_member in Hp as (-> & Hne & Hp).
    injection H as <- <-. split; [done |]. split; [| done]. left. apply Hp. by apply head_member.
Qed.

Lemma route_by_pure {S} rule ctx (s : S) r s' : route_by rule ctx s = (r, s') → s = s'.
Proof.
  assert (evolves eq (route_by rule ctx : M S string)) as H; [| intros Hr; specialize (H s); by rewrite Hr in H].
  unfold route_by, roundRobinAssign, leastLoadedAssign, skillBasedAssign, priorityAssign, specificUserAssign, requireCandidates. evolve.
Qed.

(** Routing: when a rule yields an assignee, it is one of the candidates of the task,
    or the task has none (and the user comes from the rule); the least loaded strategy
    picks a candidate with the fewest open tasks and the priority strategy one with the
    highest score, unless the fallback was used; and nothing is written. *)
Theorem routing_chooses {S} rule ctx (s : S) a label s' :
  routeTask rule ctx s = (inr (a, label), s') →
  s' = s ∧ a ≠ "" ∧ (a ∈ rx_candidates ctx ∨ rx_candidates ctx = []) ∧
  (route_ok rule ctx a ∨ (a = rr_fallbackAssignee rule ∧ label = strategyLabel (rr_strategy rule) +:+ ">fallback")).
Proof.
  unfold routeTask. intros H. apply bind_inr in H as ([a' l'] & s1 & H1 & H). apply bind_inr in H as ([] & s2 & H2 & H).
  injection H as <- <- <-. apply throw_if_run in H2 as [Hne ->]. simpl in Hne. apply String.eqb_neq in Hne.
  apply try_bind_inr in H1 as [(e & s2 & Hr & H) | (a0 & s2 & Hr & H)].
  - destruct (nonblank _); [| done]. destruct (negb _ && _) eqn:Hc; [done |]. injection H as <- <- <-.
    apply route_by_pure in Hr as <-.
    split; [done |]. split; [done |]. split; [| by right].
    apply andb_false_iff in Hc as [Hc | Hc]; [left; by apply negb_false_iff, bool_decide_eq_true in Hc | right; by destruct (rx_candidates ctx)].
  - destruct (route_by_ok _ _ _ _ _ Hr) as [-> Hok]. destruct H as [H | (e & s3 & H & _)]; [| done]. injection H as <- <- <-.
    split; [done |]. split; [done |]. split; [apply Hok | by left].
Qed.

(** ** Runs *)

#[local] Instance demo_tasks : TaskEnv := {| task_uuid := λ n, dec (Z.of_nat n); task_skills := [] |}.

#[local] Instance demo_task_uuid_inj : Inj (=) (=) (@task_uuid demo_tasks).
Proof. intros n m H. simpl in H. apply (inj dec) in H. lia. Qed.

Definition demo_input (candidates : list string) : CreateTaskInput := {|
  ci_workflowId := "wf-1"; ci_workflowType := "purchase"; ci_type := Some ty_approval; ci_title := "Approve"; ci_description := None;
  ci_priority := None; ci_candidates := Some candidates; ci_assignee := None; ci_formSchema := None; ci_formData := None;
  ci_slaHours := None |}.

Definition demo_rule (s : RoutingStrategy) (fallback : string) : TaskRoutingRule := {|
  rr_id := "r"; rr_workflowType := "purchase"; rr_taskType := "approval"; rr_strategy := s;
  rr_config := Build_RoutingConfig None None None; rr_fallbackAssignee := fallback |}.

Definition demo_assigned : tworld := run_tasks [TCreate (demo_input ["alice"; "bob"])] (no_tasks 0).

(** A rejected task stays as it is under a scan a month later. *)
Lemma tasks_lifecycle_witness :
  ∃ t, jget "0" (tw_tasks (run_tasks [TReject "0" None None] demo_assigned)) = Some t ∧ tk_status t = t_rejected ∧
    jget "0" (tw_tasks (run_tasks [TWait 2592000000; TScan None] (run_tasks [TReject "0" None None] demo_assigned))) = Some t.
Proof.
  destruct (jget "0" (tw_tasks (run_tasks [TReject "0" None None] demo_assigned))) as [t |] eqn:Ht; [| vm_compute in Ht; discriminate].
  destruct (tasks_lifecycle [TCreate (demo_input ["alice"; "bob"]); TReject "0" None None] [TWait 2592000000; TScan None] 0 "0" t Ht)
    as (_ & _ & t' & Ht' & _ & _ & Hend).
  exists t. assert (tk_status t = t_rejected) as Hs by (vm_compute in Ht; injection Ht as <-; reflexivity).
  split; [reflexivity |]. split; [exact Hs |]. rewrite <- (Hend ltac:(by rewrite Hs)). exact Ht'.
Defined.

Lemma claimed_once_witness :
  ∃ t w1 e, claimTask "0" "alice" demo_assigned = (inr t, w1) ∧
    claimTask "0" "alice" (run_tasks [TScan None; TWait 90000000; TScan None] w1) =
      (inl e, run_tasks [TScan None; TWait 90000000; TScan None] w1).
Proof.
  destruct (claimTask "0" "alice" demo_assigned) as [[e | t] w1] eqn:Hc; [vm_compute in Hc; discriminate |].
  assert (tasks_wf demo_assigned) as Hwf.
  { split; [apply (bool_decide_eq_true_1 _); vm_compute; reflexivity |]. intros id t' Ht. unfold demo_assigned in Ht. vm_compute in Ht.
    destruct (String.eqb_spec id "0") as [-> | Hne].
    - vm_compute in Ht. injection Ht as <-. split; [reflexivity |]. split; [exists 0%nat; split; [vm_compute; lia | reflexivity] |].
      repeat split; simpl; try done; try (by intros []); by intros [? ?].
    - destruct id as [| c id]; [discriminate |]. destruct c as [[] [] [] [] [] [] [] []]; try discriminate. destruct id; [congruence | discriminate]. }
  destruct (claimed_once "0" "alice" demo_assigned t w1 [TScan None; TWait 90000000; TScan None] "alice" Hwf Hc
    ltac:(repeat constructor)) as [_ [e He]].
  exists t, w1, e. split; [reflexivity | exact He].
Defined.

Definition demo_loads : RoutingContext := {|
  rx_candidates := ["alice"; "bob"]; rx_taskType := ty_approval; rx_priority := pri_medium; rx_workflowType := "purchase";
  rx_loadByAssignee := [("alice", 2)]; rx_cursor := None; rx_skills := [] |}.

Lemma routing_chooses_witness : "bob" ∈ rx_candidates demo_loads ∨ rx_candidates demo_loads = [].
Proof.
  destruct (routing_chooses (demo_rule rs_least_loaded "") demo_loads () "bob" "least_loaded" () ltac:(vm_compute; reflexivity))
    as (_ & _ & H & _). exact H.
Defined.

(** The round-robin strategy never moves on: the service passes no cursor, so every task
    goes to the first candidate. *)
Theorem round_robin_stuck :
  (tk_assignee ∘ snd) <$> tw_tasks (run_tasks
    [TRule (demo_rule rs_round_robin ""); TCreate (demo_input ["alice"; "bob"]); TCreate (demo_input ["alice"; "bob"]);
     TCreate (demo_input ["alice"; "bob"])] (no_tasks 0)) = [Some "alice"; Some "alice"; Some "alice"].
Proof. vm_compute. reflexivity. Qed.

(** A task without an assignee cannot be claimed: the service lets the claim through, the
    store insists on an assignee. *)
Theorem unassigned_not_claimable :
  ∃ e, (claimTask "0" "alice" (run_tasks [TCreate (demo_input [])] (no_tasks 0))).1 = inl e ∧
    exn_message e = "Task 0 could not be claimed (already claimed or no longer open)".
Proof. eexists. vm_compute. done. Qed.

(** The scan is not idempotent: a second run at the same instant expires the tasks the
    first one escalated, when they were a day overdue, although the grace period is meant
    to start at the escalation. *)
Theorem scan_not_idempotent :
  let late := run_tasks [TCreate (demo_input ["alice"]); TWait 180000000] (no_tasks 0) in
  (tk_status ∘ snd) <$> tw_tasks (run_tasks [TScan None] late) = [t_escalated] ∧
  (tk_status ∘ snd) <$> tw_tasks (run_tasks [TScan None; TScan None] late) = [t_expired].
Proof. vm_compute. done. Qed.

(** A creation that fails in routing leaves the task behind. *)
Theorem failed_routing_keeps_task :
  let w := run_tasks [TRule (demo_rule rs_least_loaded "")] (no_tasks 0) in
  (∃ e, (createTask (demo_input []) w).1 = inl e) ∧ length (tw_tasks (createTask (demo_input []) w).2) = 1%nat.
Proof. vm_compute. split; [by eexists | done]. Qed.

(** A bulk delegation without a target leaves an assigned task without an assignee. *)
Theorem delegated_to_nobody :
  let p := Build_BulkPayload None None None None None in
  (λ kv, (tk_status kv.2, tk_assignee kv.2)) <$> tw_tasks (run_tasks [TBulk BulkDelegate ["0"] p] demo_assigned) = [(t_assigned, None)].
Proof. vm_compute. reflexivity. Qed.
