(* ===== verification/Services.v ===== *)
(** * Calls of services that may fail

    A call of Redis, PostgreSQL or another service happens, fails without effect, or
    takes effect while its answer is lost; which of them is decided by the environment,
    for the n-th call.  A component states where its state keeps the count by an instance
    of [Services], and what a transaction restores by an instance of [Database]. *)
From S2P Require Import Prelude.

Inductive call_fate := CallOk | CallFails (e : exn) | CallLost (e : exn).

Class Services (S : Type) := {
  (** the fate of the next call *)
  next_fate : S → call_fate;
  (** the count of calls goes up *)
  tick : S → S
}.

Definition call `{Services T} {A} (f : T → A * T) : M T A := λ s,
  let s1 := tick s in
  match next_fate s with
  | CallOk => let '(a, s2) := f s1 in (inr a, s2)
  | CallFails e => (inl e, s1)
  | CallLost e => (inl e, (f s1).2)
  end.

(** A call that only reads, and one that only writes. *)
Definition ask `{Services T} {A} (f : T → A) : M T A := call (λ s, (f s, s)).
Definition write `{Services T} (f : T → T) : M T () := call (λ s, ((), f s)).

(** [rollback s s'] has the tables of [s] and everything else of [s']. *)
Class Database (S : Type) := { database_services :: Services S; rollback : S → S → S }.

(** [BEGIN], the statements of [c], [COMMIT]; an error on the way rolls back.  A [COMMIT]
    whose answer is lost has taken effect. *)
Definition transaction `{Database T} {A} (c : M T A) : M T A := λ s,
  match (ask (λ _, ());; c) s with
  | (inl e, s1) => (inl e, rollback s s1)
  | (inr a, s1) =>
      match next_fate s1 with
      | CallOk => (inr a, tick s1)
      | CallFails e => (inl e, rollback s (tick s1))
      | CallLost e => (inl e, tick s1)
      end
  end.

Section lemmas.
Context `{Services T}.
Implicit Types s : T.

Lemma call_inr {A} (f : T → A * T) s a s1 : call f s = (inr a, s1) → f (tick s) = (a, s1).
Proof. unfold call. destruct (next_fate _); [| done ..]. destruct (f (tick s)). by intros [= -> ->]. Qed.

Lemma ask_inr {A} (f : T → A) s a s1 : ask f s = (inr a, s1) → a = f (tick s) ∧ s1 = tick s.
Proof. intros Hc. apply call_inr in Hc. by injection Hc as <- <-. Qed.

Lemma write_inr (f : T → T) s u s1 : write f s = (inr u, s1) → s1 = f (tick s).
Proof. intros Hc. apply call_inr in Hc. by injection Hc as _ <-. Qed.

Context (R : relation T) `{!PreOrder R} (Htick : ∀ s, R s (tick s)).

Lemma call_at {A} (f : T → A * T) s : R s (f (tick s)).2 → R s (call f s).2.
Proof. intros Hf. unfold call. destruct (next_fate s); simpl; [by destruct (f (tick s)) | done | done]. Qed.

Lemma call_evolves {A} (f : T → A * T) : (∀ s, R s (f s).2) → evolves R (call f).
Proof. intros Hf s. apply call_at. etrans; [apply Htick | apply Hf]. Qed.

Lemma ask_evolves {A} (f : T → A) : evolves R (ask f).
Proof. apply call_evolves. intros s. simpl. reflexivity. Qed.

(** What follows a question sees a value it can answer. *)
Lemma ask_bind_evolves {A B} (f : T → A) (k : A → M T B) : (∀ s, evolves R (k (f s))) → evolves R (a ← ask f; k a).
Proof.
  intros Hk s. unfold ask, call, mbind, M_bind. destruct (next_fate s); simpl; [| apply Htick ..]. etrans; [apply Htick | apply Hk].
Qed.

Lemma write_evolves (f : T → T) : (∀ s, R s (f s)) → evolves R (write f).
Proof. intros Hf. by apply call_evolves. Qed.
End lemmas.

Section transactions.
Context `{Database T}.
Implicit Types s : T.

(** A transaction that returns has run its statements and committed. *)
Lemma transaction_inr {A} (c : M T A) s a s2 :
  transaction c s = (inr a, s2) → ∃ s1, c (tick s) = (inr a, s1) ∧ s2 = tick s1.
Proof.
  unfold transaction. destruct ((ask (λ _, ());; c) s) as [[e | b] s1] eqn:Hc; [done |].
  apply bind_inr in Hc as (u & s0 & Hb & Hc). apply ask_inr in Hb as [_ ->]. destruct (next_fate s1); [| done ..].
  intros [= -> <-]. eauto.
Qed.

(** A relation that every statement respects, and that a rollback restores. *)
Lemma transaction_evolves {A} (R : relation T) `{!PreOrder R} (c : M T A) :
  (∀ s, R s (tick s)) → (∀ s s1, R s s1 → R s (rollback s s1)) → evolves R c → evolves R (transaction c).
Proof.
  intros Htick Hroll Hc s. assert (R s ((ask (λ _, ());; c) s).2) as H0.
  { apply evolves_bind; [apply _ | by apply ask_evolves | done]. }
  unfold transaction. destruct ((ask (λ _, ());; c) s) as [[e | a] s1]; simpl in *; [by apply Hroll |].
  assert (R s (tick s1)) by (etrans; [exact H0 | apply Htick]). destruct (next_fate s1); simpl; [done | by apply Hroll | done].
Qed.

(** All or nothing: the tables after a transaction are those before it, or those its
    statements, all of them, made. *)
Lemma transaction_cases {A} (R : relation T) `{!PreOrder R} (c : M T A) s :
  (∀ s, R s (tick s)) → evolves R c →
  (∃ e s1, R s s1 ∧ transaction c s = (inl e, rollback s s1)) ∨
  ∃ a s1 r, c (tick s) = (inr a, s1) ∧ transaction c s = (r, tick s1) ∧ (r = inr a ∨ ∃ e, r = inl e).
Proof.
  intros Htick HR. assert (R s ((ask (λ _, ());; c) s).2) as H0.
  { apply evolves_bind; [apply _ | by apply ask_evolves | done]. }
  unfold transaction. destruct ((ask (λ _, ());; c) s) as [[e | a] s1] eqn:Hc; simpl in H0; [left; by exists e, s1 |].
  assert (R s (tick s1)) by (etrans; [exact H0 | apply Htick]).
  apply bind_inr in Hc as (u & s0 & Hb & Hc). apply ask_inr in Hb as [_ ->].
  destruct (next_fate s1); [right | left; by eexists _, (tick s1) | right]; exists a, s1; eexists; eauto.
Qed.
End transactions.
