(* ===== verification/SessionKeys.v ===== *)
(** * Session keys (apps/backend/wallet/src/sessionKeys/)

    - types.ts, sessionKeySigner.ts: keys with a budget, kept in Redis, the private key in
      the vault and an audit row in PostgreSQL; signing within the policy, revocation;
    - sessionKeyCache.ts: the cache of every node and the revocations sent to the others;
    - ephemeralSigner.ts: a signer that is wiped after its first use.

    A Redis value [session_key:<key>] is the JSON text of a [SessionKeyRecord] and is
    identified with it; it expires at an instant of the clock (milliseconds).  Every call
    of Redis, PostgreSQL, the vault or the publisher may fail, before or after it took
    effect (Services.v).  Times are instants; [expiresAt] is in seconds. *)
From S2P Require Import Prelude JsLib JsCollections Services Calendar.
Local Open Scope Z_scope.

(** ** types.ts *)

Record SessionKeyPolicy := {
  sk_allowedContracts : list string; sk_allowedMethods : list string; sk_maxPerCallStroops : string;
  sk_maxTotalStroops : string; sk_expiresInSeconds : Z
}.

Record SessionKeyRecord := {
  sk_sessionPublicKey : string; sk_userId : string; sk_encryptedPrivateKey : string; sk_vaultKeyPath : string;
  sk_spendingLimitStroops : string; sk_spentAmountStroops : string; sk_expiresAt : Z; sk_createdAt : Z;
  sk_policy : SessionKeyPolicy
}.

Record SignWithSessionKeyDTO := { dt_sessionPublicKey : string; dt_contractCallXdr : string; dt_requestedAmountStroops : string }.

Record SignResult := {
  sg_success : bool; sg_signedTxXdr : option string; sg_remainingBudgetStroops : option string; sg_error : option string
}.

Record SessionKeyCacheEntry := {
  ce_keyId : string; ce_publicKey : string; ce_ownerAddress : string; ce_expiresAtLedger : Z; ce_isRevoked : bool; ce_cachedAt : Z
}.

(** A row of session_keys. *)
Record session_row := {
  sw_session_public_key : string; sw_user_id : string; sw_vault_key_path : string; sw_spending_limit : string;
  sw_spent_amount : string; sw_expires_at : Z; sw_policy : SessionKeyPolicy; sw_revoked : bool
}.

Definition row_spent (spent : string) (r : session_row) : session_row := {|
  sw_session_public_key := sw_session_public_key r; sw_user_id := sw_user_id r; sw_vault_key_path := sw_vault_key_path r;
  sw_spending_limit := sw_spending_limit r; sw_spent_amount := spent; sw_expires_at := sw_expires_at r;
  sw_policy := sw_policy r; sw_revoked := sw_revoked r |}.

Definition row_revoked (r : session_row) : session_row := {|
  sw_session_public_key := sw_session_public_key r; sw_user_id := sw_user_id r; sw_vault_key_path := sw_vault_key_path r;
  sw_spending_limit := sw_spending_limit r; sw_spent_amount := sw_spent_amount r; sw_expires_at := sw_expires_at r;
  sw_policy := sw_policy r; sw_revoked := true |}.

(** [record.spentAmountStroops = spent] *)
Definition with_spent (spent : string) (r : SessionKeyRecord) : SessionKeyRecord := {|
  sk_sessionPublicKey := sk_sessionPublicKey r; sk_userId := sk_userId r; sk_encryptedPrivateKey := sk_encryptedPrivateKey r;
  sk_vaultKeyPath := sk_vaultKeyPath r; sk_spendingLimitStroops := sk_spendingLimitStroops r; sk_spentAmountStroops := spent;
  sk_expiresAt := sk_expiresAt r; sk_createdAt := sk_createdAt r; sk_policy := sk_policy r |}.

(** ** The state of the nodes and services *)

Notation session_redis := (jsmap (SessionKeyRecord * Z)) (only parsing).

Record skworld := SkWorld {
  kw_redis : session_redis;
  kw_rows : list session_row;
  kw_vault : list (string * string);
  (** the cache of every node *)
  kw_caches : jsmap (jsmap SessionKeyCacheEntry);
  (** revocations published on the channel *)
  kw_published : list string;
  (** calls of the services so far *)
  kw_calls : nat;
  kw_now : Z
}.

Class SessionEnv := {
  (** what becomes of the n-th call *)
  fate : nat → call_fate;
  (** [vaultClient.read] after the given writes *)
  vault_read : list (string * string) → string → option string
}.

Definition set_sessions (f : session_redis → session_redis) (w : skworld) : skworld :=
  SkWorld (f (kw_redis w)) (kw_rows w) (kw_vault w) (kw_caches w) (kw_published w) (kw_calls w) (kw_now w).
Definition set_rows (f : list session_row → list session_row) (w : skworld) : skworld :=
  SkWorld (kw_redis w) (f (kw_rows w)) (kw_vault w) (kw_caches w) (kw_published w) (kw_calls w) (kw_now w).
Definition set_cache (node : string) (f : jsmap SessionKeyCacheEntry → jsmap SessionKeyCacheEntry) (w : skworld) : skworld :=
  SkWorld (kw_redis w) (kw_rows w) (kw_vault w) (jset node (f (default [] (jget node (kw_caches w)))) (kw_caches w))
    (kw_published w) (kw_calls w) (kw_now w).
Definition counted (w : skworld) : skworld :=
  SkWorld (kw_redis w) (kw_rows w) (kw_vault w) (kw_caches w) (kw_published w) (S (kw_calls w)) (kw_now w).
Definition later (ms : Z) (w : skworld) : skworld :=
  SkWorld (kw_redis w) (kw_rows w) (kw_vault w) (kw_caches w) (kw_published w) (kw_calls w) (kw_now w + Z.max 0 ms).

(** The record Redis has under a key at an instant. *)
Definition live_session (key : string) (w : skworld) : option SessionKeyRecord :=
  match jget key (kw_redis w) with
  | Some (r, til) => if kw_now w <? til then Some r else None
  | None => None
  end.

Definition SESSION_KEY_PREFIX : string := "session_key:".
Definition DEFAULT_EXPIRY_SECONDS : Z := 86400.
Definition MAX_LOCAL_CACHE_TTL_MS : Z := 5000.
Definition HIGH_VALUE_THRESHOLD_STROOPS : Z := 100000000000.

Definition isHighValueAmount (requestedAmountStroops : string) : bool :=
  match BigInt requestedAmountStroops with
  | Some a => HIGH_VALUE_THRESHOLD_STROOPS <? a
  | None => true
  end.

Definition denied (error : string) : SignResult :=
  {| sg_success := false; sg_signedTxXdr := None; sg_remainingBudgetStroops := None; sg_error := Some error |}.

Section signer.
Context `{SE : SessionEnv}.
Implicit Types w : skworld.

#[export] Instance session_services : Services skworld := {| next_fate := λ w, fate (kw_calls w); tick := counted |}.

Definition redis_read (key : string) : M skworld (option SessionKeyRecord) := ask (live_session key).
Definition redis_del (key : string) : M skworld () := write (set_sessions (jdel key)).
Definition redis_setex (key : string) (ttl : Z) (r : SessionKeyRecord) : M skworld () :=
  throw_if (ttl <=? 0) (Exn "ReplyError" "ERR invalid expire time in 'setex' command");;
  write (λ w, set_sessions (jset key (r, kw_now w + ttl * 1000)) w).
Definition db_update (key : string) (f : session_row → session_row) : M skworld () :=
  write (set_rows (fmap (λ r, if String.eqb (sw_session_public_key r) key then f r else r))).

(** *** sessionKeyCache.ts *)

Definition cache_get (node key : string) : M skworld (option SessionKeyCacheEntry) :=
  cache ← gets (λ w, default [] (jget node (kw_caches w)));
  now ← gets kw_now;
  match jget key cache with
  | None => mret None
  | Some entry =>
      if MAX_LOCAL_CACHE_TTL_MS <? now - ce_cachedAt entry then modify (set_cache node (jdel key));; mret None
      else mret (Some entry)
  end.

Definition cache_set (node : string) (r : SessionKeyRecord) : M skworld () :=
  now ← gets kw_now;
  modify (set_cache node (jset (sk_sessionPublicKey r)
    {| ce_keyId := sk_vaultKeyPath r; ce_publicKey := sk_sessionPublicKey r; ce_ownerAddress := sk_userId r;
       ce_expiresAtLedger := sk_expiresAt r; ce_isRevoked := false; ce_cachedAt := now |})).

Definition markRevoked (node key : string) : M skworld () :=
  cache ← gets (λ w, default [] (jget node (kw_caches w)));
  now ← gets kw_now;
  let existing := jget key cache in
  modify (set_cache node (jset key
    {| ce_keyId := default key (ce_keyId <$> existing); ce_publicKey := key;
       ce_ownerAddress := default "" (ce_ownerAddress <$> existing);
       ce_expiresAtLedger := default 0 (ce_expiresAtLedger <$> existing); ce_isRevoked := true; ce_cachedAt := now |})).

Definition publish (key : string) : M skworld () :=
  write (λ w, SkWorld (kw_redis w) (kw_rows w) (kw_vault w) (kw_caches w) (kw_published w ++ [key]) (kw_calls w) (kw_now w)).

Definition broadcastRevocation (node key : string) : M skworld () :=
  markRevoked node key;; try_catch (publish key) (λ _, mret ()).

(** *** sessionKeySigner.ts *)

Definition redis_key (publicKey : string) : string := SESSION_KEY_PREFIX +:+ publicKey.

(** A signer with or without a cache ([revocationCache?]). *)
Definition on_cache (node : option string) (c : string → M skworld ()) : M skworld () :=
  match node with Some n => c n | None => mret () end.

Definition createSessionKey (userId publicKey encryptedPrivateKey : string) (policy : SessionKeyPolicy) : M skworld SessionKeyRecord :=
  let vaultKeyPath := "delego/session-keys/" +:+ userId +:+ "/" +:+ publicKey in
  write (λ w, SkWorld (kw_redis w) (kw_rows w) (kw_vault w ++ [(vaultKeyPath, encryptedPrivateKey)]) (kw_caches w)
                (kw_published w) (kw_calls w) (kw_now w));;
  now ← gets kw_now;
  let record := {|
    sk_sessionPublicKey := publicKey; sk_userId := userId; sk_encryptedPrivateKey := encryptedPrivateKey;
    sk_vaultKeyPath := vaultKeyPath; sk_spendingLimitStroops := sk_maxTotalStroops policy; sk_spentAmountStroops := "0";
    sk_expiresAt := now / 1000 + sk_expiresInSeconds policy; sk_createdAt := now; sk_policy := policy |} in
  let ttl := if sk_expiresInSeconds policy =? 0 then DEFAULT_EXPIRY_SECONDS else sk_expiresInSeconds policy in
  redis_setex (redis_key publicKey) ttl record;;
  expires_at ← some_or_throw (TimeClip (sk_expiresAt record * 1000)) (Exn "RangeError" "Invalid time value");
  write (set_rows (λ rows, rows ++ [{|
    sw_session_public_key := publicKey; sw_user_id := userId; sw_vault_key_path := vaultKeyPath;
    sw_spending_limit := sk_spendingLimitStroops record; sw_spent_amount := "0"; sw_expires_at := expires_at;
    sw_policy := policy; sw_revoked := false |}]));;
  mret record.

(** The placeholders the code has for reading the XDR and for signing it. *)
Definition extractContractIdFromXdr (xdr : string) : string := "EXTRACTED_CONTRACT_ID".
Definition extractMethodFromXdr (xdr : string) : string := "EXTRACTED_METHOD".
Definition signTransaction (xdr encryptedKey : string) : string := xdr +:+ "_SIGNED".

(** What [signWithSessionKey] has read and computed when it starts to write. *)
Record ticket := {
  ti_record : SessionKeyRecord; ti_now : Z; ti_amount : Z; ti_spent : Z; ti_limit : Z; ti_signed : string
}.

(** Steps 5 and 6: why a request within the limit per call is refused, if it is. *)
Definition policy_denies (record : SessionKeyRecord) (requestedAmount remaining : Z) (xdr : string) : option string :=
  if remaining <? requestedAmount then
    Some ("Requested amount " +:+ dec requestedAmount +:+ " exceeds remaining budget " +:+ dec remaining)
  else if negb (bool_decide (extractContractIdFromXdr xdr ∈ sk_allowedContracts (sk_policy record))) then
    Some ("Contract " +:+ extractContractIdFromXdr xdr +:+ " not allowed by session key policy")
  else if negb (bool_decide (extractMethodFromXdr xdr ∈ sk_allowedMethods (sk_policy record))) then
    Some ("Method " +:+ extractMethodFromXdr xdr +:+ " not allowed by session key policy")
  else None.

(** Steps 2 to 8, on the record that was read. *)
Definition check_record (dto : SignWithSessionKeyDTO) (record : SessionKeyRecord) : M skworld (SignResult + ticket) :=
  instant ← gets kw_now;
  let now := instant / 1000 in
  if sk_expiresAt record <=? now then
    redis_del (redis_key (dt_sessionPublicKey dto));; mret (inl (denied "Session key has expired"))
  else
    requestedAmount ← BigInt_throw (dt_requestedAmountStroops dto);
    if requestedAmount <=? 0 then mret (inl (denied "Requested amount must be positive"))
    else
      maxPerCall ← BigInt_throw (sk_maxPerCallStroops (sk_policy record));
      if maxPerCall <? requestedAmount then
        mret (inl (denied ("Requested amount " +:+ dec requestedAmount +:+ " exceeds per-call limit " +:+ dec maxPerCall)))
      else
        spent ← BigInt_throw (sk_spentAmountStroops record);
        limit ← BigInt_throw (sk_spendingLimitStroops record);
        match policy_denies record requestedAmount (limit - spent) (dt_contractCallXdr dto) with
        | Some error => mret (inl (denied error))
        | None =>
            encryptedKey ← ask (λ w, vault_read (kw_vault w) (sk_vaultKeyPath record));
            if truthy encryptedKey then
              mret (inr {| ti_record := record; ti_now := now; ti_amount := requestedAmount; ti_spent := spent; ti_limit := limit;
                           ti_signed := signTransaction (dt_contractCallXdr dto) (default "" encryptedKey) |})
            else mret (inl (denied "Failed to retrieve session key from Vault"))
        end.

Definition sign_check (node : option string) (dto : SignWithSessionKeyDTO) : M skworld (SignResult + ticket) :=
  let key := dt_sessionPublicKey dto in
  cached ← (if isHighValueAmount (dt_requestedAmountStroops dto) then mret None
            else match node with Some n => cache_get n key | None => mret None end);
  if default false (ce_isRevoked <$> cached) then mret (inl (denied "Session key has been revoked"))
  else
    raw ← redis_read (redis_key key);
    match raw with
    | None => on_cache node (λ n, modify (set_cache n (jdel key)));; mret (inl (denied "Session key not found or expired"))
    | Some record => on_cache node (λ n, cache_set n record);; check_record dto record
    end.

(** Step 9. *)
Definition sign_commit (key : string) (t : ticket) : M skworld SignResult :=
  let newSpent := ti_spent t + ti_amount t in
  redis_setex (redis_key key) (sk_expiresAt (ti_record t) - ti_now t) (with_spent (dec newSpent) (ti_record t));;
  db_update key (row_spent (dec newSpent));;
  mret {| sg_success := true; sg_signedTxXdr := Some (ti_signed t);
          sg_remainingBudgetStroops := Some (dec (ti_limit t - newSpent)); sg_error := None |}.

Definition signWithSessionKey (node : option string) (dto : SignWithSessionKeyDTO) : M skworld SignResult :=
  r ← sign_check node dto;
  match r with
  | inl result => mret result
  | inr t => sign_commit (dt_sessionPublicKey dto) t
  end.

Definition revokeSessionKey (node : option string) (key : string) : M skworld () :=
  redis_del (redis_key key);;
  db_update key row_revoked;;
  on_cache node (λ n, broadcastRevocation n key).

Record SessionKeyStatus := {
  st_expired : bool; st_spentStroops : string; st_limitStroops : string; st_remainingStroops : string; st_expiresAt : Z
}.

Definition getSessionKeyStatus (key : string) : M skworld (option SessionKeyStatus) :=
  raw ← redis_read (redis_key key);
  match raw with
  | None => mret None
  | Some record =>
      instant ← gets kw_now;
      spent ← BigInt_throw (sk_spentAmountStroops record);
      limit ← BigInt_throw (sk_spendingLimitStroops record);
      mret (Some {| st_expired := sk_expiresAt record <=? instant / 1000; st_spentStroops := dec spent; st_limitStroops := dec limit;
                    st_remainingStroops := dec (limit - spent); st_expiresAt := sk_expiresAt record |})
  end.
End signer.

(** ** ephemeralSigner.ts *)

Record EphemeralSigner := { ep_keyBuffer : list Z; ep_zeroized : bool }.

Section ephemeral.
(** [StrKey.decodeEd25519SecretSeed] and the signature of the SDK with a raw seed *)
Context (decodeSeed : string → exn + list Z) (sign_with : list Z → list Z → exn + list Z).

Definition newEphemeralSigner {S} (secretKey : string) : M S EphemeralSigner :=
  seed ← answer (decodeSeed secretKey); mret {| ep_keyBuffer := seed; ep_zeroized := false |}.

Definition zeroize : M EphemeralSigner () :=
  done ← gets ep_zeroized;
  if done : bool then mret ()
  else modify (λ s, {| ep_keyBuffer := (λ _, 0) <$> ep_keyBuffer s; ep_zeroized := true |}).

Definition ephemeral_sign (data : list Z) : M EphemeralSigner (list Z) :=
  done ← gets ep_zeroized;
  throw_if done (Error "EphemeralSigner: key material has already been zeroized");;
  try_finally (seed ← gets ep_keyBuffer; answer (sign_with seed data)) zeroize.
End ephemeral.
