(* ===== verification/SessionKeysCorrect.v ===== *)
(** * Session keys: theorems

    Over any history of calls on any node, with any failures of the services, what is
    signed with a key stays within the budget it had; a revoked key signs nothing; an
    ephemeral signer signs once and leaves no key behind.  The last part shows what
    interleaved calls break. *)
From S2P Require Import Prelude JsLib JsCollections Services Calendar SessionKeys.
Local Open Scope Z_scope.

Section budget.
Context `{SE : SessionEnv}.
Implicit Types w : skworld.

Notation live pk := (live_session (redis_key pk)).

(** ** How a key develops

    From one state to a later one: a key that is alive was alive with the same policy,
    limit and expiry, and not more had been spent. *)
Definition spent_le (a b : string) : Prop :=
  a = b ∨ ∃ x y, BigInt a = Some x ∧ BigInt b = Some y ∧ x ≤ y.

Definition narrowed (r r' : SessionKeyRecord) : Prop :=
  sk_policy r' = sk_policy r ∧ sk_spendingLimitStroops r' = sk_spendingLimitStroops r ∧
  spent_le (sk_spentAmountStroops r) (sk_spentAmountStroops r').

Definition narrows (pk : string) w w' : Prop :=
  kw_now w ≤ kw_now w' ∧
  ∀ r', live pk w' = Some r' → ∃ r, live pk w = Some r ∧ narrowed r r'.

#[export] Instance narrowed_preorder : PreOrder narrowed.
Proof.
  split; [by intros r; repeat split; left |]. intros r1 r2 r3 (A1 & A2 & A3) (B1 & B2 & B3). split; [congruence |]. split; [congruence |].
  destruct A3 as [-> | (x & y & Hx & Hy & Hxy)]; [done |]. destruct B3 as [<- | (y' & z & Hy' & Hz & Hyz)]; [right; eauto |].
  right. exists x, z. rewrite Hy in Hy'. injection Hy' as <-. split; [done |]. split; [done | lia].
Qed.

#[export] Instance narrows_preorder pk : PreOrder (narrows pk).
Proof.
  split; [intros w; split; [done |]; intros r' H; by exists r' |]. intros w1 w2 w3 [H1 H2] [G1 G2]. split; [lia |].
  intros r' Hr'. destruct (G2 _ Hr') as (r2 & Hr2 & Hn). destruct (H2 _ Hr2) as (r1 & Hr1 & Hn'). exists r1. split; [done |]. by etrans.
Qed.

Lemma same_redis_narrows pk w w' : kw_redis w' = kw_redis w → kw_now w' = kw_now w → narrows pk w w'.
Proof. intros Hr Hn. split; [lia |]. intros r'. unfold live_session. rewrite Hr, Hn. intros H. exists r'. by split. Qed.

Lemma del_narrows pk key w : narrows pk w (set_sessions (jdel key) w).
Proof.
  split; [done |]. intros r'. unfold live_session. simpl. rewrite jget_jdel. destruct (decide _); [done |].
  intros H. exists r'. by split.
Qed.

Lemma redis_key_inj a b : redis_key a = redis_key b → a = b.
Proof. unfold redis_key, SESSION_KEY_PREFIX. simpl. intros H. by injection H. Qed.

Lemma set_narrows pk pk' r til w :
  (pk = pk' → ∃ r0, live pk w = Some r0 ∧ narrowed r0 r) →
  narrows pk w (set_sessions (jset (redis_key pk') (r, til)) w).
Proof.
  intros H. split; [done |]. intros r'. unfold live_session at 1. simpl. rewrite jget_jset. destruct (decide _) as [Heq | Hne].
  - destruct (kw_now w <? til); [| done]. intros [= <-]. apply H. by apply redis_key_inj.
  - intros Hr. exists r'. by split.
Qed.

Lemma tick_narrows pk w : narrows pk w (tick w).
Proof. by apply same_redis_narrows. Qed.

Lemma redis_read_narrows pk key : evolves (narrows pk) (redis_read key).
Proof. apply ask_evolves; [apply _ | apply tick_narrows]. Qed.
Lemma redis_del_narrows pk key : evolves (narrows pk) (redis_del key).
Proof. apply write_evolves; [apply _ | apply tick_narrows |]. intros w. apply del_narrows. Qed.
Lemma db_update_narrows pk key f : evolves (narrows pk) (db_update key f).
Proof. apply write_evolves; [apply _ | apply tick_narrows |]. intros w. by apply same_redis_narrows. Qed.
Lemma cache_narrows pk node f : evolves (narrows pk) (modify (set_cache node f)).
Proof. intros w. by apply same_redis_narrows. Qed.
Lemma publish_narrows pk key : evolves (narrows pk) (publish key).
Proof. apply write_evolves; [apply _ | apply tick_narrows |]. intros w. by apply same_redis_narrows. Qed.
Hint Resolve redis_read_narrows redis_del_narrows db_update_narrows cache_narrows publish_narrows : evolve.
Hint Extern 1 (evolves _ (ask _)) => apply ask_evolves; [apply _ | apply tick_narrows] : evolve.

Lemma sign_check_narrows pk node dto : evolves (narrows pk) (sign_check node dto).
Proof. unfold sign_check, check_record, cache_get, cache_set, on_cache, BigInt_throw. evolve. Qed.

Lemma revoke_narrows pk node key : evolves (narrows pk) (revokeSessionKey node key).
Proof. unfold revokeSessionKey, on_cache, broadcastRevocation, markRevoked. evolve. Qed.

Lemma status_narrows pk key : evolves (narrows pk) (getSessionKeyStatus key).
Proof. unfold getSessionKeyStatus, BigInt_throw. evolve. Qed.

Lemma markRevoked_narrows pk node key : evolves (narrows pk) (markRevoked node key).
Proof. unfold markRevoked. evolve. Qed.

(** A creation concerns only its own key. *)
Lemma create_narrows pk user pk' enc policy : pk ≠ pk' → evolves (narrows pk) (createSessionKey user pk' enc policy).
Proof.
  intros Hne. unfold createSessionKey, redis_setex. evolve.
  - apply write_evolves; [apply _ | apply tick_narrows |]. intros w. by apply same_redis_narrows.
  - apply write_evolves; [apply _ | apply tick_narrows |]. intros w. by apply set_narrows.
  - apply write_evolves; [apply _ | apply tick_narrows |]. intros w. by apply same_redis_narrows.
Qed.

(** ** Signing *)

(** Two states with the same keys at the same instant. *)
Definition same_keys w w' : Prop := kw_redis w' = kw_redis w ∧ kw_now w' = kw_now w.

#[export] Instance same_keys_preorder : PreOrder same_keys.
Proof. split; [done |]. intros w1 w2 w3 [] []. split; congruence. Qed.

Lemma same_keys_live pk w w' : same_keys w w' → live pk w' = live pk w.
Proof. intros [Hr Hn]. unfold live_session. by rewrite Hr, Hn. Qed.

Lemma read_session key w r w1 : redis_read key w = (inr r, w1) → r = live_session key w ∧ same_keys w w1.
Proof. intros H. by apply ask_inr in H as [-> ->]. Qed.

Lemma cache_same node f : evolves same_keys (modify (set_cache node f)).
Proof. by intros w. Qed.
Hint Resolve cache_same : evolve.

Lemma cached_same node dto :
  evolves same_keys (if isHighValueAmount (dt_requestedAmountStroops dto) then mret None
                     else match node with Some n => cache_get n (dt_sessionPublicKey dto) | None => mret None end).
Proof. unfold cache_get. evolve. Qed.

Lemma set_cache_same node r : evolves same_keys (on_cache node (λ n, cache_set n r)).
Proof. unfold on_cache, cache_set. evolve. Qed.

(** What a signature was granted for. *)
Definition granted (dto : SignWithSessionKeyDTO) (r : SessionKeyRecord) (now : Z) (t : ticket) : Prop :=
  ti_record t = r ∧ ti_now t = now / 1000 ∧ ti_now t < sk_expiresAt r ∧
  BigInt (dt_requestedAmountStroops dto) = Some (ti_amount t) ∧ 0 < ti_amount t ∧
  (∃ p, BigInt (sk_maxPerCallStroops (sk_policy r)) = Some p ∧ ti_amount t ≤ p) ∧
  BigInt (sk_spentAmountStroops r) = Some (ti_spent t) ∧ BigInt (sk_spendingLimitStroops r) = Some (ti_limit t) ∧
  ti_amount t ≤ ti_limit t - ti_spent t.

Lemma check_record_granted dto r w t w1 :
  check_record dto r w = (inr (inr t), w1) → granted dto r (kw_now w) t ∧ same_keys w w1.
Proof.
  unfold check_record. rewrite (bind_run (gets kw_now) _ w _ w eq_refl). cbv zeta. destruct (Z.leb_spec (sk_expiresAt r) (kw_now w / 1000)).
  { intros H'. by apply bind_inr in H' as ([] & w2 & _ & H'). }
  intros Hc. apply bind_inr in Hc as (a & w2 & Ha & Hc). apply some_or_throw_run in Ha as [Ha ->].
  destruct (Z.leb_spec a 0); [done |]. apply bind_inr in Hc as (p & w2 & Hp & Hc). apply some_or_throw_run in Hp as [Hp ->].
  destruct (Z.ltb_spec p a); [done |]. apply bind_inr in Hc as (s & w2 & Hs & Hc). apply some_or_throw_run in Hs as [Hs ->].
  apply bind_inr in Hc as (l & w2 & Hl & Hc). apply some_or_throw_run in Hl as [Hl ->].
  destruct (policy_denies _ _ _ _) eqn:Hd; [done |]. unfold policy_denies in Hd. destruct (Z.ltb_spec (l - s) a); [done |].
  apply bind_inr in Hc as (k & w2 & Hk & Hc). apply ask_inr in Hk as [-> ->].
  destruct (truthy _); [| done]. injection Hc as <- <-. unfold granted. simpl.
  repeat (split; [done |]). split; [| done]. repeat (split; [done |]). split; [by exists p |]. repeat (split; [done |]). lia.
Qed.

Lemma denied_not_success node dto w res w1 : sign_check node dto w = (inr (inl res), w1) → sg_success res = true → False.
Proof.
  unfold sign_check, check_record. cbv zeta. intros H. apply bind_inr in H as (cached & w2 & _ & H).
  destruct (default false _); [by injection H as <- _ |]. apply bind_inr in H as (raw & w3 & _ & H).
  destruct raw as [r |]; [| apply bind_inr in H as ([] & w4 & _ & H); by injection H as <- _].
  apply bind_inr in H as ([] & w4 & _ & H). apply bind_inr in H as (i & w5 & _ & H).
  destruct (_ <=? _); [apply bind_inr in H as ([] & w6 & _ & H); by injection H as <- _ |].
  apply bind_inr in H as (a & w6 & _ & H). destruct (_ <=? _); [by injection H as <- _ |].
  apply bind_inr in H as (p & w7 & _ & H). destruct (_ <? _); [by injection H as <- _ |].
  apply bind_inr in H as (s & w8 & _ & H). apply bind_inr in H as (l & w9 & _ & H).
  destruct (policy_denies _ _ _ _); [by injection H as <- _ |]. apply bind_inr in H as (k & w10 & _ & H).
  destruct (truthy k); [done | by injection H as <- _].
Qed.

Lemma sign_check_granted node dto w t w1 :
  sign_check node dto w = (inr (inr t), w1) →
  ∃ r, live (dt_sessionPublicKey dto) w = Some r ∧ granted dto r (kw_now w) t ∧ same_keys w w1.
Proof.
  unfold sign_check. cbv zeta. intros H. apply bind_inr in H as (cached & w2 & Hca & H).
  assert (same_keys w w2) as H2 by (pose proof (cached_same node dto w) as H2; by rewrite Hca in H2).
  destruct (default false _); [done |]. apply bind_inr in H as (raw & w3 & Hr & H). apply read_session in Hr as [Hr H3].
  destruct raw as [r |]; [| by apply bind_inr in H as ([] & w4 & _ & H)].
  apply bind_inr in H as ([] & w4 & Hs & H).
  assert (same_keys w3 w4) as H4 by (pose proof (set_cache_same node r w3) as H4; by rewrite Hs in H4).
  apply check_record_granted in H as [Hg H5]. exists r. rewrite <- (same_keys_live _ _ _ H2). split; [done |].
  assert (kw_now w4 = kw_now w) as <- by (destruct H2, H3, H4; congruence). split; [done |].
  etrans; [exact H2 |]. etrans; [exact H3 |]. by etrans.
Qed.

Lemma commit_narrowed dto r now t : granted dto r now t → narrowed r (with_spent (dec (ti_spent t + ti_amount t)) r).
Proof.
  intros (_ & _ & _ & _ & Ha & _ & Hs & _). split; [done |]. split; [done |]. right. exists (ti_spent t), (ti_spent t + ti_amount t).
  split; [done |]. split; [apply BigInt_dec | lia].
Qed.

Lemma commit_narrows pk dto r t w :
  live (dt_sessionPublicKey dto) w = Some r → granted dto r (kw_now w) t →
  narrows pk w (sign_commit (dt_sessionPublicKey dto) t w).2.
Proof.
  intros Hl Hg. unfold sign_commit. apply (evolves_from (narrows pk)); [| intros ?; evolve].
  unfold redis_setex, throw_if. destruct (_ <=? 0); [done |]. rewrite (bind_run (mret ()) _ w () w eq_refl). unfold write. apply call_at; [apply tick_narrows |]. simpl.
  etrans; [apply (tick_narrows pk w) |]. apply set_narrows. intros ->. exists r. split; [done |]. rewrite (proj1 Hg). by eapply commit_narrowed.
Qed.

Lemma sign_narrows pk node dto w : narrows pk w (signWithSessionKey node dto w).2.
Proof.
  unfold signWithSessionKey, mbind, M_bind. pose proof (sign_check_narrows pk node dto w) as H.
  destruct (sign_check node dto w) as [[e | [res | t]] w1] eqn:Hc; simpl in *; [done .. |].
  destruct (sign_check_granted _ _ _ _ _ Hc) as (r & Hr & Hg & Hk). etrans; [exact H |].
  eapply commit_narrows; [by rewrite (same_keys_live _ _ _ Hk) |]. by destruct Hk as [_ ->].
Qed.

(** ** Histories *)

Inductive session_op :=
  | SkCreate (user pk enc : string) (policy : SessionKeyPolicy)
  | SkSign (node : option string) (dto : SignWithSessionKeyDTO)
  | SkRevoke (node : option string) (pk : string)
  | SkStatus (pk : string)
  (** a revocation of another node arrives *)
  | SkReceive (node pk : string)
  | SkWait (ms : Z).

Definition run_session (o : session_op) w : skworld :=
  match o with
  | SkCreate user pk enc policy => (createSessionKey user pk enc policy w).2
  | SkSign node dto => (signWithSessionKey node dto w).2
  | SkRevoke node pk => (revokeSessionKey node pk w).2
  | SkStatus pk => (getSessionKeyStatus pk w).2
  | SkReceive node pk => (markRevoked node pk w).2
  | SkWait ms => later ms w
  end.

(** The amounts for which a call returned a signature with a key. *)
Definition signed_amount (pk : string) (o : session_op) w : list Z :=
  match o with
  | SkSign node dto =>
      match signWithSessionKey node dto w with
      | (inr res, _) =>
          if sg_success res && String.eqb (dt_sessionPublicKey dto) pk then option_list (BigInt (dt_requestedAmountStroops dto)) else []
      | _ => []
      end
  | _ => []
  end.

Fixpoint run_sessions (ops : list session_op) w : skworld :=
  match ops with [] => w | o :: ops => run_sessions ops (run_session o w) end.

Fixpoint signed_amounts (pk : string) (ops : list session_op) w : list Z :=
  match ops with [] => [] | o :: ops => signed_amount pk o w ++ signed_amounts pk ops (run_session o w) end.

(** What is left of the budget of a key, and its limit per call. *)
Definition budget (pk : string) w : Z :=
  match live pk w with
  | Some r =>
      match BigInt (sk_spendingLimitStroops r), BigInt (sk_spentAmountStroops r) with
      | Some l, Some s => Z.max 0 (l - s)
      | _, _ => 0
      end
  | None => 0
  end.

Definition per_call (pk : string) w (a : Z) : Prop :=
  ∃ r p, live pk w = Some r ∧ BigInt (sk_maxPerCallStroops (sk_policy r)) = Some p ∧ 0 < a ≤ p.

Definition creates (pk : string) (o : session_op) : bool :=
  match o with SkCreate _ pk' _ _ => String.eqb pk pk' | _ => false end.

Lemma later_narrows pk ms w : narrows pk w (later ms w).
Proof.
  split; [simpl; lia |]. intros r'. unfold live_session. simpl. destruct (jget _ _) as [[r til] |]; [| done].
  destruct (Z.ltb_spec (kw_now w + Z.max 0 ms) til); [| done]. intros [= ->]. destruct (Z.ltb_spec (kw_now w) til); [| lia]. exists r'. by split.
Qed.

Lemma run_session_narrows pk o w : creates pk o = false → narrows pk w (run_session o w).
Proof.
  destruct o as [user pk' enc policy | node dto | node pk' | pk' | node pk' | ms]; simpl; intros H.
  - apply create_narrows. by apply String.eqb_neq.
  - apply sign_narrows.
  - apply revoke_narrows.
  - apply status_narrows.
  - apply markRevoked_narrows.
  - apply later_narrows.
Qed.

Lemma narrows_budget pk w w' : narrows pk w w' → budget pk w' ≤ budget pk w.
Proof.
  intros [_ H]. unfold budget. destruct (live pk w') as [r' |] eqn:Hr'; [| repeat case_match; lia].
  destruct (H _ eq_refl) as (r & -> & _ & Hl & Hs). rewrite Hl. destruct (BigInt (sk_spendingLimitStroops r)) as [l |]; [| done].
  destruct Hs as [-> | (x & y & -> & -> & Hxy)]; [done | lia].
Qed.

Lemma narrows_per_call pk w w' a : narrows pk w w' → per_call pk w' a → per_call pk w a.
Proof. intros [_ H] (r' & p & Hr' & Hp & Ha). destruct (H _ Hr') as (r & Hr & Hpol & _). exists r, p. by rewrite <- Hpol. Qed.

(** A signature takes its amount off the budget. *)
Lemma sign_takes node dto w res w' :
  signWithSessionKey node dto w = (inr res, w') → sg_success res = true →
  ∃ a, BigInt (dt_requestedAmountStroops dto) = Some a ∧ per_call (dt_sessionPublicKey dto) w a ∧
    budget (dt_sessionPublicKey dto) w' + a ≤ budget (dt_sessionPublicKey dto) w.
Proof.
  intros H Hres. unfold signWithSessionKey in H. apply bind_inr in H as ([res' | t] & w1 & Hc & H).
  { injection H as <- <-. exfalso. revert Hc Hres. apply denied_not_success. }
  destruct (sign_check_granted _ _ _ _ _ Hc) as (r & Hr & Hg & Hk). pose proof Hg as (Hrec & Hnow & Hexp & Ha & Hpos & (p & Hp & Hle) & Hs & Hl & Hfit).
  exists (ti_amount t). split; [done |]. split; [by exists r, p |].
  unfold sign_commit in H. apply bind_inr in H as ([] & w2 & Hset & H). apply bind_inr in H as ([] & w3 & Hdb & H). injection H as <- <-.
  unfold redis_setex in Hset. apply bind_inr in Hset as ([] & w4 & Hpre & Hset). apply throw_if_run in Hpre as [Httl ->].
  apply write_inr in Hset as ->. apply write_inr in Hdb as ->.
  assert (budget (dt_sessionPublicKey dto) w = ti_limit t - ti_spent t) as -> by (unfold budget; rewrite Hr, Hl, Hs; lia).
  apply Z.leb_gt in Httl. unfold budget, live_session. simpl. rewrite jget_jset_eq.
  destruct (Z.ltb_spec (kw_now w1) (kw_now w1 + (sk_expiresAt (ti_record t) - ti_now t) * 1000)); [| lia]. simpl. rewrite Hrec, Hl, BigInt_dec. lia.
Qed.

Definition total (l : list Z) : Z := foldr Z.add 0 l.

Lemma signed_step pk o w :
  creates pk o = false →
  Forall (per_call pk w) (signed_amount pk o w) ∧ budget pk (run_session o w) + total (signed_amount pk o w) ≤ budget pk w.
Proof.
  intros Hc. pose proof (narrows_budget _ _ _ (run_session_narrows pk o w Hc)) as Hb.
  destruct o as [| node dto | | | |]; simpl in *; try (split; [constructor | lia]).
  destruct (signWithSessionKey node dto w) as [[e | res] w'] eqn:Hs; simpl in *; [split; [constructor | lia] |].
  destruct (sg_success res) eqn:Hok; simpl; [| split; [constructor | lia]]. destruct (String.eqb_spec (dt_sessionPublicKey dto) pk) as [<- |];
    [| split; [constructor | simpl; lia]].
  destruct (sign_takes _ _ _ _ _ Hs Hok) as (a & -> & Hp & Hle). simpl. split; [by repeat constructor | lia].
Qed.

Lemma signed_total pk ops w :
  Forall (λ o, creates pk o = false) ops →
  Forall (per_call pk w) (signed_amounts pk ops w) ∧ total (signed_amounts pk ops w) ≤ budget pk w.
Proof.
  revert w. induction ops as [| o ops IH]; intros w Hops; [split; [constructor | unfold budget; simpl; repeat case_match; lia] |].
  apply Forall_cons in Hops as [Ho Hops]. simpl. destruct (signed_step pk o w Ho) as [H1 H2]. destruct (IH (run_session o w) Hops) as [H3 H4].
  split.
  - apply Forall_app. split; [done |]. eapply Forall_impl; [exact H3 |]. intros a Ha. by eapply narrows_per_call; [apply run_session_narrows |].
  - unfold total in *. rewrite foldr_app. assert (∀ l z, foldr Z.add z l = foldr Z.add 0 l + z) as Hf by (intros l z; induction l; simpl; lia).
    rewrite Hf. lia.
Qed.

Lemma no_budget pk ops w : Forall (λ o, creates pk o = false) ops → budget pk w = 0 → signed_amounts pk ops w = [].
Proof.
  intros Hops Hb. destruct (signed_total pk ops w Hops) as [H1 H2]. rewrite Hb in H2. clear Hb.
  destruct (signed_amounts pk ops w) as [| a l]; [done | exfalso].
  apply Forall_cons in H1 as [(r & p & _ & _ & Ha) Hl]. assert (0 ≤ total l); [| simpl in H2; lia].
  clear H2. induction Hl as [| b l (r' & p' & _ & _ & Hb) Hl IH]; simpl; lia.
Qed.

Lemma revoked_budget node pk w0 w : revokeSessionKey node pk w0 = (inr (), w) → budget pk w = 0.
Proof.
  unfold revokeSessionKey. intros H. apply bind_inr in H as ([] & w1 & Hdel & H). apply write_inr in Hdel as ->.
  set (w1 := set_sessions _ _) in *. assert (live pk w1 = None) as Hn by (unfold live_session, w1; simpl; by rewrite jget_jdel_eq).
  assert (narrows pk w1 w) as [_ Hnar].
  { change w with ((inr () : exn + (), w).2). rewrite <- H. refine (evolves_bind (narrows pk) _ _ _ _ w1); [evolve | intros ?].
    unfold on_cache, broadcastRevocation, markRevoked. evolve. }
  unfold budget. destruct (live pk w) as [r |] eqn:Hr; [| done]. destruct (Hnar _ eq_refl) as (r0 & Hr0 & _). congruence.
Qed.

Lemma created_live user pk enc policy w0 r w :
  createSessionKey user pk enc policy w0 = (inr r, w) →
  live pk w = Some r ∧ sk_policy r = policy ∧ sk_spendingLimitStroops r = sk_maxTotalStroops policy ∧ sk_spentAmountStroops r = "0".
Proof.
  unfold createSessionKey. intros H. apply bind_inr in H as ([] & w1 & Hv & H). apply write_inr in Hv as ->.
  apply bind_inr in H as (now & w1 & Hnow & H). injection Hnow as <- <-. cbv zeta in H. apply bind_inr in H as ([] & w1 & Hset & H).
  apply bind_inr in Hset as ([] & w2 & Httl & Hset). apply throw_if_run in Httl as [Httl ->]. apply write_inr in Hset as ->.
  apply bind_inr in H as (e & w3 & He & H). apply some_or_throw_run in He as [_ ->]. apply bind_inr in H as ([] & w4 & Hdb & H).
  apply write_inr in Hdb as ->. injection H as <- <-. split; [| done]. unfold live_session. simpl. rewrite jget_jset_eq.
  apply Z.leb_gt in Httl. destruct (_ <? _) eqn:Hlt; [done |]. apply Z.ltb_ge in Hlt. destruct (sk_expiresInSeconds policy =? 0); lia.
Qed.

(** C30. A session key stays within its budget, as far as callers declare what they spend.
    Over any history of calls, one at a time, on any nodes, with any failures of Redis,
    PostgreSQL, the vault and the publisher, and as long as the key is not created anew:
    the amounts declared in the requests for which signatures are returned are positive,
    within the limit per call and together at most what was left of the budget; after a
    creation that is the total of the policy; and after a revocation that returned,
    nothing is signed at all, whatever the caches of the nodes say. The code does not
    compare the declared amount with the call it signs, and calls at the same time can
    exceed the budget ([concurrent_signatures_exceed]). *)
Theorem session_budget pk ops w :
  Forall (λ o, creates pk o = false) ops →
  Forall (per_call pk w) (signed_amounts pk ops w) ∧ total (signed_amounts pk ops w) ≤ budget pk w ∧
  (∀ user enc policy w0 r l, createSessionKey user pk enc policy w0 = (inr r, w) → BigInt (sk_maxTotalStroops policy) = Some l →
     total (signed_amounts pk ops w) ≤ Z.max 0 l) ∧
  (∀ node w0, revokeSessionKey node pk w0 = (inr (), w) → signed_amounts pk ops w = []).
Proof.
  intros Hops. destruct (signed_total pk ops w Hops) as [H1 H2]. split; [done |]. split; [done |]. split.
  - intros user enc policy w0 r l Hc Hl. destruct (created_live _ _ _ _ _ _ _ Hc) as (Hr & _ & Hlim & Hs).
    unfold budget in H2. rewrite Hr, Hlim, Hl, Hs in H2. assert (BigInt "0" = Some 0) as H0 by reflexivity. rewrite H0 in H2. lia.
  - intros node w0 Hr. apply no_budget; [done |]. by eapply revoked_budget.
Qed.
End budget.

(** ** The ephemeral signer *)

(** An ephemeral signer signs at most once: after its first use, successful or not, its
    buffer holds only zeros and every further use is refused. *)
Theorem ephemeral_once sign_with data sg :
  let sg' := (ephemeral_sign sign_with data sg).2 in
  ep_zeroized sg = false →
  ep_zeroized sg' = true ∧ Forall (λ b, b = 0) (ep_keyBuffer sg') ∧ length (ep_keyBuffer sg') = length (ep_keyBuffer sg) ∧
  ∀ data', ∃ e, ephemeral_sign sign_with data' sg' = (inl e, sg').
Proof.
  destruct sg as [buf z]. simpl. intros ->. unfold ephemeral_sign, zeroize. run_unfold.
  destruct (sign_with buf data); simpl; (split; [done |]); (split; [by apply Forall_fmap, Forall_true |]);
    (split; [by rewrite length_fmap |]); intros; by eexists.
Qed.

(** ** Runs *)

#[local] Instance demo_services : SessionEnv :=
  {| fate := λ _, CallOk; vault_read := λ writes path, snd <$> List.find (λ kv, String.eqb kv.1 path) writes |}.

Definition demo_policy : SessionKeyPolicy := {|
  sk_allowedContracts := ["EXTRACTED_CONTRACT_ID"]; sk_allowedMethods := ["EXTRACTED_METHOD"];
  sk_maxPerCallStroops := "60"; sk_maxTotalStroops := "100"; sk_expiresInSeconds := 3600 |}.

Definition no_sessions : skworld := SkWorld [] [] [] [] [] 0 1000000.
Definition demo_session : skworld := (createSessionKey "user" "GKEY" "enc" demo_policy no_sessions).2.
Definition demo_dto (amount xdr : string) : SignWithSessionKeyDTO := Build_SignWithSessionKeyDTO "GKEY" xdr amount.

(** Sixty is signed once, not twice; forty still fits. *)
Lemma session_budget_witness :
  let ops := [SkSign (Some "a") (demo_dto "60" "X"); SkSign (Some "b") (demo_dto "60" "X"); SkWait 1000; SkSign None (demo_dto "40" "X")] in
  signed_amounts "GKEY" ops demo_session = [60; 40] ∧ total (signed_amounts "GKEY" ops demo_session) ≤ 100.
Proof.
  intros ops. split; [vm_compute; reflexivity |].
  destruct (session_budget "GKEY" ops demo_session ltac:(repeat constructor)) as (_ & _ & H & _).
  apply (H "user" "enc" demo_policy no_sessions (fst (List.nth 0 (kw_redis demo_session).*2
    (Build_SessionKeyRecord "" "" "" "" "" "" 0 0 demo_policy, 0))) 100); vm_compute; reflexivity.
Defined.

(** Two requests that interleave at their reads exceed the budget together: the update of
    the spent amount, called atomic in its comment, is a read and a later write. *)
Theorem concurrent_signatures_exceed :
  ∃ t1 t2 w1 w2 r1 r2 w3 w4,
    sign_check None (demo_dto "60" "A") demo_session = (inr (inr t1), w1) ∧
    sign_check None (demo_dto "60" "B") w1 = (inr (inr t2), w2) ∧
    sign_commit "GKEY" t1 w2 = (inr r1, w3) ∧ sign_commit "GKEY" t2 w3 = (inr r2, w4) ∧
    sg_success r1 = true ∧ sg_success r2 = true ∧ budget "GKEY" demo_session = 100 ∧ budget "GKEY" w4 = 40.
Proof. do 8 eexists. repeat (split; [vm_compute; reflexivity |]). vm_compute. reflexivity. Qed.

(** A revocation between the read and the write of a signature is undone: the write
    stores the key again, and it signs. *)
Theorem revoked_key_returns :
  ∃ t w1 w2 r w3 r' w4,
    sign_check None (demo_dto "10" "A") demo_session = (inr (inr t), w1) ∧ revokeSessionKey None "GKEY" w1 = (inr (), w2) ∧
    sign_commit "GKEY" t w2 = (inr r, w3) ∧ signWithSessionKey None (demo_dto "10" "B") w3 = (inr r', w4) ∧ sg_success r' = true.
Proof. do 7 eexists. repeat (split; [vm_compute; reflexivity |]). vm_compute. reflexivity. Qed.

(** The contract and the method of a call are never read: a policy that lists real
    contracts refuses every call, one that lists the placeholder allows every call. *)
Theorem policy_not_enforced xdr :
  (∀ record amount remaining,
     "EXTRACTED_CONTRACT_ID" ∉ sk_allowedContracts (sk_policy record) → policy_denies record amount remaining xdr ≠ None) ∧
  (signWithSessionKey None (demo_dto "10" xdr) demo_session).1 = inr (Build_SignResult true (Some (xdr +:+ "_SIGNED")) (Some "90") None).
Proof.
  split; [| vm_compute; reflexivity].
  intros record amount remaining H. unfold policy_denies, extractContractIdFromXdr. rewrite bool_decide_eq_false_2 by done.
  by destruct (remaining <? amount).
Qed.
