(* ===== verification/KillSwitch.v ===== *)
(** * The emergency kill switch (apps/backend/wallet/src/killswitch/service.ts)

    One call rejects the open purchase proposals of the users of a wallet, deletes their
    session keys from Redis and revokes the permissions of those keys on the chain.  The
    state joins the session keys (SessionKeys.v) and the permissions service
    (Permissions.v) with the rows of users, wallets and purchase_proposals the SQL reads.

    The pages [SCAN] returns are a parameter, as Redis documents it: every key that is
    there during the iteration appears in some page, possibly more than once. *)
From S2P Require Import Prelude JsLib JsCollections Services Calendar SpendLimits Permissions PermissionsCorrect SessionKeys SessionKeysCorrect.
Local Open Scope Z_scope.

Record EmergencyRevocationDTO := { er_walletAddress : string; er_adminSecretToken : option string; er_revokeOnChain : bool }.
Record EmergencyRevocationResult := { em_cancelledProposalCount : Z; em_flushedSessionCount : Z; em_revokedPermissionCount : Z }.

(** The status of a purchase proposal; the kill switch looks for two of them. *)
Inductive proposal_status := pp_pending_approval | pp_auto_approved | pp_rejected | pp_other (name : string).

#[export] Instance proposal_status_eq_dec : EqDecision proposal_status.
Proof. solve_decision. Defined.

Record proposal := { pp_id : string; pp_user_id : string; pp_status : proposal_status }.

Record kworld := KWorld {
  ks_sessions : skworld;
  ks_permissions : pmworld;
  (** id and stellar_address of users, user_id and stellar_address of wallets *)
  ks_users : list (string * string);
  ks_wallets : list (string * string);
  ks_proposals : list proposal
}.

Class KillEnv := {
  KILLSWITCH_ADMIN_SECRET : option string;
  (** the pages of [SCAN] over the keys of Redis *)
  scan_pages : list string → list (list string)
}.

Class ScanLaw (KE : KillEnv) := {
  law_scan keys key : key ∈ keys → startsWith key SESSION_KEY_PREFIX = true → key ∈ concat (scan_pages keys)
}.

Definition DELETE_BATCH_SIZE : nat := 500.

(** [for (offset = 0; offset < l.length; offset += n) l.slice(offset, offset + n)]; one
    round per element is enough when [n] is positive. *)
Fixpoint batches (fuel n : nat) (l : list string) : list (list string) :=
  match fuel, l with
  | S fuel', _ :: _ => take n l :: batches fuel' n (drop n l)
  | _, _ => []
  end.

Definition open_proposal (p : proposal) : bool :=
  bool_decide (pp_status p = pp_pending_approval) || bool_decide (pp_status p = pp_auto_approved).

Definition reject_proposal (p : proposal) : proposal := {| pp_id := pp_id p; pp_user_id := pp_user_id p; pp_status := pp_rejected |}.

Section killswitch.
Context `{PE : PermissionsEnv} `{SE : SessionEnv} `{KE : KillEnv}.
Implicit Types w : kworld.

Definition on_sessions {A} (c : M skworld A) : M kworld A :=
  zoom ks_sessions (λ s w, KWorld s (ks_permissions w) (ks_users w) (ks_wallets w) (ks_proposals w)) c.
Definition on_permissions {A} (c : M pmworld A) : M kworld A :=
  zoom ks_permissions (λ p w, KWorld (ks_sessions w) p (ks_users w) (ks_wallets w) (ks_proposals w)) c.

Definition count_call w : kworld := KWorld (counted (ks_sessions w)) (ks_permissions w) (ks_users w) (ks_wallets w) (ks_proposals w).

#[export] Instance kill_services : Services kworld := {| next_fate := λ w, fate (kw_calls (ks_sessions w)); tick := count_call |}.

Definition affected_users (walletAddress : string) w : list string :=
  uniq (fst <$> List.filter (λ u, String.eqb u.2 walletAddress) (ks_users w ++ ks_wallets w)).

Definition cancel_proposals (walletAddress : string) : M kworld (list string) :=
  call (λ w,
    let hit p := bool_decide (pp_user_id p ∈ affected_users walletAddress w) && open_proposal p in
    (pp_id <$> List.filter hit (ks_proposals w),
     KWorld (ks_sessions w) (ks_permissions w) (ks_users w) (ks_wallets w)
       ((λ p, if hit p then reject_proposal p else p) <$> ks_proposals w))).

Definition resolveUserIds (walletAddress : string) : M kworld (list string) := ask (affected_users walletAddress).

Definition assertAuthorized (token : option string) : M kworld () :=
  if truthy KILLSWITCH_ADMIN_SECRET then
    throw_if (negb (truthy token)) (Error "Administrator authorization is required");;
    throw_if (negb (bool_decide (token = KILLSWITCH_ADMIN_SECRET))) (Error "Invalid administrator authorization token")
  else mret ().

(** The keys of one page that belong to the users. *)
Fixpoint page_sessions (userIds : list string) (walletAddress : string) (keys : list string) : M kworld (list (string * string)) :=
  match keys with
  | [] => mret []
  | key :: keys' =>
      raw ← on_sessions (redis_read key);
      rest ← page_sessions userIds walletAddress keys';
      mret (match raw with
            | Some record =>
                if bool_decide (sk_userId record ∈ userIds) || String.eqb (sk_userId record) walletAddress
                then (key, sk_sessionPublicKey record) :: rest else rest
            | None => rest
            end)
  end.

Fixpoint scan_sessions (userIds : list string) (walletAddress : string) (pages : list (list string)) : M kworld (list (string * string)) :=
  match pages with
  | [] => mret []
  | page :: pages' =>
      on_sessions (ask (λ _, ()));;
      found ← page_sessions userIds walletAddress page;
      rest ← scan_sessions userIds walletAddress pages';
      mret (found ++ rest)
  end.

Definition findSessions (userIds : list string) (walletAddress : string) : M kworld (list (string * string)) :=
  keys ← gets (λ w, jkeys (kw_redis (ks_sessions w)));
  scan_sessions userIds walletAddress (scan_pages keys).

(** [redis.del(...batch)] *)
Definition delete_batch (batch : list string) : M kworld () :=
  on_sessions (write (set_sessions (λ m, foldr jdel m batch))).

Definition revokePermissions (walletAddress : string) (sessionAddresses : list string) : M kworld () :=
  let contractId := default "" (coalesce SOROBAN_PERMISSIONS_CONTRACT_ID PERMISSIONS_CONTRACT_ID) in
  on_permissions (revokeBatch (Some contractId) sessionAddresses (Some walletAddress)).

Definition execute (dto : EmergencyRevocationDTO) : M kworld EmergencyRevocationResult :=
  throw_if (negb (isValidStellarPublicKey (er_walletAddress dto))) (Error "A valid wallet address is required");;
  assertAuthorized (er_adminSecretToken dto);;
  cancelled ← cancel_proposals (er_walletAddress dto);
  userIds ← resolveUserIds (er_walletAddress dto);
  sessions ← findSessions userIds (er_walletAddress dto);
  let sessionKeys := sessions.*1 in
  for_each (batches (length sessionKeys) DELETE_BATCH_SIZE sessionKeys) delete_batch;;
  let sessionAddresses := uniq sessions.*2 in
  (if er_revokeOnChain dto && negb (bool_decide (sessionAddresses = [])) then revokePermissions (er_walletAddress dto) sessionAddresses
   else mret ());;
  mret {| em_cancelledProposalCount := Z.of_nat (length cancelled); em_flushedSessionCount := Z.of_nat (length sessionKeys);
          em_revokedPermissionCount := if er_revokeOnChain dto then Z.of_nat (length sessionAddresses) else 0 |}.

(** ** Theorems *)


(** The rest of the state beside the session keys. *)
Definition rest_of w := (ks_permissions w, ks_users w, ks_wallets w, ks_proposals w).

Definition only_sessions (R : relation skworld) w w' : Prop := R (ks_sessions w) (ks_sessions w') ∧ rest_of w' = rest_of w.

#[local] Instance only_sessions_preorder R `{!PreOrder R} : PreOrder (only_sessions R).
Proof. split; [by intros w |]. intros w1 w2 w3 [H1 H2] [G1 G2]. split; [by etrans | congruence]. Qed.










(** What [execute] does up to the deletion of the keys. *)
Definition hit (wallet : string) w (p : proposal) : bool := bool_decide (pp_user_id p ∈ affected_users wallet w) && open_proposal p.




End killswitch.

(** ** Runs *)

Definition demo_kill : KillEnv := {| KILLSWITCH_ADMIN_SECRET := None; scan_pages := λ keys, [keys] |}.

#[export] Instance demo_kill_law : ScanLaw demo_kill.
Proof. split. intros keys key H _. simpl. by rewrite app_nil_r. Qed.

(** The node of PermissionsCorrect.v with a configured contract. *)
Definition kill_node (down : bool) : PermissionsEnv := {|
  isValidEd25519SecretSeed := λ s, String.prefix "S" s; isValidEd25519PublicKey := λ s, String.prefix "G" s;
  deps_defaultOwner := None; PERMISSIONS_OWNER_ADDRESS := None; WALLET_SOURCE_ADDRESS := None;
  deps_defaultContractId := None; SOROBAN_PERMISSIONS_CONTRACT_ID := Some "CPERM"; PERMISSIONS_CONTRACT_ID := None;
  loadAccount := λ _ _, if down then inl (Error "Horizon") else inr "1"; estimateTransactionFee := λ _, inl (Error "Horizon");
  toI128 := @toI128 (demo_node 0 false); toU64 := @toU64 (demo_node 0 false); op_error := λ _ _ _, None;
  rpc_simulate := @rpc_simulate (demo_node 0 false); simulateTransaction := λ _ _, inr None; assemble_error := λ _, None;
  WALLET_ACTIVE_KEY_VERSION := None; version_error := λ _, None; keySigner_sign := λ _ _, inr "sig";
  rpc_send := λ _ _ _, inr (SendHash "hash"); rpc_getTransaction := λ _ _ _, inr TxSuccess |}.

#[export] Instance kill_node_laws down : ContractLaws (kill_node down) id.
Proof. pose proof (demo_node_laws 0) as [H1 H2 H3 H4]. split; [exact H1 | exact H2 | exact H3 | exact H4]. Qed.
#[export] Instance kill_node_reads down : ReadsAnswered (kill_node down).
Proof. exact (demo_reads_answered 0). Qed.

Definition up : SessionEnv :=
  {| fate := λ _, CallOk; vault_read := λ writes path, snd <$> List.find (λ kv, String.eqb kv.1 path) writes |}.

(** A wallet with one open proposal, a session key and its permission on the chain. *)
Definition demo_wallet : kworld := {|
  ks_sessions := (@createSessionKey up "user" "GAGENT" "enc" demo_policy no_sessions).2;
  ks_permissions := PermissionsCorrect.granted;
  ks_users := [("user", "GOWNER")]; ks_wallets := []; ks_proposals := [Build_proposal "p1" "user" pp_pending_approval] |}.

Definition demo_stop : EmergencyRevocationDTO := Build_EmergencyRevocationDTO "GOWNER" None true.


(** When the revocation on the chain fails, the session keys are already deleted: a
    second run finds no key, revokes nothing and reports success, and the permission
    stays. *)
Theorem retried_kill_revokes_nothing :
  let first := @execute (kill_node true) up demo_kill demo_stop demo_wallet in
  let second := @execute (kill_node false) up demo_kill demo_stop first.2 in
  (∃ e, first.1 = inl e) ∧ second.1 = inr (Build_EmergencyRevocationResult 0 0 0) ∧
  contract_state (pm_sent (ks_permissions second.2)) !! ("CPERM", "GOWNER", "GAGENT") = Some (100, 2000).
Proof. split; [eexists; vm_compute; reflexivity |]. split; vm_compute; reflexivity. Qed.
