(* ===== verification/Outbox.v ===== *)
(** * The transactional outbox and its relay (apps/backend/orchestrator/src/)

    - events/service-event-outbox.ts: the rows, the store in memory, insertion;
    - events/postgres-service-event-outbox.ts: the store over PostgreSQL;
    - pubsub/publisher.ts: publication with retries;
    - events/outboxRelay.ts: the relay, one cycle and the worker that repeats it.

    The payload of an event is any type [P]; a payload is identified with its JSON text.
    Both stores live on the same table of rows; every statement of the store over
    PostgreSQL and every publication may fail, before or after it took effect
    (Services.v), the store in memory does not.  Instants are milliseconds, within the
    range of [Date]. *)
From S2P Require Import Prelude JsLib JsCollections Services.
Local Open Scope Z_scope.

Inductive ServiceEventOutboxStatus := ox_pending | ox_published | ox_failed.

#[export] Instance outbox_status_eq_dec : EqDecision ServiceEventOutboxStatus.
Proof. solve_decision. Defined.

Record ServiceEventOutboxRecord (P : Type) := OutboxRecord {
  ox_id : string; ox_topic : string; ox_payload : P; ox_status : ServiceEventOutboxStatus; ox_attempts : Z;
  ox_lastError : option string; ox_nextAttemptAt : Z; ox_publishedAt : option Z; ox_createdAt : Z; ox_updatedAt : Z
}.
Arguments OutboxRecord {P}.
Arguments ox_id {P}. Arguments ox_topic {P}. Arguments ox_payload {P}. Arguments ox_status {P}. Arguments ox_attempts {P}.
Arguments ox_lastError {P}. Arguments ox_nextAttemptAt {P}. Arguments ox_publishedAt {P}. Arguments ox_createdAt {P}.
Arguments ox_updatedAt {P}.

Record InsertServiceEventOutboxInput (P : Type) := InsertInput {
  in_topic : string; in_payload : P; in_status : option ServiceEventOutboxStatus
}.
Arguments InsertInput {P}. Arguments in_topic {P}. Arguments in_payload {P}. Arguments in_status {P}.

Record oworld (P : Type) := OWorld {
  ow_rows : list (ServiceEventOutboxRecord P);
  (** the identifiers the store in memory has handed out *)
  ow_claimed : list string;
  ow_ids : nat;
  (** messages Redis delivered: channel and text *)
  ow_sent : list (string * P);
  ow_calls : nat;
  ow_randoms : nat;
  ow_now : Z;
  (** the worker: [stopped], and whether [timer] is set *)
  ow_stopped : bool;
  ow_timer : bool
}.
Arguments OWorld {P}. Arguments ow_rows {P}. Arguments ow_claimed {P}. Arguments ow_ids {P}. Arguments ow_sent {P}.
Arguments ow_calls {P}. Arguments ow_randoms {P}. Arguments ow_now {P}. Arguments ow_stopped {P}. Arguments ow_timer {P}.

Class OutboxEnv := {
  (** what becomes of the n-th call *)
  ox_fate : nat → call_fate;
  (** [randomUUID()] and [gen_random_uuid()] *)
  ox_uuid : nat → string;
  (** [Math.floor(Math.random() * capped)], by the use of [Math.random] *)
  floor_random : nat → Z → Z
}.

Definition DEFAULT_BATCH_SIZE : nat := 25.
Definition DEFAULT_MAX_ATTEMPTS : Z := 5.
Definition DEFAULT_BASE_BACKOFF_MS : Z := 200.
Definition DEFAULT_MAX_BACKOFF_MS : Z := 30000.

Record PublishResult := { pb_channel : string; pb_delivered : bool; pb_attempts : Z; pb_error : option string }.

Record OutboxRelayMetrics := { me_polls : Z; me_claimed : Z; me_published : Z; me_retried : Z; me_exhausted : Z }.

Record relay_options := { op_batchSize : option nat; op_maxAttempts : option Z; op_baseBackoffMs : option Z; op_maxBackoffMs : option Z }.

Definition isTransientError (err : exn) : bool :=
  let msg := toLowerCase (exn_message err) in
  includes msg "econnreset" || includes msg "etimedout" || includes msg "timeout" || includes msg "readonly" ||
  includes msg "loading" || includes msg "connection closed".

Section outbox.
Context {P : Type} `{OE : OutboxEnv}.
Notation world := (oworld P).
Notation row := (ServiceEventOutboxRecord P).
Implicit Types (w : world) (r : row).

Definition set_outbox (f : list row → list row) w : world :=
  OWorld (f (ow_rows w)) (ow_claimed w) (ow_ids w) (ow_sent w) (ow_calls w) (ow_randoms w) (ow_now w) (ow_stopped w) (ow_timer w).
Definition set_claimed (f : list string → list string) w : world :=
  OWorld (ow_rows w) (f (ow_claimed w)) (ow_ids w) (ow_sent w) (ow_calls w) (ow_randoms w) (ow_now w) (ow_stopped w) (ow_timer w).
Definition send (m : string * P) w : world :=
  OWorld (ow_rows w) (ow_claimed w) (ow_ids w) (ow_sent w ++ [m]) (ow_calls w) (ow_randoms w) (ow_now w) (ow_stopped w) (ow_timer w).
Definition set_handle (stopped timer : bool) w : world :=
  OWorld (ow_rows w) (ow_claimed w) (ow_ids w) (ow_sent w) (ow_calls w) (ow_randoms w) (ow_now w) stopped timer.
Definition sleep_ms (ms : Z) w : world :=
  OWorld (ow_rows w) (ow_claimed w) (ow_ids w) (ow_sent w) (ow_calls w) (ow_randoms w) (ow_now w + Z.max 0 ms) (ow_stopped w) (ow_timer w).
Definition next_id w : world :=
  OWorld (ow_rows w) (ow_claimed w) (S (ow_ids w)) (ow_sent w) (ow_calls w) (ow_randoms w) (ow_now w) (ow_stopped w) (ow_timer w).
Definition next_random w : world :=
  OWorld (ow_rows w) (ow_claimed w) (ow_ids w) (ow_sent w) (ow_calls w) (S (ow_randoms w)) (ow_now w) (ow_stopped w) (ow_timer w).
Definition count_outbox_call w : world :=
  OWorld (ow_rows w) (ow_claimed w) (ow_ids w) (ow_sent w) (S (ow_calls w)) (ow_randoms w) (ow_now w) (ow_stopped w) (ow_timer w).

#[export] Instance outbox_services : Services world := {| next_fate := λ w, ox_fate (ow_calls w); tick := count_outbox_call |}.
#[export] Instance outbox_database : Database world := {|
  database_services := outbox_services; rollback := λ w w', set_outbox (λ _, ow_rows w) w' |}.

(** ** Rows *)

Definition new_row (id : string) (now : Z) (input : InsertServiceEventOutboxInput P) : row := {|
  ox_id := id; ox_topic := in_topic input; ox_payload := in_payload input; ox_status := default ox_pending (in_status input);
  ox_attempts := 0; ox_lastError := None; ox_nextAttemptAt := now; ox_publishedAt := None; ox_createdAt := now; ox_updatedAt := now |}.

Definition touched (now : Z) r : row := {|
  ox_id := ox_id r; ox_topic := ox_topic r; ox_payload := ox_payload r; ox_status := ox_status r; ox_attempts := ox_attempts r;
  ox_lastError := ox_lastError r; ox_nextAttemptAt := ox_nextAttemptAt r; ox_publishedAt := ox_publishedAt r;
  ox_createdAt := ox_createdAt r; ox_updatedAt := now |}.

Definition published_row (now : Z) r : row := {|
  ox_id := ox_id r; ox_topic := ox_topic r; ox_payload := ox_payload r; ox_status := ox_published; ox_attempts := ox_attempts r;
  ox_lastError := ox_lastError r; ox_nextAttemptAt := ox_nextAttemptAt r; ox_publishedAt := Some now;
  ox_createdAt := ox_createdAt r; ox_updatedAt := now |}.

Definition failed_row (error : string) (nextAttemptAt maxAttempts now : Z) r : row :=
  let attempts := ox_attempts r + 1 in
  let exhausted := maxAttempts <=? attempts in {|
  ox_id := ox_id r; ox_topic := ox_topic r; ox_payload := ox_payload r;
  ox_status := (if exhausted then ox_failed else ox_pending); ox_attempts := attempts; ox_lastError := Some error;
  ox_nextAttemptAt := (if exhausted then ox_nextAttemptAt r else nextAttemptAt); ox_publishedAt := ox_publishedAt r;
  ox_createdAt := ox_createdAt r; ox_updatedAt := now |}.

Definition due (now : Z) r : bool := bool_decide (ox_status r = ox_pending) && (ox_nextAttemptAt r <=? now).

(** Rows by age; rows of one instant stay in the order of the table. *)
Fixpoint insert_by_age r (l : list row) : list row :=
  match l with
  | [] => [r]
  | r' :: l' => if ox_createdAt r' <? ox_createdAt r then r' :: insert_by_age r l' else r :: l
  end.
Definition by_age (l : list row) : list row := foldr insert_by_age [] l.

Definition on_row (id : string) (f : row → row) (l : list row) : list row :=
  (λ r, if String.eqb (ox_id r) id then f r else r) <$> l.

(** [rows.find((r) => r.id === id)] and the update of that row. *)
Fixpoint on_first (id : string) (f : row → row) (l : list row) : list row :=
  match l with
  | [] => []
  | r :: l' => if String.eqb (ox_id r) id then f r :: l' else r :: on_first id f l'
  end.

(** ** The stores *)

Record OutboxStore := {
  store_insert : InsertServiceEventOutboxInput P → M world row;
  claimPendingBatch : nat → Z → M world (list row);
  markPublished : string → Z → M world ();
  (** id, error, nextAttemptAt, maxAttempts *)
  recordFailure : string → string → Z → Z → M world ()
}.

Definition new_id : M world string := n ← gets ow_ids; modify next_id;; mret (ox_uuid n).

Definition memory_insert (input : InsertServiceEventOutboxInput P) : M world row :=
  now ← gets ow_now;
  id ← new_id;
  let record := new_row id now input in
  modify (set_outbox (λ rows, rows ++ [record]));; mret record.

Definition memory_claim (limit : nat) (now : Z) : M world (list row) :=
  rows ← gets ow_rows;
  claimed ← gets ow_claimed;
  let eligible := take limit (by_age (List.filter (λ r, due now r && negb (bool_decide (ox_id r ∈ claimed))) rows)) in
  modify (set_claimed (λ c, c ++ (ox_id <$> eligible)));;
  mret eligible.

(** [if (!row) return; ...; this.claimed.delete(id)] *)
Definition memory_update (id : string) (f : row → row) : M world () :=
  rows ← gets ow_rows;
  if bool_decide (id ∈ ox_id <$> rows)
  then modify (set_outbox (on_first id f));; modify (set_claimed (List.filter (λ c, negb (String.eqb c id))))
  else mret ().

Definition memory_recordFailure (id error : string) (nextAttemptAt maxAttempts : Z) : M world () :=
  now ← gets ow_now; memory_update id (failed_row error nextAttemptAt maxAttempts now).

Definition InMemoryServiceEventOutboxStore : OutboxStore := {|
  store_insert := memory_insert; claimPendingBatch := memory_claim;
  markPublished := λ id now, memory_update id (published_row now); recordFailure := memory_recordFailure |}.

Definition TOPIC_LENGTH : nat := 255.

Definition postgres_insert (input : InsertServiceEventOutboxInput P) : M world row :=
  id ← new_id;
  throw_if (Nat.ltb TOPIC_LENGTH (String.length (in_topic input))) (Error "value too long for type character varying(255)");;
  call (λ w, let record := new_row id (ow_now w) input in (record, set_outbox (λ rows, rows ++ [record]) w)).

Definition postgres_claim (limit : nat) (now : Z) : M world (list row) :=
  transaction (
    rows ← ask (λ w, take limit (by_age (List.filter (due now) (ow_rows w))));
    match rows with
    | [] => mret []
    | _ => write (set_outbox (fmap (λ r, if bool_decide (ox_id r ∈ ox_id <$> rows) then touched now r else r)));; mret rows
    end).

Definition postgres_recordFailure (id error : string) (nextAttemptAt maxAttempts : Z) : M world () :=
  write (λ w, set_outbox (on_row id (failed_row error nextAttemptAt maxAttempts (ow_now w))) w).

Definition PostgresServiceEventOutboxStore : OutboxStore := {|
  store_insert := postgres_insert; claimPendingBatch := postgres_claim;
  markPublished := λ id now, write (set_outbox (on_row id (published_row now))); recordFailure := postgres_recordFailure |}.

Definition insertServiceEventOutbox (store : OutboxStore) (input : InsertServiceEventOutboxInput P) : M world row :=
  throw_if (String.eqb (in_topic input) "" || String.eqb (trim (in_topic input)) "") (Error "topic is required");;
  store_insert store input.

(** ** publisher.ts *)

(** The loop from [attempt] on, with the rounds that are left. *)
Fixpoint publish_from (rounds : nat) (attempt maxRetries baseDelayMs : Z) (channel : string) (message : P) : M world PublishResult :=
  match rounds with
  | O => mret {| pb_channel := channel; pb_delivered := false; pb_attempts := maxRetries;
                 pb_error := Some "publish failed after all retries" |}
  | S rounds' =>
      r ← try_catch (write (send (channel, message));; mret None) (λ e, mret (Some e));
      match r with
      | None => mret {| pb_channel := channel; pb_delivered := true; pb_attempts := attempt; pb_error := None |}
      | Some error =>
          if isTransientError error then
            (if attempt <? maxRetries then modify (sleep_ms (baseDelayMs * 2 ^ (attempt - 1))) else mret ());;
            publish_from rounds' (attempt + 1) maxRetries baseDelayMs channel message
          else mret {| pb_channel := channel; pb_delivered := false; pb_attempts := attempt; pb_error := Some (exn_message error) |}
      end
  end.

Definition publish (channel : string) (message : P) : M world PublishResult := publish_from 3 1 3 100 channel message.

(** ** outboxRelay.ts *)

Definition computeBackoffDelayMs (attempts baseBackoffMs maxBackoffMs : Z) : M world Z :=
  let exponential := baseBackoffMs * 2 ^ Z.max 0 (attempts - 1) in
  let capped := Z.min exponential maxBackoffMs in
  n ← gets ow_randoms; modify next_random;; mret (floor_random n capped).

Section cycle.
Context (store : OutboxStore) (options : relay_options).

Definition maxAttempts : Z := default DEFAULT_MAX_ATTEMPTS (op_maxAttempts options).

(** The body of the [try]. *)
Definition relay_row r : M world () :=
  result ← publish (ox_topic r) (ox_payload r);
  throw_if (negb (pb_delivered result)) (Error (default "publish did not report delivery" (pb_error result)));;
  now ← gets ow_now;
  markPublished store (ox_id r) now.

(** The [catch]. *)
Definition relay_failed r (err : exn) (metrics : OutboxRelayMetrics) : M world OutboxRelayMetrics :=
  let nextAttempts := ox_attempts r + 1 in
  delayMs ← computeBackoffDelayMs nextAttempts (default DEFAULT_BASE_BACKOFF_MS (op_baseBackoffMs options))
              (default DEFAULT_MAX_BACKOFF_MS (op_maxBackoffMs options));
  now ← gets ow_now;
  recordFailure store (ox_id r) (exn_message err) (now + delayMs) maxAttempts;;
  mret (if maxAttempts <=? nextAttempts
        then {| me_polls := me_polls metrics; me_claimed := me_claimed metrics; me_published := me_published metrics;
                me_retried := me_retried metrics; me_exhausted := me_exhausted metrics + 1 |}
        else {| me_polls := me_polls metrics; me_claimed := me_claimed metrics; me_published := me_published metrics;
                me_retried := me_retried metrics + 1; me_exhausted := me_exhausted metrics |}).

Definition one_published (metrics : OutboxRelayMetrics) : OutboxRelayMetrics :=
  {| me_polls := me_polls metrics; me_claimed := me_claimed metrics; me_published := me_published metrics + 1;
     me_retried := me_retried metrics; me_exhausted := me_exhausted metrics |}.

Fixpoint relay_batch (batch : list row) (metrics : OutboxRelayMetrics) : M world OutboxRelayMetrics :=
  match batch with
  | [] => mret metrics
  | r :: batch' =>
      metrics' ← try_catch (relay_row r;; mret (one_published metrics)) (λ err, relay_failed r err metrics);
      relay_batch batch' metrics'
  end.

Definition runOutboxRelayCycle : M world OutboxRelayMetrics :=
  now ← gets ow_now;
  batch ← claimPendingBatch store (default DEFAULT_BATCH_SIZE (op_batchSize options)) now;
  relay_batch batch {| me_polls := 1; me_claimed := Z.of_nat (length batch); me_published := 0; me_retried := 0; me_exhausted := 0 |}.

(** The worker.  A cycle runs to its end before the next timer is set. *)
Definition scheduleNext : M world () :=
  stopped ← gets ow_stopped;
  if stopped : bool then mret () else modify (set_handle false true).

Definition runCycle : M world () :=
  stopped ← gets ow_stopped;
  if stopped : bool then mret ()
  else try_catch (runOutboxRelayCycle;; mret ()) (λ _, mret ());; scheduleNext.

Definition startOutboxRelay : M world () := modify (set_handle false false);; runCycle.

(** The timer of the worker fires. *)
Definition timer_fires : M world () :=
  timer ← gets ow_timer;
  stopped ← gets ow_stopped;
  if timer : bool then modify (set_handle stopped false);; runCycle else mret ().

Definition stopOutboxRelay : M world () := modify (set_handle true false).
End cycle.
End outbox.
