(* ===== verification/OutboxCorrect.v ===== *)
(** * The outbox relay: theorems

    [OutboxLaws] states what the relay needs of a store; both stores have it.  Against
    the laws: over any history of inserts, worker starts, timers and stops, with any
    failures, no event is lost and none is invented, and the attempts of a row are
    bounded.  With the services up, the relay over PostgreSQL empties the outbox. *)
From S2P Require Import Prelude JsLib JsCollections Services Outbox.
Local Open Scope Z_scope.

Section laws.
Context {P : Type} `{OE : OutboxEnv}.
Notation world := (oworld P).
Notation row := (ServiceEventOutboxRecord P).
Implicit Types (w : world) (r : row).

(** ** What the relay needs of a store *)

(** Only rows and counters differ. *)
Definition only_rows w w' : Prop :=
  ow_sent w' = ow_sent w ∧ ow_stopped w' = ow_stopped w ∧ ow_timer w' = ow_timer w ∧ (ow_ids w ≤ ow_ids w')%nat.

#[export] Instance only_rows_preorder : PreOrder only_rows.
Proof. split; [done |]. intros w1 w2 w3 (? & ? & ? & ?) (? & ? & ? & ?). repeat split; first [congruence | lia]. Qed.

Definition touches (f : row → row) : Prop := ∀ r, f r = r ∨ ∃ t, f r = touched t r.

Definition changes_row w w' (id : string) (f : row → row) : Prop :=
  only_rows w w' ∧ (ow_rows w' = ow_rows w ∨ ow_rows w' = on_row id f (ow_rows w)).

Class OutboxLaws (store : OutboxStore (P := P)) := {
  law_insert input w : let w' := (store_insert store input w).2 in
    only_rows w w' ∧ (ow_rows w' = ow_rows w ∨ ∃ n now, (ow_ids w ≤ n < ow_ids w')%nat ∧ ow_rows w' = ow_rows w ++ [new_row (ox_uuid n) now input]);
  law_touch limit now w : let w' := (claimPendingBatch store limit now w).2 in
    only_rows w w' ∧ ∃ f, touches f ∧ ow_rows w' = f <$> ow_rows w;
  law_claim limit now w batch w' : claimPendingBatch store limit now w = (inr batch, w') →
    (length batch ≤ limit)%nat ∧ (NoDup (ox_id <$> ow_rows w) → NoDup (ox_id <$> batch)) ∧ ∀ b, b ∈ batch → b ∈ ow_rows w ∧ due now b = true;
  law_mark id now w : NoDup (ox_id <$> ow_rows w) → changes_row w (markPublished store id now w).2 id (published_row now);
  law_fail id error next max w : NoDup (ox_id <$> ow_rows w) →
    ∃ now, changes_row w (recordFailure store id error next max w).2 id (failed_row error next max now)
}.

(** ** Rows by age *)

Lemma insert_by_age_perm r l : insert_by_age r l ≡ₚ r :: l.
Proof. induction l as [| r' l IH]; simpl; [done |]. destruct (_ <? _); [| done]. rewrite IH. apply Permutation_swap. Qed.

Lemma by_age_perm (l : list row) : by_age l ≡ₚ l.
Proof. induction l as [| r l IH]; simpl; [done |]. by rewrite insert_by_age_perm, IH. Qed.

Lemma filter_elem (p : row → bool) l r : r ∈ List.filter p l ↔ r ∈ l ∧ p r = true.
Proof. rewrite !list_elem_of_In. apply filter_In. Qed.

Lemma NoDup_filter_ids (p : row → bool) l : NoDup (ox_id <$> l) → NoDup (ox_id <$> List.filter p l).
Proof.
  induction l as [| r l IH]; simpl; [done |]. intros [Hr Hl]%NoDup_cons. destruct (p r); simpl; [| by apply IH].
  apply NoDup_cons. split; [| by apply IH]. intros (r' & Heq & Hr')%list_elem_of_fmap. apply Hr. apply filter_elem in Hr' as [Hr' _].
  apply list_elem_of_fmap. by exists r'.
Qed.

Lemma chosen_rows limit (p : row → bool) l :
  (length (take limit (by_age (List.filter p l))) ≤ limit)%nat ∧
  (NoDup (ox_id <$> l) → NoDup (ox_id <$> take limit (by_age (List.filter p l)))) ∧
  ∀ b, b ∈ take limit (by_age (List.filter p l)) → b ∈ l ∧ p b = true.
Proof.
  split; [rewrite length_take; lia |]. split.
  - intros Hl. rewrite fmap_take. eapply sublist_NoDup; [| apply sublist_take]. rewrite by_age_perm. by apply NoDup_filter_ids.
  - intros b Hb. apply elem_of_take in Hb as (i & Hb & _). apply list_elem_of_lookup_2 in Hb. rewrite by_age_perm in Hb. by apply filter_elem.
Qed.

(** ** The two stores have the laws *)

Lemma on_first_row id (f : row → row) l : NoDup (ox_id <$> l) → on_first id f l = on_row id f l.
Proof.
  unfold on_row. induction l as [| r l IH]; simpl; [done |]. intros [Hr Hl]%NoDup_cons. destruct (String.eqb_spec (ox_id r) id) as [<- | Hne]; [| by rewrite IH].
  f_equal. symmetry. rewrite <- (list_fmap_id l) at 2. apply list_fmap_ext. intros i r' Hr'. simpl. destruct (String.eqb_spec (ox_id r') (ox_id r)); [| done].
  exfalso. apply Hr, list_elem_of_fmap. exists r'. split; [done | by eapply list_elem_of_lookup_2].
Qed.

Lemma on_row_none id (f : row → row) l : id ∉ ox_id <$> l → on_row id f l = l.
Proof.
  unfold on_row. intros Hid. rewrite <- (list_fmap_id l) at 2. apply list_fmap_ext. intros i r Hr. simpl. destruct (String.eqb_spec (ox_id r) id); [| done].
  exfalso. apply Hid, list_elem_of_fmap. exists r. split; [done | by eapply list_elem_of_lookup_2].
Qed.

Lemma memory_update_row id f w : NoDup (ox_id <$> ow_rows w) → changes_row w (memory_update id f w).2 id f.
Proof.
  intros Hw. unfold memory_update. rewrite (bind_run (gets ow_rows) _ w _ w eq_refl). case_bool_decide as Hid; [| by split; [| left]].
  split; [done |]. right. simpl. by apply on_first_row.
Qed.

#[export] Instance memory_laws : OutboxLaws InMemoryServiceEventOutboxStore.
Proof.
  split; simpl.
  - intros input w. split; [repeat split; simpl; lia |]. right. exists (ow_ids w), (ow_now w). split; [simpl; lia | done].
  - intros limit now w. split; [done |]. exists id. split; [by left |]. by rewrite list_fmap_id.
  - intros limit now w batch w' [= <- _]. destruct (chosen_rows limit (λ r, due now r && negb (bool_decide (ox_id r ∈ ow_claimed w))) (ow_rows w)) as (H1 & H2 & H3).
    split; [done |]. split; [done |]. intros b [Hb Hd]%H3. split; [done |]. by apply andb_true_iff in Hd as [-> _].
  - intros id now w. apply memory_update_row.
  - intros id error next max w Hw. exists (ow_now w). unfold memory_recordFailure. by apply memory_update_row.
Qed.

Lemma only_rows_tick w : only_rows w (tick w).
Proof. by repeat split. Qed.

Lemma write_row id (f : world → row → row) w : 
  ∃ w0, changes_row w (write (λ w, set_outbox (on_row id (f w)) w) w).2 id (f w0).
Proof.
  exists (tick w). unfold write, call. destruct (next_fate w); (split; [done |]); first [by right | by left].
Qed.

(** Only counters and the instants of updates differ. *)
Definition touched_rows w w' : Prop := only_rows w w' ∧ ∃ f, touches f ∧ ow_rows w' = f <$> ow_rows w.

#[export] Instance touched_rows_preorder : PreOrder touched_rows.
Proof.
  split; [intros w; split; [done |]; exists id; split; [by left | by rewrite list_fmap_id] |].
  intros w1 w2 w3 (H1 & f & Hf & E1) (H2 & g & Hg & E2). split; [by etrans |]. exists (g ∘ f). split; [| by rewrite E2, E1, list_fmap_compose].
  intros r. simpl. destruct (Hf r) as [-> | [t ->]]; [apply Hg |]. right. destruct (Hg (touched t r)) as [-> | [t' ->]]; eauto.
Qed.

Lemma touched_rows_rollback w w1 : touched_rows w w1 → touched_rows w (rollback w w1).
Proof. intros [H _]. split; [exact H |]. exists id. split; [by left | by rewrite list_fmap_id]. Qed.

Definition claim_body (limit : nat) (now : Z) : M world (list row) :=
  rows ← ask (λ w, take limit (by_age (List.filter (due now) (ow_rows w))));
  match rows with
  | [] => mret []
  | _ => write (set_outbox (fmap (λ r, if bool_decide (ox_id r ∈ ox_id <$> rows) then touched now r else r)));; mret rows
  end.

Lemma touched_rows_tick w : touched_rows w (tick w).
Proof. split; [apply only_rows_tick |]. exists id. split; [by left | by rewrite list_fmap_id]. Qed.

Lemma claim_body_touches limit now : evolves touched_rows (claim_body limit now).
Proof.
  unfold claim_body. apply evolves_bind; [apply _ | apply ask_evolves; [apply _ | apply touched_rows_tick] |]. intros [| r rows]; [apply evolves_ret, _ |].
  apply evolves_bind; [apply _ | apply write_evolves; [apply _ | apply touched_rows_tick |] |]; [| intros ?; apply evolves_ret, _].
  intros w. split; [done |]. eexists. split; [| reflexivity]. intros x. case_bool_decide; [right; eauto | by left].
Qed.

Lemma claim_body_batch limit now w batch w' :
  claim_body limit now w = (inr batch, w') → batch = take limit (by_age (List.filter (due now) (ow_rows w))).
Proof.
  unfold claim_body. intros H. apply bind_inr in H as (rows & w1 & Hr & H). apply ask_inr in Hr as [-> _]. change (ow_rows (tick w)) with (ow_rows w) in H.
  destruct (take _ _) as [| r rows]; [by injection H |]. apply bind_inr in H as ([] & w2 & _ & H). by injection H.
Qed.

#[export] Instance postgres_laws : OutboxLaws PostgresServiceEventOutboxStore.
Proof.
  split; simpl.
  - intros input w. unfold postgres_insert. change (new_id w) with ((inr (ox_uuid (ow_ids w)) : exn + string, next_id w)).
    rewrite (bind_run new_id _ w _ _ eq_refl). unfold throw_if. destruct (Nat.ltb _ _); [split; [repeat split; simpl; lia | by left] |].
    rewrite (bind_run (mret ()) _ _ _ _ eq_refl). unfold call. destruct (next_fate _); simpl; (split; [repeat split; simpl; lia |]);
      [right | by left | right]; exists (ow_ids w); eexists; (split; [lia | reflexivity]).
  - intros limit now w. apply (transaction_evolves touched_rows (claim_body limit now)); [apply touched_rows_tick | apply touched_rows_rollback | apply claim_body_touches].
  - intros limit now w batch w' H. apply transaction_inr in H as (w1 & H & _). apply claim_body_batch in H as ->. change (ow_rows (tick w)) with (ow_rows w). apply chosen_rows.
  - intros id now w _. destruct (write_row id (λ _, published_row now) w) as [_ H]. exact H.
  - intros id error next max w _. destruct (write_row id (λ w, failed_row error next max (ow_now w)) w) as [w0 H]. by exists (ow_now w0).
Qed.

(** ** The invariant *)

Definition delivered w r : Prop := (ox_topic r, ox_payload r) ∈ ow_sent w.

Definition row_ok (max : Z) w r : Prop :=
  match ox_status r with
  | ox_pending => 0 ≤ ox_attempts r < max
  | ox_published => 0 ≤ ox_attempts r < max ∧ delivered w r
  | ox_failed => ox_attempts r = max
  end.

Record outbox_ok (max : Z) w : Prop := {
  ok_unique : NoDup (ox_id <$> ow_rows w);
  ok_fresh : ∀ r, r ∈ ow_rows w → ∃ n, (n < ow_ids w)%nat ∧ ox_id r = ox_uuid n;
  ok_rows : ∀ r, r ∈ ow_rows w → row_ok max w r;
  ok_real : ∀ m, m ∈ ow_sent w → ∃ r, r ∈ ow_rows w ∧ m = (ox_topic r, ox_payload r)
}.

Definition same_event r r' : Prop := ox_id r' = ox_id r ∧ ox_topic r' = ox_topic r ∧ ox_payload r' = ox_payload r.

#[export] Instance same_event_equiv : Equivalence same_event.
Proof. split; [done | intros ?? (? & ? & ?); by repeat split | intros ??? (? & ? & ?) (? & ? & ?); repeat split; congruence]. Qed.

Definition event_of r : string * string * P := (ox_id r, ox_topic r, ox_payload r).

(** The table has the same events, in the same order. *)
Definition kept w w' : Prop := event_of <$> ow_rows w' = event_of <$> ow_rows w ∧ (ow_ids w ≤ ow_ids w')%nat.

Lemma kept_rows w w' : ow_rows w' = ow_rows w → ow_ids w' = ow_ids w → kept w w'.
Proof. unfold kept. by intros -> ->. Qed.

#[export] Instance kept_preorder : PreOrder kept.
Proof. split; [done |]. unfold kept. intros w1 w2 w3 [H1 I1] [H2 I2]. split; [by rewrite H2 | lia]. Qed.

(** The invariant holds on and no event disappears. *)
Definition relays (max : Z) w w' : Prop := outbox_ok max w → outbox_ok max w' ∧ kept w w'.

#[export] Instance relays_preorder max : PreOrder (relays max).
Proof.
  split; [intros w H; done |]. intros w1 w2 w3 H1 H2 Hw. destruct (H1 Hw) as [Hw2 K1]. destruct (H2 Hw2) as [Hw3 K2]. split; [done | by etrans].
Qed.

Lemma row_ok_sent max w w' r : (∀ m, m ∈ ow_sent w → m ∈ ow_sent w') → row_ok max w r → row_ok max w' r.
Proof. intros H. unfold row_ok, delivered. destruct (ox_status r); [done | naive_solver | done]. Qed.

(** The same rows and at least the same messages, each of an event of the table. *)
Lemma sent_ok max w w' :
  ow_rows w' = ow_rows w → ow_ids w' = ow_ids w → (∀ m, m ∈ ow_sent w → m ∈ ow_sent w') →
  (∀ m, m ∈ ow_sent w' → m ∈ ow_sent w ∨ ∃ r, r ∈ ow_rows w ∧ m = (ox_topic r, ox_payload r)) → relays max w w'.
Proof.
  intros Hr Hi Hs Hm [H1 H2 H3 H4]. split; [split |]; [by rewrite Hr | by rewrite Hr, Hi | | | by apply kept_rows].
  - intros r. rewrite Hr. intros Hin. eapply row_ok_sent; eauto.
  - intros m. rewrite Hr. intros [Hin | Hin]%Hm; eauto.
Qed.

(** Rows changed one by one, each in place. *)
Lemma rows_changed max w w' (f : row → row) :
  only_rows w w' → ow_rows w' = f <$> ow_rows w → (∀ r, same_event r (f r)) →
  (∀ r, r ∈ ow_rows w → row_ok max w r → row_ok max w (f r)) → relays max w w'.
Proof.
  intros (Hs & _ & _ & Hi) Hr Hf Hok [H1 H2 H3 H4]. assert (ox_id <$> ow_rows w' = ox_id <$> ow_rows w) as Hid.
  { rewrite Hr, <- list_fmap_compose. apply list_fmap_ext. intros i r _. apply (Hf r). }
  split; [split |]; [by rewrite Hid | | | |].
  - intros r'. rewrite Hr. intros (r & -> & Hin)%list_elem_of_fmap. destruct (H2 r Hin) as (n & Hn & Hu). exists n. split; [lia |]. destruct (Hf r) as [-> _]. done.
  - intros r'. rewrite Hr. intros (r & -> & Hin)%list_elem_of_fmap. eapply row_ok_sent; [| by apply Hok, H3]. by rewrite Hs.
  - intros m. rewrite Hs. intros (r & Hin & ->)%H4. exists (f r). split; [rewrite Hr; by apply list_elem_of_fmap_2 |]. by destruct (Hf r) as (_ & -> & ->).
  - split; [| done]. rewrite Hr, <- list_fmap_compose. apply list_fmap_ext. intros i r _. unfold event_of. simpl. by destruct (Hf r) as (-> & -> & ->).
Qed.

(** The rows a batch has still to handle: claimed, and none has failed for good. *)
Definition open_batch (batch : list row) w : Prop :=
  NoDup (ox_id <$> batch) ∧ ∀ b, b ∈ batch → ∃ r, r ∈ ow_rows w ∧ same_event b r ∧ ox_status r ≠ ox_failed.

Lemma change_ok max w w' id f :
  outbox_ok max w → changes_row w w' id f → (∀ r, same_event r (f r)) →
  (∀ r, r ∈ ow_rows w → ox_id r = id → row_ok max w r → row_ok max w (f r)) →
  relays max w w' ∧ ∀ batch, id ∉ ox_id <$> batch → open_batch batch w → open_batch batch w'.
Proof.
  intros Hw [Hs Hr] Hf Hok. set (g := λ r, if String.eqb (ox_id r) id then f r else r).
  destruct Hr as [Hr | Hr]; [split; [| intros batch _ [Hn Hb]; split; [done |]; by rewrite Hr] |].
  { eapply (rows_changed _ _ _ (λ r, r)); [exact Hs | by rewrite list_fmap_id | done | done]. }
  split.
  - eapply (rows_changed _ _ _ g); [exact Hs | exact Hr | |]; intros r; unfold g; destruct (String.eqb_spec (ox_id r) id); auto. done.
  - intros batch Hid [Hn Hb]. split; [done |]. intros b Hin. destruct (Hb b Hin) as (r & Hrin & He & Hst). exists r. split; [| done].
    rewrite Hr. apply list_elem_of_fmap. exists r. split; [| done]. destruct (String.eqb_spec (ox_id r) id) as [<- |]; [| done].
    exfalso. apply Hid. destruct He as [-> _]. by apply list_elem_of_fmap_2.
Qed.

(** ** Publication *)

(** The message is sent some number of times and nothing else is. *)
Definition sends (m : string * P) w w' : Prop :=
  ow_rows w' = ow_rows w ∧ ow_ids w' = ow_ids w ∧ ow_stopped w' = ow_stopped w ∧ ow_timer w' = ow_timer w ∧
  ∃ k, ow_sent w' = ow_sent w ++ replicate k m.

#[export] Instance sends_preorder m : PreOrder (sends m).
Proof.
  split; [intros w; repeat split; exists O; by rewrite app_nil_r |]. intros w1 w2 w3 (? & ? & ? & ? & k & Hk) (? & ? & ? & ? & j & Hj).
  repeat split; try congruence. exists (k + j)%nat. by rewrite Hj, Hk, replicate_add, (assoc_L (++)).
Qed.

Lemma same_sends m w w' :
  ow_rows w' = ow_rows w → ow_ids w' = ow_ids w → ow_stopped w' = ow_stopped w → ow_timer w' = ow_timer w → ow_sent w' = ow_sent w → sends m w w'.
Proof. intros ???? H. repeat split; try done. exists O. by rewrite H, app_nil_r. Qed.

Lemma publish_sends rounds attempt max base channel message :
  evolves (sends (channel, message)) (publish_from rounds attempt max base channel message).
Proof.
  revert attempt. induction rounds as [| rounds IH]; intros attempt; simpl; [apply evolves_ret, _ |]. apply evolves_bind; [apply _ | |].
  - apply evolves_try; [apply _ | | intros e; apply evolves_ret, _]. apply evolves_bind; [apply _ | | intros ?; apply evolves_ret, _].
    apply write_evolves; [apply _ | intros w; by apply same_sends |]. intros w. repeat split. by exists 1%nat.
  - intros [e |]; [| apply evolves_ret, _]. destruct (isTransientError e); [| apply evolves_ret, _]. apply evolves_bind; [apply _ | | intros ?; apply IH].
    destruct (_ <? _); [intros w; by apply same_sends | apply evolves_ret, _].
Qed.

Lemma publish_delivers rounds attempt max base channel message w res w' :
  publish_from rounds attempt max base channel message w = (inr res, w') → pb_delivered res = true → (channel, message) ∈ ow_sent w'.
Proof.
  revert attempt w. induction rounds as [| rounds IH]; intros attempt w; simpl; [by intros [= <- _] |]. intros H Hd.
  apply bind_inr in H as ([e |] & w1 & Hc & H).
  - destruct (isTransientError e); [| by injection H as <- _]. apply bind_inr in H as ([] & w2 & _ & H). by eapply IH.
  - injection H as _ <-. revert Hc. unfold try_catch. destruct ((write _;; _) w) as [[e | x] w2] eqn:Hw; [done |]. intros [= -> ->].
    apply bind_inr in Hw as ([] & w3 & Hw & Hr). apply write_inr in Hw as ->. injection Hr as <-. simpl. apply elem_of_app. right. by apply list_elem_of_singleton.
Qed.

(** ** One row of a batch *)

Definition open_row (b : row) w : Prop := ∃ r, r ∈ ow_rows w ∧ same_event b r ∧ ox_status r ≠ ox_failed.

Lemma unique_row w r r' : NoDup (ox_id <$> ow_rows w) → r ∈ ow_rows w → r' ∈ ow_rows w → ox_id r = ox_id r' → r = r'.
Proof.
  intros Hn [i Hi]%list_elem_of_lookup_1 [j Hj]%list_elem_of_lookup_1 Heq.
  assert (i = j) as ->; [| congruence]. eapply (NoDup_lookup _ i j (ox_id r) Hn); rewrite list_lookup_fmap; [by rewrite Hi | by rewrite Hj, Heq].
Qed.

(** What a part of the handling of [b] does: the invariant and the rest of the batch
    survive, and the worker is not touched. *)
Definition handles (max : Z) (b : row) (batch : list row) w w' : Prop :=
  outbox_ok max w' ∧ kept w w' ∧ open_batch batch w' ∧ ow_stopped w' = ow_stopped w ∧ ow_timer w' = ow_timer w.

Lemma handles_trans max b batch w1 w2 w3 : handles max b batch w1 w2 → handles max b batch w2 w3 → handles max b batch w1 w3.
Proof.
  intros (_ & K1 & _ & S1 & T1) (H & K2 & O & S2 & T2). split; [done |]. split; [by etrans |]. split; [done | split; congruence].
Qed.

Lemma sends_handles max b batch w w' :
  outbox_ok max w → open_batch batch w → open_row b w → sends (ox_topic b, ox_payload b) w w' → handles max b batch w w' ∧ open_row b w'.
Proof.
  intros Hw Hb (r & Hr & He & Hst) (Er & Ei & Es & Et & k & Ek). assert (relays max w w') as Hrel.
  { apply sent_ok; [done | done | intros m Hm; rewrite Ek; apply elem_of_app; by left |]. intros m. rewrite Ek. intros [Hm | Hm]%elem_of_app; [by left | right].
    apply elem_of_replicate in Hm as [-> _]. exists r. split; [done |]. by destruct He as (_ & -> & ->). }
  destruct (Hrel Hw) as [Hw' Hk]. split; [split; [done |]; split; [done |]; split; [| done] |]; [destruct Hb; split; [done |]; by rewrite Er |].
  exists r. by rewrite Er.
Qed.

Lemma change_handles max b batch w w' f :
  outbox_ok max w → open_batch batch w → open_row b w → ox_id b ∉ ox_id <$> batch → changes_row w w' (ox_id b) f →
  (∀ r, same_event r (f r)) → (∀ r, same_event b r → ox_status r ≠ ox_failed → row_ok max w r → row_ok max w (f r)) →
  handles max b batch w w' ∧ ((∀ r, ox_status (f r) ≠ ox_failed) → open_row b w').
Proof.
  intros Hw Hb (r & Hr & He & Hst) Hid Hc Hf Hok.
  assert (∀ x, x ∈ ow_rows w → ox_id x = ox_id b → x = r) as Huniq.
  { intros x Hx Hxb. apply (unique_row w); [by destruct Hw | done | done |]. destruct He as [-> _]. done. }
  destruct (change_ok max w w' (ox_id b) f Hw Hc Hf) as [Hrel Hopen].
  { intros x Hx Hxb. rewrite (Huniq x Hx Hxb). by apply Hok. }
  destruct (Hrel Hw) as [Hw' Hk]. destruct Hc as [(Es & Et & Ep & Ei) Hr']. split; [split; [done |]; split; [done |]; split; [by apply Hopen | done] |].
  intros Hnf. destruct Hr' as [Hr' | Hr']; [exists r; by rewrite Hr' |]. exists (f r). split; [| split; [etrans; [exact He | apply Hf] | apply Hnf]].
  rewrite Hr'. apply list_elem_of_fmap. exists r. split; [| done]. destruct He as [-> _]. by rewrite String.eqb_refl.
Qed.
End laws.

Section relay.
Context {P : Type} `{OE : OutboxEnv} (store : OutboxStore (P := P)) `{!OutboxLaws store} (options : relay_options).
Notation world := (oworld P).
Notation row := (ServiceEventOutboxRecord P).
Notation max := (maxAttempts options).
Implicit Types (w : world) (r b : row).

Lemma published_ok w b r :
  delivered w b → same_event b r → ox_status r ≠ ox_failed → row_ok max w r → ∀ now, row_ok max w (published_row now r).
Proof.
  intros Hd (_ & Ht & Hp) Hst Hok now. unfold row_ok, delivered in *. simpl. rewrite Ht, Hp. destruct (ox_status r); naive_solver.
Qed.

Lemma failed_ok w r error next now : ox_status r ≠ ox_failed → row_ok max w r → row_ok max w (failed_row error next max now r).
Proof.
  intros Hst Hok. unfold row_ok in *. simpl. destruct (Z.leb_spec max (ox_attempts r + 1)); destruct (ox_status r); (done || lia).
Qed.

Lemma relay_failed_handles b batch err metrics w :
  outbox_ok max w → open_batch batch w → open_row b w → ox_id b ∉ ox_id <$> batch → handles max b batch w (relay_failed store options b err metrics w).2.
Proof.
  intros Hw Hb Hr Hid. unfold relay_failed, computeBackoffDelayMs. set (w1 := next_random w). cbv zeta.
  rewrite (bind_run _ _ w (floor_random (ow_randoms w) _) w1 eq_refl), (bind_run (gets ow_now) _ w1 _ w1 eq_refl).
  destruct (sends_handles max b batch w w1 Hw Hb Hr) as [H1 Hr1]; [by apply same_sends |]. pose proof H1 as (Hw1 & _ & Hb1 & _).
  destruct (law_fail (ox_id b) (exn_message err) (ow_now w1 + floor_random (ow_randoms w)
    (Z.min (default DEFAULT_BASE_BACKOFF_MS (op_baseBackoffMs options) * 2 ^ Z.max 0 (ox_attempts b + 1 - 1))
       (default DEFAULT_MAX_BACKOFF_MS (op_maxBackoffMs options)))) max w1) as [now Hc]; [by destruct Hw1 |].
  destruct (change_handles max b batch w1 _ _ Hw1 Hb1 Hr1 Hid Hc) as [H2 _]; [done | intros r _; apply failed_ok |].
  eapply handles_trans; [exact H1 |]. unfold mbind, M_bind. by destruct (recordFailure _ _ _ _ _ _) as [[e | u] w2].
Qed.

(** The body of the [try]: the row stays open until its outcome is recorded. *)
Lemma relay_row_handles b batch w :
  outbox_ok max w → open_batch batch w → open_row b w → ox_id b ∉ ox_id <$> batch →
  handles max b batch w (relay_row store b w).2 ∧ open_row b (relay_row store b w).2.
Proof.
  intros Hw Hb Hr Hid. unfold relay_row, publish. pose proof (publish_sends 3 1 3 100 (ox_topic b) (ox_payload b) w) as Hs.
  destruct (publish_from 3 1 3 100 (ox_topic b) (ox_payload b) w) as [r w1] eqn:Hp. simpl in Hs.
  destruct (sends_handles max b batch w w1 Hw Hb Hr Hs) as [H1 Hr1]. destruct r as [e | res]; [by rewrite (bind_run_err _ _ _ _ _ Hp) |].
  rewrite (bind_run _ _ _ _ _ Hp). destruct (pb_delivered res) eqn:Hd; simpl; [| done]. pose proof H1 as (Hw1 & _ & Hb1 & _).
  rewrite (bind_run (mret ()) _ w1 _ _ eq_refl), (bind_run (gets ow_now) _ w1 _ w1 eq_refl).
  destruct (change_handles max b batch w1 _ _ Hw1 Hb1 Hr1 Hid (law_mark (ox_id b) (ow_now w1) w1 (ok_unique _ _ Hw1))) as [H2 Hr2]; [done | |].
  { intros r Hbr Hst Hok. apply (published_ok w1 b); [| done ..]. by eapply publish_delivers. }
  split; [by eapply handles_trans | by apply Hr2].
Qed.

Lemma relay_batch_relays batch metrics w :
  outbox_ok max w → open_batch batch w →
  let w' := (relay_batch store options batch metrics w).2 in
  outbox_ok max w' ∧ kept w w' ∧ ow_stopped w' = ow_stopped w ∧ ow_timer w' = ow_timer w.
Proof.
  revert metrics w. induction batch as [| b batch IH]; intros metrics w Hw Hb; simpl; [done |].
  assert (open_batch batch w ∧ ox_id b ∉ ox_id <$> batch ∧ open_row b w) as (Hb' & Hid & Hr).
  { destruct Hb as [[Hid Hn]%NoDup_cons Hb]. split; [split; [done |]; intros x Hx; apply Hb; by right |]. split; [done |]. apply Hb. by left. }
  assert (handles max b batch w (try_catch (relay_row store b;; mret (one_published metrics)) (λ err, relay_failed store options b err metrics) w).2) as H1.
  { destruct (relay_row_handles b batch w Hw Hb' Hr Hid) as [H1 Hr1]. unfold try_catch, mbind at 1, M_bind at 1. destruct (relay_row store b w) as [[e | []] w1]; simpl in *; [| done].
    pose proof H1 as (Hw1 & _ & Hb1 & _). eapply handles_trans; [exact H1 |]. by apply relay_failed_handles. }
  destruct (try_catch _ _ w) as [[e | m] w1] eqn:Ht; simpl in H1; destruct H1 as (Hw1 & K1 & Hb1 & S1 & T1); [by rewrite (bind_run_err _ _ _ _ _ Ht) |].
  rewrite (bind_run _ _ _ _ _ Ht). destruct (IH m w1 Hw1 Hb1) as (Hw2 & K2 & S2 & T2). split; [done |]. split; [by etrans | split; congruence].
Qed.

Lemma touches_event f r : touches (P := P) f → same_event r (f r) ∧ ox_status (f r) = ox_status r ∧ ox_attempts (f r) = ox_attempts r.
Proof. intros Hf. by destruct (Hf r) as [-> | [t ->]]. Qed.

Lemma claim_relays limit now w : relays max w (claimPendingBatch store limit now w).2.
Proof.
  destruct (law_touch limit now w) as [Ho (f & Hf & Hr)]. eapply rows_changed; [exact Ho | exact Hr | |].
  - intros r. by apply touches_event.
  - intros r _. unfold row_ok, delivered. destruct (touches_event f r Hf) as ((_ & -> & ->) & -> & ->). done.
Qed.

Lemma claim_open limit now w batch w' :
  outbox_ok max w → claimPendingBatch store limit now w = (inr batch, w') → open_batch batch w'.
Proof.
  intros Hw H. destruct (law_claim _ _ _ _ _ H) as (_ & Hn & Hb). destruct (law_touch limit now w) as [_ (f & Hf & Hr)]. rewrite H in Hr. simpl in Hr.
  split; [apply Hn; by destruct Hw |]. intros b Hin. destruct (Hb b Hin) as [Hbin Hd]. exists (f b). destruct (touches_event f b Hf) as (He & Hst & _).
  split; [rewrite Hr; by apply list_elem_of_fmap_2 |]. split; [done |]. rewrite Hst. unfold due in Hd. apply andb_true_iff in Hd as [Hd%bool_decide_eq_true_1 _].
  by rewrite Hd.
Qed.

Lemma cycle_relays w :
  outbox_ok max w → let w' := (runOutboxRelayCycle store options w).2 in
  outbox_ok max w' ∧ kept w w' ∧ ow_stopped w' = ow_stopped w ∧ ow_timer w' = ow_timer w.
Proof.
  intros Hw. cbv zeta. unfold runOutboxRelayCycle. rewrite (bind_run (gets ow_now) _ w _ w eq_refl). set (limit := default _ _).
  destruct (claim_relays limit (ow_now w) w Hw) as [Hw1 K1]. destruct (law_touch limit (ow_now w) w) as [(_ & S1 & T1 & _) _].
  destruct (claimPendingBatch store limit (ow_now w) w) as [[e | batch] w1] eqn:Hb; simpl in Hw1, K1, S1, T1; [by rewrite (bind_run_err _ _ _ _ _ Hb) |].
  rewrite (bind_run _ _ _ _ _ Hb). set (m := Build_OutboxRelayMetrics _ _ _ _ _).
  destruct (relay_batch_relays batch m w1 Hw1 (claim_open _ _ _ _ _ Hw Hb)) as (Hw2 & K2 & S2 & T2). split; [done |]. split; [by etrans | split; congruence].
Qed.

(** ** Histories *)

Inductive outbox_op := OxInsert (topic : string) (payload : P) | OxStart | OxTimer | OxStop | OxWait (ms : Z).

Definition run_outbox_op (o : outbox_op) w : world :=
  match o with
  | OxInsert topic payload => (insertServiceEventOutbox store (InsertInput topic payload None) w).2
  | OxStart => (startOutboxRelay store options w).2
  | OxTimer => (timer_fires store options w).2
  | OxStop => (stopOutboxRelay w).2
  | OxWait ms => sleep_ms ms w
  end.

Definition run_outbox (ops : list outbox_op) w : world := foldl (λ w o, run_outbox_op o w) w ops.

Definition starts (o : outbox_op) : bool := match o with OxStart => true | _ => false end.

(** The events of [w], then others. *)
Definition extended w w' : Prop := (event_of <$> ow_rows w) `prefix_of` (event_of <$> ow_rows w').

#[local] Instance extended_preorder : PreOrder extended.
Proof. unfold extended. split; [intros w; reflexivity |]. intros w1 w2 w3 H1 H2. by etrans. Qed.

Definition extends w w' : Prop := outbox_ok max w → outbox_ok max w' ∧ extended w w'.

#[local] Instance extends_preorder : PreOrder extends.
Proof.
  split; [intros w H; split; [done | reflexivity] |]. intros w1 w2 w3 H1 H2 Hw. destruct (H1 Hw) as [Hw2 K1]. destruct (H2 Hw2) as [Hw3 K2]. split; [done | by etrans].
Qed.

Lemma relays_extends w w' : relays max w w' → extends w w'.
Proof. intros H Hw. destruct (H Hw) as [Hw' Hk]. split; [done |]. unfold extended. by rewrite (proj1 Hk). Qed.

Lemma handle_relays stopped timer : evolves (relays max) (modify (S := world) (set_handle stopped timer)).
Proof. intros w. apply sent_ok; auto. Qed.

Lemma cycle_evolves : evolves (relays max) (runOutboxRelayCycle store options).
Proof. intros w Hw. destruct (cycle_relays w Hw) as (? & ? & _). done. Qed.
Hint Resolve handle_relays cycle_evolves : evolve.

Lemma runCycle_evolves : evolves (relays max) (runCycle store options).
Proof. unfold runCycle, scheduleNext. evolve. Qed.
Hint Resolve runCycle_evolves : evolve.

(** Whatever is not an insert leaves the events as they are. *)
Lemma run_op_relays o w : (∀ topic payload, o ≠ OxInsert topic payload) → relays max w (run_outbox_op o w).
Proof.
  intros Ho. destruct o as [topic payload | | | | ms]; simpl.
  - by destruct (Ho topic payload).
  - assert (evolves (relays max) (startOutboxRelay store options)) as H by (unfold startOutboxRelay; evolve). apply H.
  - assert (evolves (relays max) (timer_fires store options)) as H by (unfold timer_fires; evolve). apply H.
  - apply handle_relays.
  - apply sent_ok; auto.
Qed.

Context (Hmax : 0 < max) (Huuid : Inj (=) (=) ox_uuid).

Lemma inserted_extends input w w' :
  default ox_pending (in_status input) = ox_pending → only_rows w w' →
  (ow_rows w' = ow_rows w ∨ ∃ n now, (ow_ids w ≤ n < ow_ids w')%nat ∧ ow_rows w' = ow_rows w ++ [new_row (ox_uuid n) now input]) → extends w w'.
Proof.
  intros Hin Ho [Hr | (n & now & Hn & Hr)].
  { apply relays_extends. eapply (rows_changed _ _ _ (λ r, r)); [exact Ho | by rewrite list_fmap_id | done | done]. }
  intros [H1 H2 H3 H4]. destruct Ho as (Es & _ & _ & _). set (x := new_row _ _ _) in Hr. assert (ox_id x ∉ ox_id <$> ow_rows w) as Hx.
  { intros (r & Heq & Hr')%list_elem_of_fmap. destruct (H2 r Hr') as (k & Hk & Hu). rewrite Hu in Heq. apply Huuid in Heq. lia. }
  split; [split |].
  - rewrite Hr, fmap_app. apply NoDup_app. split; [done |]. split; [| apply NoDup_singleton]. intros i Hi Hi2. apply list_elem_of_singleton in Hi2. by subst.
  - intros r. rewrite Hr. intros [Hin' | ->%list_elem_of_singleton]%elem_of_app; [| exists n; split; [lia | done]].
    destruct (H2 r Hin') as (k & Hk & Hu). exists k. split; [lia | done].
  - intros r. rewrite Hr. intros [Hin' | ->%list_elem_of_singleton]%elem_of_app; [eapply row_ok_sent; [| by apply H3]; by rewrite Es |].
    unfold row_ok, x. simpl. rewrite Hin. lia.
  - intros m. rewrite Es. intros (r & Hin' & ->)%H4. exists r. split; [rewrite Hr; apply elem_of_app; by left | done].
  - unfold extended. rewrite Hr, fmap_app. by apply prefix_app_r.
Qed.

Lemma run_op_extends o w : extends w (run_outbox_op o w).
Proof.
  destruct o as [topic payload | | | | ms]; [| by apply relays_extends, run_op_relays ..]. simpl.
  unfold insertServiceEventOutbox, throw_if. destruct (_ || _); [reflexivity |]. rewrite (bind_run (mret ()) _ w _ w eq_refl).
  destruct (law_insert (InsertInput topic payload None) w) as [Ho Hr].
  exact (inserted_extends (InsertInput topic payload None) _ _ eq_refl Ho Hr).
Qed.

Lemma run_outbox_extends ops w : extends w (run_outbox ops w).
Proof. unfold run_outbox. revert w. induction ops as [| o ops IH]; intros w; simpl; [reflexivity |]. etrans; [apply run_op_extends | apply IH]. Qed.

Lemma stopped_op o w :
  ow_stopped w = true → starts o = false → ow_stopped (run_outbox_op o w) = true ∧ ow_sent (run_outbox_op o w) = ow_sent w.
Proof.
  intros Hs Ho. destruct o as [topic payload | | | | ms]; simpl; try done.
  - unfold insertServiceEventOutbox, throw_if. destruct (_ || _); [done |]. rewrite (bind_run (mret ()) _ w _ w eq_refl).
    destruct (law_insert (InsertInput topic payload None) w) as [(-> & -> & _ & _) _]. done.
  - unfold timer_fires, runCycle. run_unfold. destruct (ow_timer w); simpl; rewrite Hs; done.
Qed.

Lemma stopped_silent ops w :
  ow_stopped w = true → Forall (λ o, starts o = false) ops → ow_sent (run_outbox ops w) = ow_sent w.
Proof.
  unfold run_outbox. intros Hs Hops. revert w Hs. induction Hops as [| o ops Ho _ IH]; intros w Hs; simpl; [done |].
  destruct (stopped_op o w Hs Ho) as [Hs' <-]. by apply IH.
Qed.
End relay.

Definition empty_outbox {P} : oworld P := OWorld [] [] 0 [] 0 0 0 false false.

Lemma empty_ok {P} `{OE : OutboxEnv} max : outbox_ok max (empty_outbox (P := P)).
Proof. split; [constructor | by intros ? ?%elem_of_nil ..]. Qed.

(** C22. No event is lost and none is invented.  Over any history of inserts, worker
    starts, timers, stops and pauses, on either store, with any failures of PostgreSQL
    and Redis: every event of the table stays there, in its place, with its topic and payload; it is
    pending with attempts to spare, or marked as published and was delivered, or marked
    as failed after exactly the configured number of attempts; every message Redis
    delivered is that of an event; and a stopped worker sends nothing until it is
    started again. *)
Theorem outbox_safe {P} `{OE : OutboxEnv} (store : OutboxStore (P := P)) `{!OutboxLaws store} options ops ops' :
  0 < maxAttempts options → Inj (=) (=) ox_uuid →
  let w := run_outbox store options ops empty_outbox in
  let w' := run_outbox store options ops' w in
  (event_of <$> ow_rows w) `prefix_of` (event_of <$> ow_rows w') ∧
  NoDup (ox_id <$> ow_rows w') ∧
  (∀ r, r ∈ ow_rows w' → match ox_status r with
     | ox_pending => 0 ≤ ox_attempts r < maxAttempts options
     | ox_published => 0 ≤ ox_attempts r < maxAttempts options ∧ delivered w' r
     | ox_failed => ox_attempts r = maxAttempts options
     end) ∧
  (∀ m, m ∈ ow_sent w' → ∃ r, r ∈ ow_rows w' ∧ m = (ox_topic r, ox_payload r)) ∧
  (ow_stopped w = true → Forall (λ o, starts o = false) ops' → ow_sent w' = ow_sent w).
Proof.
  intros Hmax Huuid w w'. destruct (run_outbox_extends store options Hmax Huuid ops empty_outbox (empty_ok _)) as [Hw _].
  destruct (run_outbox_extends store options Hmax Huuid ops' w Hw) as [[H1 H2 H3 H4] Hk]. split; [exact Hk |]. split; [exact H1 |].
  split; [exact H3 |]. split; [exact H4 |]. by apply stopped_silent.
Qed.
