(* ===== verification/OutboxDrain.v ===== *)
(** * The outbox relay: progress and races

    With PostgreSQL and Redis up, the worker publishes every due event.  The last part
    shows what two relays over PostgreSQL do to each other. *)
From S2P Require Import Prelude JsLib JsCollections Services Outbox OutboxCorrect.
Local Open Scope Z_scope.

Section drain.
Context {P : Type} `{OE : OutboxEnv} (options : relay_options).
Notation world := (oworld P).
Notation row := (ServiceEventOutboxRecord P).
Notation store := (PostgresServiceEventOutboxStore (P := P)).
Implicit Types (w : world) (r b : row).

(** From here on every call succeeds. *)
Definition services_up w : Prop := ∀ n, (ow_calls w ≤ n)%nat → ox_fate n = CallOk.

Lemma call_up {A} (f : world → A * world) w : services_up w → call f w = (inr (f (tick w)).1, (f (tick w)).2).
Proof. intros Hup. unfold call, next_fate, outbox_services. rewrite (Hup (ow_calls w)) by lia. by destruct (f (tick w)). Qed.

(** [w'] is [w] with other rows and more messages, later calls and the same clock. *)
Definition advanced (f : row → row) (ms : list (string * P)) w w' : Prop :=
  services_up w' ∧ ow_rows w' = f <$> ow_rows w ∧ ow_sent w' = ow_sent w ++ ms ∧ ow_now w' = ow_now w ∧
  ow_stopped w' = ow_stopped w ∧ ow_timer w' = ow_timer w.

Definition marked (now : Z) (ids : list string) r : row := if bool_decide (ox_id r ∈ ids) then published_row now r else r.

Lemma services_up_later w w' : services_up w → (ow_calls w ≤ ow_calls w')%nat → services_up w'.
Proof. intros H Hle n Hn. apply H. lia. Qed.

Lemma relay_row_up b w :
  services_up w → ∃ w', relay_row store b w = (inr (), w') ∧ advanced (marked (ow_now w) [ox_id b]) [(ox_topic b, ox_payload b)] w w'.
Proof.
  intros Hup. unfold relay_row, publish. simpl publish_from. set (w1 := send (ox_topic b, ox_payload b) (tick w)).
  assert (services_up w1) as Hup1 by (apply (services_up_later w); [done | simpl; lia]).
  assert (write (send (ox_topic b, ox_payload b)) w = (inr (), w1)) as Hs by (unfold write; by rewrite call_up).
  eexists. split.
  - unfold mbind at 1, M_bind at 1. unfold mbind at 1, M_bind at 1. unfold try_catch at 1. rewrite (bind_run _ _ _ _ _ Hs). simpl.
    unfold mbind, M_bind, gets. simpl. unfold write. by rewrite call_up.
  - simpl. split; [apply (services_up_later w1); [done | simpl; lia] |]. split; [| done].
    unfold on_row. apply list_fmap_ext. intros i r _. unfold marked. destruct (String.eqb_spec (ox_id r) (ox_id b)) as [-> | Hne].
    + by rewrite bool_decide_eq_true_2 by (by left).
    + by rewrite bool_decide_eq_false_2 by (by intros ?%list_elem_of_singleton).
Qed.

Lemma relay_batch_up batch metrics w :
  services_up w →
  ∃ m w', relay_batch store options batch metrics w = (inr m, w') ∧
    advanced (marked (ow_now w) (ox_id <$> batch)) ((λ b, (ox_topic b, ox_payload b)) <$> batch) w w'.
Proof.
  revert metrics w. induction batch as [| b batch IH]; intros metrics w Hup; simpl.
  { exists metrics, w. split; [done |]. split; [done |]. split; [| by rewrite app_nil_r]. rewrite <- (list_fmap_id (ow_rows w)) at 1. done. }
  destruct (relay_row_up b w Hup) as (w1 & H1 & Hup1 & R1 & S1 & N1 & P1 & T1).
  destruct (IH (one_published metrics) w1 Hup1) as (m & w2 & H2 & Hup2 & R2 & S2 & N2 & P2 & T2). exists m, w2. split.
  - unfold mbind at 1, M_bind at 1, try_catch. rewrite (bind_run _ _ _ _ _ H1). simpl. exact H2.
  - split; [done |]. split; [| split; [| split; [congruence | split; congruence]]].
    + rewrite R2, R1, N1, <- list_fmap_compose. apply list_fmap_ext. intros i r _. unfold marked. simpl.
      repeat case_bool_decide; simpl in *; set_solver.
    + by rewrite S2, S1, <- (assoc_L (++)).
Qed.

Lemma claim_up limit now w :
  services_up w → let batch := take limit (by_age (List.filter (due now) (ow_rows w))) in
  ∃ w', postgres_claim limit now w = (inr batch, w') ∧
    advanced (λ r, if bool_decide (ox_id r ∈ ox_id <$> batch) then touched now r else r) [] w w'.
Proof.
  intros Hup batch. unfold postgres_claim, transaction. unfold mbind at 1, M_bind at 1. unfold ask at 1.
  rewrite call_up by done. simpl. unfold mbind at 1, M_bind at 1, ask. rewrite call_up by (apply (services_up_later w); [done | simpl; lia]). simpl. fold batch.
  assert (∀ k, (k ≥ ow_calls w)%nat → ox_fate k = CallOk) as Hf by (intros k ?; apply Hup; lia).
  destruct batch as [| r rows] eqn:Hb; simpl.
  - rewrite Hf by lia. eexists. split; [reflexivity |]. split; [apply (services_up_later w); [done | simpl; lia] |]. simpl. rewrite app_nil_r. split; [| done].
    rewrite <- (list_fmap_id (ow_rows w)) at 1. apply list_fmap_ext. intros i x _. done.
  - unfold mbind at 1, M_bind at 1, write. rewrite call_up by (apply (services_up_later w); [done | simpl; lia]). simpl. rewrite Hf by lia.
    eexists. split; [reflexivity |]. split; [apply (services_up_later w); [done | simpl; lia] |]. simpl. rewrite app_nil_r. done.
Qed.

Definition batch_size : nat := default DEFAULT_BATCH_SIZE (op_batchSize options).
Definition claimable w : list row := take batch_size (by_age (List.filter (due (ow_now w)) (ow_rows w))).

Lemma cycle_up w :
  services_up w → ∃ m w', runOutboxRelayCycle store options w = (inr m, w') ∧
    advanced (marked (ow_now w) (ox_id <$> claimable w)) ((λ b, (ox_topic b, ox_payload b)) <$> claimable w) w w'.
Proof.
  intros Hup. unfold runOutboxRelayCycle. rewrite (bind_run (gets ow_now) _ w _ w eq_refl).
  destruct (claim_up batch_size (ow_now w) w Hup) as (w1 & H1 & Hup1 & R1 & S1 & N1 & P1 & T1). fold batch_size. fold (claimable w) in *.
  simpl claimPendingBatch. rewrite (bind_run _ _ _ _ _ H1). set (m := Build_OutboxRelayMetrics _ _ _ _ _).
  destruct (relay_batch_up (claimable w) m w1 Hup1) as (m' & w2 & H2 & Hup2 & R2 & S2 & N2 & P2 & T2). exists m', w2. split; [exact H2 |].
  split; [done |]. split; [| split; [| split; [congruence | split; congruence]]].
  - rewrite R2, R1, N1, <- list_fmap_compose. apply list_fmap_ext. intros i r _. unfold marked. simpl.
    repeat case_bool_decide; simpl in *; (done || set_solver).
  - by rewrite S2, S1, app_nil_r.
Qed.

(** A firing of the timer of a running worker is one cycle, and sets the timer again. *)
Lemma timer_up w :
  services_up w → ow_stopped w = false → ow_timer w = true →
  advanced (marked (ow_now w) (ox_id <$> claimable w)) ((λ b, (ox_topic b, ox_payload b)) <$> claimable w) w (timer_fires store options w).2.
Proof.
  intros Hup Hs Ht. set (w0 := set_handle false false w). assert (services_up w0) as Hup0 by exact Hup.
  destruct (cycle_up w0 Hup0) as (m & w1 & H1 & Hup1 & R1 & S1 & N1 & P1 & T1).
  assert ((timer_fires store options w).2 = set_handle false true w1) as ->; [| by rewrite <- Hs, <- Ht in *].
  unfold timer_fires. rewrite (bind_run (gets ow_timer) _ w _ w eq_refl), (bind_run (gets ow_stopped) _ w _ w eq_refl), Ht, Hs.
  rewrite (bind_run (modify _) _ w _ _ eq_refl). fold w0. unfold runCycle. rewrite (bind_run (gets ow_stopped) _ w0 _ w0 eq_refl). simpl.
  unfold mbind at 1, M_bind at 1, try_catch. rewrite (bind_run _ _ _ _ _ H1). simpl. unfold scheduleNext.
  rewrite (bind_run (gets ow_stopped) _ w1 _ w1 eq_refl), P1. done.
Qed.

(** ** The number of events that wait *)

Definition waiting w : nat := length (List.filter (due (ow_now w)) (ow_rows w)).

Lemma due_marked now t ids r : due now (marked t ids r) = due now r && negb (bool_decide (ox_id r ∈ ids)).
Proof. unfold marked. case_bool_decide; simpl; [unfold due; simpl; by rewrite andb_false_r | by rewrite andb_true_r]. Qed.

Lemma filter_marked now t ids (l : list row) :
  length (List.filter (due now) (marked t ids <$> l)) =
  length (List.filter (λ r, negb (bool_decide (ox_id r ∈ ids))) (List.filter (due now) l)).
Proof.
  induction l as [| r l IH]; simpl; [done |]. rewrite due_marked. destruct (due now r); simpl; [| exact IH].
  destruct (bool_decide _); simpl; [exact IH | f_equal; exact IH].
Qed.

Lemma filter_bool_perm (p : row → bool) (l k : list row) : l ≡ₚ k → List.filter p l ≡ₚ List.filter p k.
Proof.
  induction 1 as [| r l k _ IH | r r' l | l k m _ IH1 _ IH2]; simpl; [done | | | by etrans].
  - destruct (p r); [by f_equiv | done].
  - destruct (p r), (p r'); try done. apply Permutation_swap.
Qed.

Lemma filter_rest (l k : list row) :
  NoDup (ox_id <$> l ++ k) → List.filter (λ r, negb (bool_decide (ox_id r ∈ ox_id <$> l))) (l ++ k) = k.
Proof.
  rewrite fmap_app. intros (_ & Hd & _)%NoDup_app. rewrite List.filter_app.
  assert (List.filter (λ r, negb (bool_decide (ox_id r ∈ ox_id <$> l))) l = []) as ->.
  { rewrite <- (List.filter_false l). apply filter_ext_in. intros r Hr. rewrite bool_decide_eq_true_2; [done |]. apply list_elem_of_fmap_2. by apply list_elem_of_In. }
  simpl. rewrite <- (List.filter_true k) at 2. apply filter_ext_in. intros r Hr. rewrite bool_decide_eq_false_2; [done |]. intros Hin. apply (Hd _ Hin).
  apply list_elem_of_fmap_2. by apply list_elem_of_In.
Qed.

Lemma waiting_marked w t :
  NoDup (ox_id <$> ow_rows w) →
  length (List.filter (due (ow_now w)) (marked t (ox_id <$> claimable w) <$> ow_rows w)) = (waiting w - batch_size)%nat.
Proof.
  intros Hn. rewrite filter_marked. unfold waiting, claimable. set (l := List.filter _ (ow_rows w)).
  assert (l ≡ₚ take batch_size (by_age l) ++ drop batch_size (by_age l)) as Hp by (by rewrite take_drop, by_age_perm).
  assert (NoDup (ox_id <$> take batch_size (by_age l) ++ drop batch_size (by_age l))) as Hn'.
  { rewrite take_drop, by_age_perm. by apply NoDup_filter_ids. }
  set (rest := λ r, negb (bool_decide (ox_id r ∈ ox_id <$> take batch_size (by_age l)))).
  assert (List.filter rest l ≡ₚ List.filter rest (take batch_size (by_age l) ++ drop batch_size (by_age l))) as -> by (by apply filter_bool_perm).
  unfold rest. rewrite filter_rest by done. rewrite length_drop. by rewrite by_age_perm.
Qed.

(** ** The worker empties the outbox *)

Definition all_due w : Prop := ∀ r, r ∈ ow_rows w → ox_status r = ox_pending → ox_nextAttemptAt r ≤ ow_now w.

(** A worker that runs, with the services up and nothing to wait for. *)
Record ready w : Prop := {
  ready_up : services_up w;
  ready_runs : ow_stopped w = false ∧ ow_timer w = true;
  ready_unique : NoDup (ox_id <$> ow_rows w);
  ready_due : all_due w
}.

Notation fired w := ((timer_fires store options w).2).

Lemma claimable_elem w b : b ∈ claimable w → b ∈ ow_rows w ∧ due (ow_now w) b = true.
Proof. apply chosen_rows. Qed.

Lemma timer_ready w : ready w → ready (fired w) ∧ waiting (fired w) = (waiting w - batch_size)%nat.
Proof.
  intros [Hup [Hs Ht] Hn Hd]. destruct (timer_up w Hup Hs Ht) as (Hup' & R & S & N & Hs' & Ht'). split.
  - split; [done | split; congruence | |].
    + rewrite R, <- list_fmap_compose. erewrite list_fmap_ext; [exact Hn |]. intros i r _. unfold marked. simpl. by case_bool_decide.
    + intros r. rewrite R, N. intros (x & -> & Hx)%list_elem_of_fmap. unfold marked. case_bool_decide; simpl; [done | by apply Hd].
  - unfold waiting at 1. rewrite R, N. by apply waiting_marked.
Qed.

(** A due row is published by the timer, or waits as it is; a published one stays. *)
Lemma timer_row w r :
  ready w → r ∈ ow_rows w → ox_status r ≠ ox_failed →
  r ∈ ow_rows (fired w) ∨ ∃ r', r' ∈ ow_rows (fired w) ∧ same_event r r' ∧ ox_status r' = ox_published ∧ delivered (fired w) r'.
Proof.
  intros [Hup [Hs Ht] Hn Hd] Hr Hst. destruct (timer_up w Hup Hs Ht) as (_ & R & S & _).
  destruct (decide (ox_id r ∈ ox_id <$> claimable w)) as [Hc | Hc]; [right | left].
  - exists (published_row (ow_now w) r). split; [rewrite R; apply list_elem_of_fmap; exists r; split; [| done]; unfold marked; by rewrite bool_decide_eq_true_2 |].
    split; [done |]. split; [done |]. apply list_elem_of_fmap in Hc as (b & Hid & Hb). destruct (claimable_elem w b Hb) as [Hbr _].
    assert (r = b) as <- by (by apply (unique_row w)). unfold delivered. rewrite S. apply elem_of_app. right. apply list_elem_of_fmap. by exists r.
  - rewrite R. apply list_elem_of_fmap. exists r. split; [| done]. unfold marked. by rewrite bool_decide_eq_false_2.
Qed.

Lemma published_stays w r :
  ready w → r ∈ ow_rows w → ox_status r = ox_published → delivered w r → r ∈ ow_rows (fired w) ∧ delivered (fired w) r.
Proof.
  intros [Hup [Hs Ht] Hn Hd] Hr Hst Hdel. destruct (timer_up w Hup Hs Ht) as (_ & R & S & _). split; [| unfold delivered; rewrite S; apply elem_of_app; by left].
  rewrite R. apply list_elem_of_fmap. exists r. split; [| done]. unfold marked. rewrite bool_decide_eq_false_2; [done |].
  intros (b & Hid & Hb)%list_elem_of_fmap. destruct (claimable_elem w b Hb) as [Hbr Hdue]. assert (r = b) as <- by (by apply (unique_row w)).
  unfold due in Hdue. by rewrite Hst in Hdue.
Qed.

Lemma published_forever k w r :
  ready w → r ∈ ow_rows w → ox_status r = ox_published → delivered w r →
  let w' := run_outbox store options (replicate k OxTimer) w in r ∈ ow_rows w' ∧ delivered w' r.
Proof.
  revert w. induction k as [| k IH]; intros w Hw Hr Hst Hdel; simpl; [done |]. destruct (published_stays w r Hw Hr Hst Hdel). destruct (timer_ready w Hw).
  by apply IH.
Qed.

Lemma drains k w :
  ready w → (waiting w ≤ k * batch_size)%nat →
  let w' := run_outbox store options (replicate k OxTimer) w in
  (∀ r, r ∈ ow_rows w' → ox_status r ≠ ox_pending) ∧
  ∀ r, r ∈ ow_rows w → ox_status r = ox_pending → ∃ r', r' ∈ ow_rows w' ∧ same_event r r' ∧ ox_status r' = ox_published ∧ delivered w' r'.
Proof.
  revert w. induction k as [| k IH]; intros w Hw Hk; simpl.
  - assert (∀ r, r ∈ ow_rows w → ox_status r ≠ ox_pending) as Hno.
    { intros r Hr Hst. assert (r ∈ List.filter (due (ow_now w)) (ow_rows w)) as Hin.
      { apply filter_elem. split; [done |]. unfold due. rewrite Hst. simpl. apply Z.leb_le. by apply Hw. }
      unfold waiting in Hk. destruct (List.filter _ _); [by apply elem_of_nil in Hin | simpl in Hk; lia]. }
    split; [done |]. intros r Hr Hst. by destruct (Hno r Hr).
  - destruct (timer_ready w Hw) as [Hw1 Hc]. destruct (IH _ Hw1) as [Hno Hall]; [lia |]. split; [exact Hno |]. intros r Hr Hst.
    destruct (timer_row w r Hw Hr) as [Hr1 | (r1 & Hr1 & He & Hst1 & Hd1)]; [by rewrite Hst | by apply Hall |].
    exists r1. destruct (published_forever k _ r1 Hw1 Hr1 Hst1 Hd1). done.
Qed.
End drain.

(** C23. Every event is delivered.  After any history, once PostgreSQL and Redis answer
    and the pending events are due, the running worker needs no more than one timer per
    batch: no event is pending any more, and each of those that were is marked as
    published and was delivered. *)
Theorem outbox_drains {P} `{OE : OutboxEnv} options ops k :
  0 < maxAttempts options → Inj (=) (=) ox_uuid →
  let run := run_outbox (PostgresServiceEventOutboxStore (P := P)) options in
  let w := run ops empty_outbox in
  let w' := run (replicate k OxTimer) w in
  services_up w → ow_stopped w = false → ow_timer w = true → all_due w → (waiting w ≤ k * batch_size options)%nat →
  (∀ r, r ∈ ow_rows w' → ox_status r ≠ ox_pending) ∧
  ∀ r, r ∈ ow_rows w → ox_status r = ox_pending → ∃ r', r' ∈ ow_rows w' ∧ same_event r r' ∧ ox_status r' = ox_published ∧ delivered w' r'.
Proof.
  intros Hmax Huuid run w w' Hup Hs Ht Hd Hk. apply drains; [| done]. split; [done | done | | done].
  by destruct (run_outbox_extends PostgresServiceEventOutboxStore options Hmax Huuid ops empty_outbox (empty_ok _)) as [[Hn _ _ _] _].
Qed.

(** ** Runs *)

(** Redis times out at the calls 5 to 7: the first publication. *)
Definition timeouts : OutboxEnv := {|
  ox_fate := λ n, if Nat.leb 5 n && Nat.leb n 7 then CallFails (Error "ETIMEDOUT") else CallOk;
  ox_uuid := λ n, dec (Z.of_nat n); floor_random := λ _ c, c |}.

Definition defaults : relay_options := Build_relay_options None None None None.

#[export] Instance timeouts_fresh : Inj (=) (=) (@ox_uuid timeouts).
Proof. intros n m H. simpl in H. apply (inj dec) in H. lia. Qed.

Notation demo_run := (@run_outbox string timeouts (@PostgresServiceEventOutboxStore string timeouts) defaults).
Definition demo_before : list outbox_op := [OxInsert "orders" "e1"; OxStart; OxWait 1000].

(** The first cycle fails and the event waits; the second one delivers it. *)
Lemma outbox_safe_witness :
  let w := demo_run demo_before empty_outbox in
  let w' := demo_run [OxTimer] w in
  (ox_status <$> ow_rows w, ow_sent w) = ([ox_pending], []) ∧
  ∀ r, r ∈ ow_rows w' → ox_status r = ox_published ∧ ox_attempts r = 1 ∧ delivered w' r.
Proof.
  intros w w'. split; [vm_compute; reflexivity |]. intros r Hr.
  destruct (@outbox_safe string timeouts _ (@postgres_laws string timeouts) defaults demo_before [OxTimer] eq_refl _) as (_ & _ & H & _).
  specialize (H r Hr). assert (ox_status r = ox_published ∧ ox_attempts r = 1) as [Hs Ha].
  { vm_compute in Hr. apply list_elem_of_singleton in Hr as ->. split; reflexivity. }
  split; [exact Hs |]. split; [exact Ha |]. rewrite Hs in H. exact (proj2 H).
Defined.

Lemma outbox_drains_witness :
  let w := demo_run demo_before empty_outbox in
  let w' := demo_run [OxTimer] w in
  waiting w = 1%nat ∧ ∃ r', r' ∈ ow_rows w' ∧ ox_payload r' = "e1" ∧ ox_status r' = ox_published ∧ delivered w' r'.
Proof.
  intros w w'. split; [vm_compute; reflexivity |].
  destruct (@outbox_drains string timeouts defaults demo_before 1 eq_refl _) as [_ H].
  - intros n Hn. assert (ow_calls (demo_run demo_before empty_outbox) = 9%nat) as Hc by (vm_compute; reflexivity). rewrite Hc in Hn. simpl.
    destruct (Nat.leb_spec n 7); [lia |]. by rewrite andb_false_r.
  - vm_compute. reflexivity.
  - vm_compute. reflexivity.
  - intros r Hr. vm_compute in Hr. apply list_elem_of_singleton in Hr as ->. vm_compute. discriminate.
  - vm_compute. lia.
  - destruct (ow_rows (demo_run demo_before empty_outbox)) as [| r rows] eqn:Hr; [vm_compute in Hr; discriminate |].
    assert (ox_payload r = "e1" ∧ ox_status r = ox_pending) as [Hp Hs] by (vm_compute in Hr; injection Hr as <- _; split; reflexivity).
    destruct (H r) as (r' & Hin & (_ & _ & He) & Hst & Hd); [left | exact Hs |]. exists r'. rewrite He, Hp. done.
Defined.

(** ** Two relays over PostgreSQL

    [claimPendingBatch] commits, and so gives up its locks, before it returns, and changes
    neither the status nor the next attempt: a second relay that polls while the first
    one publishes claims the same rows.  The store in memory hands a row out once.
    Below, the twelfth call of the services fails. *)
Definition mark_fails : OutboxEnv := {|
  ox_fate := λ n, if Nat.eqb n 11 then CallFails (Error "too many connections") else CallOk;
  ox_uuid := λ n, dec (Z.of_nat n); floor_random := λ _ c, c |}.

Definition two_claims (store : OutboxStore (P := string)) : M (oworld string) (list string * list string) :=
  a ← claimPendingBatch store 25 1000; b ← claimPendingBatch store 25 1000; mret (ox_payload <$> a, ox_payload <$> b).

Theorem claims_overlap :
  let w := (insertServiceEventOutbox (@InMemoryServiceEventOutboxStore string mark_fails) (InsertInput "orders" "e1" None) empty_outbox).2 in
  (two_claims (@PostgresServiceEventOutboxStore string mark_fails) w).1 = inr (["e1"], ["e1"]) ∧
  (two_claims (@InMemoryServiceEventOutboxStore string mark_fails) w).1 = inr (["e1"], []).
Proof. split; vm_compute; reflexivity. Qed.

(** The event is then sent twice, and when the second relay cannot mark it, an event that
    is published becomes pending again. *)
Definition two_relays (env : OutboxEnv) : M (oworld string) () :=
  let store := PostgresServiceEventOutboxStore in
  a ← claimPendingBatch store 25 1000;
  b ← claimPendingBatch store 25 1000;
  relay_batch store defaults a (Build_OutboxRelayMetrics 1 1 0 0 0);;
  relay_batch store defaults b (Build_OutboxRelayMetrics 1 1 0 0 0);; mret ().

Theorem published_event_reverts :
  let w := (insertServiceEventOutbox (@InMemoryServiceEventOutboxStore string mark_fails) (InsertInput "orders" "e1" None) empty_outbox).2 in
  let w' := (two_relays mark_fails w).2 in
  ow_sent w' = [("orders", "e1"); ("orders", "e1")] ∧
  ((λ r, (ox_status r, ox_publishedAt r)) <$> ow_rows w') = [(ox_pending, Some 0)].
Proof. split; vm_compute; reflexivity. Qed.
