(* ===== verification/PurchaseOrders.v ===== *)
(** * Purchase workflows in the database (apps/backend/orchestrator/workflows/purchase/)

    - index.ts: an order's state machine, kept in purchase_workflows; a transition and the
      event that announces it are written in one transaction, the event to the outbox
      (Outbox.v);
    - order-lookup.ts: the payment of an order, asked of the payments service.

    The names of states and of event types are their constructors.  Identifiers of orders
    and of outbox rows come from the same supply of UUIDs. *)
From S2P Require Import Prelude JsLib JsCollections Services Outbox.
Local Open Scope Z_scope.

Record ProductMatch := { pm_id : string; pm_name : string; pm_merchant : string; pm_priceStroops : string; pm_url : string }.

Inductive PurchaseState :=
  | INITIATED | SEARCHING | FOUND | APPROVED | ESCROW_FUNDED | PURCHASED | DELIVERING | DELIVERED | COMPLETED | CANCELLED | FAILED.

#[export] Instance PurchaseState_eq_dec : EqDecision PurchaseState.
Proof. solve_decision. Defined.

Inductive PurchaseEventType :=
  | SEARCH | PRODUCTS_FOUND | APPROVE | REJECT | T_ESCROW_FUNDED | ESCROW_FAILED | PURCHASE_CONFIRMED | DELIVERY_CONFIRMED
  | SETTLE | CANCEL | TIMEOUT | FAIL.

Inductive PurchaseEvent :=
  | Search (query delegationId : string)
  | ProductsFound (products : list ProductMatch)
  | Approve (selectedProductId : string)
  | Reject
  | EscrowFunded (escrowId txHash : string)
  | EscrowFailed (reason : string)
  | PurchaseConfirmed (merchantOrderId : string)
  | DeliveryConfirmed (proof : string)
  | Settle (txHash : string)
  | Cancel (reason : string)
  | Timeout
  | Failure (error : string).

Definition type_of (e : PurchaseEvent) : PurchaseEventType :=
  match e with
  | Search _ _ => SEARCH | ProductsFound _ => PRODUCTS_FOUND | Approve _ => APPROVE | Reject => REJECT
  | EscrowFunded _ _ => T_ESCROW_FUNDED | EscrowFailed _ => ESCROW_FAILED | PurchaseConfirmed _ => PURCHASE_CONFIRMED
  | DeliveryConfirmed _ => DELIVERY_CONFIRMED | Settle _ => SETTLE | Cancel _ => CANCEL | Timeout => TIMEOUT | Failure _ => FAIL
  end.

Definition state_name (s : PurchaseState) : string :=
  match s with
  | INITIATED => "INITIATED" | SEARCHING => "SEARCHING" | FOUND => "FOUND" | APPROVED => "APPROVED" | ESCROW_FUNDED => "ESCROW_FUNDED"
  | PURCHASED => "PURCHASED" | DELIVERING => "DELIVERING" | DELIVERED => "DELIVERED" | COMPLETED => "COMPLETED"
  | CANCELLED => "CANCELLED" | FAILED => "FAILED"
  end.

Definition event_name (t : PurchaseEventType) : string :=
  match t with
  | SEARCH => "SEARCH" | PRODUCTS_FOUND => "PRODUCTS_FOUND" | APPROVE => "APPROVE" | REJECT => "REJECT" | T_ESCROW_FUNDED => "ESCROW_FUNDED"
  | ESCROW_FAILED => "ESCROW_FAILED" | PURCHASE_CONFIRMED => "PURCHASE_CONFIRMED" | DELIVERY_CONFIRMED => "DELIVERY_CONFIRMED"
  | SETTLE => "SETTLE" | CANCEL => "CANCEL" | TIMEOUT => "TIMEOUT" | FAIL => "FAIL"
  end.

Record PurchaseContext := {
  pc_orderId : string; pc_userId : string; pc_delegationId : string; pc_query : string; pc_products : list ProductMatch;
  pc_selectedProductId : option string; pc_escrowId : option string; pc_escrowTxHash : option string;
  pc_merchantOrderId : option string; pc_settlementTxHash : option string; pc_error : option string; pc_createdAt : Z
}.

Record WorkflowSnapshot := { wf_orderId : string; wf_state : PurchaseState; wf_context : PurchaseContext; wf_updatedAt : Z }.

Record WorkflowEvent := {
  we_orderId : string; we_userId : string; we_previousState : PurchaseState; we_currentState : PurchaseState;
  we_event : PurchaseEventType; we_timestamp : Z
}.

Definition TRANSITIONS (s : PurchaseState) (t : PurchaseEventType) : option PurchaseState :=
  match s, t with
  | INITIATED, SEARCH => Some SEARCHING | INITIATED, CANCEL => Some CANCELLED
  | SEARCHING, PRODUCTS_FOUND => Some FOUND | SEARCHING, CANCEL => Some CANCELLED | SEARCHING, TIMEOUT => Some CANCELLED
  | SEARCHING, FAIL => Some FAILED
  | FOUND, APPROVE => Some APPROVED | FOUND, REJECT => Some CANCELLED | FOUND, CANCEL => Some CANCELLED
  | APPROVED, T_ESCROW_FUNDED => Some ESCROW_FUNDED | APPROVED, ESCROW_FAILED => Some CANCELLED | APPROVED, CANCEL => Some CANCELLED
  | ESCROW_FUNDED, PURCHASE_CONFIRMED => Some PURCHASED | ESCROW_FUNDED, CANCEL => Some CANCELLED | ESCROW_FUNDED, FAIL => Some FAILED
  | PURCHASED, DELIVERY_CONFIRMED => Some DELIVERING | PURCHASED, CANCEL => Some CANCELLED | PURCHASED, FAIL => Some FAILED
  | DELIVERING, SETTLE => Some DELIVERED | DELIVERING, FAIL => Some FAILED
  | DELIVERED, SETTLE => Some COMPLETED
  | _, _ => None
  end.

(** [{ ...ctx, ... }] *)
Definition ctx_with (delegationId query : string) (products : list ProductMatch)
    (selected escrow escrowTx merchantOrder settlement error : option string) (c : PurchaseContext) : PurchaseContext := {|
  pc_orderId := pc_orderId c; pc_userId := pc_userId c; pc_delegationId := delegationId; pc_query := query; pc_products := products;
  pc_selectedProductId := selected; pc_escrowId := escrow; pc_escrowTxHash := escrowTx; pc_merchantOrderId := merchantOrder;
  pc_settlementTxHash := settlement; pc_error := error; pc_createdAt := pc_createdAt c |}.

Definition update_context (e : PurchaseEvent) (c : PurchaseContext) : PurchaseContext :=
  match e with
  | Search query delegationId =>
      ctx_with delegationId query (pc_products c) (pc_selectedProductId c) (pc_escrowId c) (pc_escrowTxHash c) (pc_merchantOrderId c)
        (pc_settlementTxHash c) (pc_error c) c
  | ProductsFound products =>
      ctx_with (pc_delegationId c) (pc_query c) products (pc_selectedProductId c) (pc_escrowId c) (pc_escrowTxHash c)
        (pc_merchantOrderId c) (pc_settlementTxHash c) (pc_error c) c
  | Approve selected =>
      ctx_with (pc_delegationId c) (pc_query c) (pc_products c) (Some selected) (pc_escrowId c) (pc_escrowTxHash c)
        (pc_merchantOrderId c) (pc_settlementTxHash c) (pc_error c) c
  | EscrowFunded escrowId txHash =>
      ctx_with (pc_delegationId c) (pc_query c) (pc_products c) (pc_selectedProductId c) (Some escrowId) (Some txHash)
        (pc_merchantOrderId c) (pc_settlementTxHash c) (pc_error c) c
  | PurchaseConfirmed merchantOrderId =>
      ctx_with (pc_delegationId c) (pc_query c) (pc_products c) (pc_selectedProductId c) (pc_escrowId c) (pc_escrowTxHash c)
        (Some merchantOrderId) (pc_settlementTxHash c) (pc_error c) c
  | Settle txHash =>
      ctx_with (pc_delegationId c) (pc_query c) (pc_products c) (pc_selectedProductId c) (pc_escrowId c) (pc_escrowTxHash c)
        (pc_merchantOrderId c) (Some txHash) (pc_error c) c
  | EscrowFailed error | Cancel error | Failure error =>
      ctx_with (pc_delegationId c) (pc_query c) (pc_products c) (pc_selectedProductId c) (pc_escrowId c) (pc_escrowTxHash c)
        (pc_merchantOrderId c) (pc_settlementTxHash c) (Some error) c
  | Reject | DeliveryConfirmed _ | Timeout => c
  end.

Definition applyEvent {S} (state : PurchaseState) (e : PurchaseEvent) (ctx : PurchaseContext) : M S (PurchaseState * PurchaseContext) :=
  next ← some_or_throw (TRANSITIONS state (type_of e))
    (Error ("Invalid transition: " +:+ event_name (type_of e) +:+ " from " +:+ state_name state));
  mret (next, update_context e ctx).

(** ** The tables *)

Record purchase_row := { pr_user_id : string; pr_state : PurchaseState; pr_context : PurchaseContext; pr_updated_at : Z }.

(** purchase_workflows by order_id, and the rest. *)
Record powworld := POWorld { po_orders : jsmap purchase_row; po_outbox : oworld WorkflowEvent }.

Section orders.
Context `{OE : OutboxEnv}.
Implicit Types w : powworld.

Definition set_orders (f : jsmap purchase_row → jsmap purchase_row) w : powworld := POWorld (f (po_orders w)) (po_outbox w).
Definition on_outbox {A} (c : M (oworld WorkflowEvent) A) : M powworld A := zoom po_outbox (λ o w, POWorld (po_orders w) o) c.

#[export] Instance orders_services : Services powworld := {|
  next_fate := λ w, next_fate (po_outbox w); tick := λ w, POWorld (po_orders w) (tick (po_outbox w)) |}.
#[export] Instance orders_database : Database powworld := {|
  database_services := orders_services; rollback := λ w w', POWorld (po_orders w) (rollback (po_outbox w) (po_outbox w')) |}.

(** [INSERT ... ON CONFLICT (order_id) DO UPDATE SET state, context, updated_at] *)
Definition upsert (s : WorkflowSnapshot) (m : jsmap purchase_row) : jsmap purchase_row :=
  jset (wf_orderId s) {| pr_user_id := default (pc_userId (wf_context s)) (pr_user_id <$> jget (wf_orderId s) m);
                         pr_state := wf_state s; pr_context := wf_context s; pr_updated_at := wf_updatedAt s |} m.

Definition persistWorkflow (s : WorkflowSnapshot) : M powworld () := write (set_orders (upsert s)).

Definition WORKFLOW_TOPIC : string := "workflow:state_changed".

Definition insertWorkflowEventOutboxRow (evt : WorkflowEvent) : M powworld () :=
  on_outbox (postgres_insert (InsertInput WORKFLOW_TOPIC evt (Some ox_pending)));; mret ().

Definition snapshot_of (orderId : string) (r : purchase_row) : WorkflowSnapshot :=
  {| wf_orderId := orderId; wf_state := pr_state r; wf_context := pr_context r; wf_updatedAt := pr_updated_at r |}.

Definition loadWorkflow (orderId : string) : M powworld (option WorkflowSnapshot) :=
  ask (λ w, snapshot_of orderId <$> jget orderId (po_orders w)).

Definition clock : M powworld Z := gets (λ w, ow_now (po_outbox w)).

Definition createWorkflow (userId delegationId query : string) : M powworld string :=
  orderId ← on_outbox new_id;
  now ← clock;
  let context := {|
    pc_orderId := orderId; pc_userId := userId; pc_delegationId := delegationId; pc_query := query; pc_products := [];
    pc_selectedProductId := None; pc_escrowId := None; pc_escrowTxHash := None; pc_merchantOrderId := None;
    pc_settlementTxHash := None; pc_error := None; pc_createdAt := now |} in
  persistWorkflow {| wf_orderId := orderId; wf_state := INITIATED; wf_context := context; wf_updatedAt := now |};;
  mret orderId.

(** [transitionWorkflow] up to its transaction: the snapshot to write and its event. *)
Definition transition_prepare (orderId : string) (event : PurchaseEvent) : M powworld (WorkflowSnapshot * WorkflowEvent) :=
  loaded ← loadWorkflow orderId;
  snapshot ← some_or_throw loaded (Error ("Workflow not found: " +:+ orderId));
  '(state, context) ← applyEvent (wf_state snapshot) event (wf_context snapshot);
  updatedAt ← clock;
  mret ({| wf_orderId := orderId; wf_state := state; wf_context := context; wf_updatedAt := updatedAt |},
        {| we_orderId := orderId; we_userId := pc_userId context; we_previousState := wf_state snapshot; we_currentState := state;
           we_event := type_of event; we_timestamp := updatedAt |}).

Definition transition_commit (next : WorkflowSnapshot) (evt : WorkflowEvent) : M powworld () :=
  transaction (persistWorkflow next;; insertWorkflowEventOutboxRow evt).

Definition transitionWorkflow (orderId : string) (event : PurchaseEvent) : M powworld WorkflowSnapshot :=
  '(next, evt) ← transition_prepare orderId event;
  transition_commit next evt;;
  mret next.

Definition getWorkflow (orderId : string) : M powworld WorkflowSnapshot :=
  loaded ← loadWorkflow orderId;
  some_or_throw loaded (Error ("Workflow not found: " +:+ orderId)).

(** [ORDER BY updated_at DESC] *)
Fixpoint insert_recent (s : WorkflowSnapshot) (l : list WorkflowSnapshot) : list WorkflowSnapshot :=
  match l with
  | [] => [s]
  | s' :: l' => if wf_updatedAt s <? wf_updatedAt s' then s' :: insert_recent s l' else s :: l
  end.

Definition listWorkflows (userId : string) (status : option PurchaseState) : M powworld (list WorkflowSnapshot) :=
  ask (λ w, foldr insert_recent []
    (List.filter (λ s, String.eqb (pc_userId (wf_context s)) userId && match status with Some st => bool_decide (wf_state s = st) | None => true end)
       ((λ kv : string * purchase_row, snapshot_of kv.1 kv.2) <$> po_orders w))).

(** ** Delivery proofs, time-outs of payments *)

Record DeliveryProofValidation := { dv_orderId : string; dv_proofId : string; dv_valid : bool; dv_reason : option string }.

Definition DeliveryProofInvalidError (v : DeliveryProofValidation) : exn :=
  Exn "DeliveryProofInvalidError" ("Delivery proof invalid for order " +:+ dv_orderId v +:+ ": " +:+ default "unknown" (dv_reason v)).

Definition defaultDeliveryProofAdapter (orderId proofId : string) : exn + DeliveryProofValidation :=
  inr {| dv_orderId := orderId; dv_proofId := proofId; dv_valid := false; dv_reason := Some "adapter_not_configured" |}.

Definition validateDeliveryProof {S} (validate : string → string → exn + DeliveryProofValidation) (orderId proofId : string) : M S DeliveryProofValidation :=
  result ← answer (validate orderId proofId);
  throw_if (negb (dv_valid result)) (DeliveryProofInvalidError result);;
  mret result.

Record CancellationEvent := { cl_orderId : string; cl_reason : string; cl_occurredAt : Z }.

(** The event's [timeoutAt] and its only reason are not read. *)
Definition handlePaymentTimeout (orderId : string) : M powworld CancellationEvent :=
  now ← clock; mret {| cl_orderId := orderId; cl_reason := "payment_timeout"; cl_occurredAt := now |}.
End orders.

(** ** order-lookup.ts *)

Record OrderPaymentStatus := { os_orderId : string; os_paymentId : string; os_status : string; os_txHash : option string }.

Definition OrderPaymentNotFoundError (orderId : string) : exn :=
  Exn "OrderPaymentNotFoundError" ("Payment record not found for order " +:+ orderId).

(** The body of an answer of the payments service, parsed. *)
Record ApiResponse := { ap_data : option OrderPaymentStatus; ap_errorMessage : option (option string) }.

(** What came back: an error of the network, or a status and, when the text is JSON, a
    body. *)
Definition http_answer : Type := exn + (Z * option ApiResponse).

Definition fetchPaymentStatus {S} (fetch : string → http_answer) (orderId : string) : M S (option OrderPaymentStatus) :=
  match fetch orderId with
  | inl err => throw (Error ("Payments service unavailable: " +:+ exn_message err))
  | inr (status, body) =>
      if status =? 404 then mret None
      else
        body ← some_or_throw body (Error ("Payments service returned invalid response (status " +:+ dec status +:+ ")"));
        match ap_errorMessage body with
        | Some message => throw (Error (default ("Payments service returned status " +:+ dec status) message))
        | None =>
            throw_if (negb ((200 <=? status) && (status <? 300))) (Error ("Payments service returned status " +:+ dec status));;
            mret (ap_data body)
        end
  end.

Definition lookupOrderPaymentStatus {S} (lookup : string → M S (option OrderPaymentStatus)) (orderId : string) (required : bool) :
    M S (option OrderPaymentStatus) :=
  status ← lookup orderId;
  throw_if (negb (bool_decide (is_Some status)) && required) (OrderPaymentNotFoundError orderId);;
  mret status.
