(* ===== verification/PurchaseOrdersCorrect.v ===== *)
(** * Purchase workflows in the database: theorems

    Over any history of calls and of the relay, with any failures, the events of an order
    in the outbox tell exactly how it came to its state, and what Redis delivers is part
    of that story.  The last part shows what two calls at the same time break. *)
From S2P Require Import Prelude JsLib JsCollections Services Outbox OutboxCorrect PurchaseOrders.
Local Open Scope Z_scope.

Section history.
Context `{OE : OutboxEnv} (options : relay_options).
Notation max := (maxAttempts options).
Notation store := (PostgresServiceEventOutboxStore (P := WorkflowEvent)).
Implicit Types (w : powworld) (o : oworld WorkflowEvent).

(** ** The story of an order *)

(** Where the events lead from a state, if each follows from the one before. *)
Fixpoint follow (s : PurchaseState) (es : list WorkflowEvent) : option PurchaseState :=
  match es with
  | [] => Some s
  | e :: es' =>
      if bool_decide (we_previousState e = s) && bool_decide (TRANSITIONS s (we_event e) = Some (we_currentState e))
      then follow (we_currentState e) es' else None
  end.

Lemma follow_app s es es' : follow s (es ++ es') = follow s es ≫= λ s', follow s' es'.
Proof. revert s. induction es as [| e es IH]; intros s; simpl; [done |]. by destruct (_ && _). Qed.

Definition about (orderId : string) (e : WorkflowEvent) : bool := String.eqb (we_orderId e) orderId.
Definition story (orderId : string) o : list WorkflowEvent := List.filter (about orderId) (ox_payload <$> ow_rows o).

Lemma story_kept orderId o o' : kept o o' → story orderId o' = story orderId o.
Proof.
  unfold kept, story. intros [H _]. f_equal. apply (f_equal (fmap (λ e, e.2))) in H. by rewrite <- !list_fmap_compose in H.
Qed.

(** Every transition leads on: a story has at most eight events. *)
Definition rank (s : PurchaseState) : nat :=
  match s with
  | INITIATED => 0 | SEARCHING => 1 | FOUND => 2 | APPROVED => 3 | ESCROW_FUNDED => 4 | PURCHASED => 5 | DELIVERING => 6
  | DELIVERED => 7 | COMPLETED | CANCELLED | FAILED => 8
  end.

Lemma rank_step s t s' : TRANSITIONS s t = Some s' → (rank s < rank s')%nat.
Proof. destruct s, t; simpl; intros [= <-]; simpl; lia. Qed.

Lemma follow_length s es s' : follow s es = Some s' → (rank s + length es ≤ rank s')%nat.
Proof.
  revert s. induction es as [| e es IH]; intros s; simpl; [intros [= <-]; lia |]. destruct (_ && _) eqn:Hb; [| done].
  apply andb_true_iff in Hb as [_ Ht%bool_decide_eq_true_1]. intros H. apply IH in H. apply rank_step in Ht. lia.
Qed.

Lemma rank_max s : (rank s ≤ 8)%nat.
Proof. destruct s; simpl; lia. Qed.

(** What an order has on record in a state it reaches. *)
Definition recorded (s : PurchaseState) (c : PurchaseContext) : Prop :=
  (3 ≤ rank s ∧ rank s < 8 → is_Some (pc_selectedProductId c))%nat ∧
  (4 ≤ rank s ∧ rank s < 8 → is_Some (pc_escrowId c) ∧ is_Some (pc_escrowTxHash c))%nat ∧
  (5 ≤ rank s ∧ rank s < 8 → is_Some (pc_merchantOrderId c))%nat ∧
  (s = DELIVERED → is_Some (pc_settlementTxHash c)) ∧
  (s = COMPLETED → is_Some (pc_selectedProductId c) ∧ is_Some (pc_escrowId c) ∧ is_Some (pc_escrowTxHash c) ∧
     is_Some (pc_merchantOrderId c) ∧ is_Some (pc_settlementTxHash c)) ∧
  (s = FAILED → is_Some (pc_error c)).

Lemma recorded_step s e c s' : TRANSITIONS s (type_of e) = Some s' → recorded s c → recorded s' (update_context e c).
Proof.
  intros Ht (H1 & H2 & H3 & H4 & H5 & H6). destruct s, e; simpl in Ht; try done; injection Ht as <-; unfold recorded; simpl in *;
    repeat split; intros; try (exfalso; lia); try done; try (apply H1; lia); try (apply H2; lia); try (apply H3; lia); eauto.
Qed.

(** ** The invariant *)

Definition order_ok (orderId : string) w (r : purchase_row) : Prop :=
  follow INITIATED (story orderId (po_outbox w)) = Some (pr_state r) ∧ recorded (pr_state r) (pr_context r) ∧
  pc_orderId (pr_context r) = orderId ∧ (∃ n, (n < ow_ids (po_outbox w))%nat ∧ orderId = ox_uuid n) ∧
  Forall (λ e, we_userId e = pc_userId (pr_context r)) (story orderId (po_outbox w)).

Record orders_ok w : Prop := {
  oo_outbox : outbox_ok max (po_outbox w);
  oo_order : ∀ orderId r, jget orderId (po_orders w) = Some r → order_ok orderId w r;
  oo_none : ∀ orderId, jget orderId (po_orders w) = None → story orderId (po_outbox w) = []
}.

Lemma orders_move w w' :
  po_orders w' = po_orders w → relays max (po_outbox w) (po_outbox w') → orders_ok w → orders_ok w'.
Proof.
  intros Ho Hr [H1 H2 H3]. destruct (Hr H1) as [H1' Hk]. split; [done | |]; rewrite Ho.
  - intros orderId r Hj. destruct (H2 orderId r Hj) as (A1 & A2 & A3 & (n & Hn & A4) & A5). unfold order_ok. rewrite (story_kept _ _ _ Hk).
    repeat (split; [done |]). split; [| done]. exists n. split; [| done]. destruct Hk. lia.
  - intros orderId Hj. rewrite (story_kept _ _ _ Hk). by apply H3.
Qed.

Lemma same_outbox_relays o o' : only_rows o o' → ow_rows o' = ow_rows o → relays max o o'.
Proof. intros Ho Hr. eapply (rows_changed _ _ _ (λ r, r)); [exact Ho | by rewrite list_fmap_id | done | done]. Qed.

Lemma tick_ok w : orders_ok w → orders_ok (tick w).
Proof. apply orders_move; [done |]. apply same_outbox_relays; [apply only_rows_tick | done]. Qed.

(** ** Creation *)

Context (Hmax : 0 < max) (Huuid : Inj (=) (=) ox_uuid).

Lemma fresh_order w : orders_ok w → jget (ox_uuid (ow_ids (po_outbox w))) (po_orders w) = None.
Proof.
  intros Hw. destruct (jget _ _) as [r |] eqn:Hj; [| done]. destruct (oo_order _ Hw _ _ Hj) as (_ & _ & _ & (n & Hn & Heq) & _). apply Huuid in Heq. lia.
Qed.

Lemma new_order w n s :
  orders_ok w → (n < ow_ids (po_outbox w))%nat → wf_orderId s = ox_uuid n → wf_state s = INITIATED → pc_orderId (wf_context s) = ox_uuid n →
  jget (ox_uuid n) (po_orders w) = None → orders_ok (set_orders (upsert s) w).
Proof.
  intros Hw Hn Hid Hst Hc Hnone. destruct Hw as [H1 H2 H3]. unfold set_orders, upsert. rewrite Hid. split; simpl; [done | |]; intros orderId; [intros r |]; rewrite jget_jset.
  - destruct (decide _) as [<- | Hne]; [| apply H2]. intros [= <-]. unfold order_ok. simpl. rewrite (H3 _ Hnone), Hst. split; [done |].
    split; [unfold recorded; simpl; repeat split; intros; (done || lia) |]. split; [done |]. split; [by exists n | constructor].
  - destruct (decide _); [done | apply H3].
Qed.

Lemma create_ok user delegation query w : orders_ok w → orders_ok (createWorkflow user delegation query w).2.
Proof.
  intros Hw. pose proof (fresh_order w Hw) as Hfresh. unfold createWorkflow. set (w1 := POWorld (po_orders w) (next_id (po_outbox w))).
  assert (orders_ok w1) as Hw1.
  { apply (orders_move w); [done | | done]. apply same_outbox_relays; [repeat split; simpl; lia | done]. }
  rewrite (bind_run (on_outbox new_id) _ w (ox_uuid (ow_ids (po_outbox w))) w1 eq_refl), (bind_run clock _ w1 _ w1 eq_refl). cbv zeta.
  set (s := Build_WorkflowSnapshot _ _ _ _). assert (orders_ok (set_orders (upsert s) (tick w1))) as Hs.
  { apply (new_order _ (ow_ids (po_outbox w))); [by apply tick_ok | simpl; lia | done ..]. }
  apply tick_ok in Hw1. unfold persistWorkflow, write, call, mbind, M_bind. destruct (next_fate w1); simpl; [exact Hs | exact Hw1 | exact Hs].
Qed.

(** ** Transitions *)

(** What [transition_prepare] has read and computed. *)
Lemma prepare_inr orderId e w next evt w1 :
  transition_prepare orderId e w = (inr (next, evt), w1) →
  w1 = tick w ∧ ∃ r, jget orderId (po_orders w) = Some r ∧ TRANSITIONS (pr_state r) (type_of e) = Some (wf_state next) ∧
    next = {| wf_orderId := orderId; wf_state := wf_state next; wf_context := update_context e (pr_context r); wf_updatedAt := wf_updatedAt next |} ∧
    evt = {| we_orderId := orderId; we_userId := pc_userId (update_context e (pr_context r)); we_previousState := pr_state r;
             we_currentState := wf_state next; we_event := type_of e; we_timestamp := wf_updatedAt next |}.
Proof.
  unfold transition_prepare, applyEvent. intros H. apply bind_inr in H as (loaded & w2 & Hl & H). apply ask_inr in Hl as [-> ->].
  apply bind_inr in H as (snap & w2 & Hs & H). apply some_or_throw_run in Hs as [Hs ->]. apply bind_inr in H as ([st c] & w2 & Ha & H).
  apply bind_inr in Ha as (nx & w3 & Ht & Ha). apply some_or_throw_run in Ht as [Ht ->]. injection Ha as <- <- <-.
  apply bind_inr in H as (t & w3 & Hc & H). injection Hc as <- <-. injection H as <- <- <-. split; [done |].
  change (po_orders (tick w)) with (po_orders w) in Hs. destruct (jget orderId (po_orders w)) as [r |]; [| done]. injection Hs as <-. by exists r.
Qed.

Lemma prepare_reads orderId e w : (transition_prepare orderId e w).2 = w ∨ (transition_prepare orderId e w).2 = tick w.
Proof.
  unfold transition_prepare, loadWorkflow, applyEvent, ask, call, mbind, M_bind. simpl. destruct (ox_fate _); simpl; [| by right ..].
  right. destruct (jget _ _) as [r |]; simpl; [| done]. by destruct (TRANSITIONS _ _).
Qed.

Lemma postgres_insert_inr input o r o' :
  postgres_insert input o = (inr r, o') →
  only_rows o o' ∧ ∃ now, ow_ids o' = S (ow_ids o) ∧ ow_rows o' = ow_rows o ++ [new_row (P := WorkflowEvent) (ox_uuid (ow_ids o)) now input].
Proof.
  intros H. split; [pose proof (proj1 (law_insert (store := store) input o)) as Ho; simpl in Ho; by rewrite H in Ho |].
  unfold postgres_insert in H. apply bind_inr in H as (id & o1 & Hi & H). injection Hi as <- <-. apply bind_inr in H as ([] & o1 & Ht & H).
  apply throw_if_run in Ht as [_ ->]. apply call_inr in H. injection H as _ <-. eexists. split; reflexivity.
Qed.

Definition outbox_moves w w' : Prop := only_rows (po_outbox w) (po_outbox w').

#[local] Instance outbox_moves_preorder : PreOrder outbox_moves.
Proof. unfold outbox_moves. split; [intros w; reflexivity |]. intros w1 w2 w3 H1 H2. by etrans. Qed.

Lemma commit_body_moves next evt : evolves outbox_moves (persistWorkflow next;; insertWorkflowEventOutboxRow evt).
Proof.
  apply evolves_bind; [apply _ | apply write_evolves; [apply _ | intros w; apply only_rows_tick | intros w; unfold outbox_moves; reflexivity] |]. intros _.
  unfold insertWorkflowEventOutboxRow. apply evolves_bind; [apply _ | | intros ?; apply evolves_ret, _]. intros w. unfold on_outbox, zoom.
  pose proof (proj1 (law_insert (store := store) (InsertInput WORKFLOW_TOPIC evt (Some ox_pending)) (po_outbox w))) as Ho. simpl in Ho.
  by destruct (postgres_insert _ _) as [r o].
Qed.

(** The two writes of a transition, when both happen. *)
Lemma commit_body_inr next evt w a w1 :
  (persistWorkflow next;; insertWorkflowEventOutboxRow evt) w = (inr a, w1) →
  po_orders w1 = upsert next (po_orders w) ∧ only_rows (po_outbox w) (po_outbox w1) ∧
  ∃ now, ow_ids (po_outbox w1) = S (ow_ids (po_outbox w)) ∧
    ow_rows (po_outbox w1) = ow_rows (po_outbox w) ++ [new_row (ox_uuid (ow_ids (po_outbox w))) now (InsertInput WORKFLOW_TOPIC evt (Some ox_pending))].
Proof.
  intros H. apply bind_inr in H as ([] & w2 & Hp & H). apply write_inr in Hp as ->. unfold insertWorkflowEventOutboxRow in H.
  apply bind_inr in H as (r & w3 & Hi & H). injection H as _ <-. unfold on_outbox, zoom in Hi.
  destruct (postgres_insert _ _) as [res o] eqn:Hr. injection Hi as -> <-. apply postgres_insert_inr in Hr. split; [done |]. exact Hr.
Qed.

Lemma story_snoc orderId o o' x : ow_rows o' = ow_rows o ++ [x] →
  story orderId o' = story orderId o ++ (if about orderId (ox_payload x) then [ox_payload x] else []).
Proof. intros Hr. unfold story. rewrite Hr, fmap_app, List.filter_app. simpl. by destruct (about _ _). Qed.

Lemma update_user e c : pc_userId (update_context e c) = pc_userId c ∧ pc_orderId (update_context e c) = pc_orderId c.
Proof. by destruct e. Qed.

Lemma written_ok orderId e w next evt r w1 now :
  orders_ok w → jget orderId (po_orders w) = Some r → TRANSITIONS (pr_state r) (type_of e) = Some (wf_state next) →
  next = {| wf_orderId := orderId; wf_state := wf_state next; wf_context := update_context e (pr_context r); wf_updatedAt := wf_updatedAt next |} →
  evt = {| we_orderId := orderId; we_userId := pc_userId (update_context e (pr_context r)); we_previousState := pr_state r;
           we_currentState := wf_state next; we_event := type_of e; we_timestamp := wf_updatedAt next |} →
  po_orders w1 = upsert next (po_orders w) → only_rows (po_outbox w) (po_outbox w1) → ow_ids (po_outbox w1) = S (ow_ids (po_outbox w)) →
  ow_rows (po_outbox w1) = ow_rows (po_outbox w) ++ [new_row (ox_uuid (ow_ids (po_outbox w))) now (InsertInput WORKFLOW_TOPIC evt (Some ox_pending))] →
  orders_ok w1.
Proof.
  intros [H1 H2 H3] Hj Ht Hn He Ho Honly Hids Hrows. pose proof (story_snoc orderId _ _ _ Hrows) as Hmine. simpl in Hmine.
  assert (about orderId evt = true) as Hab by (rewrite He; apply String.eqb_refl). rewrite Hab in Hmine.
  assert (∀ k, k ≠ orderId → story k (po_outbox w1) = story k (po_outbox w)) as Hother.
  { intros k Hk. rewrite (story_snoc k _ _ _ Hrows). rewrite He. unfold about. simpl. destruct (String.eqb_spec orderId k); [by subst | by rewrite app_nil_r]. }
  rewrite Hn in Ho. unfold upsert in Ho. simpl in Ho. split.
  - destruct (inserted_extends options Hmax Huuid (InsertInput WORKFLOW_TOPIC evt (Some ox_pending)) (po_outbox w) (po_outbox w1) eq_refl Honly) as [Hok _]; [| exact H1 | exact Hok].
    right. exists (ow_ids (po_outbox w)), now. split; [lia | exact Hrows].
  - intros k x. rewrite Ho, jget_jset. destruct (decide _) as [<- | Hne].
    + intros [= <-]. destruct (H2 _ _ Hj) as (A1 & A2 & A3 & (n & Hn' & A4) & A5). destruct (update_user e (pr_context r)) as [Eu Eo].
      unfold order_ok. simpl. rewrite Hmine, follow_app, A1, Eu, Eo. simpl. rewrite He. simpl.
      rewrite !bool_decide_eq_true_2 by done. simpl. split; [done |]. split; [by apply (recorded_step (pr_state r)) |]. split; [done |].
      split; [exists n; split; [lia | done] |]. apply Forall_app. split; [done |]. constructor; [done | constructor].
    + intros Hk. destruct (H2 _ _ Hk) as (A1 & A2 & A3 & (n & Hn' & A4) & A5). unfold order_ok. rewrite (Hother k) by done.
      repeat (split; [done |]). split; [exists n; split; [lia | done] | done].
  - intros k. rewrite Ho, jget_jset. destruct (decide _) as [<- | Hne]; [done |]. intros Hk. rewrite (Hother k) by done. by apply H3.
Qed.

Lemma rollback_ok w w1 : orders_ok w → outbox_moves w w1 → orders_ok (rollback w w1).
Proof. intros Hw Hm. apply (orders_move w); [done | | done]. apply same_outbox_relays; [exact Hm | done]. Qed.

Lemma transition_ok orderId e w : orders_ok w → orders_ok (transitionWorkflow orderId e w).2.
Proof.
  intros Hw. unfold transitionWorkflow. destruct (transition_prepare orderId e w) as [[err | [next evt]] w1] eqn:Hp.
  { rewrite (bind_run_err _ _ _ _ _ Hp). simpl. destruct (prepare_reads orderId e w) as [Hr | Hr]; rewrite Hp in Hr; simpl in Hr; rewrite Hr; [done | by apply tick_ok]. }
  rewrite (bind_run _ _ _ _ _ Hp). apply prepare_inr in Hp as (-> & r & Hj & Ht & Hn & He).
  assert (orders_ok (transition_commit next evt (tick w)).2) as Hc.
  { apply tick_ok in Hw. unfold transition_commit.
    destruct (transaction_cases outbox_moves (persistWorkflow next;; insertWorkflowEventOutboxRow evt) (tick w)) as [(err & w1 & Hm & ->) | (a & w1 & res & Hb & -> & _)].
    - intros w1. apply only_rows_tick.
    - apply commit_body_moves.
    - by apply rollback_ok.
    - apply tick_ok. apply commit_body_inr in Hb as (Ho & Honly & now & Hids & Hrows). apply tick_ok in Hw.
      by eapply (written_ok orderId e (tick (tick w)) next evt r w1 now). }
  unfold mbind, M_bind. by destruct (transition_commit next evt (tick w)) as [[err | []] w2].
Qed.

(** ** Histories *)

Inductive order_op :=
  | PoCreate (user delegation query : string)
  | PoTransition (orderId : string) (e : PurchaseEvent)
  | PoGet (orderId : string)
  | PoList (user : string) (status : option PurchaseState)
  (** the relay worker, and the clock *)
  | PoStart | PoTimer | PoStop | PoWait (ms : Z).

Definition on_relay (x : outbox_op (P := WorkflowEvent)) w : powworld := POWorld (po_orders w) (run_outbox_op store options x (po_outbox w)).

Definition run_order (x : order_op) w : powworld :=
  match x with
  | PoCreate user delegation query => (createWorkflow user delegation query w).2
  | PoTransition orderId e => (transitionWorkflow orderId e w).2
  | PoGet orderId => (getWorkflow orderId w).2
  | PoList user status => (listWorkflows user status w).2
  | PoStart => on_relay OxStart w
  | PoTimer => on_relay OxTimer w
  | PoStop => on_relay OxStop w
  | PoWait ms => on_relay (OxWait ms) w
  end.

Definition run_orders (ops : list order_op) w : powworld := foldl (λ w x, run_order x w) w ops.

Lemma ask_ok {A} (f : powworld → A) w : orders_ok w → orders_ok (ask f w).2.
Proof. intros Hw%tick_ok. unfold ask, call. by destruct (next_fate w). Qed.

Lemma on_relay_ok x w : (∀ topic e, x ≠ OxInsert topic e) → orders_ok w → orders_ok (on_relay x w).
Proof. intros Hx. apply orders_move; [done |]. exact (run_op_relays store options x (po_outbox w) Hx). Qed.

Lemma run_order_ok x w : orders_ok w → orders_ok (run_order x w).
Proof.
  destruct x; simpl; [apply create_ok | apply transition_ok | | apply ask_ok | by apply on_relay_ok ..].
  intros Hw. apply (ask_ok (λ w, snapshot_of orderId <$> jget orderId (po_orders w))) in Hw. unfold getWorkflow, loadWorkflow, mbind, M_bind.
  destruct (ask _ w) as [[err | [s0 |]] w1]; done.
Qed.

Lemma run_orders_ok ops w : orders_ok w → orders_ok (run_orders ops w).
Proof. unfold run_orders. revert w. induction ops as [| x ops IH]; intros w Hw; simpl; [done |]. by apply IH, run_order_ok. Qed.
End history.

Definition no_orders : powworld := POWorld [] empty_outbox.

Lemma no_orders_ok `{OE : OutboxEnv} options : orders_ok options no_orders.
Proof. split; [apply empty_ok | done | done]. Qed.

(** C21. The outbox tells the story of every order.  Over any history of calls and of the
    relay worker, with any failures of PostgreSQL and Redis, lost answers of [COMMIT]
    included: the events of an order in the outbox lead, transition by transition, from
    INITIATED to the state of its row, and there are at most eight; an order that does
    not exist has none; the row has what its state requires (product, escrow and its
    transaction, merchant's order, settlement); and each message Redis delivered is an
    event of such a story. *)
Theorem order_history `{OE : OutboxEnv} options ops :
  0 < maxAttempts options → Inj (=) (=) ox_uuid →
  let w := run_orders options ops no_orders in
  (∀ orderId, match jget orderId (po_orders w) with
     | Some r =>
         follow INITIATED (story orderId (po_outbox w)) = Some (pr_state r) ∧ (length (story orderId (po_outbox w)) ≤ 8)%nat ∧
         recorded (pr_state r) (pr_context r) ∧ pc_orderId (pr_context r) = orderId ∧
         Forall (λ e, we_userId e = pc_userId (pr_context r)) (story orderId (po_outbox w))
     | None => story orderId (po_outbox w) = []
     end) ∧
  ∀ topic e, (topic, e) ∈ ow_sent (po_outbox w) → is_Some (jget (we_orderId e) (po_orders w)) ∧ e ∈ story (we_orderId e) (po_outbox w).
Proof.
  intros Hmax Huuid w. destruct (run_orders_ok options Hmax Huuid ops no_orders (no_orders_ok options)) as [H1 H2 H3]. fold w in H1, H2, H3. split.
  - intros orderId. destruct (jget orderId (po_orders w)) as [r |] eqn:Hj; [| by apply H3]. destruct (H2 _ _ Hj) as (A1 & A2 & A3 & _ & A5).
    split; [done |]. split; [| done]. apply follow_length in A1. simpl in A1. pose proof (rank_max (pr_state r)). lia.
  - intros topic e Hs. destruct (ok_real _ _ H1 _ Hs) as (x & Hx & [= _ ->]).
    assert (ox_payload x ∈ story (we_orderId (ox_payload x)) (po_outbox w)) as Hin.
    { unfold story. apply list_elem_of_In, filter_In. split; [apply list_elem_of_In; by apply list_elem_of_fmap_2 | apply String.eqb_refl]. }
    split; [| done]. destruct (jget _ (po_orders w)) eqn:Hj; [done |]. rewrite (H3 _ Hj) in Hin. by apply elem_of_nil in Hin.
Qed.

(** ** Runs *)

(** The answer of the fifth call, a [COMMIT], is lost. *)
Definition lost_commit : OutboxEnv := {|
  ox_fate := λ n, if Nat.eqb n 5 then CallLost (Error "Connection terminated") else CallOk;
  ox_uuid := λ n, dec (Z.of_nat n); floor_random := λ _ c, c |}.

#[export] Instance lost_commit_fresh : Inj (=) (=) (@ox_uuid lost_commit).
Proof. intros n m H. simpl in H. apply (inj dec) in H. lia. Qed.

Definition relay_defaults : relay_options := Build_relay_options None None None None.

(** The first transition reports an error and has happened; asked for again, it is
    refused; the relay announces it. *)
Definition demo_orders : list order_op :=
  [PoCreate "user" "del" "lamp"; PoTransition "0" (Search "lamp" "del"); PoTransition "0" (Search "lamp" "del");
   PoTransition "0" (ProductsFound []); PoStart].

Lemma order_history_witness :
  let w := @run_orders lost_commit relay_defaults demo_orders no_orders in
  (we_event <$> story "0" (po_outbox w)) = [SEARCH; PRODUCTS_FOUND] ∧ length (ow_sent (po_outbox w)) = 2%nat ∧
  (pr_state <$> jget "0" (po_orders w)) = Some FOUND ∧ follow INITIATED (story "0" (po_outbox w)) = Some FOUND.
Proof.
  intros w. split; [vm_compute; reflexivity |]. split; [vm_compute; reflexivity |]. split; [vm_compute; reflexivity |].
  destruct (@order_history lost_commit relay_defaults demo_orders eq_refl _) as [H _]. specialize (H "0").
  destruct (jget "0" (po_orders (@run_orders lost_commit relay_defaults demo_orders no_orders))) as [r |] eqn:Hj; [| vm_compute in Hj; discriminate].
  assert (pr_state r = FOUND) as Hr by (vm_compute in Hj; injection Hj as <-; reflexivity). rewrite Hr in H. exact (proj1 H).
Defined.

(** Two calls at once: both read the row before either writes it, and nothing in the
    transaction compares.  A cancellation and a funding of the same order are both
    announced, and the order that was reported as cancelled is funded. *)
Definition two_transitions (orderId : string) (a b : PurchaseEvent) : M powworld () :=
  '(next_a, evt_a) ← @transition_prepare lost_commit orderId a;
  '(next_b, evt_b) ← @transition_prepare lost_commit orderId b;
  @transition_commit lost_commit next_a evt_a;; @transition_commit lost_commit next_b evt_b.

Theorem concurrent_transitions_fork :
  let w := @run_orders lost_commit relay_defaults
    [PoCreate "user" "del" "lamp"; PoTransition "0" (Search "lamp" "del"); PoTransition "0" (ProductsFound []); PoTransition "0" (Approve "p1")] no_orders in
  let '(res, w') := two_transitions "0" (Cancel "changed my mind") (EscrowFunded "esc" "tx") w in
  res = inr () ∧ (pr_state <$> jget "0" (po_orders w')) = Some ESCROW_FUNDED ∧
  (we_currentState <$> story "0" (po_outbox w')) = [SEARCHING; FOUND; APPROVED; CANCELLED; ESCROW_FUNDED] ∧
  follow INITIATED (story "0" (po_outbox w')) = None.
Proof. vm_compute. repeat split; reflexivity. Qed.
