(* ===== verification/Ingestion.v ===== *)
(** * Resumable ingestion of contract events (apps/backend/cdc/src/sorobanEvents/)

    - ingestionCheckpointStore.ts: checkpoints, the transaction that stores a batch of
      events, claims them, runs the processors and moves the watermark;
    - resumableIngestion.ts: the JSON-RPC client, the worker that reads ledger windows
      page by page and commits complete ledgers.

    The tables of PostgreSQL are shared; each worker (replica) has its own memory, lost
    when it restarts.  The answers of the RPC node are a parameter, by the number of the
    call; calls of PostgreSQL and of the hook may fail before or after they took effect
    (Services.v).  What the processors do within a transaction is recorded as the list of
    events they were given.  The page loop has fuel; out of it the run reports [None]. *)
From S2P Require Import Prelude JsLib JsCollections Services.
Local Open Scope Z_scope.

(** ** Types *)

Record IngestionCheckpoint := { cp_contractId : string; cp_lastProcessedLedger : Z; cp_lastEventId : string; cp_updatedAt : Z }.

(** [{ xdr }], [{ str }] or an empty object *)
Record event_value := { vl_xdr : option string; vl_str : option string }.

Record LedgerEvent := {
  le_eventId : string; le_contractId : string; le_ledger : Z; le_ledgerClosedAt : string; le_txHash : string;
  le_topics : list string; le_value : event_value; le_inSuccessfulContractCall : bool
}.

(** The value of an event: a text, an object, or missing. *)
Inductive rpc_value := RText (xdr : string) | RObject (v : event_value) | RMissing.

Record RpcContractEvent := {
  rv_ledger : Z; rv_ledgerClosedAt : string; rv_contractId : string; rv_id : string; rv_topic : option (list string);
  rv_value : rpc_value; rv_inSuccessfulContractCall : option bool; rv_txHash : string
}.

Record CommitBatchInput := {
  bi_contractId : string; bi_expected : option IngestionCheckpoint; bi_throughLedger : Z; bi_events : list LedgerEvent
}.
Record CommitBatchResult := { br_checkpoint : IngestionCheckpoint; br_processed : list LedgerEvent }.

Record GetEventsWindowParams := {
  gw_contractId : string; gw_startLedger : Z; gw_endLedger : Z; gw_cursor : option string; gw_limit : nat
}.
Record GetEventsWindowResult := { gr_events : list RpcContractEvent; gr_cursor : option string }.
Record LedgerRange := { lg_oldestLedger : Z; lg_latestLedger : Z }.

Inductive ContractSyncState := cs_idle | cs_syncing | cs_halted.
Record ContractSyncStatus := { ss_state : ContractSyncState; ss_checkpoint : option IngestionCheckpoint; ss_lastError : option string }.

#[export] Instance sync_state_eq_dec : EqDecision ContractSyncState.
Proof. solve_decision. Defined.

(** ** The state *)

(** A row of soroban_event_sync_checkpoints. *)
Record checkpoint_row := { kr_ledger : Z; kr_eventId : string; kr_syncedAt : Z }.

(** The memory of a worker. *)
Record worker := Worker { wk_checkpoints : jsmap (option IngestionCheckpoint); wk_status : jsmap ContractSyncStatus; wk_stopping : bool }.

Record iworld := IWorld {
  iw_rows : jsmap checkpoint_row;
  (** soroban_contract_events, soroban_processed_events and the work of the processors *)
  iw_events : list LedgerEvent;
  iw_claims : list string;
  iw_handled : list LedgerEvent;
  iw_workers : jsmap worker;
  (** events handed to [onCommitted] *)
  iw_fanned : list LedgerEvent;
  (** the [stored] of the last CheckpointConflictError *)
  iw_conflict : option IngestionCheckpoint;
  iw_calls : nat;
  iw_now : Z
}.

(** A request of the JSON-RPC client and what comes back: an error of the network, or a
    status and a body. *)
Inductive rpc_request :=
  | getHealth
  | getEvents (startLedger : option Z) (endLedger : Z) (contractId : string) (limit : nat) (cursor : option string).

Inductive rpc_result :=
  (** the two ledgers, where they are integers *)
  | RHealth (latestLedger oldestLedger : option Z)
  | REvents (events : option (list RpcContractEvent)) (cursor : option string).

Record rpc_body := { rb_error : option (option string); rb_result : option rpc_result }.
Record rpc_reply := { rp_status : Z; rp_body : rpc_body }.

Class IngestionEnv := {
  (** what becomes of the n-th call *)
  ig_fate : nat → call_fate;
  rpc_fetch : nat → rpc_request → exn + rpc_reply;
  (** a processor may refuse a batch, given what was processed before *)
  processor_error : list LedgerEvent → list LedgerEvent → option exn;
  ig_contractIds : list string;
  ig_initialLedger : option Z;
  ig_windowSize : Z;
  ig_pageSize : nat
}.

(** ** Order of events *)

Definition compareLedgerEvents (a b : LedgerEvent) : comparison :=
  if negb (le_ledger a =? le_ledger b) then Z.compare (le_ledger a) (le_ledger b)
  else String.compare (le_eventId a) (le_eventId b).

Definition event_leb (a b : LedgerEvent) : bool := match compareLedgerEvents a b with Gt => false | _ => true end.

(** [events.sort(compareLedgerEvents)] *)
Fixpoint insert_event (e : LedgerEvent) (l : list LedgerEvent) : list LedgerEvent :=
  match l with
  | [] => [e]
  | e' :: l' => if event_leb e e' then e :: l else e' :: insert_event e l'
  end.
Definition sort_events (l : list LedgerEvent) : list LedgerEvent := foldr insert_event [] l.

(** One round per element of the two lists. *)
Fixpoint merge_from (rounds : nat) (seen : list string) (a b : list LedgerEvent) : list LedgerEvent :=
  match rounds with
  | O => []
  | S rounds' =>
      let take_one (next : LedgerEvent) (a' b' : list LedgerEvent) :=
        if bool_decide (le_eventId next ∈ seen) then merge_from rounds' seen a' b'
        else next :: merge_from rounds' (le_eventId next :: seen) a' b' in
      match a, b with
      | [], [] => []
      | x :: a', [] => take_one x a' []
      | [], y :: b' => take_one y [] b'
      | x :: a', y :: b' => if event_leb x y then take_one x a' b else take_one y a b'
      end
  end.

Definition mergeOrdered (a b : list LedgerEvent) : list LedgerEvent := merge_from (length a + length b) [] a b.

Definition toLedgerEvent (raw : RpcContractEvent) : LedgerEvent := {|
  le_eventId := rv_id raw; le_contractId := rv_contractId raw; le_ledger := rv_ledger raw; le_ledgerClosedAt := rv_ledgerClosedAt raw;
  le_txHash := rv_txHash raw; le_topics := default [] (rv_topic raw);
  le_value := match rv_value raw with
              | RText xdr => {| vl_xdr := Some xdr; vl_str := None |}
              | RObject v => v
              | RMissing => {| vl_xdr := None; vl_str := None |}
              end;
  le_inSuccessfulContractCall := default true (rv_inSuccessfulContractCall raw) |}.

(** ** Errors *)

Definition SorobanRpcError (m : string) : exn := Exn "SorobanRpcError" m.
Definition CheckpointConflictError (contractId : string) (stored : option IngestionCheckpoint) : exn :=
  Exn "CheckpointConflictError" ("Checkpoint for " +:+ contractId +:+ " changed concurrently (stored ledger " +:+
    match stored with Some c => dec (cp_lastProcessedLedger c) | None => "none" end +:+ ")").
Definition LedgerRetentionGapError (contractId : string) (resumeLedger oldestLedger : Z) : exn :=
  Exn "LedgerRetentionGapError" ("Cannot resume " +:+ contractId +:+ " at ledger " +:+ dec resumeLedger +:+
    ": RPC only retains ledgers from " +:+ dec oldestLedger +:+ ". Ledgers " +:+ dec resumeLedger +:+ "-" +:+ dec (oldestLedger - 1) +:+
    " must be backfilled from an archive before ingestion can continue.").

(** ** The checkpoint store *)

Definition watermark_of (c : option IngestionCheckpoint) : Z := default 0 (cp_lastProcessedLedger <$> c).

Definition sameWatermark (a b : option IngestionCheckpoint) : bool :=
  (watermark_of a =? watermark_of b) && String.eqb (default "" (cp_lastEventId <$> a)) (default "" (cp_lastEventId <$> b)).

(** The message of the first event that does not belong in the batch, if there is one. *)
Fixpoint event_error (contractId : string) (through : Z) (previous : option LedgerEvent) (events : list LedgerEvent) : option string :=
  match events with
  | [] => None
  | e :: events' =>
      if negb (String.eqb (le_contractId e) contractId) then
        Some ("Event " +:+ le_eventId e +:+ " belongs to " +:+ le_contractId e +:+ ", not " +:+ contractId)
      else if through <? le_ledger e then
        Some ("Event " +:+ le_eventId e +:+ " at ledger " +:+ dec (le_ledger e) +:+ " is beyond watermark " +:+ dec through)
      else if match previous with Some p => negb (bool_decide (compareLedgerEvents p e = Lt)) | None => false end then
        Some ("Events for " +:+ contractId +:+ " are not in strict ledger order at " +:+ le_eventId e)
      else event_error contractId through (Some e) events'
  end.

Definition assertCommitInput {S} (input : CommitBatchInput) : M S () :=
  let floor := watermark_of (bi_expected input) in
  throw_if (bi_throughLedger input <? floor)
    (Error ("Refusing to move checkpoint for " +:+ bi_contractId input +:+ " backwards (" +:+ dec floor +:+ " -> " +:+
            dec (bi_throughLedger input) +:+ ")"));;
  match event_error (bi_contractId input) (bi_throughLedger input) None (bi_events input) with
  | Some m => throw (Error m)
  | None => mret ()
  end.

Definition nextCheckpoint (input : CommitBatchInput) (now : Z) : IngestionCheckpoint := {|
  cp_contractId := bi_contractId input; cp_lastProcessedLedger := bi_throughLedger input;
  cp_lastEventId := match last (bi_events input) with
                    | Some e => le_eventId e
                    | None => default "" (cp_lastEventId <$> bi_expected input)
                    end;
  cp_updatedAt := now |}.

(** A row at ledger 0 is a placeholder. *)
Definition rowToCheckpoint (contractId : string) (r : checkpoint_row) : option IngestionCheckpoint :=
  if 0 <? kr_ledger r
  then Some {| cp_contractId := contractId; cp_lastProcessedLedger := kr_ledger r; cp_lastEventId := kr_eventId r; cp_updatedAt := kr_syncedAt r |}
  else None.

Section ingestion.
Context `{IE : IngestionEnv}.
Implicit Types w : iworld.

Definition set_tables (rows : jsmap checkpoint_row → jsmap checkpoint_row) (events : list LedgerEvent → list LedgerEvent)
    (claims : list string → list string) (handled : list LedgerEvent → list LedgerEvent) w : iworld :=
  IWorld (rows (iw_rows w)) (events (iw_events w)) (claims (iw_claims w)) (handled (iw_handled w)) (iw_workers w) (iw_fanned w)
    (iw_conflict w) (iw_calls w) (iw_now w).
Definition set_worker (name : string) (f : worker → worker) w : iworld :=
  IWorld (iw_rows w) (iw_events w) (iw_claims w) (iw_handled w)
    (jset name (f (default (Worker [] [] false) (jget name (iw_workers w)))) (iw_workers w)) (iw_fanned w) (iw_conflict w) (iw_calls w) (iw_now w).
Definition set_conflict (c : option IngestionCheckpoint) w : iworld :=
  IWorld (iw_rows w) (iw_events w) (iw_claims w) (iw_handled w) (iw_workers w) (iw_fanned w) c (iw_calls w) (iw_now w).
Definition fan_out (events : list LedgerEvent) w : iworld :=
  IWorld (iw_rows w) (iw_events w) (iw_claims w) (iw_handled w) (iw_workers w) (iw_fanned w ++ events) (iw_conflict w) (iw_calls w) (iw_now w).
Definition count_ingestion_call w : iworld :=
  IWorld (iw_rows w) (iw_events w) (iw_claims w) (iw_handled w) (iw_workers w) (iw_fanned w) (iw_conflict w) (S (iw_calls w)) (iw_now w).

Definition worker_of (name : string) w : worker := default (Worker [] [] false) (jget name (iw_workers w)).

#[export] Instance ingestion_services : Services iworld := {| next_fate := λ w, ig_fate (iw_calls w); tick := count_ingestion_call |}.
#[export] Instance ingestion_database : Database iworld := {|
  database_services := ingestion_services;
  rollback := λ w w', set_tables (λ _, iw_rows w) (λ _, iw_events w) (λ _, iw_claims w) (λ _, iw_handled w) w' |}.

Definition stored_checkpoint (contractId : string) w : option IngestionCheckpoint :=
  jget contractId (iw_rows w) ≫= rowToCheckpoint contractId.

Definition loadAll (contractIds : list string) : M iworld (jsmap IngestionCheckpoint) :=
  match contractIds with
  | [] => mret []
  | _ => ask (λ w, omap (λ c, (c,.) <$> stored_checkpoint c w) (uniq contractIds))
  end.

(** [ON CONFLICT (event_id) DO NOTHING] *)
Definition upsertEvents (events : list LedgerEvent) : M iworld () :=
  write (set_tables id (λ table, foldl (λ t e, if bool_decide (le_eventId e ∈ le_eventId <$> t) then t else t ++ [e]) table events) id id).

(** The events whose identifiers were not claimed before. *)
Definition claimEvents (events : list LedgerEvent) : M iworld (list LedgerEvent) :=
  claimed ← call (λ w,
    let fresh := List.filter (λ i, negb (bool_decide (i ∈ iw_claims w))) (uniq (le_eventId <$> events)) in
    (fresh, set_tables id id (λ c, c ++ fresh) id w));
  mret (List.filter (λ e, bool_decide (le_eventId e ∈ claimed)) events).

Definition run_processors (processed : list LedgerEvent) : M iworld () :=
  match processed with
  | [] => mret ()
  | _ =>
      handled ← gets iw_handled;
      match processor_error handled processed with
      | Some e => throw e
      | None => write (set_tables id id id (λ h, h ++ processed))
      end
  end.

(** [if (input.events.length > 0) { ... }] *)
Definition store_batch (events : list LedgerEvent) : M iworld (list LedgerEvent) :=
  match events with
  | [] => mret []
  | _ => upsertEvents events;;
         processed ← claimEvents events;
         run_processors processed;;
         mret processed
  end.

(** The statements between BEGIN and COMMIT. *)
Definition commit_statements (input : CommitBatchInput) : M iworld CommitBatchResult :=
  let c := bi_contractId input in
  write (λ w, set_tables (λ rows, match jget c rows with
                                  | Some _ => rows
                                  | None => jset c {| kr_ledger := 0; kr_eventId := ""; kr_syncedAt := iw_now w |} rows
                                  end) id id id w);;
  stored ← ask (stored_checkpoint c);
  (if sameWatermark stored (bi_expected input) then mret ()
   else modify (set_conflict stored);; throw (CheckpointConflictError c stored));;
  processed ← store_batch (bi_events input);
  now ← gets iw_now;
  let checkpoint := nextCheckpoint input now in
  write (set_tables (jset c {| kr_ledger := cp_lastProcessedLedger checkpoint; kr_eventId := cp_lastEventId checkpoint;
                               kr_syncedAt := cp_updatedAt checkpoint |}) id id id);;
  mret {| br_checkpoint := checkpoint; br_processed := processed |}.

Definition commitBatch (input : CommitBatchInput) : M iworld CommitBatchResult :=
  assertCommitInput input;;
  transaction (commit_statements input).

(** ** The RPC client *)

Definition rpc_method (request : rpc_request) : string :=
  match request with getHealth => "getHealth" | getEvents _ _ _ _ _ => "getEvents" end.

Definition rpc_call (request : rpc_request) : M iworld rpc_result :=
  n ← gets iw_calls;
  modify count_ingestion_call;;
  response ← answer (rpc_fetch n request);
  throw_if (negb ((200 <=? rp_status response) && (rp_status response <? 300)))
    (SorobanRpcError ("Soroban RPC " +:+ rpc_method request +:+ " failed: HTTP " +:+ dec (rp_status response)));;
  match rb_error (rp_body response) with
  | Some message => throw (SorobanRpcError ("Soroban RPC " +:+ rpc_method request +:+ " error: " +:+ default "unknown" message))
  | None => some_or_throw (rb_result (rp_body response)) (SorobanRpcError ("Soroban RPC " +:+ rpc_method request +:+ " returned no result"))
  end.

Definition getLedgerRange : M iworld LedgerRange :=
  result ← rpc_call getHealth;
  match result with
  | RHealth (Some latest) (Some oldest) => mret {| lg_oldestLedger := oldest; lg_latestLedger := latest |}
  | _ => throw (SorobanRpcError "getHealth response is missing latestLedger/oldestLedger")
  end.

(** [startLedger] and [cursor] exclude each other; the RPC's end is exclusive. *)
Definition events_request (p : GetEventsWindowParams) : rpc_request :=
  getEvents (if truthy (gw_cursor p) then None else Some (gw_startLedger p)) (gw_endLedger p + 1) (gw_contractId p) (gw_limit p)
    (if truthy (gw_cursor p) then gw_cursor p else None).

Definition getEventsWindow (p : GetEventsWindowParams) : M iworld GetEventsWindowResult :=
  result ← rpc_call (events_request p);
  match result with
  | REvents events cursor => mret {| gr_events := default [] events; gr_cursor := if truthy cursor then cursor else None |}
  | RHealth _ _ => mret {| gr_events := []; gr_cursor := None |}
  end.

(** ** The worker *)

Section worker.
Context (name : string).

Definition checkpoint_of (contractId : string) w : option IngestionCheckpoint :=
  default None (jget contractId (wk_checkpoints (worker_of name w))).
Definition status_of (contractId : string) w : ContractSyncStatus :=
  default {| ss_state := cs_idle; ss_checkpoint := None; ss_lastError := None |} (jget contractId (wk_status (worker_of name w))).

Definition set_checkpoint (contractId : string) (c : option IngestionCheckpoint) : M iworld () :=
  modify (set_worker name (λ k, Worker (jset contractId c (wk_checkpoints k)) (wk_status k) (wk_stopping k))).
Definition set_status (contractId : string) (f : ContractSyncStatus → ContractSyncStatus) : M iworld () :=
  modify (λ w, set_worker name (λ k, Worker (wk_checkpoints k) (jset contractId (f (status_of contractId w)) (wk_status k)) (wk_stopping k)) w).

Definition with_state (s : ContractSyncState) (x : ContractSyncStatus) : ContractSyncStatus :=
  {| ss_state := s; ss_checkpoint := ss_checkpoint x; ss_lastError := ss_lastError x |}.
Definition with_checkpoint (c : option IngestionCheckpoint) (x : ContractSyncStatus) : ContractSyncStatus :=
  {| ss_state := ss_state x; ss_checkpoint := c; ss_lastError := ss_lastError x |}.
Definition with_error (e : option string) (x : ContractSyncStatus) : ContractSyncStatus :=
  {| ss_state := ss_state x; ss_checkpoint := ss_checkpoint x; ss_lastError := e |}.

(** A restart has lost the memory of the worker. *)
Definition loadCheckpoints : M iworld () :=
  loaded ← loadAll ig_contractIds;
  for_each ig_contractIds (λ contractId,
    let checkpoint := jget contractId loaded in
    set_checkpoint contractId checkpoint;;
    set_status contractId (λ _, {| ss_state := cs_idle; ss_checkpoint := checkpoint; ss_lastError := None |})).

Definition restart : M iworld () := modify (set_worker name (λ _, Worker [] [] false));; loadCheckpoints.

Definition resumeLedger (contractId : string) (range : LedgerRange) : M iworld Z :=
  checkpoint ← gets (checkpoint_of contractId);
  mret match checkpoint with
       | Some c => cp_lastProcessedLedger c + 1
       | None => default (lg_oldestLedger range) ig_initialLedger
       end.

Definition worker_commit (contractId : string) (throughLedger : Z) (events : list LedgerEvent) : M iworld Z :=
  expected ← gets (checkpoint_of contractId);
  if bool_decide (events = []) && (throughLedger <=? watermark_of expected) then mret 0
  else
    result ← commitBatch {| bi_contractId := contractId; bi_expected := expected; bi_throughLedger := throughLedger; bi_events := events |};
    set_checkpoint contractId (Some (br_checkpoint result));;
    set_status contractId (with_checkpoint (Some (br_checkpoint result)));;
    (if bool_decide (br_processed result = []) then mret ()
     else try_catch (write (fan_out (br_processed result))) (λ _, mret ()));;
    mret (Z.of_nat (length (br_processed result))).

(** The local variables of [processWindow] at the head of its loop. *)
Record window := Window {
  wd_contract : string; wd_start : Z; wd_end : Z; wd_cursor : option string; wd_carry : list LedgerEvent; wd_processed : Z
}.

(** One round: the window is done, with the number of events processed, or goes on. *)
Definition page (win : window) : M iworld (Z + window) :=
  result ← getEventsWindow {| gw_contractId := wd_contract win; gw_startLedger := wd_start win; gw_endLedger := wd_end win;
                              gw_cursor := wd_cursor win; gw_limit := ig_pageSize |};
  let pageEvents := List.filter (λ e, String.eqb (le_contractId e) (wd_contract win) && (wd_start win <=? le_ledger e))
                      (toLedgerEvent <$> gr_events result) in
  let inWindow := sort_events (List.filter (λ e, le_ledger e <=? wd_end win) pageEvents) in
  let pending := mergeOrdered (wd_carry win) inWindow in
  let windowExhausted := Nat.ltb (length (gr_events result)) ig_pageSize || negb (truthy (gr_cursor result)) ||
                         bool_decide (gr_cursor result = wd_cursor win) || existsb (λ e, wd_end win <? le_ledger e) pageEvents in
  if windowExhausted then
    n ← worker_commit (wd_contract win) (wd_end win) pending;
    mret (inl (wd_processed win + n))
  else
    let lastLedger := match last pending with Some e => le_ledger e | None => wd_start win end in
    n ← worker_commit (wd_contract win) (lastLedger - 1) (List.filter (λ e, le_ledger e <? lastLedger) pending);
    mret (inr (Window (wd_contract win) (wd_start win) (wd_end win) (gr_cursor result)
                 (List.filter (λ e, lastLedger <=? le_ledger e) pending) (wd_processed win + n))).

Fixpoint pages (fuel : nat) (win : window) : M iworld (option Z) :=
  match fuel with
  | O => mret None
  | S fuel' =>
      r ← page win;
      match r with
      | inl n => mret (Some n)
      | inr win' => pages fuel' win'
      end
  end.

Definition processWindow (fuel : nat) (contractId : string) (startLedger endLedger : Z) : M iworld (option Z) :=
  pages fuel (Window contractId startLedger endLedger None [] 0).

(** The windows from [resume] to the tip. *)
Fixpoint windows (rounds fuel : nat) (contractId : string) (resume latest total : Z) : M iworld (option Z) :=
  match rounds with
  | O => mret None
  | S rounds' =>
      stopping ← gets (λ w, wk_stopping (worker_of name w));
      if negb stopping && (resume <=? latest) then
        let windowEnd := Z.min (resume + ig_windowSize - 1) latest in
        r ← processWindow fuel contractId resume windowEnd;
        match r with
        | Some n => windows rounds' fuel contractId (windowEnd + 1) latest (total + n)
        | None => mret None
        end
      else mret (Some total)
  end.

Definition syncContract (rounds fuel : nat) (contractId : string) (range : LedgerRange) : M iworld (option Z) :=
  set_status contractId (with_state cs_syncing);;
  resume ← resumeLedger contractId range;
  throw_if (resume <? lg_oldestLedger range) (LedgerRetentionGapError contractId resume (lg_oldestLedger range));;
  r ← windows rounds fuel contractId resume (lg_latestLedger range) 0;
  set_status contractId (λ s, with_error None (with_state cs_idle s));;
  mret r.

Definition handleContractError (contractId : string) (err : exn) : M iworld () :=
  set_status contractId (with_error (Some (exn_message err)));;
  if String.eqb (exn_name err) "CheckpointConflictError" then
    stored ← gets iw_conflict;
    set_checkpoint contractId stored;;
    set_status contractId (λ s, with_state cs_idle (with_checkpoint stored s))
  else if String.eqb (exn_name err) "LedgerRetentionGapError" then set_status contractId (with_state cs_halted)
  else set_status contractId (with_state cs_idle).

(** Whether every contract synced without an error. *)
Fixpoint sync_contracts (rounds fuel : nat) (contractIds : list string) (range : LedgerRange) : M iworld (option bool) :=
  match contractIds with
  | [] => mret (Some true)
  | contractId :: rest =>
      status ← gets (status_of contractId);
      outcome ← (if bool_decide (ss_state status = cs_halted) then mret (Some true)
                 else try_catch (r ← syncContract rounds fuel contractId range; mret ((λ _, true) <$> r))
                        (λ err, handleContractError contractId err;; mret (Some false)));
      match outcome with
      | None => mret None
      | Some ok => rest_ok ← sync_contracts rounds fuel rest range;
                   mret (andb ok <$> rest_ok)
      end
  end.

Definition syncOnce (rounds fuel : nat) : M iworld (option bool) :=
  known ← gets (λ w, wk_checkpoints (worker_of name w));
  (if bool_decide (known = []) then loadCheckpoints else mret ());;
  range ← getLedgerRange;
  sync_contracts rounds fuel ig_contractIds range.

Definition stop_worker : M iworld () := modify (set_worker name (λ k, Worker (wk_checkpoints k) (wk_status k) true)).
End worker.
End ingestion.
