(* ===== verification/IngestionCorrect.v ===== *)
(** * Resumable ingestion: theorems

    Against the documented behaviour of the RPC node, and for any number of workers that
    restart at any time and run interleaved page by page, with any failures: the events
    of a contract in the database, and the work of the processors, are exactly the events
    of the chain from its first ledger to its watermark, each once and in order. *)
From S2P Require Import Prelude JsLib JsCollections Services Ingestion.
From Stdlib Require Import Sorting.Sorted.
Local Open Scope Z_scope.

Implicit Types (e : LedgerEvent) (l : list LedgerEvent).

(** ** Sorted lists of events *)

Definition before e e' : Prop := compareLedgerEvents e e' = Lt.

Lemma before_ledger e e' : before e e' → le_ledger e ≤ le_ledger e'.
Proof. unfold before, compareLedgerEvents. destruct (Z.eqb_spec (le_ledger e) (le_ledger e')) as [-> | _]; cbn [negb]; [reflexivity |]. intros H. change (le_ledger e < le_ledger e') in H. lia. Qed.

Lemma before_leb e e' : before e e' → event_leb e e' = true.
Proof. unfold before, event_leb. by intros ->. Qed.

Lemma sorted_filter (p : LedgerEvent → bool) l : StronglySorted before l → StronglySorted before (List.filter p l).
Proof.
  induction 1 as [| e l Hl IH Hall]; simpl; [constructor |]. destruct (p e); [| done]. constructor; [done |].
  rewrite Forall_forall in Hall |- *. intros x Hx. apply Hall. apply list_elem_of_In, filter_In in Hx as [Hx _]. by apply list_elem_of_In.
Qed.

Lemma sorted_app_inv l l' : StronglySorted before (l ++ l') →
  StronglySorted before l ∧ StronglySorted before l' ∧ ∀ e e', e ∈ l → e' ∈ l' → before e e'.
Proof.
  induction l as [| x l IH]; simpl; intros H; [split; [constructor |]; split; [done |]; by intros ? ? ?%elem_of_nil |].
  inversion H as [| ? ? Hs Hall]; subst. destruct (IH Hs) as (H1 & H2 & H3). rewrite Forall_forall in Hall. split; [| split; [done |]].
  - constructor; [done |]. rewrite Forall_forall. intros y Hy. apply Hall, elem_of_app. by left.
  - intros e e' [-> | He]%elem_of_cons He'; [apply Hall, elem_of_app; by right | by apply H3].
Qed.

Lemma sort_sorted l : StronglySorted before l → sort_events l = l.
Proof.
  unfold sort_events. induction 1 as [| e l Hl IH Hall]; [done |]. cbn [foldr]. rewrite IH. destruct l as [| x l]; cbn [insert_event]; [done |].
  rewrite Forall_forall in Hall. rewrite before_leb; [done |]. apply Hall. by left.
Qed.

Lemma merge_sorted_from rounds seen a b :
  StronglySorted before (a ++ b) → NoDup (seen ++ (le_eventId <$> a ++ b)) → (length a + length b ≤ rounds)%nat → merge_from rounds seen a b = a ++ b.
Proof.
  revert seen a b. induction rounds as [| rounds IH]; intros seen a b Hs Hn Hr.
  { destruct a, b; simpl in *; try lia. done. }
  assert (∀ x (ids : list string), NoDup (seen ++ le_eventId x :: ids) → bool_decide (le_eventId x ∈ seen) = false ∧ NoDup ((le_eventId x :: seen) ++ ids)) as Hone.
  { intros x ids Hx. apply NoDup_app in Hx as (H1 & H2 & [H3 H4]%NoDup_cons). split; [apply bool_decide_eq_false_2; intros Hi; apply (H2 _ Hi); by left |].
    simpl. apply NoDup_cons. split; [| apply NoDup_app; split; [done |]; split; [intros i Hi Hi'; apply (H2 i Hi); by right | done]].
    intros [Hi | Hi]%elem_of_app; [apply (H2 _ Hi); by left | done]. }
  destruct a as [| x a], b as [| y b]; simpl in *; [done | | |].
  - destruct (Hone y _ Hn) as [-> Hn']. f_equal. apply (IH _ [] b); [by inversion Hs | done | simpl; lia].
  - destruct (Hone x _ Hn) as [-> Hn']. f_equal. apply IH; [by inversion Hs | done | simpl; lia].
  - assert (before x y) as Hxy. { inversion Hs as [| ? ? _ Hall]; subst. rewrite Forall_forall in Hall. apply Hall, elem_of_app. right. by left. }
    rewrite (before_leb _ _ Hxy). destruct (Hone x _ Hn) as [-> Hn']. f_equal. apply IH; [by inversion Hs | done | simpl; lia].
Qed.

Lemma merge_sorted a b : StronglySorted before (a ++ b) → NoDup (le_eventId <$> a ++ b) → mergeOrdered a b = a ++ b.
Proof. intros Hs Hn. by apply merge_sorted_from. Qed.

(** A sorted list splits at a ledger. *)
Lemma filter_split l (p : LedgerEvent → bool) m :
  StronglySorted before l → List.filter p l = List.filter (λ e, p e && (le_ledger e <=? m)) l ++ List.filter (λ e, p e && (m <? le_ledger e)) l.
Proof.
  induction 1 as [| e l Hl IH Hall]; simpl; [done |]. destruct (p e); simpl; [| exact IH].
  destruct (Z.leb_spec (le_ledger e) m); destruct (Z.ltb_spec m (le_ledger e)); try lia; simpl; [by rewrite IH |].
  assert (List.filter (λ e, p e && (le_ledger e <=? m)) l = []) as Hnil.
  { rewrite <- (List.filter_false l). apply filter_ext_in. intros x Hx. rewrite Forall_forall in Hall. apply list_elem_of_In, Hall, before_ledger in Hx.
    destruct (Z.leb_spec (le_ledger x) m); [lia | by rewrite andb_false_r]. }
  rewrite Hnil. simpl. f_equal. rewrite Hnil in IH. exact IH.
Qed.

(** Filters that agree on the elements. *)
Lemma filter_all (p : LedgerEvent → bool) l : (∀ e, e ∈ l → p e = true) → List.filter p l = l.
Proof. intros H. rewrite <- (List.filter_true l) at 2. apply filter_ext_in. intros e He. by apply H, list_elem_of_In. Qed.

Lemma filter_none (p : LedgerEvent → bool) l : (∀ e, e ∈ l → p e = false) → List.filter p l = [].
Proof. intros H. rewrite <- (List.filter_false l). apply filter_ext_in. intros e He. by apply H, list_elem_of_In. Qed.

Lemma filter_filter (p q : LedgerEvent → bool) l : List.filter p (List.filter q l) = List.filter (λ e, q e && p e) l.
Proof. induction l as [| e l IH]; simpl; [done |]. destruct (q e); simpl; [destruct (p e); by rewrite IH | done]. Qed.

Lemma elem_filter (p : LedgerEvent → bool) l e : e ∈ List.filter p l ↔ e ∈ l ∧ p e = true.
Proof. rewrite !list_elem_of_In. apply filter_In. Qed.

(** ** The chain and the RPC node *)

(** The events of a contract up to a ledger, and between two. *)
Definition upto (chain : list LedgerEvent) (c : string) (m : Z) : list LedgerEvent :=
  List.filter (λ e, String.eqb (le_contractId e) c && (le_ledger e <=? m)) chain.
Definition between (chain : list LedgerEvent) (c : string) (s m : Z) : list LedgerEvent :=
  List.filter (λ e, String.eqb (le_contractId e) c && (le_ledger e <=? m) && (s <=? le_ledger e)) chain.

(** What a reply means when it is one: HTTP success and no error. *)
Definition good_reply (r : rpc_reply) : option rpc_result :=
  if (200 <=? rp_status r) && (rp_status r <? 300) then match rb_error (rp_body r) with Some _ => None | None => rb_result (rp_body r) end else None.

(** [chain] is the list of all events, past and to come.  At the n-th call the ledgers up
    to [tip n] are closed.  A request for closed ledgers is answered with the next events
    of the contract, from the start ledger or the cursor on, as many as the limit; a page
    that is full comes with the cursor behind its last event. *)
Class ChainLaws (IE : IngestionEnv) (chain : list LedgerEvent) (tip : nat → Z) (position : string → nat) := {
  law_sorted : StronglySorted before chain;
  law_ids : NoDup (le_eventId <$> chain);
  law_ledger e : e ∈ chain → 1 ≤ le_ledger e;
  law_tip n m : (n ≤ m)%nat → tip n ≤ tip m;
  law_range n reply latest oldest : rpc_fetch n getHealth = inr reply → good_reply reply = Some (RHealth (Some latest) (Some oldest)) →
    latest ≤ tip n ∧ 1 ≤ oldest;
  law_page n start endx c limit cursor reply result :
    rpc_fetch n (getEvents start endx c limit cursor) = inr reply → good_reply reply = Some result → endx - 1 ≤ tip n →
    ∃ events next, result = REvents events next ∧
      let source := upto chain c (endx - 1) in
      let k := match cursor with
               | Some cur => position cur
               | None => length (upto chain c (Z.min (endx - 1) (default 1 start - 1)))
               end in
      toLedgerEvent <$> default [] events = take limit (drop k source) ∧
      (length (default [] events) = limit → ∃ cur, next = Some cur ∧ cur ≠ "" ∧ position cur = (k + limit)%nat);
  law_initial i : ig_initialLedger = Some i → 1 ≤ i;
  law_pageSize : (0 < ig_pageSize)%nat;
  law_windowSize : 0 < ig_windowSize
}.

Section exact.
Context `{IE : IngestionEnv} (chain : list LedgerEvent) (tip : nat → Z) (position : string → nat) `{!ChainLaws IE chain tip position}.
Implicit Types w : iworld.

Notation upto := (upto chain).
Notation between := (between chain).

Lemma sorted_chain : StronglySorted before chain.
Proof. apply (law_sorted (ChainLaws := ltac:(eassumption))). Qed.

Lemma between_upto c s m : between c s m = List.filter (λ e, s <=? le_ledger e) (upto c m).
Proof. unfold between, upto. by rewrite filter_filter. Qed.

Lemma elem_between c s m e : e ∈ between c s m ↔ e ∈ chain ∧ le_contractId e = c ∧ s ≤ le_ledger e ≤ m.
Proof. unfold between. rewrite elem_filter, !andb_true_iff, String.eqb_eq, !Z.leb_le. naive_solver lia. Qed.

Lemma elem_upto c m e : e ∈ upto c m ↔ e ∈ chain ∧ le_contractId e = c ∧ le_ledger e ≤ m.
Proof. unfold upto. rewrite elem_filter, andb_true_iff, String.eqb_eq, Z.leb_le. naive_solver. Qed.

Lemma between_app c s (x m : Z) : s ≤ x + 1 → x ≤ m → between c s x ++ between c (x + 1) m = between c s m.
Proof.
  intros Hs Hm. symmetry. unfold between. rewrite (filter_split chain _ x sorted_chain). f_equal; apply filter_ext; intros e; destruct (String.eqb _ _); simpl; [| done | | done];
    repeat match goal with |- context [?a <=? ?b] => destruct (Z.leb_spec a b) | |- context [?a <? ?b] => destruct (Z.ltb_spec a b) end; simpl; (done || lia).
Qed.

Lemma between_empty c s m : m < s → between c s m = [].
Proof. intros H. apply filter_none. intros e _. destruct (String.eqb _ _); simpl; [| done]. destruct (Z.leb_spec (le_ledger e) m), (Z.leb_spec s (le_ledger e)); (done || lia). Qed.

Lemma chain_same e e' : e ∈ chain → e' ∈ chain → le_eventId e = le_eventId e' → e = e'.
Proof.
  intros [i Hi]%list_elem_of_lookup_1 [j Hj]%list_elem_of_lookup_1 Heq.
  assert (i = j) as ->; [| congruence]. eapply (NoDup_lookup _ i j (le_eventId e) law_ids); rewrite list_lookup_fmap; [by rewrite Hi | by rewrite Hj, Heq].
Qed.

Lemma NoDup_ids_filter (p : LedgerEvent → bool) l : NoDup (le_eventId <$> l) → NoDup (le_eventId <$> List.filter p l).
Proof.
  induction l as [| e l IH]; simpl; [done |]. intros [He Hl]%NoDup_cons. destruct (p e); simpl; [| by apply IH].
  apply NoDup_cons. split; [| by apply IH]. intros (e' & Heq & He')%list_elem_of_fmap. apply He. apply elem_filter in He' as [He' _].
  apply list_elem_of_fmap. by exists e'.
Qed.

(** ** The tables *)

(** Where the events of a contract begin: the configured ledger, when there is one. *)
Definition begins (s : Z) : Prop := 1 ≤ s ∧ ∀ i, ig_initialLedger = Some i → s = i.

Record tables_ok w : Prop := {
  tb_events : ∀ c, match stored_checkpoint c w with
    | Some cp => ∃ s, begins s ∧ s ≤ cp_lastProcessedLedger cp + 1 ∧
        List.filter (λ e, String.eqb (le_contractId e) c) (iw_events w) = between c s (cp_lastProcessedLedger cp)
    | None => List.filter (λ e, String.eqb (le_contractId e) c) (iw_events w) = []
    end;
  tb_chain : ∀ e, e ∈ iw_events w → e ∈ chain;
  tb_handled : iw_handled w = iw_events w;
  tb_claims : iw_claims w = le_eventId <$> iw_events w;
  tb_fanned : ∀ e, e ∈ iw_fanned w → e ∈ iw_events w;
  tb_conflict : ∀ cp, iw_conflict w = Some cp → 1 ≤ cp_lastProcessedLedger cp
}.

Definition same_tables w w' : Prop :=
  iw_rows w' = iw_rows w ∧ iw_events w' = iw_events w ∧ iw_claims w' = iw_claims w ∧ iw_handled w' = iw_handled w.

Lemma tables_move w w' :
  same_tables w w' → (∀ e, e ∈ iw_fanned w' → e ∈ iw_events w) →
  (∀ cp, iw_conflict w' = Some cp → 1 ≤ cp_lastProcessedLedger cp) → tables_ok w → tables_ok w'.
Proof.
  intros (Hr & He & Hc & Hh) Hf Hx [H1 H2 H3 H4 _ _]. split; [| by rewrite He | by rewrite Hh, He | by rewrite Hc, He | by rewrite He | done].
  intros c. unfold stored_checkpoint. rewrite Hr, He. apply H1.
Qed.

Lemma stored_positive c w cp : stored_checkpoint c w = Some cp → 1 ≤ cp_lastProcessedLedger cp.
Proof.
  unfold stored_checkpoint. destruct (jget c (iw_rows w)) as [r |]; simpl; [| done]. unfold rowToCheckpoint. destruct (Z.ltb_spec 0 (kr_ledger r)); [| done].
  intros [= <-]. simpl. lia.
Qed.

(** ** One commit *)

(** What a transaction may change besides the tables. *)
Definition off_tables w w' : Prop :=
  iw_workers w' = iw_workers w ∧ iw_fanned w' = iw_fanned w ∧ (iw_calls w ≤ iw_calls w')%nat ∧
  (iw_conflict w' = iw_conflict w ∨ ∀ cp, iw_conflict w' = Some cp → 1 ≤ cp_lastProcessedLedger cp).

#[export] Instance off_tables_preorder : PreOrder off_tables.
Proof.
  split; [intros w; repeat split; [done | by left] |]. intros w1 w2 w3 (A1 & A2 & A3 & A4) (B1 & B2 & B3 & B4).
  split; [congruence |]. split; [congruence |]. split; [lia |]. destruct B4 as [-> | ?]; [done | by right].
Qed.

Lemma off_tables_tick w : off_tables w (tick w).
Proof. repeat split; [simpl; lia | by left]. Qed.

Lemma off_tables_write f : (∀ w, off_tables w (f w)) → evolves off_tables (write f).
Proof. intros Hf. apply write_evolves; [apply _ | apply off_tables_tick | exact Hf]. Qed.

Lemma commit_statements_off input : evolves off_tables (commit_statements input).
Proof.
  unfold commit_statements. apply evolves_bind; [apply _ | apply off_tables_write; intros w; repeat split; [done | by left] |]. intros _.
  apply ask_bind_evolves; [apply _ | apply off_tables_tick |]. intros w0. apply evolves_bind; [apply _ | |].
  { destruct (sameWatermark _ _); [apply evolves_ret, _ |]. apply evolves_bind; [apply _ | | intros _; apply evolves_throw, _].
    intros w. repeat split; [done |]. right. intros cp. apply stored_positive. }
  intros _. apply evolves_bind; [apply _ | |].
  - unfold store_batch. destruct (bi_events input) as [| e l]; [apply evolves_ret, _ |]. apply evolves_bind; [apply _ | apply off_tables_write; intros w; repeat split; [done | by left] |].
    intros _. apply evolves_bind; [apply _ | |].
    + unfold claimEvents. apply evolves_bind; [apply _ | | intros ?; apply evolves_ret, _]. apply call_evolves; [apply _ | apply off_tables_tick |].
      intros w. repeat split; [done | by left].
    + intros processed. apply evolves_bind; [apply _ | | intros ?; apply evolves_ret, _]. unfold run_processors. destruct processed; [apply evolves_ret, _ |].
      apply evolves_bind; [apply _ | apply evolves_gets, _ |]. intros h. destruct (processor_error _ _); [apply evolves_throw, _ |].
      apply off_tables_write. intros w. repeat split; [done | by left].
  - intros processed. apply evolves_bind; [apply _ | apply evolves_gets, _ |]. intros now. apply evolves_bind; [apply _ | | intros ?; apply evolves_ret, _].
    apply off_tables_write. intros w. repeat split; [done | by left].
Qed.

Definition fresh_batch w (batch : list LedgerEvent) : Prop := NoDup (le_eventId <$> iw_events w ++ batch).

Lemma upsert_fresh (table batch : list LedgerEvent) :
  NoDup (le_eventId <$> table ++ batch) →
  foldl (λ t e, if bool_decide (le_eventId e ∈ le_eventId <$> t) then t else t ++ [e]) table batch = table ++ batch.
Proof.
  revert table. induction batch as [| e batch IH]; intros table Hn; simpl; [by rewrite app_nil_r |].
  rewrite bool_decide_eq_false_2.
  - rewrite IH; rewrite <- (assoc_L (++)); done.
  - rewrite fmap_app in Hn. simpl in Hn. apply NoDup_app in Hn as (_ & Hd & _). intros Hi. apply (Hd _ Hi). by left.
Qed.

Lemma uniq_from_NoDup seen (l : list string) : NoDup l → (∀ x, x ∈ l → x ∉ seen) → uniq_from seen l = l.
Proof.
  revert seen. induction l as [| x l IH]; intros seen Hn Hs; simpl; [done |]. apply NoDup_cons in Hn as [Hx Hl].
  rewrite bool_decide_eq_false_2 by (apply Hs; by left). f_equal. apply IH; [done |]. intros y Hy [-> | Hy']%elem_of_cons; [done |]. apply (Hs y); [by right | done].
Qed.

Lemma claim_fresh (ids claims : list string) :
  NoDup (claims ++ ids) → List.filter (λ i, negb (bool_decide (i ∈ claims))) (uniq ids) = ids.
Proof.
  intros (_ & Hd & Hn)%NoDup_app. unfold uniq. rewrite uniq_from_NoDup; [| done | intros x _; apply not_elem_of_nil].
  rewrite <- (List.filter_true ids) at 2. apply filter_ext_in. intros i Hi%list_elem_of_In. rewrite bool_decide_eq_false_2; [done |]. intros Hc. by apply (Hd i).
Qed.

Lemma store_batch_inr batch w processed w' :
  store_batch batch w = (inr processed, w') → iw_claims w = le_eventId <$> iw_events w → fresh_batch w batch →
  iw_rows w' = iw_rows w ∧ iw_events w' = iw_events w ++ batch ∧ iw_claims w' = iw_claims w ++ (le_eventId <$> batch) ∧
  iw_handled w' = iw_handled w ++ batch ∧ processed = batch.
Proof.
  intros H Hc Hf. unfold store_batch in H. destruct (decide (batch = [])) as [-> | Hne].
  { injection H as <- <-. by rewrite !app_nil_r. }
  assert ((upsertEvents batch;; processed ← claimEvents batch; run_processors processed;; mret processed) w = (inr processed, w')) as H' by (by destruct batch).
  clear H. apply bind_inr in H' as ([] & w1 & Hu & H). apply write_inr in Hu. apply bind_inr in H as (p & w2 & Hp & H).
  unfold claimEvents in Hp. apply bind_inr in Hp as (ids & w3 & Hi & Hp). apply call_inr in Hi. injection Hi as Hi Hw3. injection Hp as <- <-.
  simpl in Hi. assert (iw_claims w1 = iw_claims w) as Hc1 by (by rewrite Hu). rewrite Hc1, claim_fresh in Hi by (by rewrite Hc, <- fmap_app). subst ids.
  assert (List.filter (λ e, bool_decide (le_eventId e ∈ le_eventId <$> batch)) batch = batch) as Hall.
  { apply filter_all. intros e He. apply bool_decide_eq_true_2. by apply list_elem_of_fmap_2. }
  rewrite Hall in H. apply bind_inr in H as ([] & w4 & Hr & H). injection H as <- <-. unfold run_processors in Hr.
  destruct batch as [| e batch]; [done |]. apply bind_inr in Hr as (h & w5 & Hh & Hr). injection Hh as <- <-.
  destruct (processor_error _ _); [done |]. apply write_inr in Hr. subst w4 w3 w1. split; [done |].
  split; [exact (upsert_fresh (iw_events w) (e :: batch) Hf) |]. split; [| split; reflexivity].
  change (iw_claims w ++ List.filter (λ i, negb (bool_decide (i ∈ iw_claims w))) (uniq (le_eventId <$> e :: batch)) = iw_claims w ++ (le_eventId <$> e :: batch)).
  by rewrite claim_fresh by (by rewrite Hc, <- fmap_app).
Qed.

(** The statements of a commit, when all of them happen and the batch is new. *)
Lemma commit_statements_inr input w res w' :
  commit_statements input w = (inr res, w') →
  sameWatermark (stored_checkpoint (bi_contractId input) w) (bi_expected input) = true ∧
  (iw_claims w = le_eventId <$> iw_events w → fresh_batch w (bi_events input) →
  (∃ now, br_checkpoint res = nextCheckpoint input now ∧
     ∀ c, stored_checkpoint c w' = if decide (bi_contractId input = c)
       then rowToCheckpoint c {| kr_ledger := bi_throughLedger input; kr_eventId := cp_lastEventId (br_checkpoint res); kr_syncedAt := now |}
       else stored_checkpoint c w) ∧
  iw_events w' = iw_events w ++ bi_events input ∧ iw_claims w' = iw_claims w ++ (le_eventId <$> bi_events input) ∧
  iw_handled w' = iw_handled w ++ bi_events input ∧ br_processed res = bi_events input).
Proof.
  intros H. unfold commit_statements in H. apply bind_inr in H as ([] & w1 & H1 & H). apply write_inr in H1.
  assert (∀ c, stored_checkpoint c w1 = stored_checkpoint c w) as Hs1.
  { intros c. subst w1. unfold stored_checkpoint. simpl. destruct (jget (bi_contractId input) (iw_rows w)) eqn:Hj; [done |]. rewrite jget_jset.
    destruct (decide _) as [<- |]; [by rewrite Hj | done]. }
  apply bind_inr in H as (st & w2 & H2 & H). apply ask_inr in H2 as [-> ->]. change (stored_checkpoint (bi_contractId input) (tick w1)) with (stored_checkpoint (bi_contractId input) w1) in H.
  rewrite Hs1 in H. apply bind_inr in H as ([] & w3 & H3 & H). destruct (sameWatermark _ _); [| done]. injection H3 as <-. split; [done |]. intros Hc Hf.
  apply bind_inr in H as (processed & w4 & H4 & H). apply store_batch_inr in H4 as (R4 & E4 & C4 & D4 & ->); [| by subst w1 | by subst w1].
  apply bind_inr in H as (now & w5 & H5 & H). injection H5 as <- <-. apply bind_inr in H as ([] & w5 & H5 & H). apply write_inr in H5. injection H as <- <-.
  split; [exists (iw_now w4); split; [done |] |].
  - intros c. rewrite <- Hs1. subst w5. unfold stored_checkpoint. simpl. rewrite jget_jset. destruct (decide _) as [<- |]; [done |]. rewrite R4. done.
  - subst w5. simpl. rewrite E4, C4, D4. subst w1. done.
Qed.

(** The next ledger for a worker with a checkpoint. *)
Definition resumes (expected : option IngestionCheckpoint) (next : Z) : Prop :=
  match expected with
  | Some cp => 1 ≤ cp_lastProcessedLedger cp ∧ next = cp_lastProcessedLedger cp + 1
  | None => begins next
  end.

Lemma resumes_positive expected next : resumes expected next → 1 ≤ next.
Proof. destruct expected; simpl; [lia | by intros []]. Qed.

(** A checkpoint with the stored watermark continues the stored events. *)
Lemma resumes_stored c w expected next :
  tables_ok w → resumes expected next → sameWatermark (stored_checkpoint c w) expected = true →
  ∃ s, begins s ∧ s ≤ next ∧ List.filter (λ e, String.eqb (le_contractId e) c) (iw_events w) = between c s (next - 1).
Proof.
  intros Hw Hr Hs. pose proof (tb_events _ Hw c) as He. apply andb_true_iff in Hs as [Hs%Z.eqb_eq _]. unfold watermark_of in Hs.
  destruct (stored_checkpoint c w) as [cp |] eqn:Hst.
  - apply stored_positive in Hst. destruct expected as [cp' |]; simpl in Hr, Hs; [| lia]. destruct Hr as [_ ->]. destruct He as (s & Hb & Hle & He).
    exists s. rewrite <- Hs. replace (cp_lastProcessedLedger cp + 1 - 1) with (cp_lastProcessedLedger cp) by lia. done.
  - destruct expected as [cp' |]; simpl in Hr, Hs; [lia |]. exists next. split; [done |]. split; [done |]. rewrite He, between_empty; [done | lia].
Qed.

Lemma batch_fresh c w s next through :
  tables_ok w → List.filter (λ e, String.eqb (le_contractId e) c) (iw_events w) = between c s (next - 1) → NoDup (le_eventId <$> iw_events w) →
  fresh_batch w (between c next through).
Proof.
  intros Hw He Hn. unfold fresh_batch. rewrite fmap_app. apply NoDup_app. split; [done |].
  split; [| apply NoDup_ids_filter, (law_ids (ChainLaws := ltac:(eassumption)))].
  intros i (e & -> & Hin)%list_elem_of_fmap (e' & Heq & Hin')%list_elem_of_fmap. apply elem_between in Hin' as (Hc' & Hcon & Hled).
  assert (e = e') as -> by (apply chain_same; [by apply (tb_chain _ Hw) | done | done]).
  assert (e' ∈ between c s (next - 1)) as (_ & _ & ?)%elem_between; [| lia]. rewrite <- He. apply elem_filter. split; [done | by apply String.eqb_eq].
Qed.

Lemma filter_other c c' s m : c ≠ c' → List.filter (λ e, String.eqb (le_contractId e) c') (between c s m) = [].
Proof. intros Hne. apply filter_none. intros e (_ & <- & _)%elem_between. by apply String.eqb_neq. Qed.

Lemma filter_own c s m : List.filter (λ e, String.eqb (le_contractId e) c) (between c s m) = between c s m.
Proof. apply filter_all. intros e (_ & <- & _)%elem_between. apply String.eqb_refl. Qed.

Definition unique_events w : Prop := NoDup (le_eventId <$> iw_events w).

Lemma committed_ok input w res w' next :
  tables_ok w → unique_events w → resumes (bi_expected input) next → next ≤ bi_throughLedger input + 1 → 1 ≤ bi_throughLedger input →
  bi_events input = between (bi_contractId input) next (bi_throughLedger input) → off_tables w w' → commit_statements input w = (inr res, w') →
  tables_ok w' ∧ unique_events w' ∧ stored_checkpoint (bi_contractId input) w' = Some (br_checkpoint res) ∧
  cp_lastProcessedLedger (br_checkpoint res) = bi_throughLedger input ∧ (∀ e, e ∈ br_processed res → e ∈ iw_events w') ∧
  ∀ c', c' ≠ bi_contractId input → stored_checkpoint c' w' = stored_checkpoint c' w.
Proof.
  intros Hw Hu Hr Hnext Hthr Hev (_ & Hfan & _ & Hconf) H. set (c := bi_contractId input) in *.
  destruct (commit_statements_inr _ _ _ _ H) as [Hsame Hrest]. fold c in Hsame. destruct (resumes_stored c w _ next Hw Hr Hsame) as (s & Hb & Hle & He).
  assert (fresh_batch w (bi_events input)) as Hfresh by (rewrite Hev; by eapply batch_fresh).
  destruct (Hrest (tb_claims _ Hw) Hfresh) as ((now & Hcp & Hst) & E1 & E2 & E3 & E4). fold c in Hst. clear Hrest.
  assert (stored_checkpoint c w' = Some (br_checkpoint res)) as Hmine.
  { rewrite Hst. destruct (decide (c = c)); [| done]. unfold rowToCheckpoint. simpl. destruct (Z.ltb_spec 0 (bi_throughLedger input)); [| lia]. by rewrite Hcp. }
  assert (cp_lastProcessedLedger (br_checkpoint res) = bi_throughLedger input) as Hthrough by (by rewrite Hcp).
  split; [split |].
  - intros c'. rewrite E1, List.filter_app, Hev. destruct (decide (c = c')) as [<- | Hne].
    + rewrite Hmine, Hthrough. exists s. split; [done |]. split; [lia |]. rewrite filter_own, He.
      rewrite <- (between_app c s (next - 1) (bi_throughLedger input)) by lia. by replace (next - 1 + 1) with next by lia.
    + rewrite Hst. destruct (decide (c = c')); [done |]. rewrite filter_other by done. rewrite app_nil_r. apply (tb_events _ Hw c').
  - intros e. rewrite E1, Hev. intros [He' | He']%elem_of_app; [by apply (tb_chain _ Hw) | by apply elem_between in He' as [? _]].
  - by rewrite E3, E1, (tb_handled _ Hw).
  - by rewrite E2, E1, (tb_claims _ Hw), fmap_app.
  - intros e. rewrite Hfan, E1. intros He'. apply elem_of_app. left. by apply (tb_fanned _ Hw).
  - destruct Hconf as [-> | Hconf]; [apply (tb_conflict _ Hw) | done].
  - split; [unfold unique_events; by rewrite E1 |]. split; [done |]. split; [done |].
    split; [intros e; rewrite E4, E1; intros He'; apply elem_of_app; by right |]. intros c' Hne. rewrite Hst. destruct (decide _); congruence.
Qed.

Lemma rollback_tables_ok w w1 : tables_ok w → off_tables w w1 → tables_ok (rollback w w1).
Proof.
  intros Hw (_ & Hf & _ & Hc). apply (tables_move w); [done | | | done].
  - simpl. rewrite Hf. apply (tb_fanned _ Hw).
  - simpl. destruct Hc as [-> | Hc]; [apply (tb_conflict _ Hw) | done].
Qed.

Lemma tick_tables w : tables_ok w → tables_ok (tick w).
Proof. intros Hw. apply (tables_move w); [done | apply (tb_fanned _ Hw) | apply (tb_conflict _ Hw) | done]. Qed.

(** A commit, whatever becomes of it. *)
Lemma commitBatch_ok input w next :
  tables_ok w → unique_events w → resumes (bi_expected input) next → next ≤ bi_throughLedger input + 1 → 1 ≤ bi_throughLedger input →
  bi_events input = between (bi_contractId input) next (bi_throughLedger input) →
  let '(r, w') := commitBatch input w in
  tables_ok w' ∧ unique_events w' ∧ iw_workers w' = iw_workers w ∧ (iw_calls w ≤ iw_calls w')%nat ∧
  ∀ res, r = inr res → cp_lastProcessedLedger (br_checkpoint res) = bi_throughLedger input ∧ (∀ e, e ∈ br_processed res → e ∈ iw_events w') ∧
    stored_checkpoint (bi_contractId input) w' = Some (br_checkpoint res) ∧
    ∀ c', c' ≠ bi_contractId input → stored_checkpoint c' w' = stored_checkpoint c' w.
Proof.
  intros Hw Hu Hr Hnext Hthr Hev. unfold commitBatch.
  assert (∃ r, assertCommitInput (S := iworld) input w = (r, w)) as [[e | []] Ha].
  { unfold assertCommitInput, throw_if. destruct (_ <? _); [by eexists |]. destruct (event_error _ _ _ _); by eexists. }
  { rewrite (bind_run_err _ _ _ _ _ Ha). done. }
  rewrite (bind_run _ _ _ _ _ Ha).
  destruct (transaction_cases (H := ingestion_database) off_tables (commit_statements input) w off_tables_tick (commit_statements_off input))
    as [(e & w1 & Hm & ->) | (res & w1 & r & Hb & -> & Hres)].
  - split; [by apply rollback_tables_ok |]. split; [done |]. destruct Hm as (HW & _ & HC & _). done.
  - assert (off_tables (tick w) w1) as Hoff by (change w1 with (snd (inr res : exn + CommitBatchResult, w1)); rewrite <- Hb; apply commit_statements_off).
    destruct (committed_ok input (tick w) res w1 next) as (A1 & A2 & A3 & A4 & A5 & A6); try done; [by apply tick_tables |].
    destruct Hoff as (HW & _ & HC & _). simpl in HW, HC. split; [by apply tick_tables |]. split; [done |]. split; [done |]. split; [simpl; lia |].
    intros res' ->. destruct Hres as [[= ->] | [e ?]]; [done | done].
Qed.

(** ** The worker *)

Record world_ok w : Prop := {
  wo_tables : tables_ok w;
  wo_unique : unique_events w;
  wo_workers : ∀ name c cp, checkpoint_of name c w = Some cp → 1 ≤ cp_lastProcessedLedger cp
}.

(** Other workers keep their memory; calls are counted. *)
Definition mine (name : string) w w' : Prop :=
  (∀ other, other ≠ name → jget other (iw_workers w') = jget other (iw_workers w)) ∧ (iw_calls w ≤ iw_calls w')%nat.

#[export] Instance mine_preorder name : PreOrder (mine name).
Proof. split; [done |]. intros w1 w2 w3 [A1 A2] [B1 B2]. split; [| lia]. intros other Ho. by rewrite B1, A1. Qed.

Lemma mine_checkpoint name w w' other c : mine name w w' → other ≠ name → checkpoint_of other c w' = checkpoint_of other c w.
Proof. intros [H _] Ho. unfold checkpoint_of, worker_of. by rewrite H. Qed.

Lemma set_worker_mine name f w : mine name w (set_worker name f w).
Proof. split; [| done]. intros other Ho. simpl. rewrite jget_jset_ne; congruence. Qed.

Lemma checkpoint_set_worker name f w other c :
  checkpoint_of other c (set_worker name f w) =
  if decide (name = other) then default None (jget c (wk_checkpoints (f (worker_of name w)))) else checkpoint_of other c w.
Proof. unfold checkpoint_of, worker_of. simpl. rewrite jget_jset. by destruct (decide _) as [<- |]. Qed.

(** Changes of the memory of a worker that leave its checkpoints good. *)
Lemma memory_ok name f w :
  world_ok w → (∀ c cp, jget c (wk_checkpoints (f (worker_of name w))) = Some (Some cp) → 1 ≤ cp_lastProcessedLedger cp) →
  world_ok (set_worker name f w).
Proof.
  intros [H1 H2 H3] Hf. split; [| done |].
  - apply (tables_move w); [done | apply (tb_fanned _ H1) | apply (tb_conflict _ H1) | done].
  - intros other c cp. rewrite checkpoint_set_worker. destruct (decide _) as [<- |]; [| apply H3].
    destruct (jget _ _) as [o |] eqn:Hj; simpl; [| done]. intros ->. by apply (Hf c).
Qed.

Lemma own_checkpoint w name c cp : world_ok w → jget c (wk_checkpoints (worker_of name w)) = Some (Some cp) → 1 ≤ cp_lastProcessedLedger cp.
Proof. intros Hw Hj. apply (wo_workers _ Hw name c). unfold checkpoint_of. by rewrite Hj. Qed.

Lemma set_status_ok name c f w : world_ok w → world_ok (set_status name c f w).2.
Proof. intros Hw. apply memory_ok; [done |]. simpl. intros c' cp. by apply own_checkpoint. Qed.

Lemma set_checkpoint_ok name c o w : world_ok w → (∀ cp, o = Some cp → 1 ≤ cp_lastProcessedLedger cp) → world_ok (set_checkpoint name c o w).2.
Proof.
  intros Hw Ho. apply memory_ok; [done |]. simpl. intros c' cp. rewrite jget_jset. destruct (decide _); [intros [= ->]; by apply Ho | by apply own_checkpoint].
Qed.

Lemma set_status_checkpoint name c f w other c' : checkpoint_of other c' (set_status name c f w).2 = checkpoint_of other c' w.
Proof. unfold set_status. simpl. rewrite checkpoint_set_worker. by destruct (decide _) as [<- |]. Qed.

Lemma set_checkpoint_checkpoint name c o w : checkpoint_of name c (set_checkpoint name c o w).2 = o.
Proof. unfold set_checkpoint. simpl. rewrite checkpoint_set_worker. destruct (decide _); [| done]. simpl. by rewrite jget_jset_eq. Qed.

Lemma set_checkpoint_other name c o w c' : c' ≠ c → checkpoint_of name c' (set_checkpoint name c o w).2 = checkpoint_of name c' w.
Proof. intros Hne. unfold set_checkpoint. simpl. rewrite checkpoint_set_worker. destruct (decide _); [| done]. simpl. rewrite jget_jset_ne by congruence. done. Qed.

Lemma set_status_other name c f w c' : c' ≠ c → status_of name c' (set_status name c f w).2 = status_of name c' w.
Proof. intros Hne. unfold status_of, worker_of. simpl. rewrite jget_jset_eq. simpl. by rewrite jget_jset_ne by congruence. Qed.

Lemma set_checkpoint_status name c o w c' : status_of name c' (set_checkpoint name c o w).2 = status_of name c' w.
Proof. unfold status_of, worker_of. simpl. by rewrite jget_jset_eq. Qed.

Lemma tick_world_ok w : world_ok w → world_ok (tick w).
Proof. intros [H1 H2 H3]. split; [by apply tick_tables | done | done]. Qed.

(** The end of [worker_commit]: memory, status and the hook. *)
Lemma after_commit_ok name c res w :
  world_ok w → 1 ≤ cp_lastProcessedLedger (br_checkpoint res) → (∀ e, e ∈ br_processed res → e ∈ iw_events w) →
  ∃ n w', (set_checkpoint name c (Some (br_checkpoint res));;
    set_status name c (with_checkpoint (Some (br_checkpoint res)));;
    (if bool_decide (br_processed res = []) then mret () else try_catch (write (fan_out (br_processed res))) (λ _, mret ()));;
    mret (Z.of_nat (length (br_processed res)))) w = (inr n, w') ∧
  world_ok w' ∧ mine name w w' ∧ checkpoint_of name c w' = Some (br_checkpoint res) ∧ iw_rows w' = iw_rows w ∧
  ∀ c', c' ≠ c → checkpoint_of name c' w' = checkpoint_of name c' w ∧ status_of name c' w' = status_of name c' w.
Proof.
  intros Hw Hpos Hin. set (w1 := (set_checkpoint name c (Some (br_checkpoint res)) w).2).
  set (w2 := (set_status name c (with_checkpoint (Some (br_checkpoint res))) w1).2).
  assert (world_ok w2) as Hw2 by (apply set_status_ok, set_checkpoint_ok; [done | by intros cp [= <-]]).
  assert (mine name w w2) as Hm by (etrans; [apply (set_worker_mine name) | apply (set_worker_mine name)]).
  assert (checkpoint_of name c w2 = Some (br_checkpoint res)) as Hc by (unfold w2; rewrite set_status_checkpoint; apply set_checkpoint_checkpoint).
  assert (∀ c', c' ≠ c → checkpoint_of name c' w2 = checkpoint_of name c' w ∧ status_of name c' w2 = status_of name c' w) as Ho.
  { intros c' Hne. unfold w2, w1. rewrite set_status_checkpoint, set_status_other by done. split; [by apply set_checkpoint_other | apply set_checkpoint_status]. }
  assert (∀ w3, w3 = w2 ∨ w3 = tick w2 ∨ w3 = fan_out (br_processed res) (tick w2) →
    world_ok w3 ∧ mine name w w3 ∧ checkpoint_of name c w3 = Some (br_checkpoint res) ∧ iw_rows w3 = iw_rows w ∧
    ∀ c', c' ≠ c → checkpoint_of name c' w3 = checkpoint_of name c' w ∧ status_of name c' w3 = status_of name c' w) as Hend.
  { intros w3 [-> | [-> | ->]]; [done | split; [by apply tick_world_ok |]; split; [etrans; [exact Hm | split; [done | simpl; lia]] | done] |].
    split; [| split; [etrans; [exact Hm | split; [done | simpl; lia]] | done]]. destruct Hw2 as [A1 A2 A3]. split; [| done | done].
    apply (tables_move w2); [done | | apply (tb_conflict _ A1) | done]. simpl. intros e [He | He]%elem_of_app; [by apply (tb_fanned _ A1) | by apply Hin]. }
  rewrite (bind_run _ _ w _ w1 eq_refl), (bind_run _ _ w1 _ w2 eq_refl). destruct (bool_decide _).
  - eexists _, w2. split; [done |]. apply Hend. by left.
  - unfold try_catch, write, call, mbind, M_bind. destruct (next_fate w2); simpl; eexists _, _; (split; [done |]); apply Hend; auto.
Qed.

(** The memory of the worker agrees with the database. *)
Definition in_step (name c : string) w : Prop := sameWatermark (stored_checkpoint c w) (checkpoint_of name c w) = true.

(** Work on one contract keeps the agreement, and the other contracts. *)
Definition advances (name c : string) w w' : Prop :=
  (in_step name c w → in_step name c w') ∧
  ∀ c', c' ≠ c → stored_checkpoint c' w' = stored_checkpoint c' w ∧ checkpoint_of name c' w' = checkpoint_of name c' w ∧ status_of name c' w' = status_of name c' w.

#[export] Instance advances_preorder name c : PreOrder (advances name c).
Proof.
  split; [done |]. intros w1 w2 w3 [A1 A2] [B1 B2]. split; [auto |]. intros c' Hne. destruct (A2 c' Hne) as (? & ? & ?), (B2 c' Hne) as (? & ? & ?). repeat split; congruence.
Qed.

Lemma sameWatermark_refl cp : sameWatermark cp cp = true.
Proof. unfold sameWatermark. by rewrite Z.eqb_refl, String.eqb_refl. Qed.

Lemma worker_commit_ok name c through events w next :
  world_ok w → resumes (checkpoint_of name c w) next → next ≤ through + 1 → events = between c next through →
  let '(r, w') := worker_commit name c through events w in
  world_ok w' ∧ mine name w w' ∧ ∀ n, r = inr n → resumes (checkpoint_of name c w') (through + 1) ∧ advances name c w w'.
Proof.
  intros Hw Hr Hle Hev. unfold worker_commit. rewrite (bind_run (gets _) _ w _ w eq_refl).
  destruct (bool_decide (events = []) && (through <=? watermark_of (checkpoint_of name c w))) eqn:Hskip.
  - split; [done |]. split; [done |]. intros _ _. split; [| done]. apply andb_true_iff in Hskip as [_ Hs%Z.leb_le]. pose proof (resumes_positive _ _ Hr).
    unfold watermark_of in Hs. destruct (checkpoint_of name c w) as [cp |] eqn:Hcp; simpl in Hr, Hs |- *.
    + split; [lia |]. lia.
    + by replace (through + 1) with next by lia.
  - assert (1 ≤ through) as Hthr.
    { apply andb_false_iff in Hskip as [Hne%bool_decide_eq_false_1 | Hs%Z.leb_gt].
      - destruct events as [| e events']; [done |]. assert (e ∈ between c next through) as (Hc & _ & Hled)%elem_between by (rewrite <- Hev; left).
        pose proof (law_ledger e Hc). lia.
      - unfold watermark_of in Hs. destruct (checkpoint_of name c w) as [cp |] eqn:Hcp; simpl in Hs; [| lia]. apply (wo_workers _ Hw) in Hcp. lia. }
    pose proof (commitBatch_ok {| bi_contractId := c; bi_expected := checkpoint_of name c w; bi_throughLedger := through; bi_events := events |} w next
      (wo_tables _ Hw) (wo_unique _ Hw) Hr Hle Hthr Hev) as Hc.
    destruct (commitBatch _ w) as [[err | res] w1] eqn:Hrun; destruct Hc as (A1 & A2 & A3 & A4 & A5);
      (assert (world_ok w1) as Hw1 by (split; [done | done |]; intros other c' cp; unfold checkpoint_of, worker_of; rewrite A3; apply (wo_workers _ Hw)));
      (assert (mine name w w1) as Hm by (split; [by rewrite A3 | done])).
    + rewrite (bind_run_err _ _ _ _ _ Hrun). done.
    + rewrite (bind_run _ _ _ _ _ Hrun). destruct (A5 _ eq_refl) as (HL & Hp & Hown & Hoth). simpl in HL, Hown, Hoth.
      destruct (after_commit_ok name c res w1 Hw1 ltac:(lia) Hp) as (n & w2 & -> & Hw2 & Hm2 & Hcp & Hrows & Hmem).
      split; [done |]. split; [by etrans |]. intros _ _. split; [rewrite Hcp; simpl; rewrite HL; lia |].
      split; [intros _; unfold in_step; rewrite Hcp; unfold stored_checkpoint; rewrite Hrows; fold (stored_checkpoint c w1); rewrite Hown; apply sameWatermark_refl |].
      intros c' Hne. split; [unfold stored_checkpoint; rewrite Hrows; by apply Hoth |]. destruct (Hmem c' Hne) as [-> ->]. unfold checkpoint_of, status_of, worker_of. by rewrite A3.
Qed.

(** ** One page *)

Lemma rpc_call_inr request w result w' :
  rpc_call request w = (inr result, w') →
  w' = tick w ∧ ∃ reply, rpc_fetch (iw_calls w) request = inr reply ∧ good_reply reply = Some result.
Proof.
  unfold rpc_call. rewrite (bind_run (gets iw_calls) _ w _ w eq_refl), (bind_run (modify count_ingestion_call) _ w _ (count_ingestion_call w) eq_refl). intros H.
  apply bind_inr in H as (reply & w1 & Hf & H). unfold answer in Hf. injection Hf as Hf <-. apply bind_inr in H as ([] & w1 & Ht & H). apply throw_if_run in Ht as [Ht ->].
  apply negb_false_iff in Ht. unfold good_reply. rewrite Hf. destruct (rb_error (rp_body reply)) eqn:He; [done |]. apply some_or_throw_run in H as [H ->].
  split; [done |]. exists reply. by rewrite Ht, He.
Qed.

(** The events a window can see, and how many of them lie behind its cursor. *)
Definition source (win : window) : list LedgerEvent := upto (wd_contract win) (wd_end win).
Definition offset (win : window) : nat :=
  match wd_cursor win with
  | Some cur => position cur
  | None => length (upto (wd_contract win) (Z.min (wd_end win) (wd_start win - 1)))
  end.

(** A window between two rounds: up to [next] everything is committed, the events from
    there to the cursor are carried. *)
Definition window_ok (name : string) (win : window) w : Prop :=
  wd_end win ≤ tip (iw_calls w) ∧ wd_cursor win ≠ Some "" ∧
  ∃ next, resumes (checkpoint_of name (wd_contract win) w) next ∧ wd_start win ≤ next ≤ wd_end win ∧
    wd_carry win = List.filter (λ e, next <=? le_ledger e) (take (offset win) (source win)) ∧
    ∀ e, e ∈ drop (offset win) (source win) → next ≤ le_ledger e.

Lemma sorted_upto c m : StronglySorted before (upto c m).
Proof. apply sorted_filter, sorted_chain. Qed.

Lemma upto_split c (x m : Z) : x ≤ m → upto c m = upto c x ++ between c (x + 1) m.
Proof.
  intros Hx. unfold upto at 1. rewrite (filter_split chain _ x sorted_chain). unfold upto, between. f_equal; apply filter_ext; intros e; destruct (String.eqb _ _); simpl; try done;
    repeat match goal with |- context [?a <=? ?b] => destruct (Z.leb_spec a b) | |- context [?a <? ?b] => destruct (Z.ltb_spec a b) end; simpl; (done || lia).
Qed.

(** A window at its beginning. *)
Lemma window_start name c start end_ w :
  resumes (checkpoint_of name c w) start → start ≤ end_ → end_ ≤ tip (iw_calls w) → window_ok name (Window c start end_ None [] 0) w.
Proof.
  intros Hr Hle Ht. split; [done |]. split; [done |]. exists start. split; [done |]. split; [simpl; lia |]. unfold offset, source. simpl.
  rewrite Z.min_r by lia. rewrite (upto_split c (start - 1) end_) by lia. replace (start - 1 + 1) with start by lia.
  rewrite take_app_length, drop_app_length. split.
  - symmetry. apply filter_none. intros e (_ & _ & ?)%elem_upto. apply Z.leb_gt. lia.
  - intros e (_ & _ & ?)%elem_between. lia.
Qed.

(** The answer to the request of a window. *)
Lemma window_page win w result w' :
  getEventsWindow {| gw_contractId := wd_contract win; gw_startLedger := wd_start win; gw_endLedger := wd_end win;
                     gw_cursor := wd_cursor win; gw_limit := ig_pageSize |} w = (inr result, w') →
  wd_end win ≤ tip (iw_calls w) → wd_cursor win ≠ Some "" →
  w' = tick w ∧ toLedgerEvent <$> gr_events result = take ig_pageSize (drop (offset win) (source win)) ∧
  (length (gr_events result) = ig_pageSize → ∃ cur, gr_cursor result = Some cur ∧ cur ≠ "" ∧ position cur = (offset win + ig_pageSize)%nat).
Proof.
  intros H Ht Hcur. unfold getEventsWindow in H. apply bind_inr in H as (r & w1 & Hc & H). apply rpc_call_inr in Hc as (-> & reply & Hf & Hg). unfold events_request in Hf. simpl in Hf.
  assert (rpc_fetch (iw_calls w) (getEvents (match wd_cursor win with Some _ => None | None => Some (wd_start win) end) (wd_end win + 1) (wd_contract win) ig_pageSize (wd_cursor win)) = inr reply) as Hf'.
  { rewrite <- Hf. destruct (wd_cursor win) as [cur |]; simpl; [| done]. destruct (String.eqb_spec cur ""); [by subst | done]. }
  destruct (law_page _ _ _ _ _ _ _ _ Hf' Hg) as (events & nxt & -> & He & Hfull); [replace (wd_end win + 1 - 1) with (wd_end win) by lia; done |].
  injection H as <- <-. simpl. replace (wd_end win + 1 - 1) with (wd_end win) in He, Hfull by lia.
  assert (match wd_cursor win with Some cur => position cur | None => length (upto (wd_contract win) (Z.min (wd_end win) (default 1 (match wd_cursor win with Some _ => None | None => Some (wd_start win) end) - 1))) end = offset win) as Ho.
  { unfold offset. by destruct (wd_cursor win). }
  rewrite Ho in He, Hfull. split; [done |]. split; [exact He |]. intros Hlen. destruct (Hfull Hlen) as (cur & -> & Hne & Hpos). exists cur.
  simpl. destruct (String.eqb_spec cur ""); [done |]. done.
Qed.

Lemma getEventsWindow_state p w : (getEventsWindow p w).2 = tick w.
Proof.
  unfold getEventsWindow, rpc_call, answer, throw_if, some_or_throw, gets, modify, mbind, M_bind. simpl.
  destruct (rpc_fetch _ _) as [e | reply]; simpl; [done |]. destruct (negb _); simpl; [done |].
  destruct (rb_error _); simpl; [done |]. by destruct (rb_result _) as [[] |].
Qed.

(** What a round has in hand: the carried events and the page are the events from
    [next] up to the end of the page. *)
Lemma page_pending win next (events : list RpcContractEvent) :
  wd_start win ≤ next → wd_carry win = List.filter (λ e, next <=? le_ledger e) (take (offset win) (source win)) →
  (∀ e, e ∈ drop (offset win) (source win) → next ≤ le_ledger e) →
  toLedgerEvent <$> events = take ig_pageSize (drop (offset win) (source win)) →
  let pageEvents := List.filter (λ e, String.eqb (le_contractId e) (wd_contract win) && (wd_start win <=? le_ledger e)) (toLedgerEvent <$> events) in
  existsb (λ e, wd_end win <? le_ledger e) pageEvents = false ∧
  mergeOrdered (wd_carry win) (sort_events (List.filter (λ e, le_ledger e <=? wd_end win) pageEvents)) =
    List.filter (λ e, next <=? le_ledger e) (take (offset win + ig_pageSize) (source win)).
Proof.
  intros Hs Hcarry Hdrop Hev. cbv zeta. rewrite Hev. set (k := offset win) in *. set (P := take ig_pageSize (drop k (source win))).
  assert (∀ e, e ∈ P → e ∈ source win ∧ next ≤ le_ledger e) as HP.
  { intros e He. apply elem_of_take in He as (i & He & _). apply list_elem_of_lookup_2 in He. split; [| by apply Hdrop]. rewrite <- (take_drop k (source win)).
    apply elem_of_app. by right. }
  assert (source win = take k (source win) ++ P ++ drop ig_pageSize (drop k (source win))) as Hsrc by (unfold P; by rewrite take_drop, take_drop).
  pose proof (sorted_upto (wd_contract win) (wd_end win)) as Hsort. change (upto (wd_contract win) (wd_end win)) with (source win) in Hsort.
  rewrite (filter_all _ P), (filter_all _ P).
  - split; [apply existsb_false; intros e He; apply HP in He as [(_ & _ & ?)%elem_upto _]; apply Z.ltb_ge; lia |].
    assert (wd_carry win ++ P = List.filter (λ e, next <=? le_ledger e) (take (k + ig_pageSize) (source win))) as Hpend.
    { rewrite Hcarry, <- (take_take_drop (source win) k ig_pageSize), List.filter_app. f_equal. symmetry. apply filter_all. intros e [_ ?]%HP. by apply Z.leb_le. }
    assert (StronglySorted before P) as HsP. { rewrite Hsrc in Hsort. apply sorted_app_inv in Hsort as (_ & H & _). by apply sorted_app_inv in H as (H & _). }
    rewrite sort_sorted by done. rewrite merge_sorted; [done | |]; rewrite Hpend.
    + apply sorted_filter. rewrite <- (take_drop (k + ig_pageSize) (source win)) in Hsort. by apply sorted_app_inv in Hsort as (H & _).
    + apply NoDup_ids_filter. rewrite fmap_take. eapply sublist_NoDup; [| apply sublist_take]. apply NoDup_ids_filter, (law_ids (ChainLaws := ltac:(eassumption))).
  - intros e [(_ & _ & ?)%elem_upto _]%HP. by apply Z.leb_le.
  - intros e [(_ & Hc & _)%elem_upto ?]%HP. rewrite Hc, String.eqb_refl. simpl. apply Z.leb_le. lia.
Qed.

(** The filters of a round. *)
Lemma filter_ge (next x : Z) l : next ≤ x → List.filter (λ e, x <=? le_ledger e) (List.filter (λ e, next <=? le_ledger e) l) = List.filter (λ e, x <=? le_ledger e) l.
Proof. intros Hx. rewrite filter_filter. apply filter_ext. intros e. destruct (Z.leb_spec next (le_ledger e)), (Z.leb_spec x (le_ledger e)); (done || lia). Qed.

(** The complete ledgers of a full page: no later page has events below [x]. *)
Lemma complete_ledgers c m next x k :
  (∀ e, e ∈ drop k (upto c m) → x ≤ le_ledger e) → x ≤ m + 1 →
  List.filter (λ e, le_ledger e <? x) (List.filter (λ e, next <=? le_ledger e) (take k (upto c m))) = between c next (x - 1).
Proof.
  intros Hd Hx. rewrite filter_filter. trans (List.filter (λ e, (next <=? le_ledger e) && (le_ledger e <? x)) (upto c m)).
  - rewrite <- (take_drop k (upto c m)) at 2. rewrite List.filter_app, (filter_none _ (drop k _)), app_nil_r; [done |].
    intros e He%Hd. destruct (Z.ltb_spec (le_ledger e) x); [lia | apply andb_false_r].
  - unfold upto, between. rewrite filter_filter. apply filter_ext. intros e. destruct (String.eqb _ _); simpl; [| done].
    repeat match goal with |- context [?a <=? ?b] => destruct (Z.leb_spec a b) | |- context [?a <? ?b] => destruct (Z.ltb_spec a b) end; simpl; (done || lia).
Qed.

Lemma exhausted_false win (result : GetEventsWindowResult) cur :
  length (gr_events result) = ig_pageSize → gr_cursor result = Some cur → cur ≠ "" → position cur = (offset win + ig_pageSize)%nat →
  Nat.ltb (length (gr_events result)) ig_pageSize || negb (truthy (gr_cursor result)) || bool_decide (gr_cursor result = wd_cursor win) = false.
Proof.
  intros Hlen -> Hne Hpos. rewrite Hlen, Nat.ltb_irrefl. simpl. destruct (String.eqb_spec cur ""); [done |]. simpl.
  apply bool_decide_eq_false_2. intros Hc. pose proof law_pageSize as Hp. unfold offset in Hpos. rewrite <- Hc in Hpos. lia.
Qed.

(** The last event of what is pending on a full page: nothing pending is later, nothing
    after the page is earlier. *)
Lemma pending_last c m next k ps :
  length (take ps (drop k (upto c m))) = ps → (0 < ps)%nat → (∀ e, e ∈ drop k (upto c m) → next ≤ le_ledger e) →
  ∃ x, last (List.filter (λ e, next <=? le_ledger e) (take (k + ps) (upto c m))) = Some x ∧ next ≤ le_ledger x ≤ m ∧
    ∀ e, e ∈ drop (k + ps) (upto c m) → le_ledger x ≤ le_ledger e.
Proof.
  intros Hlen Hps Hd. set (P := take ps (drop k (upto c m))) in *.
  destruct (last P) as [x |] eqn:Hx; [| apply last_None in Hx; rewrite Hx in Hlen; simpl in Hlen; lia].
  assert (x ∈ drop k (upto c m)) as Hin. { apply last_Some_elem_of in Hx. apply elem_of_take in Hx as (i & Hi & _). by apply list_elem_of_lookup_2 in Hi. }
  assert (x ∈ upto c m) as (_ & _ & Hm)%elem_upto. { rewrite <- (take_drop k (upto c m)). apply elem_of_app. by right. }
  exists x. split; [| split; [split; [by apply Hd | done] |]].
  - rewrite <- (take_take_drop (upto c m) k ps), List.filter_app, (filter_all _ P); [by rewrite last_app, Hx |].
    intros e He. apply Z.leb_le, Hd. apply elem_of_take in He as (i & Hi & _). by apply list_elem_of_lookup_2 in Hi.
  - intros e He. pose proof (sorted_upto c m) as Hs. rewrite <- (take_drop (k + ps) (upto c m)) in Hs. apply sorted_app_inv in Hs as (_ & _ & Hs).
    apply before_ledger, Hs; [| done]. rewrite <- (take_take_drop (upto c m) k ps). apply elem_of_app. right. by apply last_Some_elem_of.
Qed.

Lemma offset_cursor win cur : wd_cursor win = Some cur → offset win = position cur.
Proof. unfold offset. by intros ->. Qed.

Lemma window_after_tick name win w : window_ok name win w → window_ok name win (tick w).
Proof. intros (Ht & Hc & H). split; [etrans; [exact Ht |]; apply law_tip; simpl; lia |]. done. Qed.

(** What a round does with the page it got.  [next] is the first ledger that is not
    committed: a page that is not full ends the window; a full one commits the ledgers
    below that of its last event. *)
Lemma page_run name win w next result :
  wd_end win ≤ tip (iw_calls w) → wd_cursor win ≠ Some "" → wd_start win ≤ next →
  wd_carry win = List.filter (λ e, next <=? le_ledger e) (take (offset win) (source win)) →
  (∀ e, e ∈ drop (offset win) (source win) → next ≤ le_ledger e) →
  getEventsWindow {| gw_contractId := wd_contract win; gw_startLedger := wd_start win; gw_endLedger := wd_end win;
                     gw_cursor := wd_cursor win; gw_limit := ig_pageSize |} w = (inr result, tick w) →
  page name win w = (n ← worker_commit name (wd_contract win) (wd_end win) (between (wd_contract win) next (wd_end win));
                     mret (inl (wd_processed win + n))) (tick w) ∨
  ∃ x cur, next ≤ x ≤ wd_end win ∧ cur ≠ "" ∧ position cur = (offset win + ig_pageSize)%nat ∧ (position cur ≤ length (source win))%nat ∧
    (∀ e, e ∈ drop (position cur) (source win) → x ≤ le_ledger e) ∧
    page name win w = (n ← worker_commit name (wd_contract win) (x - 1) (between (wd_contract win) next (x - 1));
                       mret (inr (Window (wd_contract win) (wd_start win) (wd_end win) (Some cur)
                                    (List.filter (λ e, x <=? le_ledger e) (take (position cur) (source win))) (wd_processed win + n)))) (tick w).
Proof.
  intros Ht Hcur Hs Hcarry Hd Hg. unfold page. rewrite (bind_run _ _ _ _ _ Hg). destruct (window_page win w result _ Hg Ht Hcur) as (_ & Hev & Hfull).
  destruct (page_pending win next (gr_events result) Hs Hcarry Hd Hev) as [Hno Hpend]. cbv zeta. rewrite Hno, Hpend, orb_false_r.
  assert (length (gr_events result) = length (take ig_pageSize (drop (offset win) (source win)))) as Hlen by (rewrite <- Hev; by rewrite length_fmap).
  pose proof law_pageSize as Hps. destruct (decide (length (gr_events result) = ig_pageSize)) as [Hf | Hnf].
  - right. destruct (Hfull Hf) as (cur & Hc & Hne & Hpos). rewrite (exhausted_false win result cur Hf Hc Hne Hpos).
    rewrite Hlen in Hf. destruct (pending_last _ _ next _ _ Hf Hps Hd) as (x & Hx & [Hx1 Hx2] & Hx3). fold (source win) in Hx, Hx3.
    pose proof (complete_ledgers _ _ next (le_ledger x) (offset win + ig_pageSize) Hx3 ltac:(lia)) as Hcl. fold (source win) in Hcl.
    rewrite length_take, length_drop in Hf. exists (le_ledger x), cur. rewrite Hpos. split; [lia |]. split; [done |]. split; [done |]. split; [lia |]. split; [done |].
    by rewrite Hx, Hcl, filter_ge, Hc by done.
  - left. rewrite length_take, length_drop in Hlen. assert (Nat.ltb (length (gr_events result)) ig_pageSize = true) as -> by (apply Nat.ltb_lt; lia).
    rewrite take_ge by lia. simpl. by rewrite between_upto.
Qed.

(** One round keeps the world and the window; a window that is done is committed to its end. *)
Lemma page_ok name win w :
  world_ok w → window_ok name win w →
  let '(r, w') := page name win w in
  world_ok w' ∧ mine name w w' ∧
  (∀ x, r = inr x → advances name (wd_contract win) w w') ∧
  (∀ n, r = inr (inl n) → resumes (checkpoint_of name (wd_contract win) w') (wd_end win + 1)) ∧
  (∀ win', r = inr (inr win') → window_ok name win' w' ∧ source win' = source win ∧ wd_end win' = wd_end win ∧ wd_contract win' = wd_contract win ∧
    offset win' = (offset win + ig_pageSize)%nat ∧ (offset win' ≤ length (source win))%nat).
Proof.
  intros Hw (Ht & Hcur & next & Hr & [Hs He] & Hcarry & Hd). pose proof (tick_world_ok _ Hw) as Hw1. assert (mine name w (tick w)) as Htick by (split; [done | simpl; lia]).
  pose proof (getEventsWindow_state {| gw_contractId := wd_contract win; gw_startLedger := wd_start win; gw_endLedger := wd_end win;
    gw_cursor := wd_cursor win; gw_limit := ig_pageSize |} w) as Hst. destruct (getEventsWindow _ w) as [[err | result] w1] eqn:Hg; simpl in Hst; subst w1.
  { unfold page. by rewrite (bind_run_err _ _ _ _ _ Hg). }
  destruct (page_run name win w next result Ht Hcur Hs Hcarry Hd Hg) as [-> | (x & cur & [Hx1 Hx2] & Hne & Hpos & Hlen & Hdx & ->)].
  - pose proof (worker_commit_ok name (wd_contract win) (wd_end win) _ (tick w) next Hw1 Hr ltac:(lia) eq_refl) as Hcm.
    destruct (worker_commit _ _ _ _ (tick w)) as [[err | n] w2] eqn:Hrun; destruct Hcm as (A1 & A2 & A3).
    + rewrite (bind_run_err _ _ _ _ _ Hrun). split; [done |]. split; [by etrans | done].
    + rewrite (bind_run _ _ _ _ _ Hrun). destruct (A3 n eq_refl) as [A4 A5]. split; [done |]. split; [by etrans |]. split; [by intros _ _ |]. split; [by intros _ _ | done].
  - pose proof (worker_commit_ok name (wd_contract win) (x - 1) _ (tick w) next Hw1 Hr ltac:(lia) eq_refl) as Hcm.
    destruct (worker_commit _ _ _ _ (tick w)) as [[err | n] w2] eqn:Hrun; destruct Hcm as (A1 & A2 & A3).
    + rewrite (bind_run_err _ _ _ _ _ Hrun). split; [done |]. split; [by etrans | done].
    + rewrite (bind_run _ _ _ _ _ Hrun). destruct (A3 n eq_refl) as [A4 A5]. split; [done |]. split; [by etrans |]. split; [by intros _ _ |]. split; [done |].
      intros win' [= <-]. split; [| done].
      split; [simpl; etrans; [exact Ht |]; apply law_tip; destruct A2; simpl in *; lia |]. split; [simpl; congruence |].
      exists x. replace (x - 1 + 1) with x in A4 by lia. split; [exact A4 |]. split; [simpl; lia |]. done.
Qed.
End exact.
