(* ===== verification/IngestionRuns.v ===== *)
(** * Resumable ingestion: runs of several workers

    A step is what a worker does between two points where another one may act on the
    database: one page (the request, the transaction and the hook), the start of a
    contract, the start of a cycle, a restart.  A run of [syncOnce] is a sequence of such
    steps. *)
From S2P Require Import Prelude JsLib JsCollections Services Ingestion IngestionCorrect.
From Stdlib Require Import Sorting.Sorted.
Local Open Scope Z_scope.

(** ** Steps *)

(** What a worker has in hand: the range of its cycle, and the window it reads with the
    tip it aims at. *)
Record replica := Replica { rc_range : option LedgerRange; rc_task : option (window * Z) }.
Record fleet := Fleet { fl_world : iworld; fl_replicas : jsmap replica }.

Inductive fleet_op :=
  | f_restart (name : string)
  | f_cycle (name : string)
  | f_begin (name contractId : string)
  | f_page (name : string)
  | f_stop (name : string)
  | f_wait (ms : Z).

Section steps.
Context `{IE : IngestionEnv}.
Implicit Types (w : iworld) (fl : fleet).

(** The head of the loop of [syncContract], and its end. *)
Definition open_window (name contractId : string) (resume latest : Z) : M iworld (option (window * Z)) :=
  stopping ← gets (λ w, wk_stopping (worker_of name w));
  if negb stopping && (resume <=? latest)
  then mret (Some (Window contractId resume (Z.min (resume + ig_windowSize - 1) latest) None [] 0, latest))
  else set_status name contractId (λ s, with_error None (with_state cs_idle s));; mret None.

Definition begin_contract (name contractId : string) (range : LedgerRange) : M iworld (option (window * Z)) :=
  set_status name contractId (with_state cs_syncing);;
  resume ← resumeLedger name contractId range;
  throw_if (resume <? lg_oldestLedger range) (LedgerRetentionGapError contractId resume (lg_oldestLedger range));;
  open_window name contractId resume (lg_latestLedger range).

Definition page_task (name : string) (win : window) (latest : Z) : M iworld (option (window * Z)) :=
  r ← page name win;
  match r with
  | inl _ => open_window name (wd_contract win) (wd_end win + 1) latest
  | inr win' => mret (Some (win', latest))
  end.

(** [catch (err) { this.handleContractError(contractId, err) }] *)
Definition guarded (name contractId : string) (c : M iworld (option (window * Z))) : M iworld (option (window * Z)) :=
  try_catch c (λ err, handleContractError name contractId err;; mret None).

(** [syncOnce] up to its loop. *)
Definition begin_cycle (name : string) : M iworld LedgerRange :=
  known ← gets (λ w, wk_checkpoints (worker_of name w));
  (if bool_decide (known = []) then loadCheckpoints name else mret ());;
  getLedgerRange.

Definition replica_of (name : string) fl : replica := default (Replica None None) (jget name (fl_replicas fl)).
Definition with_replica (name : string) (r : replica) w fl : fleet := Fleet w (jset name r (fl_replicas fl)).

(** The outcome of a guarded step is the next task. *)
Definition run_task (name : string) (c : M iworld (option (window * Z))) fl : fleet :=
  let '(r, w) := c (fl_world fl) in
  with_replica name (Replica (rc_range (replica_of name fl)) (match r with inr task => task | inl _ => None end)) w fl.

Definition fleet_step (op : fleet_op) fl : fleet :=
  match op with
  | f_restart name => with_replica name (Replica None None) (restart name (fl_world fl)).2 fl
  | f_cycle name =>
      match rc_task (replica_of name fl) with
      | Some _ => fl
      | None => let '(r, w) := begin_cycle name (fl_world fl) in
                with_replica name (Replica (match r with inr range => Some range | inl _ => None end) None) w fl
      end
  | f_begin name contractId =>
      match replica_of name fl with
      | Replica (Some range) None =>
          if bool_decide (contractId ∈ ig_contractIds) && negb (bool_decide (ss_state (status_of name contractId (fl_world fl)) = cs_halted))
          then run_task name (guarded name contractId (begin_contract name contractId range)) fl
          else fl
      | _ => fl
      end
  | f_page name =>
      match rc_task (replica_of name fl) with
      | Some (win, latest) => run_task name (guarded name (wd_contract win) (page_task name win latest)) fl
      | None => fl
      end
  | f_stop name => Fleet (stop_worker name (fl_world fl)).2 (fl_replicas fl)
  | f_wait ms => let w := fl_world fl in
                 Fleet (IWorld (iw_rows w) (iw_events w) (iw_claims w) (iw_handled w) (iw_workers w) (iw_fanned w) (iw_conflict w)
                          (iw_calls w) (iw_now w + ms)) (fl_replicas fl)
  end.

Definition fleet_run (ops : list fleet_op) fl : fleet := foldl (λ fl op, fleet_step op fl) fl ops.

Definition empty_iworld (now : Z) : iworld := IWorld [] [] [] [] [] [] None 0 now.
End steps.

(** ** Safety *)

Section exact_runs.
Context `{IE : IngestionEnv} (chain : list LedgerEvent) (tip : nat → Z) (position : string → nat) `{!ChainLaws IE chain tip position}.
Implicit Types (w : iworld) (fl : fleet).

Notation world_ok := (world_ok chain).
Notation window_ok := (window_ok chain tip position).

Definition range_ok (range : LedgerRange) w : Prop := lg_latestLedger range ≤ tip (iw_calls w) ∧ 1 ≤ lg_oldestLedger range.
Definition task_ok (name : string) (task : window * Z) w : Prop := window_ok name task.1 w ∧ task.2 ≤ tip (iw_calls w).

Record fleet_ok fl : Prop := {
  fo_world : world_ok (fl_world fl);
  fo_range : ∀ name range, rc_range (replica_of name fl) = Some range → range_ok range (fl_world fl);
  fo_task : ∀ name task, rc_task (replica_of name fl) = Some task → task_ok name task (fl_world fl)
}.

Lemma range_later range w w' : (iw_calls w ≤ iw_calls w')%nat → range_ok range w → range_ok range w'.
Proof. intros Hc [H1 H2]. split; [etrans; [exact H1 | by apply law_tip] | done]. Qed.

Lemma task_later name task w w' :
  (iw_calls w ≤ iw_calls w')%nat → (∀ c, checkpoint_of name c w' = checkpoint_of name c w) → task_ok name task w → task_ok name task w'.
Proof.
  intros Hc Hcp [(H1 & H2 & next & H3 & H4) H5]. split; [| etrans; [exact H5 | by apply law_tip]].
  split; [etrans; [exact H1 | by apply law_tip] |]. split; [done |]. exists next. by rewrite Hcp.
Qed.

Lemma replica_with name r w fl other : replica_of other (with_replica name r w fl) = if decide (name = other) then r else replica_of other fl.
Proof. unfold replica_of, with_replica. simpl. rewrite jget_jset. by destruct (decide _). Qed.

(** A step of one worker. *)
Lemma with_replica_ok name r w fl :
  fleet_ok fl → world_ok w → mine name (fl_world fl) w → (∀ range, rc_range r = Some range → range_ok range w) →
  (∀ task, rc_task r = Some task → task_ok name task w) → fleet_ok (with_replica name r w fl).
Proof.
  intros [H1 H2 H3] Hw Hm Hr Ht. split; [done | |]; intros other; rewrite replica_with; destruct (decide _) as [<- | Hne]; try done.
  - intros range Hrg. apply (range_later range (fl_world fl)); [apply Hm | by apply (H2 other)].
  - intros task Htk. apply (task_later other task (fl_world fl)); [apply Hm | intros c; apply (mine_checkpoint name); [done | congruence] | by apply H3].
Qed.

Lemma set_status_mine name c f w : mine name w (set_status name c f w).2.
Proof. apply set_worker_mine. Qed.

Lemma open_window_ok name c resume latest w :
  world_ok w → resumes (checkpoint_of name c w) resume → latest ≤ tip (iw_calls w) →
  let '(r, w') := open_window name c resume latest w in
  world_ok w' ∧ mine name w w' ∧ ∀ task, r = inr (Some task) → task_ok name task w'.
Proof.
  intros Hw Hr Ht. unfold open_window. rewrite (bind_run (gets _) _ w _ w eq_refl). destruct (negb _ && _) eqn:Hgo.
  - split; [done |]. split; [done |]. intros task [= <-]. apply andb_true_iff in Hgo as [_ Hle%Z.leb_le]. split; [| done].
    pose proof (law_windowSize (ChainLaws := ltac:(eassumption))) as Hws. apply window_start; [done | done | lia | simpl; lia].
  - split; [by apply (set_status_ok chain name c (λ s, with_error None (with_state cs_idle s))) |].
    split; [apply (set_status_mine name c (λ s, with_error None (with_state cs_idle s))) | done].
Qed.

Lemma handleContractError_ok name c err w : world_ok w → ∃ w', handleContractError name c err w = (inr (), w') ∧ world_ok w' ∧ mine name w w'.
Proof.
  intros Hw. pose (w1 := (set_status name c (with_error (Some (exn_message err))) w).2).
  assert (world_ok w1) as Hw1 by (by apply set_status_ok). assert (mine name w w1) as Hm1 by apply set_status_mine.
  unfold handleContractError. rewrite (bind_run (set_status _ _ _) _ w () w1 eq_refl).
  assert (∀ f, ∃ w', set_status name c f w1 = (inr (), w') ∧ world_ok w' ∧ mine name w w') as Hset.
  { intros f. exists (set_status name c f w1).2. split; [done |]. split; [by apply set_status_ok |]. etrans; [exact Hm1 | apply set_status_mine]. }
  destruct (String.eqb _ _); [| destruct (String.eqb _ _); apply Hset].
  pose (w2 := (set_checkpoint name c (iw_conflict w1) w1).2).
  rewrite (bind_run (gets iw_conflict) _ w1 _ w1 eq_refl), (bind_run (set_checkpoint _ _ _) _ w1 () w2 eq_refl).
  exists (set_status name c (λ s, with_state cs_idle (with_checkpoint (iw_conflict w1) s)) w2).2. split; [done |].
  split; [apply set_status_ok, set_checkpoint_ok; [done | apply (tb_conflict _ _ (wo_tables _ _ Hw1))] |].
  etrans; [exact Hm1 |]. etrans; [apply (set_worker_mine name) | apply set_status_mine].
Qed.

(** A step that keeps the world keeps the fleet, caught errors included. *)
Lemma run_task_ok name contract (c : M iworld (option (window * Z))) fl :
  fleet_ok fl →
  (let '(r, w') := c (fl_world fl) in
   world_ok w' ∧ mine name (fl_world fl) w' ∧ ∀ task, r = inr (Some task) → task_ok name task w') →
  fleet_ok (run_task name (guarded name contract c) fl).
Proof.
  intros Hfl Hc. unfold run_task, guarded, try_catch. destruct (c (fl_world fl)) as [[err | task] w1]; destruct Hc as (Hw & Hm & Ht).
  - destruct (handleContractError_ok name contract err w1 Hw) as (w2 & Hrun & Hw2 & Hm2). rewrite (bind_run _ _ _ _ _ Hrun).
    apply with_replica_ok; [done | done | by etrans | | done].
    simpl. intros range Hr. apply (range_later range (fl_world fl)); [destruct Hm, Hm2; lia |]. by apply (fo_range _ Hfl name).
  - apply with_replica_ok; [done | done | done | |]; simpl.
    + intros range Hr. apply (range_later range (fl_world fl)); [apply Hm | by apply (fo_range _ Hfl name)].
    + intros t ->. by apply Ht.
Qed.

(** What the steps of a worker may do to the world. *)
Definition keeps (name : string) : relation iworld := λ w w', (world_ok w → world_ok w') ∧ mine name w w'.

#[local] Instance keeps_preorder name : PreOrder (keeps name).
Proof. split; [by split |]. intros w1 w2 w3 [A1 A2] [B1 B2]. split; [auto | by etrans]. Qed.

Lemma keeps_tick name w : keeps name w (tick w).
Proof. split; [apply tick_world_ok | split; [done | simpl; lia]]. Qed.

Lemma loadCheckpoints_keeps name : evolves (keeps name) (loadCheckpoints name).
Proof.
  assert (∀ (loaded : jsmap IngestionCheckpoint) ids, (∀ c cp, jget c loaded = Some cp → 1 ≤ cp_lastProcessedLedger cp) →
    evolves (keeps name) (for_each ids (λ contractId, set_checkpoint name contractId (jget contractId loaded);;
      set_status name contractId (λ _, {| ss_state := cs_idle; ss_checkpoint := jget contractId loaded; ss_lastError := None |})))) as Hfor.
  { intros loaded ids Hl. apply evolves_for_each; [apply _ |]. intros c. apply evolves_bind; [apply _ | |].
    - intros w. split; [intros Hw; apply set_checkpoint_ok; [done | apply Hl] | apply (set_worker_mine name)].
    - intros _ w. split; [apply set_status_ok | apply set_status_mine]. }
  unfold loadCheckpoints, loadAll. destruct ig_contractIds as [| x ids]; [by apply (Hfor [] []) |].
  apply ask_bind_evolves; [apply _ | apply keeps_tick |]. intros w. apply Hfor. intros c cp Hj. apply jget_elem, list_elem_of_omap in Hj as (c' & _ & Hc').
  apply fmap_Some in Hc' as (cp' & Hst & [= -> ->]). by apply stored_positive in Hst.
Qed.

Lemma restart_keeps name : evolves (keeps name) (restart name).
Proof.
  apply evolves_bind; [apply _ | | intros _; apply loadCheckpoints_keeps]. intros w. split; [| apply set_worker_mine].
  intros Hw. by apply memory_ok.
Qed.

Lemma begin_cycle_ok name w :
  let '(r, w') := begin_cycle name w in keeps name w w' ∧ ∀ range, r = inr range → range_ok range w'.
Proof.
  unfold begin_cycle. rewrite (bind_run (gets _) _ w _ w eq_refl).
  assert (∀ w1, let '(r, w') := getLedgerRange w1 in keeps name w1 w' ∧ ∀ range, r = inr range → range_ok range w') as Hrange.
  { intros w1. unfold getLedgerRange. destruct (rpc_call getHealth w1) as [[err | result] w2] eqn:Hc.
    - rewrite (bind_run_err _ _ _ _ _ Hc). split; [| done]. revert Hc. unfold rpc_call, answer, throw_if, some_or_throw, gets, modify, mbind, M_bind. simpl.
      destruct (rpc_fetch _ _); simpl; [intros [= _ <-]; apply keeps_tick |]. destruct (negb _); simpl; [intros [= _ <-]; apply keeps_tick |].
      destruct (rb_error _); [intros [= _ <-]; apply keeps_tick |]. destruct (rb_result _); intros [= _ <-]; apply keeps_tick.
    - rewrite (bind_run _ _ _ _ _ Hc). apply rpc_call_inr in Hc as (-> & reply & Hf & Hg). destruct result as [[latest |] [oldest |] | ? ?]; (split; [apply keeps_tick |]); try done.
      intros range [= <-]. destruct (law_range _ _ _ _ Hf Hg) as [Hl Ho]. split; [simpl; etrans; [exact Hl | apply law_tip; simpl; lia] | done]. }
  set (load := if bool_decide (wk_checkpoints (worker_of name w) = []) then loadCheckpoints name else mret ()).
  assert (keeps name w (load w).2) as Hload by (unfold load; destruct (bool_decide _); [apply loadCheckpoints_keeps | reflexivity]).
  destruct (load w) as [[err | []] w1] eqn:Hl; simpl in Hload.
  - rewrite (bind_run_err _ _ _ _ _ Hl). done.
  - rewrite (bind_run _ _ _ _ _ Hl). specialize (Hrange w1). destruct (getLedgerRange w1) as [r w2]. destruct Hrange as [H1 H2]. split; [by etrans | done].
Qed.

Lemma begin_contract_ok name c range w :
  world_ok w → range_ok range w →
  let '(r, w') := begin_contract name c range w in
  world_ok w' ∧ mine name w w' ∧ ∀ task, r = inr (Some task) → task_ok name task w'.
Proof.
  intros Hw [Hl Ho]. pose (w1 := (set_status name c (with_state cs_syncing) w).2).
  assert (world_ok w1) as Hw1 by (by apply set_status_ok). assert (mine name w w1) as Hm1 by apply set_status_mine.
  unfold begin_contract. rewrite (bind_run (set_status _ _ _) _ w () w1 eq_refl).
  set (resume := match checkpoint_of name c w1 with Some cp => cp_lastProcessedLedger cp + 1 | None => default (lg_oldestLedger range) ig_initialLedger end).
  rewrite (bind_run (resumeLedger name c range) _ w1 resume w1 eq_refl). unfold throw_if. destruct (resume <? _); [by rewrite (bind_run_err (throw _) _ w1 _ w1 eq_refl) |].
  rewrite (bind_run (mret ()) _ w1 _ w1 eq_refl).
  assert (resumes (checkpoint_of name c w1) resume) as Hr.
  { subst resume. destruct (checkpoint_of name c w1) as [cp |] eqn:Hcp; simpl; [apply (wo_workers _ _ Hw1) in Hcp; lia |].
    destruct ig_initialLedger as [i |] eqn:Hi; simpl; split; [by apply law_initial | intros; congruence | exact Ho | intros; congruence]. }
  pose proof (open_window_ok name c resume (lg_latestLedger range) w1 Hw1 Hr) as Hopen. destruct (open_window _ _ _ _ w1) as [r w2].
  destruct Hopen as (H1 & H2 & H3); [etrans; [exact Hl | apply law_tip, Hm1] |]. split; [done |]. split; [by etrans | done].
Qed.

Lemma page_task_ok name win latest w :
  world_ok w → task_ok name (win, latest) w →
  let '(r, w') := page_task name win latest w in
  world_ok w' ∧ mine name w w' ∧ ∀ task, r = inr (Some task) → task_ok name task w'.
Proof.
  intros Hw [Hwin Hl]. unfold page_task. pose proof (page_ok chain tip position name win w Hw Hwin) as Hp. destruct (page name win w) as [[err | [n | win']] w1] eqn:Hrun;
    destruct Hp as (A1 & A2 & _ & A3 & A4); [by rewrite (bind_run_err _ _ _ _ _ Hrun) | |]; rewrite (bind_run _ _ _ _ _ Hrun).
  - pose proof (open_window_ok name (wd_contract win) (wd_end win + 1) latest w1 A1 (A3 n eq_refl)) as Hopen. destruct (open_window _ _ _ _ w1) as [r w2].
    destruct Hopen as (H1 & H2 & H3); [etrans; [exact Hl | apply law_tip, A2] |]. split; [done |]. split; [by etrans | done].
  - split; [done |]. split; [done |]. intros task [= <-]. split; [by apply (A4 win') | simpl; etrans; [exact Hl | apply law_tip, A2]].
Qed.

Lemma fleet_step_ok op fl : fleet_ok fl → fleet_ok (fleet_step op fl).
Proof.
  intros Hfl. pose proof (fo_world _ Hfl) as Hw. destruct op as [name | name | name c | name | name | ms]; unfold fleet_step.
  - destruct (restart_keeps name (fl_world fl)) as [H1 H2]. by apply with_replica_ok; auto.
  - destruct (rc_task (replica_of name fl)); [done |]. pose proof (begin_cycle_ok name (fl_world fl)) as Hc. destruct (begin_cycle name (fl_world fl)) as [r w].
    destruct Hc as [[H1 H2] H3]. apply with_replica_ok; [done | auto | done | | done]. simpl. intros range Hr. apply H3. destruct r; [done | congruence].
  - destruct (replica_of name fl) as [[range |] [|]] eqn:Hrep; try done. destruct (bool_decide _ && _); [| done]. apply run_task_ok; [done |].
    apply begin_contract_ok; [done |]. apply (fo_range _ Hfl name). by rewrite Hrep.
  - destruct (rc_task (replica_of name fl)) as [[win latest] |] eqn:Ht; [| done]. apply run_task_ok; [done |]. apply page_task_ok; [done |]. by apply (fo_task _ Hfl).
  - destruct Hfl as [H1 H2 H3]. split; simpl; [apply memory_ok; [done |]; simpl; intros c cp; by apply (own_checkpoint chain) | done |].
    intros other task Ht. apply (task_later other task (fl_world fl)); [done | | by apply H3]. intros c. rewrite checkpoint_set_worker. by destruct (decide _) as [<- |].
  - destruct Hfl as [[H1 H1' H1''] H2 H3]. split; [| done | done]. split; [| done | done].
    apply (tables_move chain (fl_world fl)); [done | apply (tb_fanned _ _ H1) | apply (tb_conflict _ _ H1) | done].
Qed.

Lemma empty_fleet_ok now : fleet_ok (Fleet (empty_iworld now) []).
Proof. split; [| done | done]. split; [split; (done || by intros e ?%elem_of_nil) | constructor | done]. Qed.

Lemma fleet_run_ok ops fl : fleet_ok fl → fleet_ok (fleet_run ops fl).
Proof. revert fl. induction ops as [| op ops IH]; intros fl Hfl; [done |]. apply IH. by apply fleet_step_ok. Qed.

(** C24. The events of a contract in the database are exactly the events of the chain from
    the ledger where its ingestion began up to its watermark, in order; the processors
    were given exactly these events, each once, and no event was handed to the hook that
    is not in the database: after any interleaving of the steps of any number of workers,
    with restarts, stops, failed or lost calls of the database and any answers of the RPC
    node that it documents. *)
Theorem ingestion_exact ops now c :
  let w := fl_world (fleet_run ops (Fleet (empty_iworld now) [])) in
  match stored_checkpoint c w with
  | Some cp => ∃ s, begins s ∧
      List.filter (λ e, String.eqb (le_contractId e) c) (iw_events w) = between chain c s (cp_lastProcessedLedger cp)
  | None => List.filter (λ e, String.eqb (le_contractId e) c) (iw_events w) = []
  end ∧
  iw_handled w = iw_events w ∧ NoDup (le_eventId <$> iw_events w) ∧ ∀ e, e ∈ iw_fanned w → e ∈ iw_events w.
Proof.
  destruct (fleet_run_ok ops _ (empty_fleet_ok now)) as [[Ht Hu _] _ _]. cbv zeta. split; [| split; [apply (tb_handled _ _ Ht) | split; [exact Hu | apply (tb_fanned _ _ Ht)]]].
  pose proof (tb_events _ _ Ht c) as He. destruct (stored_checkpoint c _); [| done]. destruct He as (s & Hb & _ & He). by exists s.
Qed.
End exact_runs.

(** A chain of four events with pages of two, and a node that has closed ten ledgers; call
    25 fails, call 12 (the first COMMIT) takes effect but its answer is lost. *)
Module example.
Definition event (id : string) (ledger : Z) : LedgerEvent :=
  {| le_eventId := id; le_contractId := "C"; le_ledger := ledger; le_ledgerClosedAt := ""; le_txHash := ""; le_topics := [];
     le_value := {| vl_xdr := None; vl_str := None |}; le_inSuccessfulContractCall := true |}.
Definition chain : list LedgerEvent := [event "1" 2; event "2" 3; event "3" 3; event "4" 7].

Definition raw (e : LedgerEvent) : RpcContractEvent :=
  {| rv_ledger := le_ledger e; rv_ledgerClosedAt := le_ledgerClosedAt e; rv_contractId := le_contractId e; rv_id := le_eventId e;
     rv_topic := Some (le_topics e); rv_value := RObject (le_value e); rv_inSuccessfulContractCall := Some (le_inSuccessfulContractCall e);
     rv_txHash := le_txHash e |}.
Lemma raw_event e : toLedgerEvent (raw e) = e.
Proof. by destruct e. Qed.

(** Cursors count the events before them. *)
Fixpoint cursor_at (k : nat) : string := String "x" (match k with O => "" | S k' => cursor_at k' end).
Definition position (cur : string) : nat := pred (String.length cur).
Lemma position_at k : position (cursor_at k) = k.
Proof. unfold position. assert (String.length (cursor_at k) = S k) as ->; [| done]. induction k as [| k IH]; simpl in *; congruence. Qed.

Definition node (n : nat) (request : rpc_request) : exn + rpc_reply :=
  let ok result := inr {| rp_status := 200; rp_body := {| rb_error := None; rb_result := Some result |} |} in
  match request with
  | getHealth => ok (RHealth (Some 10) (Some 1))
  | getEvents start endx c limit cursor =>
      let source := upto chain c (endx - 1) in
      let k := match cursor with Some cur => position cur | None => length (upto chain c (Z.min (endx - 1) (default 1 start - 1))) end in
      ok (REvents (Some (raw <$> take limit (drop k source))) (Some (cursor_at (k + limit))))
  end.

#[export] Instance env : IngestionEnv := {|
  ig_fate n := if Nat.eqb n 25 then CallFails (Error "down") else if Nat.eqb n 12 then CallLost (Error "lost") else CallOk;
  rpc_fetch := node; processor_error _ _ := None; ig_contractIds := ["C"]; ig_initialLedger := None; ig_windowSize := 5; ig_pageSize := 2 |}.

#[export] Instance laws : ChainLaws env chain (λ _, 10) position.
Proof.
  split; try done.
  - repeat (constructor; [| repeat (constructor; [vm_compute; reflexivity |]); constructor]). constructor.
  - apply (bool_decide_unpack _). by vm_compute.
  - intros e He. repeat (apply elem_of_cons in He as [-> | He]; [by vm_compute |]). by apply elem_of_nil in He.
  - intros n reply latest oldest [= <-] [= <- <-]. lia.
  - intros n start endx c limit cursor reply result [= <-] [= <-] _. eexists _, _. split; [done |]. simpl. split.
    + rewrite <- list_fmap_compose. trans (id <$> take limit (drop (match cursor with Some cur => position cur | None => length (upto chain c (Z.min (endx - 1) (default 1 start - 1))) end) (upto chain c (endx - 1)))); [| by rewrite list_fmap_id].
      apply list_fmap_ext. intros i e _. apply raw_event.
    + intros _. eexists. split; [done |]. split; [by destruct (_ + limit)%nat | apply position_at].
  - simpl. lia.
Qed.

(** Two workers start together.  The answer to the first COMMIT of [a] is lost: [b], and
    then [a] itself, find the watermark moved and adopt it; a later statement of [b] fails. *)
Definition ops : list fleet_op :=
  [f_restart "a"; f_restart "b"; f_cycle "a"; f_cycle "b"; f_begin "a" "C"; f_begin "b" "C"; f_page "a"; f_page "b"; f_cycle "a"; f_begin "a" "C";
   f_cycle "b"; f_page "a"; f_begin "b" "C"; f_page "b"; f_page "b"; f_cycle "b"; f_begin "b" "C"; f_page "b"; f_page "b"; f_page "b"].
End example.
#[local] Existing Instances example.env example.laws.

Lemma ingestion_exact_witness :
  let w := fl_world (fleet_run example.ops (Fleet (empty_iworld 0) [])) in
  cp_lastProcessedLedger <$> stored_checkpoint "C" w = Some 10 ∧ iw_events w = example.chain ∧ iw_handled w = iw_events w.
Proof.
  destruct (ingestion_exact example.chain (λ _, 10) example.position example.ops 0 "C") as (_ & Hh & _).
  split; [by vm_compute |]. split; [by vm_compute | exact Hh].
Defined.

(** An event whose COMMIT was answered with an error is in the database, and the watermark
    is past it: the hook, documented for at-least-once side effects, never gets it. *)
Lemma fan_out_lost :
  let w := fl_world (fleet_run example.ops (Fleet (empty_iworld 0) [])) in
  le_eventId <$> iw_events w = ["1"; "2"; "3"; "4"] ∧ le_eventId <$> iw_fanned w = ["2"; "3"; "4"] ∧
  cp_lastProcessedLedger <$> stored_checkpoint "C" w = Some 10.
Proof. by vm_compute. Qed.
