(* ===== verification/IngestionSync.v ===== *)
(** * Resumable ingestion: whole cycles

    A cycle of a worker ([syncOnce]) is a sequence of the steps of IngestionRuns.v, so
    that what holds after every sequence of steps holds after every cycle.  When the
    database and the RPC node answer and nobody else writes, one cycle takes every
    contract to the tip of the chain. *)
From S2P Require Import Prelude JsLib JsCollections Services Ingestion IngestionCorrect IngestionRuns.
From Stdlib Require Import Sorting.Sorted.
Local Open Scope Z_scope.

(** ** A cycle is a sequence of steps *)

Section history.
Context `{IE : IngestionEnv} (name : string).
Implicit Types (w : iworld) (fl : fleet).

Lemma fleet_run_app ops ops' fl : fleet_run (ops ++ ops') fl = fleet_run ops' (fleet_run ops fl).
Proof. apply foldl_app. Qed.

(** The worker is between two contracts, with the range of its cycle. *)
Definition settled (range : option LedgerRange) w fl : Prop := fl_world fl = w ∧ replica_of name fl = Replica range None.

(** The world after a contract, errors handled. *)
Definition handled_world {A} (c : string) (out : exn + A) w : iworld :=
  match out with inl e => (handleContractError name c e w).2 | inr _ => w end.

Lemma handleContractError_runs c err w : handleContractError name c err w = (inr (), (handleContractError name c err w).2).
Proof.
  unfold handleContractError. rewrite (bind_run (set_status _ _ _) _ w () _ eq_refl).
  by destruct (String.eqb _ _); [| destruct (String.eqb _ _)].
Qed.

Lemma run_task_replica m fl : replica_of name (run_task name m fl) =
  Replica (rc_range (replica_of name fl)) (match (m (fl_world fl)).1 with inr task => task | inl _ => None end).
Proof. unfold run_task. destruct (m (fl_world fl)) as [r w]. unfold replica_of. simpl. by rewrite jget_jset_eq. Qed.

Lemma run_task_world m fl : fl_world (run_task name m fl) = (m (fl_world fl)).2.
Proof. unfold run_task. by destruct (m (fl_world fl)). Qed.

Lemma guarded_err c m w e w1 : m w = (inl e, w1) → guarded name c m w = (inr None, (handleContractError name c e w1).2).
Proof. intros Hm. unfold guarded, try_catch. by rewrite Hm, (bind_run _ _ _ _ _ (handleContractError_runs c e w1)). Qed.

Lemma guarded_ret c m w task w1 : m w = (inr task, w1) → guarded name c m w = (inr task, w1).
Proof. intros Hm. unfold guarded, try_catch. by rewrite Hm. Qed.

(** What the worker has in hand after a step. *)
Definition in_hand (range : option LedgerRange) (task : option (window * Z)) w fl : Prop := fl_world fl = w ∧ replica_of name fl = Replica range task.

Lemma run_task_run c m fl out w1 :
  m (fl_world fl) = (out, w1) →
  in_hand (rc_range (replica_of name fl)) (match out with inr task => task | inl _ => None end) (handled_world c out w1) (run_task name (guarded name c m) fl).
Proof.
  intros Hm. unfold in_hand. rewrite run_task_world, run_task_replica. destruct out as [e | task]; [by rewrite (guarded_err _ _ _ _ _ Hm) | by rewrite (guarded_ret _ _ _ _ _ Hm)].
Qed.

Lemma open_window_runs c resume latest w : ∃ task w', open_window name c resume latest w = (inr task, w').
Proof. unfold open_window. rewrite (bind_run (gets _) _ w _ w eq_refl). destruct (_ && _); eauto. Qed.

Lemma page_window win w win' w' : page name win w = (inr (inr win'), w') → wd_contract win' = wd_contract win ∧ wd_end win' = wd_end win.
Proof.
  unfold page. intros H. apply bind_inr in H as (result & w1 & _ & H). cbv zeta in H. destruct (_ || _) in H; apply bind_inr in H as (n & w2 & _ & H).
  - done.
  - by injection H as <- <-.
Qed.

(** The end of a contract. *)
Definition finish (c : string) (r : option Z) : M iworld (option Z) :=
  set_status name c (λ s, with_error None (with_state cs_idle s));; mret r.

Lemma fleet_page win latest fl :
  rc_task (replica_of name fl) = Some (win, latest) → fleet_step (f_page name) fl = run_task name (guarded name (wd_contract win) (page_task name win latest)) fl.
Proof. intros Ht. unfold fleet_step. by rewrite Ht. Qed.

(** The pages of a window, up to the head of the loop over the windows. *)
Lemma pages_history fuel win latest fl out w1 :
  rc_task (replica_of name fl) = Some (win, latest) → pages name fuel win (fl_world fl) = (out, w1) → out ≠ inr None →
  ∃ k, let fl' := fleet_run (replicate k (f_page name)) fl in
  match out with
  | inl e => in_hand (rc_range (replica_of name fl)) None (handleContractError name (wd_contract win) e w1).2 fl'
  | inr _ => ∀ task w2, open_window name (wd_contract win) (wd_end win + 1) latest w1 = (inr task, w2) → in_hand (rc_range (replica_of name fl)) task w2 fl'
  end.
Proof.
  revert win fl. induction fuel as [| fuel IH]; intros win fl Ht Hrun Hne; [injection Hrun as <- <-; done |]. cbn [pages] in Hrun.
  pose proof (fleet_page _ _ _ Ht) as Hstep. destruct (page name win (fl_world fl)) as [[e | [n | win']] w2] eqn:Hp.
  - rewrite (bind_run_err _ _ _ _ _ Hp) in Hrun. injection Hrun as <- <-. exists 1%nat. cbn [replicate fleet_run foldl]. rewrite Hstep.
    apply (run_task_run _ _ _ (inl e)). unfold page_task. by rewrite (bind_run_err _ _ _ _ _ Hp).
  - rewrite (bind_run _ _ _ _ _ Hp) in Hrun. injection Hrun as <- <-. exists 1%nat. cbn [replicate fleet_run foldl]. intros task w3 Ho. rewrite Hstep.
    apply (run_task_run _ _ _ (inr task)). unfold page_task. by rewrite (bind_run _ _ _ _ _ Hp).
  - rewrite (bind_run _ _ _ _ _ Hp) in Hrun. destruct (page_window _ _ _ _ Hp) as [Hc He].
    destruct (run_task_run (wd_contract win) (page_task name win latest) fl (inr (Some (win', latest))) w2) as [Hw Hr].
    { unfold page_task. by rewrite (bind_run _ _ _ _ _ Hp). }
    simpl in Hw. rewrite <- Hstep in Hw, Hr. destruct (IH win' (fleet_step (f_page name) fl)) as [k Hk]; [by rewrite Hr | by rewrite Hw | done |].
    exists (S k). cbn [replicate fleet_run foldl]. rewrite Hr, Hc, He in Hk. exact Hk.
Qed.

Lemma windows_S rounds fuel c resume latest total w :
  windows name (S rounds) fuel c resume latest total w =
  if negb (wk_stopping (worker_of name w)) && (resume <=? latest) then
    (r ← processWindow name fuel c resume (Z.min (resume + ig_windowSize - 1) latest);
     match r with
     | Some n => windows name rounds fuel c (Z.min (resume + ig_windowSize - 1) latest + 1) latest (total + n)
     | None => mret None
     end) w
  else (inr (Some total), w).
Proof. cbn [windows]. rewrite (bind_run (gets _) _ w _ w eq_refl). by destruct (_ && _). Qed.

(** The windows of a contract, from the head of their loop. *)
Lemma windows_history rounds fuel c resume latest total range w0 fl task w out w' :
  open_window name c resume latest w0 = (inr task, w) → in_hand range task w fl →
  (r ← windows name rounds fuel c resume latest total; finish c r) w0 = (out, w') → out ≠ inr None →
  ∃ k, in_hand range None (handled_world c out w') (fleet_run (replicate k (f_page name)) fl).
Proof.
  revert resume total w0 fl task w. induction rounds as [| rounds IH]; intros resume total w0 fl task w Ho [Hw Hr] Hrun Hne; [injection Hrun as <- <-; done |].
  pose proof (windows_S rounds fuel c resume latest total w0) as Hs. unfold open_window in Ho. rewrite (bind_run (gets _) _ w0 _ w0 eq_refl) in Ho.
  destruct (negb _ && _); [| rewrite (bind_run _ _ _ _ _ Hs) in Hrun; injection Ho as <- <-; injection Hrun as <- <-; by exists 0%nat].
  injection Ho as <- <-. set (win := Window c resume (Z.min (resume + ig_windowSize - 1) latest) None [] 0) in *.
  change (processWindow name fuel c resume (Z.min (resume + ig_windowSize - 1) latest)) with (pages name fuel win) in Hs.
  destruct (pages name fuel win w0) as [out1 w1] eqn:Hp.
  assert (out1 ≠ inr None) as Hne1.
  { intros ->. rewrite (bind_run _ _ _ _ _ Hp) in Hs. rewrite (bind_run _ _ _ _ _ Hs) in Hrun. injection Hrun as <- <-. done. }
  destruct (pages_history fuel win latest fl out1 w1) as [k Hk]; [by rewrite Hr | by rewrite Hw | done |]. rewrite Hr in Hk. destruct out1 as [e | [n |]]; [| | done].
  - rewrite (bind_run_err _ _ _ _ _ Hp) in Hs. rewrite (bind_run_err _ _ _ _ _ Hs) in Hrun. injection Hrun as <- <-. by exists k.
  - rewrite (bind_run _ _ _ _ _ Hp) in Hs. destruct (open_window_runs c (wd_end win + 1) latest w1) as (task & w2 & Ho).
    destruct (IH (wd_end win + 1) (total + n) w1 (fleet_run (replicate k (f_page name)) fl) task w2 Ho (Hk _ _ Ho)) as [k' Hk'].
    + unfold mbind, M_bind in Hrun |- *. rewrite Hs in Hrun. exact Hrun.
    + done.
    + exists (k + k')%nat. by rewrite replicate_add, fleet_run_app.
Qed.

Lemma syncContract_history rounds fuel c range fl out w' :
  replica_of name fl = Replica (Some range) None → c ∈ ig_contractIds → ss_state (status_of name c (fl_world fl)) ≠ cs_halted →
  syncContract name rounds fuel c range (fl_world fl) = (out, w') → out ≠ inr None →
  ∃ ops, in_hand (Some range) None (handled_world c out w') (fleet_run ops fl).
Proof.
  intros Hr Hc Hh Hrun Hne. unfold syncContract in Hrun. pose (w1 := (set_status name c (with_state cs_syncing) (fl_world fl)).2).
  rewrite (bind_run (set_status _ _ _) _ _ () w1 eq_refl) in Hrun.
  assert (fleet_step (f_begin name c) fl = run_task name (guarded name c (begin_contract name c range)) fl) as Hstep.
  { unfold fleet_step. rewrite Hr, bool_decide_eq_true_2, bool_decide_eq_false_2 by done. done. }
  destruct (resumeLedger name c range w1) as [[? | resume] w1'] eqn:Hres; [done |]. assert (w1' = w1) as -> by (by injection Hres as _ <-).
  rewrite (bind_run _ _ _ _ _ Hres) in Hrun. unfold throw_if in Hrun. destruct (resume <? lg_oldestLedger range) eqn:Hgap.
  - rewrite (bind_run_err (throw _) _ w1 _ w1 eq_refl) in Hrun. injection Hrun as <- <-. exists [f_begin name c]. cbn [fleet_run foldl]. rewrite Hstep.
    pose proof (run_task_run c (begin_contract name c range) fl (inl (LedgerRetentionGapError c resume (lg_oldestLedger range))) w1) as H.
    rewrite Hr in H. apply H. unfold begin_contract. rewrite (bind_run (set_status _ _ _) _ _ () w1 eq_refl), (bind_run _ _ _ _ _ Hres). unfold throw_if. by rewrite Hgap.
  - rewrite (bind_run (mret ()) _ w1 _ w1 eq_refl) in Hrun. destruct (open_window_runs c resume (lg_latestLedger range) w1) as (task & w2 & Ho).
    pose proof (run_task_run c (begin_contract name c range) fl (inr task) w2) as H. rewrite Hr, <- Hstep in H.
    destruct (windows_history rounds fuel c resume (lg_latestLedger range) 0 (Some range) w1 (fleet_step (f_begin name c) fl) task w2 out w' Ho) as [k Hk]; [| done | done |].
    + apply H. unfold begin_contract. rewrite (bind_run (set_status _ _ _) _ _ () w1 eq_refl), (bind_run _ _ _ _ _ Hres). unfold throw_if. by rewrite Hgap.
    + by exists (f_begin name c :: replicate k (f_page name)).
Qed.

Lemma sync_contracts_history rounds fuel ids range fl out w' :
  replica_of name fl = Replica (Some range) None → (∀ c, c ∈ ids → c ∈ ig_contractIds) →
  sync_contracts name rounds fuel ids range (fl_world fl) = (out, w') → out ≠ inr None →
  ∃ ops, fl_world (fleet_run ops fl) = w'.
Proof.
  revert fl out w'. induction ids as [| c ids IH]; intros fl out w' Hr Hids Hrun Hne; [injection Hrun as _ <-; by exists [] |]. cbn [sync_contracts] in Hrun.
  rewrite (bind_run (gets _) _ _ _ _ eq_refl) in Hrun.
  assert (∀ fl1 ok, replica_of name fl1 = Replica (Some range) None →
    (rest_ok ← sync_contracts name rounds fuel ids range; mret (andb ok <$> rest_ok)) (fl_world fl1) = (out, w') → ∃ ops, fl_world (fleet_run ops fl1) = w') as Hrest.
  { intros fl1 ok Hr1 H. destruct (sync_contracts name rounds fuel ids range (fl_world fl1)) as [[e | rest_ok] w2] eqn:Hs.
    - rewrite (bind_run_err _ _ _ _ _ Hs) in H. injection H as _ <-. eapply (IH fl1); [done | intros; apply Hids; by right | exact Hs | done].
    - rewrite (bind_run _ _ _ _ _ Hs) in H. injection H as <- <-. eapply (IH fl1); [done | intros; apply Hids; by right | exact Hs |]. intros [= ->]. by apply Hne. }
  destruct (decide (ss_state (status_of name c (fl_world fl)) = cs_halted)) as [Hh | Hh].
  { rewrite bool_decide_eq_true_2 in Hrun by done. rewrite (bind_run (mret _) _ _ _ _ eq_refl) in Hrun. by apply (Hrest fl true). }
  rewrite bool_decide_eq_false_2 in Hrun by done. destruct (syncContract name rounds fuel c range (fl_world fl)) as [out1 w1] eqn:Hs.
  destruct (decide (out1 = inr None)) as [-> | Hne1].
  { exfalso. apply Hne. erewrite bind_run in Hrun; [| unfold try_catch; by rewrite (bind_run _ _ _ _ _ Hs)]. by injection Hrun as <- <-. }
  destruct (syncContract_history rounds fuel c range fl out1 w1 Hr (Hids c ltac:(by left)) Hh Hs Hne1) as (ops & Hw & Hr1).
  assert (∃ ok, (rest_ok ← sync_contracts name rounds fuel ids range; mret (andb ok <$> rest_ok)) (fl_world (fleet_run ops fl)) = (out, w')) as [ok Hok].
  { rewrite Hw. destruct out1 as [e | [n |]]; [exists false | exists true | done].
    - erewrite bind_run in Hrun; [| unfold try_catch; by rewrite (bind_run_err _ _ _ _ _ Hs), (bind_run _ _ _ _ _ (handleContractError_runs c e w1))]. exact Hrun.
    - erewrite bind_run in Hrun; [| unfold try_catch; by rewrite (bind_run _ _ _ _ _ Hs)]. exact Hrun. }
  destruct (Hrest _ ok Hr1 Hok) as [ops' Hops']. exists (ops ++ ops'). by rewrite fleet_run_app.
Qed.

(** A cycle of a worker is a sequence of the steps: whatever [syncOnce] does to the
    world, returning or throwing, a history of steps of this worker does. *)
Theorem syncOnce_history rounds fuel fl out w' :
  rc_task (replica_of name fl) = None → syncOnce name rounds fuel (fl_world fl) = (out, w') → out ≠ inr None →
  ∃ ops, fl_world (fleet_run ops fl) = w'.
Proof.
  intros Ht Hrun Hne. unfold syncOnce in Hrun.
  assert ((range ← begin_cycle name; sync_contracts name rounds fuel ig_contractIds range) (fl_world fl) = (out, w')) as Hrun'.
  { rewrite (bind_run (gets _) _ _ _ _ eq_refl) in Hrun.
    pose (load := if bool_decide (wk_checkpoints (worker_of name (fl_world fl)) = []) then loadCheckpoints name else mret ()).
    change ((load;; range ← getLedgerRange; sync_contracts name rounds fuel ig_contractIds range) (fl_world fl) = (out, w')) in Hrun.
    assert (begin_cycle name (fl_world fl) = (load;; getLedgerRange) (fl_world fl)) as Hb by done.
    unfold mbind, M_bind in Hrun, Hb |- *. rewrite Hb. revert Hrun. destruct (load (fl_world fl)) as [[e | []] w1]; [done |].
    by destruct (getLedgerRange w1) as [[e | range] w2]. }
  clear Hrun. destruct (begin_cycle name (fl_world fl)) as [[e | range] w1] eqn:Hb.
  - rewrite (bind_run_err _ _ _ _ _ Hb) in Hrun'. injection Hrun' as _ <-. exists [f_cycle name]. cbn [fleet_run foldl fleet_step]. by rewrite Ht, Hb.
  - rewrite (bind_run _ _ _ _ _ Hb) in Hrun'.
    destruct (sync_contracts_history rounds fuel ig_contractIds range (with_replica name (Replica (Some range) None) w1 fl) out w') as [ops Hops]; [| done | done | done |].
    + unfold replica_of. simpl. by rewrite jget_jset_eq.
    + exists (f_cycle name :: ops). cbn [fleet_run foldl fleet_step]. by rewrite Ht, Hb.
Qed.
End history.

(** ** A cycle reaches the tip *)

(** From this call on the database and the node answer, and no processor refuses. *)
Record all_up `{IE : IngestionEnv} (w : iworld) : Prop := {
  up_fate n : (iw_calls w ≤ n)%nat → ig_fate n = CallOk;
  up_rpc n request : (iw_calls w ≤ n)%nat → ∃ reply result, rpc_fetch n request = inr reply ∧ good_reply reply = Some result;
  up_processors handled events : processor_error handled events = None
}.

Section live.
Context `{IE : IngestionEnv} (chain : list LedgerEvent) (tip : nat → Z) (position : string → nat) `{!ChainLaws IE chain tip position} (name : string).
Implicit Types w : iworld.

Notation world_ok := (world_ok chain).
Notation window_ok := (window_ok chain tip position).
Notation source := (source chain).
Notation offset := (offset chain position).

Lemma up_later w w' : (iw_calls w ≤ iw_calls w')%nat → all_up w → all_up w'.
Proof. intros Hc [H1 H2 H3]. split; [intros n Hn; apply H1; lia | intros n r Hn; apply H2; lia | done]. Qed.

Lemma call_ingestion {A} (f : iworld → A * iworld) w : all_up w → call f w = (inr (f (tick w)).1, (f (tick w)).2).
Proof.
  intros Hup. unfold call. change (next_fate w) with (ig_fate (iw_calls w)). rewrite (up_fate _ Hup) by done. by destruct (f (tick w)).
Qed.

(** A program returns, and its calls are counted. *)
Definition returns {A} (c : M iworld A) w : Prop := ∃ a w', c w = (inr a, w') ∧ (iw_calls w ≤ iw_calls w')%nat.
Definition live {A} (c : M iworld A) : Prop := ∀ w, all_up w → returns c w.

Lemma live_ret {A} (a : A) : live (mret a).
Proof. intros w _. by exists a, w. Qed.

Lemma live_call {A} (f : iworld → A * iworld) : (∀ w, (iw_calls w ≤ iw_calls (f w).2)%nat) → live (call f).
Proof. intros Hf w Hup. unfold returns. rewrite (call_ingestion f w Hup). eexists _, _. split; [done |]. specialize (Hf (tick w)). simpl in *. lia. Qed.

Lemma returns_bind {A B} (c : M iworld A) (k : A → M iworld B) w :
  all_up w → returns c w → (∀ a w', c w = (inr a, w') → all_up w' → returns (k a) w') → returns (c ≫= k) w.
Proof.
  intros Hup (a & w1 & Hc & Hle) Hk. destruct (Hk a w1 Hc (up_later _ _ Hle Hup)) as (b & w2 & Hb & Hle2).
  exists b, w2. split; [by rewrite (bind_run _ _ _ _ _ Hc) | lia].
Qed.

Lemma live_bind {A B} (c : M iworld A) (k : A → M iworld B) : live c → (∀ a, live (k a)) → live (c ≫= k).
Proof. intros Hc Hk w Hup. apply returns_bind; [done | by apply Hc |]. intros a w' _ Hup'. by apply Hk. Qed.

Lemma live_gets {A} (f : iworld → A) : live (gets f).
Proof. intros w _. by exists (f w), w. Qed.

Lemma live_store_batch events : live (store_batch events).
Proof.
  unfold store_batch. destruct events as [| e l]; [apply live_ret |]. apply live_bind; [by apply live_call |]. intros _.
  apply live_bind; [apply live_bind; [by apply live_call | intros ?; apply live_ret] |]. intros processed. apply live_bind; [| intros _; apply live_ret].
  unfold run_processors. destruct processed; [apply live_ret |]. intros w Hup. apply returns_bind; [done | by apply live_gets |].
  intros h w' _ Hup'. rewrite (up_processors _ Hup'). by apply live_call.
Qed.

Lemma commit_statements_returns input w :
  all_up w → sameWatermark (stored_checkpoint (bi_contractId input) w) (bi_expected input) = true → returns (commit_statements input) w.
Proof.
  intros Hup Hs. apply returns_bind; [done | by apply live_call |]. intros [] w1 H1 Hup1. apply write_inr in H1.
  apply returns_bind; [done | by apply live_call |]. intros st w2 H2 Hup2. apply ask_inr in H2 as [-> ->].
  assert (stored_checkpoint (bi_contractId input) (tick w1) = stored_checkpoint (bi_contractId input) w) as ->.
  { subst w1. unfold stored_checkpoint. simpl. destruct (jget _ (iw_rows w)) eqn:Hj; [by rewrite Hj |]. by rewrite jget_jset_eq. }
  rewrite Hs. apply returns_bind; [done | by apply live_ret |]. intros [] w3 _ Hup3.
  apply live_bind; [apply live_store_batch | | done]. intros processed. apply live_bind; [apply live_gets |]. intros now.
  apply live_bind; [by apply live_call | intros _; apply live_ret].
Qed.

(** The events of the chain pass the checks of a batch. *)
Lemma event_error_none c through previous l :
  StronglySorted before l → (∀ e, e ∈ l → le_contractId e = c ∧ le_ledger e ≤ through) →
  (∀ p e, previous = Some p → e ∈ l → before p e) → event_error c through previous l = None.
Proof.
  intros Hs. revert previous. induction Hs as [| e l Hl IH Hall]; intros previous Hin Hprev; [done |]. cbn [event_error]. destruct (Hin e) as [<- Hled]; [by left |].
  rewrite String.eqb_refl. simpl. destruct (Z.ltb_spec through (le_ledger e)); [lia |].
  assert (match previous with Some p => negb (bool_decide (compareLedgerEvents p e = Lt)) | None => false end = false) as ->.
  { destruct previous as [p |]; [| done]. apply negb_false_iff, bool_decide_eq_true_2. apply Hprev; [done | by left]. }
  apply IH; [intros x Hx; apply Hin; by right |]. intros p x [= <-] Hx. rewrite Forall_forall in Hall. by apply Hall.
Qed.

Lemma commitBatch_returns input w next :
  all_up w → sameWatermark (stored_checkpoint (bi_contractId input) w) (bi_expected input) = true → resumes (bi_expected input) next →
  next ≤ bi_throughLedger input + 1 → bi_events input = between chain (bi_contractId input) next (bi_throughLedger input) → returns (commitBatch input) w.
Proof.
  intros Hup Hs Hr Hle Hev. unfold commitBatch. pose proof (resumes_positive _ _ Hr) as Hpos.
  assert (assertCommitInput (S := iworld) input w = (inr (), w)) as Ha.
  { unfold assertCommitInput, throw_if, watermark_of. destruct (Z.ltb_spec (bi_throughLedger input) (default 0 (cp_lastProcessedLedger <$> bi_expected input))) as [Hlt |].
    - destruct (bi_expected input) as [cp |]; simpl in *; lia.
    - rewrite Hev, event_error_none; [done | apply sorted_filter, (sorted_chain chain tip position) | | done]. intros e (_ & ? & ?)%(elem_between chain). split; [done | lia]. }
  apply returns_bind; [done | by exists (), w |]. intros [] w' Ha' _. rewrite Ha in Ha'. injection Ha' as <-.
  assert (all_up (tick w)) as Hup1 by (apply (up_later w); [simpl; lia | done]).
  destruct (commit_statements_returns input (tick w) Hup1 Hs) as (res & w1 & Hc & Hcalls). simpl in Hcalls.
  exists res, (tick w1). split; [| simpl; lia]. unfold transaction, ask. rewrite (bind_run _ _ _ _ _ (call_ingestion _ w Hup)). simpl.
  change (count_ingestion_call w) with (tick w). rewrite Hc. change (next_fate w1) with (ig_fate (iw_calls w1)). by rewrite (up_fate _ Hup) by lia.
Qed.

Lemma worker_commit_returns c through events w next :
  all_up w → world_ok w → in_step name c w → resumes (checkpoint_of name c w) next → next ≤ through + 1 → events = between chain c next through →
  returns (worker_commit name c through events) w.
Proof.
  intros Hup Hw Hs Hr Hle Hev. unfold worker_commit. apply returns_bind; [done | by apply live_gets |]. intros cp w' [= <- <-] _.
  destruct (_ && _); [by apply live_ret |].
  apply returns_bind; [done | by apply (commitBatch_returns {| bi_contractId := c; bi_expected := checkpoint_of name c w; bi_throughLedger := through; bi_events := events |} w next) |].
  intros res w1 _ Hup1. apply live_bind; [intros w2 _; by eexists _, _ | | done]. intros _. apply live_bind; [intros w2 _; by eexists _, _ |]. intros _.
  apply live_bind; [| intros _; apply live_ret]. destruct (bool_decide _); [apply live_ret |]. intros w2 Hup2.
  destruct (live_call (λ s, ((), fan_out (br_processed res) s)) (λ s, le_n _) w2 Hup2) as (a & w3 & Hc & Hle3).
  exists a, w3. split; [| done]. unfold try_catch, write. by rewrite Hc.
Qed.

(** The flag of [stop]. *)
Definition same_stopping w w' : Prop := wk_stopping (worker_of name w') = wk_stopping (worker_of name w).
#[local] Instance same_stopping_preorder : PreOrder same_stopping.
Proof. split; [done |]. unfold same_stopping. intros w1 w2 w3 H1 H2. congruence. Qed.

Lemma set_worker_stopping f w : (∀ k, wk_stopping (f k) = wk_stopping k) → same_stopping w (set_worker name f w).
Proof. intros Hf. unfold same_stopping, worker_of. simpl. rewrite jget_jset_eq. simpl. by rewrite Hf. Qed.

Lemma page_stopping win : evolves same_stopping (page name win).
Proof.
  assert (∀ c through events, evolves same_stopping (worker_commit name c through events)) as Hcommit.
  { intros c through events. unfold worker_commit. apply evolves_bind; [apply _ | apply evolves_gets, _ |]. intros cp. destruct (_ && _); [apply evolves_ret, _ |].
    apply evolves_bind; [apply _ | |].
    - unfold commitBatch. apply evolves_bind; [apply _ | |].
      + unfold assertCommitInput. apply evolves_bind; [apply _ | apply evolves_throw_if, _ |]. intros _. destruct (event_error _ _ _ _); [apply evolves_throw, _ | apply evolves_ret, _].
      + intros _ w. destruct (transaction_cases (H := ingestion_database) off_tables (commit_statements {| bi_contractId := c; bi_expected := cp; bi_throughLedger := through; bi_events := events |}) w off_tables_tick (commit_statements_off _)) as [(e & w1 & (Hm & _) & ->) | (res & w1 & r & Hb & -> & _)].
        * unfold same_stopping, worker_of. simpl. by rewrite Hm.
        * assert (off_tables (tick w) w1) as (Hm & _) by (change w1 with (snd (inr res : exn + CommitBatchResult, w1)); rewrite <- Hb; apply commit_statements_off).
          unfold same_stopping, worker_of. simpl. by rewrite Hm.
    - intros res. apply evolves_bind; [apply _ | intros w; by apply set_worker_stopping |]. intros _. apply evolves_bind; [apply _ | intros w; by apply set_worker_stopping |].
      intros _. apply evolves_bind; [apply _ | | intros _; apply evolves_ret, _]. destruct (bool_decide _); [apply evolves_ret, _ |].
      apply evolves_try; [apply _ | by apply write_evolves; [apply _ | |] | intros _; apply evolves_ret, _]. }
  unfold page. apply evolves_bind; [apply _ | intros w; by rewrite getEventsWindow_state |]. intros result. cbv zeta.
  destruct (_ || _); (apply evolves_bind; [apply _ | apply Hcommit | intros n; apply evolves_ret, _]).
Qed.

Lemma rpc_call_returns request w : all_up w → ∃ reply result, rpc_fetch (iw_calls w) request = inr reply ∧ good_reply reply = Some result ∧ rpc_call request w = (inr result, tick w).
Proof.
  intros Hup. destruct (up_rpc _ Hup (iw_calls w) request ltac:(lia)) as (reply & result & Hf & Hg). exists reply, result. split; [done |]. split; [done |].
  unfold rpc_call, answer, throw_if, some_or_throw, gets, modify, mbind, M_bind. simpl. rewrite Hf. unfold good_reply in Hg.
  destruct ((200 <=? rp_status reply) && (rp_status reply <? 300)); [| done]. simpl. destruct (rb_error _); [done |]. by rewrite Hg.
Qed.

Lemma getEventsWindow_returns p w : all_up w → returns (getEventsWindow p) w.
Proof.
  intros Hup. destruct (rpc_call_returns (events_request p) w Hup) as (reply & result & _ & _ & Hc). unfold returns, getEventsWindow. rewrite (bind_run _ _ _ _ _ Hc).
  destruct result; eexists _, _; (split; [done | simpl; lia]).
Qed.

(** A round returns, whatever page it gets. *)
Lemma page_returns win w : all_up w → world_ok w → window_ok name win w → in_step name (wd_contract win) w → returns (page name win) w.
Proof.
  intros Hup Hw (Ht & Hcur & next & Hr & [Hs He] & Hcarry & Hd) Hin.
  destruct (getEventsWindow_returns {| gw_contractId := wd_contract win; gw_startLedger := wd_start win; gw_endLedger := wd_end win;
    gw_cursor := wd_cursor win; gw_limit := ig_pageSize |} w Hup) as (result & w1 & Hg & _).
  assert (w1 = tick w) as -> by (change w1 with (snd (inr result : exn + GetEventsWindowResult, w1)); rewrite <- Hg; apply getEventsWindow_state).
  assert (all_up (tick w)) as Hup1 by (apply (up_later w); [simpl; lia | done]). pose proof (tick_world_ok _ _ Hw) as Hw1. unfold returns.
  destruct (page_run chain tip position name win w next result Ht Hcur Hs Hcarry Hd Hg) as [-> | (x & cur & [Hx1 Hx2] & _ & _ & _ & _ & ->)].
  - destruct (worker_commit_returns (wd_contract win) (wd_end win) _ (tick w) next Hup1 Hw1 Hin Hr ltac:(lia) eq_refl) as (n & w2 & Hc & Hle).
    rewrite (bind_run _ _ _ _ _ Hc). eexists _, w2. split; [done | simpl in Hle; lia].
  - destruct (worker_commit_returns (wd_contract win) (x - 1) _ (tick w) next Hup1 Hw1 Hin Hr ltac:(lia) eq_refl) as (n & w2 & Hc & Hle).
    rewrite (bind_run _ _ _ _ _ Hc). eexists _, w2. split; [done | simpl in Hle; lia].
Qed.

(** Work on a contract that has committed everything below [next]. *)
Record synced (c : string) (next : Z) w w' : Prop := {
  sy_world : world_ok w';
  sy_mine : mine name w w';
  sy_advances : advances name c w w';
  sy_stopping : same_stopping w w';
  sy_next : resumes (checkpoint_of name c w') next
}.

Lemma synced_trans c next next' w1 w2 w3 : synced c next w1 w2 → synced c next' w2 w3 → synced c next' w1 w3.
Proof. intros [] []. split; [done | by etrans | by etrans | by etrans | done]. Qed.

(** The memory and the window after a round. *)
Lemma page_up win w :
  all_up w → world_ok w → window_ok name win w → in_step name (wd_contract win) w →
  ∃ x w', page name win w = (inr x, w') ∧ world_ok w' ∧ mine name w w' ∧ advances name (wd_contract win) w w' ∧ same_stopping w w' ∧
  match x with
  | inl _ => resumes (checkpoint_of name (wd_contract win) w') (wd_end win + 1)
  | inr win' => window_ok name win' w' ∧ source win' = source win ∧ wd_end win' = wd_end win ∧ wd_contract win' = wd_contract win ∧
      offset win' = (offset win + ig_pageSize)%nat ∧ (offset win' ≤ length (source win))%nat
  end.
Proof.
  intros Hup Hw Hwin Hin. destruct (page_returns win w Hup Hw Hwin Hin) as (x & w' & Hrun & _). exists x, w'.
  pose proof (page_ok chain tip position name win w Hw Hwin) as Hp. pose proof (page_stopping win w) as Hs. rewrite Hrun in Hp, Hs. destruct Hp as (A1 & A2 & A3 & A4 & A5).
  split; [done |]. split; [done |]. split; [done |]. split; [by apply (A3 x) |]. split; [done |]. destruct x as [n | win']; [by apply (A4 n) | by apply A5].
Qed.

Lemma pages_up fuel win w :
  all_up w → world_ok w → window_ok name win w → in_step name (wd_contract win) w → (length (source win) - offset win < fuel)%nat →
  ∃ n w', pages name fuel win w = (inr (Some n), w') ∧ synced (wd_contract win) (wd_end win + 1) w w'.
Proof.
  revert win w. induction fuel as [| fuel IH]; intros win w Hup Hw Hwin Hin Hfuel; [lia |].
  destruct (page_up win w Hup Hw Hwin Hin) as ([n | win'] & w1 & Hrun & H1 & H2 & H3 & H4 & H5).
  - exists n, w1. cbn [pages]. by rewrite (bind_run _ _ _ _ _ Hrun).
  - destruct H5 as (Hwin' & Hsrc & Hend & Hc & Hoff & Hlen). pose proof law_pageSize as Hps.
    destruct (IH win' w1) as (n & w2 & Hp & Hs); [apply (up_later w); [apply H2 | done] | done | done | rewrite Hc; by apply H3 | rewrite Hsrc, Hoff in *; lia |].
    exists n, w2. cbn [pages]. rewrite (bind_run _ _ _ _ _ Hrun). split; [done |]. rewrite Hc, Hend in Hs. destruct Hs as [S1 S2 S3 S4 S5].
    split; [done | by etrans | by etrans | by etrans | done].
Qed.

Lemma source_length win : (length (source win) ≤ length chain)%nat.
Proof. apply List.filter_length_le. Qed.

Lemma windows_up rounds fuel c resume latest total w :
  all_up w → world_ok w → in_step name c w → wk_stopping (worker_of name w) = false → resumes (checkpoint_of name c w) resume →
  latest ≤ tip (iw_calls w) → (Z.to_nat (latest + 1 - resume) < rounds)%nat → (length chain < fuel)%nat →
  ∃ n w', windows name rounds fuel c resume latest total w = (inr (Some n), w') ∧ synced c (Z.max resume (latest + 1)) w w'.
Proof.
  revert resume total w. induction rounds as [| rounds IH]; intros resume total w Hup Hw Hin Hstop Hr Ht Hrounds Hfuel; [lia |].
  rewrite windows_S, Hstop. simpl. destruct (Z.leb_spec resume latest) as [Hle | Hgt].
  - pose proof (law_windowSize (ChainLaws := ltac:(eassumption))) as Hws. set (wend := Z.min (resume + ig_windowSize - 1) latest).
    pose (win := Window c resume wend None [] 0). pose proof (source_length win) as Hsl.
    assert (resume ≤ wend ≤ latest) as [Hw1 Hw2] by (unfold wend; lia).
    assert (window_ok name win w) as Hwin by (apply (window_start chain tip position); [done | done | lia]).
    destruct (pages_up fuel win w Hup Hw Hwin) as (n & w1 & Hp & Hs); [done | lia |].
    unfold processWindow. fold win. rewrite (bind_run _ _ _ _ _ Hp). destruct Hs as [S1 S2 S3 S4 S5]. simpl in S3, S5.
    destruct (IH (wend + 1) (total + n) w1) as (n' & w2 & Hws' & Hs'); try done.
    + apply (up_later w); [apply S2 | done].
    + by apply S3.
    + unfold same_stopping in S4. congruence.
    + etrans; [exact Ht | apply law_tip, S2].
    + unfold wend. lia.
    + exists n', w2. split; [done |]. eapply (synced_trans c (wend + 1) _ w w1); [by split |]. replace (Z.max resume (latest + 1)) with (Z.max (wend + 1) (latest + 1)) by (unfold wend; lia). done.
  - exists total, w. split; [done |]. split; [done | done | done | done |]. by replace (Z.max resume (latest + 1)) with resume by lia.
Qed.

Lemma set_status_synced c f next w : world_ok w → resumes (checkpoint_of name c w) next → synced c next w (set_status name c f w).2.
Proof.
  intros Hw Hr. split; [by apply set_status_ok | apply set_status_mine | | by apply set_worker_stopping | by rewrite set_status_checkpoint].
  split; [unfold in_step; by rewrite set_status_checkpoint |]. intros c' Hne. rewrite set_status_checkpoint, set_status_other by done. done.
Qed.

(** Where a contract resumes. *)
Definition resume_at (c : string) (range : LedgerRange) w : Z :=
  match checkpoint_of name c w with Some cp => cp_lastProcessedLedger cp + 1 | None => default (lg_oldestLedger range) ig_initialLedger end.

Lemma resume_at_resumes c range w : world_ok w → 1 ≤ lg_oldestLedger range → resumes (checkpoint_of name c w) (resume_at c range w).
Proof.
  intros Hw Ho. unfold resume_at. destruct (checkpoint_of name c w) as [cp |] eqn:Hcp; simpl; [apply (wo_workers _ _ Hw) in Hcp; lia |].
  destruct ig_initialLedger as [i |] eqn:Hi; simpl; split; [by apply law_initial | intros; congruence | exact Ho | intros; congruence].
Qed.

Lemma syncContract_up rounds fuel c range w :
  all_up w → world_ok w → in_step name c w → wk_stopping (worker_of name w) = false → range_ok tip range w → lg_oldestLedger range ≤ resume_at c range w →
  (Z.to_nat (lg_latestLedger range) < rounds)%nat → (length chain < fuel)%nat →
  ∃ n next w', syncContract name rounds fuel c range w = (inr (Some n), w') ∧ lg_latestLedger range < next ∧ synced c next w w'.
Proof.
  intros Hup Hw Hin Hstop [Hl Ho] Hgap Hrounds Hfuel. pose proof (resume_at_resumes c range w Hw Ho) as Hr. pose proof (resumes_positive _ _ Hr) as Hpos.
  pose (w1 := (set_status name c (with_state cs_syncing) w).2). pose proof (set_status_synced c (with_state cs_syncing) _ w Hw Hr) as S1. fold w1 in S1. destruct S1 as [A1 A2 A3 A4 A5].
  assert (resume_at c range w1 = resume_at c range w) as Hsame by (unfold resume_at, w1; by rewrite set_status_checkpoint).
  unfold syncContract. rewrite (bind_run (set_status _ _ _) _ _ () w1 eq_refl), (bind_run (resumeLedger _ _ _) _ _ (resume_at c range w1) w1 eq_refl), Hsame.
  unfold throw_if. destruct (Z.ltb_spec (resume_at c range w) (lg_oldestLedger range)); [lia |]. rewrite (bind_run (mret ()) _ w1 _ w1 eq_refl).
  destruct (windows_up rounds fuel c (resume_at c range w) (lg_latestLedger range) 0 w1) as (n & w2 & Hrun & Hs); try done.
  - apply (up_later w); [apply A2 | done].
  - by apply A3.
  - unfold same_stopping in A4. congruence.
  - lia.
  - rewrite (bind_run _ _ _ _ _ Hrun). exists n, (Z.max (resume_at c range w) (lg_latestLedger range + 1)). eexists. split; [done |]. split; [lia |].
    eapply (synced_trans c _ _ w w1); [by split |]. eapply (synced_trans c _ _ w1 w2); [done |]. apply (set_status_synced c (λ s, with_error None (with_state cs_idle s)) _ w2); apply Hs.
Qed.

Lemma sync_contracts_up rounds fuel ids range w :
  all_up w → world_ok w → wk_stopping (worker_of name w) = false → range_ok tip range w → NoDup ids →
  (∀ c, c ∈ ids → in_step name c w ∧ lg_oldestLedger range ≤ resume_at c range w ∧ ss_state (status_of name c w) ≠ cs_halted) →
  (Z.to_nat (lg_latestLedger range) < rounds)%nat → (length chain < fuel)%nat →
  ∃ w', sync_contracts name rounds fuel ids range w = (inr (Some true), w') ∧ world_ok w' ∧
    (∀ c, c ∈ ids → in_step name c w' ∧ ∃ next, lg_latestLedger range < next ∧ resumes (checkpoint_of name c w') next) ∧
    ∀ c, c ∉ ids → stored_checkpoint c w' = stored_checkpoint c w ∧ checkpoint_of name c w' = checkpoint_of name c w.
Proof.
  intros Hup Hw Hstop Hrange Hnd Hids Hrounds Hfuel. revert w Hup Hw Hstop Hrange Hids. induction Hnd as [| c ids Hc Hnd IH]; intros w Hup Hw Hstop Hrange Hids.
  { exists w. split; [done |]. split; [done |]. split; [by intros c ?%elem_of_nil | done]. }
  destruct (Hids c) as (Hin & Hgap & Hh); [by left |]. destruct (syncContract_up rounds fuel c range w) as (n & next & w1 & Hrun & Hnext & [S1 S2 S3 S4 S5]); try done.
  destruct (IH w1) as (w2 & Hrun2 & H2 & H3 & H4).
  - apply (up_later w); [apply S2 | done].
  - done.
  - unfold same_stopping in S4. congruence.
  - apply (range_later _ tip _ range w); [apply S2 | done].
  - intros c' Hc'. destruct (Hids c') as (B1 & B2 & B3); [by right |]. destruct S3 as [_ S3]. destruct (S3 c') as (C1 & C2 & C3); [set_solver |].
    unfold in_step, resume_at. by rewrite C1, C2, C3.
  - exists w2. cbn [sync_contracts]. rewrite (bind_run (gets _) _ _ _ _ eq_refl), bool_decide_eq_false_2 by done.
    split; [erewrite bind_run; [| unfold try_catch; by rewrite (bind_run _ _ _ _ _ Hrun)]; simpl; by rewrite (bind_run _ _ _ _ _ Hrun2) |].
    split; [done |]. split.
    + intros c' [-> | Hc']%elem_of_cons; [| by apply H3]. destruct (H4 c Hc) as [D1 D2]. unfold in_step. rewrite D1, D2. split; [by apply S3 | by exists next].
    + intros c' Hc'. destruct (H4 c') as [D1 D2]; [set_solver |]. destruct S3 as [_ S3]. destruct (S3 c') as (C1 & C2 & _); [set_solver |]. rewrite D1, D2. done.
Qed.

(** ** A restart in the same state *)

Lemma jget_omap {V} (g : string → option V) c l : c ∈ l → jget c (omap (λ c', pair c' <$> g c') l : list (string * V)) = g c.
Proof.
  intros Hc. destruct (g c) as [v |] eqn:Hg.
  - induction l as [| x l IH]; [by apply elem_of_nil in Hc |]. cbn [omap list_omap]. destruct (decide (c = x)) as [<- | Hne].
    + rewrite Hg. simpl. by rewrite String.eqb_refl.
    + apply elem_of_cons in Hc as [? | Hc]; [done |]. destruct (g x) as [u |]; simpl; [destruct (String.eqb_spec c x); [done |] |]; by apply IH.
  - apply eq_None_not_Some. intros [v Hv]. apply jget_elem, list_elem_of_omap in Hv as (c' & _ & Hc'). apply fmap_Some in Hc' as (u & Hu & [= -> ->]). congruence.
Qed.

(** What a worker knows after it loaded the checkpoints of [ids]. *)
Record knows (g : string → option IngestionCheckpoint) (ids : list string) w w' : Prop := {
  kn_off : iw_rows w' = iw_rows w ∧ iw_events w' = iw_events w ∧ iw_calls w' = iw_calls w;
  kn_stopping : same_stopping w w';
  kn_known : ids ≠ [] ∨ wk_checkpoints (worker_of name w) ≠ [] → wk_checkpoints (worker_of name w') ≠ [];
  kn_loaded c : c ∈ ids → checkpoint_of name c w' = g c ∧ ss_state (status_of name c w') = cs_idle;
  kn_others c : c ∉ ids → checkpoint_of name c w' = checkpoint_of name c w ∧ status_of name c w' = status_of name c w
}.

Lemma load_knows g ids w : NoDup ids →
  ∃ w', for_each ids (λ c, set_checkpoint name c (g c);; set_status name c (λ _, {| ss_state := cs_idle; ss_checkpoint := g c; ss_lastError := None |})) w = (inr (), w') ∧
  knows g ids w w'.
Proof.
  intros Hnd. revert w. induction Hnd as [| c ids Hc Hnd IH]; intros w; [exists w; split; [done |]; split; [done | done | by intros [? |] | by intros c ?%elem_of_nil | done] |].
  pose (w1 := (set_checkpoint name c (g c) w).2). pose (w2 := (set_status name c (λ _, {| ss_state := cs_idle; ss_checkpoint := g c; ss_lastError := None |}) w1).2).
  destruct (IH w2) as (w' & Hrun & [(K1 & K1' & K1'') K2 K0 K3 K4]). exists w'. cbn [for_each]. split.
  { erewrite bind_run; [exact Hrun |]. by rewrite (bind_run (set_checkpoint _ _ _) _ _ () w1 eq_refl). }
  destruct (K4 c Hc) as [E1 E2]. split; [done | | | |].
  - etrans; [| exact K2]. etrans; by apply set_worker_stopping.
  - intros _. apply K0. right. unfold w2, w1, worker_of. simpl. rewrite jget_jset_eq. simpl. rewrite jget_jset_eq. simpl. intros Hnil.
    pose proof (jget_jset_eq c (g c) (wk_checkpoints (default (Worker [] [] false) (jget name (iw_workers w))))) as Hj. by rewrite Hnil in Hj.
  - intros c' [-> | Hc']%elem_of_cons; [| by apply K3]. rewrite E1, E2. unfold w2. rewrite set_status_checkpoint. unfold w1. rewrite set_checkpoint_checkpoint. split; [done |].
    unfold status_of, worker_of. simpl. rewrite jget_jset_eq. simpl. by rewrite jget_jset_eq.
  - intros c' Hc'. destruct (K4 c') as [F1 F2]; [set_solver |]. rewrite F1, F2. unfold w2, w1. rewrite set_status_checkpoint, set_status_other by set_solver.
    rewrite set_checkpoint_other, set_checkpoint_status by set_solver. done.
Qed.

Lemma restart_up w : all_up w → NoDup ig_contractIds → ig_contractIds ≠ [] →
  ∃ w', restart name w = (inr (), w') ∧ iw_rows w' = iw_rows w ∧ iw_events w' = iw_events w ∧ iw_calls w' = S (iw_calls w) ∧
    wk_stopping (worker_of name w') = false ∧ wk_checkpoints (worker_of name w') ≠ [] ∧
    ∀ c, c ∈ ig_contractIds → checkpoint_of name c w' = stored_checkpoint c w ∧ ss_state (status_of name c w') = cs_idle.
Proof.
  intros Hup Hnd Hne. pose (w0 := set_worker name (λ _, Worker [] [] false) w). assert (all_up w0) as Hup0 by (by apply (up_later w)).
  unfold restart. rewrite (bind_run (modify (set_worker name (λ _, Worker [] [] false))) _ w () w0 eq_refl). unfold loadCheckpoints.
  set (loaded := omap (λ c, pair c <$> stored_checkpoint c (tick w0)) (uniq ig_contractIds) : list (string * IngestionCheckpoint)).
  assert (loadAll ig_contractIds w0 = (inr loaded, tick w0)) as Hl.
  { unfold loadAll, loaded. destruct ig_contractIds; [done |]. unfold ask. by rewrite (call_ingestion _ _ Hup0). }
  rewrite (bind_run _ _ _ _ _ Hl). destruct (load_knows (λ c, jget c loaded) ig_contractIds (tick w0) Hnd) as (w' & Hrun & [(K1 & K2 & K3) K4 K5 K6 _]).
  exists w'. split; [exact Hrun |]. split; [done |]. split; [done |]. split; [done |]. split; [rewrite K4; unfold worker_of; simpl; by rewrite jget_jset_eq |].
  split; [apply K5; by left |]. intros c Hc. destruct (K6 c Hc) as [-> ->]. split; [| done]. unfold loaded. by rewrite jget_omap by (by apply elem_of_uniq).
Qed.

(** C25. When the database and the node answer, nobody else writes, and the node still has
    every ledger that is missing (its oldest one is at most the one after the checkpoint
    of each contract, or the one to begin with), a worker that restarts, after any
    history, takes every contract to the tip in one cycle: the cycle ends without an
    error, and the database holds every event of the contract from where its ingestion
    began up to the latest ledger the node reported. Behind a retention gap the code halts
    the contract instead. *)
Theorem sync_catches_up ops now latest oldest rounds fuel :
  let w := fl_world (fleet_run ops (Fleet (empty_iworld now) [])) in
  all_up w → NoDup ig_contractIds → ig_contractIds ≠ [] →
  (∀ reply, rpc_fetch (S (iw_calls w)) getHealth = inr reply → good_reply reply = Some (RHealth (Some latest) (Some oldest))) →
  (∀ c, c ∈ ig_contractIds → oldest ≤ match stored_checkpoint c w with
                                      | Some cp => cp_lastProcessedLedger cp + 1
                                      | None => default oldest ig_initialLedger
                                      end) →
  (Z.to_nat latest < rounds)%nat → (length chain < fuel)%nat →
  ∃ w', (restart name;; syncOnce name rounds fuel) w = (inr (Some true), w') ∧
  ∀ c, c ∈ ig_contractIds → ∃ s m, begins s ∧ latest ≤ m ∧
    List.filter (λ e, String.eqb (le_contractId e) c) (iw_events w') = between chain c s m.
Proof.
  intros w Hup Hnd Hne Hhealth Hgap Hrounds Hfuel. pose proof (fo_world _ _ _ _ (fleet_run_ok chain tip position ops _ (empty_fleet_ok chain tip position now))) as Hw. fold w in Hw.
  destruct (restart_up w Hup Hnd Hne) as (w1 & Hr & R1 & R2 & R3 & R4 & R5 & R6).
  assert (world_ok w1) as Hw1. { pose proof (restart_keeps chain name w) as [Hk _]. rewrite Hr in Hk. by apply Hk. }
  assert (all_up w1) as Hup1 by (apply (up_later w); [lia | done]). destruct (rpc_call_returns getHealth w1 Hup1) as (reply & result & Hf & Hg & Hc).
  rewrite R3 in Hf. rewrite (Hhealth reply Hf) in Hg. injection Hg as <-. pose proof (law_range _ _ _ _ Hf (Hhealth reply Hf)) as [Hl Ho].
  set (range := {| lg_oldestLedger := oldest; lg_latestLedger := latest |}).
  destruct (sync_contracts_up rounds fuel ig_contractIds range (tick w1)) as (w' & Hrun & Hw' & Hsync & _); try done.
  - apply (up_later w1); [simpl; lia | done].
  - by apply tick_world_ok.
  - split; [| done]. etrans; [exact Hl | apply law_tip; simpl; lia].
  - intros c Hc'. destruct (R6 c Hc') as [E1 E2]. unfold in_step, resume_at. change (checkpoint_of name c (tick w1)) with (checkpoint_of name c w1).
    change (status_of name c (tick w1)) with (status_of name c w1). change (stored_checkpoint c (tick w1)) with (jget c (iw_rows w1) ≫= rowToCheckpoint c).
    rewrite E1, E2, R1. split; [apply sameWatermark_refl |]. split; [by apply Hgap | done].
  - exists w'. split.
    + rewrite (bind_run _ _ _ _ _ Hr). unfold syncOnce. rewrite (bind_run (gets _) _ _ _ _ eq_refl), bool_decide_eq_false_2 by done.
      rewrite (bind_run (mret ()) _ w1 _ w1 eq_refl). erewrite bind_run; [exact Hrun |]. unfold getLedgerRange. by rewrite (bind_run _ _ _ _ _ Hc).
    + intros c Hc'. destruct (Hsync c Hc') as (Hin & next & Hlt & Hres). simpl in Hlt.
      destruct (resumes_stored chain c w' _ next (wo_tables _ _ Hw') Hres Hin) as (s & Hb & _ & He). exists s, (next - 1). split; [done |]. split; [lia | done].
Qed.
End live.

#[local] Existing Instances example.env example.laws.

Lemma syncOnce_history_witness :
  ∃ ops, iw_events (fl_world (fleet_run ops (Fleet (empty_iworld 20) []))) = iw_events (syncOnce "a" 11 5 (empty_iworld 20)).2.
Proof.
  destruct (syncOnce_history "a" 11 5 (Fleet (empty_iworld 20) []) (syncOnce "a" 11 5 (empty_iworld 20)).1 (syncOnce "a" 11 5 (empty_iworld 20)).2) as [ops Hops].
  - done.
  - apply surjective_pairing.
  - by vm_compute.
  - exists ops. by rewrite Hops.
Defined.

(** After the failures of the example, when one event is stored and three are missing. *)
Lemma sync_catches_up_witness :
  let w := fl_world (fleet_run (take 15 example.ops) (Fleet (empty_iworld 0) [])) in
  le_eventId <$> iw_events w = ["1"] ∧
  ∃ w', (restart "b";; syncOnce "b" 11 5) w = (inr (Some true), w') ∧
  ∀ c, c ∈ ig_contractIds → ∃ s m, begins s ∧ 10 ≤ m ∧ List.filter (λ e, String.eqb (le_contractId e) c) (iw_events w') = between example.chain c s m.
Proof.
  intros w. assert (iw_calls w = 26%nat) as Hcalls by (by vm_compute). split; [by vm_compute |].
  apply (sync_catches_up example.chain (λ _, 10) example.position "b" (take 15 example.ops) 0 10 1 11 5).
  - fold w. split; [| | done].
    + intros n Hn. rewrite Hcalls in Hn. simpl. destruct (Nat.eqb_spec n 25); [lia |]. destruct (Nat.eqb_spec n 12); [lia | done].
    + intros n [| start endx c limit cursor] _; simpl; eauto.
  - apply (bool_decide_unpack _). by vm_compute.
  - done.
  - by intros reply [= <-].
  - intros c Hc. change (c ∈ ["C"]) in Hc. apply list_elem_of_singleton in Hc as ->. by vm_compute.
  - by vm_compute; lia.
  - vm_compute. lia.
Defined.
