(* ===== verification/Tokens.v ===== *)
(** * Access and refresh tokens (apps/backend/gateway/src/auth/)

    - tokenTypes.ts, models/RefreshToken.ts: the types and the table of refresh tokens;
    - tokenBlacklist.ts: revoked tokens, in the memory of each replica and in Redis;
    - tokenManager.ts: issuing, verifying, rotating, revoking and introspecting.

    PostgreSQL and Redis are shared by the replicas; their calls may fail before or after
    they took effect (Services.v).  Signing and verifying is an interface ([Signer]; the
    key store behind it is in TokenKeys.v); bcrypt, [randomUUID] and the configuration
    read from the environment are parameters.  Times are milliseconds, claims seconds. *)
From S2P Require Import Prelude JsLib JsCollections Services.
Local Open Scope Z_scope.

(** ** Types *)

Inductive RevocationReason := rr_logout | rr_password_change | rr_security | rr_admin.
Inductive TokenType := tt_Bearer | tt_refresh.
#[export] Instance token_type_eq_dec : EqDecision TokenType.
Proof. solve_decision. Defined.

Record TokenBinding := { tb_deviceId : string; tb_fingerprint : option string }.

(** The payload of a JWT: a claim of another type than the code asks for is [None]. *)
Record jwt_payload := {
  pl_sub : option string; pl_userId : option string; pl_email : option string; pl_roles : option (list string);
  pl_jti : option string; pl_scope : option string; pl_tokenType : option string; pl_deviceId : option string;
  pl_fingerprint : option string; pl_familyId : option string; pl_secret : option string;
  pl_iat : option Z; pl_exp : option Z; pl_nbf : option Z; pl_iss : option string; pl_aud : option string
}.

Record TokenClaims := {
  tc_sub : string; tc_userId : string; tc_email : option string; tc_roles : option (list string); tc_jti : string;
  tc_deviceId : option string; tc_fingerprint : option string; tc_scope : string; tc_tokenType : TokenType;
  tc_familyId : option string; tc_secret : option string; tc_iat : Z; tc_exp : Z; tc_nbf : option Z;
  tc_iss : option string; tc_aud : option string
}.

Record TokenPair := {
  tp_accessToken : string; tp_refreshToken : string; tp_expiresIn : Z; tp_refreshExpiresIn : Z; tp_scope : string
}.

Record TokenConfig := {
  cf_accessTokenTtlSeconds : Z; cf_refreshTokenTtlSeconds : Z; cf_rotationEnabled : bool; cf_issuer : string; cf_audience : string
}.

Record RevokedToken := { rk_jti : string; rk_userId : string; rk_revokedAt : Z; rk_reason : RevocationReason; rk_expiresAt : Z }.

Record IntrospectionResult := {
  in_active : bool; in_tokenType : option TokenType; in_jti : option string; in_userId : option string; in_email : option string;
  in_scope : option string; in_iat : option Z; in_exp : option Z; in_nbf : option Z; in_iss : option string; in_aud : option string;
  in_deviceId : option string
}.

(** A row of refresh_tokens. *)
Record RefreshToken := {
  rt_id : string; rt_userId : string; rt_tokenHash : string; rt_familyId : string; rt_expiresAt : Z; rt_revokedAt : option Z
}.

Record tworld := TWorld {
  tw_rows : list RefreshToken;
  tw_users : jsmap string;          (** email by user *)
  tw_redis : jsmap Z;               (** when the keys auth:revoked:<jti> expire *)
  tw_set : list string;             (** auth:revoked:set *)
  tw_caches : jsmap (jsmap RevokedToken);   (** [memoryCache] of each replica *)
  tw_uuids : nat;
  tw_calls : nat;
  tw_now : Z
}.

(** What the token manager asks of the key store: [store.sign] and [store.verify] with the
    issuer, the audience and the clock tolerance of the configuration; [None] is a payload
    that is not an object. *)
Class Signer := {
  sg_sign : jwt_payload → string;
  sg_verify : Z → string → exn + option jwt_payload
}.

Class TokenEnv := {
  tk_fate : nat → call_fate;
  uuid : nat → string;
  bcrypt_hash : string → nat → string;
  bcrypt_compare : string → string → bool;
  tk_config : TokenConfig
}.

Section tokens.
Context `{SG : Signer} `{TE : TokenEnv}.
Implicit Types w : tworld.

(** ** The state *)

Definition set_token_rows (f : list RefreshToken → list RefreshToken) w : tworld :=
  TWorld (f (tw_rows w)) (tw_users w) (tw_redis w) (tw_set w) (tw_caches w) (tw_uuids w) (tw_calls w) (tw_now w).
Definition set_redis (f : jsmap Z → jsmap Z) (g : list string → list string) w : tworld :=
  TWorld (tw_rows w) (tw_users w) (f (tw_redis w)) (g (tw_set w)) (tw_caches w) (tw_uuids w) (tw_calls w) (tw_now w).
Definition cache_of (replica : string) w : jsmap RevokedToken := default [] (jget replica (tw_caches w)).
Definition set_cache (replica : string) (f : jsmap RevokedToken → jsmap RevokedToken) w : tworld :=
  TWorld (tw_rows w) (tw_users w) (tw_redis w) (tw_set w) (jset replica (f (cache_of replica w)) (tw_caches w)) (tw_uuids w) (tw_calls w) (tw_now w).
Definition count_uuid w : tworld :=
  TWorld (tw_rows w) (tw_users w) (tw_redis w) (tw_set w) (tw_caches w) (S (tw_uuids w)) (tw_calls w) (tw_now w).
Definition count_token_call w : tworld :=
  TWorld (tw_rows w) (tw_users w) (tw_redis w) (tw_set w) (tw_caches w) (tw_uuids w) (S (tw_calls w)) (tw_now w).

#[export] Instance token_services : Services tworld := {| next_fate := λ w, tk_fate (tw_calls w); tick := count_token_call |}.

Definition randomUUID : M tworld string := n ← gets tw_uuids; modify count_uuid;; mret (uuid n).
Definition now_seconds : M tworld Z := gets (λ w, tw_now w / 1000).

(** ** The blacklist *)

Definition pruneCache (replica : string) : M tworld () :=
  modify (λ w, set_cache replica (List.filter (λ kv, tw_now w <? rk_expiresAt kv.2)) w).

Definition ttlSecondsFor (now : Z) (entry : RevokedToken) : Z :=
  let ttlMs := rk_expiresAt entry - now in
  if 0 <? ttlMs then Z.max 1 ((ttlMs + 999) / 1000) else 1.

Definition revokeToken (replica : string) (entry : RevokedToken) : M tworld () :=
  pruneCache replica;;
  modify (set_cache replica (jset (rk_jti entry) entry));;
  try_catch
    (write (λ w, set_redis (jset (rk_jti entry) (tw_now w + ttlSecondsFor (tw_now w) entry * 1000)) id w);;
     write (set_redis id (λ l, if bool_decide (rk_jti entry ∈ l) then l else l ++ [rk_jti entry])))
    (λ _, mret ()).

Definition isTokenRevokedSync (replica jti : string) : M tworld bool :=
  if String.eqb jti "" then mret false
  else pruneCache replica;;
       gets (λ w, match jget jti (cache_of replica w) with Some _ => true | None => false end).

(** A key of Redis is there until it expires. *)
Definition redis_has (jti : string) w : bool := match jget jti (tw_redis w) with Some expiry => tw_now w <? expiry | None => false end.

Definition isTokenRevoked (replica jti : string) : M tworld bool :=
  if String.eqb jti "" then mret false
  else here ← isTokenRevokedSync replica jti;
       if here : bool then mret true
       else try_catch (ask (redis_has jti)) (λ _, mret false).

Definition listRevokedTokens (replica : string) : M tworld (list RevokedToken) :=
  pruneCache replica;; gets (λ w, jvalues (cache_of replica w)).

(** ** Signing and verifying *)

(** [expiresIn] counts from [iat]. *)
Definition with_expiry (p : jwt_payload) (seconds : Z) : jwt_payload := {|
  pl_sub := pl_sub p; pl_userId := pl_userId p; pl_email := pl_email p; pl_roles := pl_roles p; pl_jti := pl_jti p; pl_scope := pl_scope p;
  pl_tokenType := pl_tokenType p; pl_deviceId := pl_deviceId p; pl_fingerprint := pl_fingerprint p; pl_familyId := pl_familyId p;
  pl_secret := pl_secret p; pl_iat := pl_iat p; pl_exp := (λ iat, iat + seconds) <$> pl_iat p; pl_nbf := pl_nbf p; pl_iss := pl_iss p; pl_aud := pl_aud p |}.

Definition access_payload (userId : string) (email : option string) (roles : list string) (binding : option TokenBinding) (scope jti : string) (now : Z) : jwt_payload := {|
  pl_sub := Some userId; pl_userId := Some userId; pl_email := email; pl_roles := Some roles; pl_jti := Some jti; pl_scope := Some scope;
  pl_tokenType := Some "Bearer"; pl_deviceId := tb_deviceId <$> binding; pl_fingerprint := binding ≫= tb_fingerprint; pl_familyId := None;
  pl_secret := None; pl_iat := Some now; pl_exp := None; pl_nbf := Some now; pl_iss := Some (cf_issuer tk_config); pl_aud := Some (cf_audience tk_config) |}.

Definition signAccessToken (userId : string) (email : option string) (roles : list string) (binding : option TokenBinding) (scope : string) : M tworld string :=
  now ← now_seconds;
  jti ← randomUUID;
  mret (sg_sign (with_expiry (access_payload userId email roles binding scope jti now) (cf_accessTokenTtlSeconds tk_config))).

Definition refresh_payload (userId : string) (binding : option TokenBinding) (scope tokenId family secret : string) (now : Z) : jwt_payload := {|
  pl_sub := Some userId; pl_userId := Some userId; pl_email := None; pl_roles := None; pl_jti := Some tokenId; pl_scope := Some scope;
  pl_tokenType := Some "refresh"; pl_deviceId := tb_deviceId <$> binding; pl_fingerprint := binding ≫= tb_fingerprint; pl_familyId := Some family;
  pl_secret := Some secret; pl_iat := Some now; pl_exp := None; pl_nbf := Some now; pl_iss := Some (cf_issuer tk_config); pl_aud := Some (cf_audience tk_config) |}.

(** The primary key and the hash are unique. *)
Definition row_clash (row : RefreshToken) w : bool :=
  existsb (λ r, String.eqb (rt_id r) (rt_id row) || String.eqb (rt_tokenHash r) (rt_tokenHash row)) (tw_rows w).

Definition create_row (row : RefreshToken) : M tworld () :=
  clash ← gets (row_clash row);
  if clash : bool then ask (λ _, ());; throw (Exn "SequelizeUniqueConstraintError" "Validation error")
  else write (set_token_rows (λ rows, rows ++ [row])).

Definition createRefreshToken (userId : string) (binding : option TokenBinding) (scope : string) (familyId : option string) : M tworld string :=
  tokenId ← randomUUID;
  family ← (match familyId with Some f => mret f | None => randomUUID end);
  now ← gets tw_now;
  secret ← randomUUID;
  salt ← gets tw_uuids;
  create_row {| rt_id := tokenId; rt_userId := userId; rt_tokenHash := bcrypt_hash secret salt; rt_familyId := family;
                rt_expiresAt := now + cf_refreshTokenTtlSeconds tk_config * 1000; rt_revokedAt := None |};;
  seconds ← now_seconds;
  mret (sg_sign (with_expiry (refresh_payload userId binding scope tokenId family secret seconds) (cf_refreshTokenTtlSeconds tk_config))).

Definition verifyWithStore (token : string) : M tworld jwt_payload :=
  now ← gets tw_now;
  decoded ← answer (sg_verify now token);
  some_or_throw decoded (Error "Invalid token structure").

(** A claim that is missing gets its default: the user is taken from [sub], a missing jti
    is fresh. *)
Definition normalizeClaims (decoded : jwt_payload) : M tworld TokenClaims :=
  let userId := default (default "" (pl_sub decoded)) (pl_userId decoded) in
  throw_if (String.eqb userId "") (Error "Invalid token structure");;
  jti ← (match pl_jti decoded with Some jti => mret jti | None => randomUUID end);
  now ← now_seconds;
  mret {| tc_sub := default userId (pl_sub decoded); tc_userId := userId; tc_email := pl_email decoded; tc_roles := pl_roles decoded; tc_jti := jti;
          tc_deviceId := pl_deviceId decoded; tc_fingerprint := pl_fingerprint decoded; tc_scope := default "openid" (pl_scope decoded);
          tc_tokenType := if bool_decide (pl_tokenType decoded = Some "refresh") then tt_refresh else tt_Bearer;
          tc_familyId := pl_familyId decoded; tc_secret := pl_secret decoded; tc_iat := default now (pl_iat decoded); tc_exp := default now (pl_exp decoded);
          tc_nbf := pl_nbf decoded; tc_iss := pl_iss decoded; tc_aud := pl_aud decoded |}.

Definition verifyRefreshToken (token : string) : M tworld TokenClaims :=
  decoded ← verifyWithStore token;
  claims ← normalizeClaims decoded;
  throw_if (negb (bool_decide (tc_tokenType claims = tt_refresh)) || negb (truthy (tc_familyId claims)) || negb (truthy (tc_secret claims)))
    (Error "Invalid refresh token structure");;
  mret claims.

(** ** Public operations *)

Definition issueAccessToken (userId email : string) (roles : option (list string)) (binding : option TokenBinding) (scope : option string) : M tworld string :=
  signAccessToken userId (Some email) (default ["user"] roles) binding (default "openid" scope).

Definition token_pair (accessToken refreshToken scope : string) : TokenPair := {|
  tp_accessToken := accessToken; tp_refreshToken := refreshToken; tp_expiresIn := cf_accessTokenTtlSeconds tk_config;
  tp_refreshExpiresIn := cf_refreshTokenTtlSeconds tk_config; tp_scope := scope |}.

Definition issueTokenPair (userId email : string) (roles : option (list string)) (binding : option TokenBinding) (scope familyId : option string) : M tworld TokenPair :=
  accessToken ← signAccessToken userId (Some email) (default ["user"] roles) binding (default "openid" scope);
  refreshToken ← createRefreshToken userId binding (default "openid" scope) familyId;
  mret (token_pair accessToken refreshToken (default "openid" scope)).

Definition verifyAccessToken (replica token : string) (checkRevoked : bool) : M tworld TokenClaims :=
  decoded ← verifyWithStore token;
  claims ← normalizeClaims decoded;
  throw_if (negb (bool_decide (tc_tokenType claims = tt_Bearer))) (Error "Invalid token type");;
  revoked ← (if checkRevoked then isTokenRevoked replica (tc_jti claims) else mret false);
  throw_if revoked (Error "Token has been revoked");;
  mret claims.

Definition revoke_row (now : Z) (r : RefreshToken) : RefreshToken := {|
  rt_id := rt_id r; rt_userId := rt_userId r; rt_tokenHash := rt_tokenHash r; rt_familyId := rt_familyId r; rt_expiresAt := rt_expiresAt r;
  rt_revokedAt := Some now |}.

(** [UPDATE refresh_tokens SET revoked_at = now WHERE family_id = ...] *)
Definition revokeRefreshFamily (familyId : string) : M tworld () :=
  write (λ w, set_token_rows (map (λ r, if String.eqb (rt_familyId r) familyId then revoke_row (tw_now w) r else r)) w).

Definition find_row (id : string) w : option RefreshToken := find (λ r, String.eqb (rt_id r) id) (tw_rows w).

(** *** Rotation, in the order of its statements *)

(** A rotation whose token passed the checks: its claims, the row as it was read, and the
    email of the user. *)
Record checked := Checked { ck_claims : TokenClaims; ck_row : RefreshToken; ck_email : option string; ck_binding : option TokenBinding }.

Definition check_refresh (replica rawRefreshToken : string) (binding : option TokenBinding) : M tworld checked :=
  decoded ← verifyRefreshToken rawRefreshToken;
  revoked ← isTokenRevoked replica (tc_jti decoded);
  throw_if revoked (Error "Token has been revoked");;
  found ← ask (find_row (tc_jti decoded));
  tokenRecord ← some_or_throw found (Error "Invalid refresh token");
  throw_if (negb (bcrypt_compare (default "" (tc_secret decoded)) (rt_tokenHash tokenRecord))) (Error "Invalid refresh token");;
  now ← gets tw_now;
  throw_if (rt_expiresAt tokenRecord <? now) (Error "Refresh token expired");;
  (if truthy (tb_deviceId <$> binding) && truthy (tc_deviceId decoded) && negb (bool_decide (tb_deviceId <$> binding = tc_deviceId decoded)) then
     revokeRefreshFamily (rt_familyId tokenRecord);;
     revokeToken replica {| rk_jti := tc_jti decoded; rk_userId := tc_userId decoded; rk_revokedAt := now; rk_reason := rr_security; rk_expiresAt := rt_expiresAt tokenRecord |};;
     throw (Error "Token theft detected: device mismatch")
   else mret ());;
  email ← ask (λ w, jget (rt_userId tokenRecord) (tw_users w));
  mret (Checked decoded tokenRecord email binding).

(** The row was not revoked when it was read, and the conditional UPDATE hits it. *)
Definition claim_refresh (c : checked) : M tworld bool :=
  match rt_revokedAt (ck_row c) with
  | Some _ => mret false
  | None =>
      call (λ w,
        let hit (r : RefreshToken) := String.eqb (rt_id r) (tc_jti (ck_claims c)) && match rt_revokedAt r with None => true | Some _ => false end in
        (existsb hit (tw_rows w), set_token_rows (map (λ r, if hit r then revoke_row (tw_now w) r else r)) w))
  end.

Definition reject_reuse {A} (c : checked) : M tworld A :=
  revokeRefreshFamily (rt_familyId (ck_row c));;
  throw (Error "Token reuse detected").

Definition rotated_access (c : checked) : M tworld string :=
  signAccessToken (rt_userId (ck_row c)) (Some (default "" (ck_email c))) ["user"] (ck_binding c) (tc_scope (ck_claims c)).

Definition next_pair (c : checked) : M tworld TokenPair :=
  refreshToken ← createRefreshToken (rt_userId (ck_row c)) (ck_binding c) (tc_scope (ck_claims c)) (Some (rt_familyId (ck_row c)));
  accessToken ← rotated_access c;
  mret (token_pair accessToken refreshToken (tc_scope (ck_claims c))).

Definition rotateRefreshToken (replica rawRefreshToken : string) (binding : option TokenBinding) : M tworld TokenPair :=
  c ← check_refresh replica rawRefreshToken binding;
  if negb (cf_rotationEnabled tk_config) then
    accessToken ← rotated_access c;
    mret (token_pair accessToken rawRefreshToken (tc_scope (ck_claims c)))
  else
    claimed ← claim_refresh c;
    if claimed : bool then next_pair c else reject_reuse c.

(** *** Revocation and introspection *)

Definition revocation_entry (claims : TokenClaims) (userId : option string) (reason : RevocationReason) (now : Z) : RevokedToken := {|
  rk_jti := tc_jti claims; rk_userId := default (tc_userId claims) userId; rk_revokedAt := now; rk_reason := reason; rk_expiresAt := tc_exp claims * 1000 |}.

(** [try { ... } catch {}] around a presented token; errors of the statements within are
    swallowed too, the entry that was pushed before stays. *)
Definition revoke_access (token : option string) (userId : option string) (reason : RevocationReason) : M tworld (list RevokedToken) :=
  match token with
  | Some t =>
      if String.eqb t "" then mret []
      else try_catch (decoded ← verifyWithStore t;
                      claims ← normalizeClaims decoded;
                      now ← gets tw_now;
                      mret (if bool_decide (tc_tokenType claims = tt_Bearer) then [revocation_entry claims userId reason now] else []))
             (λ _, mret [])
  | None => mret []
  end.

Definition revoke_refresh (refreshToken : option string) (userId : option string) (reason : RevocationReason) : M tworld (list RevokedToken * bool) :=
  match refreshToken with
  | Some t =>
      if String.eqb t "" then mret ([], false)
      else r ← try_catch (claims ← verifyRefreshToken t; now ← gets tw_now; mret (Some (claims, now))) (λ _, mret None);
           match r with
           | Some (claims, now) =>
               done ← try_catch (revokeRefreshFamily (default "" (tc_familyId claims));; mret true) (λ _, mret false);
               mret ([revocation_entry claims userId reason now], done)
           | None => mret ([], false)
           end
  | None => mret ([], false)
  end.

Definition revokeTokens (replica : string) (token refreshToken userId : option string) (reason : RevocationReason) : M tworld (Z * bool) :=
  entries ← revoke_access token userId reason;
  r ← revoke_refresh refreshToken userId reason;
  for_each (entries ++ r.1) (revokeToken replica);;
  mret (Z.of_nat (length (entries ++ r.1)), r.2).

Definition inactive : IntrospectionResult := {|
  in_active := false; in_tokenType := None; in_jti := None; in_userId := None; in_email := None; in_scope := None; in_iat := None; in_exp := None;
  in_nbf := None; in_iss := None; in_aud := None; in_deviceId := None |}.

Definition introspectToken (replica token : string) : M tworld IntrospectionResult :=
  try_catch
    (decoded ← verifyWithStore token;
     claims ← normalizeClaims decoded;
     revoked ← isTokenRevoked replica (tc_jti claims);
     mret (if revoked : bool then
             {| in_active := false; in_tokenType := None; in_jti := Some (tc_jti claims); in_userId := Some (tc_userId claims); in_email := None; in_scope := None;
                in_iat := None; in_exp := Some (tc_exp claims); in_nbf := None; in_iss := None; in_aud := None; in_deviceId := None |}
           else
             {| in_active := true; in_tokenType := Some (tc_tokenType claims); in_jti := Some (tc_jti claims); in_userId := Some (tc_userId claims);
                in_email := tc_email claims; in_scope := Some (tc_scope claims); in_iat := Some (tc_iat claims); in_exp := Some (tc_exp claims);
                in_nbf := tc_nbf claims; in_iss := tc_iss claims; in_aud := tc_aud claims; in_deviceId := tc_deviceId claims |}))
    (λ _, mret inactive).

(** *** authService.ts *)

Definition generateTokens (userId email : string) (familyId : option string) (binding : option TokenBinding) : M tworld TokenPair :=
  issueTokenPair userId email None binding None familyId.

Definition logoutUser (replica : string) (refreshToken : option string) : M tworld () :=
  match refreshToken with
  | Some t => if String.eqb t "" then mret ()
              else try_catch (revokeTokens replica None refreshToken None rr_logout;; mret ()) (λ _, mret ())
  | None => mret ()
  end.
End tokens.
