(* ===== verification/TokensCorrect.v ===== *)
(** * Access and refresh tokens: theorems

    The requests of several gateway replicas run interleaved at the statements that
    change the table of refresh tokens, with any failures of PostgreSQL and Redis and
    with replicas that crash. *)
From S2P Require Import Prelude JsLib JsCollections Services Tokens.
Local Open Scope Z_scope.

(** ** Interleaved requests *)

(** A rotation in flight on a replica: checked, found to be a reuse, or with its token
    claimed and the next one to be created. *)
Inductive flight :=
  | in_checked (replica : string) (c : checked)
  | in_reused (replica : string) (c : checked)
  | in_claimed (replica : string) (c : checked).

Definition flight_replica (x : flight) : string := match x with in_checked r _ | in_reused r _ | in_claimed r _ => r end.

Record gateway := Gateway { gt_world : tworld; gt_flights : list flight }.

Inductive gateway_op :=
  (** register, login, OAuth: a pair of a new family *)
  | g_issue (userId email : string) (binding : option TokenBinding)
  | g_rotate (replica raw : string) (binding : option TokenBinding)
  (** the next statements of the i-th rotation in flight *)
  | g_step (i : nat)
  | g_revoke (replica : string) (token refreshToken userId : option string) (reason : RevocationReason)
  | g_logout (replica : string) (refreshToken : option string)
  | g_family (familyId : string)
  | g_verify (replica token : string) (checkRevoked : bool)
  | g_introspect (replica token : string)
  | g_user (userId email : string)
  | g_crash (replica : string)
  | g_wait (ms : Z).

(** The i-th element and the others. *)
Fixpoint pick {A} (i : nat) (l : list A) : option (A * list A) :=
  match l, i with
  | [], _ => None
  | x :: l', O => Some (x, l')
  | x :: l', S i' => match pick i' l' with Some (y, rest) => Some (y, x :: rest) | None => None end
  end.

Lemma pick_perm {A} i (l : list A) x rest : pick i l = Some (x, rest) → l ≡ₚ x :: rest.
Proof.
  revert i x rest. induction l as [| y l IH]; intros [| i] x rest; simpl; try done; [by intros [= <- <-] |].
  destruct (pick i l) as [[z rest'] |] eqn:Hp; [| done]. intros [= <- <-]. rewrite (IH _ _ _ Hp). apply Permutation_swap.
Qed.

Section history.
Context `{SG : Signer} `{TE : TokenEnv}.
Implicit Types (w : tworld) (g : gateway).

Definition gateway_step (op : gateway_op) g : gateway :=
  let w := gt_world g in
  match op with
  | g_issue userId email binding => Gateway (issueTokenPair userId email None binding None None w).2 (gt_flights g)
  | g_rotate replica raw binding =>
      match check_refresh replica raw binding w with
      | (inr c, w1) =>
          if cf_rotationEnabled tk_config then Gateway w1 (in_checked replica c :: gt_flights g)
          else Gateway (rotated_access c w1).2 (gt_flights g)
      | (inl _, w1) => Gateway w1 (gt_flights g)
      end
  | g_step i =>
      match pick i (gt_flights g) with
      | Some (in_checked replica c, rest) =>
          match claim_refresh c w with
          | (inr true, w1) => Gateway w1 (in_claimed replica c :: rest)
          | (inr false, w1) => Gateway w1 (in_reused replica c :: rest)
          | (inl _, w1) => Gateway w1 rest
          end
      | Some (in_reused replica c, rest) => Gateway (reject_reuse (A := ()) c w).2 rest
      | Some (in_claimed replica c, rest) => Gateway (next_pair c w).2 rest
      | None => g
      end
  | g_revoke replica token refreshToken userId reason => Gateway (revokeTokens replica token refreshToken userId reason w).2 (gt_flights g)
  | g_logout replica refreshToken => Gateway (logoutUser replica refreshToken w).2 (gt_flights g)
  | g_family familyId => Gateway (revokeRefreshFamily familyId w).2 (gt_flights g)
  | g_verify replica token checkRevoked => Gateway (verifyAccessToken replica token checkRevoked w).2 (gt_flights g)
  | g_introspect replica token => Gateway (introspectToken replica token w).2 (gt_flights g)
  | g_user userId email =>
      Gateway (TWorld (tw_rows w) (jset userId email (tw_users w)) (tw_redis w) (tw_set w) (tw_caches w) (tw_uuids w) (tw_calls w) (tw_now w)) (gt_flights g)
  | g_crash replica => Gateway (set_cache replica (λ _, []) w) (List.filter (λ x, negb (String.eqb (flight_replica x) replica)) (gt_flights g))
  | g_wait ms =>
      Gateway (TWorld (tw_rows w) (tw_users w) (tw_redis w) (tw_set w) (tw_caches w) (tw_uuids w) (tw_calls w) (tw_now w + Z.max 0 ms)) (gt_flights g)
  end.

Definition gateway_run (ops : list gateway_op) g : gateway := foldl (λ g op, gateway_step op g) g ops.

Definition empty_tworld (now : Z) : tworld := TWorld [] [] [] [] [] 0 0 now.
Definition gateway_start (now : Z) : gateway := Gateway (empty_tworld now) [].

(** ** Families *)

Definition is_live (family : string) (r : RefreshToken) : bool :=
  String.eqb (rt_familyId r) family && match rt_revokedAt r with None => true | Some _ => false end.
Definition live_in (family : string) w : nat := length (List.filter (is_live family) (tw_rows w)).

Definition is_pending (family : string) (x : flight) : bool :=
  match x with in_claimed _ c => String.eqb (rt_familyId (ck_row c)) family | _ => false end.
Definition pending_in (family : string) (l : list flight) : nat := length (List.filter (is_pending family) l).
End history.

Class UuidLaws (TE : TokenEnv) := { uuid_inj n m : uuid n = uuid m → n = m }.

(** ** Statements that only revoke *)

Section families.
Context `{SG : Signer} `{TE : TokenEnv}.
Implicit Types (w : tworld) (g : gateway) (r : RefreshToken).

(** A row with the same identity that is revoked if the old one was. *)
Definition revoked_more r r' : Prop :=
  rt_id r' = rt_id r ∧ rt_familyId r' = rt_familyId r ∧ (rt_revokedAt r ≠ None → rt_revokedAt r' ≠ None).

Lemma revoked_more_refl l : Forall2 revoked_more l l.
Proof. induction l; constructor; done. Qed.

(** No row is added, none comes back to life. *)
Definition shrinks w w' : Prop := Forall2 revoked_more (tw_rows w) (tw_rows w') ∧ (tw_uuids w ≤ tw_uuids w')%nat.

#[export] Instance shrinks_preorder : PreOrder shrinks.
Proof.
  split.
  - intros w. split; [apply revoked_more_refl | done].
  - intros w1 w2 w3 [A1 A2] [B1 B2]. split; [| lia]. clear A2 B2. revert B1. generalize (tw_rows w3). induction A1 as [| r1 r2 l1 l2 (H1 & H2 & H3) _ IH]; intros l3 B1; [done |].
    inversion B1 as [| ? r3 ? l3' (K1 & K2 & K3) ?]; subst. constructor; [split; [congruence |]; split; [congruence | auto] | auto].
Qed.

Lemma shrinks_same w w' : tw_rows w' = tw_rows w → (tw_uuids w ≤ tw_uuids w')%nat → shrinks w w'.
Proof. intros Hr Hu. split; [| done]. rewrite Hr. apply revoked_more_refl. Qed.

Lemma shrinks_map (f : RefreshToken → RefreshToken) w : (∀ r, revoked_more r (f r)) → shrinks w (set_token_rows (map f) w).
Proof. intros Hf. split; [| done]. simpl. induction (tw_rows w); simpl; constructor; [apply Hf | done]. Qed.

Lemma revoke_row_more now r : revoked_more r (revoke_row now r).
Proof. done. Qed.

Lemma shrinks_tick w : shrinks w (tick w).
Proof. by apply shrinks_same. Qed.

Lemma shrinks_call {A} (f : tworld → A * tworld) : (∀ w, shrinks w (f w).2) → evolves shrinks (call f).
Proof. apply call_evolves; [apply _ | apply shrinks_tick]. Qed.

Lemma shrinks_ask {A} (f : tworld → A) : evolves shrinks (ask f).
Proof. by apply shrinks_call. Qed.

Lemma shrinks_modify (f : tworld → tworld) : (∀ w, tw_rows (f w) = tw_rows w ∧ (tw_uuids w ≤ tw_uuids (f w))%nat) → evolves shrinks (modify f).
Proof. intros Hf w. destruct (Hf w). by apply shrinks_same. Qed.

Lemma shrinks_uuid : evolves shrinks randomUUID.
Proof. unfold randomUUID. apply evolves_bind; [apply _ | apply evolves_gets, _ |]. intros n. apply evolves_bind; [apply _ | | intros; apply evolves_ret, _]. apply shrinks_modify. intros w. simpl. split; [done | lia]. Qed.

Lemma shrinks_prune replica : evolves shrinks (pruneCache replica).
Proof. by apply shrinks_modify. Qed.

Lemma shrinks_revokeToken replica entry : evolves shrinks (revokeToken replica entry).
Proof.
  unfold revokeToken. apply evolves_bind; [apply _ | apply shrinks_prune |]. intros _. apply evolves_bind; [apply _ | by apply shrinks_modify |]. intros _.
  apply evolves_try; [apply _ | | intros; apply evolves_ret, _]. apply evolves_bind; [apply _ | | intros _]; (apply shrinks_call; intros w; by apply shrinks_same).
Qed.

Lemma shrinks_family family : evolves shrinks (revokeRefreshFamily family).
Proof.
  apply shrinks_call. intros w. apply (shrinks_map (λ r, if String.eqb (rt_familyId r) family then revoke_row (tw_now w) r else r)).
  intros r. by destruct (String.eqb _ _).
Qed.

Lemma shrinks_revoked replica jti : evolves shrinks (isTokenRevoked replica jti).
Proof.
  unfold isTokenRevoked, isTokenRevokedSync. destruct (String.eqb jti ""); [apply evolves_ret, _ |].
  apply evolves_bind; [apply _ | apply evolves_bind; [apply _ | apply shrinks_prune | intros _; apply evolves_gets, _] |].
  intros [|]; [apply evolves_ret, _ |]. apply evolves_try; [apply _ | apply shrinks_ask | intros; apply evolves_ret, _].
Qed.

Lemma shrinks_sign userId email roles binding scope : evolves shrinks (signAccessToken userId email roles binding scope).
Proof.
  unfold signAccessToken, now_seconds. apply evolves_bind; [apply _ | apply evolves_gets, _ |]. intros now.
  apply evolves_bind; [apply _ | apply shrinks_uuid | intros; apply evolves_ret, _].
Qed.
End families.

#[export] Hint Resolve shrinks_ask shrinks_uuid shrinks_prune shrinks_revokeToken shrinks_family shrinks_revoked shrinks_sign : evolve.

Section families2.
Context `{SG : Signer} `{TE : TokenEnv}.
Implicit Types (w : tworld) (g : gateway) (r : RefreshToken).

Lemma shrinks_verify token : evolves shrinks (verifyWithStore token).
Proof. unfold verifyWithStore. evolve. Qed.

Lemma shrinks_normalize decoded : evolves shrinks (normalizeClaims decoded).
Proof. unfold normalizeClaims, now_seconds. evolve. Qed.
#[local] Hint Resolve shrinks_verify shrinks_normalize : evolve.

Lemma shrinks_verifyRefresh token : evolves shrinks (verifyRefreshToken token).
Proof. unfold verifyRefreshToken. evolve. Qed.
#[local] Hint Resolve shrinks_verifyRefresh : evolve.

Lemma shrinks_check replica raw binding : evolves shrinks (check_refresh replica raw binding).
Proof. unfold check_refresh. evolve. Qed.

Lemma shrinks_access replica token checkRevoked : evolves shrinks (verifyAccessToken replica token checkRevoked).
Proof. unfold verifyAccessToken. evolve. Qed.

Lemma shrinks_introspect replica token : evolves shrinks (introspectToken replica token).
Proof. unfold introspectToken. evolve. Qed.

Lemma shrinks_revokeTokens replica token refreshToken userId reason : evolves shrinks (revokeTokens replica token refreshToken userId reason).
Proof. unfold revokeTokens, revoke_access, revoke_refresh. evolve. Qed.
#[local] Hint Resolve shrinks_revokeTokens : evolve.

Lemma shrinks_logout replica refreshToken : evolves shrinks (logoutUser replica refreshToken).
Proof. unfold logoutUser. evolve. Qed.

Lemma shrinks_reuse {A} (c : checked) : evolves shrinks (reject_reuse (A := A) c).
Proof. unfold reject_reuse. evolve. Qed.

Lemma shrinks_rotated c : evolves shrinks (rotated_access c).
Proof. apply shrinks_sign. Qed.

Lemma shrinks_claim c : evolves shrinks (claim_refresh c).
Proof.
  unfold claim_refresh. destruct (rt_revokedAt _); [apply evolves_ret, _ |]. apply shrinks_call. intros w.
  apply (shrinks_map (λ r, if String.eqb (rt_id r) (tc_jti (ck_claims c)) && match rt_revokedAt r with None => true | Some _ => false end then revoke_row (tw_now w) r else r)).
  intros r. by destruct (_ && _).
Qed.
End families2.

(** ** One live token per family *)

Section invariant.
Context `{SG : Signer} `{TE : TokenEnv} `{!UuidLaws TE}.
Implicit Types (w : tworld) (g : gateway) (r : RefreshToken).

(** A row with this identifier is of this family. *)
Definition known (jti family : string) w : Prop := ∃ r, r ∈ tw_rows w ∧ rt_id r = jti ∧ rt_familyId r = family.

Lemma shrinks_live f w w' : shrinks w w' → (live_in f w' ≤ live_in f w)%nat.
Proof.
  intros [H _]. unfold live_in. induction H as [| r r' l l' (_ & Hf & Hr) _ IH]; simpl; [done |].
  assert (is_live f r' = true → is_live f r = true) as Hl.
  { unfold is_live. rewrite Hf. destruct (String.eqb _ _); simpl; [| done]. destruct (rt_revokedAt r) eqn:E1, (rt_revokedAt r') eqn:E2; try done. exfalso. by apply Hr. }
  destruct (is_live f r'), (is_live f r); simpl; lia.
Qed.

Lemma shrinks_ids w w' : shrinks w w' → rt_id <$> tw_rows w' = rt_id <$> tw_rows w.
Proof. intros [H _]. induction H as [| r r' l l' (Hi & _ & _) _ IH]; [done |]. by rewrite !fmap_cons, IH, Hi. Qed.

Lemma shrinks_known jti f w w' : shrinks w w' → known jti f w → known jti f w'.
Proof.
  intros [H _] (r & Hr & Hi & Hf). unfold known. clear -H Hr Hi Hf. induction H as [| r1 r2 l l' (E1 & E2 & _) _ IH]; [by apply elem_of_nil in Hr |].
  apply elem_of_cons in Hr as [-> | Hr]; [exists r2; split; [by left | split; congruence] |]. destruct (IH Hr) as (r' & Hr' & ?). exists r'. split; [by right | done].
Qed.

Lemma shrinks_families w w' (P : string → Prop) : shrinks w w' → (∀ r, r ∈ tw_rows w → P (rt_familyId r)) → ∀ r, r ∈ tw_rows w' → P (rt_familyId r).
Proof.
  intros [H _] HP. revert HP. induction H as [| r1 r2 l l' (_ & E2 & _) _ IH]; intros HP r Hr; [by apply elem_of_nil in Hr |].
  apply elem_of_cons in Hr as [-> | Hr]; [rewrite E2; apply HP; by left | apply IH; [intros x Hx; apply HP; by right | done]].
Qed.

Lemma check_refresh_inr replica raw binding w c w' :
  check_refresh replica raw binding w = (inr c, w') → ∃ w1, shrinks w w1 ∧ find_row (tc_jti (ck_claims c)) w1 = Some (ck_row c) ∧ shrinks w1 w'.
Proof.
  unfold check_refresh. intros H. apply bind_inr in H as (decoded & w1 & H1 & H). apply bind_inr in H as (revoked & w2 & H2 & H).
  apply bind_inr in H as ([] & w3 & H3 & H). apply throw_if_run in H3 as [_ ->]. apply bind_inr in H as (found & w4 & H4 & H). apply ask_inr in H4 as [-> ->].
  apply bind_inr in H as (row & w5 & H5 & H). apply some_or_throw_run in H5 as [H5 ->].
  assert (shrinks w (tick w2)) as Hs.
  { etrans; [| apply shrinks_tick]. trans w1; [| change w2 with (snd (inr revoked : exn + bool, w2)); rewrite <- H2; apply shrinks_revoked].
    change w1 with (snd (inr decoded : exn + TokenClaims, w1)). rewrite <- H1. apply shrinks_verifyRefresh. }
  exists (tick w2). split; [done |]. apply bind_inr in H as ([] & w6 & H6 & H). apply throw_if_run in H6 as [_ ->].
  apply bind_inr in H as (now & w6 & H6 & H). injection H6 as <- <-. apply bind_inr in H as ([] & w6 & H6 & H). apply throw_if_run in H6 as [_ ->].
  apply bind_inr in H as ([] & w6 & H6 & H). destruct (_ && _) in H6.
  { apply bind_inr in H6 as (? & ? & _ & H6). apply bind_inr in H6 as (? & ? & _ & H6). done. }
  injection H6 as <-. apply bind_inr in H as (email & w6 & H6 & H). apply ask_inr in H6 as [_ ->]. injection H as <- <-. split; [done | apply shrinks_tick].
Qed.

Lemma claim_count jti f now (l : list RefreshToken) :
  let hit r := String.eqb (rt_id r) jti && match rt_revokedAt r with None => true | Some _ => false end in
  NoDup (rt_id <$> l) → (∃ r, r ∈ l ∧ rt_id r = jti ∧ rt_familyId r = f) → existsb hit l = true →
  S (length (List.filter (is_live f) (map (λ r, if hit r then revoke_row now r else r) l))) = length (List.filter (is_live f) l).
Proof.
  intros hit. induction l as [| r l IH]; simpl; [done |]. intros [Hni Hnd]%NoDup_cons (r0 & Hr0 & Hi & Hf) Hex.
  destruct (decide (rt_id r = jti)) as [Hj | Hj].
  - assert (∀ x, x ∈ l → hit x = false) as Hno.
    { intros x Hx. unfold hit. destruct (String.eqb_spec (rt_id x) jti) as [Hxj |]; [| done]. exfalso. apply Hni. rewrite Hj, <- Hxj. by apply list_elem_of_fmap_2. }
    assert (map (λ r, if hit r then revoke_row now r else r) l = l) as ->.
    { rewrite <- (map_id l) at 2. apply map_ext_in. intros x Hx. rewrite Hno; [done | by apply list_elem_of_In]. }
    assert (hit r = true) as Hh.
    { apply orb_true_iff in Hex as [? | Hex]; [done |]. apply existsb_exists in Hex as (x & Hx & Hhx). rewrite Hno in Hhx; [done | by apply list_elem_of_In]. }
    assert (r0 = r) as ->. { apply elem_of_cons in Hr0 as [? | Hr0]; [done |]. exfalso. apply Hni. rewrite Hj, <- Hi. by apply list_elem_of_fmap_2. }
    rewrite Hh. unfold hit in Hh. apply andb_true_iff in Hh as [_ Hn].
    assert (is_live f r = true) as -> by (unfold is_live; rewrite Hf, String.eqb_refl; by destruct (rt_revokedAt r)).
    assert (is_live f (revoke_row now r) = false) as -> by apply andb_false_r. done.
  - assert (hit r = false) as Hh by (unfold hit; destruct (String.eqb_spec (rt_id r) jti); done). rewrite Hh in Hex |- *.
    assert (r0 ∈ l) as Hin by (apply elem_of_cons in Hr0 as [-> | ?]; done). specialize (IH Hnd ltac:(by exists r0) Hex). destruct (is_live f r); simpl; lia.
Qed.

Lemma claim_refresh_true c w w' :
  NoDup (rt_id <$> tw_rows w) → known (tc_jti (ck_claims c)) (rt_familyId (ck_row c)) w → claim_refresh c w = (inr true, w') →
  S (live_in (rt_familyId (ck_row c)) w') = live_in (rt_familyId (ck_row c)) w.
Proof.
  intros Hnd Hk H. unfold claim_refresh in H. destruct (rt_revokedAt _); [done |]. apply call_inr in H. injection H as Hex <-.
  unfold live_in. simpl. by apply claim_count.
Qed.

(** What creating a token does to the table. *)
Lemma create_row_cases row w :
  let w' := (create_row row w).2 in
  tw_uuids w' = tw_uuids w ∧ (tw_rows w' = tw_rows w ∨ tw_rows w' = tw_rows w ++ [row] ∧ rt_id row ∉ rt_id <$> tw_rows w).
Proof.
  cbv zeta. unfold create_row. rewrite (bind_run (gets _) _ w _ w eq_refl). destruct (row_clash row w) eqn:Hc; unfold write, ask, call, mbind, M_bind.
  - destruct (next_fate w); simpl; (split; [done | by left]).
  - assert (rt_id row ∉ rt_id <$> tw_rows w) as Hni.
    { intros (x & Hx & Hin)%list_elem_of_fmap. apply not_true_iff_false in Hc. apply Hc. unfold row_clash.
      apply existsb_exists. exists x. split; [by apply list_elem_of_In |]. by rewrite Hx, String.eqb_refl. }
    destruct (next_fate w); simpl; (split; [done |]); [right | left | right]; done.
Qed.

Lemma after_pure {A B} (c : M tworld A) (k : A → M tworld B) w : (∀ a w', (k a w').2 = w') → ((c ≫= k) w).2 = (c w).2.
Proof. intros Hk. unfold mbind, M_bind. destruct (c w) as [[e | a] w']; [done | apply Hk]. Qed.

Lemma create_cases userId binding scope familyId w :
  let w' := (createRefreshToken userId binding scope familyId w).2 in
  (tw_uuids w ≤ tw_uuids w')%nat ∧
  (tw_rows w' = tw_rows w ∨
   ∃ row, tw_rows w' = tw_rows w ++ [row] ∧ rt_id row ∉ rt_id <$> tw_rows w ∧
     match familyId with Some f => rt_familyId row = f | None => ∃ n, (tw_uuids w ≤ n < tw_uuids w')%nat ∧ rt_familyId row = uuid n end).
Proof.
  cbv zeta. unfold createRefreshToken. rewrite (bind_run randomUUID _ w (uuid (tw_uuids w)) (count_uuid w) eq_refl). destruct familyId as [f |].
  - rewrite (bind_run (mret f) _ _ f _ eq_refl), (bind_run (gets tw_now) _ _ _ _ eq_refl), (bind_run randomUUID _ (count_uuid w) _ (count_uuid (count_uuid w)) eq_refl), (bind_run (gets tw_uuids) _ _ _ _ eq_refl).
    rewrite after_pure by done. match goal with |- context [create_row ?row ?w1] => destruct (create_row_cases row w1) as [-> [-> | [-> Hi]]] end; simpl; (split; [lia |]); [by left |].
    right. eexists. split; [done |]. split; [exact Hi | done].
  - rewrite (bind_run randomUUID _ (count_uuid w) (uuid (S (tw_uuids w))) (count_uuid (count_uuid w)) eq_refl), (bind_run (gets tw_now) _ _ _ _ eq_refl),
      (bind_run randomUUID _ (count_uuid (count_uuid w)) _ (count_uuid (count_uuid (count_uuid w))) eq_refl), (bind_run (gets tw_uuids) _ _ _ _ eq_refl).
    rewrite after_pure by done. match goal with |- context [create_row ?row ?w1] => destruct (create_row_cases row w1) as [-> [-> | [-> Hi]]] end; simpl; (split; [lia |]); [by left |].
    right. eexists. split; [done |]. split; [exact Hi |]. exists (S (tw_uuids w)). split; [lia | done].
Qed.

Definition flight_checked (x : flight) : checked := match x with in_checked _ c | in_reused _ c | in_claimed _ c => c end.
Definition flight_known (x : flight) w : Prop := known (tc_jti (ck_claims (flight_checked x))) (rt_familyId (ck_row (flight_checked x))) w.

(** A family that is used up stays so. *)
Context (dead : option string).
Definition cap (f : string) : nat := if decide (dead = Some f) then 0 else 1.

Record gateway_ok g : Prop := {
  go_ids : NoDup (rt_id <$> tw_rows (gt_world g));
  go_families r : r ∈ tw_rows (gt_world g) → ∃ n, (n < tw_uuids (gt_world g))%nat ∧ rt_familyId r = uuid n;
  go_known x : x ∈ gt_flights g → flight_known x (gt_world g);
  go_one f : (live_in f (gt_world g) + pending_in f (gt_flights g) ≤ cap f)%nat;
  go_dead f : dead = Some f → ∃ n, (n < tw_uuids (gt_world g))%nat ∧ f = uuid n
}.

Lemma pending_perm f l l' : l ≡ₚ l' → pending_in f l = pending_in f l'.
Proof.
  intros Hp. unfold pending_in. induction Hp as [| x l l' _ IH | x y l | l1 l2 l3 _ IH1 _ IH2]; simpl; [done | destruct (is_pending f x); simpl; congruence | | congruence].
  destruct (is_pending f x), (is_pending f y); done.
Qed.

Lemma pending_filter f (p : flight → bool) l : (pending_in f (List.filter p l) ≤ pending_in f l)%nat.
Proof. unfold pending_in. induction l as [| x l IH]; simpl; [done |]. destruct (p x); simpl; destruct (is_pending f x); simpl; lia. Qed.

(** Statements that only revoke, with flights that do not claim more. *)
Lemma shrinks_ok g w' (l : list flight) :
  gateway_ok g → shrinks (gt_world g) w' → (∀ x, x ∈ l → flight_known x w') → (∀ f, (pending_in f l ≤ pending_in f (gt_flights g))%nat) → gateway_ok (Gateway w' l).
Proof.
  intros [H1 H2 H3 H4 H5] Hs Hk Hp. split; simpl; [by rewrite (shrinks_ids _ _ Hs) | | done | |].
  - apply (shrinks_families (gt_world g) w' (λ f, ∃ n, (n < tw_uuids w')%nat ∧ f = uuid n) Hs). intros r Hr. destruct (H2 r Hr) as (n & Hn & Hf). destruct Hs as [_ Hu]. exists n. split; [lia | done].
  - intros f. pose proof (shrinks_live f _ _ Hs). specialize (H4 f). specialize (Hp f). lia.
  - intros f Hf. destruct (H5 f Hf) as (n & ? & ?). destruct Hs as [_ Hu]. exists n. split; [lia | done].
Qed.

Lemma flights_later g w' (l : list flight) : gateway_ok g → shrinks (gt_world g) w' → (∀ x, x ∈ l → x ∈ gt_flights g) → ∀ x, x ∈ l → flight_known x w'.
Proof. intros Hg Hs Hl x Hx. apply (shrinks_known _ _ _ _ Hs). apply (go_known _ Hg). by apply Hl. Qed.

Lemma same_flights_ok g w' : gateway_ok g → shrinks (gt_world g) w' → gateway_ok (Gateway w' (gt_flights g)).
Proof. intros Hg Hs. apply (shrinks_ok g); [done | done | by apply (flights_later g) | done]. Qed.

Lemma live_app f w row : live_in f (set_token_rows (λ rows, rows ++ [row]) w) = (live_in f w + if is_live f row then 1 else 0)%nat.
Proof. unfold live_in. simpl. rewrite List.filter_app, length_app. f_equal. simpl. by destruct (is_live f row). Qed.

Lemma filter_empty {A} (p : A → bool) (l : list A) : (∀ x, x ∈ l → p x = false) → List.filter p l = [].
Proof. intros H. rewrite <- (List.filter_false l). apply filter_ext_in. intros x Hx. by apply H, list_elem_of_In. Qed.

Lemma fresh_family g n : gateway_ok g → (tw_uuids (gt_world g) ≤ n)%nat →
  live_in (uuid n) (gt_world g) = 0%nat ∧ pending_in (uuid n) (gt_flights g) = 0%nat.
Proof.
  intros [_ H2 H3 _ _] Hn. assert (∀ r, r ∈ tw_rows (gt_world g) → rt_familyId r ≠ uuid n) as Hne.
  { intros r Hr Hf. destruct (H2 r Hr) as (m & Hm & Hfm). assert (m = n) by (apply uuid_inj; congruence). lia. }
  unfold live_in, pending_in. rewrite !filter_empty; [done | |].
  - intros x Hx. destruct (H3 x Hx) as (r & Hr & _ & Hf). destruct x as [| | replica c]; [done | done |]. simpl in *. apply String.eqb_neq. rewrite <- Hf. by apply Hne.
  - intros r Hr. unfold is_live. destruct (String.eqb_spec (rt_familyId r) (uuid n)); [by apply Hne in Hr | done].
Qed.

(** A token is created: its family is new, or a claim of it is used up. *)
Lemma create_token_ok userId binding scope familyId g (l : list flight) :
  gateway_ok g → (∀ x, x ∈ l → x ∈ gt_flights g) → (∀ f, (pending_in f l + (if decide (familyId = Some f) then 1 else 0) ≤ pending_in f (gt_flights g))%nat) →
  (∀ f, familyId = Some f → ∃ n, (n < tw_uuids (gt_world g))%nat ∧ f = uuid n) →
  gateway_ok (Gateway (createRefreshToken userId binding scope familyId (gt_world g)).2 l).
Proof.
  intros Hg Hl Hp Hfam. destruct (create_cases userId binding scope familyId (gt_world g)) as [Hu [Hr | (row & Hr & Hi & Hf)]].
  { apply (shrinks_ok g); [done | by apply shrinks_same | apply (flights_later g); [done | by apply shrinks_same | done] |]. intros f. specialize (Hp f). lia. }
  set (w' := (createRefreshToken userId binding scope familyId (gt_world g)).2) in *. pose proof Hg as [H1 H2 H3 H4 H5].
  assert (∃ n, (n < tw_uuids w')%nat ∧ rt_familyId row = uuid n) as Hn.
  { destruct familyId as [f |]; [| destruct Hf as (n & ? & ?); exists n; split; [lia | done]]. destruct (Hfam f eq_refl) as (n & Hn & ->). exists n. split; [lia | done]. }
  split; simpl.
  - rewrite Hr, fmap_app. apply NoDup_app. split; [done |]. split; [| apply NoDup_singleton]. by intros i Hin ->%list_elem_of_singleton.
  - intros r. rewrite Hr. intros [Hin | ->%list_elem_of_singleton]%elem_of_app; [| done]. destruct (H2 r Hin) as (n & ? & ?). exists n. split; [lia | done].
  - intros x Hx. destruct (H3 x (Hl x Hx)) as (r & Hin & ?). exists r. split; [| done]. rewrite Hr. apply elem_of_app. by left.
  - intros f. specialize (Hp f). specialize (H4 f). assert (live_in f w' ≤ live_in f (gt_world g) + if decide (rt_familyId row = f) then 1 else 0)%nat as Hlive.
    { unfold live_in. rewrite Hr, List.filter_app, length_app. simpl.
      assert (is_live f row = true → rt_familyId row = f) as Hlf by (intros [? _]%andb_true_iff; by apply String.eqb_eq).
      destruct (is_live f row), (decide (rt_familyId row = f)) as [| Hne]; simpl; try lia. by destruct (Hne (Hlf eq_refl)). }
    destruct familyId as [f0 |].
    + subst f0. destruct (decide (rt_familyId row = f)), (decide (Some (rt_familyId row) = Some f)); try congruence; lia.
    + destruct (decide (rt_familyId row = f)) as [<- |]; [| destruct (decide (None = Some f)); lia].
      destruct Hf as (n & Hn' & Hf). rewrite Hf in *. destruct (fresh_family g n) as [E1 E2]; [done | lia |].
      assert (cap (uuid n) = 1%nat) as -> by (unfold cap; rewrite decide_False; [done |]; intros (m & Hm & ->%uuid_inj)%H5; lia).
      destruct (decide (None = Some (uuid n))); [done | lia].
  - intros f Hdf. destruct (H5 f Hdf) as (n & ? & ?). exists n. split; [lia | done].
Qed.

Lemma rotate_flight_ok replica raw binding c w1 g :
  gateway_ok g → check_refresh replica raw binding (gt_world g) = (inr c, w1) → gateway_ok (Gateway w1 (in_checked replica c :: gt_flights g)).
Proof.
  intros Hg Hc. destruct (check_refresh_inr _ _ _ _ _ _ Hc) as (w0 & Hs0 & Hrow & Hs1).
  assert (shrinks (gt_world g) w1) as Hs by (by etrans). apply (shrinks_ok g); [done | done | | done].
  intros x [-> | Hx]%elem_of_cons; [| by apply (flights_later g w1 (gt_flights g))]. apply (shrinks_known _ _ w0 w1 Hs1). exists (ck_row c).
  apply find_some in Hrow as [Hin Hid]. split; [by apply list_elem_of_In |]. split; [by apply String.eqb_eq | done].
Qed.

(** A claim takes the one live token of its family. *)
Lemma claim_flight_ok replica c rest w1 g :
  gateway_ok g → gt_flights g ≡ₚ in_checked replica c :: rest → claim_refresh c (gt_world g) = (inr true, w1) → gateway_ok (Gateway w1 (in_claimed replica c :: rest)).
Proof.
  intros Hg Hp Hc. pose proof Hg as [H1 H2 H3 H4 H5]. assert (shrinks (gt_world g) w1) as Hs by (change w1 with (snd (inr true : exn + bool, w1)); rewrite <- Hc; apply shrinks_claim).
  assert (flight_known (in_checked replica c) (gt_world g)) as Hk by (apply H3; rewrite Hp; by left).
  pose proof (claim_refresh_true c _ _ H1 Hk Hc) as Hone.
  destruct (shrinks_ok g w1 rest) as [K1 K2 K3 K4 K5]; [done | done | | |].
  { apply (flights_later g); [done | done |]. intros x Hx. rewrite Hp. by right. }
  { intros f. rewrite (pending_perm f _ _ Hp). done. }
  split; [done | done | | | done]; simpl.
  - intros x [-> | Hx]%elem_of_cons; [by apply (shrinks_known _ _ _ _ Hs) | by apply K3].
  - intros f. specialize (H4 f). specialize (K4 f). simpl in K4. rewrite (pending_perm f _ _ Hp) in H4. unfold pending_in in *. simpl in *.
    destruct (String.eqb_spec (rt_familyId (ck_row c)) f) as [<- |]; simpl; lia.
Qed.

Lemma gateway_step_ok op g : gateway_ok g → gateway_ok (gateway_step op g).
Proof.
  intros Hg. destruct op as [userId email binding | replica raw binding | i | replica token refreshToken userId reason | replica refreshToken | familyId | replica token chk | replica token | userId email | replica | ms]; unfold gateway_step; cbv zeta.
  - unfold issueTokenPair. rewrite (bind_run (signAccessToken _ _ _ _ _) _ (gt_world g) _ (count_uuid (gt_world g)) eq_refl), after_pure by done.
    apply (create_token_ok userId binding "openid" None (Gateway (count_uuid (gt_world g)) (gt_flights g))); [| done | | done].
    + apply same_flights_ok; [done |]. apply shrinks_same; [done | simpl; lia].
    + intros f. destruct (decide (None = Some f)); [done | simpl; lia].
  - pose proof (shrinks_check replica raw binding (gt_world g)) as Hs. destruct (check_refresh replica raw binding (gt_world g)) as [[e | c] w1] eqn:Hc; simpl in Hs; [by apply same_flights_ok |].
    destruct (cf_rotationEnabled tk_config); [by apply (rotate_flight_ok replica raw binding) |]. apply same_flights_ok; [done |]. etrans; [exact Hs | apply shrinks_rotated].
  - destruct (pick i (gt_flights g)) as [[x rest] |] eqn:Hpick; [| done]. apply pick_perm in Hpick.
    assert (∀ f, (pending_in f rest ≤ pending_in f (gt_flights g))%nat) as Hle by (intros f; rewrite (pending_perm f _ _ Hpick); unfold pending_in; simpl; destruct (is_pending f x); simpl; lia).
    assert (∀ y, y ∈ rest → y ∈ gt_flights g) as Hin by (intros y Hy; rewrite Hpick; by right).
    destruct x as [replica c | replica c | replica c].
    + pose proof (shrinks_claim c (gt_world g)) as Hs. destruct (claim_refresh c (gt_world g)) as [[e | [|]] w1] eqn:Hc; simpl in Hs; [| by apply (claim_flight_ok replica c rest w1 g) |].
      * apply (shrinks_ok g); [done | done | by apply (flights_later g) | done].
      * apply (shrinks_ok g); [done | done | | done]. intros y [-> | Hy]%elem_of_cons; [| by apply (flights_later g _ rest)].
        apply (shrinks_known _ _ _ _ Hs). apply (go_known _ Hg (in_checked replica c)). rewrite Hpick. by left.
    + apply (shrinks_ok g); [done | apply shrinks_reuse | apply (flights_later g); [done | apply shrinks_reuse | done] | done].
    + assert (gateway_ok (Gateway (createRefreshToken (rt_userId (ck_row c)) (ck_binding c) (tc_scope (ck_claims c)) (Some (rt_familyId (ck_row c))) (gt_world g)).2 rest)) as Hcr.
      { apply create_token_ok; [done | done | |].
        - intros f. rewrite (pending_perm f _ _ Hpick). unfold pending_in. simpl. destruct (String.eqb_spec (rt_familyId (ck_row c)) f), (decide (Some (rt_familyId (ck_row c)) = Some f)); simpl; try lia; congruence.
        - intros f [= <-]. destruct (go_known _ Hg (in_claimed replica c)) as (r & Hr & _ & Hf); [rewrite Hpick; by left |]. simpl in Hf. rewrite <- Hf. by apply (go_families _ Hg). }
      unfold next_pair, mbind, M_bind. destruct (createRefreshToken _ _ _ _ _) as [[e | refreshToken] w1]; [done |]. simpl in Hcr.
      pose proof (shrinks_rotated c w1) as Hs. destruct (rotated_access c w1) as [[e | accessToken] w2]; by apply (same_flights_ok (Gateway w1 rest)).
  - apply same_flights_ok; [done | apply shrinks_revokeTokens].
  - apply same_flights_ok; [done | apply shrinks_logout].
  - apply same_flights_ok; [done | apply shrinks_family].
  - apply same_flights_ok; [done | apply shrinks_access].
  - apply same_flights_ok; [done | apply shrinks_introspect].
  - apply same_flights_ok; [done | by apply shrinks_same].
  - apply (shrinks_ok g); [done | by apply shrinks_same | | intros f; apply pending_filter].
    apply (flights_later g); [done | by apply shrinks_same |]. intros x Hx. apply list_elem_of_In, filter_In in Hx as [Hx _]. by apply list_elem_of_In.
  - apply same_flights_ok; [done | by apply shrinks_same].
Qed.

Lemma gateway_run_ok ops g : gateway_ok g → gateway_ok (gateway_run ops g).
Proof. revert g. induction ops as [| op ops IH]; intros g Hg; [done |]. apply IH. by apply gateway_step_ok. Qed.

End invariant.

Section theorems.
Context `{SG : Signer} `{TE : TokenEnv} `{!UuidLaws TE}.

Lemma gateway_start_ok now : gateway_ok None (gateway_start now).
Proof. split; simpl; [constructor | by intros r ?%elem_of_nil | by intros x ?%elem_of_nil | intros f; unfold live_in, pending_in; simpl; lia | done]. Qed.

Lemma cap_none f : cap None f = 1%nat.
Proof. done. Qed.

(** C26. At any time a family of refresh tokens has at most one token that can be exchanged,
    counting the one that a rotation in flight is about to create: whatever the requests
    of the replicas, in any interleaving of their statements, with failed and lost
    calls and crashes. *)
Theorem one_live_token ops now family :
  let g := gateway_run ops (gateway_start now) in
  (live_in family (gt_world g) + pending_in family (gt_flights g) ≤ 1)%nat.
Proof. cbv zeta. rewrite <- (cap_none family). apply (go_one None), gateway_run_ok, gateway_start_ok. Qed.

Lemma family_revoked f w : tk_fate (tw_calls w) = CallOk →
  ∃ w', revokeRefreshFamily f w = (inr (), w') ∧ live_in f w' = 0%nat ∧ shrinks w w'.
Proof.
  intros Hf. pose proof (shrinks_family f w) as Hs. unfold revokeRefreshFamily, write, call in *. change (next_fate w) with (tk_fate (tw_calls w)) in *. rewrite Hf in *. eexists. split; [done |].
  split; [| exact Hs]. unfold live_in. rewrite filter_empty; [done |]. intros r Hr. simpl in Hr. apply list_elem_of_In, in_map_iff in Hr as (r0 & <- & _).
  destruct (String.eqb (rt_familyId r0) f) eqn:Hr0; unfold is_live; [apply andb_false_r | by rewrite Hr0].
Qed.

(** C27. Reuse of a refresh token that was exchanged before is detected and kills its
    family: with rotation enabled, when a token whose row is revoked passes the checks
    that come before (it verifies and is not on the revocation list, its row is found with
    its secret, it has not expired, its device fits) and the database answers, the
    rotation fails with the error of the reuse, and, unless another rotation of the family
    is in flight, no token of the family can be exchanged ever again, whatever happens
    after. *)
Theorem reuse_kills_family ops ops' now replica raw binding c w1 :
  let g := gateway_run ops (gateway_start now) in
  cf_rotationEnabled tk_config = true →
  check_refresh replica raw binding (gt_world g) = (inr c, w1) → rt_revokedAt (ck_row c) ≠ None → tk_fate (tw_calls w1) = CallOk →
  pending_in (rt_familyId (ck_row c)) (gt_flights g) = 0%nat →
  ∃ w2, rotateRefreshToken replica raw binding (gt_world g) = (inl (Error "Token reuse detected"), w2) ∧
  let g' := gateway_run ops' (Gateway w2 (gt_flights g)) in
  live_in (rt_familyId (ck_row c)) (gt_world g') = 0%nat ∧ pending_in (rt_familyId (ck_row c)) (gt_flights g') = 0%nat.
Proof.
  intros g Hrot Hc Hrev Hfate Hpend. pose proof (gateway_run_ok None ops _ (gateway_start_ok now)) as Hg. fold g in Hg. set (f := rt_familyId (ck_row c)) in *.
  destruct (family_revoked f w1 Hfate) as (w2 & Hrun & Hlive & Hs2). exists w2. split.
  { unfold rotateRefreshToken. rewrite (bind_run _ _ _ _ _ Hc), Hrot. cbn [negb]. unfold claim_refresh.
    destruct (rt_revokedAt (ck_row c)); [| done]. rewrite (bind_run (mret false) _ w1 _ w1 eq_refl). unfold reject_reuse. fold f. by rewrite (bind_run _ _ _ _ _ Hrun). }
  assert (shrinks (gt_world g) w1) as Hs1 by (change w1 with (snd (inr c : exn + checked, w1)); rewrite <- Hc; apply shrinks_check).
  assert (gateway_ok (Some f) (Gateway w2 (gt_flights g))) as Hok.
  { pose proof (same_flights_ok None g w2 Hg ltac:(by etrans)) as [K1 K2 K3 K4 _]. split; [done | done | done | |].
    - intros f'. unfold cap. destruct (decide (Some f = Some f')) as [[= <-] |]; [simpl; rewrite Hlive, Hpend; lia | apply (K4 f')].
    - intros f' [= <-]. destruct (rotate_flight_ok None replica raw binding c w1 g Hg Hc) as [_ _ L3 _ _].
      destruct (L3 (in_checked replica c)) as (r & Hr & _ & Hf); [by left |]. simpl in Hr, Hf. destruct Hs2 as [Hs2 Hu2].
      destruct (shrinks_known (rt_id r) f w1 w2) as (r' & Hr' & _ & Hf'); [by split | by exists r |]. unfold f in Hf'. fold f in Hf'. rewrite <- Hf'. by apply K2. }
  pose proof (go_one _ _ (gateway_run_ok (Some f) ops' _ Hok) f) as Hz. unfold cap in Hz. rewrite decide_True in Hz by done. cbv zeta. split; lia.
Qed.
End theorems.

(** ** Issuing and revoking *)

(** What the key store promises: a token it signed verifies, with the clock tolerance, from
    [nbf] to [exp]. *)
Definition valid_at `{TE : TokenEnv} (tolerance now : Z) (p : jwt_payload) : Prop :=
  pl_iss p = Some (cf_issuer tk_config) ∧ pl_aud p = Some (cf_audience tk_config) ∧
  (∀ e, pl_exp p = Some e → now / 1000 < e + tolerance) ∧ ∀ b, pl_nbf p = Some b → b ≤ now / 1000 + tolerance.

Class SignerLaws (SG : Signer) (TE : TokenEnv) (tolerance : Z) := {
  sg_accepts now p : valid_at tolerance now p → sg_verify now (sg_sign p) = inr (Some p);
  sg_tolerance : 0 ≤ tolerance
}.

Section revocation.
Context `{SG : Signer} `{TE : TokenEnv}.
Implicit Types w : tworld.

Lemma ttl_covers now entry : now < rk_expiresAt entry → rk_expiresAt entry ≤ now + ttlSecondsFor now entry * 1000.
Proof.
  intros Hlt. unfold ttlSecondsFor. destruct (Z.ltb_spec 0 (rk_expiresAt entry - now)); [| lia].
  pose proof (Z.div_mod (rk_expiresAt entry - now + 999) 1000). pose proof (Z.mod_pos_bound (rk_expiresAt entry - now + 999) 1000). lia.
Qed.

(** The key in Redis after a revocation. *)
Lemma revokeToken_redis replica entry w :
  tk_fate (tw_calls w) = CallOk →
  jget (rk_jti entry) (tw_redis (revokeToken replica entry w).2) = Some (tw_now w + ttlSecondsFor (tw_now w) entry * 1000) ∧
  (∃ u, (revokeToken replica entry w).1 = inr u).
Proof.
  intros Hf. unfold revokeToken, pruneCache, try_catch, write, call, modify, mbind, M_bind. simpl. rewrite Hf. simpl.
  destruct (tk_fate (S (tw_calls w))); simpl; rewrite jget_jset_eq; eauto.
Qed.

Lemma isTokenRevoked_redis replica jti w expiry :
  jti ≠ "" → jget jti (tw_redis w) = Some expiry → tw_now w < expiry → tk_fate (tw_calls w) = CallOk → ∃ w', isTokenRevoked replica jti w = (inr true, w').
Proof.
  intros Hj Hr Hlt Hf. unfold isTokenRevoked, isTokenRevokedSync, pruneCache, try_catch, ask, call, gets, modify, mbind, M_bind. destruct (String.eqb_spec jti ""); [done |]. simpl.
  destruct (jget jti (cache_of replica _)); [by eexists |]. simpl. rewrite Hf. unfold redis_has. simpl. rewrite Hr. destruct (Z.ltb_spec (tw_now w) expiry); [by eexists | lia].
Qed.

(** The claims of a payload with its user, jti and expiry. *)
Lemma normalizeClaims_run p w user jti e :
  pl_userId p = Some user → user ≠ "" → pl_jti p = Some jti → pl_exp p = Some e → pl_tokenType p = Some "Bearer" →
  ∃ claims, normalizeClaims p w = (inr claims, w) ∧ tc_userId claims = user ∧ tc_jti claims = jti ∧ tc_exp claims = e ∧ tc_tokenType claims = tt_Bearer ∧
    tc_email claims = pl_email p ∧ tc_roles claims = pl_roles p ∧ tc_deviceId claims = pl_deviceId p ∧ tc_scope claims = default "openid" (pl_scope p).
Proof.
  intros Hu Hne Hj He Ht. unfold normalizeClaims, throw_if, now_seconds, gets, mbind, M_bind. rewrite Hu, Hj, He, Ht. simpl.
  destruct (String.eqb_spec user ""); [done |]. eexists. split; [done |]. done.
Qed.

(** A revoked access token is rejected by every replica until it expires: with the
    write of the revocation and the later read of Redis answered, a token that still
    verifies is refused as revoked. *)
Theorem revoked_everywhere replica other token userId reason p user jti e w w' :
  sg_verify (tw_now w) token = inr (Some p) → token ≠ "" → pl_userId p = Some user → user ≠ "" → pl_jti p = Some jti → jti ≠ "" →
  pl_exp p = Some e → pl_tokenType p = Some "Bearer" → tk_fate (tw_calls w) = CallOk →
  let w1 := (revokeTokens replica (Some token) None userId reason w).2 in
  jget jti (tw_redis w') = jget jti (tw_redis w1) → tw_now w ≤ tw_now w' < e * 1000 → tk_fate (tw_calls w') = CallOk →
  sg_verify (tw_now w') token = inr (Some p) →
  ∃ w'', verifyAccessToken other token true w' = (inl (Error "Token has been revoked"), w'').
Proof.
  intros Hv Htok Hu Hne Hj Hjne He Ht Hf w1 Hredis [Hnow Hexp] Hf' Hv'.
  destruct (normalizeClaims_run p w user jti e Hu Hne Hj He Ht) as (claims & Hn & Hcu & Hcj & Hce & Hct & _).
  set (entry := revocation_entry claims userId reason (tw_now w)).
  assert (w1 = (revokeToken replica entry w).2) as Hw1.
  { unfold w1, revokeTokens, revoke_access, revoke_refresh. destruct (String.eqb_spec token ""); [done |].
    erewrite (bind_run (try_catch _ _)); [| unfold try_catch, verifyWithStore, answer, some_or_throw, gets, mbind, M_bind; rewrite Hv; simpl; by rewrite Hn, Hct].
    rewrite (bind_run (mret _) _ w ([], false) w eq_refl). cbv beta. rewrite after_pure by done. rewrite bool_decide_eq_true_2 by done. cbn [app for_each fst]. fold entry. by rewrite after_pure. }
  destruct (revokeToken_redis replica entry w Hf) as [Hr _]. rewrite <- Hw1 in Hr. change (rk_jti entry) with (tc_jti claims) in Hr. rewrite Hcj in Hr. rewrite Hr in Hredis.
  assert (rk_expiresAt entry = e * 1000) as Hee by (simpl; by rewrite Hce). pose proof (ttl_covers (tw_now w) entry ltac:(lia)) as Hc.
  destruct (normalizeClaims_run p w' user jti e Hu Hne Hj He Ht) as (claims' & Hn' & _ & Hcj' & _ & Hct' & _).
  destruct (isTokenRevoked_redis other jti w' _ Hjne Hredis ltac:(lia) Hf') as [w2 Hrev]. exists w2. unfold verifyAccessToken.
  assert (verifyWithStore token w' = (inr p, w')) as Hvs by (unfold verifyWithStore, answer, some_or_throw, gets, mbind, M_bind; by rewrite Hv').
  rewrite (bind_run _ _ _ _ _ Hvs), (bind_run _ _ _ _ _ Hn'), Hct', bool_decide_eq_true_2 by done. rewrite (bind_run (throw_if (negb true) (Error "Invalid token type")) _ w' () w' eq_refl), Hcj'.
  by rewrite (bind_run _ _ _ _ _ Hrev).
Qed.

Lemma isTokenRevoked_unknown replica jti w :
  jget jti (cache_of replica w) = None → jget jti (tw_redis w) = None → ∃ w', isTokenRevoked replica jti w = (inr false, w').
Proof.
  intros Hc Hr. unfold isTokenRevoked, isTokenRevokedSync, pruneCache, try_catch, ask, call, gets, modify, mbind, M_bind. destruct (String.eqb_spec jti ""); [by eexists |]. simpl.
  assert (jget jti (cache_of replica (set_cache replica (List.filter (λ kv, tw_now w <? rk_expiresAt kv.2)) w)) = None) as ->.
  { unfold cache_of at 1. simpl. rewrite jget_jset_eq. simpl. apply jget_None_keys. apply jget_None_keys in Hc. intros Hin. apply Hc.
    apply list_elem_of_fmap in Hin as ([k v] & -> & Hin). apply list_elem_of_In, filter_In in Hin as [Hin _]. apply list_elem_of_fmap. exists (k, v). split; [done | by apply list_elem_of_In]. }
  unfold redis_has. simpl. rewrite Hr. destruct (tk_fate (tw_calls w)); by eexists.
Qed.

(** A token pair that was issued verifies: until the access token expires, every
    replica gives back the user, the email, the roles, the device and the scope it was
    issued for, unless its identifier was revoked. *)
Theorem issued_token_verifies tolerance `{!SignerLaws SG TE tolerance} userId email roles binding scope familyId w pair w1 replica w' :
  issueTokenPair userId email roles binding scope familyId w = (inr pair, w1) → userId ≠ "" →
  tw_now w ≤ tw_now w' → tw_now w' / 1000 < tw_now w / 1000 + cf_accessTokenTtlSeconds tk_config + tolerance →
  jget (uuid (tw_uuids w)) (cache_of replica w') = None → jget (uuid (tw_uuids w)) (tw_redis w') = None →
  ∃ claims w'', verifyAccessToken replica (tp_accessToken pair) true w' = (inr claims, w'') ∧
    tc_userId claims = userId ∧ tc_email claims = Some email ∧ tc_roles claims = Some (default ["user"] roles) ∧
    tc_deviceId claims = tb_deviceId <$> binding ∧ tc_scope claims = default "openid" scope.
Proof.
  intros Hrun Hne Hnow Hexp Hc Hr. unfold issueTokenPair in Hrun. rewrite (bind_run (signAccessToken _ _ _ _ _) _ w _ (count_uuid w) eq_refl) in Hrun.
  apply bind_inr in Hrun as (refreshToken & w2 & _ & Hrun). injection Hrun as <- <-. simpl tp_accessToken.
  set (p := with_expiry _ _). assert (valid_at tolerance (tw_now w') p) as Hv.
  { split; [done |]. split; [done |]. pose proof sg_tolerance. split; [by intros e [= <-] |]. intros b [= <-]. pose proof (Z.div_le_mono (tw_now w) (tw_now w') 1000). lia. }
  pose proof (sg_accepts _ _ Hv) as Hs. destruct (normalizeClaims_run p w' userId (uuid (tw_uuids w)) (tw_now w / 1000 + cf_accessTokenTtlSeconds tk_config)) as (claims & Hn & C1 & C2 & C3 & C4 & C5 & C6 & C7 & C8); try done.
  destruct (isTokenRevoked_unknown replica (uuid (tw_uuids w)) w' Hc Hr) as [w2' Hrev]. exists claims, w2'. unfold verifyAccessToken.
  assert (verifyWithStore (sg_sign p) w' = (inr p, w')) as Hvs by (unfold verifyWithStore, answer, some_or_throw, gets, mbind, M_bind; by rewrite Hs).
  rewrite (bind_run _ _ _ _ _ Hvs), (bind_run _ _ _ _ _ Hn), C4, bool_decide_eq_true_2 by done. rewrite (bind_run (throw_if (negb true) (Error "Invalid token type")) _ w' () w' eq_refl), C2.
  by rewrite (bind_run _ _ _ _ _ Hrev).
Qed.
End revocation.

(** ** Examples *)

(** A signer whose tokens are their payloads, written down bit by bit. *)
Module signer_example.
Definition field : Type := option (string + Z + list string).
Definition text (o : option string) : field := (λ s, inl (inl s)) <$> o.
Definition number (o : option Z) : field := (λ z, inl (inr z)) <$> o.
Definition get_text (f : field) : option string := match f with Some (inl (inl s)) => Some s | _ => None end.
Definition get_number (f : field) : option Z := match f with Some (inl (inr z)) => Some z | _ => None end.

Definition fields (p : jwt_payload) : list field :=
  [text (pl_sub p); text (pl_userId p); text (pl_email p); inr <$> pl_roles p; text (pl_jti p); text (pl_scope p); text (pl_tokenType p); text (pl_deviceId p);
   text (pl_fingerprint p); text (pl_familyId p); text (pl_secret p); number (pl_iat p); number (pl_exp p); number (pl_nbf p); text (pl_iss p); text (pl_aud p)].
Definition of_fields (l : list field) : jwt_payload :=
  let f i := default None (l !! i) in
  {| pl_sub := get_text (f 0%nat); pl_userId := get_text (f 1%nat); pl_email := get_text (f 2%nat);
     pl_roles := match f 3%nat with Some (inr r) => Some r | _ => None end; pl_jti := get_text (f 4%nat); pl_scope := get_text (f 5%nat);
     pl_tokenType := get_text (f 6%nat); pl_deviceId := get_text (f 7%nat); pl_fingerprint := get_text (f 8%nat); pl_familyId := get_text (f 9%nat);
     pl_secret := get_text (f 10%nat); pl_iat := get_number (f 11%nat); pl_exp := get_number (f 12%nat); pl_nbf := get_number (f 13%nat);
     pl_iss := get_text (f 14%nat); pl_aud := get_text (f 15%nat) |}.
Lemma of_fields_fields p : of_fields (fields p) = p.
Proof.
  destruct p. unfold of_fields, fields. cbn.
  f_equal; match goal with |- _ = ?o => by destruct o end.
Qed.
#[export] Instance payload_eq_dec : EqDecision jwt_payload.
Proof. solve_decision. Defined.
#[export] Instance payload_countable : Countable jwt_payload := inj_countable' fields of_fields of_fields_fields.

Fixpoint bits (p : positive) : string :=
  match p with xH => "1" | xO q => String "a" (bits q) | xI q => String "b" (bits q) end.
Fixpoint unbits (s : string) : option positive :=
  match s with
  | String "1" EmptyString => Some xH
  | String "a" s' => xO <$> unbits s'
  | String "b" s' => xI <$> unbits s'
  | _ => None
  end.
Lemma unbits_bits p : unbits (bits p) = Some p.
Proof. induction p as [p IH | p IH |]; simpl; [by rewrite IH | by rewrite IH | done]. Qed.

#[export] Instance env : TokenEnv := {|
  tk_fate n := CallOk; uuid n := bits (Pos.of_succ_nat n); bcrypt_hash secret _ := secret +:+ "#"; bcrypt_compare secret hash := String.eqb (secret +:+ "#") hash;
  tk_config := {| cf_accessTokenTtlSeconds := 900; cf_refreshTokenTtlSeconds := 604800; cf_rotationEnabled := true; cf_issuer := "delego-gateway";
                  cf_audience := "delego-clients" |} |}.

Definition valid (now : Z) (p : jwt_payload) : bool :=
  bool_decide (pl_iss p = Some "delego-gateway") && bool_decide (pl_aud p = Some "delego-clients") &&
  match pl_exp p with Some e => now / 1000 <? e + 5 | None => true end && match pl_nbf p with Some b => b <=? now / 1000 + 5 | None => true end.

#[export] Instance signer : Signer := {|
  sg_sign p := bits (encode p);
  sg_verify now token :=
    match unbits token ≫= decode with
    | Some p => if valid now p then inr (Some p) else inl (Exn "JsonWebTokenError" "jwt expired")
    | None => inl (Exn "JsonWebTokenError" "invalid token")
    end |}.

#[export] Instance signer_laws : SignerLaws signer env 5.
Proof.
  split; [| done]. intros now p (Hi & Ha & He & Hn). simpl. rewrite unbits_bits. simpl. rewrite decode_encode. unfold valid. rewrite Hi, Ha.
  rewrite !bool_decide_eq_true_2 by done. simpl. destruct (pl_exp p) as [e |]; [rewrite (proj2 (Z.ltb_lt _ _) (He e eq_refl)) |]; simpl;
    (destruct (pl_nbf p) as [b |]; [by rewrite (proj2 (Z.leb_le _ _) (Hn b eq_refl)) | done]).
Qed.

#[export] Instance uuid_laws : UuidLaws env.
Proof.
  split. intros n m H. simpl in H. apply (f_equal unbits) in H. rewrite !unbits_bits in H. injection H as H. lia.
Qed.

(** The user logs in; [refresh] is the refresh token of the pair. *)
Definition login : gateway_op := g_issue "alice" "alice@x" None.
Definition refresh : string := match (issueTokenPair "alice" "alice@x" None None None None (empty_tworld 0)).1 with inr tokens => tp_refreshToken tokens | inl _ => "" end.
Definition access : string := match (issueTokenPair "alice" "alice@x" None None None None (empty_tworld 0)).1 with inr tokens => tp_accessToken tokens | inl _ => "" end.
Definition family : string := uuid 2.
End signer_example.
#[local] Existing Instances signer_example.env signer_example.signer signer_example.signer_laws signer_example.uuid_laws.
Import signer_example (login, refresh, access, family).

(** Two clients present the same token; one exchanges it, the other is found out. *)
Lemma one_live_token_witness :
  let g := gateway_run [login; g_rotate "a" refresh None; g_rotate "b" refresh None; g_step 1; g_step 0] (gateway_start 0) in
  live_in family (gt_world g) = 1%nat ∧ pending_in family (gt_flights g) = 0%nat ∧
  (live_in family (gt_world g) + pending_in family (gt_flights g) ≤ 1)%nat.
Proof.
  split; [by vm_compute |]. split; [by vm_compute |].
  exact (one_live_token [login; g_rotate "a" refresh None; g_rotate "b" refresh None; g_step 1; g_step 0] 0 family).
Defined.

(** The world after the exchange, and what the check of the reused token finds there. *)
Definition exchanged : list gateway_op := [login; g_rotate "a" refresh None; g_step 0; g_step 0].
Definition reused : checked :=
  match (check_refresh "b" refresh None (gt_world (gateway_run exchanged (gateway_start 0)))).1 with
  | inr c => c
  | inl _ => Checked {| tc_sub := ""; tc_userId := ""; tc_email := None; tc_roles := None; tc_jti := ""; tc_deviceId := None; tc_fingerprint := None; tc_scope := "";
                        tc_tokenType := tt_refresh; tc_familyId := None; tc_secret := None; tc_iat := 0; tc_exp := 0; tc_nbf := None; tc_iss := None; tc_aud := None |}
               {| rt_id := ""; rt_userId := ""; rt_tokenHash := ""; rt_familyId := ""; rt_expiresAt := 0; rt_revokedAt := None |} None None
  end.

Lemma reuse_kills_family_witness :
  ∃ w2, rotateRefreshToken "b" refresh None (gt_world (gateway_run exchanged (gateway_start 0))) = (inl (Error "Token reuse detected"), w2) ∧
  let g' := gateway_run [g_rotate "c" refresh None; login] (Gateway w2 (gt_flights (gateway_run exchanged (gateway_start 0)))) in
  live_in (rt_familyId (ck_row reused)) (gt_world g') = 0%nat ∧ pending_in (rt_familyId (ck_row reused)) (gt_flights g') = 0%nat.
Proof.
  apply (reuse_kills_family exchanged [g_rotate "c" refresh None; login] 0 "b" refresh None reused
    (check_refresh "b" refresh None (gt_world (gateway_run exchanged (gateway_start 0)))).2); by vm_compute.
Defined.

Lemma revoked_everywhere_witness :
  ∃ w'', verifyAccessToken "b" access true
    (gt_world (gateway_run [login; g_revoke "a" (Some access) None None rr_logout; g_wait 100000] (gateway_start 0))) =
    (inl (Error "Token has been revoked"), w'').
Proof.
  pose (w := gt_world (gateway_run [login] (gateway_start 0))).
  pose (p := match sg_verify 0 access with inr (Some p) => p | _ => refresh_payload "" None "" "" "" "" 0 end).
  apply (revoked_everywhere "a" "b" access None rr_logout p "alice" (signer_example.bits 1) 900 w
    (gt_world (gateway_run [login; g_revoke "a" (Some access) None None rr_logout; g_wait 100000] (gateway_start 0)))); by vm_compute.
Defined.

Lemma issued_token_verifies_witness :
  ∃ claims w'', verifyAccessToken "a" (tp_accessToken (token_pair access refresh "openid")) true (gt_world (gateway_run [login; g_wait 600000] (gateway_start 0))) = (inr claims, w'') ∧
    tc_userId claims = "alice" ∧ tc_email claims = Some "alice@x" ∧ tc_roles claims = Some (default ["user"] None) ∧
    tc_deviceId claims = tb_deviceId <$> None ∧ tc_scope claims = default "openid" None.
Proof.
  apply (issued_token_verifies 5 "alice" "alice@x" None None None None (empty_tworld 0) (token_pair access refresh "openid")
    (issueTokenPair "alice" "alice@x" None None None None (empty_tworld 0)).2 "a"); by vm_compute.
Defined.

(** A token revoked at 100 s is accepted again 2 s after its expiry at 900 s: the
    revocation is forgotten at the expiry, the clock tolerance goes on for 5 s. *)
Lemma revoked_token_revives :
  let g ms := gateway_run [login; g_wait 100000; g_revoke "a" (Some access) None None rr_logout; g_wait ms] (gateway_start 0) in
  (verifyAccessToken "a" access true (gt_world (g 700000))).1 = inl (Error "Token has been revoked") ∧
  ∃ claims, (verifyAccessToken "a" access true (gt_world (g 802000))).1 = inr claims ∧ tc_userId claims = "alice".
Proof. split; [by vm_compute |]. eexists. by vm_compute. Qed.

(** A reuse detected while another rotation is in flight revokes the family before the
    new token is created: the new token is live. *)
Lemma revoked_family_revives :
  let g := gateway_run [login; g_rotate "a" refresh None; g_rotate "b" refresh None; g_step 0; g_step 1; g_step 0; g_step 0] (gateway_start 0) in
  live_in family (gt_world g) = 1%nat ∧ gt_flights g = [].
Proof. by vm_compute. Qed.
