(* ===== verification/TokenKeys.v ===== *)
(** * The signing keys (apps/backend/gateway/src/auth/tokenKeys.ts)

    The key store with rotation: the current key signs, retired keys verify until they
    expire.  Keys are texts; jsonwebtoken, the generation of keys and key identifiers, the
    parsing of the header and the configuration are parameters.  The store is the [Signer]
    of the token manager (Tokens.v). *)
From S2P Require Import Prelude JsLib JsCollections Services Tokens TokensCorrect.
Local Open Scope Z_scope.

Inductive SigningAlgorithm := RS256 | ES256 | HS256.
#[export] Instance algorithm_eq_dec : EqDecision SigningAlgorithm.
Proof. solve_decision. Defined.
Definition algorithm_name (a : SigningAlgorithm) : string := match a with RS256 => "RS256" | ES256 => "ES256" | HS256 => "HS256" end.

Record SigningKeyMaterial := {
  sk_kid : string; sk_alg : SigningAlgorithm; sk_privateKey : option string; sk_publicKey : option string; sk_secret : option string;
  sk_createdAt : Z; sk_expiresAt : Z
}.

(** A key of the JWKS, without its numbers. *)
Record JWKSKey := { jw_kty : string; jw_kid : string; jw_alg : string }.

Record keystore := Keystore { ks_algorithm : SigningAlgorithm; ks_current : SigningKeyMaterial; ks_previous : list SigningKeyMaterial }.
(** The store, how many keys were made, and the time. *)
Record kworld := KWorld { kw_store : keystore; kw_made : nat; kw_now : Z }.

Class KeyEnv := {
  (** JWT_SIGNING_ALGORITHM, the two PEMs, JWT_KID, JWT_SECRET, NODE_ENV = production, JWT_KEY_ROTATION_DAYS *)
  ke_algorithm : option string; ke_private : option string; ke_public : option string; ke_kid : option string; ke_secret : option string;
  ke_production : bool; ke_rotationDays : Z;
  generateKid : nat → string;
  (** the n-th key pair that is generated, and the public key of a private one *)
  generated_key : SigningAlgorithm → nat → string;
  public_of : string → string;
  (** the header of a token: its parts, and what [JSON.parse] makes of the first *)
  token_parts : string → list string;
  parse_header : string → exn + (option string * option string);
  (** jsonwebtoken *)
  jwt_sign : jwt_payload → string → SigningAlgorithm → string → string;
  jwt_verify : Z → string → string → exn + option jwt_payload
}.

Definition max_safe_integer : Z := 9007199254740991.
Definition DEFAULT_JWT_SECRET : string := "change-me-in-production".
Definition rotation_ms (days : Z) : Z := Z.max 1 days * 24 * 60 * 60 * 1000.

Section keys.
Context `{KE : KeyEnv}.
Implicit Types w : kworld.

Definition resolveJwtSecret : exn + string :=
  match ke_secret with
  | Some s => if String.eqb s "" || String.eqb s DEFAULT_JWT_SECRET then
                if ke_production then inl (Error "JWT_SECRET must be set in production and must not equal the default development value") else inr DEFAULT_JWT_SECRET
              else inr s
  | None => if ke_production then inl (Error "JWT_SECRET must be set in production and must not equal the default development value") else inr DEFAULT_JWT_SECRET
  end.

Definition algorithmFor (env : option string) : SigningAlgorithm :=
  let alg := toUpperCase (default "RS256" env) in
  if String.eqb alg "HS256" then HS256 else if String.eqb alg "ES256" then ES256 else RS256.

(** The material of a key with this identifier; [made] counts the generated ones. *)
Definition loadOrCreateKey (alg : SigningAlgorithm) (kid : string) (made : nat) (now : Z) : exn + SigningKeyMaterial :=
  let key private public secret := {| sk_kid := kid; sk_alg := alg; sk_privateKey := private; sk_publicKey := public; sk_secret := secret;
                                      sk_createdAt := now; sk_expiresAt := max_safe_integer |} in
  match alg with
  | HS256 => match resolveJwtSecret with inl e => inl e | inr secret => inr (key None None (Some secret)) end
  | _ => match ke_private with
         | Some pem => inr (key (Some pem) ke_public None)
         | None => let private := generated_key alg made in inr (key (Some private) (Some (public_of private)) None)
         end
  end.

Definition new_store (alg : SigningAlgorithm) (now : Z) : exn + kworld :=
  match loadOrCreateKey alg (default (generateKid 0) ke_kid) 0 now with
  | inl e => inl e
  | inr key => inr (KWorld (Keystore alg key []) 1 now)
  end.

Definition set_store (s : keystore) w : kworld := KWorld s (kw_made w) (kw_now w).

Definition retire (expiresAt : Z) (k : SigningKeyMaterial) : SigningKeyMaterial := {|
  sk_kid := sk_kid k; sk_alg := sk_alg k; sk_privateKey := sk_privateKey k; sk_publicKey := sk_publicKey k; sk_secret := sk_secret k;
  sk_createdAt := sk_createdAt k; sk_expiresAt := expiresAt |}.

(** The retired key is in the list before the new one is made. *)
Definition rotate : M kworld SigningKeyMaterial :=
  modify (λ w, let s := kw_store w in
               let retired := retire (kw_now w + rotation_ms ke_rotationDays) (ks_current s) in
               set_store (Keystore (ks_algorithm s) retired (ks_previous s ++ [retired])) w);;
  made ← gets kw_made;
  now ← gets kw_now;
  alg ← gets (λ w, ks_algorithm (kw_store w));
  current ← answer (loadOrCreateKey alg (generateKid made) made now);
  modify (λ w, KWorld (Keystore (ks_algorithm (kw_store w)) current (ks_previous (kw_store w))) (S (kw_made w)) (kw_now w));;
  mret current.

Definition activeKeys : M kworld (list SigningKeyMaterial) :=
  modify (λ w, let s := kw_store w in
               set_store (Keystore (ks_algorithm s) (ks_current s) (List.filter (λ k, kw_now w <? sk_expiresAt k) (ks_previous s))) w);;
  gets (λ w, ks_previous (kw_store w) ++ [ks_current (kw_store w)]).

Definition getJwks : M kworld (list JWKSKey) :=
  keys ← activeKeys;
  mret (omap (λ k, match sk_alg k with
                   | HS256 => Some {| jw_kty := "oct"; jw_kid := sk_kid k; jw_alg := "HS256" |}
                   | RS256 => (λ _, {| jw_kty := "RSA"; jw_kid := sk_kid k; jw_alg := "RS256" |}) <$> sk_publicKey k
                   | ES256 => (λ _, {| jw_kty := "EC"; jw_kid := sk_kid k; jw_alg := "ES256" |}) <$> sk_publicKey k
                   end) keys).

(** The first key with the algorithm and, when the header names one, the identifier. *)
Definition key_matches (alg : string) (kid : option string) (k : SigningKeyMaterial) : bool :=
  String.eqb (algorithm_name (sk_alg k)) alg && (negb (truthy kid) || bool_decide (kid = Some (sk_kid k))).

Definition findVerificationKey (alg : string) (kid : option string) : M kworld (option string) :=
  keys ← activeKeys;
  match find (key_matches alg kid) keys with
  | Some k =>
      if String.eqb alg "HS256" then match sk_secret k with Some s => mret (Some s) | None => s ← answer resolveJwtSecret; mret (Some s) end
      else mret (sk_publicKey k)
  | None =>
      if String.eqb alg "HS256" then s ← answer resolveJwtSecret; mret (Some s)
      else gets (λ w, let current := ks_current (kw_store w) in
                      if String.eqb (algorithm_name (sk_alg current)) alg then sk_publicKey current else None)
  end.

Definition decodeJwtHeader (token : string) : exn + (string * option string) :=
  match token_parts token with
  | [first; _; _] =>
      match parse_header first with
      | inl e => inl e
      | inr (Some alg, kid) => if String.eqb alg "" then inl (Error "Malformed token header") else inr (alg, kid)
      | inr (None, _) => inl (Error "Malformed token header")
      end
  | _ => inl (Error "Malformed token")
  end.

Definition signing_material (k : SigningKeyMaterial) : string :=
  match sk_privateKey k with Some p => p | None => default "" (sk_secret k) end.

Definition sign (payload : jwt_payload) : M kworld string :=
  key ← gets (λ w, ks_current (kw_store w));
  mret (jwt_sign payload (signing_material key) (sk_alg key) (sk_kid key)).

(** An empty key is no key. *)
Definition verify (token : string) : M kworld (option jwt_payload) :=
  header ← answer (decodeJwtHeader token);
  key ← findVerificationKey header.1 header.2;
  if truthy key then now ← gets kw_now; answer (jwt_verify now token (default "" key))
  else throw (Error ("No verification key for alg " +:+ header.1)).
End keys.

(** ** Histories *)

Inductive key_op := k_rotate | k_wait (ms : Z) | k_verify (token : string) | k_jwks.

(** Identifiers are new each time. *)
Class KidLaws (KE : KeyEnv) := {
  kid_inj n m : generateKid n = generateKid m → n = m;
  kid_configured kid n : ke_kid = Some kid → kid ≠ generateKid n;
  kid_nonempty n : generateKid n ≠ "";
  kid_configured_nonempty kid : ke_kid = Some kid → kid ≠ ""
}.

Section history.
Context `{KE : KeyEnv}.
Implicit Types w : kworld.

Definition key_step (op : key_op) w : kworld :=
  match op with
  | k_rotate => (rotate w).2
  | k_wait ms => KWorld (kw_store w) (kw_made w) (kw_now w + Z.max 0 ms)
  | k_verify token => (verify token w).2
  | k_jwks => (getJwks w).2
  end.
Definition key_run (ops : list key_op) w : kworld := foldl (λ w op, key_step op w) w ops.

(** The part of a key that signs and verifies. *)
Definition material (k : SigningKeyMaterial) := (sk_alg k, sk_privateKey k, sk_publicKey k, sk_secret k).
Definition verification_key (k : SigningKeyMaterial) : option string := match sk_alg k with HS256 => sk_secret k | _ => sk_publicKey k end.

Definition all_keys w : list SigningKeyMaterial := ks_previous (kw_store w) ++ [ks_current (kw_store w)].
Definition kid_of (n : nat) : string := match n with O => default (generateKid 0) ke_kid | S _ => generateKid n end.

Record keys_ok w : Prop := {
  kk_kids k : k ∈ all_keys w → ∃ n, (n < kw_made w)%nat ∧ sk_kid k = kid_of n;
  kk_same k k' : k ∈ all_keys w → k' ∈ all_keys w → sk_kid k = sk_kid k' → material k = material k';
  kk_made : (0 < kw_made w)%nat
}.

Context `{!KidLaws KE}.

Lemma kid_of_inj n m : (0 < m)%nat → kid_of n = kid_of m → n = m.
Proof.
  intros Hm. destruct m as [| m]; [lia |]. destruct n as [| n]; simpl; [| apply kid_inj]. destruct ke_kid as [kid |] eqn:Hk; simpl; [| apply kid_inj].
  intros Heq. by apply (kid_configured kid (S m)) in Hk.
Qed.

Lemma kid_of_nonempty n : kid_of n ≠ "".
Proof. destruct n as [| n]; simpl; [| apply kid_nonempty]. destruct ke_kid eqn:Hk; simpl; [by apply kid_configured_nonempty | apply kid_nonempty]. Qed.

Lemma loadOrCreateKey_kid alg kid made now key : loadOrCreateKey alg kid made now = inr key → sk_kid key = kid ∧ sk_alg key = alg.
Proof.
  unfold loadOrCreateKey. destruct alg; [destruct ke_private; by intros [= <-] | destruct ke_private; by intros [= <-] |]. destruct resolveJwtSecret; [done | by intros [= <-]].
Qed.

(** The two changes of the store: old keys are dropped, the current key is retired. *)
Definition pruned w : kworld :=
  let s := kw_store w in
  set_store (Keystore (ks_algorithm s) (ks_current s) (List.filter (λ k, kw_now w <? sk_expiresAt k) (ks_previous s))) w.
Definition retired w : kworld :=
  let s := kw_store w in
  let k := retire (kw_now w + rotation_ms ke_rotationDays) (ks_current s) in
  set_store (Keystore (ks_algorithm s) k (ks_previous s ++ [k])) w.
Definition renewed (key : SigningKeyMaterial) w : kworld :=
  KWorld (Keystore (ks_algorithm (kw_store w)) key (ks_previous (kw_store w))) (S (kw_made w)) (kw_now w).

Lemma rotate_cases w :
  (rotate w).2 = retired w ∨ ∃ key, (rotate w).2 = renewed key (retired w) ∧ sk_kid key = generateKid (kw_made w).
Proof.
  unfold rotate. rewrite (bind_run (modify _) _ w () (retired w) eq_refl). unfold gets, answer, modify, mbind, M_bind. simpl.
  destruct (loadOrCreateKey _ _ _ _) as [e | key] eqn:Hl; simpl; [by left |]. right. exists key. split; [done |]. by apply loadOrCreateKey_kid in Hl as [-> _].
Qed.

Lemma verify_world token w : (verify token w).2 = w ∨ (verify token w).2 = pruned w.
Proof.
  unfold verify, answer. destruct (decodeJwtHeader token) as [e | [alg kid]]; [by left |]. right. unfold mbind at 1, M_bind at 1. simpl.
  unfold findVerificationKey. rewrite bind_assoc_run, (bind_run activeKeys _ w _ (pruned w) eq_refl).
  destruct (find _ _) as [k |]; [destruct (String.eqb alg "HS256"); [destruct (sk_secret k); [| destruct resolveJwtSecret] |] | destruct (String.eqb alg "HS256"); [destruct resolveJwtSecret |]];
    unfold gets, answer, mbind, M_bind; simpl; repeat case_match; done.
Qed.

Lemma elem_all k w : k ∈ all_keys w ↔ k ∈ ks_previous (kw_store w) ∨ k = ks_current (kw_store w).
Proof. unfold all_keys. by rewrite elem_of_app, list_elem_of_singleton. Qed.

Lemma pruned_sub k w : k ∈ all_keys (pruned w) → k ∈ all_keys w.
Proof. rewrite !elem_all. simpl. intros [Hk | ->]; [| by right]. apply list_elem_of_In, filter_In in Hk as [Hk _]. left. by apply list_elem_of_In. Qed.

(** Every key after retiring is one from before, up to its expiry. *)
Lemma retired_from k w : k ∈ all_keys (retired w) → ∃ k0, k0 ∈ all_keys w ∧ sk_kid k = sk_kid k0 ∧ material k = material k0.
Proof.
  rewrite elem_all. simpl. intros [[Hk | ->%list_elem_of_singleton]%elem_of_app | ->];
    [exists k; split; [apply elem_all; by left | done] | exists (ks_current (kw_store w)); (split; [apply elem_all; by right | done]) ..].
Qed.

Lemma renewed_from k key w : k ∈ all_keys (renewed key (retired w)) → k = key ∨ ∃ k0, k0 ∈ all_keys w ∧ sk_kid k = sk_kid k0 ∧ material k = material k0.
Proof. rewrite elem_all. simpl. intros [Hk | ->]; [| by left]. right. apply retired_from. apply elem_all. by left. Qed.

Lemma keys_from_ok w w' :
  keys_ok w → (kw_made w ≤ kw_made w')%nat → (∀ k, k ∈ all_keys w' → ∃ k0, k0 ∈ all_keys w ∧ sk_kid k = sk_kid k0 ∧ material k = material k0) → keys_ok w'.
Proof.
  intros [H1 H2 H3] Hm Hf. split; [| | lia].
  - intros k Hk. destruct (Hf k Hk) as (k0 & H0 & -> & _). destruct (H1 k0 H0) as (n & ? & ?). exists n. split; [lia | done].
  - intros k k' Hk Hk' Heq. destruct (Hf k Hk) as (k0 & H0 & E0 & ->), (Hf k' Hk') as (k1 & H1' & E1 & ->). apply H2; [done | done | congruence].
Qed.

Lemma fresh_kid w k : keys_ok w → k ∈ all_keys w → sk_kid k ≠ generateKid (kw_made w).
Proof.
  intros [H1 _ H3] Hk Heq. destruct (H1 k Hk) as (n & Hn & Hkn). assert (n = kw_made w); [| lia]. apply kid_of_inj; [done |].
  rewrite <- Hkn, Heq. destruct (kw_made w); [lia | done].
Qed.

Lemma key_step_ok op w : keys_ok w → keys_ok (key_step op w).
Proof.
  intros Hw. assert (keys_ok (pruned w)) as Hp by (apply (keys_from_ok w); [done | done |]; intros k Hk; exists k; split; [by apply pruned_sub | done]).
  destruct op as [| ms | token |]; simpl; [| apply (keys_from_ok w); [done | done | by intros k Hk; exists k] | by destruct (verify_world token w) as [-> | ->] | exact Hp].
  assert (keys_ok (retired w)) as Hr by (apply (keys_from_ok w); [done | done | intros k; apply retired_from]).
  destruct (rotate_cases w) as [-> | (key & -> & Hkid)]; [done |]. pose proof Hw as [H1 H2 H3]. split; [| | simpl; lia].
  - intros k [-> | (k0 & H0 & -> & _)]%renewed_from; [exists (kw_made w); split; [simpl; lia |]; rewrite Hkid; destruct (kw_made w); [lia | done] |].
    destruct (H1 k0 H0) as (n & ? & ?). exists n. split; [simpl; lia | done].
  - intros k k' [-> | (k0 & H0 & E0 & M0)]%renewed_from [-> | (k1 & H1' & E1 & M1)]%renewed_from Heq; [done | | |].
    + exfalso. apply (fresh_kid w k1 Hw H1'). congruence.
    + exfalso. apply (fresh_kid w k0 Hw H0). congruence.
    + rewrite M0, M1. apply H2; [done | done | congruence].
Qed.

Lemma key_run_ok ops w : keys_ok w → keys_ok (key_run ops w).
Proof. revert w. induction ops as [| op ops IH]; intros w Hw; [done |]. apply IH. by apply key_step_ok. Qed.

Lemma new_store_ok alg now w : new_store alg now = inr w → keys_ok w.
Proof.
  unfold new_store. destruct (loadOrCreateKey _ _ _ _) as [e | key] eqn:Hl; [done |]. intros [= <-]. apply loadOrCreateKey_kid in Hl as [Hk _]. split; [| | simpl; lia].
  - intros k ->%list_elem_of_singleton. exists 0%nat. split; [simpl; lia | done].
  - by intros k k' ->%list_elem_of_singleton ->%list_elem_of_singleton.
Qed.

(** A key that signed is still there, and not to expire before [until]. *)
Definition kept (k : SigningKeyMaterial) (until : Z) w : Prop :=
  ∃ k', sk_kid k' = sk_kid k ∧ material k' = material k ∧ (k' = ks_current (kw_store w) ∨ k' ∈ ks_previous (kw_store w) ∧ until ≤ sk_expiresAt k').

Lemma kept_pruned k until w : kw_now w < until → kept k until w → kept k until (pruned w).
Proof.
  intros Hlt (k' & E & M & H). exists k'. split; [done |]. split; [done |]. destruct H as [-> | [Hin He]]; [by left | right]. split; [| done]. simpl.
  apply list_elem_of_In, filter_In. split; [by apply list_elem_of_In |]. apply Z.ltb_lt. lia.
Qed.

Lemma kept_step op k until w :
  until ≤ kw_now w + rotation_ms ke_rotationDays → kw_now (key_step op w) < until → kept k until w → kept k until (key_step op w).
Proof.
  intros Hu Hlt Hk. destruct op as [| ms | token |]; simpl in *.
  - assert (kept k until (retired w)) as Hr.
    { destruct Hk as (k' & E & M & [-> | [Hin He]]); [exists (retire (kw_now w + rotation_ms ke_rotationDays) (ks_current (kw_store w))) | exists k']; (split; [done |]); (split; [done |]); [by left |].
      right. split; [| done]. simpl. apply elem_of_app. by left. }
    destruct (rotate_cases w) as [Hw | (key & Hw & _)]; rewrite Hw; [done |]. destruct Hk as (k' & E & M & [-> | [Hin He]]).
    + exists (retire (kw_now w + rotation_ms ke_rotationDays) (ks_current (kw_store w))). split; [done |]. split; [done |]. right. split; [simpl; apply elem_of_app; right; by left | done].
    + exists k'. split; [done |]. split; [done |]. right. split; [simpl; apply elem_of_app; by left | done].
  - destruct Hk as (k' & E & M & H). by exists k'.
  - destruct (verify_world token w) as [Hw | Hw]; rewrite Hw in *; [done |]. by apply kept_pruned.
  - by apply kept_pruned.
Qed.

Lemma key_step_now op w : kw_now w ≤ kw_now (key_step op w).
Proof.
  destruct op as [| ms | token |]; simpl; [destruct (rotate_cases w) as [-> | (? & -> & _)]; simpl; lia | lia | destruct (verify_world token w) as [-> | ->]; simpl; lia | lia].
Qed.

Lemma key_run_now ops w : kw_now w ≤ kw_now (key_run ops w).
Proof. revert w. induction ops as [| op ops IH]; intros w; [done |]. etrans; [apply (key_step_now op) | apply IH]. Qed.

Lemma kept_run ops k until w :
  until ≤ kw_now w + rotation_ms ke_rotationDays → kw_now (key_run ops w) < until → kept k until w → kept k until (key_run ops w).
Proof.
  revert w. induction ops as [| op ops IH]; intros w Hu Hlt Hk; [done |]. cbn [key_run foldl] in *. pose proof (key_step_now op w). pose proof (key_run_now ops (key_step op w)) as Hn.
  unfold key_run in Hn. apply IH; [lia | done |]. apply kept_step; [done | lia | done].
Qed.
End history.

(** ** Tokens survive rotations *)

(** jsonwebtoken: the header carries the algorithm and the key identifier; a token verifies
    with the key of its signature while it is valid. *)
Class JwtLaws (KE : KeyEnv) (TE : TokenEnv) (tolerance : Z) := {
  jl_header p m alg kid : ∃ a b c, token_parts (jwt_sign p m alg kid) = [a; b; c] ∧ parse_header a = inr (Some (algorithm_name alg), Some kid);
  jl_verifies now p m alg kid : valid_at tolerance now p →
    jwt_verify now (jwt_sign p m alg kid) (match alg with HS256 => m | _ => public_of m end) = inr (Some p);
  jl_tolerance : 0 ≤ tolerance
}.

Section survive.
Context `{KE : KeyEnv} `{TE : TokenEnv} (tolerance : Z) `{!KidLaws KE} `{!JwtLaws KE TE tolerance}.
Implicit Types w : kworld.

(** The key verifies what it signs. *)
Definition usable (k : SigningKeyMaterial) : Prop :=
  match sk_alg k with HS256 => signing_material k | _ => public_of (signing_material k) end ≠ "" ∧
  verification_key k = Some (match sk_alg k with HS256 => signing_material k | _ => public_of (signing_material k) end).

Definition token_of (p : jwt_payload) (k : SigningKeyMaterial) : string := jwt_sign p (signing_material k) (sk_alg k) (sk_kid k).

Lemma token_header p k : decodeJwtHeader (token_of p k) = inr (algorithm_name (sk_alg k), Some (sk_kid k)).
Proof.
  unfold decodeJwtHeader. destruct (jl_header p (signing_material k) (sk_alg k) (sk_kid k)) as (a & b & c & Hp & Hh). unfold token_of. rewrite Hp, Hh. by destruct (sk_alg k).
Qed.

Lemma find_kept k until w :
  keys_ok w → kept k until w → kw_now w < until → sk_kid k ≠ "" →
  ∃ k', find (key_matches (algorithm_name (sk_alg k)) (Some (sk_kid k))) (all_keys (pruned w)) = Some k' ∧ material k' = material k.
Proof.
  intros [_ H2 _] Hk Hlt Hne. destruct (kept_pruned k until w Hlt Hk) as (k0 & E0 & M0 & Hin).
  assert (k0 ∈ all_keys (pruned w)) as Hin0 by (apply elem_all; destruct Hin as [-> | [? _]]; [by right | by left]).
  assert (key_matches (algorithm_name (sk_alg k)) (Some (sk_kid k)) k0 = true) as Hm.
  { unfold key_matches. assert (sk_alg k0 = sk_alg k) as -> by (unfold material in M0; congruence). rewrite String.eqb_refl, E0, bool_decide_eq_true_2 by done. apply orb_true_r. }
  destruct (find _ (all_keys (pruned w))) as [k' |] eqn:Hf; [| apply list_elem_of_In in Hin0; by rewrite (find_none _ _ Hf _ Hin0) in Hm].
  exists k'. split; [done |]. apply find_some in Hf as [Hin' Hm']. apply list_elem_of_In in Hin'. rewrite <- M0. apply H2; [by apply pruned_sub | by apply pruned_sub |].
  unfold key_matches in Hm'. apply andb_true_iff in Hm' as [_ Hm']. apply orb_true_iff in Hm' as [Hm' | Hm'%bool_decide_eq_true]; [simpl in Hm'; by destruct (String.eqb_spec (sk_kid k) "") | congruence].
Qed.

Lemma verify_kept k until w p :
  keys_ok w → kept k until w → kw_now w < until → sk_kid k ≠ "" → usable k → valid_at tolerance (kw_now w) p → verify (token_of p k) w = (inr (Some p), pruned w).
Proof.
  intros Hw Hk Hlt Hne [Hu1 Hu2] Hv. destruct (find_kept k until w Hw Hk Hlt Hne) as (k' & Hf & Hm). unfold material in Hm. injection Hm as Ha _ Hpub Hsec.
  pose proof (jl_verifies (kw_now w) p (signing_material k) (sk_alg k) (sk_kid k) Hv) as Hj. fold (token_of p k) in Hj.
  unfold verify. rewrite token_header, (bind_run (answer (inr _)) _ w _ w eq_refl). cbn [fst snd].
  assert (findVerificationKey (algorithm_name (sk_alg k)) (Some (sk_kid k)) w = (inr (verification_key k), pruned w)) as Hkey.
  { unfold findVerificationKey. rewrite (bind_run activeKeys _ w (all_keys (pruned w)) (pruned w) eq_refl), Hf. unfold verification_key in *.
    destruct (sk_alg k) eqn:Halg; simpl; [by rewrite Hpub | by rewrite Hpub |]. rewrite Hsec, Hu2. done. }
  rewrite (bind_run _ _ _ _ _ Hkey), Hu2. set (v := match sk_alg k with HS256 => signing_material k | _ => public_of (signing_material k) end) in *.
  assert (truthy (Some v) = true) as -> by (simpl; by destruct (String.eqb_spec v "")).
  rewrite (bind_run (gets kw_now) _ (pruned w) (kw_now w) (pruned w) eq_refl). unfold answer. simpl. by rewrite Hj.
Qed.

(** C28. Keys rotate without downtime: if the current key verifies what it signs
    ([usable]; a private key configured without its public key does not), a token signed
    with it verifies as long as it is valid and fewer than the configured days have
    passed, however often the keys were rotated before and since. *)
Theorem rotation_keeps_tokens alg now w0 ops ops' p :
  new_store alg now = inr w0 →
  let w := key_run ops w0 in
  let w' := key_run ops' w in
  usable (ks_current (kw_store w)) → kw_now w' < kw_now w + rotation_ms ke_rotationDays → valid_at tolerance (kw_now w') p →
  ∃ token w'', sign p w = (inr token, w) ∧ verify token w' = (inr (Some p), w'').
Proof.
  intros Hnew w w' Hu Hlt Hv. pose proof (key_run_ok ops w0 (new_store_ok _ _ _ Hnew)) as Hw. fold w in Hw. set (k := ks_current (kw_store w)) in *.
  exists (token_of p k), (pruned w'). split; [done |]. apply (verify_kept k (kw_now w + rotation_ms ke_rotationDays)); [by apply key_run_ok | | done | | done | done].
  - apply kept_run; [lia | done |]. exists k. split; [done |]. split; [done | by left].
  - destruct (kk_kids _ Hw k) as (n & _ & ->); [apply elem_all; by right | apply kid_of_nonempty].
Qed.

(** The key store keeps what the token manager relies on. *)
Definition key_signer w : Signer := {|
  sg_sign p := token_of p (ks_current (kw_store w));
  sg_verify now token := (verify token (KWorld (kw_store w) (kw_made w) now)).1 |}.

Lemma key_signer_laws w : keys_ok w → usable (ks_current (kw_store w)) → SignerLaws (key_signer w) TE tolerance.
Proof.
  intros Hw Hu. split; [| apply (jl_tolerance (JwtLaws := ltac:(eassumption)))]. intros now p Hv. simpl. set (w' := KWorld (kw_store w) (kw_made w) now).
  assert (keys_ok w') as Hw' by (apply (keys_from_ok w); [done | done | by intros k Hk; exists k]).
  rewrite (verify_kept (ks_current (kw_store w)) (now + 1) w' p Hw'); [done | | simpl; lia | | done | done].
  - exists (ks_current (kw_store w)). split; [done |]. split; [done | by left].
  - destruct (kk_kids _ Hw (ks_current (kw_store w))) as (n & _ & ->); [apply elem_all; by right | apply kid_of_nonempty].
Qed.
End survive.

(** ** Examples *)

(** A library whose tokens are what they were signed from. *)
Module key_example.
Import signer_example.

Definition contents (token : string) : option (jwt_payload * (string * (string * string))) := unbits token ≫= decode.
Definition key_env (private public : option string) : KeyEnv := {|
  ke_algorithm := None; ke_private := private; ke_public := public; ke_kid := None; ke_secret := None; ke_production := true; ke_rotationDays := 2;
  generateKid n := bits (Pos.of_succ_nat n); generated_key _ n := bits (Pos.of_succ_nat n); public_of m := m +:+ ".pub";
  token_parts t := [t; ""; ""];
  parse_header t := match contents t with Some (_, (_, (alg, kid))) => inr (Some alg, Some kid) | None => inl (Exn "SyntaxError" "Unexpected token") end;
  jwt_sign p m alg kid := bits (encode (p, (m, (algorithm_name alg, kid))));
  jwt_verify now t key :=
    match contents t with
    | Some (p, (m, (alg, _))) =>
        if String.eqb key (if String.eqb alg "HS256" then m else m +:+ ".pub") then if valid now p then inr (Some p) else inl (Exn "TokenExpiredError" "jwt expired")
        else inl (Exn "JsonWebTokenError" "invalid signature")
    | None => inl (Exn "JsonWebTokenError" "jwt malformed")
    end |}.

Lemma contents_sign p m alg kid : contents (bits (encode (p, (m, (algorithm_name alg, kid))))) = Some (p, (m, (algorithm_name alg, kid))).
Proof. unfold contents. rewrite unbits_bits. simpl. apply decode_encode. Qed.

#[export] Instance jwt_laws private public : JwtLaws (key_env private public) env 5.
Proof.
  split; [| | done].
  - intros p m alg kid. simpl. eexists _, _, _. split; [done |]. by rewrite contents_sign.
  - intros now p m alg kid Hv. simpl. rewrite contents_sign. pose proof (sg_accepts now p Hv) as Ha. simpl in Ha. rewrite unbits_bits in Ha. simpl in Ha. rewrite decode_encode in Ha.
    destruct alg; simpl; rewrite String.eqb_refl; by destruct (valid now p).
Qed.

#[export] Instance kid_laws private public : KidLaws (key_env private public).
Proof.
  split; [| done | | done].
  - intros n m H. simpl in H. apply (f_equal unbits) in H. rewrite !unbits_bits in H. injection H as H. lia.
  - intros n. simpl. by destruct (Pos.of_succ_nat n).
Qed.

Definition payload : jwt_payload := with_expiry (access_payload "alice" None ["user"] None "openid" "1" 0) 1000000.
Definition store (private public : option string) : kworld :=
  match new_store (KE := key_env private public) RS256 0 with inr w => w | inl _ => KWorld (Keystore RS256 (Build_SigningKeyMaterial "" RS256 None None None 0 0) []) 0 0 end.
Definition later : list key_op := [k_wait 86400000; k_rotate; k_jwks; k_rotate; k_wait 1000].
End key_example.
Import key_example.

Lemma rotation_keeps_tokens_witness :
  let KE := key_env None None in
  let w := key_run [k_rotate] (store None None) in
  ∃ token w'', sign payload w = (inr token, w) ∧ verify token (key_run later w) = (inr (Some payload), w'').
Proof.
  apply (rotation_keeps_tokens (KE := key_env None None) (TE := signer_example.env) 5 RS256 0 (store None None) [k_rotate] later payload).
  - done.
  - by vm_compute.
  - by vm_compute.
  - split; [done |]. split; [done |]. split; [intros e [= <-]; by vm_compute | intros b [= <-]; by vm_compute].
Defined.

(** With a configured private key and no public one, the store refuses its own tokens. *)
Lemma private_key_only :
  let KE := key_env (Some "pem") None in
  let w := store (Some "pem") None in
  match (sign payload w).1 with
  | inr token => (verify token w).1 = inl (Error "No verification key for alg RS256")
  | inl _ => False
  end.
Proof. by vm_compute. Qed.

(** With a configured key, rotating it gives it a new name. *)
Lemma configured_key_stays :
  let KE := key_env (Some "pem") (Some "pem.pub") in
  let w := store (Some "pem") (Some "pem.pub") in
  sk_privateKey (ks_current (kw_store (rotate w).2)) = sk_privateKey (ks_current (kw_store w)) ∧
  sk_kid (ks_current (kw_store (rotate w).2)) ≠ sk_kid (ks_current (kw_store w)).
Proof. by vm_compute. Qed.
