(* ===== verification/CoSigning.v ===== *)
(** * Co-signing sessions (apps/backend/wallet/src/multisig/coSigningService.ts)

    Collects signatures over a transaction until a threshold, then combines them into an
    envelope and submits it.  The store is the in-memory one: [get] gives the stored object
    itself, so that a change of it is in the store at once.  The Stellar SDK (addresses,
    signatures, XDR) is a parameter.  What a call does between two points where another
    request may run is one step: adding a signature up to the submission, and what follows
    the answer of the network. *)
From S2P Require Import Prelude JsLib JsCollections.
Local Open Scope Z_scope.

Inductive CoSigningSessionStatus := co_collecting | co_ready | co_submitted | co_expired.
#[export] Instance cosigning_status_eq_dec : EqDecision CoSigningSessionStatus.
Proof. solve_decision. Defined.
Definition cosigning_status_name (s : CoSigningSessionStatus) : string :=
  match s with co_collecting => "collecting" | co_ready => "ready" | co_submitted => "submitted" | co_expired => "expired" end.

Record CollectedSignature := { sg_signerAddress : string; sg_signatureBase64 : string }.

Record MultiSigSession := {
  mp_sessionId : string; mp_orderId : string; mp_transactionXdr : string; mp_requiredThreshold : Z;
  mp_collectedSignatures : list CollectedSignature; mp_status : CoSigningSessionStatus
}.

Record StoredCoSigningSession := {
  st_sessionId : string; st_orderId : string; st_transactionXdr : string; st_requiredThreshold : Z;
  st_collectedSignatures : list CollectedSignature; st_status : CoSigningSessionStatus;
  st_authorizedSigners : list string; st_createdAt : Z; st_expiresAt : Z;
  st_combinedXdr : option string; st_submitted : bool; st_failureReason : option string
}.

(** A transaction of the SDK: what is hashed, and its decorated signatures (hint and
    signature). *)
Record transaction_ := { tx_body : string; tx_signatures : list (string * string) }.

Class CoSigningEnv := {
  (** [TransactionBuilder.fromXDR]: an error, a fee-bump envelope, or a transaction *)
  fromXDR : string → string + option transaction_;
  toXDR : transaction_ → string;
  tx_hash : string → string;
  (** [Keypair.fromPublicKey], [signatureHint] and [verify] *)
  valid_key : string → bool;
  key_hint : string → string;
  key_verify : string → string → string → bool;
  (** the bytes of [Buffer.from(s, "base64")] *)
  base64 : string → string;
  session_uuid : nat → string
}.

Record cworld := CWorld {
  cw_sessions : jsmap StoredCoSigningSession;
  (** envelopes handed to the network, with the session *)
  cw_sent : list (string * string);
  cw_uuids : nat;
  cw_now : Z
}.

Definition InvalidCoSignatureError (m : string) : exn := Exn "InvalidCoSignatureError" m.
Definition CoSigningSessionNotFoundError (sessionId : string) : exn :=
  Exn "CoSigningSessionNotFoundError" ("Co-signing session not found: " +:+ sessionId).
Definition CoSigningSessionClosedError (sessionId : string) (status : CoSigningSessionStatus) : exn :=
  Exn "CoSigningSessionClosedError" ("Co-signing session " +:+ sessionId +:+ " is already " +:+ cosigning_status_name status).
Definition UnauthorizedCoSignerError (signer : string) : exn :=
  Exn "UnauthorizedCoSignerError" ("Signer " +:+ signer +:+ " is not authorized for this session").

Definition DEFAULT_SESSION_TTL_MS : Z := 15 * 60 * 1000.

Section cosigning.
Context `{CE : CoSigningEnv}.
Implicit Types (w : cworld) (s : StoredCoSigningSession).

Definition set_sessions (f : jsmap StoredCoSigningSession → jsmap StoredCoSigningSession) w : cworld :=
  CWorld (f (cw_sessions w)) (cw_sent w) (cw_uuids w) (cw_now w).

(** A change of the stored object. *)
Definition update_session (sessionId : string) (f : StoredCoSigningSession → StoredCoSigningSession) : M cworld () :=
  modify (set_sessions (λ m, match jget sessionId m with Some s => jset sessionId (f s) m | None => m end)).

Definition with_status (status : CoSigningSessionStatus) s : StoredCoSigningSession := {|
  st_sessionId := st_sessionId s; st_orderId := st_orderId s; st_transactionXdr := st_transactionXdr s; st_requiredThreshold := st_requiredThreshold s;
  st_collectedSignatures := st_collectedSignatures s; st_status := status; st_authorizedSigners := st_authorizedSigners s; st_createdAt := st_createdAt s;
  st_expiresAt := st_expiresAt s; st_combinedXdr := st_combinedXdr s; st_submitted := st_submitted s; st_failureReason := st_failureReason s |}.
Definition with_signature (x : CollectedSignature) s : StoredCoSigningSession := {|
  st_sessionId := st_sessionId s; st_orderId := st_orderId s; st_transactionXdr := st_transactionXdr s; st_requiredThreshold := st_requiredThreshold s;
  st_collectedSignatures := st_collectedSignatures s ++ [x]; st_status := st_status s; st_authorizedSigners := st_authorizedSigners s; st_createdAt := st_createdAt s;
  st_expiresAt := st_expiresAt s; st_combinedXdr := st_combinedXdr s; st_submitted := st_submitted s; st_failureReason := st_failureReason s |}.
Definition with_submission (combined : option string) (submitted : bool) (failure : option string) s : StoredCoSigningSession := {|
  st_sessionId := st_sessionId s; st_orderId := st_orderId s; st_transactionXdr := st_transactionXdr s; st_requiredThreshold := st_requiredThreshold s;
  st_collectedSignatures := st_collectedSignatures s; st_status := st_status s; st_authorizedSigners := st_authorizedSigners s; st_createdAt := st_createdAt s;
  st_expiresAt := st_expiresAt s; st_combinedXdr := combined; st_submitted := submitted; st_failureReason := failure |}.

Definition toPublicSession s : MultiSigSession := {|
  mp_sessionId := st_sessionId s; mp_orderId := st_orderId s; mp_transactionXdr := st_transactionXdr s; mp_requiredThreshold := st_requiredThreshold s;
  mp_collectedSignatures := st_collectedSignatures s; mp_status := st_status s |}.

Definition find_session (sessionId : string) : M cworld StoredCoSigningSession :=
  found ← gets (λ w, jget sessionId (cw_sessions w));
  some_or_throw found (CoSigningSessionNotFoundError sessionId).

(** ** Signatures *)

Definition parseBaseTransaction (transactionXdr : string) : exn + transaction_ :=
  match fromXDR transactionXdr with
  | inl m => inl (InvalidCoSignatureError ("Invalid transaction XDR: " +:+ m))
  | inr None => inl (InvalidCoSignatureError "Only classic transactions are supported; fee-bump envelopes are not supported")
  | inr (Some tx) => inr tx
  end.

Definition decodeSignature (signatureBase64 : string) : exn + string :=
  if String.eqb (trim signatureBase64) "" then inl (InvalidCoSignatureError "signatureBase64 is required")
  else let raw := base64 signatureBase64 in
       if negb (Nat.eqb (String.length raw) 64) then
         inl (InvalidCoSignatureError ("signatureBase64 must decode to 64 bytes (Ed25519), got " +:+ dec (Z.of_nat (String.length raw))))
       else inr raw.

Definition validatePartialSignature {S} (transactionXdr signerAddress signatureBase64 : string) : M S () :=
  throw_if (negb (valid_key signerAddress)) (InvalidCoSignatureError ("Invalid signer Stellar public key: " +:+ signerAddress));;
  signature ← answer (decodeSignature signatureBase64);
  tx ← answer (parseBaseTransaction transactionXdr);
  throw_if (negb (key_verify signerAddress (tx_hash (tx_body tx)) signature)) (InvalidCoSignatureError ("Signature verification failed for signer " +:+ signerAddress)).

(** One decorated signature per pair of hint and signature. *)
Fixpoint combine_from (seen : list (string * string)) (tx : transaction_) (l : list CollectedSignature) : exn + transaction_ :=
  match l with
  | [] => inr tx
  | x :: l' =>
      match decodeSignature (sg_signatureBase64 x) with
      | inl e => inl e
      | inr signature =>
          if negb (valid_key (sg_signerAddress x)) then inl (Error "invalid encoded string")
          else let key := (key_hint (sg_signerAddress x), signature) in
               if bool_decide (key ∈ seen) then combine_from seen tx l'
               else combine_from (key :: seen) {| tx_body := tx_body tx; tx_signatures := tx_signatures tx ++ [key] |} l'
      end
  end.

Definition combined_transaction (transactionXdr : string) (l : list CollectedSignature) : exn + transaction_ :=
  match parseBaseTransaction transactionXdr with inl e => inl e | inr tx => combine_from [] tx l end.

Definition combineSignaturesIntoEnvelope (transactionXdr : string) (l : list CollectedSignature) : exn + string :=
  match combined_transaction transactionXdr l with inl e => inl e | inr tx => inr (toXDR tx) end.

(** ** The life of a session *)

Definition isExpired s (now : Z) : bool := st_expiresAt s <=? now.
Definition is_open s : bool := bool_decide (st_status s = co_collecting) || bool_decide (st_status s = co_ready).

Definition markExpired (sessionId : string) : M cworld () :=
  s ← find_session sessionId;
  if is_open s then update_session sessionId (with_status co_expired) else mret ().

(** [new Set(signers.map(trim).filter(Boolean))] *)
Definition unique_signers (l : option (list string)) : list string := uniq (List.filter (λ x, negb (String.eqb x "")) (trim <$> default [] l)).

Definition createCoSigningSession (orderId transactionXdr : string) (requiredThreshold : number) (authorizedSigners : option (list string)) (ttlMs : option Z) : M cworld MultiSigSession :=
  throw_if (String.eqb (trim orderId) "") (Error "orderId is required");;
  throw_if (String.eqb (trim transactionXdr) "") (Error "transactionXdr is required");;
  answer (parseBaseTransaction transactionXdr);;
  let signers := unique_signers authorizedSigners in
  for_each signers (λ address, throw_if (negb (valid_key address)) (Error ("Invalid authorized signer Stellar public key: " +:+ address)));;
  match requiredThreshold with
  | NonInteger => throw (Error "requiredThreshold must be a positive integer")
  | Int threshold =>
      throw_if (threshold <? 1) (Error "requiredThreshold must be a positive integer");;
      throw_if (negb (bool_decide (signers = [])) && (Z.of_nat (length signers) <? threshold))
        (Error ("requiredThreshold (" +:+ dec threshold +:+ ") exceeds authorized signer count (" +:+ dec (Z.of_nat (length signers)) +:+ ")"));;
      n ← gets cw_uuids;
      now ← gets cw_now;
      let s := {| st_sessionId := session_uuid n; st_orderId := orderId; st_transactionXdr := transactionXdr; st_requiredThreshold := threshold;
                  st_collectedSignatures := []; st_status := co_collecting; st_authorizedSigners := signers; st_createdAt := now;
                  st_expiresAt := now + default DEFAULT_SESSION_TTL_MS ttlMs; st_combinedXdr := None; st_submitted := false; st_failureReason := None |} in
      modify (λ w, CWorld (jset (session_uuid n) s (cw_sessions w)) (cw_sent w) (S (cw_uuids w)) (cw_now w));;
      mret (toPublicSession s)
  end.

Definition getCoSigningSession (sessionId : string) : M cworld (option MultiSigSession) :=
  found ← gets (λ w, jget sessionId (cw_sessions w));
  match found with
  | None => mret None
  | Some s =>
      now ← gets cw_now;
      (if is_open s && isExpired s now then markExpired sessionId else mret ());;
      s' ← find_session sessionId;
      mret (Some (toPublicSession s'))
  end.

(** The checks of [addCoSignature], the signature, and whether the threshold is met. *)
Definition collect_signature (sessionId signerAddress signatureBase64 : string) (now : Z) : M cworld bool :=
  s ← find_session sessionId;
  (if isExpired s now then markExpired sessionId;; throw (CoSigningSessionClosedError sessionId co_expired) else mret ());;
  throw_if (negb (bool_decide (st_status s = co_collecting))) (CoSigningSessionClosedError sessionId (st_status s));;
  throw_if (negb (bool_decide (st_authorizedSigners s = [])) && negb (bool_decide (signerAddress ∈ st_authorizedSigners s))) (UnauthorizedCoSignerError signerAddress);;
  throw_if (bool_decide (signerAddress ∈ sg_signerAddress <$> st_collectedSignatures s))
    (Error ("Signer " +:+ signerAddress +:+ " has already submitted a signature for session " +:+ sessionId));;
  validatePartialSignature (st_transactionXdr s) signerAddress signatureBase64;;
  update_session sessionId (with_signature {| sg_signerAddress := signerAddress; sg_signatureBase64 := signatureBase64 |});;
  (if st_requiredThreshold s <=? Z.of_nat (S (length (st_collectedSignatures s))) then update_session sessionId (with_status co_ready);; mret true
   else mret false).

(** [submitStoredSession] up to the call of the network; [network] tells whether there is a
    submitter. *)
Definition begin_submission (sessionId : string) (network : bool) : M cworld () :=
  s ← find_session sessionId;
  combined ← answer (combineSignaturesIntoEnvelope (st_transactionXdr s) (st_collectedSignatures s));
  update_session sessionId (λ s, with_submission (Some combined) (st_submitted s) (st_failureReason s) s);;
  (if network then modify (λ w, CWorld (cw_sessions w) (cw_sent w ++ [(sessionId, combined)]) (cw_uuids w) (cw_now w)) else mret ()).

(** What follows: the answer of the network, or at once without one. *)
Definition end_submission (sessionId : string) (network : bool) (outcome : exn + ()) : M cworld MultiSigSession :=
  match outcome with
  | inr _ => update_session sessionId (λ s, with_submission (st_combinedXdr s) (network || st_submitted s) (st_failureReason s) s);;
             update_session sessionId (with_status co_submitted);;
             s ← find_session sessionId;
             mret (toPublicSession s)
  | inl e => update_session sessionId (λ s, with_submission (st_combinedXdr s) (st_submitted s) (Some (exn_message e)) s);; throw e
  end.

Definition submitStoredSession (sessionId : string) (submit : option (string → exn + ())) : M cworld MultiSigSession :=
  begin_submission sessionId (match submit with Some _ => true | None => false end);;
  s ← find_session sessionId;
  end_submission sessionId (match submit with Some _ => true | None => false end)
    (match submit with Some f => f (default "" (st_combinedXdr s)) | None => inr () end).

Definition addCoSignature (sessionId signerAddress signatureBase64 : string) (submit : option (string → exn + ())) (now : Z) : M cworld MultiSigSession :=
  reached ← collect_signature sessionId signerAddress signatureBase64 now;
  if reached : bool then submitStoredSession sessionId submit
  else s ← find_session sessionId; mret (toPublicSession s).

(** The checks of [submitCoSigningSession]; [None] when it goes on to the submission. *)
Definition check_submit (sessionId : string) (now : Z) : M cworld (option MultiSigSession) :=
  s ← find_session sessionId;
  (if isExpired s now then markExpired sessionId;; throw (CoSigningSessionClosedError sessionId co_expired) else mret ());;
  if bool_decide (st_status s = co_submitted) then mret (Some (toPublicSession s))
  else
    throw_if (bool_decide (st_status s = co_expired)) (CoSigningSessionClosedError sessionId (st_status s));;
    throw_if (Z.of_nat (length (st_collectedSignatures s)) <? st_requiredThreshold s)
      (Error ("Threshold not met: " +:+ dec (Z.of_nat (length (st_collectedSignatures s))) +:+ "/" +:+ dec (st_requiredThreshold s) +:+ " signatures"));;
    update_session sessionId (with_status co_ready);;
    mret None.

Definition submitCoSigningSession (sessionId : string) (submit : option (string → exn + ())) (now : Z) : M cworld MultiSigSession :=
  r ← check_submit sessionId now;
  match r with Some p => mret p | None => submitStoredSession sessionId submit end.

Definition expireCoSigningSession (sessionId : string) (now : Z) : M cworld MultiSigSession :=
  s ← find_session sessionId;
  (if is_open s then
     if isExpired s now then markExpired sessionId else update_session sessionId (with_status co_expired)
   else mret ());;
  s' ← find_session sessionId;
  mret (toPublicSession s').

Definition expireStaleCoSigningSessions (now : Z) : M cworld Z := mret 0.
End cosigning.
