(* ===== verification/CoSigningCorrect.v ===== *)
(** * Co-signing sessions: theorems

    Whatever requests come, interleaved with the answers of the network, an envelope goes
    to the network only with enough valid signatures of different signers of its session. *)
From S2P Require Import Prelude JsLib JsCollections CoSigning.
Local Open Scope Z_scope.

(** ** Histories *)

Inductive cosign_op :=
  | c_create (orderId transactionXdr : string) (requiredThreshold : number) (authorizedSigners : option (list string)) (ttlMs : option Z)
  | c_get (sessionId : string)
  | c_add (sessionId signerAddress signatureBase64 : string) (network : bool)
  | c_submit (sessionId : string) (network : bool)
  (** the network answers the i-th submission in flight *)
  | c_answer (i : nat) (outcome : exn + ())
  | c_expire (sessionId : string)
  | c_wait (ms : Z).

(** The sessions whose envelope is on its way. *)
Record cosigning := Cosigning { cn_world : cworld; cn_flights : list string }.

Section history.
Context `{CE : CoSigningEnv}.
Implicit Types (w : cworld).

(** A submission: without a network it ends at once. *)
Definition submission (sessionId : string) (network : bool) (flights : list string) w : cosigning :=
  match begin_submission sessionId network w with
  | (inl _, w1) => Cosigning w1 flights
  | (inr _, w1) => if network then Cosigning w1 (flights ++ [sessionId]) else Cosigning (end_submission sessionId false (inr ()) w1).2 flights
  end.

Definition cosign_step (op : cosign_op) (x : cosigning) : cosigning :=
  let w := cn_world x in
  match op with
  | c_create orderId transactionXdr threshold signers ttl => Cosigning (createCoSigningSession orderId transactionXdr threshold signers ttl w).2 (cn_flights x)
  | c_get sessionId => Cosigning (getCoSigningSession sessionId w).2 (cn_flights x)
  | c_add sessionId signer signature network =>
      match collect_signature sessionId signer signature (cw_now w) w with
      | (inr true, w1) => submission sessionId network (cn_flights x) w1
      | (_, w1) => Cosigning w1 (cn_flights x)
      end
  | c_submit sessionId network =>
      match check_submit sessionId (cw_now w) w with
      | (inr None, w1) => submission sessionId network (cn_flights x) w1
      | (_, w1) => Cosigning w1 (cn_flights x)
      end
  | c_answer i outcome =>
      match cn_flights x !! i with
      | Some sessionId => Cosigning (end_submission sessionId true outcome w).2 (delete i (cn_flights x))
      | None => x
      end
  | c_expire sessionId => Cosigning (expireCoSigningSession sessionId (cw_now w) w).2 (cn_flights x)
  | c_wait ms => Cosigning (CWorld (cw_sessions w) (cw_sent w) (cw_uuids w) (cw_now w + Z.max 0 ms)) (cn_flights x)
  end.

Definition cosign_run (ops : list cosign_op) (x : cosigning) : cosigning := foldl (λ x op, cosign_step op x) x ops.
Definition cosign_start (now : Z) : cosigning := Cosigning (CWorld [] [] 0 now) [].

(** ** What a session holds *)

(** A signature of an allowed signer that verifies. *)
Definition signature_ok (s : StoredCoSigningSession) (x : CollectedSignature) : Prop :=
  valid_key (sg_signerAddress x) = true ∧ (st_authorizedSigners s = [] ∨ sg_signerAddress x ∈ st_authorizedSigners s) ∧
  ∃ raw tx, decodeSignature (sg_signatureBase64 x) = inr raw ∧ parseBaseTransaction (st_transactionXdr s) = inr tx ∧
    key_verify (sg_signerAddress x) (tx_hash (tx_body tx)) raw = true.

Definition enough (s : StoredCoSigningSession) : Prop := st_requiredThreshold s ≤ Z.of_nat (length (st_collectedSignatures s)).

Record session_ok (s : StoredCoSigningSession) : Prop := {
  so_signers : NoDup (sg_signerAddress <$> st_collectedSignatures s);
  so_signatures x : x ∈ st_collectedSignatures s → signature_ok s x;
  so_threshold : 1 ≤ st_requiredThreshold s;
  so_enough : st_status s = co_ready ∨ st_status s = co_submitted → enough s
}.

(** The session is the same, with more signatures. *)
Definition grows (s s' : StoredCoSigningSession) : Prop :=
  st_transactionXdr s' = st_transactionXdr s ∧ st_requiredThreshold s' = st_requiredThreshold s ∧ st_authorizedSigners s' = st_authorizedSigners s ∧
  ∃ more, st_collectedSignatures s' = st_collectedSignatures s ++ more.

(** An envelope with the decorated signatures of collected ones that are enough. *)
Definition envelope_ok (s : StoredCoSigningSession) (envelope : string) : Prop :=
  ∃ base tx signatures more, parseBaseTransaction (st_transactionXdr s) = inr base ∧ tx_body tx = tx_body base ∧ envelope = toXDR tx ∧
    st_collectedSignatures s = signatures ++ more ∧ st_requiredThreshold s ≤ Z.of_nat (length signatures) ∧
    ∀ x, x ∈ signatures → ∃ raw, decodeSignature (sg_signatureBase64 x) = inr raw ∧ (key_hint (sg_signerAddress x), raw) ∈ tx_signatures tx.

Record cosign_ok (x : cosigning) : Prop := {
  co_sessions id s : jget id (cw_sessions (cn_world x)) = Some s → session_ok s ∧ ∃ n, (n < cw_uuids (cn_world x))%nat ∧ id = session_uuid n;
  co_sent id envelope : (id, envelope) ∈ cw_sent (cn_world x) → ∃ s, jget id (cw_sessions (cn_world x)) = Some s ∧ envelope_ok s envelope;
  co_flights id : id ∈ cn_flights x → ∃ s, jget id (cw_sessions (cn_world x)) = Some s ∧ enough s
}.

Lemma grows_refl s : grows s s.
Proof. do 3 (split; [done |]). exists []. by rewrite app_nil_r. Qed.

Lemma grows_enough s s' : grows s s' → enough s → enough s'.
Proof. intros (_ & Ht & _ & more & Hc). unfold enough. rewrite Ht, Hc, length_app. lia. Qed.

Lemma grows_envelope s s' envelope : grows s s' → envelope_ok s envelope → envelope_ok s' envelope.
Proof.
  intros (Hx & Ht & _ & more' & Hc) (base & tx & sigs & more & H1 & H2 & H3 & H4 & H5 & H6). exists base, tx, sigs, (more ++ more').
  rewrite Hx, Ht, Hc, H4, <- app_assoc. done.
Qed.

(** ** Changes of one session *)

Definition upd (id : string) (f : StoredCoSigningSession → StoredCoSigningSession) w : cworld :=
  set_sessions (λ m, match jget id m with Some s => jset id (f s) m | None => m end) w.

Lemma update_session_run id f w : update_session id f w = (inr (), upd id f w).
Proof. done. Qed.

Lemma find_session_run id w : find_session id w = match jget id (cw_sessions w) with Some s => (inr s, w) | None => (inl (CoSigningSessionNotFoundError id), w) end.
Proof. unfold find_session, gets, some_or_throw, mbind, M_bind. by destruct (jget id (cw_sessions w)). Qed.

Lemma jget_upd id f w id' : jget id' (cw_sessions (upd id f w)) = if decide (id = id') then f <$> jget id' (cw_sessions w) else jget id' (cw_sessions w).
Proof.
  unfold upd. simpl. destruct (jget id (cw_sessions w)) as [s |] eqn:Hs; [rewrite jget_jset |]; destruct (decide (id = id')) as [<- |]; rewrite ?Hs; done.
Qed.

Lemma upd_ok id f w fl :
  cosign_ok (Cosigning w fl) → (∀ s, jget id (cw_sessions w) = Some s → grows s (f s) ∧ session_ok (f s)) → cosign_ok (Cosigning (upd id f w) fl).
Proof.
  intros [H1 H2 H3] Hf. simpl in *. assert (∀ id' s, jget id' (cw_sessions w) = Some s → ∃ s', jget id' (cw_sessions (upd id f w)) = Some s' ∧ grows s s') as Hg.
  { intros id' s Hs. rewrite jget_upd, Hs. destruct (decide (id = id')) as [<- |]; [exists (f s); split; [done |]; by apply Hf | exists s; split; [done | apply grows_refl]]. }
  split; cbn [cn_world cn_flights].
  - intros id' s. rewrite jget_upd. destruct (decide (id = id')) as [<- |]; [| apply H1]. destruct (jget id (cw_sessions w)) as [s0 |] eqn:Hs0; [| done]. intros [= <-].
    split; [by apply Hf |]. by apply (H1 id s0).
  - intros id' envelope Hin. destruct (H2 id' envelope Hin) as (s & Hs & He). destruct (Hg id' s Hs) as (s' & Hs' & Hgr). exists s'. split; [done | by eapply grows_envelope].
  - intros id' Hin. destruct (H3 id' Hin) as (s & Hs & He). destruct (Hg id' s Hs) as (s' & Hs' & Hgr). exists s'. split; [done | by eapply grows_enough].
Qed.

Lemma status_grows status s : grows s (with_status status s).
Proof. do 3 (split; [done |]). exists []. by rewrite app_nil_r. Qed.

Lemma submission_grows combined submitted failure s : grows s (with_submission combined submitted failure s).
Proof. do 3 (split; [done |]). exists []. by rewrite app_nil_r. Qed.

Lemma status_ok status s : session_ok s → (status = co_ready ∨ status = co_submitted → enough s) → session_ok (with_status status s).
Proof. intros [H1 H2 H3 H4] He. by split. Qed.

Lemma submission_ok combined submitted failure s : session_ok s → session_ok (with_submission combined submitted failure s).
Proof. intros [H1 H2 H3 H4]. by split. Qed.

(** Statuses that end a session need nothing. *)
Lemma close_ok id w fl : cosign_ok (Cosigning w fl) → cosign_ok (Cosigning (upd id (with_status co_expired) w) fl).
Proof.
  intros Hw. apply upd_ok; [done |]. intros s Hs. split; [apply status_grows |]. apply status_ok; [by apply (co_sessions _ Hw id) | by intros [|]].
Qed.

Lemma mark_ok id w fl : cosign_ok (Cosigning w fl) → cosign_ok (Cosigning (markExpired id w).2 fl).
Proof.
  intros Hw. unfold markExpired, mbind, M_bind. rewrite find_session_run. destruct (jget id (cw_sessions w)) as [s |]; [| done].
  destruct (is_open s); [by apply close_ok | done].
Qed.

(** A signature is collected. *)
Lemma validate_run {S} xdr signer signature (st : S) r st' : validatePartialSignature xdr signer signature st = (r, st') → st' = st.
Proof.
  unfold validatePartialSignature, throw_if, answer, mbind, M_bind. destruct (negb (valid_key signer)); [by intros [= _ <-] |].
  destruct (decodeSignature signature); simpl; [by intros [= _ <-] |]. destruct (parseBaseTransaction xdr); simpl; [by intros [= _ <-] |]. destruct (negb _); by intros [= _ <-].
Qed.

Lemma validate_inr {S} xdr signer signature (st st' : S) : validatePartialSignature xdr signer signature st = (inr (), st') →
  valid_key signer = true ∧ ∃ raw tx, decodeSignature signature = inr raw ∧ parseBaseTransaction xdr = inr tx ∧ key_verify signer (tx_hash (tx_body tx)) raw = true.
Proof.
  unfold validatePartialSignature, throw_if, answer, mbind, M_bind. destruct (valid_key signer); [| done]. simpl. destruct (decodeSignature signature) as [| raw] eqn:Hd; [done |]. simpl.
  destruct (parseBaseTransaction xdr) as [| tx] eqn:Hp; [done |]. simpl. destruct (key_verify signer _ raw) eqn:Hv; [| done]. intros _. split; [done |]. by exists raw, tx.
Qed.

Lemma signature_grows x s : grows s (with_signature x s).
Proof. do 3 (split; [done |]). by exists [x]. Qed.

Lemma signature_added x s :
  session_ok s → st_status s = co_collecting → sg_signerAddress x ∉ sg_signerAddress <$> st_collectedSignatures s → signature_ok s x → session_ok (with_signature x s).
Proof.
  intros [H1 H2 H3 H4] Hst Hnew Hx. split; simpl.
  - rewrite fmap_app. apply NoDup_app. split; [done |]. split; [| apply NoDup_singleton]. by intros a Ha ->%list_elem_of_singleton.
  - intros y [Hy | ->%list_elem_of_singleton]%elem_of_app; [by apply H2 | done].
  - done.
  - rewrite Hst. by intros [|].
Qed.

(** Collecting keeps the invariant; when it reports the threshold the session has enough. *)
Lemma collect_ok id signer signature now w fl :
  cosign_ok (Cosigning w fl) →
  let '(r, w') := collect_signature id signer signature now w in
  cosign_ok (Cosigning w' fl) ∧ (r = inr true → ∃ s, jget id (cw_sessions w') = Some s ∧ enough s).
Proof.
  intros Hw. unfold collect_signature. destruct (jget id (cw_sessions w)) as [s |] eqn:Hs.
  2: { rewrite (bind_run_err (find_session id) _ w (CoSigningSessionNotFoundError id) w) by (by rewrite find_session_run, Hs). done. }
  rewrite (bind_run (find_session id) _ w s w) by (by rewrite find_session_run, Hs). destruct (isExpired s now).
  { pose proof (mark_ok id w fl Hw) as Hm. unfold mbind, M_bind. destruct (markExpired id w) as [[e | []] w1]; simpl in *; (split; [exact Hm | done]). }
  rewrite (bind_run (mret ()) _ w () w eq_refl). unfold throw_if. destruct (decide (st_status s = co_collecting)) as [Hst | Hst].
  2: { rewrite (bool_decide_eq_false_2 (st_status s = co_collecting)) by done. split; [exact Hw | done]. }
  rewrite (bool_decide_eq_true_2 (st_status s = co_collecting)) by done. cbn [negb]. rewrite (bind_run (mret ()) _ w () w eq_refl).
  destruct (negb (bool_decide (st_authorizedSigners s = [])) && negb (bool_decide (signer ∈ st_authorizedSigners s))) eqn:Hauth; [split; [exact Hw | done] |]. rewrite (bind_run (mret ()) _ w () w eq_refl).
  destruct (bool_decide (signer ∈ sg_signerAddress <$> st_collectedSignatures s)) eqn:Hdup; [split; [exact Hw | done] |]. rewrite (bind_run (mret ()) _ w () w eq_refl).
  destruct (validatePartialSignature (st_transactionXdr s) signer signature w) as [[e | []] w1] eqn:Hv; pose proof (validate_run _ _ _ _ _ _ Hv) as ->.
  { rewrite (bind_run_err _ _ _ _ _ Hv). done. }
  rewrite (bind_run _ _ _ _ _ Hv). set (x := {| sg_signerAddress := signer; sg_signatureBase64 := signature |}). rewrite (bind_run _ _ _ _ _ (update_session_run id (with_signature x) w)).
  destruct (co_sessions _ Hw id s Hs) as [Hok _]. apply validate_inr in Hv as [Hkey Hver].
  assert (signature_ok s x) as Hx.
  { split; [done |]. split; [| exact Hver]. apply andb_false_iff in Hauth as [H%negb_false_iff%bool_decide_eq_true | H%negb_false_iff%bool_decide_eq_true]; [by left | by right]. }
  assert (cosign_ok (Cosigning (upd id (with_signature x) w) fl)) as Hw1.
  { apply upd_ok; [done |]. intros s' Hs'. rewrite Hs in Hs'. injection Hs' as <-. split; [apply signature_grows |]. apply signature_added; [done | done | | done]. by apply bool_decide_eq_false in Hdup. }
  assert (jget id (cw_sessions (upd id (with_signature x) w)) = Some (with_signature x s)) as Hs1 by (rewrite jget_upd, Hs; by destruct (decide _)).
  destruct (Z.leb_spec (st_requiredThreshold s) (Z.of_nat (S (length (st_collectedSignatures s))))) as [Hle | Hlt]; [| done].
  rewrite (bind_run _ _ _ _ _ (update_session_run id (with_status co_ready) _)).
  assert (enough (with_signature x s)) as He by (unfold enough; simpl; rewrite length_app; simpl; lia). split.
  - apply upd_ok; [done |]. intros s' Hs'. rewrite Hs1 in Hs'. injection Hs' as <-. split; [apply status_grows |]. apply status_ok; [by apply (co_sessions _ Hw1 id) | done].
  - intros _. exists (with_status co_ready (with_signature x s)). split; [| done]. rewrite jget_upd, Hs1. by destruct (decide _).
Qed.

(** The envelope has a decorated signature for each collected one. *)
Lemma combine_from_inr seen tx l tx' :
  combine_from seen tx l = inr tx' → (∀ key, key ∈ seen → key ∈ tx_signatures tx) →
  tx_body tx' = tx_body tx ∧ (∀ key, key ∈ tx_signatures tx → key ∈ tx_signatures tx') ∧
  ∀ x, x ∈ l → ∃ raw, decodeSignature (sg_signatureBase64 x) = inr raw ∧ (key_hint (sg_signerAddress x), raw) ∈ tx_signatures tx'.
Proof.
  revert seen tx. induction l as [| x l IH]; intros seen tx; simpl; [intros [= <-] _; split; [done |]; split; [done |]; by intros x ?%elem_of_nil |].
  destruct (decodeSignature (sg_signatureBase64 x)) as [| raw] eqn:Hd; [done |]. destruct (negb (valid_key _)); [done |]. intros H Hseen.
  destruct (decide ((key_hint (sg_signerAddress x), raw) ∈ seen)) as [Hin | Hni].
  - rewrite bool_decide_eq_true_2 in H by done. destruct (IH _ _ H Hseen) as (B & S1 & S2). split; [done |]. split; [done |].
    intros y [-> | Hy]%elem_of_cons; [exists raw; split; [done | by apply S1, Hseen] | by apply S2].
  - rewrite bool_decide_eq_false_2 in H by done. destruct (IH _ _ H) as (B & S1 & S2); simpl in *.
    { intros key [-> | Hk]%elem_of_cons; apply elem_of_app; [right; by left | left; by apply Hseen]. }
    split; [done |]. split; [intros key Hk; apply S1, elem_of_app; by left |].
    intros y [-> | Hy]%elem_of_cons; [exists raw; split; [done |]; apply S1, elem_of_app; right; by left | by apply S2].
Qed.

Lemma combined_ok s envelope : enough s → combineSignaturesIntoEnvelope (st_transactionXdr s) (st_collectedSignatures s) = inr envelope → envelope_ok s envelope.
Proof.
  intros He. unfold combineSignaturesIntoEnvelope, combined_transaction. destruct (parseBaseTransaction (st_transactionXdr s)) as [| base] eqn:Hp; [done |].
  destruct (combine_from [] base (st_collectedSignatures s)) as [| tx] eqn:Hc; [done |]. intros [= <-].
  destruct (combine_from_inr _ _ _ _ Hc) as (B & _ & S2); [by intros key ?%elem_of_nil |]. exists base, tx, (st_collectedSignatures s), [].
  rewrite app_nil_r. done.
Qed.

Lemma begin_ok id network w fl :
  cosign_ok (Cosigning w fl) → (∃ s, jget id (cw_sessions w) = Some s ∧ enough s) →
  let '(r, w') := begin_submission id network w in
  cosign_ok (Cosigning w' fl) ∧ ∃ s, jget id (cw_sessions w') = Some s ∧ enough s.
Proof.
  intros Hw (s & Hs & He). unfold begin_submission. rewrite (bind_run (find_session id) _ w s w) by (by rewrite find_session_run, Hs). unfold answer.
  destruct (combineSignaturesIntoEnvelope _ _) as [e | combined] eqn:Hc; [split; [exact Hw | by exists s] |]. rewrite (bind_run (λ w, (inr combined, w)) _ w combined w eq_refl).
  set (f := λ s, with_submission (Some combined) (st_submitted s) (st_failureReason s) s). rewrite (bind_run _ _ _ _ _ (update_session_run id f w)).
  assert (cosign_ok (Cosigning (upd id f w) fl)) as Hw1.
  { apply upd_ok; [done |]. intros s' Hs'. split; [apply submission_grows |]. apply submission_ok. by apply (co_sessions _ Hw id). }
  assert (jget id (cw_sessions (upd id f w)) = Some (f s)) as Hs1 by (rewrite jget_upd, Hs; by destruct (decide _)).
  destruct network; [| split; [exact Hw1 | by exists (f s)]]. split; [| by exists (f s)]. destruct Hw1 as [K1 K2 K3]. split; [done | | done]. cbn [cn_world cw_sent cw_sessions].
  intros id' envelope [Hin | [= -> ->]%list_elem_of_singleton]%elem_of_app; [by apply K2 |]. exists (f s). split; [done |].
  apply (grows_envelope s); [apply submission_grows | by apply combined_ok].
Qed.

Lemma end_ok id network outcome w fl :
  cosign_ok (Cosigning w fl) → (∃ s, jget id (cw_sessions w) = Some s ∧ enough s) → cosign_ok (Cosigning (end_submission id network outcome w).2 fl).
Proof.
  intros Hw (s & Hs & He). unfold end_submission.
  assert (∀ g, (∀ s, grows s (g s) ∧ (session_ok s → session_ok (g s))) → cosign_ok (Cosigning (upd id g w) fl)) as Hg.
  { intros g Hg. apply upd_ok; [done |]. intros s' Hs'. destruct (Hg s'). split; [done |]. by apply H0, (co_sessions _ Hw id). }
  destruct outcome as [e | []].
  - rewrite (bind_run _ _ _ _ _ (update_session_run id _ w)). apply Hg. intros s'. split; [apply submission_grows | apply submission_ok].
  - set (g := λ s, with_submission (st_combinedXdr s) (network || st_submitted s) (st_failureReason s) s). rewrite (bind_run _ _ _ _ _ (update_session_run id g w)).
    rewrite (bind_run _ _ _ _ _ (update_session_run id (with_status co_submitted) _)).
    assert (cosign_ok (Cosigning (upd id g w) fl)) as Hw1 by (apply Hg; intros s'; split; [apply submission_grows | apply submission_ok]).
    assert (jget id (cw_sessions (upd id g w)) = Some (g s)) as Hs1 by (rewrite jget_upd, Hs; by destruct (decide _)).
    assert (cosign_ok (Cosigning (upd id (with_status co_submitted) (upd id g w)) fl)) as Hw2.
    { apply upd_ok; [done |]. intros s' Hs'. rewrite Hs1 in Hs'. injection Hs' as <-. split; [apply status_grows |]. apply status_ok; [by apply (co_sessions _ Hw1 id) | done]. }
    unfold mbind, M_bind. rewrite find_session_run. destruct (jget id (cw_sessions (upd id (with_status co_submitted) (upd id g w)))); exact Hw2.
Qed.

Lemma submission_step_ok id network w fl :
  cosign_ok (Cosigning w fl) → (∃ s, jget id (cw_sessions w) = Some s ∧ enough s) → cosign_ok (submission id network fl w).
Proof.
  intros Hw He. unfold submission. pose proof (begin_ok id network w fl Hw He) as Hb. destruct (begin_submission id network w) as [[e | []] w1]; destruct Hb as [Hw1 He1]; [done |].
  destruct network; [| by apply end_ok]. destruct Hw1 as [K1 K2 K3]. split; [done | done |]. cbn [cn_flights cn_world] in *.
  intros id' [Hin | ->%list_elem_of_singleton]%elem_of_app; [by apply K3 | done].
Qed.

Lemma check_submit_ok id now w fl :
  cosign_ok (Cosigning w fl) →
  let '(r, w') := check_submit id now w in
  cosign_ok (Cosigning w' fl) ∧ (r = inr None → ∃ s, jget id (cw_sessions w') = Some s ∧ enough s).
Proof.
  intros Hw. unfold check_submit. destruct (jget id (cw_sessions w)) as [s |] eqn:Hs.
  2: { rewrite (bind_run_err (find_session id) _ w (CoSigningSessionNotFoundError id) w) by (by rewrite find_session_run, Hs). done. }
  rewrite (bind_run (find_session id) _ w s w) by (by rewrite find_session_run, Hs). destruct (isExpired s now).
  { pose proof (mark_ok id w fl Hw) as Hm. unfold mbind, M_bind. destruct (markExpired id w) as [[e | []] w1]; simpl in *; (split; [exact Hm | done]). }
  rewrite (bind_run (mret ()) _ w () w eq_refl). destruct (bool_decide (st_status s = co_submitted)); [split; [exact Hw | done] |]. unfold throw_if.
  destruct (bool_decide (st_status s = co_expired)); [split; [exact Hw | done] |]. rewrite (bind_run (mret ()) _ w () w eq_refl).
  destruct (Z.ltb_spec (Z.of_nat (length (st_collectedSignatures s))) (st_requiredThreshold s)) as [| Hge]; [split; [exact Hw | done] |]. rewrite (bind_run (mret ()) _ w () w eq_refl).
  rewrite (bind_run _ _ _ _ _ (update_session_run id (with_status co_ready) w)). split.
  - apply upd_ok; [done |]. intros s' Hs'. rewrite Hs in Hs'. injection Hs' as <-. split; [apply status_grows |]. apply status_ok; [by apply (co_sessions _ Hw id) | done].
  - intros _. exists (with_status co_ready s). split; [rewrite jget_upd, Hs; by destruct (decide _) | done].
Qed.

Context (uuid_inj : ∀ n m, session_uuid n = session_uuid m → n = m).

Lemma create_session_ok orderId xdr threshold signers ttl w fl :
  cosign_ok (Cosigning w fl) → cosign_ok (Cosigning (createCoSigningSession orderId xdr threshold signers ttl w).2 fl).
Proof.
  intros Hw. unfold createCoSigningSession, throw_if. destruct (String.eqb (trim orderId) ""); [done |]. rewrite (bind_run (mret ()) _ w () w eq_refl).
  destruct (String.eqb (trim xdr) ""); [done |]. rewrite (bind_run (mret ()) _ w () w eq_refl). unfold answer.
  destruct (parseBaseTransaction xdr) as [e | tx]; [done |]. rewrite (bind_run (λ w, (inr tx, w)) _ w tx w eq_refl). cbv zeta. set (l := unique_signers signers).
  assert (∀ l', ∃ r, for_each l' (λ address, if negb (valid_key address) then throw (Error ("Invalid authorized signer Stellar public key: " +:+ address)) else mret ()) w = (r, w)) as Hfor.
  { induction l' as [| a l' IH]; simpl; [by eexists |]. destruct (negb (valid_key a)); [by eexists |]. exact IH. }
  destruct (Hfor l) as [[e | []] Hr]; [rewrite (bind_run_err _ _ _ _ _ Hr); done |]. rewrite (bind_run _ _ _ _ _ Hr). destruct threshold as [t |]; [| done].
  destruct (Z.ltb_spec t 1); [done |]. rewrite (bind_run (mret ()) _ w () w eq_refl). destruct (negb _ && _); [done |]. rewrite (bind_run (mret ()) _ w () w eq_refl).
  rewrite (bind_run (gets cw_uuids) _ w (cw_uuids w) w eq_refl), (bind_run (gets cw_now) _ w (cw_now w) w eq_refl). set (s := {| st_sessionId := _ |}).
  unfold modify, mbind, M_bind. simpl. destruct Hw as [H1 H2 H3]. cbn [cn_world cn_flights] in *.
  assert (∀ id s', jget id (cw_sessions w) = Some s' → session_uuid (cw_uuids w) ≠ id) as Hfresh.
  { intros id s' Hs' <-. destruct (H1 _ _ Hs') as (_ & k & Hk & Heq). apply uuid_inj in Heq. lia. }
  split; cbn [cn_world cn_flights cw_sessions cw_sent cw_uuids].
  - intros id s'. rewrite jget_jset. destruct (decide _) as [<- |].
    + intros [= <-]. split; [| exists (cw_uuids w); split; [lia | done]]. split; simpl; [constructor | by intros x ?%elem_of_nil | done | by intros [|]].
    + intros Hs'. destruct (H1 _ _ Hs') as (Hok & k & Hk & Heq). split; [done |]. exists k. split; [lia | done].
  - intros id envelope Hin. destruct (H2 id envelope Hin) as (s' & Hs' & He). exists s'. split; [| done]. rewrite jget_jset_ne; [done | by apply (Hfresh id s')].
  - intros id Hin. destruct (H3 id Hin) as (s' & Hs' & He). exists s'. split; [| done]. rewrite jget_jset_ne; [done | by apply (Hfresh id s')].
Qed.

Lemma cosign_step_ok op x : cosign_ok x → cosign_ok (cosign_step op x).
Proof.
  destruct x as [w fl]. intros Hw. destruct op as [orderId xdr threshold signers ttl | id | id signer signature network | id network | i outcome | id | ms]; unfold cosign_step; cbn [cn_world cn_flights].
  - by apply create_session_ok.
  - unfold getCoSigningSession. rewrite (bind_run (gets _) _ w (jget id (cw_sessions w)) w eq_refl). destruct (jget id (cw_sessions w)) as [s |]; [| done].
    rewrite (bind_run (gets cw_now) _ w (cw_now w) w eq_refl). pose proof (mark_ok id w fl Hw) as Hm. destruct (is_open s && isExpired s (cw_now w)); unfold mbind, M_bind.
    + destruct (markExpired id w) as [[e | []] w1]; [done |]. rewrite find_session_run. by destruct (jget id (cw_sessions w1)).
    + simpl. rewrite find_session_run. by destruct (jget id (cw_sessions w)).
  - pose proof (collect_ok id signer signature (cw_now w) w fl Hw) as Hc. destruct (collect_signature _ _ _ _ w) as [[e | [|]] w1]; destruct Hc as [Hw1 He]; [done | | done].
    apply submission_step_ok; [done | by apply He].
  - pose proof (check_submit_ok id (cw_now w) w fl Hw) as Hc. destruct (check_submit _ _ w) as [[e | [p |]] w1]; destruct Hc as [Hw1 He]; [done | done |].
    apply submission_step_ok; [done | by apply He].
  - destruct (fl !! i) as [id |] eqn:Hi; [| done]. destruct (end_ok id true outcome w fl Hw) as [K1 K2 K3]; [apply (co_flights _ Hw id); by apply list_elem_of_lookup_2 in Hi |].
    split; [done | done |]. cbn [cn_world cn_flights] in *. intros id' Hin. apply K3. by apply list_elem_of_delete_inv in Hin.
  - unfold expireCoSigningSession. destruct (jget id (cw_sessions w)) as [s |] eqn:Hs.
    2: { rewrite (bind_run_err (find_session id) _ w (CoSigningSessionNotFoundError id) w) by (by rewrite find_session_run, Hs). done. }
    rewrite (bind_run (find_session id) _ w s w) by (by rewrite find_session_run, Hs). pose proof (mark_ok id w fl Hw) as Hm. pose proof (close_ok id w fl Hw) as Hc.
    destruct (is_open s); [destruct (isExpired s (cw_now w)) |]; unfold mbind, M_bind.
    + destruct (markExpired id w) as [[e | []] w1]; [done |]. rewrite find_session_run. by destruct (jget id (cw_sessions w1)).
    + rewrite update_session_run, find_session_run. by destruct (jget id (cw_sessions (upd id (with_status co_expired) w))).
    + simpl. rewrite find_session_run. by destruct (jget id (cw_sessions w)).
  - destruct Hw as [H1 H2 H3]. by split.
Qed.

Lemma cosign_run_ok ops x : cosign_ok x → cosign_ok (cosign_run ops x).
Proof. revert x. induction ops as [| op ops IH]; intros x Hx; [done |]. apply IH. by apply cosign_step_ok. Qed.

Lemma cosign_start_ok now : cosign_ok (cosign_start now).
Proof. split; simpl; [done | by intros id envelope ?%elem_of_nil | by intros id ?%elem_of_nil]. Qed.

(** C29. Dual control: an envelope that was handed to the network is that of a session, and
    carries for at least as many different signers as the session requires a signature
    that verifies against the transaction, each of them allowed to sign; whatever
    requests came before, interleaved with the answers of the network. *)
Theorem envelope_has_threshold ops now id envelope :
  let w := cn_world (cosign_run ops (cosign_start now)) in
  (id, envelope) ∈ cw_sent w →
  ∃ s base tx signatures, jget id (cw_sessions w) = Some s ∧ parseBaseTransaction (st_transactionXdr s) = inr base ∧
    envelope = toXDR tx ∧ tx_body tx = tx_body base ∧ 1 ≤ st_requiredThreshold s ≤ Z.of_nat (length signatures) ∧ NoDup (sg_signerAddress <$> signatures) ∧
    ∀ x, x ∈ signatures → valid_key (sg_signerAddress x) = true ∧ (st_authorizedSigners s = [] ∨ sg_signerAddress x ∈ st_authorizedSigners s) ∧
      ∃ raw, decodeSignature (sg_signatureBase64 x) = inr raw ∧ key_verify (sg_signerAddress x) (tx_hash (tx_body tx)) raw = true ∧
             (key_hint (sg_signerAddress x), raw) ∈ tx_signatures tx.
Proof.
  intros w Hin. pose proof (cosign_run_ok ops _ (cosign_start_ok now)) as Hok. destruct (co_sent _ Hok id envelope Hin) as (s & Hs & base & tx & sigs & more & H1 & H2 & H3 & H4 & H5 & H6).
  destruct (co_sessions _ Hok id s Hs) as [[S1 S2 S3 S4] _]. exists s, base, tx, sigs. split; [done |]. split; [done |]. split; [done |]. split; [done |]. split; [lia |].
  split; [rewrite H4, fmap_app in S1; by apply NoDup_app in S1 as (? & _) |]. intros x Hx. destruct (S2 x) as (V1 & V2 & raw & tx' & V3 & V4 & V5); [rewrite H4; apply elem_of_app; by left |].
  split; [done |]. split; [done |]. exists raw. split; [done |]. destruct (H6 x Hx) as (raw' & D & Hmem). rewrite V3 in D. injection D as <-. rewrite H1 in V4. injection V4 as <-. rewrite H2. done.
Qed.
End history.

(** ** Examples *)

(** Keys "Ga", "Gb", ...; the signature of "Gx" is 64 times "x". *)
Module cosign_example.
Fixpoint repeat_text (n : nat) (s : string) : string := match n with O => "" | S n' => s +:+ repeat_text n' s end.
#[export] Instance env : CoSigningEnv := {|
  fromXDR s := if String.eqb s "tx" then inr (Some {| tx_body := "tx"; tx_signatures := [] |}) else inl "bad envelope";
  toXDR tx := tx_body tx +:+ String.concat "" ((λ x, x.1 +:+ ":" +:+ x.2) <$> tx_signatures tx);
  tx_hash body := body; valid_key k := String.eqb (String.substring 0 1 k) "G"; key_hint k := k;
  key_verify k _ raw := String.eqb ("G" +:+ String.substring 0 1 raw) k; base64 s := repeat_text 64 s; session_uuid n := repeat_text (S n) "s" |}.

Lemma uuid_inj n m : session_uuid n = session_uuid m → n = m.
Proof.
  intros H%(f_equal String.length). assert (∀ k, String.length (repeat_text k "s") = k) as Hl.
  { induction k as [| k IH]; [done |]. change (S (String.length (repeat_text k "s")) = S k). by rewrite IH. }
  change (String.length (repeat_text (S n) "s") = String.length (repeat_text (S m) "s")) in H. rewrite !Hl in H. by injection H.
Qed.

Definition ops (network : bool) : list cosign_op :=
  [c_create "order" "tx" (Int 2) (Some ["Ga"; "Gb"; "Gc"]) None; c_add "s" "Ga" "a" network; c_add "s" "Ga" "a" network; c_add "s" "Gd" "d" network;
   c_add "s" "Gb" "b" network; c_submit "s" true].
Definition envelope : string := toXDR {| tx_body := "tx"; tx_signatures := [("Ga", repeat_text 64 "a"); ("Gb", repeat_text 64 "b")] |}.
End cosign_example.
#[local] Existing Instance cosign_example.env.

Lemma envelope_has_threshold_witness :
  let w := cn_world (cosign_run (cosign_example.ops true) (cosign_start 0)) in
  ("s", cosign_example.envelope) ∈ cw_sent w ∧
  ∃ s signatures, jget "s" (cw_sessions w) = Some s ∧ 1 ≤ st_requiredThreshold s ≤ Z.of_nat (length signatures) ∧ NoDup (sg_signerAddress <$> signatures).
Proof.
  intros w. assert (("s", cosign_example.envelope) ∈ cw_sent w) as Hin by (apply (bool_decide_unpack _); by vm_compute). split; [done |].
  destruct (envelope_has_threshold cosign_example.uuid_inj (cosign_example.ops true) 0 "s" cosign_example.envelope Hin) as (s & base & tx & sigs & H1 & _ & _ & _ & H2 & H3 & _).
  exists s, sigs. split; [exact H1 |]. split; [exact H2 | exact H3].
Defined.

(** Without a submitter the last signature already marks the session as submitted, and the
    explicit submission that the code offers for this case returns without sending. *)
Lemma submitted_but_never_sent :
  let w := cn_world (cosign_run (cosign_example.ops false) (cosign_start 0)) in
  st_status <$> jget "s" (cw_sessions w) = Some co_submitted ∧ cw_sent w = [].
Proof. by vm_compute. Qed.
