(* ===== verification/Negotiation.v ===== *)
(** * Price negotiation between agents (agents/buyer-agent/src/negotiation/A2ANegotiator.ts)

    The buyer offers a price, the merchant accepts or counters, the buyer meets it half
    way, for a bounded number of rounds.  The merchant, the transport and the
    cryptography are parameters; so is the text of a JSON value.  What the replacer of
    [JSON.stringify] leaves out is modelled. *)
From S2P Require Import Prelude JsLib JsCollections.
Local Open Scope Z_scope.

(** ** Types *)

Record order_item := { oi_productId : string; oi_quantity : Z }.
Record NegotiationOffer := {
  no_sessionId : string; no_orderItems : list order_item; no_offeredPriceStroops : string; no_targetCurrency : string; no_buyerMaxBudgetStroops : string
}.
Record NegotiationResponse := {
  nr_accepted : bool; nr_counterOfferStroops : option string; nr_discountPercentage : option Z; nr_validForSeconds : Z; nr_merchantSignature : string
}.

Inductive NegotiationStatus := ng_accepted | ng_rejected | ng_max_rounds_exceeded | ng_signature_invalid | ng_error.

(** [finalResult] of the session is [None] while it runs. *)
Record NegotiationSession := {
  ns_sessionId : string; ns_merchantEndpoint : string; ns_round : Z; ns_history : list (NegotiationOffer * option NegotiationResponse * Z);
  ns_bestOfferStroops : option string; ns_finalResult : option NegotiationStatus
}.
Record NegotiationResult := {
  nz_status : NegotiationStatus; nz_finalPriceStroops : option string; nz_discountPercentage : option Z; nz_validForSeconds : option Z;
  nz_merchantSignature : option string; nz_roundsCompleted : Z; nz_lastError : option string
}.

(** JSON values; [undefined] is left out of objects. *)
Inductive json := JNumber (z : Z) | JText (s : string) | JBool (b : bool) | JUndefined | JArray (l : list json) | JObject (fields : list (string * json)).

Class NegotiationEnv := {
  JSON_text : json → string;
  sha256Hex : string → string;
  sign_digest : string → string;
  (** [verifier.verify(keyPem, signature)], which may throw *)
  verify_digest : string → string → string → exn + bool;
  merchantPublicKeyPem : option string;
  maxRounds : Z;
  baseUrl : string;
  (** the n-th request: an error of the transport, or a status and the body as a text and as a response *)
  merchant_fetch : nat → string → NegotiationOffer → string → exn + (Z * string * NegotiationResponse)
}.

Record nworld := NWorld {
  nw_sessions : jsmap NegotiationSession;
  (** the offers that were sent *)
  nw_sent : list NegotiationOffer;
  nw_now : Z
}.

(** ** Canonical form *)

Fixpoint insert_key (k : string) (l : list string) : list string :=
  match l with [] => [k] | k' :: l' => if String.leb k k' then k :: l else k' :: insert_key k l' end.
Definition sort_keys (l : list string) : list string := foldr insert_key [] l.

(** [JSON.stringify(value, keys)]: at every level only the listed keys, in their order. *)
Fixpoint allow (keys : list string) (j : json) : json :=
  match j with
  | JArray l => JArray (map (allow keys) l)
  | JObject fields =>
      let kept := (fix kept (f : list (string * json)) : list (string * json) :=
                     match f with [] => [] | (k, v) :: f' => (k, allow keys v) :: kept f' end) fields in
      JObject (omap (λ k, match jget k kept with Some JUndefined => None | Some v => Some (k, v) | None => None end) keys)
  | _ => j
  end.

Section negotiation.
Context `{NE : NegotiationEnv}.

Definition canonicalizeObject (fields : list (string * json)) : string := JSON_text (allow (sort_keys fields.*1) (JObject fields)).

Definition computeOfferDigest (offer : NegotiationOffer) (timestamp : Z) : string :=
  sha256Hex (canonicalizeObject
    [("sessionId", JText (no_sessionId offer));
     ("orderItems", JArray (map (λ i, JObject [("productId", JText (oi_productId i)); ("quantity", JNumber (oi_quantity i))]) (no_orderItems offer)));
     ("offeredPriceStroops", JText (no_offeredPriceStroops offer));
     ("targetCurrency", JText (no_targetCurrency offer));
     ("buyerMaxBudgetStroops", JText (no_buyerMaxBudgetStroops offer));
     ("timestamp", JNumber timestamp)]).

Definition computeResponseDigest (response : NegotiationResponse) (offer : NegotiationOffer) (timestamp : Z) : string :=
  sha256Hex (canonicalizeObject
    [("accepted", JBool (nr_accepted response));
     ("counterOfferStroops", match nr_counterOfferStroops response with Some s => JText s | None => JUndefined end);
     ("discountPercentage", match nr_discountPercentage response with Some z => JNumber z | None => JUndefined end);
     ("validForSeconds", JNumber (nr_validForSeconds response));
     ("sessionId", JText (no_sessionId offer));
     ("timestamp", JNumber timestamp)]).

Definition signOffer (offer : NegotiationOffer) (timestamp : Z) : string := sign_digest (computeOfferDigest offer timestamp).

Definition verifyMerchantSignature (response : NegotiationResponse) (offer : NegotiationOffer) (timestamp : Z) (override : option string) : bool :=
  let keyPem := match override with Some k => Some k | None => merchantPublicKeyPem end in
  if truthy keyPem then
    match verify_digest (default "" keyPem) (computeResponseDigest response offer timestamp) (nr_merchantSignature response) with
    | inr ok => ok
    | inl _ => false
    end
  else false.

(** ** Rounds *)

Definition sendSignedOffer (offer : NegotiationOffer) (merchantEndpoint : string) : M nworld (NegotiationResponse * Z) :=
  timestamp ← gets nw_now;
  n ← gets (λ w, length (nw_sent w));
  modify (λ w, NWorld (nw_sessions w) (nw_sent w ++ [offer]) (nw_now w));;
  let url := if String.prefix "http" merchantEndpoint then merchantEndpoint else baseUrl +:+ merchantEndpoint in
  res ← answer (merchant_fetch n url offer (signOffer offer timestamp));
  let '(status, text, body) := res in
  throw_if (negb ((200 <=? status) && (status <? 300))) (Error ("Merchant negotiation endpoint returned " +:+ dec status +:+ ": " +:+ text));;
  mret (body, timestamp).

(** [None] when there is no counter offer, or one beyond the budget. *)
Definition buildCounterOffer {S} (previous : NegotiationOffer) (response : NegotiationResponse) : M S (option NegotiationOffer) :=
  if negb (truthy (nr_counterOfferStroops response)) then mret None
  else
    counter ← BigInt_throw (default "" (nr_counterOfferStroops response));
    maxBudget ← BigInt_throw (no_buyerMaxBudgetStroops previous);
    if maxBudget <? counter then mret None
    else
      current ← BigInt_throw (no_offeredPriceStroops previous);
      let nextOffer := current + Z.quot (counter - current) 2 in
      mret (Some {| no_sessionId := no_sessionId previous; no_orderItems := no_orderItems previous; no_offeredPriceStroops := dec nextOffer;
                    no_targetCurrency := no_targetCurrency previous; no_buyerMaxBudgetStroops := no_buyerMaxBudgetStroops previous |}).

Definition set_session (sessionId : string) (f : NegotiationSession → NegotiationSession) : M nworld () :=
  modify (λ w, NWorld (match jget sessionId (nw_sessions w) with Some s => jset sessionId (f s) (nw_sessions w) | None => nw_sessions w end) (nw_sent w) (nw_now w)).

Definition with_round (round : Z) (s : NegotiationSession) : NegotiationSession := {|
  ns_sessionId := ns_sessionId s; ns_merchantEndpoint := ns_merchantEndpoint s; ns_round := round; ns_history := ns_history s;
  ns_bestOfferStroops := ns_bestOfferStroops s; ns_finalResult := ns_finalResult s |}.
Definition with_history (h : NegotiationOffer * option NegotiationResponse * Z) (s : NegotiationSession) : NegotiationSession := {|
  ns_sessionId := ns_sessionId s; ns_merchantEndpoint := ns_merchantEndpoint s; ns_round := ns_round s; ns_history := ns_history s ++ [h];
  ns_bestOfferStroops := ns_bestOfferStroops s; ns_finalResult := ns_finalResult s |}.
Definition with_result (best : option string) (r : NegotiationStatus) (s : NegotiationSession) : NegotiationSession := {|
  ns_sessionId := ns_sessionId s; ns_merchantEndpoint := ns_merchantEndpoint s; ns_round := ns_round s; ns_history := ns_history s;
  ns_bestOfferStroops := match best with Some _ => best | None => ns_bestOfferStroops s end; ns_finalResult := Some r |}.

(** What a round ends with: a result, or the next offer and the response. *)
Definition round_step (id endpoint : string) (round : Z) (offer : NegotiationOffer) : M nworld (NegotiationResult + NegotiationOffer * NegotiationResponse) :=
  set_session id (with_round round);;
  sent ← try_catch (r ← sendSignedOffer offer endpoint; mret (inr r)) (λ e, mret (inl e));
  now ← gets nw_now;
  match sent with
  | inl e =>
      set_session id (λ s, with_history (offer, None, now) (with_result None ng_error s));;
      mret (inl {| nz_status := ng_error; nz_finalPriceStroops := None; nz_discountPercentage := None; nz_validForSeconds := None; nz_merchantSignature := None;
                   nz_roundsCompleted := round - 1; nz_lastError := Some (exn_message e) |})
  | inr (response, timestamp) =>
      set_session id (with_history (offer, Some response, now));;
      if truthy merchantPublicKeyPem && negb (verifyMerchantSignature response offer timestamp None) then
        set_session id (with_result None ng_error);;
        mret (inl {| nz_status := ng_signature_invalid; nz_finalPriceStroops := None; nz_discountPercentage := None; nz_validForSeconds := None;
                     nz_merchantSignature := None; nz_roundsCompleted := round; nz_lastError := Some "Merchant signature verification failed" |})
      else if nr_accepted response then
        set_session id (with_result (Some (no_offeredPriceStroops offer)) ng_accepted);;
        mret (inl {| nz_status := ng_accepted; nz_finalPriceStroops := Some (no_offeredPriceStroops offer); nz_discountPercentage := nr_discountPercentage response;
                     nz_validForSeconds := Some (nr_validForSeconds response); nz_merchantSignature := Some (nr_merchantSignature response);
                     nz_roundsCompleted := round; nz_lastError := None |})
      else
        next ← buildCounterOffer offer response;
        match next with
        | None =>
            set_session id (with_result None ng_rejected);;
            mret (inl {| nz_status := ng_rejected; nz_finalPriceStroops := nr_counterOfferStroops response; nz_discountPercentage := nr_discountPercentage response;
                         nz_validForSeconds := None; nz_merchantSignature := None; nz_roundsCompleted := round; nz_lastError := None |})
        | Some offer' => mret (inr (offer', response))
        end
  end.

(** [while (session.round < this.maxRounds)]: [left] rounds are left. *)
Fixpoint rounds (left : nat) (id endpoint : string) (round : Z) (offer : NegotiationOffer) (lastResponse : option NegotiationResponse) : M nworld NegotiationResult :=
  match left with
  | O =>
      set_session id (with_result None ng_max_rounds_exceeded);;
      mret {| nz_status := ng_max_rounds_exceeded; nz_finalPriceStroops := lastResponse ≫= nr_counterOfferStroops;
              nz_discountPercentage := lastResponse ≫= nr_discountPercentage; nz_validForSeconds := None; nz_merchantSignature := None;
              nz_roundsCompleted := maxRounds; nz_lastError := Some ("Negotiation exceeded maximum of " +:+ dec maxRounds +:+ " rounds") |}
  | S left' =>
      r ← round_step id endpoint (round + 1) offer;
      match r with
      | inl result => mret result
      | inr (offer', response) => rounds left' id endpoint (round + 1) offer' (Some response)
      end
  end.

Definition createSession (sessionId merchantEndpoint : string) : M nworld () :=
  modify (λ w, NWorld (jset sessionId {| ns_sessionId := sessionId; ns_merchantEndpoint := merchantEndpoint; ns_round := 0; ns_history := [];
                                         ns_bestOfferStroops := None; ns_finalResult := None |} (nw_sessions w)) (nw_sent w) (nw_now w)).

Definition negotiate (initialOffer : NegotiationOffer) (merchantEndpoint : string) : M nworld NegotiationResult :=
  createSession (no_sessionId initialOffer) merchantEndpoint;;
  rounds (Z.to_nat maxRounds) (no_sessionId initialOffer) merchantEndpoint 0 initialOffer None.
End negotiation.

(** ** The offers of a negotiation *)

Section bounds.
Context `{NE : NegotiationEnv}.
Implicit Types w : nworld.

(** An offer for the same order within the budget [b]. *)
Definition within (initial : NegotiationOffer) (b : Z) (offer : NegotiationOffer) : Prop :=
  no_sessionId offer = no_sessionId initial ∧ no_orderItems offer = no_orderItems initial ∧ no_targetCurrency offer = no_targetCurrency initial ∧
  no_buyerMaxBudgetStroops offer = no_buyerMaxBudgetStroops initial ∧ ∃ p, BigInt (no_offeredPriceStroops offer) = Some p ∧ p ≤ b.

(** The half way between two amounts is not beyond the larger one. *)
Lemma half_way current counter b : current ≤ b → counter ≤ b → current + Z.quot (counter - current) 2 ≤ b.
Proof. intros H1 H2. pose proof (Z.quot_rem' (counter - current) 2). pose proof (Z.rem_bound_abs (counter - current) 2). lia. Qed.

Lemma counter_within {S} initial b offer response next (s s' : S) :
  within initial b offer → BigInt (no_buyerMaxBudgetStroops initial) = Some b → buildCounterOffer offer response s = (inr (Some next), s') → within initial b next.
Proof.
  intros (E1 & E2 & E3 & E4 & p & Hp & Hle) Hb H. unfold buildCounterOffer in H. destruct (negb _); [done |].
  apply bind_inr in H as (counter & s1 & H1 & H). apply bind_inr in H as (budget & s2 & H2 & H). rewrite E4 in H2. unfold BigInt_throw in H1, H2. rewrite Hb in H2. injection H2 as <- <-.
  destruct (Z.ltb_spec b counter); [done |]. apply bind_inr in H as (current & s3 & H3 & H). unfold BigInt_throw in H3. rewrite Hp in H3. injection H3 as <- <-. injection H as <- <-.
  split; [done |]. split; [done |]. split; [done |]. split; [done |]. exists (p + Z.quot (counter - p) 2). split; [apply BigInt_dec | by apply half_way].
Qed.

(** Rounds send nothing but their offer. *)
Lemma set_session_sent id f w : nw_sent (set_session id f w).2 = nw_sent w.
Proof. done. Qed.

Lemma buildCounterOffer_state {S} offer response (s : S) : (buildCounterOffer offer response s).2 = s.
Proof.
  unfold buildCounterOffer, BigInt_throw, some_or_throw, mbind, M_bind. destruct (negb _); [done |]. destruct (BigInt _); simpl; [| done].
  destruct (BigInt _); simpl; [| done]. destruct (_ <? _); simpl; [done |]. by destruct (BigInt _).
Qed.

(** A result that is an acceptance is one of this offer, by a verified response. *)
Definition accepts (offer : NegotiationOffer) (r : NegotiationResult) : Prop :=
  nz_status r = ng_accepted → nz_finalPriceStroops r = Some (no_offeredPriceStroops offer).

Lemma round_step_ok initial b id endpoint round offer w :
  within initial b offer → BigInt (no_buyerMaxBudgetStroops initial) = Some b →
  let '(r, w') := round_step id endpoint round offer w in
  nw_sent w' = nw_sent w ++ [offer] ∧
  match r with
  | inl _ => True
  | inr (inl result) => accepts offer result ∧ nz_roundsCompleted result ≤ round
  | inr (inr (offer', _)) => within initial b offer'
  end.
Proof.
  intros Hw Hb. unfold round_step. pose (w1 := (set_session id (with_round round) w).2). rewrite (bind_run (set_session _ _) _ w () w1 eq_refl).
  assert (∃ x w2, (try_catch (r ← sendSignedOffer offer endpoint; mret (inr r)) (λ e, mret (inl e))) w1 = (inr x, w2) ∧ nw_sent w2 = nw_sent w ++ [offer]) as (x & w2 & Hx & Hs).
  { unfold try_catch, sendSignedOffer, gets, modify, answer, throw_if, mbind, M_bind. simpl. destruct (merchant_fetch _ _ _ _) as [e | [[status text] body]]; simpl; [by eexists _, _ |].
    destruct (negb _); by eexists _, _. }
  rewrite (bind_run _ _ _ _ _ Hx), (bind_run (gets nw_now) _ w2 (nw_now w2) w2 eq_refl). destruct x as [e | [response timestamp]].
  - split; [exact Hs |]. split; [done | simpl; lia].
  - pose (w3 := (set_session id (with_history (offer, Some response, nw_now w2)) w2).2). rewrite (bind_run (set_session _ _) _ w2 () w3 eq_refl).
    destruct (_ && _); [split; [exact Hs | split; [done | simpl; lia]] |]. destruct (nr_accepted response); [split; [exact Hs | split; [done | simpl; lia]] |].
    pose proof (buildCounterOffer_state offer response w3) as Hst. destruct (buildCounterOffer offer response w3) as [[e | [next |]] w4] eqn:Hc; simpl in Hst; subst w4.
    + rewrite (bind_run_err _ _ _ _ _ Hc). split; [exact Hs | done].
    + rewrite (bind_run _ _ _ _ _ Hc). split; [exact Hs |]. by eapply counter_within.
    + rewrite (bind_run _ _ _ _ _ Hc). split; [exact Hs | split; [done | simpl; lia]].
Qed.

Lemma rounds_ok initial b left id endpoint round offer last w :
  within initial b offer → BigInt (no_buyerMaxBudgetStroops initial) = Some b → round + Z.of_nat left ≤ Z.max 0 maxRounds →
  let '(r, w') := rounds left id endpoint round offer last w in
  ∃ offers, nw_sent w' = nw_sent w ++ offers ∧ (length offers ≤ left)%nat ∧ (∀ o, o ∈ offers → within initial b o) ∧
  ∀ result, r = inr result → nz_status result = ng_accepted → ∃ o, o ∈ offers ∧ nz_finalPriceStroops result = Some (no_offeredPriceStroops o).
Proof.
  revert round offer last w. induction left as [| left IH]; intros round offer last w Hw Hb Hle.
  { exists []. rewrite app_nil_r. split; [done |]. split; [done |]. split; [by intros o ?%elem_of_nil |]. by intros result [= <-]. }
  cbn [rounds]. pose proof (round_step_ok initial b id endpoint (round + 1) offer w Hw Hb) as Hr. destruct (round_step _ _ _ _ w) as [[e | [result | [offer' response]]] w1] eqn:Hrun; destruct Hr as [Hs Hr].
  - rewrite (bind_run_err _ _ _ _ _ Hrun). exists [offer]. split; [done |]. split; [simpl; lia |]. split; [by intros o ->%list_elem_of_singleton | done].
  - rewrite (bind_run _ _ _ _ _ Hrun). exists [offer]. split; [done |]. split; [simpl; lia |]. split; [by intros o ->%list_elem_of_singleton |].
    intros result' [= <-] Hacc. exists offer. split; [by left | by apply Hr].
  - rewrite (bind_run _ _ _ _ _ Hrun). pose proof (IH (round + 1) offer' (Some response) w1 Hr Hb ltac:(lia)) as Hi. destruct (rounds _ _ _ _ _ _ w1) as [r w2].
    destruct Hi as (offers & Ho & Hl & Hin & Hacc). exists (offer :: offers). rewrite Ho, Hs, <- app_assoc. split; [done |]. split; [simpl; lia |].
    split; [intros o [-> | Ho']%elem_of_cons; [done | by apply Hin] |]. intros result Hres Hst. destruct (Hacc result Hres Hst) as (o & Hoin & Hf). exists o. split; [by right | done].
Qed.

(** Whatever the merchant answers, a negotiation whose first offer is within the budget
    sends at most the configured number of offers, every one of them for the same order
    and within the budget; a price it reports as accepted is one that was offered. *)
Theorem offers_within_budget initial endpoint b p w :
  BigInt (no_buyerMaxBudgetStroops initial) = Some b → BigInt (no_offeredPriceStroops initial) = Some p → p ≤ b →
  let '(r, w') := negotiate initial endpoint w in
  ∃ offers, nw_sent w' = nw_sent w ++ offers ∧ Z.of_nat (length offers) ≤ Z.max 0 maxRounds ∧ (∀ o, o ∈ offers → within initial b o) ∧
  ∀ result, r = inr result → nz_status result = ng_accepted →
    ∃ o, o ∈ offers ∧ within initial b o ∧ nz_finalPriceStroops result = Some (no_offeredPriceStroops o).
Proof.
  intros Hb Hp Hle. unfold negotiate. pose (w1 := (createSession (no_sessionId initial) endpoint w).2). rewrite (bind_run (createSession _ _) _ w () w1 eq_refl).
  assert (within initial b initial) as Hi by (do 4 (split; [done |]); by exists p).
  pose proof (rounds_ok initial b (Z.to_nat maxRounds) (no_sessionId initial) endpoint 0 initial None w1 Hi Hb ltac:(lia)) as Hr.
  destruct (rounds _ _ _ _ _ _ w1) as [r w2]. destruct Hr as (offers & Ho & Hl & Hin & Hacc). exists offers. split; [exact Ho |]. split; [lia |]. split; [done |].
  intros result Hres Hst. destruct (Hacc result Hres Hst) as (o & Hoin & Hf). exists o. split; [done |]. split; [by apply Hin | done].
Qed.

(** The signature of an offer does not cover what is ordered: the digests of two offers
    with as many items are the same. *)
Lemma items_not_signed offer items timestamp :
  length items = length (no_orderItems offer) →
  computeOfferDigest offer timestamp =
  computeOfferDigest {| no_sessionId := no_sessionId offer; no_orderItems := items; no_offeredPriceStroops := no_offeredPriceStroops offer;
                        no_targetCurrency := no_targetCurrency offer; no_buyerMaxBudgetStroops := no_buyerMaxBudgetStroops offer |} timestamp.
Proof.
  intros Hlen. unfold computeOfferDigest, canonicalizeObject. do 2 f_equal. pose (keys := ["buyerMaxBudgetStroops"; "offeredPriceStroops"; "orderItems"; "sessionId"; "targetCurrency"; "timestamp"]).
  match goal with |- allow ?k ?a = allow ?k' ?b => change (allow keys a = allow keys b) end.
  assert (∀ l, map (allow keys) (map (λ i, JObject [("productId", JText (oi_productId i)); ("quantity", JNumber (oi_quantity i))]) l) = replicate (length l) (JObject [])) as Hitems.
  { induction l as [| i l IH]; [done |]. simpl. f_equal. exact IH. }
  cbn [allow no_orderItems]. by rewrite !Hitems, Hlen.
Qed.
End bounds.

(** A merchant that asks for 900 twice and then accepts. *)
Definition asking_merchant : NegotiationEnv := {|
  JSON_text _ := ""; sha256Hex s := s; sign_digest d := d; verify_digest _ _ _ := inr true; merchantPublicKeyPem := None; maxRounds := 3; baseUrl := "";
  merchant_fetch n _ _ _ := inr (200, "", {| nr_accepted := bool_decide (n = 2%nat); nr_counterOfferStroops := Some "900"; nr_discountPercentage := None;
                                             nr_validForSeconds := 300; nr_merchantSignature := "" |}) |}.

Lemma offers_within_budget_witness :
  let NE := asking_merchant in
  let offer := {| no_sessionId := "s"; no_orderItems := [{| oi_productId := "p"; oi_quantity := 1 |}]; no_offeredPriceStroops := "500"; no_targetCurrency := "XLM";
                  no_buyerMaxBudgetStroops := "1000" |} in
  let '(r, w') := negotiate offer "/negotiate" (NWorld [] [] 0) in
  no_offeredPriceStroops <$> nw_sent w' = ["500"; "700"; "800"] ∧ ∃ offers, nw_sent w' = [] ++ offers ∧ ∀ o, o ∈ offers → within offer 1000 o.
Proof.
  intros NE offer. pose proof (offers_within_budget (NE := asking_merchant) offer "/negotiate" 1000 500 (NWorld [] [] 0) eq_refl eq_refl ltac:(lia)) as H.
  destruct (negotiate offer "/negotiate" (NWorld [] [] 0)) as [r w'] eqn:Hn. split.
  - change w' with (snd (r, w')). rewrite <- Hn. by vm_compute.
  - destruct H as (offers & Ho & _ & Hin & _). exists offers. split; [exact Ho | exact Hin].
Defined.
