(* ===== verification/Sequences.v ===== *)
(** * Sequence numbers of the transaction queue (apps/backend/wallet/src/queue/)

    - txQueue.ts: blocks of sequence numbers reserved for an account under a lock in
      Redis, their consumption through a cursor, and the cached number used without them;
    - sequenceMonitoring.ts: the audit trail, gaps, leaked and forced releases,
      pre-warming, lock monitoring.

    Every Redis command is a call that may fail before or after it took effect
    (Services.v), and takes time.  The entries of the lists are the objects the code wrote,
    not their JSON text; Horizon and the random part of lease identifiers are parameters.
    Times are milliseconds, sequence numbers the [bigint]s of the code. *)
From S2P Require Import Prelude JsLib JsCollections Services.
Local Open Scope Z_scope.

(** ** Redis keys with an expiry *)

Section redis.
Context {A : Type}.
Implicit Types m : jsmap (A * option Z).

Definition unexpired (now : Z) (e : option Z) : bool := match e with Some t => now <? t | None => true end.

Definition rget (now : Z) (k : string) m : option A :=
  match jget k m with Some (v, e) => if unexpired now e then Some v else None | None => None end.

Definition rexpiry (now : Z) (k : string) m : option Z :=
  match jget k m with Some (v, e) => if unexpired now e then e else None | None => None end.

(** EXPIRE does nothing on a missing key. *)
Definition rexpire (now : Z) (k : string) (ms : Z) m : jsmap (A * option Z) :=
  match rget now k m with Some v => jset k (v, Some (now + ms)) m | None => m end.
End redis.

Section redis_lists.
Context {A : Type}.
Implicit Types m : jsmap (list A * option Z).

Definition rlist (now : Z) (k : string) m : list A := default [] (rget now k m).

(** RPUSH keeps the expiry of the key. *)
Definition rpush (now : Z) (k : string) (x : A) m : jsmap (list A * option Z) := jset k (rlist now k m ++ [x], rexpiry now k m) m.

(** LREM and LTRIM: a list that becomes empty is deleted. *)
Definition rshrink (now : Z) (k : string) (f : list A → list A) m : jsmap (list A * option Z) :=
  match f (rlist now k m) with [] => jdel k m | l => jset k (l, rexpiry now k m) m end.
End redis_lists.

(** LREM key 0 x; LTRIM key -n -1. *)
Definition without {A} `{EqDecision A} (x : A) (l : list A) : list A := List.filter (λ y, negb (bool_decide (y = x))) l.
Definition last_entries {A} (n : nat) (l : list A) : list A := drop (length l - n) l.

(** ** Types *)

Record SequenceReservation := Reservation {
  sr_account : string; sr_firstSequence : Z; sr_lastSequence : Z; sr_size : Z; sr_leaseId : string; sr_expiresAt : Z
}.
#[export] Instance reservation_eq_dec : EqDecision SequenceReservation.
Proof. solve_decision. Defined.

Record SequenceGap := Gap {
  ga_account : string; ga_expectedSequence : Z; ga_actualSequence : Z; ga_gapSize : Z; ga_detectedAt : Z; ga_resolved : bool
}.
#[export] Instance gap_eq_dec : EqDecision SequenceGap.
Proof. solve_decision. Defined.

Inductive trail_action := tr_reserve | tr_consume | tr_release | tr_expire | tr_force_release | tr_pre_warm | tr_gap_detected.

Record AuditTrailEntry := TrailEntry {
  at_timestamp : Z; at_account : string; at_action : trail_action; at_leaseId : option string; at_sequence : option Z; at_details : string
}.

Record LockMonitoringInfo := LockInfo { lm_account : string; lm_acquiredAt : Z; lm_durationMs : Z; lm_holder : string }.

Record seqworld := SeqWorld {
  (** seq:reservations:ACCOUNT, seq:res:LEASE:cursor, seq:ACCOUNT, seq:lock:ACCOUNT *)
  sq_reservations : jsmap (list SequenceReservation * option Z); sq_cursors : jsmap (Z * option Z); sq_cache : jsmap (Z * option Z);
  sq_locks : jsmap (string * option Z);
  (** seq:lock_monitor:ACCOUNT, seq:contention:ACCOUNT, seq:gaps:ACCOUNT, seq:audit:ACCOUNT,
      seq:high_throughput_accounts *)
  sq_monitor : jsmap (LockMonitoringInfo * option Z); sq_contention : jsmap (Z * option Z);
  sq_gaps : jsmap (list SequenceGap * option Z); sq_trail : jsmap (list AuditTrailEntry * option Z); sq_busy : list string;
  (** lease identifiers drawn, calls made, the clock *)
  sq_leases : nat; sq_calls : nat; sq_now : Z
}.

Class SequenceEnv := {
  se_fate : nat → call_fate;
  (** how long the n-th call takes *)
  se_latency : nat → N;
  (** [horizonServer.loadAccount(address).sequenceNumber()], at the n-th call *)
  loadAccount : nat → string → exn + Z;
  lease_id : nat → string
}.

(** ** Constants *)

Definition lockTimeout : Z := 5000.
Definition maxRetries : nat := 20.
Definition retryDelay : Z := 50.
Definition lease_ttl : Z := 60 * 60 * 1000.
Definition MAX_AUDIT_ENTRIES : nat := 1000.
Definition RETENTION_MS : Z := 30 * 86400 * 1000.

Section sequences.
Context `{SE : SequenceEnv}.
Implicit Types w : seqworld.

(** ** The state *)

Definition set_reservations (f : jsmap (list SequenceReservation * option Z) → jsmap (list SequenceReservation * option Z)) w : seqworld :=
  SeqWorld (f (sq_reservations w)) (sq_cursors w) (sq_cache w) (sq_locks w) (sq_monitor w) (sq_contention w) (sq_gaps w) (sq_trail w) (sq_busy w) (sq_leases w) (sq_calls w) (sq_now w).
Definition set_cursors (f : jsmap (Z * option Z) → jsmap (Z * option Z)) w : seqworld :=
  SeqWorld (sq_reservations w) (f (sq_cursors w)) (sq_cache w) (sq_locks w) (sq_monitor w) (sq_contention w) (sq_gaps w) (sq_trail w) (sq_busy w) (sq_leases w) (sq_calls w) (sq_now w).
Definition set_seq_cache (f : jsmap (Z * option Z) → jsmap (Z * option Z)) w : seqworld :=
  SeqWorld (sq_reservations w) (sq_cursors w) (f (sq_cache w)) (sq_locks w) (sq_monitor w) (sq_contention w) (sq_gaps w) (sq_trail w) (sq_busy w) (sq_leases w) (sq_calls w) (sq_now w).
Definition set_locks (f : jsmap (string * option Z) → jsmap (string * option Z)) w : seqworld :=
  SeqWorld (sq_reservations w) (sq_cursors w) (sq_cache w) (f (sq_locks w)) (sq_monitor w) (sq_contention w) (sq_gaps w) (sq_trail w) (sq_busy w) (sq_leases w) (sq_calls w) (sq_now w).
Definition set_monitor (f : jsmap (LockMonitoringInfo * option Z) → jsmap (LockMonitoringInfo * option Z)) w : seqworld :=
  SeqWorld (sq_reservations w) (sq_cursors w) (sq_cache w) (sq_locks w) (f (sq_monitor w)) (sq_contention w) (sq_gaps w) (sq_trail w) (sq_busy w) (sq_leases w) (sq_calls w) (sq_now w).
Definition set_contention (f : jsmap (Z * option Z) → jsmap (Z * option Z)) w : seqworld :=
  SeqWorld (sq_reservations w) (sq_cursors w) (sq_cache w) (sq_locks w) (sq_monitor w) (f (sq_contention w)) (sq_gaps w) (sq_trail w) (sq_busy w) (sq_leases w) (sq_calls w) (sq_now w).
Definition set_gaps (f : jsmap (list SequenceGap * option Z) → jsmap (list SequenceGap * option Z)) w : seqworld :=
  SeqWorld (sq_reservations w) (sq_cursors w) (sq_cache w) (sq_locks w) (sq_monitor w) (sq_contention w) (f (sq_gaps w)) (sq_trail w) (sq_busy w) (sq_leases w) (sq_calls w) (sq_now w).
Definition set_trail (f : jsmap (list AuditTrailEntry * option Z) → jsmap (list AuditTrailEntry * option Z)) w : seqworld :=
  SeqWorld (sq_reservations w) (sq_cursors w) (sq_cache w) (sq_locks w) (sq_monitor w) (sq_contention w) (sq_gaps w) (f (sq_trail w)) (sq_busy w) (sq_leases w) (sq_calls w) (sq_now w).
Definition set_busy (f : list string → list string) w : seqworld :=
  SeqWorld (sq_reservations w) (sq_cursors w) (sq_cache w) (sq_locks w) (sq_monitor w) (sq_contention w) (sq_gaps w) (sq_trail w) (f (sq_busy w)) (sq_leases w) (sq_calls w) (sq_now w).
Definition count_lease w : seqworld :=
  SeqWorld (sq_reservations w) (sq_cursors w) (sq_cache w) (sq_locks w) (sq_monitor w) (sq_contention w) (sq_gaps w) (sq_trail w) (sq_busy w) (S (sq_leases w)) (sq_calls w) (sq_now w).
Definition pass (ms : Z) w : seqworld :=
  SeqWorld (sq_reservations w) (sq_cursors w) (sq_cache w) (sq_locks w) (sq_monitor w) (sq_contention w) (sq_gaps w) (sq_trail w) (sq_busy w) (sq_leases w) (sq_calls w) (sq_now w + ms).
Definition count_sequence_call w : seqworld :=
  SeqWorld (sq_reservations w) (sq_cursors w) (sq_cache w) (sq_locks w) (sq_monitor w) (sq_contention w) (sq_gaps w) (sq_trail w) (sq_busy w) (sq_leases w) (S (sq_calls w))
    (sq_now w + Z.of_N (se_latency (sq_calls w))).

#[export] Instance sequence_services : Services seqworld := {| next_fate := λ w, se_fate (sq_calls w); tick := count_sequence_call |}.

Definition generateLeaseId : M seqworld string := n ← gets sq_leases; modify count_lease;; mret (lease_id n).

(** A call of Horizon. *)
Definition load_sequence (address : string) : M seqworld Z :=
  n ← gets sq_calls;
  modify tick;;
  answer (loadAccount n address).

Definition reservations_of (account : string) w : list SequenceReservation := rlist (sq_now w) account (sq_reservations w).
Definition lrem_reservation (account : string) (r : SequenceReservation) w : seqworld :=
  set_reservations (rshrink (sq_now w) account (without r)) w.

(** ** Monitoring (sequenceMonitoring.ts) *)

Definition recordAuditEntry (account : string) (action : trail_action) (leaseId : option string) (sequence : option Z) (details : string) : M seqworld () :=
  now ← gets sq_now;
  write (λ w, set_trail (rpush (sq_now w) account (TrailEntry now account action leaseId sequence details)) w);;
  write (λ w, set_trail (rshrink (sq_now w) account (last_entries MAX_AUDIT_ENTRIES)) w);;
  write (λ w, set_trail (rexpire (sq_now w) account RETENTION_MS) w).

Definition recordContentionEvent (account : string) : M seqworld () :=
  write (λ w, set_contention (jset account (default 0 (rget (sq_now w) account (sq_contention w)) + 1, rexpiry (sq_now w) account (sq_contention w))) w);;
  write (λ w, set_contention (rexpire (sq_now w) account 3600000) w).

Definition recordLockAcquisition (account holder : string) : M seqworld () :=
  now ← gets sq_now;
  write (λ w, set_monitor (jset account (LockInfo account now 0 holder, Some (sq_now w + 10000))) w).

Definition recordLockRelease (account : string) : M seqworld () := write (set_monitor (jdel account)).

Definition detectSequenceGap (account : string) (expected actual : Z) : M seqworld (option SequenceGap) :=
  if expected + 1 <? actual then
    now ← gets sq_now;
    let gap := Gap account expected actual (actual - expected - 1) now false in
    write (λ w, set_gaps (rpush (sq_now w) account gap) w);;
    write (λ w, set_gaps (rshrink (sq_now w) account (last_entries 100)) w);;
    recordAuditEntry account tr_gap_detected None None
      ("Gap detected: expected " +:+ dec expected +:+ ", got " +:+ dec actual +:+ ", gap size " +:+ dec (ga_gapSize gap));;
    mret (Some gap)
  else mret None.

Definition getSequenceGaps (account : string) : M seqworld (list SequenceGap) := ask (λ w, rlist (sq_now w) account (sq_gaps w)).

(** A loop body in [try { ... } catch { continue }]: the first result ends the loop. *)
Fixpoint first_found {A B} (l : list A) (body : A → M seqworld (option B)) : M seqworld (option B) :=
  match l with
  | [] => mret None
  | x :: l' =>
      r ← try_catch (body x) (λ _, mret None);
      match r with Some b => mret (Some b) | None => first_found l' body end
  end.

Definition resolveSequenceGap (account : string) (expectedSequence : Z) : M seqworld bool :=
  gaps ← ask (λ w, rlist (sq_now w) account (sq_gaps w));
  r ← first_found gaps (λ gap,
    if (ga_expectedSequence gap =? expectedSequence) && negb (ga_resolved gap) then
      write (λ w, set_gaps (rshrink (sq_now w) account (without gap)) w);;
      write (λ w, set_gaps (rpush (sq_now w) account
        (Gap (ga_account gap) (ga_expectedSequence gap) (ga_actualSequence gap) (ga_gapSize gap) (ga_detectedAt gap) true)) w);;
      recordAuditEntry account tr_gap_detected None None ("Gap resolved for sequence " +:+ dec expectedSequence);;
      mret (Some ())
    else mret None);
  mret (match r with Some _ => true | None => false end).

Fixpoint cleanup_from (account : string) (now : Z) (l leaked : list SequenceReservation) (cleaned : Z) : M seqworld (Z * list SequenceReservation) :=
  match l with
  | [] => mret (cleaned, leaked)
  | r :: l' =>
      if sr_expiresAt r <=? now then
        try_catch
          (write (lrem_reservation account r);;
           write (set_cursors (jdel (sr_leaseId r)));;
           recordAuditEntry account tr_expire (Some (sr_leaseId r)) None
             ("Leaked reservation cleaned: " +:+ dec (sr_firstSequence r) +:+ "-" +:+ dec (sr_lastSequence r)))
          (λ _, write (lrem_reservation account r));;
        cleanup_from account now l' (leaked ++ [r]) (cleaned + 1)
      else cleanup_from account now l' leaked cleaned
  end.

Definition detectAndCleanupLeakedReservations (account : string) : M seqworld (Z * list SequenceReservation) :=
  l ← ask (reservations_of account);
  now ← gets sq_now;
  cleanup_from account now l [] 0.

Definition getAuditTrail (account : string) (limit : nat) : M seqworld (list AuditTrailEntry) :=
  ask (λ w, rev (last_entries limit (rlist (sq_now w) account (sq_trail w)))).

Definition monitorLockAcquisition (account : string) : M seqworld (option LockMonitoringInfo) :=
  lockValue ← ask (λ w, rget (sq_now w) account (sq_locks w));
  match lockValue with
  | None => mret None
  | Some holder =>
      info ← ask (λ w, rget (sq_now w) account (sq_monitor w));
      now ← gets sq_now;
      mret (Some (default (LockInfo account now 0 holder) info))
  end.

Definition forceReleaseReservation (account leaseId reason : string) : M seqworld bool :=
  l ← ask (reservations_of account);
  r ← first_found l (λ r,
    if String.eqb (sr_leaseId r) leaseId then
      write (lrem_reservation account r);;
      write (set_cursors (jdel leaseId));;
      recordAuditEntry account tr_force_release (Some leaseId) None
        ("Force released reservation: " +:+ dec (sr_firstSequence r) +:+ "-" +:+ dec (sr_lastSequence r) +:+ ". Reason: " +:+ reason);;
      mret (Some ())
    else mret None);
  mret (match r with Some _ => true | None => false end).

Definition markHighThroughputAccount (account : string) : M seqworld () :=
  write (set_busy (λ l, if bool_decide (account ∈ l) then l else l ++ [account])).
Definition unmarkHighThroughputAccount (account : string) : M seqworld () := write (set_busy (List.filter (λ x, negb (String.eqb x account)))).

(** ** Reservations (txQueue.ts) *)

Definition getActiveReservations (account : string) : M seqworld (list SequenceReservation) :=
  l ← ask (reservations_of account);
  now ← gets sq_now;
  for_each (List.filter (λ r, negb (now <? sr_expiresAt r)) l) (λ r, write (lrem_reservation account r));;
  mret (List.filter (λ r, now <? sr_expiresAt r) l).

(** SET seq:lock:ADDRESS locked PX 5000 NX *)
Definition set_lock (address : string) w : bool * seqworld :=
  match rget (sq_now w) address (sq_locks w) with
  | Some _ => (false, w)
  | None => (true, set_locks (jset address ("locked", Some (sq_now w + lockTimeout))) w)
  end.

Fixpoint acquire_lock (attempts : nat) (address : string) : M seqworld bool :=
  match attempts with
  | O => mret false
  | S attempts' =>
      res ← call (set_lock address);
      if res : bool then mret true else modify (pass retryDelay);; acquire_lock attempts' address
  end.

(** The highest number in use: of the ledger, or of an active reservation. *)
Definition reserve_read (address : string) : M seqworld Z :=
  recordLockAcquisition address "txQueue";;
  ledgerSequence ← load_sequence address;
  active ← getActiveReservations address;
  mret (foldl (λ h r, if h <? sr_lastSequence r then sr_lastSequence r else h) ledgerSequence active).

Definition reserve_push (address : string) (size highest : Z) : M seqworld SequenceReservation :=
  let firstSequence := highest + 1 in
  let lastSequence := firstSequence + size - 1 in
  leaseId ← generateLeaseId;
  now ← gets sq_now;
  let reservation := Reservation address firstSequence lastSequence size leaseId (now + lease_ttl) in
  write (λ w, set_reservations (rpush (sq_now w) address reservation) w);;
  write (λ w, set_reservations (rexpire (sq_now w) address lease_ttl) w);;
  recordAuditEntry address tr_reserve (Some leaseId) (Some firstSequence)
    ("Reserved " +:+ dec size +:+ " sequences: " +:+ dec firstSequence +:+ "-" +:+ dec lastSequence);;
  mret reservation.

Definition reserve_release (address : string) : M seqworld () :=
  write (set_locks (jdel address));;
  recordLockRelease address.

Definition reserveSequenceBlock (address : string) (size : Z) : M seqworld SequenceReservation :=
  lockAcquired ← acquire_lock maxRetries address;
  if negb lockAcquired then
    recordContentionEvent address;;
    throw (Error "Failed to acquire sequence reservation lock")
  else
    try_finally
      (highest ← reserve_read address;
       reserve_push address size highest)
      (reserve_release address).

(** The errors of [reserveFn] and of the audit trail end the loop; a block that was
    reserved is in the result. *)
Fixpoint pre_warm (n : nat) (account : string) (size : Z) (acc : list SequenceReservation) : M seqworld (list SequenceReservation) :=
  match n with
  | O => mret acc
  | S n' =>
      r ← try_catch (reservation ← reserveSequenceBlock account size; mret (Some reservation)) (λ _, mret None);
      match r with
      | None => mret acc
      | Some reservation =>
          logged ← try_catch
            (recordAuditEntry account tr_pre_warm (Some (sr_leaseId reservation)) None
               ("Pre-warmed reservation: " +:+ dec (sr_firstSequence reservation) +:+ "-" +:+ dec (sr_lastSequence reservation) +:+
                " (size: " +:+ dec size +:+ ")");;
             mret true)
            (λ _, mret false);
          if logged : bool then pre_warm n' account size (acc ++ [reservation]) else mret (acc ++ [reservation])
      end
  end.

Definition preWarmReservations (account : string) (size : Z) : M seqworld (list SequenceReservation) :=
  existing ← ask (reservations_of account);
  pre_warm (3 - length existing) account size [].

Definition autoPreWarmHighThroughputAccounts : M seqworld () :=
  accounts ← ask sq_busy;
  for_each accounts (λ account, try_catch (preWarmReservations account 50;; mret ()) (λ _, mret ())).

(** ** The next sequence number *)

(** A number taken from a reservation, with the cursor after it. *)
Record taken := Taken { tk_sequence : Z; tk_reservation : SequenceReservation; tk_cursor : Z }.

(** SET cursor PX ms; Redis refuses an expiry that is not positive. *)
Definition set_cursor (leaseId : string) (cursor ms : Z) : M seqworld () :=
  if ms <=? 0 then ask (λ _, ());; throw (Exn "ReplyError" "ERR invalid expire time in 'set' command")
  else write (λ w, set_cursors (jset leaseId (cursor, Some (sq_now w + ms))) w).

Definition take_from (address : string) (now : Z) (r : SequenceReservation) : M seqworld (option taken) :=
  if sr_expiresAt r <=? now then mret None
  else
    stored ← ask (λ w, rget (sq_now w) (sr_leaseId r) (sq_cursors w));
    let cursor := default (sr_firstSequence r) stored in
    if cursor <=? sr_lastSequence r then
      at_ ← gets sq_now;
      set_cursor (sr_leaseId r) (cursor + 1) (sr_expiresAt r - at_);;
      recordAuditEntry address tr_consume (Some (sr_leaseId r)) (Some cursor)
        ("Consumed sequence " +:+ dec cursor +:+ " from reservation " +:+ sr_leaseId r);;
      mret (Some (Taken cursor r (cursor + 1)))
    else mret None.

Definition getNextSequenceFromReservation (address : string) : M seqworld (option taken) :=
  now ← gets sq_now;
  l ← ask (reservations_of address);
  first_found l (take_from address now).

Definition releaseReservation (address : string) (t : taken) : M seqworld () :=
  if sr_lastSequence (tk_reservation t) <? tk_cursor t then
    write (lrem_reservation address (tk_reservation t));;
    write (set_cursors (jdel (sr_leaseId (tk_reservation t))));;
    recordAuditEntry address tr_expire (Some (sr_leaseId (tk_reservation t))) None
      ("Reservation " +:+ sr_leaseId (tk_reservation t) +:+ " exhausted")
  else mret ().

(** [resetCache]: the cursors of every account go. *)
Definition resetCache (address : string) : M seqworld () :=
  write (set_seq_cache (jdel address));;
  write (set_reservations (jdel address));;
  cursorKeys ← ask (λ w, List.filter (λ k, match rget (sq_now w) k (sq_cursors w) with Some _ => true | None => false end) (jkeys (sq_cursors w)));
  (if bool_decide (cursorKeys = []) then mret () else write (set_cursors (λ m, foldr jdel m cursorKeys)));;
  recordAuditEntry address tr_expire None None "Cache and reservations reset".

(** The number [Account] is built with, and what [resetCache] of the result releases. *)
Record allocation := Allocation { al_sequence : Z; al_taken : option taken }.

Definition reset_allocation (address : string) (a : allocation) : M seqworld () :=
  match al_taken a with Some t => releaseReservation address t | None => mret () end;;
  resetCache address.

(** Without a reservation: above the ledger and the number cached for a minute. *)
Definition cached_sequence (address : string) : M seqworld allocation :=
  ledgerSequence ← load_sequence address;
  cached ← ask (λ w, rget (sq_now w) address (sq_cache w));
  let nextSequence := match cached with
                      | Some c => if ledgerSequence <=? c then c + 1 else ledgerSequence + 1
                      | None => ledgerSequence + 1
                      end in
  write (λ w, set_seq_cache (jset address (nextSequence, Some (sq_now w + 60000))) w);;
  mret (Allocation (nextSequence - 1) None).

Definition getNextSequenceNumber (address : string) (attempt : Z) : M seqworld allocation :=
  (if 1 <? attempt then resetCache address else mret ());;
  r ← getNextSequenceFromReservation address;
  match r with
  | Some t =>
      let expectedSeq := sr_firstSequence (tk_reservation t) in
      (if expectedSeq + 1 <? tk_sequence t then detectSequenceGap address expectedSeq (tk_sequence t);; mret () else mret ());;
      mret (Allocation (tk_sequence t) (Some t))
  | None => cached_sequence address
  end.
End sequences.
