(* ===== verification/SequencesCorrect.v ===== *)
(** * Sequence numbers: theorems

    Reservations of several processes interleave between the commands on the lock, the
    reading of the list and the writing of the new block, and with the consumption, the
    resets and the administration of other requests; Redis and Horizon may fail at every
    call and processes may crash. *)
From Stdlib Require Import Sorting.Sorted.
From S2P Require Import Prelude JsLib JsCollections Services Sequences.
Local Open Scope Z_scope.

(** ** Interleaved reservations *)

(** Between the statements of [reserveSequenceBlock]; [ph_gone] has returned or crashed. *)
Inductive phase := ph_locked | ph_read (highest : Z) | ph_done | ph_gone.
#[export] Instance phase_eq_dec : EqDecision phase.
Proof. solve_decision. Defined.

(** A call of [reserveSequenceBlock] that holds, or held, the lock until a time. *)
Record reserving := Reserving { rv_account : string; rv_size : Z; rv_until : Z; rv_phase : phase }.

Record seqfleet := SeqFleet { sf_world : seqworld; sf_flights : list reserving }.

Inductive seq_op :=
  (** one attempt to set the lock; the next statements of the i-th reservation; its crash *)
  | s_lock (address : string) (size : Z)
  | s_step (i : nat)
  | s_crash (i : nat)
  | s_contention (address : string)
  | s_next (address : string) (attempt : Z)
  | s_reset (address : string) (a : allocation)
  | s_gap (address : string) (expected actual : Z)
  | s_resolve (address : string) (expected : Z)
  | s_cleanup (address : string)
  | s_force (address leaseId reason : string)
  | s_monitor (address : string)
  | s_trail (address : string) (action : trail_action) (leaseId : option string) (details : string)
  | s_wait (ms : N).

Section history.
Context `{SE : SequenceEnv}.
Implicit Types (w : seqworld) (x : seqfleet) (f : reserving).

Definition with_phase (p : phase) f : reserving := Reserving (rv_account f) (rv_size f) (rv_until f) p.

Definition step_flight (i : nat) f x : seqfleet :=
  match rv_phase f with
  | ph_locked =>
      let '(r, w) := reserve_read (rv_account f) (sf_world x) in
      SeqFleet w (<[i := with_phase (match r with inr h => ph_read h | inl _ => ph_done end) f]> (sf_flights x))
  | ph_read h => SeqFleet (reserve_push (rv_account f) (rv_size f) h (sf_world x)).2 (<[i := with_phase ph_done f]> (sf_flights x))
  | ph_done => SeqFleet (reserve_release (rv_account f) (sf_world x)).2 (<[i := with_phase ph_gone f]> (sf_flights x))
  | ph_gone => x
  end.

Definition on_world (c : M seqworld ()) x : seqfleet := SeqFleet (c (sf_world x)).2 (sf_flights x).

Definition seq_step (op : seq_op) x : seqfleet :=
  match op with
  | s_lock address size =>
      let '(r, w) := call (set_lock address) (sf_world x) in
      SeqFleet w (match r with inr true => sf_flights x ++ [Reserving address size (sq_now w + lockTimeout) ph_locked] | _ => sf_flights x end)
  | s_step i => match sf_flights x !! i with Some f => step_flight i f x | None => x end
  | s_crash i => match sf_flights x !! i with Some f => SeqFleet (sf_world x) (<[i := with_phase ph_gone f]> (sf_flights x)) | None => x end
  | s_contention address => on_world (recordContentionEvent address) x
  | s_next address attempt => on_world (getNextSequenceNumber address attempt;; mret ()) x
  | s_reset address a => on_world (reset_allocation address a) x
  | s_gap address expected actual => on_world (detectSequenceGap address expected actual;; mret ()) x
  | s_resolve address expected => on_world (resolveSequenceGap address expected;; mret ()) x
  | s_cleanup address => on_world (detectAndCleanupLeakedReservations address;; mret ()) x
  | s_force address leaseId reason => on_world (forceReleaseReservation address leaseId reason;; mret ()) x
  | s_monitor address => on_world (monitorLockAcquisition address;; mret ()) x
  | s_trail address action leaseId details => on_world (recordAuditEntry address action leaseId None details) x
  | s_wait ms => SeqFleet (pass (Z.of_N ms) (sf_world x)) (sf_flights x)
  end.

Definition seq_run (ops : list seq_op) x : seqfleet := foldl (λ x op, seq_step op x) x ops.

(** No reservation outlives its lock: whatever it does is over before the lock expires. *)
Definition in_time (op : seq_op) x : Prop :=
  match op with
  | s_step i => ∀ f, sf_flights x !! i = Some f → sq_now (sf_world (seq_step op x)) < rv_until f
  | _ => True
  end.
Fixpoint punctual (ops : list seq_op) x : Prop :=
  match ops with [] => True | op :: ops' => in_time op x ∧ punctual ops' (seq_step op x) end.

Definition empty_seqworld (now : Z) : seqworld := SeqWorld [] [] [] [] [] [] [] [] [] 0 0 now.

(** ** What only takes reservations away *)

Definition recedes w w' : Prop :=
  sq_now w ≤ sq_now w' ∧ sq_locks w' = sq_locks w ∧ ∀ a, sublist (reservations_of a w') (reservations_of a w).

#[export] Instance recedes_preorder : PreOrder recedes.
Proof.
  split; [by intros w | intros w1 w2 w3 (A1 & A2 & A3) (B1 & B2 & B3)].
  split; [lia |]. split; [congruence |]. intros a. etrans; [apply B3 | apply A3].
Qed.

(** A list read later is shorter or gone. *)
Lemma rlist_later {A} now now' k (m : jsmap (list A * option Z)) : now ≤ now' → sublist (rlist now' k m) (rlist now k m).
Proof.
  intros Hn. unfold rlist, rget, unexpired. destruct (jget k m) as [[l [e |]] |]; simpl; [| done ..].
  destruct (Z.ltb_spec now' e), (Z.ltb_spec now e); simpl; [done | lia | apply sublist_nil_l | done].
Qed.

Lemma recedes_quiet w w' : sq_now w ≤ sq_now w' → sq_locks w' = sq_locks w → sq_reservations w' = sq_reservations w → recedes w w'.
Proof. intros Hn Hl Hr. split; [done |]. split; [done |]. intros a. unfold reservations_of. rewrite Hr. by apply rlist_later. Qed.

Lemma recedes_tick w : recedes w (tick w).
Proof. apply recedes_quiet; simpl; [lia | done | done]. Qed.

Lemma rlist_rshrink {A} now a k (f : list A → list A) m :
  rlist now a (rshrink now k f m) = if decide (k = a) then f (rlist now k m) else rlist now a m.
Proof.
  unfold rshrink. destruct (f (rlist now k m)) as [| y l] eqn:Hf; unfold rlist at 1, rget; rewrite ?jget_jdel, ?jget_jset; case_decide; simpl; try done.
  unfold rexpiry. destruct (jget k m) as [[l' e] |]; [| done]. destruct (unexpired now e) eqn:He; simpl; [by rewrite He | done].
Qed.

Lemma recedes_lrem a r w : recedes w (lrem_reservation a r w).
Proof.
  split; [done |]. split; [done |]. intros b. unfold reservations_of. simpl. rewrite rlist_rshrink. case_decide; [| done]. subst.
  unfold without. induction (rlist (sq_now w) b (sq_reservations w)) as [| y l IH]; simpl; [done |].
  destruct (negb _); [by apply sublist_skip | by apply sublist_cons].
Qed.

Lemma recedes_del a w : recedes w (set_reservations (jdel a) w).
Proof.
  split; [done |]. split; [done |]. intros b. unfold reservations_of, rlist, rget. simpl. rewrite jget_jdel. case_decide; [apply sublist_nil_l | done].
Qed.

Lemma recedes_write g : (∀ w, recedes w (g w)) → evolves recedes (write g).
Proof. apply write_evolves; [apply _ | apply recedes_tick]. Qed.

Lemma recedes_ask {A} (g : seqworld → A) : evolves recedes (ask g).
Proof. apply ask_evolves; [apply _ | apply recedes_tick]. Qed.

Lemma recedes_modify g : (∀ w, recedes w (g w)) → evolves recedes (modify g).
Proof. intros Hg w. apply Hg. Qed.
End history.

#[export] Hint Resolve recedes_ask : evolve.
#[export] Hint Extern 1 (evolves recedes (write _)) =>
  apply recedes_write; intros ?; first [apply recedes_lrem | apply recedes_del | by apply recedes_quiet] : evolve.

Section receding.
Context `{SE : SequenceEnv}.
Implicit Types (w : seqworld) (x : seqfleet) (f : reserving).

Lemma recedes_first_found {A B} (l : list A) (body : A → M seqworld (option B)) :
  (∀ a, evolves recedes (body a)) → evolves recedes (first_found l body).
Proof. intros Hb. induction l as [| a l IH]; simpl; evolve; auto. Qed.

Lemma recedes_trail a t l s d : evolves recedes (recordAuditEntry a t l s d).
Proof. unfold recordAuditEntry. evolve; auto with evolve. Qed.
#[local] Hint Resolve recedes_trail : evolve.

Lemma recedes_contention a : evolves recedes (recordContentionEvent a).
Proof. unfold recordContentionEvent. evolve; auto with evolve. Qed.

Lemma recedes_gap a e s : evolves recedes (detectSequenceGap a e s).
Proof. unfold detectSequenceGap. evolve; auto with evolve. Qed.
#[local] Hint Resolve recedes_gap : evolve.

Lemma recedes_resolve a e : evolves recedes (resolveSequenceGap a e).
Proof. unfold resolveSequenceGap. evolve; auto with evolve. apply recedes_first_found. intros gap. evolve; auto with evolve. Qed.

Lemma recedes_cleanup_from a now l leaked n : evolves recedes (cleanup_from a now l leaked n).
Proof. revert leaked n. induction l as [| r l IH]; intros leaked n; simpl; evolve; auto with evolve. Qed.
#[local] Hint Resolve recedes_cleanup_from : evolve.

Lemma recedes_cleanup a : evolves recedes (detectAndCleanupLeakedReservations a).
Proof. unfold detectAndCleanupLeakedReservations. evolve; auto with evolve. Qed.

Lemma recedes_force a l s : evolves recedes (forceReleaseReservation a l s).
Proof. unfold forceReleaseReservation. evolve; auto with evolve. apply recedes_first_found. intros r. evolve; auto with evolve. Qed.

Lemma recedes_monitor a : evolves recedes (monitorLockAcquisition a).
Proof. unfold monitorLockAcquisition. evolve; auto with evolve. Qed.

Lemma recedes_load a : evolves recedes (load_sequence a).
Proof. unfold load_sequence. evolve; auto with evolve. apply recedes_modify, recedes_tick. Qed.
#[local] Hint Resolve recedes_load : evolve.

Lemma recedes_active a : evolves recedes (getActiveReservations a).
Proof. unfold getActiveReservations. evolve; auto with evolve. Qed.
#[local] Hint Resolve recedes_active : evolve.

Lemma recedes_read a : evolves recedes (reserve_read a).
Proof. unfold reserve_read, recordLockAcquisition. evolve; auto with evolve. Qed.

Lemma recedes_take a now r : evolves recedes (take_from a now r).
Proof. unfold take_from, set_cursor. evolve; auto with evolve. Qed.

Lemma recedes_reset a : evolves recedes (resetCache a).
Proof. unfold resetCache. evolve; auto with evolve. Qed.
#[local] Hint Resolve recedes_reset : evolve.

Lemma recedes_reset_allocation a al : evolves recedes (reset_allocation a al).
Proof. unfold reset_allocation, releaseReservation. evolve; auto with evolve. Qed.

Lemma recedes_next a n : evolves recedes (getNextSequenceNumber a n).
Proof.
  unfold getNextSequenceNumber, getNextSequenceFromReservation, cached_sequence. evolve; auto with evolve.
  apply recedes_first_found, recedes_take.
Qed.
End receding.

#[export] Hint Resolve recedes_trail recedes_contention recedes_gap recedes_resolve recedes_cleanup recedes_force recedes_monitor recedes_read
  recedes_reset_allocation recedes_next : evolve.

(** ** Disjoint blocks *)

Definition block_before (r r' : SequenceReservation) : Prop := sr_lastSequence r < sr_firstSequence r'.
Definition disjoint_blocks (l : list SequenceReservation) : Prop := StronglySorted block_before l.

Lemma disjoint_sublist l l' : sublist l l' → disjoint_blocks l' → disjoint_blocks l.
Proof.
  induction 1 as [| r l l' H IH | r l l' H IH]; intros Hs; [done | |]; inversion_clear Hs as [| ? ? Hl Hf]; [| by apply IH].
  constructor; [by apply IH |]. rewrite Forall_forall in Hf |- *. intros y Hy. apply Hf. eapply elem_of_sublist; eauto.
Qed.

Lemma disjoint_snoc l r : disjoint_blocks l → (∀ y, y ∈ l → block_before y r) → disjoint_blocks (l ++ [r]).
Proof.
  induction 1 as [| y l Hl IH Hf]; intros Hr; simpl; [by repeat constructor |].
  constructor; [apply IH; intros z Hz; apply Hr; by right |].
  rewrite Forall_app. split; [done |]. constructor; [apply Hr; by left | done].
Qed.

Lemma disjoint_lookup l i j r r' : disjoint_blocks l → l !! i = Some r → l !! j = Some r' → (i < j)%nat → block_before r r'.
Proof.
  intros Hs. revert i j. induction Hs as [| y l Hl IH Hf]; intros [| i] [| j] Hi Hj Hij; simpl in *; try done; try lia.
  - injection Hi as ->. rewrite Forall_forall in Hf. apply Hf. by eapply list_elem_of_lookup_2.
  - eapply IH; eauto. lia.
Qed.

Section invariant.
Context `{SE : SequenceEnv}.
Implicit Types (w : seqworld) (x : seqfleet) (f g : reserving).

Definition holds f w : Prop := sq_now w < rv_until f ∧ rv_phase f ≠ ph_gone.

Record flights_ok (fs : list reserving) w : Prop := {
  fo_disjoint a : disjoint_blocks (reservations_of a w);
  fo_lock i f : fs !! i = Some f → holds f w → jget (rv_account f) (sq_locks w) = Some ("locked", Some (rv_until f));
  fo_one i j f g : fs !! i = Some f → fs !! j = Some g → holds f w → holds g w → rv_account f = rv_account g → i = j;
  fo_read i f h r : fs !! i = Some f → holds f w → rv_phase f = ph_read h → r ∈ reservations_of (rv_account f) w → sr_lastSequence r ≤ h
}.

Lemma holds_later f w w' : holds f w' → sq_now w ≤ sq_now w' → holds f w.
Proof. intros [H1 H2] Hn. split; [lia | done]. Qed.

Lemma ok_recedes fs w w' : recedes w w' → flights_ok fs w → flights_ok fs w'.
Proof.
  intros (Hn & Hl & Hr) [H1 H2 H3 H4]. split.
  - intros a. eapply disjoint_sublist; [apply Hr | apply H1].
  - intros i f Hi Hf. rewrite Hl. eapply H2; eauto using holds_later.
  - intros i j f g Hi Hj Hf Hg. apply (H3 i j f g); eauto using holds_later.
  - intros i f h r Hi Hf Hp He. apply (H4 i f h); eauto using holds_later. eapply elem_of_sublist; eauto.
Qed.

(** A flight whose phase changes, to one with nothing to show or with what it read. *)
Lemma ok_phase fs w i f p :
  flights_ok fs w → fs !! i = Some f → rv_phase f ≠ ph_gone →
  (∀ h, p = ph_read h → ∀ r, r ∈ reservations_of (rv_account f) w → sr_lastSequence r ≤ h) → flights_ok (<[i := with_phase p f]> fs) w.
Proof.
  intros [H1 H2 H3 H4] Hi Hg Hp.
  assert (∀ j g, <[i := with_phase p f]> fs !! j = Some g → (j = i ∧ g = with_phase p f) ∨ (fs !! j = Some g)) as HL.
  { intros j g. destruct (decide (i = j)) as [<- | Hne].
    - rewrite list_lookup_insert_eq by (by eapply lookup_lt_Some). intros [= <-]. auto.
    - rewrite list_lookup_insert_ne by done. auto. }
  assert (∀ j g, <[i := with_phase p f]> fs !! j = Some g → holds g w → ∃ g', fs !! j = Some g' ∧ holds g' w ∧ rv_account g' = rv_account g ∧ rv_until g' = rv_until g) as HH.
  { intros j g Hj Hh. destruct (HL j g Hj) as [[-> ->] | Hj']; [| by eauto 6]. exists f. repeat split; [done | apply Hh | done]. }
  split; [done | | |].
  - intros j g Hj Hh. destruct (HH j g Hj Hh) as (g' & Hg' & Hh' & <- & <-). eauto.
  - intros j k g g' Hj Hk Hh Hh' He. destruct (HH j g Hj Hh) as (u & Hu & Hhu & Eu & _), (HH k g' Hk Hh') as (v & Hv & Hhv & Ev & _).
    eapply H3; eauto. congruence.
  - intros j g h r Hj Hh Hph Hr. destruct (HL j g Hj) as [[-> ->] | Hj']; [| by eapply H4]. by eapply Hp.
Qed.

(** ** The steps *)

Lemma ok_lock fs w a size :
  flights_ok fs w → let '(r, w') := call (set_lock a) w in
  flights_ok (match r with inr true => fs ++ [Reserving a size (sq_now w' + lockTimeout) ph_locked] | _ => fs end) w'.
Proof.
  intros Hok. apply (ok_recedes _ _ _ (recedes_tick w)) in Hok. unfold call. set (w1 := tick w) in *.
  assert (∀ i f, fs !! i = Some f → holds f w1 → rv_account f = a → rget (sq_now w1) a (sq_locks w1) = None → False) as Hfree.
  { intros i f Hi Hf <- Hg. pose proof (fo_lock _ _ Hok i f Hi Hf) as Hl. unfold rget, unexpired in Hg. rewrite Hl in Hg.
    destruct Hf as [Hf _]. apply Z.ltb_lt in Hf. by rewrite Hf in Hg. }
  assert (rget (sq_now w1) a (sq_locks w1) = None → flights_ok fs (set_locks (jset a ("locked", Some (sq_now w1 + lockTimeout))) w1)) as Hset.
  { intros Hg. destruct Hok as [H1 H2 H3 H4]. split; [done | | done | done].
    intros i f Hi Hf. simpl. rewrite jget_jset_ne; [by eapply H2 |]. intros ->. by apply (Hfree i f). }
  unfold set_lock. destruct (next_fate w); [| done |]; destruct (rget (sq_now w1) a (sq_locks w1)) eqn:Hg; [done | | done | by apply Hset].
  specialize (Hset eq_refl). set (w2 := set_locks _ w1) in *. destruct Hset as [H1 H2 H3 H4].
  assert (∀ i g, (fs ++ [Reserving a size (sq_now w2 + lockTimeout) ph_locked]) !! i = Some g →
          fs !! i = Some g ∨ i = length fs ∧ g = Reserving a size (sq_now w2 + lockTimeout) ph_locked) as HL.
  { intros i g [Hi | [Hi He]]%lookup_app_Some; [by left | right]. apply list_lookup_singleton_Some in He as [He <-]. split; [lia | done]. }
  assert (∀ i f, fs !! i = Some f → holds f w2 → rv_account f = a → False) as Hno by eauto.
  split; [done | | |].
  - intros i f [Hi | [-> ->]]%HL Hf; [by eapply H2 |]. simpl. by rewrite jget_jset_eq.
  - intros i j f g [Hi | [-> ->]]%HL [Hj | [-> ->]]%HL Hf Hg' He; simpl in *; [by eapply H3 | | | done]; exfalso; eapply Hno; eauto.
  - intros i f h r [Hi | [-> ->]]%HL Hf Hp; [by eapply H4 | done].
Qed.

(** What was removed is gone. *)
Lemma lrem_all a ds w u w' :
  for_each ds (λ r, write (lrem_reservation a r)) w = (inr u, w') → ∀ r, r ∈ ds → r ∉ reservations_of a w'.
Proof.
  revert w. induction ds as [| d ds IH]; intros w Hrun r Hr; [by apply elem_of_nil in Hr |]. simpl in Hrun.
  apply bind_inr in Hrun as (v & w1 & Hw & Hrun). apply write_inr in Hw as ->.
  apply elem_of_cons in Hr as [-> | Hr]; [| by eapply IH]. intros Hin.
  assert (recedes (lrem_reservation a d (tick w)) w') as (_ & _ & Hs).
  { eapply evolves_run; [| exact Hrun]. evolve; auto with evolve. }
  eapply elem_of_sublist in Hin; [| apply Hs]. unfold reservations_of in Hin. simpl in Hin. rewrite rlist_rshrink in Hin.
  rewrite decide_True in Hin by done. unfold without in Hin. apply list_elem_of_In, List.filter_In in Hin as [_ Hd].
  by rewrite bool_decide_eq_true_2 in Hd.
Qed.

(** The reservations left are among those that were found active. *)
Lemma active_covers a w l w' : getActiveReservations a w = (inr l, w') → reservations_of a w' ⊆ l.
Proof.
  unfold getActiveReservations. intros (l0 & w1 & Hl & Hrun)%bind_inr. apply ask_inr in Hl as [-> ->].
  apply bind_inr in Hrun as (now & w2 & Hnow & Hrun). injection Hnow as <- <-.
  apply bind_inr in Hrun as (u & w2 & Hdel & Hrun). injection Hrun as <- <-. intros r Hr.
  assert (recedes (tick w) w2) as (_ & _ & Hs).
  { eapply evolves_run; [| exact Hdel]. evolve; auto with evolve. }
  apply list_elem_of_In, List.filter_In. split.
  - apply list_elem_of_In. by eapply elem_of_sublist; [| apply Hs].
  - destruct (_ <? sr_expiresAt r) eqn:He in |- *; [done |]. exfalso.
    eapply (lrem_all _ _ _ _ _ Hdel r); [| done]. apply list_elem_of_In, List.filter_In. split; [| simpl in He |- *; by rewrite He].
    apply list_elem_of_In. by eapply elem_of_sublist; [| apply Hs].
Qed.

Lemma foldl_highest l h : let m := foldl (λ h r, if h <? sr_lastSequence r then sr_lastSequence r else h) h l in
  h ≤ m ∧ ∀ r, r ∈ l → sr_lastSequence r ≤ m.
Proof.
  revert h. induction l as [| y l IH]; intros h; simpl; [split; [lia | by intros r ?%elem_of_nil] |].
  destruct (IH (if h <? sr_lastSequence y then sr_lastSequence y else h)) as [H1 H2].
  destruct (Z.ltb_spec h (sr_lastSequence y)); (split; [lia |]; intros r [-> | Hr]%elem_of_cons; [lia | auto]).
Qed.

Lemma read_highest a w h w' : reserve_read a w = (inr h, w') → ∀ r, r ∈ reservations_of a w' → sr_lastSequence r ≤ h.
Proof.
  unfold reserve_read. intros (u & w1 & _ & Hrun)%bind_inr. apply bind_inr in Hrun as (ledger & w2 & _ & Hrun).
  apply bind_inr in Hrun as (l & w3 & Hl & Hrun). injection Hrun as <- <-. intros r Hr.
  apply foldl_highest. by eapply active_covers.
Qed.

Lemma recedes_rexpire a w : recedes w (set_reservations (rexpire (sq_now w) a lease_ttl) w).
Proof.
  split; [done |]. split; [done |]. intros b. unfold reservations_of. simpl. unfold rexpire.
  destruct (rget (sq_now w) a (sq_reservations w)) as [l |] eqn:Hl; [| done].
  unfold rlist, rget. rewrite jget_jset. case_decide; [subst | done]. unfold unexpired at 1.
  assert (sq_now w <? sq_now w + lease_ttl = true) as -> by (apply Z.ltb_lt; unfold lease_ttl; lia).
  simpl. fold (rget (sq_now w) b (sq_reservations w)). by rewrite Hl.
Qed.

Lemma rlist_rpush {A} now a b (r : A) m : rlist now a (rpush now b r m) = if decide (b = a) then rlist now a m ++ [r] else rlist now a m.
Proof.
  unfold rpush. unfold rlist at 1, rget at 1. rewrite jget_jset. case_decide; [subst | done].
  unfold rexpiry. destruct (jget a m) as [[l' e] |]; [| done]. destruct (unexpired now e) eqn:He; simpl; [by rewrite He | done].
Qed.

(** A first write that may fail, and the rest that recedes from it. *)
Lemma write_then {A} (g : seqworld → seqworld) (k : () → M seqworld A) w :
  (∀ u, evolves recedes (k u)) → let w' := ((u ← write g; k u) w).2 in w' = tick w ∨ recedes (g (tick w)) w'.
Proof.
  intros Hk. unfold write, call, mbind, M_bind. destruct (next_fate w); simpl; [right; apply Hk | by left | by right].
Qed.

(** A push adds one block, or nothing. *)
Lemma push_cases a size h w :
  let w' := (reserve_push a size h w).2 in
  recedes w w' ∨ ∃ w1 r, recedes w w1 ∧ sr_firstSequence r = h + 1 ∧ recedes (set_reservations (rpush (sq_now w1) a r) w1) w'.
Proof.
  intros w'. subst w'. unfold reserve_push, generateLeaseId. rewrite bind_assoc_run.
  erewrite bind_run by done. rewrite bind_assoc_run. erewrite bind_run by done. erewrite bind_run by done. erewrite bind_run by done.
  set (w0 := count_lease w). assert (recedes w (tick w0)) as H0 by (etrans; [| apply recedes_tick]; by apply recedes_quiet).
  match goal with |- recedes w ((write ?g ≫= ?k) w0).2 ∨ _ => destruct (write_then g k w0) as [Hw | Hw] end.
  - intros _. evolve; auto with evolve. apply recedes_write. intros. apply recedes_rexpire.
  - left. by rewrite Hw.
  - right. exists (tick w0). eexists. split; [exact H0 |]. split; [| exact Hw]. done.
Qed.

Lemma ok_push fs w i f h :
  flights_ok fs w → fs !! i = Some f → rv_phase f = ph_read h → sq_now (reserve_push (rv_account f) (rv_size f) h w).2 < rv_until f →
  flights_ok (<[i := with_phase ph_done f]> fs) (reserve_push (rv_account f) (rv_size f) h w).2.
Proof.
  intros Hok Hi Hp Hin. destruct (push_cases (rv_account f) (rv_size f) h w) as [Hr | (w1 & r & Hr & Hfirst & Hr')].
  { apply ok_phase; [by eapply ok_recedes | done | congruence | done]. }
  apply (ok_recedes _ _ _ Hr) in Hok. eapply ok_recedes; [exact Hr' |]. destruct Hr' as (Hn & _). simpl in Hn.
  assert (holds f w1) as Hf by (split; [lia | congruence]).
  assert (∀ a, reservations_of a (set_reservations (rpush (sq_now w1) (rv_account f) r) w1) =
               if decide (rv_account f = a) then reservations_of a w1 ++ [r] else reservations_of a w1) as Hpush.
  { intros a. apply rlist_rpush. }
  destruct (ok_phase fs w1 i f ph_done) as [H1 H2 H3 H4]; [done | done | congruence | done |]. split; [| done | done |].
  - intros a. rewrite Hpush. case_decide as He; [| apply H1]. apply disjoint_snoc; [apply H1 |]. intros y Hy. unfold block_before.
    subst a. pose proof (fo_read _ _ Hok i f h y Hi Hf Hp Hy). lia.
  - intros j g h' y Hj Hg Hph. rewrite Hpush. case_decide as He; [| by eapply H4]. exfalso.
    destruct (decide (i = j)) as [<- | Hne].
    + rewrite list_lookup_insert_eq in Hj by (by eapply lookup_lt_Some). by injection Hj as <-.
    + rewrite list_lookup_insert_ne in Hj by done. apply Hne. by apply (fo_one _ _ Hok i j f g).
Qed.

Lemma ok_release fs w i f :
  flights_ok fs w → fs !! i = Some f → rv_phase f = ph_done → sq_now (reserve_release (rv_account f) w).2 < rv_until f →
  flights_ok (<[i := with_phase ph_gone f]> fs) (reserve_release (rv_account f) w).2.
Proof.
  intros Hok Hi Hp Hin. apply (ok_recedes _ _ _ (recedes_tick w)) in Hok. unfold reserve_release, recordLockRelease in *.
  destruct (write_then (set_locks (jdel (rv_account f))) (λ _, write (set_monitor (jdel (rv_account f)))) w) as [Hw | Hw]; [intros _; auto with evolve | |].
  { rewrite Hw. apply ok_phase; [done | done | congruence | done]. }
  eapply ok_recedes; [exact Hw |]. destruct Hw as (Hn & _). simpl in Hn.
  assert (holds f (tick w)) as Hf by (split; [simpl; lia | congruence]).
  destruct (ok_phase fs (tick w) i f ph_gone) as [H1 H2 H3 H4]; [done | done | congruence | done |]. split; [done | | done | done].
  intros j g Hj Hg. simpl. rewrite jget_jdel_ne; [by eapply H2 |]. intros He. destruct (decide (i = j)) as [<- | Hne].
  - rewrite list_lookup_insert_eq in Hj by (by eapply lookup_lt_Some). injection Hj as <-. by destruct Hg as [_ Hg].
  - rewrite list_lookup_insert_ne in Hj by done. apply Hne. by apply (fo_one _ _ Hok i j f g).
Qed.

Lemma ok_step op x : flights_ok (sf_flights x) (sf_world x) → in_time op x → flights_ok (sf_flights (seq_step op x)) (sf_world (seq_step op x)).
Proof.
  intros Hok. destruct op; simpl; intros Hin; try (eapply ok_recedes; [| done]; by_evolve; auto with evolve; fail).
  - pose proof (ok_lock _ _ address size Hok) as H. by destruct (call (set_lock address) (sf_world x)).
  - destruct (sf_flights x !! i) as [f |] eqn:Hi; [| done]. specialize (Hin f eq_refl). unfold step_flight in *. destruct (rv_phase f) as [| h | |] eqn:Hp.
    + destruct (reserve_read (rv_account f) (sf_world x)) as [r w] eqn:Hr. simpl. apply ok_phase; [| done | congruence |].
      * eapply ok_recedes; [| done]. eapply evolves_run; [| exact Hr]. auto with evolve.
      * destruct r as [e | h]; [done |]. intros h' [= <-] r. by eapply read_highest.
    + by apply ok_push.
    + by apply ok_release.
    + done.
  - destruct (sf_flights x !! i) as [f |] eqn:Hi; [| done]. simpl. destruct (decide (rv_phase f = ph_gone)) as [Hg | Hg].
    + rewrite list_insert_id; [done |]. destruct f; simpl in *; by subst.
    + by apply ok_phase.
  - eapply ok_recedes; [| done]. apply recedes_quiet; simpl; [lia | done | done].
Qed.

Lemma ok_run ops x : flights_ok (sf_flights x) (sf_world x) → punctual ops x → flights_ok (sf_flights (seq_run ops x)) (sf_world (seq_run ops x)).
Proof.
  unfold seq_run. revert x. induction ops as [| op ops IH]; intros x Hok Hp; [done |]. destruct Hp as [Ht Hp]. apply IH; [by apply ok_step | done].
Qed.

Lemma empty_sequences_ok now : flights_ok [] (empty_seqworld now).
Proof. by split; [constructor | ..]. Qed.

(** C13. The blocks of sequence numbers reserved for an account never overlap, and lie in
    the order of their reservation: whatever the processes do at once, with failed and
    lost calls, crashes, resets and forced releases, as long as no reservation takes
    longer than its lock of five seconds. *)
Theorem reservations_disjoint ops now account i j r r' :
  punctual ops (SeqFleet (empty_seqworld now) []) →
  let l := reservations_of account (sf_world (seq_run ops (SeqFleet (empty_seqworld now) []))) in
  l !! i = Some r → l !! j = Some r' → (i < j)%nat → sr_lastSequence r < sr_firstSequence r'.
Proof.
  intros Hp l. apply disjoint_lookup. apply (fo_disjoint (sf_flights (seq_run ops (SeqFleet (empty_seqworld now) [])))).
  apply ok_run; [apply empty_sequences_ok | done].
Qed.
End invariant.

(** ** Whole calls *)

Section whole.
Context `{SE : SequenceEnv}.
Implicit Types (w : seqworld) (x : seqfleet) (f : reserving).

#[local] Arguments seq_run : simpl never.

Lemma seq_run_app ops ops' x : seq_run (ops ++ ops') x = seq_run ops' (seq_run ops x).
Proof. apply foldl_app. Qed.

(** The attempts at the lock are steps, and the last one leaves the new flight. *)
Lemma acquire_steps n a size x r w' :
  acquire_lock n a (sf_world x) = (r, w') →
  ∃ ops until, seq_run ops x = SeqFleet w' (match r with inr true => sf_flights x ++ [Reserving a size until ph_locked] | _ => sf_flights x end).
Proof.
  revert x. induction n as [| n IH]; intros x Hrun; simpl in Hrun.
  { injection Hrun as <- <-. exists [], 0. by destruct x. }
  unfold mbind, M_bind in Hrun. destruct (call (set_lock a) (sf_world x)) as [res w1] eqn:Hc.
  set (y := seq_step (s_lock a size) x) in *. assert (sf_world y = w1) as Hy by (unfold y; simpl; by rewrite Hc).
  destruct res as [e | [|]].
  - injection Hrun as <- <-. exists [s_lock a size], 0. unfold seq_run, y in *. simpl in *. by rewrite Hc in *.
  - injection Hrun as <- <-. exists [s_lock a size], (sq_now w1 + lockTimeout). unfold seq_run, y in *. simpl in *. by rewrite Hc in *.
  - destruct (IH (seq_step (s_wait 50) y) ) as (ops & until & Hops); [simpl; rewrite Hy; exact Hrun |].
    exists ([s_lock a size; s_wait 50] ++ ops), until. rewrite seq_run_app. change (seq_run [s_lock a size; s_wait 50] x) with (seq_step (s_wait 50) y).
    rewrite Hops. f_equal. change (sf_flights (seq_step (s_wait 50) y)) with (sf_flights y).
    assert (sf_flights y = sf_flights x) as -> by (unfold y; simpl; by rewrite Hc). done.
Qed.

Lemma insert_last_flight fs (f g : reserving) : <[length fs := g]> (fs ++ [f]) = fs ++ [g].
Proof. rewrite insert_app_r_alt by lia. by rewrite Nat.sub_diag. Qed.

(** A call of [reserveSequenceBlock] is a sequence of the steps, whatever it returns. *)
Lemma reserve_history a size x r w' :
  reserveSequenceBlock a size (sf_world x) = (r, w') → ∃ ops, sf_world (seq_run ops x) = w'.
Proof.
  intros Hrun. unfold reserveSequenceBlock in Hrun. apply bind_cases in Hrun as [(e & Hacq & ->) | (ok & w1 & Hacq & Hrun)];
    destruct (acquire_steps _ _ size _ _ _ Hacq) as (ops & until & Hops); [exists ops; by rewrite Hops |].
  destruct ok.
  - change (try_finally (highest ← reserve_read a; reserve_push a size highest) (reserve_release a) w1 = (r, w')) in Hrun.
    set (fs := sf_flights x) in *. set (f := Reserving a size until ph_locked) in *.
    assert (∀ g w, seq_run [s_step (length fs)] (SeqFleet w (fs ++ [g])) = step_flight (length fs) g (SeqFleet w (fs ++ [g]))) as Hstep
      by (intros g w; unfold seq_run; simpl; by rewrite list_lookup_middle).
    unfold try_finally in Hrun. destruct ((highest ← reserve_read a; reserve_push a size highest) w1) as [out w2] eqn:Hbody.
    assert (∃ ops', seq_run ops' (SeqFleet w1 (fs ++ [f])) = SeqFleet w2 (fs ++ [with_phase ph_done f])) as [ops' Hops'].
    { apply bind_cases in Hbody as [(e & Hr & ->) | (h & w3 & Hr & Hp)].
      - exists [s_step (length fs)]. rewrite Hstep. unfold step_flight. simpl. by rewrite Hr, insert_last_flight.
      - exists ([s_step (length fs)] ++ [s_step (length fs)]). rewrite seq_run_app, Hstep. unfold step_flight. simpl. rewrite Hr, insert_last_flight.
        rewrite Hstep. unfold step_flight. simpl. by rewrite Hp, insert_last_flight. }
    exists (ops ++ ops' ++ [s_step (length fs)]). rewrite !seq_run_app, Hops, Hops', Hstep. unfold step_flight. simpl.
    destruct (reserve_release a w2) as [[e | u] w3]; by injection Hrun as _ <-.
  - change ((recordContentionEvent a;; throw (Error "Failed to acquire sequence reservation lock")) w1 = (r, w')) in Hrun.
    exists (ops ++ [s_contention a]). rewrite seq_run_app, Hops. unfold seq_run. simpl.
    apply bind_cases in Hrun as [(e & Hc & _) | (u & w2 & Hc & Hrun)]; rewrite Hc; [done |]. by injection Hrun as _ <-.
Qed.
End whole.

(** ** Concrete runs *)

Module sequence_example.
#[export] Instance env : SequenceEnv := {|
  se_fate := λ _, CallOk; se_latency := λ _, 1%N; loadAccount := λ _ _, inr 100; lease_id := λ n, "lease-" +:+ dec (Z.of_nat n) |}.

Definition start : seqfleet := SeqFleet (empty_seqworld 0) [].
Definition blocks (account : string) (x : seqfleet) : list (Z * Z) :=
  (λ r, (sr_firstSequence r, sr_lastSequence r)) <$> reservations_of account (sf_world x).
Definition numbers (account : string) (n : nat) (w : seqworld) : list Z * seqworld :=
  Nat.iter n (λ '(l, w), match getNextSequenceNumber account 1 w with (inr a, w') => (l ++ [al_sequence a], w') | (inl _, w') => (l, w') end) ([], w).

(** Two processes reserve for an account, the second one while the first holds the lock. *)
Definition ops : list seq_op :=
  [s_lock "A" 3; s_step 0; s_lock "A" 2; s_next "A" 1; s_step 0; s_step 0; s_lock "A" 2; s_step 1; s_next "A" 1; s_step 1; s_step 1].

Lemma reservations_disjoint_witness :
  let l := reservations_of "A" (sf_world (seq_run ops start)) in
  blocks "A" (seq_run ops start) = [(101, 103); (104, 105)] ∧
  ∃ r r', l !! 0%nat = Some r ∧ l !! 1%nat = Some r' ∧ sr_lastSequence r < sr_firstSequence r'.
Proof.
  split; [by vm_compute |]. eexists _, _. split; [by vm_compute |]. split; [by vm_compute |].
  eapply (reservations_disjoint ops 0 "A" 0 1); [| by vm_compute | by vm_compute | lia].
  repeat split; try (intros f; vm_compute; intros [= <-]; vm_compute; reflexivity).
Defined.

(** A reservation that takes longer than the lock overlaps with the next one. *)
Lemma slow_holder_overlaps :
  blocks "A" (seq_run [s_lock "A" 3; s_step 0; s_wait 6000; s_lock "A" 3; s_step 1; s_step 1; s_step 0] start) = [(101, 103); (101, 103)].
Proof. by vm_compute. Qed.

(** Resetting one account rewinds the reservations of every other. *)
Lemma reset_rewinds_others :
  let w := sf_world (seq_run [s_lock "A" 3; s_step 0; s_step 0; s_step 0] start) in
  let '(before, w1) := numbers "A" 2 w in
  let '(after, _) := numbers "A" 2 (resetCache "B" w1).2 in
  before = [101; 102] ∧ after = [101; 102].
Proof. by vm_compute. Qed.
End sequence_example.
