(* ===== verification/TxQueue.v ===== *)
(** * The transaction queue (apps/backend/wallet/src/queue/)

    - submissionFailure.ts: the classification of a failed submission;
    - txQueue.ts: the job that builds, simulates, signs, submits and polls a transaction,
      its size guard, and the retries of a job.

    The sequence numbers are those of Sequences.v, the spending limits those of
    SpendLimits.v.  The key vault, the Stellar SDK, Horizon and the Soroban node are
    parameters: functions of the number of the call.  The hash a failure carries is only
    logged and is left out. *)
From S2P Require Import Prelude JsLib JsCollections Services Calendar ChainClient SpendLimits Sequences.
Local Open Scope Z_scope.

(** ** submissionFailure.ts *)

Record SubmissionFailure := Failure { sf_code : string; sf_message : string; sf_retryable : bool }.

Definition MALFORMED_XDR_PATTERNS : list string :=
  ["malformed xdr"; "invalid xdr"; "failed to parse xdr"; "fromxdr"; "xdr decode"; "bad xdr"].
Definition AUTH_FAILURE_PATTERNS : list string :=
  ["auth failure"; "authentication failed"; "unauthorized"; "forbidden"; "access denied"; "invalid auth tag"; "decryption failed"; "failed to decrypt"].
Definition RETRYABLE_NETWORK_PATTERNS : list string :=
  ["timeout"; "network"; "econnrefused"; "enotfound"; "econnreset"; "etimedout"; "socket hang up"; "fetch failed"; "rate limit"; "429"; "500"; "502";
   "503"; "504"; "temporarily unavailable"; "service unavailable"].

Definition matchesPatterns (message : string) (patterns : list string) : bool :=
  let lower := toLowerCase message in existsb (includes lower) patterns.

Definition classifySubmissionFailure (err : exn) : SubmissionFailure :=
  let message := exn_message err in
  let lower := toLowerCase message in
  if matchesPatterns lower MALFORMED_XDR_PATTERNS then Failure "TX_MALFORMED_XDR" message false
  else if matchesPatterns lower AUTH_FAILURE_PATTERNS then Failure "TX_AUTH_FAILURE" message false
  else if includes lower "simulation failed" then Failure "TX_SIMULATION_FAILED" message false
  else if includes lower "tx_bad_seq" || includes lower "bad_seq" then Failure "TX_SEQUENCE_CONFLICT" message true
  else if includes lower "transaction failed" then Failure "TX_EXECUTION_FAILED" message false
  else if includes lower "submission failed" then
    if matchesPatterns lower RETRYABLE_NETWORK_PATTERNS then Failure "TX_RPC_TRANSIENT" message true
    else Failure "TX_SUBMISSION_REJECTED" message false
  else if includes lower "transaction timeout" || includes lower "status untracked" then Failure "TX_POLL_TIMEOUT" message true
  else if matchesPatterns lower RETRYABLE_NETWORK_PATTERNS then Failure "TX_RPC_TRANSIENT" message true
  else Failure "TX_SUBMISSION_UNKNOWN" message false.

(** ** Types *)

(** An argument of the contract call: a string, or another value. *)
Inductive argument := ArgText (s : string) | ArgOther (json : string).

(** A request: what the limits read of it, and the contract call. *)
Record tx_request := TxRequest {
  tq_base : TransactionRequest; tq_contractId : string; tq_method : string; tq_args : list argument; tq_argTypes : option (list string)
}.

(** A built transaction; [bt_footprint] is there once it is assembled. *)
Record built := Built {
  bt_source : string; bt_sequence : Z; bt_fee : string; bt_contract : string; bt_method : string; bt_args : list string; bt_maxTime : Z;
  bt_footprint : option string
}.

Inductive simulation := SimSuccess (footprint : string) | SimFailure (reasons : list string) (json : string).
Inductive send_status := send_PENDING | send_DUPLICATE | send_TRY_AGAIN_LATER | send_ERROR.
Record send_response := SendResponse { sn_status : send_status; sn_hash : string }.
Inductive tx_status := ts_SUCCESS (ledger : Z) | ts_FAILED (resultXdr : string) | ts_NOT_FOUND.

(** An error of the node, with the HTTP status it carries. *)
Record rpc_error := RpcError { re_error : exn; re_status : option Z }.

Record signing_row := SigningRow { al_walletId : string; al_success : bool; al_txHash : option string }.

Record qworld := QWorld {
  qw_seq : seqworld; qw_spend : spdb;
  (** wallet_signing_audit_logs, the dead letters, the transactions handed to the node *)
  qw_signing : list signing_row; qw_dlq : list (string * SubmissionFailure * Z); qw_sent : list built
}.

Class TxEnv := {
  tx_sequences :: SequenceEnv;
  tx_spend :: SpendEnv;
  (** [vaultService.getKey] at the n-th call, [Keypair.fromSecret], the key of [new Account] *)
  vault_getKey : nat → string → exn + string;
  fromSecret : string → exn + string;
  valid_account : string → bool;
  (** [Address.fromString(s).toScVal()] and [nativeToScVal(arg, {type})] *)
  address_scval : string → option string;
  native_scval : argument → option string → exn + string;
  (** [Operation.invokeContractFunction] refuses a contract that is not one *)
  invoke_operation : string → string → list string → exn + ();
  transaction_fee : nat → string;
  simulateTransaction : nat → built → exn + simulation;
  assembleTransaction : built → string → exn + built;
  tx_hash : built → string;
  sendTransaction : nat → built → rpc_error + send_response;
  getTransaction : nat → string → rpc_error + tx_status;
  send_json : send_response → string;
  (** whether Horizon answers with the transaction *)
  horizon_transaction : nat → string → bool;
  (** the size of a request in bytes, and the limit *)
  request_bytes : tx_request → Z;
  MAX_XDR_BYTES : option Z;
  tx_test : bool
}.

Definition send_status_name (s : send_status) : string :=
  match s with send_PENDING => "PENDING" | send_DUPLICATE => "DUPLICATE" | send_TRY_AGAIN_LATER => "TRY_AGAIN_LATER" | send_ERROR => "ERROR" end.

Definition UnrecoverableError (m : string) : exn := Exn "UnrecoverableError" m.
Definition join_with (sep : string) (l : list string) : string :=
  match l with [] => "" | x :: l' => foldl (λ acc y, acc +:+ sep +:+ y) x l' end.

(** ** isRpcGatewayTimeout *)

Definition word_char (c : ascii) : bool :=
  let n := N_of_ascii c in ((48 <=? n) && (n <=? 57) || (65 <=? n) && (n <=? 90) || (97 <=? n) && (n <=? 122) || (n =? 95))%N.

(** The regular expression \bWORD\b, for a word of word characters. *)
Fixpoint has_word (word : list ascii) (inside : bool) (s : list ascii) : bool :=
  match s with
  | [] => false
  | c :: s' =>
      (negb inside && bool_decide (take (length word) s = word) &&
       match drop (length word) s with [] => true | d :: _ => negb (word_char d) end) || has_word word (word_char c) s'
  end.

Definition isRpcGatewayTimeout (err : rpc_error) : bool :=
  let message := exn_message (re_error err) in
  bool_decide (re_status err = Some 504) || bool_decide (re_status err = Some 503) ||
  has_word (chars "504") false (chars message) || has_word (chars "503") false (chars message) ||
  includes (toLowerCase message) "gateway timeout" || includes (toLowerCase message) "service unavailable".

(** ** argToScVal *)

(** The regular expression [^[GC][A-Z2-7]{55}$]. *)
Definition base32_char (c : ascii) : bool := let n := N_of_ascii c in ((65 <=? n) && (n <=? 90) || (50 <=? n) && (n <=? 55))%N.
Definition is_strkey (s : string) : bool :=
  match chars s with
  | c :: l => (Ascii.eqb c "G" || Ascii.eqb c "C") && Nat.eqb (length l) 55 && forallb base32_char l
  | [] => false
  end.

Section queue.
Context `{TE : TxEnv}.
Implicit Types w : qworld.

Definition argToScVal (arg : argument) (typeHint : option string) : exn + string :=
  let hinted := match typeHint with
                | Some h => if String.eqb h "" then native_scval arg None
                            else match native_scval arg (Some h) with inr v => inr v | inl _ => native_scval arg None end
                | None => native_scval arg None
                end in
  match arg with
  | ArgText s => if is_strkey s && bool_decide (typeHint = Some "address") then match address_scval s with Some v => inr v | None => hinted end else hinted
  | ArgOther _ => hinted
  end.

Fixpoint args_scval (args : list argument) (types : list string) : exn + list string :=
  match args with
  | [] => inr []
  | arg :: args' =>
      match argToScVal arg (head types) with
      | inl e => inl e
      | inr v => match args_scval args' (tail types) with inl e => inl e | inr l => inr (v :: l) end
      end
  end.

(** ** The state *)

Definition set_seq (s : seqworld) w : qworld := QWorld s (qw_spend w) (qw_signing w) (qw_dlq w) (qw_sent w).
Definition set_signing (f : list signing_row → list signing_row) w : qworld := QWorld (qw_seq w) (qw_spend w) (f (qw_signing w)) (qw_dlq w) (qw_sent w).
Definition set_dlq (f : list (string * SubmissionFailure * Z) → list (string * SubmissionFailure * Z)) w : qworld :=
  QWorld (qw_seq w) (qw_spend w) (qw_signing w) (f (qw_dlq w)) (qw_sent w).
Definition add_sent (t : built) w : qworld := QWorld (qw_seq w) (qw_spend w) (qw_signing w) (qw_dlq w) (qw_sent w ++ [t]).

#[export] Instance queue_services : Services qworld := {| next_fate := λ w, se_fate (sq_calls (qw_seq w)); tick := λ w, set_seq (tick (qw_seq w)) w |}.

Definition on_seq {A} (c : M seqworld A) : M qworld A := zoom qw_seq set_seq c.

(** The spending limits run at the time of the queue. *)
Definition on_spend {A} (c : M spdb A) : M qworld A :=
  zoom (λ w, let d := qw_spend w in SpDb (sp_limits d) (sp_wallets d) (sp_redis d) (sq_now (qw_seq w)))
       (λ d w, QWorld (qw_seq w) d (qw_signing w) (qw_dlq w) (qw_sent w)) c.

(** A call of a service of the environment, at its number. *)
Definition remote {A} (f : nat → A) : M qworld A := n ← gets (λ w, sq_calls (qw_seq w)); modify tick;; mret (f n).
Definition sleep (ms : Z) : M qworld () := on_seq (modify (pass ms)).

(** ** The job *)

Definition audit_signing (request : tx_request) (ok : bool) (txHash : option string) : M qworld () :=
  match rq_walletId (tq_base request) with
  | Some walletId =>
      if truthy (Some walletId) then try_catch (write (set_signing (λ l, l ++ [SigningRow walletId ok txHash]))) (λ _, mret ()) else mret ()
  | None => mret ()
  end.

Definition throwClassifiedSubmissionFailure {A} (failure : SubmissionFailure) (attempt : Z) (jobId : option string) : M qworld A :=
  (match jobId with
   | Some id => if negb (sf_retryable failure) && truthy (Some id) then modify (set_dlq (λ l, l ++ [(id, failure, attempt)])) else mret ()
   | None => mret ()
   end);;
  if sf_retryable failure then throw (Error (sf_message failure))
  else throw (UnrecoverableError (sf_code failure +:+ ": " +:+ sf_message failure)).

Definition poll_delay : Z := if tx_test then 10 else 5000.

(** [reconcileTimedOutSubmission] *)
Fixpoint reconcile (attempts : nat) (txHash : string) : M qworld (option TransactionResult) :=
  match attempts with
  | O => mret None
  | S attempts' =>
      status ← remote (λ n, getTransaction n txHash);
      match status with
      | inr (ts_SUCCESS l) => mret (Some {| hash := txHash; ledger := l; success := true |})
      | inr (ts_FAILED _) => mret None
      | inr ts_NOT_FOUND | inl _ => sleep poll_delay;; reconcile attempts' txHash
      end
  end.

Definition reconcileTimedOutSubmission (txHash : string) : M qworld (option TransactionResult) := reconcile (if tx_test then 2 else 6) txHash.

Definition bad_seq (text : string) : bool := includes text "tx_bad_seq" || includes text "bad_seq".

(** The polling loop; [None] when the retries are used up. *)
Fixpoint poll (retries : nat) (request : tx_request) (a : allocation) (txHash : string) : M qworld (option TransactionResult) :=
  match retries with
  | O => mret None
  | S retries' =>
      sleep poll_delay;;
      status ← remote (λ n, getTransaction n txHash);
      match status with
      | inl err => if isRpcGatewayTimeout err then poll retries' request a txHash else throw (re_error err)
      | inr (ts_SUCCESS l) =>
          on_spend (record_confirmed (tq_base request));;
          audit_signing request true (Some txHash);;
          mret (Some {| hash := txHash; ledger := l; success := true |})
      | inr (ts_FAILED xdr) =>
          (if bad_seq xdr then on_seq (reset_allocation (rq_sourceAddress (tq_base request)) a) else mret ());;
          throw (Error ("Transaction failed: " +:+ xdr))
      | inr ts_NOT_FOUND => poll retries' request a txHash
      end
  end.

Definition verifyLedgerSubmission (txHash : string) : M qworld bool := remote (λ n, horizon_transaction n txHash).

(** From the request to the signed transaction. *)
Definition prepare (request : tx_request) (sequence : Z) : M qworld built :=
  scArgs ← answer (args_scval (tq_args request) (default [] (tq_argTypes request)));
  fee ← remote transaction_fee;
  _ ← answer (invoke_operation (tq_contractId request) (tq_method request) scArgs);
  now ← gets (λ w, sq_now (qw_seq w));
  let tx := Built (rq_sourceAddress (tq_base request)) (sequence + 1) fee (tq_contractId request) (tq_method request) scArgs (now / 1000 + 30) None in
  simRes ← remote (λ n, simulateTransaction n tx);
  sim ← answer simRes;
  match sim with
  | SimFailure reasons json =>
      let text := join_with ", " reasons in
      throw (Error ("Transaction simulation failed: " +:+ (if String.eqb text "" then json else text)))
  | SimSuccess footprint => answer (assembleTransaction tx footprint)
  end.

Definition send (tx : built) : M qworld (rpc_error + send_response) :=
  n ← gets (λ w, sq_calls (qw_seq w));
  modify (λ w, add_sent tx (tick w));;
  mret (sendTransaction n tx).

(** The wrapped message of a gateway timeout that could not be reconciled. *)
Definition gateway_error (err : rpc_error) : exn :=
  Error ("Submission failed: RPC gateway timeout (504/503) and transaction not found on-chain: " +:+ exn_message (re_error err)).

(** From the signed transaction to its result. *)
Definition submit_and_poll (request : tx_request) (a : allocation) (tx : built) : M qworld TransactionResult :=
  sent ← send tx;
  match sent with
  | inl err =>
      if isRpcGatewayTimeout err then
        reconciled ← reconcileTimedOutSubmission (tx_hash tx);
        match reconciled with
        | Some result => audit_signing request true (Some (tx_hash tx));; mret result
        | None => throw (gateway_error err)
        end
      else throw (re_error err)
  | inr sendRes =>
      match sn_status sendRes with
      | send_ERROR =>
          (if bad_seq (send_json sendRes) then on_seq (reset_allocation (rq_sourceAddress (tq_base request)) a) else mret ());;
          throw (Error ("Submission failed: " +:+ send_json sendRes))
      | status =>
          polled ← poll 12 request a (sn_hash sendRes);
          match polled with
          | Some result => mret result
          | None =>
              isConfirmed ← verifyLedgerSubmission (sn_hash sendRes);
              if isConfirmed : bool then
                audit_signing request true (Some (sn_hash sendRes));;
                mret {| hash := sn_hash sendRes; ledger := 0; success := true |}
              else throw (Error ("Transaction timeout or status untracked: " +:+ send_status_name status))
          end
      end
  end.

Definition executeTxJob (request : tx_request) (attempt : Z) : M qworld TransactionResult :=
  let source := rq_sourceAddress (tq_base request) in
  found ← remote (λ n, vault_getKey n source);
  secret ← answer found;
  _ ← answer (fromSecret secret);
  a ← on_seq (getNextSequenceNumber source attempt);
  throw_if (negb (valid_account source)) (Error "accountId is invalid");;
  try_catch
    (tx ← prepare request (al_sequence a);
     submit_and_poll request a tx)
    (λ err,
       let failure := classifySubmissionFailure err in
       (if sf_retryable failure then mret () else audit_signing request false None);;
       throwClassifiedSubmissionFailure failure attempt None).

(** ** The queue *)

Definition validateXdrSize (request : tx_request) : option string :=
  let sizeBytes := request_bytes request in
  let maxBytes := match MAX_XDR_BYTES with Some raw => if raw <=? 0 then 65536 else raw | None => 65536 end in
  if sizeBytes <=? maxBytes then None
  else Some ("Payload too large: " +:+ dec sizeBytes +:+ " bytes exceeds limit of " +:+ dec maxBytes +:+ " bytes").

(** The guards of [addTransactionToQueue]: the request that is queued. *)
Definition admit_request (request : tx_request) : M qworld tx_request :=
  match validateXdrSize request with
  | Some error => throw (Error error)
  | None =>
      base ← on_spend (limit_guard (tq_base request));
      mret (TxRequest base (tq_contractId request) (tq_method request) (tq_args request) (tq_argTypes request))
  end.

(** The attempts of a job: an [UnrecoverableError] ends it, and so does a failure that is
    not retryable ([runTestJob]). *)
Fixpoint attempts_from (left : nat) (attemptsMade : Z) (request : tx_request) : M qworld TransactionResult :=
  match left with
  | O => throw (Error "Job failed after max attempts")
  | S left' =>
      try_catch (executeTxJob request (attemptsMade + 1))
        (λ err,
           if String.eqb (exn_name err) "UnrecoverableError" then throw err
           else if sf_retryable (classifySubmissionFailure err) && Nat.ltb 0 left' then sleep 50;; attempts_from left' (attemptsMade + 1) request
           else throw err)
  end.

Definition runTestJob (request : tx_request) : M qworld TransactionResult := attempts_from 5 0 request.

(** [addTransactionToQueue] in test mode, which runs the job at once. *)
Definition addTransactionToQueue (request : tx_request) : M qworld TransactionResult :=
  admitted ← admit_request request;
  runTestJob admitted.
End queue.
