(* ===== verification/TxQueueCorrect.v ===== *)
(** * The transaction queue: theorems

    What a job may claim about the ledger.  [landed h] is whether the transaction of hash
    [h] is executed successfully on the ledger, at any time. *)
From S2P Require Import Prelude JsLib JsCollections Services Calendar ChainClient SpendLimits Sequences SequencesCorrect TxQueue.
Local Open Scope Z_scope.

(** What the documentation of the SDK and the node says of their answers. *)
Class NodeLaws (TE : TxEnv) (landed : string → bool) := {
  send_hash n tx r : sendTransaction n tx = inr r → sn_hash r = tx_hash tx;
  rejected_never_lands n tx r : sendTransaction n tx = inr r → sn_status r = send_ERROR → landed (tx_hash tx) = false;
  success_landed n h l : getTransaction n h = inr (ts_SUCCESS l) → landed h = true;
  failure_not_landed n h xdr : getTransaction n h = inr (ts_FAILED xdr) → landed h = false;
  assembled tx footprint tx' : assembleTransaction tx footprint = inr tx' →
    bt_source tx' = bt_source tx ∧ bt_sequence tx' = bt_sequence tx ∧ bt_contract tx' = bt_contract tx ∧ bt_method tx' = bt_method tx ∧ bt_args tx' = bt_args tx
}.

(** ** What leaves the records of the queue alone *)

Section quiet.
Context `{TE : TxEnv}.
Implicit Types w : qworld.

Definition quiet w w' : Prop := qw_sent w' = qw_sent w ∧ qw_signing w' = qw_signing w ∧ qw_dlq w' = qw_dlq w.

#[export] Instance quiet_preorder : PreOrder quiet.
Proof. split; [by intros w | intros w1 w2 w3 (A & B & C) (D & E & F)]. repeat split; congruence. Qed.

Lemma quiet_on_seq {A} (c : M seqworld A) : evolves quiet (on_seq c).
Proof. intros w. unfold on_seq, zoom. by destruct (c (qw_seq w)). Qed.

Lemma quiet_on_spend {A} (c : M spdb A) : evolves quiet (on_spend c).
Proof. intros w. unfold on_spend, zoom. by destruct (c _). Qed.

Lemma quiet_remote {A} (f : nat → A) : evolves quiet (remote f).
Proof. intros w. done. Qed.

Lemma remote_run {A} (f : nat → A) w : remote f w = (inr (f (sq_calls (qw_seq w))), tick w).
Proof. done. Qed.
End quiet.

#[export] Hint Resolve quiet_on_seq quiet_on_spend quiet_remote : evolve.

Section job.
Context `{TE : TxEnv}.
Implicit Types w : qworld.

Lemma quiet_sleep ms : evolves quiet (sleep ms).
Proof. apply quiet_on_seq. Qed.
#[local] Hint Resolve quiet_sleep : evolve.

Lemma quiet_reconcile n h : evolves quiet (reconcile n h).
Proof. induction n as [| n IH]; simpl; evolve; auto with evolve. Qed.

Lemma quiet_prepare request s : evolves quiet (prepare request s).
Proof. unfold prepare. evolve; auto with evolve. Qed.

(** [try { ... } catch { log }] does not throw. *)
Lemma record_confirmed_returns request d : ∃ d', record_confirmed request d = (inr (), d').
Proof.
  unfold record_confirmed. destruct (rq_userId request), (rq_walletId request), (rq_amountStroops request); try by eexists.
  destruct (_ && _); [| by eexists]. unfold try_catch. match goal with |- context [match ?c with _ => _ end] => destruct c as [[e | []] d'] end; by eexists.
Qed.

Lemma on_spend_confirmed request w : ∃ w', on_spend (record_confirmed request) w = (inr (), w') ∧ quiet w w'.
Proof.
  pose proof (quiet_on_spend (record_confirmed request) w) as Hq. unfold on_spend, zoom in *.
  destruct (record_confirmed_returns request (SpDb (sp_limits (qw_spend w)) (sp_wallets (qw_spend w)) (sp_redis (qw_spend w)) (sq_now (qw_seq w)))) as [d' Hd].
  rewrite Hd in *. by eexists.
Qed.

(** The rows an outcome may add to the signing log. *)
Definition logged (ok : bool) (h : option string) w w' : Prop :=
  qw_sent w' = qw_sent w ∧ qw_dlq w' = qw_dlq w ∧
  (qw_signing w' = qw_signing w ∨ ∃ walletId, qw_signing w' = qw_signing w ++ [SigningRow walletId ok h]).

Lemma audit_signing_run request ok h w : ∃ w', audit_signing request ok h w = (inr (), w') ∧ logged ok h w w'.
Proof.
  unfold audit_signing. destruct (rq_walletId _) as [walletId |]; [| exists w; split; [done | by split_and!; auto]].
  destruct (truthy _); [| exists w; split; [done | by split_and!; auto]].
  unfold try_catch, write, call. destruct (next_fate w); eexists; (split; [done |]); (split; [done |]); (split; [done |]); eauto.
Qed.

Lemma logged_quiet ok h w w1 w' : quiet w w1 → logged ok h w1 w' → logged ok h w w'.
Proof. intros (A & B & C) (D & E & F). repeat split; [congruence .. |]. by rewrite <- B. Qed.

Lemma quiet_logged ok h w w1 w' : logged ok h w w1 → quiet w1 w' → logged ok h w w'.
Proof. intros (A & B & C) (D & E & F). repeat split; [congruence .. |]. by rewrite E. Qed.
End job.

Section truth.
Context `{TE : TxEnv} (landed : string → bool) `{!NodeLaws TE landed}.
Implicit Types w : qworld.

(** [e] is an error of a call of the node about the transaction: of its submission, as
    it is or wrapped after a gateway timeout, or of a lookup of its status. *)
Definition node_failed (tx : built) (e : exn) : Prop :=
  ∃ n err, sendTransaction n tx = inl err ∧ (e = re_error err ∨ e = gateway_error err) ∨
           getTransaction n (tx_hash tx) = inl err ∧ isRpcGatewayTimeout err = false ∧ e = re_error err.

(** What a failure says of the transaction: it does not land, the error asks for a
    retry, or a call of the node about it failed. *)
Definition may_fail (tx : built) (e : exn) : Prop :=
  landed (tx_hash tx) = false ∨ sf_retryable (classifySubmissionFailure e) = true ∨ node_failed tx e.

(** The error a failure is reported with for good. *)
Definition final_error (e : exn) : exn :=
  let failure := classifySubmissionFailure e in UnrecoverableError (sf_code failure +:+ ": " +:+ sf_message failure).

Lemma quiet_then_throw {A} (c : M qworld ()) (e : exn) w r w' :
  evolves quiet c → (c;; throw e : M qworld A) w = (r, w') → (∃ e', r = inl e') ∧ quiet w w'.
Proof.
  intros Hc Hrun. apply bind_cases in Hrun as [(e' & Hr & ->) | (u & w1 & Hr & Hrun)].
  - split; [eauto | by eapply evolves_run].
  - injection Hrun as <- <-. split; [eauto | by eapply evolves_run].
Qed.

Lemma poll_cases n request a tx w r w' :
  let h := tx_hash tx in
  poll n request a h w = (r, w') →
  match r with
  | inr (Some result) => hash result = h ∧ success result = true ∧ landed h = true ∧ logged true (Some h) w w'
  | inr None => quiet w w'
  | inl e => quiet w w' ∧ may_fail tx e
  end.
Proof.
  intros h. revert w. induction n as [| n IH]; intros w Hrun; simpl in Hrun; [by injection Hrun as <- <- |].
  apply bind_cases in Hrun as [(e & Hs & ->) | (u & w1 & Hs & Hrun)]; [done |].
  assert (quiet w w1) as Hq1 by (eapply evolves_run; [apply quiet_sleep | exact Hs]).
  erewrite bind_run in Hrun by apply remote_run. assert (quiet w (tick w1)) as Hq by done. clear Hs Hq1.
  destruct (getTransaction (sq_calls (qw_seq w1)) h) as [err | [l | xdr |]] eqn:Hg.
  - destruct (isRpcGatewayTimeout err) eqn:Hgw.
    + apply IH in Hrun. destruct r as [e | [result |]]; [by split; [etrans; [exact Hq | apply Hrun] | apply Hrun] | | by etrans].
      destruct Hrun as (? & ? & ? & ?). do 3 (split; [done |]). by eapply logged_quiet.
    + injection Hrun as <- <-. split; [done |]. right; right. exists (sq_calls (qw_seq w1)), err. by right.
  - destruct (on_spend_confirmed (tq_base request) (tick w1)) as (w2 & H2 & Hq2).
    erewrite bind_run in Hrun by exact H2. destruct (audit_signing_run request true (Some h) w2) as (w3 & H3 & Hl).
    erewrite bind_run in Hrun by exact H3. injection Hrun as <- <-. split; [done |]. split; [done |]. split; [by eapply success_landed |].
    eapply logged_quiet; [| exact Hl]. by etrans.
  - apply quiet_then_throw in Hrun as [[e ->] Hq2]; [| evolve; auto with evolve]. split; [by etrans |]. left. by eapply failure_not_landed.
  - apply IH in Hrun. destruct r as [e | [result |]]; [by split; [etrans; [exact Hq | apply Hrun] | apply Hrun] | | by etrans].
    destruct Hrun as (? & ? & ? & ?). do 3 (split; [done |]). by eapply logged_quiet.
Qed.

Lemma reconcile_truth n h w result w' :
  reconcile n h w = (inr (Some result), w') → hash result = h ∧ success result = true ∧ landed h = true.
Proof.
  revert w. induction n as [| n IH]; intros w Hrun; simpl in Hrun; [done |].
  erewrite bind_run in Hrun by apply remote_run.
  destruct (getTransaction (sq_calls (qw_seq w)) h) as [err | [l | xdr |]] eqn:Hg; [| | done |];
    [| injection Hrun as <- <-; split_and!; [done | done | by eapply success_landed] |];
    (apply bind_inr in Hrun as (u & w2 & _ & Hrun); by eapply IH).
Qed.

Lemma reconcile_no_error n h w e w' : reconcile n h w ≠ (inl e, w').
Proof.
  revert w. induction n as [| n IH]; intros w Hrun; simpl in Hrun; [done |].
  erewrite bind_run in Hrun by apply remote_run.
  destruct (getTransaction _ h) as [err | [l | xdr |]]; [| done | done |]; by apply IH in Hrun.
Qed.

(** The transaction was handed to the node, and what is reported of it is true. *)
Lemma submit_cases request a tx w r w' :
  submit_and_poll request a tx w = (r, w') →
  let w0 := add_sent tx w in
  match r with
  | inr result => hash result = tx_hash tx ∧ success result = true ∧ (ledger result ≠ 0 → landed (tx_hash tx) = true) ∧ logged true (Some (tx_hash tx)) w0 w'
  | inl e => quiet w0 w' ∧ may_fail tx e
  end.
Proof.
  intros Hrun w0. unfold submit_and_poll in Hrun. set (w1 := add_sent tx (tick w)). assert (quiet w0 w1) as Hq1 by done.
  assert (send tx w = (inr (sendTransaction (sq_calls (qw_seq w)) tx), w1)) as Hsend by done.
  erewrite bind_run in Hrun by exact Hsend.
  destruct (sendTransaction (sq_calls (qw_seq w)) tx) as [err | sendRes] eqn:Hs.
  - assert (∀ e, e = re_error err ∨ e = gateway_error err → may_fail tx e) as Hnode.
    { intros e He. right; right. exists (sq_calls (qw_seq w)), err. by left. }
    destruct (isRpcGatewayTimeout err).
    + apply bind_cases in Hrun as [(e & Hr & ->) | (rec & w2 & Hr & Hrun)]; [by apply reconcile_no_error in Hr |].
      assert (quiet w0 w2) as Hq2 by (etrans; [exact Hq1 |]; eapply evolves_run; [apply quiet_reconcile | exact Hr]).
      destruct rec as [result |]; [| injection Hrun as <- <-; split; [done | by apply Hnode; right]].
      apply reconcile_truth in Hr as (Hh & Hok & Hl). destruct (audit_signing_run request true (Some (tx_hash tx)) w2) as (w3 & H3 & Hlog).
      erewrite bind_run in Hrun by exact H3. injection Hrun as <- <-. do 3 (split; [done |]); by eapply logged_quiet.
    + injection Hrun as <- <-. split; [done | by apply Hnode; left].
  - pose proof (send_hash _ _ _ Hs) as Hh. destruct (sn_status sendRes) as [| | |] eqn:Hst;
      [| | | apply quiet_then_throw in Hrun as [[e ->] Hq2]; [| evolve; auto with evolve];
             split; [by etrans | left; by eapply rejected_never_lands]].
    all: apply bind_cases in Hrun as [(e & Hr & ->) | ([result |] & w2 & Hr & Hrun)]; rewrite Hh in *; apply poll_cases in Hr;
      [split; [by etrans; [| apply Hr] | apply Hr] |
       injection Hrun as <- <-; destruct Hr as (A & B & C & D); do 3 (split; [done |]); by eapply logged_quiet |].
    all: unfold verifyLedgerSubmission in Hrun; erewrite bind_run in Hrun by apply remote_run; destruct (horizon_transaction _ _);
      [| injection Hrun as <- <-; split; [by etrans; [exact Hq1 | exact Hr] | right; left; by vm_compute]].
    all: destruct (audit_signing_run request true (Some (tx_hash tx)) (tick w2)) as (w3 & H3 & Hlog); erewrite bind_run in Hrun by exact H3;
      injection Hrun as <- <-; simpl; do 3 (split; [done |]); eapply logged_quiet; [| exact Hlog]; by etrans; [exact Hq1 | exact Hr].
Qed.

(** The call a request asks for. *)
Definition for_request (request : tx_request) (tx : built) : Prop :=
  bt_source tx = rq_sourceAddress (tq_base request) ∧ bt_contract tx = tq_contractId request ∧ bt_method tx = tq_method request ∧
  args_scval (tq_args request) (default [] (tq_argTypes request)) = inr (bt_args tx).

Lemma prepare_run request s w tx w' : prepare request s w = (inr tx, w') → for_request request tx ∧ bt_sequence tx = s + 1.
Proof.
  unfold prepare. intros (scArgs & w1 & Ha & Hrun)%bind_inr. injection Ha as Ha <-.
  erewrite bind_run in Hrun by apply remote_run. apply bind_inr in Hrun as (u & w2 & _ & Hrun). erewrite bind_run in Hrun by done.
  erewrite bind_run in Hrun by apply remote_run. apply bind_inr in Hrun as (sim & w3 & _ & Hrun).
  destruct sim as [footprint | reasons json]; [| done]. injection Hrun as Hasm <-.
  apply assembled in Hasm as (H1 & H2 & H3 & H4 & H5). simpl in *. unfold for_request. rewrite H1, H2, H3, H4, H5. done.
Qed.

(** What the handler of a failed job adds. *)
Lemma failed_run {A} request err attempt w r w' :
  ((if sf_retryable (classifySubmissionFailure err) then mret () else audit_signing request false None);;
   throwClassifiedSubmissionFailure (A := A) (classifySubmissionFailure err) attempt None) w = (r, w') →
  ∃ e, r = inl e ∧
    if sf_retryable (classifySubmissionFailure err) then exn_name e = "Error" ∧ quiet w w'
    else e = final_error err ∧ logged false None w w'.
Proof.
  unfold throwClassifiedSubmissionFailure. destruct (sf_retryable _).
  - do 2 erewrite bind_run by done. intros [= <- <-]. by eexists.
  - destruct (audit_signing_run request false None w) as (w1 & H1 & Hl). erewrite bind_run by exact H1. erewrite bind_run by done. intros [= <- <-]. by eexists.
Qed.

(** What an attempt may have done when it ends with [r]. *)
Definition told_truth (request : tx_request) (r : exn + TransactionResult) w w' : Prop :=
  ∃ sent, qw_sent w' = qw_sent w ++ sent ∧ (length sent ≤ 1)%nat ∧ Forall (for_request request) sent ∧ qw_dlq w' = qw_dlq w ∧
  ∃ rows, qw_signing w' = qw_signing w ++ rows ∧
  match r with
  | inr result => ∃ tx, sent = [tx] ∧ hash result = tx_hash tx ∧ success result = true ∧ (ledger result ≠ 0 → landed (hash result) = true) ∧
      (rows = [] ∨ ∃ walletId, rows = [SigningRow walletId true (Some (hash result))])
  | inl e => (exn_name e = "UnrecoverableError" → ∀ tx, tx ∈ sent → landed (tx_hash tx) = false ∨
                ∃ cause, node_failed tx cause ∧ sf_retryable (classifySubmissionFailure cause) = false ∧ e = final_error cause) ∧
      (rows = [] ∨ ∃ walletId, exn_name e = "UnrecoverableError" ∧ rows = [SigningRow walletId false None])
  end.

Lemma nothing_sent request e w w' : quiet w w' → told_truth request (inl e) w w'.
Proof.
  intros (H1 & H2 & H3). exists []. rewrite app_nil_r. do 2 (split; [first [done | simpl; lia] |]). split; [constructor |]. split; [done |].
  exists []. rewrite app_nil_r. split; [done |]. split; [by intros _ tx ?%elem_of_nil | by left].
Qed.

Lemma logged_rows ok h w w' : logged ok h w w' →
  ∃ rows, qw_signing w' = qw_signing w ++ rows ∧ (rows = [] ∨ ∃ walletId, rows = [SigningRow walletId ok h]).
Proof. intros (_ & _ & [H | [walletId H]]); [exists []; rewrite app_nil_r | eexists]; eauto. Qed.

(** The [try] of the job, from the world in which the number was allocated. *)
Lemma body_truth request a attempt w r w' :
  try_catch (tx ← prepare request (al_sequence a); submit_and_poll request a tx)
    (λ err, (if sf_retryable (classifySubmissionFailure err) then mret () else audit_signing request false None);;
            throwClassifiedSubmissionFailure (classifySubmissionFailure err) attempt None) w = (r, w') → told_truth request r w w'.
Proof.
  unfold try_catch. destruct ((tx ← prepare request (al_sequence a); submit_and_poll request a tx) w) as [out w1] eqn:Hbody.
  apply bind_cases in Hbody as [(err & Hp & ->) | (tx & w0 & Hp & Hs)].
  - assert (quiet w w1) as Hq by (eapply evolves_run; [apply quiet_prepare | exact Hp]). intros (e & -> & He)%failed_run.
    destruct (sf_retryable _); [apply nothing_sent; etrans; [exact Hq | apply He] |].
    destruct He as [Hn Hl]. apply (logged_quiet _ _ _ _ _ Hq) in Hl. destruct (logged_rows _ _ _ _ Hl) as (rows & Hrows & Hr).
    exists []. rewrite app_nil_r. destruct Hl as (H1 & H2 & _). do 2 (split; [first [done | simpl; lia] |]). split; [constructor |]. split; [done |].
    exists rows. split; [done |]. split; [by intros _ tx ?%elem_of_nil |]. subst e. destruct Hr as [-> | [walletId ->]]; eauto.
  - assert (quiet w w0) as (Q1 & Q2 & Q3) by (eapply evolves_run; [apply quiet_prepare | exact Hp]).
    apply prepare_run in Hp as [Hfor _]. pose proof (submit_cases _ _ _ _ _ _ Hs) as Hc. cbv zeta in Hc.
    destruct out as [err | result].
    + destruct Hc as [(C1 & C2 & C3) Hmay]. intros (e & -> & He)%failed_run. simpl in C1, C2, C3.
      exists [tx]. destruct (sf_retryable _) eqn:Hret.
      * destruct He as [Hn (D1 & D2 & D3)]. rewrite D1, C1, Q1, D3, C3, Q3. do 2 (split; [first [done | simpl; lia] |]). split; [by constructor |]. split; [done |].
        exists []. rewrite app_nil_r, D2, C2, Q2. split; [done |]. split; [by rewrite Hn | by left].
      * destruct He as [Hn Hl]. destruct (logged_rows _ _ _ _ Hl) as (rows & Hrows & Hr). destruct Hl as (D1 & D3 & _).
        rewrite D1, C1, Q1, D3, C3, Q3. do 2 (split; [first [done | simpl; lia] |]). split; [by constructor |]. split; [done |].
        exists rows. rewrite Hrows, C2, Q2. split; [done |]. split.
        -- intros _ t ->%list_elem_of_singleton. destruct Hmay as [? | [Hmay | Hmay]]; [by left | congruence | right; by exists err].
        -- subst e. destruct Hr as [-> | [walletId ->]]; eauto.
    + intros [= <- <-]. destruct Hc as (Hh & Hok & Hl & Hlog). destruct (logged_rows _ _ _ _ Hlog) as (rows & Hrows & Hr).
      destruct Hlog as (C1 & C3 & _). simpl in *. exists [tx]. rewrite C1, Q1, C3, Q3. do 2 (split; [first [done | simpl; lia] |]). split; [by constructor |]. split; [done |].
      exists rows. rewrite Hrows, Q2. split; [done |]. exists tx. rewrite Hh. eauto 6.
Qed.

Lemma attempt_truth request attempt w r w' : executeTxJob request attempt w = (r, w') → told_truth request r w w'.
Proof.
  unfold executeTxJob. intros Hrun. erewrite bind_run in Hrun by apply remote_run. assert (quiet w (tick w)) as Hq by done.
  apply bind_cases in Hrun as [(e & He & ->) | (secret & w1 & He & Hrun)]; [injection He as _ <-; by apply nothing_sent |]. injection He as _ <-.
  apply bind_cases in Hrun as [(e & He & ->) | (key & w1 & He & Hrun)]; [injection He as _ <-; by apply nothing_sent |]. injection He as _ <-.
  assert (∀ w2 o, on_seq (getNextSequenceNumber (rq_sourceAddress (tq_base request)) attempt) (tick w) = (o, w2) → quiet w w2) as Hnext.
  { intros w2 o Ho. etrans; [exact Hq |]. eapply evolves_run; [apply quiet_on_seq | exact Ho]. }
  apply bind_cases in Hrun as [(e & He & ->) | (a & w1 & He & Hrun)]; apply Hnext in He as Hq1; [by apply nothing_sent |].
  apply bind_cases in Hrun as [(e & Ht & ->) | (u & w2 & Ht & Hrun)].
  { assert (w' = w1) as -> by (destruct (negb _); by injection Ht). by apply nothing_sent. }
  assert (w2 = w1) as -> by (destruct (negb _); by injection Ht).
  apply body_truth in Hrun. destruct Hq1 as (Q1 & Q2 & Q3). unfold told_truth in *. by rewrite Q1, Q2, Q3 in Hrun.
Qed.
(** C12. An attempt of a job hands at most one transaction to the node, the call of its
    request.  When it returns, this transaction is the one it names, and it landed if the
    result has a ledger; when it fails for good, what it handed over does not land, or
    the node answered a call about it with an error outside the transient ones the code
    knows, and the failure reports exactly that error; the signing log gains at most one
    row, which says the same: under any failures of Redis, PostgreSQL, Horizon, the vault
    and the node. *)
Theorem job_reports_truth request attempt w r w' : executeTxJob request attempt w = (r, w') → told_truth request r w w'.
Proof. apply attempt_truth. Qed.
End truth.

(** ** The attempts of a job *)

Section attempts.
Context `{TE : TxEnv} (landed : string → bool) `{!NodeLaws TE landed}.
Implicit Types w : qworld.

(** At most [n] transactions, all of them the call of the request; a result names one. *)
Definition bounded (n : nat) (request : tx_request) (r : exn + TransactionResult) w w' : Prop :=
  ∃ sent, qw_sent w' = qw_sent w ++ sent ∧ (length sent ≤ n)%nat ∧ Forall (for_request request) sent ∧ qw_dlq w' = qw_dlq w ∧
  ∀ result, r = inr result → ∃ tx, last sent = Some tx ∧ hash result = tx_hash tx ∧ (ledger result ≠ 0 → landed (hash result) = true).

Lemma attempt_bounded request k w r w' : executeTxJob request k w = (r, w') → bounded 1 request r w w'.
Proof.
  intros Hrun. apply (attempt_truth landed) in Hrun as (sent & H1 & H2 & H3 & H4 & rows & _ & Hr). exists sent. do 4 (split; [done |]).
  intros result ->. destruct Hr as (tx & -> & Hh & _ & Hl & _). by exists tx.
Qed.

Lemma bounded_S n request e r w w1 w2 w' : bounded 1 request (inl e) w w1 → quiet w1 w2 → bounded n request r w2 w' → bounded (S n) request r w w'.
Proof.
  intros (s1 & A1 & A2 & A3 & A4 & _) (Q1 & _ & Q3) (s2 & B1 & B2 & B3 & B4 & B5). exists (s1 ++ s2).
  split; [by rewrite B1, Q1, A1, app_assoc |]. split; [rewrite length_app; lia |]. split; [by apply Forall_app |]. split; [congruence |].
  intros result Hr. destruct (B5 result Hr) as (tx & Htx & Hrest). exists tx. split; [| done]. rewrite last_app, Htx. done.
Qed.

Lemma bounded_le n m request r w w' : (n ≤ m)%nat → bounded n request r w w' → bounded m request r w w'.
Proof. intros Hn (s & A1 & A2 & A3). exists s. split; [done |]. split; [lia | done]. Qed.

Lemma attempts_bounded n k request w r w' : attempts_from n k request w = (r, w') → bounded n request r w w'.
Proof.
  revert k w. induction n as [| n IH]; intros k w Hrun; simpl in Hrun.
  { injection Hrun as <- <-. exists []. by rewrite app_nil_r. }
  unfold try_catch in Hrun. destruct (executeTxJob request (k + 1) w) as [[e | result] w1] eqn:He; apply attempt_bounded in He;
    [| injection Hrun as <- <-; eapply bounded_le; [| exact He]; lia].
  destruct (String.eqb _ _); [injection Hrun as <- <-; eapply bounded_le; [| exact He]; lia |].
  destruct (sf_retryable _ && _); [| injection Hrun as <- <-; eapply bounded_le; [| exact He]; lia].
  apply bind_cases in Hrun as [(e' & Hs & _) | (u & w2 & Hs & Hrun)]; [done |].
  eapply bounded_S; [exact He | | by eapply IH]. eapply evolves_run; [apply quiet_sleep | exact Hs].
Qed.

(** However a queued transaction ends, it made at most five transactions, all of them its
    own call, and none of its failures reached the dead letters. *)
Lemma queue_bounded request w r w' :
  addTransactionToQueue request w = (r, w') →
  ∃ admitted, bounded 5 admitted r w w' ∧ tq_contractId admitted = tq_contractId request ∧ tq_method admitted = tq_method request ∧ tq_args admitted = tq_args request.
Proof.
  unfold addTransactionToQueue. intros [(e & Ha & ->) | (admitted & w1 & Ha & Hrun)]%bind_cases; unfold admit_request in Ha.
  - exists request. split; [| done]. assert (quiet w w') as (Q1 & Q2 & Q3).
    { eapply evolves_run; [| exact Ha]. evolve; auto with evolve. }
    exists []. rewrite app_nil_r. split; [done |]. split; [simpl; lia |]. by split.
  - destruct (validateXdrSize request); [done |]. apply bind_inr in Ha as (base & w2 & Hl & Ha). injection Ha as <- <-.
    exists (TxRequest base (tq_contractId request) (tq_method request) (tq_args request) (tq_argTypes request)). split; [| done]. apply attempts_bounded in Hrun. assert (quiet w w2) as (Q1 & Q2 & Q3) by (eapply evolves_run; [apply quiet_on_spend | exact Hl]).
    destruct Hrun as (sent & B1 & B2 & B3 & B4 & B5). exists sent. rewrite <- Q1, <- Q3. done.
Qed.
End attempts.

(** ** Concrete jobs *)

Module queue_example.
(** Services that answer, Horizon at sequence 100 until the call [later], and a node. *)
Definition node (later : nat) (send : built → rpc_error + send_response) (get : string → rpc_error + tx_status) (found : bool) : TxEnv := {|
  tx_sequences := {| se_fate := λ _, CallOk; se_latency := λ _, 1%N; loadAccount := λ n _, inr (if Nat.ltb n later then 100 else 101);
                     lease_id := λ n, "lease-" +:+ dec (Z.of_nat n) |};
  tx_spend := {| db_error := λ _, None; redis_error := λ _, None |};
  vault_getKey := λ _ _, inr "S"; fromSecret := λ s, inr s; valid_account := λ _, true; address_scval := Some; native_scval := λ _ _, inr "v";
  invoke_operation := λ _ _ _, inr (); transaction_fee := λ _, "100"; simulateTransaction := λ _ _, inr (SimSuccess "f");
  assembleTransaction := λ t f, inr (Built (bt_source t) (bt_sequence t) (bt_fee t) (bt_contract t) (bt_method t) (bt_args t) (bt_maxTime t) (Some f));
  tx_hash := λ t, "tx-" +:+ dec (bt_sequence t);
  sendTransaction := λ _ t, send t; getTransaction := λ _ h, get h; send_json := λ _, "{status:ERROR,errorResultXdr:AAAA}";
  horizon_transaction := λ _ _, found; request_bytes := λ _, 500; MAX_XDR_BYTES := None; tx_test := false |}.

Definition pending (t : built) : rpc_error + send_response := inr (SendResponse send_PENDING ("tx-" +:+ dec (bt_sequence t))).
Definition request : tx_request := TxRequest
  {| rq_sourceAddress := "GA"; rq_userId := Some "u1"; rq_walletId := Some "w1"; rq_delegationId := None; rq_amountStroops := Some "50" |}
  "C1" "transfer" [ArgOther "50"] None.
Definition start : qworld := QWorld (empty_seqworld 1700000000000) (SpDb [] [] ∅ 1700000000000) [] [] [].
Definition sequences (w : qworld) : list Z := bt_sequence <$> qw_sent w.
Definition spent (w : qworld) : Z := default 0 (redis_get (getLifetimeKey "u1" "w1") (qw_spend w)).

Definition good : TxEnv := node 1000 pending (λ _, inr (ts_SUCCESS 7)) false.
#[export] Instance good_laws : NodeLaws good (λ _, true).
Proof. split; try done; [by intros n tx r [= <-] | by intros n tx r [= <-] | by intros tx f tx' [= <-]]. Qed.

Lemma job_reports_truth_witness :
  let out := executeTxJob (TE := good) request 1 start in
  told_truth (TE := good) (λ _, true) request out.1 start out.2 ∧ out.1 = inr {| hash := "tx-101"; ledger := 7; success := true |} ∧ spent out.2 = 50.
Proof.
  intros out. split; [| by vm_compute]. apply (job_reports_truth (TE := good) (λ _, true) request 1 start). by apply surjective_pairing.
Defined.

(** With a block reserved from 101, the transaction of a job has the number 102: the
    ledger, at 100, refuses it. *)
Lemma reserved_number_off_by_one :
  let w := set_seq (reserveSequenceBlock (SE := @tx_sequences good) "GA" 3 (qw_seq start)).2 start in
  match (reserveSequenceBlock (SE := @tx_sequences good) "GA" 3 (qw_seq start)).1 with inr r => sr_firstSequence r = 101 | inl _ => False end ∧
  sequences (executeTxJob (TE := good) request 1 w).2 = [102].
Proof. by vm_compute. Qed.

(** A connection that breaks on a submission that was received: the retry makes a second
    transaction of the same request, and both land. *)
Definition resetting : TxEnv := node 12
  (λ t, if bt_sequence t =? 101 then inl (RpcError (Error "read ECONNRESET") None) else pending t) (λ _, inr (ts_SUCCESS 7)) false.
Lemma executed_twice :
  NodeLaws resetting (λ _, true) ∧
  let out := runTestJob (TE := resetting) request start in
  sequences out.2 = [101; 102] ∧ out.1 = inr {| hash := "tx-102"; ledger := 7; success := true |}.
Proof.
  split; [| by vm_compute].
  split; simpl; try done.
  - intros n tx r. destruct (_ =? _); [done |]. by intros [= <-].
  - intros n tx r. destruct (_ =? _); [done |]. by intros [= <-].
  - by intros tx f tx' [= <-].
Qed.

(** A transaction found after a gateway timeout succeeds, and is not counted against the
    limits of its wallet. *)
Definition timing_out : TxEnv := node 1000 (λ _, inl (RpcError (Error "upstream") (Some 504))) (λ _, inr (ts_SUCCESS 7)) false.
Lemma reconciled_spend_not_counted :
  let out := executeTxJob (TE := timing_out) request 1 start in
  out.1 = inr {| hash := "tx-101"; ledger := 7; success := true |} ∧ spent out.2 = 0.
Proof. by vm_compute. Qed.

(** An unknown error while polling ends the job for good, although its transaction landed. *)
Definition stumbling : TxEnv := node 1000 pending (λ _, inl (RpcError (Error "Internal error") None)) false.
Lemma terminal_but_landed :
  NodeLaws stumbling (λ _, true) ∧
  let out := executeTxJob (TE := stumbling) request 1 start in
  out.1 = inl (UnrecoverableError "TX_SUBMISSION_UNKNOWN: Internal error") ∧ sequences out.2 = [101].
Proof. split; [| by vm_compute]. split; try done; [by intros n tx r [= <-] | by intros n tx r [= <-] | by intros tx f tx' [= <-]]. Qed.

(** Horizon also answers for transactions that failed: the job reports success. *)
Definition silent : TxEnv := node 1000 pending (λ _, inr ts_NOT_FOUND) true.
Lemma failed_transaction_reported :
  NodeLaws silent (λ _, false) ∧
  (executeTxJob (TE := silent) request 1 start).1 = inr {| hash := "tx-101"; ledger := 0; success := true |}.
Proof. split; [| by vm_compute]. split; try done; [by intros n tx r [= <-] | by intros tx f tx' [= <-]]. Qed.

(** Digits of a rejection read as an HTTP status. *)
Lemma rejection_retried :
  classifySubmissionFailure (Error "Submission failed: {status:ERROR,latestLedger:51500312}") =
  Failure "TX_RPC_TRANSIENT" "Submission failed: {status:ERROR,latestLedger:51500312}" true.
Proof. by vm_compute. Qed.
End queue_example.
