(* ===== verification/DeadLetters.v ===== *)
(** * Dead letters of the transaction queue (apps/backend/wallet/src/queue/transactionDLQ.ts)

    Entries in Redis with an index ordered by time, retry policies, automatic and manual
    replay, retention and alerts, and the theorem that a pass of the automatic replays
    replays exactly the entries that are due and records how each replay ended.  The replay function of the admin routes is a parameter: its n-th call
    returns the hash of the transaction or throws.  Metrics are left out. *)
From S2P Require Import Prelude JsLib JsCollections Services Calendar ChainClient SpendLimits Sequences TxQueue.
Local Open Scope Z_scope.

(** ** Types *)

Inductive failure_category := fc_transient | fc_permanent | fc_unknown.
Inductive dlq_status := dl_pending | dl_retrying | dl_replayed | dl_archived | dl_discarded.
#[export] Instance dlq_status_eq_dec : EqDecision dlq_status.
Proof. solve_decision. Defined.
#[export] Instance category_eq_dec : EqDecision failure_category.
Proof. solve_decision. Defined.

Record DeadLetterEntry := DeadLetter {
  de_id : string; de_originalJobId : string; de_request : tx_request; de_code : string; de_message : string; de_category : failure_category;
  de_retryable : bool; de_txHash : option string; de_attempts : Z; de_lastAttemptAt : Z; de_createdAt : Z; de_nextRetryAt : option Z;
  de_replayCount : Z; de_status : dlq_status
}.

Record RetryPolicy := Policy {
  rp_failureCode : string; rp_maxRetries : Z; rp_backoffMs : Z; rp_backoffMultiplier : Z; rp_maxBackoffMs : Z; rp_category : failure_category
}.

Inductive alert_type := al_growth_threshold | al_replay_failure | al_retention_exceeded.
Record DLQAlert := Alert { aa_type : alert_type; aa_message : string; aa_timestamp : Z; aa_count : Z }.

Definition DEFAULT_RETRY_POLICIES : list RetryPolicy := [
  Policy "TX_RPC_TRANSIENT" 5 1000 2 30000 fc_transient; Policy "TX_SEQUENCE_CONFLICT" 3 2000 2 15000 fc_transient;
  Policy "TX_POLL_TIMEOUT" 3 5000 2 30000 fc_transient; Policy "TX_MALFORMED_XDR" 0 0 1 0 fc_permanent; Policy "TX_AUTH_FAILURE" 0 0 1 0 fc_permanent;
  Policy "TX_SIMULATION_FAILED" 2 5000 2 30000 fc_unknown; Policy "TX_EXECUTION_FAILED" 0 0 1 0 fc_permanent;
  Policy "TX_SUBMISSION_REJECTED" 1 5000 2 15000 fc_unknown; Policy "TX_SUBMISSION_UNKNOWN" 1 5000 2 15000 fc_unknown].

Definition RETENTION_DAYS : Z := 30.
Definition MAX_DLQ_ENTRIES : Z := 10000.
Definition ALERT_GROWTH_THRESHOLD : Z := 1000.

Record dlworld := DlWorld {
  (** tx:dlq:ID, tx:dlq:index (members with scores, in order), tx:dlq:alerts *)
  dw_entries : jsmap (DeadLetterEntry * option Z); dw_index : list (string * Z); dw_alerts : list DLQAlert; dw_policies : list RetryPolicy;
  (** the entries replayed automatically, and by hand; calls made; the clock *)
  dw_auto : list string; dw_manual : list string; dw_calls : nat; dw_now : Z
}.

Class DeadLetterEnv := {
  dl_fate : nat → call_fate;
  dl_latency : nat → N;
  replayFn : nat → tx_request → exn + string
}.

(** ** Sorted sets *)

Definition zbefore (a b : string * Z) : bool := (a.2 <? b.2) || (a.2 =? b.2) && String.leb a.1 b.1.
Fixpoint zinsert (x : string * Z) (l : list (string * Z)) : list (string * Z) :=
  match l with [] => [x] | y :: l' => if zbefore x y then x :: l else y :: zinsert x l' end.
Definition zrem (id : string) (l : list (string * Z)) : list (string * Z) := List.filter (λ x, negb (String.eqb x.1 id)) l.
Definition zadd (score : Z) (id : string) (l : list (string * Z)) : list (string * Z) := zinsert (id, score) (zrem id l).

Section dead_letters.
Context `{DE : DeadLetterEnv}.
Implicit Types w : dlworld.

Definition set_entries (f : jsmap (DeadLetterEntry * option Z) → jsmap (DeadLetterEntry * option Z)) (g : list (string * Z) → list (string * Z)) w : dlworld :=
  DlWorld (f (dw_entries w)) (g (dw_index w)) (dw_alerts w) (dw_policies w) (dw_auto w) (dw_manual w) (dw_calls w) (dw_now w).
Definition set_alerts (f : list DLQAlert → list DLQAlert) w : dlworld :=
  DlWorld (dw_entries w) (dw_index w) (f (dw_alerts w)) (dw_policies w) (dw_auto w) (dw_manual w) (dw_calls w) (dw_now w).
Definition set_policies (l : list RetryPolicy) w : dlworld :=
  DlWorld (dw_entries w) (dw_index w) (dw_alerts w) l (dw_auto w) (dw_manual w) (dw_calls w) (dw_now w).
Definition note_replay (auto : bool) (id : string) w : dlworld :=
  DlWorld (dw_entries w) (dw_index w) (dw_alerts w) (dw_policies w) (if auto then dw_auto w ++ [id] else dw_auto w)
    (if auto then dw_manual w else dw_manual w ++ [id]) (dw_calls w) (dw_now w).
Definition let_pass (ms : Z) w : dlworld :=
  DlWorld (dw_entries w) (dw_index w) (dw_alerts w) (dw_policies w) (dw_auto w) (dw_manual w) (dw_calls w) (dw_now w + ms).
Definition count_dlq_call w : dlworld :=
  DlWorld (dw_entries w) (dw_index w) (dw_alerts w) (dw_policies w) (dw_auto w) (dw_manual w) (S (dw_calls w)) (dw_now w + Z.of_N (dl_latency (dw_calls w))).

#[export] Instance dlq_services : Services dlworld := {| next_fate := λ w, dl_fate (dw_calls w); tick := count_dlq_call |}.

Definition stored (id : string) w : option DeadLetterEntry := rget (dw_now w) id (dw_entries w).

(** ** Policies *)

Definition getRetryPolicy (code : string) w : option RetryPolicy := find (λ p, String.eqb (rp_failureCode p) code) (dw_policies w).
Definition categorizeFailure (code : string) w : failure_category := match getRetryPolicy code w with Some p => rp_category p | None => fc_unknown end.
Definition backoff (p : RetryPolicy) (attempts : Z) : Z := Z.min (rp_backoffMs p * rp_backoffMultiplier p ^ attempts) (rp_maxBackoffMs p).

(** ** Entries *)

(** SET tx:dlq:ID EX thirty days *)
Definition store_entry (e : DeadLetterEntry) : M dlworld () :=
  write (λ w, set_entries (jset (de_id e) (e, Some (dw_now w + RETENTION_DAYS * 86400 * 1000))) id w).

Definition recordAlert (a : DLQAlert) : M dlworld () :=
  try_catch (write (set_alerts (λ l, l ++ [a]));; write (set_alerts (last_entries 100))) (λ _, mret ()).

Definition drop_entries (ids : list string) w : dlworld := set_entries (λ m, foldr jdel m ids) (λ l, foldr zrem l ids) w.

Definition new_entry (id originalJobId : string) (request : tx_request) (failure : SubmissionFailure) (txHash : option string) (attempts now : Z) w : DeadLetterEntry := {|
  de_id := id; de_originalJobId := originalJobId; de_request := request; de_code := sf_code failure; de_message := sf_message failure;
  de_category := categorizeFailure (sf_code failure) w; de_retryable := sf_retryable failure; de_txHash := txHash; de_attempts := attempts;
  de_lastAttemptAt := now; de_createdAt := now;
  de_nextRetryAt := match getRetryPolicy (sf_code failure) w with Some p => if 0 <? rp_maxRetries p then Some (now + backoff p attempts) else None | None => None end;
  de_replayCount := 0; de_status := dl_pending |}.

Definition addToDLQ (id originalJobId : string) (request : tx_request) (failure : SubmissionFailure) (txHash : option string) (attempts : Z) : M dlworld DeadLetterEntry :=
  now ← gets dw_now;
  entry ← gets (new_entry id originalJobId request failure txHash attempts now);
  try_catch
    (store_entry entry;;
     now' ← gets dw_now;
     write (set_entries Datatypes.id (zadd now' id));;
     count ← ask (λ w, Z.of_nat (length (dw_index w)));
     (if MAX_DLQ_ENTRIES <? count then
        toEvict ← ask (λ w, (take (Z.to_nat (count - MAX_DLQ_ENTRIES)) (dw_index w)).*1);
        write (drop_entries toEvict)
      else mret ());;
     if ALERT_GROWTH_THRESHOLD <=? count then
       at_ ← gets dw_now;
       recordAlert (Alert al_growth_threshold ("DLQ has " +:+ dec count +:+ " entries, exceeding threshold of " +:+ dec ALERT_GROWTH_THRESHOLD) at_ count)
     else mret ())
    (λ _, mret ());;
  mret entry.

(** An error of Redis reads as a missing entry. *)
Definition getDLQEntry (id : string) : M dlworld (option DeadLetterEntry) := try_catch (ask (stored id)) (λ _, mret None).

Definition removeDLQEntry (id : string) : M dlworld bool :=
  try_catch (write (set_entries (jdel id) Datatypes.id);; write (set_entries Datatypes.id (zrem id));; mret true) (λ _, mret false).

(** ** Replay *)

Definition retriable (now : Z) (policies : dlworld) (e : DeadLetterEntry) : bool :=
  bool_decide (de_status e = dl_pending) &&
  match getRetryPolicy (de_code e) policies with
  | Some p => (0 <? rp_maxRetries p) && negb (rp_maxRetries p <=? de_attempts e) &&
              match de_nextRetryAt e with Some t => negb (now <? t) | None => true end
  | None => false
  end.

Fixpoint retriable_from (now : Z) (ids : list string) : M dlworld (list DeadLetterEntry) :=
  match ids with
  | [] => mret []
  | id :: ids' =>
      entry ← getDLQEntry id;
      keep ← gets (λ w, match entry with Some e => if retriable now w e then [e] else [] | None => [] end);
      rest ← retriable_from now ids';
      mret (keep ++ rest)
  end.

Definition getRetriableEntries : M dlworld (list DeadLetterEntry) :=
  ids ← ask (λ w, (dw_index w).*1);
  now ← gets dw_now;
  retriable_from now ids.

Definition retrying (now : Z) (w : dlworld) (e : DeadLetterEntry) : DeadLetterEntry :=
  let attempts := de_attempts e + 1 in {|
  de_id := de_id e; de_originalJobId := de_originalJobId e; de_request := de_request e; de_code := de_code e; de_message := de_message e;
  de_category := de_category e; de_retryable := de_retryable e; de_txHash := de_txHash e; de_attempts := attempts; de_lastAttemptAt := now;
  de_createdAt := de_createdAt e;
  de_nextRetryAt := match getRetryPolicy (de_code e) w with
                    | Some p => if attempts <? rp_maxRetries p then Some (now + backoff p attempts) else de_nextRetryAt e
                    | None => de_nextRetryAt e
                    end;
  de_replayCount := de_replayCount e; de_status := dl_retrying |}.

Definition with_dlq_status (s : dlq_status) (replays : Z) (txHash : option string) (e : DeadLetterEntry) : DeadLetterEntry := {|
  de_id := de_id e; de_originalJobId := de_originalJobId e; de_request := de_request e; de_code := de_code e; de_message := de_message e;
  de_category := de_category e; de_retryable := de_retryable e; de_txHash := txHash; de_attempts := de_attempts e;
  de_lastAttemptAt := de_lastAttemptAt e; de_createdAt := de_createdAt e; de_nextRetryAt := de_nextRetryAt e;
  de_replayCount := de_replayCount e + replays; de_status := s |}.

(** Reads the entry and writes it back changed. *)
Definition update_entry (id : string) (f : dlworld → DeadLetterEntry → DeadLetterEntry) : M dlworld () :=
  entry ← getDLQEntry id;
  match entry with
  | None => mret ()
  | Some e => e' ← gets (λ w, f w e); store_entry e'
  end.

Definition markAsRetrying (id : string) : M dlworld () := update_entry id (λ w e, retrying (dw_now w) w e).
Definition markAsReplayed (id txHash : string) : M dlworld () := update_entry id (λ _ e, with_dlq_status dl_replayed 1 (Some txHash) e).
Definition markAsArchived (id : string) : M dlworld () := update_entry id (λ _ e, with_dlq_status dl_archived 0 (de_txHash e) e).
Definition markAsDiscarded (id : string) : M dlworld () := update_entry id (λ _ e, with_dlq_status dl_discarded 0 (de_txHash e) e).

(** A call of the replay function for an entry. *)
Definition replay (auto : bool) (id : string) (request : tx_request) : M dlworld string :=
  n ← gets dw_calls;
  modify (λ w, note_replay auto id (tick w));;
  answer (replayFn n request).

Definition replay_entry (auto : bool) (id : string) (request : tx_request) : M dlworld string :=
  markAsRetrying id;;
  txHash ← replay auto id request;
  markAsReplayed id txHash;;
  mret txHash.

Fixpoint auto_replays (entries : list DeadLetterEntry) (replayed failed skipped : Z) : M dlworld (Z * Z * Z) :=
  match entries with
  | [] => mret (replayed, failed, skipped)
  | e :: entries' =>
      if negb (bool_decide (de_category e = fc_transient)) then auto_replays entries' replayed failed (skipped + 1)
      else
        ok ← try_catch (replay_entry true (de_id e) (de_request e);; mret true) (λ _, mret false);
        if ok : bool then auto_replays entries' (replayed + 1) failed skipped else auto_replays entries' replayed (failed + 1) skipped
  end.

Definition processAutoReplays : M dlworld (Z * Z * Z) :=
  entries ← getRetriableEntries;
  auto_replays entries 0 0 0.

(** The error or the hash of a manual replay. *)
Definition manualReplay (id : string) : M dlworld (exn + string) :=
  entry ← getDLQEntry id;
  match entry with
  | None => mret (inl (Error "DLQ entry not found"))
  | Some e => try_catch (h ← replay_entry false id (de_request e); mret (inr h)) (λ err, mret (inl err))
  end.

(** ** Administration *)

Definition archiveEntry (id : string) : M dlworld bool :=
  entry ← getDLQEntry id;
  match entry with None => mret false | Some _ => markAsArchived id;; mret true end.
Definition discardEntry (id : string) : M dlworld bool :=
  entry ← getDLQEntry id;
  match entry with None => mret false | Some _ => markAsDiscarded id;; mret true end.

Definition getAlerts (limit : nat) : M dlworld (list DLQAlert) := try_catch (ask (λ w, last_entries limit (dw_alerts w))) (λ _, mret []).

Definition enforceRetentionPolicy : M dlworld Z :=
  now ← gets dw_now;
  let cutoff := now - RETENTION_DAYS * 86400 * 1000 in
  ids ← ask (λ w, (List.filter (λ x, (0 <=? x.2) && (x.2 <=? cutoff)) (dw_index w)).*1);
  (if bool_decide (ids = []) then mret () else write (drop_entries ids));;
  mret (Z.of_nat (length ids)).

Definition setRetryPolicies (l : list RetryPolicy) : M dlworld () := modify (set_policies l).
End dead_letters.

(** ** Histories *)

Inductive dlq_op :=
  | d_add (id originalJobId : string) (request : tx_request) (failure : SubmissionFailure) (txHash : option string) (attempts : Z)
  | d_remove (id : string) | d_auto | d_manual (id : string) | d_archive (id : string) | d_discard (id : string) | d_retention
  | d_policies (l : list RetryPolicy) | d_wait (ms : N).

Section histories.
Context `{DE : DeadLetterEnv}.
Implicit Types w : dlworld.

Definition dlq_step (op : dlq_op) w : dlworld :=
  match op with
  | d_add id job request failure txHash attempts => (addToDLQ id job request failure txHash attempts w).2
  | d_remove id => (removeDLQEntry id w).2
  | d_auto => (processAutoReplays w).2
  | d_manual id => (manualReplay id w).2
  | d_archive id => (archiveEntry id w).2
  | d_discard id => (discardEntry id w).2
  | d_retention => (enforceRetentionPolicy w).2
  | d_policies l => (setRetryPolicies l w).2
  | d_wait ms => let_pass (Z.of_N ms) w
  end.
Definition dlq_run (ops : list dlq_op) w : dlworld := foldl (λ w op, dlq_step op w) w ops.
Definition empty_dlworld (now : Z) : dlworld := DlWorld [] [] [] DEFAULT_RETRY_POLICIES [] [] 0 now.

Record dlq_wf w : Prop := {
  wf_index : NoDup (dw_index w).*1;
  wf_keys id e x : jget id (dw_entries w) = Some (e, x) → de_id e = id
}.

Definition keeps_wf w w' : Prop := dlq_wf w → dlq_wf w'.
#[export] Instance keeps_wf_preorder : PreOrder keeps_wf.
Proof. split; [by intros w | intros w1 w2 w3 A B]. unfold keeps_wf in *. auto. Qed.

(** Entries that are missing later were expired or removed. *)
Lemma wf_less w w' :
  (∀ id v, jget id (dw_entries w') = Some v → jget id (dw_entries w) = Some v) →
  (NoDup (dw_index w).*1 → NoDup (dw_index w').*1) → keeps_wf w w'.
Proof. intros He Hi [H1 H2]. split; [auto |]. intros id e x Hid. eapply H2; eauto. Qed.

Lemma wf_tick w : keeps_wf w (tick w).
Proof. by apply wf_less. Qed.

Lemma wf_write g : (∀ w, keeps_wf w (g w)) → evolves keeps_wf (write g).
Proof. apply write_evolves; [apply _ | apply wf_tick]. Qed.

Lemma wf_ask {A} (g : dlworld → A) : evolves keeps_wf (ask g).
Proof. apply ask_evolves; [apply _ | apply wf_tick]. Qed.

(** An entry is written at its own key. *)
Lemma wf_store e : evolves keeps_wf (store_entry e).
Proof.
  apply wf_write. intros w [H1 H2]. split; [done |]. intros id e' x. simpl. rewrite jget_jset. case_decide; [by intros [= <- _] | by eapply H2].
Qed.

Lemma jget_foldr_jdel {V} ids k (m : jsmap V) v : jget k (foldr jdel m ids) = Some v → jget k m = Some v.
Proof. induction ids as [| d ids IH]; simpl; [done |]. rewrite jget_jdel. case_decide; [done | auto]. Qed.

Lemma zrem_sublist id l : sublist (zrem id l) l.
Proof. unfold zrem. induction l as [| x l IH]; simpl; [done |]. destruct (negb _); [by apply sublist_skip | by apply sublist_cons]. Qed.

Lemma NoDup_sublist_fst (l l' : list (string * Z)) : sublist l l' → NoDup l'.*1 → NoDup l.*1.
Proof. intros Hs Hn. eapply sublist_NoDup; [exact Hn | by apply fmap_sublist]. Qed.

Lemma NoDup_foldr_zrem ids l : NoDup l.*1 → NoDup (foldr zrem l ids).*1.
Proof. intros H. induction ids as [| d ids IH]; simpl; [done |]. eapply NoDup_sublist_fst; [apply zrem_sublist | done]. Qed.

Lemma zinsert_perm x l : zinsert x l ≡ₚ x :: l.
Proof. induction l as [| y l IH]; simpl; [done |]. destruct (zbefore x y); [done |]. rewrite IH. apply Permutation_swap. Qed.

Lemma NoDup_zadd s id l : NoDup l.*1 → NoDup (zadd s id l).*1.
Proof.
  intros H. unfold zadd. rewrite zinsert_perm. simpl. constructor; [| eapply NoDup_sublist_fst; [apply zrem_sublist | done]].
  intros ([y z] & Hy & Hin)%list_elem_of_fmap. simpl in Hy. subst y. apply list_elem_of_In, List.filter_In in Hin as [_ Hd]. simpl in Hd. by rewrite String.eqb_refl in Hd.
Qed.

Lemma wf_drop ids w : keeps_wf w (drop_entries ids w).
Proof. apply wf_less; [intros k v; apply jget_foldr_jdel | apply NoDup_foldr_zrem]. Qed.

Lemma wf_alert a : evolves keeps_wf (recordAlert a).
Proof. unfold recordAlert. evolve; apply wf_write; intros w; by apply wf_less. Qed.

Lemma wf_get id : evolves keeps_wf (getDLQEntry id).
Proof. unfold getDLQEntry. evolve. apply wf_ask. Qed.

Lemma wf_replay auto id request : evolves keeps_wf (replay auto id request).
Proof. unfold replay. evolve. intros w. etrans; [apply wf_tick |]. by apply wf_less. Qed.
End histories.

#[export] Hint Resolve wf_ask wf_get wf_alert wf_store wf_replay : evolve.

Section operations.
Context `{DE : DeadLetterEnv}.
Implicit Types w : dlworld.

Lemma wf_add id job request failure txHash attempts : evolves keeps_wf (addToDLQ id job request failure txHash attempts).
Proof.
  unfold addToDLQ. evolve; auto with evolve; apply wf_write; intros w.
  - apply wf_less; [done | apply NoDup_zadd].
  - apply wf_drop.
Qed.

Lemma wf_remove id : evolves keeps_wf (removeDLQEntry id).
Proof.
  unfold removeDLQEntry. evolve; apply wf_write; intros w; apply wf_less; try done.
  - intros k v. simpl. rewrite jget_jdel. by case_decide.
  - intros Hn. eapply NoDup_sublist_fst; [apply zrem_sublist | done].
Qed.

Lemma wf_update id f : evolves keeps_wf (update_entry id f).
Proof. unfold update_entry. evolve; auto with evolve. Qed.

Lemma wf_replay_entry auto id request : evolves keeps_wf (replay_entry auto id request).
Proof. unfold replay_entry, markAsRetrying, markAsReplayed. evolve; auto using wf_update with evolve. Qed.
#[local] Hint Resolve wf_replay_entry wf_update : evolve.

Lemma wf_retriable now ids : evolves keeps_wf (retriable_from now ids).
Proof. induction ids as [| id ids IH]; simpl; evolve; auto with evolve. Qed.

Lemma wf_loop entries a b c : evolves keeps_wf (auto_replays entries a b c).
Proof. revert a b c. induction entries as [| e l IH]; intros a b c; simpl; evolve; auto with evolve. Qed.
#[local] Hint Resolve wf_retriable wf_loop : evolve.

Lemma wf_step op w : keeps_wf w (dlq_step op w).
Proof.
  destruct op; simpl.
  - apply wf_add.
  - apply wf_remove.
  - unfold processAutoReplays, getRetriableEntries. by_evolve; auto with evolve.
  - unfold manualReplay. by_evolve; auto with evolve.
  - unfold archiveEntry, markAsArchived. by_evolve; auto with evolve.
  - unfold discardEntry, markAsDiscarded. by_evolve; auto with evolve.
  - unfold enforceRetentionPolicy. by_evolve; auto with evolve. apply wf_write. intros w'. apply wf_drop.
  - by apply wf_less.
  - by apply wf_less.
Qed.

Lemma wf_history ops now : dlq_wf (dlq_run ops (empty_dlworld now)).
Proof.
  unfold dlq_run. generalize (empty_dlworld now), (Build_dlq_wf (empty_dlworld now) NoDup_nil_2 ltac:(done)).
  induction ops as [| op ops IH]; intros w Hw; simpl; [done |]. by apply IH, wf_step.
Qed.
End operations.

Section answering.
Context `{DE : DeadLetterEnv} (answers : ∀ n, dl_fate n = CallOk).
Implicit Types w : dlworld.

Lemma get_answers id w : getDLQEntry id w = (inr (stored id (tick w)), tick w).
Proof. unfold getDLQEntry, try_catch, ask, call. simpl next_fate. by rewrite answers. Qed.

Lemma store_answers e w : store_entry e w = (inr (), set_entries (jset (de_id e) (e, Some (dw_now (tick w) + RETENTION_DAYS * 86400 * 1000))) id (tick w)).
Proof. unfold store_entry, write, call. simpl next_fate. by rewrite answers. Qed.

Lemma stored_key id e w : dlq_wf w → stored id w = Some e → de_id e = id.
Proof.
  intros Hw. unfold stored, rget. destruct (jget id (dw_entries w)) as [[e' x] |] eqn:Hg; [| done]. destruct (unexpired _ _); [| done].
  intros [= ->]. by eapply wf_keys.
Qed.

End answering.

(** ** One pass of the automatic replays *)

(** What becomes of an entry whose replay starts at [t]: a replay that throws leaves it
    retrying, one that returns makes it replayed with the hash. *)
Definition after_replay (policies : dlworld) (t : Z) (outcome : exn + string) (e : DeadLetterEntry) : DeadLetterEntry :=
  let e1 := retrying t policies e in
  match outcome with inl _ => e1 | inr h => with_dlq_status dl_replayed 1 (Some h) e1 end.

Definition replay_ok (outcome : exn + string) : bool := match outcome with inr _ => true | inl _ => false end.
Definition transient (e : DeadLetterEntry) : bool := bool_decide (de_category e = fc_transient).

Section pass.
Context `{DE : DeadLetterEnv} (answers : ∀ n, dl_fate n = CallOk).
Implicit Types w : dlworld.

Definition retention_ms : Z := RETENTION_DAYS * 86400 * 1000.

(** The clock does not go back; policies and index are left alone. *)
Definition onward w w' : Prop := dw_now w ≤ dw_now w' ∧ dw_policies w' = dw_policies w ∧ dw_index w' = dw_index w.
#[local] Instance onward_preorder : PreOrder onward.
Proof. split; [by intros w | intros w1 w2 w3 (A & B & C) (D & E & F)]. unfold onward. rewrite E, F. split_and!; [lia | done | done]. Qed.

Lemma onward_tick w : onward w (tick w).
Proof. split; [simpl; lia | done]. Qed.
Lemma onward_get id : evolves onward (getDLQEntry id).
Proof. unfold getDLQEntry. evolve. apply ask_evolves; [apply _ | apply onward_tick]. Qed.
Lemma onward_update id f : evolves onward (update_entry id f).
Proof. unfold update_entry, store_entry. evolve; [apply onward_get |]. apply write_evolves; [apply _ | apply onward_tick | done]. Qed.
Lemma onward_replay id request : evolves onward (replay_entry true id request).
Proof.
  unfold replay_entry, replay. evolve; try apply onward_update. intros w. etrans; [apply onward_tick | done].
Qed.
Lemma onward_loop entries a b c : evolves onward (auto_replays entries a b c).
Proof. revert a b c. induction entries as [| e l IH]; intros a b c; simpl; [evolve |]. evolve; auto. apply onward_replay. Qed.

(** Every entry outlives the time [T]. *)
Definition lasting (T : Z) w : Prop := ∀ id e x, jget id (dw_entries w) = Some (e, x) → unexpired T x = true.

Lemma unexpired_earlier t T x : t ≤ T → unexpired T x = true → unexpired t x = true.
Proof. destruct x as [x |]; [| done]. simpl. rewrite !Z.ltb_lt. lia. Qed.

Lemma stored_lasting T id w : lasting T w → dw_now w ≤ T → stored id w = fst <$> jget id (dw_entries w).
Proof.
  intros Hl Ht. unfold stored, rget. destruct (jget id (dw_entries w)) as [[e x] |] eqn:E; [| done].
  by rewrite (unexpired_earlier _ T) by eauto.
Qed.

(** Writing an entry back, while nothing expires. *)
Lemma update_entry_run T id f e w :
  lasting T w → dlq_wf w → fst <$> jget id (dw_entries w) = Some e → (∀ w0, de_id (f w0 e) = de_id e) →
  T < dw_now w + retention_ms → dw_now (update_entry id f w).2 ≤ T →
  ∃ w', update_entry id f w = (inr (), w') ∧ onward w w' ∧ lasting T w' ∧ dlq_wf w' ∧
    fst <$> jget id (dw_entries w') = Some (f (tick w) e) ∧ dw_auto w' = dw_auto w ∧
    ∀ j, j ≠ id → jget j (dw_entries w') = jget j (dw_entries w).
Proof.
  intros Hl Hw He Hf Hret HT. pose proof (onward_update id f w) as Hon. unfold update_entry in *.
  assert (dw_now (tick w) ≤ T) as Ht1.
  { erewrite bind_run in HT by apply get_answers, answers. destruct (stored id (tick w)); [| done].
    erewrite bind_run, store_answers in HT by done. simpl in *. lia. }
  assert (stored id (tick w) = Some e) as Hs by (rewrite (stored_lasting T); done).
  assert (de_id e = id) as Hid.
  { destruct (jget id (dw_entries w)) as [[e0 x0] |] eqn:E; [| done]. injection He as ->. by eapply wf_keys. }
  erewrite bind_run in * by apply get_answers, answers. rewrite Hs in *. erewrite bind_run, store_answers in * by done.
  eexists. split; [done |]. split; [exact Hon |]. rewrite Hf, Hid in *. split; [| split; [| split; [| split; [done |]]]].
  - intros j e' x. simpl. rewrite jget_jset. case_decide; [| by apply Hl]. intros [= _ <-]. simpl. apply Z.ltb_lt. unfold retention_ms, RETENTION_DAYS in *. lia.
  - destruct Hw as [W1 W2]. split; [done |]. intros j e' x. simpl. rewrite jget_jset. case_decide; [| by apply W2]. subst j. intros [= <- _]. by rewrite Hf.
  - simpl. by rewrite jget_jset_eq.
  - intros j Hj. simpl. rewrite jget_jset. by case_decide.
Qed.

(** One replay: marked, called once, and recorded as it ended. *)
Lemma replay_exact T e w :
  let id := de_id e in
  lasting T w → dlq_wf w → fst <$> jget id (dw_entries w) = Some e →
  T < dw_now w + retention_ms → dw_now (replay_entry true id (de_request e) w).2 ≤ T →
  ∃ t n outcome w', replay_entry true id (de_request e) w = (outcome, w') ∧ dw_now w ≤ t ∧ replayFn n (de_request e) = outcome ∧
    onward w w' ∧ lasting T w' ∧ dlq_wf w' ∧ dw_auto w' = dw_auto w ++ [id] ∧
    fst <$> jget id (dw_entries w') = Some (after_replay w t outcome e) ∧ ∀ j, j ≠ id → jget j (dw_entries w') = jget j (dw_entries w).
Proof.
  intros id Hl Hw He Hret HT. pose proof (onward_replay id (de_request e) w) as Hon. unfold replay_entry, markAsRetrying, replay in *.
  set (f := λ w e, retrying (dw_now w) w e) in *.
  assert (dw_now (update_entry id f w).2 ≤ T) as HT1.
  { etrans; [| exact HT]. unfold mbind, M_bind at 1. destruct (update_entry id f w) as [[x | []] w1]; [done |].
    assert (evolves onward (h ← (n ← gets dw_calls; modify (λ w, note_replay true id (tick w));; answer (replayFn n (de_request e))); markAsReplayed id h;; mret h)) as Hev.
    { evolve; try apply onward_update. intros w0. etrans; [apply onward_tick | done]. }
    apply (Hev w1). }
  destruct (update_entry_run T id f e w Hl Hw He (λ _, eq_refl) Hret HT1) as (w1 & E1 & O1 & L1 & W1 & J1 & A1 & F1).
  erewrite bind_run in * by exact E1. rewrite bind_assoc_run in *. erewrite bind_run in * by done. rewrite bind_assoc_run in *. erewrite bind_run in * by done.
  set (w2 := note_replay true id (tick w1)) in *. assert (onward w1 w2) as O2 by (etrans; [apply (onward_tick w1) | done]).
  exists (dw_now (tick w)), (dw_calls w1). unfold answer in *. destruct (replayFn (dw_calls w1) (de_request e)) as [err | h] eqn:Hf.
  - eexists _, _. split; [done |]. split; [simpl; lia |]. split; [done |]. split; [exact Hon |]. split; [exact L1 |]. split; [by destruct W1; split |].
    split; [simpl; by rewrite A1 |]. done.
  - erewrite bind_run in * by done. unfold markAsReplayed in *. set (g := λ (_ : dlworld) e, with_dlq_status dl_replayed 1 (Some h) e) in *.
    assert (dw_now (update_entry id g w2).2 ≤ T) as HT2.
    { etrans; [| exact HT]. unfold mbind, M_bind. by destruct (update_entry id g w2) as [[x | []] w3]. }
    destruct (update_entry_run T id g (f (tick w) e) w2 L1) as (w3 & E3 & O3 & L3 & W3 & J3 & A3 & F3);
      [by destruct W1; split | exact J1 | done | | exact HT2 |]; [destruct O1 as (? & _), O2 as (? & _); lia |].
    erewrite bind_run in * by exact E3. eexists _, _. split; [done |]. split; [simpl; lia |]. split; [done |]. split; [exact Hon |]. split; [exact L3 |]. split; [exact W3 |].
    split; [rewrite A3; simpl; by rewrite A1 |]. split; [exact J3 |]. intros j Hj. rewrite F3 by done. by apply F1.
Qed.

(** How the replays of the transient entries ended, and what is stored then. *)
Definition replays_done (policies w' : dlworld) (due : list DeadLetterEntry) (outcomes : list (exn + string)) : Prop :=
  Forall2 (λ e o, ∃ t n, replayFn n (de_request e) = o ∧ stored (de_id e) w' = Some (after_replay policies t o e)) due outcomes.

Lemma retrying_policies w w' t e : dw_policies w' = dw_policies w → retrying t w' e = retrying t w e.
Proof. intros H. unfold retrying, getRetryPolicy. by rewrite H. Qed.

Lemma loop_exact T entries a b c w :
  lasting T w → dlq_wf w → NoDup (de_id <$> entries) → Forall (λ e, fst <$> jget (de_id e) (dw_entries w) = Some e) entries →
  T < dw_now w + retention_ms → dw_now (auto_replays entries a b c w).2 ≤ T →
  let due := List.filter transient entries in
  ∃ outcomes w', auto_replays entries a b c w =
      (inr (a + Z.of_nat (length (List.filter replay_ok outcomes)), b + Z.of_nat (length (List.filter (λ o, negb (replay_ok o)) outcomes)),
            c + Z.of_nat (length (List.filter (λ e, negb (transient e)) entries))), w') ∧
    lasting T w' ∧ dlq_wf w' ∧ dw_auto w' = dw_auto w ++ (de_id <$> due) ∧
    Forall2 (λ e o, ∃ t n, replayFn n (de_request e) = o ∧ fst <$> jget (de_id e) (dw_entries w') = Some (after_replay w t o e)) due outcomes ∧
    ∀ id, id ∉ de_id <$> due → jget id (dw_entries w') = jget id (dw_entries w).
Proof.
  revert a b c w. induction entries as [| e entries IH]; intros a b c w Hl Hw Hn Hall Hret HT due.
  { exists [], w. simpl. rewrite !Z.add_0_r, app_nil_r. by split_and!. }
  simpl in Hn. apply NoDup_cons in Hn as [Hfresh Hn]. apply Forall_cons in Hall as [He Hall]. subst due. cbn [auto_replays List.filter] in *.
  change (bool_decide (de_category e = fc_transient)) with (transient e) in *. destruct (transient e) eqn:Htr; cbn [negb] in *.
  2: { destruct (IH a b (c + 1) w Hl Hw Hn Hall Hret HT) as (os & w' & E & H). exists os, w'. split; [| done].
       rewrite E. simpl length. do 3 f_equal. lia. }
  assert (dw_now (replay_entry true (de_id e) (de_request e) w).2 ≤ T) as HT1.
  { etrans; [| exact HT]. unfold mbind, M_bind, try_catch. destruct (replay_entry _ _ _ w) as [[x | h] w1]; simpl; apply onward_loop. }
  destruct (replay_exact T e w Hl Hw He Hret HT1) as (t & n & o & w1 & E1 & Ht & Hf & O1 & L1 & W1 & A1 & J1 & F1).
  assert (Forall (λ e, fst <$> jget (de_id e) (dw_entries w1) = Some e) entries) as Hall1.
  { rewrite Forall_forall in Hall |- *. intros e' He'. rewrite F1; [by apply Hall |]. intros Heq. apply Hfresh. rewrite <- Heq. by apply list_elem_of_fmap_2. }
  assert (T < dw_now w1 + retention_ms) as Hret1 by (destruct O1 as (? & _); lia).
  clear HT1. unfold mbind, M_bind, try_catch in *. rewrite E1 in *. destruct o as [x | h]; cbn -[List.filter] in HT |- *;
    (destruct (IH _ _ _ w1 L1 W1 Hn Hall1 Hret1 HT) as (os & w' & E2 & L2 & W2 & A2 & J2 & F2)).
  all: exists (replayFn n (de_request e) :: os), w'; rewrite E2, Hf; simpl.
  all: split; [do 4 f_equal; lia |]; split; [done |]; split; [done |]; split; [by rewrite A2, A1, <- app_assoc |].
  all: split; [| intros id Hid; rewrite F2, F1; [done | |]; intros Hx; apply Hid; [subst; by left | by right]].
  all: constructor; [exists t, n; split; [done |]; rewrite F2; [done |]; intros Hx; apply Hfresh;
      apply list_elem_of_fmap in Hx as (e' & -> & Hin); apply list_elem_of_fmap_2; apply list_elem_of_In in Hin; apply List.filter_In in Hin as [Hin _]; by apply list_elem_of_In |].
  all: eapply Forall2_impl; [exact J2 |]; intros e' o' (t' & n' & Hf' & Hj'); exists t', n'; split; [done |]; rewrite Hj'; unfold after_replay;
    by rewrite (retrying_policies w w1) by apply O1.
Qed.

(** Reading the entries of the index. *)
Lemma select_exact T now ids w :
  lasting T w → dw_now (retriable_from now ids w).2 ≤ T →
  ∃ w', retriable_from now ids w = (inr (List.filter (retriable now w) (omap (λ id, fst <$> jget id (dw_entries w)) ids)), w') ∧
    onward w w' ∧ dw_entries w' = dw_entries w ∧ dw_auto w' = dw_auto w.
Proof.
  revert w. induction ids as [| id ids IH]; intros w Hl HT; [by exists w |]. cbn [retriable_from] in *.
  erewrite bind_run in * by apply get_answers, answers. erewrite bind_run in * by done.
  assert (evolves onward (retriable_from now ids)) as Hev.
  { clear. induction ids as [| id ids IH]; simpl; [evolve |]. apply evolves_bind; [apply _ | apply onward_get |]. intros. evolve; auto. }
  assert (dw_now (retriable_from now ids (tick w)).2 ≤ T) as HT1.
  { etrans; [| exact HT]. unfold mbind, M_bind. by destruct (retriable_from now ids (tick w)) as [[x | l] w1]. }
  assert (dw_now (tick w) ≤ T) as Ht by (etrans; [apply (Hev (tick w)) | exact HT1]).
  assert (lasting T (tick w)) as Hl1 by (unfold lasting; exact Hl).
  destruct (IH (tick w) Hl1 HT1) as (w' & E & O & J & A). erewrite bind_run by exact E. exists w'. split; [| split; [| done]].
  - rewrite (stored_lasting T) by done. cbn [omap list_omap]. change (dw_entries (tick w)) with (dw_entries w).
    change (retriable now (tick w)) with (retriable now w). destruct (jget id (dw_entries w)) as [[e x] |]; [| done].
    cbn [fmap option_fmap option_map fst List.filter]. by destruct (retriable now w e).
  - etrans; [apply onward_tick | exact O].
Qed.

(** Entries read by their identifiers, each once. *)
Lemma read_ids (g : string → option DeadLetterEntry) P ids :
  (∀ id e, g id = Some e → de_id e = id) → sublist (de_id <$> List.filter P (omap g ids)) ids.
Proof.
  intros Hg. induction ids as [| id ids IH]; [done |]. cbn [omap list_omap]. destruct (g id) as [e |] eqn:E; [| by apply sublist_cons].
  simpl. destruct (P e); [| by apply sublist_cons]. simpl. rewrite (Hg _ _ E). by apply sublist_skip.
Qed.

Lemma filter_others_length {A} (P : A → bool) l :
  length (List.filter (λ x, negb (P x)) l) = (length l - length (List.filter P l))%nat.
Proof. induction l as [| x l IH]; simpl; [done |]. pose proof (List.filter_length_le P l). destruct (P x); simpl; lia. Qed.

(** The whole pass, from a well-formed store. *)
Lemma pass_exact w :
  let out := processAutoReplays w in
  dlq_wf w → lasting (dw_now out.2) w → dw_now out.2 < dw_now w + retention_ms →
  let chosen := List.filter (retriable (dw_now (tick w)) w) (omap (λ id, stored id w) (dw_index w).*1) in
  let due := List.filter transient chosen in
  ∃ outcomes,
    out.1 = inr (Z.of_nat (length (List.filter replay_ok outcomes)), Z.of_nat (length (List.filter (λ o, negb (replay_ok o)) outcomes)),
                 Z.of_nat (length chosen - length due)) ∧
    dw_auto out.2 = dw_auto w ++ (de_id <$> due) ∧ NoDup (de_id <$> due) ∧
    replays_done w out.2 due outcomes ∧ (∀ id, id ∉ de_id <$> due → stored id out.2 = stored id w) ∧ dw_index out.2 = dw_index w.
Proof.
  intros out Hw Hl Hret chosen due. set (T := dw_now out.2) in *. pose proof (eq_refl T) as HT. unfold T at 1, out at 1 in HT. clearbody T.
  unfold processAutoReplays, getRetriableEntries in *. unfold out in *. clear out. rewrite bind_assoc_run in *.
  assert (ask (λ w, (dw_index w).*1) w = (inr (dw_index w).*1, tick w)) as Hask by (unfold ask, call; simpl next_fate; by rewrite answers).
  erewrite bind_run in * by exact Hask. rewrite bind_assoc_run in *. erewrite bind_run in * by done.
  set (now := dw_now (tick w)) in *. set (ids := (dw_index w).*1) in *.
  assert (dw_now (retriable_from now ids (tick w)).2 ≤ T) as HT1.
  { rewrite <- HT. unfold mbind, M_bind. destruct (retriable_from now ids (tick w)) as [[x | l] w1]; [done | apply onward_loop]. }
  assert (lasting T (tick w)) as Hlt by (unfold lasting; exact Hl).
  destruct (select_exact T now ids (tick w) Hlt HT1) as (w1 & E1 & O1 & J1 & A1). erewrite bind_run in * by exact E1.
  change (dw_entries (tick w)) with (dw_entries w) in *. change (retriable now (tick w)) with (retriable now w) in *.
  assert (dw_now w ≤ T) as Hnow.
  { rewrite <- HT. etrans; [apply (onward_tick w) |]. etrans; [apply O1 |]. apply onward_loop. }
  assert (omap (λ id, fst <$> jget id (dw_entries w)) ids = omap (λ id, stored id w) ids) as Hsel.
  { clear -Hl Hnow. induction ids as [| id ids IH]; [done |]. cbn [omap list_omap]. by rewrite IH, (stored_lasting T). }
  rewrite Hsel in *. fold chosen in HT |- *.
  assert (∀ id e, stored id w = Some e → de_id e = id) as Hkey by (intros; by eapply stored_key).
  assert (NoDup (de_id <$> chosen)) as Hn by (eapply sublist_NoDup; [apply (wf_index w Hw) | by apply read_ids]).
  assert (dlq_wf w1) as Hw1 by (destruct Hw as [W1 W2]; split; [by rewrite (proj2 (proj2 O1)) | by rewrite J1]).
  assert (Forall (λ e, fst <$> jget (de_id e) (dw_entries w1) = Some e) chosen) as Hall.
  { apply Forall_forall. intros e [Hin _]%list_elem_of_In%List.filter_In. apply list_elem_of_In, list_elem_of_omap in Hin as (id & _ & Hid).
    rewrite (Hkey _ _ Hid), J1, <- (stored_lasting T) by done. done. }
  assert (lasting T w1) as Hl1 by (unfold lasting; by rewrite J1).
  destruct (loop_exact T chosen 0 0 0 w1 Hl1 Hw1 Hn Hall) as (os & w' & E2 & L2 & W2 & A2 & R2 & F2);
    [destruct O1 as [HO _]; clear -HO Hret; simpl in HO; lia | rewrite HT; reflexivity |].
  pose proof (onward_loop chosen 0 0 0 w1) as O2. rewrite E2 in HT, O2 |- *. cbn [fst snd] in HT, O2 |- *. fold due in A2, R2, F2.
  exists os. rewrite (filter_others_length transient), !Z.add_0_l. split; [done |]. split; [by rewrite A2, A1 |]. split; [| split; [| split]].
  - eapply sublist_NoDup; [exact Hn |]. apply fmap_sublist. unfold due. clear. induction chosen as [| e l IH]; simpl; [done |].
    destruct (transient e); [by apply sublist_skip | by apply sublist_cons].
  - eapply Forall2_impl; [exact R2 |]. intros e o (t & n & Hf & Hj). exists t, n. split; [done |]. rewrite (stored_lasting T) by (done || lia).
    rewrite Hj. unfold after_replay. by rewrite (retrying_policies w w1) by apply O1.
  - intros id Hid. rewrite !(stored_lasting T) by (done || lia). by rewrite F2, J1.
  - destruct O1 as (_ & _ & Ho), O2 as (_ & _ & ->). exact Ho.
Qed.

(** What [getRetriableEntries] is to select: pending entries with retries left and due. *)
Definition may_retry (now : Z) (policies : dlworld) (e : DeadLetterEntry) : Prop :=
  de_status e = dl_pending ∧
  ∃ p, getRetryPolicy (de_code e) policies = Some p ∧ 0 < rp_maxRetries p ∧ de_attempts e < rp_maxRetries p ∧
       ∀ t, de_nextRetryAt e = Some t → t ≤ now.

(** What is stored for [e] after a replay with the outcome [o]. *)
Definition replay_noted (policies : dlworld) (e : DeadLetterEntry) (o : exn + string) (e' : DeadLetterEntry) : Prop :=
  de_id e' = de_id e ∧ de_request e' = de_request e ∧ de_category e' = de_category e ∧ de_attempts e' = de_attempts e + 1 ∧
  match o with
  | inr h => de_status e' = dl_replayed ∧ de_txHash e' = Some h ∧ de_replayCount e' = de_replayCount e + 1
  | inl _ => de_status e' = dl_retrying ∧ de_txHash e' = de_txHash e ∧ de_replayCount e' = de_replayCount e ∧
      ∀ p, getRetryPolicy (de_code e) policies = Some p → de_attempts e' < rp_maxRetries p →
        de_nextRetryAt e' = Some (de_lastAttemptAt e' + Z.min (rp_backoffMs p * rp_backoffMultiplier p ^ de_attempts e') (rp_maxBackoffMs p))
  end.

Lemma retriable_spec now w e : retriable now w e = true ↔ may_retry now w e.
Proof.
  unfold retriable, may_retry. rewrite andb_true_iff, bool_decide_eq_true. apply and_iff_compat_l.
  destruct (getRetryPolicy (de_code e) w) as [p |]; [| naive_solver].
  rewrite !andb_true_iff, negb_true_iff, Z.ltb_lt, Z.leb_gt. split.
  - intros [[H1 H2] H3]. exists p. do 3 (split; [done |]). intros t Ht. rewrite Ht, negb_true_iff, Z.ltb_ge in H3. done.
  - intros (q & [= <-] & H1 & H2 & H3). split; [done |]. destruct (de_nextRetryAt e) as [t |]; [| done].
    rewrite negb_true_iff, Z.ltb_ge. by apply H3.
Qed.

Lemma after_replay_noted w t o e : replay_noted w e o (after_replay w t o e).
Proof.
  unfold replay_noted, after_replay. destruct o as [x | h]; cbn; repeat (split; [done |]); [| done].
  intros p Hp Hlt. rewrite Hp. apply Z.ltb_lt in Hlt. by rewrite Hlt.
Qed.

Lemma filter_sublist {A} (P : A → bool) l : sublist (List.filter P l) l.
Proof. induction l as [| x l IH]; simpl; [done |]. destruct (P x); [by apply sublist_skip | by apply sublist_cons]. Qed.

(** C14. A pass of the automatic replays is exact, after any history of additions,
    removals, replays, archiving, retention, changes of policy and pauses, if Redis
    answers and no entry expires while the pass runs: it chooses, in the order of the
    index, exactly the entries that are pending, due and within the retries of their
    policy, and replays those of them that are of the transient category, each exactly
    once; an entry whose replay returned is replayed under the hash it returned, one whose
    replay threw is left retrying, with one more attempt and its next retry by the backoff
    of the policy, every other entry is as it was, and the three counts returned are those
    of these outcomes. *)
Theorem auto_replay_pass ops now :
  let w := dlq_run ops (empty_dlworld now) in
  let out := processAutoReplays w in
  lasting (dw_now out.2) w → dw_now out.2 < dw_now w + retention_ms →
  let entries := omap (λ id, stored id w) (dw_index w).*1 in
  ∃ chosen outcomes,
    let due := List.filter transient chosen in
    sublist chosen entries ∧ (∀ e, e ∈ chosen ↔ e ∈ entries ∧ may_retry (dw_now (tick w)) w e) ∧
    out.1 = inr (Z.of_nat (length (List.filter replay_ok outcomes)), Z.of_nat (length (List.filter (λ o, negb (replay_ok o)) outcomes)),
                 Z.of_nat (length chosen - length due)) ∧
    dw_auto out.2 = dw_auto w ++ (de_id <$> due) ∧ NoDup (de_id <$> due) ∧
    Forall2 (λ e o, (∃ n, replayFn n (de_request e) = o) ∧ ∃ e', stored (de_id e) out.2 = Some e' ∧ replay_noted w e o e') due outcomes ∧
    (∀ id, id ∉ de_id <$> due → stored id out.2 = stored id w) ∧ dw_index out.2 = dw_index w.
Proof.
  intros w out Hl Hret entries. destruct (pass_exact w (wf_history ops now) Hl Hret) as (os & H1 & H2 & H3 & H4 & H5).
  exists (List.filter (retriable (dw_now (tick w)) w) entries), os. split; [apply filter_sublist |]. split; [| split_and!; try done].
  - intros e. by rewrite <- retriable_spec, !list_elem_of_In, List.filter_In.
  - eapply Forall2_impl; [exact H4 |]. intros e o (t & n & Hf & Hs). split; [by exists n |]. eexists. split; [exact Hs | apply after_replay_noted].
  - by destruct H5.
  - by destruct H5.
Qed.
End pass.

Module dlq_example.
(** Redis fails at the call [bad]; the first [failing] replays fail. *)
Definition env (bad failing : nat) : DeadLetterEnv := {|
  dl_fate := λ n, if Nat.eqb n bad then CallFails (Error "read ECONNRESET") else CallOk; dl_latency := λ _, 1%N;
  replayFn := λ n _, if Nat.ltb n failing then inl (Error "timeout") else inr "tx-1" |}.
Definition request : tx_request := TxRequest
  {| rq_sourceAddress := "GA"; rq_userId := None; rq_walletId := None; rq_delegationId := None; rq_amountStroops := None |} "C1" "transfer" [] None.
Definition add : dlq_op := d_add "d1" "j1" request (Failure "TX_RPC_TRANSIENT" "timeout" true) None 1.
Definition never : DeadLetterEnv := {| dl_fate := λ _, CallOk; dl_latency := λ _, 1%N; replayFn := λ _ _, inl (Error "timeout") |}.

(** Three dead letters: one whose replay fails, one whose replay returns, one that is
    not transient. *)
Definition mixed : DeadLetterEnv := {| dl_fate := λ _, CallOk; dl_latency := λ _, 1%N;
  replayFn := λ _ r, if String.eqb (tq_contractId r) "C1" then inl (Error "timeout") else inr "tx-2" |}.
Definition other : tx_request := TxRequest (tq_base request) "C2" "transfer" [] None.
Definition mixed_ops : list dlq_op :=
  [add; d_add "d2" "j2" other (Failure "TX_POLL_TIMEOUT" "timeout" true) None 1;
   d_add "d3" "j3" other (Failure "TX_SIMULATION_FAILED" "trapped" false) None 1; d_wait 60000].

Lemma auto_replay_pass_witness :
  let w := dlq_run (DE := mixed) mixed_ops (empty_dlworld 0) in
  let out := processAutoReplays (DE := mixed) w in
  (out.1, dw_auto out.2, de_status <$> stored "d1" out.2, de_status <$> stored "d2" out.2, de_status <$> stored "d3" out.2) =
    (inr (1, 1, 1), ["d1"; "d2"], Some dl_retrying, Some dl_replayed, Some dl_pending) ∧
  (∀ id, id ∉ ["d1"; "d2"] → stored id out.2 = stored id w).
Proof.
  intros w out. split; [by vm_compute |].
  destruct (auto_replay_pass (DE := mixed) (λ _, eq_refl) mixed_ops 0) as (ch & os & Hsub & Hch & Hcount & Hauto & _ & _ & H & _).
  - intros id e x Hid. vm_compute in Hid. repeat (case_match; [by injection Hid as <- <-; vm_compute |]). done.
  - by vm_compute.
  - intros id Hid. apply H. assert (dw_auto out.2 = ["d1"; "d2"]) as E1 by by vm_compute. assert (dw_auto w = []) as E2 by by vm_compute.
    fold w out in Hauto. rewrite E1, E2 in Hauto. simpl in Hauto. by rewrite <- Hauto.
Defined.

(** A replay that fails leaves its entry in retrying: with four of the five retries of
    its policy left, it is never retried again. *)
Lemma failed_replay_stays_retrying :
  let w := dlq_run (DE := never) [add; d_wait 60000; d_auto; d_wait 86400000; d_auto] (empty_dlworld 0) in
  (de_status <$> stored "d1" w, de_attempts <$> stored "d1" w, dw_auto w) = (Some dl_retrying, Some 2, ["d1"]).
Proof. by vm_compute. Qed.

(** When Redis fails as the entry is marked, it is replayed unmarked; if the replay
    reports an error, it is replayed again. *)
Lemma unmarked_replay_repeats :
  dw_auto (dlq_run (DE := env 5 1000) [add; d_wait 60000; d_auto; d_auto] (empty_dlworld 0)) = ["d1"; "d1"] ∧
  dw_auto (dlq_run (DE := env 1000 1000) [add; d_wait 60000; d_auto; d_auto] (empty_dlworld 0)) = ["d1"].
Proof. by vm_compute. Qed.

(** An entry that was replayed can be replayed by hand again. *)
Lemma manual_replay_repeats :
  let w := dlq_run (DE := env 1000 0) [add; d_wait 60000; d_auto; d_manual "d1"] (empty_dlworld 0) in
  (dw_auto w, dw_manual w, de_replayCount <$> stored "d1" w) = (["d1"], ["d1"], Some 2).
Proof. by vm_compute. Qed.
End dlq_example.
