(* ===== verification/Sponsorship.v ===== *)
(** * Fee sponsorship (apps/backend/wallet/src/sponsorship/)

    The gas tank pays the fees of new accounts: its policy, the counters in Redis, the
    eligibility check and the submitter, and the theorem that the caps of the policy hold
    over any sequence of submissions.  The signature (stellar-sdk), the answers of the
    node, the fate and the duration of the calls are parameters; service and Redis share
    a clock.  Counters are integers, which GET returns in decimal. *)
From S2P Require Import Prelude JsLib JsCollections Services Calendar SpendLimits SpendCorrect Sequences TxQueue.
Local Open Scope Z_scope.

(** ** Types *)

Record GasSponsorshipPolicy := SponsorshipPolicy {
  maxDailySponsoredLedgers : Z; maxSpendPerAccountStroops : string; authorizedContracts : list string
}.

Inductive SponsorshipDenialReason :=
  | ACCOUNT_NOT_ELIGIBLE | CONTRACT_NOT_AUTHORIZED | ACCOUNT_BUDGET_EXCEEDED | DAILY_LEDGER_BUDGET_EXCEEDED
  | INVALID_REQUEST | SPONSOR_NOT_CONFIGURED.

Record SponsorshipDecision := Decision_ {
  eligible : bool; sd_reason : option SponsorshipDenialReason; sd_detail : option string;
  sd_dailyRemaining : option Z; sd_accountRemainingStroops : option string
}.

Record SponsorshipLedgerEntry := LedgerEntry {
  le_account : string; le_contractId : string; le_feeStroops : string; le_txHash : string; le_sponsoredAt : string
}.

Record SponsoredSubmitRequest := SubmitRequest { buyerAccount : string; txXdr : string; ssr_contractId : string; feeStroops : string }.

Inductive submit_reason := Denied (r : SponsorshipDenialReason) | SUBMIT_FAILED.
Record SponsoredSubmitResult := SubmitResult {
  sub_success : bool; sub_txHash : option string; sub_reason : option submit_reason; sub_detail : option string
}.

(** A submission the node took in: on which day it was to be recorded, and whether
    recordSponsored returned. *)
Record acknowledged := Acknowledged { ak_account : string; ak_contract : string; ak_fee : Z; ak_day : Z; ak_recorded : bool }.

Record tank := Tank {
  (** the keys of Redis; the submissions the node took in; calls made; the clock *)
  tk_counters : jsmap (Z * option Z); tk_log : list SponsorshipLedgerEntry; tk_acked : list acknowledged; tk_calls : nat; tk_now : Z
}.

Class TankEnv := {
  tank_policy : GasSponsorshipPolicy;
  sponsorSecret : string;
  tank_fate : nat → call_fate;
  tank_latency : nat → N;
  (** [Keypair.fromSecret], [TransactionBuilder.fromXDR], [sign], [toXDR] *)
  sign_xdr : string → string → exn + string;
  (** hash and status of the n-th call of [sendTransaction] *)
  node_answer : nat → string → exn + (string * string)
}.

(** ** The gas tank *)

Definition DAY_SECONDS : Z := 24 * 60 * 60.
Definition KEY_DAILY_LEDGERS (utcDay : string) : string := "gasTank:dailyLedgers:" +:+ utcDay.
Definition KEY_ACCOUNT_SPEND (account : string) : string := "gasTank:accountSpend:" +:+ account.

Section tank.
Context `{TE : TankEnv}.
Implicit Types w : tank.

Definition set_counters (f : jsmap (Z * option Z) → jsmap (Z * option Z)) w : tank := Tank (f (tk_counters w)) (tk_log w) (tk_acked w) (tk_calls w) (tk_now w).
Definition set_log (f : list SponsorshipLedgerEntry → list SponsorshipLedgerEntry) w : tank := Tank (tk_counters w) (f (tk_log w)) (tk_acked w) (tk_calls w) (tk_now w).
Definition note_ack (a : acknowledged) w : tank := Tank (tk_counters w) (tk_log w) (tk_acked w ++ [a]) (tk_calls w) (tk_now w).
Definition wait (ms : N) w : tank := Tank (tk_counters w) (tk_log w) (tk_acked w) (tk_calls w) (tk_now w + Z.of_N ms).
Definition count_tank_call w : tank := Tank (tk_counters w) (tk_log w) (tk_acked w) (S (tk_calls w)) (tk_now w + Z.of_N (tank_latency (tk_calls w))).

#[export] Instance tank_services : Services tank := {| next_fate := λ w, tank_fate (tk_calls w); tick := count_tank_call |}.

Definition isConfigured : bool := negb (String.length sponsorSecret =? 0)%nat.

Definition utcDay (d : Z) : string := String.substring 0 10 (toISOString d).

(** GET *)
Definition counter_value (k : string) w : Z := default 0 (rget (tk_now w) k (tk_counters w)).

Definition getDailyLedgers : M tank Z :=
  now ← gets tk_now;
  ask (counter_value (KEY_DAILY_LEDGERS (utcDay now))).

Definition getDailyRemaining : M tank Z :=
  used ← getDailyLedgers;
  mret (Z.max 0 (maxDailySponsoredLedgers tank_policy - used)).

Definition getAccountSpendStroops (account : string) : M tank Z := ask (counter_value (KEY_ACCOUNT_SPEND account)).

Definition getAccountRemainingStroops (account : string) : M tank Z :=
  spent ← getAccountSpendStroops account;
  cap ← BigInt_throw (maxSpendPerAccountStroops tank_policy);
  mret (if cap <=? spent then 0 else cap - spent).

(** INCRBY: an expired counter is a new one, and a new one has no expiry. *)
Definition incr_key (k : string) (amount : Z) : M tank Z :=
  r ← call (λ w,
    let v := counter_value k w + amount in
    if int64_ok amount && int64_ok v then (inr v, set_counters (jset k (v, rexpiry (tk_now w) k (tk_counters w))) w)
    else (inl (ReplyError "ERR value is not an integer or out of range"), w));
  answer r.

(** [String(Number(fee))] of a fee that is no integer of at most 64 bits is refused by Redis. *)
Definition recordSponsored (entry : SponsorshipLedgerEntry) : M tank () :=
  now ← gets tk_now;
  let dailyKey := KEY_DAILY_LEDGERS (utcDay now) in
  next ← incr_key dailyKey 1;
  (if next =? 1 then write (λ w, set_counters (rexpire (tk_now w) dailyKey ((DAY_SECONDS + 3600) * 1000)) w) else mret ());;
  incr_key (KEY_ACCOUNT_SPEND (le_account entry)) (default (2 ^ 63) (Number_integer (le_feeStroops entry)));;
  write (set_log (λ l, entry :: l));;
  write (set_log (take 1000)).

Definition recentLedgers (limit : Z) : M tank (list SponsorshipLedgerEntry) :=
  ask (λ w, take (Z.to_nat (Z.max 0 (limit - 1) + 1)) (tk_log w)).

(** ** Eligibility *)

Definition strkey_of (kind : ascii) (s : string) : bool :=
  match chars (trim s) with
  | c :: l => Ascii.eqb c kind && Nat.eqb (length l) 55 && forallb base32_char l
  | [] => false
  end.
Definition isValidStellarAccount (addr : string) : bool := strkey_of "G" addr.
Definition isValidSorobanContract (id : string) : bool := strkey_of "C" id.

Definition parseStroops (s : string) : option Z := if all_digits s then BigInt s else None.

Definition deny (r : SponsorshipDenialReason) (detail : string) (daily : option Z) (account : option string) : SponsorshipDecision :=
  Decision_ false (Some r) (Some detail) daily account.

Definition checkEligibility (request : SponsoredSubmitRequest) : M tank SponsorshipDecision :=
  if negb isConfigured then mret (deny SPONSOR_NOT_CONFIGURED "No sponsor secret configured on this replica." None None) else
  if negb (isValidStellarAccount (buyerAccount request)) then
    mret (deny INVALID_REQUEST ("Invalid buyer account: " +:+ buyerAccount request) None None) else
  if negb (isValidSorobanContract (ssr_contractId request)) then
    mret (deny INVALID_REQUEST ("Invalid contract ID: " +:+ ssr_contractId request) None None) else
  match parseStroops (feeStroops request) with
  | None => mret (deny INVALID_REQUEST ("Invalid fee stroops: " +:+ feeStroops request) None None)
  | Some fee =>
      if fee <=? 0 then mret (deny INVALID_REQUEST ("Invalid fee stroops: " +:+ feeStroops request) None None) else
      if negb (bool_decide (ssr_contractId request ∈ authorizedContracts tank_policy)) then
        mret (deny CONTRACT_NOT_AUTHORIZED ("Contract " +:+ ssr_contractId request +:+ " is not in the sponsorship allowlist.") None None) else
      dailyRemaining ← getDailyRemaining;
      if dailyRemaining <=? 0 then
        mret (deny DAILY_LEDGER_BUDGET_EXCEEDED ("Daily ledger budget exhausted (" +:+ dec (maxDailySponsoredLedgers tank_policy) +:+ ").") (Some 0) None) else
      accountRemaining ← getAccountRemainingStroops (buyerAccount request);
      if accountRemaining <? fee then
        mret (deny ACCOUNT_BUDGET_EXCEEDED ("Account " +:+ buyerAccount request +:+ " has " +:+ dec accountRemaining +:+ " stroops remaining, needs " +:+ dec fee +:+ ".")
                None (Some (dec accountRemaining))) else
      mret (Decision_ true None None (Some (dailyRemaining - 1)) (Some (dec (accountRemaining - fee))))
  end.

(** ** The submitter *)

Definition submit_failed (detail : string) (txHash : option string) : SponsoredSubmitResult := SubmitResult false txHash (Some SUBMIT_FAILED) (Some detail).

(** A submission takes time and may fail; what the node did is in its answer. *)
Definition send_to_node (xdr : string) : M tank (exn + (string * string)) := λ w, (inr (node_answer (tk_calls w) xdr), tick w).

Definition complete_submission (request : SponsoredSubmitRequest) : M tank SponsoredSubmitResult :=
  match sign_xdr sponsorSecret (txXdr request) with
  | inl e => mret (submit_failed (exn_message e) None)
  | inr signedXdr =>
      res ← send_to_node signedXdr;
      match res with
      | inl e => mret (submit_failed (exn_message e) None)
      | inr (txHash, status) =>
          if negb (String.eqb status "PENDING") && negb (String.eqb status "DUPLICATE") then
            mret (submit_failed ("RPC returned status " +:+ status) (Some txHash))
          else
            now ← gets tk_now;
            recorded ← try_catch
              (recordSponsored (LedgerEntry (buyerAccount request) (ssr_contractId request) (feeStroops request) txHash (toISOString now));; mret true)
              (λ _, mret false);
            modify (note_ack (Acknowledged (buyerAccount request) (ssr_contractId request) (default 0 (parseStroops (feeStroops request))) (Day now) recorded));;
            mret (SubmitResult true (Some txHash) None None)
      end
  end.

Definition submit (request : SponsoredSubmitRequest) : M tank SponsoredSubmitResult :=
  decision ← checkEligibility request;
  if negb (eligible decision) then mret (SubmitResult false None (Denied <$> sd_reason decision) (sd_detail decision))
  else complete_submission request.
End tank.

(** ** Days *)









(** ** Histories *)

Definition recorded_for (account : string) (l : list acknowledged) : Z :=
  foldr (λ a n, (if ak_recorded a && String.eqb (ak_account a) account then ak_fee a else 0) + n) 0 l.

Definition empty_tank (now : Z) : tank := Tank [] [] [] 0 now.

Section caps.
Context `{TE : TankEnv}.
Implicit Types w : tank.


Context (cap : Z) (Hcap : BigInt (maxSpendPerAccountStroops tank_policy) = Some cap).
Context (Hsafe : cap < 2 ^ 53 ∧ maxDailySponsoredLedgers tank_policy < 2 ^ 53).
Local Notation most := (maxDailySponsoredLedgers tank_policy).
Local Notation KD t := (KEY_DAILY_LEDGERS (utcDay t)).
Local Notation KA := KEY_ACCOUNT_SPEND.

(** ** The counters

    [nd] and [ns] are the submissions of a day and the fees of an account that the
    counters must cover. *)









(** ** The writes *)








(** ** Recording

    What holds after a call, if the clock has not left the four-digit years, in case it
    returns and in case it throws; it throws only if a call of Redis failed. *)



Section recording.
Context (L : list acknowledged) (t : Z) (Ht : 0 ≤ t) (Fail : tank → Prop).




End recording.



Section record.
Context (L : list acknowledged) (t : Z) (Ht : 0 ≤ t) (nd : Z → Z) (ns : string → Z) (a : string) (f : Z) (Hf : 0 < f).












End record.

(** ** The check *)

(** Only time has passed. *)
Definition waited : relation tank := λ w w', tk_counters w' = tk_counters w ∧ tk_acked w' = tk_acked w ∧ tk_now w ≤ tk_now w'.

#[export] Instance waited_preorder : PreOrder waited.
Proof. split; [intros w; by split_and! |]. intros w1 w2 w3 (? & ? & ?) (? & ? & ?). split_and!; [congruence .. | lia]. Qed.






(** ** Submissions *)











End caps.


(** ** Concrete runs *)
Module sponsorship_example.

Definition letters (n : nat) : string := of_chars (repeat "A"%char n).
Definition buyer : string := "G" +:+ letters 55.
Definition shop : string := "C" +:+ letters 55.

(** 100 stroops for an account, two submissions a day; every call takes a millisecond. *)
Definition demo_tank (status : string) : TankEnv := {|
  tank_policy := SponsorshipPolicy 2 "100" [shop]; sponsorSecret := "SECRET"; tank_fate := λ _, CallOk; tank_latency := λ _, 1%N;
  sign_xdr := λ _ xdr, inr (xdr +:+ "+signature"); node_answer := λ _ xdr, inr (xdr, status) |}.
#[local] Instance pending_tank : TankEnv := demo_tank "PENDING".

Definition sponsored (account fee : string) : SponsoredSubmitRequest := SubmitRequest account "XDR" shop fee.
Definition two_fees : tank := (submit (sponsored buyer "40") (wait 5000 (submit (sponsored buyer "60") (empty_tank 0)).2)).2.


(** The cap of an account is kept under the address as it was sent: with a blank before
    it, the same account has another budget. *)
Theorem padded_address_evades_cap :
  let w := (submit (sponsored (" " +:+ buyer) "100") (submit (sponsored buyer "100") (empty_tank 0)).2).2 in
  trim (" " +:+ buyer) = buyer ∧ (ak_account <$> tk_acked w) = [buyer; " " +:+ buyer] ∧ (ak_fee <$> tk_acked w) = [100; 100].
Proof. vm_compute. split_and!; reflexivity. Qed.

(** Two submissions whose checks both run before the first of them is recorded. *)
Theorem concurrent_submissions_exceed :
  let first := sponsored buyer "100" in
  let w := (checkEligibility first;; checkEligibility first;; complete_submission first;; complete_submission first) (empty_tank 0) in
  recorded_for buyer (tk_acked w.2) = 200.
Proof. vm_compute. reflexivity. Qed.

(** A transaction that is sent again is charged again. *)
Theorem duplicate_charged_again :
  let w := (submit (sponsored buyer "50") (empty_tank 0)).2 in
  let again := (submit (TE := demo_tank "DUPLICATE") (sponsored buyer "50") w).2 in
  (le_txHash <$> tk_log again) = ["XDR+signature"; "XDR+signature"] ∧ counter_value (KEY_ACCOUNT_SPEND buyer) again = 100.
Proof. vm_compute. split; reflexivity. Qed.

(** Four submissions within a minute around midnight. *)
Theorem window_is_calendar_day :
  let once w := (submit (sponsored buyer "10") w).2 in
  let w := once (once (wait 60000 (once (once (empty_tank (msPerDay - 30000)))))) in
  length (tk_acked w) = 4%nat ∧ tk_now w < msPerDay + 60000.
Proof. vm_compute. split; reflexivity. Qed.

(** No entries asked for, one returned. *)
Theorem recent_none_returns_one : ∃ entry, (recentLedgers 0 two_fees).1 = inr [entry].
Proof. eexists. vm_compute. reflexivity. Qed.
End sponsorship_example.
